(* ===== verification/_CoqProject ===== *)
-Q . S2P
Prelude.v
RustStr.v
PatchParser.v
PatchGrammar.v
SeekSequence.v
Splice.v
TextFile.v
FileUpdate.v
ApplyPatch.v
MemFs.v
ExecRule.v
ExecPolicy.v
ExecPolicyParser.v
ExecAmend.v
StreamText.v
InlineTag.v
TaggedLine.v
Utf8Stream.v
ByteStr.v
SyntaxTree.v
ShellDetect.v
BashScript.v
PowerShell.v
DangerousCommand.v
UriPath.v
Permissions.v
PermissionTarget.v
ExecApproval.v
PolicyTransforms.v
Orchestrator.v
ExecLoad.v
ExecUpdate.v
RustInt.v
GoalStore.v
GoalAccounting.v
GoalRuntime.v
GoalRun.v
Truncate.v
ResponseItem.v
Normalize.v
ContextFragments.v
UserMessage.v
ContextManager.v
Compaction.v
ContextWindow.v
Invocation.v
PatchTool.v
RustNet.v
NetPolicy.v
NetConfig.v
NetProxy.v
NetUpdate.v
Json.v
ModelStream.v
ChatStream.v
GeminiStream.v
AnthropicStream.v
