(* ===== verification/Prelude.v ===== *)
(** * Verification of the Ore coding agent

    Ore ([codex-rs], a fork of the Codex CLI) is an agent that lets a language
    model read and change a user's files and run commands.  The parts that decide
    what happens to the user's data, commands and conversation are modelled here;
    all paths below are under [src/codex-rs/].

    - _Patches_ ([apply-patch], [core/src/safety.rs] and the apply-patch tool).
      The model emits a patch as text, by itself or in a shell script.  It is
      parsed, possibly while it is still arriving; each hunk is located in the file
      it names by an increasingly lenient search; the result is shown for approval
      when the policy wants that; the edits are applied through an abstract file
      system; and a record of what was committed (the delta) is returned even when
      a later hunk fails.
    - _Command policy_ ([execpolicy], [core/src/exec_policy.rs]).  Starlark rule
      files are compiled into a store of prefix rules, network rules and known
      executables.  A command is split into the commands it runs
      ([shell-command]), each is looked up in the store or judged by a list of
      dangerous commands, and the result says whether to run it, to ask, or to
      refuse.  Approving a command appends a rule; a one-shot migration removes
      rules that should never have been appended.
    - _Permissions_ ([utils/path-uri], [protocol/src/permissions.rs],
      [sandboxing]).  Which paths a command may read and write, by entries that
      name paths, globs and symbolic places; how the permissions of a request are
      merged and intersected; and [core/src/tools/orchestrator.rs], which asks,
      chooses a sandbox, runs, and retries.
    - _Network_ ([network-proxy]).  Commands reach the network through a proxy.
      Lists of domain patterns, bounded by an administrator's constraints, say
      which hosts they may reach; a decider may be asked about others; the lists
      change while requests are served.
    - _Goals_ ([ext/goal], [state/src/runtime/goals.rs]).  A thread works on a
      goal with a token budget; hooks charge tokens and time to it in a database.
    - _The conversation_ ([core/src/context_manager], [core/src/compact.rs],
      [core/src/session/context_window.rs]).  Items are recorded, truncated
      ([utils/output-truncation]), estimated, rolled back and normalized into a
      prompt; when the window is full they are compacted into the newest messages of
      the user and a summary.
    - _Model streams_ ([codex-api/src/sse], [core/src/session/turn.rs]).  Each
      provider streams its answer over its own wire; a parser per wire turns it into
      the events a turn consumes.
    - _Streamed assistant text_ ([utils/stream-parser]).  Text arrives in
      arbitrary chunks, as bytes cut inside code points too.  Citations and
      proposed-plan blocks are taken out of it before it is shown.

    ** Files

    Shared:
    - [Prelude.v]: [Result] as an error monad, options, list facts and the
      tactics of the development.
    - [RustStr.v]: Rust strings as lists of code points, with the [str] methods
      the sources call ([trim], [lines], [strip_prefix], ...) and their hint
      database.
    - [ByteStr.v]: byte lengths and slices of such strings; [RustInt.v]: [i64],
      [u64] and [u8] arithmetic with saturation and wrap-around.

    Patches, in the order of the calls:
    - [PatchParser.v]: [parser.rs] and [streaming_parser.rs].  The state of the
      streaming parser is a record with the source's fields; [push_delta],
      [finish] and [parse_patch] are functions on it.
    - [PatchGrammar.v]: the grammar of the module comment of [parser.rs] as
      abstract syntax with a printer, the specification of the parser.
    - [SeekSequence.v]: [seek_sequence.rs].
    - [Splice.v]: the reference meaning of a list of replacements, shared by
      [TextFile.v] ([text_file.rs]) and [FileUpdate.v] ([file_update.rs]).
    - [ApplyPatch.v]: [lib.rs] over the class [ExecutorFileSystem]; [MemFs.v]:
      an instance of the class on which the theorems are run.
    - [Invocation.v]: [invocation.rs], recognizing a call and verifying it.
    - [PatchTool.v]: the tool, from the verified action through the safety check,
      the permissions and the orchestrator to the files ([core/src/safety.rs],
      [core/src/apply_patch.rs], [core/src/tools/handlers/apply_patch.rs],
      [core/src/tools/runtimes/apply_patch.rs], [sandboxing/src/denial.rs]).

    Policy:
    - [ExecRule.v]: [decision.rs], [error.rs], [rule.rs].
    - [ExecPolicy.v]: [policy.rs], [executable_name.rs].
    - [ExecPolicyParser.v]: [parser.rs].
    - [ExecAmend.v]: [amend.rs], [sandbox_migration.rs].
    - [SyntaxTree.v]: the trees of a tree-sitter grammar, with their spans;
      [BashScript.v]: [bash.rs]; [PowerShell.v]: [powershell_tree_sitter.rs];
      [ShellDetect.v]: [shell_detect.rs]; [DangerousCommand.v]:
      [is_dangerous_command.rs] and its Windows counterpart.
    - [ExecApproval.v]: the decision about a command and the amendments proposed
      for it ([exec_policy.rs]); [ExecLoad.v]: loading and overlaying the rules
      files; [ExecUpdate.v]: concurrent updates, as a step relation.

    Permissions:
    - [UriPath.v]: [utils/path-uri]; URIs are canonical lists of decoded segments
      with the convention (POSIX or Windows) of the machine they name.
    - [Permissions.v]: entries, resolution, access ([permissions.rs]);
      [PermissionTarget.v]: [permissions/target.rs] and
      [permissions/deny_read_validator.rs].
    - [PolicyTransforms.v]: [sandboxing/src/policy_transforms.rs].
    - [Orchestrator.v]: a run of a tool, with the helpers of
      [core/src/tools/sandboxing.rs] and [sandboxing/src/manager.rs].

    Network:
    - [RustNet.v]: the addresses of [std::net], their parser and predicates.
    - [NetPolicy.v]: [policy.rs], hosts, patterns, and which addresses are public.
    - [NetConfig.v]: [config.rs], [socket_path.rs] and the constraints of
      [state.rs].
    - [NetProxy.v]: building the state of the proxy ([state.rs]) and its decisions
      ([runtime.rs], [network_policy.rs], [connect_policy.rs]).
    - [NetUpdate.v]: the concurrent updates of [runtime.rs], as a step relation.

    Goals:
    - [GoalStore.v]: the statements of [goals.rs] on its two tables.
    - [GoalAccounting.v]: [accounting.rs]; [GoalRuntime.v]: the handlers of
      [runtime.rs]; [GoalRun.v]: their interleavings, as a step relation, and the
      ledger of what was charged.

    Conversation:
    - [Truncate.v]: [utils/string/src/truncate.rs] and
      [utils/output-truncation/src/lib.rs].
    - [ResponseItem.v]: the items ([protocol/src/models.rs]) and their envelopes.
    - [Normalize.v]: [normalize.rs].
    - [ContextFragments.v]: the texts the harness injects, and how they are
      recognized ([context-fragments], [core/src/context]).
    - [UserMessage.v]: the message made of a user's input and reading it back
      ([models.rs], [event_mapping.rs]).
    - [ContextManager.v]: [history.rs] and the loop of [compact.rs].
    - [Compaction.v]: the history a compaction builds and installs ([compact.rs],
      [session/mod.rs], [user_goal.rs]).
    - [ContextWindow.v]: [context_window.rs], [auto_compact_window.rs].

    Model streams:
    - [Json.v]: the values of [serde_json] with their accessors.
    - [ModelStream.v]: the events ([common.rs], [error.rs]), parsers as state machines
      that emit them, the protocol between parser and turn as an automaton, and the
      turn's side of it ([turn.rs]).
    - [ChatStream.v]: [chat.rs]; [GeminiStream.v]: [gemini.rs];
      [AnthropicStream.v]: [anthropic.rs], each with its usage file.

    Streams:
    - [StreamText.v]: the trait [StreamTextParser] as a class, its laws as
      [LawfulStreamParser], and substring search on a stream.
    - [InlineTag.v]: [inline_hidden_tag.rs], [citation.rs].
    - [TaggedLine.v]: [tagged_line_parser.rs], [proposed_plan.rs],
      [assistant_text.rs].
    - [Utf8Stream.v]: [utf8_stream.rs] over any lawful stream parser.

    ** What the theorems show

    Parsing.  The parser inverts the printer of the grammar, with and without the
    heredoc wrapper ([parse_patch_render], [parse_patch_heredoc]), for the patches
    of the grammar it accepts (an update without changes and a context without
    lines it refuses, [empty_changes_refused]); the preview of a patch that is still
    arriving only grows ([preview_only_grows]); what it returns is complete enough for the application never to index out of range
    ([parse_patch_hunks_complete]).

    Editing.  The search returns the first match of the strictest pass that
    matches, and its slices stay in range ([seek_sequence_hit], [seek_sequence_total]).  Both replacement routines are the same splice
    ([apply_replacements_splice], [source_apply_replacements_splice]); a list of
    chunks found in order, with their contexts and anchors, replaces exactly their
    blocks ([update_script_applies]); no panic is reachable ([derive_new_contents_total],
    [apply_patch_never_panics]).

    Application.  The laws of the class describe files and symbolic links, which an
    operation follows or refuses; any operation may fail.  Entries that no path of a
    hunk leads to are untouched ([apply_hunks_frame]), and an exact delta, replayed
    or undone where its paths lead, relates the old and new entries whether the
    patch succeeded or failed half way ([apply_hunks_delta_faithful]); removing a
    link is not exact ([links_are_inexact]).  What was shown for approval is what
    happens ([approved_patch_is_applied]), and a call changes nothing that is neither
    approved nor reached from a path the policy lets it write
    ([patch_call_respects_policy]).  Defects: moving a file onto itself removes it
    ([self_move_deletes_file]); a file moved onto the target of a later hunk, two
    paths that lead to one file, and carriage returns make the approved and the
    applied changes differ ([moved_onto_target], [links_meet],
    [carriage_returns_lost]).

    Policy.  Prefix patterns mean what they say ([matches_prefix_spec],
    [prefix_rule_meaning]); the indexed lookup loses no rule
    ([match_exact_rules_complete]) because every operation keeps the index
    ([policy_wf_preserved], [parse_files_wf]); the decision is the strictest of
    the matches ([check_with_options_strictest], [check_multiple_strictest]) and
    overlays do not relax it ([merge_overlay_never_relaxes]).  Amendments never
    lose policy text, whichever system call fails ([append_rule_keeps_contents]),
    and the migration removes exactly the banned lines ([append_then_strip],
    [prefix_rule_migration_once]).

    Commands.  A script accepted as plain commands runs exactly the reported
    words, by the rules of the shell manuals and in order ([plain_words_are_arguments], [word_only_commands_in_order],
    [powershell_script_is_literal]); the danger of a command is found through
    wrappers and at any depth of a script ([dangerous_command_match_spec],
    [script_danger_is_found]).  A command that runs unasked is covered by rules or
    harmless and allowed by the settings ([approval_skip_sound]); everything else
    is asked or refused ([approval_refusals]); an unfamiliar shell gains nothing
    ([unfamiliar_shell_gains_no_trust]); an accepted amendment takes effect
    ([accepted_amendment_takes_effect]), except under an environment with rules of its
    own ([overlaid_amendment_is_lost], a defect); administrators' rules stay in force
    ([requirements_stay_in_force]); concurrent updates are serial
    ([updates_are_serial]).

    Permissions.  Containment of URIs is a prefix order
    ([containment_is_prefix_order]); the deepest entry decides
    ([resolve_access_most_specific]), metadata directories stay protected
    ([metadata_stays_protected]), denials are preserved
    ([preserved_denials_stay], [validated_profile_enforces_denials]), also for an
    approved command, which keeps its policy when a denial cannot be kept otherwise
    ([approved_command_writes_all_but_denied]); an intersection gives nothing that was
    not requested, deny globs counted ([intersection_within_request]).  A run
    follows the approval protocol ([attempts_are_authorised]) and a denied path is
    denied in every attempt ([denied_reads_survive]).  Defects:
    [approved_command_loses_escaping_denial],
    [metadata_protection_depends_on_order], [unplaced_denial_leaves_sandbox],
    [intersection_loses_read_only_part], [brace_denial_is_lost].

    Network.  The masks and predicates of addresses describe the reserved blocks
    ([non_public_ipv4_blocks], [non_public_ipv6_blocks]); compiled patterns match
    the hosts they name ([patterns_mean]); a host is let through exactly when it is
    listed, not denied and leads to public addresses or is named itself
    ([allowed_host_is_safe]), within an administrator's list
    ([managed_allowlist_bounds_hosts]); a decider only widens the lists
    ([decider_only_widens]); connections are checked again
    ([connections_stay_public]).  However updates interleave, the constraints hold
    ([constraints_always_hold]), no update is lost ([updates_are_linear]) and a
    committed denial is in force ([added_denial_blocks]).  Defects:
    [port_hides_entry], [recorded_request_lost], [forced_reload_resets_total].

    Goals.  No goal is active beyond its budget ([active_goal_within_budget]);
    nothing is charged twice and the database agrees with the ledger, for every
    interleaving of hooks and failing statements ([charges_bounded_by_usage],
    [store_agrees_with_ledger], also for a goal the run began with); a stopped goal is not continued
    ([stop_prevents_continuation]).

    Conversation.  Truncation keeps the longest ends that fit
    ([truncate_text_spec], [truncate_items_spec]).  A prompt has its calls and
    outputs paired and no media the model cannot read ([normalized_history],
    [normalization_idempotent]); removing the oldest item keeps the pairs
    ([remove_first_item_keeps_pairs]); the compaction loop ends
    ([compaction_terminates]) and leaves the newest messages of the user, the
    context and the summary in their places ([compacted_history_shape],
    [context_goes_before_last_message]); compacting again changes only the summary
    ([compaction_is_stable]), and goal changes made meanwhile, and nothing else, are kept
    ([goal_changes_survive]); what a user sends can be read back
    ([user_input_round_trip]); a rollback keeps the earlier turns
    and drops the context injected for the others ([rollback_keeps_earlier_turns]), and injected context is no turn
    ([injected_context_is_no_turn]); estimates are capped sums
    ([estimates_are_capped_sums]); a reported usage over the limit forces
    compaction ([reported_usage_forces_compaction]).  [full_window_not_reached] is
    a defect: a history marked full can count as nearly empty.

    Model streams.  Whatever arrives, the events of the Chat Completions and Gemini
    parsers keep the protocol, so that the turn accepts them
    ([chat_events_are_bracketed], [gemini_events_are_bracketed],
    [bracketed_is_consumed]); no text is lost ([chat_text_is_complete]), calls are put
    together from their fragments, told apart by index, identifier or order ([chat_calls_are_assembled]), and streaming is
    reading at once ([gemini_stream_is_batch]).  An Anthropic run ends once and forgets
    no block ([anthropic_run_ends_once]); a message of non-empty blocks is delivered
    block by block ([anthropic_message_is_delivered]).  Counts are the last ones
    reported, within their type ([gemini_usage_is_latest],
    [anthropic_usage_is_latest], [chat_usage_bounds]).  Defects:
    [empty_id_misroutes], [empty_block_stays_open], [unopened_delta_is_rejected].

    Streams.  What is shown does not depend on the chunks: for the inline tags
    ([inline_chunking_irrelevant], [citation_stream_strip]), for the line blocks
    ([tagged_parse_lines], [strip_proposed_plan_blocks_lines]), for their
    composition ([assistant_stream_end_to_end]) and for bytes
    ([run_bytes_encode]).

    ** Conventions

    - A Rust [String] is the list of its code points.  Where the source counts
      bytes only to cut at a character boundary, the model counts characters;
      where byte counts are compared or printed (budgets, spans of a syntax tree)
      they are byte offsets in [Z] ([ByteStr.v]); [Utf8Stream.v] works on bytes.
    - [usize] values that count lines, characters or list elements are [nat]:
      they are bounded by the size of an object in memory.  Where a subtraction,
      an index or a slice could go wrong the model returns [None], a panic.
      Counters and token counts are [Z] with the saturation or wrap-around of
      their type written out; integers inside SQLite are unbounded.
    - [Result] is [result]; operations that change state before failing return
      the state with the error.  Calls that can fail from outside (file system,
      database, model, reviewer) answer arbitrarily.
    - Loops that are not structural have fuel, and no theorem is conditional on
      it: the inline-tag [scan] has one round more than the text has characters
      ([scan_fuel] shows that more fuel changes nothing); [from_utf8] one per
      byte; decimal printing one per unit of the number; walking a syntax tree one
      per node; ancestors of a URI one per segment; nested wrappers of a command
      count down the limit the source counts up to; compaction one round of
      retries per item ([compaction_terminates] shows that it is enough); a free
      index for a tool call one round more than there are calls
      ([next_free_fresh]).

    ** Interfaces

    Code outside the repository, and traits of it with several implementations,
    are classes or arguments, with the documented laws the proofs use:
    [ExecutorFileSystem] and [PathUriOps] (instances in [MemFs.v]); [MultiMap]
    with [LawfulMultiMap] for the multimap crate, and [AbsolutePathOps] (finite
    maps and slash paths in [ExecPolicy.v]); [StdPath] (in
    [ExecPolicyParser.v]); the Starlark interpreter, as the sequence of builtin
    calls a file makes; the word splitting of [shlex] and the string printing of
    [serde_json], as functions; the bash and PowerShell grammars, as functions
    from a script to a syntax tree; regular expressions and URL parsing
    ([UrlOps]); globs ([GlobSet]); clocks ([Chrono]); what a tool, a reviewer and
    the network answer ([ToolWorld], [PatchParties]); what a sandbox does to the
    file system ([enter_sandbox]); the query for here-documents ([BashQuery]);
    globs on host names with their laws ([DomainGlobs], [DomainGlobLaws]) and the
    hosts of URLs ([UrlHosts]), name lookups, hooks and interception ([BuildWorld]);
    reading and printing JSON ([Numbers], [SerdeText]); [Uuids]; sizes of media and of JSON
    ([Measures]); XML and JSON reading ([Fragments]); files and the image decoder ([LocalMedia]); the model
    ([ModelClient]);
    the scaling of a budget by a float.

    ** What is not modelled

    - In the file system: hard links and changes made by others during a call; a
      hook of the goal runtime whose future is dropped between charging the database
      and marking what was charged.
    - In the modelled crates: the servers of the network proxy, its interception of
      TLS and its credential broker; rendering a unified diff (the [similar] crate), the
      command line front ends, matching a policy against the local file system, the discovery of shells on the machine, conversions
      between URIs and host paths, the legacy sandbox policies, the command lines
      of sandboxes, telemetry, the evidence a history keeps for reviews, the
      persisted checkpoint of a compaction, and compaction by a server.
    - The terminal interface, the sandbox back ends, the servers and the login
      code: input and output over platform interfaces and generated types.
    - The agent loop of [core] beyond the active item of a turn.

    ** Further plan

    In order: the requests of [codex-api]; compaction by a server. *)

From stdpp Require Import base list numbers option gmap.
From Stdlib Require Import Lia.

(** ** Rust's [Result] as an error monad *)

Inductive result (A E : Type) : Type :=
| Ok (a : A)
| Err (e : E).
Arguments Ok {A E} _.
Arguments Err {A E} _.

#[export] Instance result_eq_dec `{EqDecision A, EqDecision E} : EqDecision (result A E).
Proof. solve_decision. Defined.

Definition result_bind {A B E} (r : result A E) (k : A -> result B E) : result B E :=
  match r with
  | Ok a => k a
  | Err e => Err e
  end.

Definition map_err {A E F} (f : E -> F) (r : result A E) : result A F :=
  match r with
  | Ok a => Ok a
  | Err e => Err (f e)
  end.

Definition is_ok {A E} (r : result A E) : bool :=
  match r with Ok _ => true | Err _ => false end.

Declare Scope rust_scope.
Delimit Scope rust_scope with rust.

(** The [?] operator: propagate the error, otherwise continue with the value. *)
Notation "'let?' x := e 'in' k" := (result_bind e (fun x => k))
  (at level 200, x name, e at level 100, k at level 200,
   format "'let?'  x  :=  e  'in' '//' k") : rust_scope.
Notation "'try?' e 'in' k" := (result_bind e (fun _ => k))
  (at level 200, e at level 100, k at level 200,
   format "'try?'  e  'in' '//' k") : rust_scope.
#[global] Open Scope rust_scope.

Lemma result_bind_ok {A B E} (r : result A E) (k : A -> result B E) b :
  result_bind r k = Ok b <-> exists a, r = Ok a /\ k a = Ok b.
Proof. destruct r; naive_solver. Qed.

Lemma result_bind_err {A B E} (r : result A E) (k : A -> result B E) e :
  result_bind r k = Err e <-> r = Err e \/ exists a, r = Ok a /\ k a = Err e.
Proof. destruct r; naive_solver. Qed.

(** ** Options as Rust uses them *)

Definition is_none {A} (o : option A) : bool :=
  match o with None => true | Some _ => false end.

Definition is_some {A} (o : option A) : bool := negb (is_none o).

(** [Option::is_some_and]. *)
Definition is_some_and {A} (o : option A) (p : A -> bool) : bool :=
  match o with Some a => p a | None => false end.

(** [Option::unwrap_or]. *)
Definition unwrap_or {A} (o : option A) (d : A) : A :=
  match o with Some a => a | None => d end.

Definition is_nil {A} (l : list A) : bool :=
  match l with [] => true | _ :: _ => false end.

Lemma is_nil_true {A} (l : list A) : is_nil l = true <-> l = [].
Proof. destruct l; naive_solver. Qed.

Lemma is_nil_false {A} (l : list A) : is_nil l = false <-> l <> [].
Proof. destruct l; naive_solver. Qed.

(** ** Development tactics *)

(** Split every hypothesis of the shape [bind ... = Ok/Err]. *)
Ltac inv_bind :=
  repeat match goal with
  | H : result_bind _ _ = Ok _ |- _ =>
      apply result_bind_ok in H; destruct H as (? & ? & H)
  | H : Ok _ = Ok _ |- _ => injection H as H
  | H : Err _ = Err _ |- _ => injection H as H
  | H : Ok _ = Err _ |- _ => discriminate H
  | H : Err _ = Ok _ |- _ => discriminate H
  end.

(** Case split on the innermost [match] or [if] of the goal, keeping equations. *)
Ltac case_goal :=
  match goal with
  | |- context [match ?x with _ => _ end] =>
      lazymatch x with
      | context [match _ with _ => _ end] => fail
      | _ => let E := fresh "E" in destruct x eqn:E
      end
  end.

Ltac case_hyp H :=
  match type of H with
  | context [match ?x with _ => _ end] =>
      lazymatch x with
      | context [match _ with _ => _ end] => fail
      | _ => let E := fresh "E" in destruct x eqn:E
      end
  end.

(** Turn boolean tests into propositions. *)
Ltac bool_to_prop :=
  repeat match goal with
  | H : andb _ _ = true |- _ => apply andb_true_iff in H; destruct H
  | H : orb _ _ = false |- _ => apply orb_false_iff in H; destruct H
  | H : negb _ = true |- _ => apply negb_true_iff in H
  | H : negb _ = false |- _ => apply negb_false_iff in H
  | H : bool_decide _ = true |- _ => apply bool_decide_eq_true in H
  | H : bool_decide _ = false |- _ => apply bool_decide_eq_false in H
  | H : is_nil _ = true |- _ => apply is_nil_true in H
  | H : is_nil _ = false |- _ => apply is_nil_false in H
  | H : Nat.ltb _ _ = true |- _ => apply Nat.ltb_lt in H
  | H : Nat.ltb _ _ = false |- _ => apply Nat.ltb_ge in H
  | H : Nat.leb _ _ = true |- _ => apply Nat.leb_le in H
  | H : Nat.leb _ _ = false |- _ => apply Nat.leb_gt in H
  | H : Nat.eqb _ _ = true |- _ => apply Nat.eqb_eq in H
  | H : Nat.eqb _ _ = false |- _ => apply Nat.eqb_neq in H
  | H : N.eqb _ _ = true |- _ => apply N.eqb_eq in H
  | H : N.eqb _ _ = false |- _ => apply N.eqb_neq in H
  end.

(** Where an image determines its source. *)
Lemma nodup_omap_inj {A B} (f : A -> option B) (l : list A) x y k :
  NoDup (omap f l) -> x ∈ l -> y ∈ l -> f x = Some k -> f y = Some k -> x = y.
Proof.
  induction l as [|a l IH]; simpl; intros Hnd Hx Hy Hfx Hfy; [set_solver|].
  assert (forall z, f a = Some k -> z ∈ l -> f z = Some k -> False) as Hno.
  { intros z Ha Hz Hfz. rewrite Ha in Hnd. inversion Hnd as [|? ? Hn _]; subst. apply Hn, list_elem_of_omap. eauto. }
  apply elem_of_cons in Hx as [->|Hx], Hy as [->|Hy]; [done|by destruct (Hno y)|by destruct (Hno x)|].
  apply IH; try done. destruct (f a); [by inversion Hnd|done].
Qed.
