(* ===== verification/RustStr.v ===== *)
(** * Rust strings

    A Rust [String] or [&str] is a sequence of Unicode scalar values, kept here
    as the list of their code points ([char] is [N], [str] is [list N]).  The
    methods of [str] the modelled code calls are defined on that list: the
    byte-level UTF-8 view, where a component needs it, is [Utf8Stream.v].  A slice of
    a Rust string at a character boundary is [take]/[drop] on this list. *)

From stdpp Require Import base list numbers option strings sets gmap.
From Stdlib Require Import Lia Ascii String.
From S2P Require Import Prelude.

Notation char := N (only parsing).
Notation str := (list N) (only parsing).

(** String literals of the source (ASCII only; other code points are written
    as numbers). *)
Definition lit (s : string) : str := List.map N_of_ascii (list_ascii_of_string s).

Definition LF : char := 10%N.
Definition CR : char := 13%N.
Definition SPACE : char := 32%N.

(** [==] on strings. *)
Fixpoint str_eqb (a b : str) : bool :=
  match a, b with
  | [], [] => true
  | x :: a', y :: b' => N.eqb x y && str_eqb a' b'
  | _, _ => false
  end.

Lemma str_eqb_spec a b : str_eqb a b = true <-> a = b.
Proof.
  revert b; induction a as [|x a IH]; intros [|y b]; simpl; [done..|].
  rewrite andb_true_iff, N.eqb_eq, IH. naive_solver.
Qed.

Lemma str_eqb_refl a : str_eqb a a = true.
Proof. by apply str_eqb_spec. Qed.

Lemma str_eqb_false a b : str_eqb a b = false <-> a <> b.
Proof. rewrite <- str_eqb_spec. by destruct (str_eqb a b). Qed.

(** [char::is_whitespace]: the Unicode [White_Space] property. *)
Definition is_whitespace (c : char) : bool :=
  ((9 <=? c) && (c <=? 13))%N || (c =? 32)%N || (c =? 133)%N || (c =? 160)%N
  || (c =? 5760)%N || ((8192 <=? c) && (c <=? 8202))%N || (c =? 8232)%N
  || (c =? 8233)%N || (c =? 8239)%N || (c =? 8287)%N || (c =? 12288)%N.

Definition is_ascii_digit (c : char) : bool := ((48 <=? c) && (c <=? 57))%N.

(** [u8::to_ascii_lowercase] on a code point, and on a string. *)
Definition ascii_lower (c : char) : char :=
  if ((65 <=? c) && (c <=? 90))%N then (c + 32)%N else c.
Definition to_ascii_lowercase (s : str) : str := List.map ascii_lower s.

Section Slices.
Context {A : Type} (p : A -> bool).

Fixpoint drop_while (l : list A) : list A :=
  match l with
  | [] => []
  | x :: l' => if p x then drop_while l' else l
  end.

(** [trim_end_matches] with a character predicate. *)
Definition drop_while_end (l : list A) : list A := rev (drop_while (rev l)).
End Slices.

Definition trim_start (s : str) : str := drop_while is_whitespace s.
Definition trim_end (s : str) : str := drop_while_end is_whitespace s.
Definition trim (s : str) : str := trim_end (trim_start s).

Fixpoint strip_prefix (p s : str) : option str :=
  match p, s with
  | [], _ => Some s
  | x :: p', y :: s' => if N.eqb x y then strip_prefix p' s' else None
  | _ :: _, [] => None
  end.

Definition starts_with (p s : str) : bool := is_some (strip_prefix p s).

Definition strip_suffix (p s : str) : option str :=
  match strip_prefix (rev p) (rev s) with
  | Some r => Some (rev r)
  | None => None
  end.

Definition ends_with (p s : str) : bool := is_some (strip_suffix p s).

(** [str::contains] with a string pattern. *)
Fixpoint contains (p s : str) : bool :=
  starts_with p s || match s with [] => false | _ :: s' => contains p s' end.

(** [str::contains] with a character. *)
Definition contains_char (c : char) (s : str) : bool := existsb (N.eqb c) s.

(** [str::split(c)]: always at least one piece. *)
Fixpoint split (c : char) (s : str) : list str :=
  match s with
  | [] => [[]]
  | x :: s' =>
      if N.eqb x c then [] :: split c s'
      else match split c s' with
           | piece :: rest => (x :: piece) :: rest
           | [] => [[x]]
           end
  end.

(** [str::split_inclusive(c)]: pieces keep their separator, no empty last piece. *)
Fixpoint split_inclusive (c : char) (s : str) : list str :=
  match s with
  | [] => []
  | x :: s' =>
      if N.eqb x c then [x] :: split_inclusive c s'
      else match split_inclusive c s' with
           | piece :: rest => (x :: piece) :: rest
           | [] => [[x]]
           end
  end.

(** The closure of [str::lines]: drop one final ["\n"] and then one ["\r"]. *)
Definition strip_line_ending (l : str) : str :=
  match strip_suffix [LF] l with
  | None => l
  | Some l' => match strip_suffix [CR] l' with None => l' | Some l'' => l'' end
  end.

Definition lines (s : str) : list str :=
  List.map strip_line_ending (split_inclusive LF s).

(** [[..].join(sep)]. *)
Fixpoint join (sep : str) (ls : list str) : str :=
  match ls with
  | [] => []
  | [l] => l
  | l :: ls' => l ++ sep ++ join sep ls'
  end.

(** [str::split_once(c)] and [str::rsplit_once(c)]. *)
Fixpoint split_once (c : char) (s : str) : option (str * str) :=
  match s with
  | [] => None
  | x :: s' =>
      if N.eqb x c then Some ([], s')
      else match split_once c s' with
           | Some (a, b) => Some (x :: a, b)
           | None => None
           end
  end.

Definition rsplit_once (c : char) (s : str) : option (str * str) :=
  match split_once c (rev s) with
  | Some (a, b) => Some (rev b, rev a)
  | None => None
  end.

(** [usize] printed in decimal ([format!("{n}")]). *)
Fixpoint digits_rev (fuel n : nat) : str :=
  match fuel with
  | O => []
  | S f =>
      let d := N.of_nat (n mod 10 + 48) in
      if Nat.ltb n 10 then [d] else d :: digits_rev f (n / 10)
  end.
Definition show_nat (n : nat) : str := rev (digits_rev (S n) n).

Definition eq_ignore_ascii_case (a b : str) : bool := str_eqb (to_ascii_lowercase a) (to_ascii_lowercase b).

(** [rsplit(p).next()]: what follows the last separator. *)
Fixpoint after_last (p : char -> bool) (s : str) : str :=
  match s with
  | [] => []
  | c :: r => if existsb p s then after_last p r else s
  end.

(** [split] at the characters of a set. *)
Fixpoint split_by (p : char -> bool) (s : str) : list str :=
  match s with
  | [] => [[]]
  | c :: r =>
      if p c then [] :: split_by p r
      else match split_by p r with
           | [] => [[c]]
           | x :: xs => (c :: x) :: xs
           end
  end.

Definition trim_matches (c : char) (s : str) : str := drop_while_end (N.eqb c) (drop_while (N.eqb c) s).

Definition one_of (cs : str) (c : char) : bool := existsb (N.eqb c) cs.
Definition mem_str (ss : list str) (s : str) : bool := existsb (str_eqb s) ss.

Definition is_ascii_alphabetic (c : char) : bool :=
  ((65 <=? c) && (c <=? 90) || (97 <=? c) && (c <=? 122))%N.

(** ** Lemmas *)

Create HintDb rstr.

Lemma strip_prefix_app p s : strip_prefix p (p ++ s) = Some s.
Proof. induction p as [|x p IH]; simpl; [done|]. by rewrite N.eqb_refl. Qed.

Lemma strip_prefix_Some p s r : strip_prefix p s = Some r <-> s = p ++ r.
Proof.
  split; [|intros ->; apply strip_prefix_app].
  revert s; induction p as [|x p IH]; intros [|y s]; simpl; try naive_solver.
  destruct (N.eqb_spec x y) as [->|]; [|done]. intros ->%IH. done.
Qed.

Lemma starts_with_spec p s : starts_with p s = true <-> exists r, s = p ++ r.
Proof.
  unfold starts_with. destruct (strip_prefix p s) as [r|] eqn:E.
  - apply strip_prefix_Some in E. naive_solver.
  - split; [done|]. intros [r ->]. by rewrite strip_prefix_app in E.
Qed.

Lemma strip_suffix_app p s : strip_suffix p (s ++ p) = Some s.
Proof.
  unfold strip_suffix. rewrite rev_app_distr, strip_prefix_app. by rewrite rev_involutive.
Qed.

Lemma strip_suffix_Some p s r : strip_suffix p s = Some r <-> s = r ++ p.
Proof.
  split; [|intros ->; apply strip_suffix_app].
  unfold strip_suffix. destruct (strip_prefix (rev p) (rev s)) as [q|] eqn:E; [|done].
  apply strip_prefix_Some in E. intros [= <-].
  by rewrite <- (rev_involutive s), E, rev_app_distr, rev_involutive.
Qed.

Lemma ends_with_spec p s : ends_with p s = true <-> exists r, s = r ++ p.
Proof.
  unfold ends_with. destruct (strip_suffix p s) as [r|] eqn:E.
  - apply strip_suffix_Some in E. naive_solver.
  - split; [done|]. intros [r ->]. by rewrite strip_suffix_app in E.
Qed.

(** *** Trimming *)

Section DropWhile.
Context {A : Type} (p : A -> bool).

Lemma drop_while_suffix l : exists pre, l = pre ++ drop_while p l /\ Forall (fun x => p x = true) pre.
Proof.
  induction l as [|x l (pre & Hl & Hp)]; simpl; [by exists []|].
  destruct (p x) eqn:E; [|by exists []].
  exists (x :: pre). simpl. rewrite <- Hl. auto.
Qed.

Lemma drop_while_head l : match drop_while p l with [] => True | x :: _ => p x = false end.
Proof. induction l as [|x l IH]; simpl; [done|]. by destruct (p x) eqn:E. Qed.

Lemma drop_while_id l : match l with [] => True | x :: _ => p x = false end -> drop_while p l = l.
Proof. destruct l as [|x l]; simpl; [done|]. by intros ->. Qed.

Lemma drop_while_idem l : drop_while p (drop_while p l) = drop_while p l.
Proof. apply drop_while_id, drop_while_head. Qed.

Lemma drop_while_end_prefix l : exists suf, l = drop_while_end p l ++ suf /\ Forall (fun x => p x = true) suf.
Proof.
  destruct (drop_while_suffix (rev l)) as (pre & Hl & Hp).
  exists (rev pre). unfold drop_while_end. split.
  - by rewrite <- rev_app_distr, <- Hl, rev_involutive.
  - apply Forall_rev. done.
Qed.

Lemma drop_while_end_last l x : last (drop_while_end p l) = Some x -> p x = false.
Proof.
  unfold drop_while_end. pose proof (drop_while_head (rev l)) as H.
  destruct (drop_while p (rev l)) as [|y t]; simpl; [done|].
  rewrite last_snoc. by intros [= <-].
Qed.

Lemma drop_while_end_id l : (forall x, last l = Some x -> p x = false) -> drop_while_end p l = l.
Proof.
  intros H. unfold drop_while_end. rewrite drop_while_id; [apply rev_involutive|].
  destruct (rev l) as [|y t] eqn:E; [done|].
  apply H. rewrite <- (rev_involutive l), E. simpl. apply last_snoc.
Qed.
End DropWhile.

(** A string without leading (trailing) white space. *)
Definition no_leading_ws (s : str) : Prop :=
  match s with [] => True | c :: _ => is_whitespace c = false end.
Definition no_trailing_ws (s : str) : Prop :=
  forall c, last s = Some c -> is_whitespace c = false.

Lemma trim_start_id s : no_leading_ws s -> trim_start s = s.
Proof. apply drop_while_id. Qed.

Lemma trim_end_id s : no_trailing_ws s -> trim_end s = s.
Proof. apply drop_while_end_id. Qed.

Lemma trim_id s : no_leading_ws s -> no_trailing_ws s -> trim s = s.
Proof. intros H1 H2. unfold trim. rewrite trim_start_id by done. by apply trim_end_id. Qed.

Lemma trim_end_no_trailing s : no_trailing_ws (trim_end s).
Proof. intros c. apply drop_while_end_last. Qed.

Lemma trim_end_idem s : trim_end (trim_end s) = trim_end s.
Proof. apply trim_end_id, trim_end_no_trailing. Qed.

Lemma trim_no_leading s : no_leading_ws (trim s).
Proof.
  unfold trim. pose proof (drop_while_head is_whitespace s) as H.
  destruct (drop_while_end_prefix is_whitespace (trim_start s)) as (suf & E & Hs).
  unfold no_leading_ws. fold (trim_end (trim_start s)) in E.
  fold (trim_start s) in H. destruct (trim_end (trim_start s)) as [|c t]; [done|].
  rewrite E in H. done.
Qed.

Lemma trim_idem s : trim (trim s) = trim s.
Proof. apply trim_id; [apply trim_no_leading | apply trim_end_no_trailing]. Qed.

Lemma no_trailing_ws_app a b : b <> [] -> no_trailing_ws b -> no_trailing_ws (a ++ b).
Proof.
  intros Hb H c. rewrite last_app. destruct (last b) eqn:E.
  - intros [= <-]. by apply H.
  - by apply last_None in E.
Qed.

#[export] Hint Resolve trim_id trim_end_id trim_start_id trim_end_no_trailing : rstr.
#[export] Hint Rewrite strip_prefix_app strip_suffix_app str_eqb_refl trim_idem trim_end_idem : rstr.

(** *** Splitting and joining *)

Lemma split_nonempty c s : split c s <> [].
Proof. destruct s as [|x s]; simpl; [done|]. destruct (N.eqb x c); [done|]. by destruct (split c s). Qed.

Lemma join_cons_nonempty sep l ls : ls <> [] -> join sep (l :: ls) = l ++ sep ++ join sep ls.
Proof. by destruct ls. Qed.

(** [s.split(c)] followed by [join] gives the string back. *)
Lemma join_split c s : join [c] (split c s) = s.
Proof.
  induction s as [|x s IH]; [done|]. simpl.
  destruct (N.eqb_spec x c) as [->|Hne].
  - rewrite join_cons_nonempty by apply split_nonempty. simpl. by rewrite IH.
  - pose proof (split_nonempty c s). destruct (split c s) as [|p ps]; [done|].
    destruct ps as [|q qs]; simpl in *; by rewrite <- IH.
Qed.

Lemma split_no_char c s : c ∉ s -> split c s = [s].
Proof.
  induction s as [|x s IH]; intros H; [done|]. simpl.
  apply not_elem_of_cons in H as [Hx Hs]. destruct (N.eqb_spec x c); [by subst|].
  by rewrite IH.
Qed.

Lemma split_app_sep c a s : c ∉ a -> split c (a ++ c :: s) = a :: split c s.
Proof.
  induction a as [|x a IH]; intros H; simpl.
  - by rewrite N.eqb_refl.
  - apply not_elem_of_cons in H as [Hx Hs]. destruct (N.eqb_spec x c); [by subst|].
    by rewrite IH.
Qed.

Lemma split_join c ls : ls <> [] -> Forall (fun l => c ∉ l) ls -> split c (join [c] ls) = ls.
Proof.
  intros Hne HF. induction HF as [|l ls Hl HF IH]; [done|].
  destruct ls as [|l' ls']; simpl; [by apply split_no_char|].
  rewrite split_app_sep by done. f_equal. by apply IH.
Qed.

Lemma split_pieces_no_char c s : Forall (fun l => c ∉ l) (split c s).
Proof.
  induction s as [|x s IH]; simpl; [repeat constructor; set_solver|].
  destruct (N.eqb_spec x c) as [->|Hne]; [constructor; [set_solver|done]|].
  destruct (split c s) as [|p ps]; [repeat constructor; set_solver|].
  inversion IH; subst. constructor; [set_solver|done].
Qed.

Lemma concat_split_inclusive c s : List.concat (split_inclusive c s) = s.
Proof.
  induction s as [|x s IH]; [done|]. simpl. destruct (N.eqb x c); simpl; [by rewrite IH|].
  destruct (split_inclusive c s) as [|p ps]; simpl in *; by rewrite <- IH.
Qed.

Lemma split_inclusive_app_sep c a s :
  c ∉ a -> split_inclusive c (a ++ c :: s) = (a ++ [c]) :: split_inclusive c s.
Proof.
  induction a as [|x a IH]; intros H; simpl.
  - by rewrite N.eqb_refl.
  - apply not_elem_of_cons in H as [Hx Hs]. destruct (N.eqb_spec x c); [by subst|].
    by rewrite IH.
Qed.

Lemma split_inclusive_no_char c a : a <> [] -> c ∉ a -> split_inclusive c a = [a].
Proof.
  induction a as [|x a IH]; intros Hne H; [done|]. simpl.
  apply not_elem_of_cons in H as [Hx Hs]. destruct (N.eqb_spec x c); [by subst|].
  destruct a as [|y a]; [done|]. by rewrite IH.
Qed.

Lemma split_once_Some c s a b : split_once c s = Some (a, b) -> s = a ++ c :: b /\ c ∉ a.
Proof.
  revert a b; induction s as [|x s IH]; intros a b; simpl; [done|].
  destruct (N.eqb_spec x c) as [->|Hne].
  - intros [= <- <-]. split; [done|set_solver].
  - destruct (split_once c s) as [[a' b']|]; [|done]. intros [= <- <-].
    destruct (IH a' b' eq_refl) as [-> Ha]. split; [done|set_solver].
Qed.

Lemma mem_str_spec ss s : mem_str ss s = true <-> s ∈ ss.
Proof.
  unfold mem_str. rewrite existsb_exists. setoid_rewrite str_eqb_spec. setoid_rewrite <- list_elem_of_In. naive_solver.
Qed.

Lemma one_of_spec cs c : one_of cs c = true <-> c ∈ cs.
Proof.
  unfold one_of. rewrite existsb_exists. setoid_rewrite N.eqb_eq. setoid_rewrite <- list_elem_of_In. naive_solver.
Qed.

Lemma drop_while_end_sub {A} (p : A -> bool) l x : x ∈ drop_while_end p l -> x ∈ l.
Proof. destruct (drop_while_end_prefix p l) as (suf & E & _). rewrite E at 2. set_solver. Qed.

Lemma drop_while_sub {A} (p : A -> bool) l x : x ∈ drop_while p l -> x ∈ l.
Proof. destruct (drop_while_suffix p l) as (pre & E & _). rewrite E at 2. set_solver. Qed.

Lemma trim_sub s x : x ∈ trim s -> x ∈ s.
Proof. intros H%drop_while_end_sub. by apply drop_while_sub in H. Qed.

Lemma ascii_lower_keeps c x : (c < 65)%N -> ascii_lower x = c -> x = c.
Proof.
  unfold ascii_lower. intros Hc. destruct (_ && _) eqn:E; [|done].
  apply andb_true_iff in E as [E1%N.leb_le E2%N.leb_le]. lia.
Qed.

Lemma ascii_lower_not_upper x : ~ (65 <= ascii_lower x <= 90)%N.
Proof.
  unfold ascii_lower. destruct ((65 <=? x) && (x <=? 90))%N eqn:E.
  - apply andb_true_iff in E as [E1%N.leb_le E2%N.leb_le]. lia.
  - apply andb_false_iff in E as [E%N.leb_gt|E%N.leb_gt]; lia.
Qed.

Lemma drop_while_map {A B} (f : A -> B) (p : B -> bool) (q : A -> bool) l : (forall x, p (f x) = q x) ->
  drop_while p (List.map f l) = List.map f (drop_while q l).
Proof. intros H. induction l as [|x l IH]; simpl; [done|]. rewrite H. by destruct (q x). Qed.

Lemma drop_while_end_map {A B} (f : A -> B) (p : B -> bool) (q : A -> bool) l : (forall x, p (f x) = q x) ->
  drop_while_end p (List.map f l) = List.map f (drop_while_end q l).
Proof. intros H. unfold drop_while_end. by rewrite <- List.map_rev, (drop_while_map f p q), List.map_rev. Qed.

Lemma ascii_lower_idem x : ascii_lower (ascii_lower x) = ascii_lower x.
Proof.
  pose proof (ascii_lower_not_upper x) as H. unfold ascii_lower at 1. destruct (_ && _) eqn:E; [|done].
  apply andb_true_iff in E as [E1%N.leb_le E2%N.leb_le]. lia.
Qed.

Lemma to_ascii_lowercase_idem s : to_ascii_lowercase (to_ascii_lowercase s) = to_ascii_lowercase s.
Proof. unfold to_ascii_lowercase. rewrite List.map_map. apply List.map_ext, ascii_lower_idem. Qed.

Lemma to_ascii_lowercase_app a b : to_ascii_lowercase (a ++ b) = to_ascii_lowercase a ++ to_ascii_lowercase b.
Proof. apply List.map_app. Qed.

#[export] Hint Rewrite to_ascii_lowercase_idem : rstr.
