(* ===== verification/PatchParser.v ===== *)
(** * The apply_patch parser

    Models [codex-rs/apply-patch/src/parser.rs] (data types, boundary checks,
    [parse_patch]) and [codex-rs/apply-patch/src/streaming_parser.rs] (the
    line-oriented state machine [StreamingPatchParser]).  Paths are kept as the
    text they are written with: [PathBuf::from] and [display] are the identity
    on valid UTF-8.  Line numbers are [nat]: a [usize] line counter cannot
    overflow on a string that fits in memory. *)

From stdpp Require Import base list numbers option strings gmap.
From Stdlib Require Import Lia Sorted.
From S2P Require Import Prelude RustStr.

(** ** Data *)

Definition BEGIN_PATCH_MARKER : str := Eval vm_compute in lit "*** Begin Patch".
Definition END_PATCH_MARKER : str := Eval vm_compute in lit "*** End Patch".
Definition ADD_FILE_MARKER : str := Eval vm_compute in lit "*** Add File: ".
Definition DELETE_FILE_MARKER : str := Eval vm_compute in lit "*** Delete File: ".
Definition UPDATE_FILE_MARKER : str := Eval vm_compute in lit "*** Update File: ".
Definition MOVE_TO_MARKER : str := Eval vm_compute in lit "*** Move to: ".
Definition EOF_MARKER : str := Eval vm_compute in lit "*** End of File".
Definition CHANGE_CONTEXT_MARKER : str := Eval vm_compute in lit "@@ ".
Definition EMPTY_CHANGE_CONTEXT_MARKER : str := Eval vm_compute in lit "@@".
Definition ENVIRONMENT_ID_MARKER : str := Eval vm_compute in lit "*** Environment ID:".

Inductive ParseError :=
| InvalidPatchError (message : str)
| InvalidHunkError (message : str) (line_number : nat).

Record UpdateFileChunk := mkChunk {
  change_context : option str;
  old_lines : list str;
  new_lines : list str;
  context_line_indices : list (nat * nat);
  is_end_of_file : bool;
}.

Inductive Hunk :=
| AddFile (path contents : str)
| DeleteFile (path : str)
| UpdateFile (path : str) (move_path : option str) (chunks : list UpdateFileChunk).

#[export] Instance ParseError_eq_dec : EqDecision ParseError.
Proof. solve_decision. Defined.
#[export] Instance UpdateFileChunk_eq_dec : EqDecision UpdateFileChunk.
Proof. solve_decision. Defined.
#[export] Instance Hunk_eq_dec : EqDecision Hunk.
Proof. solve_decision. Defined.

(** [Hunk::path]: the move destination for rename hunks. *)
Definition hunk_path (h : Hunk) : str :=
  match h with
  | AddFile path _ => path
  | DeleteFile path => path
  | UpdateFile _ (Some path) _ => path
  | UpdateFile path None _ => path
  end.

(** The path [Hunk::resolve_path] joins to the working directory: the source of a rename. *)
Definition hunk_source_path (h : Hunk) : str :=
  match h with
  | UpdateFile path _ _ => path
  | AddFile _ _ | DeleteFile _ => hunk_path h
  end.

Definition default_chunk : UpdateFileChunk := mkChunk None [] [] [] false.

Definition push_context_line (c : UpdateFileChunk) (line : str) : UpdateFileChunk :=
  mkChunk (change_context c)
    (old_lines c ++ [line])
    (new_lines c ++ [line])
    (context_line_indices c ++ [(length (old_lines c), length (new_lines c))])
    (is_end_of_file c).

Definition push_new_line (c : UpdateFileChunk) (line : str) : UpdateFileChunk :=
  mkChunk (change_context c) (old_lines c) (new_lines c ++ [line])
    (context_line_indices c) (is_end_of_file c).

Definition push_old_line (c : UpdateFileChunk) (line : str) : UpdateFileChunk :=
  mkChunk (change_context c) (old_lines c ++ [line]) (new_lines c)
    (context_line_indices c) (is_end_of_file c).

Definition mark_end_of_file (c : UpdateFileChunk) : UpdateFileChunk :=
  mkChunk (change_context c) (old_lines c) (new_lines c) (context_line_indices c) true.

(** [chunk.old_lines.is_empty() && chunk.new_lines.is_empty()]. *)
Definition chunk_is_blank (c : UpdateFileChunk) : bool :=
  is_nil (old_lines c) && is_nil (new_lines c).

(** ** The streaming parser's state *)

Inductive StreamingParserMode :=
| NotStarted
| StartedPatch
| AddFileMode
| DeleteFileMode
| UpdateFileMode (hunk_line_number : nat)
| EndedPatch.

Record StreamingParserState := mkState {
  mode : StreamingParserMode;
  hunks : list Hunk;
  environment_id : option str;
}.

Record StreamingPatchParser := mkParser {
  line_buffer : str;
  state : StreamingParserState;
  line_number : nat;
}.

Definition default_parser : StreamingPatchParser :=
  mkParser [] (mkState NotStarted [] None) 0.

Definition set_mode (p : StreamingPatchParser) (m : StreamingParserMode) :=
  mkParser (line_buffer p) (mkState m (hunks (state p)) (environment_id (state p))) (line_number p).
Definition set_hunks (p : StreamingPatchParser) (hs : list Hunk) :=
  mkParser (line_buffer p) (mkState (mode (state p)) hs (environment_id (state p))) (line_number p).
Definition set_environment_id (p : StreamingPatchParser) (e : str) :=
  mkParser (line_buffer p) (mkState (mode (state p)) (hunks (state p)) (Some e)) (line_number p).
Definition set_line_buffer (p : StreamingPatchParser) (b : str) :=
  mkParser b (state p) (line_number p).
Definition set_line_number (p : StreamingPatchParser) (n : nat) :=
  mkParser (line_buffer p) (state p) n.

(** Writing through [Vec::last_mut]. *)
Fixpoint set_last {A} (l : list A) (x : A) : list A :=
  match l with
  | [] => []
  | [_] => [x]
  | y :: l' => y :: set_last l' x
  end.

(** [if chunks.is_empty() { push(default) }; if let Some(chunk) = chunks.last_mut() { f(chunk) }]. *)
Definition on_last_chunk (chunks : list UpdateFileChunk) (f : UpdateFileChunk -> UpdateFileChunk)
  : list UpdateFileChunk :=
  let cs := if is_nil chunks then [default_chunk] else chunks in
  match last cs with
  | Some c => set_last cs (f c)
  | None => cs
  end.

(** ** Error messages *)

Definition msg_first_line : str := lit "The first line of the patch must be '*** Begin Patch'".
Definition msg_last_line : str := lit "The last line of the patch must be '*** End Patch'".
Definition msg_no_lines : str := lit "Update hunk does not contain any lines".
Definition msg_unexpected_line (line : str) : str :=
  lit "Unexpected line found in update hunk: '" ++ line
  ++ lit "'. Every line should start with ' ' (context line), '+' (added line), or '-' (removed line)".
Definition msg_expected_context (line : str) : str :=
  lit "Expected update hunk to start with a @@ context marker, got: '" ++ line ++ lit "'".
Definition msg_bad_header (trimmed : str) : str :=
  lit "'" ++ trimmed
  ++ lit "' is not a valid hunk header. Valid hunk headers: '*** Add File: {path}', '*** Delete File: {path}', '*** Update File: {path}'".
Definition msg_empty_update (path : str) : str :=
  lit "Update file hunk for path '" ++ path ++ lit "' is empty".
Definition msg_env_twice : str := lit "apply_patch environment_id cannot be specified more than once".
Definition msg_env_empty : str := lit "apply_patch environment_id cannot be empty".

(** ** Operations *)

Definition ensure_update_hunk_is_not_empty (p : StreamingPatchParser) (line : str)
  : result unit ParseError :=
  match last (hunks (state p)) with
  | Some (UpdateFile path _ chunks) =>
      match is_nil chunks, mode (state p) with
      | true, UpdateFileMode hunk_line_number =>
          Err (InvalidHunkError (msg_empty_update path) hunk_line_number)
      | _, _ =>
          if is_some_and (last chunks) chunk_is_blank then
            if str_eqb line END_PATCH_MARKER
            then Err (InvalidHunkError msg_no_lines (line_number p))
            else Err (InvalidHunkError (msg_unexpected_line line) (line_number p))
          else Ok tt
      end
  | _ => Ok tt
  end.

(** The part of [handle_hunk_headers_and_end_patch] after the environment-id test. *)
Definition handle_headers (p : StreamingPatchParser) (trimmed : str)
  : result (option StreamingPatchParser) ParseError :=
  if str_eqb trimmed END_PATCH_MARKER then
    try? ensure_update_hunk_is_not_empty p trimmed in
    Ok (Some (set_mode p EndedPatch))
  else
  match strip_prefix ADD_FILE_MARKER trimmed with
  | Some path =>
      try? ensure_update_hunk_is_not_empty p trimmed in
      Ok (Some (set_mode (set_hunks p (hunks (state p) ++ [AddFile path []])) AddFileMode))
  | None =>
  match strip_prefix DELETE_FILE_MARKER trimmed with
  | Some path =>
      try? ensure_update_hunk_is_not_empty p trimmed in
      Ok (Some (set_mode (set_hunks p (hunks (state p) ++ [DeleteFile path])) DeleteFileMode))
  | None =>
  match strip_prefix UPDATE_FILE_MARKER trimmed with
  | Some path =>
      try? ensure_update_hunk_is_not_empty p trimmed in
      Ok (Some (set_mode (set_hunks p (hunks (state p) ++ [UpdateFile path None []]))
                         (UpdateFileMode (line_number p))))
  | None => Ok None
  end end end.

(** [None] is the source's [Ok(false)] (state unchanged), [Some p'] its [Ok(true)]
    with the parser after the call.  Every error is returned before any mutation. *)
Definition handle_hunk_headers_and_end_patch (p : StreamingPatchParser) (trimmed : str)
  : result (option StreamingPatchParser) ParseError :=
  match mode (state p), strip_prefix ENVIRONMENT_ID_MARKER trimmed with
  | StartedPatch, Some env =>
      if is_some (environment_id (state p)) then Err (InvalidPatchError msg_env_twice)
      else
        let env := trim env in
        if is_nil env then Err (InvalidPatchError msg_env_empty)
        else Ok (Some (set_environment_id p env))
  | _, _ => handle_headers p trimmed
  end.

(** The body of [if let Some(UpdateFile {..}) = hunks.last_mut()] in the
    [UpdateFile] arm of [process_line]: [Ok (move_path', chunks')] on the paths
    that return, [Err] otherwise. *)
Definition process_update_line (n : nat) (line : str)
    (move_path : option str) (chunks : list UpdateFileChunk)
  : result (option str * list UpdateFileChunk) ParseError :=
  let update_line := trim_end line in
  let last_blank := is_some_and (last chunks) chunk_is_blank in
  let at_eof := is_some_and (last chunks) is_end_of_file in
  let is_context := str_eqb update_line EMPTY_CHANGE_CONTEXT_MARKER
                    || starts_with CHANGE_CONTEXT_MARKER update_line in
  if at_eof && is_nil update_line then Ok (move_path, chunks)
  else if at_eof && negb is_context then Err (InvalidHunkError (msg_expected_context line) n)
  else
  match (if is_nil chunks && is_none move_path
         then strip_prefix MOVE_TO_MARKER update_line else None) with
  | Some move_to_path => Ok (Some move_to_path, chunks)
  | None =>
  if is_context && last_blank then Err (InvalidHunkError (msg_unexpected_line line) n)
  else if str_eqb update_line EMPTY_CHANGE_CONTEXT_MARKER
  then Ok (move_path, chunks ++ [default_chunk])
  else
  match strip_prefix CHANGE_CONTEXT_MARKER update_line with
  | Some ctx => Ok (move_path, chunks ++ [mkChunk (Some ctx) [] [] [] false])
  | None =>
  if str_eqb update_line EOF_MARKER then
    if last_blank then Err (InvalidHunkError msg_no_lines n)
    else Ok (move_path, match last chunks with
                        | Some c => set_last chunks (mark_end_of_file c)
                        | None => chunks
                        end)
  else if is_nil line then Ok (move_path, on_last_chunk chunks (fun c => push_context_line c []))
  else
  match strip_prefix (lit " ") line with
  | Some l => Ok (move_path, on_last_chunk chunks (fun c => push_context_line c l))
  | None =>
  match strip_prefix (lit "+") line with
  | Some l => Ok (move_path, on_last_chunk chunks (fun c => push_new_line c l))
  | None =>
  match strip_prefix (lit "-") line with
  | Some l => Ok (move_path, on_last_chunk chunks (fun c => push_old_line c l))
  | None =>
  if is_some_and (last chunks) (fun c => negb (is_nil (old_lines c)) || negb (is_nil (new_lines c)))
  then Err (InvalidHunkError (msg_expected_context line) n)
  else Err (InvalidHunkError (msg_unexpected_line line) n)
  end end end end end.

(** [process_line]: every error is returned before any mutation of [self]. *)
Definition process_line (p : StreamingPatchParser) (line : str)
  : result StreamingPatchParser ParseError :=
  let trimmed := trim line in
  let n := line_number p in
  match mode (state p) with
  | NotStarted =>
      if str_eqb trimmed BEGIN_PATCH_MARKER then Ok (set_mode p StartedPatch)
      else Err (InvalidPatchError msg_first_line)
  | StartedPatch =>
      let? r := handle_hunk_headers_and_end_patch p trimmed in
      match r with
      | Some p' => Ok p'
      | None => Err (InvalidHunkError (msg_bad_header trimmed) n)
      end
  | AddFileMode =>
      let? r := handle_hunk_headers_and_end_patch p trimmed in
      match r with
      | Some p' => Ok p'
      | None =>
          match strip_prefix (lit "+") line, last (hunks (state p)) with
          | Some line_to_add, Some (AddFile path contents) =>
              Ok (set_hunks p (set_last (hunks (state p))
                                 (AddFile path (contents ++ line_to_add ++ [LF]))))
          | _, _ => Err (InvalidHunkError (msg_bad_header trimmed) n)
          end
      end
  | DeleteFileMode =>
      let? r := handle_hunk_headers_and_end_patch p trimmed in
      match r with
      | Some p' => Ok p'
      | None => Err (InvalidHunkError (msg_bad_header trimmed) n)
      end
  | UpdateFileMode hunk_line_number =>
      let? r := handle_hunk_headers_and_end_patch p (trim_end line) in
      match r with
      | Some p' => Ok p'
      | None =>
          match last (hunks (state p)) with
          | Some (UpdateFile path move_path chunks) =>
              let? mc := process_update_line n line move_path chunks in
              Ok (set_mode (set_hunks p (set_last (hunks (state p))
                                           (UpdateFile path (fst mc) (snd mc))))
                           (UpdateFileMode hunk_line_number))
          | _ => Err (InvalidHunkError (msg_unexpected_line line) n)
          end
      end
  | EndedPatch =>
      if is_nil trimmed then Ok p else Err (InvalidPatchError msg_last_line)
  end.

(** [line.truncate(line.strip_suffix('\r').map_or(line.len(), str::len))]. *)
Definition strip_cr (line : str) : str := unwrap_or (strip_suffix [CR] line) line.

(** One iteration of the loop of [push_delta]; on an error the parser keeps the
    taken line buffer and the incremented line number. *)
Definition push_char (p : StreamingPatchParser) (ch : char)
  : StreamingPatchParser * result unit ParseError :=
  if N.eqb ch LF then
    let line := strip_cr (line_buffer p) in
    let p' := set_line_number (set_line_buffer p []) (S (line_number p)) in
    match process_line p' line with
    | Ok p'' => (p'', Ok tt)
    | Err e => (p', Err e)
    end
  else (set_line_buffer p (line_buffer p ++ [ch]), Ok tt).

Fixpoint push_delta (p : StreamingPatchParser) (delta : str)
  : StreamingPatchParser * result (list Hunk) ParseError :=
  match delta with
  | [] => (p, Ok (hunks (state p)))
  | ch :: rest =>
      match push_char p ch with
      | (p', Ok _) => push_delta p' rest
      | (p', Err e) => (p', Err e)
      end
  end.

Definition finish (p : StreamingPatchParser) : StreamingPatchParser * result (list Hunk) ParseError :=
  let '(p, r) :=
    if is_nil (line_buffer p) then (p, Ok tt)
    else
      let line := line_buffer p in
      let p' := set_line_number (set_line_buffer p []) (S (line_number p)) in
      if str_eqb (trim line) END_PATCH_MARKER then
        match ensure_update_hunk_is_not_empty p' (trim line) with
        | Ok _ => (set_mode p' EndedPatch, Ok tt)
        | Err e => (p', Err e)
        end
      else
        match process_line p' line with
        | Ok p'' => (p'', Ok tt)
        | Err e => (p', Err e)
        end in
  match r with
  | Err e => (p, Err e)
  | Ok _ =>
      match mode (state p) with
      | EndedPatch => (p, Ok (hunks (state p)))
      | _ => (p, Err (InvalidPatchError msg_last_line))
      end
  end.

(** ** [parse_patch] *)

Inductive ParseMode := Strict | Lenient.

Record ApplyPatchArgs := mkArgs {
  patch : str;
  args_hunks : list Hunk;
  workdir : option str;
  args_environment_id : option str;
}.

Definition check_start_and_end_lines_strict (first_line last_line : option str)
  : result unit ParseError :=
  match option_map trim first_line, option_map trim last_line with
  | Some f, Some l =>
      if str_eqb f BEGIN_PATCH_MARKER && str_eqb l END_PATCH_MARKER then Ok tt
      else if negb (str_eqb f BEGIN_PATCH_MARKER) then Err (InvalidPatchError msg_first_line)
      else Err (InvalidPatchError msg_last_line)
  | Some f, None =>
      if negb (str_eqb f BEGIN_PATCH_MARKER) then Err (InvalidPatchError msg_first_line)
      else Err (InvalidPatchError msg_last_line)
  | None, _ => Err (InvalidPatchError msg_last_line)
  end.

Definition check_patch_boundaries_strict (ls : list str) : result (list str) ParseError :=
  try? check_start_and_end_lines_strict (head ls) (last ls) in Ok ls.

Definition check_patch_boundaries_lenient (original_lines : list str)
  : result (list str) ParseError :=
  match check_patch_boundaries_strict original_lines with
  | Ok ls => Ok ls
  | Err original_parse_error =>
      match original_lines, last original_lines with
      | f :: _ :: _, Some l =>
          if (str_eqb f (lit "<<EOF") || str_eqb f (lit "<<'EOF'")
              || str_eqb f ([60; 60; 34] ++ lit "EOF" ++ [34])%N)
             && ends_with (lit "EOF") l
             && Nat.leb 4 (length original_lines)
          then check_patch_boundaries_strict (take (length original_lines - 2) (drop 1 original_lines))
          else Err original_parse_error
      | _, _ => Err original_parse_error
      end
  end.

Definition parse_patch_text (text : str) (m : ParseMode) : result ApplyPatchArgs ParseError :=
  let ls := lines (trim text) in
  let? patch_lines := (match m with
                       | Strict => check_patch_boundaries_strict ls
                       | Lenient => check_patch_boundaries_lenient ls
                       end) in
  let patch := join [LF] patch_lines in
  let '(p1, r1) := push_delta default_parser patch in
  try? r1 in
  let '(p2, r2) := finish p1 in
  let? hs := r2 in
  Ok (mkArgs patch hs None (environment_id (state p2))).

Definition PARSE_IN_STRICT_MODE : bool := false.

Definition parse_patch (text : str) : result ApplyPatchArgs ParseError :=
  parse_patch_text text (if PARSE_IN_STRICT_MODE then Strict else Lenient).

(** ** Well-formedness of what the parser produces *)

(** The recorded context pairs are strictly increasing on both sides and point
    at equal lines of [old_lines] and [new_lines]. *)
Definition ctx_step (a b : nat * nat) : Prop := a.1 < b.1 /\ a.2 < b.2.

Definition ctx_wf (c : UpdateFileChunk) : Prop :=
  StronglySorted ctx_step (context_line_indices c) /\
  Forall (fun ij => exists l, old_lines c !! ij.1 = Some l /\ new_lines c !! ij.2 = Some l)
         (context_line_indices c).

Definition chunk_complete (c : UpdateFileChunk) : Prop :=
  ctx_wf c /\ chunk_is_blank c = false.

Definition hunk_complete (h : Hunk) : Prop :=
  match h with
  | UpdateFile _ _ chunks => chunks <> [] /\ Forall chunk_complete chunks
  | _ => True
  end.

(** Chunks of a hunk that is still being read: only the last may be blank. *)
Definition open_chunks (cs : list UpdateFileChunk) : Prop :=
  cs = [] \/ exists pre c, cs = pre ++ [c] /\ Forall chunk_complete pre /\ ctx_wf c.

Definition parser_inv (p : StreamingPatchParser) : Prop :=
  let hs := hunks (state p) in
  match mode (state p) with
  | NotStarted | StartedPatch => hs = []
  | AddFileMode =>
      exists pre path c, hs = pre ++ [AddFile path c] /\ Forall hunk_complete pre
  | DeleteFileMode =>
      exists pre path, hs = pre ++ [DeleteFile path] /\ Forall hunk_complete pre
  | UpdateFileMode _ =>
      exists pre path mv cs, hs = pre ++ [UpdateFile path mv cs]
        /\ Forall hunk_complete pre /\ open_chunks cs
  | EndedPatch => Forall hunk_complete hs
  end.

(** *** Lemmas *)

Lemma set_last_snoc {A} (l : list A) x y : set_last (l ++ [x]) y = l ++ [y].
Proof.
  induction l as [|z l IH]; [done|]. simpl. rewrite IH. by destruct l.
Qed.

Lemma StronglySorted_snoc {A} (R : A -> A -> Prop) l x :
  StronglySorted R l -> Forall (fun a => R a x) l -> StronglySorted R (l ++ [x]).
Proof.
  induction 1 as [|a l Hs IH Ha]; simpl; intros HF; [repeat constructor|].
  apply Forall_cons in HF as [H1 H2]. constructor; [by apply IH|].
  apply Forall_app. auto.
Qed.

Lemma ctx_wf_default : ctx_wf default_chunk.
Proof. split; constructor. Qed.

Lemma ctx_wf_with_context ctx : ctx_wf (mkChunk ctx [] [] [] false).
Proof. split; constructor. Qed.

Lemma ctx_wf_push_context c l : ctx_wf c -> ctx_wf (push_context_line c l).
Proof.
  intros [Hs Hf]. split; simpl.
  - apply StronglySorted_snoc; [done|].
    eapply Forall_impl; [exact Hf|]. intros [i j] (x & Hi & Hj). simpl in *.
    split; simpl; by eapply lookup_lt_Some.
  - apply Forall_app. split; [|repeat constructor].
    + eapply Forall_impl; [exact Hf|]. intros [i j] (x & Hi & Hj). exists x.
      split; by apply lookup_app_l_Some.
    + exists l. simpl. by rewrite !list_lookup_middle.
Qed.

Lemma ctx_wf_push_new c l : ctx_wf c -> ctx_wf (push_new_line c l).
Proof.
  intros [Hs Hf]. split; simpl; [done|].
  eapply Forall_impl; [exact Hf|]. intros [i j] (x & Hi & Hj). exists x.
  split; [done | by apply lookup_app_l_Some].
Qed.

Lemma ctx_wf_push_old c l : ctx_wf c -> ctx_wf (push_old_line c l).
Proof.
  intros [Hs Hf]. split; simpl; [done|].
  eapply Forall_impl; [exact Hf|]. intros [i j] (x & Hi & Hj). exists x.
  split; [by apply lookup_app_l_Some | done].
Qed.

Lemma ctx_wf_mark_eof c : ctx_wf c -> ctx_wf (mark_end_of_file c).
Proof. done. Qed.

Create HintDb patch.
#[export] Hint Resolve ctx_wf_default ctx_wf_with_context ctx_wf_push_context
  ctx_wf_push_new ctx_wf_push_old ctx_wf_mark_eof : patch.

Lemma open_chunks_on_last cs f :
  (forall c, ctx_wf c -> ctx_wf (f c)) -> open_chunks cs -> open_chunks (on_last_chunk cs f).
Proof.
  intros Hf [->|(pre & c & -> & Hpre & Hc)].
  - right. exists [], (f default_chunk). simpl. split_and!; auto with patch.
  - right. exists pre, (f c). unfold on_last_chunk.
    assert (is_nil (pre ++ [c]) = false) as -> by (by destruct pre).
    by rewrite last_snoc, set_last_snoc; auto.
Qed.

Lemma open_chunks_push cs c :
  is_some_and (last cs) chunk_is_blank = false -> ctx_wf c ->
  open_chunks cs -> open_chunks (cs ++ [c]).
Proof.
  intros Hb Hc [->|(pre & c' & -> & Hpre & Hc')]; right.
  - by exists [], c; split_and!.
  - rewrite last_snoc in Hb. exists (pre ++ [c']), c. split_and!; [done| |done].
    apply Forall_app. split; [done|]. apply Forall_singleton. by split.
Qed.

Lemma open_chunks_complete cs :
  cs <> [] -> is_some_and (last cs) chunk_is_blank = false ->
  open_chunks cs -> Forall chunk_complete cs.
Proof.
  intros Hne Hb [->|(pre & c & -> & Hpre & Hc)]; [done|].
  rewrite last_snoc in Hb. apply Forall_app. split; [done|]. apply Forall_singleton. by split.
Qed.

Lemma process_update_line_inv n line mv cs mv' cs' :
  process_update_line n line mv cs = Ok (mv', cs') -> open_chunks cs -> open_chunks cs'.
Proof.
  intros H Ho. unfold process_update_line in H. cbv zeta in H.
  unfold starts_with in H. remember (is_some_and (last cs) chunk_is_blank) as bl eqn:Hbl.
  repeat (case_hyp H; try discriminate H); injection H as <- <-; auto;
    try (apply open_chunks_on_last; [auto with patch|done]);
    try (apply open_chunks_push; [|auto with patch|done]; rewrite <- Hbl; destruct bl; [exfalso|done];
         cbn in *; rewrite ?andb_true_r in *; bool_to_prop; congruence).
  all: right; destruct Ho as [->|(pre & c & -> & ? & ?)]; [done|].
  all: exists pre, (mark_end_of_file c); rewrite last_snoc in *; simplify_eq.
  all: rewrite set_last_snoc; auto with patch.
Qed.

Lemma ensure_update_hunk_complete p l :
  parser_inv p -> ensure_update_hunk_is_not_empty p l = Ok tt ->
  Forall hunk_complete (hunks (state p)).
Proof.
  unfold parser_inv, ensure_update_hunk_is_not_empty. intros Hi He.
  destruct (mode (state p)) eqn:Hm; [by rewrite Hi|by rewrite Hi| | | |done].
  - destruct Hi as (pre & path & c & -> & ?). apply Forall_app. split; [done|]. by repeat constructor.
  - destruct Hi as (pre & path & -> & ?). apply Forall_app. split; [done|]. by repeat constructor.
  - destruct Hi as (pre & path & mv & cs & E & Hpre & Hcs). rewrite E, last_snoc in *.
    apply Forall_app. split; [done|]. apply Forall_singleton.
    destruct (is_nil cs) eqn:Hn; [done|]. bool_to_prop.
    destruct (is_some_and (last cs) chunk_is_blank) eqn:Hb; [by destruct (str_eqb _ _)|].
    split; [done|]. by apply open_chunks_complete.
Qed.

(** A parser whose hunks are all complete stays in the invariant when a header
    opens the next hunk or the patch ends. *)
Lemma handle_headers_inv p t p' :
  parser_inv p -> handle_headers p t = Ok (Some p') -> parser_inv p'.
Proof.
  intros Hi H. unfold handle_headers in H.
  repeat (case_hyp H; try discriminate H);
    apply result_bind_ok in H as ([] & He & H); injection H as <-;
    apply ensure_update_hunk_complete in He; try done; unfold parser_inv; simpl;
    eauto 10; repeat eexists; eauto; by left.
Qed.

Lemma handle_hunk_headers_inv p t p' :
  parser_inv p -> handle_hunk_headers_and_end_patch p t = Ok (Some p') -> parser_inv p'.
Proof.
  intros Hi H. unfold handle_hunk_headers_and_end_patch in H.
  destruct (mode (state p)) eqn:Hm; try by apply handle_headers_inv in H.
  destruct (strip_prefix _ _); [|by apply handle_headers_inv in H].
  repeat (case_hyp H; try discriminate H). injection H as <-.
  unfold parser_inv in *. simpl. by rewrite Hm in *.
Qed.

Lemma process_line_inv p line p' :
  parser_inv p -> process_line p line = Ok p' -> parser_inv p'.
Proof.
  intros Hi H. unfold process_line in H. cbv zeta in H.
  destruct (mode (state p)) eqn:Hm;
    try (apply result_bind_ok in H as ([q|] & Hh & H);
         [injection H as <-; by eapply handle_hunk_headers_inv|]); try discriminate H.
  - case_hyp H; [|done]. injection H as <-. unfold parser_inv in *. by rewrite Hm in *.
  - unfold parser_inv in *. rewrite Hm in Hi. destruct Hi as (pre & path & c & E & Hpre).
    rewrite E, last_snoc in H. case_hyp H; [|done]. injection H as <-. simpl. rewrite Hm, set_last_snoc.
    eauto 10.
  - unfold parser_inv in Hi. rewrite Hm in Hi. destruct Hi as (pre & path & mv & cs & E & Hpre & Hcs).
    rewrite E, last_snoc in H. apply result_bind_ok in H as ([mv' cs'] & Hu & H). injection H as <-.
    unfold parser_inv. simpl. rewrite set_last_snoc. exists pre, path, mv', cs'.
    split_and!; [done..|]. by eapply process_update_line_inv.
  - case_hyp H; [|done]. by injection H as <-.
Qed.

Lemma parser_inv_buffer p b n : parser_inv p -> parser_inv (set_line_number (set_line_buffer p b) n).
Proof. done. Qed.

Lemma push_char_inv p ch : parser_inv p -> parser_inv (push_char p ch).1.
Proof.
  intros Hi. unfold push_char. destruct (N.eqb ch LF); [|done].
  destruct (process_line _ _) eqn:E; simpl; [|done].
  eapply process_line_inv; [|exact E]. by apply parser_inv_buffer.
Qed.

Lemma push_delta_inv delta p : parser_inv p -> parser_inv (push_delta p delta).1.
Proof.
  revert p; induction delta as [|ch rest IH]; intros p Hi; simpl; [done|].
  pose proof (push_char_inv p ch Hi) as Hc.
  destruct (push_char p ch) as [p' [u|e]]; simpl in *; [by apply IH|done].
Qed.

Lemma finish_complete p hs :
  parser_inv p -> (finish p).2 = Ok hs -> Forall hunk_complete hs.
Proof.
  intros Hi H. unfold finish in H.
  set (p' := set_line_number (set_line_buffer p []) (S (line_number p))) in *.
  assert (forall q, parser_inv q ->
    (match mode (state q) with EndedPatch => (q, Ok (hunks (state q)))
     | _ => (q, Err (InvalidPatchError msg_last_line)) end).2 = Ok hs -> Forall hunk_complete hs) as Hend.
  { intros q Hq. unfold parser_inv in Hq. destruct (mode (state q)); try done. by intros [= <-]. }
  destruct (is_nil (line_buffer p)); [by eapply Hend|].
  assert (parser_inv p') as Hi' by (by apply parser_inv_buffer).
  destruct (str_eqb _ _).
  - destruct (ensure_update_hunk_is_not_empty _ _) as [[]|] eqn:E; [|done].
    simpl in H. injection H as <-. by apply ensure_update_hunk_complete in E.
  - destruct (process_line p' _) as [q|] eqn:E; [|done].
    apply (Hend q); [by eapply process_line_inv|exact H].
Qed.

Lemma default_parser_inv : parser_inv default_parser.
Proof. done. Qed.

(** Results of [parse_patch_text] come from one run of the streaming parser. *)
Lemma parse_patch_text_run text m args :
  parse_patch_text text m = Ok args ->
  (finish (push_delta default_parser (patch args)).1).2 = Ok (args_hunks args).
Proof.
  unfold parse_patch_text. intros H.
  apply result_bind_ok in H as (pl & _ & H). cbv zeta in H.
  destruct (push_delta default_parser (join [LF] pl)) as [p1 r1] eqn:E1.
  apply result_bind_ok in H as (u & -> & H).
  destruct (finish p1) as [p2 r2] eqn:E2. apply result_bind_ok in H as (hs & -> & H).
  injection H as <-. cbn [patch args_hunks]. by rewrite E1; simpl; rewrite E2.
Qed.

Lemma parse_patch_complete text args :
  parse_patch text = Ok args -> Forall hunk_complete (args_hunks args).
Proof.
  intros H%parse_patch_text_run. eapply finish_complete; [|exact H].
  apply push_delta_inv, default_parser_inv.
Qed.

(** Every hunk [parse_patch] returns is complete: an update hunk has at least
    one chunk, no chunk is blank, and each chunk's recorded context pairs are
    strictly increasing, in range, and name equal lines on both sides. *)
Theorem parse_patch_hunks_complete (text : str) (args : ApplyPatchArgs) :
  parse_patch text = Ok args -> Forall hunk_complete (args_hunks args).
Proof. apply parse_patch_complete. Qed.

(** ** Streaming *)

(** ** The preview of a patch that is still arriving *)

(** A list of which only the last element is still open: it grows at its end, and
    its last element by [R]. *)
Definition tail_grows {A} (R : A -> A -> Prop) (l l' : list A) : Prop :=
  l = [] \/ exists pre x x' more, l = pre ++ [x] /\ l' = pre ++ x' :: more /\ R x x'.

Definition chunk_grows (c c' : UpdateFileChunk) : Prop :=
  change_context c' = change_context c /\ old_lines c `prefix_of` old_lines c' /\ new_lines c `prefix_of` new_lines c'
  /\ context_line_indices c `prefix_of` context_line_indices c' /\ (is_end_of_file c = true -> c' = c).

(** The kind and path of a hunk stay; contents and chunks are only added to; a move
    is announced before the first chunk. *)
Definition hunk_grows (h h' : Hunk) : Prop :=
  match h, h' with
  | AddFile path contents, AddFile path' contents' => path' = path /\ contents `prefix_of` contents'
  | DeleteFile path, DeleteFile path' => path' = path
  | UpdateFile path mv cs, UpdateFile path' mv' cs' =>
      path' = path /\ (mv' = mv \/ mv = None /\ cs = []) /\ tail_grows chunk_grows cs cs'
  | _, _ => False
  end.

Section TailGrows.
  Context {A : Type} (R : A -> A -> Prop) `{!Reflexive R, !Transitive R}.

Lemma tail_grows_refl l : tail_grows R l l.
Proof using Type*. destruct l as [|x l] using rev_ind; [by left|]. right. by exists l, x, x, []. Qed.

Lemma tail_grows_trans l l' l'' : tail_grows R l l' -> tail_grows R l' l'' -> tail_grows R l l''.
Proof using Type*.
  intros [->|(pre & x & x' & more & -> & -> & Hx)] H2; [by left|]. right.
  destruct H2 as [?|(pre2 & y & y' & more2 & E & -> & Hy)]; [by destruct pre|].
  destruct more as [|z more _] using rev_ind.
  - apply app_inj_tail in E as [<- <-]. exists pre, x, y', more2. split_and!; [done..|by etransitivity].
  - rewrite app_comm_cons, app_assoc in E. apply app_inj_tail in E as [<- <-].
    exists pre, x, x', (more ++ y' :: more2). by rewrite <- app_assoc.
Qed.

Lemma tail_grows_push l x : tail_grows R l (l ++ [x]).
Proof using Type*.
  destruct l as [|y l] using rev_ind; [by left|]. right. exists l, y, y, [x]. by rewrite <- app_assoc.
Qed.

Lemma tail_grows_last l x x' : last l = Some x -> R x x' -> tail_grows R l (set_last l x').
Proof using Type*.
  destruct l as [|y l _] using rev_ind; [done|]. rewrite last_snoc, set_last_snoc. intros [= ->] Hx. right. by exists l, x, x', [].
Qed.
End TailGrows.

#[export] Instance chunk_grows_refl : Reflexive chunk_grows.
Proof. intros c. by split_and!. Qed.

#[export] Instance chunk_grows_trans : Transitive chunk_grows.
Proof.
  intros c c' c'' (H1 & H2 & H3 & H4 & H5) (K1 & K2 & K3 & K4 & K5). split_and!; [congruence|by etransitivity..|].
  intros He. pose proof (H5 He) as ->. by apply K5.
Qed.

#[export] Instance hunk_grows_refl : Reflexive hunk_grows.
Proof. intros [| |path mv cs]; simpl; split_and?; auto. apply tail_grows_refl; apply _. Qed.

#[export] Instance hunk_grows_trans : Transitive hunk_grows.
Proof.
  intros [p c|p|p mv cs] [p' c'|p'|p' mv' cs'] [p'' c''|p''|p'' mv'' cs'']; simpl; try done.
  - intros [-> ?] [-> ?]. split; [done|by etransitivity].
  - by intros -> ->.
  - intros (-> & Hm & Hc) (-> & Hm' & Hc'). split_and!; [done| |by eapply tail_grows_trans; try apply _].
    destruct Hm as [->|[-> ->]]; [|by right]. destruct Hm' as [->|[-> ->]]; [by left|right; split; [done|]].
    destruct Hc as [->|(pre & ? & ? & ? & _ & E & _)]; [done|by destruct pre].
Qed.

Lemma on_last_grows cs f : is_some_and (last cs) is_end_of_file = false ->
  (forall c, is_end_of_file c = false -> chunk_grows c (f c)) -> tail_grows chunk_grows cs (on_last_chunk cs f).
Proof.
  intros He Hf. destruct cs as [|c cs _] using rev_ind; [by left|]. unfold on_last_chunk.
  assert (is_nil (cs ++ [c]) = false) as -> by (by destruct cs). rewrite last_snoc in *. rewrite set_last_snoc. right.
  exists cs, c, (f c), []. split_and!; [done..|by apply Hf].
Qed.

Lemma line_grows c l : is_end_of_file c = false ->
  chunk_grows c (push_context_line c l) /\ chunk_grows c (push_new_line c l) /\ chunk_grows c (push_old_line c l)
  /\ chunk_grows c (mark_end_of_file c).
Proof. intros He. unfold chunk_grows. rewrite He. split_and!; simpl; try done; by eexists. Qed.

Lemma process_update_line_grows n line mv cs mv' cs' :
  process_update_line n line mv cs = Ok (mv', cs') -> (mv' = mv \/ mv = None /\ cs = []) /\ tail_grows chunk_grows cs cs'.
Proof.
  unfold process_update_line. cbv zeta.
  destruct (is_some_and (last cs) is_end_of_file) eqn:He; cbn [andb].
  - destruct (is_nil (trim_end line)); [intros [= <- <-]; split; [by left|by apply tail_grows_refl; apply _]|].
    destruct (str_eqb (trim_end line) EMPTY_CHANGE_CONTEXT_MARKER || _) eqn:Ec; [cbn [negb]|done].
    assert (is_nil cs = false) as -> by (by destruct cs). cbn [andb].
    destruct (is_some_and (last cs) chunk_is_blank); [done|].
    destruct (str_eqb (trim_end line) EMPTY_CHANGE_CONTEXT_MARKER).
    { intros [= <- <-]. split; [by left|by apply tail_grows_push; apply _]. }
    simpl in Ec. unfold starts_with in Ec. destruct (strip_prefix CHANGE_CONTEXT_MARKER (trim_end line)); [|done].
    intros [= <- <-]. split; [by left|by apply tail_grows_push; apply _].
  - destruct (if is_nil cs && is_none mv then _ else _) as [dest|] eqn:Ed.
    { intros [= <- <-]. destruct cs; [|done]. destruct mv; [done|]. split; [by right|by left]. }
    destruct (_ && is_some_and (last cs) chunk_is_blank); [done|].
    destruct (str_eqb (trim_end line) EMPTY_CHANGE_CONTEXT_MARKER).
    { intros [= <- <-]. split; [by left|by apply tail_grows_push; apply _]. }
    destruct (strip_prefix CHANGE_CONTEXT_MARKER (trim_end line)).
    { intros [= <- <-]. split; [by left|by apply tail_grows_push; apply _]. }
    destruct (str_eqb (trim_end line) EOF_MARKER).
    { destruct (is_some_and (last cs) chunk_is_blank); [done|]. intros [= <- <-]. split; [by left|].
      destruct (last cs) as [c|] eqn:El; [|by apply tail_grows_refl; apply _].
      eapply tail_grows_last; [apply _..|exact El|]. by apply (line_grows c []). }
    assert (forall f, (forall c, is_end_of_file c = false -> chunk_grows c (f c)) -> Ok (E := ParseError) (mv, on_last_chunk cs f) = Ok (mv', cs') ->
      (mv' = mv \/ mv = None /\ cs = []) /\ tail_grows chunk_grows cs cs') as Hf.
    { intros f Hf [= <- <-]. split; [by left|]. by apply on_last_grows. }
    destruct (is_nil line); [apply Hf; intros; by apply line_grows|].
    destruct (strip_prefix (lit " ") line); [apply Hf; intros; by apply line_grows|].
    destruct (strip_prefix (lit "+") line); [apply Hf; intros; by apply line_grows|].
    destruct (strip_prefix (lit "-") line); [apply Hf; intros; by apply line_grows|].
    match goal with |- (if ?b then _ else _) = _ -> _ => destruct b end; intros [=].
Qed.

Lemma handle_headers_grows p l p' : handle_hunk_headers_and_end_patch p l = Ok (Some p') ->
  tail_grows hunk_grows (hunks (state p)) (hunks (state p')).
Proof.
  assert (handle_headers p l = Ok (Some p') -> tail_grows hunk_grows (hunks (state p)) (hunks (state p'))) as Hh.
  { unfold handle_headers. intros H. repeat (case_match; [|]); destruct (ensure_update_hunk_is_not_empty p l); simpl in H; simplify_eq/=;
      first [by apply tail_grows_refl; apply _|by apply tail_grows_push; apply _|done]. }
  unfold handle_hunk_headers_and_end_patch. destruct (mode (state p)); try exact Hh.
  destruct (strip_prefix ENVIRONMENT_ID_MARKER l); [|exact Hh]. destruct (is_some _); [done|]. destruct (is_nil _); [done|].
  intros [= <-]. simpl. by apply tail_grows_refl; apply _.
Qed.

Lemma process_line_grows p l p' : process_line p l = Ok p' -> tail_grows hunk_grows (hunks (state p)) (hunks (state p')).
Proof.
  unfold process_line. cbv zeta. intros H. destruct (mode (state p)).
  - destruct (str_eqb _ _); [|done]. injection H as <-. by apply tail_grows_refl; apply _.
  - apply result_bind_ok in H as ([q|] & Hq & H); [|done]. injection H as <-. by eapply handle_headers_grows.
  - apply result_bind_ok in H as ([q|] & Hq & H); [injection H as <-; by eapply handle_headers_grows|].
    destruct (strip_prefix (lit "+") l) as [x|]; [|done]. destruct (last (hunks (state p))) as [[path c| |]|] eqn:El; try done.
    injection H as <-. simpl. eapply tail_grows_last; [apply _..|exact El|]. split; [done|by eexists].
  - apply result_bind_ok in H as ([q|] & Hq & H); [|done]. injection H as <-. by eapply handle_headers_grows.
  - apply result_bind_ok in H as ([q|] & Hq & H); [injection H as <-; by eapply handle_headers_grows|].
    destruct (last (hunks (state p))) as [[| |path mv cs]|] eqn:El; try done.
    apply result_bind_ok in H as ([mv' cs'] & Hu & H). injection H as <-. simpl.
    eapply tail_grows_last; [apply _..|exact El|]. split; [done|]. by eapply process_update_line_grows.
  - destruct (is_nil _); [|done]. injection H as <-. by apply tail_grows_refl; apply _.
Qed.

Lemma push_delta_grows p d q hs : push_delta p d = (q, Ok hs) -> hs = hunks (state q) /\ tail_grows hunk_grows (hunks (state p)) hs.
Proof.
  revert p. induction d as [|ch d IH]; intros p; simpl.
  { intros [= <- <-]. split; [done|]. by apply tail_grows_refl; apply _. }
  unfold push_char. destruct (N.eqb ch LF).
  - destruct (process_line _ _) as [p'|e] eqn:E; [|done]. intros H. destruct (IH _ H) as [-> Hg]. split; [done|].
    apply process_line_grows in E. simpl in E. by eapply tail_grows_trans; try apply _.
  - intros H. by apply IH in H.
Qed.

Lemma finish_grows p q hs : finish p = (q, Ok hs) -> tail_grows hunk_grows (hunks (state p)) hs.
Proof.
  unfold finish. intros H.
  match type of H with (let '(_, _) := ?x in _) = _ => destruct x as [p1 r] eqn:E end.
  destruct r as [[]|e]; [|done].
  assert (tail_grows hunk_grows (hunks (state p)) (hunks (state p1))) as Hg.
  { destruct (is_nil (line_buffer p)); [injection E as <-; by apply tail_grows_refl; apply _|].
    destruct (str_eqb _ _).
    - destruct (ensure_update_hunk_is_not_empty _ _); [|done]. injection E as <-. by apply tail_grows_refl; apply _.
    - destruct (process_line _ _) as [p2|] eqn:El; [|done]. injection E as <-. by apply process_line_grows in El. }
  destruct (mode (state p1)); try done. by injection H as _ <-.
Qed.

(** C30. The preview of a patch that is still arriving is never taken back: whatever
    text follows, the hunks shown so far stay, the last of them is only added to
    (the same file and kind of change, its contents and lines continued, a finished
    chunk unchanged), and so it is until the patch has ended. *)
Theorem preview_only_grows (p q r : StreamingPatchParser) (first more : str) (shown later : list Hunk) :
  push_delta p first = (q, Ok shown) -> push_delta q more = (r, Ok later) ->
  tail_grows hunk_grows shown later
  /\ forall r' final, finish r = (r', Ok final) -> tail_grows hunk_grows shown final /\ tail_grows hunk_grows later final.
Proof.
  intros [-> _]%push_delta_grows [-> H]%push_delta_grows. split; [done|]. intros r' final Hf%finish_grows.
  split; [|done]. by eapply tail_grows_trans; try apply _.
Qed.

(** ** Witnesses *)

Definition demo_patch : str := Eval vm_compute in
  join [LF] [lit "*** Begin Patch"; lit "*** Update File: a.txt"; lit "@@"; lit " one"; lit "-two"; lit "+2";
             lit "*** End Patch"].

Lemma parse_patch_hunks_complete_witness :
  exists args, parse_patch demo_patch = Ok args /\ Forall hunk_complete (args_hunks args).
Proof.
  destruct (parse_patch demo_patch) as [args|e] eqn:E; [|exfalso; vm_compute in E; discriminate E].
  exists args. split; [reflexivity|]. exact (parse_patch_hunks_complete demo_patch args E).
Defined.

(** A patch cut inside the added file: what is shown grows into what is applied. *)
Definition preview_head : str := join [LF] [lit "*** Begin Patch"; lit "*** Add File: a"; lit "+one"; lit "+tw"].
Definition preview_tail : str := lit "o" ++ [LF] ++ lit "*** Delete File: b" ++ [LF] ++ lit "*** End Patch".

Lemma preview_only_grows_witness :
  exists q shown r later r' final, push_delta default_parser preview_head = (q, Ok shown) /\ push_delta q preview_tail = (r, Ok later)
    /\ finish r = (r', Ok final) /\ tail_grows hunk_grows shown final
    /\ shown = [AddFile (lit "a") (lit "one" ++ [LF])]
    /\ final = [AddFile (lit "a") (join [LF] [lit "one"; lit "two"; []]); DeleteFile (lit "b")].
Proof.
  destruct (push_delta default_parser preview_head) as [q [shown|e]] eqn:E1; [|vm_compute in E1; discriminate E1].
  destruct (push_delta q preview_tail) as [r [later|e]] eqn:E2; [|vm_compute in E1; injection E1 as <- <-; vm_compute in E2; discriminate E2].
  destruct (finish r) as [r' [final|e]] eqn:E3;
    [|vm_compute in E1; injection E1 as <- <-; vm_compute in E2; injection E2 as <- <-; vm_compute in E3; discriminate E3].
  exists q, shown, r, later, r', final. split; [reflexivity|]. split; [exact E2|]. split; [exact E3|]. split.
  - exact (proj1 (proj2 (preview_only_grows default_parser q r preview_head preview_tail shown later E1 E2) r' final E3)).
  - vm_compute in E1. injection E1 as <- <-. vm_compute in E2. injection E2 as <- <-. vm_compute in E3. injection E3 as <- <-.
    split; reflexivity.
Defined.
