(* ===== verification/PatchGrammar.v ===== *)
(** * The patch grammar and its round trip through the parser

    The grammar in the module comment of [parser.rs] as an abstract syntax with
    a printer ([render_patch]) and a denotation into the parser's [Hunk]s.  The
    round-trip theorems state that [parse_patch] inverts the printer, also when
    the text arrives wrapped in the heredoc the lenient mode accepts. *)

From stdpp Require Import base list numbers option strings gmap.
From Stdlib Require Import Lia.
From S2P Require Import Prelude RustStr PatchParser.

(** ** Abstract syntax, printer, denotation *)

Inductive DiffLine := Context (s : str) | Insert (s : str) | Remove (s : str).

(** A chunk: its header line ([@@], with or without a context), which the first
    chunk of a hunk may leave out, its lines, and the end-of-file marker. *)
Record ChunkSpec := mkChunkSpec {
  spec_header : bool;
  spec_context : option str;
  spec_lines : list DiffLine;
  spec_eof : bool;
}.

Inductive HunkSpec :=
| SpecAdd (path : str) (contents : list str)
| SpecDelete (path : str)
| SpecUpdate (path : str) (move_to : option str) (chunks : list ChunkSpec).

Record PatchSpec := mkPatchSpec {
  spec_environment : option str;
  spec_hunks : list HunkSpec;
}.

Definition render_diff_line (d : DiffLine) : str :=
  match d with
  | Context s => lit " " ++ s
  | Insert s => lit "+" ++ s
  | Remove s => lit "-" ++ s
  end.

Definition render_chunk_header (ctx : option str) : str :=
  match ctx with
  | None => EMPTY_CHANGE_CONTEXT_MARKER
  | Some c => CHANGE_CONTEXT_MARKER ++ c
  end.

Definition render_chunk (c : ChunkSpec) : list str :=
  (if spec_header c then [render_chunk_header (spec_context c)] else [])
  ++ List.map render_diff_line (spec_lines c)
  ++ (if spec_eof c then [EOF_MARKER] else []).

Definition render_hunk (h : HunkSpec) : list str :=
  match h with
  | SpecAdd path contents => (ADD_FILE_MARKER ++ path) :: List.map (app (lit "+")) contents
  | SpecDelete path => [DELETE_FILE_MARKER ++ path]
  | SpecUpdate path mv chunks =>
      (UPDATE_FILE_MARKER ++ path)
      :: match mv with Some m => [MOVE_TO_MARKER ++ m] | None => [] end
      ++ List.concat (List.map render_chunk chunks)
  end.

Definition render_env (e : option str) : list str :=
  match e with Some e => [ENVIRONMENT_ID_MARKER ++ lit " " ++ e] | None => [] end.

(** The lines between the two patch markers. *)
Definition render_body (p : PatchSpec) : list str :=
  render_env (spec_environment p) ++ List.concat (List.map render_hunk (spec_hunks p)).

Definition render_lines (p : PatchSpec) : list str :=
  BEGIN_PATCH_MARKER :: render_body p ++ [END_PATCH_MARKER].

Definition render_patch (p : PatchSpec) : str := join [LF] (render_lines p).

(** The same text inside the heredoc of [ParseMode::Lenient]. *)
Definition render_heredoc (p : PatchSpec) : str :=
  join [LF] (lit "<<'EOF'" :: render_lines p ++ [lit "EOF"]).

Definition denote_line (c : UpdateFileChunk) (d : DiffLine) : UpdateFileChunk :=
  match d with
  | Context s => push_context_line c s
  | Insert s => push_new_line c s
  | Remove s => push_old_line c s
  end.

Definition denote_chunk (c : ChunkSpec) : UpdateFileChunk :=
  let body := fold_left denote_line (spec_lines c) (mkChunk (spec_context c) [] [] [] false) in
  if spec_eof c then mark_end_of_file body else body.

Definition denote_hunk (h : HunkSpec) : Hunk :=
  match h with
  | SpecAdd path contents => AddFile path (List.concat (List.map (fun l => l ++ [LF]) contents))
  | SpecDelete path => DeleteFile path
  | SpecUpdate path mv chunks => UpdateFile path mv (List.map denote_chunk chunks)
  end.

(** ** What can be printed *)

(** A content line: no line break inside, no final carriage return. *)
Definition line_ok (s : str) : bool :=
  negb (contains_char LF s) && negb (is_some_and (last s) (N.eqb CR)).

(** A path, environment id or context: not empty, on one line, no trailing white space. *)
Definition header_ok (s : str) : bool :=
  negb (contains_char LF s) && is_some_and (last s) (fun c => negb (is_whitespace c)).

Definition diff_line_ok (d : DiffLine) : bool :=
  match d with Context s | Insert s | Remove s => line_ok s end.

Definition chunk_spec_ok (c : ChunkSpec) : bool :=
  match spec_context c with Some x => spec_header c && header_ok x | None => true end
  && negb (is_nil (spec_lines c)) && forallb diff_line_ok (spec_lines c).

Definition hunk_spec_ok (h : HunkSpec) : bool :=
  match h with
  | SpecAdd path contents => header_ok path && forallb line_ok contents
  | SpecDelete path => header_ok path
  | SpecUpdate path mv chunks =>
      header_ok path && match mv with Some m => header_ok m | None => true end
      && negb (is_nil chunks) && forallb chunk_spec_ok chunks && forallb spec_header (tail chunks)
  end.

Definition patch_spec_ok (p : PatchSpec) : bool :=
  match spec_environment p with
  | Some (c :: e) => header_ok (c :: e) && negb (is_whitespace c)
  | Some [] => false
  | None => true
  end && forallb hunk_spec_ok (spec_hunks p).

(** ** Lemmas on single lines *)

Lemma drop_while_end_cons {A} (p : A -> bool) x l :
  drop_while_end p (x :: l) =
  match drop_while_end p l with
  | [] => if p x then [] else [x]
  | t => x :: t
  end.
Proof.
  unfold drop_while_end. simpl.
  assert (forall m, drop_while p (m ++ [x]) =
    match drop_while p m with [] => if p x then [] else [x] | t => t ++ [x] end) as ->.
  { induction m as [|y m IH]; simpl; [done|]. by destruct (p y). }
  destruct (drop_while p (rev l)) as [|y t]; [by simpl; destruct (p x)|].
  simpl. rewrite rev_app_distr. simpl. destruct (rev t ++ [y]) eqn:E; [|done]. by apply app_nil in E as [_ ?].
Qed.

Lemma trim_end_cons_nonws c s : is_whitespace c = false -> trim_end (c :: s) = c :: trim_end s.
Proof.
  intros H. unfold trim_end. rewrite drop_while_end_cons, H.
  by destruct (drop_while_end is_whitespace s).
Qed.

Lemma trim_end_space s : trim_end (SPACE :: s) = [] \/ exists t, trim_end (SPACE :: s) = SPACE :: t.
Proof.
  unfold trim_end. rewrite drop_while_end_cons.
  destruct (drop_while_end is_whitespace s); [by left|right; eauto].
Qed.

Lemma contains_char_false c s : contains_char c s = false -> c ∉ s.
Proof.
  unfold contains_char. intros H Hin. apply not_true_iff_false in H. apply H.
  apply existsb_exists. exists c. split; [by apply list_elem_of_In|]. apply N.eqb_refl.
Qed.

Lemma header_ok_spec s : header_ok s = true -> LF ∉ s /\ s <> [] /\ no_trailing_ws s.
Proof.
  unfold header_ok. intros H. bool_to_prop. split_and!.
  - by apply contains_char_false.
  - by intros ->.
  - intros c E. rewrite E in *. simpl in *. by bool_to_prop.
Qed.

Lemma line_ok_spec s : line_ok s = true -> LF ∉ s /\ strip_cr s = s.
Proof.
  unfold line_ok. intros H. bool_to_prop. split; [by apply contains_char_false|].
  unfold strip_cr. destruct (strip_suffix [CR] s) as [r|] eqn:E; [|done].
  apply strip_suffix_Some in E as ->. by rewrite last_snoc in *.
Qed.

Lemma strip_cr_nonws s : no_trailing_ws s -> strip_cr s = s.
Proof.
  intros H. unfold strip_cr. destruct (strip_suffix [CR] s) as [r|] eqn:E; [|done].
  apply strip_suffix_Some in E as ->. specialize (H CR). by rewrite last_snoc in H; specialize (H eq_refl).
Qed.

(** A line as the parser reads it back: no line break, carriage return kept. *)
Definition clean_line (s : str) : Prop := LF ∉ s /\ strip_cr s = s.

Lemma clean_header pre s : LF ∉ pre -> header_ok s = true ->
  clean_line (pre ++ s) /\ no_trailing_ws (pre ++ s).
Proof.
  intros Hp Hs%header_ok_spec. destruct Hs as (H1 & H2 & H3).
  assert (no_trailing_ws (pre ++ s)) as Hn by (by apply no_trailing_ws_app).
  split; [split|done]; [set_solver|by apply strip_cr_nonws].
Qed.

Lemma clean_content c s : c <> LF -> c <> CR -> line_ok s = true -> clean_line (c :: s).
Proof.
  intros Hc Hc' [H1 H2]%line_ok_spec. split; [set_solver|].
  unfold strip_cr in *. destruct (strip_suffix [CR] (c :: s)) as [r|] eqn:E; [|done].
  apply strip_suffix_Some in E. destruct r as [|y r]; simplify_eq/=.
  by rewrite strip_suffix_app in H2; simpl in H2; apply (f_equal length) in H2;
     rewrite length_app in H2; simpl in H2; lia.
Qed.

(** ** Running the parser line by line *)

Definition step_line (p : StreamingPatchParser) (line : str) : result StreamingPatchParser ParseError :=
  process_line (set_line_number (set_line_buffer p []) (S (line_number p))) line.

Fixpoint run_lines (p : StreamingPatchParser) (ls : list str) : result StreamingPatchParser ParseError :=
  match ls with
  | [] => Ok p
  | l :: ls' => let? p' := step_line p l in run_lines p' ls'
  end.

Lemma run_lines_app p a b :
  run_lines p (a ++ b) = let? p' := run_lines p a in run_lines p' b.
Proof.
  revert p; induction a as [|l a IH]; intros p; simpl; [done|].
  destruct (step_line p l); simpl; [apply IH|done].
Qed.

Lemma set_line_buffer_twice p b b' : set_line_buffer (set_line_buffer p b) b' = set_line_buffer p b'.
Proof. done. Qed.

Lemma push_delta_chars p s rest :
  LF ∉ s -> push_delta p (s ++ rest) = push_delta (set_line_buffer p (line_buffer p ++ s)) rest.
Proof.
  revert p; induction s as [|c s IH]; intros p H; simpl.
  - rewrite app_nil_r. by destruct p.
  - apply not_elem_of_cons in H as [Hc Hs]. unfold push_char.
    destruct (N.eqb_spec c LF); [by subst|]. rewrite IH by done.
    rewrite set_line_buffer_twice. simpl. by rewrite <- app_assoc.
Qed.

Lemma push_delta_line p l rest p' :
  line_buffer p = [] -> clean_line l -> step_line p l = Ok p' ->
  push_delta p (l ++ LF :: rest) = push_delta p' rest.
Proof.
  intros Hb [Hl Hcr] Hs. rewrite push_delta_chars by done. simpl. unfold push_char.
  rewrite N.eqb_refl. simpl. rewrite Hb. simpl. rewrite Hcr, set_line_buffer_twice.
  unfold step_line in Hs. simpl in *. by rewrite Hs.
Qed.

Lemma join_LF_cons l ls : ls <> [] -> join [LF] (l :: ls) = l ++ LF :: join [LF] ls.
Proof. by destruct ls. Qed.

(** [process_line] never touches the line buffer, so a whole block of lines can
    be pushed as text. *)
Lemma process_line_buffer p l p' : process_line p l = Ok p' -> line_buffer p' = line_buffer p.
Proof.
  unfold process_line, handle_hunk_headers_and_end_patch, handle_headers. cbv zeta. intros H.
  destruct (mode (state p)); repeat (case_hyp H || (apply result_bind_ok in H as (? & ? & H))); simplify_eq; try done;
   repeat match goal with
   | E : context [match _ with _ => _ end] |- _ => case_hyp E
   | E : result_bind _ _ = Ok _ |- _ => apply result_bind_ok in E as (? & ? & E)
   end; by simplify_eq.
Qed.

Lemma step_line_buffer p l p' : step_line p l = Ok p' -> line_buffer p' = [].
Proof. intros H. by apply process_line_buffer in H. Qed.

Lemma push_delta_lines p ls lastl p' :
  line_buffer p = [] -> Forall clean_line ls -> run_lines p ls = Ok p' ->
  push_delta p (join [LF] (ls ++ [lastl])) = push_delta p' lastl.
Proof.
  intros Hb HF. revert p Hb. induction HF as [|l ls Hl HF IH]; intros p Hb Hr; simpl in Hr.
  - by injection Hr as ->.
  - apply result_bind_ok in Hr as (q & Hq & Hr). simpl app.
    rewrite join_LF_cons by (by destruct ls).
    rewrite (push_delta_line _ _ _ q) by done. apply IH; [by eapply step_line_buffer|done].
Qed.

Lemma finish_end p :
  line_buffer p = END_PATCH_MARKER ->
  ensure_update_hunk_is_not_empty (set_line_number (set_line_buffer p []) (S (line_number p))) END_PATCH_MARKER = Ok tt ->
  exists q, finish p = (q, Ok (hunks (state p))) /\ environment_id (state q) = environment_id (state p).
Proof.
  intros Hb He. unfold finish. rewrite Hb. change (is_nil END_PATCH_MARKER) with false.
  change (trim END_PATCH_MARKER) with END_PATCH_MARKER. cbv zeta. rewrite str_eqb_refl, He. simpl.
  eexists. split; done.
Qed.

(** ** Parser states between the printed lines *)

(** Between hunks: a header or the end marker may follow. *)
Definition ready (p : StreamingPatchParser) (env : option str) (hs : list Hunk) : Prop :=
  hunks (state p) = hs /\ environment_id (state p) = env
  /\ (forall n l, ensure_update_hunk_is_not_empty (set_line_number (set_line_buffer p []) n) l = Ok tt)
  /\ mode (state p) <> NotStarted /\ mode (state p) <> EndedPatch.

(** Inside an update hunk. *)
Definition updating (p : StreamingPatchParser) (env : option str) (hs : list Hunk)
    (path : str) (mv : option str) (cs : list UpdateFileChunk) : Prop :=
  hunks (state p) = hs ++ [UpdateFile path mv cs] /\ environment_id (state p) = env
  /\ exists n, mode (state p) = UpdateFileMode n.

(** Markers that open a hunk are read as headers in every mode between hunks. *)
Lemma ready_header p env hs marker path :
  ready p env hs -> header_ok path = true ->
  (forall s, no_leading_ws (marker ++ s)) ->
  (forall s, strip_prefix ENVIRONMENT_ID_MARKER (marker ++ s) = None) ->
  let q := set_line_number (set_line_buffer p []) (S (line_number p)) in
  forall q', handle_headers q (marker ++ path) = Ok (Some q') ->
  step_line p (marker ++ path) = Ok q'.
Proof.
  intros (Hh & He & Hens & Hm1 & Hm2) Hp Hlead Henv q q' Hq.
  destruct (header_ok_spec _ Hp) as (_ & Hne & Htr).
  assert (no_trailing_ws (marker ++ path)) as Hn by (by apply no_trailing_ws_app).
  assert (handle_hunk_headers_and_end_patch q (marker ++ path) = Ok (Some q')) as Hqq.
  { unfold handle_hunk_headers_and_end_patch. rewrite Henv. by destruct (mode (state q)). }
  unfold step_line. fold q. unfold process_line. rewrite trim_id, trim_end_id by done. cbv zeta.
  rewrite Hqq. simpl. by destruct (mode (state p)).
Qed.

Lemma step_add_header p env hs path :
  ready p env hs -> header_ok path = true ->
  exists p', step_line p (ADD_FILE_MARKER ++ path) = Ok p'
    /\ hunks (state p') = hs ++ [AddFile path []] /\ environment_id (state p') = env
    /\ mode (state p') = AddFileMode.
Proof.
  intros Hr Hp. pose proof Hr as (Hh & He & Hens & _).
  eexists. split_and!; [eapply ready_header; try done|..].
  - unfold handle_headers. rewrite strip_prefix_app. simpl. rewrite Hens. simpl. done.
  - simpl. by rewrite Hh.
  - done.
  - done.
Qed.

Lemma step_delete_header p env hs path :
  ready p env hs -> header_ok path = true ->
  exists p', step_line p (DELETE_FILE_MARKER ++ path) = Ok p'
    /\ hunks (state p') = hs ++ [DeleteFile path] /\ environment_id (state p') = env
    /\ mode (state p') = DeleteFileMode.
Proof.
  intros Hr Hp. pose proof Hr as (Hh & He & Hens & _).
  eexists. split_and!; [eapply ready_header; try done|..].
  - unfold handle_headers. rewrite strip_prefix_app. simpl. rewrite Hens. simpl. done.
  - simpl. by rewrite Hh.
  - done.
  - done.
Qed.

Lemma step_update_header p env hs path :
  ready p env hs -> header_ok path = true ->
  exists p', step_line p (UPDATE_FILE_MARKER ++ path) = Ok p' /\ updating p' env hs path None [].
Proof.
  intros Hr Hp. pose proof Hr as (Hh & He & Hens & _).
  eexists. split; [eapply ready_header; try done|].
  - unfold handle_headers. rewrite strip_prefix_app. simpl. rewrite Hens. simpl. done.
  - split_and!; simpl; [by rewrite Hh|done|by eexists].
Qed.

(** A line of an update hunk that is no header. *)
Lemma step_update p env hs path mv cs line mv' cs' :
  updating p env hs path mv cs ->
  (forall q, mode (state q) <> StartedPatch -> handle_headers q (trim_end line) = Ok None) ->
  (forall n, process_update_line n line mv cs = Ok (mv', cs')) ->
  exists p', step_line p line = Ok p' /\ updating p' env hs path mv' cs'.
Proof.
  intros (Hh & He & n & Hm) Hhd Hpu. unfold step_line, process_line. simpl.
  rewrite Hm. unfold handle_hunk_headers_and_end_patch. simpl. rewrite Hm, Hhd by (simpl; by rewrite Hm).
  simpl. rewrite Hh, last_snoc, Hpu. simpl. eexists. split; [done|].
  split_and!; simpl; [by rewrite set_last_snoc|done|by eexists].
Qed.

(** No header starts with a character other than [*]. *)
Lemma handle_headers_other q s :
  match s with [] => True | c :: _ => c <> 42%N end -> handle_headers q s = Ok None.
Proof.
  destruct s as [|c s]; [done|]. intros Hc. unfold handle_headers.
  assert (N.eqb 42 c = false) as E by (by apply N.eqb_neq).
  assert (N.eqb c 42 = false) as E' by (by apply N.eqb_neq).
  cbn -[N.eqb]. by rewrite E, E'.
Qed.

Definition last_closed (cs : list UpdateFileChunk) : Prop :=
  is_some_and (last cs) chunk_is_blank = false.

Lemma step_chunk_header p env hs path mv cs ctx :
  updating p env hs path mv cs -> last_closed cs ->
  match ctx with Some x => header_ok x = true | None => True end ->
  exists p', step_line p (render_chunk_header ctx) = Ok p'
    /\ updating p' env hs path mv (cs ++ [mkChunk ctx [] [] [] false]).
Proof.
  intros Hu Hc Hctx.
  assert (no_trailing_ws (render_chunk_header ctx)) as Hn.
  { destruct ctx as [x|]; unfold render_chunk_header; [|by intros c [= <-]].
    apply header_ok_spec in Hctx as (_ & ? & ?). by apply no_trailing_ws_app. }
  eapply step_update; [exact Hu|..]; intros.
  - rewrite trim_end_id by done. apply handle_headers_other. by destruct ctx.
  - unfold process_update_line. rewrite trim_end_id by done. rewrite Hc.
    assert ((if is_nil cs && is_none mv then strip_prefix MOVE_TO_MARKER (render_chunk_header ctx)
             else None) = None) as -> by (destruct ctx; by destruct (is_nil cs && is_none mv)).
    destruct ctx as [x|]; cbn; rewrite ?andb_false_r; done.
Qed.

Lemma on_last_chunk_snoc pre c f : on_last_chunk (pre ++ [c]) f = pre ++ [f c].
Proof.
  unfold on_last_chunk. assert (is_nil (pre ++ [c]) = false) as -> by (by destruct pre).
  by rewrite last_snoc, set_last_snoc.
Qed.

(** The trimmed form of a printed diff line is empty or keeps its first character. *)
Lemma trim_end_diff_line d :
  exists c, render_diff_line d = c :: match d with Context s | Insert s | Remove s => s end
    /\ (trim_end (render_diff_line d) = [] \/ exists t, trim_end (render_diff_line d) = c :: t)
    /\ (c = 32 \/ c = 43 \/ c = 45)%N.
Proof.
  destruct d as [s|s|s]; eexists; (split_and!; [reflexivity| |auto]); simpl.
  - apply trim_end_space.
  - right. eexists. by apply trim_end_cons_nonws.
  - right. eexists. by apply trim_end_cons_nonws.
Qed.

(** No diff line is taken for a header, a chunk header or a marker. *)
Lemma diff_line_no_marker d :
  str_eqb (trim_end (render_diff_line d)) EMPTY_CHANGE_CONTEXT_MARKER = false
  /\ strip_prefix CHANGE_CONTEXT_MARKER (trim_end (render_diff_line d)) = None
  /\ str_eqb (trim_end (render_diff_line d)) EOF_MARKER = false
  /\ strip_prefix MOVE_TO_MARKER (trim_end (render_diff_line d)) = None.
Proof.
  destruct (trim_end_diff_line d) as (h & Hd & Ht & Hh). destruct Ht as [->|[t ->]]; [done|]. by destruct Hh as [->|[->| ->]].
Qed.

(** A first diff line without a header before it opens a chunk. *)
Lemma step_first_line p env hs path mv d :
  updating p env hs path mv [] ->
  exists p', step_line p (render_diff_line d) = Ok p' /\ updating p' env hs path mv [denote_line default_chunk d].
Proof.
  intros Hu. destruct (trim_end_diff_line d) as (h & Hd & Ht & Hh). destruct (diff_line_no_marker d) as (E1 & E2 & E3 & E4).
  eapply step_update; [exact Hu|..]; intros.
  - apply handle_headers_other. destruct Ht as [->|[t ->]]; naive_solver.
  - unfold process_update_line, starts_with. rewrite E1, E2, E3, E4. cbn [last is_some_and is_some is_none negb andb orb is_nil].
    destruct mv; by destruct d.
Qed.

Lemma step_diff_line p env hs path mv pre c d :
  updating p env hs path mv (pre ++ [c]) -> is_end_of_file c = false ->
  exists p', step_line p (render_diff_line d) = Ok p'
    /\ updating p' env hs path mv (pre ++ [denote_line c d]).
Proof.
  intros Hu He. destruct (diff_line_no_marker d) as (E1 & E2 & E3 & _). destruct (trim_end_diff_line d) as (h & Hd & Ht & Hh).
  eapply step_update; [exact Hu|..]; intros.
  - apply handle_headers_other. destruct Ht as [->|[t ->]]; naive_solver.
  - unfold process_update_line. rewrite last_snoc. cbn [is_some_and]. rewrite He.
    assert (is_nil (pre ++ [c]) = false) as -> by (by destruct pre). cbn [andb].
    unfold starts_with. rewrite E1, E2, E3. cbn [is_some is_none negb andb orb].
    destruct d; simpl; by rewrite on_last_chunk_snoc.
Qed.

Lemma denote_line_keeps c d :
  is_end_of_file (denote_line c d) = is_end_of_file c /\ chunk_is_blank (denote_line c d) = false.
Proof. destruct d, c as [? [] [] ? ?]; done. Qed.

Lemma run_diff_lines p env hs path mv pre c ds :
  updating p env hs path mv (pre ++ [c]) -> is_end_of_file c = false ->
  exists p', run_lines p (List.map render_diff_line ds) = Ok p'
    /\ updating p' env hs path mv (pre ++ [fold_left denote_line ds c]).
Proof.
  revert p c. induction ds as [|d ds IH]; intros p c Hu He; simpl; [eauto|].
  destruct (step_diff_line p env hs path mv pre c d Hu He) as (p1 & E & Hu1).
  rewrite E. simpl. apply IH; [done|]. by rewrite (proj1 (denote_line_keeps c d)).
Qed.

Lemma fold_denote_line_keeps ds c :
  is_end_of_file c = false -> ds <> [] ->
  is_end_of_file (fold_left denote_line ds c) = false
  /\ chunk_is_blank (fold_left denote_line ds c) = false.
Proof.
  revert c. induction ds as [|d ds IH]; intros c He Hne; [done|]. simpl.
  pose proof (denote_line_keeps c d) as [H1 H2]. destruct ds as [|d' ds]; [cbn [fold_left]; by rewrite H1|].
  apply IH; [by rewrite H1|done].
Qed.

Lemma step_eof p env hs path mv pre c :
  updating p env hs path mv (pre ++ [c]) -> is_end_of_file c = false -> chunk_is_blank c = false ->
  exists p', step_line p EOF_MARKER = Ok p'
    /\ updating p' env hs path mv (pre ++ [mark_end_of_file c]).
Proof.
  intros Hu He Hb. eapply step_update; [exact Hu|..]; intros; [done|].
  unfold process_update_line. rewrite last_snoc. cbn [is_some_and]. rewrite He, Hb.
  assert (is_nil (pre ++ [c]) = false) as -> by (by destruct pre). cbn.
  by rewrite set_last_snoc.
Qed.

(** The lines of a chunk, its header read or left out. *)
Lemma run_chunk_start p env hs path mv cs c :
  updating p env hs path mv cs -> last_closed cs -> chunk_spec_ok c = true -> (spec_header c = true \/ cs = []) ->
  exists p', run_lines p ((if spec_header c then [render_chunk_header (spec_context c)] else []) ++ List.map render_diff_line (spec_lines c)) = Ok p'
    /\ updating p' env hs path mv (cs ++ [fold_left denote_line (spec_lines c) (mkChunk (spec_context c) [] [] [] false)]).
Proof.
  intros Hu Hc Hok Hh. unfold chunk_spec_ok in Hok. bool_to_prop. destruct (spec_header c) eqn:Eh.
  - destruct (step_chunk_header p env hs path mv cs (spec_context c) Hu Hc) as (p1 & E1 & Hu1).
    { by destruct (spec_context c). }
    simpl. rewrite E1. simpl. by eapply run_diff_lines.
  - destruct Hh as [?| ->]; [done|]. destruct (spec_context c) eqn:Ec; [done|].
    destruct (spec_lines c) as [|d ds]; [done|].
    destruct (step_first_line p env hs path mv d Hu) as (p1 & E1 & Hu1). simpl. rewrite E1. simpl.
    eapply (run_diff_lines _ _ _ _ _ []); [exact Hu1|]. by rewrite (proj1 (denote_line_keeps _ _)).
Qed.

Lemma run_chunk p env hs path mv cs c :
  updating p env hs path mv cs -> last_closed cs -> chunk_spec_ok c = true -> (spec_header c = true \/ cs = []) ->
  exists p', run_lines p (render_chunk c) = Ok p'
    /\ updating p' env hs path mv (cs ++ [denote_chunk c]) /\ last_closed (cs ++ [denote_chunk c]).
Proof.
  intros Hu Hc Hok Hh. destruct (run_chunk_start p env hs path mv cs c Hu Hc Hok Hh) as (p2 & E2 & Hu2).
  unfold chunk_spec_ok in Hok. bool_to_prop. set (c0 := mkChunk (spec_context c) [] [] [] false) in *.
  destruct (fold_denote_line_keeps (spec_lines c) c0) as [K1 K2]; [done..|].
  unfold render_chunk. rewrite app_assoc, run_lines_app, E2. simpl.
  unfold denote_chunk, last_closed. fold c0. rewrite last_snoc. destruct (spec_eof c); simpl.
  - destruct (step_eof _ _ _ _ _ _ _ Hu2 K1 K2) as (p3 & E3 & Hu3). rewrite E3. simpl. eauto.
  - eauto.
Qed.

Lemma run_chunks p env hs path mv cs specs :
  updating p env hs path mv cs -> last_closed cs -> forallb chunk_spec_ok specs = true ->
  forallb spec_header (match cs with [] => tail specs | _ => specs end) = true ->
  exists p', run_lines p (List.concat (List.map render_chunk specs)) = Ok p'
    /\ updating p' env hs path mv (cs ++ List.map denote_chunk specs)
    /\ last_closed (cs ++ List.map denote_chunk specs).
Proof.
  revert p cs. induction specs as [|c specs IH]; intros p cs Hu Hc Hok Hh; cbn [List.map List.concat].
  - rewrite app_nil_r. simpl. eauto.
  - simpl in Hok. bool_to_prop.
    assert ((spec_header c = true \/ cs = []) /\ forallb spec_header specs = true) as [Hc' Hs].
    { destruct cs; simpl in Hh; [auto|]. bool_to_prop. auto. }
    destruct (run_chunk _ _ _ _ _ _ c Hu Hc) as (p1 & E & Hu1 & Hc1); [done..|].
    destruct (IH p1 _ Hu1 Hc1) as (p2 & E2 & Hu2 & Hc2); [done|by destruct cs|].
    rewrite run_lines_app, E. simpl. rewrite <- app_assoc in Hu2, Hc2. eauto.
Qed.

Lemma step_move p env hs path mv :
  updating p env hs path None [] -> header_ok mv = true ->
  exists p', step_line p (MOVE_TO_MARKER ++ mv) = Ok p' /\ updating p' env hs path (Some mv) [].
Proof.
  intros Hu Hm. pose proof (clean_header MOVE_TO_MARKER mv) as [_ Hn]; [set_solver|done|].
  eapply step_update; [exact Hu|..]; intros; rewrite ?trim_end_id by done; [done|].
  unfold process_update_line. rewrite trim_end_id by done. simpl. done.
Qed.

Definition adding (p : StreamingPatchParser) (env : option str) (hs : list Hunk) (path contents : str) :=
  hunks (state p) = hs ++ [AddFile path contents] /\ environment_id (state p) = env
  /\ mode (state p) = AddFileMode.

Lemma step_add_line p env hs path contents l :
  adding p env hs path contents ->
  exists p', step_line p (lit "+" ++ l) = Ok p' /\ adding p' env hs path (contents ++ l ++ [LF]).
Proof.
  intros (Hh & He & Hm).
  assert (trim (lit "+" ++ l) = 43%N :: trim_end l) as Ht by (by apply trim_end_cons_nonws).
  unfold step_line, process_line. rewrite Ht. cbn -[trim_end handle_headers]. rewrite Hm.
  unfold handle_hunk_headers_and_end_patch. cbn -[trim_end handle_headers]. rewrite Hm, handle_headers_other by done.
  cbn -[trim_end handle_headers]. rewrite Hh, last_snoc. eexists. split; [done|].
  split_and!; simpl; [by rewrite set_last_snoc|done..].
Qed.

Lemma run_add_lines p env hs path contents ls :
  adding p env hs path contents ->
  exists p', run_lines p (List.map (app (lit "+")) ls) = Ok p'
    /\ adding p' env hs path (contents ++ List.concat (List.map (fun l => l ++ [LF]) ls)).
Proof.
  revert p contents. induction ls as [|l ls IH]; intros p contents Ha; cbn [List.map List.concat run_lines].
  - rewrite app_nil_r. eauto.
  - destruct (step_add_line p env hs path contents l Ha) as (p1 & -> & Ha1).
    destruct (IH _ _ Ha1) as (p2 & E2 & Ha2). cbn [result_bind]. exists p2.
    rewrite <- app_assoc in Ha2. auto.
Qed.

Lemma ready_not_update p env hs h :
  hunks (state p) = hs ++ [h] -> environment_id (state p) = env ->
  match h with UpdateFile _ _ _ => False | _ => True end ->
  mode (state p) <> NotStarted -> mode (state p) <> EndedPatch -> ready p env (hs ++ [h]).
Proof.
  intros Hh He Hu H1 H2. split_and!; try done. intros n l.
  unfold ensure_update_hunk_is_not_empty. simpl. rewrite Hh, last_snoc. by destruct h.
Qed.

Lemma ready_updating p env hs path mv cs :
  updating p env hs path mv cs -> cs <> [] -> last_closed cs ->
  ready p env (hs ++ [UpdateFile path mv cs]).
Proof.
  intros (Hh & He & n & Hm) Hne Hc. split_and!; try done; try by rewrite Hm. intros k l.
  unfold ensure_update_hunk_is_not_empty. simpl. rewrite Hh, last_snoc, Hc.
  destruct (is_nil cs) eqn:E; [by bool_to_prop|done].
Qed.

Lemma run_hunk p env hs h :
  ready p env hs -> hunk_spec_ok h = true ->
  exists p', run_lines p (render_hunk h) = Ok p' /\ ready p' env (hs ++ [denote_hunk h]).
Proof.
  intros Hr Hok. destruct h as [path ls|path|path mv cs]; simpl in Hok; bool_to_prop;
    cbn [render_hunk run_lines].
  - destruct (step_add_header p env hs path) as (p1 & -> & Ha); [done..|]. cbn [result_bind].
    destruct (run_add_lines p1 env hs path [] ls Ha) as (p2 & E2 & Hh & He & Hm).
    exists p2. split; [done|]. by apply ready_not_update; try rewrite Hm.
  - destruct (step_delete_header p env hs path) as (p1 & -> & Hh & He & Hm); [done..|].
    exists p1. split; [done|]. by apply ready_not_update; try rewrite Hm.
  - destruct (step_update_header p env hs path) as (p1 & -> & Hu); [done..|]. cbn [result_bind].
    rewrite run_lines_app.
    assert (exists q, run_lines p1 (match mv with Some m => [MOVE_TO_MARKER ++ m] | None => [] end) = Ok q
      /\ updating q env hs path mv []) as (q & Eq & Hq).
    { destruct mv as [m|]; [|eauto].
      destruct (step_move p1 env hs path m) as (q & E & Hq); [done..|]. exists q.
      cbn [run_lines]. by rewrite E. }
    rewrite Eq. cbn [result_bind].
    destruct (run_chunks q env hs path mv [] cs Hq) as (p2 & E2 & Hu2 & Hc2); [done..|].
    exists p2. split; [done|]. apply ready_updating; [done| |done]. by destruct cs.
Qed.

Lemma run_hunks p env hs specs :
  ready p env hs -> forallb hunk_spec_ok specs = true ->
  exists p', run_lines p (List.concat (List.map render_hunk specs)) = Ok p'
    /\ ready p' env (hs ++ List.map denote_hunk specs).
Proof.
  revert p hs. induction specs as [|h specs IH]; intros p hs Hr Hok; cbn [List.map List.concat].
  - rewrite app_nil_r. simpl. eauto.
  - simpl in Hok. bool_to_prop. destruct (run_hunk p env hs h) as (p1 & E & Hr1); [done..|].
    destruct (IH p1 _ Hr1) as (p2 & E2 & Hr2); [done|]. exists p2.
    rewrite run_lines_app, E. rewrite <- app_assoc in Hr2. auto.
Qed.

Lemma run_env p e :
  mode (state p) = StartedPatch -> hunks (state p) = [] -> environment_id (state p) = None ->
  match e with Some (c :: e) => header_ok (c :: e) && negb (is_whitespace c) | Some [] => false | None => true end = true ->
  exists p', run_lines p (render_env e) = Ok p' /\ ready p' e [].
Proof.
  intros Hm Hh He Hok.
  assert (forall q n l, hunks (state q) = [] ->
    ensure_update_hunk_is_not_empty (set_line_number (set_line_buffer q []) n) l = Ok tt) as Hens.
  { intros q n l E. unfold ensure_update_hunk_is_not_empty. simpl. by rewrite E. }
  destruct e as [[|c e]|]; [done| |].
  - bool_to_prop. cbn [render_env run_lines].
    destruct (header_ok_spec _ ltac:(eassumption)) as (_ & _ & Hn).
    unfold step_line, process_line. simpl mode. rewrite Hm. cbv zeta.
    rewrite trim_id by (done || (rewrite app_assoc; by apply no_trailing_ws_app)).
    unfold handle_hunk_headers_and_end_patch. simpl mode. rewrite Hm, strip_prefix_app. simpl environment_id.
    rewrite He. cbn [is_some is_none negb].
    assert (trim (lit " " ++ c :: e) = c :: e) as ->.
    { unfold trim. change (trim_start (lit " " ++ c :: e)) with (trim_start (c :: e)).
      rewrite trim_start_id by done. by apply trim_end_id. }
    cbn. eexists. split; [done|]. split_and!; simpl; try done; try by rewrite Hm. intros. by apply Hens.
  - exists p. split; [done|]. split_and!; try done; try by rewrite Hm. intros. by apply Hens.
Qed.

(** ** The text level *)

Lemma strip_line_ending_lf l : strip_line_ending (l ++ [LF]) = strip_cr l.
Proof.
  unfold strip_line_ending, strip_cr. rewrite strip_suffix_app.
  by destruct (strip_suffix [CR] l).
Qed.

Lemma strip_line_ending_none l : LF ∉ l -> strip_line_ending l = l.
Proof.
  intros H. unfold strip_line_ending. destruct (strip_suffix [LF] l) as [r|] eqn:E; [|done].
  apply strip_suffix_Some in E as ->. set_solver.
Qed.

(** [str::lines] inverts joining clean lines. *)
Lemma lines_join ls x :
  Forall clean_line ls -> LF ∉ x -> x <> [] -> lines (join [LF] (ls ++ [x])) = ls ++ [x].
Proof.
  intros HF Hx Hne. induction HF as [|l ls [Hl Hcr] HF IH].
  - simpl. unfold lines. rewrite split_inclusive_no_char by done. simpl.
    by rewrite strip_line_ending_none.
  - cbn [app]. rewrite join_LF_cons by (by destruct ls). unfold lines in *.
    rewrite split_inclusive_app_sep by done. cbn [List.map].
    by rewrite strip_line_ending_lf, Hcr, IH.
Qed.

Lemma join_snoc_suffix ls x : exists pre, join [LF] (ls ++ [x]) = pre ++ x.
Proof.
  induction ls as [|l ls [pre IH]]; [by exists []|]. exists (l ++ [LF] ++ pre).
  cbn [app]. rewrite join_LF_cons by (by destruct ls). rewrite IH. simpl. by rewrite <- app_assoc.
Qed.

Lemma trim_join f ls x :
  no_leading_ws f -> f <> [] -> x <> [] -> no_trailing_ws x ->
  trim (join [LF] ((f :: ls) ++ [x])) = join [LF] ((f :: ls) ++ [x]).
Proof.
  intros Hf Hfn Hx Hxn. apply trim_id.
  - cbn [app]. rewrite join_LF_cons by (by destruct ls). by destruct f.
  - destruct (join_snoc_suffix (f :: ls) x) as [pre ->]. by apply no_trailing_ws_app.
Qed.

Lemma clean_diff_line d : diff_line_ok d = true -> clean_line (render_diff_line d).
Proof. destruct d as [s|s|s]; intros H; by apply clean_content. Qed.

Lemma clean_chunk c : chunk_spec_ok c = true -> Forall clean_line (render_chunk c).
Proof.
  unfold chunk_spec_ok. intros H. bool_to_prop. apply Forall_app. split.
  - destruct (spec_header c); [|constructor]. apply Forall_singleton. destruct (spec_context c); [|by split; [set_solver|]].
    apply (clean_header CHANGE_CONTEXT_MARKER); [set_solver|done].
  - apply Forall_app. split; [|destruct (spec_eof c); [|constructor]; repeat constructor; set_solver].
    apply Forall_forall. intros l (d & <- & Hd)%list_elem_of_In%in_map_iff.
    apply clean_diff_line. by eapply forallb_forall in Hd.
Qed.

Lemma clean_hunk h : hunk_spec_ok h = true -> Forall clean_line (render_hunk h).
Proof.
  destruct h as [path ls|path|path mv cs]; simpl; intros H; bool_to_prop.
  - constructor; [apply (clean_header ADD_FILE_MARKER); [set_solver|done]|].
    apply Forall_forall. intros l (d & <- & Hd)%list_elem_of_In%in_map_iff.
    apply clean_content; [done..|]. by eapply forallb_forall in Hd.
  - repeat constructor; apply (clean_header DELETE_FILE_MARKER); set_solver.
  - constructor; [apply (clean_header UPDATE_FILE_MARKER); [set_solver|done]|].
    apply Forall_app. split.
    + destruct mv; [|constructor]. apply Forall_singleton.
      apply (clean_header MOVE_TO_MARKER); [set_solver|done].
    + apply Forall_concat, Forall_forall. intros l (d & <- & Hd)%list_elem_of_In%in_map_iff.
      apply clean_chunk. by eapply forallb_forall in Hd.
Qed.

Lemma clean_body p : patch_spec_ok p = true -> Forall clean_line (BEGIN_PATCH_MARKER :: render_body p).
Proof.
  unfold patch_spec_ok, render_body. intros H. bool_to_prop.
  constructor; [split; [set_solver|done]|]. apply Forall_app. split.
  - destruct (spec_environment p) as [[|c e]|]; [done| |constructor]. bool_to_prop.
    apply Forall_singleton. cbn [render_env]. rewrite app_assoc. apply clean_header; [set_solver|done].
  - apply Forall_concat, Forall_forall. intros l (d & <- & Hd)%list_elem_of_In%in_map_iff.
    apply clean_hunk. by eapply forallb_forall in Hd.
Qed.

(** The streaming parser reads the printed text back. *)
Lemma stream_render p :
  patch_spec_ok p = true ->
  exists p1 q, push_delta default_parser (render_patch p) = (p1, Ok (List.map denote_hunk (spec_hunks p)))
    /\ finish p1 = (q, Ok (List.map denote_hunk (spec_hunks p)))
    /\ environment_id (state q) = spec_environment p.
Proof.
  intros Hok. pose proof (clean_body p Hok) as Hclean.
  unfold patch_spec_ok in Hok. bool_to_prop.
  assert (step_line default_parser BEGIN_PATCH_MARKER
          = Ok (mkParser [] (mkState StartedPatch [] None) 1)) as E0 by done.
  destruct (run_env (mkParser [] (mkState StartedPatch [] None) 1) (spec_environment p))
    as (p1 & E1 & Hr1); [done..|].
  destruct (run_hunks p1 (spec_environment p) [] (spec_hunks p) Hr1) as (p2 & E2 & Hr2); [done|].
  assert (run_lines default_parser (BEGIN_PATCH_MARKER :: render_body p) = Ok p2) as Hrun.
  { cbn [run_lines]. rewrite E0. cbn [result_bind]. unfold render_body.
    by rewrite run_lines_app, E1. }
  assert (line_buffer p2 = []) as Hb2.
  { unfold render_body in Hrun. destruct (exists_last (l := BEGIN_PATCH_MARKER :: render_body p)) as (l & x & El); [done|].
    unfold render_body in El. rewrite El, run_lines_app in Hrun. apply result_bind_ok in Hrun as (q & _ & Hq).
    cbn [run_lines] in Hq. apply result_bind_ok in Hq as (q' & Hq & [= ->]). by eapply step_line_buffer. }
  destruct Hr2 as (Hh & He & Hens & _). cbn [app] in Hh.
  set (p3 := set_line_buffer p2 END_PATCH_MARKER).
  assert (push_delta default_parser (render_patch p) = (p3, Ok (hunks (state p2)))) as Hpd.
  { unfold render_patch, render_lines. rewrite app_comm_cons.
    rewrite (push_delta_lines default_parser _ END_PATCH_MARKER p2) by done.
    rewrite <- (app_nil_r END_PATCH_MARKER), push_delta_chars by set_solver. by rewrite Hb2. }
  destruct (finish_end p3) as (q & Hf & Hq); [done|apply Hens|].
  exists p3, q. rewrite Hpd, Hf, Hq. simpl. by rewrite Hh, He.
Qed.

Lemma check_strict_render p : check_patch_boundaries_strict (render_lines p) = Ok (render_lines p).
Proof.
  unfold check_patch_boundaries_strict, render_lines.
  rewrite app_comm_cons, last_snoc. done.
Qed.

Lemma parse_text_of_lines text ls p :
  lines (trim text) = ls -> check_patch_boundaries_lenient ls = Ok (render_lines p) ->
  patch_spec_ok p = true ->
  parse_patch text = Ok (mkArgs (render_patch p) (List.map denote_hunk (spec_hunks p))
                           None (spec_environment p)).
Proof.
  intros Hls Hc Hok. destruct (stream_render p Hok) as (p1 & q & E1 & E2 & E3).
  unfold parse_patch, parse_patch_text. simpl. rewrite Hls, Hc. cbn [result_bind].
  fold (render_patch p). rewrite E1. cbn [result_bind]. rewrite E2. cbn [result_bind]. by rewrite E3.
Qed.

Lemma lines_render p :
  patch_spec_ok p = true -> lines (trim (render_patch p)) = render_lines p.
Proof.
  intros Hok. pose proof (clean_body p Hok).
  unfold render_patch, render_lines. rewrite app_comm_cons, trim_join by (done || by intros c [= <-]).
  by rewrite lines_join by (done || set_solver).
Qed.

Lemma lines_heredoc p :
  patch_spec_ok p = true ->
  lines (trim (render_heredoc p)) = lit "<<'EOF'" :: render_lines p ++ [lit "EOF"].
Proof.
  intros Hok. pose proof (clean_body p Hok) as Hcl.
  unfold render_heredoc. rewrite app_comm_cons, trim_join by (done || by intros c [= <-]).
  rewrite lines_join; [done|constructor; [split; [set_solver|done]|]|set_solver|done].
  unfold render_lines. rewrite app_comm_cons. apply Forall_app. split; [done|].
  apply Forall_singleton. split; [set_solver|done].
Qed.

Lemma check_lenient_heredoc p :
  check_patch_boundaries_lenient (lit "<<'EOF'" :: render_lines p ++ [lit "EOF"]) = Ok (render_lines p).
Proof.
  unfold check_patch_boundaries_lenient. set (ls := _ :: render_lines p ++ _).
  assert (last ls = Some (lit "EOF")) as Hl by (unfold ls; by rewrite app_comm_cons, last_snoc).
  assert (4 <= length ls) as Hn
    by (unfold ls, render_lines; cbn [length app]; rewrite !length_app; simpl; lia).
  assert (take (length ls - 2) (drop 1 ls) = render_lines p) as Ht.
  { replace (drop 1 ls) with (render_lines p ++ [lit "EOF"]) by done.
    rewrite take_app_length'; [done|]. unfold ls. cbn [length]. rewrite length_app. simpl. lia. }
  assert (check_patch_boundaries_strict ls = Err (InvalidPatchError msg_first_line)) as ->.
  { unfold check_patch_boundaries_strict. by rewrite Hl. }
  rewrite Ht. apply Nat.leb_le in Hn. rewrite Hn. unfold ls, render_lines in Hl.
  unfold render_lines at 1. cbn [app] in *. rewrite Hl. apply check_strict_render.
Qed.

(** C4. Round trip: parsing the printed form of any patch that [patch_spec_ok]
    accepts returns exactly its hunks and its environment id.  These are the
    patches of the documented grammar, with or without a header before the first
    chunk of an update, in which every update has a chunk and every chunk a line
    (the grammar lets both be left out and the parser refuses that, see
    [empty_changes_refused]), no file name, context or environment id ends in
    white space (the parser drops it) and no line in a carriage return. *)
Theorem parse_patch_render (p : PatchSpec) :
  patch_spec_ok p = true ->
  parse_patch (render_patch p)
  = Ok (mkArgs (render_patch p) (List.map denote_hunk (spec_hunks p)) None (spec_environment p)).
Proof.
  intros Hok. eapply parse_text_of_lines; [by apply lines_render| |done].
  unfold check_patch_boundaries_lenient. by rewrite check_strict_render.
Qed.

(** The lenient mode strips a quoted heredoc around the patch: the parse is
    that of the text inside, and the recorded patch text excludes the wrapper. *)
Theorem parse_patch_heredoc (p : PatchSpec) :
  patch_spec_ok p = true ->
  parse_patch (render_heredoc p)
  = Ok (mkArgs (render_patch p) (List.map denote_hunk (spec_hunks p)) None (spec_environment p)).
Proof.
  intros Hok. eapply parse_text_of_lines; [by apply lines_heredoc| |done].
  apply check_lenient_heredoc.
Qed.

(** ** Witnesses *)

Definition demo_spec : PatchSpec :=
  mkPatchSpec None
    [SpecAdd (lit "new.txt") [lit "hello"; []];
     SpecDelete (lit "old.txt");
     SpecUpdate (lit "a.txt") (Some (lit "b.txt"))
       [mkChunkSpec false None [Context (lit "one"); Remove (lit "two"); Insert (lit "2")] false;
        mkChunkSpec true (Some (lit "fn main()")) [Remove (lit "x"); Context []] true]].

Lemma parse_patch_render_witness :
  patch_spec_ok demo_spec = true
  /\ parse_patch (render_patch demo_spec)
     = Ok (mkArgs (render_patch demo_spec) (List.map denote_hunk (spec_hunks demo_spec)) None None).
Proof.
  assert (patch_spec_ok demo_spec = true) as H by (vm_compute; reflexivity).
  split; [exact H|]. exact (parse_patch_render demo_spec H).
Defined.

Lemma parse_patch_heredoc_witness :
  parse_patch (render_heredoc demo_spec)
  = Ok (mkArgs (render_patch demo_spec) (List.map denote_hunk (spec_hunks demo_spec)) None None).
Proof. apply (parse_patch_heredoc demo_spec). vm_compute. reflexivity. Defined.

(** The grammar makes the changes of an update optional and lets context lines
    follow one another; the parser accepts neither. *)
Definition patch_of (body : list string) : str :=
  join [LF] (List.map lit (["*** Begin Patch"] ++ body ++ ["*** End Patch"])%list).

Example empty_changes_refused :
  List.map (fun body => match parse_patch (patch_of body) with Ok _ => true | Err _ => false end)
    [["*** Update File: a"]; ["*** Update File: a"; "*** Move to: b"]; ["*** Update File: a"; "@@ x"; "@@ y"; "+z"];
     ["*** Update File: a"; "@@ x"; "+z"]]%string
  = [false; false; false; true].
Proof. vm_compute. reflexivity. Qed.
