(* ===== verification/SeekSequence.v ===== *)
(** * Locating a block of lines in a file

    Models [codex-rs/apply-patch/src/seek_sequence.rs] and the update mode of
    [lib.rs].  An index or a slice out of range is the outcome [None], a panic; the
    search never panics, and it is one total search [seek] under four line
    normalisers (exact, [trim_end], [trim], normalised punctuation). *)

From stdpp Require Import base list numbers option strings gmap.
From Stdlib Require Import Lia.
From S2P Require Import Prelude RustStr.

Inductive ApplyPatchFileUpdateMode := NormalizeToLf | PreserveLineEndings.

#[export] Instance ApplyPatchFileUpdateMode_eq_dec : EqDecision ApplyPatchFileUpdateMode.
Proof. solve_decision. Defined.

Definition is_dash (c : char) : bool :=
  ((8208 <=? c) && (c <=? 8213))%N || (c =? 8722)%N.
Definition is_single_quote (c : char) : bool := ((8216 <=? c) && (c <=? 8219))%N.
Definition is_double_quote (c : char) : bool := ((8220 <=? c) && (c <=? 8223))%N.
Definition is_odd_space (c : char) : bool :=
  (c =? 160)%N || ((8194 <=? c) && (c <=? 8202))%N || (c =? 8239)%N || (c =? 8287)%N || (c =? 12288)%N.

Definition normalise_char (c : char) : char :=
  if is_dash c then 45%N
  else if is_single_quote c then 39%N
  else if is_double_quote c then 34%N
  else if is_odd_space c then 32%N
  else c.

Definition normalise (s : str) : str := List.map normalise_char (trim s).

(** [for i in lo .. lo + count { if test(i) { return Some(i) } }], where a test may
    panic ([None]). *)
Fixpoint find_from (test : nat -> option bool) (lo count : nat) : option (option nat) :=
  match count with
  | O => Some None
  | S n =>
      match test lo with
      | None => None
      | Some true => Some (Some lo)
      | Some false => find_from test (S lo) n
      end
  end.

(** [for i in lo..=hi]. *)
Definition find_range (test : nat -> option bool) (lo hi : nat) : option (option nat) :=
  find_from test lo (S hi - lo).

(** [lines[i..i + pattern.len()] == *pattern]: a slice past the end panics. *)
Definition slice_equals (ls pattern : list str) (i : nat) : option bool :=
  if Nat.leb (i + length pattern) (length ls)
  then Some (bool_decide (take (length pattern) (drop i ls) = pattern)) else None.

(** The inner loop over [pattern.iter().enumerate()]: [lines[i + p_idx]] past the
    end panics, if the lines before it are equal. *)
Fixpoint lines_equal (norm : str -> str) (ls pattern : list str) (i : nat) : option bool :=
  match pattern with
  | [] => Some true
  | pat :: ps =>
      match ls !! i with
      | None => None
      | Some l => if str_eqb (norm l) (norm pat) then lines_equal norm ls ps (S i) else Some false
      end
  end.

Definition search_start (ls pattern : list str) (start : nat) (eof : bool)
    (m : ApplyPatchFileUpdateMode) : nat :=
  if eof && Nat.leb (length pattern) (length ls) then
    let eof_start := length ls - length pattern in
    match m with
    | NormalizeToLf => eof_start
    | PreserveLineEndings => Nat.max eof_start start
    end
  else start.

(** The tests in the order they are tried: equal, equal without trailing
    whitespace, without surrounding whitespace, with normalised punctuation. *)
Definition tests : list (list str -> list str -> nat -> option bool) :=
  [slice_equals; lines_equal trim_end; lines_equal trim; lines_equal normalise].

Fixpoint first_test (ts : list (list str -> list str -> nat -> option bool)) (ls pattern : list str) (lo hi : nat)
    : option (option nat) :=
  match ts with
  | [] => Some None
  | t :: ts' =>
      match find_range (t ls pattern) lo hi with
      | None => None
      | Some (Some i) => Some (Some i)
      | Some None => first_test ts' ls pattern lo hi
      end
  end.

(** [None]: an index or a slice is out of range. *)
Definition seek_sequence (ls pattern : list str) (start : nat) (eof : bool)
    (m : ApplyPatchFileUpdateMode) : option (option nat) :=
  if is_nil pattern then Some (Some start)
  else if Nat.ltb (length ls) (length pattern) then Some None
  else first_test tests ls pattern (search_start ls pattern start eof m) (length ls - length pattern).

(** ** The search as a specification *)

(** One search under four line normalisers, total. *)
Fixpoint block_matches (norm : str -> str) (pattern rest : list str) : bool :=
  match pattern, rest with
  | [], _ => true
  | pat :: ps, l :: ls => str_eqb (norm l) (norm pat) && block_matches norm ps ls
  | _ :: _, [] => false
  end.

Definition matches_at (norm : str -> str) (ls pattern : list str) (i : nat) : bool :=
  block_matches norm pattern (drop i ls).

Fixpoint first_from (test : nat -> bool) (lo count : nat) : option nat :=
  match count with
  | O => None
  | S n => if test lo then Some lo else first_from test (S lo) n
  end.
Definition first_in (test : nat -> bool) (lo hi : nat) : option nat := first_from test lo (S hi - lo).

(** The passes in the order they are tried. *)
Definition passes : list (str -> str) := [id; trim_end; trim; normalise].

Fixpoint first_pass (ps : list (str -> str)) (search : (str -> str) -> option nat) : option nat :=
  match ps with
  | [] => None
  | norm :: ps' => match search norm with Some i => Some i | None => first_pass ps' search end
  end.

Definition seek (ls pattern : list str) (start : nat) (eof : bool) (m : ApplyPatchFileUpdateMode) : option nat :=
  if is_nil pattern then Some start
  else if Nat.ltb (length ls) (length pattern) then None
  else
    first_pass passes (fun norm =>
      first_in (matches_at norm ls pattern)
        (search_start ls pattern start eof m) (length ls - length pattern)).

(** ** Search lemmas *)

Lemma first_from_Some test lo n i :
  first_from test lo n = Some i <->
  lo <= i < lo + n /\ test i = true /\ (forall j, lo <= j < i -> test j = false).
Proof.
  revert lo; induction n as [|n IH]; intros lo; simpl.
  - split; [done|lia].
  - destruct (test lo) eqn:E.
    + split; [intros [= <-]; split_and!; [lia|lia|done|lia]|].
      intros (H1 & H2 & H3). destruct (decide (i = lo)) as [->|]; [done|].
      rewrite H3 in E by lia. done.
    + rewrite IH. split; intros (H1 & H2 & H3); split_and!; try lia; try done.
      * intros j Hj. destruct (decide (j = lo)) as [->|]; [done|]. apply H3. lia.
      * destruct (decide (i = lo)) as [->|]; [by rewrite E in H2|lia].
      * intros j Hj. apply H3. lia.
Qed.

Lemma first_from_None test lo n :
  first_from test lo n = None <-> forall j, lo <= j < lo + n -> test j = false.
Proof.
  revert lo; induction n as [|n IH]; intros lo; simpl; [split; [lia|done]|].
  destruct (test lo) eqn:E.
  - split; [done|]. intros H. by rewrite H in E by lia.
  - rewrite IH. split; intros H j Hj; [|apply H; lia].
    destruct (decide (j = lo)) as [->|]; [done|]. apply H. lia.
Qed.

Lemma first_in_Some test lo hi i :
  first_in test lo hi = Some i <->
  lo <= i <= hi /\ test i = true /\ (forall j, lo <= j < i -> test j = false).
Proof. unfold first_in. rewrite first_from_Some. split; intros (? & ? & ?); split_and!; done || lia. Qed.

Lemma first_in_None test lo hi :
  first_in test lo hi = None <-> forall j, lo <= j <= hi -> test j = false.
Proof. unfold first_in. rewrite first_from_None. split; intros H j Hj; apply H; lia. Qed.

Lemma block_matches_spec norm pattern rest :
  block_matches norm pattern rest = true <->
  exists post, exists blk, rest = blk ++ post /\ List.map norm blk = List.map norm pattern.
Proof.
  revert rest; induction pattern as [|p ps IH]; intros [|l ls]; simpl.
  - split; [|done]. by exists [], [].
  - split; [|done]. by exists (l :: ls), [].
  - split; [done|]. intros (post & [|b blk] & H1 & H2); [done|]. by destruct post.
  - rewrite andb_true_iff, str_eqb_spec, IH. split.
    + intros (E & post & blk & -> & Hm). exists post, (l :: blk). simpl. by rewrite E, Hm.
    + intros (post & [|b blk] & H1 & H2); [done|]. simplify_eq/=. eauto.
Qed.

(** A match at [i] is a decomposition of the file around a block equal to the
    pattern up to the pass's normaliser. *)
Lemma matches_at_spec norm ls pattern i :
  matches_at norm ls pattern i = true -> pattern <> [] ->
  exists pre blk post, ls = pre ++ blk ++ post /\ length pre = i
    /\ List.map norm blk = List.map norm pattern.
Proof.
  intros (post & blk & Hd & Hm)%block_matches_spec Hne.
  exists (take i ls), blk, post. split_and!; [|apply length_take_le|done].
  - rewrite <- Hd. by rewrite take_drop.
  - destruct (decide (i <= length ls)); [done|]. rewrite drop_ge in Hd by lia.
    by destruct blk, pattern.
Qed.

(** ** The passes are increasingly permissive *)

Lemma drop_while_app_all {A} (p : A -> bool) a b :
  Forall (fun x => p x = true) a -> drop_while p (a ++ b) = drop_while p b.
Proof. induction 1 as [|x a Hx Ha IH]; simpl; [done|]. by rewrite Hx. Qed.

Lemma drop_while_app_some {A} (p : A -> bool) a b :
  drop_while p a <> [] -> drop_while p (a ++ b) = drop_while p a ++ b.
Proof.
  induction a as [|x a IH]; simpl; [done|]. by destruct (p x).
Qed.

Lemma trim_end_app_all s t : Forall (fun c => is_whitespace c = true) t -> trim_end (s ++ t) = trim_end s.
Proof.
  intros H. unfold trim_end, drop_while_end.
  rewrite rev_app_distr, drop_while_app_all; [done|]. by apply Forall_rev.
Qed.

Lemma trim_end_all t : Forall (fun c => is_whitespace c = true) t -> trim_end t = [].
Proof. intros H. by rewrite <- (app_nil_l t), trim_end_app_all. Qed.

Lemma drop_while_nil {A} (p : A -> bool) l : drop_while p l = [] -> Forall (fun x => p x = true) l.
Proof. destruct (drop_while_suffix p l) as (pre & E & H). intros Hn. rewrite E, Hn, app_nil_r. done. Qed.

(** Trimming the end first gives the same result as trimming the start first. *)
Lemma trim_of_trim_end s : trim s = trim_start (trim_end s).
Proof.
  unfold trim. destruct (drop_while_end_prefix is_whitespace s) as (suf & E & Hs).
  fold (trim_end s) in E. unfold trim_start at 1. rewrite E at 1.
  destruct (decide (drop_while is_whitespace (trim_end s) = [])) as [Hn|Hn].
  - pose proof (drop_while_nil _ _ Hn) as Ha. rewrite drop_while_app_all by done.
    unfold trim_start. rewrite Hn. apply trim_end_all.
    destruct (drop_while_suffix is_whitespace suf) as (pre & E' & _). rewrite E' in Hs.
    by apply Forall_app in Hs as [_ ?].
  - rewrite drop_while_app_some by done. rewrite trim_end_app_all by done.
    apply trim_end_id. intros c Hc. apply (trim_end_no_trailing s).
    destruct (drop_while_suffix is_whitespace (trim_end s)) as (pre & E' & _).
    fold (trim_start (trim_end s)) in E'. rewrite E' at 1. by rewrite last_app, Hc.
Qed.

(** [coarser f g]: lines equal under [f] are equal under [g]. *)
Definition coarser (f g : str -> str) : Prop := forall a b, f a = f b -> g a = g b.

Lemma coarser_passes : Forall (fun norm => coarser norm normalise) passes.
Proof.
  repeat constructor; intros a b H; unfold normalise, id in *.
  - by subst.
  - by rewrite !trim_of_trim_end, H.
  - by rewrite H.
  - done.
Qed.

Lemma block_matches_coarser f g pattern rest :
  coarser f g -> block_matches f pattern rest = true -> block_matches g pattern rest = true.
Proof.
  intros Hc. revert rest; induction pattern as [|p ps IH]; intros [|l ls]; simpl; try done.
  rewrite !andb_true_iff, !str_eqb_spec. intros [H1 H2]. auto.
Qed.

Lemma first_pass_Some ps search i :
  first_pass ps search = Some i <->
  exists done_ps norm rest, ps = done_ps ++ norm :: rest
    /\ search norm = Some i /\ Forall (fun f => search f = None) done_ps.
Proof.
  induction ps as [|f ps IH]; simpl.
  - split; [done|]. intros ([] & ? & ? & ? & _); done.
  - destruct (search f) as [k|] eqn:E.
    + split.
      * intros [= ->]. exists [], f, ps. auto.
      * intros (dp & norm & rest & Hp & Hs & Hd). destruct dp as [|g dp]; simplify_eq/=; try congruence.
        apply Forall_cons in Hd as [? _]. congruence.
    + rewrite IH. split.
      * intros (dp & norm & rest & -> & Hs & Hd). exists (f :: dp), norm, rest. auto.
      * intros (dp & norm & rest & Hp & Hs & Hd). destruct dp as [|g dp]; simplify_eq/=; try congruence.
        apply Forall_cons in Hd as [_ ?]. eauto 10.
Qed.

Lemma first_pass_None ps search :
  first_pass ps search = None <-> Forall (fun f => search f = None) ps.
Proof.
  induction ps as [|f ps IH]; simpl; [done|]. rewrite Forall_cons, <- IH.
  destruct (search f); naive_solver.
Qed.

(** ** The search does not panic *)

Lemma find_from_total (test : nat -> option bool) (spec : nat -> bool) lo n :
  (forall i, lo <= i < lo + n -> test i = Some (spec i)) -> find_from test lo n = Some (first_from spec lo n).
Proof.
  revert lo. induction n as [|n IH]; intros lo H; simpl; [done|].
  rewrite H by lia. destruct (spec lo); [done|]. apply IH. intros i Hi. apply H. lia.
Qed.

Lemma block_matches_take pattern rest : bool_decide (take (length pattern) rest = pattern) = block_matches id pattern rest.
Proof.
  revert rest. induction pattern as [|p ps IH]; intros [|l ls]; simpl; [done..|]. rewrite <- IH. unfold id.
  destruct (str_eqb l p) eqn:E.
  - apply str_eqb_spec in E as ->. apply bool_decide_ext. split; [by intros [= ?]|by intros ->].
  - apply str_eqb_false in E. rewrite bool_decide_false; [done|]. by intros [= -> _].
Qed.

Lemma slice_equals_spec ls pattern i :
  i + length pattern <= length ls -> slice_equals ls pattern i = Some (matches_at id ls pattern i).
Proof. intros Hi. unfold slice_equals, matches_at. by rewrite (proj2 (Nat.leb_le _ _)), block_matches_take. Qed.

Lemma lines_equal_spec norm ls pattern i :
  i + length pattern <= length ls -> lines_equal norm ls pattern i = Some (matches_at norm ls pattern i).
Proof.
  unfold matches_at. revert i. induction pattern as [|p ps IH]; intros i Hi; simpl in *; [done|].
  destruct (lookup_lt_is_Some_2 ls i ltac:(lia)) as [l Hl]. rewrite Hl, (drop_S _ _ _ Hl).
  destruct (str_eqb (norm l) (norm p)); [|done]. apply IH. lia.
Qed.

Lemma first_test_total ls pattern lo : length pattern <= length ls ->
  first_test tests ls pattern lo (length ls - length pattern)
  = Some (first_pass passes (fun norm => first_in (matches_at norm ls pattern) lo (length ls - length pattern))).
Proof.
  intros Hl. assert (forall norm test, (forall i, i + length pattern <= length ls -> test ls pattern i = Some (matches_at norm ls pattern i)) ->
    find_range (test ls pattern) lo (length ls - length pattern)
    = Some (first_in (matches_at norm ls pattern) lo (length ls - length pattern))) as H.
  { intros norm test Ht. apply find_from_total. intros i Hi. apply Ht. lia. }
  unfold tests, passes. cbn [first_test first_pass].
  rewrite (H id) by apply slice_equals_spec. destruct (first_in _ _ _); [done|].
  rewrite (H trim_end) by apply lines_equal_spec. destruct (first_in _ _ _); [done|].
  rewrite (H trim) by apply lines_equal_spec. destruct (first_in _ _ _); [done|].
  rewrite (H normalise) by apply lines_equal_spec. by destruct (first_in _ _ _).
Qed.

(** Thanks to the length guard no index or slice is out of range. *)
Lemma seek_sequence_total ls pattern start eof m : seek_sequence ls pattern start eof m = Some (seek ls pattern start eof m).
Proof.
  unfold seek_sequence, seek. destruct (is_nil pattern); [done|].
  destruct (Nat.ltb_spec (length ls) (length pattern)); [done|]. by apply first_test_total.
Qed.

(** ** Theorems *)

(** A hit, characterised. *)
Lemma seek_hit_iff (ls pattern : list str) (start : nat) (eof : bool) (m : ApplyPatchFileUpdateMode) (i : nat) :
  pattern <> [] ->
  seek ls pattern start eof m = Some i <->
  length pattern <= length ls /\
  exists stricter norm rest, passes = stricter ++ norm :: rest
    /\ search_start ls pattern start eof m <= i <= length ls - length pattern
    /\ matches_at norm ls pattern i = true
    /\ (forall j, search_start ls pattern start eof m <= j < i -> matches_at norm ls pattern j = false)
    /\ (forall f j, f ∈ stricter -> search_start ls pattern start eof m <= j <= length ls - length pattern ->
          matches_at f ls pattern j = false).
Proof.
  intros Hne. unfold seek. destruct (is_nil pattern) eqn:En; [by bool_to_prop|].
  destruct (Nat.ltb_spec (length ls) (length pattern)) as [Hlt|Hge].
  - split; [done|]. intros [? _]. lia.
  - rewrite first_pass_Some. split.
    + intros (sp & norm & rest & Hp & (Hr & Ht & Hf)%first_in_Some & Hd). split; [done|].
      exists sp, norm, rest. split_and!; try done; try lia.
      intros f j Hin Hj. rewrite Forall_forall in Hd. specialize (Hd f Hin).
      by eapply first_in_None in Hd.
    + intros (_ & sp & norm & rest & Hp & Hr & Ht & Hf & Hd). exists sp, norm, rest.
      split_and!; [done| |].
      * apply first_in_Some. auto.
      * apply Forall_forall. intros f Hin. apply first_in_None. intros j Hj. by apply Hd.
Qed.

(** What a hit means: the strictest pass with any match in the searched
    window decides, and within it the first position; the hit is a block of the
    file that equals the pattern under that pass. *)
Theorem seek_sequence_hit (ls pattern : list str) (start : nat) (eof : bool) (m : ApplyPatchFileUpdateMode) (i : nat) :
  pattern <> [] ->
  seek_sequence ls pattern start eof m = Some (Some i) <->
  length pattern <= length ls /\
  exists stricter norm rest, passes = stricter ++ norm :: rest
    /\ search_start ls pattern start eof m <= i <= length ls - length pattern
    /\ matches_at norm ls pattern i = true
    /\ (forall j, search_start ls pattern start eof m <= j < i -> matches_at norm ls pattern j = false)
    /\ (forall f j, f ∈ stricter -> search_start ls pattern start eof m <= j <= length ls - length pattern ->
          matches_at f ls pattern j = false).
Proof. rewrite seek_sequence_total. intros Hne. rewrite <- (seek_hit_iff _ _ _ _ _ _ Hne). split; [by intros [= ->]|by intros ->]. Qed.

(** A miss is complete: no window position holds the pattern, even after
    trimming and punctuation normalisation. *)
Theorem seek_sequence_miss (ls pattern : list str) (start : nat) (eof : bool) (m : ApplyPatchFileUpdateMode) :
  pattern <> [] ->
  seek_sequence ls pattern start eof m = Some None <->
  length ls < length pattern \/
  forall j, search_start ls pattern start eof m <= j <= length ls - length pattern ->
    matches_at normalise ls pattern j = false.
Proof.
  intros Hne. rewrite seek_sequence_total. unfold seek. destruct (is_nil pattern) eqn:En; [by bool_to_prop|].
  destruct (Nat.ltb_spec (length ls) (length pattern)) as [Hlt|Hge]; [naive_solver|].
  rewrite (inj_iff Some), first_pass_None. split.
  - intros HF. right. intros j Hj. rewrite Forall_forall in HF.
    assert (normalise ∈ passes) as Hin by (unfold passes; set_solver).
    specialize (HF normalise Hin). by eapply first_in_None in HF.
  - intros [?|H]; [lia|]. pose proof coarser_passes as Hc. rewrite Forall_forall in Hc |- *.
    intros f Hin. apply first_in_None. intros j Hj. destruct (matches_at f ls pattern j) eqn:E; [|done].
    specialize (Hc f Hin). eapply block_matches_coarser in E; [|exact Hc].
    unfold matches_at in H. by rewrite H in E.
Qed.

(** With [eof] the only position ever tried is the one that ends at the last
    line: there is no fall back to a search from [start]. *)
Theorem seek_sequence_eof_only (ls pattern : list str) (start : nat) (m : ApplyPatchFileUpdateMode) (i : nat) :
  pattern <> [] ->
  seek_sequence ls pattern start true m = Some (Some i) ->
  i = length ls - length pattern.
Proof.
  rewrite seek_sequence_total. intros Hne [= H%seek_hit_iff]; [|done]. destruct H as (Hl & sp & norm & rest & _ & Hr & _).
  unfold search_start in Hr. apply Nat.leb_le in Hl. rewrite Hl in Hr. simpl in Hr. destruct m; lia.
Qed.

(** ** Witnesses *)

Lemma seek_sequence_hit_witness :
  exists stricter norm rest, passes = stricter ++ norm :: rest
    /\ matches_at norm [lit "a"; lit "  b"; lit "c"] [lit "b"] 1 = true.
Proof.
  assert ([lit "b"] <> ([] : list str)) as Hne by discriminate.
  destruct (proj1 (seek_sequence_hit [lit "a"; lit "  b"; lit "c"] [lit "b"] 0 false NormalizeToLf 1 Hne)
              ltac:(vm_compute; reflexivity)) as (_ & stricter & norm & rest & E & _ & Hm & _).
  exists stricter, norm, rest. split; [exact E|exact Hm].
Defined.
