(* ===== verification/Splice.v ===== *)
(** * Replacing regions of a list

    The reference meaning of a list of [(start, old_len, new_items)]
    replacements, the type [Replacement] of [text_file.rs]: a left-to-right
    splice.  Both [apply_replacements] routines of the crate are proved equal to
    it in [TextFile.v] and [FileUpdate.v]. *)

From stdpp Require Import base list numbers option gmap.
From Stdlib Require Import Lia.
From S2P Require Import Prelude RustStr.

(** [type Replacement = (usize, usize, Vec<String>)]. *)
Definition Replacement : Type := nat * nat * list str.

Section Splice.
  Context {A : Type}.
  Implicit Types (rs : list (nat * nat * list A)) (l : list A).

(** Items of [l] are at positions [pos], [pos+1], ... of the whole list. *)
Fixpoint splice (pos : nat) (rs : list (nat * nat * list A)) (l : list A) : list A :=
  match rs with
  | [] => l
  | (start, old_len, seg) :: rs' =>
      take (start - pos) l ++ seg ++ splice (start + old_len) rs' (drop (start - pos + old_len) l)
  end.

(** Sorted, non-overlapping and within [[pos, e]]. *)
Fixpoint disjoint_within (pos : nat) (rs : list (nat * nat * list A)) (e : nat) : Prop :=
  match rs with
  | [] => pos <= e
  | (start, old_len, _) :: rs' => pos <= start /\ disjoint_within (start + old_len) rs' e
  end.

Lemma disjoint_within_le pos rs e : disjoint_within pos rs e -> pos <= e.
Proof.
  revert pos; induction rs as [|[[s n] seg] rs IH]; simpl; intros pos; [done|].
  intros [H1 H2%IH]. lia.
Qed.

Lemma disjoint_within_weaken pos rs e e' : e <= e' -> disjoint_within pos rs e -> disjoint_within pos rs e'.
Proof.
  intros He. revert pos; induction rs as [|[[s n] seg] rs IH]; simpl; intros pos; [lia|].
  intros [H1 H2]. auto.
Qed.

Lemma disjoint_within_start pos pos' rs e :
  pos' <= pos -> disjoint_within pos rs e -> disjoint_within pos' rs e.
Proof. destruct rs as [|[[s n] seg] rs]; simpl; [lia|]. intros H [H1 H2]. split; [lia|done]. Qed.

Lemma disjoint_within_app pos rs1 mid rs2 e :
  disjoint_within pos rs1 mid -> disjoint_within mid rs2 e -> disjoint_within pos (rs1 ++ rs2) e.
Proof.
  revert pos; induction rs1 as [|[[s n] seg] rs1 IH]; simpl; intros pos H1 H2.
  - by eapply disjoint_within_start.
  - destruct H1 as [? ?]. auto.
Qed.

Lemma disjoint_within_sub (P : nat * nat * list A -> Prop) `{!forall x, Decision (P x)} pos rs e :
  disjoint_within pos rs e -> disjoint_within pos (filter P rs) e.
Proof.
  revert pos; induction rs as [|[[s n] seg] rs IH]; intros pos; [done|].
  intros [H1 H2]. rewrite filter_cons. case_decide; simpl; [auto|].
  eapply disjoint_within_start; [|by apply IH]. lia.
Qed.

Lemma disjoint_within_bounds pos rs e :
  disjoint_within pos rs e -> Forall (fun r => pos <= r.1.1 /\ r.1.1 + r.1.2 <= e) rs.
Proof.
  revert pos; induction rs as [|[[s n] seg] rs IH]; intros pos; [constructor|].
  intros [H1 H2]. constructor; simpl.
  - split; [done|]. by apply disjoint_within_le in H2.
  - eapply Forall_impl; [by apply IH|]. simpl. lia.
Qed.

(** The length of a splice is the old length plus what each region gains. *)
Lemma splice_length pos rs l :
  disjoint_within pos rs (pos + length l) ->
  length (splice pos rs l) + sum_list (map (fun r => r.1.2) rs)
  = length l + sum_list (map (fun r => length r.2) rs).
Proof.
  revert pos l; induction rs as [|[[s n] seg] rs IH]; intros pos l; simpl; [lia|].
  intros [H1 H2]. pose proof (disjoint_within_le _ _ _ H2) as Hle.
  rewrite !length_app, length_take.
  specialize (IH (s + n) (drop (s - pos + n) l)). rewrite length_drop in IH.
  replace (s + n + (length l - (s - pos + n))) with (pos + length l) in IH by lia.
  specialize (IH H2). lia.
Qed.

(** Items before the first region and after the last are kept. *)
Lemma splice_prefix pos rs pre l e :
  disjoint_within (pos + length pre) rs e ->
  splice pos rs (pre ++ l) = pre ++ splice (pos + length pre) rs l.
Proof.
  destruct rs as [|[[s n] seg] rs]; simpl; [done|]. intros [H1 _].
  rewrite take_app_ge, drop_app_ge by lia. rewrite <- app_assoc.
  do 2 f_equal; [f_equal; lia|]. do 2 f_equal. f_equal; lia.
Qed.

Lemma splice_suffix pos rs l post :
  disjoint_within pos rs (pos + length l) -> splice pos rs (l ++ post) = splice pos rs l ++ post.
Proof.
  revert pos l; induction rs as [|[[s n] seg] rs IH]; intros pos l; simpl; [done|].
  intros [H1 H2]. pose proof (disjoint_within_le _ _ _ H2) as Hle.
  rewrite take_app_le, drop_app_le by lia. rewrite IH; [by rewrite <- !app_assoc|].
  eapply disjoint_within_weaken; [|exact H2]. rewrite length_drop. lia.
Qed.

(** Edits of two adjacent blocks. *)
Lemma splice_blocks pos rs1 rs2 a b e :
  disjoint_within pos rs1 (pos + length a) -> disjoint_within (pos + length a) rs2 e ->
  splice pos (rs1 ++ rs2) (a ++ b) = splice pos rs1 a ++ splice (pos + length a) rs2 b.
Proof.
  revert pos a; induction rs1 as [|[[s n] seg] rs1 IH]; intros pos a; simpl.
  - intros _ H2. by eapply splice_prefix.
  - intros [H1 H2] H3. pose proof (disjoint_within_le _ _ _ H2).
    rewrite take_app_le, drop_app_le by lia.
    assert (s + n + length (drop (s - pos + n) a) = pos + length a) as El by (rewrite length_drop; lia).
    rewrite IH by (by rewrite El). rewrite El. by rewrite <- !app_assoc.
Qed.
End Splice.

(** Splicing commutes with mapping the items. *)
Lemma splice_map {A B} (f : A -> B) pos (rs : list (nat * nat * list A)) l :
  List.map f (splice pos rs l)
  = splice pos (List.map (fun r => (r.1.1, r.1.2, List.map f r.2)) rs) (List.map f l).
Proof.
  revert pos l; induction rs as [|[[s n] seg] rs IH]; intros pos l; simpl; [done|].
  by rewrite !List.map_app, IH, firstn_map, skipn_map.
Qed.

Lemma disjoint_within_map {A B} (f : list A -> list B) pos rs e :
  disjoint_within pos (List.map (fun r => (r.1.1, r.1.2, f r.2)) rs) e <-> disjoint_within pos rs e.
Proof.
  revert pos; induction rs as [|[[s n] seg] rs IH]; intros pos; simpl; [done|]. by rewrite IH.
Qed.
