(* ===== verification/TextFile.v ===== *)
(** * Files split into lines that keep their endings

    Models [codex-rs/apply-patch/src/text_file.rs].  The byte cursor of [parse]
    only ever stops at the ASCII bytes CR and LF, which are single characters of
    the string, so the scan is written on the list of characters.  A [usize]
    subtraction that would underflow (the [debug_assert!] of
    [apply_replacements]) is [None]. *)

From stdpp Require Import base list numbers option strings gmap.
From Stdlib Require Import Lia.
From S2P Require Import Prelude RustStr Splice.

Inductive LineEnding := Lf | CrLf | Cr.

#[export] Instance LineEnding_eq_dec : EqDecision LineEnding.
Proof. solve_decision. Defined.

Definition ending_str (e : LineEnding) : str :=
  match e with Lf => [LF] | CrLf => [CR; LF] | Cr => [CR] end.

Record SourceLine := mkLine { text : str; ending : option LineEnding }.

Record SourceFile := mkSource { src_lines : list SourceLine; preferred_ending : LineEnding }.

(** The [while cursor < contents.len()] loop: [acc] is [contents[line_start..cursor]]. *)
Fixpoint parse_loop (acc s : str) : list SourceLine :=
  match s with
  | [] => if is_nil acc then [] else [mkLine acc None]
  | c :: s' =>
      if N.eqb c CR then
        match s' with
        | d :: s'' =>
            if N.eqb d LF then mkLine acc (Some CrLf) :: parse_loop [] s''
            else mkLine acc (Some Cr) :: parse_loop [] s'
        | [] => mkLine acc (Some Cr) :: parse_loop [] s'
        end
      else if N.eqb c LF then mkLine acc (Some Lf) :: parse_loop [] s'
      else parse_loop (acc ++ [c]) s'
  end.

(** [preferred_ending.get_or_insert(ending)] over the pushed lines. *)
Definition first_ending (ls : list SourceLine) : option LineEnding :=
  match ls with
  | mkLine _ e :: _ => e
  | [] => None
  end.

Definition parse (contents : str) : SourceFile :=
  let ls := parse_loop [] contents in
  mkSource ls (unwrap_or (first_ending ls) Lf).

Definition line_texts (f : SourceFile) : list str := List.map text (src_lines f).

Definition new_line (pe : LineEnding) (t : str) : SourceLine := mkLine t (Some pe).

(** The loop of [SourceFile::apply_replacements] over the draining iterator. *)
Fixpoint apply_loop (pe : LineEnding) (rs : list Replacement)
    (source_lines new_lines : list SourceLine) (source_index : nat) : option (list SourceLine) :=
  match rs with
  | [] => Some (new_lines ++ source_lines)
  | (start_idx, old_len, new_segment) :: rs' =>
      if Nat.ltb start_idx source_index then None
      else
        let k := start_idx - source_index in
        apply_loop pe rs' (drop old_len (drop k source_lines))
          ((new_lines ++ take k source_lines) ++ List.map (new_line pe) new_segment)
          (start_idx + old_len)
  end.

(** [line.ending.get_or_insert(self.preferred_ending)]. *)
Definition fill_ending (pe : LineEnding) (l : SourceLine) : SourceLine :=
  match ending l with
  | Some _ => l
  | None => mkLine (text l) (Some pe)
  end.

Definition source_apply_replacements (f : SourceFile) (rs : list Replacement) : option SourceFile :=
  match apply_loop (preferred_ending f) rs (src_lines f) [] 0 with
  | Some ls => Some (mkSource (List.map (fill_ending (preferred_ending f)) ls) (preferred_ending f))
  | None => None
  end.

Definition line_contents (l : SourceLine) : str :=
  text l ++ match ending l with Some e => ending_str e | None => [] end.

Definition into_contents (f : SourceFile) : str :=
  List.concat (List.map line_contents (src_lines f)).

(** ** Theorems *)

Lemma parse_loop_contents acc s :
  List.concat (List.map line_contents (parse_loop acc s)) = acc ++ s.
Proof.
  remember (length s) as n eqn:Hn. revert acc s Hn.
  induction n as [n IH] using lt_wf_ind. intros acc [|c s] ->; simpl.
  - destruct acc; simpl; by rewrite ?app_nil_r.
  - destruct (N.eqb_spec c CR) as [->|Hc].
    + destruct s as [|d s].
      * simpl. by rewrite app_nil_r.
      * destruct (N.eqb_spec d LF) as [->|Hd]; simpl; unfold line_contents at 1; simpl.
        -- rewrite (IH (length s)) by (simpl; lia || done). by rewrite <- app_assoc.
        -- pose proof (IH (length (d :: s)) ltac:(simpl; lia) [] (d :: s) eq_refl) as E.
           simpl in E. rewrite E. by rewrite <- app_assoc.
    + destruct (N.eqb_spec c LF) as [->|Hd]; simpl.
      * unfold line_contents at 1. simpl. rewrite (IH (length s)) by (simpl; lia || done).
        by rewrite <- app_assoc.
      * rewrite (IH (length s)) by (simpl; lia || done). by rewrite <- app_assoc.
Qed.

(** Round trip: splitting a file into lines and writing it back gives the
    same text, for every mix of LF, CRLF and CR endings. *)
Theorem into_contents_parse (contents : str) : into_contents (parse contents) = contents.
Proof. apply parse_loop_contents. Qed.

(** Line texts never hold a line break, and only the last line may lack an ending. *)
Definition source_lines_ok (ls : list SourceLine) : Prop :=
  Forall (fun l => LF ∉ text l /\ CR ∉ text l) ls
  /\ forall i l, ls !! i = Some l -> ending l = None -> S i = length ls /\ text l <> [].

Lemma parse_loop_ok acc s : LF ∉ acc -> CR ∉ acc -> source_lines_ok (parse_loop acc s).
Proof.
  remember (length s) as n eqn:Hn. revert acc s Hn.
  induction n as [n IH] using lt_wf_ind. intros acc [|c s] -> Ha Hb; simpl.
  - destruct acc as [|a acc]; simpl; [split; [constructor|done]|].
    split; [by repeat constructor|]. intros [|i] l; simpl; [|by rewrite lookup_nil].
    intros [= <-] _. done.
  - assert (forall e t, length t < S (length s) -> source_lines_ok (mkLine acc (Some e) :: parse_loop [] t)) as Hcons.
    { intros e t Ht. destruct (IH (length t) Ht [] t eq_refl) as [H1 H2]; [set_solver..|].
      split; [by constructor|]. intros [|i] l; simpl; [by intros [= <-]|].
      intros Hi He. destruct (H2 i l Hi He) as [E ?]. by rewrite <- E. }
    destruct (N.eqb_spec c CR) as [->|Hc].
    + destruct s as [|d s]; [apply (Hcons Cr []); simpl; lia|].
      destruct (N.eqb_spec d LF); [apply Hcons; simpl; lia|apply (Hcons Cr (d :: s)); simpl; lia].
    + destruct (N.eqb_spec c LF) as [->|Hd]; [apply Hcons; lia|].
      apply (IH (length s)); [simpl; lia|done|set_solver|set_solver].
Qed.

(** [parse] yields logical lines: no text contains CR or LF, and a missing
    ending occurs only on a non-empty last line. *)
Theorem parse_lines_ok (contents : str) : source_lines_ok (src_lines (parse contents)).
Proof. apply parse_loop_ok; set_solver. Qed.

Definition new_lines_replacement (pe : LineEnding) (r : Replacement) : nat * nat * list SourceLine :=
  (r.1.1, r.1.2, List.map (new_line pe) r.2).

Lemma apply_loop_splice pe rs src new pos :
  disjoint_within pos rs (pos + length src) ->
  apply_loop pe rs src new pos = Some (new ++ splice pos (List.map (new_lines_replacement pe) rs) src).
Proof.
  revert src new pos; induction rs as [|[[s n] seg] rs IH]; intros src new pos; simpl; [done|].
  intros [H1 H2]. destruct (Nat.ltb_spec s pos); [lia|].
  pose proof (disjoint_within_le _ _ _ H2). rewrite drop_drop, IH.
  - by rewrite <- !app_assoc.
  - eapply disjoint_within_weaken; [|exact H2]. rewrite length_drop. lia.
Qed.

(** The texts after the edit are the splice of the texts. *)
Lemma source_apply_texts f rs :
  disjoint_within 0 rs (length (src_lines f)) ->
  exists f', source_apply_replacements f rs = Some f'
    /\ line_texts f' = splice 0 rs (line_texts f)
    /\ src_lines f' = List.map (fill_ending (preferred_ending f))
         (splice 0 (List.map (new_lines_replacement (preferred_ending f)) rs) (src_lines f)).
Proof.
  intros H. unfold source_apply_replacements. rewrite apply_loop_splice by done. eexists.
  split; [done|]. split; [|done]. unfold line_texts. simpl. rewrite List.map_map.
  replace (splice 0 rs (List.map text (src_lines f))) with
    (splice 0 (List.map (fun r => (r.1.1, r.1.2, List.map text r.2))
       (List.map (new_lines_replacement (preferred_ending f)) rs)) (List.map text (src_lines f))).
  - rewrite <- splice_map. apply List.map_ext. intros [t [e|]]; done.
  - f_equal. rewrite List.map_map. rewrite <- (List.map_id rs) at 2. apply List.map_ext.
    intros [[s n] seg]. unfold new_lines_replacement. simpl. f_equal.
    rewrite List.map_map. rewrite <- (List.map_id seg) at 2. done.
Qed.

(** On sorted, non-overlapping replacements [SourceFile::apply_replacements]
    never underflows; it keeps every untouched line with its own ending, gives
    inserted lines the preferred ending, and terminates every line. *)
Theorem source_apply_replacements_splice (f : SourceFile) (rs : list Replacement) :
  disjoint_within 0 rs (length (src_lines f)) ->
  exists f', source_apply_replacements f rs = Some f'
    /\ line_texts f' = splice 0 rs (line_texts f)
    /\ src_lines f' = List.map (fill_ending (preferred_ending f))
         (splice 0 (List.map (new_lines_replacement (preferred_ending f)) rs) (src_lines f))
    /\ Forall (fun l => ending l <> None) (src_lines f').
Proof.
  intros H. destruct (source_apply_texts f rs H) as (f' & E & Ht & Hs). exists f'.
  split_and!; try done. rewrite Hs. apply Forall_forall.
  intros l ([t [e|]] & <- & _)%list_elem_of_In%in_map_iff; done.
Qed.

(** ** Witnesses *)

Definition demo_source : SourceFile := parse (lit "a" ++ [CR; LF] ++ lit "b" ++ [LF] ++ lit "c").

Lemma source_apply_replacements_splice_witness :
  exists f', source_apply_replacements demo_source [(1, 1, [lit "B"; lit "B2"])] = Some f'
    /\ line_texts f' = [lit "a"; lit "B"; lit "B2"; lit "c"].
Proof.
  destruct (source_apply_replacements_splice demo_source [(1, 1, [lit "B"; lit "B2"])]) as (f' & E & Ht & _).
  - vm_compute. lia.
  - exists f'. split; [exact E|]. rewrite Ht. vm_compute. reflexivity.
Defined.
