(* ===== verification/FileUpdate.v ===== *)
(** * Computing and applying the edits of one update hunk

    Models [codex-rs/apply-patch/src/file_update.rs].  An index or slice that
    Rust would reject with a panic is the outcome [None]; the theorems show it
    does not happen on chunks the parser produces.  [sort_by_key] is a stable
    sort, written as a stable insertion sort. *)

From stdpp Require Import base list numbers option strings gmap.
From Stdlib Require Import Lia Sorted.
From S2P Require Import Prelude RustStr PatchParser SeekSequence Splice TextFile.

(** ** Operations *)

(** The slice [l[a..b]]: [None] is the bounds panic. *)
Definition slice {A} (a b : nat) (l : list A) : option (list A) :=
  if Nat.leb a b && Nat.leb b (length l) then Some (take (b - a) (drop a l)) else None.

(** [a - b] on [usize]: [None] is the overflow panic. *)
Definition checked_sub (a b : nat) : option nat := if Nat.leb b a then Some (a - b) else None.

(** The loop over [context_line_indices] with the final push after it. *)
Fixpoint context_edits (start_idx plen : nat) (new_slice : list str)
    (idxs : list (nat * nat)) (old_start new_start : nat) : option (list Replacement) :=
  let finish_block :=
    if negb (Nat.eqb old_start plen) || negb (Nat.eqb new_start (length new_slice)) then
      match checked_sub plen old_start, slice new_start (length new_slice) new_slice with
      | Some n, Some seg => Some [(start_idx + old_start, n, seg)]
      | _, _ => None
      end
    else Some [] in
  match idxs with
  | [] => finish_block
  | (old_context, new_context) :: idxs' =>
      if Nat.leb plen old_context || Nat.leb (length new_slice) new_context then finish_block
      else
        let rest := context_edits start_idx plen new_slice idxs' (S old_context) (S new_context) in
        if negb (Nat.eqb old_start old_context) || negb (Nat.eqb new_start new_context) then
          match checked_sub old_context old_start, slice new_start new_context new_slice, rest with
          | Some n, Some seg, Some rs => Some ((start_idx + old_start, n, seg) :: rs)
          | _, _, _ => None
          end
        else rest
  end.

Definition last_is_empty (l : list str) : bool := is_some_and (last l) is_nil.

Definition insertion_index (original_lines : list str) (m : ApplyPatchFileUpdateMode) : nat :=
  match m with
  | NormalizeToLf =>
      if last_is_empty original_lines then length original_lines - 1 else length original_lines
  | PreserveLineEndings => length original_lines
  end.

Definition msg_context_not_found (ctx_line path : str) : str :=
  lit "Failed to find context '" ++ ctx_line ++ lit "' in " ++ path.
Definition msg_lines_not_found (path : str) (c : UpdateFileChunk) : str :=
  lit "Failed to find expected lines in " ++ path ++ lit ":" ++ [LF] ++ join [LF] (old_lines c).

(** The search for [old_lines], retried without a trailing empty line:
    [(found, pattern, new_slice)]; [None] is a panic of the search. *)
Definition locate_chunk (original_lines : list str) (c : UpdateFileChunk) (line_index : nat)
    (m : ApplyPatchFileUpdateMode) : option (option nat * list str * list str) :=
  let pattern := old_lines c in
  let new_slice := new_lines c in
  match seek_sequence original_lines pattern line_index (is_end_of_file c) m with
  | None => None
  | Some found =>
      if is_none found && last_is_empty pattern then
        let pattern := take (length pattern - 1) pattern in
        let new_slice := if last_is_empty new_slice then take (length new_slice - 1) new_slice
                         else new_slice in
        match seek_sequence original_lines pattern line_index (is_end_of_file c) m with
        | None => None
        | Some found => Some (found, pattern, new_slice)
        end
      else Some (found, pattern, new_slice)
  end.

(** Where the search for the old lines starts: after the context line, if any. *)
Definition after_context (original_lines : list str) (path : str) (m : ApplyPatchFileUpdateMode)
    (c : UpdateFileChunk) (line_index : nat) : option (result nat str) :=
  match change_context c with
  | Some ctx_line =>
      match seek_sequence original_lines [ctx_line] line_index false m with
      | None => None
      | Some (Some idx) => Some (Ok (idx + 1))
      | Some None => Some (Err (msg_context_not_found ctx_line path))
      end
  | None => Some (Ok line_index)
  end.

(** One iteration of the loop over [chunks]: the replacements it pushes and the
    next [line_index]. *)
Definition chunk_edits (original_lines : list str) (path : str) (m : ApplyPatchFileUpdateMode)
    (c : UpdateFileChunk) (line_index : nat) : option (result (list Replacement * nat) str) :=
  match after_context original_lines path m c line_index with
  | None => None
  | Some (Err e) => Some (Err e)
  | Some (Ok line_index) =>
      if is_nil (old_lines c) then
        Some (Ok ([(insertion_index original_lines m, 0, new_lines c)], line_index))
      else
        match locate_chunk original_lines c line_index m with
        | None => None
        | Some (None, _, _) => Some (Err (msg_lines_not_found path c))
        | Some (Some start_idx, pattern, new_slice) =>
            match m with
            | NormalizeToLf =>
                Some (Ok ([(start_idx, length pattern, new_slice)], start_idx + length pattern))
            | PreserveLineEndings =>
                match context_edits start_idx (length pattern) new_slice
                        (context_line_indices c) 0 0 with
                | Some rs => Some (Ok (rs, start_idx + length pattern))
                | None => None
                end
            end
        end
  end.

Fixpoint all_edits (original_lines : list str) (path : str) (m : ApplyPatchFileUpdateMode)
    (chunks : list UpdateFileChunk) (line_index : nat) : option (result (list Replacement) str) :=
  match chunks with
  | [] => Some (Ok [])
  | c :: cs =>
      match chunk_edits original_lines path m c line_index with
      | None => None
      | Some (Err e) => Some (Err e)
      | Some (Ok (rs, line_index')) =>
          match all_edits original_lines path m cs line_index' with
          | Some (Ok rest) => Some (Ok (rs ++ rest))
          | other => other
          end
      end
  end.

Definition start_of (r : Replacement) : nat := r.1.1.

(** [sort_by_key(|(index, _, _)| *index)]. *)
Fixpoint insert_sorted (r : Replacement) (rs : list Replacement) : list Replacement :=
  match rs with
  | [] => [r]
  | r' :: rs' => if Nat.leb (start_of r) (start_of r') then r :: rs else r' :: insert_sorted r rs'
  end.
Fixpoint sort_by_start (rs : list Replacement) : list Replacement :=
  match rs with
  | [] => []
  | r :: rs' => insert_sorted r (sort_by_start rs')
  end.

Definition compute_replacements (original_lines : list str) (path : str)
    (chunks : list UpdateFileChunk) (m : ApplyPatchFileUpdateMode)
  : option (result (list Replacement) str) :=
  match all_edits original_lines path m chunks 0 with
  | Some (Ok rs) => Some (Ok (sort_by_start rs))
  | other => other
  end.

(** [for _ in 0..old_len { if start < lines.len() { lines.remove(start) } }]. *)
Fixpoint remove_at (n start : nat) (ls : list str) : list str :=
  match n with
  | O => ls
  | S n' =>
      remove_at n' start
        (if Nat.ltb start (length ls) then take start ls ++ drop (S start) ls else ls)
  end.

(** [lines.insert(start + offset, new_line)]: [None] when past the end. *)
Fixpoint insert_at (idx : nat) (seg ls : list str) : option (list str) :=
  match seg with
  | [] => Some ls
  | x :: seg' =>
      if Nat.leb idx (length ls)
      then insert_at (S idx) seg' (take idx ls ++ x :: drop idx ls)
      else None
  end.

Definition apply_replacement (r : Replacement) (ls : list str) : option (list str) :=
  let '(start_idx, old_len, seg) := r in
  insert_at start_idx seg (remove_at old_len start_idx ls).

(** [for .. in replacements.iter().rev()]. *)
Definition apply_replacements (ls : list str) (rs : list Replacement) : option (list str) :=
  fold_right (fun r acc => match acc with Some l => apply_replacement r l | None => None end)
    (Some ls) rs.

(** The computation of [derive_new_contents_from_chunks] after the file is read;
    the error is the message of [ApplyPatchError::ComputeReplacements]. *)
Definition derive_new_contents (original_contents path_text : str)
    (chunks : list UpdateFileChunk) (m : ApplyPatchFileUpdateMode) : option (result str str) :=
  match m with
  | NormalizeToLf =>
      let original_lines := split LF original_contents in
      let original_lines :=
        if last_is_empty original_lines then take (length original_lines - 1) original_lines
        else original_lines in
      match compute_replacements original_lines path_text chunks m with
      | None => None
      | Some (Err e) => Some (Err e)
      | Some (Ok rs) =>
          match apply_replacements original_lines rs with
          | None => None
          | Some new_lines =>
              let new_lines := if last_is_empty new_lines then new_lines else new_lines ++ [[]] in
              Some (Ok (join [LF] new_lines))
          end
      end
  | PreserveLineEndings =>
      let source_file := parse original_contents in
      match compute_replacements (line_texts source_file) path_text chunks m with
      | None => None
      | Some (Err e) => Some (Err e)
      | Some (Ok rs) =>
          match source_apply_replacements source_file rs with
          | None => None
          | Some f => Some (Ok (into_contents f))
          end
      end
  end.

(** ** Edits around context lines *)

Lemma slice_ok {A} a b (l : list A) : a <= b <= length l -> slice a b l = Some (take (b - a) (drop a l)).
Proof.
  intros H. unfold slice. rewrite (proj2 (Nat.leb_le a b)), (proj2 (Nat.leb_le b (length l))) by lia. done.
Qed.

Lemma checked_sub_ok a b : b <= a -> checked_sub a b = Some (a - b).
Proof. intros H. unfold checked_sub. by rewrite (proj2 (Nat.leb_le b a)) by lia. Qed.

Section ContextEdits.
Context (start_idx : nat) (old new : list str).

(** Context pairs from [(os, ns)] on: increasing, and naming equal lines. *)
Definition pairs_from (idxs : list (nat * nat)) (os ns : nat) : Prop :=
  StronglySorted ctx_step idxs /\ Forall (fun ij => os <= ij.1 /\ ns <= ij.2) idxs.

Lemma pairs_from_tail i j idxs os ns : pairs_from ((i, j) :: idxs) os ns -> pairs_from idxs (S i) (S j).
Proof.
  intros [Hs _]. apply StronglySorted_inv in Hs as [Hs Hi]. split; [done|].
  eapply Forall_impl; [exact Hi|]. intros [i' j'] [H1 H2]. simpl in *. lia.
Qed.

(** No panic, and the edits are ordered and inside the matched block. *)
Lemma context_edits_disjoint idxs os ns :
  pairs_from idxs os ns -> os <= length old -> ns <= length new ->
  exists rs, context_edits start_idx (length old) new idxs os ns = Some rs
    /\ disjoint_within (start_idx + os) rs (start_idx + length old).
Proof.
  assert (forall os ns, os <= length old -> ns <= length new ->
    exists rs, context_edits start_idx (length old) new [] os ns = Some rs
      /\ disjoint_within (start_idx + os) rs (start_idx + length old)) as Hend.
  { intros o n Ho Hn. simpl. rewrite checked_sub_ok, slice_ok by lia.
    destruct (_ || _); eexists; (split; [done|]); simpl; lia. }
  revert os ns. induction idxs as [|[i j] idxs IH]; intros os ns Hp Ho Hn; [by apply Hend|].
  pose proof (pairs_from_tail _ _ _ _ _ Hp) as Ht. destruct Hp as [_ [[Hi Hj] _]%Forall_cons]. simpl in Hi, Hj.
  cbn [context_edits]. destruct (_ || _) eqn:E; [by apply Hend|]. bool_to_prop.
  destruct (IH (S i) (S j) Ht) as (rs & -> & Hd); [lia..|].
  rewrite checked_sub_ok, slice_ok by lia. destruct (_ || _).
  - eexists. split; [done|]. simpl. split; [lia|]. eapply disjoint_within_start; [|exact Hd]. lia.
  - eexists. split; [done|]. eapply disjoint_within_start; [|exact Hd]. lia.
Qed.

(** Applied to the old block itself, the edits produce the new block. *)
Lemma context_edits_splice idxs os ns rs :
  pairs_from idxs os ns -> os <= length old -> ns <= length new ->
  Forall (fun ij => ij.1 < length old -> ij.2 < length new -> old !! ij.1 = new !! ij.2) idxs ->
  context_edits start_idx (length old) new idxs os ns = Some rs ->
  splice (start_idx + os) rs (drop os old) = drop ns new.
Proof.
  assert (forall os ns rs, os <= length old -> ns <= length new ->
    context_edits start_idx (length old) new [] os ns = Some rs ->
    splice (start_idx + os) rs (drop os old) = drop ns new) as Hend.
  { intros o n r Ho Hn. simpl. rewrite checked_sub_ok, slice_ok by lia. destruct (_ || _) eqn:E; intros [= <-].
    - simpl. rewrite Nat.sub_diag. simpl. rewrite drop_drop, (drop_ge old), app_nil_r by lia.
      rewrite firstn_all2 by (rewrite length_drop; lia). done.
    - bool_to_prop. simpl. by rewrite !drop_ge by lia. }
  revert os ns rs. induction idxs as [|[i j] idxs IH]; intros os ns rs Hp Ho Hn Heq; [by apply Hend|].
  pose proof (pairs_from_tail _ _ _ _ _ Hp) as Ht. destruct Hp as [_ [[Hi Hj] _]%Forall_cons]. simpl in Hi, Hj.
  apply Forall_cons in Heq as [Hij Heq]. simpl in Hij.
  cbn [context_edits]. destruct (Nat.leb (length old) i || Nat.leb (length new) j) eqn:E; [by apply Hend|].
  bool_to_prop. specialize (Hij ltac:(lia) ltac:(lia)).
  destruct (lookup_lt_is_Some_2 old i ltac:(lia)) as [x Hx]. rewrite Hx in Hij. symmetry in Hij.
  destruct (context_edits_disjoint idxs (S i) (S j) Ht) as (rs' & Er & Hd); [lia..|].
  pose proof (IH (S i) (S j) rs' Ht ltac:(lia) ltac:(lia) Heq Er) as Hs. rewrite Er.
  assert (splice (start_idx + i) rs' (drop i old) = drop j new) as Hone.
  { rewrite (drop_S _ _ _ Hx), (drop_S _ _ _ Hij).
    change (x :: drop (S i) old) with ([x] ++ drop (S i) old). rewrite (splice_prefix (start_idx + i) rs' [x] _ (start_idx + length old)).
    - simpl. replace (start_idx + i + 1) with (start_idx + S i) by lia. by rewrite Hs.
    - simpl. by replace (start_idx + i + 1) with (start_idx + S i) by lia. }
  rewrite checked_sub_ok, slice_ok by lia. destruct (_ || _) eqn:Eq; intros [= <-].
  - simpl. rewrite Nat.sub_diag. simpl. rewrite drop_drop.
    replace (start_idx + os + (i - os)) with (start_idx + i) by lia.
    replace (os + (i - os)) with i by lia. rewrite Hone.
    rewrite <- (take_drop (j - ns) (drop ns new)) at 2. rewrite drop_drop.
    by replace (ns + (j - ns)) with j by lia.
  - bool_to_prop. subst. done.
Qed.
End ContextEdits.

(** ** Sorting *)

Lemma insert_sorted_front r rs :
  Forall (fun x => start_of r <= start_of x) rs -> insert_sorted r rs = r :: rs.
Proof.
  destruct rs as [|x rs]; simpl; [done|]. intros [H _]%Forall_cons.
  by rewrite (proj2 (Nat.leb_le _ _) H).
Qed.

Lemma insert_sorted_skip r a b :
  Forall (fun x => start_of x < start_of r) a -> insert_sorted r (a ++ b) = a ++ insert_sorted r b.
Proof.
  induction 1 as [|x a Hx Ha IH]; simpl; [done|].
  destruct (Nat.leb_spec (start_of r) (start_of x)); [lia|]. by rewrite IH.
Qed.

Definition below (n : nat) (r : Replacement) : Prop := start_of r < n.
#[export] Instance below_dec n r : Decision (below n r).
Proof. unfold below. apply _. Defined.

(** Edits whose starts below [n] are already in order are only moved around the
    insertions at [n]. *)
Lemma sort_by_start_split n rs e :
  Forall (fun r => start_of r <= n) rs -> disjoint_within 0 (filter (below n) rs) e ->
  sort_by_start rs = filter (below n) rs ++ filter (fun r => ~ below n r) rs.
Proof.
  generalize 0 as k. induction rs as [|r rs IH]; intros k HF Hd; [done|].
  apply Forall_cons in HF as [Hr HF].
  assert (Forall (fun x => start_of x = n) (filter (fun r => ~ below n r) rs)) as Hge.
  { apply Forall_forall. intros x [Hb Hx]%list_elem_of_filter. rewrite Forall_forall in HF.
    specialize (HF x Hx). unfold below in Hb. lia. }
  cbn [sort_by_start]. rewrite !filter_cons in *. destruct (decide (below n r)) as [Hb|Hb].
  - destruct r as [[s m] seg]. destruct Hd as [H1 H2]. rewrite (IH (s + m)) by done.
    destruct (decide (~ below n (s, m, seg))); [done|]. simpl. apply insert_sorted_front.
    apply Forall_app. split.
    + apply disjoint_within_bounds in H2. eapply Forall_impl; [exact H2|]. unfold start_of. simpl. lia.
    + eapply Forall_impl; [exact Hge|]. unfold below, start_of in *. simpl in *. lia.
  - rewrite (IH k) by done. destruct (decide (~ below n r)); [|done]. unfold below in Hb.
    rewrite insert_sorted_skip, insert_sorted_front.
    + done.
    + eapply Forall_impl; [exact Hge|]. simpl. lia.
    + apply Forall_forall. intros x [Hx _]%list_elem_of_filter. unfold below in Hx. lia.
Qed.

(** [sort_by_key] yields the replacements ordered by start. *)
Lemma sort_by_start_sorted rs : StronglySorted (fun a b => start_of a <= start_of b) (sort_by_start rs).
Proof.
  induction rs as [|r rs IH]; simpl; [constructor|].
  induction IH as [|x l Hs IHs Hx]; simpl; [repeat constructor|].
  destruct (Nat.leb_spec (start_of r) (start_of x)).
  - constructor; [by constructor|]. constructor; [done|]. eapply Forall_impl; [exact Hx|]. simpl. lia.
  - constructor; [done|]. clear -Hx H. induction l as [|y l IH]; simpl; [repeat constructor; simpl; lia|].
    apply Forall_cons in Hx as [? ?]. destruct (Nat.leb _ _); constructor; auto; try lia.
Qed.

Lemma sort_by_start_perm rs : Permutation (sort_by_start rs) rs.
Proof.
  induction rs as [|r rs IH]; simpl; [done|]. rewrite <- IH at 2. generalize (sort_by_start rs) as l.
  induction l as [|x l IHl]; simpl; [done|]. destruct (Nat.leb _ _); [done|].
  rewrite IHl. apply Permutation_swap.
Qed.

Lemma sort_by_start_id k rs e : disjoint_within k rs e -> sort_by_start rs = rs.
Proof.
  revert k; induction rs as [|[[s n] seg] rs IH]; intros k; [done|]. intros [H1 H2].
  cbn [sort_by_start]. rewrite (IH _ H2). apply insert_sorted_front.
  apply disjoint_within_bounds in H2. eapply Forall_impl; [exact H2|]. unfold start_of. simpl. lia.
Qed.

(** ** Where chunks are found *)

Lemma seek_bounds ls pat start eof m i :
  seek ls pat start eof m = Some i -> start <= length ls ->
  i + length pat <= length ls /\ (m = PreserveLineEndings \/ eof = false -> start <= i).
Proof.
  intros H Hs. destruct (decide (pat = [])) as [->|Hne].
  - injection H as <-. simpl. lia.
  - apply seek_hit_iff in H as (Hl & _ & _ & _ & _ & Hr & _); [|done].
    unfold search_start in Hr. split; [lia|].
    intros [->| ->]; simpl in Hr; [|lia]. destruct (eof && _); lia.
Qed.

Lemma seek_context_bounds ls ctx start m i :
  seek ls [ctx] start false m = Some i -> start <= i /\ i + 1 <= length ls.
Proof.
  intros H. apply seek_hit_iff in H as (Hl & _ & _ & _ & _ & Hr & _); [|done].
  unfold search_start in Hr. simpl in *. lia.
Qed.

Lemma after_context_safe ls path m c li : li <= length ls ->
  (exists e, after_context ls path m c li = Some (Err e)) \/
  exists li1, after_context ls path m c li = Some (Ok li1) /\ li <= li1 <= length ls.
Proof.
  intros Hli. unfold after_context. destruct (change_context c) as [ctx|]; [|right; eauto].
  rewrite seek_sequence_total. destruct (seek ls [ctx] li false m) as [i|] eqn:E; [|by left; eexists].
  apply seek_context_bounds in E. right. eexists. split; [done|]. lia.
Qed.

Lemma locate_chunk_safe ls c li m : li <= length ls ->
  exists found pat ns, locate_chunk ls c li m = Some (found, pat, ns)
  /\ match found with
     | None => True
     | Some i => i + length pat <= length ls /\ (m = PreserveLineEndings \/ is_end_of_file c = false -> li <= i)
     end.
Proof.
  intros Hli. unfold locate_chunk. rewrite !seek_sequence_total.
  destruct (is_none _ && _); do 3 eexists; (split; [done|]);
    destruct (seek _ _ _ _ _) eqn:E; try done; by apply seek_bounds in E.
Qed.

Lemma ctx_wf_pairs c : ctx_wf c -> pairs_from (context_line_indices c) 0 0.
Proof.
  intros [Hs _]. split; [done|]. apply Forall_forall. intros [i j] _. simpl. lia.
Qed.

(** Facts about one chunk in either mode: no panic, everything in bounds. *)
Lemma chunk_edits_safe ls path m c li :
  ctx_wf c -> li <= length ls ->
  (exists e, chunk_edits ls path m c li = Some (Err e)) \/
  exists rs li', chunk_edits ls path m c li = Some (Ok (rs, li'))
    /\ li' <= length ls /\ Forall (fun r => start_of r <= length ls) rs
    /\ (m = PreserveLineEndings ->
        disjoint_within li (filter (below (length ls)) rs) li'
        /\ Forall (fun r => start_of r + r.1.2 <= length ls) rs).
Proof.
  intros Hwf Hli. unfold chunk_edits.
  destruct (after_context_safe ls path m c li Hli) as [[e ->]|(li1 & -> & Hl1)]; [left; eauto|].
  destruct (is_nil (old_lines c)) eqn:En.
  - right. do 2 eexists. split; [done|].
    assert (insertion_index ls m <= length ls) as Hi.
    { unfold insertion_index. destruct m; [|lia]. destruct (last_is_empty _); lia. }
    split_and!; [lia|by apply Forall_singleton|]. intros ->.
    split; [|apply Forall_singleton; unfold start_of; simpl in *; lia].
    rewrite filter_cons. destruct (decide _) as [Hb|_]; [unfold below, start_of in Hb; simpl in Hb; lia|].
    simpl. lia.
  - destruct (locate_chunk_safe ls c li1 m) as ([i|] & pat & ns & -> & H12); [lia| |left; eauto].
    destruct H12 as [H1 H2]. right. destruct m.
    + do 2 eexists. split; [done|]. split_and!; [done|apply Forall_singleton; unfold start_of; simpl; lia|done].
    + destruct (context_edits_disjoint i pat ns (context_line_indices c) 0 0) as (rs & Er & Hd);
        [by apply ctx_wf_pairs|lia..|]. rewrite Er. specialize (H2 ltac:(by left)).
      do 2 eexists. split; [done|]. pose proof (disjoint_within_bounds _ _ _ Hd) as Hb.
      split_and!; [lia| |intros _; split].
      * eapply Forall_impl; [exact Hb|]. unfold start_of. simpl. lia.
      * apply disjoint_within_sub. eapply disjoint_within_start; [|exact Hd]. lia.
      * eapply Forall_impl; [exact Hb|]. unfold start_of. simpl. lia.
Qed.

Lemma all_edits_safe ls path m cs li :
  Forall ctx_wf cs -> li <= length ls ->
  (exists e, all_edits ls path m cs li = Some (Err e)) \/
  exists rs, all_edits ls path m cs li = Some (Ok rs)
    /\ Forall (fun r => start_of r <= length ls) rs
    /\ (m = PreserveLineEndings ->
        disjoint_within li (filter (below (length ls)) rs) (length ls)
        /\ Forall (fun r => start_of r + r.1.2 <= length ls) rs).
Proof.
  intros HF. revert li. induction HF as [|c cs Hc HF IH]; intros li Hli; cbn [all_edits].
  - right. eexists. split; [done|]. split; [constructor|]. intros _. split; [done|constructor].
  - destruct (chunk_edits_safe ls path m c li Hc Hli) as [[e ->]|(rs1 & li' & -> & Hl' & Hs1 & Hd1)];
      [left; eauto|].
    destruct (IH li' Hl') as [[e ->]|(rs2 & -> & Hs2 & Hd2)]; [left; eauto|].
    right. eexists. split; [done|]. split; [by apply Forall_app|]. intros Hm.
    destruct (Hd1 Hm), (Hd2 Hm). rewrite filter_app. split; [by eapply disjoint_within_app|].
    by apply Forall_app.
Qed.

(** The whole loop and the sort, in the preserving mode. *)
Lemma compute_replacements_disjoint ls path cs :
  Forall ctx_wf cs ->
  (exists e, compute_replacements ls path cs PreserveLineEndings = Some (Err e)) \/
  exists rs, compute_replacements ls path cs PreserveLineEndings = Some (Ok rs)
    /\ disjoint_within 0 rs (length ls).
Proof.
  intros HF. unfold compute_replacements.
  destruct (all_edits_safe ls path PreserveLineEndings cs 0 HF) as [[e ->]|(rs & -> & Hs & Hd)];
    [lia|left; eauto|]. right. eexists. split; [done|]. destruct (Hd eq_refl) as [Hd1 Hd2].
  rewrite (sort_by_start_split (length ls) rs (length ls)) by done.
  eapply disjoint_within_app; [exact Hd1|].
  assert (Forall (fun r : Replacement => r.1.1 = length ls /\ r.1.2 = 0)
            (filter (fun r => ~ below (length ls) r) rs)) as Hz.
  { apply Forall_forall. intros r [Hb Hr]%list_elem_of_filter.
    rewrite Forall_forall in Hd2. specialize (Hd2 r Hr). unfold below, start_of in *. lia. }
  generalize dependent (filter (fun r => ~ below (length ls) r) rs). clear.
  induction 1 as [|[[s n] seg] l [H1 H2] HF IH]; simpl in *; [lia|]. subst.
  split; [lia|]. by rewrite Nat.add_0_r.
Qed.

(** ** The historical [apply_replacements] *)

Lemma remove_at_spec n s ls : s <= length ls -> remove_at n s ls = take s ls ++ drop (s + n) ls.
Proof.
  revert ls; induction n as [|n IH]; intros ls Hs; cbn [remove_at].
  - by rewrite Nat.add_0_r, take_drop.
  - destruct (Nat.ltb_spec s (length ls)).
    + rewrite IH by (rewrite length_app, length_take, length_drop; lia).
      rewrite take_app_length' by (rewrite length_take; lia).
      rewrite drop_app_ge by (rewrite length_take; lia). rewrite length_take, drop_drop.
      do 2 f_equal. lia.
    + rewrite IH by done. rewrite !drop_ge by lia. done.
Qed.

Lemma insert_at_spec a seg b : insert_at (length a) seg (a ++ b) = Some (a ++ seg ++ b).
Proof.
  revert a; induction seg as [|x seg IH]; intros a; cbn [insert_at]; [done|].
  rewrite length_app, (proj2 (Nat.leb_le _ _)) by lia.
  rewrite take_app_length, drop_app_length.
  replace (S (length a)) with (length (a ++ [x])) by (rewrite length_app; simpl; lia).
  replace (a ++ x :: b) with ((a ++ [x]) ++ b) by (by rewrite <- app_assoc).
  rewrite IH. by rewrite <- !app_assoc.
Qed.

Lemma apply_replacement_spec s n seg ls :
  s <= length ls -> apply_replacement (s, n, seg) ls = Some (take s ls ++ seg ++ drop (s + n) ls).
Proof.
  intros H. unfold apply_replacement. rewrite remove_at_spec by done.
  pose proof (insert_at_spec (take s ls) seg (drop (s + n) ls)) as E.
  by rewrite length_take_le in E.
Qed.

(** Right-to-left in-place edits agree with the left-to-right splice. *)
Lemma apply_replacements_splice_from k rs ls :
  disjoint_within k rs (length ls) ->
  apply_replacements ls rs = Some (take k ls ++ splice k rs (drop k ls)).
Proof.
  revert k; induction rs as [|[[s n] seg] rs IH]; intros k; cbn -[apply_replacement].
  - intros _. by rewrite take_drop.
  - intros [H1 H2]. pose proof (disjoint_within_le _ _ _ H2).
    unfold apply_replacements in IH. rewrite (IH _ H2), apply_replacement_spec
      by (rewrite length_app, length_take; lia).
    rewrite take_app_le by (rewrite length_take; lia).
    rewrite take_take, Nat.min_l by lia. rewrite drop_app_ge by (rewrite length_take; lia).
    rewrite length_take, Nat.min_l, Nat.sub_diag, drop_0, drop_drop by lia.
    replace (k + (s - k + n)) with (s + n) by lia.
    rewrite (app_assoc (take k ls)). do 2 f_equal. rewrite take_drop_commute.
    replace (k + (s - k)) with s by lia.
    rewrite <- (take_drop k (take s ls)) at 1. by rewrite take_take, Nat.min_l by lia.
Qed.

(** Overlapping regions do not make the in-place edits panic either. *)
Lemma apply_replacements_total rs ls :
  StronglySorted (fun a b => start_of a <= start_of b) rs ->
  Forall (fun r => start_of r <= length ls) rs ->
  exists l', apply_replacements ls rs = Some l'
    /\ forall k, k <= length ls -> Forall (fun r => k <= start_of r) rs -> k <= length l'.
Proof.
  induction 1 as [|[[s n] seg] rs Hs IH Hle]; intros HF; [eauto|].
  apply Forall_cons in HF as [H1 H2]. destruct (IH H2) as (l & E & Hl).
  unfold apply_replacements in *. cbn -[apply_replacement]. rewrite E.
  assert (s <= length l) as Hsl by (by apply Hl). rewrite apply_replacement_spec by done.
  eexists. split; [done|]. intros k Hk [Hks _]%Forall_cons. unfold start_of in Hks. simpl in Hks.
  rewrite length_app, length_take. lia.
Qed.

Lemma derive_contents_total (contents path : str) (cs : list UpdateFileChunk) (m : ApplyPatchFileUpdateMode) :
  Forall ctx_wf cs -> exists r, derive_new_contents contents path cs m = Some r.
Proof.
  intros HF. unfold derive_new_contents. destruct m; cbv zeta.
  - set (ls := if last_is_empty _ then _ else _). unfold compute_replacements.
    destruct (all_edits_safe ls path NormalizeToLf cs 0 HF) as [[e ->]|(rs & -> & Hs & _)]; [lia|eauto|].
    destruct (apply_replacements_total (sort_by_start rs) ls) as (l & -> & _).
    + apply sort_by_start_sorted.
    + by rewrite sort_by_start_perm.
    + eauto.
  - destruct (compute_replacements_disjoint (line_texts (parse contents)) path cs HF)
      as [[e ->]|(rs & -> & Hd)]; [eauto|].
    unfold line_texts in Hd. rewrite List.length_map in Hd.
    destruct (source_apply_texts (parse contents) rs Hd) as (f & -> & _). eauto.
Qed.

(** ** Theorems *)

(** In the line-ending preserving mode [compute_replacements] never panics
    on chunks with well-formed context pairs, and the replacements it returns
    are sorted, non-overlapping and inside the file, as
    [SourceFile::apply_replacements] requires. *)
Theorem compute_replacements_preserve_safe (ls : list str) (path : str) (cs : list UpdateFileChunk) :
  Forall ctx_wf cs ->
  (exists e, compute_replacements ls path cs PreserveLineEndings = Some (Err e)) \/
  exists rs, compute_replacements ls path cs PreserveLineEndings = Some (Ok rs)
    /\ disjoint_within 0 rs (length ls).
Proof. apply compute_replacements_disjoint. Qed.

(** The in-place edits of [apply_replacements], made in descending order,
    equal the left-to-right splice on every sorted, non-overlapping list of
    replacements inside the file. *)
Theorem apply_replacements_splice (rs : list Replacement) (ls : list str) :
  disjoint_within 0 rs (length ls) -> apply_replacements ls rs = Some (splice 0 rs ls).
Proof. apply (apply_replacements_splice_from 0). Qed.

(** Deriving the new contents of a file never panics, in either mode, for
    chunks with well-formed context pairs: it returns new text or a
    [ComputeReplacements] message. *)
Theorem derive_new_contents_total (contents path : str) (cs : list UpdateFileChunk) (m : ApplyPatchFileUpdateMode) :
  Forall ctx_wf cs -> exists r, derive_new_contents contents path cs m = Some r.
Proof. apply derive_contents_total. Qed.

(** ** Edit scripts *)

(** A chunk with the unchanged lines before it.  [sentinel] says that its old lines
    end in an empty line that stands for the final line break and is not a line of
    the file. *)
Record Step := mkStep { gap : list str; step_chunk : UpdateFileChunk; sentinel : bool }.

Definition drop_last (l : list str) : list str := take (length l - 1) l.
Definition old_block (s : Step) : list str :=
  if sentinel s then drop_last (old_lines (step_chunk s)) else old_lines (step_chunk s).
Definition new_block (s : Step) : list str :=
  if sentinel s && last_is_empty (new_lines (step_chunk s)) then drop_last (new_lines (step_chunk s)) else new_lines (step_chunk s).

(** A file seen as gaps and old blocks, and the file with the new blocks. *)
Fixpoint script_old (script : list Step) (tail : list str) : list str :=
  match script with
  | [] => tail
  | s :: script => gap s ++ old_block s ++ script_old script tail
  end.
Fixpoint script_new (script : list Step) (tail : list str) : list str :=
  match script with
  | [] => tail
  | s :: script => gap s ++ new_block s ++ script_new script tail
  end.

(** The search for the old lines starts at [from]: right at [pos], or behind the
    first line of the gap that is the context line. *)
Definition searched_from (pos : nat) (s : Step) (from : nat) : Prop :=
  match change_context (step_chunk s) with
  | None => from = pos
  | Some ctx => exists before behind, gap s = before ++ ctx :: behind /\ ctx ∉ before /\ from = pos + length before + 1
  end.

(** The old block is the first verbatim one from there on, or the end of the file
    for a chunk that is anchored there. *)
Definition step_ok (file : list str) (m : ApplyPatchFileUpdateMode) (pos : nat) (s : Step) : Prop :=
  let c := step_chunk s in
  ctx_wf c /\ old_block s <> [] /\
  exists from, searched_from pos s from
  /\ (sentinel s = true -> last_is_empty (old_lines c) = true /\ seek_sequence file (old_lines c) from (is_end_of_file c) m = Some None)
  /\ if is_end_of_file c then pos + length (gap s) + length (old_block s) = length file
     else forall j, from <= j < pos + length (gap s) -> matches_at id file (old_block s) j = false.

Fixpoint edits_ok (file : list str) (m : ApplyPatchFileUpdateMode) (pos : nat) (edits : list Step) : Prop :=
  match edits with
  | [] => True
  | s :: edits => step_ok file m pos s /\ edits_ok file m (pos + length (gap s) + length (old_block s)) edits
  end.

(** Chunks without old lines, whose context lines follow each other; their lines
    go to the end of the file. *)
Fixpoint additions_ok (file : list str) (m : ApplyPatchFileUpdateMode) (pos : nat) (additions : list Step) : Prop :=
  match additions with
  | [] => True
  | s :: additions =>
      old_lines (step_chunk s) = [] /\ sentinel s = false /\ insertion_index file m = length file
      /\ searched_from pos s (pos + length (gap s)) /\ additions_ok file m (pos + length (gap s)) additions
  end.

Lemma matches_at_here pre blk post : matches_at id (pre ++ blk ++ post) blk (length pre) = true.
Proof.
  unfold matches_at. rewrite drop_app_length. apply block_matches_spec. by exists post, blk.
Qed.

(** The exact occurrence is the one the search returns. *)
Lemma seek_exact file pre blk post from (eof : bool) m :
  file = pre ++ blk ++ post -> blk <> [] -> from <= length pre ->
  (if eof then post = [] else forall j, from <= j < length pre -> matches_at id file blk j = false) ->
  seek_sequence file blk from eof m = Some (Some (length pre)).
Proof.
  intros Hf Hne Hfrom Hno. rewrite seek_sequence_total. f_equal. apply seek_hit_iff; [done|].
  assert (length file = length pre + length blk + length post) as Hl by (rewrite Hf, !length_app; lia).
  assert (matches_at id file blk (length pre) = true) as Hm by (rewrite Hf; apply matches_at_here).
  split; [lia|]. exists [], id, [trim_end; trim; normalise]. unfold search_start.
  destruct eof.
  - subst post. simpl in Hl. rewrite (proj2 (Nat.leb_le _ _)) by lia. simpl.
    destruct m; split_and!; try done; try set_solver; try lia; intros j Hj; lia.
  - simpl. split_and!; [done|lia|lia|done|done|set_solver].
Qed.

Lemma matches_one_line file ctx j : matches_at id file [ctx] j = is_some_and (file !! j) (fun l => str_eqb l ctx).
Proof.
  unfold matches_at. destruct (file !! j) as [l|] eqn:E; [by rewrite (drop_S _ _ _ E); simpl; rewrite andb_true_r|].
  apply lookup_ge_None in E. by rewrite drop_ge.
Qed.

Lemma seek_one_line file pre before ctx behind post m :
  file = pre ++ (before ++ ctx :: behind) ++ post -> ctx ∉ before ->
  seek_sequence file [ctx] (length pre) false m = Some (Some (length pre + length before)).
Proof.
  intros Hf Hn. rewrite <- length_app.
  apply (seek_exact file (pre ++ before) [ctx] (behind ++ post)); [|done|rewrite length_app; lia|].
  { rewrite Hf, <- !app_assoc. done. }
  rewrite length_app. intros j Hj. rewrite matches_one_line, Hf.
  rewrite lookup_app_r, lookup_app_l, lookup_app_l by (rewrite ?length_app; simpl; lia).
  destruct (before !! (j - length pre)) as [l|] eqn:E; [|done]. simpl. apply str_eqb_false. intros ->.
  by apply Hn, (list_elem_of_lookup_2 _ _ _ E).
Qed.

Lemma after_context_step file path m pre s post from :
  file = pre ++ gap s ++ post -> searched_from (length pre) s from ->
  after_context file path m (step_chunk s) (length pre) = Some (Ok from) /\ from <= length pre + length (gap s).
Proof.
  intros Hf. unfold searched_from, after_context. destruct (change_context (step_chunk s)) as [ctx|].
  - intros (before & behind & Hg & Hn & ->). rewrite Hg in Hf |- *.
    rewrite (seek_one_line _ _ _ _ _ _ m Hf Hn). split; [done|]. rewrite length_app. simpl. lia.
  - intros ->. split; [done|lia].
Qed.

Lemma drop_last_prefix l : drop_last l `prefix_of` l.
Proof. exists (drop (length l - 1) l). unfold drop_last. by rewrite take_drop. Qed.

Lemma old_block_prefix s : old_block s `prefix_of` old_lines (step_chunk s).
Proof. unfold old_block. destruct (sentinel s); [apply drop_last_prefix|done]. Qed.
Lemma new_block_prefix s : new_block s `prefix_of` new_lines (step_chunk s).
Proof. unfold new_block. destruct (_ && _); [apply drop_last_prefix|done]. Qed.

Lemma prefix_lookup_eq (l1 l2 : list str) i : l1 `prefix_of` l2 -> i < length l1 -> l1 !! i = l2 !! i.
Proof. intros [k ->] Hi. by rewrite lookup_app_l. Qed.

Lemma locate_step file m pre s post from :
  file = pre ++ gap s ++ old_block s ++ post -> old_block s <> [] -> from <= length pre + length (gap s) ->
  (sentinel s = true -> last_is_empty (old_lines (step_chunk s)) = true
     /\ seek_sequence file (old_lines (step_chunk s)) from (is_end_of_file (step_chunk s)) m = Some None) ->
  (if is_end_of_file (step_chunk s) then post = []
   else forall j, from <= j < length pre + length (gap s) -> matches_at id file (old_block s) j = false) ->
  locate_chunk file (step_chunk s) from m = Some (Some (length pre + length (gap s)), old_block s, new_block s).
Proof.
  intros Hf Hne Hfrom Hsent Hno. unfold locate_chunk.
  assert (seek_sequence file (old_block s) from (is_end_of_file (step_chunk s)) m = Some (Some (length pre + length (gap s)))) as Hs.
  { rewrite <- length_app in *. apply (seek_exact _ _ _ post); [|done|done|done]. by rewrite <- app_assoc. }
  unfold old_block, new_block in *. destruct (sentinel s); simpl.
  - destruct (Hsent eq_refl) as [Hl ->]. simpl. rewrite Hl. unfold drop_last in Hs. rewrite Hs. done.
  - rewrite Hs. done.
Qed.

Lemma chunk_edits_step file path m pre s post :
  file = pre ++ gap s ++ old_block s ++ post -> step_ok file m (length pre) s ->
  exists rs, chunk_edits file path m (step_chunk s) (length pre)
      = Some (Ok (rs, length pre + length (gap s) + length (old_block s)))
    /\ disjoint_within (length pre + length (gap s)) rs (length pre + length (gap s) + length (old_block s))
    /\ splice (length pre + length (gap s)) rs (old_block s) = new_block s.
Proof.
  intros Hf (Hwf & Hne & from & Hfrom & Hsent & Hno). unfold chunk_edits.
  destruct (after_context_step file path m pre s (old_block s ++ post) from Hf Hfrom) as [-> Hle].
  assert (old_lines (step_chunk s) <> []) as Hol.
  { intros E. apply Hne. pose proof (old_block_prefix s) as Hp. rewrite E in Hp. by apply prefix_nil_inv in Hp. }
  rewrite (proj2 (is_nil_false _) Hol), (locate_step file m pre s post from Hf Hne Hle Hsent).
  2: { destruct (is_end_of_file (step_chunk s)); [|done]. rewrite Hf, !length_app in Hno. apply nil_length_inv. lia. }
  destruct m.
  - eexists. split; [done|]. simpl. split; [lia|].
    rewrite Nat.sub_diag. simpl. rewrite drop_ge by lia. by rewrite app_nil_r.
  - destruct (context_edits_disjoint (length pre + length (gap s)) (old_block s) (new_block s)
      (context_line_indices (step_chunk s)) 0 0) as (rs & Er & Hd); [by apply ctx_wf_pairs|lia..|].
    rewrite Er. eexists. split; [done|]. rewrite Nat.add_0_r in Hd. split; [done|].
    eapply (context_edits_splice (length pre + length (gap s)) _ _ _ 0 0) in Er;
      [|by apply ctx_wf_pairs|lia..|].
    + by rewrite Nat.add_0_r in Er.
    + destruct Hwf as [_ Hw]. eapply Forall_impl; [exact Hw|]. intros ij (l & E1 & E2) H1 H2.
      rewrite (prefix_lookup_eq _ _ _ (old_block_prefix s) H1), (prefix_lookup_eq _ _ _ (new_block_prefix s) H2). congruence.
Qed.

Definition added_lines (additions : list Step) : list str := concat (List.map (fun s => new_lines (step_chunk s)) additions).
Definition gaps (additions : list Step) (tail : list str) : list str := concat (List.map gap additions) ++ tail.

Lemma all_edits_additions file path m additions : forall pre tail,
  file = pre ++ gaps additions tail -> additions_ok file m (length pre) additions ->
  exists rs, all_edits file path m (List.map step_chunk additions) (length pre) = Some (Ok rs)
    /\ disjoint_within (length file) rs (length file) /\ splice (length file) rs [] = added_lines additions.
Proof.
  induction additions as [|s additions IH]; intros pre tail Hf Hok; cbn [List.map all_edits].
  - eexists. split; [done|]. split; [simpl; lia|done].
  - destruct Hok as (Hnil & _ & Hins & Hfrom & Hok). unfold chunk_edits. unfold gaps in Hf. simpl in Hf. rewrite <- app_assoc in Hf.
    destruct (after_context_step file path m pre s _ _ Hf Hfrom) as [-> _]. rewrite Hnil. simpl. rewrite Hins.
    rewrite <- length_app in Hok |- *. rewrite app_assoc in Hf.
    destruct (IH (pre ++ gap s) tail Hf Hok) as (rs & -> & Hd & Hs). eexists. split; [done|]. simpl.
    rewrite Nat.add_0_r, Nat.sub_diag. simpl. split; [done|]. unfold added_lines in *. simpl. by rewrite Hs.
Qed.

Lemma splice_behind pos rs (l : list str) e : disjoint_within (pos + length l) rs e -> splice pos rs l = l ++ splice (pos + length l) rs [].
Proof. intros H. rewrite <- (app_nil_r l) at 1. by eapply splice_prefix. Qed.

Lemma all_edits_script file path m additions tail edits : forall pre,
  file = pre ++ script_old edits (gaps additions tail) -> edits_ok file m (length pre) edits ->
  additions_ok file m (length (pre ++ script_old edits [])) additions ->
  exists rs, all_edits file path m (List.map step_chunk (edits ++ additions)) (length pre) = Some (Ok rs)
    /\ disjoint_within (length pre) rs (length file)
    /\ splice (length pre) rs (script_old edits (gaps additions tail)) = script_new edits (gaps additions tail) ++ added_lines additions.
Proof.
  induction edits as [|s edits IH]; intros pre Hf Hok Hadd; cbn [script_old script_new app] in *.
  - rewrite app_nil_r in Hadd. destruct (all_edits_additions file path m additions pre tail Hf Hadd) as (rs & -> & Hd & Hs).
    assert (length file = length pre + length (gaps additions tail)) as Hl by (by rewrite Hf, length_app).
    eexists. split; [done|]. split; [eapply disjoint_within_start; [|exact Hd]; lia|].
    rewrite Hl in Hd, Hs. rewrite (splice_behind _ _ _ _ Hd). by rewrite Hs.
  - destruct Hok as [Hs Hok]. cbn [List.map all_edits].
    destruct (chunk_edits_step file path m pre s (script_old edits (gaps additions tail)) Hf Hs) as (rs1 & -> & Hd1 & Hs1).
    destruct (IH (pre ++ gap s ++ old_block s)) as (rs2 & E2 & Hd2 & Hs2).
    { by rewrite <- !app_assoc. } { by rewrite !length_app, Nat.add_assoc. } { by rewrite <- !app_assoc. }
    rewrite !length_app, Nat.add_assoc in E2, Hd2, Hs2. rewrite E2. eexists. split; [done|].
    assert (disjoint_within (length pre + length (gap s)) (rs1 ++ rs2) (length file)) as Hd by (by eapply disjoint_within_app).
    split; [eapply disjoint_within_start; [|exact Hd]; lia|].
    erewrite splice_prefix by exact Hd. rewrite <- !app_assoc. f_equal.
    unfold Replacement in *. erewrite splice_blocks by eassumption. by rewrite Hs1, Hs2.
Qed.


(** ** Witnesses *)

(** Replace the second of two lines after a context line. *)
Definition demo_chunk : UpdateFileChunk := mkChunk None [lit "one"; lit "two"] [lit "one"; lit "2"] [(0, 0)] false.

Lemma demo_chunk_wf : ctx_wf demo_chunk.
Proof.
  split; [apply SSorted_cons; constructor|]. apply Forall_singleton. exists (lit "one"). split; reflexivity.
Defined.

Lemma compute_replacements_preserve_safe_witness :
  exists rs, compute_replacements [lit "zero"; lit "one"; lit "two"] (lit "f") [demo_chunk] PreserveLineEndings = Some (Ok rs)
    /\ disjoint_within 0 rs 3.
Proof.
  destruct (compute_replacements_preserve_safe [lit "zero"; lit "one"; lit "two"] (lit "f") [demo_chunk])
    as [[e E]|(rs & E & Hd)].
  - apply Forall_singleton, demo_chunk_wf.
  - exfalso. vm_compute in E. discriminate E.
  - exists rs. split; [exact E|exact Hd].
Defined.

Lemma apply_replacements_splice_witness :
  apply_replacements [lit "a"; lit "b"; lit "c"] [(1, 1, [lit "B"])] = Some [lit "a"; lit "B"; lit "c"].
Proof. rewrite (apply_replacements_splice [(1, 1, [lit "B"])]); [reflexivity|vm_compute; lia]. Defined.

Lemma derive_new_contents_total_witness :
  exists r, derive_new_contents (lit "one" ++ [LF] ++ lit "two") (lit "f") [demo_chunk] NormalizeToLf = Some r.
Proof. apply (derive_new_contents_total _ _ [demo_chunk]). apply Forall_singleton, demo_chunk_wf. Defined.

(** A chunk with a context line, one anchored at the end of the file whose old
    lines end in the sentinel, and an addition. *)
Definition context_step : Step :=
  mkStep [lit "zero"; lit "fn"] (mkChunk (Some (lit "fn")) [lit "one"; lit "two"] [lit "one"; lit "2"] [(0, 0)] false) false.
Definition end_step : Step := mkStep [] (mkChunk None [lit "end"; []] [lit "END"; []] [] true) true.
Definition added_step : Step := mkStep [] (mkChunk None [] [lit "more"] [] false) false.

