(* ===== verification/ApplyPatch.v ===== *)
(** * Applying a parsed patch to a file system

    Models [codex-rs/apply-patch/src/lib.rs]: [apply_hunks_to_files] with its
    helpers, the committed-change delta, and the entry points that print a
    summary.  The file system is the trait object [ExecutorFileSystem] of
    [codex-rs/file-system]; here it is a type class over an abstract state, the
    sandbox argument being part of the instance.  Path URIs are an abstract type
    with [join] and [parent].  Reads do not change the state; writes return the
    new state with their result, because a failing write may still have changed
    it.  [anyhow::Error] keeps what [to_string] and [downcast_ref] need. *)

From stdpp Require Import base list numbers option strings gmap.
From Stdlib Require Import Lia.
From S2P Require Import Prelude RustStr PatchParser SeekSequence FileUpdate.

(** ** Errors and options *)

Inductive ErrorKind := NotFound | InvalidInput | OtherKind (code : nat).

Record io_error := mkIoError { kind : ErrorKind; io_message : str }.

Inductive PathUriParseError :=
| InvalidUri (message : str)
| UnsupportedScheme (scheme : str)
| InvalidFileUriPath (path : str)
| CredentialsNotAllowed
| PortNotAllowed
| QueryNotAllowed
| FragmentNotAllowed
| JoinPathMustBeDescendant (path : str).

Inductive ApplyPatchError :=
| ParseErr (e : ParseError)
| IoErr (context : str) (source : io_error)
| ComputeReplacements (message : str)
| PathUriErr (e : PathUriParseError)
| ImplicitInvocation.

(** [anyhow::Error]: an I/O error with the context attached to it, an
    [ApplyPatchError], a path error, or a plain message ([bail!]). *)
Inductive anyhow_error :=
| AnyIo (context : option str) (source : io_error)
| AnyApply (e : ApplyPatchError)
| AnyPath (e : PathUriParseError)
| AnyMessage (message : str).

Record FileMetadata := mkMeta { is_directory : bool; is_file : bool; is_symlink : bool }.

Record ApplyPatchOptions := mkOptions {
  update_file_mode : ApplyPatchFileUpdateMode;
  follow_symlinks : bool;
}.

Definition default_options : ApplyPatchOptions := mkOptions NormalizeToLf true.

(** A call that returns, fails or panics. *)
Inductive outcome (A E : Type) := Returned (a : A) | Raised (e : E) | Panicked.
Arguments Returned {A E} _.
Arguments Raised {A E} _.
Arguments Panicked {A E}.

(** ** Interfaces *)

Class PathUriOps (PathUri : Type) := {
  join_path : PathUri -> str -> result PathUri PathUriParseError;
  parent : PathUri -> option PathUri;
  native_path_string : PathUri -> str;
}.

Class ExecutorFileSystem (FS PathUri : Type) := {
  read_file_text : FS -> PathUri -> bool -> result str io_error;
  get_metadata : FS -> PathUri -> bool -> result FileMetadata io_error;
  write_file : FS -> PathUri -> str -> bool -> FS * result unit io_error;
  (** [CreateDirectoryOptions { recursive, follow_symlinks }]. *)
  create_directory : FS -> PathUri -> bool -> bool -> FS * result unit io_error;
  (** [RemoveOptions { recursive: false, force: false, follow_symlinks }]. *)
  remove : FS -> PathUri -> bool -> FS * result unit io_error;
}.

(** ** The delta of committed changes *)

Inductive AppliedPatchFileChange (PathUri : Type) :=
| ChangeAdd (content : str) (overwritten_content : option str)
| ChangeDelete (content : str)
| ChangeUpdate (move_path : option PathUri) (old_content : str)
    (overwritten_move_content : option str) (new_content : str).
Arguments ChangeAdd {PathUri} _ _.
Arguments ChangeDelete {PathUri} _.
Arguments ChangeUpdate {PathUri} _ _ _ _.

Record AppliedPatchChange (PathUri : Type) := mkChange {
  change_path : PathUri;
  change : AppliedPatchFileChange PathUri;
}.
Arguments mkChange {PathUri} _ _.
Arguments change_path {PathUri} _.
Arguments change {PathUri} _.

Record AppliedPatchDelta (PathUri : Type) := mkDelta {
  changes : list (AppliedPatchChange PathUri);
  exact : bool;
}.
Arguments mkDelta {PathUri} _ _.
Arguments changes {PathUri} _.
Arguments exact {PathUri} _.

Definition empty_delta {PathUri} : AppliedPatchDelta PathUri := mkDelta [] true.

(** [AppliedPatchDelta::append]. *)
Definition append {PathUri} (d other : AppliedPatchDelta PathUri) : AppliedPatchDelta PathUri :=
  mkDelta (changes d ++ changes other) (exact d && exact other).

Definition push_change {PathUri} (d : AppliedPatchDelta PathUri) (c : AppliedPatchChange PathUri) :=
  mkDelta (changes d ++ [c]) (exact d).

Definition inexact {PathUri} (d : AppliedPatchDelta PathUri) := mkDelta (changes d) false.

(** [delta.exact &= b]. *)
Definition and_exact {PathUri} (d : AppliedPatchDelta PathUri) (b : bool) :=
  mkDelta (changes d) (exact d && b).

Record AffectedPaths := mkAffected { added : list str; modified : list str; deleted : list str }.

Section ApplyHunks.
  Context {FS PathUri : Type} `{!PathUriOps PathUri, !ExecutorFileSystem FS PathUri}.

(** [Hunk::resolve_path]. *)
Definition resolve_path (h : Hunk) (cwd : PathUri) : result PathUri PathUriParseError :=
  join_path cwd (hunk_source_path h).

(** [ensure_not_directory]. *)
Definition ensure_not_directory (fs : FS) (path : PathUri) (follow : bool) : result unit io_error :=
  let? m := get_metadata fs path follow in
  if is_directory m then Err (mkIoError InvalidInput (lit "path is a directory")) else Ok tt.

Definition remove_failure_was_side_effect_free (fs : FS) (path : PathUri)
    (expected_content : option str) (follow : bool) : bool :=
  match expected_content with
  | Some expected =>
      match read_file_text fs path follow with
      | Ok content => str_eqb content expected
      | Err _ => false
      end
  | None => false
  end.

(** The new value of [exact]. *)
Definition note_existing_path_delta_support (fs : FS) (path : PathUri) (follow : bool) (ex : bool) : bool :=
  match get_metadata fs path follow with
  | Ok m => if is_file m && negb (is_symlink m) then ex else false
  | Err e => match kind e with NotFound => ex | _ => false end
  end.

Definition read_optional_file_text_for_delta (fs : FS) (path : PathUri) (follow : bool) (ex : bool)
  : option str * bool :=
  let ex := note_existing_path_delta_support fs path follow ex in
  match read_file_text fs path follow with
  | Ok content => (Some content, ex)
  | Err e => match kind e with NotFound => (None, ex) | _ => (None, false) end
  end.

Definition with_context {A} (ctx : str) (r : result A io_error) : result A anyhow_error :=
  map_err (AnyIo (Some ctx)) r.

Definition write_file_with_missing_parent_retry (fs : FS) (path : PathUri) (contents : str) (follow : bool)
  : FS * result unit anyhow_error :=
  match write_file fs path contents follow with
  | (fs1, Ok _) => (fs1, Ok tt)
  | (fs1, Err e) =>
      match kind e with
      | NotFound =>
          let '(fs2, r) :=
            match parent path with
            | Some par =>
                let '(fs2, r) := create_directory fs1 par true follow in
                (fs2, with_context (lit "Failed to create parent directories for "
                                    ++ native_path_string path) r)
            | None => (fs1, Ok tt)
            end in
          match r with
          | Err err => (fs2, Err err)
          | Ok _ =>
              let '(fs3, r3) := write_file fs2 path contents follow in
              (fs3, with_context (lit "Failed to write file " ++ native_path_string path) r3)
          end
      | _ => (fs1, with_context (lit "Failed to write file " ++ native_path_string path) (Err e))
      end
  end.

(** [derive_new_contents_from_chunks]: read, then compute. *)
Definition derive_new_contents_from_chunks (fs : FS) (path : PathUri) (chunks : list UpdateFileChunk)
    (m : ApplyPatchFileUpdateMode) (follow : bool) : outcome (str * str) ApplyPatchError :=
  match read_file_text fs path follow with
  | Err e => Raised (IoErr (lit "Failed to read file to update " ++ native_path_string path) e)
  | Ok original =>
      match derive_new_contents original (native_path_string path) chunks m with
      | None => Panicked
      | Some (Err msg) => Raised (ComputeReplacements msg)
      | Some (Ok new) => Returned (original, new)
      end
  end.

Definition step_result : Type := FS * AppliedPatchDelta PathUri * outcome unit anyhow_error.

(** [Hunk::AddFile]. *)
Definition apply_add (fs : FS) (d : AppliedPatchDelta PathUri) (path_uri : PathUri) (contents : str)
    (follow : bool) : step_result :=
  let '(overwritten, ex) := read_optional_file_text_for_delta fs path_uri follow (exact d) in
  let d := mkDelta (changes d) ex in
  match write_file_with_missing_parent_retry fs path_uri contents follow with
  | (fs', Err e) => (fs', inexact d, Raised e)
  | (fs', Ok _) => (fs', push_change d (mkChange path_uri (ChangeAdd contents overwritten)), Returned tt)
  end.

(** [Hunk::DeleteFile]. *)
Definition apply_delete (fs : FS) (d : AppliedPatchDelta PathUri) (path_uri : PathUri) (follow : bool)
  : step_result :=
  let ex := note_existing_path_delta_support fs path_uri follow (exact d) in
  let deleted_content := match read_file_text fs path_uri follow with Ok c => Some c | Err _ => None end in
  let d := mkDelta (changes d) (if is_none deleted_content then false else ex) in
  let ctx := lit "Failed to delete file " ++ native_path_string path_uri in
  match with_context ctx (ensure_not_directory fs path_uri follow) with
  | Err e => (fs, d, Raised e)
  | Ok _ =>
      match remove fs path_uri follow with
      | (fs', Err e) =>
          (fs', and_exact d (remove_failure_was_side_effect_free fs' path_uri deleted_content follow),
           Raised (AnyIo (Some ctx) e))
      | (fs', Ok _) =>
          (fs', match deleted_content with
                | Some content => push_change d (mkChange path_uri (ChangeDelete content))
                | None => d
                end, Returned tt)
      end
  end.

(** The [move_path] branch of [Hunk::UpdateFile], after the new contents are known. *)
Definition apply_move (fs : FS) (d : AppliedPatchDelta PathUri) (path_uri dest_uri : PathUri)
    (original new : str) (follow : bool) : step_result :=
  let '(overwritten, ex) := read_optional_file_text_for_delta fs dest_uri follow (exact d) in
  let d := mkDelta (changes d) ex in
  match write_file_with_missing_parent_retry fs dest_uri new follow with
  | (fs1, Err e) => (fs1, inexact d, Raised e)
  | (fs1, Ok _) =>
      let d1 := push_change d (mkChange dest_uri (ChangeAdd new overwritten)) in
      let ctx := lit "Failed to remove original " ++ native_path_string path_uri in
      match with_context ctx (ensure_not_directory fs1 path_uri follow) with
      | Err e => (fs1, d1, Raised e)
      | Ok _ =>
          match remove fs1 path_uri follow with
          | (fs2, Err e) =>
              (fs2, and_exact d1 (remove_failure_was_side_effect_free fs2 path_uri (Some original) follow),
               Raised (AnyIo (Some ctx) e))
          | (fs2, Ok _) =>
              (fs2, push_change d (mkChange path_uri (ChangeUpdate (Some dest_uri) original overwritten new)),
               Returned tt)
          end
      end
  end.

(** [Hunk::UpdateFile]. *)
Definition apply_update (fs : FS) (d : AppliedPatchDelta PathUri) (cwd path_uri : PathUri)
    (move_path : option str) (chunks : list UpdateFileChunk) (m : ApplyPatchFileUpdateMode)
    (follow : bool) : step_result :=
  let d := mkDelta (changes d) (note_existing_path_delta_support fs path_uri follow (exact d)) in
  match derive_new_contents_from_chunks fs path_uri chunks m follow with
  | Panicked => (fs, d, Panicked)
  | Raised e => (fs, d, Raised (AnyApply e))
  | Returned (original, new) =>
      match move_path with
      | Some dest =>
          match join_path cwd dest with
          | Err e => (fs, d, Raised (AnyPath e))
          | Ok dest_uri => apply_move fs d path_uri dest_uri original new follow
          end
      | None =>
          match write_file fs path_uri new follow with
          | (fs', Err e) =>
              (fs', inexact d,
               Raised (AnyIo (Some (lit "Failed to write file " ++ native_path_string path_uri)) e))
          | (fs', Ok _) =>
              (fs', push_change d (mkChange path_uri (ChangeUpdate None original None new)), Returned tt)
          end
      end
  end.

(** One iteration of the loop over [hunks]. *)
Definition apply_hunk (fs : FS) (d : AppliedPatchDelta PathUri) (o : ApplyPatchOptions)
    (cwd : PathUri) (h : Hunk) : step_result :=
  match resolve_path h cwd with
  | Err e => (fs, d, Raised (AnyPath e))
  | Ok path_uri =>
      match h with
      | AddFile _ contents => apply_add fs d path_uri contents (follow_symlinks o)
      | DeleteFile _ => apply_delete fs d path_uri (follow_symlinks o)
      | UpdateFile _ mv chunks =>
          apply_update fs d cwd path_uri mv chunks (update_file_mode o) (follow_symlinks o)
      end
  end.

Definition note_affected (a : AffectedPaths) (h : Hunk) : AffectedPaths :=
  match h with
  | AddFile _ _ => mkAffected (added a ++ [hunk_path h]) (modified a) (deleted a)
  | DeleteFile _ => mkAffected (added a) (modified a) (deleted a ++ [hunk_path h])
  | UpdateFile _ _ _ => mkAffected (added a) (modified a ++ [hunk_path h]) (deleted a)
  end.

Fixpoint apply_loop (fs : FS) (d : AppliedPatchDelta PathUri) (o : ApplyPatchOptions) (cwd : PathUri)
    (hs : list Hunk) (a : AffectedPaths)
  : FS * AppliedPatchDelta PathUri * outcome AffectedPaths anyhow_error :=
  match hs with
  | [] => (fs, d, Returned a)
  | h :: hs' =>
      match apply_hunk fs d o cwd h with
      | (fs', d', Returned _) => apply_loop fs' d' o cwd hs' (note_affected a h)
      | (fs', d', Raised e) => (fs', d', Raised e)
      | (fs', d', Panicked) => (fs', d', Panicked)
      end
  end.

Definition apply_hunks_to_files (fs : FS) (d : AppliedPatchDelta PathUri) (o : ApplyPatchOptions)
    (cwd : PathUri) (hs : list Hunk)
  : FS * AppliedPatchDelta PathUri * outcome AffectedPaths anyhow_error :=
  if is_nil hs then (fs, d, Raised (AnyMessage (lit "No files were modified.")))
  else apply_loop fs d o cwd hs (mkAffected [] [] []).

(** ** Entry points *)

(** [print_summary]: the lines written to [out]. *)
Definition print_summary (a : AffectedPaths) : list str :=
  lit "Success. Updated the following files:"
  :: List.map (app (lit "A ")) (added a)
  ++ List.map (app (lit "M ")) (modified a)
  ++ List.map (app (lit "D ")) (deleted a).

Section Streams.
  (** Display of the foreign error types ([error.to_string()]), and whether the
      output streams accept a write. *)
  Context (show_io : io_error -> str) (show_path_error : PathUriParseError -> str)
          (show_parse_error : ParseError -> str) (write_error : io_error)
          (stdout_ok stderr_ok : bool).

Definition show_apply_error (e : ApplyPatchError) : str :=
  match e with
  | ParseErr e => show_parse_error e
  | IoErr context source => context ++ lit ": " ++ show_io source
  | ComputeReplacements message => message
  | PathUriErr e => show_path_error e
  | ImplicitInvocation =>
      lit "patch detected without explicit call to apply_patch. Rerun as [" ++ [34%N]
      ++ lit "apply_patch" ++ [34%N] ++ lit ", " ++ [34%N] ++ lit "<patch>" ++ [34%N] ++ lit "]"
  end.

(** [anyhow::Error::to_string]: the outermost context. *)
Definition anyhow_to_string (e : anyhow_error) : str :=
  match e with
  | AnyIo (Some ctx) _ => ctx
  | AnyIo None source => show_io source
  | AnyApply e => show_apply_error e
  | AnyPath e => show_path_error e
  | AnyMessage m => m
  end.

(** [ApplyPatchError::from(&io::Error)]. *)
Definition from_io (e : io_error) : ApplyPatchError := IoErr (lit "I/O error") e.

(** The error stored in [ApplyPatchFailure]: [downcast_ref::<io::Error>] sees
    through contexts; everything else is wrapped by [io::Error::other]. *)
Definition failure_error (e : anyhow_error) : ApplyPatchError :=
  match e with
  | AnyIo _ source => from_io source
  | _ => IoErr (anyhow_to_string e) (mkIoError (OtherKind 0) (anyhow_to_string e))
  end.

Record run_output := mkOutput {
  out_fs : FS;
  out_stdout : list str;
  out_stderr : list str;
  out_result : outcome (AppliedPatchDelta PathUri) (ApplyPatchError * AppliedPatchDelta PathUri);
}.

Definition apply_hunks_with_options (fs : FS) (hs : list Hunk) (o : ApplyPatchOptions) (cwd : PathUri)
  : run_output :=
  match apply_hunks_to_files fs empty_delta o cwd hs with
  | (fs', d, Returned a) =>
      if stdout_ok then mkOutput fs' (print_summary a) [] (Returned d)
      else mkOutput fs' [] [] (Raised (from_io write_error, d))
  | (fs', d, Raised e) =>
      if stderr_ok then mkOutput fs' [] [anyhow_to_string e] (Raised (failure_error e, d))
      else mkOutput fs' [] [] (Raised (from_io write_error, d))
  | (fs', d, Panicked) => mkOutput fs' [] [] Panicked
  end.

Definition parse_error_line (e : ParseError) : str :=
  match e with
  | InvalidPatchError message => lit "Invalid patch: " ++ message
  | InvalidHunkError message n => lit "Invalid patch hunk on line " ++ show_nat n ++ lit ": " ++ message
  end.

Definition apply_patch_with_options (fs : FS) (text : str) (o : ApplyPatchOptions) (cwd : PathUri)
  : run_output :=
  match parse_patch text with
  | Ok args => apply_hunks_with_options fs (args_hunks args) o cwd
  | Err e =>
      if stderr_ok then mkOutput fs [] [parse_error_line e] (Raised (ParseErr e, empty_delta))
      else mkOutput fs [] [] (Raised (from_io write_error, empty_delta))
  end.

Definition apply_patch (fs : FS) (text : str) (cwd : PathUri) : run_output :=
  apply_patch_with_options fs text default_options cwd.

Definition apply_hunks (fs : FS) (hs : list Hunk) (cwd : PathUri) : run_output :=
  apply_hunks_with_options fs hs default_options cwd.
End Streams.
End ApplyHunks.

(** ** What a file system promises *)

(** What is at a place of a file system: a regular file with its text, or a
    symbolic link with the path it points to. *)
Inductive Entry (PathUri : Type) := TextFile (text : str) | SymbolicLink (to : PathUri).
Arguments TextFile {PathUri} _.
Arguments SymbolicLink {PathUri} _.

Definition link_of {PathUri} (e : Entry PathUri) : option PathUri :=
  match e with SymbolicLink to => Some to | TextFile _ => None end.

(** [view fs] is the entry at each place of the file system, a place being a
    canonical path.  How a path is resolved depends on the symbolic links only:
    [place_in L p] is the place of the directory entry that [p] names, the links
    on the way to it followed; [target_in L p] is where the path leads when the
    entry itself is followed too, which for a dangling link is where a write
    would create the file.  The laws hold with and without [follow_symlinks]
    (without it, the operations fail on a path with a link in it).  A regular
    file has one place: there are no hard links. *)
Class LawfulFileSystem (FS PathUri : Type) `{!EqDecision PathUri, !Countable PathUri,
    !ExecutorFileSystem FS PathUri} := {
  view : FS -> gmap PathUri (Entry PathUri);
  place_in : gmap PathUri PathUri -> PathUri -> PathUri;
  target_in : gmap PathUri PathUri -> PathUri -> PathUri;
  target_plain : forall L p, L !! place_in L p = None -> target_in L p = place_in L p;
  (** Reading follows links. *)
  read_ok : forall fs p f c, read_file_text fs p f = Ok c ->
    view fs !! target_in (omap link_of (view fs)) p = Some (TextFile c);
  read_not_found : forall fs p f e, read_file_text fs p f = Err e -> kind e = NotFound ->
    view fs !! target_in (omap link_of (view fs)) p = None;
  (** The metadata is the target's, and says whether the entry is a link. *)
  metadata_plain : forall fs p f m, get_metadata fs p f = Ok m -> is_symlink m = false ->
    omap link_of (view fs) !! place_in (omap link_of (view fs)) p = None;
  metadata_not_found : forall fs p f e, get_metadata fs p f = Err e -> kind e = NotFound ->
    view fs !! target_in (omap link_of (view fs)) p = None;
  (** Writing follows links, and neither makes nor removes one. *)
  write_ok : forall fs p c f fs', write_file fs p c f = (fs', Ok tt) ->
    view fs' = <[target_in (omap link_of (view fs)) p := TextFile c]> (view fs);
  write_other : forall fs p c f fs' r q, write_file fs p c f = (fs', r) ->
    q <> target_in (omap link_of (view fs)) p -> view fs' !! q = view fs !! q;
  write_links : forall fs p c f fs' r, write_file fs p c f = (fs', r) ->
    omap link_of (view fs') = omap link_of (view fs);
  (** [NotFound] is reported before anything is written. *)
  write_not_found : forall fs p c f fs' e,
    write_file fs p c f = (fs', Err e) -> kind e = NotFound -> view fs' = view fs;
  create_view : forall fs p r f fs' x, create_directory fs p r f = (fs', x) -> view fs' = view fs;
  (** Removing acts on the entry itself, link or file. *)
  remove_ok : forall fs p f fs', remove fs p f = (fs', Ok tt) ->
    view fs' = delete (place_in (omap link_of (view fs)) p) (view fs);
  remove_other : forall fs p f fs' r q, remove fs p f = (fs', r) ->
    q <> place_in (omap link_of (view fs)) p -> view fs' !! q = view fs !! q;
  (** A failed removal left the entry as it was or took it away. *)
  remove_err : forall fs p f fs' e, remove fs p f = (fs', Err e) ->
    view fs' !! place_in (omap link_of (view fs)) p = view fs !! place_in (omap link_of (view fs)) p
    \/ view fs' !! place_in (omap link_of (view fs)) p = None;
}.

(** ** Replaying and reverting a delta *)

Section Delta.
  Context {PathUri : Type} `{!EqDecision PathUri, !Countable PathUri}.
  (** Where the paths of the delta lead. *)
  Variable at_place : PathUri -> PathUri.
  Implicit Types (m : gmap PathUri (Entry PathUri)).

Definition restore (p : PathUri) (o : option str) m : gmap PathUri (Entry PathUri) :=
  match o with Some c => <[p := TextFile c]> m | None => delete p m end.

Definition redo_change m (c : AppliedPatchChange PathUri) : gmap PathUri (Entry PathUri) :=
  match change c with
  | ChangeAdd content _ => <[at_place (change_path c) := TextFile content]> m
  | ChangeDelete _ => delete (at_place (change_path c)) m
  | ChangeUpdate None _ _ new => <[at_place (change_path c) := TextFile new]> m
  | ChangeUpdate (Some dest) _ _ new => delete (at_place (change_path c)) (<[at_place dest := TextFile new]> m)
  end.

Definition undo_change (c : AppliedPatchChange PathUri) m : gmap PathUri (Entry PathUri) :=
  match change c with
  | ChangeAdd _ overwritten => restore (at_place (change_path c)) overwritten m
  | ChangeDelete content => <[at_place (change_path c) := TextFile content]> m
  | ChangeUpdate None old _ _ => <[at_place (change_path c) := TextFile old]> m
  | ChangeUpdate (Some dest) old overwritten _ =>
      <[at_place (change_path c) := TextFile old]> (restore (at_place dest) overwritten m)
  end.

Definition redo (cs : list (AppliedPatchChange PathUri)) m := fold_left redo_change cs m.
Definition undo (cs : list (AppliedPatchChange PathUri)) m := fold_right undo_change m cs.

Lemma redo_snoc cs c m : redo (cs ++ [c]) m = redo_change (redo cs m) c.
Proof. unfold redo. by rewrite fold_left_app. Qed.

Lemma undo_snoc cs c m : undo (cs ++ [c]) m = undo cs (undo_change c m).
Proof. unfold undo. by rewrite fold_right_app. Qed.

Lemma restore_insert p o c m : m !! p = TextFile <$> o -> restore p o (<[p := TextFile c]> m) = m.
Proof.
  intros H. apply map_eq. intros q. destruct o as [x|]; simpl in *; destruct (decide (p = q)) as [<-|Hne];
    by simplify_map_eq.
Qed.

Lemma insert_delete_back p c m : m !! p = Some (TextFile c) -> <[p := TextFile c]> (delete p m) = m.
Proof. intros H. rewrite insert_delete_eq. by apply insert_id. Qed.
End Delta.

Section Correctness.
  Context {FS PathUri : Type} `{!EqDecision PathUri, !Countable PathUri,
    !PathUriOps PathUri, !ExecutorFileSystem FS PathUri, !LawfulFileSystem FS PathUri}.

(** The symbolic links of a file system, and how it resolves a path. *)
Definition links (fs : FS) : gmap PathUri PathUri := omap link_of (view fs).
Definition place (fs : FS) (p : PathUri) : PathUri := place_in (links fs) p.
Definition target (fs : FS) (p : PathUri) : PathUri := target_in (links fs) p.

(** The path names no symbolic link. *)
Definition plain (fs : FS) (p : PathUri) : Prop := links fs !! place fs p = None.

Lemma plain_target fs p : plain fs p -> target fs p = place fs p.
Proof. apply target_plain. Qed.

Lemma links_eq fs fs' : view fs' = view fs -> links fs' = links fs.
Proof. unfold links. by intros ->. Qed.

Lemma same_links fs fs' p : links fs' = links fs ->
  place fs' p = place fs p /\ target fs' p = target fs p /\ (plain fs' p <-> plain fs p).
Proof. unfold plain, place, target. by intros ->. Qed.

Lemma write_keeps_links fs p c f fs' r : write_file fs p c f = (fs', r) -> links fs' = links fs.
Proof. apply write_links. Qed.

(** Removing a file leaves the links alone; removing a link takes only that away. *)
Lemma remove_lookup fs p f fs' r q : remove fs p f = (fs', r) -> view fs' !! q = view fs !! q \/ q = place fs p /\ view fs' !! q = None.
Proof.
  intros E. destruct (decide (q = place fs p)) as [-> | Hq]; [|left; by eapply remove_other].
  destruct r as [[]|e]; [|destruct (remove_err _ _ _ _ _ E); auto].
  apply remove_ok in E. right. split; [done|]. rewrite E. apply lookup_delete_eq.
Qed.

Lemma remove_links fs p f fs' r : remove fs p f = (fs', r) -> links fs' ⊆ links fs.
Proof.
  intros E. apply map_subseteq_spec. intros q l. unfold links. rewrite !lookup_omap.
  destruct (remove_lookup _ _ _ _ _ q E) as [->|[_ ->]]; done.
Qed.

Lemma remove_keeps_links fs p f fs' r : remove fs p f = (fs', r) -> plain fs p -> links fs' = links fs.
Proof.
  intros E Hp. apply map_eq. intros q. unfold plain, links in *.
  destruct (remove_lookup _ _ _ _ _ q E) as [Hq|[-> Hq]]; [by rewrite !lookup_omap, Hq|].
  rewrite Hp. by rewrite lookup_omap, Hq.
Qed.

(** A committed delta that is still exact describes all of the difference
    between the initial and the current entries, in both directions, and the
    links are those of the start. *)
Definition delta_tracks (fs0 fs : FS) (d : AppliedPatchDelta PathUri) : Prop :=
  exact d = true ->
  links fs = links fs0
  /\ redo (target fs0) (changes d) (view fs0) = view fs /\ undo (target fs0) (changes d) (view fs) = view fs0.

Lemma tracks_weaken fs0 fs d (b : bool) :
  delta_tracks fs0 fs d -> (b = true -> exact d = true) -> delta_tracks fs0 fs (mkDelta (changes d) b).
Proof. intros H Hb He. apply H. auto. Qed.

Lemma tracks_inexact fs0 fs d : delta_tracks fs0 fs (inexact d).
Proof. done. Qed.

Lemma tracks_same fs0 fs fs' d : delta_tracks fs0 fs d -> (exact d = true -> view fs' = view fs) -> delta_tracks fs0 fs' d.
Proof. intros H Hv He. specialize (Hv He). rewrite (links_eq _ _ Hv), Hv. by apply H. Qed.

Lemma target_eq fs0 fs : links fs = links fs0 -> forall p, target fs0 p = target fs p.
Proof. unfold target. by intros ->. Qed.

Lemma tracks_push fs0 fs fs' d c :
  delta_tracks fs0 fs d ->
  (exact d = true -> links fs' = links fs
     /\ redo_change (target fs) (view fs) c = view fs' /\ undo_change (target fs) c (view fs') = view fs) ->
  delta_tracks fs0 fs' (push_change d c).
Proof.
  intros H Hc He. simpl in *. destruct (H He) as (H0 & H1 & H2), (Hc He) as (H5 & H3 & H4).
  rewrite redo_snoc, undo_snoc, H1. unfold target in *. rewrite H0 in H3, H4. by rewrite H3, H4, H5.
Qed.

(** An exact delta was noted for no link. *)
Lemma note_existing_true fs p f ex :
  note_existing_path_delta_support fs p f ex = true -> ex = true /\ (plain fs p \/ view fs !! target fs p = None).
Proof.
  unfold note_existing_path_delta_support. destruct (get_metadata fs p f) as [m|e] eqn:E.
  - destruct (is_file m); [|done]. destruct (is_symlink m) eqn:Es; [done|]. simpl. intros ->. split; [done|].
    left. by eapply metadata_plain.
  - destruct (kind e) eqn:Ek; [|done..]. intros ->. split; [done|]. right. by eapply metadata_not_found.
Qed.

Lemma read_optional_true fs p f ex o :
  read_optional_file_text_for_delta fs p f ex = (o, true) -> ex = true /\ view fs !! target fs p = TextFile <$> o.
Proof.
  unfold read_optional_file_text_for_delta. destruct (read_file_text fs p f) as [c|e] eqn:E.
  - intros [= <- [H _]%note_existing_true]. split; [done|]. by eapply read_ok.
  - destruct (kind e) eqn:Ek; intros [= <- H]; try done. apply note_existing_true in H as [H _].
    split; [done|]. by eapply read_not_found.
Qed.

(** Writing, with the retry, follows the links and changes at most one entry. *)
Lemma write_retry_links fs p c f fs' r :
  write_file_with_missing_parent_retry fs p c f = (fs', r) -> links fs' = links fs.
Proof.
  unfold write_file_with_missing_parent_retry. intros H.
  destruct (write_file fs p c f) as [fs1 [[]|e]] eqn:E1; apply write_keeps_links in E1.
  { by injection H as <- _. }
  destruct (kind e) eqn:Ek; [|by injection H as <- _..].
  destruct (parent p) as [par|].
  - destruct (create_directory fs1 par true f) as [fs2 [[]|e2]] eqn:E2; simpl in H; apply create_view, links_eq in E2.
    + destruct (write_file fs2 p c f) as [fs3 r3] eqn:E3. injection H as <- _.
      apply write_keeps_links in E3. congruence.
    + injection H as <- _. congruence.
  - destruct (write_file fs1 p c f) as [fs3 r3] eqn:E3. injection H as <- _.
    apply write_keeps_links in E3. congruence.
Qed.

Lemma write_retry_ok fs p c f fs' :
  write_file_with_missing_parent_retry fs p c f = (fs', Ok tt) -> view fs' = <[target fs p := TextFile c]> (view fs).
Proof.
  unfold write_file_with_missing_parent_retry.
  destruct (write_file fs p c f) as [fs1 [[]|e]] eqn:E1.
  { intros [= <-]. by eapply write_ok. }
  destruct (kind e) eqn:Ek; try done. pose proof (write_not_found _ _ _ _ _ _ E1 Ek) as V1.
  destruct (parent p) as [par|].
  - destruct (create_directory fs1 par true f) as [fs2 [[]|e2]] eqn:E2; simpl; [|done].
    apply create_view in E2. destruct (write_file fs2 p c f) as [fs3 [[]|e3]] eqn:E3; simpl; [|done].
    intros [= <-]. apply write_ok in E3. unfold target, links. by rewrite E3, E2, V1.
  - destruct (write_file fs1 p c f) as [fs3 [[]|e3]] eqn:E3; simpl; [|done].
    intros [= <-]. apply write_ok in E3. unfold target, links. by rewrite E3, V1.
Qed.

Lemma write_retry_other fs p c f fs' r q :
  write_file_with_missing_parent_retry fs p c f = (fs', r) -> q <> target fs p -> view fs' !! q = view fs !! q.
Proof.
  unfold write_file_with_missing_parent_retry. intros H Hq.
  destruct (write_file fs p c f) as [fs1 [[]|e]] eqn:E1; pose proof (write_keeps_links _ _ _ _ _ _ E1) as L1;
    apply (write_other _ _ _ _ _ _ q) in E1; try done.
  { by injection H as <- _. }
  destruct (kind e) eqn:Ek; [|by injection H as <- _..].
  destruct (parent p) as [par|].
  - destruct (create_directory fs1 par true f) as [fs2 [[]|e2]] eqn:E2; simpl in H; apply create_view in E2.
    + destruct (write_file fs2 p c f) as [fs3 r3] eqn:E3. injection H as <- _.
      apply (write_other _ _ _ _ _ _ q) in E3; [by rewrite E3, E2|].
      fold (links fs2). rewrite (links_eq _ _ E2), L1. exact Hq.
    + injection H as <- _. by rewrite E2.
  - destruct (write_file fs1 p c f) as [fs3 r3] eqn:E3. injection H as <- _.
    apply (write_other _ _ _ _ _ _ q) in E3; [by rewrite E3|]. fold (links fs1). by rewrite L1.
Qed.

(** A failed removal after which the file can be read changed nothing. *)
Lemma remove_side_effect_free fs fs' p f e o :
  remove fs p f = (fs', Err e) -> plain fs p ->
  remove_failure_was_side_effect_free fs' p o f = true -> view fs' = view fs.
Proof.
  intros Hr Hp H. destruct o as [c|]; [|done]. simpl in H.
  destruct (read_file_text fs' p f) as [c'|] eqn:E; [|done]. apply read_ok in E. fold (links fs') in E.
  rewrite (remove_keeps_links _ _ _ _ _ Hr Hp) in E. fold (target fs p) in E. rewrite plain_target in E by done.
  apply map_eq. intros q. destruct (remove_lookup _ _ _ _ _ q Hr) as [?|[-> Hn]]; [done|congruence].
Qed.

Lemma apply_add_tracks fs0 fs d p c f fs' d' r :
  delta_tracks fs0 fs d -> apply_add fs d p c f = (fs', d', r) -> delta_tracks fs0 fs' d'.
Proof.
  intros H E. unfold apply_add in E.
  destruct (read_optional_file_text_for_delta fs p f (exact d)) as [o ex] eqn:Eo.
  destruct (write_file_with_missing_parent_retry fs p c f) as [fs1 [[]|e]] eqn:Ew;
    injection E as <- <- _; [|apply tracks_inexact].
  pose proof (write_retry_links _ _ _ _ _ _ Ew) as Hl. apply write_retry_ok in Ew. eapply (tracks_push fs0 fs).
  - apply tracks_weaken; [done|]. intros ->. by apply read_optional_true in Eo as [? _].
  - simpl. intros ->. apply read_optional_true in Eo as [_ Eo]. unfold redo_change, undo_change. simpl.
    rewrite Ew. split_and!; [done..|]. by apply restore_insert.
Qed.

Lemma apply_delete_tracks fs0 fs d p f fs' d' r :
  delta_tracks fs0 fs d -> apply_delete fs d p f = (fs', d', r) -> delta_tracks fs0 fs' d'.
Proof.
  intros H E. unfold apply_delete in E. cbv zeta in E.
  set (o := match read_file_text fs p f with Ok c => Some c | Err _ => None end) in *.
  set (d1 := mkDelta _ _) in E.
  assert (forall c, o = Some c -> view fs !! target fs p = Some (TextFile c)) as Ho.
  { subst o. intros c. destruct (read_file_text fs p f) eqn:Er; [|done]. intros [= <-]. by eapply read_ok. }
  assert (exact d1 = true -> exact d = true /\ plain fs p) as Hx.
  { subst d1. simpl. destruct o as [c|]; [|done]. intros [? [?|Hn]]%note_existing_true; [done|]. rewrite (Ho c) in Hn; done. }
  assert (delta_tracks fs0 fs d1) as H1 by (apply tracks_weaken; [done|intros; by apply Hx]).
  destruct (with_context _ _); [|by injection E as <- <- _].
  destruct (remove fs p f) as [fs1 [[]|e]] eqn:Er; injection E as <- <- _.
  - destruct o as [c|] eqn:Eo; [|subst d1; done].
    specialize (Ho c eq_refl). apply (tracks_push fs0 fs); [done|]. intros [_ Hp]%Hx.
    pose proof (remove_ok _ _ _ _ Er) as Ev. fold (links fs) (place fs p) in Ev. rewrite <- plain_target in Ev by done.
    unfold redo_change, undo_change. simpl. split_and!; [by eapply remove_keeps_links|by rewrite Ev|].
    rewrite Ev. by apply insert_delete_back.
  - intros He. simpl in He. bool_to_prop. destruct (Hx ltac:(assumption)) as [_ Hp].
    refine (tracks_same fs0 fs fs1 _ H1 _ _); [intros _|done]. by eapply (remove_side_effect_free fs fs1 p f e o).
Qed.

(** The view after a rename: the destination written, the source gone. *)
Lemma move_undone (p dest : PathUri) orig o new (m : gmap PathUri (Entry PathUri)) :
  m !! p = Some (TextFile orig) -> m !! dest = TextFile <$> o ->
  <[p := TextFile orig]> (restore dest o (delete p (<[dest := TextFile new]> m))) = m.
Proof.
  intros Hp Ho. apply map_eq. intros q. unfold restore.
  destruct o, (decide (q = p)), (decide (q = dest)); subst; simpl in *; by simplify_map_eq.
Qed.

Lemma apply_move_tracks fs0 fs d p dest orig new f fs' d' r :
  delta_tracks fs0 fs d -> (exact d = true -> plain fs p) -> view fs !! target fs p = Some (TextFile orig) ->
  apply_move fs d p dest orig new f = (fs', d', r) -> delta_tracks fs0 fs' d'.
Proof.
  intros H Hplain Hp E. unfold apply_move in E.
  destruct (read_optional_file_text_for_delta fs dest f (exact d)) as [o ex] eqn:Eo.
  set (d1 := mkDelta (changes d) ex) in *.
  destruct (write_file_with_missing_parent_retry fs dest new f) as [fs1 [[]|e]] eqn:Ew; cbv zeta in E;
    [|injection E as <- <- _; apply tracks_inexact].
  pose proof (write_retry_links _ _ _ _ _ _ Ew) as Hl. apply write_retry_ok in Ew.
  assert (ex = true -> plain fs p /\ view fs !! target fs dest = TextFile <$> o) as Ho.
  { intros ->. apply read_optional_true in Eo as [? ?]. auto. }
  assert (delta_tracks fs0 fs d1) as H1.
  { apply tracks_weaken; [done|]. intros ->. by apply read_optional_true in Eo as [? _]. }
  assert (delta_tracks fs0 fs1 (push_change d1 (mkChange dest (ChangeAdd new o)))) as H2.
  { apply (tracks_push fs0 fs); [done|]. simpl. intros [_ Hx]%Ho. unfold redo_change, undo_change. simpl.
    rewrite Ew. split_and!; [done..|]. by apply restore_insert. }
  destruct (with_context _ _); [|by injection E as <- <- _].
  destruct (same_links fs fs1 p Hl) as (Hpl & _ & Hpp).
  destruct (remove fs1 p f) as [fs2 [[]|e]] eqn:Er; injection E as <- <- _.
  - apply (tracks_push fs0 fs); [done|]. simpl. intros [Hx Hdest]%Ho.
    pose proof (remove_keeps_links _ _ _ _ _ Er (proj2 Hpp Hx)) as Hl2.
    apply remove_ok in Er. fold (links fs1) (place fs1 p) in Er. rewrite Hpl, <- plain_target in Er by done.
    unfold redo_change, undo_change. simpl. rewrite Er, Ew, Hl2. split_and!; [done..|]. by apply move_undone.
  - intros He. simpl in He. bool_to_prop. destruct (Ho ltac:(assumption)) as [Hx _].
    refine (tracks_same fs0 fs1 fs2 _ H2 _ _); [intros _|done].
    by eapply (remove_side_effect_free fs1 fs2 p f e (Some orig)); [|apply Hpp|].
Qed.

Lemma derive_reads fs p cs m f orig new :
  derive_new_contents_from_chunks fs p cs m f = Returned (orig, new) -> view fs !! target fs p = Some (TextFile orig).
Proof.
  unfold derive_new_contents_from_chunks. destruct (read_file_text fs p f) as [c|] eqn:E; [|done].
  destruct (derive_new_contents _ _ _ _) as [[]|]; [|done..]. intros [= <- _]. by eapply read_ok.
Qed.

Lemma apply_update_tracks fs0 fs d cwd p mv cs m f fs' d' r :
  delta_tracks fs0 fs d -> apply_update fs d cwd p mv cs m f = (fs', d', r) -> delta_tracks fs0 fs' d'.
Proof.
  intros H E. unfold apply_update in E. cbv zeta in E. set (d1 := mkDelta _ _) in E.
  assert (delta_tracks fs0 fs d1) as H1 by (apply tracks_weaken; [done|by intros [? _]%note_existing_true]).
  destruct (derive_new_contents_from_chunks fs p cs m f) as [[orig new]|e|] eqn:Ed;
    [|by injection E as <- <- _..].
  apply derive_reads in Ed. destruct mv as [dest|].
  - destruct (join_path cwd dest) as [du|e]; [|by injection E as <- <- _].
    eapply apply_move_tracks; [exact H1| |done|exact E]. intros [_ [?|Hn]]%note_existing_true; [done|congruence].
  - destruct (write_file fs p new f) as [fs1 [[]|e]] eqn:Ew; injection E as <- <- _; [|apply tracks_inexact].
    pose proof (write_keeps_links _ _ _ _ _ _ Ew) as Hl.
    apply write_ok in Ew. apply (tracks_push fs0 fs); [done|]. intros _.
    unfold redo_change, undo_change. simpl. fold (links fs) (target fs p) in Ew. rewrite Ew. split_and!; [done..|].
    by apply (restore_insert (target fs p) (Some orig)).
Qed.

Lemma apply_hunk_tracks fs0 fs d o cwd h fs' d' r :
  delta_tracks fs0 fs d -> apply_hunk fs d o cwd h = (fs', d', r) -> delta_tracks fs0 fs' d'.
Proof.
  intros H E. unfold apply_hunk in E. destruct (resolve_path h cwd); [|by injection E as <- <- _].
  destruct h; [by eapply apply_add_tracks|by eapply apply_delete_tracks|by eapply apply_update_tracks].
Qed.

Lemma apply_loop_tracks fs0 fs d o cwd hs a fs' d' r :
  delta_tracks fs0 fs d -> apply_loop fs d o cwd hs a = (fs', d', r) -> delta_tracks fs0 fs' d'.
Proof.
  revert fs d a. induction hs as [|h hs IH]; intros fs d a H E; simpl in E; [by injection E as <- <- _|].
  destruct (apply_hunk fs d o cwd h) as [[fs1 d1] r1] eqn:Eh.
  pose proof (apply_hunk_tracks _ _ _ _ _ _ _ _ _ H Eh) as H1.
  destruct r1; [by eapply IH|by injection E as <- <- _..].
Qed.

(** C1. The delta is a faithful journal, also where there are symbolic links:
    whatever the outcome (success, an error half-way through the hunks), if the
    delta is still marked exact then no link was made or removed, replaying it
    where its paths lead gives the current entries from the initial ones, and
    reverting it gives the initial ones back.  A run that removes a link, or
    moves one away, is thus never marked exact.  Files have no hard links. *)
Theorem apply_hunks_delta_faithful (fs : FS) (o : ApplyPatchOptions) (cwd : PathUri) (hs : list Hunk)
    (fs' : FS) (d : AppliedPatchDelta PathUri) (r : outcome AffectedPaths anyhow_error) :
  apply_hunks_to_files fs empty_delta o cwd hs = (fs', d, r) -> exact d = true ->
  links fs' = links fs
  /\ redo (target fs) (changes d) (view fs) = view fs' /\ undo (target fs) (changes d) (view fs') = view fs.
Proof.
  intros E. assert (delta_tracks fs fs empty_delta) as H0 by done.
  assert (delta_tracks fs fs' d) as Hd; [|exact Hd].
  unfold apply_hunks_to_files in E. destruct (is_nil hs); [by injection E as <- <- _|].
  by eapply apply_loop_tracks.
Qed.

(** ** Frame *)

(** The paths a hunk may write: its own and its move destination. *)
Definition hunk_targets (cwd : PathUri) (h : Hunk) (q : PathUri) : Prop :=
  resolve_path h cwd = Ok q \/
  match h with UpdateFile _ (Some dest) _ => join_path cwd dest = Ok q | _ => False end.

(** [x] is a place the path [q] names or leads to, through the links [L] or those
    that are left of them: a patch that removes a link changes where the paths
    through it lead. *)
Definition reaches (L : gmap PathUri PathUri) (q x : PathUri) : Prop :=
  exists L', L' ⊆ L /\ (x = place_in L' q \/ x = target_in L' q).

Lemma reaches_mono L L' q x : L ⊆ L' -> reaches L q x -> reaches L' q x.
Proof. intros H (L0 & ? & ?). exists L0. split; [by etransitivity|done]. Qed.

(** Without links a path reaches one place. *)
Lemma reaches_one (q x : PathUri) : reaches ∅ q x -> x = place_in ∅ q.
Proof.
  intros (L & Hs & H). assert (L = ∅) as -> by (apply map_empty; intros i; eapply lookup_weaken_None; [apply lookup_empty|done]).
  rewrite target_plain in H by apply lookup_empty. by destruct H.
Qed.

(** The entry at [x] is the same, or one of the paths leads there. *)
Definition framed (fs fs' : FS) (paths : PathUri -> Prop) (x : PathUri) : Prop :=
  view fs' !! x = view fs !! x \/ exists q, paths q /\ reaches (links fs) q x.

Lemma framed_at (fs fs' : FS) (paths : PathUri -> Prop) q x y :
  paths q -> (y = place fs q \/ y = target fs q) -> (x <> y -> view fs' !! x = view fs !! x) -> framed fs fs' paths x.
Proof.
  intros Hq Hy H. destruct (decide (x = y)) as [-> |]; [|by left; auto]. right. exists q. split; [done|]. exists (links fs). auto.
Qed.

Lemma framed_trans (fs fs1 fs' : FS) (paths : PathUri -> Prop) x :
  links fs1 ⊆ links fs -> framed fs fs1 paths x -> framed fs1 fs' paths x -> framed fs fs' paths x.
Proof.
  intros Hl [H1|H1] [H2|(q & Hq & Hr)]; [left; congruence|right; exists q; split; [done|by eapply reaches_mono]|by right..].
Qed.

Lemma framed_mono (fs fs' : FS) (paths paths' : PathUri -> Prop) x :
  (forall q, paths q -> paths' q) -> framed fs fs' paths x -> framed fs fs' paths' x.
Proof. intros H [|(q & ? & ?)]; [by left|right; eauto]. Qed.

Lemma apply_move_frame fs d p dest orig new f fs' d' r (paths : PathUri -> Prop) :
  apply_move fs d p dest orig new f = (fs', d', r) -> paths p -> paths dest ->
  links fs' ⊆ links fs /\ forall x, framed fs fs' paths x.
Proof.
  unfold apply_move. intros E Hp Hd. destruct (read_optional_file_text_for_delta _ _ _ _).
  destruct (write_file_with_missing_parent_retry _ _ _ _) as [fs1 r1] eqn:Ew; cbv zeta in E.
  pose proof (write_retry_links _ _ _ _ _ _ Ew) as Hl.
  assert (forall x, framed fs fs1 paths x) as H1.
  { intros x. eapply (framed_at fs fs1 paths dest); [done|by right|]. by eapply write_retry_other. }
  destruct r1 as [[]|]; [|injection E as <- _ _; by rewrite Hl].
  destruct (with_context _ _); [|injection E as <- _ _; by rewrite Hl].
  destruct (remove fs1 p _) as [fs2 r2] eqn:Er.
  assert (fs2 = fs') as -> by (by destruct r2 as [[]|]; injection E). clear E.
  split; [rewrite <- Hl; by eapply remove_links|]. intros x. eapply (framed_trans fs fs1); [by rewrite Hl|done|].
  eapply (framed_at fs1 fs' paths p); [done|by left|]. by eapply remove_other.
Qed.

(** Hunks neither make links nor change what their paths do not lead to. *)
Lemma apply_hunk_frame fs d o cwd h fs' d' r :
  apply_hunk fs d o cwd h = (fs', d', r) -> links fs' ⊆ links fs /\ forall x, framed fs fs' (hunk_targets cwd h) x.
Proof.
  unfold apply_hunk. intros E.
  destruct (resolve_path h cwd) as [p|e] eqn:Ep; [|injection E as <- _ _; split; [done|by left]].
  assert (hunk_targets cwd h p) as Hp by (by left).
  destruct h as [path c|path|path mv cs].
  - unfold apply_add in E. destruct (read_optional_file_text_for_delta _ _ _ _).
    destruct (write_file_with_missing_parent_retry _ _ _ _) as [fs1 r1] eqn:Ew.
    assert (fs1 = fs') as -> by (by destruct r1; injection E). clear E. split; [by rewrite (write_retry_links _ _ _ _ _ _ Ew)|].
    intros x. eapply framed_at; [exact Hp|by right|]. by eapply write_retry_other.
  - unfold apply_delete in E. cbv zeta in E. destruct (with_context _ _); [|injection E as <- _ _; split; [done|by left]].
    destruct (remove fs p _) as [fs1 r1] eqn:Er.
    assert (fs1 = fs') as -> by (by destruct r1; injection E). clear E. split; [by eapply remove_links|].
    intros x. eapply framed_at; [exact Hp|by left|]. by eapply remove_other.
  - unfold apply_update in E. cbv zeta in E.
    destruct (derive_new_contents_from_chunks _ _ _ _ _) as [[orig new]|e|]; [|injection E as <- _ _; split; [done|by left]..].
    destruct mv as [dest|].
    + destruct (join_path cwd dest) as [du|] eqn:Ed; [|injection E as <- _ _; split; [done|by left]].
      eapply apply_move_frame; [exact E|done|by right].
    + destruct (write_file fs p new _) as [fs1 r1] eqn:Ew.
      assert (fs1 = fs') as -> by (by destruct r1 as [[]|]; injection E). clear E.
      split; [by rewrite (write_keeps_links _ _ _ _ _ _ Ew)|].
      intros x. eapply framed_at; [exact Hp|by right|]. by eapply write_other.
Qed.

(** The paths that some hunk may write. *)
Definition hunks_target (cwd : PathUri) (hs : list Hunk) (q : PathUri) : Prop := exists h, h ∈ hs /\ hunk_targets cwd h q.

Lemma apply_loop_frame fs d o cwd hs a fs' d' r :
  apply_loop fs d o cwd hs a = (fs', d', r) -> links fs' ⊆ links fs /\ forall x, framed fs fs' (hunks_target cwd hs) x.
Proof.
  revert fs d a. induction hs as [|h hs IH]; intros fs d a E; simpl in E; [injection E as <- _ _; split; [done|by left]|].
  destruct (apply_hunk fs d o cwd h) as [[fs1 d1] r1] eqn:Eh. apply apply_hunk_frame in Eh as [Hl1 Hf1].
  assert (links fs' ⊆ links fs1 /\ forall x, framed fs1 fs' (hunks_target cwd hs) x) as [Hl Hf]
    by (destruct r1; [by eapply IH|injection E as <- _ _; split; [done|by left]..]).
  split; [by etransitivity|]. intros x. eapply (framed_trans fs fs1); [done|..]; eapply framed_mono; [|apply Hf1| |apply Hf].
  - intros q Hq. exists h. split; [by left|done].
  - intros q (h' & Hin & Hq). exists h'. split; [by right|done].
Qed.

(** Frame: an entry that no path of a hunk, its own or its move destination,
    names or leads to is the same after applying the hunks, whatever the outcome
    and even when the delta is not exact; and no link is made. *)
Theorem apply_hunks_frame (fs : FS) (d : AppliedPatchDelta PathUri) (o : ApplyPatchOptions) (cwd : PathUri)
    (hs : list Hunk) (fs' : FS) (d' : AppliedPatchDelta PathUri) (r : outcome AffectedPaths anyhow_error) (x : PathUri) :
  apply_hunks_to_files fs d o cwd hs = (fs', d', r) ->
  links fs' ⊆ links fs
  /\ (view fs' !! x = view fs !! x \/ exists q, hunks_target cwd hs q /\ reaches (links fs) q x).
Proof.
  unfold apply_hunks_to_files. intros E. destruct (is_nil hs); [injection E as <- _ _; split; [done|by left]|].
  apply apply_loop_frame in E as [? Hf]. split; [done|apply Hf].
Qed.

(** ** No panic on parsed patches *)

Lemma apply_hunk_no_panic fs d o cwd h fs' d' r :
  hunk_complete h -> apply_hunk fs d o cwd h = (fs', d', r) -> r <> Panicked.
Proof.
  unfold apply_hunk. intros Hc E. destruct (resolve_path h cwd) as [p|e]; [|by injection E as _ _ <-].
  destruct h as [path c|path|path mv cs].
  - unfold apply_add in E. destruct (read_optional_file_text_for_delta _ _ _ _).
    by destruct (write_file_with_missing_parent_retry _ _ _ _) as [? [[]|]]; injection E as _ _ <-.
  - unfold apply_delete in E. cbv zeta in E. destruct (with_context _ _); [|by injection E as _ _ <-].
    by destruct (remove fs p _) as [? [[]|]]; injection E as _ _ <-.
  - unfold apply_update in E. cbv zeta in E.
    destruct (derive_new_contents_from_chunks _ _ _ _ _) as [[orig new]|e|] eqn:Ed; [|by injection E as _ _ <-|].
    + destruct mv as [dest|].
      * destruct (join_path cwd dest) as [du|]; [|by injection E as _ _ <-].
        unfold apply_move in E. destruct (read_optional_file_text_for_delta _ _ _ _).
        destruct (write_file_with_missing_parent_retry _ _ _ _) as [fs1 [[]|]]; cbv zeta in E; [|by injection E as _ _ <-].
        destruct (with_context _ _); [|by injection E as _ _ <-].
        by destruct (remove fs1 p _) as [? [[]|]]; injection E as _ _ <-.
      * by destruct (write_file fs p new _) as [? [[]|]]; injection E as _ _ <-.
    + exfalso. unfold derive_new_contents_from_chunks in Ed.
      destruct (read_file_text fs p _) as [c|]; [|done]. destruct Hc as [_ Hc].
      destruct (derive_contents_total c (native_path_string p) cs (update_file_mode o)) as [x Ex].
      { eapply Forall_impl; [exact Hc|]. by intros ? [? _]. }
      rewrite Ex in Ed. by destruct x.
Qed.

(** C2. End to end: applying any patch text never panics. Whatever the text, the
    run returns a delta or an error with the delta committed so far. *)
Theorem apply_patch_never_panics (show_io : io_error -> str) (show_path_error : PathUriParseError -> str)
    (show_parse_error : ParseError -> str) (write_error : io_error) (stdout_ok stderr_ok : bool)
    (fs : FS) (text : str) (o : ApplyPatchOptions) (cwd : PathUri) :
  out_result (apply_patch_with_options show_io show_path_error show_parse_error write_error
                stdout_ok stderr_ok fs text o cwd) <> Panicked.
Proof.
  unfold apply_patch_with_options. destruct (parse_patch text) as [args|e] eqn:Ep; [|by destruct stderr_ok].
  assert (Forall hunk_complete (args_hunks args)) as HF by (by eapply parse_patch_complete).
  unfold apply_hunks_with_options.
  assert (forall fs d a fs' d' r, apply_loop fs d o cwd (args_hunks args) a = (fs', d', r) -> r <> Panicked) as Hl.
  { clear Ep. induction HF as [|h hs Hh HF IH]; intros fs1 d a fs' d' r E; simpl in E; [by injection E as _ _ <-|].
    destruct (apply_hunk fs1 d o cwd h) as [[fs2 d2] r2] eqn:Eh. apply apply_hunk_no_panic in Eh; [|done].
    destruct r2; [by eapply IH|by injection E as _ _ <-|done]. }
  destruct (apply_hunks_to_files fs empty_delta o cwd (args_hunks args)) as [[fs' d] r] eqn:E.
  unfold apply_hunks_to_files in E.
  assert (r <> Panicked) as Hr by (destruct (is_nil _); [by injection E as _ _ <-|by eapply Hl]).
  destruct r; [by destruct stdout_ok|by destruct stderr_ok|done].
Qed.

(** A rename whose destination is the file itself loses the file: the new
    contents are written to the path and the path is then removed, so after a
    run reported as successful the file does not exist. *)
Theorem self_move_deletes_file (fs : FS) (d : AppliedPatchDelta PathUri) (o : ApplyPatchOptions) (cwd : PathUri)
    (path dest : str) (cs : list UpdateFileChunk) (p : PathUri) (fs' : FS) (d' : AppliedPatchDelta PathUri) :
  join_path cwd path = Ok p -> join_path cwd dest = Ok p ->
  apply_hunk fs d o cwd (UpdateFile path (Some dest) cs) = (fs', d', Returned tt) ->
  view fs' !! place fs p = None.
Proof.
  intros H1 H2 E. unfold apply_hunk, resolve_path in E. simpl in E. rewrite H1 in E.
  unfold apply_update in E. cbv zeta in E.
  destruct (derive_new_contents_from_chunks _ _ _ _ _) as [[orig new]|e|]; [|done..].
  rewrite H2 in E. unfold apply_move in E. destruct (read_optional_file_text_for_delta _ _ _ _).
  destruct (write_file_with_missing_parent_retry _ _ _ _) as [fs1 [[]|]] eqn:Ew; cbv zeta in E; [|done].
  destruct (with_context _ _); [|done].
  destruct (remove fs1 p _) as [fs2 [[]|]] eqn:Er; [|done]. injection E as <- _.
  apply remove_ok in Er. fold (links fs1) (place fs1 p) in Er. rewrite Er.
  destruct (same_links fs fs1 p) as (-> & _); [by eapply write_retry_links|]. apply lookup_delete_eq.
Qed.
End Correctness.
