(* ===== verification/MemFs.v ===== *)
(** * A reference file system

    A concrete [ExecutorFileSystem] over in-memory files, symbolic links and
    directories with ['/']-separated paths.  It discharges the laws the theorems
    of [ApplyPatch.v] rest on and runs the modelled code on concrete patches. *)

From stdpp Require Import base list numbers option strings gmap.
From Stdlib Require Import Lia.
From S2P Require Import Prelude RustStr PatchParser SeekSequence FileUpdate ApplyPatch.

(** The files and links by place, and the directories. *)
Record MemFs := mkMemFs { files : gmap (list N) (Entry (list N)); dirs : gset (list N) }.

Definition slash : char := 47%N.

Definition mem_parent (p : list N) : option (list N) :=
  match rsplit_once slash p with Some (d, _) => Some d | None => None end.

#[export] Instance mem_paths : PathUriOps (list N) := {
  join_path cwd p := Ok (cwd ++ [slash] ++ p);
  parent := mem_parent;
  native_path_string p := p;
}.

Definition not_found : io_error := mkIoError NotFound (lit "No such file or directory").
Definition is_a_directory : io_error := mkIoError (OtherKind 21) (lit "Is a directory").
Definition too_many_links : io_error := mkIoError (OtherKind 40) (lit "Too many levels of symbolic links").
Definition link_refused : io_error := mkIoError InvalidInput (lit "path contains a symbolic link").

(** A directory and all its ancestors; a path has at most as many as characters. *)
Fixpoint ancestors (fuel : nat) (p : list N) : list (list N) :=
  match fuel with
  | O => [p]
  | S f => p :: match mem_parent p with Some d => ancestors f d | None => [] end
  end.

(** Walking down a path from [cur]: a link on the way is replaced by what it
    points to, the last one only when [final].  After [n] steps the walk stops
    where it is. *)
Fixpoint walk (n : nat) (L : gmap (list N) (list N)) (final : bool) (cur : list N) (todo : list (list N)) : list N :=
  match n, todo with
  | _, [] => cur
  | O, _ => cur ++ [slash] ++ join [slash] todo
  | S n', name :: rest =>
      let here := cur ++ [slash] ++ name in
      match L !! here with
      | Some to =>
          if is_nil rest && negb final then here
          else walk n' L final [] (List.filter (fun s => negb (is_nil s)) (split slash to) ++ rest)
      | None => walk n' L final here rest
      end
  end.

Definition resolve (L : gmap (list N) (list N)) (final : bool) (p : list N) : list N :=
  walk (length p + 40) L final [] (List.filter (fun s => negb (is_nil s)) (split slash p)).

Definition mem_links (fs : MemFs) : gmap (list N) (list N) := omap link_of (files fs).

(** Without [follow_symlinks] a path with a link in it is refused. *)
Definition refused (fs : MemFs) (p : list N) (follow : bool) : bool :=
  negb follow && negb (str_eqb (resolve (mem_links fs) true p) p).

(** What the system calls say about a place. *)
Definition absent (fs : MemFs) (q : list N) : io_error := if decide (q ∈ dirs fs) then is_a_directory else not_found.

Definition mem_read (fs : MemFs) (p : list N) : result str io_error :=
  let t := resolve (mem_links fs) true p in
  match files fs !! t with
  | Some (TextFile c) => Ok c
  | Some (SymbolicLink _) => Err too_many_links
  | None => Err (absent fs t)
  end.

Definition mem_metadata (fs : MemFs) (p : list N) : result FileMetadata io_error :=
  let t := resolve (mem_links fs) true p in
  let link := match mem_links fs !! resolve (mem_links fs) false p with Some _ => true | None => false end in
  match files fs !! t with
  | Some (TextFile _) => Ok (mkMeta false true link)
  | Some (SymbolicLink _) => Err too_many_links
  | None => if decide (t ∈ dirs fs) then Ok (mkMeta true false link) else Err not_found
  end.

Definition mem_write (fs : MemFs) (p c : list N) : MemFs * result unit io_error :=
  let t := resolve (mem_links fs) true p in
  match files fs !! t with
  | Some (SymbolicLink _) => (fs, Err too_many_links)
  | _ =>
      if decide (t ∈ dirs fs) then (fs, Err is_a_directory)
      else if (match mem_parent t with Some d => bool_decide (d ∈ dirs fs) | None => true end)
      then (mkMemFs (<[t := TextFile c]> (files fs)) (dirs fs), Ok tt)
      else (fs, Err not_found)
  end.

Definition mem_create (fs : MemFs) (p : list N) : MemFs * result unit io_error :=
  let t := resolve (mem_links fs) true p in
  (mkMemFs (files fs) (list_to_set (ancestors (length t) t) ∪ dirs fs), Ok tt).

(** The entry itself is removed, link or file. *)
Definition mem_remove (fs : MemFs) (p : list N) : MemFs * result unit io_error :=
  let q := resolve (mem_links fs) false p in
  match files fs !! q with
  | Some _ => (mkMemFs (delete q (files fs)) (dirs fs), Ok tt)
  | None => (fs, Err (absent fs q))
  end.

#[export] Instance mem_ops : ExecutorFileSystem MemFs (list N) := {
  read_file_text fs p f := if refused fs p f then Err link_refused else mem_read fs p;
  get_metadata fs p f := if refused fs p f then Err link_refused else mem_metadata fs p;
  write_file fs p c f := if refused fs p f then (fs, Err link_refused) else mem_write fs p c;
  create_directory fs p _ f := if refused fs p f then (fs, Err link_refused) else mem_create fs p;
  remove fs p f := if refused fs p f then (fs, Err link_refused) else mem_remove fs p;
}.

Lemma walk_plain n L cur todo : L !! walk n L false cur todo = None -> walk n L true cur todo = walk n L false cur todo.
Proof.
  revert cur todo. induction n as [|n IH]; intros cur [|name rest]; simpl; [done..|].
  destruct (L !! (cur ++ slash :: name)) as [to|] eqn:E; [|apply IH].
  rewrite andb_false_r, andb_true_r. destruct (is_nil rest) eqn:En; [|apply IH].
  intros H. congruence.
Qed.

Lemma mem_write_spec fs p c : let t := resolve (mem_links fs) true p in
  (fst (mem_write fs p c) = fs /\ snd (mem_write fs p c) <> Ok tt)
  \/ (mem_links fs !! t = None /\ mem_write fs p c = (mkMemFs (<[t := TextFile c]> (files fs)) (dirs fs), Ok tt)).
Proof.
  unfold mem_write. cbv zeta. destruct (files fs !! resolve (mem_links fs) true p) as [[text|to]|] eqn:E; [|by left|];
    (case_decide; [by left|]); (destruct (match mem_parent _ with Some _ => _ | None => _ end); [right|by left]);
    (split; [|done]); unfold mem_links in *; by rewrite lookup_omap, E.
Qed.

Lemma links_insert (m : gmap (list N) (Entry (list N))) t c :
  omap link_of m !! t = None -> omap link_of (<[t := TextFile c]> m) = omap link_of m.
Proof.
  intros H. apply map_eq. intros q. destruct (decide (q = t)) as [-> | Hq]; [|by rewrite !lookup_omap, lookup_insert_ne].
  by rewrite H, lookup_omap, lookup_insert_eq.
Qed.

#[export] Instance mem_lawful : LawfulFileSystem MemFs (list N).
Proof.
  apply (Build_LawfulFileSystem _ _ _ _ _ files (fun L => resolve L false) (fun L => resolve L true)); simpl.
  - intros L p. apply walk_plain.
  - intros fs p f c. destruct (refused fs p f); [done|]. unfold mem_read, mem_links. cbv zeta.
    destruct (files fs !! _) as [[text|to]|]; by intros [= ->].
  - intros fs p f e. destruct (refused fs p f); [by intros [= <-]|]. unfold mem_read, mem_links. cbv zeta.
    destruct (files fs !! _) as [[text|to]|]; [done| |done]. by intros [= <-].
  - intros fs p f m. destruct (refused fs p f); [done|]. unfold mem_metadata. cbv zeta. fold (mem_links fs).
    destruct (mem_links fs !! resolve (mem_links fs) false p); [|done].
    destruct (files fs !! _) as [[text|to]|]; [by intros [= <-]|done|]. case_decide; [by intros [= <-]|done].
  - intros fs p f e. destruct (refused fs p f); [by intros [= <-]|]. unfold mem_metadata, mem_links. cbv zeta.
    destruct (files fs !! resolve _ true p) as [[text|to]|]; [done|by intros [= <-]|]. case_decide; [done|done].
  - intros fs p c f fs'. destruct (refused fs p f); [done|].
    destruct (mem_write_spec fs p c) as [[_ Hn]|[_ ->]]; [|by intros [= <-]].
    destruct (mem_write fs p c); simpl in *. intros [= <- ->]. done.
  - intros fs p c f fs' r q. destruct (refused fs p f); [by intros [= <- <-]|].
    destruct (mem_write_spec fs p c) as [[Hf _]|[_ ->]].
    + destruct (mem_write fs p c); simpl in *. intros [= <- <-]. by rewrite Hf.
    + intros [= <- <-] Hq. simpl. by rewrite lookup_insert_ne.
  - intros fs p c f fs' r. destruct (refused fs p f); [by intros [= <- <-]|].
    destruct (mem_write_spec fs p c) as [[Hf _]|[Hl ->]].
    + destruct (mem_write fs p c); simpl in *. intros [= <- <-]. by rewrite Hf.
    + intros [= <- <-]. simpl. by apply links_insert.
  - intros fs p c f fs' e. destruct (refused fs p f); [by intros [= <- <-]|].
    destruct (mem_write_spec fs p c) as [[Hf _]|[_ ->]]; [|done].
    destruct (mem_write fs p c) as [fs1 r1]; simpl in *. intros [= <- _] _. by rewrite Hf.
  - intros fs p r f fs' x. destruct (refused fs p f); by intros [= <- <-].
  - intros fs p f fs'. destruct (refused fs p f); [done|]. unfold mem_remove, mem_links. cbv zeta.
    destruct (files fs !! _); [|done]. by intros [= <-].
  - intros fs p f fs' r q. destruct (refused fs p f); [by intros [= <- <-]|]. unfold mem_remove, mem_links. cbv zeta.
    destruct (files fs !! _); intros [= <- <-] Hq; simpl; [by rewrite lookup_delete_ne|done].
  - intros fs p f fs' e. destruct (refused fs p f); [intros [= <- <-]; auto|]. unfold mem_remove. cbv zeta.
    destruct (files fs !! resolve (mem_links fs) false p); intros [= <- <-]. auto.
Defined.

(** ** Witnesses *)

Definition root : list N := lit "/w".

Definition demo_text : str := join [LF] [lit "one"; lit "two"; lit "three"; []].

(** [/w/a.txt] holds "one LF two LF three LF"; [/w/l.txt] is a link to it and
    [/w/gone.txt] one to a file that does not exist. *)
Definition demo_fs : MemFs :=
  mkMemFs {[ lit "/w/a.txt" := TextFile demo_text; lit "/w/l.txt" := SymbolicLink (lit "/w/a.txt");
             lit "/w/gone.txt" := SymbolicLink (lit "/w/new.txt") ]} {[ root ]}.

Definition demo_chunk : UpdateFileChunk :=
  mkChunk None [lit "one"; lit "two"] [lit "one"; lit "2"] [(0, 0)] false.

(** A file in a new directory, a file behind a dangling link, and a rename. *)
Definition demo_hunks : list Hunk :=
  [ AddFile (lit "d/b.txt") (lit "hi" ++ [LF]);
    AddFile (lit "gone.txt") (lit "ho" ++ [LF]);
    UpdateFile (lit "a.txt") (Some (lit "c.txt")) [demo_chunk] ].

Definition demo_run := apply_hunks_to_files demo_fs empty_delta default_options root demo_hunks.

Lemma delta_faithful_witness :
  exact demo_run.1.2 = true /\ links demo_run.1.1 = links demo_fs /\
  redo (target demo_fs) (changes demo_run.1.2) (view demo_fs) = view demo_run.1.1
  /\ undo (target demo_fs) (changes demo_run.1.2) (view demo_run.1.1) = view demo_fs.
Proof.
  assert (exact demo_run.1.2 = true) as He by (vm_compute; reflexivity).
  split; [exact He|].
  apply (apply_hunks_delta_faithful demo_fs default_options root demo_hunks
           demo_run.1.1 demo_run.1.2 demo_run.2); [|exact He].
  unfold demo_run. destruct (apply_hunks_to_files _ _ _ _ _) as [[? ?] ?]. reflexivity.
Defined.

(** Deleting a link, and updating through one, are not exact; without
    [follow_symlinks] the update is refused. *)
Example links_are_inexact :
  let run o h := apply_hunk demo_fs empty_delta o root h in
  let deleted := run default_options (DeleteFile (lit "l.txt")) in
  let updated := run default_options (UpdateFile (lit "l.txt") None [demo_chunk]) in
  let refused := run (mkOptions NormalizeToLf false) (UpdateFile (lit "l.txt") None [demo_chunk]) in
  (exact deleted.1.2, files deleted.1.1 !! lit "/w/l.txt", files deleted.1.1 !! lit "/w/a.txt")
  = (false, None, Some (TextFile demo_text))
  /\ (exact updated.1.2, files updated.1.1 !! lit "/w/a.txt")
     = (false, Some (TextFile (join [LF] [lit "one"; lit "2"; lit "three"; []])))
  /\ (exact refused.1.2, changes refused.1.2, files refused.1.1 !! lit "/w/a.txt") = (false, [], Some (TextFile demo_text)).
Proof. vm_compute. split_and!; reflexivity. Qed.

Definition self_move := UpdateFile (lit "a.txt") (Some (lit "a.txt")) [demo_chunk].
Definition self_move_run := apply_hunk demo_fs empty_delta default_options root self_move.

Lemma self_move_witness : view self_move_run.1.1 !! lit "/w/a.txt" = None.
Proof.
  assert (place demo_fs (lit "/w/a.txt") = lit "/w/a.txt") as <- by (vm_compute; reflexivity).
  apply (self_move_deletes_file demo_fs empty_delta default_options root (lit "a.txt") (lit "a.txt")
           [demo_chunk] (lit "/w/a.txt") self_move_run.1.1 self_move_run.1.2);
    vm_compute; reflexivity.
Defined.
