(* ===== verification/ExecRule.v ===== *)
(** * Exec-policy decisions, patterns and rules

    Models [codex-rs/execpolicy/src/decision.rs], [error.rs] and [rule.rs]. *)

From stdpp Require Import base list numbers option strings gmap.
From Stdlib Require Import Lia.
From S2P Require Import Prelude RustStr.

(** ** Decisions *)

Inductive Decision := Allow | Prompt | Forbidden.

#[export] Instance Decision_eq_dec : EqDecision Decision.
Proof. solve_decision. Defined.

(** The derived [Ord]: declaration order. *)
Definition severity (d : Decision) : nat :=
  match d with Allow => 0 | Prompt => 1 | Forbidden => 2 end.
Definition decision_le (a b : Decision) : Prop := severity a <= severity b.
Definition decision_max (a b : Decision) : Decision :=
  if Nat.leb (severity a) (severity b) then b else a.

Record TextPosition := mkPosition { line : nat; column : nat }.
Record TextRange := mkRange { range_start : TextPosition; range_end : TextPosition }.
Record ErrorLocation := mkLocation { loc_path : str; loc_range : TextRange }.

Inductive Error :=
| InvalidDecision (raw : str)
| InvalidPattern (message : str)
| InvalidExample (message : str)
| InvalidRule (message : str)
| ExampleDidNotMatch (rules examples : list str) (location : option ErrorLocation)
| ExampleDidMatch (rule example : str) (location : option ErrorLocation)
| StarlarkError (message : str).

(** [Error::with_location]: only fills in a missing location. *)
Definition with_location (e : Error) (l : ErrorLocation) : Error :=
  match e with
  | ExampleDidNotMatch rules examples None => ExampleDidNotMatch rules examples (Some l)
  | ExampleDidMatch rule example None => ExampleDidMatch rule example (Some l)
  | other => other
  end.

Definition decision_parse (raw : str) : result Decision Error :=
  if str_eqb raw (lit "allow") then Ok Allow
  else if str_eqb raw (lit "prompt") then Ok Prompt
  else if str_eqb raw (lit "forbidden") then Ok Forbidden
  else Err (InvalidDecision raw).

(** ** Patterns *)

Inductive PatternToken :=
| Single (s : str)
| Alts (l : list str).

#[export] Instance PatternToken_eq_dec : EqDecision PatternToken.
Proof. solve_decision. Defined.

Definition token_matches (p : PatternToken) (token : str) : bool :=
  match p with
  | Single expected => str_eqb expected token
  | Alts alternatives => existsb (fun alt => str_eqb alt token) alternatives
  end.

Definition alternatives (p : PatternToken) : list str :=
  match p with Single expected => [expected] | Alts l => l end.

Record PrefixPattern := mkPattern { first : str; rest : list PatternToken }.

(** [self.rest.iter().zip(&cmd[1..pattern_length])]. *)
Fixpoint all_match (ps : list PatternToken) (ts : list str) : bool :=
  match ps, ts with
  | p :: ps', t :: ts' => token_matches p t && all_match ps' ts'
  | _, _ => true
  end.

Definition matches_prefix (p : PrefixPattern) (cmd : list str) : option (list str) :=
  let pattern_length := length (rest p) + 1 in
  match cmd with
  | [] => None
  | c0 :: args =>
      if Nat.ltb (length cmd) pattern_length || negb (str_eqb c0 (first p)) then None
      else if all_match (rest p) (take (pattern_length - 1) args)
      then Some (take pattern_length cmd)
      else None
  end.

(** ** Rules *)

Inductive RuleMatch (AbsolutePath : Type) :=
| PrefixRuleMatch (matched_prefix : list str) (decision : Decision)
    (resolved_program : option AbsolutePath) (justification : option str)
| HeuristicsRuleMatch (command : list str) (decision : Decision).
Arguments PrefixRuleMatch {AbsolutePath} _ _ _ _.
Arguments HeuristicsRuleMatch {AbsolutePath} _ _.

Definition match_decision {P} (m : RuleMatch P) : Decision :=
  match m with
  | PrefixRuleMatch _ d _ _ => d
  | HeuristicsRuleMatch _ d => d
  end.

Definition with_resolved_program {P} (m : RuleMatch P) (program : P) : RuleMatch P :=
  match m with
  | PrefixRuleMatch mp d _ j => PrefixRuleMatch mp d (Some program) j
  | other => other
  end.

Record PrefixRule := mkRule {
  pattern : PrefixPattern;
  rule_decision : Decision;
  justification : option str;
}.

Definition program (r : PrefixRule) : str := first (pattern r).

(** [<PrefixRule as Rule>::matches]. *)
Definition rule_matches {P} (r : PrefixRule) (cmd : list str) : option (RuleMatch P) :=
  match matches_prefix (pattern r) cmd with
  | Some mp => Some (PrefixRuleMatch mp (rule_decision r) None (justification r))
  | None => None
  end.

Inductive NetworkRuleProtocol := Http | Https | Socks5Tcp | Socks5Udp.

Definition protocol_parse (raw : str) : result NetworkRuleProtocol Error :=
  if str_eqb raw (lit "http") then Ok Http
  else if str_eqb raw (lit "https") || str_eqb raw (lit "https_connect")
          || str_eqb raw (lit "http-connect") then Ok Https
  else if str_eqb raw (lit "socks5_tcp") then Ok Socks5Tcp
  else if str_eqb raw (lit "socks5_udp") then Ok Socks5Udp
  else Err (InvalidRule (lit "network_rule protocol must be one of http, https, socks5_tcp, socks5_udp (got "
                         ++ raw ++ lit ")")).

Definition as_policy_string (p : NetworkRuleProtocol) : str :=
  match p with
  | Http => lit "http"
  | Https => lit "https"
  | Socks5Tcp => lit "socks5_tcp"
  | Socks5Udp => lit "socks5_udp"
  end.

Record NetworkRule := mkNetworkRule {
  host : str;
  protocol : NetworkRuleProtocol;
  net_decision : Decision;
  net_justification : option str;
}.

Definition COLON : char := 58%N.

(** [!port.is_empty() && port.chars().all(|c| c.is_ascii_digit())]. *)
Definition port_digits (port : str) : bool := negb (is_nil port) && forallb is_ascii_digit port.

(** The host inside brackets, or before a lone numeric port. *)
Definition strip_port (raw h : str) : result str Error :=
  match strip_prefix (lit "[") h with
  | Some stripped =>
      match split_once 93%N stripped with
      | None => Err (InvalidRule (lit "network_rule host has an invalid bracketed IPv6 literal"))
      | Some (inside, rest) =>
          let port_ok := is_some_and (strip_prefix [COLON] rest) port_digits in
          if negb (is_nil rest) && negb port_ok
          then Err (InvalidRule (lit "network_rule host contains an unsupported suffix: " ++ raw))
          else Ok inside
      end
  | None =>
      if Nat.eqb (length (List.filter (N.eqb COLON) h)) 1 then
        match rsplit_once COLON h with
        | Some (candidate, port) =>
            if negb (is_nil candidate) && port_digits port then Ok candidate else Ok h
        | None => Ok h
        end
      else Ok h
  end.

Definition normalize_network_rule_host (raw : str) : result str Error :=
  let h := trim raw in
  if is_nil h then Err (InvalidRule (lit "network_rule host cannot be empty"))
  else if contains (lit "://") h || contains_char 47%N h || contains_char 63%N h || contains_char 35%N h
  then Err (InvalidRule (lit "network_rule host must be a hostname or IP literal (without scheme or path)"))
  else
    let? h := strip_port raw h in
    let normalized := to_ascii_lowercase (trim (drop_while_end (N.eqb 46%N) h)) in
    if is_nil normalized then Err (InvalidRule (lit "network_rule host cannot be empty"))
    else if contains_char 42%N normalized
    then Err (InvalidRule (lit "network_rule host must be a specific host; wildcards are not allowed"))
    else if existsb is_whitespace normalized
    then Err (InvalidRule (lit "network_rule host cannot contain whitespace"))
    else Ok normalized.

(** ** Theorems *)

Lemma decision_max_ge_l a b : decision_le a (decision_max a b).
Proof. unfold decision_le, decision_max. destruct (Nat.leb_spec (severity a) (severity b)); lia. Qed.
Lemma decision_max_ge_r a b : decision_le b (decision_max a b).
Proof. unfold decision_le, decision_max. destruct (Nat.leb_spec (severity a) (severity b)); lia. Qed.
Lemma decision_le_trans a b c : decision_le a b -> decision_le b c -> decision_le a c.
Proof. unfold decision_le. lia. Qed.
Lemma decision_le_antisym a b : decision_le a b -> decision_le b a -> a = b.
Proof. unfold decision_le. destruct a, b; simpl; intros; done || lia. Qed.

Create HintDb policy.
#[export] Hint Resolve decision_max_ge_l decision_max_ge_r decision_le_trans : policy.

Lemma token_matches_spec p t : token_matches p t = true <-> t ∈ alternatives p.
Proof.
  destruct p as [s|l]; simpl.
  - rewrite str_eqb_spec. set_solver.
  - rewrite existsb_exists, list_elem_of_In. split.
    + by intros (x & Hx & ->%str_eqb_spec).
    + intros H. exists t. split; [done|]. apply str_eqb_refl.
Qed.

Lemma all_match_spec ps ts :
  length ts = length ps -> all_match ps ts = true <-> Forall2 (fun p t => t ∈ alternatives p) ps ts.
Proof.
  revert ts; induction ps as [|p ps IH]; intros [|t ts] H; simplify_eq/=.
  - split; [constructor|done].
  - rewrite andb_true_iff, token_matches_spec, IH by done. split.
    + intros [? ?]. by constructor.
    + intros HF. by inversion HF.
Qed.

(** A prefix pattern, characterised on the command. *)
Lemma matches_prefix_iff p cmd mp :
  matches_prefix p cmd = Some mp <->
  exists args tail, mp = first p :: args /\ cmd = mp ++ tail
    /\ Forall2 (fun t a => a ∈ alternatives t) (rest p) args.
Proof.
  unfold matches_prefix. destruct cmd as [|c0 cargs]; [split; [done|]; intros (? & ? & -> & ? & _); done|].
  destruct (Nat.ltb_spec (length (c0 :: cargs)) (length (rest p) + 1)) as [Hl|Hl]; simpl in Hl.
  { split; [done|]. intros (args & tail & -> & Hc & HF). apply Forall2_length in HF. simplify_eq/=.
    rewrite length_app in Hl. lia. }
  destruct (str_eqb c0 (first p)) eqn:Ec; cbn [orb negb].
  2:{ split; [done|]. intros (args & tail & -> & Hc & _). simplify_eq/=. by rewrite str_eqb_refl in Ec. }
  apply str_eqb_spec in Ec as ->. replace (length (rest p) + 1 - 1) with (length (rest p)) by lia.
  assert (length (take (length (rest p)) cargs) = length (rest p)) as Hlen by (rewrite length_take; lia).
  destruct (all_match _ _) eqn:Em.
  - apply all_match_spec in Em; [|done]. rewrite Nat.add_1_r. cbn [take firstn]. split.
    + intros [= <-]. exists (take (length (rest p)) cargs), (drop (length (rest p)) cargs).
      split_and!; [done| |done]. simpl. by rewrite take_drop.
    + intros (args & tail & -> & Hc & HF). apply Forall2_length in HF. simplify_eq/=.
      by rewrite HF, take_app_length.
  - split; [done|]. intros (args & tail & -> & Hc & HF). pose proof (Forall2_length _ _ _ HF) as Hf.
    simplify_eq/=. rewrite Hf, take_app_length in Em, Hlen. apply all_match_spec in HF; [|done]. congruence.
Qed.

(** A prefix rule matches exactly the commands that begin with its program
    and, token by token, one alternative of each pattern element; the matched
    prefix it reports is that beginning. *)
Theorem matches_prefix_spec (p : PrefixPattern) (cmd mp : list str) :
  matches_prefix p cmd = Some mp <->
  exists args tail, mp = first p :: args /\ cmd = mp ++ tail
    /\ Forall2 (fun t a => a ∈ alternatives t) (rest p) args.
Proof. apply matches_prefix_iff. Qed.

Lemma contains_char_spec c s : contains_char c s = true <-> c ∈ s.
Proof.
  unfold contains_char. rewrite existsb_exists, list_elem_of_In. split.
  - by intros (x & Hx & ->%N.eqb_eq).
  - intros H. exists c. split; [done|]. apply N.eqb_refl.
Qed.

Lemma split_once_sub c s a b x : split_once c s = Some (a, b) -> x ∈ a \/ x ∈ b -> x ∈ s.
Proof. intros [-> _]%split_once_Some. set_solver. Qed.

Lemma rsplit_once_sub c s a b x : rsplit_once c s = Some (a, b) -> x ∈ a -> x ∈ s.
Proof.
  unfold rsplit_once. destruct (split_once c (rev s)) as [[u v]|] eqn:E; [|done]. intros [= <- <-] Hx.
  apply list_elem_of_In, in_rev, list_elem_of_In in Hx.
  apply (split_once_sub _ _ _ _ x) in E; [|by right].
  by apply list_elem_of_In, in_rev, list_elem_of_In in E.
Qed.

Lemma strip_port_sub raw h h' x : strip_port raw h = Ok h' -> x ∈ h' -> x ∈ h.
Proof.
  unfold strip_port. intros H Hx. destruct (strip_prefix _ h) as [st|] eqn:E.
  - apply strip_prefix_Some in E as ->. destruct (split_once 93%N st) as [[i r]|] eqn:Es; [|done].
    cbv zeta in H. destruct (_ && _); [done|]. injection H as ->.
    apply (split_once_sub _ _ _ _ x) in Es; [|by left]. set_solver.
  - destruct (Nat.eqb _ _); [|by injection H as ->].
    destruct (rsplit_once COLON h) as [[c p]|] eqn:Es; [|by injection H as ->].
    destruct (_ && _); injection H as ->; [|done]. by eapply rsplit_once_sub.
Qed.

(** An accepted network-rule host is a concrete lower-case host: non-empty,
    without upper-case ASCII letters, white space, wildcards, slashes, question
    marks or fragments. *)
Theorem normalize_network_rule_host_ok (raw h : str) :
  normalize_network_rule_host raw = Ok h ->
  h <> [] /\ Forall (fun c => ~ (65 <= c <= 90)%N /\ is_whitespace c = false) h
  /\ (42%N ∉ h) /\ (47%N ∉ h) /\ (63%N ∉ h) /\ (35%N ∉ h).
Proof.
  unfold normalize_network_rule_host. cbv zeta. intros H.
  destruct (is_nil (trim raw)); [done|]. destruct (_ || _) eqn:Ebad; [done|].
  apply result_bind_ok in H as (h0 & Hs & H). set (n := to_ascii_lowercase _) in H.
  destruct (is_nil n) eqn:En; [done|]. destruct (contains_char 42%N n) eqn:Est; [done|].
  destruct (existsb is_whitespace n) eqn:Ews; [done|]. injection H as <-. bool_to_prop.
  assert (forall c, (c < 65)%N -> c ∈ n -> c ∈ trim raw) as Hsub.
  { intros c Hc Hn. unfold n, to_ascii_lowercase in Hn.
    apply list_elem_of_In, in_map_iff in Hn as (x & Hx & Hin). apply ascii_lower_keeps in Hx; [|done].
    subst x. apply list_elem_of_In, trim_sub, drop_while_end_sub in Hin. by eapply strip_port_sub. }
  assert (forall c, contains_char c (trim raw) = false -> (c < 65)%N -> c ∉ n) as Hno.
  { intros c Hc Hl Hin. apply not_true_iff_false in Hc. apply Hc, contains_char_spec. auto. }
  split_and!; [done| | |by apply Hno..].
  - apply Forall_forall. intros c Hc. split.
    + unfold n, to_ascii_lowercase in Hc. apply list_elem_of_In, in_map_iff in Hc as (x & <- & _).
      apply ascii_lower_not_upper.
    + destruct (is_whitespace c) eqn:Ew; [|done]. apply not_true_iff_false in Ews. exfalso. apply Ews.
      apply existsb_exists. exists c. split; [by apply list_elem_of_In|done].
  - intros Hin%contains_char_spec. congruence.
Qed.

(** ** Witnesses *)

Lemma normalize_network_rule_host_ok_witness :
  normalize_network_rule_host (lit " API.GitHub.com:443 ") = Ok (lit "api.github.com")
  /\ (42%N ∉ lit "api.github.com").
Proof.
  assert (normalize_network_rule_host (lit " API.GitHub.com:443 ") = Ok (lit "api.github.com")) as H
    by (vm_compute; reflexivity).
  split; [exact H|]. apply (normalize_network_rule_host_ok _ _ H).
Defined.
