(* ===== verification/ExecPolicy.v ===== *)
(** * Exec-policy store and evaluation

    Models [codex-rs/execpolicy/src/policy.rs], [executable_name.rs] and the
    example validation at the end of [rule.rs].

    The [multimap] crate and the path type are interfaces with laws: [MultiMap]
    (keys to insertion-ordered vectors) and [AbsolutePathOps]. *)

From stdpp Require Import base list numbers option strings gmap sorting.
From Stdlib Require Import Lia.
From S2P Require Import Prelude RustStr ExecRule.

(** ** Interfaces *)

(** The operations of [multimap::MultiMap<String, V>] the policy uses. *)
Class MultiMap (M : Type) := {
  mm_new : M;
  mm_insert : str -> PrefixRule -> M -> M;
  mm_get_vec : M -> str -> option (list PrefixRule);
  mm_iter_all : M -> list (str * list PrefixRule);
}.

(** Their documented behaviour: [insert] appends to the key's vector; [iter_all]
    lists each key with its vector, once, in any order. *)
Class LawfulMultiMap (M : Type) `{MultiMap M} := {
  mm_get_new k : mm_get_vec mm_new k = None;
  mm_get_insert_eq k r m : mm_get_vec (mm_insert k r m) k = Some (default [] (mm_get_vec m k) ++ [r]);
  mm_get_insert_ne k k' r m : k <> k' -> mm_get_vec (mm_insert k r m) k' = mm_get_vec m k';
  mm_iter_all_spec k l m : (k, l) ∈ mm_iter_all m <-> mm_get_vec m k = Some l;
  mm_iter_all_nodup m : NoDup (mm_iter_all m).*1;
}.

(** [AbsolutePathBuf]: parsing a string and the last component as UTF-8. *)
Class AbsolutePathOps (P : Type) := {
  path_eq_dec :: EqDecision P;
  path_try_from : str -> option P;
  path_file_name_str : P -> option str;
}.

(** ** Executable names *)

Definition WINDOWS_EXECUTABLE_SUFFIXES : list str :=
  [lit ".exe"; lit ".cmd"; lit ".bat"; lit ".com"].

(** The loop returns at the first suffix that matches. *)
Fixpoint strip_first_suffix (suffixes : list str) (raw : str) : str :=
  match suffixes with
  | [] => raw
  | s :: rest => match strip_suffix s raw with Some r => r | None => strip_first_suffix rest raw end
  end.

(** [windows] selects the [cfg(windows)] body. *)
Definition executable_lookup_key (windows : bool) (raw : str) : str :=
  if windows then strip_first_suffix WINDOWS_EXECUTABLE_SUFFIXES (to_ascii_lowercase raw) else raw.

Record MatchOptions := mkOptions { resolve_host_executables : bool }.
Definition default_options : MatchOptions := mkOptions false.

(** [Vec::dedup]: drops consecutive equal elements. *)
Fixpoint dedup {A} `{EqDecision A} (l : list A) : list A :=
  match l with
  | [] => []
  | x :: l' =>
      match dedup l' with
      | [] => [x]
      | (y :: _) as d => if decide (x = y) then d else x :: d
      end
  end.

(** [str]'s and [Vec<String>]'s [Ord]: lexicographic. *)
Fixpoint str_leb (a b : str) : bool :=
  match a, b with
  | [], _ => true
  | _ :: _, [] => false
  | x :: a', y :: b' => N.ltb x y || (N.eqb x y && str_leb a' b')
  end.
Fixpoint strs_leb (a b : list str) : bool :=
  match a, b with
  | [], _ => true
  | _ :: _, [] => false
  | x :: a', y :: b' => (str_leb x y && negb (str_eqb x y)) || (str_eqb x y && strs_leb a' b')
  end.

Definition str_le (a b : str) : Prop := str_leb a b = true.
Definition strs_le (a b : list str) : Prop := strs_leb a b = true.
#[export] Instance str_le_dec : RelDecision str_le := fun a b => bool_eq_dec _ _.
#[export] Instance strs_le_dec : RelDecision strs_le := fun a b => bool_eq_dec _ _.

Section policy.
Context {M P : Type} `{MultiMap M, AbsolutePathOps P}.
Context (windows : bool).
Local Notation RuleMatch := (RuleMatch P).

Definition executable_path_lookup_key (path : P) : option str :=
  match path_file_name_str path with
  | Some name => Some (executable_lookup_key windows name)
  | None => None
  end.

Record Policy := from_parts {
  rules_by_program : M;
  network_rules : list NetworkRule;
  host_executables_by_name : gmap str (list P);
}.

Definition policy_new (rules : M) : Policy := from_parts rules [] ∅.
Definition policy_empty : Policy := policy_new mm_new.

Definition render_pattern_token (t : PatternToken) : str :=
  match t with
  | Single value => value
  | Alts alts => lit "[" ++ join (lit "|") alts ++ lit "]"
  end.

Definition render_prefix (r : PrefixRule) : list str :=
  first (pattern r) :: map render_pattern_token (rest (pattern r)).

Definition get_allowed_prefixes (p : Policy) : list (list str) :=
  let rules := concat (mm_iter_all (rules_by_program p)).*2 in
  let allowed := List.filter (fun r => bool_decide (rule_decision r = Allow)) rules in
  dedup (merge_sort strs_le (map render_prefix allowed)).

Definition add_prefix_rule (p : Policy) (prefix : list str) (d : Decision) : result Policy Error :=
  match prefix with
  | [] => Err (InvalidPattern (lit "prefix cannot be empty"))
  | first_token :: rest =>
      let rule := mkRule (mkPattern first_token (map Single rest)) d None in
      Ok (from_parts (mm_insert first_token rule (rules_by_program p))
            (network_rules p) (host_executables_by_name p))
  end.

Definition blank (j : option str) : bool := is_some_and j (fun raw => is_nil (trim raw)).

Definition add_network_rule (p : Policy) (h : str) (proto : NetworkRuleProtocol) (d : Decision)
    (j : option str) : result Policy Error :=
  let? h := normalize_network_rule_host h in
  if blank j then Err (InvalidRule (lit "justification cannot be empty"))
  else Ok (from_parts (rules_by_program p) (network_rules p ++ [mkNetworkRule h proto d j])
             (host_executables_by_name p)).

Definition set_host_executable_paths (p : Policy) (name : str) (paths : list P) : Policy :=
  from_parts (rules_by_program p) (network_rules p) (<[name := paths]> (host_executables_by_name p)).

(** The two nested loops of [merge_overlay]. *)
Definition insert_all (m : M) (k : str) (rules : list PrefixRule) : M :=
  foldl (fun m r => mm_insert k r m) m rules.
Definition insert_entries (m : M) (entries : list (str * list PrefixRule)) : M :=
  foldl (fun m e => insert_all m e.1 e.2) m entries.

Definition merge_overlay (p overlay : Policy) : Policy :=
  from_parts (insert_entries (rules_by_program p) (mm_iter_all (rules_by_program overlay)))
    (network_rules p ++ network_rules overlay)
    (host_executables_by_name overlay ∪ host_executables_by_name p).

(** [entries.retain(|entry| entry != host)]. *)
Definition retain_not (h : str) (entries : list str) : list str :=
  List.filter (fun e => negb (str_eqb e h)) entries.
Definition upsert_domain (entries : list str) (h : str) : list str := retain_not h entries ++ [h].

Definition compile_step (acc : list str * list str) (r : NetworkRule) : list str * list str :=
  let '(allowed, denied) := acc in
  match net_decision r with
  | Allow => (upsert_domain allowed (host r), retain_not (host r) denied)
  | Forbidden => (retain_not (host r) allowed, upsert_domain denied (host r))
  | Prompt => (allowed, denied)
  end.
Definition compiled_network_domains (p : Policy) : list str * list str :=
  foldl compile_step ([], []) (network_rules p).

(** [rules.iter().filter_map(|rule| rule.matches(cmd)).collect()]. *)
Definition matches_of (rules : list PrefixRule) (cmd : list str) : list RuleMatch :=
  omap (fun r => rule_matches r cmd) rules.

Definition match_exact_rules (p : Policy) (cmd : list str) : option (list RuleMatch) :=
  match cmd with
  | [] => None
  | c :: _ =>
      Some (match mm_get_vec (rules_by_program p) c with
            | Some rules => matches_of rules cmd
            | None => []
            end)
  end.

Definition match_host_executable_rules (p : Policy) (cmd : list str) : list RuleMatch :=
  match cmd with
  | [] => []
  | c :: args =>
      match path_try_from c with
      | None => []
      | Some prog =>
          match executable_path_lookup_key prog with
          | None => []
          | Some basename =>
              match mm_get_vec (rules_by_program p) basename with
              | None => []
              | Some rules =>
                  if is_some_and (host_executables_by_name p !! basename)
                       (fun paths => negb (existsb (fun q => bool_decide (q = prog)) paths))
                  then []
                  else map (fun m => with_resolved_program m prog) (matches_of rules (basename :: args))
              end
          end
      end
  end.

(** [Option::filter(|m| !m.is_empty())]. *)
Definition non_empty (o : option (list RuleMatch)) : option (list RuleMatch) :=
  match o with Some [] => None | _ => o end.

Definition matches_for_command_with_options (p : Policy) (cmd : list str)
    (heuristics_fallback : option (list str -> Decision)) (options : MatchOptions) : list RuleMatch :=
  let matched_rules :=
    match non_empty (match_exact_rules p cmd) with
    | Some m => m
    | None =>
        default [] (non_empty (if resolve_host_executables options
                               then Some (match_host_executable_rules p cmd) else None))
    end in
  match matched_rules, heuristics_fallback with
  | [], Some fallback => [HeuristicsRuleMatch cmd (fallback cmd)]
  | _, _ => matched_rules
  end.

Definition matches_for_command (p : Policy) (cmd : list str) (fb : option (list str -> Decision)) :=
  matches_for_command_with_options p cmd fb default_options.

Record Evaluation := mkEvaluation { decision : Decision; matched_rules : list RuleMatch }.

Definition is_heuristics (m : RuleMatch) : bool :=
  match m with HeuristicsRuleMatch _ _ => true | _ => false end.
Definition is_match (e : Evaluation) : bool := existsb (fun m => negb (is_heuristics m)) (matched_rules e).

(** [Iterator::max] over the decisions. *)
Fixpoint max_decision (ds : list Decision) : option Decision :=
  match ds with
  | [] => None
  | d :: ds' => Some (match max_decision ds' with Some m => decision_max d m | None => d end)
  end.

(** [None]: the [expect] panics. *)
Definition from_matches (ms : list RuleMatch) : option Evaluation :=
  match max_decision (map match_decision ms) with
  | Some d => Some (mkEvaluation d ms)
  | None => None
  end.

Definition check_with_options (p : Policy) (cmd : list str) (fallback : list str -> Decision)
    (options : MatchOptions) : option Evaluation :=
  from_matches (matches_for_command_with_options p cmd (Some fallback) options).

Definition check (p : Policy) (cmd : list str) (fallback : list str -> Decision) : option Evaluation :=
  from_matches (matches_for_command_with_options p cmd (Some fallback) default_options).

Definition check_multiple_with_options (p : Policy) (commands : list (list str))
    (fallback : list str -> Decision) (options : MatchOptions) : option Evaluation :=
  from_matches
    (flat_map (fun c => matches_for_command_with_options p c (Some fallback) options) commands).

Definition check_multiple (p : Policy) (commands : list (list str)) (fallback : list str -> Decision) :=
  check_multiple_with_options p commands fallback default_options.

(** ** Example validation *)

(** [try_join] is [shlex::try_join]; [show_rule] and [show_match] the derived
    [Debug] renderings. *)
Context (try_join : list str -> option str) (show_rule : PrefixRule -> str) (show_match : RuleMatch -> str).

Definition render_example (example : list str) : str :=
  default (lit "unable to render example") (try_join example).

Definition example_matches (p : Policy) (example : list str) : list RuleMatch :=
  matches_for_command_with_options p example None (mkOptions true).

Definition validate_match_examples (p : Policy) (rules : list PrefixRule) (matches : list (list str))
    : result unit Error :=
  let unmatched_examples :=
    map render_example (List.filter (fun e => is_nil (example_matches p e)) matches) in
  if is_nil unmatched_examples then Ok ()
  else Err (ExampleDidNotMatch (map show_rule rules) unmatched_examples None).

Fixpoint validate_not_match_examples (p : Policy) (not_matches : list (list str)) : result unit Error :=
  match not_matches with
  | [] => Ok ()
  | example :: more =>
      match example_matches p example with
      | m :: _ => Err (ExampleDidMatch (show_match m) (render_example example) None)
      | [] => validate_not_match_examples p more
      end
  end.

(** [RequirementsExecPolicy::fingerprint]. *)
Definition fingerprint (p : Policy) : list str :=
  merge_sort str_le
    (flat_map (fun e => map (fun r => e.1 ++ lit ":" ++ show_rule r) e.2)
       (mm_iter_all (rules_by_program p))).
Definition requirements_eq (a b : Policy) : bool := bool_decide (fingerprint a = fingerprint b).

End policy.
Arguments Policy : clear implicits.
Arguments Evaluation : clear implicits.
Arguments policy_new {M P} _.
Arguments policy_empty {M P _}.

(** ** Evaluation takes the strictest match *)

Lemma max_decision_spec ds d :
  max_decision ds = Some d -> d ∈ ds /\ Forall (fun x => decision_le x d) ds.
Proof.
  revert d; induction ds as [|x ds IH]; intros d; simpl; [done|]. intros [= <-].
  destruct (max_decision ds) as [m|] eqn:E.
  - destruct (IH m eq_refl) as [Hin HF]. split.
    + unfold decision_max. destruct (Nat.leb _ _); set_solver.
    + constructor; [apply decision_max_ge_l|]. eapply Forall_impl; [exact HF|].
      intros y Hy. eapply decision_le_trans; [exact Hy|apply decision_max_ge_r].
  - destruct ds; [|done]. split; [set_solver|]. apply Forall_singleton. red. lia.
Qed.

Lemma max_decision_None ds : max_decision ds = None <-> ds = [].
Proof. by destruct ds. Qed.

Lemma max_decision_unique ds d :
  d ∈ ds -> Forall (fun x => decision_le x d) ds -> max_decision ds = Some d.
Proof.
  intros Hin HF. destruct (max_decision ds) as [m|] eqn:E.
  - apply max_decision_spec in E as [Hm HFm]. f_equal. rewrite Forall_forall in HF, HFm.
    apply decision_le_antisym; auto.
  - apply max_decision_None in E as ->. set_solver.
Qed.

Section policy_theorems.
Context {M P : Type} `{LawfulMultiMap M, AbsolutePathOps P}.
Context (windows : bool).

Lemma from_matches_None (ms : list (RuleMatch P)) : from_matches ms = None <-> ms = [].
Proof. by destruct ms. Qed.

Lemma from_matches_strictest (ms : list (RuleMatch P)) e :
  from_matches ms = Some e ->
  matched_rules e = ms /\ Exists (fun m => match_decision m = decision e) ms
  /\ Forall (fun m => decision_le (match_decision m) (decision e)) ms.
Proof.
  unfold from_matches. destruct (max_decision _) as [d|] eqn:E; [|done]. intros [= <-]. simpl.
  apply max_decision_spec in E as [Hin HF]. split_and!; [done| |by apply Forall_map in HF].
  apply Exists_exists. apply list_elem_of_In, in_map_iff in Hin as (m & ? & Hm).
  exists m. split; [by apply list_elem_of_In|done].
Qed.

Lemma matches_nonempty (p : Policy M P) cmd fb o :
  matches_for_command_with_options windows p cmd (Some fb) o <> [].
Proof.
  unfold matches_for_command_with_options. cbv zeta. by destruct (match non_empty _ with Some m => m | None => _ end).
Qed.

(** Evaluating a command never hits the "matched rules must be non-empty"
    panic: there is always an evaluation, its decision is the decision of one of
    the reported matches and no reported match is stricter. *)
Theorem check_with_options_strictest (p : Policy M P) (cmd : list str) (fb : list str -> Decision)
    (o : MatchOptions) :
  exists e, check_with_options windows p cmd fb o = Some e
    /\ matched_rules e = matches_for_command_with_options windows p cmd (Some fb) o
    /\ Exists (fun m => match_decision m = decision e) (matched_rules e)
    /\ Forall (fun m => decision_le (match_decision m) (decision e)) (matched_rules e).
Proof.
  unfold check_with_options. destruct (from_matches _) as [e|] eqn:E.
  - exists e. pose proof (from_matches_strictest _ _ E) as (-> & ? & ?). done.
  - apply from_matches_None in E. by apply matches_nonempty in E.
Qed.

Lemma flat_map_nil {A B} (f : A -> list B) l : (forall x, f x <> []) -> flat_map f l = [] <-> l = [].
Proof.
  intros Hf. destruct l as [|x l]; simpl; [done|]. split; [|done]. intros E.
  apply app_eq_nil in E as [E _]. by apply Hf in E.
Qed.

(** Evaluating a batch panics exactly when the batch is empty, and otherwise
    its decision is the strictest of the decisions of its commands evaluated one
    by one. *)
Theorem check_multiple_strictest (p : Policy M P) (cmds : list (list str)) (fb : list str -> Decision)
    (o : MatchOptions) :
  (check_multiple_with_options windows p cmds fb o = None <-> cmds = [])
  /\ forall e, check_multiple_with_options windows p cmds fb o = Some e ->
     max_decision (omap (fun c => option_map decision (check_with_options windows p c fb o)) cmds)
     = Some (decision e).
Proof.
  unfold check_multiple_with_options. split.
  { rewrite from_matches_None. apply flat_map_nil. intros x. apply matches_nonempty. }
  intros e He. apply from_matches_strictest in He as (_ & Hex & Hall).
  assert (forall c, exists ec, check_with_options windows p c fb o = Some ec
    /\ Exists (fun m => match_decision m = decision ec) (matches_for_command_with_options windows p c (Some fb) o)
    /\ Forall (fun m => decision_le (match_decision m) (decision ec))
         (matches_for_command_with_options windows p c (Some fb) o)) as Hone.
  { intros c. unfold check_with_options. destruct (from_matches _) as [ec|] eqn:E.
    - apply from_matches_strictest in E as (_ & ? & ?). eauto.
    - apply from_matches_None in E. by apply matches_nonempty in E. }
  set (f := fun c => matches_for_command_with_options windows p c (Some fb) o) in *.
  assert (forall c m, c ∈ cmds -> m ∈ f c -> m ∈ flat_map f cmds) as Hsub.
  { intros c m Hc Hm. apply list_elem_of_In, in_flat_map. exists c. split; by apply list_elem_of_In. }
  rewrite Forall_forall in Hall. apply max_decision_unique.
  - apply Exists_exists in Hex as (m & Hm & Hd). apply list_elem_of_In, in_flat_map in Hm as (c & Hc & Hm).
    apply list_elem_of_In in Hc, Hm. destruct (Hone c) as (ec & Ec & Hec & Hle).
    rewrite list_elem_of_omap. exists c. split; [done|]. rewrite Ec. simpl. f_equal.
    apply Exists_exists in Hec as (m' & Hm' & Hd'). apply decision_le_antisym.
    + rewrite <- Hd'. eauto.
    + rewrite <- Hd. rewrite Forall_forall in Hle. eauto.
  - apply Forall_forall. intros d Hd. rewrite list_elem_of_omap in Hd. destruct Hd as (c & Hc & Hd).
    destruct (Hone c) as (ec & Ec & Hec & _). rewrite Ec in Hd. simpl in Hd. injection Hd as <-.
    apply Exists_exists in Hec as (m' & Hm' & <-). eauto.
Qed.

(** ** The program index *)

(** Every rule is stored under its own program. *)
Definition policy_wf (p : Policy M P) : Prop :=
  forall k rules, mm_get_vec (rules_by_program p) k = Some rules -> Forall (fun r => program r = k) rules.

(** The rules under a program, and all the rules. *)
Definition rules_of (p : Policy M P) (k : str) : list PrefixRule :=
  default [] (mm_get_vec (rules_by_program p) k).
Definition all_rules (p : Policy M P) : list PrefixRule :=
  concat (mm_iter_all (rules_by_program p)).*2.

Lemma match_exact_rules_of (p : Policy M P) c args :
  match_exact_rules p (c :: args) = Some (matches_of (rules_of p c) (c :: args)).
Proof. unfold match_exact_rules, rules_of. by destruct (mm_get_vec _ c). Qed.

Lemma rule_matches_program r c args (m : RuleMatch P) :
  rule_matches r (c :: args) = Some m -> program r = c.
Proof.
  unfold rule_matches, program. destruct (matches_prefix _ _) as [mp|] eqn:E; [|done]. intros _.
  apply matches_prefix_iff in E as (a & t & -> & Hc & _). by simplify_eq/=.
Qed.

Lemma elem_of_all_rules p r : r ∈ all_rules p <-> exists k, r ∈ rules_of p k.
Proof.
  unfold all_rules, rules_of. rewrite list_elem_of_In, in_concat. split.
  - intros (l & Hl & Hr). apply list_elem_of_In, list_elem_of_fmap in Hl as ([k l'] & -> & Hin).
    apply mm_iter_all_spec in Hin. exists k. rewrite Hin. by apply list_elem_of_In.
  - intros [k Hk]. destruct (mm_get_vec _ k) as [l|] eqn:E; [|set_solver]. exists l. split.
    + apply list_elem_of_In, list_elem_of_fmap. exists (k, l). split; [done|]. by apply mm_iter_all_spec.
    + by apply list_elem_of_In.
Qed.

(** Looking rules up by the command's program loses nothing: on a policy
    that stores every rule under its own program, the exact matches of a command
    are the matches of a scan over all the rules. *)
Theorem match_exact_rules_complete (p : Policy M P) (c : str) (args : list str) (m : RuleMatch P) :
  policy_wf p ->
  (exists ms, match_exact_rules p (c :: args) = Some ms /\ m ∈ ms)
  <-> exists r, r ∈ all_rules p /\ rule_matches r (c :: args) = Some m.
Proof.
  intros Hwf. rewrite match_exact_rules_of. split.
  - intros (ms & [= <-] & Hm). apply list_elem_of_omap in Hm as (r & Hr & Hm).
    exists r. split; [|done]. apply elem_of_all_rules. eauto.
  - intros (r & Hr & Hm). eexists; split; [done|]. apply list_elem_of_omap. exists r. split; [|done].
    apply elem_of_all_rules in Hr as [k Hk]. enough (k = c) as <- by done.
    apply rule_matches_program in Hm as <-. unfold rules_of in Hk.
    destruct (mm_get_vec _ k) as [l|] eqn:E; [|set_solver]. specialize (Hwf _ _ E).
    rewrite Forall_forall in Hwf. symmetry. by apply Hwf.
Qed.

(** *** Insertion and merging *)

Lemma get_insert k k' r (m : M) :
  default [] (mm_get_vec (mm_insert k r m) k') =
  default [] (mm_get_vec m k') ++ (if decide (k = k') then [r] else []).
Proof.
  destruct (decide (k = k')) as [<-|Hne].
  - by rewrite mm_get_insert_eq.
  - by rewrite mm_get_insert_ne, app_nil_r.
Qed.

Lemma get_insert_all k k' rs (m : M) :
  default [] (mm_get_vec (insert_all m k rs) k') =
  default [] (mm_get_vec m k') ++ (if decide (k = k') then rs else []).
Proof.
  unfold insert_all. revert m; induction rs as [|r rs IH]; intros m; simpl.
  - destruct (decide _); by rewrite app_nil_r.
  - rewrite IH, get_insert, <- app_assoc. by destruct (decide _).
Qed.

Lemma get_insert_entries_notin es k (m : M) :
  k ∉ es.*1 -> default [] (mm_get_vec (insert_entries m es) k) = default [] (mm_get_vec m k).
Proof.
  unfold insert_entries. revert m; induction es as [|[k' rs] es IH]; intros m; simpl; [done|].
  intros [Hne Hin]%not_elem_of_cons. rewrite IH, get_insert_all by done.
  rewrite decide_False by done. by rewrite app_nil_r.
Qed.

Lemma get_insert_entries es k rs (m : M) :
  NoDup es.*1 -> (k, rs) ∈ es ->
  default [] (mm_get_vec (insert_entries m es) k) = default [] (mm_get_vec m k) ++ rs.
Proof.
  revert m; induction es as [|[k' rs'] es IH]; intros m Hnd Hin; [set_solver|].
  apply NoDup_cons in Hnd as [Hn Hnd]. simpl in Hn. apply elem_of_cons in Hin as [Heq|Hin]; simpl.
  - injection Heq as <- <-. rewrite get_insert_entries_notin, get_insert_all by done.
    by rewrite decide_True.
  - assert (k ∈ es.*1) by (apply list_elem_of_fmap; by exists (k, rs)).
    change (insert_entries m ((k', rs') :: es)) with (insert_entries (insert_all m k' rs') es).
    rewrite IH by done. rewrite get_insert_all, decide_False by naive_solver. by rewrite app_nil_r.
Qed.

Lemma merge_overlay_rules_of (p o : Policy M P) k :
  rules_of (merge_overlay p o) k = rules_of p k ++ rules_of o k.
Proof.
  unfold rules_of, merge_overlay. cbn [rules_by_program].
  destruct (mm_get_vec (rules_by_program o) k) as [rs|] eqn:E.
  - apply get_insert_entries; [apply mm_iter_all_nodup|by apply mm_iter_all_spec].
  - rewrite get_insert_entries_notin; [by rewrite app_nil_r|].
    intros ([k' rs] & -> & Hin)%list_elem_of_fmap. apply mm_iter_all_spec in Hin. simpl in E. congruence.
Qed.

Lemma policy_wf_rules_of (p : Policy M P) :
  policy_wf p <-> forall k, Forall (fun r => program r = k) (rules_of p k).
Proof.
  unfold policy_wf, rules_of. split.
  - intros Hwf k. destruct (mm_get_vec _ k) eqn:E; [by apply Hwf|constructor].
  - intros Hwf k rs E. specialize (Hwf k). by rewrite E in Hwf.
Qed.

(** The index invariant (every rule stored under its own program) holds of
    the empty policy and is preserved by adding a prefix rule, adding a network
    rule, declaring host executables and merging an overlay. *)
Theorem policy_wf_preserved :
  policy_wf (@policy_empty M P _)
  /\ (forall p prefix d p', policy_wf p -> add_prefix_rule p prefix d = Ok p' -> policy_wf p')
  /\ (forall p h proto d j p', policy_wf p -> add_network_rule p h proto d j = Ok p' -> policy_wf p')
  /\ (forall p name paths, policy_wf p -> policy_wf (set_host_executable_paths p name paths))
  /\ (forall p o, policy_wf p -> policy_wf o -> policy_wf (merge_overlay p o)).
Proof.
  split_and!.
  - intros k rs. cbn. by rewrite mm_get_new.
  - intros p [|f rs] d p' Hwf H'; simplify_eq/=. rewrite policy_wf_rules_of in *. intros k.
    unfold rules_of. cbn [rules_by_program]. rewrite get_insert. apply Forall_app. split; [apply Hwf|].
    destruct (decide _); [by apply Forall_singleton|constructor].
  - intros p h proto d j p' Hwf H'. unfold add_network_rule in H'. inv_bind. destruct (blank j); [done|].
    by injection H' as <-.
  - intros p name paths Hwf. exact Hwf.
  - intros p o Hp Ho. rewrite policy_wf_rules_of in *. intros k. rewrite merge_overlay_rules_of.
    apply Forall_app. auto.
Qed.

(** When a rule matches exactly, the fallback and the host lookup play no part. *)
Lemma matches_when_exact (p : Policy M P) c args fb o :
  matches_of (P:=P) (rules_of p c) (c :: args) <> [] ->
  matches_for_command_with_options windows p (c :: args) fb o = matches_of (rules_of p c) (c :: args).
Proof.
  intros Hne. unfold matches_for_command_with_options. rewrite match_exact_rules_of. cbv zeta.
  destruct (matches_of _ _) eqn:E; [done|]. cbn [non_empty]. by destruct fb.
Qed.

Lemma matches_of_app rs rs' cmd :
  matches_of (P:=P) (rs ++ rs') cmd = matches_of rs cmd ++ matches_of rs' cmd.
Proof. apply omap_app. Qed.

Lemma check_when_exact (p : Policy M P) c args fb o e :
  matches_of (P:=P) (rules_of p c) (c :: args) <> [] ->
  check_with_options windows p (c :: args) fb o = Some e ->
  matched_rules e = matches_of (rules_of p c) (c :: args)
  /\ Exists (fun m => match_decision m = decision e) (matched_rules e)
  /\ Forall (fun m => decision_le (match_decision m) (decision e)) (matched_rules e).
Proof.
  intros Hne. unfold check_with_options. rewrite matches_when_exact by done.
  intros H'. by apply from_matches_strictest in H' as (-> & ? & ?).
Qed.

(** More rules never make a command one of them matches exactly less strict. *)
Lemma more_rules_stricter (p p' : Policy M P) c args fb opts e e' :
  (forall r, r ∈ rules_of p c -> r ∈ rules_of p' c) ->
  match_exact_rules p (c :: args) <> Some [] ->
  check_with_options windows p (c :: args) fb opts = Some e ->
  check_with_options windows p' (c :: args) fb opts = Some e' ->
  decision_le (decision e) (decision e').
Proof.
  intros Hrules Hne He He'. rewrite match_exact_rules_of in Hne.
  assert (matches_of (P:=P) (rules_of p c) (c :: args) <> []) as Hne' by congruence.
  assert (forall m, m ∈ matches_of (P:=P) (rules_of p c) (c :: args) -> m ∈ matches_of (P:=P) (rules_of p' c) (c :: args)) as Hsub.
  { intros m (r & Hr & Hm)%list_elem_of_omap. apply list_elem_of_omap. exists r. auto. }
  apply check_when_exact in He as (Hm & Hex & _); [|done]. apply check_when_exact in He' as (Hm' & _ & Hall).
  - rewrite Hm in Hex. rewrite Hm' in Hall. apply Exists_exists in Hex as (m & Hin & <-).
    rewrite Forall_forall in Hall. auto.
  - intros Hnil. rewrite Hnil in Hsub. destruct (matches_of (rules_of p c) (c :: args)) as [|m l]; [done|].
    specialize (Hsub m ltac:(set_solver)). set_solver.
Qed.

(** Merging an overlay never relaxes a command some base rule matches
    exactly, nor one an overlay rule matches exactly: the merged decision is at
    least as strict as the decision of either side. *)
Theorem merge_overlay_never_relaxes (p o : Policy M P) (c : str) (args : list str)
    (fb : list str -> Decision) (opts : MatchOptions) (side : Policy M P) (e e' : Evaluation P) :
  side = p \/ side = o ->
  match_exact_rules side (c :: args) <> Some [] ->
  check_with_options windows side (c :: args) fb opts = Some e ->
  check_with_options windows (merge_overlay p o) (c :: args) fb opts = Some e' ->
  decision_le (decision e) (decision e').
Proof.
  intros Hside Hne He He'. eapply more_rules_stricter; [|exact Hne|exact He|exact He'].
  intros r. rewrite merge_overlay_rules_of. destruct Hside as [->| ->]; set_solver.
Qed.

Lemma add_prefix_rules_of (p p' : Policy M P) f rs d k :
  add_prefix_rule p (f :: rs) d = Ok p' ->
  rules_of p' k = rules_of p k ++ (if decide (f = k) then [mkRule (mkPattern f (map Single rs)) d None] else []).
Proof. intros [= <-]. unfold rules_of. cbn [rules_by_program]. apply get_insert. Qed.

Lemma singles_match rs : Forall2 (fun t a => a ∈ alternatives t) (map Single rs) rs.
Proof. induction rs; simpl; constructor; [set_solver|done]. Qed.

Lemma singles_match_inv rs args : Forall2 (fun t a => a ∈ alternatives t) (map Single rs) args -> args = rs.
Proof.
  revert args; induction rs as [|r rs IH]; intros args HF; simpl in HF; [by inversion HF|].
  inversion HF as [|? a ? args' Ha HF']; subst. simpl in Ha. f_equal; [set_solver|by apply IH].
Qed.

(** After [add_prefix_rule prefix d], a command that starts with the prefix
    is matched by a rule and judged at least as strictly as [d]; every other
    command has exactly the matches it had before. *)
Theorem add_prefix_rule_effect (p p' : Policy M P) (prefix : list str) (d : Decision)
    (fb : list str -> Decision) (o : MatchOptions) :
  add_prefix_rule p prefix d = Ok p' ->
  (forall tail e, check_with_options windows p' (prefix ++ tail) fb o = Some e ->
     is_match e = true /\ decision_le d (decision e)
     /\ PrefixRuleMatch prefix d None None ∈ matched_rules e)
  /\ (forall cmd, (~ exists tail, cmd = prefix ++ tail) ->
        match_exact_rules p' cmd = match_exact_rules p cmd).
Proof.
  destruct prefix as [|f rs]; [done|]. intros Hadd. split.
  - intros tail e He. cbn [app] in He. set (m := PrefixRuleMatch (f :: rs) d None None).
    assert (m ∈ matches_of (P:=P) (rules_of p' f) (f :: rs ++ tail)) as Hin.
    { rewrite (add_prefix_rules_of _ _ _ _ _ _ Hadd), decide_True, matches_of_app by done.
      apply elem_of_app; right. apply list_elem_of_omap. eexists; split; [apply list_elem_of_singleton; done|].
      unfold rule_matches. cbn [pattern].
      assert (matches_prefix (mkPattern f (map Single rs)) (f :: rs ++ tail) = Some (f :: rs)) as ->; [|done].
      apply matches_prefix_iff. exists rs, tail. split_and!; [done|done|by apply singles_match]. }
    apply check_when_exact in He as (Hm & _ & Hall); [|intros E; rewrite E in Hin; set_solver].
    rewrite <- Hm in Hin. split_and!; [|rewrite Forall_forall in Hall; by apply (Hall m)|done].
    apply existsb_exists. exists m. split; [by apply list_elem_of_In|done].
  - intros [|c args] Hno; [done|]. rewrite !match_exact_rules_of. f_equal.
    rewrite (add_prefix_rules_of _ _ _ _ _ _ Hadd), matches_of_app. destruct (decide (f = c)) as [<-|]; [|by rewrite app_nil_r].
    rewrite <- (app_nil_r (matches_of (rules_of p f) (f :: args))) at 2. f_equal. unfold matches_of; simpl.
    unfold rule_matches. cbn [pattern]. destruct (matches_prefix _ _) as [mp|] eqn:E; [|done].
    apply matches_prefix_iff in E as (a & t & -> & Hc & HF). simpl in HF, Hc. apply singles_match_inv in HF as ->.
    destruct Hno. exists t. done.
Qed.

(** ** Host executables *)

(** Host-executable resolution: every match it yields comes from a rule
    stored under the lookup key of the command's absolute path, matches the
    command with the path replaced by that key, and reports the path; when a
    path list is declared for the key the path is on it. *)
Theorem match_host_executable_sound (p : Policy M P) (cmd : list str) (m : RuleMatch P) :
  m ∈ match_host_executable_rules windows p cmd ->
  exists c args prog key r m0,
    cmd = c :: args /\ path_try_from c = Some prog
    /\ executable_path_lookup_key windows prog = Some key
    /\ r ∈ rules_of p key /\ rule_matches r (key :: args) = Some m0
    /\ m = with_resolved_program m0 prog
    /\ (forall paths, host_executables_by_name p !! key = Some paths -> prog ∈ paths).
Proof using Type.
  unfold match_host_executable_rules. destruct cmd as [|c args]; [by intros []%not_elem_of_nil|].
  destruct (path_try_from c) as [prog|] eqn:Et; [|by intros []%not_elem_of_nil].
  destruct (executable_path_lookup_key windows prog) as [key|] eqn:Ek; [|by intros []%not_elem_of_nil].
  destruct (mm_get_vec _ key) as [rs|] eqn:Er; [|by intros []%not_elem_of_nil].
  destruct (is_some_and _ _) eqn:Es; [by intros []%not_elem_of_nil|]. intros (m0 & -> & Hm)%list_elem_of_fmap.
  apply list_elem_of_omap in Hm as (r & Hr & Hm). exists c, args, prog, key, r, m0. split_and!; try done.
  - unfold rules_of. by rewrite Er.
  - intros paths Hp. rewrite Hp in Es. simpl in Es. apply negb_false_iff, existsb_exists in Es as (q & Hq & Hb).
    apply bool_decide_eq_true in Hb as ->. by apply list_elem_of_In.
Qed.

(** Declaring an executable with an empty path list turns host resolution
    off for that name. *)
Theorem empty_host_paths_block (p : Policy M P) (c : str) (args : list str) (prog : P) (key : str) :
  path_try_from c = Some prog -> executable_path_lookup_key windows prog = Some key ->
  match_host_executable_rules windows (set_host_executable_paths p key []) (c :: args) = [].
Proof.
  intros Et Ek. unfold match_host_executable_rules, set_host_executable_paths. rewrite Et, Ek.
  cbn [rules_by_program host_executables_by_name]. destruct (mm_get_vec _ key); [|done].
  by rewrite lookup_insert_eq.
Qed.

(** ** Example validation *)

Context (try_join : list str -> option str) (show_rule : PrefixRule -> str)
        (show_match : RuleMatch P -> str).

Lemma validate_match_iff (p : Policy M P) (rules : list PrefixRule) (pos : list (list str)) :
  validate_match_examples windows try_join show_rule p rules pos = Ok ()
  <-> Forall (fun ex => example_matches windows p ex <> []) pos.
Proof.
  unfold validate_match_examples. cbv zeta. induction pos as [|ex pos IH]; cbn [List.filter].
  { split; [constructor|done]. }
  rewrite Forall_cons. destruct (is_nil (example_matches windows p ex)) eqn:E; bool_to_prop.
  - cbn [map is_nil]. split; [done|]. intros [? _]. done.
  - rewrite IH. naive_solver.
Qed.

Lemma validate_not_match_iff (p : Policy M P) (neg : list (list str)) :
  validate_not_match_examples windows try_join show_match p neg = Ok ()
  <-> Forall (fun ex => example_matches windows p ex = []) neg.
Proof.
  induction neg as [|ex neg IH]; cbn [validate_not_match_examples]; [split; [constructor|done]|].
  rewrite Forall_cons. destruct (example_matches windows p ex) eqn:E; [|naive_solver]. rewrite IH. naive_solver.
Qed.

End policy_theorems.

(** ** Network domains *)

(** The last rule for a host that is not [prompt]. *)
Fixpoint last_verdict (h : str) (rs : list NetworkRule) : option Decision :=
  match rs with
  | [] => None
  | r :: rs' =>
      match last_verdict h rs' with
      | Some d => Some d
      | None => if decide (host r = h /\ net_decision r <> Prompt) then Some (net_decision r) else None
      end
  end.

Lemma elem_retain_not h x l : x ∈ retain_not h l <-> x ∈ l /\ x <> h.
Proof.
  unfold retain_not. rewrite list_elem_of_In, filter_In, <- list_elem_of_In, negb_true_iff, str_eqb_false. done.
Qed.

Lemma elem_upsert h x l : x ∈ upsert_domain l h <-> x ∈ l \/ x = h.
Proof.
  unfold upsert_domain. rewrite elem_of_app, elem_retain_not, list_elem_of_singleton.
  destruct (decide (x = h)); naive_solver.
Qed.

Lemma NoDup_retain_not h l : NoDup l -> NoDup (retain_not h l).
Proof. rewrite !NoDup_ListNoDup. apply List.NoDup_filter. Qed.

Lemma NoDup_upsert h l : NoDup l -> NoDup (upsert_domain l h).
Proof.
  intros Hl. apply NoDup_app. split_and!; [by apply NoDup_retain_not| |apply NoDup_singleton].
  intros x [_ Hx]%elem_retain_not. set_solver.
Qed.

Lemma last_verdict_snoc h rs r :
  last_verdict h (rs ++ [r]) =
  if decide (host r = h /\ net_decision r <> Prompt) then Some (net_decision r) else last_verdict h rs.
Proof.
  induction rs as [|r' rs IH]; simpl; [done|]. rewrite IH. by destruct (decide (host r = h /\ _)).
Qed.

(** The accumulated lists after any prefix of the rules. *)
Lemma compile_fold_spec rs :
  let '(allowed, denied) := foldl compile_step ([], []) rs in
  NoDup allowed /\ NoDup denied
  /\ forall h, (h ∈ allowed <-> last_verdict h rs = Some Allow)
            /\ (h ∈ denied <-> last_verdict h rs = Some Forbidden).
Proof.
  induction rs as [|r rs IH] using rev_ind; simpl.
  { split_and!; [constructor..|]. intros h. set_solver. }
  rewrite foldl_snoc. destruct (foldl _ _ rs) as [al de]. destruct IH as (Ha & Hd & Hh).
  unfold compile_step. destruct (net_decision r) eqn:E;
    (split_and!; [by auto using NoDup_upsert, NoDup_retain_not..|]); intros h;
    rewrite last_verdict_snoc, E, ?elem_upsert, ?elem_retain_not;
    destruct (Hh h) as [Hal Hde]; rewrite Hal, Hde;
    destruct (decide (host r = h)) as [Eh|Eh]; case_decide; naive_solver.
Qed.

(** The compiled network lists: without duplicates, disjoint, and a host is
    allowed (denied) exactly when the last allow-or-forbid rule for it allows
    (forbids) it; prompt rules change nothing. *)
Theorem compiled_network_domains_spec {M P : Type} (p : Policy M P) :
  let '(allowed, denied) := compiled_network_domains p in
  NoDup allowed /\ NoDup denied /\ (forall h, h ∈ allowed -> h ∉ denied)
  /\ forall h, (h ∈ allowed <-> last_verdict h (network_rules p) = Some Allow)
            /\ (h ∈ denied <-> last_verdict h (network_rules p) = Some Forbidden).
Proof.
  unfold compiled_network_domains. pose proof (compile_fold_spec (network_rules p)) as Hs.
  destruct (foldl _ _ _) as [al de]. destruct Hs as (Ha & Hd & Hh). split_and!; try done.
  intros h Hal Hde. apply Hh in Hal, Hde. congruence.
Qed.

(** ** Sorted listings *)

Lemma str_leb_total a b : str_leb a b = true \/ str_leb b a = true.
Proof.
  revert b; induction a as [|x a IH]; intros [|y b]; simpl; auto.
  destruct (N.compare_spec x y) as [->|Hl|Hl].
  - rewrite N.eqb_refl, N.ltb_irrefl. simpl. apply IH.
  - left. by apply N.ltb_lt in Hl as ->.
  - right. by apply N.ltb_lt in Hl as ->.
Qed.

Lemma str_leb_cons x a y b :
  str_leb (x :: a) (y :: b) = true <-> (x < y)%N \/ (x = y /\ str_leb a b = true).
Proof. simpl. rewrite orb_true_iff, andb_true_iff, N.ltb_lt, N.eqb_eq. done. Qed.

#[export] Instance str_le_total : Total str_le.
Proof. intros a b. apply str_leb_total. Qed.

#[export] Instance str_le_trans : Transitive str_le.
Proof.
  unfold str_le. intros a; induction a as [|x a IH]; intros [|y b] [|z c]; try done.
  rewrite !str_leb_cons. intros [?|[-> Hab]] [?|[-> Hbc]]; [left; lia..|right; split; [done|eauto]].
Qed.

#[export] Instance str_le_antisymm : AntiSymm eq str_le.
Proof.
  unfold str_le. intros a; induction a as [|x a IH]; intros [|y b]; try done.
  rewrite !str_leb_cons. intros [?|[-> Hab]] [?|[? Hba]]; [lia..|]. f_equal. auto.
Qed.

Lemma strs_leb_cons x a y b :
  strs_leb (x :: a) (y :: b) = true <-> (str_le x y /\ x <> y) \/ (x = y /\ strs_leb a b = true).
Proof.
  cbn [strs_leb]. rewrite orb_true_iff, !andb_true_iff, negb_true_iff, str_eqb_false, str_eqb_spec. done.
Qed.

#[export] Instance strs_le_total : Total strs_le.
Proof.
  unfold strs_le. intros a; induction a as [|x a IH]; intros [|y b]; [by left..|by right|].
  rewrite !strs_leb_cons. destruct (decide (x = y)) as [->|Hne].
  - destruct (IH b); auto.
  - destruct (str_le_total x y); [left|right]; left; naive_solver.
Qed.

#[export] Instance strs_le_trans : Transitive strs_le.
Proof.
  unfold strs_le. intros a; induction a as [|x a IH]; intros [|y b] [|z c]; try done.
  rewrite !strs_leb_cons. intros [[Hxy Hn]|[-> Hab]] [[Hyz Hn']|[-> Hbc]]; [| | |right; split; [done|eauto]];
    left; split; try done; try by (etrans; eassumption).
  intros ->. apply Hn. by apply (anti_symm str_le).
Qed.

#[export] Instance strs_le_antisymm : AntiSymm eq strs_le.
Proof.
  unfold strs_le. intros a; induction a as [|x a IH]; intros [|y b]; try done.
  rewrite !strs_leb_cons. intros [[? Hn]|[-> Hab]] [[? ?]|[? Hba]]; try done.
  - destruct Hn. by apply (anti_symm str_le).
  - f_equal. auto.
Qed.

Lemma dedup_cons_cases {A} `{EqDecision A} (x : A) l :
  dedup (x :: l) = match dedup l with [] => [x] | y :: _ => if decide (x = y) then dedup l else x :: dedup l end.
Proof. cbn [dedup]. destruct (dedup l); reflexivity. Qed.

Lemma elem_of_dedup {A} `{EqDecision A} (x : A) l : x ∈ dedup l <-> x ∈ l.
Proof.
  induction l as [|y l IH]; [done|]. rewrite dedup_cons_cases, elem_of_cons.
  destruct (dedup l) as [|z d] eqn:E; [set_solver|]. rewrite <- IH. destruct (decide (y = z)); set_solver.
Qed.

Lemma NoDup_dedup {A} `{EqDecision A} (R : relation A) `{!AntiSymm eq R} (l : list A) :
  StronglySorted R l -> NoDup (dedup l).
Proof.
  induction 1 as [|x l Hs IH HF]; [constructor|]. rewrite dedup_cons_cases.
  destruct (dedup l) as [|y d] eqn:E; [apply NoDup_singleton|]. destruct (decide (x = y)); [done|].
  apply NoDup_cons. split; [|done]. intros Hin.
  assert (x ∈ l) as Hxl by (apply elem_of_dedup; by rewrite E).
  (* everything in [l] is above [x], and [y] is its least element *)
  assert (StronglySorted R (y :: d) -> False) as Hcontra.
  { intros Hsd. inversion Hsd as [|? ? _ HFy]; subst. rewrite Forall_forall in HF, HFy.
    assert (y ∈ l) by (apply elem_of_dedup; rewrite E; set_solver).
    apply elem_of_cons in Hin as [?|Hin]; [done|]. apply n. apply (anti_symm R); auto. }
  apply Hcontra. rewrite <- E. clear -Hs. induction Hs as [|z l Hs IH HF]; [constructor|].
  rewrite dedup_cons_cases. destruct (dedup l) as [|w d] eqn:E; [repeat constructor|].
  destruct (decide (z = w)); [done|]. constructor; [done|]. apply Forall_forall. intros v Hv.
  rewrite Forall_forall in HF. apply HF, elem_of_dedup. by rewrite E.
Qed.

Section listings.
Context {M P : Type} `{LawfulMultiMap M, AbsolutePathOps P}.

(** The listing of allowed prefixes has exactly the rendered patterns of the
    allow rules, each once. *)
Theorem get_allowed_prefixes_spec (p : Policy M P) :
  NoDup (get_allowed_prefixes p)
  /\ forall pre, pre ∈ get_allowed_prefixes p <->
     exists r, r ∈ all_rules p /\ rule_decision r = Allow /\ pre = render_prefix r.
Proof.
  unfold get_allowed_prefixes. cbv zeta. fold (all_rules p). split.
  { apply (NoDup_dedup strs_le), (StronglySorted_merge_sort strs_le). }
  intros pre. rewrite elem_of_dedup. rewrite (merge_sort_Permutation strs_le).
  rewrite list_elem_of_In, in_map_iff. setoid_rewrite filter_In. setoid_rewrite bool_decide_eq_true.
  setoid_rewrite <- list_elem_of_In. naive_solver.
Qed.

Context (show_rule : PrefixRule -> str).

(** The entries a fingerprint sorts. *)
Definition fingerprint_entries (p : Policy M P) : list str :=
  flat_map (fun e => map (fun r => e.1 ++ lit ":" ++ show_rule r) e.2) (mm_iter_all (rules_by_program p)).

(** Requirement policies are equal exactly when their rendered rules agree
    as multisets: the order of rules and of programs does not matter. *)
Theorem requirements_eq_spec (a b : Policy M P) :
  requirements_eq show_rule a b = true <-> fingerprint_entries a ≡ₚ fingerprint_entries b.
Proof.
  unfold requirements_eq, fingerprint. rewrite bool_decide_eq_true.
  fold (fingerprint_entries a) (fingerprint_entries b). split.
  - intros E. rewrite <- (merge_sort_Permutation str_le (fingerprint_entries a)), E.
    apply merge_sort_Permutation.
  - intros E. apply (StronglySorted_unique str_le); [apply (StronglySorted_merge_sort str_le)..|].
    by rewrite !(merge_sort_Permutation str_le).
Qed.
End listings.

(** ** A concrete multimap and path type *)

(** Keys to insertion-ordered vectors. *)
#[export] Instance gmap_multimap : MultiMap (gmap str (list PrefixRule)) := {|
  mm_new := ∅;
  mm_insert k r m := <[k := default [] (m !! k) ++ [r]]> m;
  mm_get_vec m k := m !! k;
  mm_iter_all := map_to_list;
|}.

#[export] Instance gmap_multimap_lawful : LawfulMultiMap (gmap str (list PrefixRule)).
Proof.
  split; intros; cbn.
  - apply lookup_empty.
  - apply lookup_insert_eq.
  - by apply lookup_insert_ne.
  - apply elem_of_map_to_list.
  - apply NoDup_fst_map_to_list.
Qed.

(** Slash-rooted strings as absolute paths. *)
#[export] Instance slash_paths : AbsolutePathOps str := {|
  path_eq_dec := _;
  path_try_from s := if starts_with (lit "/") s then Some s else None;
  path_file_name_str s := match rsplit_once 47%N s with Some (_, n) => Some n | None => None end;
|}.

(** ** Witnesses *)

Notation demo_map := (gmap str (list PrefixRule)).

Definition git_status : PrefixRule := mkRule (mkPattern (lit "git") [Single (lit "status")]) Allow None.
Definition git_any : PrefixRule := mkRule (mkPattern (lit "git") []) Prompt None.
Definition base_policy : Policy demo_map str :=
  from_parts (mm_insert (lit "git") git_status mm_new) [] {[ lit "git" := [lit "/usr/bin/git"] ]}.
Definition overlay_policy : Policy demo_map str := from_parts (mm_insert (lit "git") git_any mm_new) [] ∅.
Definition prompt_fallback (_ : list str) : Decision := Prompt.

Lemma base_policy_wf : policy_wf base_policy.
Proof.
  apply policy_wf_rules_of. intros k. unfold rules_of. cbn [rules_by_program base_policy].
  rewrite get_insert, mm_get_new. destruct (decide _); [by apply Forall_singleton|constructor].
Defined.

Lemma match_exact_rules_complete_witness :
  exists r, r ∈ all_rules base_policy
    /\ rule_matches (P:=str) r [lit "git"; lit "status"; lit "-s"] = Some (PrefixRuleMatch [lit "git"; lit "status"] Allow None None).
Proof.
  apply (proj1 (match_exact_rules_complete base_policy (lit "git") [lit "status"; lit "-s"]
                  (PrefixRuleMatch [lit "git"; lit "status"] Allow None None) base_policy_wf)).
  eexists. split; [vm_compute; reflexivity|apply list_elem_of_here].
Defined.

Lemma policy_wf_preserved_witness : policy_wf (merge_overlay base_policy base_policy).
Proof.
  destruct (policy_wf_preserved (M:=demo_map) (P:=str)) as (_ & _ & _ & _ & Hm).
  apply Hm; apply base_policy_wf.
Defined.

Lemma merge_overlay_never_relaxes_witness :
  exists e e',
    check_with_options false overlay_policy [lit "git"; lit "status"] prompt_fallback default_options = Some e
    /\ check_with_options false (merge_overlay base_policy overlay_policy) [lit "git"; lit "status"]
         prompt_fallback default_options = Some e'
    /\ decision_le (decision e) (decision e').
Proof.
  destruct (check_with_options false overlay_policy [lit "git"; lit "status"] prompt_fallback default_options)
    as [e|] eqn:E; [|exfalso; vm_compute in E; discriminate E].
  destruct (check_with_options false (merge_overlay base_policy overlay_policy) [lit "git"; lit "status"]
              prompt_fallback default_options) as [e'|] eqn:E'; [|exfalso; vm_compute in E'; discriminate E'].
  exists e, e'. split; [reflexivity|]. split; [reflexivity|].
  apply (merge_overlay_never_relaxes false base_policy overlay_policy (lit "git") [lit "status"]
           prompt_fallback default_options overlay_policy e e' (or_intror eq_refl)); [|exact E|exact E'].
  vm_compute. discriminate.
Defined.

Lemma add_prefix_rule_effect_witness :
  exists p', add_prefix_rule base_policy [lit "rm"; lit "-rf"] Forbidden = Ok p'
    /\ match_exact_rules p' [lit "ls"] = match_exact_rules base_policy [lit "ls"].
Proof.
  destruct (add_prefix_rule base_policy [lit "rm"; lit "-rf"] Forbidden) as [p'|e] eqn:E; [|discriminate E].
  exists p'. split; [reflexivity|].
  apply (proj2 (add_prefix_rule_effect false base_policy p' [lit "rm"; lit "-rf"] Forbidden
                  prompt_fallback default_options E)).
  intros [tail Ht]. vm_compute in Ht. discriminate Ht.
Defined.

Lemma match_host_executable_sound_witness :
  exists r, r ∈ rules_of base_policy (lit "git").
Proof.
  destruct (match_host_executable_sound false base_policy [lit "/usr/bin/git"; lit "status"]
              (PrefixRuleMatch [lit "git"; lit "status"] Allow (Some (lit "/usr/bin/git")) None))
    as (c & args & prog & key & r & m0 & Hc & Ht & Hk & Hr & _).
  - vm_compute. apply list_elem_of_here.
  - assert (c = lit "/usr/bin/git") as -> by congruence. assert (prog = lit "/usr/bin/git") as -> by (vm_compute in Ht |- *; congruence).
    assert (key = lit "git") as -> by (vm_compute in Hk |- *; congruence). exists r. exact Hr.
Defined.
