(* ===== verification/ExecPolicyParser.v ===== *)
(** * The exec-policy builder and its Starlark builtins

    Models [codex-rs/execpolicy/src/parser.rs].  The Starlark interpreter is a
    parameter: a policy file either fails to parse or makes a sequence of calls to
    the three builtins, which return [None] and so cannot influence the calls that
    follow except by failing, and then may fail on its own. *)

From stdpp Require Import base list numbers option strings gmap.
From Stdlib Require Import Lia.
From S2P Require Import Prelude RustStr ExecRule ExecPolicy.

(** ** Starlark values and spans *)

(** The views the builtins take of a [starlark::values::Value]. *)
Inductive Value :=
| VStr (s : str)
| VList (items : list Value)
| VOther (type_name : str).

Definition get_type (v : Value) : str :=
  match v with VStr _ => lit "string" | VList _ => lit "list" | VOther t => t end.

Definition unpack_str (v : Value) : option str :=
  match v with VStr s => Some s | _ => None end.

(** A resolved [FileSpan]: zero-based positions. *)
Record FileSpan := mkSpan {
  span_filename : str;
  begin_line : nat; begin_column : nat;
  end_line : nat; end_column : nat;
}.

Definition error_location_from_file_span (s : FileSpan) : ErrorLocation :=
  mkLocation (span_filename s)
    (mkRange (mkPosition (begin_line s + 1) (begin_column s + 1))
             (mkPosition (end_line s + 1) (end_column s + 1))).

Definition attach_validation_location (e : Error) (location : option ErrorLocation) : Error :=
  match location with Some l => with_location e l | None => e end.

(** [iter().map(f).collect::<Result<Vec<_>>>()]: stops at the first error. *)
Fixpoint collect {A B E} (f : A -> result B E) (l : list A) : result (list B) E :=
  match l with
  | [] => Ok []
  | x :: l' => let? y := f x in let? ys := collect f l' in Ok (y :: ys)
  end.

(** ** Patterns and examples *)

Definition alternative_str (v : Value) : result str Error :=
  match unpack_str v with
  | Some s => Ok s
  | None => Err (InvalidPattern (lit "pattern alternative must be a string (got " ++ get_type v ++ lit ")"))
  end.

Definition parse_pattern_token (v : Value) : result PatternToken Error :=
  match v with
  | VStr s => Ok (Single s)
  | VList items =>
      let? tokens := collect alternative_str items in
      match tokens with
      | [] => Err (InvalidPattern (lit "pattern alternatives cannot be empty"))
      | [single] => Ok (Single single)
      | _ => Ok (Alts tokens)
      end
  | VOther _ =>
      Err (InvalidPattern (lit "pattern element must be a string or list of strings (got "
                           ++ get_type v ++ lit ")"))
  end.

Definition parse_pattern (pattern : list Value) : result (list PatternToken) Error :=
  let? tokens := collect parse_pattern_token pattern in
  if is_nil tokens then Err (InvalidPattern (lit "pattern cannot be empty")) else Ok tokens.

(** [shlex_split] is [shlex::split]. *)
Definition parse_string_example (shlex_split : str -> option (list str)) (raw : str)
    : result (list str) Error :=
  match shlex_split raw with
  | None => Err (InvalidExample (lit "example string has invalid shell syntax"))
  | Some tokens =>
      if is_nil tokens then Err (InvalidExample (lit "example cannot be an empty string")) else Ok tokens
  end.

Definition example_str (v : Value) : result str Error :=
  match unpack_str v with
  | Some s => Ok s
  | None => Err (InvalidExample (lit "example tokens must be strings (got " ++ get_type v ++ lit ")"))
  end.

Definition parse_list_example (items : list Value) : result (list str) Error :=
  let? tokens := collect example_str items in
  if is_nil tokens then Err (InvalidExample (lit "example cannot be an empty list")) else Ok tokens.

Definition parse_example (shlex_split : str -> option (list str)) (v : Value) : result (list str) Error :=
  match v with
  | VStr raw => parse_string_example shlex_split raw
  | VList items => parse_list_example items
  | VOther _ =>
      Err (InvalidExample (lit "example must be a string or list of strings (got " ++ get_type v ++ lit ")"))
  end.

Definition parse_examples (shlex_split : str -> option (list str)) (examples : list Value) :=
  collect (parse_example shlex_split) examples.

(** [arg.map(parse_examples).transpose()?.unwrap_or_default()]. *)
Definition optional_examples (shlex_split : str -> option (list str)) (arg : option (list Value))
    : result (list (list str)) Error :=
  match arg with Some examples => parse_examples shlex_split examples | None => Ok [] end.

Definition parse_network_rule_decision (raw : str) : result Decision Error :=
  if str_eqb raw (lit "deny") then Ok Forbidden else decision_parse raw.

Definition check_justification (j : option str) : result (option str) Error :=
  if blank j then Err (InvalidRule (lit "justification cannot be empty")) else Ok j.

(** ** The views of [std::path::Path] the builtins use *)

Class StdPath := {
  path_is_absolute : str -> bool;
  path_component_count : str -> nat;
  path_last_name : str -> option str;
}.

Section builder.
Context {M P : Type} `{MultiMap M, AbsolutePathOps P, StdPath}.
Context (windows : bool).
Context (shlex_split : str -> option (list str)) (try_join : list str -> option str).
Context (show_rule : PrefixRule -> str) (show_match : RuleMatch P -> str).
(** The text of an [AbsolutePathBuf::try_from] failure, and the interpreter's
    wrapping of a builtin's error. *)
Context (path_error : str -> str) (show_error : Error -> str).

Definition parse_literal_absolute_path (raw : str) : result P Error :=
  if negb (path_is_absolute raw)
  then Err (InvalidRule (lit "host_executable paths must be absolute (got " ++ raw ++ lit ")"))
  else match path_try_from raw with
       | Some p => Ok p
       | None => Err (InvalidRule (lit "invalid absolute path `" ++ raw ++ lit "`: " ++ path_error raw))
       end.

Definition validate_host_executable_name (name : str) : result unit Error :=
  if is_nil name then Err (InvalidRule (lit "host_executable name cannot be empty"))
  else if negb (Nat.eqb (path_component_count name) 1)
          || negb (bool_decide (path_last_name name = Some name))
  then Err (InvalidRule (lit "host_executable name must be a bare executable name (got " ++ name ++ lit ")"))
  else Ok ().

Record PendingExampleValidation := mkPending {
  pend_rules : list PrefixRule;
  pend_matches : list (list str);
  pend_not_matches : list (list str);
  pend_location : option ErrorLocation;
}.

Record PolicyBuilder := mkBuilder {
  b_rules_by_program : M;
  b_network_rules : list NetworkRule;
  b_host_executables : gmap str (list P);
  b_pending : list PendingExampleValidation;
}.

Definition builder_new : PolicyBuilder := mkBuilder mm_new [] ∅ [].

Definition add_rule (b : PolicyBuilder) (r : PrefixRule) : PolicyBuilder :=
  mkBuilder (mm_insert (program r) r (b_rules_by_program b)) (b_network_rules b)
    (b_host_executables b) (b_pending b).

Definition b_add_network_rule (b : PolicyBuilder) (r : NetworkRule) : PolicyBuilder :=
  mkBuilder (b_rules_by_program b) (b_network_rules b ++ [r]) (b_host_executables b) (b_pending b).

Definition add_host_executable (b : PolicyBuilder) (name : str) (paths : list P) : PolicyBuilder :=
  mkBuilder (b_rules_by_program b) (b_network_rules b)
    (<[name := paths]> (b_host_executables b)) (b_pending b).

Definition add_pending_example_validation (b : PolicyBuilder) (v : PendingExampleValidation) : PolicyBuilder :=
  mkBuilder (b_rules_by_program b) (b_network_rules b) (b_host_executables b) (b_pending b ++ [v]).

(** The policy of one validation: its rules alone, with the hosts declared so far. *)
Definition validation_policy (hosts : gmap str (list P)) (rules : list PrefixRule) : Policy M P :=
  from_parts (foldl (fun m r => mm_insert (program r) r m) mm_new rules) [] hosts.

Definition validate_one (hosts : gmap str (list P)) (v : PendingExampleValidation) : result unit Error :=
  let policy := validation_policy hosts (pend_rules v) in
  try? map_err (fun e => attach_validation_location e (pend_location v))
         (validate_not_match_examples windows try_join show_match policy (pend_not_matches v)) in
  map_err (fun e => attach_validation_location e (pend_location v))
    (validate_match_examples windows try_join show_rule policy (pend_rules v) (pend_matches v)).

Fixpoint validate_all (hosts : gmap str (list P)) (vs : list PendingExampleValidation) : result unit Error :=
  match vs with
  | [] => Ok ()
  | v :: vs' => try? validate_one hosts v in validate_all hosts vs'
  end.

Definition validate_pending_examples_from (b : PolicyBuilder) (start : nat) : result unit Error :=
  validate_all (b_host_executables b) (drop start (b_pending b)).

Definition build (b : PolicyBuilder) : Policy M P :=
  from_parts (b_rules_by_program b) (b_network_rules b) (b_host_executables b).

(** ** The builtins *)

Definition rules_of_pattern (first_token : PatternToken) (remaining : list PatternToken)
    (d : Decision) (j : option str) : list PrefixRule :=
  map (fun head => mkRule (mkPattern head remaining) d j) (alternatives first_token).

Definition prefix_rule (pattern : list Value) (decision : option str) (match_ not_match : option (list Value))
    (justification : option str) (location : option FileSpan) (b : PolicyBuilder)
    : result PolicyBuilder Error :=
  let? d := match decision with Some raw => decision_parse raw | None => Ok Allow end in
  let? j := check_justification justification in
  let? pattern_tokens := parse_pattern pattern in
  let? matches := optional_examples shlex_split match_ in
  let? not_matches := optional_examples shlex_split not_match in
  match pattern_tokens with
  | [] => Err (InvalidPattern (lit "pattern cannot be empty"))
  | first_token :: remaining =>
      let rules := rules_of_pattern first_token remaining d j in
      let b := add_pending_example_validation b
                 (mkPending rules matches not_matches (option_map error_location_from_file_span location)) in
      Ok (foldl add_rule b rules)
  end.

Definition network_rule (h proto decision : str) (justification : option str) (b : PolicyBuilder)
    : result PolicyBuilder Error :=
  let? proto := protocol_parse proto in
  let? d := parse_network_rule_decision decision in
  let? j := check_justification justification in
  let? h := normalize_network_rule_host h in
  Ok (b_add_network_rule b (mkNetworkRule h proto d j)).

Definition basename_error (raw name : str) : Error :=
  InvalidRule (lit "host_executable path `" ++ raw ++ lit "` must have basename `" ++ name ++ lit "`").

Fixpoint parse_host_paths (name : str) (paths : list Value) (parsed : list P) : result (list P) Error :=
  match paths with
  | [] => Ok parsed
  | v :: more =>
      match unpack_str v with
      | None => Err (InvalidRule (lit "host_executable paths must be strings (got " ++ get_type v ++ lit ")"))
      | Some raw =>
          let? path := parse_literal_absolute_path raw in
          match executable_path_lookup_key windows path with
          | None => Err (basename_error raw name)
          | Some path_name =>
              if negb (str_eqb path_name (executable_lookup_key windows name))
              then Err (basename_error raw name)
              else parse_host_paths name more
                     (if existsb (fun q => bool_decide (q = path)) parsed then parsed else parsed ++ [path])
          end
      end
  end.

Definition host_executable (name : str) (paths : list Value) (b : PolicyBuilder) : result PolicyBuilder Error :=
  try? validate_host_executable_name name in
  let? parsed := parse_host_paths name paths [] in
  Ok (add_host_executable b (executable_lookup_key windows name) parsed).

(** ** Running a policy file *)

Inductive BuiltinCall :=
| CPrefixRule (pattern : list Value) (decision : option str) (match_ not_match : option (list Value))
    (justification : option str) (location : option FileSpan)
| CNetworkRule (h proto decision : str) (justification : option str)
| CHostExecutable (name : str) (paths : list Value).

Definition run_builtin (c : BuiltinCall) (b : PolicyBuilder) : result PolicyBuilder Error :=
  match c with
  | CPrefixRule pat d m n j l => prefix_rule pat d m n j l b
  | CNetworkRule h p d j => network_rule h p d j b
  | CHostExecutable name paths => host_executable name paths b
  end.

(** The calls in order; the first failing builtin aborts the module. *)
Fixpoint eval_calls (cs : list BuiltinCall) (b : PolicyBuilder) : PolicyBuilder * result unit Error :=
  match cs with
  | [] => (b, Ok ())
  | c :: cs' =>
      match run_builtin c b with
      | Ok b' => eval_calls cs' b'
      | Err e => (b, Err (StarlarkError (show_error e)))
      end
  end.

(** The interpreter: a syntax error, or the calls and the module's own final error. *)
Context (starlark : str -> str -> result (list BuiltinCall * option str) str).

(** [PolicyParser::parse]: the builder is shared, so what was added stays on error. *)
Definition parse (policy_identifier contents : str) (b : PolicyBuilder) : PolicyBuilder * result unit Error :=
  let pending_validation_count := length (b_pending b) in
  match starlark policy_identifier contents with
  | Err msg => (b, Err (StarlarkError msg))
  | Ok (calls, own_error) =>
      let '(b', r) := eval_calls calls b in
      match r, own_error with
      | Err e, _ => (b', Err e)
      | Ok _, Some msg => (b', Err (StarlarkError msg))
      | Ok _, None => (b', validate_pending_examples_from b' pending_validation_count)
      end
  end.

End builder.
Arguments PolicyBuilder : clear implicits.
Arguments builder_new {M P _}.

(** ** Theorems *)

Section builder_theorems.
Context {M P : Type} `{LawfulMultiMap M, AbsolutePathOps P, StdPath}.
Context (windows : bool).
Context (shlex_split : str -> option (list str)) (try_join : list str -> option str).
Context (show_rule : PrefixRule -> str) (show_match : RuleMatch P -> str).
Context (path_error : str -> str) (show_error : Error -> str).
Context (starlark : str -> str -> result (list BuiltinCall * option str) str).

Local Notation Builder := (PolicyBuilder M P).
Local Notation exact b cmd := (default [] (match_exact_rules (build b) cmd)).

(** A stored network rule came out of the host normaliser and has no blank
    justification. *)
Definition network_rule_ok (r : NetworkRule) : Prop :=
  (exists raw, normalize_network_rule_host raw = Ok (host r)) /\ blank (net_justification r) = false.

(** A declared path list has no duplicates and every path has the key as name. *)
Definition host_paths_ok (k : str) (paths : list P) : Prop :=
  NoDup paths /\ Forall (fun q => executable_path_lookup_key windows q = Some k) paths.

Definition builder_wf (b : Builder) : Prop :=
  policy_wf (build b)
  /\ Forall network_rule_ok (b_network_rules b)
  /\ map_Forall host_paths_ok (b_host_executables b).

Lemma add_rule_rules_of (b : Builder) r k :
  rules_of (build (add_rule b r)) k = rules_of (build b) k ++ (if decide (program r = k) then [r] else []).
Proof. apply get_insert. Qed.

Lemma add_rules_wf rs (b : Builder) : builder_wf b -> builder_wf (foldl add_rule b rs).
Proof.
  revert b; induction rs as [|r rs IH]; intros b Hb; simpl; [done|]. apply IH.
  destruct Hb as (Hw & Hn & Hh). split_and!; [|done..]. rewrite policy_wf_rules_of in *. intros k.
  rewrite add_rule_rules_of. apply Forall_app. split; [apply Hw|].
  destruct (decide _); [by apply Forall_singleton|constructor].
Qed.

Lemma parse_host_paths_ok name vs ps ps' :
  host_paths_ok (executable_lookup_key windows name) ps ->
  parse_host_paths windows path_error name vs ps = Ok ps' ->
  host_paths_ok (executable_lookup_key windows name) ps'.
Proof.
  revert ps; induction vs as [|v vs IH]; intros ps Hps; simpl; [by intros [= <-]|].
  destruct (unpack_str v) as [raw|]; [|done]. intros H'. apply result_bind_ok in H' as (q & _ & H').
  destruct (executable_path_lookup_key windows q) as [n|] eqn:Ek; [|done].
  destruct (str_eqb n _) eqn:En; [|done]. apply str_eqb_spec in En as ->. simpl in H'.
  eapply IH; [|exact H']. destruct (existsb _ ps) eqn:Eq; [done|]. destruct Hps as [Hnd HF]. split.
  - apply NoDup_app. split_and!; [done| |apply NoDup_singleton]. intros x Hx Hq%list_elem_of_singleton. subst x.
    apply not_true_iff_false in Eq. apply Eq, existsb_exists. exists q. split; [by apply list_elem_of_In|].
    by apply bool_decide_eq_true.
  - apply Forall_app. split; [done|]. by apply Forall_singleton.
Qed.

Lemma check_justification_ok j j' : check_justification j = Ok j' -> j' = j /\ blank j = false.
Proof. unfold check_justification. destruct (blank j); [done|]. by intros [= <-]. Qed.

Lemma run_builtin_wf c (b b' : Builder) :
  builder_wf b -> run_builtin windows shlex_split path_error c b = Ok b' -> builder_wf b'.
Proof.
  intros Hb. pose proof Hb as (Hw & Hn & Hh). destruct c; cbn [run_builtin].
  - unfold prefix_rule. intros H'. inv_bind. destruct (_ : list PatternToken) as [|t ts]; [done|]. injection H' as <-.
    apply add_rules_wf. by split_and!.
  - unfold network_rule. intros H'. inv_bind. subst b'. split_and!; [done| |done]. cbn. apply Forall_app. split; [done|].
    apply Forall_singleton. split; [cbn; eauto|]. cbn.
    match goal with Hj : check_justification _ = Ok _ |- _ => by apply check_justification_ok in Hj as [-> ?] end.
  - unfold host_executable. intros H'. inv_bind. subst b'. split_and!; [done..|]. cbn. apply map_Forall_insert_2; [|done].
    eapply parse_host_paths_ok; [|eassumption]. split; constructor.
Qed.

Lemma eval_calls_wf cs (b : Builder) :
  builder_wf b -> builder_wf (eval_calls windows shlex_split path_error show_error cs b).1.
Proof.
  revert b; induction cs as [|c cs IH]; intros b Hb; simpl; [done|].
  destruct (run_builtin _ _ _ c b) as [b'|e] eqn:E; [|done]. apply IH. by eapply run_builtin_wf.
Qed.

Lemma builder_new_wf : builder_wf (@builder_new M P _).
Proof.
  split_and!; [|constructor|apply map_Forall_empty]. intros k rs. cbn. by rewrite mm_get_new.
Qed.

(** The builder after parsing a list of files, whatever their outcome. *)
Definition parse_files (files : list (str * str)) (b : Builder) : Builder :=
  foldl (fun b f =>
    (parse windows shlex_split try_join show_rule show_match path_error show_error starlark f.1 f.2 b).1) b files.

(** Whatever files were parsed and whether or not they failed, the builder is
    well formed: every rule is indexed under its own program, every network rule
    has a normalised host and no blank justification, and every declared
    executable path carries the declared name and is listed once. *)
Theorem parse_files_wf (files : list (str * str)) : builder_wf (parse_files files builder_new).
Proof.
  unfold parse_files. generalize builder_new_wf. generalize (@builder_new M P _).
  induction files as [|f fs IH]; intros b Hb; [done|]. simpl. apply IH. unfold parse. cbv zeta.
  destruct (starlark _ _) as [[calls own]|msg]; [|done].
  pose proof (eval_calls_wf calls b Hb) as Hw. destruct (eval_calls _ _ _ _ calls b) as [b' [?|?]]; [|done].
  by destruct own.
Qed.

Lemma add_rules_rules_of rs (b : Builder) k :
  rules_of (build (foldl add_rule b rs)) k = rules_of (build b) k ++ filter (fun r => program r = k) rs.
Proof.
  revert b; induction rs as [|r rs IH]; intros b; simpl; [by rewrite filter_nil, app_nil_r|].
  rewrite IH, add_rule_rules_of, <- app_assoc, filter_cons. by destruct (decide _).
Qed.

(** The rules of one pattern match the commands that pick an alternative of every
    element, the first included. *)
Lemma rules_of_pattern_match t ts d j cmd (m : RuleMatch P) :
  (exists r, r ∈ rules_of_pattern t ts d j /\ rule_matches r cmd = Some m)
  <-> exists prefix tail, cmd = prefix ++ tail
        /\ Forall2 (fun p a => a ∈ alternatives p) (t :: ts) prefix /\ m = PrefixRuleMatch prefix d None j.
Proof.
  unfold rules_of_pattern. setoid_rewrite list_elem_of_fmap. split.
  - intros (r & (h & -> & Hh) & Hm). unfold rule_matches in Hm. cbn [pattern rule_decision justification] in Hm.
    destruct (matches_prefix _ _) as [mp|] eqn:E; [|done]. injection Hm as <-.
    apply matches_prefix_iff in E as (args & tail & -> & -> & HF). cbn [first rest] in *.
    exists (h :: args), tail. split_and!; [done|by constructor|done].
  - intros (prefix & tail & -> & HF & ->). inversion HF as [|? h ? args Hh HF']; subst.
    eexists. split; [exists h; split; [done|exact Hh]|]. unfold rule_matches. cbn [pattern].
    assert (matches_prefix (mkPattern h ts) ((h :: args) ++ tail) = Some (h :: args)) as ->; [|done].
    apply matches_prefix_iff. by exists args, tail.
Qed.

(** C34. What a [prefix_rule] call means: a command's exact matches afterwards are
    those it had before, plus a match with the call's decision and justification
    when the command starts with one alternative of each pattern element. *)
Theorem prefix_rule_meaning (pat : list Value) (dec : option str) (pos neg : option (list Value))
    (j : option str) (loc : option FileSpan) (b b' : Builder) :
  prefix_rule shlex_split pat dec pos neg j loc b = Ok b' ->
  exists tokens d, parse_pattern pat = Ok tokens
    /\ match dec with Some raw => decision_parse raw | None => Ok Allow end = Ok d
    /\ forall c args m,
         m ∈ exact b' (c :: args) <->
         m ∈ exact b (c :: args)
         \/ exists prefix tail, c :: args = prefix ++ tail
              /\ Forall2 (fun p a => a ∈ alternatives p) tokens prefix
              /\ m = PrefixRuleMatch prefix d None j.
Proof.
  unfold prefix_rule. intros H'. apply result_bind_ok in H' as (d & Hd & H').
  apply result_bind_ok in H' as (j' & [-> _]%check_justification_ok & H').
  apply result_bind_ok in H' as (tokens & Ht & H'). inv_bind. exists tokens, d. split_and!; [done..|].
  destruct tokens as [|t ts]; [done|]. cbv zeta in H'. injection H' as <-. intros c args m.
  rewrite <- (rules_of_pattern_match t ts d j), !match_exact_rules_of. simpl default.
  rewrite add_rules_rules_of, matches_of_app, elem_of_app.
  apply or_iff_compat_l. unfold matches_of. rewrite list_elem_of_omap. split.
  - intros (r & [_ Hr]%list_elem_of_filter & Hm). eauto.
  - intros (r & Hr & Hm). exists r. split; [|done]. apply list_elem_of_filter. split; [|done].
    by eapply rule_matches_program.
Qed.

Lemma validate_one_spec hosts v :
  validate_one (M:=M) windows try_join show_rule show_match hosts v = Ok () <->
  Forall (fun ex => example_matches windows (validation_policy (M:=M) hosts (pend_rules v)) ex = []) (pend_not_matches v)
  /\ Forall (fun ex => example_matches windows (validation_policy (M:=M) hosts (pend_rules v)) ex <> []) (pend_matches v).
Proof.
  unfold validate_one. cbv zeta. set (p := validation_policy hosts (pend_rules v)).
  rewrite <- (validate_not_match_iff windows try_join show_match p).
  rewrite <- (validate_match_iff windows try_join show_rule p (pend_rules v)).
  destruct (validate_not_match_examples _ _ _ _ _) as [[]|e]; cbn [map_err result_bind]; [|naive_solver].
  destruct (validate_match_examples _ _ _ _ _ _) as [[]|e]; naive_solver.
Qed.

Lemma validate_all_spec hosts vs :
  validate_all (M:=M) windows try_join show_rule show_match hosts vs = Ok () <->
  Forall (fun v => validate_one (M:=M) windows try_join show_rule show_match hosts v = Ok ()) vs.
Proof.
  induction vs as [|v vs IH]; cbn [validate_all]; [split; [constructor|done]|]. rewrite Forall_cons, <- IH.
  destruct (validate_one _ _ _ _ _ v) as [[]|e]; cbn [result_bind]; naive_solver.
Qed.

(** [b'] extends [b] by the rules of the validations [new], in order. *)
Definition extends_by (b b' : Builder) (new : list PendingExampleValidation) : Prop :=
  b_pending b' = b_pending b ++ new
  /\ forall k, rules_of (build b') k = rules_of (build b) k ++ filter (fun r => program r = k) (flat_map pend_rules new).

Lemma extends_by_same b b' :
  b_pending b' = b_pending b -> b_rules_by_program b' = b_rules_by_program b -> extends_by b b' [].
Proof.
  intros Hp Hr. split; [by rewrite app_nil_r|]. intros k. simpl. rewrite filter_nil, app_nil_r.
  unfold rules_of, build. by rewrite Hr.
Qed.

Lemma extends_by_trans b1 b2 b3 n1 n2 :
  extends_by b1 b2 n1 -> extends_by b2 b3 n2 -> extends_by b1 b3 (n1 ++ n2).
Proof.
  intros [Hp1 Hr1] [Hp2 Hr2]. split; [by rewrite Hp2, Hp1, app_assoc|]. intros k.
  by rewrite Hr2, Hr1, flat_map_app, filter_app, app_assoc.
Qed.

Lemma foldl_add_rule_pending rs (b : Builder) : b_pending (foldl add_rule b rs) = b_pending b.
Proof. revert b; induction rs as [|r rs IH]; intros b; simpl; [done|]. by rewrite IH. Qed.

Lemma run_builtin_extends c (b b' : Builder) :
  run_builtin windows shlex_split path_error c b = Ok b' -> exists new, extends_by b b' new.
Proof.
  destruct c; cbn [run_builtin].
  - unfold prefix_rule. intros H'. inv_bind. destruct (_ : list PatternToken) as [|t ts]; [done|]. injection H' as <-.
    eexists [_]. split; [by rewrite foldl_add_rule_pending|]. intros k. rewrite add_rules_rules_of.
    cbn [flat_map]. by rewrite app_nil_r.
  - unfold network_rule. intros H'. inv_bind. subst b'. exists []. by apply extends_by_same.
  - unfold host_executable. intros H'. inv_bind. subst b'. exists []. by apply extends_by_same.
Qed.

Lemma eval_calls_extends cs (b : Builder) :
  exists new, extends_by b (eval_calls windows shlex_split path_error show_error cs b).1 new.
Proof.
  revert b; induction cs as [|c cs IH]; intros b; simpl; [exists []; by apply extends_by_same|].
  destruct (run_builtin _ _ _ c b) as [b'|e] eqn:E; [|exists []; by apply extends_by_same].
  apply run_builtin_extends in E as [n1 H1']. destruct (IH b') as [n2 H2']. exists (n1 ++ n2).
  by eapply extends_by_trans.
Qed.

(** A file that parses has kept its promises: the rules it added are the
    rules of its recorded calls, and every example of every such call was checked
    against that call's own rules and the declared host executables: all positive
    examples match and no negative one does. *)
Theorem parse_checks_examples (id contents : str) (b b' : Builder) :
  parse windows shlex_split try_join show_rule show_match path_error show_error starlark id contents b = (b', Ok ()) ->
  exists new, extends_by b b' new
    /\ Forall (fun v =>
         let own := validation_policy (M:=M) (b_host_executables b') (pend_rules v) in
         Forall (fun ex => example_matches windows own ex = []) (pend_not_matches v)
         /\ Forall (fun ex => example_matches windows own ex <> []) (pend_matches v)) new.
Proof.
  unfold parse. cbv zeta. destruct (starlark id contents) as [[calls own]|msg]; [|done].
  pose proof (eval_calls_extends calls b) as [new Hext].
  destruct (eval_calls _ _ _ _ calls b) as [b1 [?|?]]; [|done]. destruct own; [done|]. intros [= -> Hv].
  exists new. split; [done|]. unfold validate_pending_examples_from in Hv. apply validate_all_spec in Hv.
  destruct Hext as [Hp _]. simpl in Hp. rewrite Hp, drop_app_length in Hv.
  eapply Forall_impl; [exact Hv|]. intros v. by rewrite validate_one_spec.
Qed.

End builder_theorems.

(** ** Unix paths *)

Inductive path_component := RootDir | CurDir | ParentDir | NormalName (name : str).

(** Repeated separators and inner ["."]s are skipped. *)
Fixpoint inner_components (pieces : list str) : list path_component :=
  match pieces with
  | [] => []
  | p :: ps =>
      (if is_nil p || str_eqb p (lit ".") then []
       else if str_eqb p (lit "..") then [ParentDir] else [NormalName p]) ++ inner_components ps
  end.
Definition unix_components (s : str) : list path_component :=
  match split 47%N s with
  | [] :: (_ :: _) as ps => RootDir :: inner_components ps
  | p :: ps => (if str_eqb p (lit ".") then [CurDir] else inner_components [p]) ++ inner_components ps
  | [] => []
  end.
#[export] Instance unix_path : StdPath := {|
  path_is_absolute s := starts_with (lit "/") s;
  path_component_count s := length (unix_components s);
  path_last_name s := match last (unix_components s) with Some (NormalName n) => Some n | _ => None end;
|}.

(** ** Witnesses *)

Notation demo_builder := (PolicyBuilder demo_map str).
Definition no_shlex (_ : str) : option (list str) := None.
Definition no_text {A : Type} (_ : A) : str := [].
Definition git_read_only : list Value := [VStr (lit "git"); VList [VStr (lit "status"); VStr (lit "diff")]].
Definition demo_calls : list BuiltinCall :=
  [CHostExecutable (lit "git") [VStr (lit "/usr/bin/git")];
   CPrefixRule git_read_only (Some (lit "allow"))
     (Some [VList [VStr (lit "/usr/bin/git"); VStr (lit "diff")]])
     (Some [VList [VStr (lit "git"); VStr (lit "push")]]) None None].
Definition demo_starlark (_ _ : str) : result (list BuiltinCall * option str) str := Ok (demo_calls, None).
Definition demo_parse (b : demo_builder) : demo_builder * result unit Error :=
  parse false no_shlex (fun _ => None) no_text no_text no_text no_text demo_starlark (lit "default.rules") [] b.

Lemma prefix_rule_meaning_witness :
  exists b' : demo_builder,
    prefix_rule no_shlex git_read_only None None None None None builder_new = Ok b'
    /\ PrefixRuleMatch [lit "git"; lit "diff"] Allow None None
       ∈ default [] (match_exact_rules (build b') [lit "git"; lit "diff"; lit "--stat"]).
Proof.
  destruct (prefix_rule no_shlex git_read_only None None None None None (@builder_new demo_map str _)) as [b'|e] eqn:E;
    [|exfalso; vm_compute in E; discriminate E].
  exists b'. split; [reflexivity|].
  destruct (prefix_rule_meaning no_shlex git_read_only None None None None None builder_new b' E)
    as (tokens & d & Ht & Hd & Hm).
  apply Hm. right. exists [lit "git"; lit "diff"], [lit "--stat"].
  assert (tokens = [Single (lit "git"); Alts [lit "status"; lit "diff"]]) as -> by (vm_compute in Ht |- *; congruence).
  assert (d = Allow) as -> by congruence. split; [reflexivity|]. split; [|reflexivity].
  repeat apply List.Forall2_cons; [| |apply List.Forall2_nil]; apply list_elem_of_In; vm_compute; tauto.
Defined.

Lemma parse_checks_examples_witness :
  exists new, extends_by builder_new (demo_parse builder_new).1 new.
Proof.
  destruct (parse_checks_examples false no_shlex (fun _ => None) no_text no_text no_text no_text demo_starlark
              (lit "default.rules") [] builder_new (demo_parse builder_new).1) as (new & Hext & _).
  - vm_compute. reflexivity.
  - exists new. exact Hext.
Defined.

Lemma parse_files_wf_witness :
  builder_wf false (parse_files (M:=demo_map) (P:=str) false no_shlex (fun _ => None) no_text no_text no_text no_text
                      demo_starlark [(lit "default.rules", [])] builder_new).
Proof.
  exact (parse_files_wf (M:=demo_map) (P:=str) false no_shlex (fun _ => None) no_text no_text no_text no_text
           demo_starlark [(lit "default.rules", [])]).
Defined.
