(* ===== verification/ExecAmend.v ===== *)
(** * Amending and migrating policy files

    Models [codex-rs/execpolicy/src/amend.rs] and [sandbox_migration.rs].
    A policy file is its text ([None]: absent).  Every system call may fail; the
    failures of one run are a record of faults.  [serde_json] is a parameter. *)

From stdpp Require Import base list numbers option strings gmap.
From Stdlib Require Import Lia.
From S2P Require Import Prelude RustStr ExecRule ExecPolicy.

(** ** amend.rs *)

(** [io::Error], of which only the kind is inspected. *)
Inductive IoErrorKind := AlreadyExists | NotFound | OtherKind.
Record IoError := mkIo { io_kind : IoErrorKind; io_message : str }.

Inductive AmendError (JsonError : Type) :=
| EmptyPrefix
| InvalidNetworkRule (message : str)
| MissingParent (path : str)
| CreatePolicyDir (dir : str) (source : IoError)
| SerializePrefix (source : JsonError)
| SerializeNetworkRule (source : JsonError)
| OpenPolicyFile (path : str) (source : IoError)
| WritePolicyFile (path : str) (source : IoError)
| LockPolicyFile (path : str) (source : IoError)
| SeekPolicyFile (path : str) (source : IoError)
| ReadPolicyFile (path : str) (source : IoError).
Arguments EmptyPrefix {_}.
Arguments InvalidNetworkRule {_} _.
Arguments MissingParent {_} _.
Arguments CreatePolicyDir {_} _ _.
Arguments SerializePrefix {_} _.
Arguments SerializeNetworkRule {_} _.
Arguments OpenPolicyFile {_} _ _.
Arguments WritePolicyFile {_} _ _.
Arguments LockPolicyFile {_} _ _.
Arguments SeekPolicyFile {_} _ _.
Arguments ReadPolicyFile {_} _ _.

(** What each system call of an append does in a run; a failing write has
    written a prefix of its text. *)
Record AppendFaults := mkFaults {
  f_create_dir : option IoError;
  f_open : option IoError;
  f_lock : option IoError;
  f_seek : option IoError;
  f_read : option IoError;
  f_write_newline : option (nat * IoError);
  f_write_line : option (nat * IoError);
}.
Definition no_faults : AppendFaults := mkFaults None None None None None None None.

Section amend.
Context {J : Type} (to_json : str -> result str J) (show_error : Error -> str) (parent : str -> option str).

(** [write_all] in append mode. *)
Definition append_text (fault : option (nat * IoError)) (contents text : str) : str * option IoError :=
  match fault with
  | Some (n, e) => (contents ++ take n text, Some e)
  | None => (contents ++ text, None)
  end.

Definition append_locked_line (io : AppendFaults) (path line : str) (file : option str)
    : option str * result unit (AmendError J) :=
  match f_open io with
  | Some e => (file, Err (OpenPolicyFile path e))
  | None =>
      let contents := default [] file in
      match f_lock io, f_seek io, f_read io with
      | Some e, _, _ => (Some contents, Err (LockPolicyFile path e))
      | _, Some e, _ => (Some contents, Err (SeekPolicyFile path e))
      | _, _, Some e => (Some contents, Err (ReadPolicyFile path e))
      | None, None, None =>
          if existsb (fun existing => str_eqb existing line) (lines contents) then (Some contents, Ok ())
          else
            let '(with_newline, err) :=
              if negb (is_nil contents) && negb (ends_with [LF] contents)
              then append_text (f_write_newline io) contents [LF] else (contents, None) in
            match err with
            | Some e => (Some with_newline, Err (WritePolicyFile path e))
            | None =>
                let '(final, err) := append_text (f_write_line io) with_newline (line ++ [LF]) in
                match err with
                | Some e => (Some final, Err (WritePolicyFile path e))
                | None => (Some final, Ok ())
                end
            end
      end
  end.

Definition append_rule_line (io : AppendFaults) (path rule : str) (file : option str)
    : option str * result unit (AmendError J) :=
  match parent path with
  | None => (file, Err (MissingParent path))
  | Some dir =>
      match f_create_dir io with
      | Some (mkIo AlreadyExists _) | None => append_locked_line io path rule file
      | Some e => (file, Err (CreatePolicyDir dir e))
      end
  end.

Fixpoint json_tokens (prefix : list str) : result (list str) J :=
  match prefix with
  | [] => Ok []
  | t :: ts => let? j := to_json t in let? js := json_tokens ts in Ok (j :: js)
  end.

Definition allow_rule_line (tokens : list str) : str :=
  lit "prefix_rule(pattern=" ++ (lit "[" ++ join (lit ", ") tokens ++ lit "]")
  ++ (lit ", decision=" ++ [34%N] ++ lit "allow" ++ [34%N] ++ lit ")").

Definition blocking_append_allow_prefix_rule (io : AppendFaults) (path : str) (prefix : list str)
    (file : option str) : option str * result unit (AmendError J) :=
  if is_nil prefix then (file, Err EmptyPrefix)
  else match json_tokens prefix with
       | Err e => (file, Err (SerializePrefix e))
       | Ok tokens => append_rule_line io path (allow_rule_line tokens) file
       end.

Definition decision_policy_string (d : Decision) : str :=
  match d with Allow => lit "allow" | Prompt => lit "prompt" | Forbidden => lit "deny" end.

(** The text of a [network_rule] call. *)
Definition network_rule_line (h : str) (proto : NetworkRuleProtocol) (d : Decision) (j : option str)
    : result str (AmendError J) :=
  let? h := map_err (fun e => InvalidNetworkRule (show_error e)) (normalize_network_rule_host h) in
  if blank j then Err (InvalidNetworkRule (lit "justification cannot be empty"))
  else
    let? h := map_err SerializeNetworkRule (to_json h) in
    let? proto := map_err SerializeNetworkRule (to_json (as_policy_string proto)) in
    let? d := map_err SerializeNetworkRule (to_json (decision_policy_string d)) in
    let args := [lit "host=" ++ h; lit "protocol=" ++ proto; lit "decision=" ++ d] in
    let? args :=
      match j with
      | Some j => let? j := map_err SerializeNetworkRule (to_json j) in Ok (args ++ [lit "justification=" ++ j])
      | None => Ok args
      end in
    Ok (lit "network_rule(" ++ join (lit ", ") args ++ lit ")").

Definition blocking_append_network_rule (io : AppendFaults) (path h : str) (proto : NetworkRuleProtocol)
    (d : Decision) (j : option str) (file : option str) : option str * result unit (AmendError J) :=
  match network_rule_line h proto d j with
  | Err e => (file, Err e)
  | Ok rule => append_rule_line io path rule file
  end.
End amend.

(** ** sandbox_migration.rs *)

(** [from_json] is [serde_json::from_str::<Vec<String>>]. *)
Definition should_remove_rule (from_json : str -> option (list str)) (banned : gset (list str)) (line : str) : bool :=
  let line := default line (strip_suffix [LF] line) in
  let line := default line (strip_suffix [CR] line) in
  match strip_prefix (lit "prefix_rule(pattern=") line with
  | None => false
  | Some rest =>
      match strip_suffix (lit ", decision=" ++ [34%N] ++ lit "allow" ++ [34%N] ++ lit ")") rest with
      | None => false
      | Some pattern =>
          match from_json pattern with
          | None => false
          | Some prefix => bool_decide (map to_ascii_lowercase prefix ∈ banned)
          end
      end
  end.

Definition strip_banned_allow_rules (from_json : str -> option (list str)) (contents : str)
    (banned_prefixes : list (list str)) : str :=
  let banned : gset (list str) := list_to_set (map (map to_ascii_lowercase) banned_prefixes) in
  concat (List.filter (fun line => negb (should_remove_rule from_json banned line)) (split_inclusive LF contents)).

(** The files the migration touches. *)
Record MigrationFs := mkMfs { marker : bool; policy_file : option str }.

(** The outcome of its system calls in a run, and what other processes do to the
    policy file between the first read and the open; a failing write has written a
    prefix of its text. *)
Record MigrationEnv := mkEnv {
  e_try_exists : option IoError;
  e_read : option IoError;
  interfere : option str -> option str;
  e_open : option IoError;
  e_read_again : option IoError;
  e_seek : option IoError;
  e_write : option (nat * IoError);
  e_set_len : option IoError;
  e_marker : option IoError;
}.

Section migration.
Context (from_json : str -> option (list str)).

(** Overwriting from the start, then [set_len]. *)
Definition overwrite (old new : str) : str := new ++ drop (length new) old.

Definition clean_rules_file (env : MigrationEnv) (banned : list (list str)) (file : option str)
    : option str * result unit IoError :=
  match e_read env, file with
  | Some e, _ => (file, match io_kind e with NotFound => Ok () | _ => Err e end)
  | None, None => (None, Ok ())
  | None, Some contents =>
      if str_eqb (strip_banned_allow_rules from_json contents banned) contents then (file, Ok ())
      else
        let file := interfere env file in
        match e_open env, file with
        | Some e, _ => (file, match io_kind e with NotFound => Ok () | _ => Err e end)
        | None, None => (None, Ok ())
        | None, Some contents =>
            match e_read_again env with
            | Some e => (file, Err e)
            | None =>
                let retained := strip_banned_allow_rules from_json contents banned in
                if str_eqb retained contents then (file, Ok ())
                else
                  match e_seek env, e_write env with
                  | Some e, _ => (file, Err e)
                  | None, Some (n, e) => (Some (overwrite contents (take n retained)), Err e)
                  | None, None =>
                      let written := overwrite contents retained in
                      match e_set_len env with
                      | Some e => (Some written, Err e)
                      | None => (Some (take (length retained) written), Ok ())
                      end
                  end
            end
        end
  end.

(** [write_migration_marker]: persisting without clobbering an existing marker. *)
Definition write_migration_marker (env : MigrationEnv) (fs : MigrationFs) : MigrationFs * result unit IoError :=
  match e_marker env with
  | Some e => (fs, match io_kind e with AlreadyExists => Ok () | _ => Err e end)
  | None => (mkMfs true (policy_file fs), Ok ())
  end.

Definition prefix_rule_migration (env : MigrationEnv) (banned : list (list str)) (fs : MigrationFs)
    : MigrationFs * result unit IoError :=
  match e_try_exists env with
  | Some e => (fs, Err e)
  | None =>
      if marker fs then (fs, Ok ())
      else
        let '(file, r) := clean_rules_file env banned (policy_file fs) in
        let fs := mkMfs (marker fs) file in
        match r with
        | Err e => (fs, Err e)
        | Ok _ => write_migration_marker env fs
        end
  end.
End migration.

(** ** Theorems *)

(** *** Complete lines *)

(** Text that is empty or ends with a line feed. *)
Definition complete (s : str) : Prop := s = [] \/ exists r, s = r ++ [LF].

Lemma split_inclusive_complete_app a b :
  complete a -> split_inclusive LF (a ++ b) = split_inclusive LF a ++ split_inclusive LF b.
Proof.
  intros [->|[r ->]]; [done|]. rewrite <- app_assoc. simpl ([LF] ++ b).
  induction r as [|x r IH]; simpl.
  - done.
  - destruct (N.eqb x LF) eqn:E; [by rewrite IH|]. rewrite IH.
    destruct (split_inclusive LF (r ++ [LF])) as [|l ls] eqn:E'; [|done].
    exfalso. apply (f_equal (@concat _)) in E'. rewrite concat_split_inclusive in E'. by destruct r.
Qed.

Lemma complete_line l : complete (l ++ [LF]).
Proof. right. eauto. Qed.

Lemma complete_app a b : complete a -> complete b -> complete (a ++ b).
Proof.
  intros Ha [->|[r ->]]; [by rewrite app_nil_r|]. right. exists (a ++ r). by rewrite app_assoc.
Qed.

Lemma lines_complete_app a b : complete a -> lines (a ++ b) = lines a ++ lines b.
Proof. intros Ha. unfold lines. by rewrite split_inclusive_complete_app, map_app. Qed.

Lemma split_inclusive_line l : LF ∉ l -> split_inclusive LF (l ++ [LF]) = [l ++ [LF]].
Proof. intros Hl. rewrite split_inclusive_app_sep by done. done. Qed.

Lemma lines_line l : LF ∉ l -> ends_with [CR] l = false -> lines (l ++ [LF]) = [l].
Proof.
  intros Hl Hc. unfold lines. rewrite split_inclusive_line by done. simpl. f_equal. unfold strip_line_ending.
  rewrite strip_suffix_app. unfold ends_with, is_some in Hc. by destruct (strip_suffix [CR] l).
Qed.

Lemma ends_with_snoc c x s : ends_with [c] (s ++ [x]) = N.eqb x c.
Proof.
  destruct (N.eqb x c) eqn:E.
  - apply N.eqb_eq in E as ->. apply ends_with_spec. eauto.
  - apply not_true_iff_false. intros [r Hr]%ends_with_spec. apply app_inj_tail in Hr as [_ ->].
    by rewrite N.eqb_refl in E.
Qed.

(** Terminating an incomplete last line does not change the lines. *)
Lemma lines_add_newline s :
  s <> [] -> ends_with [LF] s = false -> ends_with [CR] s = false -> lines (s ++ [LF]) = lines s.
Proof.
  induction s as [|x s IH] using rev_ind; [done|]. clear IH. intros _ Hl Hc.
  rewrite !ends_with_snoc in *.
  assert (exists a b, s = a ++ b /\ complete a /\ LF ∉ b) as (a & b & -> & Ha & Hb).
  { clear. induction s as [|y s (a & b & -> & Ha & Hb)] using rev_ind.
    - exists [], []. split_and!; [done|by left|set_solver].
    - destruct (decide (y = LF)) as [->|Hy].
      + exists (a ++ b ++ [LF]), []. split_and!; [by rewrite app_nil_r, app_assoc|right|set_solver].
        exists (a ++ b). by rewrite app_assoc.
      + exists a, (b ++ [y]). split_and!; [by rewrite app_assoc|done|set_solver]. }
  assert (LF ∉ b ++ [x]) by (apply N.eqb_neq in Hl; set_solver).
  rewrite <- !app_assoc, (lines_complete_app a), (lines_complete_app a) by done. f_equal.
  rewrite app_assoc, lines_line by (done || by rewrite ends_with_snoc).
  unfold lines. rewrite split_inclusive_no_char by (done || by (intros E%app_eq_nil; destruct E)). simpl.
  unfold strip_line_ending. destruct (strip_suffix [LF] (b ++ [x])) as [r|] eqn:E; [|done].
  apply strip_suffix_Some in E. rewrite E in *. set_solver.
Qed.

Lemma split_inclusive_concat ls (keep : str -> bool) :
  split_inclusive LF (concat (List.filter keep (split_inclusive LF ls))) = List.filter keep (split_inclusive LF ls).
Proof.
  remember (split_inclusive LF ls) as ps eqn:Eps. revert ls Eps.
  induction ps as [|p ps IH]; intros ls E; [done|].
  assert ((exists l, p = l ++ [LF] /\ LF ∉ l /\ ps = split_inclusive LF (drop (length p) ls))
          \/ (ps = [] /\ LF ∉ p /\ p <> [])) as [(l & -> & Hl & Hps)|(-> & Hp & Hne)].
  { clear IH. revert p ps E. induction ls as [|x s IH]; intros p ps E; [done|]. simpl in E.
    destruct (N.eqb x LF) eqn:Ex.
    - apply N.eqb_eq in Ex as ->. injection E as -> ->. left. exists []. split_and!; [done|set_solver|done].
    - apply N.eqb_neq in Ex. destruct (split_inclusive LF s) as [|q qs] eqn:Es.
      + injection E as -> ->. right. split_and!; [done|set_solver|done].
      + injection E as -> ->. destruct (IH q qs eq_refl) as [(l & -> & Hl & Hq)|(-> & Hq & Hne)].
        * left. exists (x :: l). split_and!; [done|set_solver|done].
        * right. split_and!; [done|set_solver|done]. }
  - specialize (IH _ Hps). cbn [List.filter]. destruct (keep _); [|done]. cbn [concat].
    rewrite split_inclusive_complete_app by apply complete_line. by rewrite split_inclusive_line, IH.
  - cbn [List.filter]. destruct (keep p); [|done]. simpl. rewrite app_nil_r. by apply split_inclusive_no_char.
Qed.

(** *** Appending a rule *)

Section amend_theorems.
Context {J : Type} (to_json : str -> result str J) (show_error : Error -> str) (parent : str -> option str).

Lemma append_text_prefix f c t : c `prefix_of` (append_text f c t).1.
Proof. destruct f as [[n e]|]; simpl; by apply prefix_app_r. Qed.

Lemma append_locked_line_prefix io path line file :
  default [] file `prefix_of` default [] (append_locked_line (J:=J) io path line file).1.
Proof.
  unfold append_locked_line. destruct (f_open io); [done|]. cbv zeta.
  destruct (f_lock io), (f_seek io), (f_read io); try done. destruct (existsb _ _); [done|].
  set (c := default [] file).
  assert (c `prefix_of` (if negb (is_nil c) && negb (ends_with [LF] c)
     then append_text (f_write_newline io) c [LF] else (c, None)).1) as Hp.
  { destruct (_ && _); [apply append_text_prefix|done]. }
  destruct (if negb (is_nil c) && _ then _ else _) as [w [e|]]; simpl in Hp; [done|].
  pose proof (append_text_prefix (f_write_line io) w (line ++ [LF])) as Hp'.
  destruct (append_text _ w _) as [fin [e|]]; simpl in *; by etrans.
Qed.

(** Appending to a policy file never loses text: whichever system call
    fails, the old contents are a prefix of what the file holds afterwards, for
    both kinds of rule. *)
Theorem append_rule_keeps_contents (io : AppendFaults) (path : str) (file : option str) :
  (forall prefix, default [] file `prefix_of`
     default [] (blocking_append_allow_prefix_rule to_json parent io path prefix file).1)
  /\ (forall h proto d j, default [] file `prefix_of`
     default [] (blocking_append_network_rule to_json show_error parent io path h proto d j file).1).
Proof.
  assert (forall rule, default [] file `prefix_of` default [] (append_rule_line (J:=J) parent io path rule file).1) as Ha.
  { intros rule. unfold append_rule_line. destruct (parent path); [|done].
    destruct (f_create_dir io) as [[[] ?]|]; try done; apply append_locked_line_prefix. }
  split.
  - intros prefix. unfold blocking_append_allow_prefix_rule. destruct (is_nil prefix); [done|].
    by destruct (json_tokens _ _).
  - intros h proto d j. unfold blocking_append_network_rule. by destruct (network_rule_line _ _ _ _ _ _).
Qed.

Lemma append_fresh io path line contents file' :
  append_locked_line (J:=J) io path line (Some contents) = (file', Ok ()) ->
  line ∉ lines contents ->
  file' = Some ((if negb (is_nil contents) && negb (ends_with [LF] contents)
                 then contents ++ [LF] else contents) ++ line ++ [LF]).
Proof.
  unfold append_locked_line. destruct (f_open io); [done|]. cbv zeta. cbn [default].
  destruct (f_lock io), (f_seek io), (f_read io); try done. intros H Hn.
  destruct (existsb _ _) eqn:E.
  { apply existsb_exists in E as (l & Hl & ->%str_eqb_spec). by destruct Hn; apply list_elem_of_In. }
  destruct (_ && _); unfold append_text in *;
    repeat match goal with H : context [match ?f io with _ => _ end] |- _ => destruct (f io) as [[??]|]; try done end;
    by injection H as <-.
Qed.

Lemma append_present io path line contents file' :
  append_locked_line (J:=J) io path line (Some contents) = (file', Ok ()) ->
  line ∈ lines contents -> file' = Some contents.
Proof.
  unfold append_locked_line. destruct (f_open io); [done|]. cbv zeta. cbn [default].
  destruct (f_lock io), (f_seek io), (f_read io); try done. intros H Hin.
  destruct (existsb _ _) eqn:E; [by injection H as <-|]. apply not_true_iff_false in E. destruct E.
  apply existsb_exists. exists line. split; [by apply list_elem_of_In|apply str_eqb_refl].
Qed.

Lemma append_lines io path line contents c' :
  LF ∉ line -> ends_with [CR] line = false -> ends_with [CR] contents = false ->
  append_locked_line (J:=J) io path line (Some contents) = (Some c', Ok ()) ->
  lines c' = lines contents ++ (if decide (line ∈ lines contents) then [] else [line]).
Proof.
  intros Hl Hc Hc' H. destruct (decide _) as [Hin|Hin].
  { apply append_present in H as [= ->]; [|done]. by rewrite app_nil_r. }
  apply append_fresh in H as [= ->]; [|done]. destruct contents as [|x s].
  { simpl. by apply lines_line. }
  cbn [is_nil negb andb]. destruct (ends_with [LF] (x :: s)) eqn:E; cbn [negb].
  - apply ends_with_spec in E as [r E]. rewrite lines_complete_app by (right; eauto).
    by rewrite lines_line.
  - rewrite lines_complete_app by apply complete_line. rewrite lines_add_newline, lines_line by done. done.
Qed.

(** A successful append leaves the file's lines as they were, followed by
    the new rule line unless it was already there; a second append of the same
    line changes nothing. *)
Theorem append_locked_line_lines (io io' : AppendFaults) (path line contents c' : str) (r : option str) :
  LF ∉ line -> ends_with [CR] line = false -> ends_with [CR] contents = false ->
  append_locked_line (J:=J) io path line (Some contents) = (Some c', Ok ()) ->
  lines c' = lines contents ++ (if decide (line ∈ lines contents) then [] else [line])
  /\ (append_locked_line (J:=J) io' path line (Some c') = (r, Ok ()) -> r = Some c').
Proof using Type.
  intros Hl Hc Hc' H. pose proof (append_lines _ _ _ _ _ Hl Hc Hc' H) as E. split; [done|].
  intros H'. apply append_present in H'; [done|]. rewrite E, elem_of_app. destruct (decide _); [by left|right; apply list_elem_of_here].
Qed.

(** *** Migration *)

Section migration_theorems.
Context (from_json : str -> option (list str)).

(** Stripping banned rules is idempotent, and what it keeps are the lines
    of the file that are not banned allow rules, in order and unchanged. *)
Theorem strip_banned_allow_rules_spec (contents : str) (banned : list (list str)) :
  split_inclusive LF (strip_banned_allow_rules from_json contents banned)
    = List.filter (fun l => negb (should_remove_rule from_json (list_to_set (map (map to_ascii_lowercase) banned)) l))
        (split_inclusive LF contents)
  /\ strip_banned_allow_rules from_json (strip_banned_allow_rules from_json contents banned) banned
     = strip_banned_allow_rules from_json contents banned.
Proof using Type.
  unfold strip_banned_allow_rules. cbv zeta. split; [apply split_inclusive_concat|].
  rewrite split_inclusive_concat. f_equal. induction (split_inclusive LF contents) as [|p ps IH]; [done|].
  cbn [List.filter]. destruct (negb _) eqn:E; [|done]. cbn [List.filter]. by rewrite E, IH.
Qed.

(** What the migration sees of the policy file when it opens it to write. *)
Definition opened (env : MigrationEnv) (banned : list (list str)) (file : option str) : option str :=
  match file with
  | Some c => if str_eqb (strip_banned_allow_rules from_json c banned) c then file else interfere env file
  | None => None
  end.

(** The system calls all succeed; other processes may still interfere. *)
Definition fault_free (env : MigrationEnv) : Prop :=
  e_try_exists env = None /\ e_read env = None /\ e_open env = None /\ e_read_again env = None
  /\ e_seek env = None /\ e_write env = None /\ e_set_len env = None /\ e_marker env = None.

(** The migration is one-shot: with the marker present it changes nothing;
    without it, a run without I/O errors sets the marker and leaves the policy
    file stripped of banned rules, even when the file changed under it. *)
Theorem prefix_rule_migration_once (env : MigrationEnv) (banned : list (list str)) (fs : MigrationFs) :
  fault_free env ->
  prefix_rule_migration from_json env banned fs =
    (if marker fs then fs
     else mkMfs true (option_map (fun c => strip_banned_allow_rules from_json c banned)
                        (opened env banned (policy_file fs))), Ok ()).
Proof.
  intros (Ht & Hr & Ho & Hra & Hs & Hw & Hl & Hm). unfold prefix_rule_migration. rewrite Ht.
  destruct fs as [mk file]. cbn [marker policy_file]. destruct mk; [done|].
  unfold clean_rules_file, opened. rewrite Hr, Ho, Hra, Hs, Hw, Hl. unfold write_migration_marker. rewrite Hm.
  destruct file as [c|]; [|done].
  destruct (str_eqb (strip_banned_allow_rules from_json c banned) c) eqn:E.
  { apply str_eqb_spec in E. cbn. by rewrite E. }
  destruct (interfere env (Some c)) as [c'|]; [|done]. cbv zeta.
  destruct (str_eqb (strip_banned_allow_rules from_json c' banned) c') eqn:E'.
  { apply str_eqb_spec in E'. cbn. by rewrite E'. }
  cbn. unfold overwrite. by rewrite take_app_length.
Qed.

(** What the documentation of [serde_json] promises of string arrays. *)
Context (json_array_roundtrip : forall prefix tokens,
  json_tokens to_json prefix = Ok tokens -> from_json (lit "[" ++ join (lit ", ") tokens ++ lit "]") = Some prefix).

Lemma should_remove_allow_line banned prefix tokens :
  json_tokens to_json prefix = Ok tokens ->
  should_remove_rule from_json banned (allow_rule_line tokens ++ [LF])
  = bool_decide (map to_ascii_lowercase prefix ∈ banned).
Proof.
  intros Hj. unfold should_remove_rule. cbv zeta. rewrite strip_suffix_app. cbn [from_option id].
  assert (strip_suffix [CR] (allow_rule_line tokens) = None) as ->.
  { destruct (strip_suffix [CR] (allow_rule_line tokens)) as [r|] eqn:E; [|done].
    exfalso. apply strip_suffix_Some in E. unfold allow_rule_line in E.
    apply (f_equal (@rev N)) in E. rewrite !rev_app_distr in E. simpl in E. discriminate E. }
  cbn [from_option id]. unfold allow_rule_line. rewrite strip_prefix_app, strip_suffix_app.
  by rewrite (json_array_roundtrip _ _ Hj).
Qed.

(** The migration recognises the lines amendments write: after an allow rule
    for a prefix is appended to a file that lacks it, stripping keeps what it
    kept of the old file and drops the new line exactly when the prefix is
    banned (letter case ignored). *)
Theorem append_then_strip (io : AppendFaults) (path : str) (prefix : list str) (tokens : list str)
    (banned : list (list str)) (contents c' : str) :
  prefix <> [] -> json_tokens to_json prefix = Ok tokens -> LF ∉ allow_rule_line tokens ->
  complete contents -> allow_rule_line tokens ∉ lines contents -> is_some (parent path) = true ->
  blocking_append_allow_prefix_rule to_json parent io path prefix (Some contents) = (Some c', Ok ()) ->
  strip_banned_allow_rules from_json c' banned =
    strip_banned_allow_rules from_json contents banned
    ++ (if bool_decide (map to_ascii_lowercase prefix ∈ map (map to_ascii_lowercase) banned) then []
        else allow_rule_line tokens ++ [LF]).
Proof.
  intros Hne Hj Hlf Hc Hfresh Hpar H. unfold blocking_append_allow_prefix_rule in H.
  destruct (is_nil prefix) eqn:En; [by apply is_nil_true in En|]. rewrite Hj in H.
  unfold append_rule_line in H. destruct (parent path); [|done].
  assert (append_locked_line (J:=J) io path (allow_rule_line tokens) (Some contents) = (Some c', Ok ())) as Ha.
  { by destruct (f_create_dir io) as [[[] ?]|]. }
  apply append_fresh in Ha; [|done]. apply (inj Some) in Ha as ->.
  assert (negb (is_nil contents) && negb (ends_with [LF] contents) = false) as ->.
  { destruct Hc as [->|[r ->]]; [done|]. rewrite ends_with_snoc, N.eqb_refl. by rewrite andb_false_r. }
  unfold strip_banned_allow_rules. cbv zeta.
  rewrite split_inclusive_complete_app, List.filter_app, concat_app by done. f_equal.
  rewrite split_inclusive_line by done. cbn [List.filter]. rewrite (should_remove_allow_line _ _ _ Hj).
  case_bool_decide as Hb; case_bool_decide as Hb'; rewrite elem_of_list_to_set in Hb; try done.
  cbn [negb concat]. by rewrite app_nil_r.
Qed.

End migration_theorems.
End amend_theorems.

(** ** Witnesses *)

(** A codec for strings without quotation marks, and its array reader. *)
Definition QUOTE : char := 34%N.
Definition quote (s : str) : str := [QUOTE] ++ s ++ [QUOTE].
Definition plain_to_json (s : str) : result str unit := if contains_char QUOTE s then Err () else Ok (quote s).
Fixpoint every_other (l : list str) : list str :=
  match l with _ :: x :: r => x :: every_other r | _ => [] end.
Definition plain_from_json (t : str) : option (list str) := Some (every_other (split QUOTE t)).

Lemma every_other_quoted pre ss :
  QUOTE ∉ pre -> Forall (fun s => QUOTE ∉ s) ss ->
  every_other (split QUOTE (pre ++ join (lit ", ") (map quote ss) ++ lit "]")) = ss.
Proof.
  intros Hpre HF. revert pre Hpre. induction HF as [|s ss Hs HF IH]; intros pre Hpre.
  - cbn [map join]. rewrite app_nil_l, split_no_char; [done|]. apply not_elem_of_app. split; [done|].
    intros [H|H]%elem_of_cons; [discriminate H|set_solver].
  - assert (exists pre', QUOTE ∉ pre' /\ join (lit ", ") (map quote (s :: ss)) ++ lit "]"
        = quote s ++ pre' ++ join (lit ", ") (map quote ss) ++ lit "]") as (pre' & Hpre' & ->).
    { destruct ss as [|s' ss].
      - exists []. split; [set_solver|]. done.
      - exists (lit ", "). split; [intros [H|[H|H]%elem_of_cons]%elem_of_cons; [discriminate H..|set_solver]|].
        cbn [map]. rewrite join_cons_nonempty by done. by rewrite <- !app_assoc. }
    unfold quote at 1. rewrite <- !app_assoc. simpl ([QUOTE] ++ _). rewrite split_app_sep by done.
    rewrite split_app_sep by done. cbn [every_other]. f_equal. by apply IH.
Qed.

Lemma plain_json_roundtrip prefix tokens :
  json_tokens plain_to_json prefix = Ok tokens ->
  plain_from_json (lit "[" ++ join (lit ", ") tokens ++ lit "]") = Some prefix.
Proof.
  intros H. assert (tokens = map quote prefix /\ Forall (fun s => QUOTE ∉ s) prefix) as [-> HF].
  { revert tokens H; induction prefix as [|s prefix IH]; intros tokens H; simpl in H.
    - injection H as <-. split; [done|constructor].
    - inv_bind. subst tokens. destruct (IH _ ltac:(eassumption)) as [-> HF]. unfold plain_to_json in *.
      destruct (contains_char QUOTE s) eqn:E; [done|]. inv_bind. subst. split; [done|]. constructor; [|done].
      intros Hin%contains_char_spec. congruence. }
  unfold plain_from_json. f_equal. apply every_other_quoted; [|done]. intros [H'|H']%elem_of_cons; [discriminate H'|set_solver].
Qed.

Definition demo_parent (_ : str) : option str := Some (lit "/rules").
Definition demo_tokens : list str := [quote (lit "Bash"); quote (lit "-c")].

Lemma append_then_strip_witness :
  exists c', blocking_append_allow_prefix_rule plain_to_json demo_parent no_faults (lit "/rules/default") [lit "Bash"; lit "-c"] (Some [])
             = (Some c', Ok ())
    /\ strip_banned_allow_rules plain_from_json c' [[lit "bash"; lit "-c"]] = [].
Proof.
  destruct (blocking_append_allow_prefix_rule plain_to_json demo_parent no_faults (lit "/rules/default") [lit "Bash"; lit "-c"] (Some []))
    as [[c'|] [[]|e]] eqn:E; try (exfalso; vm_compute in E; discriminate E).
  exists c'. split; [reflexivity|].
  rewrite (append_then_strip plain_to_json demo_parent plain_from_json plain_json_roundtrip no_faults (lit "/rules/default")
             [lit "Bash"; lit "-c"] demo_tokens [[lit "bash"; lit "-c"]] [] c').
  - vm_compute. reflexivity.
  - discriminate.
  - reflexivity.
  - intros Hin. apply contains_char_spec in Hin. vm_compute in Hin. discriminate Hin.
  - left. reflexivity.
  - apply not_elem_of_nil.
  - reflexivity.
  - exact E.
Defined.

Lemma append_locked_line_lines_witness :
  exists c', append_locked_line (J:=unit) no_faults (lit "p") (lit "b") (Some (lit "a")) = (Some c', Ok ())
    /\ lines c' = [lit "a"; lit "b"].
Proof.
  destruct (append_locked_line (J:=unit) no_faults (lit "p") (lit "b") (Some (lit "a"))) as [[c'|] [[]|e]] eqn:E;
    try (exfalso; vm_compute in E; discriminate E).
  exists c'. split; [reflexivity|].
  assert (LF ∉ lit "b") as Hl by (intros Hin; apply contains_char_spec in Hin; vm_compute in Hin; discriminate Hin).
  rewrite (proj1 (append_locked_line_lines no_faults no_faults (lit "p") (lit "b") (lit "a") c' None
                    Hl ltac:(vm_compute; reflexivity) ltac:(vm_compute; reflexivity) E)).
  vm_compute. reflexivity.
Defined.

Definition calm : MigrationEnv := mkEnv None None id None None None None None None.

Lemma prefix_rule_migration_once_witness :
  prefix_rule_migration plain_from_json calm [[lit "bash"]] (mkMfs true (Some (lit "x"))) = (mkMfs true (Some (lit "x")), Ok ()).
Proof.
  rewrite (prefix_rule_migration_once plain_from_json calm); [reflexivity|].
  split; [reflexivity|]. split; [reflexivity|]. split; [reflexivity|]. split; [reflexivity|].
  split; [reflexivity|]. split; [reflexivity|]. split; reflexivity.
Defined.
