(* ===== verification/StreamText.v ===== *)
(** * Streamed text: the parser interface, and searching a stream for a needle

    Models [codex-rs/utils/stream-parser/src/stream_text.rs] and the substring
    facts the stream parsers rest on: what a parser may release of the text it
    has seen when a delimiter can still be completed by the text to come. *)

From stdpp Require Import base list numbers option.
From Stdlib Require Import Lia.
From S2P Require Import Prelude RustStr.

(** ** The interface *)

Record StreamTextChunk (E : Type) := mkTextChunk { visible_text : str; extracted : list E }.
Arguments mkTextChunk {E} _ _.
Arguments visible_text {E} _.
Arguments extracted {E} _.

Definition chunk_default {E} : StreamTextChunk E := mkTextChunk [] [].
Definition chunk_is_empty {E} (c : StreamTextChunk E) : bool :=
  is_nil (visible_text c) && is_nil (extracted c).
(** Joining the output of consecutive pushes. *)
Definition chunk_app {E} (a b : StreamTextChunk E) : StreamTextChunk E :=
  mkTextChunk (visible_text a ++ visible_text b) (extracted a ++ extracted b).

Class StreamTextParser (P E : Type) := {
  push_str : P -> str -> P * StreamTextChunk E;
  finish : P -> P * StreamTextChunk E;
}.

(** What a streaming parser promises its callers: the way the text is cut into
    chunks does not matter.  Extracted payloads may be cut differently, so they
    are compared after a normalisation of the parser's choice; [stream_inv] is
    the parser's invariant. *)
Class LawfulStreamParser (P E : Type) `{StreamTextParser P E} := {
  stream_inv : P -> Prop;
  stream_norm : list E -> list E;
  stream_norm_app a a' b b' :
    stream_norm a = stream_norm a' -> stream_norm b = stream_norm b' ->
    stream_norm (a ++ b) = stream_norm (a' ++ b');
  push_str_inv p s : stream_inv p -> stream_inv (push_str p s).1;
  push_str_app p a b :
    stream_inv p ->
    let '(p1, c1) := push_str p a in
    let '(p2, c2) := push_str p1 b in
    let '(p', c') := push_str p (a ++ b) in
    p' = p2 /\ visible_text c' = visible_text c1 ++ visible_text c2
    /\ stream_norm (extracted c') = stream_norm (extracted c1 ++ extracted c2);
}.

(** Pushing a list of chunks, then finishing. *)
Fixpoint push_all `{StreamTextParser P E} (p : P) (chunks : list str) : P * StreamTextChunk E :=
  match chunks with
  | [] => (p, chunk_default)
  | c :: cs => let '(p1, o1) := push_str p c in let '(p2, o2) := push_all p1 cs in (p2, chunk_app o1 o2)
  end.
Definition run_stream `{StreamTextParser P E} (p : P) (chunks : list str) : StreamTextChunk E :=
  let '(p1, o1) := push_all p chunks in chunk_app o1 (finish p1).2.

Section lawful.
Context `{LawfulStreamParser P E}.

(** Outputs that differ only in how payloads are cut. *)
Definition chunk_equiv (a b : StreamTextChunk E) : Prop :=
  visible_text a = visible_text b /\ stream_norm (extracted a) = stream_norm (extracted b).

#[export] Instance chunk_equiv_equivalence : Equivalence chunk_equiv.
Proof. split; [done|by intros ? ? [? ?]|intros ? ? ? [??] [??]; split; congruence]. Qed.

#[export] Instance chunk_app_proper : Proper (chunk_equiv ==> chunk_equiv ==> chunk_equiv) chunk_app.
Proof.
  intros a a' [Ha Ea] b b' [Hb Eb]. split; simpl; [congruence|]. by apply stream_norm_app.
Qed.

Lemma chunk_app_assoc (a b c : StreamTextChunk E) : chunk_app a (chunk_app b c) = chunk_app (chunk_app a b) c.
Proof. unfold chunk_app. simpl. by rewrite !app_assoc. Qed.

Lemma chunk_app_default_r (a : StreamTextChunk E) : chunk_app a chunk_default = a.
Proof. destruct a. unfold chunk_app, chunk_default. simpl. by rewrite !app_nil_r. Qed.

Lemma push_str_app_equiv p a b :
  stream_inv p ->
  (push_str p (a ++ b)).1 = (push_str (push_str p a).1 b).1
  /\ chunk_equiv (push_str p (a ++ b)).2 (chunk_app (push_str p a).2 (push_str (push_str p a).1 b).2).
Proof.
  intros Hp. pose proof (push_str_app p a b Hp) as Hab. destruct (push_str p a) as [p1 c1]. simpl in *.
  destruct (push_str p1 b) as [p2 c2], (push_str p (a ++ b)) as [p' c']. simpl.
  destruct Hab as (-> & Hv & He). by split.
Qed.

(** Any way of cutting a non-empty run of chunks amounts to one push. *)
Lemma push_all_concat p c cs :
  stream_inv p ->
  (push_all p (c :: cs)).1 = (push_str p (c ++ concat cs)).1
  /\ chunk_equiv (push_all p (c :: cs)).2 (push_str p (c ++ concat cs)).2.
Proof.
  revert p c; induction cs as [|c' cs IH]; intros p c Hp.
  - simpl. rewrite app_nil_r. destruct (push_str p c) as [p1 o1]. simpl. by rewrite chunk_app_default_r.
  - change (push_all p (c :: c' :: cs)) with
      (let '(p1, o1) := push_str p c in let '(p2, o2) := push_all p1 (c' :: cs) in (p2, chunk_app o1 o2)).
    pose proof (push_str_inv p c Hp) as Hp1.
    destruct (push_str_app_equiv p c (c' ++ concat cs) Hp) as [Es Ec].
    simpl concat. destruct (push_str p c) as [p1 o1]. simpl in *.
    destruct (IH p1 c' Hp1) as [E1 E2]. change (let '(p0, o0) := push_str p1 c' in
      let '(p2, o2) := push_all p0 cs in (p2, chunk_app o0 o2)) with (push_all p1 (c' :: cs)) in *.
    destruct (push_all p1 (c' :: cs)) as [p2 o2]. simpl in *. split; [congruence|]. by rewrite Ec, E2.
Qed.

Lemma run_stream_concat p c cs :
  stream_inv p -> chunk_equiv (run_stream p (c :: cs)) (run_stream p [c ++ concat cs]).
Proof.
  intros Hp. unfold run_stream. destruct (push_all_concat p c cs Hp) as [E1 E2].
  destruct (push_all_concat p (c ++ concat cs) [] Hp) as [E3 E4]. simpl concat in *. rewrite app_nil_r in *.
  destruct (push_all p (c :: cs)) as [p1 o1], (push_all p [c ++ concat cs]) as [p2 o2]. cbn [fst snd] in *.
  rewrite E1, E3. by rewrite E2, E4.
Qed.
End lawful.

(** ** Searching *)

(** [str::find(needle)]. *)
Fixpoint find (needle s : str) : option nat :=
  if starts_with needle s then Some 0
  else match s with
       | [] => None
       | _ :: s' => option_map S (find needle s')
       end.

Definition occurs (needle s : str) (i : nat) : Prop := starts_with needle (drop i s) = true.

(** [longest_suffix_prefix_len]: the loop from [k] down to 1. *)
Fixpoint lsp_from (s needle : str) (k : nat) : nat :=
  match k with
  | 0 => 0
  | S k' => if ends_with (take k needle) s then k else lsp_from s needle k'
  end.
Definition longest_suffix_prefix_len (s needle : str) : nat :=
  lsp_from s needle (Nat.min (length s) (length needle - 1)).

Lemma starts_with_prefix p s : starts_with p s = true <-> p `prefix_of` s.
Proof. rewrite starts_with_spec. done. Qed.
Lemma ends_with_suffix p s : ends_with p s = true <-> p `suffix_of` s.
Proof. rewrite ends_with_spec. done. Qed.

Lemma prefix_of_short {A} (p a b : list A) : length p <= length a -> p `prefix_of` a ++ b -> p `prefix_of` a.
Proof.
  intros Hl [r Hr]. exists (drop (length p) a). rewrite <- (take_drop (length p) a) at 1. f_equal.
  apply (f_equal (take (length p))) in Hr. rewrite take_app_le, take_app_length in Hr by done. done.
Qed.

Lemma suffix_of_short {A} (p a b : list A) : length p <= length b -> p `suffix_of` a ++ b -> p `suffix_of` b.
Proof.
  intros Hl [r Hr]. exists (take (length b - length p) b).
  rewrite <- (take_drop (length b - length p) b) in Hr at 1. rewrite app_assoc in Hr.
  apply app_inj_2 in Hr as [_ Hp]; [|rewrite length_drop; lia].
  rewrite <- (take_drop (length b - length p) b) at 1. by rewrite Hp.
Qed.

Lemma suffix_of_long {A} (p a b : list A) :
  length b <= length p -> p `suffix_of` a ++ b ->
  take (length p - length b) p `suffix_of` a /\ drop (length p - length b) p = b.
Proof.
  intros Hl [r Hr]. rewrite <- (take_drop (length p - length b) p) in Hr at 1. rewrite app_assoc in Hr.
  apply app_inj_2 in Hr as [-> Hb]; [by split; [exists r|]|]. rewrite length_drop. lia.
Qed.

Lemma find_Some n s i : find n s = Some i <-> occurs n s i /\ i <= length s /\ forall j, j < i -> ~ occurs n s j.
Proof.
  revert i; induction s as [|x s IH]; intros i; unfold occurs in *; simpl.
  - destruct (starts_with n []) eqn:E.
    + split; [intros [= <-]; split_and!; [done|lia|lia]|]. intros (_ & Hi & _). f_equal. lia.
    + split; [done|]. intros (H & Hi & _). rewrite drop_nil in H. congruence.
  - destruct (starts_with n (x :: s)) eqn:E.
    + split; [intros [= <-]; split_and!; [done|lia|lia]|]. intros (_ & _ & Hj).
      destruct i; [done|]. destruct (Hj 0 ltac:(lia)). done.
    + split.
      * destruct (find n s) as [j|] eqn:Ef; [|done]. intros [= <-]. destruct (proj1 (IH j) eq_refl) as (Hj & Hl & Hm).
        split_and!; [done|lia|]. intros [|j'] Hlt; [simpl; congruence|]. apply Hm. lia.
      * intros (Ho & Hl & Hm). destruct i as [|i]; [simpl in Ho; congruence|].
        rewrite (proj2 (IH i)); [done|]. split_and!; [done|lia|]. intros j Hj. apply (Hm (S j)). lia.
Qed.

Lemma find_None n s : find n s = None <-> forall j, j <= length s -> ~ occurs n s j.
Proof.
  induction s as [|x s IH]; unfold occurs in *; simpl.
  - destruct (starts_with n []) eqn:E; split; try done.
    + intros H. by destruct (H 0 ltac:(lia)).
    + intros _ j Hj. rewrite drop_nil. congruence.
  - destruct (starts_with n (x :: s)) eqn:E.
    + split; [done|]. intros H. by destruct (H 0 ltac:(lia)).
    + destruct (find n s) as [i|]; simpl.
      * split; [done|]. intros H. destruct IH as [_ IH]. discriminate IH. intros j Hj. apply (H (S j)). lia.
      * split; [|done]. intros _ [|j] Hj; [simpl; congruence|]. apply IH; [done|lia].
Qed.

Lemma occurs_app_l n a b i : occurs n a i -> occurs n (a ++ b) i.
Proof.
  unfold occurs. rewrite !starts_with_prefix. intros [r Hr]. destruct (decide (i <= length a)).
  - rewrite drop_app_le by done. rewrite Hr. exists (r ++ b). by rewrite app_assoc.
  - rewrite drop_ge in Hr by lia. destruct n; [apply prefix_nil|done].
Qed.

Lemma occurs_length n s i : n <> [] -> occurs n s i -> i + length n <= length s.
Proof.
  unfold occurs. rewrite starts_with_prefix. intros Hn H%prefix_length. rewrite length_drop in H.
  destruct n; [done|]. simpl in *. lia.
Qed.

(** An occurrence that fits in the first part is an occurrence there. *)
Lemma occurs_app_inv n a b i : i + length n <= length a -> occurs n (a ++ b) i -> occurs n a i.
Proof.
  unfold occurs. rewrite !starts_with_prefix. intros Hl Hp. rewrite drop_app_le in Hp by lia.
  eapply prefix_of_short; [|exact Hp]. rewrite length_drop. lia.
Qed.

Lemma find_app_l n a b i : n <> [] -> find n a = Some i -> find n (a ++ b) = Some i.
Proof.
  intros Hn (Ho & Hl & Hm)%find_Some. apply find_Some. split_and!; [by apply occurs_app_l| |].
  - rewrite length_app. lia.
  - intros j Hj Hoc. apply (Hm j Hj). eapply occurs_app_inv; [|exact Hoc].
    pose proof (occurs_length _ _ _ Hn Ho). lia.
Qed.

(** Text that cannot start an occurrence can be skipped. *)
Lemma find_skip n s m :
  m <= length s -> (forall j, j < m -> ~ occurs n s j) -> find n s = option_map (Nat.add m) (find n (drop m s)).
Proof.
  revert s; induction m as [|m IH]; intros s Hl Hj.
  - rewrite drop_0. by destruct (find n s).
  - destruct s as [|x s]; [simpl in Hl; lia|]. cbn [find]. destruct (starts_with n (x :: s)) eqn:E.
    { by destruct (Hj 0 ltac:(lia)). }
    rewrite (IH s); [|simpl in Hl; lia|intros j Hlt; apply (Hj (S j)); lia].
    simpl. by destruct (find n (drop m s)).
Qed.

Lemma lsp_from_max s n k j : j <= k -> take j n `suffix_of` s -> j <= lsp_from s n k.
Proof.
  induction k as [|k IH]; simpl; intros Hj Hs; [lia|]. destruct (ends_with _ s) eqn:E; [lia|].
  destruct (decide (j = S k)) as [->|]; [|apply IH; [lia|done]].
  apply ends_with_suffix in Hs. congruence.
Qed.

Lemma lsp_from_ok s n k : lsp_from s n k <= k /\ take (lsp_from s n k) n `suffix_of` s.
Proof.
  induction k as [|k IH]; simpl.
  - split; [lia|]. rewrite take_0. apply suffix_nil.
  - destruct (ends_with _ s) eqn:E; [split; [lia|by apply ends_with_suffix]|]. destruct IH. split; [lia|done].
Qed.

Lemma lsp_max s n k : k < length n -> take k n `suffix_of` s -> k <= longest_suffix_prefix_len s n.
Proof.
  intros Hk Hs. apply lsp_from_max; [|done]. apply suffix_length in Hs. rewrite length_take in Hs. lia.
Qed.

Lemma lsp_ok s n :
  longest_suffix_prefix_len s n <= length s /\ longest_suffix_prefix_len s n <= length n - 1
  /\ take (longest_suffix_prefix_len s n) n `suffix_of` s.
Proof. unfold longest_suffix_prefix_len. pose proof (lsp_from_ok s n (Nat.min (length s) (length n - 1))). split_and!; [lia..|]. naive_solver. Qed.

(** ** What may be released *)

Section release.
Context (n t1 t2 : str) (k : nat).
Hypothesis (Hn : n <> []) (Hnone : find n t1 = None)
  (Hk : longest_suffix_prefix_len t1 n <= k) (Hkl : k <= length t1).

(** No occurrence starts before the last [k] characters. *)
Lemma no_early_occurrence j : j < length t1 - k -> ~ occurs n (t1 ++ t2) j.
Proof.
  intros Hj Ho. destruct (decide (j + length n <= length t1)) as [Hfit|Hfit].
  - apply occurs_app_inv in Ho; [|done]. rewrite find_None in Hnone. apply (Hnone j); [lia|done].
  - unfold occurs in Ho. apply starts_with_prefix in Ho. rewrite drop_app_le in Ho by lia.
    assert (take (length t1 - j) n = drop j t1) as Ht.
    { destruct Ho as [r Hr]. apply (f_equal (take (length t1 - j))) in Hr.
      rewrite take_app_length' in Hr by (rewrite length_drop; lia). rewrite Hr, take_app_le by lia. done. }
    assert (length t1 - j <= longest_suffix_prefix_len t1 n); [|lia].
    apply lsp_max; [lia|]. rewrite Ht. exists (take j t1). by rewrite take_drop.
Qed.

Lemma find_release :
  find n (t1 ++ t2) = option_map (Nat.add (length t1 - k)) (find n (drop (length t1 - k) t1 ++ t2)).
Proof.
  rewrite (find_skip n (t1 ++ t2) (length t1 - k)).
  - by rewrite drop_app_le by lia.
  - rewrite length_app. lia.
  - apply no_early_occurrence.
Qed.

Lemma lsp_release :
  longest_suffix_prefix_len (t1 ++ t2) n = longest_suffix_prefix_len (drop (length t1 - k) t1 ++ t2) n.
Proof.
  assert (length n > 0) by (destruct n; [done|simpl; lia]). apply Nat.le_antisymm.
  - destruct (lsp_ok (t1 ++ t2) n) as (_ & Hlt & Hs). set (L := longest_suffix_prefix_len (t1 ++ t2) n) in *.
    apply lsp_max; [lia|]. assert (length (take L n) = L) as HL by (rewrite length_take; lia).
    destruct (decide (L <= length t2)).
    + apply suffix_app_r. eapply suffix_of_short; [|exact Hs]. lia.
    + apply suffix_of_long in Hs as [Hs Hd]; [|lia]. rewrite HL in *.
      rewrite <- (take_drop (L - length t2) (take L n)), Hd. apply suffix_app. rewrite take_take in *.
      rewrite Nat.min_l in * by lia.
      pose proof (lsp_max t1 n (L - length t2) ltac:(lia) Hs) as Hle.
      rewrite <- (take_drop (length t1 - k) t1) in Hs. eapply suffix_of_short; [|exact Hs].
      rewrite length_take, length_drop. lia.
  - destruct (lsp_ok (drop (length t1 - k) t1 ++ t2) n) as (_ & Hlt & Hs).
    apply lsp_max; [lia|]. etrans; [exact Hs|]. exists (take (length t1 - k) t1). by rewrite app_assoc, take_drop.
Qed.
End release.
