(* ===== verification/InlineTag.v ===== *)
(** * Hidden inline tags and citations

    Models [codex-rs/utils/stream-parser/src/inline_hidden_tag.rs] and
    [citation.rs].  Positions count characters where the code counts bytes; they
    are only used to cut text at delimiters, so the two agree. *)

From stdpp Require Import base list numbers option strings sets.
From Stdlib Require Import Lia.
From S2P Require Import Prelude RustStr StreamText.

Section inline.
Context {T : Type}.

Record ExtractedInlineTag := mkExtracted { ex_tag : T; ex_content : str }.
Record InlineTagSpec := mkInlineSpec { spec_tag : T; spec_open : str; spec_close : str }.
Record ActiveTag := mkActive { act_tag : T; act_close : str; act_content : str }.
Record InlineHiddenTagParser := mkInline {
  specs : list InlineTagSpec;
  pending : str;
  active : option ActiveTag;
}.

(** [InlineHiddenTagParser::new]; [None]: an assertion fails. *)
Definition inline_new (ss : list InlineTagSpec) : option InlineHiddenTagParser :=
  if is_nil ss then None
  else if forallb (fun s => negb (is_nil (spec_open s)) && negb (is_nil (spec_close s))) ss
  then Some (mkInline ss [] None) else None.

(** A candidate opening: position, delimiter length, spec index. *)
Definition candidate : Type := nat * nat * nat.

(** The comparator of [min_by]: earliest, then longest, then first. *)
Definition cand_leb (a b : candidate) : bool :=
  let '(pa, la, ia) := a in
  let '(pb, lb, ib) := b in
  Nat.ltb pa pb || (Nat.eqb pa pb && (Nat.ltb lb la || (Nat.eqb la lb && Nat.leb ia ib))).

(** [Iterator::min_by]: the first of the least elements. *)
Fixpoint min_cand (l : list candidate) : option candidate :=
  match l with
  | [] => None
  | c :: l' =>
      match min_cand l' with
      | None => Some c
      | Some m => if cand_leb c m then Some c else Some m
      end
  end.

(** [self.specs.iter().enumerate().filter_map(..)]. *)
Fixpoint candidates (ss : list InlineTagSpec) (idx : nat) (text : str) : list candidate :=
  match ss with
  | [] => []
  | s :: ss' =>
      match find (spec_open s) text with
      | Some pos => [(pos, length (spec_open s), idx)]
      | None => []
      end ++ candidates ss' (S idx) text
  end.

Definition find_next_open (ss : list InlineTagSpec) (text : str) : option (nat * nat) :=
  match min_cand (candidates ss 0 text) with
  | Some (pos, _, idx) => Some (pos, idx)
  | None => None
  end.

Definition max_open_prefix_suffix_len (ss : list InlineTagSpec) (text : str) : nat :=
  foldr Nat.max 0 (map (fun s => longest_suffix_prefix_len text (spec_open s)) ss).

Definition add_visible (o : StreamTextChunk ExtractedInlineTag) (t : str) :=
  mkTextChunk (visible_text o ++ t) (extracted o).
Definition add_extracted (o : StreamTextChunk ExtractedInlineTag) (e : ExtractedInlineTag) :=
  mkTextChunk (visible_text o) (extracted o ++ [e]).

(** The loop of [push_str] on the unconsumed text: the new active tag, what
    stays pending, and the output.  Every round but the last consumes a
    delimiter, so one round per character is enough fuel. *)
Fixpoint scan (fuel : nat) (ss : list InlineTagSpec) (act : option ActiveTag) (text : str)
    (out : StreamTextChunk ExtractedInlineTag)
    : option ActiveTag * str * StreamTextChunk ExtractedInlineTag :=
  match fuel with
  | 0 => (act, text, out)
  | S f =>
      match act with
      | Some a =>
          match find (act_close a) text with
          | Some close_idx =>
              scan f ss None (drop (close_idx + length (act_close a)) text)
                (add_extracted out (mkExtracted (act_tag a) (act_content a ++ take close_idx text)))
          | None =>
              let keep := longest_suffix_prefix_len text (act_close a) in
              let n := length text - keep in
              (Some (mkActive (act_tag a) (act_close a) (act_content a ++ take n text)), drop n text, out)
          end
      | None =>
          match find_next_open ss text with
          | Some (open_idx, spec_idx) =>
              match ss !! spec_idx with
              | Some s =>
                  scan f ss (Some (mkActive (spec_tag s) (spec_close s) []))
                    (drop (open_idx + length (spec_open s)) text) (add_visible out (take open_idx text))
              | None => (act, text, out)
              end
          | None =>
              let n := length text - max_open_prefix_suffix_len ss text in
              (None, drop n text, add_visible out (take n text))
          end
      end
  end.

Definition inline_push_str (p : InlineHiddenTagParser) (chunk : str)
    : InlineHiddenTagParser * StreamTextChunk ExtractedInlineTag :=
  let text := pending p ++ chunk in
  let '(act, rest, out) := scan (S (length text)) (specs p) (active p) text chunk_default in
  (mkInline (specs p) rest act, out).

Definition inline_finish (p : InlineHiddenTagParser)
    : InlineHiddenTagParser * StreamTextChunk ExtractedInlineTag :=
  match active p with
  | Some a =>
      (mkInline (specs p) [] None, mkTextChunk [] [mkExtracted (act_tag a) (act_content a ++ pending p)])
  | None => (mkInline (specs p) [] None, mkTextChunk (pending p) [])
  end.

End inline.
Arguments ExtractedInlineTag : clear implicits.
Arguments InlineTagSpec : clear implicits.
Arguments ActiveTag : clear implicits.
Arguments InlineHiddenTagParser : clear implicits.

#[export] Instance inline_stream T : StreamTextParser (InlineHiddenTagParser T) (ExtractedInlineTag T) := {|
  push_str := inline_push_str;
  finish := inline_finish;
|}.

(** ** Citations *)

Inductive CitationTag := Citation.
Definition CITATION_OPEN : str := Eval vm_compute in lit "<oai-mem-citation>".
Definition CITATION_CLOSE : str := Eval vm_compute in lit "</oai-mem-citation>".

Record CitationStreamParser := mkCitation { cit_inner : InlineHiddenTagParser CitationTag }.

Definition citation_new : option CitationStreamParser :=
  option_map mkCitation (inline_new [mkInlineSpec Citation CITATION_OPEN CITATION_CLOSE]).

Definition contents_of (c : StreamTextChunk (ExtractedInlineTag CitationTag)) : StreamTextChunk str :=
  mkTextChunk (visible_text c) (map ex_content (extracted c)).

#[export] Instance citation_stream : StreamTextParser CitationStreamParser str := {|
  push_str p chunk := let '(i, c) := push_str (cit_inner p) chunk in (mkCitation i, contents_of c);
  finish p := let '(i, c) := finish (cit_inner p) in (mkCitation i, contents_of c);
|}.

(** [None]: the constructor's assertions fail. *)
Definition strip_citations (text : str) : option (str * list str) :=
  match citation_new with
  | None => None
  | Some parser =>
      let '(parser, out) := push_str parser text in
      let '(_, tail) := finish parser in
      Some (visible_text out ++ visible_text tail, extracted out ++ extracted tail)
  end.

(** ** Theorems *)

Section inline_theorems.
Context {T : Type}.
Implicit Types (ss : list (InlineTagSpec T)).

(** No opening delimiter occurs inside another before the other is complete, so
    the first delimiter to be completed is the one to take. *)
Definition openings_independent ss : bool :=
  forallb (fun s => forallb (fun s' =>
    is_none (find (spec_open s) (take (length (spec_open s') - 1) (spec_open s')))) ss) ss.
Definition specs_ok ss : bool :=
  forallb (fun s => negb (is_nil (spec_open s)) && negb (is_nil (spec_close s))) ss && openings_independent ss.

Lemma specs_ok_spec ss :
  specs_ok ss = true ->
  (forall s, s ∈ ss -> spec_open s <> [] /\ spec_close s <> [])
  /\ (forall s s', s ∈ ss -> s' ∈ ss -> find (spec_open s) (take (length (spec_open s') - 1) (spec_open s')) = None).
Proof.
  unfold specs_ok, openings_independent. intros [H1 H2]%andb_true_iff. rewrite forallb_forall in H1, H2. split.
  - intros s Hs%list_elem_of_In. specialize (H1 s Hs). bool_to_prop. done.
  - intros s s' Hs%list_elem_of_In Hs'%list_elem_of_In. specialize (H2 s Hs). rewrite forallb_forall in H2.
    specialize (H2 s' Hs'). by destruct (find _ _).
Qed.

(** *** The next opening *)

Lemma elem_of_candidates ss idx0 text pos len idx :
  (pos, len, idx) ∈ candidates ss idx0 text <->
  exists s, idx0 <= idx /\ ss !! (idx - idx0) = Some s /\ find (spec_open s) text = Some pos /\ len = length (spec_open s).
Proof.
  revert idx0; induction ss as [|s ss IH]; intros idx0; simpl.
  - split; [set_solver|]. intros (s & _ & H & _). by rewrite lookup_nil in H.
  - rewrite elem_of_app, IH. split.
    + intros [Hin|(s' & Hle & Hl & Hf & ->)].
      * destruct (find (spec_open s) text) eqn:E; [|set_solver]. apply list_elem_of_singleton in Hin. simplify_eq.
        exists s. rewrite Nat.sub_diag. split_and!; [lia|done..].
      * exists s'. split_and!; [lia| |done|done]. by replace (idx - idx0) with (S (idx - S idx0)) by lia.
    + intros (s' & Hle & Hl & Hf & ->). destruct (decide (idx = idx0)) as [->|].
      * rewrite Nat.sub_diag in Hl. simplify_eq/=. left. rewrite Hf. set_solver.
      * right. exists s'. replace (idx - idx0) with (S (idx - S idx0)) in Hl by lia. split_and!; [lia|done..].
Qed.

Lemma cand_leb_spec pa la ia pb lb ib :
  cand_leb (pa, la, ia) (pb, lb, ib) = true <-> pa < pb \/ pa = pb /\ (lb < la \/ la = lb /\ ia <= ib).
Proof.
  unfold cand_leb. rewrite !orb_true_iff, !andb_true_iff, !orb_true_iff, !andb_true_iff,
    !Nat.ltb_lt, !Nat.eqb_eq, Nat.leb_le. done.
Qed.

Lemma cand_leb_total a b : cand_leb a b = true \/ cand_leb b a = true.
Proof. destruct a as [[??]?], b as [[??]?]. rewrite !cand_leb_spec. lia. Qed.
Lemma cand_leb_trans a b c : cand_leb a b = true -> cand_leb b c = true -> cand_leb a c = true.
Proof. destruct a as [[??]?], b as [[??]?], c as [[??]?]. rewrite !cand_leb_spec. lia. Qed.
Lemma cand_leb_antisym a b : cand_leb a b = true -> cand_leb b a = true -> a = b.
Proof. destruct a as [[??]?], b as [[??]?]. rewrite !cand_leb_spec. intros. repeat f_equal; lia. Qed.

Lemma min_cand_spec l m : min_cand l = Some m <-> m ∈ l /\ Forall (fun c => cand_leb m c = true) l.
Proof.
  revert m; induction l as [|c l IH]; intros m; simpl; [split; [done|set_solver]|].
  assert (forall c, cand_leb c c = true) as Hrefl by (intros c0; destruct (cand_leb_total c0 c0); done).
  rewrite Forall_cons, elem_of_cons. destruct (min_cand l) as [m'|] eqn:E.
  - destruct (proj1 (IH m') eq_refl) as [Hin HF]. rewrite Forall_forall in HF.
    destruct (cand_leb c m') eqn:Ec.
    + split.
      * intros [= <-]. split_and!; [by left|done|]. apply Forall_forall. intros x Hx. eauto using cand_leb_trans.
      * intros ([->|Hm] & Hmc & HFm); [done|]. rewrite Forall_forall in HFm. f_equal.
        apply cand_leb_antisym; eauto using cand_leb_trans.
    + destruct (cand_leb_total c m') as [?|Hmc]; [congruence|]. split.
      * intros [= <-]. split_and!; [by right|done|by apply Forall_forall].
      * intros ([->|Hm] & Hmc' & HFm); [rewrite Forall_forall in HFm; specialize (HFm m' Hin); congruence|].
        rewrite Forall_forall in HFm. f_equal. apply cand_leb_antisym; eauto.
  - destruct l; [|simpl in E; destruct (min_cand l); [destruct (cand_leb _ _)|]; discriminate].
    split; [intros [= <-]; split_and!; [by left|done|constructor]|]. intros ([->|?] & _); [done|set_solver].
Qed.

Lemma min_cand_None l : min_cand l = None <-> l = [].
Proof.
  destruct l as [|c l]; simpl; [done|]. split; [|done]. destruct (min_cand l); [destruct (cand_leb _ _)|]; done.
Qed.

Definition first_opening ss text pos idx (s : InlineTagSpec T) : Prop :=
  ss !! idx = Some s /\ find (spec_open s) text = Some pos
  /\ forall idx' s' pos', ss !! idx' = Some s' -> find (spec_open s') text = Some pos' ->
       cand_leb (pos, length (spec_open s), idx) (pos', length (spec_open s'), idx') = true.

Lemma find_next_open_Some ss text pos idx :
  find_next_open ss text = Some (pos, idx) <-> exists s, first_opening ss text pos idx s.
Proof.
  unfold find_next_open. split.
  - destruct (min_cand _) as [[[p l] i]|] eqn:E; [|done]. intros [= -> ->].
    apply min_cand_spec in E as [Hin HF]. apply elem_of_candidates in Hin as (s & _ & Hl & Hf & ->).
    rewrite Nat.sub_0_r in Hl. exists s. split_and!; [done..|]. intros i' s' p' Hl' Hf'.
    rewrite Forall_forall in HF. apply HF, elem_of_candidates. exists s'. rewrite Nat.sub_0_r. split_and!; [lia|done..].
  - intros (s & Hl & Hf & Hmin). assert (min_cand (candidates ss 0 text) = Some (pos, length (spec_open s), idx)) as ->; [|done].
    apply min_cand_spec. split.
    + apply elem_of_candidates. exists s. rewrite Nat.sub_0_r. split_and!; [lia|done..].
    + apply Forall_forall. intros [[p l] i] (s' & _ & Hl' & Hf' & ->)%elem_of_candidates.
      rewrite Nat.sub_0_r in Hl'. eauto.
Qed.

Lemma find_next_open_None ss text :
  find_next_open ss text = None <-> forall s, s ∈ ss -> find (spec_open s) text = None.
Proof.
  unfold find_next_open. split.
  - destruct (min_cand _) as [[[p l] i]|] eqn:E; [done|]. intros _ s Hs. apply min_cand_None in E.
    destruct (find (spec_open s) text) as [pos|] eqn:Ef; [|done]. apply list_elem_of_lookup in Hs as [i Hi].
    assert ((pos, length (spec_open s), i) ∈ candidates ss 0 text) as Hin; [|rewrite E in Hin; set_solver].
    apply elem_of_candidates. exists s. rewrite Nat.sub_0_r. split_and!; [lia|done..].
  - intros Hno. assert (candidates ss 0 text = []) as ->; [|done].
    destruct (candidates ss 0 text) as [|[[p l] i] cs] eqn:E; [done|].
    assert ((p, l, i) ∈ candidates ss 0 text) as (s & _ & Hl & Hf & _)%elem_of_candidates by (rewrite E; set_solver).
    rewrite Hno in Hf; [done|]. by eapply list_elem_of_lookup_2.
Qed.

(** A delimiter completed in the text seen so far stays the one to take. *)
Lemma find_next_open_app ss a b pos idx :
  specs_ok ss = true -> find_next_open ss a = Some (pos, idx) -> find_next_open ss (a ++ b) = Some (pos, idx).
Proof.
  intros [Hne Hind]%specs_ok_spec (s & Hl & Hf & Hmin)%find_next_open_Some. apply find_next_open_Some.
  assert (s ∈ ss) as Hs by (by eapply list_elem_of_lookup_2). destruct (Hne s Hs) as [Ho _].
  exists s. split_and!; [done|by apply find_app_l|]. intros idx' s' pos' Hl' Hf'.
  assert (s' ∈ ss) as Hs' by (by eapply list_elem_of_lookup_2). destruct (Hne s' Hs') as [Ho' _].
  destruct (find (spec_open s') a) as [q|] eqn:Eq.
  { rewrite (find_app_l _ _ b _ Ho' Eq) in Hf'. injection Hf' as <-. eauto. }
  apply cand_leb_spec. destruct (decide (pos < pos')); [by left|]. exfalso.
  apply find_Some in Hf as (Hoc & _ & _), Hf' as (Hoc' & _ & _).
  pose proof (occurs_length _ _ _ Ho Hoc) as Hlen. rewrite find_None in Eq.
  destruct (decide (pos' + length (spec_open s') <= length a)) as [Hfit|Hfit].
  { apply (Eq pos'); [lia|]. by eapply occurs_app_inv. }
  specialize (Hind s s' Hs Hs'). rewrite find_None in Hind.
  apply (Hind (pos - pos')); [rewrite length_take; lia|]. unfold occurs in *. rewrite starts_with_prefix in *.
  destruct Hoc as [r Hr], Hoc' as [r' Hr'].
  (* [s']'s delimiter covers [s]'s inside [a] *)
  assert (drop (pos - pos') (take (length (spec_open s') - 1) (spec_open s'))
          = take (length (spec_open s') - 1 - (pos - pos')) (drop pos (a ++ b))) as ->.
  { replace (drop pos (a ++ b)) with (drop (pos - pos') (drop pos' (a ++ b)))
      by (rewrite drop_drop; f_equal; lia).
    rewrite Hr'.
    rewrite skipn_firstn_comm, drop_app_le by lia.
    rewrite take_app_le; [done|]. rewrite length_drop. lia. }
  rewrite drop_app_le by lia. rewrite Hr, <- app_assoc.
  rewrite take_app_ge by lia. by apply prefix_app_r.
Qed.

Lemma max_lsp_ge ss s text :
  s ∈ ss -> longest_suffix_prefix_len text (spec_open s) <= max_open_prefix_suffix_len ss text.
Proof.
  unfold max_open_prefix_suffix_len. induction ss as [|s' ss IH]; [set_solver|].
  intros [->|Hs]%elem_of_cons; simpl; [lia|]. specialize (IH Hs). lia.
Qed.

Lemma max_lsp_le ss text : max_open_prefix_suffix_len ss text <= length text.
Proof.
  unfold max_open_prefix_suffix_len. induction ss as [|s ss IH]; simpl; [lia|].
  destruct (lsp_ok text (spec_open s)) as (? & _ & _). lia.
Qed.

(** *** One push or two *)

(** What [k] characters held back after a text without an opening allow. *)
Lemma openings_release ss a b :
  specs_ok ss = true -> find_next_open ss a = None ->
  let m := length a - max_open_prefix_suffix_len ss a in
  max_open_prefix_suffix_len ss (a ++ b) = max_open_prefix_suffix_len ss (drop m a ++ b)
  /\ find_next_open ss (a ++ b) =
       match find_next_open ss (drop m a ++ b) with Some (pos, idx) => Some (m + pos, idx) | None => None end.
Proof.
  intros [Hne _]%specs_ok_spec Hno m. rewrite find_next_open_None in Hno.
  pose proof (max_lsp_le ss a) as Hml.
  assert (forall s, s ∈ ss -> find (spec_open s) (a ++ b) = option_map (Nat.add m) (find (spec_open s) (drop m a ++ b))) as Hfind.
  { intros s Hs. apply find_release; [by apply Hno|by apply max_lsp_ge|done]. }
  split.
  - assert (forall s, s ∈ ss -> longest_suffix_prefix_len (a ++ b) (spec_open s)
        = longest_suffix_prefix_len (drop m a ++ b) (spec_open s)) as Hlsp.
    { intros s Hs. apply lsp_release; [by apply Hne|by apply Hno|by apply max_lsp_ge|done]. }
    clearbody m. unfold max_open_prefix_suffix_len. clear -Hlsp. induction ss as [|s ss IH]; [done|]. simpl.
    rewrite Hlsp by set_solver. f_equal. apply IH. set_solver.
  - destruct (find_next_open ss (drop m a ++ b)) as [[pos idx]|] eqn:E.
    + apply find_next_open_Some in E as (s & Hl & Hf & Hmin). apply find_next_open_Some. exists s.
      split_and!; [done| |].
      * rewrite Hfind by (by eapply list_elem_of_lookup_2). by rewrite Hf.
      * intros idx' s' pos' Hl' Hf'. rewrite Hfind in Hf' by (by eapply list_elem_of_lookup_2).
        destruct (find (spec_open s') _) as [q|] eqn:Eq; [|done]. injection Hf' as <-.
        specialize (Hmin _ _ _ Hl' Eq). rewrite cand_leb_spec in *. lia.
    + rewrite find_next_open_None in *. intros s Hs. by rewrite Hfind, E.
Qed.

Section scan.
Context (ss : list (InlineTagSpec T)) (Hss : specs_ok ss = true).
Notation out_t := (StreamTextChunk (ExtractedInlineTag T)).

Definition act_ok (act : option (ActiveTag T)) : Prop :=
  match act with Some a => act_close a <> [] | None => True end.

(** The loop with its fuel chosen by the text. *)
Definition run (act : option (ActiveTag T)) (text : str) (out : out_t) :=
  scan (S (length text)) ss act text out.

Lemma nonempty_length {A} (l : list A) : l <> [] -> 0 < length l.
Proof. destruct l; simpl; [done|lia]. Qed.

Lemma close_found_shrinks act text i :
  act_ok (Some act) -> find (act_close act) text = Some i ->
  length (drop (i + length (act_close act)) text) < length text.
Proof.
  intros Ha (Ho & _ & _)%find_Some. pose proof (occurs_length _ _ _ Ha Ho).
  pose proof (nonempty_length _ Ha). rewrite length_drop. lia.
Qed.

Lemma opening_shrinks text pos idx s :
  find_next_open ss text = Some (pos, idx) -> ss !! idx = Some s ->
  pos + length (spec_open s) <= length text /\ length (drop (pos + length (spec_open s)) text) < length text
  /\ spec_close s <> [].
Proof.
  intros (s' & Hl & Hf & _)%find_next_open_Some Hs. assert (s' = s) as -> by congruence. apply specs_ok_spec in Hss as [Hne _].
  destruct (Hne s) as [Ho Hc]; [by eapply list_elem_of_lookup_2|]. apply find_Some in Hf as (Hoc & _ & _).
  pose proof (occurs_length _ _ _ Ho Hoc). pose proof (nonempty_length _ Ho).
  rewrite length_drop. split_and!; [lia|lia|done].
Qed.

(** One round per character is enough. *)
Lemma scan_fuel f f' act text out :
  act_ok act -> length text < f -> length text < f' -> scan f ss act text out = scan f' ss act text out.
Proof.
  revert f' act text out; induction f as [|f IH]; intros [|f'] act text out Ha Hf Hf'; [lia..|].
  cbn [scan]. destruct act as [a|].
  - destruct (find (act_close a) text) as [i|] eqn:E; [|done].
    pose proof (close_found_shrinks a text i Ha E). apply IH; [done|lia|lia].
  - destruct (find_next_open ss text) as [[pos idx]|] eqn:E; [|done].
    destruct (ss !! idx) as [s|] eqn:Es; [|done]. destruct (opening_shrinks _ _ _ _ E Es) as (_ & ? & ?).
    apply IH; [done|lia|lia].
Qed.

Lemma run_active a text out :
  act_ok (Some a) ->
  run (Some a) text out =
  match find (act_close a) text with
  | Some i => run None (drop (i + length (act_close a)) text)
                (add_extracted out (mkExtracted (act_tag a) (act_content a ++ take i text)))
  | None =>
      let n := length text - longest_suffix_prefix_len text (act_close a) in
      (Some (mkActive (act_tag a) (act_close a) (act_content a ++ take n text)), drop n text, out)
  end.
Proof.
  intros Ha. unfold run at 1. cbn [scan]. destruct (find (act_close a) text) as [i|] eqn:E; [|done].
  pose proof (close_found_shrinks a text i Ha E). apply scan_fuel; [done|lia|lia].
Qed.

Lemma run_idle_found text out pos idx s :
  find_next_open ss text = Some (pos, idx) -> ss !! idx = Some s ->
  run None text out = run (Some (mkActive (spec_tag s) (spec_close s) []))
                        (drop (pos + length (spec_open s)) text) (add_visible out (take pos text)).
Proof.
  intros E Es. unfold run at 1. cbn [scan]. rewrite E, Es.
  destruct (opening_shrinks _ _ _ _ E Es) as (_ & ? & ?). apply scan_fuel; [done|lia|lia].
Qed.

Lemma run_idle_none text out :
  find_next_open ss text = None ->
  run None text out =
  let n := length text - max_open_prefix_suffix_len ss text in (None, drop n text, add_visible out (take n text)).
Proof. intros E. unfold run. cbn [scan]. by rewrite E. Qed.

Lemma next_open_lookup text pos idx : find_next_open ss text = Some (pos, idx) -> exists s, ss !! idx = Some s.
Proof. intros (s & Hl & _)%find_next_open_Some. eauto. Qed.

Lemma run_act_ok act text out : act_ok act -> act_ok (run act text out).1.1.
Proof.
  remember (length text) as n eqn:En. revert act text out En. induction (lt_wf n) as [n _ IH]. intros act text out -> Ha.
  destruct act as [a|].
  - rewrite run_active by done. destruct (find (act_close a) text) as [i|] eqn:E; [|done].
    pose proof (close_found_shrinks a text i Ha E). eapply IH; [|done|done]. done.
  - destruct (find_next_open ss text) as [[pos idx]|] eqn:E.
    + destruct (next_open_lookup _ _ _ E) as [s Hs]. destruct (opening_shrinks _ _ _ _ E Hs) as (_ & Hlt & Hc).
      rewrite (run_idle_found _ _ _ _ _ E Hs). eapply IH; [exact Hlt|done|done].
    + by rewrite run_idle_none.
Qed.

(** Scanning a text in two parts. *)
Lemma run_app act t1 t2 out :
  act_ok act ->
  run act (t1 ++ t2) out = let '(act', rest, out') := run act t1 out in run act' (rest ++ t2) out'.
Proof.
  remember (length t1) as n eqn:En. revert act t1 out En. induction (lt_wf n) as [n _ IH]. intros act t1 out -> Ha.
  destruct act as [a|].
  - rewrite (run_active a (t1 ++ t2)), (run_active a t1) by done.
    destruct (find (act_close a) t1) as [i|] eqn:E.
    + pose proof (close_found_shrinks a t1 i Ha E). pose proof E as (Ho & Hl & _)%find_Some.
      pose proof (occurs_length _ _ _ Ha Ho). rewrite (find_app_l _ _ t2 _ Ha E).
      rewrite drop_app_le, take_app_le by lia. by eapply IH.
    + cbv zeta. set (k := longest_suffix_prefix_len t1 (act_close a)). set (m := length t1 - k).
      destruct (lsp_ok t1 (act_close a)) as (Hk & _ & _). fold k in Hk.
      rewrite run_active by done. cbn [act_close act_tag act_content].
      rewrite (find_release (act_close a) t1 t2 k) by done.
      rewrite (lsp_release (act_close a) t1 t2 k) by done. fold m.
      set (t := drop m t1 ++ t2). assert (t1 ++ t2 = take m t1 ++ t) as Et by (unfold t; by rewrite app_assoc, take_drop).
      assert (length (take m t1) = m) as Hm by (rewrite length_take; lia).
      destruct (find (act_close a) t) as [i|]; simpl option_map.
      * replace (m + i) with (length (take m t1) + i) by lia.
        rewrite Et, <- Nat.add_assoc, drop_app_add, take_app_add. by rewrite <- app_assoc.
      * cbv zeta. rewrite Et, length_app, Hm.
        destruct (lsp_ok t (act_close a)) as (Hk' & _ & _).
        replace (m + length t - longest_suffix_prefix_len t (act_close a))
          with (length (take m t1) + (length t - longest_suffix_prefix_len t (act_close a))) by lia.
        rewrite drop_app_add, take_app_add. by rewrite <- app_assoc.
  - destruct (find_next_open ss t1) as [[pos idx]|] eqn:E.
    + destruct (next_open_lookup _ _ _ E) as [s Hs]. destruct (opening_shrinks _ _ _ _ E Hs) as (Hle & Hlt & Hc).
      rewrite (run_idle_found t1 out pos idx s E Hs).
      rewrite (run_idle_found (t1 ++ t2) out pos idx s (find_next_open_app _ _ t2 _ _ Hss E) Hs).
      rewrite drop_app_le, take_app_le by lia. by eapply IH.
    + rewrite (run_idle_none t1) by done. cbv zeta.
      destruct (openings_release ss t1 t2 Hss E) as [Hmax Hnext]. cbv zeta in Hmax, Hnext.
      set (m := length t1 - max_open_prefix_suffix_len ss t1) in *. set (t := drop m t1 ++ t2) in *.
      assert (t1 ++ t2 = take m t1 ++ t) as Et by (unfold t; by rewrite app_assoc, take_drop).
      assert (length (take m t1) = m) as Hm by (rewrite length_take; lia).
      destruct (find_next_open ss t) as [[pos idx]|] eqn:E2.
      * destruct (next_open_lookup _ _ _ E2) as [s Hs].
        rewrite (run_idle_found t _ pos idx s E2 Hs), (run_idle_found (t1 ++ t2) _ (m + pos) idx s Hnext Hs).
        replace (m + pos) with (length (take m t1) + pos) by lia. rewrite Et, <- Nat.add_assoc, drop_app_add, take_app_add.
        unfold add_visible. simpl. by rewrite <- app_assoc.
      * rewrite (run_idle_none t) by done. rewrite (run_idle_none (t1 ++ t2)) by done. cbv zeta. rewrite Hmax.
        pose proof (max_lsp_le ss t). rewrite Et, length_app, Hm.
        replace (m + length t - max_open_prefix_suffix_len ss t)
          with (length (take m t1) + (length t - max_open_prefix_suffix_len ss t)) by lia.
        rewrite drop_app_add, take_app_add. unfold add_visible. simpl. by rewrite <- app_assoc.
Qed.
End scan.

(** The loop only appends to its output. *)
Lemma run_out ss act text out :
  specs_ok ss = true -> act_ok act ->
  run ss act text out = let '(act', rest, out') := run ss act text chunk_default in (act', rest, chunk_app out out').
Proof.
  intros Hss. remember (length text) as n eqn:En. revert act text out En.
  induction (lt_wf n) as [n _ IH]. intros act text out -> Ha.
  destruct act as [a|].
  - rewrite !run_active by done. destruct (find (act_close a) text) as [i|] eqn:E.
    + pose proof (close_found_shrinks a text i Ha E) as Hlt.
      rewrite (IH _ Hlt None _ (add_extracted out _) eq_refl I), (IH _ Hlt None _ (add_extracted chunk_default _) eq_refl I).
      destruct (run ss None _ chunk_default) as [[act' rest] o]. f_equal. unfold chunk_app, add_extracted. simpl.
      by rewrite <- app_assoc.
    + cbv zeta. f_equal. unfold chunk_app. simpl. rewrite !app_nil_r. by destruct out.
  - destruct (find_next_open ss text) as [[pos idx]|] eqn:E.
    + destruct (next_open_lookup _ _ _ _ E) as [s Hs]. destruct (opening_shrinks _ Hss _ _ _ _ E Hs) as (_ & Hlt & Hc).
      rewrite !(run_idle_found _ Hss _ _ _ _ _ E Hs).
      rewrite (IH _ Hlt (Some _) _ (add_visible out _) eq_refl) by done.
      rewrite (IH _ Hlt (Some _) _ (add_visible chunk_default _) eq_refl) by done.
      destruct (run ss (Some _) _ chunk_default) as [[act' rest] o]. f_equal. unfold chunk_app, add_visible. simpl.
      by rewrite <- app_assoc.
    + rewrite !run_idle_none by done. cbv zeta. f_equal. unfold chunk_app, add_visible. simpl. by rewrite app_nil_r.
Qed.

Definition inline_inv (p : InlineHiddenTagParser T) : Prop := specs_ok (specs p) = true /\ act_ok (active p).

Lemma inline_push_unfold (p : InlineHiddenTagParser T) chunk :
  inline_push_str p chunk =
  let '(act, rest, out) := run (specs p) (active p) (pending p ++ chunk) chunk_default in
  (mkInline (specs p) rest act, out).
Proof. done. Qed.

#[export] Program Instance inline_lawful : LawfulStreamParser (InlineHiddenTagParser T) (ExtractedInlineTag T) := {|
  stream_inv := inline_inv;
  stream_norm := id;
|}.
Next Obligation. unfold id. naive_solver. Qed.
Next Obligation.
  intros p s [Hs Ha]. cbn [push_str inline_stream]. rewrite inline_push_unfold.
  pose proof (run_act_ok _ Hs _ (pending p ++ s) chunk_default Ha) as Hr.
  destruct (run _ _ _ _) as [[act rest] out]. done.
Qed.
Next Obligation.
  intros p a b [Hs Ha]. cbn [push_str inline_stream]. rewrite !inline_push_unfold, app_assoc.
  rewrite (run_app _ Hs _ (pending p ++ a) b _ Ha).
  pose proof (run_act_ok _ Hs _ (pending p ++ a) chunk_default Ha) as Hr.
  destruct (run _ _ (pending p ++ a) _) as [[act rest] out]. rewrite inline_push_unfold. cbn [specs active pending].
  rewrite (run_out _ _ _ out) by done. destruct (run (specs p) act (rest ++ b) chunk_default) as [[act' rest'] out'].
  done.
Qed.

(** Hidden inline tags do not depend on how the stream is cut: with openings
    none of which completes inside another, pushing any chunks and finishing
    yields the same visible text and the same extracted tags as pushing the
    whole text at once. *)
Theorem inline_chunking_irrelevant (p : InlineHiddenTagParser T) (c : str) (cs : list str) :
  inline_inv p -> run_stream p (c :: cs) = run_stream p [c ++ concat cs].
Proof.
  intros Hp. destruct (@run_stream_concat _ _ _ inline_lawful p c cs Hp) as [Hv He]. cbn [stream_norm inline_lawful] in He.
  unfold id in He. destruct (run_stream p (c :: cs)), (run_stream p [c ++ concat cs]). simpl in *. congruence.
Qed.
End inline_theorems.

(** The citation parser inherits the law. *)
#[export] Program Instance citation_lawful : LawfulStreamParser CitationStreamParser str := {|
  stream_inv p := inline_inv (cit_inner p);
  stream_norm := id;
|}.
Next Obligation. unfold id. naive_solver. Qed.
Next Obligation.
  intros p s Hp. pose proof (@push_str_inv _ _ _ inline_lawful (cit_inner p) s Hp) as Hi. cbn [push_str citation_stream].
  by destruct (push_str (cit_inner p) s).
Qed.
Next Obligation.
  intros p a b Hp. pose proof (@push_str_app _ _ _ inline_lawful (cit_inner p) a b Hp) as Hab. cbn [push_str citation_stream].
  destruct (push_str (cit_inner p) a) as [p1 c1]. cbn [cit_inner]. destruct (push_str p1 b) as [p2 c2].
  destruct (push_str (cit_inner p) (a ++ b)) as [p' c']. destruct Hab as (-> & Hv & He). unfold contents_of, id in *.
  simpl in *. rewrite Hv, He, map_app. done.
Qed.

(** ** Stripping citations *)

Definition citation_parser : CitationStreamParser :=
  mkCitation (mkInline [mkInlineSpec Citation CITATION_OPEN CITATION_CLOSE] [] None).

Lemma citation_new_eq : citation_new = Some citation_parser.
Proof. reflexivity. Qed.

Lemma citation_parser_inv : inline_inv (cit_inner citation_parser).
Proof. by split. Qed.

Lemma strip_citations_run text :
  strip_citations text =
  Some (visible_text (run_stream citation_parser [text]), extracted (run_stream citation_parser [text])).
Proof.
  unfold strip_citations. rewrite citation_new_eq. unfold run_stream. cbn [push_all].
  destruct (push_str citation_parser text) as [p o]. rewrite chunk_app_default_r.
  by destruct (finish p).
Qed.

(** A streamed answer shows and cites the same as the complete one: for every
    cutting of a text, the concatenated visible text and citations of the stream
    are those of [strip_citations] on the text. *)
Theorem citation_stream_strip (c : str) (cs : list str) :
  strip_citations (c ++ concat cs) =
  Some (visible_text (run_stream citation_parser (c :: cs)), extracted (run_stream citation_parser (c :: cs))).
Proof.
  rewrite strip_citations_run.
  destruct (@run_stream_concat _ _ _ citation_lawful citation_parser c cs citation_parser_inv) as [Hv He].
  cbn [stream_norm citation_lawful] in He. unfold id in He. by rewrite Hv, He.
Qed.

(** A text as alternating visible stretches and citations. *)
Fixpoint render_cited (segs : list (str * str)) (tail : str) : str :=
  match segs with
  | [] => tail
  | (v, c) :: segs' => v ++ CITATION_OPEN ++ c ++ CITATION_CLOSE ++ render_cited segs' tail
  end.

(** The delimiters occur only where they were put. *)
Definition cited_ok (segs : list (str * str)) (tail : str) : bool :=
  forallb (fun s => bool_decide (find CITATION_OPEN (s.1 ++ CITATION_OPEN) = Some (length s.1))
                 && bool_decide (find CITATION_CLOSE (s.2 ++ CITATION_CLOSE) = Some (length s.2))) segs
  && is_none (find CITATION_OPEN tail).

Notation cit_specs := [mkInlineSpec Citation CITATION_OPEN CITATION_CLOSE].

Lemma cit_next_open text pos :
  find CITATION_OPEN text = Some pos -> find_next_open cit_specs text = Some (pos, 0).
Proof. intros H. unfold find_next_open. cbn [candidates spec_open]. by rewrite H. Qed.

Lemma cit_next_none text : find CITATION_OPEN text = None -> find_next_open cit_specs text = None.
Proof. intros H. unfold find_next_open. cbn [candidates spec_open]. by rewrite H. Qed.

Lemma run_cited segs tail out :
  cited_ok segs tail = true ->
  exists n, run cit_specs None (render_cited segs tail) out =
    (None, drop n tail, mkTextChunk (visible_text out ++ concat (map fst segs) ++ take n tail)
                          (extracted out ++ map (fun s => mkExtracted Citation s.2) segs)).
Proof.
  revert out; induction segs as [|[v c] segs IH]; intros out; unfold cited_ok; cbn [forallb render_cited].
  - intros Hno. rewrite andb_true_l in Hno. destruct (find CITATION_OPEN tail) eqn:E; [done|].
    rewrite run_idle_none by (by apply cit_next_none). eexists. cbv zeta. f_equal.
    unfold add_visible. simpl. by rewrite app_nil_r.
  - intros [[[Ho Hc]%andb_true_iff Hrest]%andb_true_iff Htail]%andb_true_iff. bool_to_prop. simpl in Ho, Hc.
    set (rest := render_cited segs tail) in *.
    assert (find CITATION_OPEN (v ++ CITATION_OPEN ++ c ++ CITATION_CLOSE ++ rest) = Some (length v)) as Ho'.
    { rewrite (app_assoc v). by apply find_app_l. }
    assert (find CITATION_CLOSE (c ++ CITATION_CLOSE ++ rest) = Some (length c)) as Hc'.
    { rewrite app_assoc. by apply find_app_l. }
    rewrite (run_idle_found cit_specs eq_refl _ _ _ 0 _ (cit_next_open _ _ Ho') eq_refl). cbn [spec_open spec_tag spec_close].
    rewrite drop_app_add, drop_app_length, take_app_length, run_active by done. cbn [act_close act_tag act_content].
    rewrite Hc', drop_app_add, drop_app_length, take_app_length.
    edestruct IH as [n ->]; [unfold cited_ok; by rewrite Hrest, Htail|]. exists n. f_equal.
    unfold add_extracted, add_visible. simpl. by rewrite <- !app_assoc.
Qed.

(** Stripping a text with citations returns the visible stretches joined and
    the citation bodies in order. *)
Theorem strip_citations_render (segs : list (str * str)) (tail : str) :
  cited_ok segs tail = true ->
  strip_citations (render_cited segs tail) = Some (concat (map fst segs) ++ tail, map snd segs).
Proof.
  intros Hok. unfold strip_citations. rewrite citation_new_eq. cbn [push_str citation_stream citation_parser cit_inner].
  cbn [push_str inline_stream]. rewrite inline_push_unfold. cbn [specs pending active].
  rewrite app_nil_l. destruct (run_cited segs tail chunk_default Hok) as [n ->].
  cbn. f_equal. f_equal.
  - by rewrite <- app_assoc, take_drop.
  - rewrite app_nil_r, map_map. done.
Qed.

(** ** Witnesses *)

Definition demo_specs : list (InlineTagSpec nat) :=
  [mkInlineSpec 0 (lit "<a>") (lit "</a>"); mkInlineSpec 1 (lit "<b>") (lit "</b>")].

Lemma inline_chunking_irrelevant_witness :
  run_stream (mkInline demo_specs [] None) [lit "x<"; lit "a>1</"; lit "a>y<b>2"]
  = mkTextChunk (lit "xy") [mkExtracted 0 (lit "1"); mkExtracted 1 (lit "2")].
Proof.
  rewrite (inline_chunking_irrelevant (mkInline demo_specs [] None) (lit "x<") [lit "a>1</"; lit "a>y<b>2"]).
  - vm_compute. reflexivity.
  - split; [vm_compute; reflexivity|exact I].
Defined.

Lemma strip_citations_render_witness :
  strip_citations (render_cited [(lit "a ", lit "doc1"); (lit " < b ", lit "doc2")] (lit " c"))
  = Some (lit "a  < b  c", [lit "doc1"; lit "doc2"]).
Proof.
  rewrite (strip_citations_render [(lit "a ", lit "doc1"); (lit " < b ", lit "doc2")] (lit " c")); vm_compute; reflexivity.
Defined.
