(* ===== verification/TaggedLine.v ===== *)
(** * Tag blocks on their own lines: proposed plans and assistant text

    Models [codex-rs/utils/stream-parser/src/tagged_line_parser.rs],
    [proposed_plan.rs] and [assistant_text.rs]. *)

From stdpp Require Import base list numbers option strings sets.
From Stdlib Require Import Lia.
From S2P Require Import Prelude RustStr StreamText InlineTag.

(** ** The line parser *)

Section tagged.
Context {T : Type} `{EqDecision T}.

Record TagSpec := mkTagSpec { tag_open : str; tag_close : str; tag : T }.

Inductive TaggedLineSegment :=
| Normal (text : str)
| TagStart (t : T)
| TagDelta (t : T) (text : str)
| TagEnd (t : T).

Record TaggedLineParser := mkTagged {
  tag_specs : list TagSpec;
  active_tag : option T;
  detect_tag : bool;
  line_buffer : str;
}.

Definition tagged_new (ss : list TagSpec) : TaggedLineParser := mkTagged ss None true [].

(** [push_segment]: text joins a last segment of the same kind. *)
Definition push_segment (segments : list TaggedLineSegment) (segment : TaggedLineSegment)
    : list TaggedLineSegment :=
  match segment with
  | Normal delta =>
      if is_nil delta then segments
      else match last segments with
           | Some (Normal existing) => removelast segments ++ [Normal (existing ++ delta)]
           | _ => segments ++ [Normal delta]
           end
  | TagDelta t delta =>
      if is_nil delta then segments
      else match last segments with
           | Some (TagDelta t' existing) =>
               if decide (t' = t) then removelast segments ++ [TagDelta t (existing ++ delta)]
               else segments ++ [TagDelta t delta]
           | _ => segments ++ [TagDelta t delta]
           end
  | other => segments ++ [other]
  end.

Definition text_segment (active : option T) (text : str) : TaggedLineSegment :=
  match active with Some t => TagDelta t text | None => Normal text end.

Definition push_text (p : TaggedLineParser) (text : str) (segments : list TaggedLineSegment) :=
  push_segment segments (text_segment (active_tag p) text).

Definition is_tag_prefix (ss : list TagSpec) (slug : str) : bool :=
  existsb (fun s => starts_with (trim_end slug) (tag_open s) || starts_with (trim_end slug) (tag_close s)) ss.

Definition match_open (ss : list TagSpec) (slug : str) : option T :=
  option_map tag (List.find (fun s => str_eqb (tag_open s) slug) ss).
Definition match_close (ss : list TagSpec) (slug : str) : option T :=
  option_map tag (List.find (fun s => str_eqb (tag_close s) slug) ss).

(** The text of a buffered line without its line feed, trimmed. *)
Definition line_slug (line : str) : str := trim_end (trim_start (default line (strip_suffix [LF] line))).

(** [if let Some(tag) = .. && active_tag.is_none()], [.. && active_tag == Some(tag)]. *)
Definition opens (ss : list TagSpec) (active : option T) (slug : str) : option T :=
  match match_open ss slug with Some t => if is_none active then Some t else None | None => None end.
Definition closes (ss : list TagSpec) (active : option T) (slug : str) : option T :=
  match match_close ss slug with
  | Some t => if decide (active = Some t) then Some t else None
  | None => None
  end.

Definition finish_line (p : TaggedLineParser) (segments : list TaggedLineSegment)
    : TaggedLineParser * list TaggedLineSegment :=
  let line := line_buffer p in
  let slug := line_slug line in
  match opens (tag_specs p) (active_tag p) slug with
  | Some t => (mkTagged (tag_specs p) (Some t) true [], push_segment segments (TagStart t))
  | None =>
      match closes (tag_specs p) (active_tag p) slug with
      | Some t => (mkTagged (tag_specs p) None true [], push_segment segments (TagEnd t))
      | None =>
          (mkTagged (tag_specs p) (active_tag p) true [],
           push_segment segments (text_segment (active_tag p) line))
      end
  end.

(** One character of the loop of [parse]: parser, current run, segments. *)
Definition parse_char (st : TaggedLineParser * str * list TaggedLineSegment) (ch : char)
    : TaggedLineParser * str * list TaggedLineSegment :=
  let '(p, run, segments) := st in
  if detect_tag p then
    let segments := if is_nil run then segments else push_text p run segments in
    let p := mkTagged (tag_specs p) (active_tag p) (detect_tag p) (line_buffer p ++ [ch]) in
    if N.eqb ch LF then let '(p, segments) := finish_line p segments in (p, [], segments)
    else
      let slug := trim_start (line_buffer p) in
      if is_nil slug || is_tag_prefix (tag_specs p) slug then (p, [], segments)
      else (mkTagged (tag_specs p) (active_tag p) false [], [], push_text p (line_buffer p) segments)
  else
    let run := run ++ [ch] in
    if N.eqb ch LF
    then (mkTagged (tag_specs p) (active_tag p) true (line_buffer p), [], push_text p run segments)
    else (p, run, segments).

Definition parse (p : TaggedLineParser) (delta : str) : TaggedLineParser * list TaggedLineSegment :=
  let '(p, run, segments) := foldl parse_char (p, [], []) delta in
  (p, if is_nil run then segments else push_text p run segments).

Definition tagged_finish (p : TaggedLineParser) : TaggedLineParser * list TaggedLineSegment :=
  let '(active, segments) :=
    if is_nil (line_buffer p) then (active_tag p, [])
    else
      let slug := line_slug (line_buffer p) in
      match opens (tag_specs p) (active_tag p) slug with
      | Some t => (Some t, push_segment [] (TagStart t))
      | None =>
          match closes (tag_specs p) (active_tag p) slug with
          | Some t => (None, push_segment [] (TagEnd t))
          | None => (active_tag p, push_text p (line_buffer p) [])
          end
      end in
  (mkTagged (tag_specs p) None true [],
   match active with Some t => push_segment segments (TagEnd t) | None => segments end).

End tagged.
Arguments TagSpec : clear implicits.
Arguments TaggedLineSegment : clear implicits.
Arguments TaggedLineParser : clear implicits.

(** ** Proposed plans *)

Definition OPEN_TAG : str := Eval vm_compute in lit "<proposed_plan>".
Definition CLOSE_TAG : str := Eval vm_compute in lit "</proposed_plan>".

Inductive PlanTag := ProposedPlan.
#[export] Instance PlanTag_eq_dec : EqDecision PlanTag.
Proof. solve_decision. Defined.

Inductive ProposedPlanSegment :=
| PlanNormal (text : str)
| ProposedPlanStart
| ProposedPlanDelta (text : str)
| ProposedPlanEnd.

Record ProposedPlanParser := mkPlan { plan_parser : TaggedLineParser PlanTag }.
Definition plan_new : ProposedPlanParser := mkPlan (tagged_new [mkTagSpec OPEN_TAG CLOSE_TAG ProposedPlan]).

Definition map_segment (s : TaggedLineSegment PlanTag) : ProposedPlanSegment :=
  match s with
  | Normal text => PlanNormal text
  | TagStart ProposedPlan => ProposedPlanStart
  | TagDelta ProposedPlan text => ProposedPlanDelta text
  | TagEnd ProposedPlan => ProposedPlanEnd
  end.

Definition push_mapped (out : StreamTextChunk ProposedPlanSegment) (s : TaggedLineSegment PlanTag) :=
  let mapped := map_segment s in
  mkTextChunk (match mapped with PlanNormal text => visible_text out ++ text | _ => visible_text out end)
    (extracted out ++ [mapped]).
Definition map_segments (segments : list (TaggedLineSegment PlanTag)) : StreamTextChunk ProposedPlanSegment :=
  foldl push_mapped chunk_default segments.

#[export] Instance plan_stream : StreamTextParser ProposedPlanParser ProposedPlanSegment := {|
  push_str p chunk := let '(q, segs) := parse (plan_parser p) chunk in (mkPlan q, map_segments segs);
  finish p := let '(q, segs) := tagged_finish (plan_parser p) in (mkPlan q, map_segments segs);
|}.

Definition strip_proposed_plan_blocks (text : str) : str :=
  let '(p, out) := push_str plan_new text in visible_text out ++ visible_text (finish p).2.

(** The loop of [extract_proposed_plan_text]: seen a block, text of the last one. *)
Definition extract_step (st : bool * str) (s : ProposedPlanSegment) : bool * str :=
  match s with
  | ProposedPlanStart => (true, [])
  | ProposedPlanDelta delta => (st.1, st.2 ++ delta)
  | ProposedPlanEnd | PlanNormal _ => st
  end.
Definition extract_proposed_plan_text (text : str) : option str :=
  let '(p, out) := push_str plan_new text in
  let '(saw_plan_block, plan_text) := foldl extract_step (false, []) (extracted out ++ extracted (finish p).2) in
  if saw_plan_block then Some plan_text else None.

(** ** Assistant text *)

Record AssistantTextChunk := mkAssistantChunk {
  a_visible_text : str;
  citations : list str;
  plan_segments : list ProposedPlanSegment;
}.
Record AssistantTextStreamParser := mkAssistant {
  plan_mode : bool;
  a_citations : CitationStreamParser;
  a_plan : ProposedPlanParser;
}.

(** [AssistantTextStreamParser::new]; [None]: the citation parser's assertions fail. *)
Definition assistant_new (plan_mode : bool) : option AssistantTextStreamParser :=
  option_map (fun c => mkAssistant plan_mode c plan_new) citation_new.

Definition parse_visible_text (p : AssistantTextStreamParser) (text : str)
    : AssistantTextStreamParser * AssistantTextChunk :=
  if negb (plan_mode p) then (p, mkAssistantChunk text [] [])
  else
    let '(plan, c) := push_str (a_plan p) text in
    (mkAssistant (plan_mode p) (a_citations p) plan, mkAssistantChunk (visible_text c) [] (extracted c)).

Definition assistant_push_str (p : AssistantTextStreamParser) (chunk : str)
    : AssistantTextStreamParser * AssistantTextChunk :=
  let '(cit, c) := push_str (a_citations p) chunk in
  let '(p, out) := parse_visible_text (mkAssistant (plan_mode p) cit (a_plan p)) (visible_text c) in
  (p, mkAssistantChunk (a_visible_text out) (extracted c) (plan_segments out)).

Definition assistant_finish (p : AssistantTextStreamParser) : AssistantTextStreamParser * AssistantTextChunk :=
  let '(cit, c) := finish (a_citations p) in
  let '(p, out) := parse_visible_text (mkAssistant (plan_mode p) cit (a_plan p)) (visible_text c) in
  if plan_mode p then
    let '(plan, tail) := finish (a_plan p) in
    let out := if chunk_is_empty tail then out
               else mkAssistantChunk (a_visible_text out ++ visible_text tail) (citations out)
                      (plan_segments out ++ extracted tail) in
    (mkAssistant (plan_mode p) (a_citations p) plan,
     mkAssistantChunk (a_visible_text out) (extracted c) (plan_segments out))
  else (p, mkAssistantChunk (a_visible_text out) (extracted c) (plan_segments out)).

(** ** Segments up to joining *)

Section segments.
Context {T : Type} `{EqDecision T}.
Implicit Types (segs : list (TaggedLineSegment T)).

Definition empty_text (s : TaggedLineSegment T) : bool :=
  match s with Normal d => is_nil d | TagDelta _ d => is_nil d | _ => false end.

(** Two adjacent segments as one, when they are text of the same kind. *)
Definition join_segments (z s : TaggedLineSegment T) : option (TaggedLineSegment T) :=
  match z, s with
  | Normal e, Normal d => Some (Normal (e ++ d))
  | TagDelta t' e, TagDelta t d => if decide (t' = t) then Some (TagDelta t (e ++ d)) else None
  | _, _ => None
  end.

Lemma push_segment_nil s : push_segment [] s = if empty_text s then [] else [s].
Proof. by destruct s as [[]| |? []|]. Qed.

Lemma push_segment_snoc segs z s :
  push_segment (segs ++ [z]) s =
  if empty_text s then segs ++ [z]
  else match join_segments z s with Some j => segs ++ [j] | None => (segs ++ [z]) ++ [s] end.
Proof.
  unfold push_segment. rewrite last_snoc, removelast_last.
  destruct s as [[|x d]| |t [|x d]|], z as [e| |t' e|]; try done. simpl. by destruct (decide (t' = t)).
Qed.

Lemma push_segment_empty segs s : empty_text s = true -> push_segment segs s = segs.
Proof. unfold push_segment. destruct s as [d| |t d|]; simpl; intros E; try done; by rewrite E. Qed.

Lemma push_join segs z s j :
  join_segments z s = Some j -> empty_text s = false -> push_segment (push_segment segs z) s = push_segment segs j.
Proof.
  intros Hj Hs. destruct (empty_text z) eqn:Ez.
  { rewrite (push_segment_empty _ _ Ez). destruct z as [[|]| |t [|]|], s as [d| |t' d|]; simplify_eq/=; try done.
    destruct (decide (t = t')); simplify_eq/=. done. }
  assert (empty_text j = false) as Ejn.
  { destruct z as [[|]| |t [|]|], s as [d| |t' d|]; simplify_eq/=; try done. destruct (decide (t = t')); by simplify_eq/=. }
  induction segs as [|y segs _] using rev_ind.
  - rewrite !push_segment_nil, Ez, Ejn. change [z] with ([] ++ [z]). by rewrite push_segment_snoc, Hs, Hj.
  - rewrite !(push_segment_snoc segs), Ez, Ejn.
    destruct z as [e| |t e|], s as [d| |t' d|]; try done; simpl in Hj;
      [injection Hj as <-|destruct (decide (t = t')) as [->|]; [injection Hj as <-|done]].
    + destruct y as [w| |tw w|]; cbn [join_segments]; rewrite push_segment_snoc, Hs; cbn [join_segments];
        by rewrite ?app_assoc.
    + destruct y as [w| |tw w|]; cbn [join_segments]; try destruct (decide (tw = t'));
        rewrite push_segment_snoc, Hs; cbn [join_segments]; rewrite ?decide_True by done; by rewrite ?app_assoc.
Qed.

(** Segments with adjacent text joined. *)
Definition coalesce segs : list (TaggedLineSegment T) := foldl push_segment [] segs.

(** A fold that ignores empty text and joins does not see the joining. *)
Section joining_fold.
Context {A : Type} (f : A -> TaggedLineSegment T -> A).
Hypothesis (Hempty : forall x s, empty_text s = true -> f x s = x)
  (Hjoin : forall x z s j, join_segments z s = Some j -> empty_text s = false -> f (f x z) s = f x j).

Lemma foldl_push x segs s : foldl f x (push_segment segs s) = f (foldl f x segs) s.
Proof using Hempty Hjoin.
  destruct (empty_text s) eqn:Es; [by rewrite (push_segment_empty _ _ Es), Hempty|].
  induction segs as [|z segs _] using rev_ind.
  - rewrite push_segment_nil, Es. done.
  - rewrite push_segment_snoc, Es, foldl_snoc. destruct (join_segments z s) as [j|] eqn:Ej.
    + rewrite foldl_snoc. symmetry. by apply Hjoin.
    + by rewrite !foldl_snoc.
Qed.

Lemma foldl_coalesced x segs : foldl f x (coalesce segs) = foldl f x segs.
Proof using Hempty Hjoin.
  induction segs as [|s segs IH] using rev_ind; [done|].
  unfold coalesce in *. by rewrite !foldl_snoc, foldl_push, IH.
Qed.
End joining_fold.

Lemma foldl_coalesce acc segs : foldl push_segment acc (coalesce segs) = foldl push_segment acc segs.
Proof.
  apply foldl_coalesced; [intros; by apply push_segment_empty|]. intros x z s j. apply push_join.
Qed.

Lemma coalesce_app a b : coalesce (coalesce a ++ coalesce b) = coalesce (a ++ b).
Proof.
  unfold coalesce at 1 4. rewrite !foldl_app. fold (coalesce a). rewrite foldl_coalesce. f_equal.
  unfold coalesce at 1. apply foldl_coalesce.
Qed.

Lemma coalesce_idem a : coalesce (coalesce a) = coalesce a.
Proof. apply foldl_coalesce. Qed.

Lemma coalesce_app_proper a a' b b' :
  coalesce a = coalesce a' -> coalesce b = coalesce b' -> coalesce (a ++ b) = coalesce (a' ++ b').
Proof. intros Ha Hb. by rewrite <- coalesce_app, Ha, Hb, coalesce_app. Qed.

Lemma push_text_text segs a x y :
  push_segment (push_segment segs (text_segment a x)) (text_segment a y) = push_segment segs (text_segment a (x ++ y)).
Proof.
  destruct (empty_text (text_segment a y)) eqn:E.
  - rewrite (push_segment_empty _ _ E). destruct a, y; try done; by rewrite app_nil_r.
  - apply push_join; [|done]. destruct a; simpl; [by rewrite decide_True|done].
Qed.
End segments.

(** ** The parser one character at a time *)

Section raw.
Context {T : Type} `{EqDecision T}.
Notation Parser := (TaggedLineParser T).
Notation Segment := (TaggedLineSegment T).

(** What a whole line amounts to: the new active tag and one segment. *)
Definition line_segment (ss : list (TagSpec T)) (a : option T) (line : str) : option T * Segment :=
  let slug := line_slug line in
  match opens ss a slug with
  | Some t => (Some t, TagStart t)
  | None => match closes ss a slug with
            | Some t => (None, TagEnd t)
            | None => (a, text_segment a line)
            end
  end.

Lemma finish_line_segment (p : Parser) segs :
  finish_line p segs =
  (mkTagged (tag_specs p) (line_segment (tag_specs p) (active_tag p) (line_buffer p)).1 true [],
   push_segment segs (line_segment (tag_specs p) (active_tag p) (line_buffer p)).2).
Proof.
  unfold finish_line, line_segment. cbv zeta. destruct (opens _ _ _); [done|]. by destruct (closes _ _ _).
Qed.

(** The segments a character releases, before joining. *)
Definition raw_char (p : Parser) (ch : char) : Parser * list Segment :=
  if detect_tag p then
    let buf := line_buffer p ++ [ch] in
    if N.eqb ch LF then
      let '(a, s) := line_segment (tag_specs p) (active_tag p) buf in (mkTagged (tag_specs p) a true [], [s])
    else if is_nil (trim_start buf) || is_tag_prefix (tag_specs p) (trim_start buf)
    then (mkTagged (tag_specs p) (active_tag p) true buf, [])
    else (mkTagged (tag_specs p) (active_tag p) false [], [text_segment (active_tag p) buf])
  else (mkTagged (tag_specs p) (active_tag p) (N.eqb ch LF) (line_buffer p), [text_segment (active_tag p) [ch]]).

Fixpoint raw (p : Parser) (s : str) : Parser * list Segment :=
  match s with
  | [] => (p, [])
  | ch :: s' => let '(p1, a) := raw_char p ch in let '(p2, b) := raw p1 s' in (p2, a ++ b)
  end.

Lemma raw_app p a b :
  raw p (a ++ b) = let '(p1, x) := raw p a in let '(p2, y) := raw p1 b in (p2, x ++ y).
Proof.
  revert p; induction a as [|ch a IH]; intros p; simpl; [by destruct (raw p b)|].
  destruct (raw_char p ch) as [p1 x]. rewrite IH. destruct (raw p1 a) as [p2 y]. destruct (raw p2 b) as [p3 z].
  by rewrite app_assoc.
Qed.

(** The state of the loop, with the current run flushed. *)
Definition flush (st : Parser * str * list Segment) : list Segment :=
  let '(p, run, segs) := st in push_segment segs (text_segment (active_tag p) run).
Definition run_ok (st : Parser * str * list Segment) : Prop :=
  let '(p, run, segs) := st in detect_tag p = true -> run = [].

Lemma empty_text_segment (a : option T) : empty_text (text_segment a []) = true.
Proof. by destruct a. Qed.

Lemma parse_char_raw st ch :
  run_ok st ->
  let st' := parse_char st ch in
  run_ok st' /\ st'.1.1 = (raw_char st.1.1 ch).1 /\ flush st' = foldl push_segment (flush st) (raw_char st.1.1 ch).2.
Proof.
  destruct st as [[p run] segs]. destruct p as [ss a [|] buf]; cbn; intros Hok.
  - specialize (Hok eq_refl) as ->. cbn [is_nil]. unfold raw_char. cbn [detect_tag line_buffer tag_specs active_tag].
    rewrite (push_segment_empty segs _ (empty_text_segment a)).
    destruct (N.eqb ch LF).
    + rewrite finish_line_segment. cbn [tag_specs active_tag line_buffer].
      destruct (line_segment ss a (buf ++ [ch])) as [a' s]. cbn. split_and!; try done.
      by rewrite (push_segment_empty _ _ (empty_text_segment a')).
    + destruct (is_nil _ || _); cbn; (split_and!; [done|done|]);
        by rewrite (push_segment_empty _ _ (empty_text_segment a)).
  - unfold raw_char. cbn [detect_tag line_buffer tag_specs active_tag]. destruct (N.eqb ch LF); cbn.
    + split_and!; try done. unfold push_text. cbn [active_tag].
      rewrite (push_segment_empty _ _ (empty_text_segment a)). by rewrite push_text_text.
    + split_and!; try done. by rewrite push_text_text.
Qed.

Lemma foldl_parse_char s st :
  run_ok st ->
  let st' := foldl parse_char st s in
  run_ok st' /\ st'.1.1 = (raw st.1.1 s).1 /\ flush st' = foldl push_segment (flush st) (raw st.1.1 s).2.
Proof.
  revert st; induction s as [|ch s IH]; intros st Hok; cbn [foldl raw]; [done|].
  destruct (parse_char_raw st ch Hok) as (Hok1 & E1 & F1). destruct (IH _ Hok1) as (Hok2 & E2 & F2).
  split; [done|]. destruct (raw_char st.1.1 ch) as [p1 x] eqn:Er. cbn [fst snd] in *. rewrite E1 in *.
  destruct (raw p1 s) as [p2 y]. cbn [fst snd] in *. split; [done|]. by rewrite F2, F1, foldl_app.
Qed.

Lemma parse_raw p s : parse p s = ((raw p s).1, coalesce (raw p s).2).
Proof.
  unfold parse. destruct (foldl_parse_char s (p, [], [])) as (_ & E & F); [done|].
  destruct (foldl parse_char (p, [], []) s) as [[p' run] segs]. cbn [fst snd] in *. rewrite <- E. f_equal.
  unfold coalesce. rewrite <- (push_segment_empty [] _ (empty_text_segment (active_tag p))).
  change (push_segment [] (text_segment (active_tag p) [])) with (flush (p, [], [])). rewrite <- F. cbn [flush].
  destruct run; [|done]. cbn [is_nil]. by rewrite (push_segment_empty _ _ (empty_text_segment _)).
Qed.
End raw.

(** ** The parser one line at a time *)

Lemma trim_start_prefix u l : u `prefix_of` l -> trim_start u <> [] -> trim_start u `prefix_of` trim_start l.
Proof.
  revert l; induction u as [|c u IH]; intros l [r ->]; [done|]. unfold trim_start in *. simpl.
  destruct (is_whitespace c); [apply IH; by exists r|]. intros _. exists r. done.
Qed.

Lemma trim_end_prefix v x : v `prefix_of` x -> trim_end v `prefix_of` trim_end x.
Proof.
  intros Hv. destruct (drop_while_end_prefix is_whitespace v) as (sv & Ev & _).
  destruct (drop_while_end_prefix is_whitespace x) as (sx & Ex & Hx).
  fold (trim_end v) in Ev. fold (trim_end x) in Ex.
  assert (trim_end v `prefix_of` x) as Hp by (etrans; [|exact Hv]; rewrite Ev at 2; by apply prefix_app_r).
  assert (trim_end x `prefix_of` x) as Hq by (rewrite Ex at 2; by apply prefix_app_r).
  destruct (prefix_weak_total _ _ _ Hp Hq) as [?|[r Hr]]; [done|].
  destruct r as [|c r] using rev_ind; [rewrite app_nil_r in Hr; by rewrite Hr|]. exfalso.
  assert (is_whitespace c = false) as Hc.
  { apply (drop_while_end_last is_whitespace v). fold (trim_end v). by rewrite Hr, app_assoc, last_snoc. }
  destruct Hp as [q Hq']. rewrite Hr, <- !app_assoc in Hq'. rewrite Ex in Hq' at 1. simplify_list_eq.
  apply Forall_app in Hx as [_ [Hcw _]%Forall_cons]. congruence.
Qed.

Section lines.
Context {T : Type} `{EqDecision T}.
Notation Parser := (TaggedLineParser T).
Notation Segment := (TaggedLineSegment T).
Implicit Types (ss : list (TagSpec T)).

(** The reference: each line is a tag that opens or closes a block, or text. *)
Fixpoint line_segments ss (a : option T) (ls : list str) : option T * list Segment :=
  match ls with
  | [] => (a, [])
  | l :: ls' =>
      let '(a1, s) := line_segment ss a l in
      let '(a2, segs) := line_segments ss a1 ls' in (a2, s :: segs)
  end.
(** A block still open at the end is closed. *)
Definition closed (r : option T * list Segment) : list Segment :=
  r.2 ++ match r.1 with Some t => [TagEnd t] | None => [] end.
Definition text_segments ss (text : str) : list Segment :=
  closed (line_segments ss None (split_inclusive LF text)).

Lemma match_open_Some ss slug t : match_open ss slug = Some t -> exists s, s ∈ ss /\ tag_open s = slug.
Proof.
  unfold match_open. destruct (List.find _ ss) as [s|] eqn:E; [|done]. intros _.
  apply List.find_some in E as [Hin Heq]. exists s. split; [by apply list_elem_of_In|by apply str_eqb_spec].
Qed.
Lemma match_close_Some ss slug t : match_close ss slug = Some t -> exists s, s ∈ ss /\ tag_close s = slug.
Proof.
  unfold match_close. destruct (List.find _ ss) as [s|] eqn:E; [|done]. intros _.
  apply List.find_some in E as [Hin Heq]. exists s. split; [by apply list_elem_of_In|by apply str_eqb_spec].
Qed.

(** A line some prefix of which cannot start a tag is text. *)
Lemma disproved_is_text ss a u l slug :
  u `prefix_of` l -> trim_start u <> [] -> is_tag_prefix ss (trim_start u) = false -> slug = trim l ->
  opens ss a slug = None /\ closes ss a slug = None.
Proof.
  intros Hu Hne Hno ->.
  assert (trim_end (trim_start u) `prefix_of` trim l) as Hp by (apply trim_end_prefix; by apply trim_start_prefix).
  apply starts_with_prefix in Hp.
  assert (forall s, s ∈ ss -> tag_open s <> trim l /\ tag_close s <> trim l) as Hs.
  { intros s Hs%list_elem_of_In. apply not_true_iff_false in Hno. split; intros E; apply Hno, existsb_exists;
      exists s; (split; [done|]); rewrite E, Hp; [done|apply orb_true_r]. }
  split.
  - unfold opens. destruct (match_open ss (trim l)) eqn:E; [|done].
    apply match_open_Some in E as (s & Hin & E). by destruct (Hs s Hin).
  - unfold closes. destruct (match_close ss (trim l)) eqn:E; [|done].
    apply match_close_Some in E as (s & Hin & E). by destruct (Hs s Hin).
Qed.

Lemma line_slug_line l : line_slug (l ++ [LF]) = trim l.
Proof. unfold line_slug. by rewrite strip_suffix_app. Qed.
Lemma line_slug_open u : LF ∉ u -> line_slug u = trim u.
Proof.
  intros Hu. unfold line_slug. destruct (strip_suffix [LF] u) as [r|] eqn:E; [|done].
  apply strip_suffix_Some in E. rewrite E in Hu. set_solver.
Qed.

(** Once a line is known to be text, its characters are released one by one. *)
Lemma raw_text ss a s :
  LF ∉ s -> raw (mkTagged ss a false []) s = (mkTagged ss a false [], map (fun c => text_segment a [c]) s).
Proof.
  induction s as [|c s IH]; [done|]. intros [Hc Hs]%not_elem_of_cons. cbn [raw]. unfold raw_char.
  cbn [detect_tag tag_specs active_tag line_buffer]. assert ((c =? LF)%N = false) as -> by (apply N.eqb_neq; congruence).
  by rewrite IH.
Qed.

Lemma coalesce_text segs (a : option T) s x :
  foldl push_segment (push_segment segs (text_segment a x)) (map (fun c => text_segment a [c]) s)
  = push_segment segs (text_segment a (x ++ s)).
Proof.
  revert x; induction s as [|c s IH]; intros x; simpl; [by rewrite app_nil_r|].
  by rewrite push_text_text, IH, <- app_assoc.
Qed.

(** Reading the start of a line: still undecided, or known to be text. *)
Lemma raw_line_start ss a s :
  LF ∉ s ->
  raw (mkTagged ss a true []) s = (mkTagged ss a true s, [])
  \/ exists u v, s = u ++ v /\ trim_start u <> [] /\ is_tag_prefix ss (trim_start u) = false
     /\ raw (mkTagged ss a true []) s
        = (mkTagged ss a false [], text_segment a u :: map (fun c => text_segment a [c]) v).
Proof.
  induction s as [|c s IH] using rev_ind; intros Hs; [by left|].
  apply not_elem_of_app in Hs as [Hs Hc]. rewrite raw_app. destruct (IH Hs) as [->|(u & v & -> & Hne & Hno & ->)].
  - cbn [raw]. unfold raw_char. cbn [detect_tag tag_specs active_tag line_buffer].
    assert ((c =? LF)%N = false) as -> by (apply N.eqb_neq; set_solver).
    destruct (is_nil _ || _) eqn:E; [by left|]. right. exists (s ++ [c]), []. bool_to_prop.
    by rewrite app_nil_r.
  - right. exists u, (v ++ [c]). split_and!; [by rewrite app_assoc|done|done|].
    rewrite raw_text by done. simpl. by rewrite map_app.
Qed.

(** A complete line, read from a line start. *)
Lemma raw_line ss a l :
  LF ∉ l ->
  (raw (mkTagged ss a true []) (l ++ [LF])).1 = mkTagged ss (line_segment ss a (l ++ [LF])).1 true []
  /\ forall segs, foldl push_segment segs (raw (mkTagged ss a true []) (l ++ [LF])).2
       = push_segment segs (line_segment ss a (l ++ [LF])).2.
Proof.
  intros Hl. rewrite raw_app. destruct (raw_line_start ss a l Hl) as [->|(u & v & -> & Hne & Hno & ->)].
  - cbn [raw]. unfold raw_char. cbn [detect_tag tag_specs active_tag line_buffer]. rewrite N.eqb_refl.
    by destruct (line_segment ss a (l ++ [LF])).
  - destruct (disproved_is_text ss a u (u ++ v) (trim (u ++ v))) as [Ho Hc]; [by apply prefix_app_r|done..|].
    unfold line_segment. cbv zeta. rewrite line_slug_line, Ho, Hc. cbn. split; [done|]. intros segs.
    rewrite foldl_app, coalesce_text. cbn. by rewrite push_text_text.
Qed.

Lemma tagged_finish_line ss a buf :
  buf <> [] ->
  (tagged_finish (mkTagged ss a true buf)).2
  = coalesce (closed ((line_segment ss a buf).1, [(line_segment ss a buf).2])).
Proof.
  intros Hb. unfold tagged_finish. cbn [line_buffer active_tag tag_specs].
  destruct (is_nil buf) eqn:E; [by bool_to_prop|]. unfold line_segment, closed. cbv zeta.
  destruct (opens ss a _) as [t|]; [done|]. destruct (closes ss a _) as [t|]; [done|]. by destruct a.
Qed.

(** The last, unterminated line, and the flush. *)
Lemma raw_last_line ss a u segs :
  LF ∉ u ->
  foldl push_segment segs ((raw (mkTagged ss a true []) u).2 ++ (tagged_finish (raw (mkTagged ss a true []) u).1).2)
  = foldl push_segment segs (closed (line_segments ss a (split_inclusive LF u))).
Proof.
  intros Hu. destruct (decide (u = [])) as [->|Hne]; [by destruct a|].
  rewrite split_inclusive_no_char by done. cbn [line_segments].
  destruct (raw_line_start ss a u Hu) as [->|(x & y & -> & Hx & Hno & ->)].
  - cbn [fst snd]. rewrite app_nil_l, tagged_finish_line, foldl_coalesce by done. by destruct (line_segment ss a u).
  - destruct (disproved_is_text ss a x (x ++ y) (trim (x ++ y))) as [Ho Hc]; [by apply prefix_app_r|done..|].
    unfold line_segment. cbv zeta. rewrite line_slug_open, Ho, Hc by done. cbn [fst snd].
    rewrite foldl_app. cbn [foldl]. rewrite coalesce_text. by destruct a.
Qed.

Lemma raw_text_segments ss a text segs :
  foldl push_segment segs
    ((raw (mkTagged ss a true []) text).2 ++ (tagged_finish (raw (mkTagged ss a true []) text).1).2)
  = foldl push_segment segs (closed (line_segments ss a (split_inclusive LF text))).
Proof.
  remember (length text) as n eqn:En. revert a text segs En. induction (lt_wf n) as [n _ IH]. intros a text segs ->.
  destruct (decide (LF ∈ text)) as [Hin|Hin]; [|by apply raw_last_line].
  apply list_elem_of_split_l in Hin as (l & rest & -> & Hl).
  rewrite split_inclusive_app_sep by done. cbn [line_segments].
  replace (l ++ LF :: rest) with ((l ++ [LF]) ++ rest) in * by (by rewrite <- app_assoc). rewrite raw_app.
  destruct (raw_line ss a l Hl) as [E1 E2]. destruct (line_segment ss a (l ++ [LF])) as [a1 s].
  destruct (raw (mkTagged ss a true []) (l ++ [LF])) as [p1 x]. cbn [fst snd] in *. subst p1.
  specialize (IH (length rest) ltac:(rewrite !length_app; simpl; lia) a1 rest (push_segment segs s) eq_refl).
  destruct (raw (mkTagged ss a1 true []) rest) as [p2 y]. cbn [fst snd] in *.
  destruct (line_segments ss a1 (split_inclusive LF rest)) as [a2 segs2]. unfold closed in *. cbn [fst snd] in *.
  rewrite <- !app_assoc, foldl_app, E2. rewrite IH. by rewrite <- app_comm_cons.
Qed.

Lemma parse_finish_segments ss (text : str) :
  let '(p, segs) := parse (tagged_new ss) text in
  coalesce (segs ++ (tagged_finish p).2) = coalesce (text_segments ss text).
Proof.
  rewrite parse_raw. pose proof (raw_text_segments ss None text []) as E. unfold tagged_new.
  destruct (raw (mkTagged ss None true []) text) as [p x]. cbn [fst snd] in *.
  rewrite <- coalesce_app, coalesce_idem, coalesce_app. exact E.
Qed.

(** The streaming line parser against a line-by-line reading: parsing any
    text and finishing yields, up to joining adjacent text, the segments of its
    lines, where a line is a tag that opens or closes a block exactly when its
    trimmed text is the tag, and text otherwise. *)
Theorem tagged_parse_lines ss (text : str) :
  let '(p, segs) := parse (tagged_new ss) text in
  coalesce (segs ++ (tagged_finish p).2) = coalesce (text_segments ss text).
Proof. apply parse_finish_segments. Qed.
End lines.

(** ** Plans *)

(** The visible text of segments. *)
Definition show_segment {T} (acc : str) (s : TaggedLineSegment T) : str :=
  match s with Normal text => acc ++ text | _ => acc end.
Definition normal_text {T} (segs : list (TaggedLineSegment T)) : str := foldl show_segment [] segs.

Lemma show_segment_empty {T} acc (s : TaggedLineSegment T) : empty_text s = true -> show_segment acc s = acc.
Proof. destruct s as [[]| | |]; simpl; try done. intros _. apply app_nil_r. Qed.
Lemma show_segment_join {T} `{EqDecision T} acc (z s j : TaggedLineSegment T) :
  join_segments z s = Some j -> empty_text s = false -> show_segment (show_segment acc z) s = show_segment acc j.
Proof.
  intros Hj _. destruct z, s; simplify_eq/=; try case_decide; simplify_eq/=; [|done]. by rewrite app_assoc.
Qed.

Lemma normal_text_coalesce {T} `{EqDecision T} (segs : list (TaggedLineSegment T)) :
  normal_text (coalesce segs) = normal_text segs.
Proof. apply foldl_coalesced; [apply show_segment_empty|apply show_segment_join]. Qed.

Lemma normal_text_app {T} (a b : list (TaggedLineSegment T)) : normal_text (a ++ b) = normal_text a ++ normal_text b.
Proof.
  unfold normal_text. rewrite foldl_app. generalize (foldl show_segment [] a). intros x.
  revert x; induction b as [|s b IH] using rev_ind; intros x; [by rewrite app_nil_r|].
  rewrite !foldl_snoc, IH. destruct s; simpl; by rewrite ?app_assoc.
Qed.

Lemma map_segments_eq segs : map_segments segs = mkTextChunk (normal_text segs) (map map_segment segs).
Proof.
  unfold map_segments, normal_text. induction segs as [|s segs IH] using rev_ind; [done|].
  rewrite !foldl_snoc, IH, map_app. by destruct s as [?|[]|[] ?|[]].
Qed.

Definition unmap_segment (s : ProposedPlanSegment) : TaggedLineSegment PlanTag :=
  match s with
  | PlanNormal text => Normal text
  | ProposedPlanStart => TagStart ProposedPlan
  | ProposedPlanDelta text => TagDelta ProposedPlan text
  | ProposedPlanEnd => TagEnd ProposedPlan
  end.
Lemma unmap_map segs : map unmap_segment (map map_segment segs) = segs.
Proof. induction segs as [|[?|[]|[] ?|[]] segs IH]; simpl; by rewrite ?IH. Qed.

(** Plan segments with adjacent text joined. *)
Definition plan_coalesce (l : list ProposedPlanSegment) : list ProposedPlanSegment :=
  map map_segment (coalesce (map unmap_segment l)).

Lemma plan_coalesce_mapped segs : plan_coalesce (map map_segment segs) = map map_segment (coalesce segs).
Proof. unfold plan_coalesce. by rewrite unmap_map. Qed.

Lemma plan_coalesce_app a a' b b' :
  plan_coalesce a = plan_coalesce a' -> plan_coalesce b = plan_coalesce b' ->
  plan_coalesce (a ++ b) = plan_coalesce (a' ++ b').
Proof.
  unfold plan_coalesce. intros Ha%(f_equal (map unmap_segment)) Hb%(f_equal (map unmap_segment)).
  rewrite !unmap_map in *. f_equal. rewrite !map_app. by apply coalesce_app_proper.
Qed.

#[export] Program Instance plan_lawful : LawfulStreamParser ProposedPlanParser ProposedPlanSegment := {|
  stream_inv _ := True;
  stream_norm := plan_coalesce;
|}.
Next Obligation. apply plan_coalesce_app. Qed.
Next Obligation. done. Qed.
Next Obligation.
  intros p a b _. cbn [push_str plan_stream]. rewrite !parse_raw, raw_app. cbv beta.
  destruct (raw (plan_parser p) a) as [p1 x]. cbn [fst snd plan_parser]. rewrite ?parse_raw.
  destruct (raw p1 b) as [p2 y]. cbn [fst snd]. rewrite !map_segments_eq. cbn [visible_text extracted].
  split_and!; [done| |].
  - by rewrite !normal_text_coalesce, normal_text_app.
  - rewrite <- map_app, !plan_coalesce_mapped. by rewrite coalesce_idem, coalesce_app.
Qed.

Notation plan_specs := [mkTagSpec OPEN_TAG CLOSE_TAG ProposedPlan].

(** What a line does to the block state of a plan-mode text. *)
Inductive plan_line := LineOpens | LineCloses | LineText.
Definition classify_line (inside : bool) (line : str) : plan_line :=
  let slug := line_slug line in
  if negb inside && str_eqb slug OPEN_TAG then LineOpens
  else if inside && str_eqb slug CLOSE_TAG then LineCloses
  else LineText.

(** The lines outside the plan blocks. *)
Fixpoint outside_lines (inside : bool) (ls : list str) : list str :=
  match ls with
  | [] => []
  | l :: ls' =>
      match classify_line inside l with
      | LineOpens => outside_lines true ls'
      | LineCloses => outside_lines false ls'
      | LineText => (if inside then [] else [l]) ++ outside_lines inside ls'
      end
  end.

(** The text of the last plan block, if any was opened. *)
Fixpoint last_block (inside : bool) (acc : option str) (ls : list str) : option str :=
  match ls with
  | [] => acc
  | l :: ls' =>
      match classify_line inside l with
      | LineOpens => last_block true (Some []) ls'
      | LineCloses => last_block false acc ls'
      | LineText => last_block inside (if inside then option_map (fun t => t ++ l) acc else acc) ls'
      end
  end.

Definition plan_active (inside : bool) : option PlanTag := if inside then Some ProposedPlan else None.

Lemma str_eqb_sym a b : str_eqb a b = str_eqb b a.
Proof.
  destruct (str_eqb b a) eqn:E; [apply str_eqb_spec in E as ->; apply str_eqb_refl|].
  apply str_eqb_false in E. apply str_eqb_false. congruence.
Qed.

Lemma plan_line_segment inside line :
  line_segment plan_specs (plan_active inside) line =
  match classify_line inside line with
  | LineOpens => (plan_active true, TagStart ProposedPlan)
  | LineCloses => (plan_active false, TagEnd ProposedPlan)
  | LineText => (plan_active inside, text_segment (plan_active inside) line)
  end.
Proof.
  unfold line_segment, classify_line, opens, closes, match_open, match_close. cbv zeta. cbn [List.find tag_open tag_close].
  rewrite (str_eqb_sym OPEN_TAG), (str_eqb_sym CLOSE_TAG).
  destruct inside; cbn [negb andb plan_active is_none].
  - destruct (str_eqb (line_slug line) OPEN_TAG); destruct (str_eqb (line_slug line) CLOSE_TAG); done.
  - destruct (str_eqb (line_slug line) OPEN_TAG); [done|]. destruct (str_eqb (line_slug line) CLOSE_TAG); done.
Qed.

Lemma normal_text_lines inside ls :
  normal_text (closed (line_segments plan_specs (plan_active inside) ls)) = concat (outside_lines inside ls).
Proof.
  revert inside; induction ls as [|l ls IH]; intros inside; cbn [line_segments outside_lines].
  { by destruct inside. }
  rewrite plan_line_segment. destruct (classify_line inside l).
  - specialize (IH true). destruct (line_segments _ (plan_active true) ls) as [a segs]. unfold closed in *. cbn [fst snd] in *.
    change ((TagStart ProposedPlan :: segs) ++ ?x) with ([TagStart ProposedPlan] ++ (segs ++ x)).
    rewrite normal_text_app, IH. done.
  - specialize (IH false). destruct (line_segments _ (plan_active false) ls) as [a segs]. unfold closed in *. cbn [fst snd] in *.
    change ((TagEnd ProposedPlan :: segs) ++ ?x) with ([TagEnd ProposedPlan] ++ (segs ++ x)).
    rewrite normal_text_app, IH. done.
  - specialize (IH inside). destruct (line_segments _ (plan_active inside) ls) as [a segs]. unfold closed in *. cbn [fst snd] in *.
    change ((?s :: segs) ++ ?x) with ([s] ++ (segs ++ x)). rewrite normal_text_app, IH, concat_app.
    destruct inside; [done|]. cbn. by rewrite app_nil_r.
Qed.

(** Stripping plan blocks keeps exactly the lines outside them: a block
    starts at a line whose trimmed text is the opening tag and ends at the next
    one whose trimmed text is the closing tag, or with the text. *)
Theorem strip_proposed_plan_blocks_lines (text : str) :
  strip_proposed_plan_blocks text = concat (outside_lines false (split_inclusive LF text)).
Proof.
  unfold strip_proposed_plan_blocks. cbn [push_str finish plan_stream plan_parser plan_new].
  pose proof (parse_finish_segments plan_specs text) as E. destruct (parse _ text) as [p segs].
  cbn [plan_parser]. destruct (tagged_finish p) as [p' fin]. cbn [fst snd] in *.
  rewrite !map_segments_eq. cbn [visible_text]. rewrite <- normal_text_app, <- normal_text_coalesce, E.
  rewrite normal_text_coalesce. apply (normal_text_lines false).
Qed.

Definition extract_tagged (st : bool * str) (s : TaggedLineSegment PlanTag) := extract_step st (map_segment s).

Lemma extract_coalesce st segs : foldl extract_tagged st (coalesce segs) = foldl extract_tagged st segs.
Proof.
  apply foldl_coalesced.
  - intros [b x] [[]|[]|[] []|[]]; cbn; try done. intros _. by rewrite app_nil_r.
  - intros [b x] [?|[]|[] ?|[]] [?|[]|[] ?|[]] j; cbn; intros Hj _; try done;
      rewrite ?decide_True in Hj by done; simplify_eq; cbn; by rewrite ?app_assoc.
Qed.

Lemma foldl_map_extract st segs : foldl extract_step st (map map_segment segs) = foldl extract_tagged st segs.
Proof. revert st; induction segs as [|s segs IH]; intros st; simpl; [done|]. apply IH. Qed.

Definition as_option (st : bool * str) : option str := if st.1 then Some st.2 else None.

Lemma extract_lines inside st ls :
  (inside = true -> st.1 = true) ->
  as_option (foldl extract_tagged st (closed (line_segments plan_specs (plan_active inside) ls)))
  = last_block inside (as_option st) ls.
Proof.
  revert inside st; induction ls as [|l ls IH]; intros inside [b x] Hin; cbn [line_segments last_block].
  { by destruct inside. }
  rewrite plan_line_segment. destruct (classify_line inside l).
  - specialize (IH true (true, [])). destruct (line_segments _ (plan_active true) ls) as [a segs].
    unfold closed in *. cbn in *. by apply IH.
  - specialize (IH false (b, x)). destruct (line_segments _ (plan_active false) ls) as [a segs].
    unfold closed in *. cbn in *. by apply IH.
  - destruct inside.
    + cbn in Hin. rewrite (Hin eq_refl). specialize (IH true (true, x ++ l)).
      destruct (line_segments _ (plan_active true) ls) as [a segs]. unfold closed in *. cbn in *. by apply IH.
    + specialize (IH false (b, x)). destruct (line_segments _ (plan_active false) ls) as [a segs].
      unfold closed in *. cbn in *. by apply IH.
Qed.

(** The extracted plan is the text of the last plan block, and there is one
    exactly when some block was opened. *)
Theorem extract_proposed_plan_text_last (text : str) :
  extract_proposed_plan_text text = last_block false None (split_inclusive LF text).
Proof.
  unfold extract_proposed_plan_text. cbn [push_str finish plan_stream plan_parser plan_new].
  pose proof (parse_finish_segments plan_specs text) as E. destruct (parse _ text) as [p segs].
  cbn [plan_parser]. destruct (tagged_finish p) as [p' fin]. cbn [fst snd] in *.
  rewrite !map_segments_eq. cbn [extracted]. rewrite <- map_app, foldl_map_extract, <- extract_coalesce, E, extract_coalesce.
  rewrite <- (extract_lines false (false, [])) by done. unfold as_option, text_segments. cbn [plan_active].
  by destruct (foldl extract_tagged _ _) as [[|] ?].
Qed.

(** ** Assistant text *)

(** An [AssistantTextChunk] as the output of a stream parser whose payloads are
    citations and plan segments. *)
Definition assistant_view (c : AssistantTextChunk) : StreamTextChunk (str + ProposedPlanSegment) :=
  mkTextChunk (a_visible_text c) (map inl (citations c) ++ map inr (plan_segments c)).

#[export] Instance assistant_stream : StreamTextParser AssistantTextStreamParser (str + ProposedPlanSegment) := {|
  push_str p chunk := let '(q, o) := assistant_push_str p chunk in (q, assistant_view o);
  finish p := let '(q, o) := assistant_finish p in (q, assistant_view o);
|}.

Definition cites {A B} (l : list (A + B)) : list A := omap (fun x => match x with inl a => Some a | inr _ => None end) l.
Definition plans {A B} (l : list (A + B)) : list B := omap (fun x => match x with inr b => Some b | inl _ => None end) l.

Lemma cites_view {A B} (a : list A) (b : list B) : cites (map inl a ++ map inr b) = a.
Proof.
  induction a as [|x a IH]; [by induction b|].
  change (cites (map inl (x :: a) ++ map inr b)) with (x :: cites (map inl a ++ map inr b)). by rewrite IH.
Qed.
Lemma plans_view {A B} (a : list A) (b : list B) : plans (map inl a ++ map inr b) = b.
Proof.
  induction a as [|x a IH]; [|done]. induction b as [|y b IH]; [done|].
  change (plans (map inl [] ++ map inr (y :: b))) with (y :: plans (map (@inl A B) [] ++ map inr b)). by rewrite IH.
Qed.
Lemma cites_app {A B} (a b : list (A + B)) : cites (a ++ b) = cites a ++ cites b.
Proof. apply omap_app. Qed.
Lemma plans_app {A B} (a b : list (A + B)) : plans (a ++ b) = plans a ++ plans b.
Proof. apply omap_app. Qed.

(** Citations in order, then plan segments joined. *)
Definition assistant_norm (l : list (str + ProposedPlanSegment)) : list (str + ProposedPlanSegment) :=
  map inl (cites l) ++ map inr (plan_coalesce (plans l)).

Lemma assistant_norm_eq a b :
  assistant_norm a = assistant_norm b <-> cites a = cites b /\ plan_coalesce (plans a) = plan_coalesce (plans b).
Proof.
  unfold assistant_norm. split; [|by intros [-> ->]]. intros E. split.
  - apply (f_equal cites) in E. by rewrite !cites_view in E.
  - apply (f_equal plans) in E. by rewrite !plans_view in E.
Qed.

Definition assistant_inv (p : AssistantTextStreamParser) : Prop := inline_inv (cit_inner (a_citations p)).

Lemma parse_visible_citations p text : a_citations (parse_visible_text p text).1 = a_citations p.
Proof. unfold parse_visible_text. destruct (negb _); [done|]. by destruct (push_str _ _). Qed.

#[export] Program Instance assistant_lawful :
    LawfulStreamParser AssistantTextStreamParser (str + ProposedPlanSegment) := {|
  stream_inv := assistant_inv;
  stream_norm := assistant_norm;
|}.
Next Obligation.
  intros a a' b b' [Ha Ha']%assistant_norm_eq [Hb Hb']%assistant_norm_eq. apply assistant_norm_eq.
  rewrite !cites_app, !plans_app. split; [congruence|]. by apply plan_coalesce_app.
Qed.
Next Obligation.
  intros p s Hp. pose proof (@push_str_inv _ _ _ citation_lawful (a_citations p) s Hp) as Hc.
  cbn [push_str assistant_stream]. unfold assistant_push_str. destruct (push_str (a_citations p) s) as [cit c].
  pose proof (parse_visible_citations (mkAssistant (plan_mode p) cit (a_plan p)) (visible_text c)) as E.
  destruct (parse_visible_text _ _) as [q o]. cbn [fst] in *. unfold assistant_inv. by rewrite E.
Qed.
Next Obligation.
  intros p a b Hp. pose proof (@push_str_app _ _ _ citation_lawful (a_citations p) a b Hp) as Hab.
  cbn [push_str assistant_stream]. unfold assistant_push_str.
  destruct (push_str (a_citations p) (a ++ b)) as [cit' c'], (push_str (a_citations p) a) as [cit1 c1].
  unfold parse_visible_text. cbn [plan_mode a_plan a_citations]. destruct (plan_mode p) eqn:Em; cbn [negb].
  - pose proof (@push_str_app _ _ _ plan_lawful (a_plan p) (visible_text c1)) as Hplan.
    destruct (push_str (a_plan p) (visible_text c1)) as [pl1 o1]. cbn [plan_mode a_plan a_citations].
    destruct (push_str cit1 b) as [cit2 c2]. destruct Hab as (-> & Hv & He). cbn [plan_mode a_plan a_citations negb].
    specialize (Hplan (visible_text c2) I). rewrite Hv. destruct (push_str pl1 (visible_text c2)) as [pl2 o2].
    destruct (push_str (a_plan p) (visible_text c1 ++ visible_text c2)) as [pl' o']. destruct Hplan as (-> & Hv2 & He2).
    cbn [assistant_view visible_text extracted a_visible_text plan_segments citations]. split_and!; [done|done|].
    apply assistant_norm_eq. rewrite (cites_app (_ ++ _) (_ ++ _)), (plans_app (_ ++ _) (_ ++ _)), !cites_view, !plans_view. by split.
  - cbn [plan_mode a_plan a_citations]. destruct (push_str cit1 b) as [cit2 c2]. destruct Hab as (-> & Hv & He).
    cbn [assistant_view visible_text extracted a_visible_text plan_segments citations]. split_and!; [done|done|].
    apply assistant_norm_eq. unfold assistant_view. cbn [visible_text extracted a_visible_text plan_segments citations].
    rewrite (cites_app (_ ++ _) (_ ++ _)), (plans_app (_ ++ _) (_ ++ _)), !cites_view, !plans_view. by split.
Qed.

Definition assistant_parser (plan_mode : bool) : AssistantTextStreamParser :=
  mkAssistant plan_mode citation_parser plan_new.

Lemma assistant_new_eq m : assistant_new m = Some (assistant_parser m).
Proof. unfold assistant_new. by rewrite citation_new_eq. Qed.

Lemma chunk_is_empty_app {A} (v v' : str) (e e' : list A) :
  chunk_is_empty (mkTextChunk v' e') = true -> v = v ++ v' /\ e = e ++ e'.
Proof. unfold chunk_is_empty. simpl. intros H. bool_to_prop. subst. by rewrite !app_nil_r. Qed.

(** One push and the flush: citations first, then plan blocks of what is left. *)
Lemma assistant_whole m text :
  let out := run_stream (assistant_parser m) [text] in
  exists v cs, strip_citations text = Some (v, cs)
    /\ cites (extracted out) = cs
    /\ visible_text out = (if m then strip_proposed_plan_blocks v else v).
Proof.
  cbv zeta. unfold strip_citations. rewrite citation_new_eq. unfold run_stream. cbn [push_all push_str assistant_stream].
  unfold assistant_push_str. cbn [a_citations plan_mode a_plan assistant_parser].
  destruct (push_str citation_parser text) as [cit c].
  unfold parse_visible_text. destruct m; cbn [negb plan_mode a_plan a_citations].
  - pose proof (@run_stream_concat _ _ _ plan_lawful plan_new (visible_text c)) as Hplan.
    destruct (push_str plan_new (visible_text c)) as [pl1 o1] eqn:E1. rewrite chunk_app_default_r.
    cbn [finish assistant_stream]. unfold assistant_finish, parse_visible_text. cbn [a_citations plan_mode a_plan negb].
    destruct (finish cit) as [cit2 c2]. specialize (Hplan [visible_text c2] I) as [Hv _].
    unfold run_stream in Hv. cbn [push_all concat] in Hv. rewrite E1, app_nil_r in Hv.
    destruct (push_str pl1 (visible_text c2)) as [pl2 o2]. rewrite chunk_app_default_r in Hv.
    cbn [plan_mode a_plan a_citations]. destruct (finish pl2) as [pl3 o3] eqn:E3. cbn [snd] in Hv.
    eexists _, _. split; [done|]. unfold assistant_view. cbn [visible_text extracted chunk_app a_visible_text plan_segments citations].
    assert (visible_text o1 ++ visible_text o2 ++ visible_text o3
      = strip_proposed_plan_blocks (visible_text c ++ visible_text c2)) as Hstrip.
    { unfold strip_proposed_plan_blocks. destruct (push_str plan_new (visible_text c ++ visible_text c2)) as [q o].
      rewrite chunk_app_default_r in Hv. cbn [chunk_app visible_text] in Hv. by rewrite <- Hv, <- app_assoc. }
    rewrite cites_app. destruct (chunk_is_empty o3) eqn:Ee; cbn [snd visible_text extracted a_visible_text plan_segments citations].
    + rewrite !cites_view. split; [done|]. destruct o3 as [v3 e3].
      destruct (chunk_is_empty_app (visible_text o2) v3 (extracted o2) e3 Ee) as [-> _]. exact Hstrip.
    + by rewrite !cites_view.
  - rewrite chunk_app_default_r. cbn [finish assistant_stream]. unfold assistant_finish, parse_visible_text.
    cbn [a_citations plan_mode a_plan negb]. destruct (finish cit) as [cit2 c2].
    eexists _, _. split; [done|]. unfold assistant_view. cbn [snd visible_text extracted chunk_app a_visible_text plan_segments citations plan_mode].
    split; [|done]. by rewrite (cites_app (_ ++ _)), !cites_view.
Qed.

(** C38. The assistant text stream, end to end: for every cutting of a text into
    chunks, the citations streamed are those of [strip_citations] on the whole
    text, and the text shown is what [strip_citations] leaves, with its plan
    blocks stripped in plan mode. *)
Theorem assistant_stream_end_to_end (plan_mode : bool) (c : str) (cs : list str) :
  exists v bodies, strip_citations (c ++ concat cs) = Some (v, bodies)
    /\ cites (extracted (run_stream (assistant_parser plan_mode) (c :: cs))) = bodies
    /\ visible_text (run_stream (assistant_parser plan_mode) (c :: cs))
       = (if plan_mode then strip_proposed_plan_blocks v else v).
Proof.
  destruct (@run_stream_concat _ _ _ assistant_lawful (assistant_parser plan_mode) c cs citation_parser_inv) as [Hv He].
  apply assistant_norm_eq in He as [Hc _]. rewrite Hv, Hc. apply assistant_whole.
Qed.
