(* ===== verification/Utf8Stream.v ===== *)
(** * Streams of raw bytes

    Models [codex-rs/utils/stream-parser/src/utf8_stream.rs] and the part of the
    standard library it is about: [std::str::from_utf8] with its error report. *)

From stdpp Require Import base list numbers option sets.
From Stdlib Require Import Lia ZifyN.
From S2P Require Import Prelude RustStr StreamText.

Ltac Zify.zify_post_hook ::= Z.to_euclidean_division_equations.

(** ** UTF-8 *)

Definition is_scalar (c : char) : bool := (c <? 55296)%N || ((57343 <? c) && (c <? 1114112))%N.

(** [char::encode_utf8]. *)
Definition encode_char (c : char) : list N :=
  if (c <? 128)%N then [c]
  else if (c <? 2048)%N then [192 + c / 64; 128 + c mod 64]%N
  else if (c <? 65536)%N then [224 + c / 4096; 128 + c / 64 mod 64; 128 + c mod 64]%N
  else [240 + c / 262144; 128 + c / 4096 mod 64; 128 + c / 64 mod 64; 128 + c mod 64]%N.
Definition encode (s : str) : list N := flat_map encode_char s.

Definition in_range (lo hi b : N) : bool := ((lo <=? b) && (b <=? hi))%N.
Definition is_cont (b : N) : bool := in_range 128 191 b.

(** The bytes the first byte of a sequence requires: width and the range of the
    second byte; [None]: not a first byte. *)
Definition sequence_head (b : N) : option (nat * (N * N)) :=
  if (b <? 128)%N then Some (1, (0, 0)%N)
  else if in_range 194 223 b then Some (2, (128, 191)%N)
  else if (b =? 224)%N then Some (3, (160, 191)%N)
  else if in_range 225 236 b || in_range 238 239 b then Some (3, (128, 191)%N)
  else if (b =? 237)%N then Some (3, (128, 159)%N)
  else if (b =? 240)%N then Some (4, (144, 191)%N)
  else if in_range 241 243 b then Some (4, (128, 191)%N)
  else if (b =? 244)%N then Some (4, (128, 143)%N)
  else None.

(** Decoding the first code point: the character and its width, or the
    [error_len] of the failure ([None]: the input ends too early). *)
Inductive decoded := Decoded (c : char) (width : nat) | Malformed (error_len : option nat).

Definition decode_char (bs : list N) : decoded :=
  match bs with
  | [] => Malformed None
  | b1 :: r1 =>
      match sequence_head b1 with
      | None => Malformed (Some 1)
      | Some (1, _) => Decoded b1 1
      | Some (w, (lo, hi)) =>
          match r1 with
          | [] => Malformed None
          | b2 :: r2 =>
              if negb (in_range lo hi b2) then Malformed (Some 1)
              else if Nat.eqb w 2 then Decoded ((b1 - 192) * 64 + (b2 - 128))%N 2
              else match r2 with
                   | [] => Malformed None
                   | b3 :: r3 =>
                       if negb (is_cont b3) then Malformed (Some 2)
                       else if Nat.eqb w 3
                       then Decoded ((b1 - 224) * 4096 + (b2 - 128) * 64 + (b3 - 128))%N 3
                       else match r3 with
                            | [] => Malformed None
                            | b4 :: _ =>
                                if negb (is_cont b4) then Malformed (Some 3)
                                else Decoded ((b1 - 240) * 262144 + (b2 - 128) * 4096 + (b3 - 128) * 64
                                              + (b4 - 128))%N 4
                            end
                   end
          end
      end
  end.

Record Utf8Error := mkUtf8Error { valid_up_to : nat; error_len : option nat }.

(** Every round consumes a byte, so the length is enough fuel. *)
Fixpoint from_utf8_loop (fuel : nat) (bs : list N) (offset : nat) (acc : str) : result str Utf8Error :=
  match fuel, bs with
  | _, [] => Ok acc
  | 0, _ => Ok acc
  | S f, _ =>
      match decode_char bs with
      | Decoded c w => from_utf8_loop f (drop w bs) (offset + w) (acc ++ [c])
      | Malformed e => Err (mkUtf8Error offset e)
      end
  end.
Definition from_utf8 (bs : list N) : result str Utf8Error := from_utf8_loop (length bs) bs 0 [].

(** ** The byte parser *)

Inductive Utf8StreamParserError :=
| InvalidUtf8 (valid_up_to error_len : nat)
| IncompleteUtf8AtEof.

Section byte_parser.
Context {P E : Type} `{StreamTextParser P E}.

Record Utf8StreamParser := mkUtf8 { inner : P; pending_utf8 : list N }.

Definition utf8_new (inner : P) : Utf8StreamParser := mkUtf8 inner [].

Definition push_bytes (p : Utf8StreamParser) (chunk : list N)
    : Utf8StreamParser * result (StreamTextChunk E) Utf8StreamParserError :=
  let buffered := pending_utf8 p ++ chunk in
  let rolled_back := mkUtf8 (inner p) (take (length (pending_utf8 p)) buffered) in
  match from_utf8 buffered with
  | Ok text => let '(i, out) := push_str (inner p) text in (mkUtf8 i [], Ok out)
  | Err err =>
      match error_len err with
      | Some n => (rolled_back, Err (InvalidUtf8 (valid_up_to err) n))
      | None =>
          if Nat.eqb (valid_up_to err) 0 then (mkUtf8 (inner p) buffered, Ok chunk_default)
          else
            match from_utf8 (take (valid_up_to err) buffered) with
            | Ok text =>
                let '(i, out) := push_str (inner p) text in
                (mkUtf8 i (drop (valid_up_to err) buffered), Ok out)
            | Err prefix_err =>
                (rolled_back, Err (InvalidUtf8 (valid_up_to prefix_err) (default 0 (error_len prefix_err))))
            end
      end
  end.

(** The error a non-decodable rest is reported with. *)
Definition undecoded (err : Utf8Error) : Utf8StreamParserError :=
  match error_len err with Some n => InvalidUtf8 (valid_up_to err) n | None => IncompleteUtf8AtEof end.

Definition utf8_finish (p : Utf8StreamParser)
    : Utf8StreamParser * result (StreamTextChunk E) Utf8StreamParserError :=
  if is_nil (pending_utf8 p) then
    let '(i, tail) := finish (inner p) in (mkUtf8 i [], Ok (chunk_app chunk_default tail))
  else
    match from_utf8 (pending_utf8 p) with
    | Err err => (p, Err (undecoded err))
    | Ok text =>
        let '(i, out) := push_str (inner p) text in
        let '(i, tail) := finish i in (mkUtf8 i [], Ok (chunk_app out tail))
    end.

Definition into_inner (p : Utf8StreamParser) : result P Utf8StreamParserError :=
  if is_nil (pending_utf8 p) then Ok (inner p)
  else match from_utf8 (pending_utf8 p) with Ok _ => Ok (inner p) | Err err => Err (undecoded err) end.

Definition into_inner_lossy (p : Utf8StreamParser) : P := inner p.

(** Pushing chunks until one fails, then finishing. *)
Fixpoint push_bytes_all (p : Utf8StreamParser) (chunks : list (list N))
    : Utf8StreamParser * result (StreamTextChunk E) Utf8StreamParserError :=
  match chunks with
  | [] => (p, Ok chunk_default)
  | b :: bs =>
      match push_bytes p b with
      | (p1, Ok o1) =>
          match push_bytes_all p1 bs with
          | (p2, Ok o2) => (p2, Ok (chunk_app o1 o2))
          | (p2, Err e) => (p2, Err e)
          end
      | (p1, Err e) => (p1, Err e)
      end
  end.
Definition run_bytes (p : Utf8StreamParser) (chunks : list (list N)) : result (StreamTextChunk E) Utf8StreamParserError :=
  match push_bytes_all p chunks with
  | (p1, Ok o1) => match utf8_finish p1 with (_, Ok o2) => Ok (chunk_app o1 o2) | (_, Err e) => Err e end
  | (_, Err e) => Err e
  end.
End byte_parser.
Arguments Utf8StreamParser : clear implicits.

(** ** Decoding what was encoded *)

Lemma in_range_spec lo hi b : in_range lo hi b = true <-> (lo <= b <= hi)%N.
Proof. unfold in_range. rewrite andb_true_iff, !N.leb_le. done. Qed.

Lemma encode_char_length c : 1 <= length (encode_char c) <= 4.
Proof. unfold encode_char. repeat case_match; simpl; lia. Qed.

(** Decide every comparison of the goal by arithmetic. *)
Ltac decide_cmp :=
  repeat match goal with
  | |- context [N.ltb ?a ?b] =>
      first [replace (N.ltb a b) with true by (symmetry; apply N.ltb_lt; lia)
            |replace (N.ltb a b) with false by (symmetry; apply N.ltb_ge; lia)]
  | |- context [N.leb ?a ?b] =>
      first [replace (N.leb a b) with true by (symmetry; apply N.leb_le; lia)
            |replace (N.leb a b) with false by (symmetry; apply N.leb_gt; lia)]
  | |- context [N.eqb ?a ?b] =>
      first [replace (N.eqb a b) with true by (symmetry; apply N.eqb_eq; lia)
            |replace (N.eqb a b) with false by (symmetry; apply N.eqb_neq; lia)]
  end.

(** The head of every sequence [encode_char] produces. *)
Lemma sequence_head_table b :
  ((b < 128)%N -> sequence_head b = Some (1, (0, 0)%N))
  /\ ((194 <= b <= 223)%N -> sequence_head b = Some (2, (128, 191)%N))
  /\ (b = 224%N -> sequence_head b = Some (3, (160, 191)%N))
  /\ ((225 <= b <= 236 \/ 238 <= b <= 239)%N -> sequence_head b = Some (3, (128, 191)%N))
  /\ (b = 237%N -> sequence_head b = Some (3, (128, 159)%N))
  /\ (b = 240%N -> sequence_head b = Some (4, (144, 191)%N))
  /\ ((241 <= b <= 243)%N -> sequence_head b = Some (4, (128, 191)%N))
  /\ (b = 244%N -> sequence_head b = Some (4, (128, 143)%N)).
Proof.
  unfold sequence_head, in_range. split_and!; intros Hb; try (subst; done); try (by decide_cmp).
  destruct Hb; by decide_cmp.
Qed.

(** A scalar value is encoded with a head its following bytes satisfy. *)
Inductive encodes (c : char) : list N -> Prop :=
| Enc1 : (c < 128)%N -> encodes c [c]
| Enc2 b1 b2 : sequence_head b1 = Some (2, (128, 191)%N) -> is_cont b2 = true ->
    c = ((b1 - 192) * 64 + (b2 - 128))%N -> encodes c [b1; b2]
| Enc3 b1 b2 b3 lo hi : sequence_head b1 = Some (3, (lo, hi)) -> in_range lo hi b2 = true -> is_cont b3 = true ->
    c = ((b1 - 224) * 4096 + (b2 - 128) * 64 + (b3 - 128))%N -> encodes c [b1; b2; b3]
| Enc4 b1 b2 b3 b4 lo hi : sequence_head b1 = Some (4, (lo, hi)) -> in_range lo hi b2 = true ->
    is_cont b3 = true -> is_cont b4 = true ->
    c = ((b1 - 240) * 262144 + (b2 - 128) * 4096 + (b3 - 128) * 64 + (b4 - 128))%N -> encodes c [b1; b2; b3; b4].

Lemma encode_char_encodes c : is_scalar c = true -> encodes c (encode_char c).
Proof.
  unfold is_scalar, encode_char. rewrite orb_true_iff, andb_true_iff, !N.ltb_lt. intros Hc.
  destruct (N.ltb_spec c 128); [by constructor|].
  destruct (N.ltb_spec c 2048).
  { destruct (sequence_head_table (192 + c / 64)) as (_ & Hh & _).
    constructor; [apply Hh; lia|apply in_range_spec; lia|lia]. }
  destruct (N.ltb_spec c 65536).
  { destruct (sequence_head_table (224 + c / 4096)) as (_ & _ & T1 & T2 & T3 & _).
    destruct (N.ltb_spec c 4096); [eapply Enc3; [apply T1; lia|..]|
      destruct (N.ltb_spec c 53248); [eapply Enc3; [apply T2; lia|..]|
      destruct (N.ltb_spec c 55296); [eapply Enc3; [apply T3; lia|..]|eapply Enc3; [apply T2; lia|..]]]];
      try (apply in_range_spec; lia); lia. }
  destruct (sequence_head_table (240 + c / 262144)) as (_ & _ & _ & _ & _ & T1 & T2 & T3).
  destruct (N.ltb_spec c 262144); [eapply Enc4; [apply T1; lia|..]|
    destruct (N.ltb_spec c 1048576); [eapply Enc4; [apply T2; lia|..]|eapply Enc4; [apply T3; lia|..]]];
    try (apply in_range_spec; lia); lia.
Qed.

Lemma decode_encodes c bs r : encodes c bs -> decode_char (bs ++ r) = Decoded c (length bs).
Proof.
  intros [Hc|b1 b2 Hh H2 ->|b1 b2 b3 lo hi Hh H2 H3 ->|b1 b2 b3 b4 lo hi Hh H2 H3 H4 ->]; cbn [app decode_char length].
  - destruct (sequence_head_table c) as [Hh _]. by rewrite Hh.
  - rewrite Hh. unfold is_cont in H2. by rewrite H2.
  - by rewrite Hh, H2, H3.
  - by rewrite Hh, H2, H3, H4.
Qed.

(** A proper beginning of an encoded character is incomplete, not malformed. *)
Lemma decode_partial c bs p r : encodes c bs -> bs = p ++ r -> p <> [] -> r <> [] -> decode_char p = Malformed None.
Proof.
  intros He E Hp Hr. destruct p as [|x1 p]; [done|].
  destruct He as [Hc|b1 b2 Hh H2 ->|b1 b2 b3 lo hi Hh H2 H3 ->|b1 b2 b3 b4 lo hi Hh H2 H3 H4 ->]; simplify_eq/=.
  - by destruct p.
  - destruct p as [|x2 p]; simplify_eq/=; [by rewrite Hh|]. by destruct p.
  - rewrite Hh. destruct p as [|x2 p]; simplify_eq/=; [done|]. rewrite H2. cbn.
    destruct p as [|x3 p]; simplify_eq/=; [done|]. by destruct p.
  - rewrite Hh. destruct p as [|x2 p]; simplify_eq/=; [done|]. rewrite H2. cbn.
    destruct p as [|x3 p]; simplify_eq/=; [done|]. rewrite H3. cbn.
    destruct p as [|x4 p]; simplify_eq/=; [done|]. by destruct p.
Qed.

Definition scalars (s : str) : Prop := Forall (fun c => is_scalar c = true) s.

Lemma encode_app a b : encode (a ++ b) = encode a ++ encode b.
Proof. apply flat_map_app. Qed.

Lemma encode_nil_inv s : encode s = [] -> s = [].
Proof.
  destruct s as [|c s]; [done|]. simpl. intros [E _]%app_eq_nil. pose proof (encode_char_length c).
  rewrite E in *. simpl in *. lia.
Qed.

Lemma from_utf8_loop_encode fuel s r off acc :
  scalars s -> length (encode s ++ r) <= fuel ->
  length r <= fuel - length s
  /\ from_utf8_loop fuel (encode s ++ r) off acc = from_utf8_loop (fuel - length s) r (off + length (encode s)) (acc ++ s).
Proof.
  revert fuel off acc; induction s as [|c s IH]; intros fuel off acc Hs Hf.
  { cbn in *. rewrite Nat.add_0_r, Nat.sub_0_r, app_nil_r. split; [lia|done]. }
  apply Forall_cons in Hs as [Hc Hs]. pose proof (encode_char_encodes c Hc) as He. pose proof (encode_char_length c) as Hl.
  cbn [encode flat_map] in *. fold (encode s) in *. rewrite <- app_assoc in *. rewrite !length_app in Hf.
  destruct fuel as [|fuel]; [lia|].
  destruct (IH fuel (off + length (encode_char c)) (acc ++ [c]) Hs) as [H1 H2]; [rewrite length_app; lia|].
  cbn [length Nat.sub]. split; [exact H1|]. rewrite length_app, Nat.add_assoc.
  replace (acc ++ c :: s) with ((acc ++ [c]) ++ s) by (by rewrite <- app_assoc). rewrite <- H2.
  cbn [from_utf8_loop]. rewrite (decode_encodes c _ _ He), drop_app_length.
  by destruct (encode_char c ++ encode s ++ r) eqn:E; [destruct (encode_char c); simpl in *; [lia|done]|].
Qed.

(** [None] when the bytes are whole characters, or the offset of a started one. *)
Lemma from_utf8_encode s : scalars s -> from_utf8 (encode s) = Ok s.
Proof.
  intros Hs. unfold from_utf8. destruct (from_utf8_loop_encode (length (encode s)) s [] 0 [] Hs) as [_ E];
    rewrite app_nil_r in *; [done|]. rewrite E. by destruct (length (encode s) - length s).
Qed.

Lemma from_utf8_partial s c p q :
  scalars s -> is_scalar c = true -> encode_char c = p ++ q -> p <> [] -> q <> [] ->
  from_utf8 (encode s ++ p) = Err (mkUtf8Error (length (encode s)) None).
Proof.
  intros Hs Hc E Hp Hq. unfold from_utf8.
  destruct (from_utf8_loop_encode (length (encode s ++ p)) s p 0 [] Hs) as [Hl ->]; [lia|].
  destruct p as [|x p]; [done|]. destruct (length _ - length s) as [|f]; [simpl in Hl; lia|].
  cbn [from_utf8_loop]. by rewrite (decode_partial c _ _ _ (encode_char_encodes c Hc) E).
Qed.

(** Where a cut of an encoded text falls. *)
Lemma cut_encode s a b :
  a ++ b = encode s ->
  exists s1 s2 p, s = s1 ++ s2 /\ a = encode s1 ++ p /\ p ++ b = encode s2
    /\ (p = [] \/ exists c s3 q, s2 = c :: s3 /\ encode_char c = p ++ q /\ p <> [] /\ q <> []).
Proof.
  revert a; induction s as [|c s IH]; intros a E.
  - apply app_eq_nil in E as [-> ->]. exists [], [], []. split_and!; try done. by left.
  - cbn [encode flat_map] in E. fold (encode s) in E.
    destruct (decide (length (encode_char c) <= length a)) as [Hl|Hl].
    + assert (a = encode_char c ++ drop (length (encode_char c)) a) as Ea.
      { rewrite <- (take_drop (length (encode_char c)) a) at 1. f_equal.
        apply (f_equal (take (length (encode_char c)))) in E. by rewrite take_app_le, take_app_length in E. }
      rewrite Ea, <- app_assoc in E. apply app_inv_head in E. destruct (IH _ E) as (s1 & s2 & p & -> & E1 & E2 & E3).
      exists (c :: s1), s2, p. split_and!; [done| |done|done]. rewrite Ea, E1. cbn [encode flat_map]. by rewrite <- app_assoc.
    + exists [], (c :: s), a. split_and!; [done|done|done|]. destruct (decide (a = [])); [by left|right].
      exists c, s, (drop (length a) (encode_char c)). split_and!; [done| |done|].
      * rewrite <- (take_drop (length a) (encode_char c)) at 1. f_equal.
        apply (f_equal (take (length a))) in E. rewrite take_app_length, take_app_le in E by lia. done.
      * intros En%(f_equal length). rewrite length_drop in En. simpl in En. lia.
Qed.

Section byte_theorems.
Context {P E : Type} `{LawfulStreamParser P E}.

(** Pushing the bytes [b] of a text that continues with [rest]. *)
Lemma push_bytes_cut i pend b rest s :
  scalars s -> (pend ++ b) ++ rest = encode s ->
  exists ts s2 p, s = concat ts ++ s2 /\ p ++ rest = encode s2 /\ length ts <= 1
    /\ push_bytes (mkUtf8 i pend) b = (mkUtf8 (push_all i ts).1 p, Ok (push_all i ts).2).
Proof.
  intros Hs Ecut. destruct (cut_encode s _ _ Ecut) as (s1 & s2 & p & -> & Eb & Ep & Hp).
  apply Forall_app in Hs as [Hs1 Hs2]. unfold push_bytes. cbn [pending_utf8 inner]. rewrite Eb.
  destruct Hp as [->|(c & s3 & q & -> & Ec & Hpn & Hqn)].
  - rewrite app_nil_r, from_utf8_encode by done. exists [s1], s2, []. cbn [concat push_all]. rewrite app_nil_r.
    destruct (push_str i s1) as [i1 o1]. split_and!; [done|done|simpl; lia|]. cbn [fst snd]. by rewrite chunk_app_default_r.
  - apply Forall_cons in Hs2 as [Hc _]. rewrite (from_utf8_partial s1 c p q) by done. cbn [error_len valid_up_to].
    destruct (Nat.eqb_spec (length (encode s1)) 0) as [Hz|Hz].
    + apply nil_length_inv, encode_nil_inv in Hz as ->. exists [], (c :: s3), p. split_and!; [done|done|simpl; lia|done].
    + rewrite take_app_length, drop_app_length, from_utf8_encode by done. exists [s1], (c :: s3), p.
      cbn [concat push_all]. rewrite app_nil_r. destruct (push_str i s1) as [i1 o1].
      split_and!; [done|done|simpl; lia|]. cbn [fst snd]. by rewrite chunk_app_default_r.
Qed.

Lemma push_all_app i ts ts' :
  push_all i (ts ++ ts') =
  ((push_all (push_all i ts).1 ts').1, chunk_app (push_all i ts).2 (push_all (push_all i ts).1 ts').2).
Proof.
  revert i; induction ts as [|t ts IH]; intros i; cbn [app push_all].
  { cbn [fst snd]. destruct (push_all i ts') as [? []]. done. }
  destruct (push_str i t) as [i1 o1]. rewrite IH. destruct (push_all i1 ts) as [i2 o2]. cbn [fst snd].
  destruct (push_all i2 ts') as [i3 o3]. cbn [fst snd]. by rewrite chunk_app_assoc.
Qed.

Lemma push_bytes_all_cut i pend chunks s :
  scalars s -> pend ++ concat chunks = encode s ->
  exists ts s', s = concat ts ++ s'
    /\ push_bytes_all (mkUtf8 i pend) chunks = (mkUtf8 (push_all i ts).1 (encode s'), Ok (push_all i ts).2).
Proof.
  revert i pend s; induction chunks as [|b chunks IH]; intros i pend s Hs Ec; cbn [concat push_bytes_all] in *.
  { rewrite app_nil_r in Ec. subst pend. exists [], s. done. }
  rewrite app_assoc in Ec. destruct (push_bytes_cut i _ _ _ _ Hs Ec) as (ts & s2 & p & -> & Ep & _ & ->).
  apply Forall_app in Hs as [_ Hs2]. destruct (IH (push_all i ts).1 p s2 Hs2 Ep) as (ts2 & s' & -> & ->).
  exists (ts ++ ts2), s'. rewrite concat_app, app_assoc. split; [done|]. by rewrite push_all_app.
Qed.

(** The byte parser hands its inner parser some cutting of the text. *)
Lemma run_bytes_cut i chunks s :
  scalars s -> concat chunks = encode s ->
  exists ts, concat ts = s /\ run_bytes (utf8_new i) chunks = Ok (run_stream i ts).
Proof.
  intros Hs Ec. unfold run_bytes, utf8_new. destruct (push_bytes_all_cut i [] chunks s Hs Ec) as (ts & s' & -> & ->).
  apply Forall_app in Hs as [_ Hs']. unfold utf8_finish. cbn [pending_utf8 inner].
  destruct (is_nil (encode s')) eqn:En; bool_to_prop.
  - apply encode_nil_inv in En as ->. exists ts. split; [by rewrite app_nil_r|]. unfold run_stream.
    destruct (push_all i ts) as [i' o]. cbn [fst snd]. destruct (finish i') as [? []]. done.
  - rewrite from_utf8_encode by done. exists (ts ++ [s']). split; [rewrite concat_app; simpl; by rewrite app_nil_r|].
    unfold run_stream. rewrite push_all_app. destruct (push_all i ts) as [i' o]. cbn [fst snd push_all].
    destruct (push_str i' s') as [i2 o2]. cbn [fst snd]. rewrite chunk_app_default_r.
    destruct (finish i2) as [? ?]. cbn [snd]. by rewrite chunk_app_assoc.
Qed.

(** Bytes can be cut anywhere: feeding the UTF-8 encoding of a non-empty text
    to the byte parser in any chunks, splitting code points or not, never fails
    and yields what the wrapped parser yields on the whole text. *)
Theorem run_bytes_encode (i : P) (s : str) (chunks : list (list N)) :
  stream_inv i -> scalars s -> s <> [] -> concat chunks = encode s ->
  exists out, run_bytes (utf8_new i) chunks = Ok out /\ chunk_equiv out (run_stream i [s]).
Proof.
  intros Hi Hs Hne Ec. destruct (run_bytes_cut i chunks s Hs Ec) as ([|t ts] & <- & ->); [done|].
  eexists; split; [done|]. by apply run_stream_concat.
Qed.

(** A chunk that is not UTF-8 is rolled back whole: after an error the parser
    is in the state it had before the push. *)
Theorem push_bytes_rollback (p p' : Utf8StreamParser P) (chunk : list N) (e : Utf8StreamParserError) :
  push_bytes p chunk = (p', Err e) -> p' = p.
Proof.
  unfold push_bytes. destruct p as [i pend]. cbn [pending_utf8 inner]. rewrite take_app_length.
  destruct (from_utf8 (pend ++ chunk)) as [t|err].
  - by destruct (push_str i t).
  - destruct (error_len err); [by intros [= <- _]|]. destruct (Nat.eqb _ 0); [done|].
    destruct (from_utf8 (take _ _)) as [t|err']; [by destruct (push_str i t)|by intros [= <- _]].
Qed.
End byte_theorems.

(** Decoding is the inverse of encoding on every text of scalar values. *)
Theorem from_utf8_roundtrip (s : str) : scalars s -> from_utf8 (encode s) = Ok s.
Proof. apply from_utf8_encode. Qed.

(** ** Witnesses *)

(** A parser that shows everything. *)
#[export] Instance plain_stream : StreamTextParser unit unit := {|
  push_str _ chunk := (tt, mkTextChunk chunk []);
  finish _ := (tt, chunk_default);
|}.
#[export] Instance plain_lawful : LawfulStreamParser unit unit.
Proof. refine {| stream_inv _ := True; stream_norm := id |}; unfold id; naive_solver. Defined.

(** An e with an acute accent, cut between its two bytes. *)
Lemma run_bytes_encode_witness :
  exists out, run_bytes (utf8_new tt) [[97; 195]; [169]; []]%N = Ok out /\ visible_text out = [97; 233]%N.
Proof.
  destruct (@run_bytes_encode _ _ _ plain_lawful tt [97; 233]%N [[97; 195]; [169]; []]%N I) as (out & E & Hv & _).
  - repeat (apply List.Forall_cons; [reflexivity|]). apply List.Forall_nil.
  - discriminate.
  - vm_compute. reflexivity.
  - exists out. split; [exact E|]. rewrite Hv. vm_compute. reflexivity.
Defined.
