(* ===== verification/ByteStr.v ===== *)
(** * Strings by byte offsets

    Rust indexes strings by bytes; the model keeps strings as lists of characters.
    This file gives the byte length of a string and the slices at byte offsets.  A
    slice that is not at a character boundary, or past the end, is a panic
    ([None]).  Offsets are [Z] within [usize] (64 bits). *)

From stdpp Require Import base list numbers option strings.
From Stdlib Require Import Lia.
From S2P Require Import Prelude RustStr Utf8Stream.

#[local] Open Scope Z_scope.

Definition usize_max : Z := 2 ^ 64 - 1.

(** [char::len_utf8] and [str::len]. *)
Definition len_utf8 (c : char) : Z := Z.of_nat (length (encode_char c)).
Fixpoint byte_len (s : str) : Z :=
  match s with [] => 0 | c :: r => len_utf8 c + byte_len r end.

(** [str::split_at] at a byte offset. *)
Fixpoint split_at (n : Z) (s : str) : option (str * str) :=
  if n =? 0 then Some ([], s)
  else
    match s with
    | [] => None
    | c :: r =>
        if n <? len_utf8 c then None
        else match split_at (n - len_utf8 c) r with
             | Some (a, b) => Some (c :: a, b)
             | None => None
             end
    end.

Definition slice_to (s : str) (n : Z) : option str := option_map fst (split_at n s).
Definition slice_from (s : str) (n : Z) : option str := option_map snd (split_at n s).

(** [s[a..b]]. *)
Definition slice (s : str) (a b : Z) : option str :=
  match split_at b s with Some (pre, _) => slice_from pre a | None => None end.

(** [str::floor_char_boundary] and [str::ceil_char_boundary]. *)
Fixpoint floor_char_boundary (s : str) (n : Z) : Z :=
  match s with
  | [] => 0
  | c :: r => if len_utf8 c <=? n then len_utf8 c + floor_char_boundary r (n - len_utf8 c) else 0
  end.
Fixpoint ceil_char_boundary (s : str) (n : Z) : Z :=
  match s with
  | [] => 0
  | c :: r => if n <=? 0 then 0 else len_utf8 c + ceil_char_boundary r (n - len_utf8 c)
  end.

Definition usize_saturating_add (a b : Z) : Z := Z.min usize_max (a + b).
Definition usize_saturating_sub (a b : Z) : Z := Z.max 0 (a - b).
Definition usize_saturating_mul (a b : Z) : Z := Z.min usize_max (a * b).

(** [{n}] of an unsigned integer. *)
Definition show_Z (n : Z) : str := show_nat (Z.to_nat n).

(** ** Lemmas *)

Lemma len_utf8_bounds c : 1 <= len_utf8 c <= 4.
Proof. unfold len_utf8. pose proof (encode_char_length c). lia. Qed.

Lemma byte_len_app a b : byte_len (a ++ b) = byte_len a + byte_len b.
Proof. induction a as [|c a IH]; simpl; lia. Qed.

Lemma byte_len_length s : Z.of_nat (length s) <= byte_len s.
Proof. induction s as [|c s IH]; simpl; [lia|]. pose proof (len_utf8_bounds c). lia. Qed.

Lemma byte_len_nonneg s : 0 <= byte_len s.
Proof. pose proof (byte_len_length s). lia. Qed.

Lemma byte_len_pos s : s <> [] -> 0 < byte_len s.
Proof. destruct s as [|c s]; [done|]. intros _. simpl. pose proof (len_utf8_bounds c). pose proof (byte_len_nonneg s). lia. Qed.

Lemma split_at_app a b : split_at (byte_len a) (a ++ b) = Some (a, b).
Proof.
  induction a as [|c a IH]; [by destruct b|]. simpl. pose proof (len_utf8_bounds c). pose proof (byte_len_nonneg a).
  replace (_ =? 0) with false by lia. replace (_ <? _) with false by lia.
  replace (len_utf8 c + byte_len a - len_utf8 c) with (byte_len a) by lia. by rewrite IH.
Qed.

Lemma slice_to_app a b : slice_to (a ++ b) (byte_len a) = Some a.
Proof. unfold slice_to. by rewrite split_at_app. Qed.

Lemma slice_from_app a b : slice_from (a ++ b) (byte_len a) = Some b.
Proof. unfold slice_from. by rewrite split_at_app. Qed.

Lemma slice_app a b c : slice (a ++ b ++ c) (byte_len a) (byte_len (a ++ b)) = Some b.
Proof. unfold slice. rewrite (assoc_L (++)), split_at_app. apply slice_from_app. Qed.

Lemma split_at_Some n s a b : split_at n s = Some (a, b) -> s = a ++ b /\ byte_len a = n.
Proof.
  revert n a b. induction s as [|c s IH]; intros n a b; simpl; (destruct (n =? 0) eqn:En; [intros [= <- <-]; split; [done|simpl; lia]|]); [done|].
  destruct (n <? len_utf8 c); [done|]. destruct (split_at (n - len_utf8 c) s) as [[x y]|] eqn:E; [|done].
  intros [= <- <-]. destruct (IH _ _ _ E) as [-> Hx]. split; [done|]. simpl. lia.
Qed.

Lemma slice_Some s a b t :
  slice s a b = Some t -> exists pre post, s = pre ++ t ++ post /\ byte_len pre = a /\ byte_len (pre ++ t) = b.
Proof.
  unfold slice, slice_from. destruct (split_at b s) as [[x y]|] eqn:E; [|done].
  destruct (split_at a x) as [[u v]|] eqn:E'; [|done]. intros [= <-].
  destruct (split_at_Some _ _ _ _ E) as [-> Hb]. destruct (split_at_Some _ _ _ _ E') as [-> Ha].
  exists u, y. by rewrite <- (assoc_L (++)).
Qed.
