(* ===== verification/SyntaxTree.v ===== *)
(** * Syntax trees

    The part of the tree-sitter interface the shell parsers use: a node with its
    kind, whether it is named, its byte range and its children.  The grammars
    themselves (bash, PowerShell) are not part of the repository: a parser from
    source text to [Tree] is a parameter of the files that use one.

    The sources walk trees with an explicit stack.  [drain] is the order in which
    such a loop visits the nodes, and [reach] the same by recursion; a loop that
    starts with as many steps as the tree has nodes visits all of them. *)

From stdpp Require Import base list numbers option strings sorting.
From Stdlib Require Import Lia.
From S2P Require Import Prelude RustStr ByteStr.

Inductive Node := mkNode {
  kind : str;
  is_named : bool;
  start_byte : Z;
  end_byte : Z;
  children : list Node }.

Record Tree := mkTree { root_node : Node; root_has_error : bool }.

Definition named_children (n : Node) : list Node := List.filter is_named (children n).
Definition named_child (n : Node) (i : nat) : option Node := named_children n !! i.

(** [Node::utf8_text]: the bytes of the range, when they are UTF-8.  Ranges of a
    tree lie within the source it was parsed from. *)
Definition utf8_text (n : Node) (src : str) : option str :=
  if (start_byte n =? end_byte n)%Z then Some [] else slice src (start_byte n) (end_byte n).

Definition is_kind (k : str) (n : Node) : bool := str_eqb (kind n) k.

Lemma is_kind_true k n : is_kind k n = true <-> kind n = k.
Proof. apply str_eqb_spec. Qed.

(** [sort_by_key]: a stable sort. *)
Fixpoint insert_by (key : Node -> Z) (n : Node) (l : list Node) : list Node :=
  match l with
  | [] => [n]
  | x :: r => if (key n <? key x)%Z then n :: l else x :: insert_by key n r
  end.
Definition sort_by_key (key : Node -> Z) (l : list Node) : list Node :=
  fold_left (fun acc n => insert_by key n acc) l [].

(** ** Induction and size *)

Section Node_induction.
Context (Q : Node -> Prop).
Hypothesis Hnode : forall k b s e cs, Forall Q cs -> Q (mkNode k b s e cs).

Fixpoint Node_ind_nested (n : Node) : Q n :=
  match n with
  | mkNode k b s e cs =>
      Hnode k b s e cs
        ((fix go (l : list Node) : Forall Q l :=
            match l with
            | [] => List.Forall_nil Q
            | c :: r => @List.Forall_cons Node Q c r (Node_ind_nested c) (go r)
            end) cs)
  end.
End Node_induction.

Fixpoint size (n : Node) : nat :=
  match n with mkNode _ _ _ _ cs => S (list_sum (List.map size cs)) end.

Definition stack_size (l : list Node) : nat := list_sum (List.map size l).

Lemma stack_size_app a b : stack_size (a ++ b) = stack_size a + stack_size b.
Proof. unfold stack_size. by rewrite List.map_app, list_sum_app. Qed.

Lemma stack_size_cons n l : stack_size (n :: l) = size n + stack_size l.
Proof. done. Qed.

Lemma stack_size_rev l : stack_size (rev l) = stack_size l.
Proof. induction l as [|x l IH]; [done|]. simpl rev. rewrite stack_size_app, IH. unfold stack_size. simpl. lia. Qed.

Lemma stack_size_filter f l : stack_size (List.filter f l) <= stack_size l.
Proof. induction l as [|x l IH]; [done|]. simpl. unfold stack_size in *. destruct (f x); simpl; lia. Qed.

Lemma size_children n : size n = S (stack_size (children n)).
Proof. by destruct n. Qed.

(** The nodes of a tree, parents before children. *)
Fixpoint preorder (n : Node) : list Node :=
  match n with mkNode _ _ _ _ cs => n :: flat_map preorder cs end.

Lemma preorder_eq n : preorder n = n :: flat_map preorder (children n).
Proof. by destruct n. Qed.

(** ** Loops over a stack *)

Section Drain.
(** The nodes a step pushes, the one popped next first. *)
Context (kids : Node -> list Node).
Hypothesis kids_small : forall n, stack_size (kids n) < size n.

Fixpoint drain (fuel : nat) (stack : list Node) : list Node :=
  match fuel, stack with
  | S f, n :: rest => n :: drain f (kids n ++ rest)
  | _, _ => []
  end.

Definition reach (n : Node) : list Node := drain (size n) [n].

Lemma drain_app fuel a b :
  stack_size (a ++ b) <= fuel -> drain fuel (a ++ b) = drain (stack_size a) a ++ drain (stack_size b) b.
Proof.
  remember (stack_size (a ++ b)) as m eqn:Em. revert a b Em fuel.
  induction (lt_wf m) as [m _ IH]. intros a b -> fuel Hf. destruct a as [|n a].
  - simpl in *. destruct b as [|n b]; [by destruct fuel|].
    pose proof (kids_small n) as Hk. assert (stack_size (n :: b) = size n + stack_size b) as Hs by done.
    destruct fuel as [|f]; [lia|]. destruct (stack_size (n :: b)) as [|g] eqn:Eg; [lia|]. simpl. f_equal.
    assert (stack_size (kids n ++ b) < S g) by (rewrite stack_size_app; lia).
    rewrite (IH (stack_size (kids n ++ b)) ltac:(lia) (kids n) b eq_refl f ltac:(lia)).
    by rewrite (IH (stack_size (kids n ++ b)) ltac:(lia) (kids n) b eq_refl g ltac:(lia)).
  - pose proof (kids_small n) as Hk. assert (stack_size (n :: a) = size n + stack_size a) as Hs by done.
    assert (stack_size ((n :: a) ++ b) = size n + stack_size a + stack_size b) as Hs'
      by (rewrite stack_size_app; lia).
    destruct fuel as [|f]; [lia|]. destruct (stack_size (n :: a)) as [|g] eqn:Eg; [lia|]. simpl. f_equal.
    assert (forall f, stack_size (kids n ++ a ++ b) <= f -> drain f (kids n ++ a ++ b)
             = drain (stack_size (kids n)) (kids n) ++ drain (stack_size (a ++ b)) (a ++ b)) as H1.
    { intros f' Hf'. apply (IH (stack_size (kids n ++ a ++ b))); [|done|done]. rewrite !stack_size_app. lia. }
    rewrite H1 by (rewrite !stack_size_app; lia).
    rewrite (IH (stack_size (a ++ b)) ltac:(rewrite !stack_size_app; lia) a b eq_refl (stack_size (a ++ b)) ltac:(lia)).
    rewrite (IH (stack_size (kids n ++ a)) ltac:(rewrite !stack_size_app; lia) (kids n) a eq_refl g ltac:(rewrite stack_size_app; lia)).
    by rewrite (assoc_L (++)).
Qed.

Lemma drain_stack l : drain (stack_size l) l = flat_map reach l.
Proof.
  induction l as [|n l IH]; [done|]. change (n :: l) with ([n] ++ l).
  rewrite (drain_app (stack_size ([n] ++ l)) [n] l) by lia. simpl. rewrite IH. f_equal. unfold reach.
  by replace (stack_size [n]) with (size n) by (unfold stack_size; simpl; lia).
Qed.

Lemma reach_eq n : reach n = n :: flat_map reach (kids n).
Proof.
  unfold reach at 1. pose proof (kids_small n). destruct (size n) as [|m] eqn:E; [lia|]. simpl. f_equal.
  rewrite (drain_app m (kids n) []) by (rewrite (right_id_L [] (++)); lia). simpl.
  by rewrite (right_id_L [] (++)), drain_stack.
Qed.

End Drain.

(** ** Nodes reached *)

Lemma kids_rev_children n : stack_size (rev (children n)) < size n.
Proof. rewrite stack_size_rev, size_children. lia. Qed.

Lemma kids_named n : stack_size (named_children n) < size n.
Proof. rewrite size_children. pose proof (stack_size_filter is_named (children n)). unfold named_children. lia. Qed.

Lemma kids_rev_named n : stack_size (rev (named_children n)) < size n.
Proof. rewrite stack_size_rev. apply kids_named. Qed.

Lemma flat_map_Permutation {A B} (f g : A -> list B) l l' :
  l ≡ₚ l' -> Forall (fun x => f x ≡ₚ g x) l' -> flat_map f l ≡ₚ flat_map g l'.
Proof.
  intros Hl Hf. transitivity (flat_map f l'); [by rewrite Hl|]. clear Hl.
  induction Hf as [|x l' Hx Hl' IH]; [done|]. simpl. by rewrite Hx, IH.
Qed.

Lemma reach_rev_children n : reach (fun m => rev (children m)) n ≡ₚ preorder n.
Proof.
  induction n as [k b s e cs IH] using Node_ind_nested.
  rewrite (reach_eq _ kids_rev_children), preorder_eq. apply perm_skip. simpl.
  apply flat_map_Permutation; [|done]. symmetry. apply Permutation_rev.
Qed.

Lemma elem_of_flat_map {A B} (f : A -> list B) l y : y ∈ flat_map f l <-> exists x, x ∈ l /\ y ∈ f x.
Proof. rewrite list_elem_of_In, in_flat_map. by setoid_rewrite list_elem_of_In. Qed.

Lemma preorder_refl n : n ∈ preorder n.
Proof. rewrite preorder_eq. by left. Qed.

Lemma preorder_child n m c : m ∈ preorder n -> c ∈ children m -> c ∈ preorder n.
Proof.
  revert m c. induction n as [k b s e cs IH] using Node_ind_nested. intros m c. rewrite preorder_eq.
  rewrite elem_of_cons, elem_of_flat_map. intros [->|(x & Hx & Hm)] Hc; right; rewrite elem_of_flat_map.
  - exists c. split; [done|apply preorder_refl].
  - exists x. split; [done|]. rewrite Forall_forall in IH. simpl in Hx. by eapply IH.
Qed.

Lemma elem_of_named_children n c : c ∈ named_children n <-> c ∈ children n /\ is_named c = true.
Proof. unfold named_children. by rewrite list_elem_of_In, filter_In, <- list_elem_of_In. Qed.

(** [m] is [n] or lies below it through named nodes. *)
Inductive named_below (n : Node) : Node -> Prop :=
| below_here : named_below n n
| below_child m c : named_below n m -> c ∈ named_children m -> named_below n c.

Lemma reach_closed kids n m c :
  (forall n, stack_size (kids n) < size n) -> m ∈ reach kids n -> c ∈ kids m -> c ∈ reach kids n.
Proof.
  intros Hk. remember (size n) as s eqn:Es. revert n Es. induction (lt_wf s) as [s _ IH]. intros n ->.
  rewrite (reach_eq _ Hk), !elem_of_cons, !elem_of_flat_map. intros [->|(x & Hx & Hm)] Hc; right.
  - exists c. split; [done|]. rewrite (reach_eq _ Hk). by left.
  - exists x. split; [done|]. eapply (IH (size x)); [|done..].
    pose proof (Hk n). apply list_elem_of_split in Hx as (a & b & Hx). rewrite Hx, stack_size_app in *.
    unfold stack_size in *. simpl in *. lia.
Qed.

Lemma reach_rev_named n m : m ∈ reach (fun x => rev (named_children x)) n <-> named_below n m.
Proof.
  split.
  - remember (size n) as s eqn:Es. revert n Es. induction (lt_wf s) as [s _ IH]. intros n ->.
    rewrite (reach_eq _ kids_rev_named), elem_of_cons, elem_of_flat_map.
    intros [->|(x & Hx & Hm)]; [constructor|]. apply list_elem_of_In, in_rev, list_elem_of_In in Hx.
    assert (named_below x m) as H.
    { eapply (IH (size x)); [|done..]. pose proof (kids_named n).
      apply list_elem_of_split in Hx as (a & b & Hx). rewrite Hx, stack_size_app in *. unfold stack_size in *. simpl in *. lia. }
    clear Hm IH. induction H as [|m c _ IH' Hc]; [eapply below_child; [apply below_here|done]|exact (below_child n _ _ IH' Hc)].
  - induction 1 as [|m c _ IH Hc]; [rewrite (reach_eq _ kids_rev_named); by left|].
    eapply (reach_closed _ n m c kids_rev_named); [done|]. by rewrite list_elem_of_In, <- in_rev, <- list_elem_of_In.
Qed.

(** ** Sorting by a key *)

Section Sort.
Context (key : Node -> Z).
Let le (a b : Node) : Prop := (key a <= key b)%Z.
Let lt (a b : Node) : Prop := (key a < key b)%Z.

Lemma insert_by_Permutation n l : insert_by key n l ≡ₚ n :: l.
Proof. induction l as [|x l IH]; simpl; [done|]. destruct (_ <? _)%Z; [done|]. rewrite IH. apply perm_swap. Qed.

Lemma insert_by_sorted n l : StronglySorted le l -> StronglySorted le (insert_by key n l).
Proof.
  induction 1 as [|x l Hl IH Hx]; simpl; [repeat constructor|]. destruct (_ <? _)%Z eqn:E.
  - constructor; [by constructor|]. constructor; [unfold le; lia|]. eapply Forall_impl; [done|]. unfold le. intros. lia.
  - constructor; [done|]. rewrite insert_by_Permutation. constructor; [unfold le; lia|done].
Qed.

Lemma sort_by_key_spec l : sort_by_key key l ≡ₚ l /\ StronglySorted le (sort_by_key key l).
Proof.
  unfold sort_by_key. assert (forall acc, StronglySorted le acc ->
    fold_left (fun acc n => insert_by key n acc) l acc ≡ₚ acc ++ l
    /\ StronglySorted le (fold_left (fun acc n => insert_by key n acc) l acc)) as H.
  { induction l as [|x l IH]; intros acc Ha; simpl; [by rewrite (right_id_L [] (++))|].
    destruct (IH (insert_by key x acc)) as [Hp Hs]; [by apply insert_by_sorted|]. split; [|done].
    rewrite Hp, insert_by_Permutation. simpl. apply Permutation_middle. }
  destruct (H []) as [? ?]; [constructor|]. done.
Qed.

(** Keys that are all different have one sorted order. *)
Lemma sort_by_key_unique l l' : l ≡ₚ l' -> StronglySorted lt l' -> sort_by_key key l = l'.
Proof.
  intros Hp Hs. destruct (sort_by_key_spec l) as [Hp' Hs']. pose proof (Permutation_trans Hp' Hp) as H. clear Hp Hp'.
  revert H Hs'. generalize (sort_by_key key l) as s. clear l.
  induction Hs as [|x l' Hl IH Hx]; intros s Hp Hs; [by apply Permutation_nil_r in Hp|].
  destruct s as [|y s]; [by apply Permutation_nil_cons in Hp|].
  assert (y = x) as ->.
  { assert (y ∈ x :: l') as Hy by (rewrite <- Hp; by left). apply elem_of_cons in Hy as [|Hy]; [done|].
    rewrite Forall_forall in Hx. specialize (Hx y Hy).
    assert (x ∈ y :: s) as Hxs by (rewrite Hp; by left). apply elem_of_cons in Hxs as [|Hxs]; [done|].
    inversion Hs as [|? ? _ Hys]; subst. rewrite Forall_forall in Hys. specialize (Hys x Hxs).
    unfold le, lt in *. lia. }
  f_equal. apply Permutation_cons_inv in Hp. inversion Hs; subst. by apply IH.
Qed.
End Sort.
