(* ===== verification/ShellDetect.v ===== *)
(** * Recognising shells by their path

    Models [detect_shell_type] of [codex-rs/shell-command/src/shell_detect.rs] and
    the methods of Unix paths it and the approval code use ([Path::components],
    [file_name], [file_stem], [parent], [==]). *)

From stdpp Require Import base list numbers option strings sets.
From Stdlib Require Import Lia.
From S2P Require Import Prelude RustStr.

(** ** Unix paths *)

Inductive Component := RootDir | CurDir | ParentDir | Normal (name : str).

#[export] Instance Component_eq_dec : EqDecision Component.
Proof. solve_decision. Defined.

Definition DOT : char := 46%N.
Definition SLASH : char := 47%N.

(** The components after the first: empty pieces and ["."] are dropped. *)
Definition component_of (piece : str) : list Component :=
  if is_nil piece || str_eqb piece [DOT] then []
  else if str_eqb piece [DOT; DOT] then [ParentDir]
  else [Normal piece].

(** [Path::components]: a leading ["."] is kept. *)
Definition components (path : str) : list Component :=
  match split SLASH path with
  | [] => []
  | first :: rest =>
      (if starts_with [SLASH] path then [RootDir]
       else if str_eqb first [DOT] then [CurDir] else component_of first)
      ++ flat_map component_of rest
  end.

(** [==] on paths. *)
Definition path_eqb (a b : str) : bool := bool_decide (components a = components b).

Definition file_name (path : str) : option str :=
  match last (components path) with Some (Normal name) => Some name | _ => None end.

(** The name without its last extension; a name that is all extension is kept. *)
Definition stem_of (name : str) : str :=
  match rsplit_once DOT name with
  | Some (before, _) => if is_nil before then name else before
  | None => name
  end.

(** [Path::extension] of a file name. *)
Definition name_extension (name : str) : option str :=
  match rsplit_once DOT name with
  | Some (before, after) => if is_nil before then None else Some after
  | None => None
  end.

Definition file_stem (path : str) : option str := option_map stem_of (file_name path).

(** [parent] as the components that are left. *)
Definition parent_components (path : str) : option (list Component) :=
  match last (components path) with
  | Some RootDir | None => None
  | Some _ => Some (removelast (components path))
  end.

(** ** shell_detect.rs *)

Inductive ShellType := Zsh | Bash | PowerShell | Sh | Cmd.

#[export] Instance ShellType_eq_dec : EqDecision ShellType.
Proof. solve_decision. Defined.

(** The names the first [match] recognises. *)
Definition known_shells : list (str * ShellType) :=
  [(lit "zsh", Zsh); (lit "sh", Sh); (lit "cmd", Cmd); (lit "bash", Bash);
   (lit "pwsh", PowerShell); (lit "powershell", PowerShell)].

Definition shell_named (name : str) : option ShellType :=
  option_map snd (List.find (fun e => str_eqb (fst e) name) known_shells).

(** One call per level; [fuel] bounds the depth of the recursion. *)
Fixpoint detect_shell_type_loop (fuel : nat) (shell_path : str) : option ShellType :=
  match fuel with
  | O => None
  | S fuel =>
      match shell_named shell_path with
      | Some t => Some t
      | None =>
          match file_stem shell_path with
          | Some shell_name =>
              if path_eqb shell_name shell_path then None
              else detect_shell_type_loop fuel shell_name
          | None => None
          end
      end
  end.

(** Each level is shorter than the one before. *)
Definition detect_shell_type (shell_path : str) : option ShellType :=
  detect_shell_type_loop (S (length shell_path)) shell_path.

(** ** What is recognised *)

Definition known (k : str) (t : ShellType) : Prop := (k, t) ∈ known_shells.

(** A shell's name, possibly with extensions. *)
Definition shell_file (name : str) (t : ShellType) : Prop :=
  exists k, known k t /\ (name = k \/ exists ext, name = k ++ DOT :: ext).

Lemma shell_named_spec name t : shell_named name = Some t <-> known name t.
Proof.
  unfold shell_named, known. split.
  - intros (e & [He Hn%str_eqb_spec]%List.find_some & ->)%fmap_Some. subst name.
    apply list_elem_of_In. by destruct e.
  - intros H. unfold known_shells in *. set_unfold.
    repeat match type of H with _ \/ _ => destruct H as [H|H] end; simplify_eq; try done; vm_compute; reflexivity.
Qed.

Lemma known_no_dot k t : known k t -> k <> [] /\ DOT ∉ k.
Proof.
  unfold known, known_shells. intros H. set_unfold.
  repeat match type of H with _ \/ _ => destruct H as [H|H] end; simplify_eq; try done; (split; [done|]);
    vm_compute; intros H; set_unfold; naive_solver.
Qed.

Lemma elem_of_rev {A} (x : A) l : x ∈ rev l <-> x ∈ l.
Proof. by rewrite !list_elem_of_In, <- in_rev. Qed.

Lemma rsplit_once_Some c s a b : rsplit_once c s = Some (a, b) <-> s = a ++ c :: b /\ c ∉ b.
Proof.
  unfold rsplit_once. split.
  - destruct (split_once c (rev s)) as [[x y]|] eqn:E; [|done]. intros [= <- <-].
    apply split_once_Some in E as [E Hx]. apply (f_equal (@rev N)) in E. rewrite rev_involutive in E.
    rewrite E, rev_app_distr. simpl. rewrite <- (assoc_L (++)). simpl. split; [done|]. by rewrite elem_of_rev.
  - intros [-> Hb].
    assert (forall x y, c ∉ x -> split_once c (x ++ c :: y) = Some (x, y)) as Hs.
    { induction x as [|d x IH]; intros y Hx; simpl; [by rewrite N.eqb_refl|].
      apply not_elem_of_cons in Hx as [? ?]. destruct (N.eqb_spec d c); [congruence|]. by rewrite IH. }
    rewrite rev_app_distr. simpl. rewrite <- (assoc_L (++)). simpl.
    rewrite Hs by (by rewrite elem_of_rev). by rewrite !rev_involutive.
Qed.

Lemma rsplit_once_None c s : rsplit_once c s = None <-> c ∉ s.
Proof.
  assert (forall x, split_once c x = None <-> c ∉ x) as H.
  { induction x as [|d x IH]; simpl; [set_solver|]. destruct (N.eqb_spec d c) as [->|]; [split; [done|set_solver]|].
    rewrite not_elem_of_cons, <- IH. destruct (split_once c x) as [[]|]; naive_solver. }
  unfold rsplit_once. transitivity (split_once c (rev s) = None); [by destruct (split_once c (rev s)) as [[]|]|].
  by rewrite H, elem_of_rev.
Qed.

Lemma stem_of_length name : length (stem_of name) <= length name /\ (stem_of name <> name -> length (stem_of name) < length name).
Proof.
  unfold stem_of. destruct (rsplit_once DOT name) as [[a b]|] eqn:E; [|done].
  apply rsplit_once_Some in E as [-> _]. destruct a; [done|]. rewrite length_app. simpl. split; [lia|intros; lia].
Qed.

(** Dropping an extension keeps a shell's file name recognisable, and nothing else
    becomes one. *)
Lemma shell_file_stem name t : shell_file (stem_of name) t <-> shell_file name t.
Proof.
  unfold stem_of. destruct (rsplit_once DOT name) as [[a b]|] eqn:E; [|done].
  apply rsplit_once_Some in E as [-> Hb]. destruct a as [|c a]; [done|]. simpl is_nil.
  split; intros (k & Hk & H); exists k; (split; [done|]).
  - destruct H as [->|[ext ->]]; right; [by exists b|]. exists (ext ++ DOT :: b). by rewrite <- (assoc_L (++)).
  - pose proof (known_no_dot k t Hk) as [Hne Hd]. destruct H as [<-|[ext H]]; [exfalso; set_solver|].
    destruct (rsplit_once DOT ext) as [[x y]|] eqn:Ex.
    + apply rsplit_once_Some in Ex as [-> Hy]. right. exists x.
      assert (rsplit_once DOT ((c :: a) ++ DOT :: b) = Some (c :: a, b)) as H1 by by apply rsplit_once_Some.
      rewrite H in H1. assert (rsplit_once DOT ((k ++ DOT :: x) ++ DOT :: y) = Some (k ++ DOT :: x, y)) as H2
        by by apply rsplit_once_Some.
      rewrite <- (assoc_L (++)) in H2. simpl in H2. congruence.
    + apply rsplit_once_None in Ex. left.
      assert (rsplit_once DOT ((c :: a) ++ DOT :: b) = Some (c :: a, b)) as H1 by by apply rsplit_once_Some.
      rewrite H in H1. assert (rsplit_once DOT (k ++ DOT :: ext) = Some (k, ext)) as H2 by by apply rsplit_once_Some.
      congruence.
Qed.

Lemma shell_file_no_leading_dot r t : ~ shell_file (DOT :: r) t.
Proof.
  intros (k & [Hne Hd]%known_no_dot & H). destruct k as [|c k]; [done|].
  destruct H as [[= <- _]|[ext [= <- _]]]; set_solver.
Qed.

Lemma shell_file_unnamed name t :
  shell_named name = None -> stem_of name = name -> ~ shell_file name t.
Proof.
  intros Hn Hs Hf. pose proof Hf as (k & Hk & [->|[ext ->]]); [apply shell_named_spec in Hk; congruence|].
  unfold stem_of in Hs. destruct (rsplit_once DOT (k ++ DOT :: ext)) as [[a b]|] eqn:E.
  - apply rsplit_once_Some in E as [E _]. destruct a as [|c a]; [rewrite E in Hf; by apply shell_file_no_leading_dot in Hf|].
    simpl in Hs. rewrite E in Hs. apply (f_equal length) in Hs. simpl in Hs. rewrite length_app in Hs. simpl in Hs. lia.
  - apply rsplit_once_None in E. set_solver.
Qed.

Lemma components_name n :
  SLASH ∉ n -> n <> [] ->
  components n = if str_eqb n [DOT] then [CurDir] else if str_eqb n [DOT; DOT] then [ParentDir] else [Normal n].
Proof.
  intros Hs Hn. unfold components. rewrite split_no_char by done. destruct n as [|c n]; [done|].
  assert (starts_with [SLASH] (c :: n) = false) as ->.
  { apply not_true_iff_false. rewrite starts_with_spec. intros [r [= -> ->]]. set_solver. }
  unfold component_of. simpl flat_map. rewrite (right_id_L [] (++)).
  by destruct (str_eqb (c :: n) [DOT]).
Qed.

Lemma components_normal p name :
  Normal name ∈ components p -> SLASH ∉ name /\ name <> [] /\ name <> [DOT] /\ name <> [DOT; DOT].
Proof.
  assert (forall piece, SLASH ∉ piece -> Normal name ∈ component_of piece ->
            SLASH ∉ name /\ name <> [] /\ name <> [DOT] /\ name <> [DOT; DOT]) as H1.
  { unfold component_of. intros piece Hp. destruct (is_nil piece || str_eqb piece [DOT]) eqn:E1; [set_solver|].
    destruct (str_eqb piece [DOT; DOT]) eqn:E2; [set_solver|]. intros [= ->]%list_elem_of_singleton.
    apply orb_false_iff in E1 as [E0%is_nil_false E1%str_eqb_false]. by apply str_eqb_false in E2. }
  unfold components. pose proof (split_pieces_no_char SLASH p) as Hp.
  destruct (split SLASH p) as [|first rest]; [set_solver|]. apply Forall_cons in Hp as [Hfirst Hrest].
  rewrite elem_of_app. intros [H|H].
  - repeat case_match; [set_solver..|by eapply H1].
  - apply list_elem_of_In, in_flat_map in H as (piece & Hin & H). apply list_elem_of_In in Hin, H.
    rewrite Forall_forall in Hrest. eapply H1; [by apply Hrest|done].
Qed.

Lemma stem_of_name n : SLASH ∉ n -> n <> [] -> SLASH ∉ stem_of n /\ stem_of n <> [].
Proof.
  intros Hs Hn. unfold stem_of. destruct (rsplit_once DOT n) as [[a b]|] eqn:E; [|done].
  apply rsplit_once_Some in E as [-> _]. destruct a; [done|]. simpl. set_solver.
Qed.

Lemma detect_loop_name fuel n t :
  SLASH ∉ n -> n <> [] -> length n < fuel -> detect_shell_type_loop fuel n = Some t <-> shell_file n t.
Proof.
  revert n. induction fuel as [|fuel IH]; intros n Hs Hn Hf; [lia|]. simpl.
  destruct (shell_named n) as [t'|] eqn:En.
  { apply shell_named_spec in En. split; [intros [= ->]; exists n; by split; [|left]|].
    intros (k & Hk & [->|[ext ->]]).
    - apply shell_named_spec in Hk, En. congruence.
    - apply known_no_dot in En as [_ En]. set_solver. }
  unfold file_stem, file_name, path_eqb. rewrite (components_name n) by done.
  destruct (str_eqb n [DOT]) eqn:E1; [apply str_eqb_spec in E1 as ->; simpl; split; [done|by intros ?%shell_file_no_leading_dot]|].
  destruct (str_eqb n [DOT; DOT]) eqn:E2; [apply str_eqb_spec in E2 as ->; simpl; split; [done|by intros ?%shell_file_no_leading_dot]|].
  simpl. destruct (stem_of_name n Hs Hn) as [Hs' Hn']. pose proof (stem_of_length n) as [_ Hlt].
  case_bool_decide as Hc.
  - rewrite (components_name (stem_of n)) in Hc by done.
    split; [done|]. intros H. exfalso. by eapply (shell_file_unnamed n); [done| |done]; repeat case_match; simplify_eq.
  - rewrite IH; [apply shell_file_stem|done|done|].
    destruct (decide (stem_of n = n)) as [Heq|]; [rewrite Heq in Hc; rewrite components_name, E1, E2 in Hc by done; done|].
    specialize (Hlt ltac:(done)). lia.
Qed.

Lemma file_name_length p name : file_name p = Some name -> name = p \/ length name < length p.
Proof.
  unfold file_name. destruct (last (components p)) as [[| | |n]|] eqn:E; try done. intros [= ->].
  apply last_Some_elem_of in E. unfold components in E. rewrite <- (join_split SLASH p).
  destruct (split SLASH p) as [|first rest] eqn:Es; [set_solver|].
  assert (forall piece, Normal name ∈ component_of piece -> name = piece) as Hc.
  { intros piece. unfold component_of. repeat case_match; set_solver. }
  assert (forall ls x, x ∈ ls -> x = join [SLASH] ls \/ length x < length (join [SLASH] ls)) as Hj.
  { induction ls as [|y ls IH]; intros x Hx; [set_solver|].
    destruct ls as [|z ls]; [apply list_elem_of_singleton in Hx; by left|]. rewrite join_cons_nonempty by done.
    right. rewrite !length_app. simpl. apply elem_of_cons in Hx as [->|Hx]; [lia|].
    destruct (IH x Hx) as [Heq|Hlt]; [rewrite Heq|]; simpl in *; lia. }
  apply Hj. apply elem_of_app in E as [E|E].
  - repeat case_match; try set_solver.
  - apply list_elem_of_In, in_flat_map in E as (piece & Hin%list_elem_of_In & H%list_elem_of_In). apply Hc in H. set_solver.
Qed.

(** A path is recognised when it is the bare name of a shell, or when its last
    component is a shell's name, with any extensions; the one exception is a bare
    name in another spelling (["zsh/"]). *)
Theorem detect_shell_type_spec p t :
  detect_shell_type p = Some t <->
    known p t \/ exists name, file_name p = Some name /\ shell_file name t /\ components p <> components (stem_of name)
                              /\ shell_named p = None.
Proof.
  unfold detect_shell_type. simpl. destruct (shell_named p) as [t'|] eqn:En.
  { apply shell_named_spec in En as Hk. split; [intros [= ->]; by left|].
    intros [H|(? & _ & _ & _ & [=])]. apply shell_named_spec in H. congruence. }
  assert (~ known p t) as Hno by (intros H%shell_named_spec; congruence).
  unfold file_stem. destruct (file_name p) as [name|] eqn:Ef; simpl; [|naive_solver].
  assert (SLASH ∉ name /\ name <> [] /\ name <> [DOT] /\ name <> [DOT; DOT]) as (Hs & Hn & _).
  { apply (components_normal p). unfold file_name in Ef.
    destruct (last (components p)) as [[]|] eqn:E; try done. injection Ef as ->. by apply last_Some_elem_of. }
  destruct (stem_of_name name Hs Hn) as [Hs' Hn'].
  unfold path_eqb. case_bool_decide as Hc; [naive_solver|].
  rewrite detect_loop_name; [rewrite shell_file_stem; naive_solver|done|done|].
  pose proof (stem_of_length name) as [Hle Hlt]. destruct (file_name_length p name Ef) as [->|]; [|lia].
  apply Hlt. intros Heq. apply Hc. by rewrite Heq.
Qed.
