(* ===== verification/BashScript.v ===== *)
(** * Shell scripts as lists of commands

    Models [codex-rs/shell-command/src/bash.rs]: the words of a script made of
    plain commands, which exec-policy rules are matched against, and the literal
    commands of any script, which the dangerous-command check scans.  The bash
    grammar is a parameter, [try_parse_shell]. *)

From stdpp Require Import base list numbers option strings sets sorting.
From Stdlib Require Import Lia.
From S2P Require Import Prelude RustStr ByteStr SyntaxTree ShellDetect.

(** ** Words *)

Definition QUOTE2 : char := 34%N.
Definition QUOTE1 : char := 39%N.
Definition BACKSLASH : char := 92%N.

Definition WORD_KINDS : list str := [lit "word"; lit "number"].

(** Braces, [*], [?], brackets, backslash, [~], [^], [#], [$] and the backquote: a
    word with one of them may expand. *)
Definition EXPANSION_CHARS : str := [123; 125; 42; 63; 91; 93; 92; 126; 94; 35; 36; 96]%N.

Definition is_literal_word_or_number (node : Node) (src : str) : bool :=
  mem_str WORD_KINDS (kind node)
  && is_nil (named_children node)
  && is_some_and (utf8_text node src)
       (fun word => negb (starts_with (lit "=") word) && negb (existsb (one_of EXPANSION_CHARS) word)).

(** A backslash before a dollar sign, a backquote, a double quote, a backslash or a newline. *)
Definition ESCAPABLE : str := [36; 96; 34; 92; 10]%N.
Fixpoint has_escape (s : str) : bool :=
  match s with
  | a :: r => match r with
              | b :: _ => ((a =? BACKSLASH)%N && one_of ESCAPABLE b) || has_escape r
              | [] => false
              end
  | [] => false
  end.

(** The text between a delimiter on either side. *)
Definition strip_delimiters (d : char) (raw : str) : option str :=
  match strip_prefix [d] raw with Some text => strip_suffix [d] text | None => None end.

Definition parse_double_quoted_string (node : Node) (src : str) : option str :=
  if negb (is_kind (lit "string") node) then None
  else if negb (forallb (is_kind (lit "string_content")) (named_children node)) then None
  else
    match utf8_text node src with
    | None => None
    | Some raw =>
        match strip_delimiters QUOTE2 raw with
        | None => None
        | Some stripped => if has_escape stripped then None else Some stripped
        end
    end.

Definition parse_raw_string (node : Node) (src : str) : option str :=
  if negb (is_kind (lit "raw_string") node) then None
  else match utf8_text node src with
       | Some raw_string => strip_delimiters QUOTE1 raw_string
       | None => None
       end.

(** [?] inside a loop that pushes one item per element. *)
Fixpoint try_map {A B} (f : A -> option B) (l : list A) : option (list B) :=
  match l with
  | [] => Some []
  | x :: r => match f x with
              | Some y => match try_map f r with Some ys => Some (y :: ys) | None => None end
              | None => None
              end
  end.

Definition non_empty_str (s : str) : option str := if is_nil s then None else Some s.

(** ** Plain commands *)

(** A part of a concatenated argument. *)
Definition plain_part (src : str) (part : Node) : option str :=
  if mem_str WORD_KINDS (kind part) then utf8_text part src
  else if is_kind (lit "string") part then parse_double_quoted_string part src
  else if is_kind (lit "raw_string") part then parse_raw_string part src
  else None.

(** One child of a command. *)
Definition plain_word (src : str) (child : Node) : option str :=
  if is_kind (lit "command_name") child then
    match named_child child 0 with
    | Some word_node => if is_kind (lit "word") word_node then utf8_text word_node src else None
    | None => None
    end
  else if mem_str WORD_KINDS (kind child) then utf8_text child src
  else if is_kind (lit "string") child then parse_double_quoted_string child src
  else if is_kind (lit "raw_string") child then parse_raw_string child src
  else if is_kind (lit "concatenation") child then
    match try_map (plain_part src) (named_children child) with
    | Some parts => non_empty_str (List.concat parts)
    | None => None
    end
  else None.

Definition parse_plain_command_from_node (src : str) (cmd : Node) : option (list str) :=
  if negb (is_kind (lit "command") cmd) then None else try_map (plain_word src) (named_children cmd).

Definition ALLOWED_KINDS : list str :=
  [lit "program"; lit "list"; lit "pipeline"; lit "command"; lit "command_name"; lit "word"; lit "string";
   lit "string_content"; lit "raw_string"; lit "number"; lit "concatenation"].

Definition ALLOWED_PUNCT_TOKENS : list str := [lit "&&"; lit "||"; lit ";"; lit "|"; [QUOTE2]; [QUOTE1]].

(** The checks of the loop on one node; [false] rejects the script. *)
Definition accepts (src : str) (node : Node) : bool :=
  let k := kind node in
  if is_named node then
    mem_str ALLOWED_KINDS k && negb (mem_str WORD_KINDS k && negb (is_literal_word_or_number node src))
  else
    negb (existsb (one_of (lit "&;|")) k && negb (mem_str ALLOWED_PUNCT_TOKENS k))
    && (mem_str ALLOWED_PUNCT_TOKENS k || is_nil (trim k)).

Definition is_command (node : Node) : bool := is_named node && is_kind (lit "command") node.

(** The [while let] loop; the top of the stack is the head of the list. *)
Fixpoint word_only_loop (fuel : nat) (src : str) (stack command_nodes : list Node) : option (list Node) :=
  match stack, fuel with
  | [], _ => Some command_nodes
  | node :: rest, S fuel =>
      if accepts src node then
        word_only_loop fuel src (rev (children node) ++ rest)
          (if is_command node then command_nodes ++ [node] else command_nodes)
      else None
  | _ :: _, O => None
  end.

Definition try_parse_word_only_commands_sequence (tree : Tree) (src : str) : option (list (list str)) :=
  if root_has_error tree then None
  else
    match word_only_loop (size (root_node tree)) src [root_node tree] [] with
    | Some command_nodes => try_map (parse_plain_command_from_node src) (sort_by_key start_byte command_nodes)
    | None => None
    end.

(** ** Literal commands *)

Fixpoint parse_literal_shell_word (node : Node) (src : str) : option str :=
  match node with
  | mkNode k _ _ _ cs =>
      if mem_str WORD_KINDS k && is_literal_word_or_number node src then utf8_text node src
      else if str_eqb k (lit "string") then parse_double_quoted_string node src
      else if str_eqb k (lit "raw_string") then parse_raw_string node src
      else if str_eqb k (lit "concatenation") then
        match (fix parts (l : list Node) : option str :=
                 match l with
                 | [] => Some []
                 | c :: r => if is_named c then
                               match parse_literal_shell_word c src with
                               | Some w => match parts r with Some ws => Some (w ++ ws) | None => None end
                               | None => None
                               end
                             else parts r
                 end) cs with
        | Some concatenated => non_empty_str concatenated
        | None => None
        end
      else None
  end.

(** The loop over the children, the words so far and whether the name was found. *)
Fixpoint literal_words (src : str) (cs : list Node) (words : list str) (found_command_name : bool)
  : option (list str) :=
  match cs with
  | [] => if found_command_name then Some words else None
  | child :: rest =>
      if is_kind (lit "command_name") child then
        match named_child child 0 with
        | Some name_node =>
            match parse_literal_shell_word name_node src with
            | Some command_name => literal_words src rest (words ++ [command_name]) true
            | None => None
            end
        | None => None
        end
      else
        match (if found_command_name then parse_literal_shell_word child src else None) with
        | Some word => literal_words src rest (words ++ [word]) found_command_name
        | None => literal_words src rest words found_command_name
        end
  end.

Definition parse_literal_command_from_node (src : str) (cmd : Node) : option (list str) :=
  if negb (is_kind (lit "command") cmd) then None else literal_words src (named_children cmd) [] false.

Definition literal_command (src : str) (node : Node) : option (list str) :=
  if is_kind (lit "command") node then parse_literal_command_from_node src node else None.

Fixpoint literal_loop (fuel : nat) (src : str) (stack : list Node) (commands : list (list str)) : list (list str) :=
  match stack, fuel with
  | node :: rest, S fuel =>
      literal_loop fuel src (rev (named_children node) ++ rest)
        (match literal_command src node with Some command => commands ++ [command] | None => commands end)
  | _, _ => commands
  end.

Section Scripts.
Variable try_parse_shell : str -> option Tree.

Definition parse_shell_script_into_commands (script : str) : option (list (list str)) :=
  match try_parse_shell script with
  | Some tree => try_parse_word_only_commands_sequence tree script
  | None => None
  end.

(** The script of [bash -lc script] and relatives. *)
Definition extract_bash_command (command : list str) : option (str * str) :=
  match command with
  | [shell; flag; script] =>
      if negb (mem_str [lit "-lc"; lit "-c"] flag)
         || negb (bool_decide (detect_shell_type shell ∈ [Some Zsh; Some Bash; Some Sh]))
      then None else Some (shell, script)
  | _ => None
  end.

Definition parse_shell_lc_plain_commands (command : list str) : option (list (list str)) :=
  match extract_bash_command command with
  | Some (_, script) => parse_shell_script_into_commands script
  | None => None
  end.

Definition parse_shell_lc_literal_commands (command : list str) : option (list (list str)) :=
  match extract_bash_command command with
  | None => None
  | Some (_, script) =>
      match try_parse_shell script with
      | None => None
      | Some tree =>
          let root := root_node tree in
          if root_has_error tree then None else Some (literal_loop (size root) script [root] [])
      end
  end.
End Scripts.

#[local] Arguments one_of : simpl never.

(** ** The loops visit every node *)

Lemma word_only_loop_spec fuel src stack acc :
  stack_size stack <= fuel ->
  word_only_loop fuel src stack acc =
    let l := drain (fun n => rev (children n)) fuel stack in
    if forallb (accepts src) l then Some (acc ++ List.filter is_command l) else None.
Proof.
  revert stack acc. induction fuel as [|fuel IH]; intros [|n stack] acc Hs; simpl; try by rewrite (right_id_L [] (++)).
  - rewrite stack_size_cons, size_children in Hs. lia.
  - destruct (accepts src n); simpl; [|done]. pose proof (kids_rev_children n).
    rewrite IH by (rewrite stack_size_app; rewrite stack_size_cons in Hs; lia). simpl.
    destruct (forallb _ _); [|done]. destruct (is_command n); [by rewrite <- (assoc_L (++))|done].
Qed.

Lemma literal_loop_spec fuel src stack acc :
  stack_size stack <= fuel ->
  literal_loop fuel src stack acc = acc ++ omap (literal_command src) (drain (fun n => rev (named_children n)) fuel stack).
Proof.
  revert stack acc. induction fuel as [|fuel IH]; intros [|n stack] acc Hs; simpl; try by rewrite (right_id_L [] (++)).
  pose proof (kids_rev_named n).
  rewrite IH by (rewrite stack_size_app; rewrite stack_size_cons in Hs; lia).
  destruct (literal_command src n); [by rewrite <- (assoc_L (++))|done].
Qed.

Lemma stack_size_singleton n : stack_size [n] = size n.
Proof. unfold stack_size. simpl. lia. Qed.

Lemma forallb_Permutation {A} (f : A -> bool) l l' : l ≡ₚ l' -> forallb f l = forallb f l'.
Proof. induction 1; simpl; [done|congruence|by destruct (f x), (f y)|congruence]. Qed.

Lemma filter_Permutation {A} (f : A -> bool) (l l' : list A) : l ≡ₚ l' -> List.filter f l ≡ₚ List.filter f l'.
Proof.
  induction 1; simpl; [done|by case_match; [apply perm_skip|]| |by etransitivity].
  destruct (f x), (f y); [apply perm_swap|done..].
Qed.

(** The command nodes begin at increasing offsets, parents before children. *)
Definition commands_in_order (root : Node) : Prop :=
  StronglySorted (fun a b => (start_byte a < start_byte b)%Z) (List.filter is_command (preorder root)).

(** The whole traversal, as one pass over the tree in source order. *)
Definition plain_script (root : Node) (src : str) : option (list (list str)) :=
  if forallb (accepts src) (preorder root)
  then try_map (parse_plain_command_from_node src) (List.filter is_command (preorder root)) else None.

(** Walking the tree with a stack and sorting the commands by their offset
    stops after one step per node and gives the same commands, in source order, as
    one recursive pass; a single node that is not allowed rejects the script. *)
Theorem word_only_commands_in_order (tree : Tree) (src : str) :
  commands_in_order (root_node tree) ->
  try_parse_word_only_commands_sequence tree src =
    if root_has_error tree then None else plain_script (root_node tree) src.
Proof.
  intros Hord. unfold try_parse_word_only_commands_sequence, plain_script. destruct (root_has_error tree); [done|].
  rewrite word_only_loop_spec by (rewrite stack_size_singleton; lia). cbv zeta.
  change (drain _ _ _) with (reach (fun n => rev (children n)) (root_node tree)).
  rewrite (forallb_Permutation _ _ _ (reach_rev_children _)). destruct (forallb _ _); [|done].
  by rewrite (sort_by_key_unique start_byte _ (List.filter is_command (preorder (root_node tree))));
    [|apply filter_Permutation, reach_rev_children|].
Qed.

(** Every command below the root through named nodes is reported with the words
    of it that are literal. *)
Lemma literal_commands_complete src root words :
  words ∈ literal_loop (size root) src [root] [] <->
  exists node, named_below root node /\ literal_command src node = Some words.
Proof.
  rewrite literal_loop_spec by (rewrite stack_size_singleton; lia). simpl.
  change (drain _ _ _) with (reach (fun n => rev (named_children n)) root).
  rewrite list_elem_of_omap. by setoid_rewrite reach_rev_named.
Qed.

(** ** What the shell makes of a word *)

Inductive Quoting := Unquoted | SingleQuoted | DoubleQuoted.

(** Blanks and operators end an unquoted word. *)
Definition METACHARS : str := [32; 9; 10; 124; 38; 59; 60; 62; 40; 41]%N.

(** What the shells expand or remove in an unquoted word, as their manuals list it,
    and not as the program does: parameter and command substitution, the escape
    character, pathname patterns, brace and tilde expansion, comments, and the
    operators Zsh adds to patterns. *)
Definition SUBSTITUTION : str := lit "$`".
Definition ESCAPE : str := lit "\".
Definition PATTERN : str := lit "*?[".
Definition BRACE : str := lit "{".
Definition TILDE : str := lit "~".
Definition COMMENT : str := lit "#".
Definition ZSH_PATTERN : str := lit "^#~".
Definition ACTIVE : str := SUBSTITUTION ++ ESCAPE ++ PATTERN ++ BRACE ++ TILDE ++ COMMENT ++ ZSH_PATTERN.

(** The characters before which a backslash is removed within double quotes. *)
Definition QUOTED_ESCAPES : str := lit "$`\" ++ [QUOTE2; LF].

(** The program's lists cover them. *)
Lemma expansion_chars_cover : forallb (one_of EXPANSION_CHARS) ACTIVE = true.
Proof. reflexivity. Qed.

Lemma escapable_covers : forallb (one_of ESCAPABLE) QUOTED_ESCAPES = true.
Proof. reflexivity. Qed.

Lemma covered (listed : str) (active : str) c : forallb (one_of listed) active = true -> one_of listed c = false -> one_of active c = false.
Proof.
  intros Hf Hc. apply not_true_iff_false. rewrite one_of_spec. intros Hin%list_elem_of_In.
  rewrite forallb_forall in Hf. by rewrite (Hf c Hin) in Hc.
Qed.

(** Quote removal on a word in which nothing is expanded; [None] when the text
    ends within quotes or something in it would be expanded, removed or end it. *)
Fixpoint shell_word (q : Quoting) (s : str) : option str :=
  match s with
  | [] => match q with Unquoted => Some [] | _ => None end
  | c :: r =>
      match q with
      | Unquoted =>
          if (c =? QUOTE1)%N then shell_word SingleQuoted r
          else if (c =? QUOTE2)%N then shell_word DoubleQuoted r
          else if one_of ACTIVE c || one_of METACHARS c then None
          else option_map (cons c) (shell_word Unquoted r)
      | SingleQuoted =>
          if (c =? QUOTE1)%N then shell_word Unquoted r else option_map (cons c) (shell_word SingleQuoted r)
      | DoubleQuoted =>
          if (c =? QUOTE2)%N then shell_word Unquoted r
          else if one_of SUBSTITUTION c then None
          else if (c =? BACKSLASH)%N && match r with d :: _ => one_of QUOTED_ESCAPES d | [] => true end then None
          else option_map (cons c) (shell_word DoubleQuoted r)
      end
  end.

(** The argument a word of the source stands for; a leading [=] expands in Zsh. *)
Definition shell_argument (text : str) : option str :=
  if starts_with (lit "=") text then None else shell_word Unquoted text.

Lemma shell_word_app q a b w :
  shell_word q a = Some w -> shell_word q (a ++ b) = option_map (app w) (shell_word Unquoted b).
Proof.
  revert q w. induction a as [|c a IH]; intros q w; simpl.
  - destruct q; intros [= <-]. by destruct (shell_word Unquoted b).
  - assert (forall q', option_map (cons c) (shell_word q' a) = Some w ->
      option_map (cons c) (shell_word q' (a ++ b)) = option_map (app w) (shell_word Unquoted b)) as Hc.
    { intros q'. destruct (shell_word q' a) as [x|] eqn:E; [|done]. intros [= <-].
      rewrite (IH _ _ E). by destruct (shell_word Unquoted b). }
    destruct q.
    + destruct (c =? QUOTE1)%N; [apply IH|]. destruct (c =? QUOTE2)%N; [apply IH|]. destruct (_ || _); [done|apply Hc].
    + destruct (c =? QUOTE1)%N; [apply IH|apply Hc].
    + destruct (c =? QUOTE2)%N; [apply IH|]. destruct (one_of SUBSTITUTION c); [done|].
      destruct a as [|d a]; simpl app.
      * intros H. exfalso. destruct (_ && _); simpl in H; done.
      * destruct (_ && _); [done|apply Hc].
Qed.

Lemma shell_word_single x s :
  QUOTE1 ∉ x -> shell_word SingleQuoted (x ++ QUOTE1 :: s) = option_map (app x) (shell_word Unquoted s).
Proof.
  induction x as [|c x IH]; intros Hx; simpl; [by destruct (shell_word Unquoted s)|].
  apply not_elem_of_cons in Hx as [? ?]. destruct (N.eqb_spec c QUOTE1); [done|]. rewrite IH by done.
  by destruct (shell_word Unquoted s).
Qed.

(** The inside of a double-quoted string as a tokeniser delimits it: [$], the
    backquote and the double quote only after a backslash. *)
Fixpoint dq_body (x : str) : bool :=
  match x with
  | [] => true
  | c :: r =>
      if (c =? BACKSLASH)%N then match r with [] => false | _ :: r' => dq_body r' end
      else negb (one_of [36; 96; 34]%N c) && dq_body r
  end.

Lemma has_escape_cons c x : has_escape (c :: x) = false -> has_escape x = false.
Proof. destruct x as [|d x]; [done|]. intros H. change (has_escape (c :: d :: x)) with (((c =? BACKSLASH)%N && one_of ESCAPABLE d) || has_escape (d :: x)) in H. by apply orb_false_iff in H as [_ ?]. Qed.

(** Without escapes that are removed, none of the three occurs at all. *)
Lemma dq_body_plain x :
  dq_body x = true -> has_escape x = false ->
  Forall (fun c => one_of [36; 96; 34]%N c = false) x /\ last x <> Some BACKSLASH.
Proof.
  remember (length x) as n eqn:En. revert x En. induction (lt_wf n) as [n _ IH]. intros x -> Hb He.
  destruct x as [|c x]; [done|]. simpl in Hb. destruct (N.eqb_spec c BACKSLASH) as [->|Hc].
  - destruct x as [|d x]; [done|].
    pose proof He as Hd. change (has_escape (BACKSLASH :: d :: x)) with (one_of ESCAPABLE d || has_escape (d :: x)) in Hd.
    apply orb_false_iff in Hd as [Hd He']. apply has_escape_cons in He'.
    destruct (IH (length x) ltac:(simpl; lia) x eq_refl Hb He') as [Hx Hl].
    assert (d <> 36 /\ d <> 96 /\ d <> 34 /\ d <> 92)%N as Hne.
    { rewrite <- not_true_iff_false, one_of_spec in Hd. unfold ESCAPABLE in Hd. set_solver. }
    split; [constructor; [done|constructor; [|done]]|].
    + apply not_true_iff_false. rewrite one_of_spec. set_solver.
    + destruct x as [|e x]; [simpl; intros [= ->]; unfold BACKSLASH in *; naive_solver|done].
  - apply andb_true_iff in Hb as [Hc'%negb_true_iff Hb].
    destruct (IH (length x) ltac:(simpl; lia) x eq_refl Hb (has_escape_cons _ _ He)) as [Hx Hl].
    split; [by constructor|]. destruct x; [simpl; congruence|done].
Qed.

Lemma shell_word_double x s :
  dq_body x = true -> has_escape x = false ->
  shell_word DoubleQuoted (x ++ QUOTE2 :: s) = option_map (app x) (shell_word Unquoted s).
Proof.
  intros Hb He. destruct (dq_body_plain x Hb He) as [Hx Hl]. clear Hb.
  induction Hx as [|c x Hc Hx IH]; simpl; [by destruct (shell_word Unquoted s)|].
  assert (c <> 36 /\ c <> 96 /\ c <> 34)%N as Hne by (rewrite <- not_true_iff_false, one_of_spec in Hc; set_solver).
  destruct (N.eqb_spec c QUOTE2) as [->|_]; [unfold QUOTE2 in *; naive_solver|].
  assert (one_of SUBSTITUTION c = false) as ->.
  { change SUBSTITUTION with [36; 96]%N. apply not_true_iff_false. rewrite one_of_spec. set_solver. }
  assert ((c =? BACKSLASH)%N && match x ++ QUOTE2 :: s with d :: _ => one_of QUOTED_ESCAPES d | [] => true end = false) as ->.
  { destruct (N.eqb_spec c BACKSLASH) as [->|]; [|done]. destruct x as [|d x]; [done|].
    change (has_escape (BACKSLASH :: d :: x)) with (one_of ESCAPABLE d || has_escape (d :: x)) in He.
    apply orb_false_iff in He as [He _]. simpl. apply (covered ESCAPABLE); [exact escapable_covers|done]. }
  rewrite IH; [by destruct (shell_word Unquoted s)|by eapply has_escape_cons|by destruct x].
Qed.

(** ** Reported words are the arguments the shell passes *)

(** How a bash tokeniser delimits the tokens of a tree (the documented grammar). *)
Record tokenised (src : str) (n : Node) : Prop := {
  word_tokens : kind n ∈ WORD_KINDS -> forall t, utf8_text n src = Some t ->
    Forall (fun c => c <> QUOTE1 /\ c <> QUOTE2 /\ c ∉ METACHARS) t;
  raw_tokens : kind n = lit "raw_string" -> forall t, utf8_text n src = Some t ->
    exists x, t = [QUOTE1] ++ x ++ [QUOTE1] /\ QUOTE1 ∉ x;
  string_children : kind n = lit "string" -> forall c, c ∈ children n -> is_named c = false ->
    kind c ∈ [[QUOTE2]; lit "$"];
  string_tokens : kind n = lit "string" ->
    Forall (fun c => kind c ∈ [[QUOTE2]; lit "string_content"]) (children n) ->
    forall t, utf8_text n src = Some t -> exists x, t = [QUOTE2] ++ x ++ [QUOTE2] /\ dq_body x = true;
  concat_children : kind n = lit "concatenation" -> forall c, c ∈ children n -> is_named c = false ->
    kind c ∉ ALLOWED_PUNCT_TOKENS /\ trim (kind c) <> [];
  concat_text : kind n = lit "concatenation" ->
    exists ts, Forall2 (fun c t => utf8_text c src = Some t) (children n) ts /\ utf8_text n src = Some (List.concat ts) }.

(** The node that spells a word of a command. *)
Definition word_node (child : Node) : option Node :=
  if is_kind (lit "command_name") child then named_child child 0 else Some child.

Definition word_source (src : str) (child : Node) : option str :=
  match word_node child with Some n => utf8_text n src | None => None end.

Lemma try_map_Some {A B} (f : A -> option B) l ys : try_map f l = Some ys <-> Forall2 (fun x y => f x = Some y) l ys.
Proof.
  revert ys. induction l as [|x l IH]; intros ys; simpl.
  - split; [by intros [= <-]|by inversion 1].
  - split.
    + destruct (f x) eqn:E; [|done]. destruct (try_map f l) eqn:E'; [|done]. intros [= <-]. constructor; [done|by apply IH].
    + inversion 1 as [|? y ? ys' Hy H2]; subst. rewrite Hy. by apply IH in H2 as ->.
Qed.

Lemma Forall2_elem_impl {A B} (P Q : A -> B -> Prop) l k :
  Forall2 P l k -> (forall x y, x ∈ l -> P x y -> Q x y) -> Forall2 Q l k.
Proof. induction 1 as [|x y l k Hxy _ IH]; intros H; constructor; [apply H; [by left|done]|]. apply IH. intros. apply H; [by right|done]. Qed.

Lemma strip_delimiters_Some d raw s : strip_delimiters d raw = Some s <-> raw = [d] ++ s ++ [d].
Proof.
  unfold strip_delimiters. split.
  - destruct (strip_prefix [d] raw) as [t|] eqn:E; [|done]. apply strip_prefix_Some in E as ->.
    by intros ->%strip_suffix_Some.
  - intros ->. rewrite strip_prefix_app. apply strip_suffix_app.
Qed.

Lemma shell_word_bare t :
  existsb (one_of EXPANSION_CHARS) t = false -> Forall (fun c => c <> QUOTE1 /\ c <> QUOTE2 /\ c ∉ METACHARS) t ->
  shell_word Unquoted t = Some t.
Proof.
  intros He. induction 1 as [|c t (H1 & H2 & H3) Ht IH]; [done|]. simpl in He. apply orb_false_iff in He as [Hc He].
  simpl. destruct (N.eqb_spec c QUOTE1); [done|]. destruct (N.eqb_spec c QUOTE2); [done|].
  rewrite (covered EXPANSION_CHARS ACTIVE c expansion_chars_cover Hc).
  assert (one_of METACHARS c = false) as -> by (apply not_true_iff_false; by rewrite one_of_spec).
  simpl. by rewrite IH.
Qed.

Lemma not_starts_eq_app a b :
  starts_with (lit "=") a = false -> starts_with (lit "=") b = false -> starts_with (lit "=") (a ++ b) = false.
Proof.
  destruct a as [|c a]; [done|]. intros H _. change (lit "=") with [61%N] in *. unfold starts_with in *. simpl in *.
  by destruct (match c with 0%N => false | N.pos q => (61 =? q)%positive end).
Qed.

Section Literal.
Context (src : str) (root : Node).
Hypothesis accepted : forall n, n ∈ preorder root -> accepts src n = true.
Hypothesis tokens : forall n, n ∈ preorder root -> tokenised src n.

(** The source of [n] stands for the argument [w], wherever it is put in a word. *)
Definition spells (n : Node) (w : str) : Prop :=
  exists t, utf8_text n src = Some t /\ shell_word Unquoted t = Some w /\ starts_with (lit "=") t = false.

Lemma word_spells n w :
  n ∈ preorder root -> is_named n = true -> mem_str WORD_KINDS (kind n) = true -> utf8_text n src = Some w -> spells n w.
Proof.
  intros Hin Hn Hk Ht. pose proof (accepted n Hin) as Ha. unfold accepts in Ha. rewrite Hn, Hk in Ha. simpl in Ha.
  apply andb_true_iff in Ha as [_ Ha]. rewrite negb_involutive in Ha. unfold is_literal_word_or_number in Ha.
  rewrite Ht in Ha. simpl in Ha. apply andb_true_iff in Ha as [_ [Heq%negb_true_iff Hex%negb_true_iff]%andb_true_iff].
  exists w. split_and!; [done| |done]. apply shell_word_bare; [done|].
  eapply word_tokens; [by apply tokens|by apply mem_str_spec|done].
Qed.

Lemma string_spells n w : n ∈ preorder root -> parse_double_quoted_string n src = Some w -> spells n w.
Proof.
  intros Hin. unfold parse_double_quoted_string. destruct (is_kind (lit "string") n) eqn:Hk; [|done].
  apply is_kind_true in Hk. simpl. destruct (forallb _ _) eqn:Hf; [|done]. simpl.
  destruct (utf8_text n src) as [raw|] eqn:Ht; [|done]. destruct (strip_delimiters QUOTE2 raw) as [s|] eqn:Es; [|done].
  apply strip_delimiters_Some in Es. destruct (has_escape s) eqn:Hesc; [done|]. intros [= <-].
  destruct (string_tokens src n (tokens n Hin) Hk) with (t := raw) as (x & Hx & Hb); [|done|].
  { apply Forall_forall. intros c Hc. destruct (is_named c) eqn:Hnc.
    - rewrite forallb_forall in Hf. specialize (Hf c). rewrite <- list_elem_of_In, elem_of_named_children in Hf.
      specialize (Hf (conj Hc Hnc)). apply is_kind_true in Hf as ->. set_solver.
    - pose proof (string_children src n (tokens n Hin) Hk c Hc Hnc) as Hkc.
      apply elem_of_cons in Hkc as [->|Hkc%list_elem_of_singleton]; [by left|]. exfalso.
      pose proof (accepted c (preorder_child _ _ _ Hin Hc)) as Ha. unfold accepts in Ha. rewrite Hnc, Hkc in Ha.
      vm_compute in Ha. done. }
  assert (x = s) as -> by (rewrite Es in Hx; injection Hx; by intros ?%app_inj_tail_iff; naive_solver).
  exists raw. split_and!; [done| |by rewrite Es]. rewrite Es. simpl. rewrite shell_word_double by done. simpl. by rewrite (right_id_L [] (++)).
Qed.

Lemma raw_spells n w : n ∈ preorder root -> parse_raw_string n src = Some w -> spells n w.
Proof.
  intros Hin. unfold parse_raw_string. destruct (is_kind (lit "raw_string") n) eqn:Hk; [|done].
  apply is_kind_true in Hk. simpl. destruct (utf8_text n src) as [raw|] eqn:Ht; [|done].
  intros Es%strip_delimiters_Some. destruct (raw_tokens src n (tokens n Hin) Hk raw Ht) as (x & Hx & Hq).
  assert (x = w) as -> by (rewrite Es in Hx; injection Hx; by intros ?%app_inj_tail_iff; naive_solver).
  exists raw. split_and!; [done| |by rewrite Es]. rewrite Es. simpl. rewrite shell_word_single by done. simpl. by rewrite (right_id_L [] (++)).
Qed.

Lemma part_spells n w : n ∈ preorder root -> is_named n = true -> plain_part src n = Some w -> spells n w.
Proof.
  intros Hin Hn. unfold plain_part. destruct (mem_str WORD_KINDS (kind n)) eqn:Ew; [by apply word_spells|].
  destruct (is_kind (lit "string") n); [by apply string_spells|].
  destruct (is_kind (lit "raw_string") n); [by apply raw_spells|done].
Qed.

Lemma concat_spells ns ts ws :
  Forall2 (fun c t => utf8_text c src = Some t) ns ts -> Forall2 spells ns ws ->
  shell_word Unquoted (List.concat ts) = Some (List.concat ws) /\ starts_with (lit "=") (List.concat ts) = false.
Proof.
  intros Ht. revert ws. induction Ht as [|n t ns ts Hnt Ht IH]; intros ws Hw; inversion Hw as [|? w ? ws' (t' & Et & Hs & He) Hws]; subst; [done|].
  destruct (IH ws' Hws) as [IH1 IH2]. rewrite Et in Hnt. injection Hnt as ->. simpl.
  rewrite (shell_word_app Unquoted t _ w Hs), IH1. split; [done|by apply not_starts_eq_app].
Qed.

Lemma plain_word_spells child w :
  child ∈ preorder root -> is_named child = true -> plain_word src child = Some w ->
  exists t, word_source src child = Some t /\ shell_argument t = Some w.
Proof.
  intros Hin Hn Hw. cut (exists n, word_node child = Some n /\ spells n w).
  { intros (n & Hnode & t & Ht & Hs & He). exists t. unfold word_source, shell_argument. rewrite Hnode. by rewrite He. }
  revert Hw. unfold plain_word, word_node. destruct (is_kind (lit "command_name") child) eqn:Ecn.
  { destruct (named_child child 0) as [m|] eqn:Em; [|done]. destruct (is_kind (lit "word") m) eqn:Ek; [|done]. intros Ht.
    exists m. split; [done|]. apply list_elem_of_lookup_2, elem_of_named_children in Em as [Hm Hnm].
    apply word_spells; [by eapply preorder_child|done| |done]. apply is_kind_true in Ek as ->. done. }
  intros Hw. exists child. split; [done|]. revert Hw.
  destruct (mem_str WORD_KINDS (kind child)) eqn:Ew; [by apply word_spells|].
  destruct (is_kind (lit "string") child); [by apply string_spells|].
  destruct (is_kind (lit "raw_string") child); [by apply raw_spells|].
  destruct (is_kind (lit "concatenation") child) eqn:Ek; [|done]. apply is_kind_true in Ek.
  assert (forall c, c ∈ children child -> is_named c = true) as Hall.
  { intros c Hc. destruct (is_named c) eqn:Hnc; [done|]. exfalso.
    destruct (concat_children src child (tokens child Hin) Ek c Hc Hnc) as [H1 H2].
    pose proof (accepted c (preorder_child _ _ _ Hin Hc)) as Ha. unfold accepts in Ha. rewrite Hnc in Ha.
    apply andb_true_iff in Ha as [_ [H%mem_str_spec|H%is_nil_true]%orb_true_iff]; done. }
  assert (named_children child = children child) as ->.
  { unfold named_children. apply forallb_filter_id, forallb_forall. intros c Hc%list_elem_of_In. by apply Hall. }
  destruct (try_map (plain_part src) (children child)) as [parts|] eqn:Ep; [|done].
  apply try_map_Some in Ep. unfold non_empty_str. destruct (is_nil (List.concat parts)); [done|]. intros [= <-].
  destruct (concat_text src child (tokens child Hin) Ek) as (ts & Hts & Htext).
  exists (List.concat ts). split; [done|]. apply (concat_spells (children child)); [done|].
  apply (Forall2_elem_impl _ _ _ _ Ep). intros c p Hc Hp.
  apply part_spells; [by eapply preorder_child|by apply Hall|done].
Qed.
End Literal.


(** ** Evaluation *)

Definition sample_script : str := lit "rg -g" ++ [QUOTE2] ++ lit "*.py" ++ [QUOTE2] ++ lit " 'a b' && ls".

Definition leaf (k : str) (s e : Z) : Node := mkNode k true s e [].
Definition token (k : str) (s e : Z) : Node := mkNode k false s e [].

Definition sample_tree : Tree :=
  let glob := mkNode (lit "string") true 5 11 [token [QUOTE2] 5 6; leaf (lit "string_content") 6 10; token [QUOTE2] 10 11] in
  let rg := mkNode (lit "command") true 0 17
    [mkNode (lit "command_name") true 0 2 [leaf (lit "word") 0 2];
     mkNode (lit "concatenation") true 3 11 [leaf (lit "word") 3 5; glob]; leaf (lit "raw_string") 12 17] in
  let ls := mkNode (lit "command") true 21 23 [mkNode (lit "command_name") true 21 23 [leaf (lit "word") 21 23]] in
  mkTree (mkNode (lit "program") true 0 23 [mkNode (lit "list") true 0 23 [rg; token (lit "&&") 18 20; ls]]) false.

Definition sample_commands : list (list str) := [[lit "rg"; lit "-g*.py"; lit "a b"]; [lit "ls"]].

Ltac kind_clash := let H := fresh in intros H; exfalso; revert H; vm_compute; intros H; set_unfold; naive_solver.

Lemma sample_tokenised : forall n, n ∈ preorder (root_node sample_tree) -> tokenised sample_script n.
Proof.
  apply Forall_forall. unfold sample_tree, leaf, token. simpl.
  repeat match goal with |- Forall _ (_ :: _) => constructor | |- Forall _ [] => constructor end.
  all: constructor; simpl; try kind_clash.
  all: try (intros _ ? [= <-]; vm_compute; repeat constructor; set_unfold; naive_solver).
  - intros _ c Hc. repeat (apply elem_of_cons in Hc as [->|Hc]); simpl; try done; [set_solver..|by apply elem_of_nil in Hc].
  - intros _. exists [lit "-g"; [QUOTE2] ++ lit "*.py" ++ [QUOTE2]]. split; [repeat constructor|done].
  - intros _ c Hc. repeat (apply elem_of_cons in Hc as [->|Hc]); simpl; try done; [set_solver..|by apply elem_of_nil in Hc].
  - intros _ _ ? [= <-]. exists (lit "*.py"). done.
  - intros _ ? [= <-]. exists (lit "a b"). split; [done|]. vm_compute. intros H. set_unfold. naive_solver.
Qed.


Lemma word_only_commands_in_order_witness :
  plain_script (root_node sample_tree) sample_script = Some sample_commands
  /\ try_parse_word_only_commands_sequence sample_tree sample_script = plain_script (root_node sample_tree) sample_script.
Proof.
  split; [vm_compute; reflexivity|].
  apply (word_only_commands_in_order sample_tree sample_script).
  unfold commands_in_order. simpl. repeat constructor; simpl; lia.
Defined.
