(* ===== verification/PowerShell.v ===== *)
(** * PowerShell scripts as lists of commands

    Models [codex-rs/shell-command/src/command_safety/powershell_tree_sitter.rs] and
    the unwrapping of PowerShell invocations in [powershell.rs].  The PowerShell
    grammar is a parameter, [parse] (no tree when the grammar does not load).  Scripts are read by byte offsets; [None]
    stands for the panic of a slice off a character boundary.  Which error stops a
    lowering is kept as a constructor; callers only see that there is one. *)

From stdpp Require Import base list numbers option strings sets.
From Stdlib Require Import Lia.
From S2P Require Import Prelude RustStr ByteStr SyntaxTree ShellDetect StreamText BashScript.

#[local] Open Scope Z_scope.

Inductive LowerError :=
| UnicodeAlias | NoTree | TreeError | RequiresDirective | UnrecognizedKind (kind : str)
| NoCommands | CommandNotUtf8 | SourceOutside | UsingDeclaration | EmptyLowered
| AdjacentElements | EmptyWord | NoWords | UnterminatedSingle | UnterminatedDouble | VariableSyntax
| TrailingEscape | VersionDependentEscape | UnicodeEscape | StructuralCharacter (c : char)
| EmptyBareWord | AttachedParameter | NonCanonicalNumber.

Definition BACKTICK : char := 96%N.
Definition DOLLAR : char := 36%N.
Definition HASH : char := 35%N.
Definition EQUALS : char := 61%N.

(** ** Words of a command *)

(** Dollar, at sign, quotes, brackets of all kinds, [;], [|], [&], [>], [<] and the comma. *)
Definition REJECTED_BARE : str := [36; 64; 39; 34; 40; 41; 123; 125; 91; 93; 59; 124; 38; 62; 60; 44]%N.
Definition is_rejected_bare_character (ch : char) : bool := one_of REJECTED_BARE ch.

Definition decode_backtick_escape (ch : char) : char :=
  match ch with
  | 48 => 0 | 97 => 7 | 98 => 8 | 102 => 12 | 110 => 10 | 114 => 13 | 116 => 9 | 118 => 11
  | other => other
  end%N.

(** The text after the opening quote: the value and what follows the closing one. *)
Fixpoint parse_single_quoted (chars value : str) : result (str * str) LowerError :=
  match chars with
  | [] => Err UnterminatedSingle
  | c :: r =>
      if (c =? QUOTE1)%N then
        match r with
        | d :: r' => if (d =? QUOTE1)%N then parse_single_quoted r' (value ++ [QUOTE1]) else Ok (value, r)
        | [] => Ok (value, r)
        end
      else parse_single_quoted r (value ++ [c])
  end.

Fixpoint parse_double_quoted (chars value : str) : result (str * str) LowerError :=
  match chars with
  | [] => Err UnterminatedDouble
  | c :: r =>
      if (c =? QUOTE2)%N then Ok (value, r)
      else if (c =? DOLLAR)%N then Err VariableSyntax
      else if (c =? BACKTICK)%N then
        match r with
        | [] => Err TrailingEscape
        | escaped :: r' =>
            if (escaped =? 101)%N then Err VersionDependentEscape
            else if (escaped =? 117)%N && match r' with d :: _ => (d =? 123)%N | [] => false end
            then Err UnicodeEscape
            else parse_double_quoted r' (value ++ [decode_backtick_escape escaped])
        end
      else parse_double_quoted r (value ++ [c])
  end.

Definition bare_value (value rest : str) : result (str * str) LowerError :=
  if is_nil value then Err EmptyBareWord else Ok (value, rest).

Fixpoint parse_bare_word (chars value : str) : result (str * str) LowerError :=
  match chars with
  | [] => bare_value value chars
  | c :: r =>
      if is_whitespace c then bare_value value chars
      else if (c =? BACKTICK)%N then
        match r with
        | [] => Err TrailingEscape
        | escaped :: r' =>
            if (escaped =? 101)%N then Err VersionDependentEscape
            else parse_bare_word r' (value ++ [decode_backtick_escape escaped])
        end
      else if is_rejected_bare_character c then Err (StructuralCharacter c)
      else parse_bare_word r (value ++ [c])
  end.

Definition reject_unsupported_bare_word (word : str) : result unit LowerError :=
  if starts_with (lit "-") word && negb (starts_with (lit "--") word) && contains_char 58%N word
  then Err AttachedParameter
  else if is_some_and (head word) is_ascii_digit
          && negb (str_eqb word (lit "0") || (negb (starts_with (lit "0") word) && forallb is_ascii_digit word))
  then Err NonCanonicalNumber
  else Ok tt.

(** One element of a command: its value, what follows, and whether it was bare. *)
Definition parse_element (c : char) (r : str) : result (str * str * bool) LowerError :=
  if (c =? QUOTE1)%N then let? w := parse_single_quoted r [] in Ok (w, false)
  else if (c =? QUOTE2)%N then let? w := parse_double_quoted r [] in Ok (w, false)
  else let? w := parse_bare_word (c :: r) [] in Ok (w, true).

Definition adjacent (next : str) : bool :=
  match next with d :: _ => negb (is_whitespace d) && negb (d =? HASH)%N | [] => false end.

(** The loop over the elements; every element takes at least one character. *)
Fixpoint lower_loop (fuel : nat) (chars : str) (words : list str) : result (list str) LowerError :=
  match fuel with
  | O => Err NoWords
  | S fuel =>
      match drop_while is_whitespace chars with
      | [] => Ok words
      | c :: r =>
          if (c =? HASH)%N then Ok words
          else
            let? e := parse_element c r in
            let '(word, next, is_bare) := e in
            if adjacent next then Err AdjacentElements
            else if is_nil word then Err EmptyWord
            else
              try? (if (is_bare : bool) then reject_unsupported_bare_word word else Ok tt) in
              lower_loop fuel next (words ++ [word])
      end
  end.

Definition lower_command_text (command_text : str) : result (list str) LowerError :=
  let chars := trim command_text in
  let? words := lower_loop (S (length chars)) chars [] in
  if is_nil words then Err NoWords else Ok words.

(** ** Masking [--flag=value] *)

Definition is_inline_parameter_token_separator (ch : char) : bool := is_whitespace ch || one_of (lit "|&;#><(){}") ch.

Definition is_rejected_inline_parameter_character (ch : char) : bool :=
  is_whitespace ch || is_rejected_bare_character ch || one_of [BACKTICK; HASH] ch.

(** [token] is the source from offset [start] to the end of the token. *)
Definition push_inline_parameter_equals (equals : list Z) (token : str) (start : Z) : list Z :=
  if starts_with (lit "--") token && forallb (fun ch => negb (is_rejected_inline_parameter_character ch)) token then
    match split_once EQUALS token with
    | Some (before, after) =>
        let relative_equals := byte_len before in
        if (2 <? relative_equals) && (relative_equals + 1 <? byte_len token) then equals ++ [start + relative_equals]
        else equals
    | None => equals
    end
  else equals.

Fixpoint inline_scan (s : str) (index start : Z) (token : str) (equals : list Z) : list Z :=
  match s with
  | [] => push_inline_parameter_equals equals token start
  | ch :: r =>
      let next := index + len_utf8 ch in
      if is_inline_parameter_token_separator ch
      then inline_scan r next next [] (push_inline_parameter_equals equals token start)
      else inline_scan r next start (token ++ [ch]) equals
  end.

Definition inline_double_dash_parameter_equals (script : str) : list Z := inline_scan script 0 0 [] [].

(** The characters at the given offsets become spaces (one byte for one byte). *)
Fixpoint mask (s : str) (index : Z) (offsets : list Z) : str :=
  match s with
  | [] => []
  | ch :: r => (if bool_decide (index ∈ offsets) then SPACE else ch) :: mask r (index + len_utf8 ch) offsets
  end.

(** ** Walks of the tree *)

Definition ALLOWED_NAMED_KINDS : list str :=
  [lit "program"; lit "statement_list"; lit "pipeline"; lit "pipeline_chain"; lit "pipeline_chain_tail"; lit "command";
   lit "command_name"; lit "command_elements"; lit "command_argument_sep"; lit "command_parameter"; lit "generic_token";
   lit "array_literal_expression"; lit "unary_expression"; lit "string_literal"; lit "verbatim_string_characters";
   lit "expandable_string_literal"; lit "integer_literal"; lit "decimal_integer_literal"; lit "comment";
   lit "empty_statement"; lit "expression_with_unary_operator"].
Definition is_allowed_named_kind (k : str) : bool := mem_str ALLOWED_NAMED_KINDS k.

Definition is_requires (script : str) (node : Node) : bool :=
  is_kind (lit "comment") node
  && is_some_and (utf8_text node script) (fun comment => starts_with (lit "#requires") (to_ascii_lowercase (trim_start comment))).

Fixpoint has_requires_loop (fuel : nat) (script : str) (stack : list Node) : bool :=
  match stack, fuel with
  | node :: rest, S fuel =>
      if is_requires script node then true
      else has_requires_loop fuel script (rev (named_children node) ++ rest)
  | _, _ => false
  end.
Definition has_requires_directive (root : Node) (script : str) : bool := has_requires_loop (size root) script [root].

Fixpoint first_unrecognized_loop (fuel : nat) (stack : list Node) : option str :=
  match stack, fuel with
  | node :: rest, S fuel =>
      if is_named node && negb (is_allowed_named_kind (kind node)) then Some (kind node)
      else first_unrecognized_loop fuel (rev (named_children node) ++ rest)
  | _, _ => None
  end.
Definition first_unrecognized_named_kind (root : Node) : option str := first_unrecognized_loop (size root) [root].

Fixpoint collect_loop (fuel : nat) (stack commands : list Node) : list Node :=
  match stack, fuel with
  | node :: rest, S fuel =>
      if is_kind (lit "command") node then collect_loop fuel rest (commands ++ [node])
      else collect_loop fuel (named_children node ++ rest) commands
  | _, _ => commands
  end.
Definition collect_command_nodes (root : Node) : list Node := collect_loop (size root) [root] [].

(** ** Source outside the commands *)

(** The variables of the loop of [source_is_covered_by_commands]; the ranges still
    to come stand for [range_index]. *)
Record Cover := mkCover {
  index : Z;
  ranges : list (Z * Z);
  can_chain : bool;
  needs_command : bool;
  paren_depth : Z }.

(** Whether a comment may start here: at the beginning, after a blank or a [;]. *)
Definition at_token_boundary (before : str) : bool :=
  is_nil before || is_some_and (last before) (fun previous => is_whitespace previous || (previous =? 59)%N).

(** The offset of the next line break, from [next] on, or the end. *)
Fixpoint line_rest (s : str) : Z :=
  match s with
  | [] => 0
  | c :: r => if (c =? CR)%N || (c =? LF)%N then 0 else len_utf8 c + line_rest r
  end.

Inductive Step := Continue (c : Cover) | Reject.

(** The checks on the character at [index c], between [before] and [rest]. *)
Definition cover_char (c : Cover) (before : str) (ch : char) (rest : str) : Step :=
  let next := index c + len_utf8 ch in
  if (ch =? CR)%N || (ch =? LF)%N then Continue (mkCover next (ranges c) false (needs_command c) (paren_depth c))
  else if is_whitespace ch then Continue (mkCover next (ranges c) (can_chain c) (needs_command c) (paren_depth c))
  else if (ch =? 59)%N then
    if needs_command c then Reject
    else Continue (mkCover next (ranges c) false (needs_command c) (paren_depth c))
  else if (ch =? 40)%N && negb (can_chain c) then
    Continue (mkCover next (ranges c) (can_chain c) (needs_command c) (paren_depth c + 1))
  else if (ch =? 41)%N && (0 <? paren_depth c) && negb (needs_command c) then
    Continue (mkCover next (ranges c) (can_chain c) (needs_command c) (paren_depth c - 1))
  else if (ch =? 124)%N && can_chain c then
    Continue (mkCover (if starts_with (lit "|") rest then next + 1 else next) (ranges c) false true (paren_depth c))
  else if (ch =? 38)%N && can_chain c && starts_with (lit "&") rest then
    Continue (mkCover (next + 1) (ranges c) false true (paren_depth c))
  else if (ch =? HASH)%N && negb (needs_command c) then
    if negb (at_token_boundary before) then Reject
    else Continue (mkCover (next + line_rest rest) (ranges c) (can_chain c) (needs_command c) (paren_depth c))
  else if starts_with (lit "<#") (ch :: rest) && negb (needs_command c) && at_token_boundary before then
    match find (lit "#>") rest with
    | None => Reject
    | Some end_ =>
        Continue (mkCover (next + byte_len (take end_ rest) + 2) (ranges c) (can_chain c) (needs_command c) (paren_depth c))
    end
  else Reject.

(** The command that starts at [index], with the ranges after it. *)
Definition command_here (c : Cover) : option (Z * list (Z * Z)) :=
  match ranges c with
  | (s, e) :: later => if index c =? s then Some (e, later) else None
  | [] => None
  end.

(** [None] is a slice off a character boundary. *)
Fixpoint cover_loop (fuel : nat) (script : str) (c : Cover) : option bool :=
  if negb (index c <? byte_len script) then Some (is_nil (ranges c) && negb (needs_command c) && (paren_depth c =? 0))
  else
    match fuel with
    | O => None
    | S fuel =>
        match command_here c with
        | Some (e, later) => cover_loop fuel script (mkCover e later true false (paren_depth c))
        | None =>
            match split_at (index c) script with
            | None => None
            | Some (_, []) => Some false
            | Some (before, ch :: rest) =>
                match cover_char c before ch rest with
                | Continue c' => cover_loop fuel script c'
                | Reject => Some false
                end
            end
        end
    end.

(** A step passes a command or at least one byte. *)
Definition source_is_covered_by_commands (script : str) (command_ranges : list (Z * Z)) : option bool :=
  cover_loop (Z.to_nat (byte_len script) + length command_ranges) script
    (mkCover 0 command_ranges false false 0).

(** ** Lowering a script *)

(** Quotation marks and dashes PowerShell reads as syntax. *)
Definition UNICODE_ALIASES : str := [8216; 8217; 8220; 8221; 8211; 8212; 8213]%N.

Fixpoint lower_nodes (script : str) (nodes : list Node) : result (list (Z * Z) * list (list str)) LowerError :=
  match nodes with
  | [] => Ok ([], [])
  | node :: rest =>
      match utf8_text node script with
      | None => Err CommandNotUtf8
      | Some text =>
          let? words := lower_command_text text in
          let? r := lower_nodes script rest in
          Ok ((start_byte node, end_byte node) :: fst r, words :: snd r)
      end
  end.

Section Lowering.
Variable parse : str -> option Tree.

(** The outer option is a panic. *)
Definition lower_with_tree_sitter (script : str) : option (result (list (list str)) LowerError) :=
  if existsb (one_of UNICODE_ALIASES) script then Some (Err UnicodeAlias)
  else
    let parse_source := mask script 0 (inline_double_dash_parameter_equals script) in
    match parse parse_source with
    | None => Some (Err NoTree)
    | Some tree =>
        let root := root_node tree in
        if root_has_error tree then Some (Err TreeError)
        else if has_requires_directive root script then Some (Err RequiresDirective)
        else
          match first_unrecognized_named_kind root with
          | Some k => Some (Err (UnrecognizedKind k))
          | None =>
              let command_nodes := collect_command_nodes root in
              if is_nil command_nodes then Some (Err NoCommands)
              else
                match lower_nodes script command_nodes with
                | Err e => Some (Err e)
                | Ok (command_ranges, commands) =>
                    match source_is_covered_by_commands script command_ranges with
                    | None => None
                    | Some false => Some (Err SourceOutside)
                    | Some true =>
                        if existsb (fun command => is_some_and (head command) (fun word => eq_ignore_ascii_case word (lit "using"))) commands
                        then Some (Err UsingDeclaration)
                        else if existsb (fun command => is_nil command || existsb is_nil command) commands
                        then Some (Err EmptyLowered)
                        else Some (Ok commands)
                    end
                end
          end
    end.

Definition try_parse_powershell_commands (script : str) : option (list (list str)) :=
  match lower_with_tree_sitter script with Some (Ok commands) => Some commands | _ => None end.

(** ** powershell.rs *)

Definition POWERSHELL_FLAGS : list str := [lit "-nologo"; lit "-noprofile"; lit "-command"; lit "-c"].

(** The flags after the shell, the last argument left out by [i + 1 < len]. *)
Fixpoint powershell_script (args : list str) : option str :=
  match args with
  | flag :: ((script :: _) as rest) =>
      if negb (mem_str POWERSHELL_FLAGS (to_ascii_lowercase flag)) then None
      else if eq_ignore_ascii_case flag (lit "-Command") || eq_ignore_ascii_case flag (lit "-c") then Some script
      else powershell_script rest
  | _ => None
  end.

Definition extract_powershell_command (command : list str) : option (str * str) :=
  if (length command <? 3)%nat then None
  else
    match command with
    | shell :: args =>
        if negb (bool_decide (detect_shell_type shell = Some PowerShell)) then None
        else option_map (pair shell) (powershell_script args)
    | [] => None
    end.

Definition parse_powershell_command_into_plain_commands (command : list str) : option (list (list str)) :=
  match extract_powershell_command command with
  | Some (_, script) => try_parse_powershell_commands script
  | None => None
  end.

Definition parse_powershell_script_into_plain_commands (script : str) : option (list (list str)) :=
  try_parse_powershell_commands script.

End Lowering.

(** ** Accepted scripts consist of literal commands *)

(** What may stand between commands: blanks, separators, parentheses, comments. *)
Inductive gap_piece : str -> Prop :=
| gap_blank c : is_whitespace c = true -> gap_piece [c]
| gap_punct p : p ∈ [lit ";"; lit "("; lit ")"; lit "|"; lit "||"; lit "&&"] -> gap_piece p
| gap_line x : CR ∉ x -> LF ∉ x -> gap_piece (HASH :: x)
| gap_block x : gap_piece (lit "<" ++ x ++ lit "#>").

(** The ranges, in order, and gaps between them make up the text from [i] on. *)
Inductive covered : Z -> str -> list (Z * Z) -> Prop :=
| covered_end i : covered i [] []
| covered_gap i p post rs : gap_piece p -> covered (i + byte_len p) post rs -> covered i (p ++ post) rs
| covered_command i t post rs :
    covered (i + byte_len t) post rs -> covered i (t ++ post) ((i, i + byte_len t) :: rs).

Lemma line_rest_spec s : exists x y, s = x ++ y /\ line_rest s = byte_len x /\ CR ∉ x /\ LF ∉ x.
Proof.
  induction s as [|c s (x & y & -> & Hl & Hc & Hf)]; [exists [], []; by repeat split; try apply not_elem_of_nil|]. simpl.
  destruct ((c =? CR)%N || (c =? LF)%N) eqn:E.
  - exists [], (c :: x ++ y). repeat split; apply not_elem_of_nil.
  - apply orb_false_iff in E as [E1%N.eqb_neq E2%N.eqb_neq]. exists (c :: x), y. rewrite Hl. repeat split; set_solver.
Qed.

Lemma find_split n s i : find n s = Some i -> exists x y, s = x ++ n ++ y /\ take i s = x.
Proof.
  intros (Ho & Hl & _)%find_Some. unfold occurs in Ho. apply starts_with_spec in Ho as [r Hr].
  exists (take i s), r. split; [|done]. by rewrite <- Hr, take_drop.
Qed.

(** A step over a character passes one piece of a gap. *)
Lemma cover_char_gap c before ch rest c' :
  cover_char c before ch rest = Continue c' ->
  ranges c' = ranges c /\ exists p post, ch :: rest = p ++ post /\ gap_piece p /\ index c' = index c + byte_len p.
Proof.
  unfold cover_char. intros H.
  destruct ((ch =? CR)%N || (ch =? LF)%N) eqn:E1.
  { injection H as <-. split; [done|]. exists [ch], rest. split_and!; [done| |simpl; lia]. apply gap_blank.
    apply orb_true_iff in E1 as [->%N.eqb_eq| ->%N.eqb_eq]; done. }
  destruct (is_whitespace ch) eqn:E2.
  { injection H as <-. split; [done|]. exists [ch], rest. split_and!; [done|by apply gap_blank|simpl; lia]. }
  assert (forall k, (ch =? k)%N = true -> [k] ∈ [lit ";"; lit "("; lit ")"; lit "|"; lit "||"; lit "&&"] ->
    gap_piece [ch]) as Hp by (intros k ->%N.eqb_eq; apply gap_punct).
  destruct (ch =? 59)%N eqn:E3.
  { destruct (needs_command c); [done|]. injection H as <-. split; [done|]. exists [ch], rest.
    split_and!; [done|apply (Hp _ E3); by left|simpl; lia]. }
  destruct ((ch =? 40)%N && negb (can_chain c)) eqn:E4.
  { apply andb_true_iff in E4 as [E4 _]. injection H as <-. split; [done|]. exists [ch], rest.
    split_and!; [done|apply (Hp _ E4); by right; left|simpl; lia]. }
  destruct ((ch =? 41)%N && _ && _) eqn:E5.
  { apply andb_true_iff in E5 as [[E5 _]%andb_true_iff _]. injection H as <-. split; [done|]. exists [ch], rest.
    split_and!; [done|apply (Hp _ E5); by right; right; left|simpl; lia]. }
  destruct ((ch =? 124)%N && _) eqn:E6.
  { apply andb_true_iff in E6 as [E6%N.eqb_eq _]. subst ch. injection H as <-. split; [done|].
    destruct (starts_with (lit "|") rest) eqn:E; simpl.
    - apply starts_with_spec in E as [post ->]. exists (lit "||"), post. split_and!; [done|apply gap_punct; set_solver|by vm_compute byte_len; vm_compute len_utf8; lia].
    - exists [124%N], rest. split_and!; [done|apply gap_punct; set_solver|simpl; lia]. }
  destruct ((ch =? 38)%N && _ && _) eqn:E7.
  { apply andb_true_iff in E7 as [[E7%N.eqb_eq _]%andb_true_iff E]. subst ch. injection H as <-. split; [done|].
    apply starts_with_spec in E as [post ->]. exists (lit "&&"), post.
    split_and!; [done|apply gap_punct; set_solver|simpl; vm_compute byte_len; vm_compute len_utf8; lia]. }
  destruct ((ch =? HASH)%N && _) eqn:E8.
  { apply andb_true_iff in E8 as [E8%N.eqb_eq _]. subst ch. destruct (negb (at_token_boundary before)); [done|].
    injection H as <-. split; [done|]. destruct (line_rest_spec rest) as (x & y & -> & Hl & Hc & Hf).
    exists (HASH :: x), y. split_and!; [done|by apply gap_line|]. simpl. rewrite Hl. lia. }
  destruct (starts_with (lit "<#") (ch :: rest) && negb (needs_command c) && at_token_boundary before) eqn:E9; [|done].
  apply andb_true_iff in E9 as [[E9 _]%andb_true_iff _]. apply starts_with_spec in E9 as [r E9].
  change (lit "<#" ++ r) with (60%N :: 35%N :: r) in E9. injection E9 as -> ->. destruct (find (lit "#>") (35%N :: r)) as [k|] eqn:Ef; [|done]. injection H as <-. split; [done|].
  apply find_split in Ef as (x & y & Hx & Ht). exists (lit "<" ++ x ++ lit "#>"), y.
  split_and!; [|apply gap_block|].
  - change (60%N :: 35%N :: r) with (lit "<" ++ (35%N :: r)). rewrite Hx. by rewrite <- !(assoc_L (++)).
  - simpl index. rewrite Ht, !byte_len_app. change (byte_len (lit "<")) with 1. change (byte_len (lit "#>")) with 2.
    change (len_utf8 60) with 1. lia.
Qed.

(** The ranges are non-empty slices of the script. *)
Definition ranges_ok (script : str) (rs : list (Z * Z)) : Prop :=
  Forall (fun r => fst r < snd r /\ exists t, slice script (fst r) (snd r) = Some t) rs.

Lemma slice_at_pre pre post s e t :
  s = byte_len pre -> slice (pre ++ post) s e = Some t -> exists b, post = t ++ b /\ e = s + byte_len t.
Proof.
  intros -> (a & b & Hab & Ha & Hb)%slice_Some. exists b.
  assert (split_at (byte_len a) (a ++ t ++ b) = Some (pre, post)) as H.
  { rewrite <- Hab, Ha. apply split_at_app. }
  rewrite split_at_app in H. injection H as -> <-. rewrite byte_len_app in Hb. split; [done|lia].
Qed.

Lemma cover_loop_sound fuel pre post c :
  index c = byte_len pre -> ranges_ok (pre ++ post) (ranges c) ->
  cover_loop fuel (pre ++ post) c = Some true -> covered (index c) post (ranges c).
Proof.
  revert pre post c. induction fuel as [|fuel IH]; intros pre post c Hi Hr; simpl.
  all: destruct (index c <? byte_len (pre ++ post)) eqn:Elt; simpl.
  1: done.
  1,3: intros [= [[Hn%is_nil_true _]%andb_true_iff _]%andb_true_iff]; rewrite Hn; apply Z.ltb_ge in Elt;
    rewrite byte_len_app in Elt; assert (post = []) as -> by
      (destruct (decide (post = [])) as [|Hp]; [done|]; apply byte_len_pos in Hp; lia); constructor.
  destruct (command_here c) as [[e later]|] eqn:Ec.
  - unfold command_here in Ec. destruct (ranges c) as [|[s e'] rs]; [done|]. destruct (index c =? s) eqn:Es; [|done].
    apply Z.eqb_eq in Es. injection Ec as -> ->. apply Forall_cons in Hr as [[Hlt [t Ht]] Hr]. simpl in *.
    destruct (slice_at_pre pre post s e t) as (b & -> & He); [lia|done|].
    intros H. rewrite He, <- Es. apply covered_command.
    apply (IH (pre ++ t) b (mkCover (index c + byte_len t) later true false (paren_depth c))).
    + simpl. rewrite byte_len_app. lia.
    + simpl. by rewrite <- (assoc_L (++)).
    + rewrite <- (assoc_L (++)). by replace e with (index c + byte_len t) in H by lia.
  - rewrite Hi, split_at_app. destruct post as [|ch rest]; [done|].
    destruct (cover_char c pre ch rest) as [c'|] eqn:Ech; [|done]. intros H.
    apply cover_char_gap in Ech as (Hr' & p & post' & Hp & Hg & Hi'). rewrite Hp in *.
    rewrite <- Hi. apply covered_gap; [done|]. rewrite <- Hi', <- Hr'.
    apply (IH (pre ++ p) post'); [rewrite byte_len_app; lia|rewrite Hr'; by rewrite <- (assoc_L (++))|by rewrite <- (assoc_L (++))].
Qed.

Lemma gap_piece_pos p : gap_piece p -> 0 < byte_len p.
Proof.
  intros Hp. apply byte_len_pos. inversion Hp as [| ? Hin | |]; subst; try done.
  intros ->. repeat (apply elem_of_cons in Hin as [Hin|Hin]; [done|]). by apply elem_of_nil in Hin.
Qed.

(** The loop neither panics nor runs on: each step passes at least one byte. *)
Lemma cover_loop_total fuel pre post c :
  index c = byte_len pre -> ranges_ok (pre ++ post) (ranges c) -> byte_len post <= Z.of_nat fuel ->
  cover_loop fuel (pre ++ post) c <> None.
Proof.
  revert pre post c. induction fuel as [|fuel IH]; intros pre post c Hi Hr Hf; simpl.
  all: destruct (index c <? byte_len (pre ++ post)) eqn:Elt; simpl; [|done].
  { apply Z.ltb_lt in Elt. rewrite byte_len_app in Elt. lia. }
  destruct (command_here c) as [[e later]|] eqn:Ec.
  - unfold command_here in Ec. destruct (ranges c) as [|[s e'] rs]; [done|]. destruct (index c =? s) eqn:Es; [|done].
    apply Z.eqb_eq in Es. injection Ec as -> ->. apply Forall_cons in Hr as [[Hlt [t Ht]] Hr]. simpl in *.
    destruct (slice_at_pre pre post s e t) as (b & -> & He); [lia|done|]. rewrite byte_len_app in Hf.
    rewrite (assoc_L (++)) in *. apply IH; simpl; [rewrite byte_len_app; lia|done|lia].
  - rewrite Hi, split_at_app. destruct post as [|ch rest]; [done|].
    destruct (cover_char c pre ch rest) as [c'|] eqn:Ech; [|done].
    apply cover_char_gap in Ech as (Hr' & p & post' & Hp & Hg & Hi'). rewrite Hp in *. apply gap_piece_pos in Hg.
    rewrite byte_len_app in Hf. rewrite (assoc_L (++)) in *. apply IH; [rewrite byte_len_app; lia|by rewrite Hr'|lia].
Qed.

Lemma source_is_covered_spec script rs :
  ranges_ok script rs ->
  source_is_covered_by_commands script rs <> None
  /\ (source_is_covered_by_commands script rs = Some true -> covered 0 script rs).
Proof.
  intros Hr. unfold source_is_covered_by_commands. pose proof (byte_len_nonneg script). split.
  - apply (cover_loop_total _ [] script); [done|done|lia].
  - by apply (cover_loop_sound _ [] script (mkCover 0 rs false false 0)).
Qed.

(** ** Nodes and ranges *)

Lemma lower_command_text_nonempty text words : lower_command_text text = Ok words -> text <> [] /\ words <> [].
Proof.
  unfold lower_command_text. destruct (lower_loop _ _ _) as [ws|] eqn:E; [|done]. simpl.
  destruct ws as [|w ws]; [done|]. intros [= <-]. split; [|done]. intros ->. vm_compute in E. done.
Qed.

Lemma lower_nodes_spec script nodes rs commands :
  lower_nodes script nodes = Ok (rs, commands) ->
  ranges_ok script rs
  /\ Forall2 (fun r words => exists text, slice script (fst r) (snd r) = Some text /\ lower_command_text text = Ok words) rs commands.
Proof.
  revert rs commands. induction nodes as [|n nodes IH]; intros rs commands; simpl.
  { intros [= <- <-]. split; constructor. }
  destruct (utf8_text n script) as [text|] eqn:Et; [|done]. destruct (lower_command_text text) as [ws|] eqn:El; [|done]. simpl.
  destruct (lower_nodes script nodes) as [[rs' cs']|]; [|done]. intros [= <- <-]. destruct (IH rs' cs' eq_refl) as [H1 H2].
  apply lower_command_text_nonempty in El as Hne. destruct Hne as [Hne _].
  unfold utf8_text in Et. destruct (start_byte n =? end_byte n) eqn:Eq; [naive_solver|].
  split; constructor; simpl; [|done|by exists text|done].
  split; [|by exists text]. apply slice_Some in Et as (a & b & _ & Ha & Hb). rewrite byte_len_app in Hb.
  apply byte_len_pos in Hne. lia.
Qed.

(** A script made of literal commands with gaps around them. *)
Inductive literal_script : str -> list (list str) -> Prop :=
| literal_end : literal_script [] []
| literal_gap p post cs : gap_piece p -> literal_script post cs -> literal_script (p ++ post) cs
| literal_cmd t post words cs :
    lower_command_text t = Ok words -> Forall (fun w => w <> []) words ->
    (forall first, head words = Some first -> eq_ignore_ascii_case first (lit "using") = false) ->
    literal_script post cs -> literal_script (t ++ post) (words :: cs).

Lemma covered_literal i script post rs commands :
  covered i post rs -> (exists pre, script = pre ++ post /\ byte_len pre = i) ->
  Forall2 (fun r words => exists text, slice script (fst r) (snd r) = Some text /\ lower_command_text text = Ok words) rs commands ->
  Forall (fun words => Forall (fun w => w <> []) words
    /\ forall first, head words = Some first -> eq_ignore_ascii_case first (lit "using") = false) commands ->
  literal_script post commands.
Proof.
  intros Hc. revert commands. induction Hc as [i|i p post rs Hp _ IH|i t post rs _ IH]; intros commands (pre & -> & Hi) Hl Hw.
  - inversion Hl. constructor.
  - apply literal_gap; [done|]. apply IH; [|done|done]. exists (pre ++ p). rewrite <- (assoc_L (++)), byte_len_app. split; [done|lia].
  - inversion Hl as [|? words ? cs (text & Ht & Hlow) Hl']; subst. apply Forall_cons in Hw as [[Hne Hu] Hw]. simpl in Ht.
    rewrite <- byte_len_app, slice_app in Ht. injection Ht as <-. apply literal_cmd; [done..|].
    apply IH; [|done|done]. exists (pre ++ t). rewrite <- (assoc_L (++)), byte_len_app. done.
Qed.

Section Lowering_theorems.
Context (parse : str -> option Tree).

Lemma lower_with_tree_sitter_total script : lower_with_tree_sitter parse script <> None.
Proof.
  unfold lower_with_tree_sitter. destruct (existsb _ script); [done|]. destruct (parse _) as [tree|]; [|done].
  destruct (root_has_error tree); [done|]. destruct (has_requires_directive _ _); [done|].
  destruct (first_unrecognized_named_kind _); [done|]. destruct (is_nil _); [done|].
  destruct (lower_nodes script _) as [[rs cs]|] eqn:El; [|done].
  apply lower_nodes_spec in El as [Hr _]. apply source_is_covered_spec in Hr as [Ht _].
  destruct (source_is_covered_by_commands script rs) as [[]|]; [|done..]. by repeat case_match.
Qed.

(** Lowering a PowerShell script never panics whatever tree the grammar
    returns, and a script it accepts is made up entirely of literal commands, each
    lowered word by word, with only blanks, separators, parentheses and comments
    between them. *)
Theorem powershell_script_is_literal (script : str) :
  lower_with_tree_sitter parse script <> None
  /\ forall commands, try_parse_powershell_commands parse script = Some commands ->
       commands <> [] /\ literal_script script commands.
Proof.
  split; [apply lower_with_tree_sitter_total|]. unfold try_parse_powershell_commands, lower_with_tree_sitter. intros commands.
  destruct (existsb _ script); [done|]. destruct (parse _) as [tree|]; [|done].
  destruct (root_has_error tree); [done|]. destruct (has_requires_directive _ _); [done|].
  destruct (first_unrecognized_named_kind _); [done|]. destruct (collect_command_nodes _) as [|n ns]; [done|]. simpl is_nil.
  destruct (lower_nodes script _) as [[rs cs]|] eqn:El; [|done]. cbn iota beta.
  destruct (source_is_covered_by_commands script rs) as [[]|] eqn:Ecov; [|done..].
  destruct (existsb _ cs) eqn:Eu; [done|]. destruct (existsb _ cs) eqn:Ee in |- *; [done|]. intros [= <-].
  destruct (lower_nodes_spec _ _ _ _ El) as [Hr Hl]. split.
  { simpl in El. inv_bind. repeat case_match; try done. inv_bind. by simplify_eq/=. }
  eapply covered_literal; [by apply source_is_covered_spec|by exists []|done|].
  apply Forall_forall. intros words Hin. rewrite <- not_true_iff_false in Eu, Ee. rewrite existsb_exists in Eu, Ee.
  apply list_elem_of_In in Hin. split.
  - apply Forall_forall. intros w Hw ->. apply Ee. exists words. split; [done|]. apply orb_true_iff. right.
    apply existsb_exists. exists []. split; [by apply list_elem_of_In|done].
  - intros first Hf. destruct (eq_ignore_ascii_case first (lit "using")) eqn:E; [|done]. exfalso. apply Eu. exists words.
    by rewrite Hf.
Qed.
End Lowering_theorems.

(** ** Quoting and lowering *)

(** A word as it can be written in a command. *)
Inductive Written := Bare (w : str) | Quoted (w : str).

Definition double_quotes (w : str) : str := flat_map (fun c => if (c =? QUOTE1)%N then [QUOTE1; QUOTE1] else [c]) w.

Definition render_word (e : Written) : str :=
  match e with Bare w => w | Quoted w => [QUOTE1] ++ double_quotes w ++ [QUOTE1] end.
Definition word_value (e : Written) : str := match e with Bare w | Quoted w => w end.

Definition is_bare_char (c : char) : bool := negb (is_whitespace c) && negb (c =? BACKTICK)%N && negb (is_rejected_bare_character c).

(** Which words may be written bare. *)
Definition writable (e : Written) : Prop :=
  match e with
  | Quoted w => w <> []
  | Bare w => w <> [] /\ forallb is_bare_char w = true /\ head w <> Some HASH /\ reject_unsupported_bare_word w = Ok tt
  end.

Lemma parse_single_quoted_render w rest v :
  head rest <> Some QUOTE1 -> parse_single_quoted (double_quotes w ++ QUOTE1 :: rest) v = Ok (v ++ w, rest).
Proof.
  intros Hr. revert v. induction w as [|c w IH]; intros v; simpl.
  - rewrite (right_id_L [] (++)). destruct rest as [|d rest]; [done|]. destruct (N.eqb_spec d QUOTE1); [naive_solver|done].
  - destruct (N.eqb_spec c QUOTE1) as [->|Hc]; simpl.
    + rewrite IH, <- (assoc_L (++)). done.
    + apply N.eqb_neq in Hc. rewrite Hc, IH, <- (assoc_L (++)). done.
Qed.

Lemma parse_bare_word_render w rest v :
  forallb is_bare_char w = true -> v ++ w <> [] -> (rest = [] \/ exists c r, rest = c :: r /\ is_whitespace c = true) ->
  parse_bare_word (w ++ rest) v = Ok (v ++ w, rest).
Proof.
  intros Hw Hne Hr. revert v Hne. induction w as [|c w IH]; intros v Hne; simpl.
  - rewrite (right_id_L [] (++)) in *. destruct Hr as [->|(c & r & -> & Hc)]; simpl; [|rewrite Hc]; unfold bare_value;
      by destruct v.
  - simpl in Hw. apply andb_true_iff in Hw as [Hc Hw]. unfold is_bare_char in Hc.
    apply andb_true_iff in Hc as [[H1%negb_true_iff H2%negb_true_iff]%andb_true_iff H3%negb_true_iff].
    rewrite H1, H2, H3, IH, <- (assoc_L (++)); [done|done|by destruct v].
Qed.

(** The text of a command, the words separated by single spaces. *)
Definition render_command (es : list Written) : str := join [SPACE] (List.map render_word es).

Lemma render_word_head e : writable e -> exists c r, render_word e = c :: r /\ is_whitespace c = false /\ c <> HASH.
Proof.
  destruct e as [w|w]; simpl; intros Hw; [|by eexists _, _].
  destruct Hw as (Hne & Hb & Hh & _). destruct w as [|c w]; [done|]. exists c, w. simpl in Hb.
  apply andb_true_iff in Hb as [Hc _]. unfold is_bare_char in Hc.
  apply andb_true_iff in Hc as [[H1%negb_true_iff _]%andb_true_iff _]. split_and!; [done|done|]. simpl in Hh. congruence.
Qed.

(** Reading one written word off the front of a command. *)
Lemma parse_element_render e rest c r :
  writable e -> (rest = [] \/ exists c r, rest = c :: r /\ is_whitespace c = true) -> render_word e ++ rest = c :: r ->
  exists is_bare, parse_element c r = Ok (word_value e, rest, is_bare)
    /\ (is_bare = true -> reject_unsupported_bare_word (word_value e) = Ok tt) /\ word_value e <> [].
Proof.
  intros Hw Hr Hc. unfold parse_element. destruct e as [w|w]; simpl in Hw, Hc |- *.
  - destruct Hw as (Hne & Hb & Hh & Hrej). destruct w as [|c' w]; [done|]. simpl in Hc. injection Hc as -> <-.
    assert (c <> QUOTE1 /\ c <> QUOTE2) as [H1%N.eqb_neq H2%N.eqb_neq].
    { simpl in Hb. apply andb_true_iff in Hb as [Hb _]. unfold is_bare_char in Hb.
      apply andb_true_iff in Hb as [_ Hb%negb_true_iff]. unfold is_rejected_bare_character in Hb.
      rewrite <- not_true_iff_false, one_of_spec in Hb. unfold REJECTED_BARE, QUOTE1, QUOTE2 in *. set_solver. }
    rewrite H1, H2. pose proof (parse_bare_word_render (c :: w) rest [] Hb Hne Hr) as Hp.
    exists true. split; [|done]. simpl in Hp. by rewrite Hp.
  - injection Hc as <- <-. simpl. rewrite <- (assoc_L (++)). simpl.
    rewrite parse_single_quoted_render; [simpl; by exists false|].
    destruct Hr as [->|(c & r & -> & Hws)]; [done|]. simpl. intros [= ->]. done.
Qed.

Lemma lower_loop_render es fuel acc :
  Forall writable es -> (length (render_command es) < fuel)%nat ->
  lower_loop fuel (render_command es) acc = Ok (acc ++ List.map word_value es)
  /\ lower_loop fuel (SPACE :: render_command es) acc = Ok (acc ++ List.map word_value es).
Proof.
  intros Hes. revert fuel acc. induction Hes as [|e es He Hes IH]; intros fuel acc Hf.
  { destruct fuel; [lia|]. simpl. by rewrite (right_id_L [] (++)). }
  destruct (render_word_head e He) as (c & r & Hcr & Hws & Hh). apply N.eqb_neq in Hh.
  assert (exists rest, render_command (e :: es) = render_word e ++ rest
            /\ (rest = [] \/ exists c r, rest = c :: r /\ is_whitespace c = true)
            /\ forall f acc, (length rest < f)%nat -> lower_loop f rest acc = Ok (acc ++ List.map word_value es)) as (rest & Hrest & Hsep & Hloop).
  { unfold render_command in *. destruct es as [|e' es].
    - exists []. simpl. rewrite (right_id_L [] (++)). split_and!; [done|by left|]. intros [|f] acc' Hl; [lia|].
      simpl. by rewrite (right_id_L [] (++)).
    - simpl List.map. rewrite join_cons_nonempty by done. eexists. split; [done|]. split; [right; by eexists _, _|].
      intros f acc' Hl. apply IH. simpl in *. lia. }
  rewrite Hrest in *. destruct fuel as [|fuel]; [lia|]. rewrite length_app in Hf.
  destruct (parse_element_render e rest c (r ++ rest) He Hsep) as (b & Hp & Hb & Hne); [by rewrite Hcr|].
  assert (lower_loop (S fuel) (render_word e ++ rest) acc = Ok (acc ++ List.map word_value (e :: es))) as Hmain.
  { rewrite Hcr in *. simpl. rewrite Hws. simpl. rewrite Hh, Hp. simpl.
    assert (adjacent rest = false) as ->.
    { destruct Hsep as [->|(c' & r' & -> & Hc')]; [done|]. simpl. by rewrite Hc'. }
    destruct (word_value e) as [|x w] eqn:Ew; [done|]. simpl is_nil. cbn iota.
    assert ((if b then reject_unsupported_bare_word (x :: w) else Ok ()) = Ok ()) as -> by (destruct b; [by apply Hb|done]).
    simpl. rewrite Hloop by (simpl in Hf; lia). rewrite <- (assoc_L (++)). done. }
  split; [done|]. simpl. simpl in Hmain. rewrite <- Hmain. done.
Qed.

Lemma render_word_tail e : writable e -> no_trailing_ws (render_word e).
Proof.
  destruct e as [w|w]; simpl.
  - intros (_ & Hb & _) c Hc. rewrite forallb_forall in Hb. apply last_Some_elem_of, list_elem_of_In in Hc.
    specialize (Hb c Hc). unfold is_bare_char in Hb. by apply andb_true_iff in Hb as [[?%negb_true_iff _]%andb_true_iff _].
  - intros _. apply (no_trailing_ws_app (QUOTE1 :: double_quotes w)); [done|]. by intros c [= <-].
Qed.

Lemma render_command_tail es : Forall writable es -> no_trailing_ws (render_command es).
Proof.
  induction 1 as [|e es He Hes IH]; [done|]. unfold render_command in *. simpl List.map. destruct es as [|e' es].
  - by apply render_word_tail.
  - rewrite join_cons_nonempty by done. apply no_trailing_ws_app; [done|]. apply no_trailing_ws_app; [|done].
    apply Forall_cons in Hes as [He' _]. destruct (render_word_head e' He') as (c & r & Hcr & _).
    simpl. rewrite Hcr. by destruct (List.map render_word es).
Qed.

(** Words written bare or in single quotes (a quote doubled) and separated by
    spaces are lowered to exactly those words. *)
Theorem lower_command_text_render (es : list Written) :
  es <> [] -> Forall writable es -> lower_command_text (render_command es) = Ok (List.map word_value es).
Proof.
  intros Hne Hes. unfold lower_command_text. rewrite trim_id; [| |by apply render_command_tail].
  - destruct (lower_loop_render es (S (length (render_command es))) [] Hes) as [-> _]; [lia|]. by destruct es.
  - destruct es as [|e es]; [done|]. apply Forall_cons in Hes as [He _].
    destruct (render_word_head e He) as (c & r & Hcr & Hws & _). unfold render_command. simpl. rewrite Hcr.
    by destruct (List.map render_word es).
Qed.

(** ** Masking keeps the offsets *)

Definition equals_at (script : str) (o : Z) : Prop := exists pre post, script = pre ++ EQUALS :: post /\ byte_len pre = o.

Lemma push_equals_at script equals pre token post :
  script = pre ++ token ++ post -> Forall (equals_at script) equals ->
  Forall (equals_at script) (push_inline_parameter_equals equals token (byte_len pre)).
Proof.
  intros Hs He. unfold push_inline_parameter_equals. destruct (_ && _); [|done].
  destruct (split_once EQUALS token) as [[before after]|] eqn:E; [|done]. destruct (_ && _); [|done].
  apply split_once_Some in E as [-> _]. apply Forall_app. split; [done|]. constructor; [|constructor].
  exists (pre ++ before), (after ++ post). rewrite Hs, byte_len_app, <- !(assoc_L (++)). done.
Qed.

Lemma inline_scan_equals script s pre token equals :
  script = pre ++ token ++ s -> Forall (equals_at script) equals ->
  Forall (equals_at script) (inline_scan s (byte_len (pre ++ token)) (byte_len pre) token equals).
Proof.
  revert pre token equals. induction s as [|ch s IH]; intros pre token equals Hs He; simpl.
  - by eapply push_equals_at.
  - destruct (is_inline_parameter_token_separator ch).
    + specialize (IH (pre ++ token ++ [ch]) [] (push_inline_parameter_equals equals token (byte_len pre))).
      rewrite (right_id_L [] (++)) in IH. rewrite !byte_len_app in *. simpl in IH.
      replace (byte_len pre + byte_len token + len_utf8 ch) with (byte_len pre + (byte_len token + (len_utf8 ch + 0))) by lia.
      apply IH; [by rewrite Hs, <- !(assoc_L (++))|by eapply push_equals_at].
    + specialize (IH pre (token ++ [ch]) equals). rewrite !byte_len_app in *. simpl in IH.
      replace (byte_len pre + byte_len token + len_utf8 ch) with (byte_len pre + (byte_len token + (len_utf8 ch + 0))) by lia.
      apply IH; [by rewrite Hs, <- !(assoc_L (++))|done].
Qed.

Lemma mask_equals script pre s offsets :
  script = pre ++ s -> Forall (equals_at script) offsets ->
  Forall2 (fun a b => b = a \/ (a = EQUALS /\ b = SPACE)) s (mask s (byte_len pre) offsets).
Proof.
  revert pre. induction s as [|ch s IH]; intros pre Hs Ho; simpl; constructor.
  - case_bool_decide as Hin; [|by left]. right. split; [|done]. rewrite Forall_forall in Ho.
    destruct (Ho _ Hin) as (p & q & Hp & Hl). assert (split_at (byte_len pre) script = Some (pre, ch :: s)) as H1 by (rewrite Hs; apply split_at_app).
    rewrite Hp, <- Hl, split_at_app in H1. congruence.
  - specialize (IH (pre ++ [ch])). rewrite byte_len_app in IH. simpl in IH.
    replace (byte_len pre + len_utf8 ch) with (byte_len pre + (len_utf8 ch + 0)) by lia.
    apply IH; [by rewrite Hs, <- (assoc_L (++))|done].
Qed.

(** The masked source differs from the script only in some [=] that became spaces,
    so the ranges of its tree are ranges of the script. *)
Lemma masked_source_spec script :
  Forall2 (fun a b => b = a \/ (a = EQUALS /\ b = SPACE)) script (mask script 0 (inline_double_dash_parameter_equals script)).
Proof. apply (mask_equals script []); [done|]. by apply (inline_scan_equals script script [] []). Qed.

(** ** Evaluation *)

Definition ps_script : str := lit "git log --max-count=3 | more; Remove-Item 'it''s' # done".

(** The tree of the masked source. *)
Definition ps_tree : Tree :=
  mkTree (mkNode (lit "program") true 0 56
    [mkNode (lit "statement_list") true 0 49
       [mkNode (lit "command") true 0 21 []; mkNode (lit "command") true 24 28 []; mkNode (lit "command") true 30 49 []]]) false.

Definition ps_commands : list (list str) :=
  [[lit "git"; lit "log"; lit "--max-count=3"]; [lit "more"]; [lit "Remove-Item"; lit "it's"]].

(** The grammar, which rejects [--flag=value] but sees it masked. *)
Definition ps_parse (source : str) : option Tree := if contains_char EQUALS source then None else Some ps_tree.

Lemma powershell_script_is_literal_witness :
  try_parse_powershell_commands ps_parse ps_script = Some ps_commands
  /\ literal_script ps_script ps_commands.
Proof.
  split; [vm_compute; reflexivity|].
  apply (powershell_script_is_literal ps_parse ps_script). vm_compute; reflexivity.
Defined.

Lemma lower_command_text_render_witness :
  lower_command_text (lit "git commit -m 'it''s a $x'") = Ok [lit "git"; lit "commit"; lit "-m"; lit "it's a $x"].
Proof.
  apply (lower_command_text_render [Bare (lit "git"); Bare (lit "commit"); Bare (lit "-m"); Quoted (lit "it's a $x")]); [done|].
  repeat constructor; done.
Defined.
