(* ===== verification/DangerousCommand.v ===== *)
(** * Recognising dangerous commands

    Models [codex-rs/shell-command/src/command_safety/is_dangerous_command.rs] and
    [windows_dangerous_commands.rs].  What other libraries do is a parameter: the
    bash grammar, [shlex::split], one regular expression and [Url::parse].  The depth of wrappers is counted
    down: [k] levels are left. *)

From stdpp Require Import base list numbers option strings relations.
From Stdlib Require Import Lia.
From S2P Require Import Prelude RustStr StreamText SyntaxTree ShellDetect BashScript.

(** A drive prefix such as ["C:"] is dropped. *)
Definition strip_drive (name : str) : str :=
  match name with
  | d :: c :: r => if is_ascii_alphabetic d && (c =? 58)%N then r else name
  | _ => name
  end.

(** ** Platforms and matches *)

Inductive DangerousCommandPlatform := Posix | Windows.

#[export] Instance DangerousCommandPlatform_eq_dec : EqDecision DangerousCommandPlatform.
Proof. solve_decision. Defined.

Inductive DangerousCommandMatch := ForcedRm | OtherDanger.

Definition MAX_DANGEROUS_COMMAND_WRAPPER_DEPTH : nat := 8.

Fixpoint strip_first_executable_suffix (suffixes : list str) (name : str) : option str :=
  match suffixes with
  | [] => None
  | s :: rest => match strip_suffix s name with
                 | Some stripped => Some stripped
                 | None => strip_first_executable_suffix rest name
                 end
  end.

Definition executable_name_lookup_key (raw : str) (platform : DangerousCommandPlatform) : option str :=
  match platform with
  | Posix =>
      let name := after_last (N.eqb SLASH) raw in
      if is_nil name then None else Some name
  | Windows =>
      let name := after_last (one_of [SLASH; BACKSLASH]) raw in
      if is_nil name then None
      else
        let name := to_ascii_lowercase (strip_drive name) in
        match strip_first_executable_suffix [lit ".exe"; lit ".cmd"; lit ".bat"; lit ".com"] name with
        | Some stripped => Some stripped
        | None => if is_nil name then None else Some name
        end
  end.

Fixpoint take_while_args (args : list str) : list str :=
  match args with
  | [] => []
  | a :: r => if str_eqb a (lit "--") then [] else a :: take_while_args r
  end.

Definition rm_args_include_force_option (args : list str) : bool :=
  existsb (fun arg =>
    str_eqb arg (lit "--force")
    || is_some_and (strip_prefix (lit "-") arg)
         (fun flags => negb (starts_with (lit "-") flags) && contains_char 102%N flags))
    (take_while_args args).

(** The loop over the arguments of [env]: the command it runs. *)
Fixpoint env_command (args : list str) : list str :=
  match args with
  | [] => []
  | argument :: rest =>
      if str_eqb argument (lit "--") then rest
      else if mem_str [lit "-i"; lit "--ignore-environment"] argument
              || is_some_and (split_once 61%N argument)
                   (fun nv => negb (is_nil nv.1) && negb (starts_with (lit "-") nv.1))
      then env_command rest
      else args
  end.

(** The shell command a [trap] stores. *)
Definition trap_command (args : list str) : option (list str) :=
  let args := match args with a :: r => if str_eqb a (lit "--") then r else args | [] => [] end in
  match args with
  | [] => None
  | action :: _ =>
      if starts_with (lit "-") action then None
      else Some [lit "sh"; lit "-c"; action]
  end.

(** [iter().find_map(f)]. *)
Definition find_map {A B} (f : A -> option B) : list A -> option B :=
  fix go l := match l with
              | [] => None
              | x :: r => match f x with Some b => Some b | None => go r end
              end.

Section Dangerous.
(** The bash grammar. *)
Variable try_parse_shell : str -> option Tree.
Variable shlex_split : str -> option (list str).
(** Group 1 of the regular expression of [looks_like_url], and the scheme of a URL. *)
Variable re_capture : str -> option str.
Variable url_scheme : str -> option str.

(** ** windows_dangerous_commands.rs *)

Definition looks_like_url (token : str) : bool :=
  let lowercase_token := to_ascii_lowercase token in
  let start := match find (lit "https://") lowercase_token with
               | Some idx => Some idx
               | None => find (lit "http://") lowercase_token
               end in
  let urlish := match start with Some idx => drop idx token | None => token end in
  let candidate := unwrap_or (re_capture urlish) urlish in
  match url_scheme candidate with
  | Some scheme => mem_str [lit "http"; lit "https"] scheme
  | None => false
  end.

Definition args_have_url (args : list str) : bool := existsb looks_like_url args.

Definition executable_basename (exe : str) : option str :=
  let name := after_last (one_of [SLASH; BACKSLASH]) exe in
  if is_nil name then None
  else
    let name := strip_drive name in
    if is_nil name then None else Some (to_ascii_lowercase name).

Definition is_powershell_executable (exe : str) : bool :=
  is_some_and (executable_basename exe) (mem_str [lit "powershell"; lit "powershell.exe"; lit "pwsh"; lit "pwsh.exe"]).

Definition is_browser_executable (name : str) : bool :=
  mem_str [lit "chrome"; lit "chrome.exe"; lit "msedge"; lit "msedge.exe"; lit "firefox"; lit "firefox.exe";
           lit "iexplore"; lit "iexplore.exe"] name.

Fixpoint parse_powershell_invocation (args : list str) : option (list str) :=
  match args with
  | [] => None
  | arg :: rest =>
      let lower := to_ascii_lowercase arg in
      if mem_str [lit "-command"; lit "/command"; lit "-c"] lower then
        match rest with
        | [script] => shlex_split script
        | _ => None
        end
      else if starts_with (lit "-command:") lower || starts_with (lit "/command:") lower then
        match rest with
        | [] => match split_once 58%N arg with Some (_, script) => shlex_split script | None => None end
        | _ => None
        end
      else if mem_str [lit "-nologo"; lit "-noprofile"; lit "-noninteractive"; lit "-mta"; lit "-sta"] lower then
        parse_powershell_invocation rest
      else if starts_with (lit "-") lower then parse_powershell_invocation rest
      else Some args
  end.

Definition DELETE_CMDLETS : list str :=
  [lit "remove-item"; lit "ri"; lit "rm"; lit "del"; lit "erase"; lit "rd"; lit "rmdir"].
(** [; | & \n \r \t] and [{ } ( ) [ ] , ;]. *)
Definition SEG_SEPS : str := [59; 124; 38; 10; 13; 9]%N.
Definition SOFT_SEPS : str := [123; 125; 40; 41; 91; 93; 44; 59]%N.

(** The segments built so far, the last one, and the token being read. *)
Record Segments := mkSegs { seg_done : list (list str); seg_last : list str }.

Definition push_token (g : Segments) (cur : str) : Segments :=
  let s := trim cur in
  if is_nil s then g else mkSegs (seg_done g) (seg_last g ++ [s]).

Definition close_segment (g : Segments) : Segments :=
  if is_nil (seg_last g) then g else mkSegs (seg_done g ++ [seg_last g]) [].

Fixpoint segment_token (tok cur : str) (g : Segments) : Segments :=
  match tok with
  | [] => push_token g cur
  | ch :: r =>
      if one_of SEG_SEPS ch then segment_token r [] (close_segment (push_token g cur))
      else segment_token r (cur ++ [ch]) g
  end.

Definition segments (tokens : list str) : list (list str) :=
  let g := fold_left (fun g tok => segment_token tok [] g) tokens (mkSegs [] []) in
  seg_done g ++ [seg_last g].

Definition atoms (seg : list str) : list str :=
  List.filter (fun s => negb (is_nil s)) (List.map trim (flat_map (split_by (one_of SOFT_SEPS)) seg)).

Definition is_delete_atom (a : str) : bool := existsb (eq_ignore_ascii_case a) DELETE_CMDLETS.
Definition is_force_atom (a : str) : bool :=
  eq_ignore_ascii_case a (lit "-force") || eq_ignore_ascii_case (take 7 a) (lit "-force:").

Definition has_force_delete_cmdlet (tokens : list str) : bool :=
  existsb (fun seg => existsb is_delete_atom (atoms seg) && existsb is_force_atom (atoms seg)) (segments tokens).

Definition is_dangerous_powershell_words (words : list str) : bool :=
  let tokens_lc := List.map (fun t => to_ascii_lowercase (trim_matches 34%N (trim_matches 39%N t))) words in
  let has_url := args_have_url words in
  (has_url
   && existsb (fun t => mem_str [lit "start-process"; lit "start"; lit "saps"; lit "invoke-item"; lit "ii"] t
                        || contains (lit "start-process") t || contains (lit "invoke-item") t) tokens_lc)
  || (has_url && existsb (fun t => contains (lit "shellexecute") t || contains (lit "shell.application") t) tokens_lc)
  || match tokens_lc with
     | [] => false
     | first :: _ =>
         (str_eqb first (lit "rundll32")
          && existsb (contains (lit "url.dll,fileprotocolhandler")) tokens_lc && has_url)
         || (str_eqb first (lit "mshta") && has_url)
         || (is_browser_executable first && has_url)
         || (mem_str [lit "explorer"; lit "explorer.exe"] first && has_url)
     end
  || has_force_delete_cmdlet tokens_lc.

Definition is_dangerous_powershell (command : list str) : bool :=
  match command with
  | [] => false
  | exe :: rest =>
      is_powershell_executable exe
      && is_some_and (parse_powershell_invocation rest) is_dangerous_powershell_words
  end.

Definition AMP : char := 38%N.
Definition BAR : char := 124%N.

(** Pieces between the operators [& && | ||], operators included. *)
Fixpoint embedded_operators (cur s : str) : list str :=
  let flush := if is_nil cur then [] else [cur] in
  match s with
  | [] => flush
  | ch :: rest =>
      if (ch =? AMP)%N || (ch =? BAR)%N then
        flush ++ match rest with
                 | next :: rest' =>
                     if (next =? ch)%N then [ch; next] :: embedded_operators [] rest'
                     else [ch] :: embedded_operators [] rest
                 | [] => [[ch]]
                 end
      else embedded_operators (cur ++ [ch]) rest
  end.

Definition split_embedded_cmd_operators (token : str) : list str :=
  List.filter (fun s => negb (is_nil (trim s))) (embedded_operators [] token).

(** The arguments after [/c]; [None]: an unknown token comes first. *)
Fixpoint cmd_body (rest : list str) : option (list str) :=
  match rest with
  | [] => Some []
  | arg :: r =>
      let lower := to_ascii_lowercase arg in
      if mem_str [lit "/c"; lit "/r"; lit "-c"] lower then Some r
      else if starts_with (lit "/") lower then cmd_body r
      else None
  end.

Definition CMD_SEPARATORS : list str := [lit "&"; lit "&&"; lit "|"; lit "||"].

(** [slice::split]. *)
Fixpoint split_tokens (p : str -> bool) (l : list str) : list (list str) :=
  match l with
  | [] => [[]]
  | x :: r =>
      if p x then [] :: split_tokens p r
      else match split_tokens p r with
           | [] => [[x]]
           | s :: ss => (x :: s) :: ss
           end
  end.

Definition has_flag_cmd (flag : str) (args : list str) : bool := existsb (fun a => eq_ignore_ascii_case a flag) args.

Definition dangerous_cmd_segment (segment : list str) : bool :=
  match segment with
  | [] => false
  | cmd :: _ =>
      (eq_ignore_ascii_case cmd (lit "start") && args_have_url segment)
      || ((eq_ignore_ascii_case cmd (lit "del") || eq_ignore_ascii_case cmd (lit "erase"))
          && has_flag_cmd (lit "/f") segment)
      || ((eq_ignore_ascii_case cmd (lit "rd") || eq_ignore_ascii_case cmd (lit "rmdir"))
          && has_flag_cmd (lit "/s") segment && has_flag_cmd (lit "/q") segment)
  end.

Definition is_dangerous_cmd (command : list str) : bool :=
  match command with
  | [] => false
  | exe :: rest =>
      match executable_basename exe with
      | None => false
      | Some base =>
          if negb (mem_str [lit "cmd"; lit "cmd.exe"] base) then false
          else
            match cmd_body rest with
            | None | Some [] => false
            | Some remaining =>
                let cmd_tokens := match remaining with
                                  | [only] => unwrap_or (shlex_split only) [only]
                                  | _ => remaining
                                  end in
                let tokens := flat_map split_embedded_cmd_operators cmd_tokens in
                existsb dangerous_cmd_segment (split_tokens (mem_str CMD_SEPARATORS) tokens)
            end
      end
  end.

Definition is_direct_gui_launch (command : list str) : bool :=
  match command with
  | [] => false
  | exe :: rest =>
      match executable_basename exe with
      | None => false
      | Some base =>
          (mem_str [lit "explorer"; lit "explorer.exe"] base && args_have_url rest)
          || (mem_str [lit "mshta"; lit "mshta.exe"] base && args_have_url rest)
          || (mem_str [lit "rundll32"; lit "rundll32.exe"] base
              && existsb (fun t => contains (lit "url.dll,fileprotocolhandler") (to_ascii_lowercase t)) rest
              && args_have_url rest)
          || (is_browser_executable base && args_have_url rest)
      end
  end.

Definition is_dangerous_command_windows (command : list str) : bool :=
  is_dangerous_powershell command || is_dangerous_cmd command || is_direct_gui_launch command.

Definition dangerous_powershell_words_match (command : list str) (platform : DangerousCommandPlatform)
  : option DangerousCommandMatch :=
  match platform with
  | Windows => if is_dangerous_powershell_words command then Some OtherDanger else None
  | Posix => None
  end.

(** ** is_dangerous_command.rs *)

(** The rules on the executable, the checks one level down given by [below]. *)
Definition dangerous_command_match_for_exec (below : list str -> option DangerousCommandMatch)
    (platform : DangerousCommandPlatform) (command : list str) : option DangerousCommandMatch :=
  match command with
  | [] => None
  | cmd :: args =>
      match executable_name_lookup_key cmd platform with
      | None => None
      | Some key =>
          if str_eqb key (lit "rm") && rm_args_include_force_option args then Some ForcedRm
          else if str_eqb key (lit "sudo") then below args
          else if str_eqb key (lit "env") then below (env_command args)
          else if str_eqb key (lit "trap") then
            match trap_command args with Some shell_command => below shell_command | None => None end
          else None
      end
  end.

Fixpoint dangerous_command_match_with_depth (k : nat) (platform : DangerousCommandPlatform) (command : list str)
  : option DangerousCommandMatch :=
  match k with
  | O => Some OtherDanger
  | S k =>
      let below := dangerous_command_match_with_depth k platform in
      match dangerous_command_match_for_exec below platform command with
      | Some m => Some m
      | None =>
          match match parse_shell_lc_literal_commands try_parse_shell command with
                | Some commands => find_map below commands
                | None => None
                end with
          | Some m => Some m
          | None =>
              if bool_decide (platform = Windows) && is_dangerous_command_windows command
              then Some OtherDanger else None
          end
      end
  end.

Definition dangerous_command_match_for_platform (command : list str) (platform : DangerousCommandPlatform)
  : option DangerousCommandMatch :=
  dangerous_command_match_with_depth (S MAX_DANGEROUS_COMMAND_WRAPPER_DEPTH) platform command.
(** ** Which commands hide behind which *)

Definition runs (platform : DangerousCommandPlatform) (name : str) (cmd : str) : Prop :=
  executable_name_lookup_key cmd platform = Some name.

(** [wraps outer inner]: running [outer] runs [inner]. *)
Inductive wraps (platform : DangerousCommandPlatform) : list str -> list str -> Prop :=
| wraps_sudo cmd args : runs platform (lit "sudo") cmd -> wraps platform (cmd :: args) args
| wraps_env cmd args : runs platform (lit "env") cmd -> wraps platform (cmd :: args) (env_command args)
| wraps_trap cmd args action :
    runs platform (lit "trap") cmd -> trap_command args = Some action -> wraps platform (cmd :: args) action
| wraps_script command commands inner :
    parse_shell_lc_literal_commands try_parse_shell command = Some commands -> inner ∈ commands -> wraps platform command inner.

Inductive forced_rm (platform : DangerousCommandPlatform) : list str -> Prop :=
| forced_rm_intro cmd args :
    runs platform (lit "rm") cmd -> rm_args_include_force_option args = true -> forced_rm platform (cmd :: args).

(** A command that is dangerous by itself. *)
Definition dangerous_itself (platform : DangerousCommandPlatform) (command : list str) : Prop :=
  forced_rm platform command \/ platform = Windows /\ is_dangerous_command_windows command = true.

Lemma find_map_None {A B} (f : A -> option B) l : find_map f l = None <-> forall x, x ∈ l -> f x = None.
Proof.
  induction l as [|x l IH]; simpl; [set_solver|]. destruct (f x) eqn:E.
  - split; [done|]. intros H. rewrite H in E; set_solver.
  - rewrite IH. split; [|set_solver]. intros H y [->|Hy]%elem_of_cons; [done|by apply H].
Qed.

Lemma find_map_Some {A B} (f : A -> option B) l b : find_map f l = Some b -> exists x, x ∈ l /\ f x = Some b.
Proof.
  induction l as [|x l IH]; simpl; [done|]. destruct (f x) eqn:E.
  - intros [= ->]. exists x. set_solver.
  - intros (y & ? & ?)%IH. exists y. set_solver.
Qed.

Ltac name_clash := match goal with H : lit _ = lit _ |- _ => vm_compute in H; discriminate H end.

(** What the rules on the executable amount to. *)
Lemma match_for_exec_cases below platform command :
  (forced_rm platform command /\ dangerous_command_match_for_exec below platform command = Some ForcedRm)
  \/ (exists inner, wraps platform command inner
       /\ dangerous_command_match_for_exec below platform command = below inner
       /\ ~ forced_rm platform command
       /\ forall x, wraps platform command x -> x = inner \/ exists cs, parse_shell_lc_literal_commands try_parse_shell command = Some cs /\ x ∈ cs)
  \/ (dangerous_command_match_for_exec below platform command = None /\ ~ forced_rm platform command
       /\ forall x, wraps platform command x -> exists cs, parse_shell_lc_literal_commands try_parse_shell command = Some cs /\ x ∈ cs).
Proof.
  destruct command as [|cmd args].
  { right; right. split_and!; [done|by inversion 1|]. inversion 1; subst. eauto. }
  simpl. destruct (executable_name_lookup_key cmd platform) as [key|] eqn:Ek.
  2:{ right; right. split_and!; [done| |]; inversion 1; subst; unfold runs in *; try congruence. eauto. }
  assert (Hr : forall n, runs platform n cmd <-> key = n) by (unfold runs; split; congruence).
  destruct (str_eqb key (lit "rm")) eqn:Erm; simpl.
  { apply str_eqb_spec in Erm as ->. destruct (rm_args_include_force_option args) eqn:Ef; simpl.
    - left. split; [by constructor|done].
    - right; right. split_and!; [done| |]; inversion 1; subst; rewrite ?Hr in *; try congruence; try name_clash.
      eauto. }
  assert (Hnrm : ~ forced_rm platform (cmd :: args)).
  { inversion 1; subst. rewrite Hr in *. subst. by rewrite str_eqb_refl in Erm. }
  destruct (str_eqb key (lit "sudo")) eqn:Es.
  { apply str_eqb_spec in Es as ->. right; left. exists args. split_and!; [by apply wraps_sudo, Hr|done|done|].
    inversion 1; subst; rewrite ?Hr in *; auto; try name_clash. eauto. }
  destruct (str_eqb key (lit "env")) eqn:Ee.
  { apply str_eqb_spec in Ee as ->. right; left. exists (env_command args). split_and!; [by apply wraps_env, Hr|done|done|].
    inversion 1; subst; rewrite ?Hr in *; auto; try name_clash. eauto. }
  destruct (str_eqb key (lit "trap")) eqn:Et.
  { apply str_eqb_spec in Et as ->. destruct (trap_command args) as [sc|] eqn:Ec.
    - right; left. exists sc. split_and!; [eapply wraps_trap; [by apply Hr|done]|done|done|].
      inversion 1; subst; rewrite ?Hr in *; try name_clash; [left; congruence|eauto].
    - right; right. split_and!; [done|done|]. inversion 1; subst; rewrite ?Hr in *; try congruence; try name_clash.
      eauto. }
  right; right. split_and!; [done|done|].
  inversion 1; subst; rewrite ?Hr in *; subst; rewrite ?str_eqb_refl in *; try done. eauto.
Qed.

Lemma with_depth_None k platform command :
  dangerous_command_match_with_depth (S k) platform command = None <->
  ~ dangerous_itself platform command
  /\ forall inner, wraps platform command inner -> dangerous_command_match_with_depth k platform inner = None.
Proof.
  simpl. set (below := dangerous_command_match_with_depth k platform).
  assert (Hscript : match parse_shell_lc_literal_commands try_parse_shell command with
                    | Some commands => find_map below commands | None => None end = None <->
    forall cs x, parse_shell_lc_literal_commands try_parse_shell command = Some cs -> x ∈ cs -> below x = None).
  { destruct (parse_shell_lc_literal_commands try_parse_shell command) as [cs|]; [|naive_solver]. rewrite find_map_None. naive_solver. }
  assert (Hw : (bool_decide (platform = Windows) && is_dangerous_command_windows command) = true <->
    platform = Windows /\ is_dangerous_command_windows command = true) by (rewrite andb_true_iff, bool_decide_eq_true; done).
  destruct (match_for_exec_cases below platform command) as [[Hf ->]|[(inner & Hi & -> & Hf & Hx)|(-> & Hf & Hx)]].
  - split; [done|]. intros [[] _]. by left.
  - destruct (below inner) eqn:Ei.
    { split; [done|]. intros [_ H]. rewrite (H inner Hi) in Ei. done. }
    destruct (match parse_shell_lc_literal_commands try_parse_shell command with Some commands => find_map below commands | None => None end) eqn:Es.
    { split; [done|]. intros [_ H]. assert (Hn : Some d = None) by (apply Hscript; intros; apply H; by eapply wraps_script). done. }
    destruct (bool_decide (platform = Windows) && is_dangerous_command_windows command) eqn:Ew.
    { split; [done|]. intros [[] _]. right. by apply Hw. }
    split; [|done]. intros _. split.
    + intros [?|?]; [done|]. apply Hw in H. congruence.
    + intros x [->|(cs & Hcs & Hin)]%Hx; [done|]. by eapply Hscript.
  - destruct (match parse_shell_lc_literal_commands try_parse_shell command with Some commands => find_map below commands | None => None end) eqn:Es.
    { split; [done|]. intros [_ H]. assert (Hn : Some d = None) by (apply Hscript; intros; apply H; by eapply wraps_script). done. }
    destruct (bool_decide (platform = Windows) && is_dangerous_command_windows command) eqn:Ew.
    { split; [done|]. intros [[] _]. right. by apply Hw. }
    split; [|done]. intros _. split.
    + intros [?|?]; [done|]. apply Hw in H. congruence.
    + intros x (cs & Hcs & Hin)%Hx. by eapply Hscript.
Qed.

Lemma with_depth_spec k platform command :
  dangerous_command_match_with_depth k platform command = None <->
  (forall n inner, n < k -> nsteps (wraps platform) n command inner -> ~ dangerous_itself platform inner)
  /\ forall inner, ~ nsteps (wraps platform) k command inner.
Proof.
  revert command. induction k as [|k IH]; intros command.
  - split; [done|]. intros [_ H]. destruct (H command). constructor.
  - rewrite with_depth_None. setoid_rewrite IH. split.
    + intros [Hd Hb]. split.
      * intros n inner Hn Hs. inversion Hs as [|m ? mid ? Hw Hrest]; subst; [done|]. eapply (Hb mid Hw); [|done]. lia.
      * intros inner Hs. inversion Hs as [|m ? mid ? Hw Hrest]; subst. by eapply (Hb mid Hw).
    + intros [Hd Hb]. split.
      * apply (Hd 0); [lia|constructor].
      * intros mid Hw. split.
        -- intros n inner Hn Hs. apply (Hd (S n)); [lia|]. by econstructor.
        -- intros inner Hs. apply (Hb inner). by econstructor.
Qed.

Lemma with_depth_ForcedRm k platform command :
  dangerous_command_match_with_depth k platform command = Some ForcedRm ->
  exists n inner, n < k /\ nsteps (wraps platform) n command inner /\ forced_rm platform inner.
Proof.
  revert command. induction k as [|k IH]; intros command; [done|]. simpl.
  set (below := dangerous_command_match_with_depth k platform) in *.
  assert (Hlift : forall inner, wraps platform command inner -> below inner = Some ForcedRm ->
    exists n x, n < S k /\ nsteps (wraps platform) n command x /\ forced_rm platform x).
  { intros inner Hw (n & x & Hn & Hs & Hf)%IH. exists (S n), x. split_and!; [lia|by econstructor|done]. }
  assert (Hscript : match parse_shell_lc_literal_commands try_parse_shell command with
                    | Some commands => find_map below commands | None => None end = Some ForcedRm ->
    exists n x, n < S k /\ nsteps (wraps platform) n command x /\ forced_rm platform x).
  { destruct (parse_shell_lc_literal_commands try_parse_shell command) as [cs|] eqn:E; [|done].
    intros (x & Hin & Hx)%find_map_Some. eapply Hlift; [by eapply wraps_script|done]. }
  destruct (match_for_exec_cases below platform command) as [[Hf _]|[(inner & Hi & -> & _ & _)|(-> & _ & _)]].
  - intros _. exists 0, command. split_and!; [lia|constructor|done].
  - destruct (below inner) eqn:Ei; [intros [= ->]; by eapply Hlift|].
    destruct (match parse_shell_lc_literal_commands try_parse_shell command with Some _ => _ | None => _ end); [intros [= ->]; by apply Hscript|].
    by destruct (_ && _).
  - destruct (match parse_shell_lc_literal_commands try_parse_shell command with Some _ => _ | None => _ end); [intros [= ->]; by apply Hscript|].
    by destruct (_ && _).
Qed.

(** C29. A command passes exactly when nothing it runs through at most eight
    wrappers ([sudo], [env], [trap], shell scripts) is dangerous by itself and it
    nests no more wrappers than are followed; and a command reported as a forced
    removal runs one. *)
Theorem dangerous_command_match_spec platform command :
  (dangerous_command_match_for_platform command platform = None <->
     (forall n inner, n <= MAX_DANGEROUS_COMMAND_WRAPPER_DEPTH -> nsteps (wraps platform) n command inner ->
        ~ dangerous_itself platform inner)
     /\ forall inner, ~ nsteps (wraps platform) (S MAX_DANGEROUS_COMMAND_WRAPPER_DEPTH) command inner)
  /\ (dangerous_command_match_for_platform command platform = Some ForcedRm ->
       exists n inner, n <= MAX_DANGEROUS_COMMAND_WRAPPER_DEPTH /\ nsteps (wraps platform) n command inner
       /\ forced_rm platform inner).
Proof.
  unfold dangerous_command_match_for_platform, MAX_DANGEROUS_COMMAND_WRAPPER_DEPTH. split.
  - rewrite with_depth_spec. split; intros [H1 H2]; (split; [|done]); intros n ? Hn; apply H1; lia.
  - intros (n & inner & Hn & ?)%with_depth_ForcedRm. exists n, inner. split; [lia|done].
Qed.

(** A shell script is flagged when any command in it, at any depth of its
    syntax tree (in loops, conditions, substitutions), has literal words that are
    dangerous or that run, through up to seven more wrappers, something dangerous. *)
Theorem script_danger_is_found platform shell flag script tree node words n inner :
  extract_bash_command [shell; flag; script] = Some (shell, script) ->
  try_parse_shell script = Some tree -> root_has_error tree = false ->
  named_below (root_node tree) node -> literal_command script node = Some words ->
  n < MAX_DANGEROUS_COMMAND_WRAPPER_DEPTH -> nsteps (wraps platform) n words inner -> dangerous_itself platform inner ->
  dangerous_command_match_for_platform [shell; flag; script] platform <> None.
Proof.
  intros He Hp Herr Hn Hw Hlt Hsteps Hd Hnone. unfold dangerous_command_match_for_platform in Hnone.
  apply with_depth_spec in Hnone as [Hall _]. apply (Hall (S n) inner); [lia| |done].
  eapply nsteps_l; [|done]. eapply wraps_script.
  - unfold parse_shell_lc_literal_commands. by rewrite He, Hp, Herr.
  - apply literal_commands_complete. by exists node.
Qed.

End Dangerous.

(** ** Evaluation *)

Definition no_script (_ : str) : option Tree := None.
Definition no_words (_ : str) : option (list str) := None.
Definition no_text (_ : str) : option str := None.

Example sudo_env_rm_is_flagged :
  dangerous_command_match_for_platform no_script no_words no_text no_text
    [lit "/usr/bin/sudo"; lit "env"; lit "A=b"; lit "/bin/rm"; lit "-rf"; lit "/"] Posix = Some ForcedRm
  /\ dangerous_command_match_for_platform no_script no_words no_text no_text
    [lit "rm"; lit "--"; lit "-f"] Posix = None
  /\ dangerous_command_match_for_platform no_script no_words no_text no_text
    [lit "cmd"; lit "/c"; lit "echo hi&del"; lit "/F"; lit "x"] Windows = Some OtherDanger.
Proof. split_and!; vm_compute; reflexivity. Qed.

(** [if true; then sudo rm -f x; fi]. *)
Definition hidden_script : str := lit "if true; then sudo rm -f x; fi".
Definition hidden_command : Node :=
  mkNode (lit "command") true 14 26
    [mkNode (lit "command_name") true 14 18 [leaf (lit "word") 14 18];
     leaf (lit "word") 19 21; leaf (lit "word") 22 24; leaf (lit "word") 25 26].
Definition hidden_tree : Tree :=
  mkTree (mkNode (lit "program") true 0 30 [mkNode (lit "if_statement") true 0 30 [hidden_command]]) false.
Definition hidden_parse (_ : str) : option Tree := Some hidden_tree.

Lemma script_danger_is_found_witness :
  dangerous_command_match_for_platform hidden_parse no_words no_text no_text
    [lit "/bin/bash"; lit "-lc"; hidden_script] Posix <> None.
Proof.
  apply (script_danger_is_found hidden_parse no_words no_text no_text Posix (lit "/bin/bash") (lit "-lc") hidden_script
    hidden_tree hidden_command [lit "sudo"; lit "rm"; lit "-f"; lit "x"] 1 [lit "rm"; lit "-f"; lit "x"]).
  - vm_compute; reflexivity.
  - reflexivity.
  - reflexivity.
  - eapply below_child; [eapply below_child; [apply below_here|by left]|by left].
  - vm_compute; reflexivity.
  - unfold MAX_DANGEROUS_COMMAND_WRAPPER_DEPTH. lia.
  - eapply nsteps_l; [apply wraps_sudo; vm_compute; reflexivity|constructor].
  - left. constructor; vm_compute; reflexivity.
Defined.
