(* ===== verification/UriPath.v ===== *)
(** * Paths of executors ([utils/path-uri])

    A command may run on another machine, with another path syntax, so paths are
    kept as [file:] URIs and compared lexically.  This file models [lib.rs],
    [absolute_path_normalization.rs] and the rendering half of
    [api_path_string.rs] with the text checks of [config_path.rs]: conventions,
    parents and ancestors, containment, joining, native parsing and printing.

    A URI is its authority and its path segments, percent-decoded, the last one
    empty when the path ends in a slash; [BadPath] is the fallback that stores
    the bytes of a path with no URI spelling.  Segments are text and are spelled
    canonically, as everything the crate itself builds is: the two ways of
    writing one byte ([a] and [%61]) are not told apart.  The [url] crate's
    parsing of an authority and its printing of a URI are the class [UrlOps]. *)

From stdpp Require Import base list numbers option strings sets.
From Stdlib Require Import Lia.
From S2P Require Import Prelude RustStr Utf8Stream.

Inductive PathConvention := PosixPaths | WindowsPaths.

#[export] Instance PathConvention_eq_dec : EqDecision PathConvention.
Proof. solve_decision. Defined.

Record FileUri := mkFileUri { host_str : option str; path_segments : list str }.

#[export] Instance FileUri_eq_dec : EqDecision FileUri.
Proof. solve_decision. Defined.

Inductive PathUri := FileUrl (url : FileUri) | BadPath (bytes : list N).

#[export] Instance PathUri_eq_dec : EqDecision PathUri.
Proof. solve_decision. Defined.

Inductive UriError :=
| InvalidFileUriPath (path : str)
| JoinPathMustBeDescendant (path : str).

Class UrlOps := {
  (** The host an authority is parsed to, if it is a valid one. *)
  set_host : str -> option str;
  url_to_string : PathUri -> str }.

Definition SEP : char := 47%N.
Definition BACKSEP : char := 92%N.
Definition COLON : char := 58%N.
Definition is_windows_separator_char (c : char) : bool := (c =? BACKSEP)%N || (c =? SEP)%N.

Definition is_windows (c : PathConvention) : bool :=
  match c with PosixPaths => false | WindowsPaths => true end.

(** ** Conventions *)

(** A drive as the first segment of a path. *)
Definition is_windows_drive_uri_segment (segment : str) : bool :=
  match segment with
  | [drive; colon] => is_ascii_alphabetic drive && (colon =? COLON)%N
  | _ => false
  end.

Definition is_empty_segment (s : str) : bool := is_nil s.
Definition non_empty (segments : list str) : list str := List.filter (fun s => negb (is_empty_segment s)) segments.

(** Little-endian 16-bit units; [None] when the number of bytes is odd. *)
Fixpoint wide_units (bytes : list N) : option (list N) :=
  match bytes with
  | [] => Some []
  | [_] => None
  | lo :: hi :: rest => option_map (cons (lo + 256 * hi)%N) (wide_units rest)
  end.

Definition starts_with_bytes (prefix bytes : list N) : bool := starts_with prefix bytes.

Definition infer_opaque_path_convention (path_bytes : list N) : option PathConvention :=
  if starts_with_bytes [SEP] path_bytes && negb (starts_with_bytes [SEP; 0%N] path_bytes)
  then Some PosixPaths
  else
    match wide_units path_bytes with
    | Some (first :: second :: _) =>
        let has_drive := (first <? 256)%N && is_ascii_alphabetic first && (second =? COLON)%N in
        let has_unc_prefix := is_windows_separator_char first && is_windows_separator_char second in
        if has_drive || has_unc_prefix then Some WindowsPaths else None
    | _ => None
    end.

Definition file_convention (u : FileUri) : PathConvention :=
  if is_some (host_str u) then WindowsPaths
  else match non_empty (path_segments u) with
       | s :: _ => if is_windows_drive_uri_segment s then WindowsPaths else PosixPaths
       | [] => PosixPaths
       end.

Definition infer_path_convention (p : PathUri) : option PathConvention :=
  match p with
  | BadPath bytes => infer_opaque_path_convention bytes
  | FileUrl u => Some (file_convention u)
  end.

Definition is_opaque (p : PathUri) : bool :=
  match p with BadPath _ => true | FileUrl _ => false end.

(** ** Equality, parents, containment *)

Definition path_text (u : FileUri) : str := SEP :: RustStr.join [SEP] (path_segments u).

Definition windows_identity_path_bytes (p : PathUri) : option str :=
  match p with
  | BadPath _ => None
  | FileUrl u =>
      if negb (is_windows (file_convention u))
         || existsb (existsb is_windows_separator_char) (path_segments u)
      then None else Some (path_text u)
  end.

Definition uri_host (p : PathUri) : option str :=
  match p with FileUrl u => host_str u | BadPath _ => None end.

(** [PartialEq]: Windows paths are compared without ASCII case. *)
Definition uri_eqb (p q : PathUri) : bool :=
  bool_decide (p = q)
  || match windows_identity_path_bytes p, windows_identity_path_bytes q with
     | Some a, Some b => bool_decide (uri_host p = uri_host q) && eq_ignore_ascii_case a b
     | _, _ => false
     end.

Definition anchor_depth (c : PathConvention) : nat := if is_windows c then 1 else 0.

(** [path_segments_mut]: the path of the root has no segments. *)
Definition canon (segments : list str) : list str :=
  match segments with [[]] => [] | _ => segments end.
Definition pop (segments : list str) : list str := canon (removelast segments).
Definition pop_if_empty (segments : list str) : list str :=
  match List.last segments [0%N] with [] => pop segments | _ => segments end.
Definition push (segments : list str) (s : str) : list str := canon (segments ++ [s]).

Definition uri_basename (p : PathUri) : option str :=
  match p with
  | BadPath _ => None
  | FileUrl u => list.last (non_empty (path_segments u))
  end.

Definition uri_parent (p : PathUri) : option PathUri :=
  match p with
  | BadPath _ => None
  | FileUrl u =>
      if Nat.leb (length (non_empty (path_segments u))) (anchor_depth (file_convention u)) then None
      else Some (FileUrl (mkFileUri (host_str u) (pop (pop_if_empty (path_segments u)))))
  end.

(** [ancestors] is the chain of parents; its last element within [fuel] steps. *)
Fixpoint last_ancestor (fuel : nat) (p : PathUri) : PathUri :=
  match fuel with
  | 0 => p
  | S fuel => match uri_parent p with None => p | Some q => last_ancestor fuel q end
  end.

Definition segment_count (p : PathUri) : nat :=
  match p with FileUrl u => length (path_segments u) | BadPath _ => 0 end.

(** [self.ancestors().last()]: every parent has fewer segments. *)
Definition ancestors_last (p : PathUri) : PathUri := last_ancestor (segment_count p) p.

Definition containment_path_segments (u : FileUri) (c : PathConvention) : option (list str) :=
  let segments := non_empty (path_segments u) in
  if existsb (existsb (fun ch => (ch =? SEP)%N || (is_windows c && (ch =? BACKSEP)%N))) segments
  then None else Some segments.

Definition segment_eqb (c : PathConvention) (a b : str) : bool :=
  match c with PosixPaths => str_eqb a b | WindowsPaths => eq_ignore_ascii_case a b end.

Definition native_path_segments_start_with (path base : list str) (c : PathConvention) : bool :=
  Nat.leb (length base) (length path) && forallb (fun ab => segment_eqb c (fst ab) (snd ab)) (zip path base).

Definition uri_starts_with (p base : PathUri) : bool :=
  uri_eqb p base
  || match p, base with
     | FileUrl u, FileUrl b =>
         bool_decide (host_str u = host_str b)
         && bool_decide (file_convention u = file_convention b)
         && match containment_path_segments u (file_convention u), containment_path_segments b (file_convention u) with
            | Some ps, Some bs => native_path_segments_start_with ps bs (file_convention u)
            | _, _ => false
            end
     | _, _ => false
     end.

Definition lexical_depth (p : PathUri) : option nat :=
  match p with
  | BadPath _ => None
  | FileUrl u => option_map (@length _) (containment_path_segments u (file_convention u))
  end.

Definition overlaps (p q : PathUri) : option bool :=
  if uri_eqb p q then Some true
  else match lexical_depth p, lexical_depth q with
       | Some _, Some _ => Some (uri_starts_with p q || uri_starts_with q p)
       | _, _ => None
       end.

Definition separator_text (c : PathConvention) : str :=
  match c with PosixPaths => [SEP] | WindowsPaths => [BACKSEP] end.

Definition relative_path_from (p base : PathUri) : option str :=
  if uri_eqb p base then Some []
  else match p, base with
       | FileUrl u, FileUrl b =>
           if bool_decide (host_str u = host_str b) && bool_decide (file_convention u = file_convention b) then
             match containment_path_segments u (file_convention u), containment_path_segments b (file_convention u) with
             | Some ps, Some bs =>
                 if native_path_segments_start_with ps bs (file_convention u)
                 then Some (RustStr.join (separator_text (file_convention u)) (drop (length bs) ps))
                 else None
             | _, _ => None
             end
           else None
       | _, _ => None
       end.

(** ** Native text to URIs *)

(** [PathConvention::path_segments], [home_relative_suffix]. *)
Definition convention_segments (c : PathConvention) (path : str) : list str :=
  match c with PosixPaths => split SEP path | WindowsPaths => split_by is_windows_separator_char path end.

Definition home_relative_suffix (c : PathConvention) (path : str) : option str :=
  match strip_prefix [126%N] path with
  | Some suffix =>
      if is_nil suffix || starts_with [SEP] suffix || (is_windows c && starts_with [BACKSEP] suffix)
      then Some suffix else None
  | None => None
  end.

Definition ascii_upper (c : char) : char := if (97 <=? c)%N && (c <=? 122)%N then (c - 32)%N else c.

(** [with_normalized_windows_drive_letter]. *)
Fixpoint upper_drive (segments : list str) : list str :=
  match segments with
  | [] => []
  | [] :: rest => [] :: upper_drive rest
  | s :: rest =>
      match s with
      | d :: t => if is_windows_drive_uri_segment s then (ascii_upper d :: t) :: rest else s :: rest
      | [] => s :: rest
      end
  end.

Definition contains_null (s : str) : bool := contains_char 0%N s.

(** [TryFrom<Url>] on a URL built from segments: [localhost] is dropped, the
    letter of a drive is put in upper case, null characters are rejected. *)
Definition uri_try_from {UO : UrlOps} (u : FileUri) : result PathUri UriError :=
  if existsb contains_null (path_segments u) then Err (InvalidFileUriPath (url_to_string (FileUrl u)))
  else
    let host := match host_str u with
                | Some h => if str_eqb h (lit "localhost") then None else Some h
                | None => None
                end in
    Ok (FileUrl (mkFileUri host (if is_some host then path_segments u else upper_drive (path_segments u)))).

Definition is_dot (s : str) : bool := str_eqb s (lit ".").
Definition is_dotdot (s : str) : bool := str_eqb s (lit "..").

Record Normalized := mkNormalized { n_segments : list str; n_depth : nat; n_trailing : bool }.

Definition normalize_segment (c : PathConvention) (n : Normalized) (s : str) : Normalized :=
  if is_nil s then mkNormalized (n_segments n) (n_depth n) true
  else if is_dot s then mkNormalized (n_segments n) (n_depth n) false
  else if is_dotdot s then
    if Nat.ltb (anchor_depth c) (n_depth n)
    then mkNormalized (removelast (n_segments n)) (n_depth n - 1) false
    else mkNormalized (n_segments n) (n_depth n) false
  else mkNormalized (n_segments n ++ [s]) (S (n_depth n)) false.

Definition path_uri_from_segments {UO : UrlOps} (c : PathConvention) (host : option str) (segments : list str)
    : option PathUri :=
  let n := fold_left (normalize_segment c) segments (mkNormalized [] 0 false) in
  let trailing := n_trailing n || (is_windows c && is_none host && Nat.eqb (n_depth n) (anchor_depth c)) in
  let all := if trailing then n_segments n ++ [[]] else n_segments n in
  let finish h :=
    match uri_try_from (mkFileUri h (fold_left push all [])) with Ok p => Some p | Err _ => None end in
  match host with
  | None => finish None
  | Some h => match set_host h with Some parsed => finish (Some parsed) | None => None end
  end.

Definition utf16_units (c : char) : list N :=
  if (c <? 65536)%N then [c]
  else [(55296 + (c - 65536) / 1024)%N; (56320 + (c - 65536) mod 1024)%N].
Definition windows_opaque_path_uri (path : str) : PathUri :=
  BadPath (flat_map (fun u => [(u mod 256)%N; (u / 256)%N]) (flat_map utf16_units path)).
Definition posix_opaque_path_uri (path : str) : PathUri := BadPath (encode path).

Definition parse_posix_path {UO : UrlOps} (path : str) : option PathUri :=
  match strip_prefix [SEP] path with
  | None => None
  | Some rest =>
      if contains_null rest then Some (posix_opaque_path_uri (SEP :: rest))
      else path_uri_from_segments PosixPaths None (split SEP rest)
  end.

(** [utils/absolute-path]: [normalize_windows_device_path]. *)
Definition is_windows_drive_absolute_path (path : str) : bool :=
  match path with
  | d :: c :: s :: _ => is_ascii_alphabetic d && (c =? COLON)%N && is_windows_separator_char s
  | _ => false
  end.

Definition normalize_windows_device_path (path : str) : option str :=
  match strip_prefix (lit "\\?\UNC\") path with
  | Some unc => Some (lit "\\" ++ unc)
  | None =>
      match strip_prefix (lit "\\.\UNC\") path with
      | Some unc => Some (lit "\\" ++ unc)
      | None =>
          let drive_path prefix :=
            match strip_prefix prefix path with
            | Some p => if is_windows_drive_absolute_path p then Some p else None
            | None => None
            end in
          match drive_path (lit "\\?\") with
          | Some p => Some p
          | None => drive_path (lit "\\.\")
          end
      end
  end.

Definition uses_namespace (path : str) : bool :=
  match path with
  | a :: b :: n :: s :: _ =>
      is_windows_separator_char a && is_windows_separator_char b && is_windows_separator_char s
      && ((n =? 46)%N || (n =? 63)%N)
  | _ => false
  end.

Definition parse_unnormalized_windows_path {UO : UrlOps} (path : str) : option PathUri :=
  if uses_namespace path || contains_null path then Some (windows_opaque_path_uri path)
  else if is_windows_drive_absolute_path path then
    path_uri_from_segments WindowsPaths None
      (take 2 path :: split_by is_windows_separator_char (drop 3 path))
  else
    match path with
    | a :: b :: rest =>
        if is_windows_separator_char a && is_windows_separator_char b then
          match split_by is_windows_separator_char rest with
          | host :: share :: components =>
              if is_nil host || is_nil share then None
              else if is_dot host || is_dotdot host || is_dot share || is_dotdot share
              then Some (windows_opaque_path_uri path)
              else
                match path_uri_from_segments WindowsPaths (Some host) (share :: components) with
                | Some p => if is_some_and (uri_host p) (fun h => eq_ignore_ascii_case h host)
                            then Some p else Some (windows_opaque_path_uri path)
                | None => Some (windows_opaque_path_uri path)
                end
          | _ => None
          end
        else None
    | _ => None
    end.

Definition bad_unc_component (s : option str) : bool :=
  match s with None => true | Some s => is_nil s || is_dot s || is_dotdot s end.

Definition parse_windows_path {UO : UrlOps} (path : str) : option PathUri :=
  match normalize_windows_device_path path with
  | Some normalized =>
      let opaque := windows_opaque_path_uri path in
      let bad_unc :=
        match strip_prefix (lit "\\") normalized with
        | Some unc =>
            let components := split_by is_windows_separator_char unc in
            bad_unc_component (components !! 0) || bad_unc_component (components !! 1)
        | None => false
        end in
      if bad_unc then Some opaque
      else
        match parse_unnormalized_windows_path normalized with
        | Some p =>
            if bool_decide (infer_path_convention p = Some WindowsPaths) && negb (is_opaque p)
               && (negb (starts_with (lit "\\") normalized) || is_some_and (uri_host p) (fun h => negb (is_nil h)))
            then Some p else Some opaque
        | None => Some opaque
        end
  | None => parse_unnormalized_windows_path path
  end.

Definition from_absolute_native_path {UO : UrlOps} (path : str) (c : PathConvention) : option PathUri :=
  match match c with PosixPaths => parse_posix_path path | WindowsPaths => parse_windows_path path end with
  | None => None
  | Some p =>
      if negb (bool_decide (uri_host p = Some [])) && bool_decide (infer_path_convention p = Some c) then Some p
      else Some match c with PosixPaths => posix_opaque_path_uri path | WindowsPaths => windows_opaque_path_uri path end
  end.

(** ** Joining *)

Definition join_component (c : PathConvention) (st : list str * nat) (component : str) : list str * nat :=
  let '(segments, depth) := st in
  if is_nil component || is_dot component then st
  else if is_dotdot component then
    if Nat.ltb (anchor_depth c) depth then (pop segments, depth - 1) else st
  else (push segments component, S depth).

Fixpoint pop_times (n : nat) (segments : list str) : list str :=
  match n with 0 => segments | S n => pop_times n (pop segments) end.

(** [\x] on Windows: below the drive or the share, but not a UNC path. *)
Definition is_windows_root_relative (path : str) : bool :=
  match path with
  | a :: rest =>
      is_windows_separator_char a
      && negb match rest with b :: _ => is_windows_separator_char b | [] => false end
  | [] => false
  end.

(** Appending relative native text to the path of a known URI. *)
Definition join_segments (u : FileUri) (c : PathConvention) (path : str) : list str :=
  let depth := length (non_empty (path_segments u)) in
  let root_relative := is_windows c && is_windows_root_relative path in
  let segments := pop_if_empty (path_segments u) in
  let start := if root_relative
               then (pop_times (depth - anchor_depth c) segments, Nat.min depth (anchor_depth c))
               else (segments, depth) in
  fst (fold_left (join_component c) (convention_segments c path) start).

Definition starts_with_drive (path : str) : bool :=
  match path with d :: c :: _ => is_ascii_alphabetic d && (c =? COLON)%N | _ => false end.

Definition first_segment (p : PathUri) : option str :=
  match p with FileUrl u => head (non_empty (path_segments u)) | BadPath _ => None end.

(** Whether drive-relative text ([C:x]) names the drive of the URI. *)
Definition same_drive (p : PathUri) (path : str) : bool :=
  is_some_and (first_segment p)
    (fun s => is_windows_drive_uri_segment s && eq_ignore_ascii_case (take 1 s) (take 1 path)).

Definition uri_join {UO : UrlOps} (p : PathUri) (path : str) : result PathUri UriError :=
  if contains_null path then Err (InvalidFileUriPath path)
  else if is_nil path then Ok p
  else
    match infer_path_convention p with
    | None => Err (InvalidFileUriPath (url_to_string p))
    | Some c =>
        match from_absolute_native_path path c with
        | Some absolute => Ok absolute
        | None =>
            let drive_relative := is_windows c && starts_with_drive path in
            if drive_relative && negb (same_drive p path) then Err (InvalidFileUriPath path)
            else
              let path := if drive_relative then drop 2 path else path in
              match p with
              | BadPath _ => Err (InvalidFileUriPath (url_to_string p))
              | FileUrl u => uri_try_from (mkFileUri (host_str u) (join_segments u c path))
              end
        end
    end.

Definition uri_join_descendant {UO : UrlOps} (p : PathUri) (path : str) : result PathUri UriError :=
  let? descendant := uri_join p path in
  let windows := bool_decide (infer_path_convention p = Some WindowsPaths) in
  if starts_with [SEP] path
     || (windows && (starts_with [BACKSEP] path
                     || existsb (contains_char COLON) (convention_segments WindowsPaths path)))
     || negb (uri_starts_with descendant p)
  then Err (JoinPathMustBeDescendant path)
  else Ok descendant.

(** ** URIs to native text *)

Inductive LegacyAppPathStringError :=
| OpaqueFallback (path : str)
| IncompatibleConvention (path : str) (convention : PathConvention)
| UnsupportedConfigPath (path : str) (convention : PathConvention)
| PathUriError (e : UriError).

(** [url.path_segments()]: the root has one, empty segment. *)
Definition url_segments (u : FileUri) : list str :=
  match path_segments u with [] => [[]] | l => l end.

Definition render_posix_path {UO : UrlOps} (u : FileUri) : result str LegacyAppPathStringError :=
  if is_some (host_str u) then Err (IncompatibleConvention (url_to_string (FileUrl u)) PosixPaths)
  else Ok (flat_map (cons SEP) (url_segments u)).

Definition render_windows_path {UO : UrlOps} (u : FileUri) : result str LegacyAppPathStringError :=
  let incompatible := Err (IncompatibleConvention (url_to_string (FileUrl u)) WindowsPaths) in
  let finish rendered rest :=
    let rendered := rendered ++ flat_map (cons BACKSEP) rest in
    Ok (match rendered with
        | [_; c] => if (c =? COLON)%N then rendered ++ [BACKSEP] else rendered
        | _ => rendered
        end) in
  match url_segments u with
  | [] => incompatible
  | first :: rest =>
      match host_str u with
      | Some host =>
          if is_nil first then incompatible
          else finish (lit "\\" ++ host ++ [BACKSEP] ++ first) rest
      | None => if is_windows_drive_uri_segment first then finish first rest else incompatible
      end
  end.

(** [String::from_utf8_lossy], [String::from_utf16_lossy]. *)
Fixpoint from_utf8_lossy (fuel : nat) (bs : list N) : str :=
  match fuel, bs with
  | _, [] | 0, _ => []
  | S f, _ =>
      match decode_char bs with
      | Decoded c w => c :: from_utf8_lossy f (drop w bs)
      | Malformed (Some n) => 65533%N :: from_utf8_lossy f (drop n bs)
      | Malformed None => [65533%N]
      end
  end.

Fixpoint from_utf16_lossy (us : list N) : str :=
  match us with
  | [] => []
  | u :: rest =>
      if in_range 55296 56319 u then
        match rest with
        | v :: rest' =>
            if in_range 56320 57343 v
            then (65536 + (u - 55296) * 1024 + (v - 56320))%N :: from_utf16_lossy rest'
            else 65533%N :: from_utf16_lossy rest
        | [] => [65533%N]
        end
      else (if in_range 56320 57343 u then 65533%N else u) :: from_utf16_lossy rest
  end.

Definition render_windows_opaque_fallback (bytes : list N) : option str :=
  match wide_units bytes with
  | None => None
  | Some us =>
      let has_drive_root := is_windows_drive_absolute_path us in
      let has_unc_root := match us with
                          | a :: b :: _ => is_windows_separator_char a && is_windows_separator_char b
                          | _ => false
                          end in
      if has_drive_root || has_unc_root then Some (from_utf16_lossy us) else None
  end.

Definition render_opaque_fallback {UO : UrlOps} (bytes : list N) (c : PathConvention)
    : result str LegacyAppPathStringError :=
  let rendered :=
    match c with
    | PosixPaths => if starts_with_bytes [SEP] bytes then Some (from_utf8_lossy (length bytes) bytes) else None
    | WindowsPaths => render_windows_opaque_fallback bytes
    end in
  match rendered with Some s => Ok s | None => Err (OpaqueFallback (url_to_string (BadPath bytes))) end.

Definition from_path_uri {UO : UrlOps} (p : PathUri) (c : PathConvention) : result str LegacyAppPathStringError :=
  match p with
  | BadPath bytes => render_opaque_fallback bytes c
  | FileUrl u => match c with PosixPaths => render_posix_path u | WindowsPaths => render_windows_path u end
  end.

Definition inferred_native_path_string {UO : UrlOps} (p : PathUri) : str :=
  match infer_path_convention p with
  | Some c => match from_path_uri p c with Ok s => s | Err _ => url_to_string p end
  | None => url_to_string p
  end.

(** ** Checks on configured paths *)

Definition contains_glob_metacharacter (path : str) : bool := existsb (one_of (lit "*?[]{}")) path.

Definition component_colon (segments : list str) : bool :=
  match segments with
  | [] => false
  | first :: rest =>
      contains_char COLON (if starts_with_drive first then drop 2 first else first)
      || existsb (contains_char COLON) rest
  end.

Definition mixed_home_separators (input : str) : bool :=
  is_some_and (home_relative_suffix WindowsPaths input)
    (fun suffix => starts_with [SEP] suffix && starts_with [BACKSEP] (drop_while (N.eqb SEP) suffix)
                   || starts_with [BACKSEP] suffix && starts_with [SEP] (drop_while (N.eqb BACKSEP) suffix)).

Definition validate_config_path_text (input : str) (c : PathConvention) : result unit LegacyAppPathStringError :=
  let native_input := unwrap_or (normalize_windows_device_path input) input in
  let has_windows_component_colon := is_windows c && component_colon (convention_segments c native_input) in
  let mixed := is_windows c && mixed_home_separators input in
  let bare_windows_drive := is_windows c && is_windows_drive_uri_segment native_input in
  if contains_null input || has_windows_component_colon || mixed || bare_windows_drive
  then Err (UnsupportedConfigPath input c) else Ok tt.

Definition path_contains_null (p : PathUri) : bool :=
  match p with FileUrl u => existsb contains_null (path_segments u) | BadPath _ => true end.

Definition validate_config_path {UO : UrlOps} (p : PathUri) (c : PathConvention) : result unit LegacyAppPathStringError :=
  if negb (bool_decide (infer_path_convention p = Some c)) then Err (IncompatibleConvention (url_to_string p) c)
  else if is_none (lexical_depth p) || path_contains_null p
  then Err (PathUriError (InvalidFileUriPath (url_to_string p)))
  else let? text := from_path_uri p c in validate_config_path_text text c.

Definition validate_glob_directory {UO : UrlOps} (p : PathUri) (c : PathConvention) : result unit LegacyAppPathStringError :=
  try? validate_config_path p c in
  let? path := from_path_uri p c in
  if contains_glob_metacharacter path || (negb (is_windows c) && contains_char BACKSEP path)
  then Err (UnsupportedConfigPath path c) else Ok tt.

(** ** Containment is a prefix order *)

(** What lexical comparison sees of a URI: authority and convention, and the
    segments, in lower case where the convention ignores case. *)
Definition seg_key (c : PathConvention) (s : str) : str :=
  match c with PosixPaths => s | WindowsPaths => to_ascii_lowercase s end.

Definition uri_key (p : PathUri) : option (option str * PathConvention * list str) :=
  match p with
  | BadPath _ => None
  | FileUrl u =>
      option_map (fun segs => (host_str u, file_convention u, List.map (seg_key (file_convention u)) segs))
        (containment_path_segments u (file_convention u))
  end.

Definition below (p base : PathUri) : Prop :=
  exists h c ps bs, uri_key p = Some (h, c, ps) /\ uri_key base = Some (h, c, bs) /\ bs `prefix_of` ps.

Lemma segment_eqb_key c a b : segment_eqb c a b = true <-> seg_key c a = seg_key c b.
Proof. destruct c; simpl; [apply str_eqb_spec|apply str_eqb_spec]. Qed.

Lemma segments_start_with_prefix c ps bs :
  native_path_segments_start_with ps bs c = true <-> List.map (seg_key c) bs `prefix_of` List.map (seg_key c) ps.
Proof.
  unfold native_path_segments_start_with. revert ps. induction bs as [|b bs IH]; intros ps; simpl.
  - destruct ps; simpl; split; auto using prefix_nil.
  - destruct ps as [|p ps]; simpl.
    + split; [done|]. intros H. by apply prefix_nil_not in H.
    + specialize (IH ps). rewrite andb_true_iff in IH |- *. rewrite andb_true_iff, segment_eqb_key.
      split.
      * intros [H1 [H2 H3]]. rewrite H2. apply prefix_cons, IH. done.
      * intros H. pose proof (prefix_cons_inv_1 _ _ _ _ H) as E. apply prefix_cons_inv_2 in H.
        apply IH in H as [H1 H2]. done.
Qed.

Lemma ascii_lower_sep x : is_windows_separator_char (ascii_lower x) = is_windows_separator_char x.
Proof.
  unfold ascii_lower, is_windows_separator_char, SEP, BACKSEP.
  destruct ((65 <=? x)%N && (x <=? 90)%N) eqn:E; [|done].
  apply andb_true_iff in E as [E1 E2]. apply N.leb_le in E1, E2.
  repeat match goal with |- context [(?a =? ?b)%N] => destruct (N.eqb_spec a b); try lia end; done.
Qed.

Lemma lower_join l :
  to_ascii_lowercase (RustStr.join [SEP] l) = RustStr.join [SEP] (List.map to_ascii_lowercase l).
Proof.
  induction l as [|a l IH]; [done|]. destruct l as [|b l]; [done|].
  change (RustStr.join [SEP] (a :: b :: l)) with (a ++ [SEP] ++ RustStr.join [SEP] (b :: l)).
  unfold to_ascii_lowercase in *. rewrite !map_app, IH. done.
Qed.

Lemma lower_no_sep s : existsb is_windows_separator_char s = false -> SEP ∉ to_ascii_lowercase s.
Proof.
  intros H Hin. apply list_elem_of_In, in_map_iff in Hin as (x & Hx & Hin).
  assert (is_windows_separator_char x = true) as Hs by (rewrite <- ascii_lower_sep, Hx; done).
  rewrite <- not_true_iff_false, existsb_exists in H. eauto.
Qed.

Lemma lower_segments_inj l l' :
  existsb (existsb is_windows_separator_char) l = false ->
  existsb (existsb is_windows_separator_char) l' = false ->
  to_ascii_lowercase (RustStr.join [SEP] l) = to_ascii_lowercase (RustStr.join [SEP] l') ->
  List.map to_ascii_lowercase (non_empty l) = List.map to_ascii_lowercase (non_empty l').
Proof.
  assert (forall l, existsb (existsb is_windows_separator_char) l = false ->
            Forall (fun s => SEP ∉ s) (List.map to_ascii_lowercase l)) as Hno.
  { intros k H. apply Forall_forall. intros s Hs. apply list_elem_of_In, in_map_iff in Hs as (t & <- & Ht).
    apply lower_no_sep. rewrite <- not_true_iff_false, existsb_exists in H.
    apply not_true_iff_false. intros E. eauto. }
  assert (forall l, List.map to_ascii_lowercase (non_empty l) = non_empty (List.map to_ascii_lowercase l)) as Hne.
  { intros k. unfold non_empty. induction k as [|a k IH]; [done|]. simpl.
    destruct a; simpl; rewrite IH; done. }
  intros H H' E. rewrite !Hne, !lower_join in *. pose proof (Hno _ H) as N. pose proof (Hno _ H') as N'.
  destruct (decide (l = [])) as [->|Hl]; destruct (decide (l' = [])) as [->|Hl']; [done| | |].
  - destruct l' as [|a [|b l']]; [done| |]; simpl in *.
    + by rewrite <- E.
    + by destruct (to_ascii_lowercase a).
  - destruct l as [|a [|b l]]; [done| |]; simpl in *.
    + by rewrite E.
    + by destruct (to_ascii_lowercase a).
  - rewrite <- (split_join SEP (List.map to_ascii_lowercase l)), <- (split_join SEP (List.map to_ascii_lowercase l')), E;
      try done; by destruct l, l'.
Qed.

Lemma non_empty_sub l : forall s, s ∈ non_empty l -> s ∈ l.
Proof. intros s H. apply list_elem_of_In, filter_In in H as [H _]. by apply list_elem_of_In. Qed.

Lemma containment_windows u :
  existsb (existsb is_windows_separator_char) (path_segments u) = false ->
  containment_path_segments u WindowsPaths = Some (non_empty (path_segments u)).
Proof.
  intros H. unfold containment_path_segments.
  destruct (existsb _ (non_empty _)) eqn:E; [|done].
  apply existsb_exists in E as (s & Hs & Hc). apply existsb_exists in Hc as (x & Hx & Hc).
  assert (existsb (existsb is_windows_separator_char) (path_segments u) = true); [|congruence].
  apply existsb_exists. exists s. split; [by apply list_elem_of_In, non_empty_sub, list_elem_of_In|].
  apply existsb_exists. exists x. split; [done|]. unfold is_windows_separator_char. simpl in Hc.
  by rewrite orb_comm.
Qed.

Lemma uri_eqb_spec p q : uri_eqb p q = true -> p = q \/ exists k, uri_key p = Some k /\ uri_key q = Some k.
Proof.
  unfold uri_eqb. rewrite orb_true_iff, bool_decide_eq_true. intros [E|H]; [by left|].
  destruct p as [u|?], q as [v|?]; simpl in H; try done; [|by case_match].
  destruct (negb (is_windows (file_convention u)) || _) eqn:Hu; [done|].
  destruct (negb (is_windows (file_convention v)) || _) eqn:Hv; [done|].
  apply orb_false_iff in Hu as [Cu Su]. apply orb_false_iff in Hv as [Cv Sv].
  apply negb_false_iff in Cu, Cv. destruct (file_convention u) eqn:Eu; [done|].
  destruct (file_convention v) eqn:Ev; [done|].
  apply andb_true_iff in H as [Hh Ht]. apply bool_decide_eq_true in Hh.
  apply str_eqb_spec in Ht. unfold path_text in Ht. simpl in Ht. injection Ht as Ht.
  right. eexists. split; simpl.
  - rewrite Eu, containment_windows by done. done.
  - rewrite Ev, containment_windows by done. simpl. do 2 f_equal; [by rewrite Hh|]. symmetry.
    by apply lower_segments_inj.
Qed.

(** Containment is identity or a prefix of the compared segments. *)
Lemma starts_with_below p b : uri_starts_with p b = true <-> p = b \/ below p b.
Proof.
  unfold uri_starts_with. rewrite orb_true_iff. split.
  - intros [H|H].
    + apply uri_eqb_spec in H as [->|([[h c] segs] & H1 & H2)]; [by left|]. right. exists h, c, segs, segs. done.
    + destruct p as [u|?], b as [v|?]; try done. right.
      rewrite !andb_true_iff, !bool_decide_eq_true in H. destruct H as [[Hh Hc] H].
      destruct (containment_path_segments u _) as [ps|] eqn:Ep; [|done].
      destruct (containment_path_segments v _) as [bs|] eqn:Eb; [|done].
      apply segments_start_with_prefix in H.
      exists (host_str u), (file_convention u), (List.map (seg_key (file_convention u)) ps), (List.map (seg_key (file_convention u)) bs).
      simpl. rewrite Ep, <- Hc, Eb, Hh. done.
  - intros [->|(h & c & ps & bs & Hp & Hb & Hpre)].
    + left. unfold uri_eqb. by rewrite bool_decide_true.
    + right. destruct p as [u|?], b as [v|?]; try done. simpl in *.
      destruct (containment_path_segments u _) as [ps'|] eqn:Ep; [|done].
      destruct (containment_path_segments v _) as [bs'|] eqn:Eb; [|done]. simpl in *. simplify_eq.
      rewrite !bool_decide_true by congruence. simpl.
      match goal with H : file_convention u = file_convention v |- _ => rewrite <- H in Eb, Hpre end.
      rewrite Eb. by apply segments_start_with_prefix.
Qed.

Lemma key_depth p : lexical_depth p = option_map (fun k => length (snd k)) (uri_key p).
Proof.
  destruct p as [u|?]; [|done]. simpl. destruct (containment_path_segments u _); [|done].
  simpl. by rewrite length_map.
Qed.

Lemma key_convention p h c segs : uri_key p = Some (h, c, segs) -> infer_path_convention p = Some c.
Proof. destruct p as [u|?]; [|done]. simpl. destruct (containment_path_segments u _); simpl; intros; by simplify_eq. Qed.

Lemma depth_key p d : lexical_depth p = Some d -> exists h c segs, uri_key p = Some (h, c, segs) /\ length segs = d.
Proof. rewrite key_depth. destruct (uri_key p) as [[[h c] segs]|]; simpl; naive_solver. Qed.

Lemma below_key p b h c ps : uri_key p = Some (h, c, ps) -> uri_starts_with p b = true ->
  exists bs, uri_key b = Some (h, c, bs) /\ bs `prefix_of` ps.
Proof.
  intros Hp H. apply starts_with_below in H as [<-|(h' & c' & ps' & bs & Hp' & Hb & Hpre)]; [by exists ps|].
  rewrite Hp in Hp'. simplify_eq. by exists bs.
Qed.

Lemma key_below p b h c ps bs :
  uri_key p = Some (h, c, ps) -> uri_key b = Some (h, c, bs) -> bs `prefix_of` ps -> uri_starts_with p b = true.
Proof. intros. apply starts_with_below. right. exists h, c, ps, bs. done. Qed.

Lemma sw_refl p : uri_starts_with p p = true.
Proof. apply starts_with_below. by left. Qed.

Lemma sw_trans p q r : uri_starts_with p q = true -> uri_starts_with q r = true -> uri_starts_with p r = true.
Proof.
  rewrite !starts_with_below. intros [->|(h & c & ps & qs & Hp & Hq & H1)]; [done|].
  intros [<-|(h' & c' & qs' & rs & Hq' & Hr & H2)]; right; [by exists h, c, ps, qs|].
  rewrite Hq in Hq'. simplify_eq. exists h', c', ps, rs. split_and!; [done..|]. by etrans.
Qed.

Lemma sw_depth p q d : uri_starts_with p q = true -> lexical_depth p = Some d ->
  exists d', lexical_depth q = Some d' /\ d' <= d.
Proof.
  intros H (h & c & ps & Hp & <-)%depth_key. destruct (below_key _ _ _ _ _ Hp H) as (bs & Hq & Hpre).
  exists (length bs). rewrite key_depth, Hq. split; [done|by apply prefix_length].
Qed.

Lemma sw_convention p q : uri_starts_with p q = true -> infer_path_convention p = infer_path_convention q.
Proof.
  rewrite starts_with_below. intros [->|(h & c & ps & bs & Hp & Hq & _)]; [done|].
  by rewrite (key_convention _ _ _ _ Hp), (key_convention _ _ _ _ Hq).
Qed.

Lemma sw_linear p a b da db :
  uri_starts_with p a = true -> uri_starts_with p b = true ->
  lexical_depth a = Some da -> lexical_depth b = Some db -> da <= db -> uri_starts_with b a = true.
Proof.
  intros Ha Hb Da Db Hle. apply depth_key in Da as (h & c & as_ & Ka & <-). apply depth_key in Db as (h' & c' & bs & Kb & <-).
  apply starts_with_below in Ha as [->|(h1 & c1 & ps & as1 & Kp & Ka1 & Pa)].
  - destruct (below_key _ _ _ _ _ Ka Hb) as (bs' & Kb' & Hpre). rewrite Kb in Kb'. simplify_eq.
    assert (bs' = as_) as -> by (apply prefix_length_eq; [done|lia]). by eapply key_below.
  - rewrite Ka in Ka1. simplify_eq. destruct (below_key _ _ _ _ _ Kp Hb) as (bs' & Kb' & Pb).
    rewrite Kb in Kb'. simplify_eq. eapply key_below; [done..|].
    destruct (prefix_weak_total _ _ _ Pa Pb) as [|H]; [done|].
    assert (bs' = as1) as -> by (apply prefix_length_eq; [done|lia]). done.
Qed.

(** ** Parents and roots *)

Lemma non_empty_canon l : non_empty (canon l) = non_empty l.
Proof. destruct l as [|[|] [|]]; done. Qed.

Lemma non_empty_app l l' : non_empty (l ++ l') = non_empty l ++ non_empty l'.
Proof. unfold non_empty. apply List.filter_app. Qed.

Lemma non_empty_pop l :
  non_empty (pop l) = non_empty l \/ non_empty (pop l) = removelast (non_empty l).
Proof.
  unfold pop. rewrite non_empty_canon. destruct l as [|x l _] using rev_ind; [by left|].
  rewrite removelast_last, non_empty_app. destruct x as [|ch x].
  - left. simpl. by rewrite app_nil_r.
  - right. change (non_empty [ch :: x]) with [ch :: x]. by rewrite removelast_last.
Qed.

Lemma last_snoc_default {A} (l : list A) x d : List.last (l ++ [x]) d = x.
Proof. induction l as [|a l IH]; [done|]. simpl. destruct (l ++ [x]) eqn:E; [by destruct l|]. rewrite <- E in *. done. Qed.

Lemma non_empty_pop_if_empty l : non_empty (pop_if_empty l) = non_empty l.
Proof.
  unfold pop_if_empty. destruct l as [|x l _] using rev_ind; [done|]. rewrite last_snoc_default.
  destruct x as [|ch x]; [|done]. unfold pop.
  rewrite removelast_last, non_empty_canon, non_empty_app. simpl. by rewrite app_nil_r.
Qed.

Lemma length_canon l : length (canon l) <= length l.
Proof. destruct l as [|[|] [|]]; simpl; lia. Qed.
Lemma length_pop l : l <> [] -> length (pop l) < length l.
Proof.
  intros Hl. unfold pop. destruct l as [|x l _] using rev_ind; [done|].
  rewrite removelast_last, length_app. pose proof (length_canon l). simpl. lia.
Qed.
Lemma length_pop_le l : length (pop l) <= length l.
Proof. destruct (decide (l = [])) as [->|H]; [done|]. apply length_pop in H. lia. Qed.
Lemma length_pop_if_empty l : length (pop_if_empty l) <= length l.
Proof. unfold pop_if_empty. case_match; [apply length_pop_le|done]. Qed.

Lemma convention_by_head u v :
  host_str u = host_str v -> head (non_empty (path_segments u)) = head (non_empty (path_segments v)) ->
  file_convention u = file_convention v.
Proof.
  intros Hh H. unfold file_convention. rewrite Hh. case_match; [done|].
  by destruct (non_empty (path_segments u)), (non_empty (path_segments v)); simplify_eq/=.
Qed.

Lemma containment_sub u v c segs :
  (forall s, s ∈ non_empty (path_segments v) -> s ∈ non_empty (path_segments u)) ->
  containment_path_segments u c = Some segs -> containment_path_segments v c = Some (non_empty (path_segments v)).
Proof.
  unfold containment_path_segments. intros Hsub.
  destruct (existsb _ (non_empty (path_segments u))) eqn:E; [done|]. intros _.
  destruct (existsb _ (non_empty (path_segments v))) eqn:E'; [|done].
  apply existsb_exists in E' as (s & Hs & Hc). apply list_elem_of_In, Hsub, list_elem_of_In in Hs.
  rewrite <- not_true_iff_false, existsb_exists in E. destruct E. eauto.
Qed.

Lemma removelast_prefix {A} (l : list A) : removelast l `prefix_of` l.
Proof. destruct l as [|x l _] using rev_ind; [done|]. rewrite removelast_last. by apply prefix_app_r. Qed.

Lemma uri_parent_key p q h c ks :
  uri_key p = Some (h, c, ks) -> uri_parent p = Some q ->
  segment_count q < segment_count p /\ exists ks', uri_key q = Some (h, c, ks') /\ ks' `prefix_of` ks.
Proof.
  destruct p as [u|?]; [|done]. simpl. destruct (containment_path_segments u _) as [segs|] eqn:Ec; [|done].
  simpl. intros [= <- <- <-]. destruct (Nat.leb _ _) eqn:Hd; [done|]. intros [= <-]. bool_to_prop. simpl.
  set (v := mkFileUri (host_str u) (pop (pop_if_empty (path_segments u)))).
  assert (non_empty (path_segments v) `prefix_of` non_empty (path_segments u)) as Hpre.
  { subst v. simpl. rewrite <- (non_empty_pop_if_empty (path_segments u)).
    destruct (non_empty_pop (pop_if_empty (path_segments u))) as [->| ->]; [done|apply removelast_prefix]. }
  assert (file_convention v = file_convention u) as Hconv.
  { destruct Hpre as [tail Htail]. destruct (non_empty (path_segments v)) as [|x xs] eqn:Ev.
    - unfold file_convention in *. change (host_str v) with (host_str u). rewrite Ev. rewrite Htail in *. simpl in *.
      destruct (is_some (host_str u)); [done|]. destruct tail as [|t tail]; [done|].
      destruct (is_windows_drive_uri_segment t) eqn:Et; [|done]. exfalso.
      pose proof (non_empty_pop (pop_if_empty (path_segments u))) as Hp.
      rewrite Ev, non_empty_pop_if_empty, Htail in Hp. destruct Hp as [Hp|Hp]; [done|]. destruct tail; cbn in Hd; [lia|done].
    - apply convention_by_head; [done|]. by rewrite Ev, Htail. }
  split.
  - pose proof (length_pop_if_empty (path_segments u)). subst v. simpl.
    destruct (decide (pop_if_empty (path_segments u) = [])) as [E|E].
    + exfalso. pose proof (non_empty_pop_if_empty (path_segments u)) as Hn. rewrite E in Hn. simpl in Hn.
      rewrite <- Hn in Hd. simpl in Hd. lia.
    + pose proof (length_pop _ E). lia.
  - pose proof Ec as Ec'. unfold containment_path_segments in Ec'. case_match; [done|]. injection Ec' as <-.
    eexists. change (host_str u) with (host_str v). rewrite Hconv.
    erewrite containment_sub; [split; [done|]|intros s Hs; destruct Hpre as [k Hk]; rewrite Hk; set_solver|exact Ec].
    destruct Hpre as [k Hk]. rewrite Hk, map_app. by apply prefix_app_r.
Qed.

(** The root of a path: the last of its ancestors, without a parent, above it. *)
Lemma last_ancestor_key fuel p h c ks :
  segment_count p <= fuel -> uri_key p = Some (h, c, ks) ->
  uri_parent (last_ancestor fuel p) = None /\
  exists ks', uri_key (last_ancestor fuel p) = Some (h, c, ks') /\ ks' `prefix_of` ks.
Proof.
  revert p ks. induction fuel as [|fuel IH]; intros p ks Hc Hk; simpl.
  - split; [|by exists ks]. destruct (uri_parent p) as [q|] eqn:E; [|done].
    destruct (uri_parent_key _ _ _ _ _ Hk E) as [Hlt _]. lia.
  - destruct (uri_parent p) as [q|] eqn:E; [|by eauto].
    destruct (uri_parent_key _ _ _ _ _ Hk E) as [Hlt (ks' & Hq & Hpre)].
    destruct (IH q ks') as [H1 (ks'' & H2 & H3)]; [lia|done|]. split; [done|]. exists ks''. split; [done|by etrans].
Qed.

Lemma root_depth p h c ks : uri_key p = Some (h, c, ks) -> uri_parent p = None -> length ks <= anchor_depth c.
Proof.
  destruct p as [u|?]; [|done]. simpl. destruct (containment_path_segments u _) as [segs|] eqn:Ec; [|done].
  simpl. intros [= <- <- <-]. destruct (Nat.leb _ _) eqn:Hd; [|done]. intros _. bool_to_prop.
  unfold containment_path_segments in Ec. case_match; [done|]. injection Ec as <-. by rewrite length_map.
Qed.

Lemma posix_host p h ks : uri_key p = Some (h, PosixPaths, ks) -> h = None.
Proof.
  destruct p as [u|?]; [|done]. simpl. destruct (containment_path_segments u _); [|done].
  simpl. intros [= <- Hc _]. unfold file_convention in Hc. by destruct (host_str u).
Qed.

(** On POSIX every lexical path lies below the root of every other. *)
Lemma posix_root_above p q d e :
  infer_path_convention p = Some PosixPaths -> infer_path_convention q = Some PosixPaths ->
  lexical_depth p = Some d -> lexical_depth q = Some e -> uri_starts_with q (ancestors_last p) = true.
Proof.
  intros Cp Cq (h & c & ks & Hp & _)%depth_key (h' & c' & ks' & Hq & _)%depth_key.
  rewrite (key_convention _ _ _ _ Hp) in Cp. rewrite (key_convention _ _ _ _ Hq) in Cq. simplify_eq.
  rewrite (posix_host _ _ _ Hp) in Hp. rewrite (posix_host _ _ _ Hq) in Hq.
  destruct (last_ancestor_key _ _ _ _ _ (Nat.le_refl _) Hp) as [Hn (rs & Hr & _)].
  pose proof (root_depth _ _ _ _ Hr Hn) as Hd. simpl in Hd. destruct rs; [|simpl in Hd; cbn in Hd; lia].
  eapply key_below; [done..|]. apply prefix_nil.
Qed.

Lemma ancestors_last_above p d : lexical_depth p = Some d ->
  uri_starts_with p (ancestors_last p) = true /\ uri_parent (ancestors_last p) = None.
Proof.
  intros (h & c & ks & Hp & _)%depth_key.
  destruct (last_ancestor_key _ _ _ _ _ (Nat.le_refl _) Hp) as [Hn (rs & Hr & Hpre)].
  split; [by eapply key_below|done].
Qed.

(** ** Joining plain relative paths *)

(** A file name that no convention reads as anything else. *)
Definition plain_name (s : str) : Prop :=
  s <> [] /\ s <> lit "." /\ s <> lit ".." /\
  Forall (fun ch => is_windows_separator_char ch = false /\ ch <> COLON /\ ch <> 0%N) s.

Definition relative_text (c : PathConvention) (names : list str) : str := RustStr.join (separator_text c) names.

Lemma split_by_plain (p : char -> bool) s : Forall (fun ch => p ch = false) s -> split_by p s = [s].
Proof. induction 1 as [|x s Hx _ IH]; [done|]. simpl. by rewrite Hx, IH. Qed.

Lemma split_by_app_sep (p : char -> bool) a c s :
  Forall (fun ch => p ch = false) a -> p c = true -> split_by p (a ++ c :: s) = a :: split_by p s.
Proof. induction 1 as [|x a Hx _ IH]; intros Hc; simpl; [by rewrite Hc|]. by rewrite Hx, IH. Qed.

Lemma split_by_join (p : char -> bool) c ls :
  p c = true -> ls <> [] -> Forall (Forall (fun ch => p ch = false)) ls -> split_by p (RustStr.join [c] ls) = ls.
Proof.
  intros Hc Hl. induction 1 as [|a ls Ha Hls IH]; [done|]. destruct ls as [|b ls]; [by apply split_by_plain|].
  change (RustStr.join [c] (a :: b :: ls)) with (a ++ c :: RustStr.join [c] (b :: ls)).
  rewrite split_by_app_sep by done. f_equal. by apply IH.
Qed.

Lemma plain_no_sep s : plain_name s -> Forall (fun ch => is_windows_separator_char ch = false) s.
Proof. intros (_ & _ & _ & H). eapply Forall_impl; [done|]. naive_solver. Qed.

Lemma convention_segments_relative c names :
  names <> [] -> Forall plain_name names -> convention_segments c (relative_text c names) = names.
Proof.
  intros Hn Hp. destruct c; unfold relative_text; simpl.
  - apply split_join; [done|]. eapply Forall_impl; [done|]. intros s Hs Hin.
    apply plain_no_sep in Hs. rewrite Forall_forall in Hs. by apply Hs in Hin.
  - apply split_by_join; [done..|]. eapply Forall_impl; [done|]. apply plain_no_sep.
Qed.

(** Text made of plain names starts with no separator and has no colon. *)
Definition relative_like (path : str) : Prop :=
  COLON ∉ path /\ 0%N ∉ path /\ match path with [] => False | ch :: _ => is_windows_separator_char ch = false end.

Lemma relative_text_like c names : names <> [] -> Forall plain_name names -> relative_like (relative_text c names).
Proof.
  intros Hn Hp.
  assert (forall x, x ∉ separator_text c -> (forall s, s ∈ names -> x ∉ s) -> x ∉ relative_text c names) as Hnot.
  { intros x Hx Hs. unfold relative_text. clear -Hx Hs. induction names as [|a l IH]; [set_solver|].
    destruct l as [|b l]; [simpl; set_solver|].
    change (RustStr.join (separator_text c) (a :: b :: l)) with (a ++ separator_text c ++ RustStr.join (separator_text c) (b :: l)).
    rewrite !elem_of_app. intros [H|[H|H]]; [set_solver|done|]. apply IH; [set_solver|done]. }
  rewrite Forall_forall in Hp.
  assert (forall s ch, s ∈ names -> ch ∈ s -> is_windows_separator_char ch = false /\ ch <> COLON /\ ch <> 0%N) as Hch.
  { intros s ch Hs Hin. destruct (Hp _ Hs) as (_ & _ & _ & H). rewrite Forall_forall in H. auto. }
  split_and!.
  - apply Hnot; [destruct c; cbv; set_solver|]. intros s Hs Hin. by destruct (Hch _ _ Hs Hin) as (_ & H & _).
  - apply Hnot; [destruct c; cbv; set_solver|]. intros s Hs Hin. by destruct (Hch _ _ Hs Hin) as (_ & _ & H).
  - destruct names as [|a names]; [done|]. destruct (Hp a) as (Ha & _); [set_solver|]. destruct a as [|ch a]; [done|].
    assert (is_windows_separator_char ch = false) by (eapply (Hch (ch :: a)); set_solver).
    destruct names; done.
Qed.

Lemma strip_prefix_head_ne a p ch s : ch <> a -> strip_prefix (a :: p) (ch :: s) = None.
Proof. intros H. simpl. destruct (a =? ch)%N eqn:E; [|done]. apply N.eqb_eq in E. congruence. Qed.

Section Joins.
  Context {UO : UrlOps}.

Lemma from_absolute_relative c path : relative_like path -> from_absolute_native_path path c = None.
Proof.
  intros (Hcolon & Hnull & Hhead). destruct path as [|ch path]; [done|].
  assert (ch <> SEP /\ ch <> BACKSEP) as [Hs Hb] by (split; intros ->; done).
  unfold from_absolute_native_path. destruct c.
  - unfold parse_posix_path. by rewrite strip_prefix_head_ne.
  - unfold parse_windows_path, normalize_windows_device_path.
    change (lit "\\?\UNC\") with (BACKSEP :: lit "\?\UNC\"). change (lit "\\.\UNC\") with (BACKSEP :: lit "\.\UNC\").
    change (lit "\\?\") with (BACKSEP :: lit "\?\"). change (lit "\\.\") with (BACKSEP :: lit "\.\").
    rewrite !strip_prefix_head_ne by done. unfold parse_unnormalized_windows_path.
    assert (contains_null (ch :: path) = false) as ->.
    { apply not_true_iff_false. unfold contains_null, contains_char. rewrite existsb_exists.
      intros (x & Hx & <-%N.eqb_eq). apply Hnull. by apply list_elem_of_In. }
    assert (uses_namespace (ch :: path) = false) as -> by (destruct path as [|? [|? [|? ?]]]; simpl; by rewrite ?Hhead).
    assert (is_windows_drive_absolute_path (ch :: path) = false) as ->.
    { destruct path as [|x [|? ?]]; [done..|]. simpl. destruct (x =? COLON)%N eqn:E; [|by rewrite andb_false_r].
      apply N.eqb_eq in E. set_solver. }
    simpl. destruct path; [done|]. by rewrite Hhead.
Qed.

Lemma is_dot_false s : s <> lit "." -> is_dot s = false.
Proof. apply str_eqb_false. Qed.
Lemma is_dotdot_false s : s <> lit ".." -> is_dotdot s = false.
Proof. apply str_eqb_false. Qed.

Lemma join_component_plain c segs depth s :
  plain_name s -> join_component c (segs, depth) s = (push segs s, S depth).
Proof.
  intros (Hne & Hd & Hdd & _). unfold join_component.
  by rewrite is_dot_false, is_dotdot_false, (proj2 (is_nil_false s)) by done.
Qed.

Lemma fold_join_names c names segs depth :
  Forall plain_name names ->
  non_empty (fst (fold_left (join_component c) names (segs, depth))) = non_empty segs ++ names.
Proof.
  intros H. revert segs depth. induction H as [|s names Hs _ IH]; intros segs depth; [simpl; by rewrite app_nil_r|].
  cbn [fold_left]. rewrite join_component_plain, IH by done. unfold push. rewrite non_empty_canon, non_empty_app.
  destruct Hs as [Hs _]. destruct s as [|ch s]; [done|].
  change (non_empty [ch :: s]) with [ch :: s]. by rewrite <- app_assoc.
Qed.

Lemma contains_char_absent ch s : ch ∉ s -> contains_char ch s = false.
Proof.
  intros H. apply not_true_iff_false. unfold contains_char. rewrite existsb_exists. intros (x & Hx & <-%N.eqb_eq).
  apply H. by apply list_elem_of_In.
Qed.

(** A relative path of plain names is appended to the segments. *)
Lemma uri_join_names u names :
  names <> [] -> Forall plain_name names ->
  let path := relative_text (file_convention u) names in
  let segs := join_segments u (file_convention u) path in
  non_empty segs = non_empty (path_segments u) ++ names /\
  uri_join (FileUrl u) path = uri_try_from (mkFileUri (host_str u) segs).
Proof.
  intros Hn Hp. cbv zeta. set (c := file_convention u). pose proof (relative_text_like c names Hn Hp) as Hl.
  pose proof Hl as (Hc & H0 & Hh).
  assert (is_windows_root_relative (relative_text c names) = false) as Hr.
  { unfold is_windows_root_relative. destruct (relative_text c names); [done|]. by rewrite Hh. }
  assert (starts_with_drive (relative_text c names) = false) as Hd.
  { unfold starts_with_drive. destruct (relative_text c names) as [|a [|b ?]]; [done..|].
    destruct (b =? COLON)%N eqn:E; [|by rewrite andb_false_r]. apply N.eqb_eq in E. set_solver. }
  split.
  - unfold join_segments. rewrite Hr, andb_false_r, convention_segments_relative by done.
    by rewrite fold_join_names, non_empty_pop_if_empty.
  - unfold uri_join, contains_null. rewrite contains_char_absent by done.
    rewrite (proj2 (is_nil_false _)) by (by destruct (relative_text c names)).
    simpl infer_path_convention. cbv iota beta. fold c. rewrite from_absolute_relative by done.
    by rewrite Hd, andb_false_r.
Qed.

Lemma upper_drive_head l :
  non_empty (upper_drive l) = non_empty l \/
  exists d rest, non_empty l = [d; COLON] :: rest /\ is_ascii_alphabetic d = true /\
                 non_empty (upper_drive l) = [ascii_upper d; COLON] :: rest.
Proof.
  induction l as [|s l IH]; [by left|]. destruct s as [|d t]; [exact IH|]. cbn [upper_drive].
  destruct (is_windows_drive_uri_segment (d :: t)) eqn:E; [|by left].
  right. exists d, (non_empty l). destruct t as [|x [|? ?]]; [done| |done]. simpl in E.
  apply andb_true_iff in E as [Hd Hx]. apply N.eqb_eq in Hx as ->. done.
Qed.

Lemma ascii_upper_lower d : is_ascii_alphabetic d = true ->
  ascii_lower (ascii_upper d) = ascii_lower d /\ is_ascii_alphabetic (ascii_upper d) = true.
Proof.
  unfold is_ascii_alphabetic, ascii_lower, ascii_upper. intros H.
  rewrite orb_true_iff, !andb_true_iff, !N.leb_le in H.
  repeat match goal with |- context [(?a <=? ?b)%N] => destruct (N.leb_spec a b) end; simpl in *; split; try lia; try done; exfalso; lia.
Qed.

(** [TryFrom<Url>] keeps what comparison sees, except a [localhost] authority. *)
Lemma uri_try_from_key u q :
  uri_try_from u = Ok q -> host_str u <> Some (lit "localhost") ->
  exists v, q = FileUrl v /\ host_str v = host_str u /\ file_convention v = file_convention u /\
    List.map (seg_key (file_convention u)) (non_empty (path_segments v))
    = List.map (seg_key (file_convention u)) (non_empty (path_segments u)).
Proof.
  unfold uri_try_from. case_match; [done|]. intros [= <-] Hl. eexists. split; [done|].
  assert (match host_str u with Some h => if str_eqb h (lit "localhost") then None else Some h | None => None end
          = host_str u) as ->.
  { destruct (host_str u) as [h|] eqn:E; [|done]. rewrite (proj2 (str_eqb_false _ _)); [done|congruence]. }
  simpl. split; [done|]. destruct (host_str u) as [h|] eqn:Eh.
  - unfold file_convention. by rewrite Eh.
  - unfold file_convention. simpl. rewrite Eh. simpl.
    destruct (upper_drive_head (path_segments u)) as [->|(d & rest & Hu & Hd & ->)]; [done|].
    rewrite Hu. simpl. destruct (ascii_upper_lower d Hd) as [Hl' Ha]. rewrite Hd, Ha. simpl. by rewrite Hl'.
Qed.

Definition sep_in (c : PathConvention) : list str -> bool :=
  existsb (existsb (fun ch => (ch =? SEP)%N || (is_windows c && (ch =? BACKSEP)%N))).

Lemma sep_in_key c l : sep_in c (List.map (seg_key c) l) = sep_in c l.
Proof.
  unfold sep_in. induction l as [|s l IH]; [done|]. simpl. rewrite IH. f_equal. destruct c; [done|]. simpl.
  induction s as [|x s IHs]; [done|]. simpl. rewrite IHs. f_equal.
  pose proof (ascii_lower_sep x) as H. unfold is_windows_separator_char in H. by rewrite orb_comm, H, orb_comm.
Qed.

Lemma plain_segments_contained segs names c :
  sep_in c segs = false -> Forall plain_name names -> sep_in c (segs ++ names) = false.
Proof.
  unfold sep_in. intros H Hn. rewrite existsb_app, H. simpl. apply not_true_iff_false. rewrite existsb_exists.
  intros (s & Hs & Hx). apply existsb_exists in Hx as (x & Hx & Hc). apply list_elem_of_In in Hs, Hx.
  rewrite Forall_forall in Hn. apply Hn, plain_no_sep in Hs. rewrite Forall_forall in Hs. apply Hs in Hx.
  unfold is_windows_separator_char in Hx. apply orb_false_iff in Hx as [H1 H2].
  by rewrite H1, H2, andb_false_r in Hc.
Qed.

(** Containment after appending names to a lexical path. *)
Lemma uri_try_from_names u segs names ks q :
  uri_key (FileUrl u) = Some (host_str u, file_convention u, ks) ->
  host_str u <> Some (lit "localhost") -> Forall plain_name names ->
  non_empty segs = non_empty (path_segments u) ++ names ->
  uri_try_from (mkFileUri (host_str u) segs) = Ok q ->
  uri_key q = Some (host_str u, file_convention u, ks ++ List.map (seg_key (file_convention u)) names).
Proof.
  intros Hk Hl Hn Hs Hq. simpl in Hk. destruct (containment_path_segments u _) as [us|] eqn:Ec; [|done].
  simpl in Hk. injection Hk as <-. pose proof Ec as Ec'. unfold containment_path_segments in Ec.
  destruct (existsb _ (non_empty (path_segments u))) eqn:Hx; [done|]. injection Ec as <-.
  set (w := mkFileUri (host_str u) segs) in *.
  assert (file_convention w = file_convention u) as Hc.
  { unfold file_convention. change (host_str w) with (host_str u). change (path_segments w) with segs. rewrite Hs.
    destruct (is_some (host_str u)); [done|]. destruct (non_empty (path_segments u)) as [|s ss]; [|done].
    simpl. destruct names as [|n names]; [done|]. inversion Hn as [|?? Hp _]. subst.
    destruct (is_windows_drive_uri_segment n) eqn:E; [|done]. exfalso.
    destruct n as [|a [|b [|? ?]]]; try done. simpl in E. apply andb_true_iff in E as [_ ->%N.eqb_eq].
    destruct Hp as (_ & _ & _ & Hp). rewrite Forall_forall in Hp. destruct (Hp COLON); [set_solver|naive_solver]. }
  apply uri_try_from_key in Hq as (v & -> & Hv & Hcv & Hsegs); [|done]. rewrite Hc in *. simpl.
  assert (containment_path_segments v (file_convention u) = Some (non_empty (path_segments v))) as Hcont.
  { unfold containment_path_segments. fold (sep_in (file_convention u) (non_empty (path_segments v))).
    change (path_segments w) with segs in Hsegs. rewrite <- sep_in_key, Hsegs, sep_in_key, Hs.
    by rewrite plain_segments_contained. }
  rewrite Hcv, Hcont. simpl. rewrite Hv. change (path_segments w) with segs in Hsegs.
  rewrite Hsegs, Hs, map_app. done.
Qed.
End Joins.

Section Round_trip.
  Context {UO : UrlOps}.

Lemma key_file_url p h c ks : uri_key p = Some (h, c, ks) ->
  exists u, p = FileUrl u /\ h = host_str u /\ c = file_convention u /\ ks = List.map (seg_key c) (non_empty (path_segments u)).
Proof.
  destruct p as [u|?]; [|done]. simpl. destruct (containment_path_segments u _) as [segs|] eqn:E; [|done].
  simpl. intros [= <- <- <-]. exists u. split_and!; try done.
  unfold containment_path_segments in E. case_match; [done|]. by injection E as <-.
Qed.

(** A protected or requested name joined below a path. *)
Lemma uri_join_descendant_key p name q h c ks :
  uri_key p = Some (h, c, ks) -> plain_name name -> uri_join_descendant p name = Ok q ->
  uri_key q = Some (h, c, ks ++ [seg_key c name]).
Proof.
  intros Hp Hn Hq. destruct (key_file_url _ _ _ _ Hp) as (u & -> & -> & -> & Hks).
  unfold uri_join_descendant in Hq. apply result_bind_ok in Hq as (d & Hj & Hq).
  destruct (_ || _) eqn:Hcond in Hq; [done|]. injection Hq as ->.
  apply orb_false_iff in Hcond as [_ Hsw]. apply negb_false_iff in Hsw.
  destruct (uri_join_names u [name]) as [Hs Hjoin]; [done|by apply Forall_singleton|].
  change (relative_text (file_convention u) [name]) with name in *. rewrite Hjoin in Hj.
  set (segs := join_segments u (file_convention u) name) in *.
  destruct (decide (host_str u = Some (lit "localhost"))) as [Hl|Hl].
  - exfalso. unfold uri_try_from in Hj. destruct (existsb contains_null _); [done|]. simpl in Hj. rewrite Hl in Hj.
    simpl in Hj. injection Hj as <-. apply starts_with_below in Hsw as [E|(h & c & ps & bs & K1 & K2 & _)].
    + injection E as E. rewrite <- E in Hl. done.
    + destruct (key_file_url _ _ _ _ K1) as (u1 & [= <-] & -> & _). destruct (key_file_url _ _ _ _ K2) as (u2 & [= <-] & E & _).
      simpl in E. congruence.
  - rewrite (uri_try_from_names u segs [name] ks q); try done. by apply Forall_singleton.
Qed.

(** URIs as the crate builds them. *)
Definition uri_wf (p : PathUri) : Prop :=
  match p with
  | FileUrl u => host_str u <> Some (lit "localhost") /\ Forall (fun s => 0%N ∉ s) (path_segments u)
  | BadPath _ => True
  end.

(** The names of a URI below the segments of another. *)
Definition plain_below (p base : PathUri) : Prop :=
  match p, base with
  | FileUrl u, FileUrl b => Forall plain_name (drop (length (non_empty (path_segments b))) (non_empty (path_segments u)))
  | _, _ => True
  end.

Lemma join_segments_no_null u c path :
  Forall (fun s => 0%N ∉ s) (path_segments u) -> 0%N ∉ path ->
  existsb contains_null (join_segments u c path) = false.
Proof.
  intros Hu Hp.
  assert (forall l, Forall (fun s => 0%N ∉ s) l -> Forall (fun s => 0%N ∉ s) (canon l)) as Hcanon
    by (intros [|[|] [|]]; auto).
  assert (forall l, Forall (fun s => 0%N ∉ s) l -> Forall (fun s => 0%N ∉ s) (pop l)) as Hpop.
  { intros l Hl. apply Hcanon. destruct (removelast_prefix l) as [k Hk]. rewrite Hk in Hl. by apply Forall_app in Hl as [? _]. }
  assert (forall n l, Forall (fun s => 0%N ∉ s) l -> Forall (fun s => 0%N ∉ s) (pop_times n l)) as Htimes
    by (induction n; simpl; auto).
  assert (forall l, Forall (fun s => 0%N ∉ s) l -> Forall (fun s => 0%N ∉ s) (pop_if_empty l)) as Hpe
    by (intros l Hl; unfold pop_if_empty; case_match; auto).
  assert (Forall (fun s => 0%N ∉ s) (convention_segments c path)) as Hsegs.
  { destruct c; simpl.
    - apply Forall_forall. intros s Hs Hin. apply Hp. rewrite <- (join_split SEP path).
      clear -Hs Hin. induction (split SEP path) as [|a l IH]; [set_solver|]. destruct l as [|b l]; [set_solver|].
      change (RustStr.join [SEP] (a :: b :: l)) with (a ++ SEP :: RustStr.join [SEP] (b :: l)). set_solver.
    - clear -Hp. induction path as [|x r IH]; [repeat constructor; set_solver|]. simpl.
      assert (Forall (fun s => 0%N ∉ s) (split_by is_windows_separator_char r)) as H by (apply IH; set_solver).
      case_match; [constructor; [set_solver|done]|]. destruct (split_by _ r); inversion H; subst; repeat constructor; set_solver. }
  assert (forall names st, Forall (fun s => 0%N ∉ s) names -> Forall (fun s => 0%N ∉ s) (fst st) ->
     Forall (fun s => 0%N ∉ s) (fst (fold_left (join_component c) names st))) as Hfold.
  { intros names st Hn. revert st. induction Hn as [|s names Hs _ IH]; intros [l d] Hl; [done|]. cbn [fold_left]. apply IH.
    unfold join_component. repeat case_match; simpl in *; auto. apply Hcanon, Forall_app. by repeat constructor. }
  apply not_true_iff_false. rewrite existsb_exists. intros (s & Hs & Hn). apply list_elem_of_In in Hs.
  assert (Forall (fun s => 0%N ∉ s) (join_segments u c path)) as H.
  { unfold join_segments. apply Hfold; [done|]. case_match; simpl; auto. }
  rewrite Forall_forall in H. apply H in Hs. unfold contains_null in Hn. by rewrite contains_char_absent in Hn.
Qed.

Lemma prefix_keys_split c ps bs :
  List.map (seg_key c) bs `prefix_of` List.map (seg_key c) ps ->
  List.map (seg_key c) ps = List.map (seg_key c) bs ++ List.map (seg_key c) (drop (length bs) ps).
Proof.
  intros [k Hk]. rewrite Hk. f_equal. pose proof (f_equal length Hk) as HL. rewrite length_app, !length_map in HL.
  rewrite <- (take_drop (length bs) ps), map_app in Hk at 1. apply app_inj_1 in Hk as [_ Hk]; [by rewrite Hk|].
  rewrite !length_map, length_take. lia.
Qed.

(** The relative path of a URI from one above it leads back to it: joined to
    the base it gives a URI that contains, and is contained in, the original. *)
Theorem join_relative_path_from p base r :
  uri_wf base -> plain_below p base -> lexical_depth base <> None ->
  relative_path_from p base = Some r ->
  exists q, uri_join base r = Ok q /\ uri_starts_with q p = true /\ uri_starts_with p q = true.
Proof.
  intros Hwf Hplain Hlex. unfold relative_path_from. destruct (uri_eqb p base) eqn:Heq.
  { intros [= <-]. exists base. split; [done|].
    apply uri_eqb_spec in Heq as [->|([[h c] ks] & H1 & H2)]; [by rewrite sw_refl|]. split; by eapply key_below. }
  destruct p as [u|?], base as [b|?]; try done.
  destruct (bool_decide _ && bool_decide _) eqn:Hhc; [|done]. bool_to_prop. rename H into Hh, H0 into Hc.
  destruct (containment_path_segments u _) as [ps|] eqn:Ep; [|done].
  destruct (containment_path_segments b _) as [bs|] eqn:Eb; [|done].
  destruct (native_path_segments_start_with ps bs _) eqn:Hpre; [|done]. intros [= <-].
  assert (ps = non_empty (path_segments u)) as -> by (unfold containment_path_segments in Ep; case_match; congruence).
  assert (bs = non_empty (path_segments b)) as -> by (unfold containment_path_segments in Eb; case_match; congruence).
  apply segments_start_with_prefix in Hpre. simpl in Hplain, Hwf. destruct Hwf as [Hl Hnull].
  set (names := drop (length (non_empty (path_segments b))) (non_empty (path_segments u))) in *.
  set (c := file_convention u) in *.
  assert (List.map (seg_key c) (non_empty (path_segments u))
          = List.map (seg_key c) (non_empty (path_segments b)) ++ List.map (seg_key c) names) as Hsplit
    by (by apply prefix_keys_split).
  assert (uri_key (FileUrl u) = Some (host_str b, c, List.map (seg_key c) (non_empty (path_segments u)))) as Ku
    by (simpl; fold c; rewrite Ep; simpl; by rewrite Hh).
  assert (uri_key (FileUrl b) = Some (host_str b, c, List.map (seg_key c) (non_empty (path_segments b)))) as Kb
    by (simpl; rewrite <- Hc, Eb; done).
  destruct (decide (names = [])) as [Hnil|Hnn].
  { rewrite Hnil in Hsplit |- *. simpl in Hsplit. rewrite app_nil_r in Hsplit. exists (FileUrl b). split; [done|].
    rewrite Hsplit in Ku. split; by eapply key_below. }
  destruct (uri_join_names b names) as [Hs Hj]; [done..|]. rewrite <- Hc in Hs, Hj.
  set (segs := join_segments b c (relative_text c names)) in *.
  assert (existsb contains_null segs = false) as Hok.
  { apply join_segments_no_null; [done|]. by destruct (relative_text_like c names) as (_ & ? & _). }
  change (relative_text c names) with (RustStr.join (separator_text c) names) in Hj.
  destruct (uri_try_from (mkFileUri (host_str b) segs)) as [q|e] eqn:Eq.
  - exists q. rewrite Hj. split; [done|].
    assert (uri_key q = Some (host_str b, c, List.map (seg_key c) (non_empty (path_segments u)))) as Kq.
    { rewrite Hsplit. rewrite Hc. apply (uri_try_from_names b segs); try done. by rewrite <- Hc. }
    split; by eapply key_below.
  - unfold uri_try_from in Eq. simpl in Eq. by rewrite Hok in Eq.
Qed.
End Round_trip.

(** C40. Containment of URIs is a prefix order: reflexive, transitive, and the
    URIs above a given one are ordered by their depth; URIs that contain each
    other have the same depth and convention; and the root reached by following
    parents from a URI that has a depth is above it and has no parent. *)
Theorem containment_is_prefix_order :
  (forall p, uri_starts_with p p = true) /\
  (forall p q r, uri_starts_with p q = true -> uri_starts_with q r = true -> uri_starts_with p r = true) /\
  (forall p a b da db, uri_starts_with p a = true -> uri_starts_with p b = true ->
     lexical_depth a = Some da -> lexical_depth b = Some db -> da <= db -> uri_starts_with b a = true) /\
  (forall p q, uri_starts_with p q = true -> uri_starts_with q p = true ->
     lexical_depth p = lexical_depth q /\ infer_path_convention p = infer_path_convention q) /\
  (forall p d, lexical_depth p = Some d ->
     uri_starts_with p (ancestors_last p) = true /\ uri_parent (ancestors_last p) = None).
Proof.
  split_and!; eauto using sw_refl, sw_trans, sw_linear, ancestors_last_above.
  intros p q H1 H2. split; [|by apply sw_convention]. destruct (lexical_depth p) as [d|] eqn:Dp.
  - destruct (sw_depth _ _ _ H1 Dp) as (d' & Dq & Hle). destruct (sw_depth _ _ _ H2 Dq) as (d'' & Dp' & Hle').
    rewrite Dq. f_equal. rewrite Dp in Dp'. simplify_eq. lia.
  - destruct (lexical_depth q) as [d|] eqn:Dq; [|done]. destruct (sw_depth _ _ _ H2 Dq) as (? & ? & _). congruence.
Qed.

(** ** Examples *)

(** Lower-case names as authorities, and a printer for the examples. *)
#[export] Instance demo_url : UrlOps := {
  set_host h := if forallb is_ascii_alphabetic h then Some (to_ascii_lowercase h) else None;
  url_to_string p := match p with FileUrl u => lit "file://" ++ path_text u | BadPath _ => lit "file:bad" end }.

Definition posix_uri (names : list str) : PathUri := FileUrl (mkFileUri None names).

Example parse_windows_examples :
  from_absolute_native_path (lit "c:\src\..\lib\") WindowsPaths = Some (FileUrl (mkFileUri None [lit "C:"; lit "lib"; []])) /\
  from_absolute_native_path (lit "\\Server\share\a") WindowsPaths = Some (FileUrl (mkFileUri (Some (lit "server")) [lit "share"; lit "a"])) /\
  from_absolute_native_path (lit "\\?\C:\x") WindowsPaths = Some (FileUrl (mkFileUri None [lit "C:"; lit "x"])) /\
  uri_join (FileUrl (mkFileUri None [lit "C:"; lit "src"])) (lit "\lib") = Ok (FileUrl (mkFileUri None [lit "C:"; lit "lib"])) /\
  uri_join (FileUrl (mkFileUri None [lit "C:"; lit "src"])) (lit "..\..\..\x") = Ok (FileUrl (mkFileUri None [lit "C:"; lit "x"])) /\
  uri_join (posix_uri [lit "home"]) (lit "../../tmp/./a") = Ok (posix_uri [lit "tmp"; lit "a"]) /\
  is_opaque <$> from_absolute_native_path (lit "/C:/x") PosixPaths = Some true.
Proof. by vm_compute. Qed.

Lemma join_relative_path_from_witness :
  relative_path_from (posix_uri [lit "a"; lit "b"; lit "c"]) (posix_uri [lit "a"]) = Some (lit "b/c") /\
  exists q, uri_join (posix_uri [lit "a"]) (lit "b/c") = Ok q /\
    uri_starts_with q (posix_uri [lit "a"; lit "b"; lit "c"]) = true /\
    uri_starts_with (posix_uri [lit "a"; lit "b"; lit "c"]) q = true.
Proof.
  split; [reflexivity|]. apply (join_relative_path_from (posix_uri [lit "a"; lit "b"; lit "c"]) (posix_uri [lit "a"])).
  - split; [discriminate|]. repeat constructor; set_solver.
  - simpl. unfold plain_name. repeat constructor; try discriminate; intros [=].
  - discriminate.
  - reflexivity.
Defined.
