(* ===== verification/Permissions.v ===== *)
(** * File-system permissions of a sandbox ([protocol/src/permissions.rs])

    A policy is a kind and a list of entries, each giving a path, a symbolic
    place or a glob one access mode.  This file models how an entry list is
    turned into an answer for one path on the executor that owns it: resolving
    the entries in a context, the most specific entry winning, the protection of
    workspace metadata, the full-disk shortcuts, the read-deny matcher, and the
    operations that rewrite policies: keeping denials, expanding workspace
    roots.  [PermissionTarget.v] has the operations of [permissions/target.rs].

    Globs are the [globset] crate's, as the class [GlobSet]; text of errors is
    reduced to their cases. *)

From stdpp Require Import base list numbers option strings sets.
From Stdlib Require Import Lia.
From S2P Require Import Prelude RustStr Utf8Stream UriPath.

Inductive FileSystemAccessMode := ReadAccess | WriteAccess | DenyAccess.

#[export] Instance FileSystemAccessMode_eq_dec : EqDecision FileSystemAccessMode.
Proof. solve_decision. Defined.

(** The derived order: [deny] over [write] over [read]. *)
Definition access_rank (a : FileSystemAccessMode) : nat :=
  match a with ReadAccess => 0 | WriteAccess => 1 | DenyAccess => 2 end.

Definition can_read (a : FileSystemAccessMode) : bool := match a with DenyAccess => false | _ => true end.
Definition can_write (a : FileSystemAccessMode) : bool := match a with WriteAccess => true | _ => false end.
Definition is_deny (a : FileSystemAccessMode) : bool := match a with DenyAccess => true | _ => false end.

Inductive FileSystemSpecialPath :=
| RootPath
| Minimal
| ProjectRoots (subpath : option str)
| Tmpdir
| SlashTmp
| UnknownPath (path : str) (subpath : option str).

#[export] Instance FileSystemSpecialPath_eq_dec : EqDecision FileSystemSpecialPath.
Proof. solve_decision. Defined.

Inductive FileSystemPath :=
| PathEntry (path : PathUri)
| GlobPattern (pattern : str)
| Special (value : FileSystemSpecialPath).

Record FileSystemSandboxEntry := mkFsEntry {
  entry_path : FileSystemPath;
  entry_access : FileSystemAccessMode;
  skips_missing_path : bool }.

Definition new_entry (path : FileSystemPath) (access : FileSystemAccessMode) : FileSystemSandboxEntry :=
  mkFsEntry path access false.
Definition skip_missing_path (path : FileSystemPath) (access : FileSystemAccessMode) : FileSystemSandboxEntry :=
  mkFsEntry path access true.

(** The derived [PartialEq]: paths are compared as URIs. *)
Definition fs_path_eqb (a b : FileSystemPath) : bool :=
  match a, b with
  | PathEntry p, PathEntry q => uri_eqb p q
  | GlobPattern p, GlobPattern q => str_eqb p q
  | Special p, Special q => bool_decide (p = q)
  | _, _ => false
  end.
Definition entry_eqb (a b : FileSystemSandboxEntry) : bool :=
  fs_path_eqb (entry_path a) (entry_path b) && bool_decide (entry_access a = entry_access b)
  && Bool.eqb (skips_missing_path a) (skips_missing_path b).
Definition contains_entry (entries : list FileSystemSandboxEntry) (e : FileSystemSandboxEntry) : bool :=
  existsb (fun x => entry_eqb x e) entries.

Inductive FileSystemSandboxKind := Restricted | Unrestricted | ExternalSandbox.

#[export] Instance FileSystemSandboxKind_eq_dec : EqDecision FileSystemSandboxKind.
Proof. solve_decision. Defined.

Definition is_restricted (k : FileSystemSandboxKind) : bool :=
  match k with Restricted => true | _ => false end.

Record FileSystemSandboxPolicy := mkFsPolicy {
  fs_kind : FileSystemSandboxKind;
  glob_scan_max_depth : option nat;
  entries : list FileSystemSandboxEntry }.

Definition unrestricted : FileSystemSandboxPolicy := mkFsPolicy Unrestricted None [].
Definition external_sandbox : FileSystemSandboxPolicy := mkFsPolicy ExternalSandbox None [].
Definition restricted (es : list FileSystemSandboxEntry) : FileSystemSandboxPolicy := mkFsPolicy Restricted None es.
Definition read_only : FileSystemSandboxPolicy := restricted [new_entry (Special RootPath) ReadAccess].
Definition with_entries (p : FileSystemSandboxPolicy) (es : list FileSystemSandboxEntry) : FileSystemSandboxPolicy :=
  mkFsPolicy (fs_kind p) (glob_scan_max_depth p) es.
Definition remove_skip_missing_path_entries (p : FileSystemSandboxPolicy) : FileSystemSandboxPolicy :=
  with_entries p (List.filter (fun e => negb (skips_missing_path e)) (entries p)).

Record PolicyContext := mkPolicyContext {
  cwd : PathUri;
  workspace_roots : list PathUri;
  user_home_dir : option PathUri;
  temporary_directories : option (list PathUri) }.

(** ** Shortcuts on entry lists *)

Definition is_root_entry (e : FileSystemSandboxEntry) : bool :=
  match entry_path e with Special RootPath => true | _ => false end.

Definition has_root_access (p : FileSystemSandboxPolicy) (pred : FileSystemAccessMode -> bool) : bool :=
  is_restricted (fs_kind p) && existsb (fun e => is_root_entry e && pred (entry_access e)) (entries p).

Definition is_slash_tmp (path : FileSystemPath) : bool :=
  match path with Special SlashTmp => true | _ => false end.

Definition has_denied_read_restrictions_for_convention (p : FileSystemSandboxPolicy) (c : option PathConvention) : bool :=
  is_restricted (fs_kind p)
  && existsb (fun e => is_deny (entry_access e)
                       && negb (is_slash_tmp (entry_path e) && bool_decide (c = Some WindowsPaths))) (entries p).

Definition special_paths_share_target (a b : FileSystemSpecialPath) : bool :=
  match a, b with
  | RootPath, RootPath | Minimal, Minimal | Tmpdir, Tmpdir | SlashTmp, SlashTmp => true
  | ProjectRoots x, ProjectRoots y => bool_decide (x = y)
  | UnknownPath x sx, UnknownPath y sy => bool_decide (x = y) && bool_decide (sx = sy)
  | _, _ => false
  end.

Definition special_path_matches_path_uri (value : FileSystemSpecialPath) (path : PathUri) : bool :=
  match value with
  | RootPath => is_some (lexical_depth path) && is_none (uri_parent path)
  | SlashTmp =>
      bool_decide (infer_path_convention path = Some PosixPaths)
      && bool_decide (lexical_depth path = Some 1)
      && bool_decide (uri_basename path = Some (lit "tmp"))
  | _ => false
  end.

Definition file_system_paths_share_target (a b : FileSystemPath) (c : PathConvention) : bool :=
  match a, b with
  | PathEntry p, PathEntry q => uri_eqb p q
  | Special x, Special y => special_paths_share_target x y
  | PathEntry p, Special v | Special v, PathEntry p =>
      bool_decide (infer_path_convention p = Some c) && special_path_matches_path_uri v p
  | GlobPattern p, GlobPattern q => str_eqb p q
  | GlobPattern _, _ | _, GlobPattern _ => false
  end.

Definition has_same_target_write_override (p : FileSystemSandboxPolicy) (e : FileSystemSandboxEntry) (c : PathConvention) : bool :=
  existsb (fun x => can_write (entry_access x)
                    && Nat.ltb (access_rank (entry_access e)) (access_rank (entry_access x))
                    && file_system_paths_share_target (entry_path x) (entry_path e) c) (entries p).

Definition narrows_write (p : FileSystemSandboxPolicy) (c : PathConvention) (e : FileSystemSandboxEntry) : bool :=
  if can_write (entry_access e) then false
  else
    match entry_path e with
    | PathEntry _ => negb (has_same_target_write_override p e c)
    | GlobPattern _ => true
    | Special RootPath => is_deny (entry_access e)
    | Special SlashTmp => if is_windows c then false else negb (has_same_target_write_override p e c)
    | Special (Minimal | UnknownPath _ _) => false
    | Special _ => negb (has_same_target_write_override p e c)
    end.

Definition has_write_narrowing_entries (p : FileSystemSandboxPolicy) (c : PathConvention) : bool :=
  is_restricted (fs_kind p) && existsb (narrows_write p c) (entries p).

Definition has_full_disk_read_access_for_convention (p : FileSystemSandboxPolicy) (c : option PathConvention) : bool :=
  match fs_kind p with
  | Unrestricted | ExternalSandbox => true
  | Restricted => has_root_access p can_read && negb (has_denied_read_restrictions_for_convention p c)
  end.

Definition has_full_disk_write_access_for_convention (p : FileSystemSandboxPolicy) (c : option PathConvention) : bool :=
  match fs_kind p with
  | Unrestricted | ExternalSandbox => true
  | Restricted =>
      is_some_and c (fun c => has_root_access p can_write && negb (has_write_narrowing_entries p c))
  end.

Definition has_full_disk_write_access_with_context (p : FileSystemSandboxPolicy) (ctx : PolicyContext) : bool :=
  has_full_disk_write_access_for_convention p (infer_path_convention (cwd ctx)).

Definition include_platform_defaults (p : FileSystemSandboxPolicy) (native : PathConvention) : bool :=
  negb (has_full_disk_read_access_for_convention p (Some native)) && is_restricted (fs_kind p)
  && existsb (fun e => match entry_path e with Special Minimal => can_read (entry_access e) | _ => false end) (entries p).

(** ** Access to one path *)

Definition file_system_root (ctx : PolicyContext) : option PathUri :=
  match lexical_depth (cwd ctx) with Some _ => Some (ancestors_last (cwd ctx)) | None => None end.

Definition ok_option {A E} (r : result A E) : option A := match r with Ok a => Some a | Err _ => None end.

Section Policies.
  Context {UO : UrlOps}.

(** The roots an entry stands for in a context. *)
Definition entry_roots (ctx : PolicyContext) (path : FileSystemPath) : list PathUri :=
  match path with
  | PathEntry p => [p]
  | GlobPattern _ => []
  | Special RootPath => option_list (file_system_root ctx)
  | Special (ProjectRoots subpath) =>
      omap (fun root => match subpath with
                        | Some s => ok_option (uri_join root s)
                        | None => Some root
                        end) (workspace_roots ctx)
  | Special Tmpdir => unwrap_or (temporary_directories ctx) []
  | Special SlashTmp =>
      if bool_decide (infer_path_convention (cwd ctx) = Some PosixPaths)
      then option_list (ok_option (uri_join (cwd ctx) (lit "/tmp"))) else []
  | Special (Minimal | UnknownPath _ _) => []
  end.

Definition resolved_entry (ctx : PolicyContext) (e : FileSystemSandboxEntry) : list (PathUri * FileSystemAccessMode) :=
  List.map (fun root => (root, entry_access e))
    (List.filter (fun root => bool_decide (infer_path_convention root = infer_path_convention (cwd ctx)))
       (entry_roots ctx (entry_path e))).

Definition resolved_entries (p : FileSystemSandboxPolicy) (ctx : PolicyContext) : list (PathUri * FileSystemAccessMode) :=
  flat_map (resolved_entry ctx) (entries p).

(** The roots with their depth; [None] when one has no unambiguous segments. *)
Fixpoint with_depths (roots : list (PathUri * FileSystemAccessMode)) : option (list (PathUri * FileSystemAccessMode * nat)) :=
  match roots with
  | [] => Some []
  | (root, access) :: rest =>
      match lexical_depth root with
      | Some depth => option_map (cons (root, access, depth)) (with_depths rest)
      | None => if is_opaque root then with_depths rest else None
      end
  end.

(** [max_by_key] on (depth, access): the last of the greatest. *)
Definition key_leb (a b : FileSystemAccessMode * nat) : bool :=
  Nat.ltb (snd a) (snd b) || (Nat.eqb (snd a) (snd b) && Nat.leb (access_rank (fst a)) (access_rank (fst b))).
Definition max_entry (l : list (FileSystemAccessMode * nat)) : option (FileSystemAccessMode * nat) :=
  fold_left (fun best x => match best with
                           | None => Some x
                           | Some b => if key_leb b x then Some x else Some b
                           end) l None.

Definition in_context (ctx : PolicyContext) (path : PathUri) : bool :=
  match infer_path_convention (cwd ctx) with
  | None => false
  | Some c => bool_decide (infer_path_convention path = Some c) && is_some (lexical_depth path)
              && is_some (lexical_depth (cwd ctx))
  end.

Definition resolve_access (p : FileSystemSandboxPolicy) (path : PathUri) (ctx : PolicyContext) : FileSystemAccessMode :=
  match fs_kind p with
  | Unrestricted | ExternalSandbox => WriteAccess
  | Restricted =>
      if negb (in_context ctx path) then DenyAccess
      else
        match with_depths (resolved_entries p ctx) with
        | None => DenyAccess
        | Some es =>
            let covering := List.filter (fun e => uri_starts_with path (fst (fst e))) es in
            match max_entry (List.map (fun e => (snd (fst e), snd e)) covering) with
            | Some (access, _) => access
            | None => DenyAccess
            end
        end
  end.

Definition PROTECTED_METADATA_PATH_NAMES : list str := [lit ".git"; lit ".agents"; lit ".codex"; lit ".aws"].

(** The first protected directory, below one root, that contains the path. *)
Fixpoint protected_below (path root : PathUri) (names : list str) : option (PathUri * str) :=
  match names with
  | [] => None
  | name :: rest =>
      match uri_join_descendant root name with
      | Ok protected => if uri_starts_with path protected then Some (protected, name) else protected_below path root rest
      | Err _ => protected_below path root rest
      end
  end.

Fixpoint first_protected (path : PathUri) (roots : list (PathUri * FileSystemAccessMode)) : option (PathUri * str) :=
  match roots with
  | [] => None
  | (root, access) :: rest =>
      if can_write access then
        match protected_below path root PROTECTED_METADATA_PATH_NAMES with
        | Some found => Some found
        | None => first_protected path rest
        end
      else first_protected path rest
  end.

Definition metadata_write_denial (p : FileSystemSandboxPolicy) (path : PathUri) (ctx : PolicyContext) : option str :=
  if negb (is_restricted (fs_kind p)) then None
  else
    let es := resolved_entries p ctx in
    match first_protected path es with
    | None => None
    | Some (protected, name) =>
        if existsb (fun e => can_write (snd e) && uri_starts_with path (fst e) && uri_starts_with (fst e) protected) es
        then None else Some name
    end.

Definition can_write_path (p : FileSystemSandboxPolicy) (path : PathUri) (ctx : PolicyContext) : bool :=
  can_write (resolve_access p path ctx)
  && (has_full_disk_write_access_with_context p ctx || is_none (metadata_write_denial p path ctx)).

Definition can_read_path (p : FileSystemSandboxPolicy) (path : PathUri) (ctx : PolicyContext) : bool :=
  can_read (resolve_access p path ctx).

(** ** Keeping denials *)

(** Entries of the second list that the first does not have yet are appended. *)
Definition append_missing (es extra : list FileSystemSandboxEntry) : list FileSystemSandboxEntry :=
  fold_left (fun es e => if contains_entry es e then es else es ++ [e]) extra es.

Definition deny_entries (p : FileSystemSandboxPolicy) : list FileSystemSandboxEntry :=
  List.filter (fun e => is_deny (entry_access e)) (entries p).

Definition preserve_deny_read_restrictions_from (p existing : FileSystemSandboxPolicy) : FileSystemSandboxPolicy :=
  let has_deny := negb (is_nil (deny_entries existing)) in
  let p := match fs_kind p with
           | Unrestricted => if has_deny then restricted [new_entry (Special RootPath) WriteAccess] else p
           | _ => p
           end in
  if negb (is_restricted (fs_kind p)) then p
  else
    let depth := match glob_scan_max_depth p with None => glob_scan_max_depth existing | Some d => Some d end in
    mkFsPolicy (fs_kind p) depth (append_missing (entries p) (deny_entries existing)).
End Policies.

(** ** The read-deny matcher *)

Class GlobSet := {
  GlobMatcher : Type;
  (** [GlobBuilder] with literal separators and unclosed classes allowed;
      backslash escapes on POSIX, ASCII case ignored on Windows. *)
  build_glob : str -> PathConvention -> option GlobMatcher;
  glob_is_match : GlobMatcher -> list N -> bool }.

Definition forward_slashes (s : str) : str := List.map (fun c => if (c =? BACKSEP)%N then SEP else c) s.

Inductive DenyGlobError :=
| NoExecutorHome (pattern : str)
| UnsafeGlobDirectory (error : LegacyAppPathStringError)
| UnresolvableGlob (pattern : str)
| InvalidGlob (pattern : str)
| InvalidContextPath
| MissingTemporaryDirectories
| UnsafeTemporaryDirectories.

Inductive InvalidDenyReadGlobBehavior := FailClosed | ReturnError.

Section Deny.
  Context {UO : UrlOps} {GS : GlobSet}.

Record PreparedReadDenyMatcher := mkPrepared {
  denied_roots : list PathUri;
  deny_read_matchers : list GlobMatcher;
  invalid_pattern : bool }.

Definition build_glob_matcher (pattern : str) (c : PathConvention) : option GlobMatcher :=
  build_glob (if is_windows c then forward_slashes pattern else pattern) c.

(** A deny glob as absolute text, against the home or the working directory. *)
Definition deny_read_glob (ctx : PolicyContext) (pattern : str) : result str DenyGlobError :=
  let windows := bool_decide (infer_path_convention (cwd ctx) = Some WindowsPaths) in
  let c := if windows then WindowsPaths else PosixPaths in
  let home_relative :=
    match strip_prefix (lit "~/") pattern with
    | Some s => Some s
    | None => if windows then strip_prefix (lit "~\") pattern else None
    end in
  let based :=
    match home_relative with
    | Some suffix =>
        match user_home_dir ctx with
        | Some home => Ok (home, drop_while (fun ch => (ch =? SEP)%N || (windows && (ch =? BACKSEP)%N)) suffix)
        | None => Err (NoExecutorHome pattern)
        end
    | None => Ok (cwd ctx, pattern)
    end in
  match based with
  | Err e => Err e
  | Ok (root, pattern) =>
      let resolve := match uri_join root pattern with
                     | Ok path => Ok (inferred_native_path_string path)
                     | Err _ => Err (UnresolvableGlob pattern)
                     end in
      match from_absolute_native_path pattern c with
      | Some _ => resolve
      | None => match validate_glob_directory root c with
                | Err error => Err (UnsafeGlobDirectory error)
                | Ok _ => resolve
                end
      end
  end.

Definition deny_patterns (p : FileSystemSandboxPolicy) : list str :=
  omap (fun e => match entry_path e with GlobPattern pattern => Some pattern | _ => None end) (deny_entries p).

(** [collect] into a [Result]: the first error. *)
Fixpoint try_collect {A B E} (f : A -> result B E) (l : list A) : result (list B) E :=
  match l with
  | [] => Ok []
  | a :: l => let? b := f a in let? bs := try_collect f l in Ok (b :: bs)
  end.

Definition deny_read_globs (p : FileSystemSandboxPolicy) (ctx : PolicyContext) : result (list str) DenyGlobError :=
  try_collect (deny_read_glob ctx) (deny_patterns p).

Definition same_place (a b : PathUri) : bool := uri_starts_with a b && uri_starts_with b a.

Definition prepared_roots (p : FileSystemSandboxPolicy) (ctx : PolicyContext) : list PathUri :=
  List.map fst
    (List.filter (fun e => is_deny (snd e)
                           && negb (is_some_and (file_system_root ctx) (fun root => same_place (fst e) root)))
       (resolved_entries p ctx)).

(** Compiling the globs: a bad one fails, or is remembered. *)
Fixpoint build_matchers (c : PathConvention) (behavior : InvalidDenyReadGlobBehavior) (patterns : list str)
    : result (list GlobMatcher * bool) DenyGlobError :=
  match patterns with
  | [] => Ok ([], false)
  | pattern :: rest =>
      match build_glob_matcher pattern c, behavior with
      | None, ReturnError => Err (InvalidGlob pattern)
      | None, FailClosed => let? r := build_matchers c behavior rest in Ok (fst r, true)
      | Some m, _ => let? r := build_matchers c behavior rest in Ok (m :: fst r, snd r)
      end
  end.

Definition prepare_deny_read_matcher (p : FileSystemSandboxPolicy) (ctx : PolicyContext) (behavior : InvalidDenyReadGlobBehavior)
    : result PreparedReadDenyMatcher DenyGlobError :=
  let roots := prepared_roots p ctx in
  match infer_path_convention (cwd ctx) with
  | None => Ok (mkPrepared roots [] true)
  | Some c =>
      match deny_read_globs p ctx with
      | Err e => match behavior with FailClosed => Ok (mkPrepared roots [] true) | ReturnError => Err e end
      | Ok patterns =>
          let? r := build_matchers c behavior patterns in
          Ok (mkPrepared roots (fst r) (snd r))
      end
  end.

(** The bytes a glob is matched against. *)
Definition glob_candidate (c : PathConvention) (path : PathUri) : list N :=
  match c, path with
  | PosixPaths, FileUrl u => encode (path_text u)
  | PosixPaths, BadPath bytes => bytes
  | WindowsPaths, _ => encode (forward_slashes (inferred_native_path_string path))
  end.

Definition matches_prepared_read_deny (path : PathUri) (ctx : PolicyContext) (prepared : PreparedReadDenyMatcher) : bool :=
  match infer_path_convention (cwd ctx) with
  | None => true
  | Some c =>
      negb (in_context ctx path) || invalid_pattern prepared
      || existsb (uri_starts_with path) (denied_roots prepared)
      || existsb (fun m => glob_is_match m (glob_candidate c path)) (deny_read_matchers prepared)
  end.

(** [ReadDenyMatcher::from_context]: no matcher without denials; denials that
    cannot be prepared deny everything. *)
Definition matcher_from_context (p : FileSystemSandboxPolicy) (ctx : PolicyContext) : option PreparedReadDenyMatcher :=
  if is_nil (deny_entries p) then None else ok_option (prepare_deny_read_matcher p ctx FailClosed).

Definition is_read_denied (p : FileSystemSandboxPolicy) (ctx : PolicyContext) (path : PathUri) : bool :=
  is_some_and (matcher_from_context p ctx) (matches_prepared_read_deny path ctx).

(** ** Expanding workspace roots *)

Definition PROJECT_ROOTS_GLOB_PATTERN_PREFIX : str := lit "codex-project-roots://".

Definition resolve_scoped_workspace_path (root : PathUri) (subpath : str) : option PathUri :=
  match infer_path_convention root with
  | None => None
  | Some c =>
      if starts_with [SEP] subpath
         || (is_windows c && starts_with [BACKSEP] subpath)
         || existsb (fun s => is_dot s || is_dotdot s) (convention_segments c subpath)
         || (is_windows c && existsb (contains_char COLON) (convention_segments c subpath))
      then None
      else match uri_join root subpath with
           | Ok path => if uri_starts_with path root then Some path else None
           | Err _ => None
           end
  end.

(** What an entry names below the workspace roots: a subpath, as a glob or not. *)
Definition workspace_relative (path : FileSystemPath) : option (option str * bool) :=
  match path with
  | Special (ProjectRoots subpath) => Some (subpath, false)
  | GlobPattern pattern =>
      match strip_prefix PROJECT_ROOTS_GLOB_PATTERN_PREFIX pattern with
      | Some s => Some (Some s, true)
      | None => None
      end
  | _ => None
  end.

Definition materialize_at (e : FileSystemSandboxEntry) (subpath : option str) (is_glob : bool) (root : PathUri)
    : option FileSystemSandboxEntry :=
  let unsafe_glob :=
    is_glob && match infer_path_convention root with
               | None => true
               | Some c => negb (is_ok (validate_glob_directory root c))
               end in
  let path := if unsafe_glob then None
              else match subpath with
                   | None => Some root
                   | Some s => resolve_scoped_workspace_path root s
                   end in
  match path with
  | Some path =>
      Some (mkFsEntry (if is_glob then GlobPattern (inferred_native_path_string path) else PathEntry path)
              (entry_access e) (skips_missing_path e))
  | None =>
      if can_write (entry_access e) then None
      else Some (mkFsEntry (PathEntry root) DenyAccess (skips_missing_path e))
  end.

(** A denial below [~] of an unknown home cannot be placed. *)
Definition unplaceable_denial (e : FileSystemSandboxEntry) (subpath : option str) (roots : list PathUri) : bool :=
  is_deny (entry_access e)
  && is_some_and subpath (fun s =>
       existsb (fun root => is_some_and (infer_path_convention root) (fun c => is_some (home_relative_suffix c s))) roots).

Fixpoint materialize_entries (roots : list PathUri) (es : list FileSystemSandboxEntry) : option (list FileSystemSandboxEntry) :=
  match es with
  | [] => Some []
  | e :: rest =>
      match workspace_relative (entry_path e) with
      | None => option_map (cons e) (materialize_entries roots rest)
      | Some (subpath, is_glob) =>
          if unplaceable_denial e subpath roots then None
          else option_map (app (omap (materialize_at e subpath is_glob) roots)) (materialize_entries roots rest)
      end
  end.

Definition try_materialize_project_roots_with_path_uris (p : FileSystemSandboxPolicy) (roots : list PathUri)
    : option FileSystemSandboxPolicy :=
  option_map (with_entries p) (materialize_entries roots (entries p)).

Definition materialize_project_roots_with_path_uris (p : FileSystemSandboxPolicy) (roots : list PathUri) : FileSystemSandboxPolicy :=
  unwrap_or (try_materialize_project_roots_with_path_uris p roots) (restricted []).

Definition with_materialized_project_roots_for_path_uris (p : FileSystemSandboxPolicy) (roots : list PathUri) : FileSystemSandboxPolicy :=
  match try_materialize_project_roots_with_path_uris p roots with
  | None => restricted []
  | Some materialized => with_entries p (append_missing (entries p) (entries materialized))
  end.

Definition append_default_read_only_entry_if_no_explicit_rule (native : PathConvention) (es : list FileSystemSandboxEntry)
    (path : FileSystemPath) : list FileSystemSandboxEntry :=
  if existsb (fun e => file_system_paths_share_target (entry_path e) path native) es then es
  else es ++ [skip_missing_path path ReadAccess].

(** [workspace_write] without extra roots: no file of the host is inspected. *)
Definition workspace_write (native : PathConvention) (exclude_tmpdir_env_var exclude_slash_tmp : bool) : FileSystemSandboxPolicy :=
  let es := [new_entry (Special RootPath) ReadAccess; new_entry (Special (ProjectRoots None)) WriteAccess]
            ++ (if exclude_slash_tmp then [] else [new_entry (Special SlashTmp) WriteAccess])
            ++ (if exclude_tmpdir_env_var then [] else [new_entry (Special Tmpdir) WriteAccess]) in
  restricted
    (fold_left (fun es name => append_default_read_only_entry_if_no_explicit_rule native es (Special (ProjectRoots (Some name))))
       PROTECTED_METADATA_PATH_NAMES es).

Definition workspace_write_with_path_uris (native : PathConvention) (roots : list PathUri)
    (exclude_tmpdir_env_var exclude_slash_tmp : bool) : FileSystemSandboxPolicy :=
  with_materialized_project_roots_for_path_uris
    (workspace_write native exclude_tmpdir_env_var exclude_slash_tmp) roots.
End Deny.

(** ** Permission profiles ([protocol/src/models.rs]) *)

Inductive NetworkSandboxPolicy := NetworkRestricted | NetworkEnabled.

Inductive ManagedFileSystemPermissions :=
| ManagedRestricted (managed_entries : list FileSystemSandboxEntry) (max_depth : option nat)
| ManagedUnrestricted.

Inductive PermissionProfile :=
| Managed (file_system : ManagedFileSystemPermissions) (network : NetworkSandboxPolicy)
| Disabled
| External (network : NetworkSandboxPolicy).

Definition to_sandbox_policy (m : ManagedFileSystemPermissions) : FileSystemSandboxPolicy :=
  match m with
  | ManagedRestricted es depth => mkFsPolicy Restricted depth es
  | ManagedUnrestricted => unrestricted
  end.

Definition file_system_sandbox_policy (p : PermissionProfile) : FileSystemSandboxPolicy :=
  match p with
  | Managed file_system _ => to_sandbox_policy file_system
  | Disabled => unrestricted
  | External _ => external_sandbox
  end.

(** A depth of zero is dropped: it is stored as a [NonZeroUsize]. *)
Definition non_zero (n : option nat) : option nat :=
  match n with Some 0 => None | n => n end.

(** [from_runtime_permissions_with_enforcement]; [None]: its [unreachable!]. *)
Definition from_sandbox_policy (p : FileSystemSandboxPolicy) : option ManagedFileSystemPermissions :=
  match fs_kind p with
  | Restricted => Some (ManagedRestricted (entries p) (non_zero (glob_scan_max_depth p)))
  | Unrestricted => Some ManagedUnrestricted
  | ExternalSandbox => None
  end.

Definition from_runtime_permissions_with_enforcement (enforcement_disabled : bool) (p : FileSystemSandboxPolicy)
    (network : NetworkSandboxPolicy) : option PermissionProfile :=
  match fs_kind p with
  | ExternalSandbox => Some (External network)
  | Unrestricted => if enforcement_disabled then Some Disabled
                    else option_map (fun m => Managed m network) (from_sandbox_policy p)
  | Restricted => option_map (fun m => Managed m network) (from_sandbox_policy p)
  end.

(** The profile made of a policy enforces that policy. *)
Lemma runtime_permissions_round_trip disabled p network :
  exists profile, from_runtime_permissions_with_enforcement disabled p network = Some profile /\
    fs_kind (file_system_sandbox_policy profile) = fs_kind p /\
    (fs_kind p = Restricted -> entries (file_system_sandbox_policy profile) = entries p).
Proof.
  unfold from_runtime_permissions_with_enforcement, from_sandbox_policy.
  destruct (fs_kind p); [|destruct disabled|]; eexists; (split; [reflexivity|done]).
Qed.

(** ** The most specific entry decides *)

Lemma key_leb_refl a : key_leb a a = true.
Proof. unfold key_leb. rewrite Nat.eqb_refl, Nat.leb_refl. by rewrite orb_true_r. Qed.

Lemma key_leb_spec a b : key_leb a b = true <->
  snd a < snd b \/ (snd a = snd b /\ access_rank (fst a) <= access_rank (fst b)).
Proof. unfold key_leb. rewrite orb_true_iff, andb_true_iff, Nat.ltb_lt, Nat.eqb_eq, Nat.leb_le. done. Qed.

Lemma max_entry_spec l :
  match max_entry l with
  | None => l = []
  | Some m => m ∈ l /\ forall x, x ∈ l -> key_leb x m = true
  end.
Proof.
  unfold max_entry.
  assert (forall l best, match fold_left (fun best x => match best with
                           | None => Some x
                           | Some b => if key_leb b x then Some x else Some b
                           end) l best with
                         | None => l = [] /\ best = None
                         | Some m => (m ∈ l \/ best = Some m) /\ (forall x, x ∈ l -> key_leb x m = true) /\
                                     (forall b, best = Some b -> key_leb b m = true)
                         end) as H.
  { clear l. induction l as [|x l IH]; intros best; simpl.
    - destruct best; [|done]. split_and!; [by right|set_solver|]. intros ? [= ->]. apply key_leb_refl.
    - specialize (IH (match best with None => Some x | Some b => if key_leb b x then Some x else Some b end)).
      destruct (fold_left _ l _) as [m|]; [|destruct IH as [_ IH]; destruct best; [by destruct (key_leb _ _)|done]].
      destruct IH as (Hin & Hall & Hb). destruct best as [b|].
      + destruct (key_leb b x) eqn:E.
        * pose proof (Hb _ eq_refl) as Hx. split_and!.
          -- left. destruct Hin as [|[= ->]]; set_solver.
          -- intros y [->|Hy]%elem_of_cons; auto.
          -- intros ? [= <-]. rewrite key_leb_spec in *. lia.
        * pose proof (Hb _ eq_refl) as Hx. split_and!.
          -- destruct Hin as [|[= ->]]; [left; set_solver|by right].
          -- intros y [->|Hy]%elem_of_cons; [|auto]. rewrite <- not_true_iff_false in E. rewrite key_leb_spec in *. lia.
          -- intros ? [= <-]. done.
      + pose proof (Hb _ eq_refl) as Hx. split_and!; [|intros y [->|Hy]%elem_of_cons; auto|done].
        left. destruct Hin as [|[= ->]]; set_solver. }
  specialize (H l None). destruct (fold_left _ _ _); [|naive_solver].
  destruct H as ([?|?] & H & _); [done|done].
Qed.

Section Access.
  Context {UO : UrlOps}.

(** An entry of the policy, at a root of some depth, applies to a path. *)
Definition covers (p : FileSystemSandboxPolicy) (ctx : PolicyContext) (path root : PathUri)
    (access : FileSystemAccessMode) (depth : nat) : Prop :=
  (root, access) ∈ resolved_entries p ctx /\ lexical_depth root = Some depth /\ uri_starts_with path root = true.

(** Every root of the policy can be compared, or is opaque and ignored. *)
Definition comparable (p : FileSystemSandboxPolicy) (ctx : PolicyContext) : Prop :=
  forall root access, (root, access) ∈ resolved_entries p ctx -> lexical_depth root <> None \/ is_opaque root = true.

Lemma with_depths_spec roots :
  (forall root access, (root, access) ∈ roots -> lexical_depth root <> None \/ is_opaque root = true) ->
  exists es, with_depths roots = Some es /\
    forall root access depth, (root, access, depth) ∈ es <-> (root, access) ∈ roots /\ lexical_depth root = Some depth.
Proof.
  induction roots as [|[root access] roots IH]; intros H; simpl; [exists []; set_solver|].
  destruct IH as (es & -> & Hes); [intros; apply (H root0 access0); set_solver|].
  destruct (lexical_depth root) as [depth|] eqn:D.
  - eexists. split; [done|]. intros r a d. rewrite !elem_of_cons, Hes. naive_solver.
  - destruct (H root access) as [Hd| ->]; [set_solver|done|]. exists es. split; [done|].
    intros r a d. rewrite elem_of_cons, Hes. naive_solver.
Qed.

(** The entry that decides: it applies, and no entry that applies is deeper, or
    as deep and stronger. *)
Definition decides (p : FileSystemSandboxPolicy) (ctx : PolicyContext) (path : PathUri) (access : FileSystemAccessMode) : Prop :=
  exists root depth, covers p ctx path root access depth /\
    forall root' access' depth', covers p ctx path root' access' depth' ->
      depth' < depth \/ (depth' = depth /\ access_rank access' <= access_rank access).

Lemma resolve_access_spec p path ctx :
  fs_kind p = Restricted -> in_context ctx path = true -> comparable p ctx ->
  decides p ctx path (resolve_access p path ctx) \/
  (resolve_access p path ctx = DenyAccess /\ forall root access depth, ~ covers p ctx path root access depth).
Proof.
  intros Hk Hc Hcmp. unfold resolve_access. rewrite Hk, Hc. simpl.
  destruct (with_depths_spec _ Hcmp) as (es & -> & Hes).
  set (keys := List.map _ _). pose proof (max_entry_spec keys) as Hm.
  assert (forall access depth, (access, depth) ∈ keys <-> exists root, covers p ctx path root access depth) as Hkeys.
  { intros a d. unfold keys, covers. rewrite list_elem_of_In, in_map_iff. setoid_rewrite filter_In.
    setoid_rewrite <- list_elem_of_In. split.
    - intros ([[r a'] d'] & [= <- <-] & Hin & Hs). apply Hes in Hin. naive_solver.
    - intros (r & Hin & Hd & Hs). exists (r, a, d). split_and!; [done|by apply Hes|done]. }
  destruct (max_entry keys) as [[access depth]|].
  - left. destruct Hm as [Hin Hmax]. apply Hkeys in Hin as [root Hroot]. exists root, depth. split; [done|].
    intros r' a' d' Hcov. assert ((a', d') ∈ keys) as Hin by (apply Hkeys; eauto). apply Hmax, key_leb_spec in Hin. done.
  - right. split; [done|]. intros r a d Hcov. assert ((a, d) ∈ keys) as Hin by (apply Hkeys; eauto).
    rewrite Hm in Hin. set_solver.
Qed.

Lemma decides_unique p ctx path a b : decides p ctx path a -> decides p ctx path b -> a = b.
Proof.
  intros (r & d & Hr & Hmax) (r' & d' & Hr' & Hmax'). pose proof (Hmax _ _ _ Hr'). pose proof (Hmax' _ _ _ Hr).
  assert (access_rank a = access_rank b) as E by lia. by destruct a, b.
Qed.

Lemma decides_resolves p path ctx access :
  fs_kind p = Restricted -> in_context ctx path = true -> comparable p ctx ->
  decides p ctx path access -> resolve_access p path ctx = access.
Proof.
  intros Hk Hc Hcmp Hd. destruct (resolve_access_spec p path ctx Hk Hc Hcmp) as [H|[_ H]].
  - by eapply decides_unique.
  - destruct Hd as (r & d & Hcov & _). by destruct (H _ _ _ Hcov).
Qed.

(** C28. On a restricted policy the access to a path is that of the deepest entry
    above it, and of equally deep ones the strongest: denial over write over
    read; a path below no entry is denied, and so is every path outside the
    context or with a root that cannot be compared. *)
Theorem resolve_access_most_specific p path ctx :
  fs_kind p = Restricted ->
  (comparable p ctx -> in_context ctx path = true ->
    (forall access, resolve_access p path ctx = access <->
       decides p ctx path access \/
       (access = DenyAccess /\ forall root access' depth, ~ covers p ctx path root access' depth))) /\
  (in_context ctx path = false \/ with_depths (resolved_entries p ctx) = None -> resolve_access p path ctx = DenyAccess).
Proof.
  intros Hk. split.
  - intros Hcmp Hc access. split.
    + intros <-. destruct (resolve_access_spec p path ctx Hk Hc Hcmp) as [H|[E H]]; [by left|right]. by rewrite E.
    + intros [H|[-> H]]; [by apply decides_resolves|].
      destruct (resolve_access_spec p path ctx Hk Hc Hcmp) as [(r & d & Hcov & _)|[E _]]; [by destruct (H _ _ _ Hcov)|done].
  - unfold resolve_access. rewrite Hk. intros [->| ->]; [done|by case_match].
Qed.

(** ** Full-disk write access *)

Lemma resolved_entries_in p ctx root access :
  (root, access) ∈ resolved_entries p ctx <->
  exists e, e ∈ entries p /\ entry_access e = access /\ root ∈ entry_roots ctx (entry_path e) /\
            infer_path_convention root = infer_path_convention (cwd ctx).
Proof.
  unfold resolved_entries, resolved_entry. rewrite list_elem_of_In, in_flat_map. split.
  - intros (e & He & Hin). apply in_map_iff in Hin as (r & [= -> <-] & Hin). apply filter_In in Hin as [Hr Hc].
    exists e. rewrite bool_decide_eq_true in Hc. by rewrite !list_elem_of_In.
  - intros (e & He & <- & Hr & Hc). exists e. rewrite list_elem_of_In in He. rewrite list_elem_of_In in Hr. split; [done|]. apply in_map_iff.
    exists root. split; [done|]. apply filter_In. by rewrite bool_decide_eq_true.
Qed.

Lemma slash_tmp_uri path : infer_path_convention path = Some PosixPaths ->
  uri_join path (lit "/tmp") = Ok (FileUrl (mkFileUri None [lit "tmp"])).
Proof. intros H. unfold uri_join. rewrite H. reflexivity. Qed.

(** The same place: as containment sees it. *)
Definition same_key (a b : PathUri) : Prop := a = b \/ exists k, uri_key a = Some k /\ uri_key b = Some k.

Lemma same_key_sw a b path : same_key a b -> uri_starts_with path a = true -> uri_starts_with path b = true.
Proof.
  intros [->|([[h c] ks] & Ha & Hb)] H; [done|]. eapply sw_trans; [done|]. by eapply key_below.
Qed.
Lemma same_key_depth a b : same_key a b -> lexical_depth a = lexical_depth b.
Proof. intros [->|(k & Ha & Hb)]; [done|]. by rewrite !key_depth, Ha, Hb. Qed.
Lemma same_key_convention a b : same_key a b -> infer_path_convention a = infer_path_convention b.
Proof.
  intros [->|([[h c] ks] & Ha & Hb)]; [done|]. by rewrite (key_convention _ _ _ _ Ha), (key_convention _ _ _ _ Hb).
Qed.
Lemma same_key_sym a b : same_key a b -> same_key b a.
Proof. intros [->|(k & Ha & Hb)]; [by left|right; eauto]. Qed.

Lemma slash_tmp_same_key path :
  special_path_matches_path_uri SlashTmp path = true -> same_key path (FileUrl (mkFileUri None [lit "tmp"])).
Proof.
  simpl. rewrite !andb_true_iff, !bool_decide_eq_true. intros [[Hc Hd] Hb]. right.
  apply depth_key in Hd as (h & c & ks & Hk & Hl). rewrite (key_convention _ _ _ _ Hk) in Hc. injection Hc as ->.
  pose proof (posix_host _ _ _ Hk) as ->. destruct (key_file_url _ _ _ _ Hk) as (u & -> & Hh & Hcv & Hks).
  simpl in Hb. eexists. split; [done|]. subst ks. rewrite length_map in Hl.
  destruct (non_empty (path_segments u)) as [|s [|? ?]]; try done. simpl in Hb. simplify_eq. reflexivity.
Qed.

Lemma share_special a b : special_paths_share_target a b = true -> a = b.
Proof. destruct a, b; simpl; rewrite ?andb_true_iff, ?bool_decide_eq_true; naive_solver. Qed.

Lemma posix_root_key p : infer_path_convention p = Some PosixPaths -> lexical_depth p <> None -> uri_parent p = None ->
  uri_key p = Some (None, PosixPaths, []).
Proof.
  intros Hc Hl Hn. destruct (lexical_depth p) as [d|] eqn:D; [|done]. apply depth_key in D as (h & c & ks & Hk & _).
  rewrite (key_convention _ _ _ _ Hk) in Hc. injection Hc as ->. pose proof (posix_host _ _ _ Hk) as ->.
  pose proof (root_depth _ _ _ _ Hk Hn) as Hd. destruct ks; [done|]. cbn in Hd. lia.
Qed.

(** On POSIX, entries with the same target stand for the same places. *)
Lemma share_target_roots ctx x y root :
  infer_path_convention (cwd ctx) = Some PosixPaths -> lexical_depth (cwd ctx) <> None ->
  file_system_paths_share_target x y PosixPaths = true -> root ∈ entry_roots ctx y ->
  exists root', root' ∈ entry_roots ctx x /\ same_key root' root.
Proof.
  intros Hc Hl Hs Hr.
  assert (file_system_root ctx = Some (ancestors_last (cwd ctx))
          /\ uri_key (ancestors_last (cwd ctx)) = Some (None, PosixPaths, [])) as [Hroot Hkey].
  { unfold file_system_root. destruct (lexical_depth (cwd ctx)) as [d|] eqn:D; [|done]. split; [done|].
    destruct (ancestors_last_above _ _ D) as [Hsw Hn]. apply posix_root_key; [|..|done].
    - by rewrite <- (sw_convention _ _ Hsw).
    - destruct (sw_depth _ _ _ Hsw D) as (? & -> & _). done. }
  assert (entry_roots ctx (Special SlashTmp) = [FileUrl (mkFileUri None [lit "tmp"])]) as Htmp
    by (simpl; rewrite bool_decide_true, slash_tmp_uri by done; done).
  assert (forall v q, bool_decide (infer_path_convention q = Some PosixPaths) && special_path_matches_path_uri v q = true ->
            exists r, entry_roots ctx (Special v) = [r] /\ same_key q r) as Hspecial.
  { intros v q H. apply andb_true_iff in H as [Hq Hv]. apply bool_decide_eq_true in Hq. destruct v; try done.
    - exists (ancestors_last (cwd ctx)). simpl. rewrite Hroot. split; [done|]. right. exists (None, PosixPaths, []).
      split; [|done]. simpl in Hv. apply andb_true_iff in Hv as [H1 H2]. apply posix_root_key; [done|by intros E; rewrite E in H1|].
      by destruct (uri_parent q).
    - rewrite Htmp. eexists. split; [done|]. by apply slash_tmp_same_key. }
  destruct x as [q|?|v], y as [r|?|w]; simpl in Hs; try discriminate Hs; try (by apply not_elem_of_nil in Hr).
  - apply list_elem_of_singleton in Hr as ->. exists q. split; [by apply list_elem_of_singleton|]. by apply uri_eqb_spec.
  - destruct (Hspecial _ _ Hs) as (r & Hrs & Hk). rewrite Hrs in Hr. apply list_elem_of_singleton in Hr as ->.
    exists q. split; [by apply list_elem_of_singleton|done].
  - destruct (Hspecial _ _ Hs) as (r' & Hrs & Hk). rewrite Hrs. apply list_elem_of_singleton in Hr as ->.
    exists r'. split; [by apply list_elem_of_singleton|by apply same_key_sym].
  - apply share_special in Hs as ->. exists root. split; [done|by left].
Qed.

Lemma override_covers p ctx path root access d e :
  infer_path_convention (cwd ctx) = Some PosixPaths -> lexical_depth (cwd ctx) <> None ->
  has_same_target_write_override p e PosixPaths = true ->
  root ∈ entry_roots ctx (entry_path e) -> covers p ctx path root access d ->
  exists root', covers p ctx path root' WriteAccess d.
Proof.
  intros Hc Hl Ho Hr (Hin & Hd & Hsw). apply existsb_exists in Ho as (x & Hx & Hox).
  rewrite !andb_true_iff in Hox. destruct Hox as [[Hw _] Hs].
  destruct (share_target_roots _ _ _ _ Hc Hl Hs Hr) as (root' & Hr' & Hk). exists root'.
  apply resolved_entries_in in Hin as (_ & _ & _ & _ & Hconv). split_and!.
  - apply resolved_entries_in. exists x. split_and!; [by apply list_elem_of_In|by destruct (entry_access x)|done|].
    by rewrite (same_key_convention _ _ Hk).
  - by rewrite (same_key_depth _ _ Hk).
  - eapply same_key_sw; [by apply same_key_sym|done].
Qed.

(** When a restricted policy reports full-disk write access on a POSIX
    executor, every path that can be compared is writable, metadata included:
    no entry that the shortcut ignores takes write access away anywhere. *)
Theorem full_disk_write_is_total p ctx path :
  fs_kind p = Restricted -> infer_path_convention (cwd ctx) = Some PosixPaths ->
  in_context ctx path = true -> comparable p ctx ->
  has_full_disk_write_access_with_context p ctx = true ->
  can_write_path p path ctx = true.
Proof.
  intros Hk Hc Hin Hcmp Hfull. unfold can_write_path. rewrite Hfull, orb_true_l, andb_true_r.
  pose proof Hin as Hin'. unfold in_context in Hin'. rewrite Hc in Hin'. bool_to_prop. rename H into Hpath.
  destruct (lexical_depth (cwd ctx)) as [dc|] eqn:Dc; [|done]. destruct (lexical_depth path) as [dp|] eqn:Dp; [|done].
  unfold has_full_disk_write_access_with_context, has_full_disk_write_access_for_convention in Hfull.
  rewrite Hk, Hc in Hfull. simpl in Hfull. unfold has_root_access, has_write_narrowing_entries in Hfull.
  rewrite Hk in Hfull. simpl in Hfull. apply andb_true_iff in Hfull as [Hroot Hnarrow]. apply negb_true_iff in Hnarrow.
  set (root := ancestors_last (cwd ctx)). destruct (ancestors_last_above _ _ Dc) as [Hcr Hnp].
  destruct (sw_depth _ _ _ Hcr Dc) as (dr & Dr & _).
  assert (covers p ctx path root WriteAccess dr) as Hcov.
  { apply existsb_exists in Hroot as (e & He & Hw). apply andb_true_iff in Hw as [Hre Hw]. split_and!; [|done|].
    - apply resolved_entries_in. exists e. split_and!; [by apply list_elem_of_In|by destruct (entry_access e)|..].
      + unfold is_root_entry in Hre. destruct (entry_path e) as [| |[]]; try done. simpl. unfold file_system_root.
        rewrite Dc. by apply list_elem_of_singleton.
      + symmetry. by apply sw_convention.
    - by eapply posix_root_above. }
  destruct (resolve_access_spec p path ctx Hk Hin Hcmp) as [(r & d & Hr & Hmax)|[_ Hnone]]; [|by destruct (Hnone _ _ _ Hcov)].
  destruct (can_write (resolve_access p path ctx)) eqn:Hw; [done|]. exfalso.
  pose proof Hr as (Hin_r & Hd & Hsw_r). apply resolved_entries_in in Hin_r as (e & He & Ha & Hre & Hconv).
  assert (narrows_write p PosixPaths e = false) as Hne.
  { rewrite <- not_true_iff_false in Hnarrow |- *. rewrite existsb_exists in Hnarrow. intros Hn. apply Hnarrow.
    exists e. split; [by apply list_elem_of_In|done]. }
  unfold narrows_write in Hne. rewrite Ha, Hw in Hne.
  assert (forall r', covers p ctx path r' WriteAccess d -> resolve_access p path ctx = DenyAccess) as Hdeny.
  { intros r' Hr'. destruct (Hmax _ _ _ Hr') as [?|[_ Hle]]; [lia|]. destruct (resolve_access p path ctx); simpl in *; [lia|done|done]. }
  assert (has_same_target_write_override p e PosixPaths = false) as Hover.
  { apply not_true_iff_false. intros Ho. edestruct (override_covers p ctx path r) as [r' Hr']; [done|congruence|done..|].
    apply Hdeny in Hr'. apply existsb_exists in Ho as (x & _ & Hx). rewrite !andb_true_iff, Ha, Hr', Nat.ltb_lt in Hx.
    destruct Hx as [[Hx1 Hx2] _]. destruct (entry_access x); simpl in *; try done; lia. }
  rewrite Hover in Hne. destruct (entry_path e) as [| |[]]; simpl in Hre, Hne; try done; try (by apply not_elem_of_nil in Hre).
  unfold file_system_root in Hre. rewrite Dc in Hre. apply list_elem_of_singleton in Hre as ->.
  rewrite (Hdeny root) in Hne; [done|]. rewrite Dr in Hd. by simplify_eq.
Qed.
End Access.

(** ** Denials are monotone in the entries *)

Lemma uri_eqb_refl p : uri_eqb p p = true.
Proof. unfold uri_eqb. by rewrite bool_decide_true. Qed.

Lemma entry_eqb_refl e : entry_eqb e e = true.
Proof.
  unfold entry_eqb. rewrite bool_decide_true, eqb_reflx, !andb_true_r by done.
  destruct (entry_path e); simpl; [apply uri_eqb_refl|apply str_eqb_refl|by apply bool_decide_true].
Qed.

Definition same_path (a b : FileSystemPath) : Prop :=
  match a, b with PathEntry p, PathEntry q => same_key p q | _, _ => a = b end.

Lemma entry_eqb_spec a b : entry_eqb a b = true ->
  entry_access a = entry_access b /\ skips_missing_path a = skips_missing_path b /\
  same_path (entry_path a) (entry_path b).
Proof.
  unfold entry_eqb. rewrite !andb_true_iff, bool_decide_eq_true. intros [[Hp Ha] Hs]. apply eqb_prop in Hs.
  split_and!; [done..|]. destruct (entry_path a), (entry_path b); simpl in Hp; try done.
  - by apply uri_eqb_spec.
  - apply str_eqb_spec in Hp. congruence.
  - apply bool_decide_eq_true in Hp. congruence.
Qed.

Lemma append_missing_old es extra e : e ∈ es -> e ∈ append_missing es extra.
Proof. unfold append_missing. revert es. induction extra as [|x extra IH]; intros es He; [done|]. simpl. apply IH. case_match; set_solver. Qed.

Lemma append_missing_new es extra e : e ∈ extra -> exists e', e' ∈ append_missing es extra /\ entry_eqb e' e = true.
Proof.
  unfold append_missing. revert es. induction extra as [|x extra IH]; intros es He; [set_solver|]. simpl.
  apply elem_of_cons in He as [<-|He]; [|by apply IH]. destruct (contains_entry es e) eqn:E.
  - apply existsb_exists in E as (e' & He' & Heq). exists e'. split; [|done]. apply append_missing_old. by apply list_elem_of_In.
  - exists e. split; [|apply entry_eqb_refl]. apply append_missing_old. set_solver.
Qed.

Lemma append_missing_inv es extra e : e ∈ append_missing es extra -> e ∈ es \/ e ∈ extra.
Proof.
  unfold append_missing. revert es. induction extra as [|x extra IH]; intros es He; [by left|]. simpl in He.
  apply IH in He. case_match; set_solver.
Qed.

(** The denials of the first policy are denials of the second. *)
Definition denials_kept (p q : FileSystemSandboxPolicy) : Prop :=
  forall e, e ∈ deny_entries p -> exists e', e' ∈ deny_entries q /\ entry_eqb e' e = true.

Lemma deny_entries_in p e : e ∈ deny_entries p <-> e ∈ entries p /\ entry_access e = DenyAccess.
Proof.
  unfold deny_entries. rewrite list_elem_of_In, filter_In, <- list_elem_of_In.
  destruct (entry_access e); naive_solver.
Qed.

Section Denials.
  Context {UO : UrlOps} {GS : GlobSet}.

Lemma same_path_roots ctx a b root :
  same_path a b -> root ∈ entry_roots ctx b -> exists root', root' ∈ entry_roots ctx a /\ same_key root' root.
Proof.
  intros H Hr. destruct a, b; simpl in H; simplify_eq; try (by exists root; split; [|left]).
  apply list_elem_of_singleton in Hr as ->. eexists. split; [by apply list_elem_of_singleton|done].
Qed.

Lemma prepared_roots_in p ctx root :
  root ∈ prepared_roots p ctx <->
  (root, DenyAccess) ∈ resolved_entries p ctx /\
  is_some_and (file_system_root ctx) (fun fs_root => same_place root fs_root) = false.
Proof.
  unfold prepared_roots. rewrite list_elem_of_In, in_map_iff. setoid_rewrite filter_In. split.
  - intros ([r a] & <- & Hin & Hc). simpl in *. apply andb_true_iff in Hc as [Ha Hc]. destruct a; try done.
    rewrite negb_true_iff in Hc. by rewrite list_elem_of_In.
  - intros [Hin Hc]. exists (root, DenyAccess). rewrite list_elem_of_In in Hin. simpl. by rewrite Hc.
Qed.

Lemma same_key_place a b o : same_key a b ->
  is_some_and o (fun x => same_place a x) = is_some_and o (fun x => same_place b x).
Proof.
  assert (forall a b x, same_key a b -> same_place a x = true -> same_place b x = true) as H.
  { clear. intros a b x H. unfold same_place. rewrite !andb_true_iff. intros [H1 H2]. split; [|by eapply same_key_sw].
    eapply sw_trans; [|exact H1]. eapply same_key_sw; [by apply same_key_sym|apply sw_refl]. }
  intros Hs. destruct o as [x|]; [|done]. simpl. apply eq_true_iff_eq. split; apply H; [done|by apply same_key_sym].
Qed.

Lemma prepared_roots_mono p q ctx root :
  denials_kept p q -> root ∈ prepared_roots p ctx -> exists root', root' ∈ prepared_roots q ctx /\ same_key root' root.
Proof.
  intros Hk Hr. apply prepared_roots_in in Hr as [Hin Hc]. apply resolved_entries_in in Hin as (e & He & Ha & Hr & Hconv).
  destruct (Hk e) as (e' & He' & Heq); [by apply deny_entries_in|]. apply entry_eqb_spec in Heq as (Ha' & _ & Hpath).
  destruct (same_path_roots ctx _ _ _ Hpath Hr) as (root' & Hr' & Hs). exists root'. split; [|done].
  apply deny_entries_in in He' as [He' Hd]. apply prepared_roots_in. split.
  - apply resolved_entries_in. exists e'. split_and!; try done. by rewrite (same_key_convention _ _ Hs).
  - by rewrite (same_key_place _ _ _ Hs).
Qed.

Lemma deny_patterns_mono p q pattern : denials_kept p q -> pattern ∈ deny_patterns p -> pattern ∈ deny_patterns q.
Proof.
  intros Hk Hp. unfold deny_patterns in *. apply list_elem_of_omap in Hp as (e & He & Hpat).
  destruct (Hk e He) as (e' & He' & Heq). apply entry_eqb_spec in Heq as (_ & _ & Hpath).
  apply list_elem_of_omap. exists e'. split; [done|]. destruct (entry_path e), (entry_path e'); naive_solver.
Qed.

Lemma try_collect_spec {A B E} (f : A -> result B E) l :
  match try_collect f l with
  | Ok bs => forall b, b ∈ bs <-> exists a, a ∈ l /\ f a = Ok b
  | Err e => exists a, a ∈ l /\ f a = Err e
  end /\ (forall a e, a ∈ l -> f a = Err e -> is_ok (try_collect f l) = false).
Proof.
  induction l as [|a l [IH1 IH2]]; simpl; [split; [set_solver|set_solver]|].
  destruct (f a) as [b|e] eqn:Efa; simpl.
  - destruct (try_collect f l) as [bs|e']; simpl; split.
    + intros b'. rewrite elem_of_cons, IH1. split.
      * intros [->|(x & Hx & Ex)]; [exists a|exists x]; set_solver.
      * intros (x & Hx%elem_of_cons & Ex). destruct Hx as [->|Hx]; [left; congruence|right; eauto].
    + intros x e' Hx%elem_of_cons He. destruct Hx as [->|Hx]; [congruence|]. by apply (IH2 _ _ Hx He).
    + destruct IH1 as (x & Hx & He). exists x. set_solver.
    + done.
  - split; [exists a; set_solver|done].
Qed.

Lemma build_matchers_spec c patterns :
  exists ms inv, build_matchers c FailClosed patterns = Ok (ms, inv) /\
    (forall m, m ∈ ms <-> exists pat, pat ∈ patterns /\ build_glob_matcher pat c = Some m) /\
    (inv = true <-> exists pat, pat ∈ patterns /\ build_glob_matcher pat c = None).
Proof.
  induction patterns as [|pat patterns (ms & inv & IH & Hm & Hi)]; simpl.
  - exists [], false. split_and!; [done|set_solver|split; [done|set_solver]].
  - rewrite IH. destruct (build_glob_matcher pat c) as [m|] eqn:E; simpl; do 2 eexists; (split; [done|]); split.
    + intros m'. rewrite elem_of_cons, Hm. setoid_rewrite elem_of_cons. naive_solver.
    + rewrite Hi. setoid_rewrite elem_of_cons. naive_solver.
    + intros m'. rewrite Hm. setoid_rewrite elem_of_cons. naive_solver.
    + split; [|done]. intros _. exists pat. set_solver.
Qed.

(** The matcher, as the denials it stands for. *)
Lemma is_read_denied_spec p ctx path :
  is_read_denied p ctx path = true <->
  deny_entries p <> [] /\
  (in_context ctx path = false \/
   (exists root, root ∈ prepared_roots p ctx /\ uri_starts_with path root = true) \/
   exists pattern, pattern ∈ deny_patterns p /\
     match deny_read_glob ctx pattern, infer_path_convention (cwd ctx) with
     | Ok text, Some c => match build_glob_matcher text c with
                          | Some m => glob_is_match m (glob_candidate c path) = true
                          | None => True
                          end
     | _, _ => True
     end).
Proof.
  unfold is_read_denied, matcher_from_context. destruct (deny_entries p) as [|e0 es] eqn:Hd; [split; [done|naive_solver]|].
  simpl is_nil. cbv iota. unfold prepare_deny_read_matcher.
  destruct (infer_path_convention (cwd ctx)) as [c|] eqn:Hc.
  2:{ simpl. unfold matches_prepared_read_deny, in_context. rewrite Hc. split; [|done]. intros _. by split; [|left]. }
  destruct (try_collect_spec (deny_read_glob ctx) (deny_patterns p)) as [Hcol Herr].
  unfold deny_read_globs. destruct (try_collect _ _) as [texts|e] eqn:Et.
  - destruct (build_matchers_spec c texts) as (ms & inv & -> & Hm & Hi). simpl.
    unfold matches_prepared_read_deny. rewrite Hc. simpl. rewrite !orb_true_iff, negb_true_iff, !existsb_exists, Hi. split.
    + intros H. split; [done|]. destruct H as [[[H|(pat & Hp & Hb)]|(r & Hr & Hs)]|(m & Hin & Hmatch)]; [by left|..].
      * right; right. apply Hcol in Hp as (q & Hq & Eq). exists q. rewrite Eq, Hb. done.
      * right; left. exists r. by rewrite list_elem_of_In.
      * right; right. apply list_elem_of_In, Hm in Hin as (pat & Hp & Hb). apply Hcol in Hp as (q & Hq & Eq).
        exists q. by rewrite Eq, Hb.
    + intros [_ [H|[(r & Hr & Hs)|(pat & Hp & H)]]]; [by do 3 left|..].
      * left; right. exists r. by rewrite <- list_elem_of_In.
      * destruct (deny_read_glob ctx pat) as [text|e] eqn:Eg; [|by specialize (Herr _ _ Hp Eg)].
        assert (text ∈ texts) as Ht by (apply Hcol; eauto). destruct (build_glob_matcher text c) as [m|] eqn:Eb.
        -- right. exists m. rewrite <- list_elem_of_In. split; [|done]. apply Hm. eauto.
        -- left; left; right. eauto.
  - simpl. unfold matches_prepared_read_deny. rewrite Hc. simpl. rewrite orb_true_r. split; [|done]. intros _. split; [done|].
    right; right. destruct Hcol as (pat & Hp & Ep). exists pat. by rewrite Ep.
Qed.

Lemma read_denied_mono p q ctx path :
  (deny_entries p <> [] -> deny_entries q <> []) ->
  (forall root, root ∈ prepared_roots p ctx -> exists root', root' ∈ prepared_roots q ctx /\ same_key root' root) ->
  (forall pattern, pattern ∈ deny_patterns p -> pattern ∈ deny_patterns q) ->
  is_read_denied p ctx path = true -> is_read_denied q ctx path = true.
Proof.
  rewrite !is_read_denied_spec. intros Hne Hroots Hpats [Hd H]. split; [auto|].
  destruct H as [H|[(r & Hr & Hs)|(pat & Hp & H)]]; [by left|right; left|right; right].
  - destruct (Hroots r Hr) as (r' & Hr' & Hsame). exists r'. split; [done|].
    eapply same_key_sw; [by apply same_key_sym|done].
  - exists pat. auto.
Qed.

Lemma more_denials_deny_more p q ctx path :
  denials_kept p q -> is_read_denied p ctx path = true -> is_read_denied q ctx path = true.
Proof.
  intros Hk. apply read_denied_mono.
  - intros Hne. destruct (deny_entries p) as [|e ?] eqn:E; [done|]. destruct (Hk e) as (e' & He' & _); [rewrite E; set_solver|].
    by destruct (deny_entries q); [set_solver|].
  - intros r. by apply prepared_roots_mono.
  - intros pat. by apply deny_patterns_mono.
Qed.

(** Replacing the grants of a policy keeps what was denied: after the denials
    of an existing policy are carried over, its read-deny matcher still denies
    every path it denied, whatever the new policy grants, unless the sandbox is
    external; with an unrestricted policy the result is restricted. *)
Theorem preserved_denials_stay p existing ctx path :
  fs_kind p <> ExternalSandbox -> is_read_denied existing ctx path = true ->
  is_read_denied (preserve_deny_read_restrictions_from p existing) ctx path = true /\
  fs_kind (preserve_deny_read_restrictions_from p existing) = Restricted.
Proof.
  intros Hk Hd. assert (deny_entries existing <> []) as Hne by (by apply is_read_denied_spec in Hd as [? _]).
  unfold preserve_deny_read_restrictions_from. rewrite (proj2 (is_nil_false _)) by done. simpl.
  set (q := match fs_kind p with Unrestricted => _ | _ => _ end).
  assert (fs_kind q = Restricted) as Hq by (subst q; destruct (fs_kind p) eqn:E; simpl; done).
  rewrite Hq. simpl. split; [|done]. eapply more_denials_deny_more; [|done]. intros e He.
  destruct (append_missing_new (entries q) (deny_entries existing) e He) as (e' & He' & Heq). exists e'. split; [|done].
  apply deny_entries_in. split; [done|]. apply entry_eqb_spec in Heq as (-> & _). by apply deny_entries_in in He as [_ ?].
Qed.
End Denials.

(** ** Workspace metadata *)

Section Metadata.
  Context {UO : UrlOps}.

(** The path lies in a protected directory of a writable root. *)
Definition in_protected (p : FileSystemSandboxPolicy) (ctx : PolicyContext) (path protected : PathUri) : Prop :=
  exists root name, (root, WriteAccess) ∈ resolved_entries p ctx /\ name ∈ PROTECTED_METADATA_PATH_NAMES /\
    uri_join_descendant root name = Ok protected /\ uri_starts_with path protected = true.

Lemma protected_below_spec path root names :
  match protected_below path root names with
  | Some (protected, name) =>
      name ∈ names /\ uri_join_descendant root name = Ok protected /\ uri_starts_with path protected = true
  | None => forall name protected, name ∈ names -> uri_join_descendant root name = Ok protected ->
              uri_starts_with path protected = false
  end.
Proof.
  induction names as [|name names IH]; simpl; [set_solver|].
  destruct (uri_join_descendant root name) as [protected|e] eqn:E.
  - destruct (uri_starts_with path protected) eqn:Hs; [split_and!; [set_solver|done..]|].
    destruct (protected_below path root names) as [[? ?]|]; [split_and!; [set_solver|naive_solver..]|].
    intros n q Hn%elem_of_cons Hq. destruct Hn as [->|Hn]; [congruence|eauto].
  - destruct (protected_below path root names) as [[? ?]|]; [split_and!; [set_solver|naive_solver..]|].
    intros n q Hn%elem_of_cons Hq. destruct Hn as [->|Hn]; [congruence|eauto].
Qed.

Lemma first_protected_spec path roots :
  match first_protected path roots with
  | Some (protected, name) =>
      exists root, (root, WriteAccess) ∈ roots /\ name ∈ PROTECTED_METADATA_PATH_NAMES /\
        uri_join_descendant root name = Ok protected /\ uri_starts_with path protected = true
  | None => forall root name protected, (root, WriteAccess) ∈ roots -> name ∈ PROTECTED_METADATA_PATH_NAMES ->
              uri_join_descendant root name = Ok protected -> uri_starts_with path protected = false
  end.
Proof.
  induction roots as [|[root access] roots IH]; cbn [first_protected]; [set_solver|].
  assert (match first_protected path roots with
          | Some (protected, name) =>
              exists root', (root', WriteAccess) ∈ (root, access) :: roots /\ name ∈ PROTECTED_METADATA_PATH_NAMES /\
                uri_join_descendant root' name = Ok protected /\ uri_starts_with path protected = true
          | None => True end) as Hlater.
  { destruct (first_protected path roots) as [[? ?]|]; [|done]. destruct IH as (r & Hr & H). exists r. split; [set_solver|done]. }
  destruct access; cbn [can_write];
    try (destruct (first_protected path roots) as [[? ?]|]; [done|]; intros r n q Hr; apply IH; set_solver).
  pose proof (protected_below_spec path root PROTECTED_METADATA_PATH_NAMES) as Hb.
  destruct (protected_below path root _) as [[protected name]|].
  - exists root. split; [set_solver|done].
  - destruct (first_protected path roots) as [[? ?]|]; [done|].
    intros r n q Hr%elem_of_cons. destruct Hr as [[= ->]|Hr]; [apply Hb|by apply IH].
Qed.

(** Workspace metadata stays protected: in a restricted policy without
    full-disk write access, a path in the [.git], [.agents], [.codex] or [.aws]
    directory of a writable root is not writable, unless a write entry inside
    such a directory is above the path. *)
Theorem metadata_stays_protected p ctx path protected :
  fs_kind p = Restricted -> has_full_disk_write_access_with_context p ctx = false ->
  in_protected p ctx path protected ->
  (forall root protected', (root, WriteAccess) ∈ resolved_entries p ctx -> in_protected p ctx path protected' ->
     uri_starts_with path root = true -> uri_starts_with root protected' = false) ->
  can_write_path p path ctx = false /\ exists name, metadata_write_denial p path ctx = Some name.
Proof.
  intros Hk Hf (root & name & Hroot & Hname & Hjoin & Hsw) Hno.
  assert (exists name, metadata_write_denial p path ctx = Some name) as [n Hn].
  { unfold metadata_write_denial. rewrite Hk. simpl. pose proof (first_protected_spec path (resolved_entries p ctx)) as Hfp.
    destruct (first_protected path _) as [[q n]|]; [|by rewrite (Hfp _ _ _ Hroot Hname Hjoin) in Hsw].
    destruct (existsb _ _) eqn:E; [|eauto]. exfalso. apply existsb_exists in E as ([r a] & Hin & Hc). simpl in Hc.
    rewrite !andb_true_iff in Hc. destruct Hc as [[Ha Hr] Hq]. destruct a; try done. apply list_elem_of_In in Hin.
    rewrite (Hno r q) in Hq; [done|done| |done]. destruct Hfp as (r' & Hr' & Hn' & Hj & Hs). by exists r', n. }
  split; [|eauto]. unfold can_write_path. by rewrite Hf, Hn, andb_false_r.
Qed.
End Metadata.

(** ** Examples *)

Definition demo_globs : GlobSet :=
  {| GlobMatcher := str;
     build_glob pattern _ := if contains_char 123%N pattern then None else Some pattern;
     glob_is_match m bytes := bool_decide (encode m = bytes) |}.
#[export] Existing Instance demo_globs.

Definition here : PathUri := posix_uri [lit "w"].
Definition demo_context : PolicyContext := mkPolicyContext here [here] None (Some []).
Definition under (names : list str) : PathUri := posix_uri (lit "w" :: names).

Definition demo_policy : FileSystemSandboxPolicy :=
  restricted [new_entry (Special RootPath) ReadAccess; new_entry (Special (ProjectRoots None)) WriteAccess;
              new_entry (PathEntry (under [lit "secret"])) DenyAccess; new_entry (GlobPattern (lit "*.key")) DenyAccess].

Lemma comparable_dec p ctx :
  forallb (fun e => is_some (lexical_depth (fst e)) || is_opaque (fst e)) (resolved_entries p ctx) = true -> comparable p ctx.
Proof.
  intros H root access Hin. rewrite forallb_forall in H. apply list_elem_of_In, H in Hin. simpl in Hin.
  apply orb_true_iff in Hin as [Hin|Hin]; [left|by right]. by destruct (lexical_depth root).
Qed.

Lemma resolve_access_most_specific_witness :
  resolve_access demo_policy (under [lit "secret"; lit "x"]) demo_context = DenyAccess /\
  (resolve_access demo_policy (under [lit "src"]) demo_context = WriteAccess <->
   decides demo_policy demo_context (under [lit "src"]) WriteAccess \/
   (WriteAccess = DenyAccess /\ forall root access' depth, ~ covers demo_policy demo_context (under [lit "src"]) root access' depth)).
Proof.
  split; [reflexivity|].
  apply (proj1 (resolve_access_most_specific demo_policy (under [lit "src"]) demo_context eq_refl)).
  - apply comparable_dec. reflexivity.
  - reflexivity.
Defined.

Definition wide_policy : FileSystemSandboxPolicy :=
  restricted [new_entry (Special RootPath) WriteAccess; new_entry (PathEntry (posix_uri [lit "tmp"])) ReadAccess;
              new_entry (Special SlashTmp) WriteAccess].

Lemma full_disk_write_is_total_witness :
  can_write_path wide_policy (posix_uri [lit "tmp"; lit "x"]) demo_context = true /\
  can_write_path wide_policy (under [lit ".git"]) demo_context = true.
Proof.
  split; apply full_disk_write_is_total; try reflexivity; apply comparable_dec; reflexivity.
Defined.

Lemma preserved_denials_stay_witness :
  is_read_denied (preserve_deny_read_restrictions_from unrestricted demo_policy) demo_context (under [lit "secret"; lit "x"]) = true /\
  fs_kind (preserve_deny_read_restrictions_from unrestricted demo_policy) = Restricted.
Proof. apply (preserved_denials_stay unrestricted demo_policy demo_context); [discriminate|reflexivity]. Defined.

Lemma metadata_stays_protected_witness :
  can_write_path demo_policy (under [lit ".git"; lit "config"]) demo_context = false /\
  exists name, metadata_write_denial demo_policy (under [lit ".git"; lit "config"]) demo_context = Some name.
Proof.
  apply (metadata_stays_protected demo_policy demo_context _ (under [lit ".git"])); [reflexivity..| |].
  - exists here, (lit ".git"). split_and!; [|by left|reflexivity..]. vm_compute. right. left.
  - assert (forall r, (r, WriteAccess) ∈ resolved_entries demo_policy demo_context -> r = here) as Hwrite.
    { intros r Hin. apply list_elem_of_In in Hin. vm_compute in Hin. destruct Hin as [[=]|[[= <-]|[[=]|[]]]]. reflexivity. }
    intros root protected ->%Hwrite (r & n & ->%Hwrite & Hn & Hj & Hs) _.
    apply list_elem_of_In in Hn.
    destruct Hn as [<-|[<-|[<-|[<-|[]]]]]; vm_compute in Hj; injection Hj as <-; by vm_compute in Hs |- *.
Defined.

(** Which of two nested protected directories is looked at depends on the order
    of the entries: with a writable directory inside [.git], the [.git] below it
    is protected only when its entry comes first. *)
Definition outer_entry := new_entry (PathEntry here) WriteAccess.
Definition inner_entry := new_entry (PathEntry (under [lit ".git"; lit "hooks"])) WriteAccess.

Theorem metadata_protection_depends_on_order :
  let path := under [lit ".git"; lit "hooks"; lit ".git"; lit "config"] in
  can_write_path (restricted [outer_entry; inner_entry]) path demo_context = true /\
  can_write_path (restricted [inner_entry; outer_entry]) path demo_context = false.
Proof. by vm_compute. Qed.
