(* ===== verification/PermissionTarget.v ===== *)
(** * Policies of approved commands and mandatory denials ([permissions/target.rs], [permissions/deny_read_validator.rs])

    When the user approves a command that the sandbox refused, it runs again with
    write access to the whole disk, except where the policy denies access
    explicitly.  [for_approved_command] computes that policy, and keeps the old
    one when a denial cannot be placed safely.  Denials an administrator requires
    must appear in the profile a user selects and must not be undone by its
    grants: [DenyReadValidator].

    The theorems: the policy of an approved command is exactly "write everywhere
    except below a denied root"; it denies all the policy it replaces denied; and
    a validated profile denies what is required. *)

From stdpp Require Import base list numbers option strings sets.
From Stdlib Require Import Lia.
From S2P Require Import Prelude RustStr Utf8Stream UriPath Permissions.

Section Target.
  Context {UO : UrlOps} {GS : GlobSet}.

Definition has_context_read_denials (p : FileSystemSandboxPolicy) (ctx : PolicyContext) : bool :=
  is_restricted (fs_kind p)
  && existsb (fun e => is_deny (entry_access e)
                       && negb (is_slash_tmp (entry_path e)
                                && negb (bool_decide (infer_path_convention (cwd ctx) = Some PosixPaths)))) (entries p).

Definition valid_context_path (c : PathConvention) (path : PathUri) : bool :=
  bool_decide (infer_path_convention path = Some c) && is_some (lexical_depth path).

Definition validate_context_entry (c : PathConvention) (ctx : PolicyContext) (path : FileSystemPath) : result unit DenyGlobError :=
  match path with
  | PathEntry p => if valid_context_path c p then Ok tt else Err InvalidContextPath
  | Special Tmpdir =>
      match temporary_directories ctx with
      | None => Err MissingTemporaryDirectories
      | Some dirs => if forallb (valid_context_path c) dirs then Ok tt else Err UnsafeTemporaryDirectories
      end
  | Special (ProjectRoots (Some subpath)) =>
      if existsb (fun root => negb (is_ok (uri_join root subpath))) (workspace_roots ctx)
      then Err InvalidContextPath else Ok tt
  | GlobPattern pattern =>
      if (starts_with (lit "~/") pattern || (is_windows c && starts_with (lit "~\") pattern))
         && negb (is_some_and (user_home_dir ctx) (valid_context_path c))
      then Err InvalidContextPath else Ok tt
  | _ => Ok tt
  end.

Fixpoint validate_entries (c : PathConvention) (ctx : PolicyContext) (es : list FileSystemSandboxEntry) : result unit DenyGlobError :=
  match es with
  | [] => Ok tt
  | e :: es => try? validate_context_entry c ctx (entry_path e) in validate_entries c ctx es
  end.

Definition validate_context_paths (p : FileSystemSandboxPolicy) (ctx : PolicyContext) : result unit DenyGlobError :=
  match infer_path_convention (cwd ctx) with
  | None => Err InvalidContextPath
  | Some c =>
      if negb (valid_context_path c (cwd ctx)) || existsb (fun r => negb (valid_context_path c r)) (workspace_roots ctx)
      then Err InvalidContextPath
      else validate_entries c ctx (entries p)
  end.

Definition try_new_with_context (p : FileSystemSandboxPolicy) (ctx : PolicyContext)
    : result (option PreparedReadDenyMatcher) DenyGlobError :=
  if negb (has_context_read_denials p ctx) then Ok None
  else
    try? validate_context_paths p ctx in
    let? prepared := prepare_deny_read_matcher p ctx ReturnError in
    Ok (Some prepared).

(** ** The policy of an approved command *)

Definition is_workspace_relative (e : FileSystemSandboxEntry) : bool := is_some (workspace_relative (entry_path e)).

Definition matcher_denies (m : option PreparedReadDenyMatcher) (ctx : PolicyContext) (path : PathUri) : bool :=
  is_some_and m (matches_prepared_read_deny path ctx).

(** Write entries for the metadata directories of the root that are not denied. *)
Fixpoint metadata_grants (m : option PreparedReadDenyMatcher) (ctx : PolicyContext) (root : PathUri) (names : list str)
    : option (list FileSystemSandboxEntry) :=
  match names with
  | [] => Some []
  | name :: names =>
      match uri_join_descendant root name with
      | Err _ => None
      | Ok path =>
          let grant := if matcher_denies m ctx path then [] else [new_entry (PathEntry path) WriteAccess] in
          option_map (app grant) (metadata_grants m ctx root names)
      end
  end.

Definition approved_base (p : FileSystemSandboxPolicy) : FileSystemSandboxPolicy :=
  preserve_deny_read_restrictions_from (restricted [new_entry (Special RootPath) WriteAccess]) p.

Definition for_approved_command (p : FileSystemSandboxPolicy) (ctx : PolicyContext) : FileSystemSandboxPolicy :=
  if negb (is_restricted (fs_kind p)) then p
  else
    let base := approved_base p in
    if is_nil (workspace_roots ctx) && existsb is_workspace_relative (entries base) then p
    else
      match try_materialize_project_roots_with_path_uris base (workspace_roots ctx) with
      | None => p
      | Some approved =>
          match file_system_root ctx with
          | None => p
          | Some root =>
              match try_new_with_context approved ctx with
              | Err _ => p
              | Ok matcher =>
                  if negb (can_write (resolve_access approved root ctx)) || matcher_denies matcher ctx root then p
                  else
                    match metadata_grants matcher ctx root PROTECTED_METADATA_PATH_NAMES with
                    | None => p
                    | Some grants => with_entries approved (entries approved ++ grants)
                    end
              end
          end
      end.

(** ** Required denials *)

Record DenyReadValidator := mkValidator {
  required_entries : list FileSystemSandboxEntry;
  required_matcher : option PreparedReadDenyMatcher }.

Inductive DenyReadViolation := MissingRequiredDeny | ReadablePath (path : PathUri).

Definition validator_new (required : FileSystemSandboxPolicy) (ctx : PolicyContext) : result DenyReadValidator DenyGlobError :=
  let? matcher := (if has_context_read_denials required ctx
                   then let? m := prepare_deny_read_matcher required ctx ReturnError in Ok (Some m)
                   else Ok None) in
  Ok (mkValidator (entries required) matcher).

Definition violating_path (v : DenyReadValidator) (ctx : PolicyContext) (e : FileSystemSandboxEntry) : option PathUri :=
  if negb (can_read (entry_access e)) then None
  else match entry_path e with
       | PathEntry path =>
           if negb (bool_decide (infer_path_convention path = infer_path_convention (cwd ctx))) then None
           else if matcher_denies (required_matcher v) ctx path then Some path else None
       | _ => None
       end.

Fixpoint find_violation (v : DenyReadValidator) (ctx : PolicyContext) (es : list FileSystemSandboxEntry) : option PathUri :=
  match es with
  | [] => None
  | e :: es => match violating_path v ctx e with Some path => Some path | None => find_violation v ctx es end
  end.

Definition validate (v : DenyReadValidator) (selected : FileSystemSandboxPolicy) (ctx : PolicyContext) : result unit DenyReadViolation :=
  match find_violation v ctx (entries selected) with
  | Some path => Err (ReadablePath path)
  | None =>
      if existsb (fun e => negb (contains_entry (entries selected) e)) (required_entries v)
      then Err MissingRequiredDeny else Ok tt
  end.

Inductive ManagedDenyError := CannotPrepare (e : DenyGlobError) | Shadowed.

Definition validate_managed_deny_read (selected required : FileSystemSandboxPolicy) (ctx : PolicyContext)
    : result unit ManagedDenyError :=
  match validator_new required ctx with
  | Err e => Err (CannotPrepare e)
  | Ok v => match validate v selected ctx with Ok _ => Ok tt | Err _ => Err Shadowed end
  end.

(** ** Roots that a command may not read *)

(** [seen.insert]: later URIs equal to an earlier one are dropped. *)
Fixpoint dedup_uris (seen : list PathUri) (l : list PathUri) : list PathUri :=
  match l with
  | [] => []
  | p :: l => if existsb (fun q => uri_eqb q p) seen then dedup_uris seen l else p :: dedup_uris (p :: seen) l
  end.

Definition get_unreadable_roots_with_context (p : FileSystemSandboxPolicy) (ctx : PolicyContext) : option (list PathUri) :=
  if negb (is_restricted (fs_kind p)) then Some []
  else if is_none (temporary_directories ctx)
          && existsb (fun e => is_deny (entry_access e)
                               && match entry_path e with Special Tmpdir => true | _ => false end) (entries p)
  then None
  else Some (dedup_uris [] (prepared_roots p ctx)).
End Target.

(** ** What an approved command may do *)

Definition root_write : FileSystemSandboxEntry := new_entry (Special RootPath) WriteAccess.

Lemma append_missing_app es extra :
  exists rest, append_missing es extra = es ++ rest /\ forall e, e ∈ rest -> e ∈ extra.
Proof.
  unfold append_missing. revert es. induction extra as [|x extra IH]; intros es; simpl.
  - exists []. by rewrite app_nil_r.
  - destruct (contains_entry es x).
    + destruct (IH es) as (rest & -> & H). exists rest. set_solver.
    + destruct (IH (es ++ [x])) as (rest & -> & H). exists (x :: rest). rewrite <- app_assoc. set_solver.
Qed.

Lemma approved_base_entries p :
  fs_kind (approved_base p) = Restricted /\
  exists rest, entries (approved_base p) = root_write :: rest /\ (forall e, e ∈ rest -> e ∈ deny_entries p) /\
    forall e, e ∈ deny_entries p -> exists e', e' ∈ rest /\ entry_eqb e' e = true.
Proof.
  unfold approved_base, preserve_deny_read_restrictions_from. simpl. split; [done|].
  destruct (append_missing_app [root_write] (deny_entries p)) as (rest & E & Hsub). exists rest.
  split_and!; [exact E|done|]. intros e He.
  destruct (append_missing_new [root_write] (deny_entries p) e He) as (e' & He' & Heq). exists e'. split; [|done].
  rewrite E in He'. apply elem_of_app in He' as [->%list_elem_of_singleton|]; [|done].
  apply entry_eqb_spec in Heq as (Ha & _). apply deny_entries_in in He as [_ Hd]. rewrite Hd in Ha. done.
Qed.

Section Approved.
  Context {UO : UrlOps} {GS : GlobSet}.

Lemma materialize_at_access e subpath is_glob root e' :
  materialize_at e subpath is_glob root = Some e' -> entry_access e = DenyAccess -> entry_access e' = DenyAccess.
Proof. unfold materialize_at. repeat case_match; naive_solver. Qed.

Lemma materialize_entries_in roots es es' e' :
  materialize_entries roots es = Some es' -> e' ∈ es' ->
  exists e, e ∈ es /\ match workspace_relative (entry_path e) with
                      | None => e' = e
                      | Some (subpath, is_glob) => exists root, root ∈ roots /\ materialize_at e subpath is_glob root = Some e'
                      end.
Proof.
  revert es'. induction es as [|e es IH]; simpl; intros es' H Hin; [simplify_eq; set_solver|].
  destruct (workspace_relative (entry_path e)) as [[subpath is_glob]|] eqn:Ew.
  - destruct (unplaceable_denial e subpath roots); [done|]. destruct (materialize_entries roots es) as [rest|]; [|done].
    simplify_eq/=. apply elem_of_app in Hin as [Hin|Hin].
    + exists e. rewrite Ew. split; [set_solver|]. apply list_elem_of_omap in Hin as (r & Hr & Hm). eauto.
    + destruct (IH rest eq_refl Hin) as (x & Hx & Hm). exists x. split; [set_solver|done].
  - destruct (materialize_entries roots es) as [rest|]; [|done]. simplify_eq/=. apply elem_of_cons in Hin as [->|Hin].
    + exists e. rewrite Ew. split; [set_solver|done].
    + destruct (IH rest eq_refl Hin) as (x & Hx & Hm). exists x. split; [set_solver|done].
Qed.

Lemma materialize_entries_out roots es es' e :
  materialize_entries roots es = Some es' -> e ∈ es ->
  match workspace_relative (entry_path e) with
  | None => e ∈ es'
  | Some (subpath, is_glob) => forall root e', root ∈ roots -> materialize_at e subpath is_glob root = Some e' -> e' ∈ es'
  end.
Proof.
  revert es'. induction es as [|x es IH]; simpl; intros es' H Hin; [set_solver|].
  assert (exists rest new, materialize_entries roots es = Some rest /\ es' = new ++ rest /\
            (e = x -> match workspace_relative (entry_path e) with
                      | None => e ∈ new
                      | Some (s, g) => forall root e', root ∈ roots -> materialize_at e s g root = Some e' -> e' ∈ new
                      end)) as (rest & new & Hrest & -> & Hnew).
  { destruct (workspace_relative (entry_path x)) as [[s g]|] eqn:Ew.
    - destruct (unplaceable_denial x s roots); [done|]. destruct (materialize_entries roots es) as [rest|]; [|done].
      simplify_eq/=. exists rest, (omap (materialize_at x s g) roots). split_and!; [done..|]. intros ->. rewrite Ew.
      intros root e' Hr Hm. apply list_elem_of_omap. eauto.
    - destruct (materialize_entries roots es) as [rest|]; [|done]. simplify_eq/=. exists rest, [x]. split_and!; [done..|].
      intros ->. rewrite Ew. set_solver. }
  apply elem_of_cons in Hin as [Heq|Hin].
  - specialize (Hnew Heq). destruct (workspace_relative (entry_path e)) as [[s g]|]; [|set_solver].
    intros root e' Hr Hm. apply elem_of_app. left. eauto.
  - specialize (IH rest Hrest Hin). destruct (workspace_relative (entry_path e)) as [[s g]|]; [|set_solver].
    intros root e' Hr Hm. apply elem_of_app. right. eauto.
Qed.

(** What [for_approved_command] computed when it changed the policy. *)
Record approval (p : FileSystemSandboxPolicy) (ctx : PolicyContext) (approved result : FileSystemSandboxPolicy) (root : PathUri)
    (m : option PreparedReadDenyMatcher) : Prop := {
  ap_kind : fs_kind approved = Restricted;
  ap_entries : exists rest, entries approved = root_write :: rest /\ forall e, e ∈ rest -> entry_access e = DenyAccess;
  ap_materialized : try_materialize_project_roots_with_path_uris (approved_base p) (workspace_roots ctx) = Some approved;
  ap_roots : workspace_roots ctx <> [] \/ existsb is_workspace_relative (entries (approved_base p)) = false;
  ap_root : file_system_root ctx = Some root;
  ap_matcher : try_new_with_context approved ctx = Ok m;
  ap_root_access : can_write (resolve_access approved root ctx) = true;
  ap_root_read : matcher_denies m ctx root = false;
  ap_result : exists grants, metadata_grants m ctx root PROTECTED_METADATA_PATH_NAMES = Some grants /\
                result = with_entries approved (entries approved ++ grants) }.

(** The cases in which the policy is kept as it is: it is not restricted; a
    denial is relative to the workspace and there is none, or names a place that
    is not known (a home directory); a denied path or glob is not valid on the
    execution host; the root itself is denied; or the host of the root's URI takes
    no metadata directory below it. *)
Definition keeps_original (p : FileSystemSandboxPolicy) (ctx : PolicyContext) (root : PathUri) : bool :=
  negb (is_restricted (fs_kind p))
  || is_nil (workspace_roots ctx) && existsb is_workspace_relative (entries (approved_base p))
  || existsb (fun name => match uri_join_descendant root name with Err _ => true | Ok _ => false end) PROTECTED_METADATA_PATH_NAMES
  || match try_materialize_project_roots_with_path_uris (approved_base p) (workspace_roots ctx) with
     | None => true
     | Some placed =>
         match try_new_with_context placed ctx with
         | Err _ => true
         | Ok matcher => negb (can_write (resolve_access placed root ctx)) || matcher_denies matcher ctx root
         end
     end.

Lemma metadata_grants_total m ctx root names :
  is_some (metadata_grants m ctx root names)
  = negb (existsb (fun name => match uri_join_descendant root name with Err _ => true | Ok _ => false end) names).
Proof.
  induction names as [|name names IH]; simpl; [done|]. destruct (uri_join_descendant root name); [|done].
  simpl. rewrite <- IH. by destruct (metadata_grants m ctx root names).
Qed.

Lemma keeps_original_spec p ctx root : file_system_root ctx = Some root -> keeps_original p ctx root = true -> for_approved_command p ctx = p.
Proof.
  unfold keeps_original, for_approved_command. intros Hr. destruct (negb (is_restricted _)); [done|].
  destruct (is_nil _ && _); [done|]. destruct (try_materialize_project_roots_with_path_uris _ _) as [placed|]; [|done].
  rewrite Hr. destruct (try_new_with_context placed ctx) as [m|]; [|done].
  destruct (_ || matcher_denies m ctx root); [done|]. pose proof (metadata_grants_total m ctx root PROTECTED_METADATA_PATH_NAMES) as Hg.
  destruct (metadata_grants _ _ _ _); [|done]. destruct (existsb _ PROTECTED_METADATA_PATH_NAMES); done.
Qed.

Lemma approves_otherwise p ctx root : file_system_root ctx = Some root -> keeps_original p ctx root = false ->
  exists approved m, approval p ctx approved (for_approved_command p ctx) root m.
Proof.
  unfold keeps_original, for_approved_command. intros Hr. rewrite !orb_false_iff. intros [[[H1 H2] H3] H4].
  rewrite H1, H2, Hr. destruct (try_materialize_project_roots_with_path_uris _ _) as [approved|] eqn:Hm; [|done].
  destruct (try_new_with_context approved ctx) as [m|] eqn:Ht; [|done]. rewrite H4.
  pose proof (metadata_grants_total m ctx root PROTECTED_METADATA_PATH_NAMES) as Hg. rewrite H3 in Hg.
  destruct (metadata_grants m ctx root _) as [grants|] eqn:Hgr; [|done].
  exists approved, m. apply orb_false_iff in H4 as [H5 H6]. apply negb_false_iff in H5.
  destruct (approved_base_entries p) as (Hbk & rest & Hbe & Hbr & _).
  pose proof Hm as Hm'. unfold try_materialize_project_roots_with_path_uris in Hm'.
  destruct (materialize_entries _ _) as [es|] eqn:He; [|done]. simplify_eq/=. split; try done.
  - rewrite Hbe in He. simpl in He. destruct (materialize_entries _ rest) as [es'|] eqn:He'; [|done]. simplify_eq/=.
    exists es'. split; [done|]. intros e Hin. destruct (materialize_entries_in _ _ _ _ He' Hin) as (x & Hx & Hx').
    apply Hbr, deny_entries_in in Hx as [_ Hd]. destruct (workspace_relative _) as [[s g]|]; [|by subst].
    destruct Hx' as (r & _ & Hat). by eapply materialize_at_access.
  - apply andb_false_iff in H2 as [Hw|Hw]; [left|by right]. by apply is_nil_false in Hw.
  - eauto.
Qed.

Lemma for_approved_command_cases p ctx :
  for_approved_command p ctx = p \/
  exists approved root m, approval p ctx approved (for_approved_command p ctx) root m.
Proof.
  destruct (file_system_root ctx) as [root|] eqn:Hr.
  - destruct (keeps_original p ctx root) eqn:Hk; [left; by eapply keeps_original_spec|].
    right. destruct (approves_otherwise p ctx root Hr Hk) as (approved & m & Hap). eauto.
  - left. unfold for_approved_command. rewrite Hr. by repeat case_match.
Qed.
End Approved.

Section Approved_access.
  Context {UO : UrlOps} {GS : GlobSet}.

Lemma root_in_context ctx root : file_system_root ctx = Some root ->
  uri_starts_with (cwd ctx) root = true /\ infer_path_convention root = infer_path_convention (cwd ctx) /\
  lexical_depth root <> None.
Proof.
  unfold file_system_root. destruct (lexical_depth (cwd ctx)) as [d|] eqn:D; [|done]. intros [= <-].
  destruct (ancestors_last_above _ _ D) as [Hs _]. split_and!; [done|symmetry; by apply sw_convention|].
  destruct (sw_depth _ _ _ Hs D) as (? & -> & _). done.
Qed.

Lemma root_write_resolved p ctx root : file_system_root ctx = Some root -> root_write ∈ entries p ->
  (root, WriteAccess) ∈ resolved_entries p ctx.
Proof.
  intros Hr He. apply resolved_entries_in. exists root_write. split_and!; [done..| |].
  - simpl. rewrite Hr. by apply list_elem_of_singleton.
  - by apply root_in_context in Hr as (_ & ? & _).
Qed.

Lemma metadata_grants_in m ctx root names grants e :
  metadata_grants m ctx root names = Some grants -> e ∈ grants ->
  exists name path, name ∈ names /\ uri_join_descendant root name = Ok path /\ e = new_entry (PathEntry path) WriteAccess.
Proof.
  revert grants. induction names as [|name names IH]; simpl; intros grants H He; [simplify_eq; set_solver|].
  destruct (uri_join_descendant root name) as [path|] eqn:E; [|done].
  destruct (metadata_grants m ctx root names) as [rest|]; [|done]. simplify_eq/=.
  apply elem_of_app in He as [He|He].
  - exists name, path. split_and!; [set_solver|done|]. case_match; [set_solver|]. by apply list_elem_of_singleton in He.
  - destruct (IH rest eq_refl He) as (n & q & Hn & H). exists n, q. split; [set_solver|done].
Qed.

Lemma metadata_names_plain : Forall plain_name PROTECTED_METADATA_PATH_NAMES.
Proof. repeat constructor; try discriminate; intros [=]. Qed.

(** A metadata directory is one segment below its root. *)
Lemma metadata_depth root name path d :
  lexical_depth root = Some d -> name ∈ PROTECTED_METADATA_PATH_NAMES -> uri_join_descendant root name = Ok path ->
  lexical_depth path = Some (S d) /\ uri_starts_with path root = true.
Proof.
  intros (h & c & ks & Hk & <-)%depth_key Hn Hj. pose proof metadata_names_plain as Hp. rewrite Forall_forall in Hp.
  pose proof (uri_join_descendant_key _ _ _ _ _ _ Hk (Hp _ Hn) Hj) as Hq. split.
  - rewrite key_depth, Hq. simpl. rewrite length_app. simpl. f_equal. lia.
  - eapply key_below; [done..|]. by apply prefix_app_r.
Qed.

Lemma resolve_granted_comparable p path ctx :
  fs_kind p = Restricted -> resolve_access p path ctx <> DenyAccess -> in_context ctx path = true /\ comparable p ctx.
Proof.
  unfold resolve_access. intros -> H. destruct (in_context ctx path); [|done]. simpl in H. split; [done|].
  destruct (with_depths (resolved_entries p ctx)) as [es|] eqn:E; [|done]. clear H. unfold comparable. revert es E.
  induction (resolved_entries p ctx) as [|[r a] l IH]; simpl; intros es E root access Hin; [set_solver|].
  apply elem_of_cons in Hin as [[= -> ->]|Hin].
  - destruct (lexical_depth r); [by left|]. right. by destruct (is_opaque r).
  - destruct (lexical_depth r); [|destruct (is_opaque r); [|done]].
    + destruct (with_depths l); [|done]. by eapply IH.
    + by eapply IH.
Qed.

Lemma context_denial p ctx d :
  fs_kind p = Restricted -> (d, DenyAccess) ∈ resolved_entries p ctx -> has_context_read_denials p ctx = true.
Proof.
  intros Hk (e & He & Ha & Hr & _)%resolved_entries_in. unfold has_context_read_denials. rewrite Hk. simpl.
  apply existsb_exists. exists e. split; [by apply list_elem_of_In|].
  rewrite Ha. simpl. destruct (entry_path e) as [| |[]]; try done. simpl in *. destruct (bool_decide _); [done|set_solver].
Qed.

Lemma prepare_denied_roots p ctx behavior prepared :
  prepare_deny_read_matcher p ctx behavior = Ok prepared -> denied_roots prepared = prepared_roots p ctx.
Proof.
  unfold prepare_deny_read_matcher. destruct (infer_path_convention _); [|by intros [= <-]].
  destruct (deny_read_globs p ctx); [|destruct behavior; by intros [= <-]].
  intros (? & _ & [= <-])%result_bind_ok. done.
Qed.

Lemma try_new_matcher p ctx m d :
  fs_kind p = Restricted -> try_new_with_context p ctx = Ok m -> (d, DenyAccess) ∈ resolved_entries p ctx ->
  exists prepared, m = Some prepared /\ denied_roots prepared = prepared_roots p ctx.
Proof.
  intros Hk Ht Hd. unfold try_new_with_context in Ht. rewrite (context_denial _ _ _ Hk Hd) in Ht. simpl in Ht.
  apply result_bind_ok in Ht as (? & _ & Ht). apply result_bind_ok in Ht as (prep & Hp & [= <-]).
  eauto using prepare_denied_roots.
Qed.

Section Result.
  Context (p : FileSystemSandboxPolicy) (ctx : PolicyContext) (approved result : FileSystemSandboxPolicy) (root : PathUri)
    (m : option PreparedReadDenyMatcher) (dr : nat).
  Context (Hap : approval p ctx approved result root m) (Hdr : lexical_depth root = Some dr).

Lemma approved_resolved r a : (r, a) ∈ resolved_entries approved ctx -> a = DenyAccess \/ (a = WriteAccess /\ r = root).
Proof.
  destruct (ap_entries _ _ _ _ _ _ Hap) as (rest & He & Hd). intros (e & Hin & <- & Hr & _)%resolved_entries_in.
  rewrite He in Hin. apply elem_of_cons in Hin as [->|Hin]; [right|left; by apply Hd].
  simpl in *. rewrite (ap_root _ _ _ _ _ _ Hap) in Hr. by apply list_elem_of_singleton in Hr.
Qed.

Lemma result_resolved r a : (r, a) ∈ resolved_entries result ctx ->
  (r, a) ∈ resolved_entries approved ctx \/
  (a = WriteAccess /\ lexical_depth r = Some (S dr) /\ uri_starts_with r root = true).
Proof.
  destruct (ap_result _ _ _ _ _ _ Hap) as (grants & Hg & ->). intros (e & Hin & <- & Hr & Hc)%resolved_entries_in.
  simpl in Hin. apply elem_of_app in Hin as [Hin|Hin]; [left; apply resolved_entries_in; by exists e|right].
  destruct (metadata_grants_in _ _ _ _ _ _ Hg Hin) as (name & path & Hn & Hj & ->). simpl in *.
  apply list_elem_of_singleton in Hr as ->. split; [done|]. by eapply metadata_depth.
Qed.

Lemma approved_in_result r a : (r, a) ∈ resolved_entries approved ctx -> (r, a) ∈ resolved_entries result ctx.
Proof.
  destruct (ap_result _ _ _ _ _ _ Hap) as (grants & Hg & ->). intros (e & Hin & H)%resolved_entries_in.
  apply resolved_entries_in. exists e. split; [simpl; set_solver|done].
Qed.

Lemma approved_granted : in_context ctx root = true /\ comparable approved ctx.
Proof.
  apply resolve_granted_comparable; [by destruct Hap|]. pose proof (ap_root_access _ _ _ _ _ _ Hap). by destruct (resolve_access _ _ _).
Qed.

Lemma result_comparable : fs_kind result = Restricted /\ comparable result ctx.
Proof.
  split; [destruct (ap_result _ _ _ _ _ _ Hap) as (grants & Hg & ->); simpl; by destruct Hap|].
  intros r a [Hin|(_ & -> & _)]%result_resolved; [by eapply approved_granted|by left].
Qed.

(** No denied root contains the root of the file system. *)
Lemma no_denial_above_root d : (d, DenyAccess) ∈ resolved_entries approved ctx -> uri_starts_with root d = false.
Proof.
  intros Hd. apply not_true_iff_false. intros Hs. destruct approved_granted as [Hin Hcmp].
  destruct (sw_depth _ _ _ Hs Hdr) as (dd & Ddd & _). pose proof (ap_root_access _ _ _ _ _ _ Hap) as Hw.
  destruct (resolve_access_spec approved root ctx) as [(r & depth & Hcov & Hmax)|[E _]]; [by destruct Hap|done..| |by rewrite E in Hw].
  assert (resolve_access approved root ctx = WriteAccess) as Ew by (by destruct (resolve_access approved root ctx)).
  rewrite Ew in *. pose proof Hcov as (Hr & Dr & _). apply approved_resolved in Hr as [?|[_ ->]]; [done|].
  rewrite Hdr in Dr. injection Dr as <-. destruct (Hmax d DenyAccess dd) as [Hlt|[_ Hle]]; [done| |simpl in Hle; lia].
  destruct (try_new_matcher approved ctx m d) as (prep & -> & Hroots); [by destruct Hap..|done|].
  pose proof (ap_root_read _ _ _ _ _ _ Hap) as Hread. simpl in Hread. unfold matches_prepared_read_deny in Hread.
  destruct (infer_path_convention (cwd ctx)); [|done]. rewrite !orb_false_iff in Hread. destruct Hread as [[_ Hread] _].
  rewrite <- not_true_iff_false in Hread. apply Hread, existsb_exists. exists d. split; [|done]. rewrite Hroots.
  apply list_elem_of_In, prepared_roots_in. split; [done|]. rewrite (ap_root _ _ _ _ _ _ Hap). simpl.
  unfold same_place. apply not_true_iff_false. rewrite andb_true_iff. intros [H1 _].
  destruct (sw_depth _ _ _ H1 Ddd) as (dr' & Hdr' & Hle). rewrite Hdr in Hdr'. simplify_eq. lia.
Qed.

Lemma result_access path :
  in_context ctx path = true -> uri_starts_with path root = true ->
  resolve_access result path ctx = WriteAccess /\ (forall d, (d, DenyAccess) ∈ resolved_entries result ctx -> uri_starts_with path d = false)
  \/ resolve_access result path ctx = DenyAccess /\ exists d, (d, DenyAccess) ∈ resolved_entries result ctx /\ uri_starts_with path d = true.
Proof.
  intros Hin Hpr. destruct result_comparable as [Hk Hcmp].
  assert (covers result ctx path root WriteAccess dr) as Hroot.
  { split_and!; [|done..]. apply approved_in_result, root_write_resolved; [by destruct Hap|].
    destruct (ap_entries _ _ _ _ _ _ Hap) as (rest & -> & _). set_solver. }
  assert (forall d, (d, DenyAccess) ∈ resolved_entries result ctx -> uri_starts_with path d = true ->
            exists dd, covers result ctx path d DenyAccess dd /\ S dr <= dd) as Hdeny.
  { intros d Hd Hs. assert (in_context ctx path = true) as Hin' by done. unfold in_context in Hin'. destruct (infer_path_convention (cwd ctx)); [|done].
    bool_to_prop. destruct (lexical_depth path) as [dp|] eqn:Dp; [|done]. destruct (sw_depth _ _ _ Hs Dp) as (dd & Dd & _).
    exists dd. split; [by split_and!|]. destruct (decide (dd <= dr)) as [Hle|]; [|lia]. exfalso.
    pose proof (sw_linear _ _ _ _ _ Hs Hpr Dd Hdr Hle) as H'. apply result_resolved in Hd as [Hd|[? _]]; [|done].
    by rewrite no_denial_above_root in H'. }
  destruct (resolve_access_spec result path ctx Hk Hin Hcmp) as [(r & depth & Hcov & Hmax)|[_ Hno]]; [|by destruct (Hno _ _ _ Hroot)].
  pose proof Hcov as (Hr & Dr & Hs). destruct (resolve_access result path ctx) eqn:Ea.
  - apply result_resolved in Hr as [[?|[? _]]%approved_resolved|[? _]]; done.
  - left. split; [done|]. intros d Hd. apply not_true_iff_false. intros Hs'.
    destruct (Hdeny _ Hd Hs') as (dd & Hcd & Hle). assert (depth <= S dr) as Hdepth.
    { apply result_resolved in Hr as [[?|[_ ->]]%approved_resolved|(_ & E & _)]; [done| |]; simplify_eq; lia. }
    destruct (Hmax _ _ _ Hcd) as [?|[_ ?]]; simpl in *; lia.
  - right. split; [done|]. eauto.
Qed.
End Result.


(** Denials given relative to the workspace name places inside it. *)
Definition scoped_denials (p : FileSystemSandboxPolicy) (ctx : PolicyContext) : Prop :=
  forall e, e ∈ deny_entries p ->
    match workspace_relative (entry_path e) with
    | None | Some (None, _) => True
    | Some (Some s, false) => forall root, root ∈ workspace_roots ctx -> resolve_scoped_workspace_path root s <> None
    | Some (Some _, true) => False
    end.

Lemma resolve_scoped_join root s path : resolve_scoped_workspace_path root s = Some path -> uri_join root s = Ok path.
Proof. unfold resolve_scoped_workspace_path. repeat case_match; naive_solver. Qed.

Lemma workspace_relative_same a b : same_path a b -> workspace_relative a = workspace_relative b.
Proof. destruct a, b; simpl; intros; simplify_eq; done. Qed.

Lemma workspace_relative_inv path sub is_glob : workspace_relative path = Some (sub, is_glob) ->
  if is_glob then sub <> None else path = Special (ProjectRoots sub).
Proof.
  unfold workspace_relative. destruct path as [|pat|[]]; try done.
  - destruct (strip_prefix _ pat); [|done]. by intros [= <- <-].
  - by intros [= <- <-].
Qed.

Lemma materialize_deny e subpath root : entry_access e = DenyAccess ->
  exists e', materialize_at e subpath false root = Some e' /\ entry_access e' = DenyAccess.
Proof. intros H. unfold materialize_at. simpl. rewrite H. simpl. case_match; eauto. Qed.

(** A denied place of a policy, after the workspace is expanded. *)
Lemma materialized_denied_root p ctx m r :
  try_materialize_project_roots_with_path_uris p (workspace_roots ctx) = Some m -> scoped_denials p ctx ->
  r ∈ prepared_roots p ctx -> r ∈ prepared_roots m ctx.
Proof.
  intros Hm Hsc [Hin Hfs]%prepared_roots_in. apply resolved_entries_in in Hin as (e & He & Ha & Hr & Hc).
  unfold try_materialize_project_roots_with_path_uris in Hm. destruct (materialize_entries _ _) as [es|] eqn:Hes; [|done].
  cbn [option_map] in Hm. injection Hm as <-. pose proof (materialize_entries_out _ _ _ _ Hes He) as Hout.
  assert (e ∈ deny_entries p) as Hde by (by apply deny_entries_in). specialize (Hsc e Hde).
  assert (exists x, x ∈ es /\ entry_access x = DenyAccess /\ r ∈ entry_roots ctx (entry_path x)) as (x & Hx & Hxa & Hxr).
  { destruct (workspace_relative (entry_path e)) as [[sub is_glob]|] eqn:Ew; [|by exists e].
    pose proof (workspace_relative_inv _ _ _ Ew) as Hrel. destruct is_glob; [by destruct sub|]. rewrite Hrel in Hr. simpl in Hr.
    apply list_elem_of_omap in Hr as (w & Hw & Hrw). destruct (materialize_deny e sub w Ha) as (x & Hx & Hxa).
    exists x. split_and!; [by eapply Hout|done|]. unfold materialize_at in Hx. simpl in Hx. destruct sub as [s|].
    - destruct (resolve_scoped_workspace_path w s) as [q|] eqn:Eq; [|by destruct (Hsc w Hw)].
      rewrite (resolve_scoped_join _ _ _ Eq) in Hrw. simpl in Hrw. simplify_eq. simpl. by apply list_elem_of_singleton.
    - simplify_eq. simpl. by apply list_elem_of_singleton. }
  apply prepared_roots_in. split; [|done]. apply resolved_entries_in. by exists x.
Qed.

(** A denial of a policy gives one of the policy with the workspace expanded. *)
Lemma materialized_denial p ctx m e :
  try_materialize_project_roots_with_path_uris p (workspace_roots ctx) = Some m -> scoped_denials p ctx ->
  workspace_roots ctx <> [] \/ existsb is_workspace_relative (entries p) = false -> e ∈ deny_entries p ->
  exists x, x ∈ deny_entries m /\ (workspace_relative (entry_path e) = None -> x = e).
Proof.
  intros Hm Hsc Hroots [He Hd]%deny_entries_in.
  unfold try_materialize_project_roots_with_path_uris in Hm. destruct (materialize_entries _ _) as [es|] eqn:Hes; [|done].
  cbn [option_map] in Hm. injection Hm as <-. pose proof (materialize_entries_out _ _ _ _ Hes He) as Hout.
  specialize (Hsc e (proj2 (deny_entries_in p e) (conj He Hd))).
  destruct (workspace_relative (entry_path e)) as [[sub is_glob]|] eqn:Ew; [|exists e; by rewrite deny_entries_in].
  destruct is_glob; [pose proof (workspace_relative_inv _ _ _ Ew); by destruct sub|].
  assert (exists w, w ∈ workspace_roots ctx) as [w Hw].
  { destruct Hroots as [Hne|Hno].
    - destruct (workspace_roots ctx) as [|w ?]; [done|]. exists w. set_solver.
    - rewrite <- not_true_iff_false in Hno. destruct Hno. apply existsb_exists. exists e.
      split; [by apply list_elem_of_In|]. unfold is_workspace_relative. by rewrite Ew. }
  destruct (materialize_deny e sub w Hd) as (x & Hx & Hxa). exists x. split; [|done]. apply deny_entries_in. split; [|done].
  by eapply Hout.
Qed.

Lemma materialized_keeps_denials p ctx m path :
  try_materialize_project_roots_with_path_uris p (workspace_roots ctx) = Some m -> scoped_denials p ctx ->
  workspace_roots ctx <> [] \/ existsb is_workspace_relative (entries p) = false ->
  is_read_denied p ctx path = true -> is_read_denied m ctx path = true.
Proof.
  intros Hm Hsc Hroots. apply read_denied_mono.
  - intros Hne. destruct (deny_entries p) as [|e l] eqn:E; [done|].
    destruct (materialized_denial _ _ _ e Hm Hsc Hroots) as (x & Hx & _); [rewrite E; set_solver|].
    by destruct (deny_entries m); [set_solver|].
  - intros r Hr. exists r. split; [by eapply materialized_denied_root|by left].
  - intros pat Hp. unfold deny_patterns in *. apply list_elem_of_omap in Hp as (e & He & Hpat).
    destruct (materialized_denial _ _ _ e Hm Hsc Hroots He) as (x & Hx & Hsame). apply list_elem_of_omap. exists x. split; [done|].
    specialize (Hsc e He). destruct (entry_path e) as [|pat'|] eqn:Ep; try done.
    destruct (workspace_relative (GlobPattern pat')) as [[sub g]|] eqn:Ew.
    + pose proof (workspace_relative_inv _ _ _ Ew) as Hinv. destruct g; [by destruct sub|done].
    + rewrite (Hsame eq_refl), Ep. done.
Qed.

Lemma approval_kept p ctx approved result root m : approval p ctx approved result root m -> denials_kept approved result.
Proof.
  intros Hap e He. exists e. split; [|apply entry_eqb_refl]. apply deny_entries_in in He as [He Hd]. apply deny_entries_in.
  destruct (ap_result _ _ _ _ _ _ Hap) as (grants & _ & ->). split; [simpl; set_solver|done].
Qed.

(** Replacing the grants by write access to the root keeps the denials. *)
Lemma approved_base_kept p : denials_kept p (approved_base p).
Proof.
  intros e He. destruct (approved_base_entries p) as (_ & rest & Hbe & Hsub & Hkeep). destruct (Hkeep e He) as (e' & He' & Heq).
  exists e'. split; [|done]. apply deny_entries_in. rewrite Hbe. split; [set_solver|]. by apply Hsub, deny_entries_in in He' as [_ ?].
Qed.

Lemma approved_base_scoped p ctx : scoped_denials p ctx -> scoped_denials (approved_base p) ctx.
Proof.
  intros Hsc e [He Hd]%deny_entries_in. destruct (approved_base_entries p) as (_ & rest & Hbe & Hsub & _). rewrite Hbe in He.
  apply elem_of_cons in He as [->|He]; [done|]. by apply Hsc, Hsub.
Qed.

(** An approved command may still not read what was denied: when denials
    relative to the workspace stay inside it, every path the read-deny matcher of
    the replaced policy denies is denied by that of the approved policy. *)
Theorem approved_command_keeps_denials p ctx path :
  scoped_denials p ctx -> is_read_denied p ctx path = true ->
  is_read_denied (for_approved_command p ctx) ctx path = true.
Proof.
  intros Hsc Hd. destruct (for_approved_command_cases p ctx) as [->|(approved & root & m & Hap)]; [done|].
  eapply more_denials_deny_more; [by eapply approval_kept|].
  eapply materialized_keeps_denials; [exact (ap_materialized _ _ _ _ _ _ Hap)|by apply approved_base_scoped|exact (ap_roots _ _ _ _ _ _ Hap)|].
  eapply more_denials_deny_more; [apply approved_base_kept|done].
Qed.

(** ** Required denials *)

(** Grants of a policy that validation can see: concrete paths and the root. *)
Definition concrete_grants (p : FileSystemSandboxPolicy) : Prop :=
  forall e, e ∈ entries p -> entry_access e <> DenyAccess ->
    match entry_path e with PathEntry _ | Special (RootPath | Minimal | UnknownPath _ _) | GlobPattern _ => True | Special _ => False end.

Lemma find_violation_none v ctx es e : find_violation v ctx es = None -> e ∈ es -> violating_path v ctx e = None.
Proof.
  induction es as [|x es IH]; simpl; [set_solver|]. destruct (violating_path v ctx x) eqn:E; [done|].
  intros H [->|He]%elem_of_cons; auto.
Qed.

Lemma validated_facts selected required ctx :
  validate_managed_deny_read selected required ctx = Ok tt ->
  denials_kept required selected /\
  (fs_kind required = Restricted -> forall d path e, d ∈ prepared_roots required ctx -> uri_starts_with path d = true ->
     e ∈ entries selected -> entry_path e = PathEntry path -> can_read (entry_access e) = true ->
     infer_path_convention path <> infer_path_convention (cwd ctx)).
Proof.
  unfold validate_managed_deny_read, validator_new, validate.
  destruct (if has_context_read_denials required ctx then _ else _) as [om|] eqn:Hm; [|done]. simpl.
  destruct (find_violation _ _ _) eqn:Hv; [done|]. destruct (existsb _ _) eqn:Hmiss; [done|]. intros _. split.
  - intros e He. apply deny_entries_in in He as [He Hd].
    destruct (contains_entry (entries selected) e) eqn:Hc.
    + apply existsb_exists in Hc as (e' & He' & Heq). exists e'. split; [|done]. apply deny_entries_in.
      split; [by apply list_elem_of_In|]. apply entry_eqb_spec in Heq as (-> & _). done.
    + rewrite <- not_true_iff_false, existsb_exists in Hmiss. destruct Hmiss. exists e.
      split; [by apply list_elem_of_In|by rewrite Hc].
  - intros Hk d path e Hd Hs He Hp Hr Hc. pose proof (find_violation_none _ _ _ _ Hv He) as Hno.
    unfold violating_path in Hno. rewrite Hr, Hp, bool_decide_true in Hno by done. simpl in Hno.
    pose proof Hd as [Hin _]%prepared_roots_in. rewrite (context_denial _ _ _ Hk Hin) in Hm.
    apply result_bind_ok in Hm as (prep & Hprep & [= <-]). simpl in Hno. apply prepare_denied_roots in Hprep as Hroots.
    destruct (matches_prepared_read_deny path ctx prep) eqn:E; [done|]. unfold matches_prepared_read_deny in E.
    destruct (infer_path_convention (cwd ctx)); [|done]. rewrite !orb_false_iff in E. destruct E as [[_ E] _].
    rewrite <- not_true_iff_false, existsb_exists in E. destruct E. exists d. rewrite Hroots. split; [by apply list_elem_of_In|done].
Qed.

(** A profile that passes validation enforces the required denials: on a POSIX
    executor, if its grants are concrete paths or the root, every path below a
    denied root of the requirements is denied by the profile, and everything the
    read-deny matcher of the requirements denies is denied by the profile's. *)
Theorem validated_profile_enforces_denials selected required ctx path :
  validate_managed_deny_read selected required ctx = Ok tt ->
  fs_kind selected = Restricted -> fs_kind required = Restricted ->
  infer_path_convention (cwd ctx) = Some PosixPaths -> comparable selected ctx -> concrete_grants selected ->
  in_context ctx path = true ->
  (forall d, d ∈ prepared_roots required ctx -> uri_starts_with path d = true -> resolve_access selected path ctx = DenyAccess) /\
  (is_read_denied required ctx path = true -> is_read_denied selected ctx path = true).
Proof.
  intros Hval Hks Hkr Hconv Hcmp Hgr Hin. destruct (validated_facts _ _ _ Hval) as [Hkept Hviol].
  split; [|by apply more_denials_deny_more]. intros d Hd Hs.
  destruct (prepared_roots_mono _ _ _ _ Hkept Hd) as (d' & Hd' & Hsame).
  pose proof (same_key_sw _ _ _ (same_key_sym _ _ Hsame) Hs) as Hs'.
  pose proof Hin as Hin'. unfold in_context in Hin'. rewrite Hconv in Hin'. bool_to_prop.
  destruct (lexical_depth path) as [dp|] eqn:Dp; [|done]. destruct (sw_depth _ _ _ Hs' Dp) as (dd & Ddd & _).
  assert (covers selected ctx path d' DenyAccess dd) as Hcov by (split_and!; [by apply prepared_roots_in in Hd' as [? _]|done..]).
  destruct (resolve_access_spec selected path ctx Hks Hin Hcmp) as [(r & depth & Hr & Hmax)|[E _]]; [|done].
  destruct (decide (resolve_access selected path ctx = DenyAccess)) as [|Hnd]; [done|]. exfalso.
  assert (dd < depth) as Hlt.
  { destruct (Hmax _ _ _ Hcov) as [|[_ Hle]]; [done|]. destruct (resolve_access selected path ctx); simpl in Hle; [lia|lia|done]. }
  pose proof Hr as (Hrin & Dr & Hsr). apply resolved_entries_in in Hrin as (e & He & Ha & Hre & Hrc).
  pose proof (sw_linear _ _ _ _ _ Hs' Hsr Ddd Dr ltac:(lia)) as Hrd.
  pose proof (same_key_sw _ _ _ Hsame Hrd) as Hrd'.
  specialize (Hgr e He ltac:(congruence)). destruct (entry_path e) as [q| |[]] eqn:Ep; simpl in Hre; try done; try (by apply not_elem_of_nil in Hre).
  - apply list_elem_of_singleton in Hre as ->. eapply (Hviol Hkr d q e); try done. rewrite Ha. by destruct (resolve_access _ _ _).
  - unfold file_system_root in Hre. destruct (lexical_depth (cwd ctx)) as [dc|] eqn:Dc; [|by apply not_elem_of_nil in Hre].
    apply list_elem_of_singleton in Hre as ->. destruct (ancestors_last_above _ _ Dc) as [Hcr Hnp].
    assert (uri_key (ancestors_last (cwd ctx)) = Some (None, PosixPaths, [])) as Hkey
      by (apply posix_root_key; [congruence|congruence|done]).
    rewrite key_depth, Hkey in Dr. simpl in Dr. simplify_eq. lia.
Qed.
End Approved_access.

(** ** Examples *)

(** A policy that denies the root is kept. *)
Definition closed_policy : FileSystemSandboxPolicy := restricted [new_entry (Special RootPath) DenyAccess].


Definition workspace_policy : FileSystemSandboxPolicy :=
  restricted [new_entry (Special RootPath) ReadAccess; new_entry (Special (ProjectRoots (Some (lit "secret")))) DenyAccess].

Lemma approved_command_keeps_denials_witness :
  for_approved_command workspace_policy demo_context <> workspace_policy /\
  is_read_denied (for_approved_command workspace_policy demo_context) demo_context (under [lit "secret"; lit "x"]) = true.
Proof.
  split; [vm_compute; discriminate|].
  apply (approved_command_keeps_denials workspace_policy demo_context); [|reflexivity].
  intros e He. apply list_elem_of_In in He. destruct He as [<-|[]]. intros root Hr. apply list_elem_of_In in Hr.
  destruct Hr as [<-|[]]. vm_compute. discriminate.
Defined.

(** A denial that leaves the workspace is replaced by one of the workspace
    itself: the path it named becomes readable to the approved command. *)
Definition escaping_policy : FileSystemSandboxPolicy :=
  restricted [new_entry (Special RootPath) ReadAccess; new_entry (Special (ProjectRoots (Some (lit "../secret")))) DenyAccess].

Theorem approved_command_loses_escaping_denial :
  is_read_denied escaping_policy demo_context (posix_uri [lit "secret"]) = true /\
  resolve_access escaping_policy (posix_uri [lit "secret"]) demo_context = DenyAccess /\
  is_read_denied (for_approved_command escaping_policy demo_context) demo_context (posix_uri [lit "secret"]) = false /\
  resolve_access (for_approved_command escaping_policy demo_context) (posix_uri [lit "secret"]) demo_context = WriteAccess.
Proof. by vm_compute. Qed.

Definition required_policy : FileSystemSandboxPolicy := restricted [new_entry (PathEntry (under [lit "secret"])) DenyAccess].
Definition selected_policy : FileSystemSandboxPolicy :=
  restricted [new_entry (Special RootPath) ReadAccess; new_entry (PathEntry here) WriteAccess;
              new_entry (PathEntry (under [lit "secret"])) DenyAccess].

Lemma validated_profile_enforces_denials_witness :
  validate_managed_deny_read (restricted [new_entry (PathEntry (under [lit "secret"; lit "x"])) ReadAccess]) required_policy demo_context
    = Err Shadowed /\
  (forall d, d ∈ prepared_roots required_policy demo_context -> uri_starts_with (under [lit "secret"; lit "k"]) d = true ->
     resolve_access selected_policy (under [lit "secret"; lit "k"]) demo_context = DenyAccess) /\
  (is_read_denied required_policy demo_context (under [lit "secret"; lit "k"]) = true ->
   is_read_denied selected_policy demo_context (under [lit "secret"; lit "k"]) = true).
Proof.
  split; [reflexivity|].
  apply (validated_profile_enforces_denials selected_policy required_policy demo_context); try reflexivity.
  - apply comparable_dec. reflexivity.
  - intros e He. apply list_elem_of_In in He. destruct He as [<-|[<-|[<-|[]]]]; intros H; exact I.
Defined.
