(* ===== verification/ExecApproval.v ===== *)
(** * Whether a command runs, is asked about or is forbidden

    Models [codex-rs/core/src/exec_policy.rs] with its modules
    [exec_policy/executable_identity.rs] and [exec_policy/model_policy.rs]: a shell
    command is split into commands ([BashScript.v], [PowerShell.v]), these are
    evaluated against the rules ([ExecPolicy.v]) with a fallback built on the
    dangerous-command check ([DangerousCommand.v]), and the result is a requirement:
    skip the approval, ask for it, or refuse.  The rules can be amended while the
    program runs.

    [windows] stands for [cfg!(windows)].  [None] is the panic of an evaluation
    without commands. *)

From stdpp Require Import base list numbers option strings gmap sorting.
From Stdlib Require Import Lia.
From S2P Require Import Prelude RustStr UriPath Permissions ExecRule ExecPolicy ExecAmend SyntaxTree ShellDetect BashScript PowerShell DangerousCommand.

(** ** Settings *)

Record GranularApprovalConfig := mkGranular {
  sandbox_approval : bool;
  rules : bool;
  skill_approval : bool;
  request_permissions : bool;
  mcp_elicitations : bool }.

Inductive AskForApproval := UnlessTrusted | OnRequest | Granular (config : GranularApprovalConfig) | Never.

Inductive SandboxPermissions := UseDefault | RequireEscalated | WithAdditionalPermissions.
Definition requests_sandbox_override (s : SandboxPermissions) : bool :=
  match s with UseDefault => false | _ => true end.

Inductive WindowsSandboxLevel := LevelDisabled | RestrictedToken | Elevated.

Inductive ExecPolicyCommandOrigin := Generic | FromPowerShell.

Record UnmatchedCommandContext := mkContext {
  c_approval_policy : AskForApproval;
  c_permission_profile : PermissionProfile;
  c_windows_sandbox_level : WindowsSandboxLevel;
  c_sandbox_permissions : SandboxPermissions;
  c_command_origin : ExecPolicyCommandOrigin }.

Record ExecPolicyCommands := mkCommands { commands : list (list str); command_origin : ExecPolicyCommandOrigin }.

(** An amendment is the command prefix it allows. *)
Notation ExecPolicyAmendment := (list str) (only parsing).

Inductive ExecApprovalRequirement :=
| Skip (bypass_sandbox : bool) (proposed_execpolicy_amendment : option ExecPolicyAmendment)
| NeedsApproval (reason : option str) (proposed_execpolicy_amendment : option ExecPolicyAmendment)
| ForbiddenReq (reason : str).

Inductive AllowPrefixRules := Honor | IgnoreForCyberModel.

Definition PROMPT_CONFLICT_REASON : str := lit "approval required by policy, but AskForApproval is set to Never".
Definition REJECT_SANDBOX_APPROVAL_REASON : str :=
  lit "approval required by policy, but AskForApproval::Granular.sandbox_approval is false".
Definition REJECT_RULES_APPROVAL_REASON : str :=
  lit "approval required by policy rule, but AskForApproval::Granular.rules is false".

Definition BANNED_PREFIX_SUGGESTIONS : list (list str) :=
  [[lit "/bin/bash"]; [lit "/bin/bash"; lit "-c"]; [lit "/bin/bash"; lit "-lc"]; [lit "/bin/sh"];
   [lit "/bin/sh"; lit "-c"]; [lit "/bin/sh"; lit "-lc"]; [lit "/bin/zsh"]; [lit "/bin/zsh"; lit "-c"];
   [lit "/bin/zsh"; lit "-lc"]; [lit "Rscript"]; [lit "bash"]; [lit "bash"; lit "-c"]; [lit "bash"; lit "-lc"];
   [lit "bun"]; [lit "bun"; lit "-e"]; [lit "bun"; lit "run"]; [lit "cmd"]; [lit "cmd"; lit "/c"];
   [lit "cmd"; lit "/k"]; [lit "cmd.exe"]; [lit "cmd.exe"; lit "/c"]; [lit "cmd.exe"; lit "/k"]; [lit "dash"];
   [lit "dash"; lit "-c"]; [lit "deno"]; [lit "deno"; lit "eval"]; [lit "env"]; [lit "fish"];
   [lit "fish"; lit "-c"]; [lit "git"]; [lit "julia"]; [lit "julia"; lit "-e"]; [lit "ksh"];
   [lit "ksh"; lit "-c"]; [lit "lua"]; [lit "lua"; lit "-e"]; [lit "node"]; [lit "node"; lit "-e"];
   [lit "nodejs"]; [lit "nodejs"; lit "-e"]; [lit "npm"; lit "run"]; [lit "osascript"]; [lit "perl"];
   [lit "perl"; lit "-e"]; [lit "php"]; [lit "php"; lit "-r"]; [lit "pnpm"; lit "run"]; [lit "powershell"];
   [lit "powershell"; lit "-Command"]; [lit "powershell"; lit "-EncodedCommand"]; [lit "powershell"; lit "-File"];
   [lit "powershell"; lit "-c"]; [lit "powershell.exe"]; [lit "powershell.exe"; lit "-Command"];
   [lit "powershell.exe"; lit "-EncodedCommand"]; [lit "powershell.exe"; lit "-File"];
   [lit "powershell.exe"; lit "-c"]; [lit "pwsh"]; [lit "pwsh"; lit "-Command"];
   [lit "pwsh"; lit "-EncodedCommand"]; [lit "pwsh"; lit "-File"]; [lit "pwsh"; lit "-c"]; [lit "pwsh"; lit "-e"];
   [lit "pwsh"; lit "-ec"]; [lit "pwsh"; lit "-f"]; [lit "py"]; [lit "py"; lit "-3"]; [lit "pypy"]; [lit "pypy3"];
   [lit "python"]; [lit "python"; lit "-"]; [lit "python"; lit "-c"]; [lit "python3"]; [lit "python3"; lit "-"];
   [lit "python3"; lit "-c"]; [lit "pythonw"]; [lit "pyw"]; [lit "rm"]; [lit "ruby"]; [lit "ruby"; lit "-e"];
   [lit "sh"]; [lit "sh"; lit "-c"]; [lit "sh"; lit "-lc"]; [lit "sudo"]; [lit "yarn"; lit "run"]; [lit "zsh"];
   [lit "zsh"; lit "-c"]; [lit "zsh"; lit "-lc"]].

Definition prompt_is_rejected_by_policy (approval_policy : AskForApproval) (prompt_is_rule : bool) : option str :=
  match approval_policy with
  | Never => Some PROMPT_CONFLICT_REASON
  | OnRequest => None
  | UnlessTrusted => None
  | Granular granular_config =>
      if prompt_is_rule then
        if negb (rules granular_config) then Some REJECT_RULES_APPROVAL_REASON else None
      else if negb (sandbox_approval granular_config) then Some REJECT_SANDBOX_APPROVAL_REASON else None
  end.

Definition dangerous_command_rejection_reason (m : DangerousCommandMatch) : str :=
  match m with
  | ForcedRm => lit "rm -f style commands are not permitted. Use a safer approach"
  | OtherDanger => lit "blocked by policy"
  end.

Definition derive_rejected_prompt_reason (fallback_reason : str) (m : option DangerousCommandMatch) : str :=
  match m with
  | Some ForcedRm => dangerous_command_rejection_reason ForcedRm
  | Some OtherDanger | None => fallback_reason
  end.

(** [Iterator::max_by_key]: the last of the greatest. *)
Definition max_by_key {A} (key : A -> nat) (l : list A) : option A :=
  fold_left (fun best x => match best with
                           | Some b => if (key b <=? key x)%nat then Some x else Some b
                           | None => Some x
                           end) l None.

Definition BACKQUOTE : str := [96%N].

(** ** Matches *)

Section Matches.
Context {P : Type}.

Definition is_policy_match (m : RuleMatch P) : bool :=
  match m with PrefixRuleMatch _ _ _ _ => true | HeuristicsRuleMatch _ _ => false end.

Definition is_rule_with (d : Decision) (m : RuleMatch P) : bool :=
  is_policy_match m && bool_decide (match_decision m = d).

(** The first heuristic match with the decision: its command. *)
Definition heuristic_command (d : Decision) (m : RuleMatch P) : option (list str) :=
  match m with
  | HeuristicsRuleMatch command d' => if bool_decide (d' = d) then Some command else None
  | _ => None
  end.

Definition try_derive_execpolicy_amendment_for_prompt_rules (matched : list (RuleMatch P)) : option ExecPolicyAmendment :=
  if existsb (is_rule_with Prompt) matched then None else find_map (heuristic_command Prompt) matched.

Definition try_derive_execpolicy_amendment_for_allow_rules (matched : list (RuleMatch P)) : option ExecPolicyAmendment :=
  if existsb is_policy_match matched then None else find_map (heuristic_command Allow) matched.

(** Prefix matches with a decision: the prefix and the justification. *)
Definition prefix_match (d : Decision) (m : RuleMatch P) : option (list str * option str) :=
  match m with
  | PrefixRuleMatch matched_prefix d' _ justification =>
      if bool_decide (d' = d) then Some (matched_prefix, justification) else None
  | _ => None
  end.

Definition most_specific (d : Decision) (matched : list (RuleMatch P)) : option (list str * option str) :=
  max_by_key (fun e => length (fst e)) (omap (prefix_match d) matched).

Section Reasons.
Context (shlex_try_join : list str -> option str).

Definition render_shlex_command (args : list str) : str :=
  match shlex_try_join args with Some s => s | None => join (lit " ") args end.

Definition quoted_command (args : list str) : str := BACKQUOTE ++ render_shlex_command args ++ BACKQUOTE.

Definition derive_prompt_reason (command_args : list str) (e : Evaluation P) : option str :=
  match most_specific Prompt (matched_rules e) with
  | Some (_, Some justification) => Some (quoted_command command_args ++ lit " requires approval: " ++ justification)
  | Some (_, None) => Some (quoted_command command_args ++ lit " requires approval by policy")
  | None => None
  end.

Definition derive_forbidden_reason (command_args : list str) (e : Evaluation P) (m : option DangerousCommandMatch) : str :=
  match most_specific Forbidden (matched_rules e) with
  | Some (_, Some justification) => quoted_command command_args ++ lit " rejected: " ++ justification
  | Some (matched_prefix, None) =>
      quoted_command command_args ++ lit " rejected: policy forbids commands starting with " ++ quoted_command matched_prefix
  | None =>
      match m with
      | Some m => quoted_command command_args ++ lit " rejected: " ++ dangerous_command_rejection_reason m
      | None => quoted_command command_args ++ lit " rejected: blocked by policy"
      end
  end.
End Reasons.
End Matches.

(** ** The requirement for a command *)

(** [Path::join] of a relative path. *)
Definition path_join (dir file : str) : str :=
  if is_nil dir || ends_with (lit "/") dir then dir ++ file else dir ++ lit "/" ++ file.

Definition default_policy_path (codex_home : str) : str := path_join (path_join codex_home (lit "rules")) (lit "default.rules").

Definition native_convention (windows : bool) : PathConvention := if windows then WindowsPaths else PosixPaths.

Definition profile_has_managed_filesystem_restrictions (native : PathConvention) (p : PermissionProfile) : bool :=
  let fs := file_system_sandbox_policy p in
  match p with Managed _ _ => true | _ => false end
  && is_restricted (fs_kind fs)
  && negb (has_full_disk_write_access_for_convention fs (Some native)).

Section Approval.
Context {M P : Type} `{MultiMap M, AbsolutePathOps P}.
Context (windows : bool).
(** Grammars and libraries. *)
Context (try_parse_shell parse_powershell : str -> option Tree) (shlex_split : str -> option (list str)).
Context (re_capture url_scheme : str -> option str) (shlex_try_join : list str -> option str).

Notation Policy := (Policy M P).

Definition dangerous_command_match_for_origin (command : list str) (origin : ExecPolicyCommandOrigin)
    (platform : DangerousCommandPlatform) : option DangerousCommandMatch :=
  match origin with
  | Generic => dangerous_command_match_for_platform try_parse_shell shlex_split re_capture url_scheme command platform
  | FromPowerShell => dangerous_powershell_words_match re_capture url_scheme command platform
  end.

Definition dangerous_command_match_for_heuristics (e : Evaluation P) (d : Decision) (origin : ExecPolicyCommandOrigin)
    (platform : DangerousCommandPlatform) : option DangerousCommandMatch :=
  find_map (fun m => match heuristic_command d m with
                     | Some command => dangerous_command_match_for_origin command origin platform
                     | None => None
                     end) (matched_rules e).

Definition render_decision_for_unmatched_command_for_platform (context : UnmatchedCommandContext)
    (platform : DangerousCommandPlatform) (command : list str) : Decision :=
  let dangerous := dangerous_command_match_for_origin command (c_command_origin context) platform in
  let fs := file_system_sandbox_policy (c_permission_profile context) in
  let without_sandbox_backend :=
    windows && match c_windows_sandbox_level context with LevelDisabled => true | _ => false end
    && profile_has_managed_filesystem_restrictions (native_convention windows) (c_permission_profile context) in
  if is_some dangerous || without_sandbox_backend then
    match c_approval_policy context with
    | Never => Forbidden
    | OnRequest | UnlessTrusted | Granular _ => Prompt
    end
  else
    match c_approval_policy context with
    | Never => Allow
    | UnlessTrusted => Prompt
    | OnRequest | Granular _ =>
        match fs_kind fs with
        | Unrestricted | ExternalSandbox => Allow
        | Restricted => if requests_sandbox_override (c_sandbox_permissions context) then Prompt else Allow
        end
    end.

Definition commands_for_exec_policy_for_platform (command : list str) (platform : DangerousCommandPlatform)
  : ExecPolicyCommands :=
  match parse_shell_lc_plain_commands try_parse_shell command with
  | Some (c :: cs) => mkCommands (c :: cs) Generic
  | _ =>
      match (if bool_decide (platform = Windows)
             then parse_powershell_command_into_plain_commands parse_powershell command else None) with
      | Some (c :: cs) => mkCommands (c :: cs) FromPowerShell
      | _ => mkCommands [command] Generic
      end
  end.

(** ** model_policy.rs *)

Definition is_allow_prefix (r : PrefixRule) : bool := bool_decide (rule_decision r = Allow).

Definition current_for_prefix_rules (policy : Policy) (allow : AllowPrefixRules) : Policy :=
  match allow with
  | Honor => policy
  | IgnoreForCyberModel =>
      let kept := List.map (fun e => (fst e, List.filter (fun r => negb (is_allow_prefix r)) (snd e)))
                    (mm_iter_all (rules_by_program policy)) in
      from_parts (insert_entries mm_new kept) (network_rules policy) (host_executables_by_name policy)
  end.

Definition current_for_environment (policy : Policy) (environment_policy : option Policy) (allow : AllowPrefixRules)
  : Policy :=
  let policy := current_for_prefix_rules policy allow in
  match environment_policy with
  | Some environment_policy => merge_overlay policy environment_policy
  | None => policy
  end.

(** ** Amendments *)

Definition prefix_rule_would_approve_all_commands (exec_policy : Policy) (prefix_rule : list str)
    (commands : list (list str)) (fallback : list str -> Decision) (options : MatchOptions) : bool :=
  match add_prefix_rule exec_policy prefix_rule Allow with
  | Err _ => false
  | Ok policy_with_prefix_rule =>
      forallb (fun command =>
        match check_with_options windows policy_with_prefix_rule command fallback options with
        | Some e => bool_decide (decision e = Allow)
        | None => false
        end) commands
  end.

Definition derive_requested_execpolicy_amendment_from_prefix_rule (prefix_rule : option (list str))
    (matched : list (RuleMatch P)) (exec_policy : Policy) (commands : list (list str))
    (fallback : list str -> Decision) (options : MatchOptions) : option ExecPolicyAmendment :=
  match prefix_rule with
  | None => None
  | Some prefix_rule =>
      if is_nil prefix_rule then None
      else if existsb (fun banned => bool_decide (prefix_rule = banned)) BANNED_PREFIX_SUGGESTIONS then None
      else if existsb is_policy_match matched then None
      else if prefix_rule_would_approve_all_commands exec_policy prefix_rule commands fallback options
      then Some prefix_rule else None
  end.

Record ExecApprovalRequest := mkRequest {
  command : list str;
  approval_policy : AskForApproval;
  permission_profile : PermissionProfile;
  environment_policy : option Policy;
  windows_sandbox_level : WindowsSandboxLevel;
  sandbox_permissions : SandboxPermissions;
  prefix_rule : option (list str);
  allow_prefix_rules : AllowPrefixRules }.

Definition match_options : MatchOptions := mkOptions true.

(** The fallback built for a request. *)
Definition exec_policy_fallback (req : ExecApprovalRequest) (origin : ExecPolicyCommandOrigin)
    (platform : DangerousCommandPlatform) : list str -> Decision :=
  render_decision_for_unmatched_command_for_platform
    (mkContext (approval_policy req) (permission_profile req) (windows_sandbox_level req)
       (sandbox_permissions req) origin) platform.

Definition create_exec_approval_requirement_for_parsed_commands (manager : Policy) (req : ExecApprovalRequest)
    (parsed : ExecPolicyCommands) (platform : DangerousCommandPlatform) : option ExecApprovalRequirement :=
  let exec_policy := current_for_environment manager (environment_policy req) (allow_prefix_rules req) in
  let auto_amendment_allowed := match allow_prefix_rules req with Honor => true | IgnoreForCyberModel => false end in
  let origin := command_origin parsed in
  let fallback := exec_policy_fallback req origin platform in
  match check_multiple_with_options windows exec_policy (commands parsed) fallback match_options with
  | None => None
  | Some evaluation =>
      let requested_amendment :=
        if (auto_amendment_allowed : bool) then
          derive_requested_execpolicy_amendment_from_prefix_rule (prefix_rule req) (matched_rules evaluation) exec_policy
            (commands parsed) fallback match_options
        else None in
      let danger d := dangerous_command_match_for_heuristics evaluation d origin platform in
      Some
        match decision evaluation with
        | Forbidden =>
            ForbiddenReq (derive_forbidden_reason shlex_try_join (command req) evaluation (danger Forbidden))
        | Prompt =>
            let prompt_is_rule := existsb (is_rule_with Prompt) (matched_rules evaluation) in
            match prompt_is_rejected_by_policy (approval_policy req) prompt_is_rule with
            | Some reason =>
                if prompt_is_rule then ForbiddenReq reason
                else ForbiddenReq (derive_rejected_prompt_reason reason (danger Prompt))
            | None =>
                NeedsApproval (derive_prompt_reason shlex_try_join (command req) evaluation)
                  (match requested_amendment with
                   | Some a => Some a
                   | None => if (auto_amendment_allowed : bool)
                             then try_derive_execpolicy_amendment_for_prompt_rules (matched_rules evaluation) else None
                   end)
            end
        | Allow =>
            Skip
              (forallb (fun c => existsb (is_rule_with Allow)
                 (matches_for_command_with_options windows exec_policy c None match_options)) (commands parsed))
              (if (auto_amendment_allowed : bool)
               then try_derive_execpolicy_amendment_for_allow_rules (matched_rules evaluation) else None)
        end
  end.

Definition create_exec_approval_requirement_for_command_platform (manager : Policy) (req : ExecApprovalRequest)
    (platform : DangerousCommandPlatform) : option ExecApprovalRequirement :=
  create_exec_approval_requirement_for_parsed_commands manager req
    (commands_for_exec_policy_for_platform (command req) platform) platform.

(** ** executable_identity.rs *)

(** Only the forking mode trusts any shell. *)
Inductive UnifiedExecShellMode := Direct | ZshFork.

(** Off Windows: the command when its shell is the configured one or in a system
    directory, else the executable alone. *)
Definition shell_approval_command (cmd : list str) (configured_shell : str) (mode : UnifiedExecShellMode) : list str :=
  match cmd with
  | [] => cmd
  | executable :: _ =>
      let parent := parent_components executable in
      let is_system_shell :=
        bool_decide (parent = Some (components (lit "/bin"))) || bool_decide (parent = Some (components (lit "/usr/bin"))) in
      let is_configured_shell := path_eqb executable configured_shell in
      if is_configured_shell || is_system_shell || match mode with ZshFork => true | Direct => false end
      then cmd else [executable]
  end.

Definition with_command (req : ExecApprovalRequest) (cmd : list str) : ExecApprovalRequest :=
  mkRequest cmd (approval_policy req) (permission_profile req) (environment_policy req) (windows_sandbox_level req)
    (sandbox_permissions req) (prefix_rule req) (allow_prefix_rules req).

Definition create_exec_approval_requirement_for_shell (manager : Policy) (req : ExecApprovalRequest)
    (configured_shell : str) (mode : UnifiedExecShellMode) (platform : DangerousCommandPlatform)
  : option ExecApprovalRequirement :=
  let cmd := command req in
  let executable := shell_approval_command cmd configured_shell mode in
  if Nat.eqb (length executable) (length cmd)
  then create_exec_approval_requirement_for_command_platform manager req platform
  else
    let policy_commands :=
      if bool_decide (platform = Windows) then
        match extract_powershell_command cmd with
        | Some (_, script) =>
            mkCommands (match parse_powershell_script_into_plain_commands parse_powershell script with
                        | Some cs => cs | None => [cmd] end) FromPowerShell
        | None => commands_for_exec_policy_for_platform cmd platform
        end
      else commands_for_exec_policy_for_platform cmd platform in
    create_exec_approval_requirement_for_parsed_commands manager (with_command req executable)
      (mkCommands (executable :: commands policy_commands) (command_origin policy_commands)) platform.

End Approval.

(** ** Updating the rules *)

Inductive ExecPolicyUpdateError (J : Type) :=
| AppendRule (path : str) (source : AmendError J)
| JoinBlockingTask
| AddRule (source : Error).
Arguments AppendRule {J} _ _.
Arguments JoinBlockingTask {J}.
Arguments AddRule {J} _.

(** The rules in memory and the text of [default.rules]. *)
Record ManagerState (M P : Type) := mkManager { policy : Policy M P; rules_file : option str }.
Arguments mkManager {M P} _ _.
Arguments policy {M P} _.
Arguments rules_file {M P} _.

(** What goes wrong in one update: system calls of the append, or the blocking task
    (which may have run before it was lost). *)
Record UpdateFaults := mkUpdateFaults { u_io : AppendFaults; u_lost_task : option bool }.

Section Update.
Context {M P : Type} `{MultiMap M, AbsolutePathOps P}.
Context (windows : bool).
Context {J : Type} (to_json : str -> result str J) (show_error : Error -> str) (parent : str -> option str).

(** [spawn_blocking(append).await], with the two [map_err]. *)
Definition run_append (faults : UpdateFaults) (path : str)
    (append : option str -> option str * result unit (AmendError J)) (file : option str)
  : option str * result unit (ExecPolicyUpdateError J) :=
  let '(file', r) := append file in
  match u_lost_task faults with
  | Some ran => (if (ran : bool) then file' else file, Err JoinBlockingTask)
  | None => (file', map_err (AppendRule path) r)
  end.

(** A rule allows the prefix already. *)
Definition already_allowed (p : Policy M P) (amendment : list str) : bool :=
  match check_multiple_with_options windows p [amendment] (fun _ => Forbidden) match_options with
  | Some e => bool_decide (decision e = Allow) && existsb (is_rule_with Allow) (matched_rules e)
  | None => false
  end.

(** The rules after the file has been amended. *)
Definition amended_policy (p : Policy M P) (amendment : list str) : result (Policy M P) Error :=
  if already_allowed p amendment then Ok p else add_prefix_rule p amendment Allow.

Definition append_amendment_and_update (faults : UpdateFaults) (codex_home : str) (amendment : list str)
    (s : ManagerState M P) : ManagerState M P * result unit (ExecPolicyUpdateError J) :=
  let path := default_policy_path codex_home in
  let '(file, r) := run_append faults path (blocking_append_allow_prefix_rule to_json parent (u_io faults) path amendment)
                      (rules_file s) in
  match r with
  | Err e => (mkManager (policy s) file, Err e)
  | Ok _ =>
      match amended_policy (policy s) amendment with
      | Err e => (mkManager (policy s) file, Err (AddRule e))
      | Ok p => (mkManager p file, Ok tt)
      end
  end.

Definition append_network_rule_and_update (faults : UpdateFaults) (codex_home h : str) (proto : NetworkRuleProtocol)
    (d : Decision) (justification : option str) (s : ManagerState M P)
  : ManagerState M P * result unit (ExecPolicyUpdateError J) :=
  let path := default_policy_path codex_home in
  let '(file, r) := run_append faults path
                      (blocking_append_network_rule to_json show_error parent (u_io faults) path h proto d justification)
                      (rules_file s) in
  match r with
  | Err e => (mkManager (policy s) file, Err e)
  | Ok _ =>
      match add_network_rule (policy s) h proto d justification with
      | Err e => (mkManager (policy s) file, Err (AddRule e))
      | Ok p => (mkManager p file, Ok tt)
      end
  end.
End Update.

(** ** What the evaluation says *)

Section Theorems.
Context {M P : Type} `{LawfulMultiMap M, AbsolutePathOps P}.
Context (windows : bool).
Context (try_parse_shell parse_powershell : str -> option Tree) (shlex_split : str -> option (list str)).
Context (re_capture url_scheme : str -> option str) (shlex_try_join : list str -> option str).

Notation Policy := (Policy M P).
Notation rule_matches_of p c := (matches_for_command_with_options windows p c None match_options).
Notation approve_parsed :=
  (create_exec_approval_requirement_for_parsed_commands windows try_parse_shell shlex_split re_capture url_scheme shlex_try_join).
Notation approve :=
  (create_exec_approval_requirement_for_command_platform windows try_parse_shell parse_powershell shlex_split re_capture
     url_scheme shlex_try_join).
Notation parsed_commands := (commands_for_exec_policy_for_platform try_parse_shell parse_powershell).
Notation danger := (dangerous_command_match_for_origin try_parse_shell shlex_split re_capture url_scheme).
Notation fallback := (exec_policy_fallback windows try_parse_shell shlex_split re_capture url_scheme).
Notation effective req manager := (current_for_environment manager (environment_policy req) (allow_prefix_rules req)).

(** The fallback is used exactly when no rule matches. *)
Lemma matches_with_fallback (p : Policy) c fb :
  matches_for_command_with_options windows p c (Some fb) match_options =
    match rule_matches_of p c with [] => [HeuristicsRuleMatch c (fb c)] | ms => ms end.
Proof.
  unfold matches_for_command_with_options. cbv zeta.
  by destruct (match non_empty (match_exact_rules p c) with Some m => m | None => _ end).
Qed.

Lemma rule_match_is_policy r c (m : RuleMatch P) : rule_matches r c = Some m -> is_policy_match m = true.
Proof. unfold rule_matches. destruct (matches_prefix _ _); [|done]. by intros [= <-]. Qed.

Lemma rule_matches_policy (p : Policy) c m : m ∈ rule_matches_of p c -> is_policy_match m = true.
Proof.
  unfold matches_for_command_with_options. cbv zeta. intros Hm.
  assert (m ∈ match non_empty (match_exact_rules p c) with
              | Some ms => ms | None => default [] (non_empty (Some (match_host_executable_rules windows p c))) end) as Hm'.
  { by destruct (match non_empty (match_exact_rules p c) with Some ms => ms | None => _ end). }
  clear Hm. destruct (non_empty (match_exact_rules p c)) as [ms|] eqn:E.
  - unfold match_exact_rules in E. destruct c as [|c0 args]; [done|].
    assert (m ∈ match mm_get_vec (rules_by_program p) c0 with Some rs => matches_of (P:=P) rs (c0 :: args) | None => [] end) as Hin.
    { simpl in E. destruct (match mm_get_vec _ _ with Some _ => _ | None => _ end); [done|]. by injection E as <-. }
    destruct (mm_get_vec _ c0); [|set_solver]. apply list_elem_of_omap in Hin as (r & _ & Hr). by eapply rule_match_is_policy.
  - assert (m ∈ match_host_executable_rules windows p c) as Hin by (by destruct (match_host_executable_rules windows p c)).
    unfold match_host_executable_rules in Hin. repeat case_match; try set_solver.
    apply list_elem_of_fmap in Hin as (m0 & -> & Hm0). apply list_elem_of_omap in Hm0 as (r & _ & Hr).
    apply rule_match_is_policy in Hr. by destruct m0.
Qed.

(** What an evaluation of several commands amounts to. *)
Lemma check_multiple_spec (p : Policy) cmds fb e :
  check_multiple_with_options windows p cmds fb match_options = Some e ->
  matched_rules e = flat_map (fun c => matches_for_command_with_options windows p c (Some fb) match_options) cmds
  /\ Exists (fun m => match_decision m = decision e) (matched_rules e)
  /\ forall c m, c ∈ cmds -> m ∈ matches_for_command_with_options windows p c (Some fb) match_options ->
       decision_le (match_decision m) (decision e).
Proof.
  intros He. apply from_matches_strictest in He as (Hm & Hex & Hall). rewrite Hm. split_and!; [done|done|].
  intros c m Hc Hin. rewrite Forall_forall in Hall. apply Hall. apply elem_of_flat_map. by exists c.
Qed.

Lemma check_multiple_total (p : Policy) cmds fb :
  cmds <> [] -> exists e, check_multiple_with_options windows p cmds fb match_options = Some e.
Proof.
  intros Hne. destruct (check_multiple_with_options windows p cmds fb match_options) as [e|] eqn:E; [by exists e|].
  exfalso. apply from_matches_None in E. apply flat_map_nil in E; [done|]. intros c. apply matches_nonempty.
Qed.

Lemma parsed_commands_nonempty cmd platform : commands (parsed_commands cmd platform) <> [].
Proof.
  unfold commands_for_exec_policy_for_platform.
  destruct (parse_shell_lc_plain_commands try_parse_shell cmd) as [[|]|]; [|done|];
    (destruct (if bool_decide _ then _ else _) as [[|]|]; done).
Qed.

Lemma decision_le_allow d : decision_le d Allow -> d = Allow.
Proof. destruct d; unfold decision_le; simpl; [done|lia..]. Qed.

(** When a rule does not decide, the fallback allows only these commands. *)
Definition may_run_unmatched (req : ExecApprovalRequest (M:=M) (P:=P)) (origin : ExecPolicyCommandOrigin)
    (platform : DangerousCommandPlatform) (c : list str) : Prop :=
  danger c origin platform = None
  /\ ~ (windows = true /\ windows_sandbox_level req = LevelDisabled
        /\ profile_has_managed_filesystem_restrictions (native_convention windows) (permission_profile req) = true)
  /\ match approval_policy req with
     | UnlessTrusted => False
     | Never => True
     | OnRequest | Granular _ =>
         fs_kind (file_system_sandbox_policy (permission_profile req)) <> Restricted
         \/ sandbox_permissions req = UseDefault
     end.

Lemma fallback_allow req origin platform c :
  fallback req origin platform c = Allow <-> may_run_unmatched req origin platform c.
Proof.
  unfold exec_policy_fallback, render_decision_for_unmatched_command_for_platform, may_run_unmatched. simpl.
  destruct (danger c origin platform); simpl.
  { split; [by destruct (approval_policy req)|by intros [[=] _]]. }
  destruct (windows && _ && _) eqn:Ew.
  { apply andb_true_iff in Ew as [[-> Hl]%andb_true_iff ->]. split; [by destruct (approval_policy req)|].
    intros (_ & Hno & _). destruct Hno. split_and!; [done| |done]. by destruct (windows_sandbox_level req). }
  assert (~ (windows = true /\ windows_sandbox_level req = LevelDisabled
             /\ profile_has_managed_filesystem_restrictions (native_convention windows) (permission_profile req) = true)) as Hno.
  { intros (-> & Hl & Hr). by rewrite Hl, Hr in Ew. }
  destruct (approval_policy req); [naive_solver| | |naive_solver];
    (destruct (fs_kind _); [|naive_solver..]); destruct (sandbox_permissions req); naive_solver.
Qed.

(** An allowed command. *)
Definition allowed_command (p : Policy) (req : ExecApprovalRequest (M:=M) (P:=P)) (origin : ExecPolicyCommandOrigin)
    (platform : DangerousCommandPlatform) (c : list str) : Prop :=
  (forall m, m ∈ rule_matches_of p c -> match_decision m = Allow)
  /\ (rule_matches_of p c <> [] \/ may_run_unmatched req origin platform c).

Lemma approve_parsed_skip manager req parsed platform bypass amendment :
  approve_parsed manager req parsed platform = Some (Skip bypass amendment) ->
  Forall (allowed_command (effective req manager) req (command_origin parsed) platform) (commands parsed)
  /\ (bypass = true <-> Forall (fun c => rule_matches_of (effective req manager) c <> []) (commands parsed)).
Proof.
  unfold create_exec_approval_requirement_for_parsed_commands. set (p := effective req manager).
  destruct (check_multiple_with_options windows p (commands parsed) _ _) as [e|] eqn:E; [|done].
  apply check_multiple_spec in E as (Hm & _ & Hall). intros [= Hreq].
  assert (decision e = Allow /\ bypass = forallb (fun c => existsb (is_rule_with Allow) (rule_matches_of p c)) (commands parsed)) as [Hd ->].
  { destruct (decision e); [by injection Hreq as <-| |done]. by destruct (prompt_is_rejected_by_policy _ _), (existsb (is_rule_with Prompt) (matched_rules e)). }
  clear Hreq. rewrite Hd in Hall.
  assert (forall c, c ∈ commands parsed -> allowed_command p req (command_origin parsed) platform c) as Hc.
  { intros c Hc. specialize (Hall c). setoid_rewrite matches_with_fallback in Hall.
    unfold allowed_command. destruct (rule_matches_of p c) as [|m ms].
    - split; [set_solver|]. right. apply fallback_allow. apply decision_le_allow.
      specialize (Hall (HeuristicsRuleMatch c (fallback req (command_origin parsed) platform c)) Hc ltac:(set_solver)). done.
    - split; [|by left]. intros m' Hm'. apply decision_le_allow. by apply Hall. }
  split; [by apply Forall_forall|]. rewrite forallb_forall, Forall_forall. split.
  - intros Hf c Hin Hnil. apply list_elem_of_In in Hin. specialize (Hf c Hin). by rewrite Hnil in Hf.
  - intros Hne c Hin. apply list_elem_of_In in Hin. specialize (Hne c Hin). specialize (Hc c Hin) as [Ha _].
    destruct (rule_matches_of p c) as [|m ms] eqn:Em; [done|]. apply existsb_exists. exists m. split; [by left|].
    unfold is_rule_with. rewrite (Ha m) by set_solver. rewrite bool_decide_true by done. rewrite andb_true_r.
    apply (rule_matches_policy p c). rewrite Em. set_solver.
Qed.

(** C7. A command that runs without asking consists only of commands that some rule
    allows and none asks about or forbids, or that no rule matches, are not
    dangerous and that the approval setting lets run; the sandbox is bypassed
    exactly when every one of them is matched by rules.  An untrusted project runs
    nothing that is not allowed by a rule. *)
Theorem approval_skip_sound manager req platform bypass amendment :
  approve manager req platform = Some (Skip bypass amendment) ->
  let parsed := parsed_commands (command req) platform in
  Forall (allowed_command (effective req manager) req (command_origin parsed) platform) (commands parsed)
  /\ (bypass = true <-> Forall (fun c => rule_matches_of (effective req manager) c <> []) (commands parsed))
  /\ (approval_policy req = UnlessTrusted -> bypass = true).
Proof.
  intros Hs. apply approve_parsed_skip in Hs as [Hall Hb]. split_and!; [done|done|]. intros Hu. apply Hb.
  eapply Forall_impl; [exact Hall|]. intros c [_ [Hne|(_ & _ & Hmay)]]; [done|]. by rewrite Hu in Hmay.
Qed.
(** Some rule decides [d] about one of the commands. *)
Definition rule_says (p : Policy) (cmds : list (list str)) (d : Decision) : Prop :=
  exists c m, c ∈ cmds /\ m ∈ rule_matches_of p c /\ match_decision m = d.

Lemma existsb_rule_with (p : Policy) cmds fb d :
  existsb (is_rule_with d) (flat_map (fun c => matches_for_command_with_options windows p c (Some fb) match_options) cmds) = true
  <-> rule_says p cmds d.
Proof.
  rewrite existsb_exists. setoid_rewrite <- list_elem_of_In. setoid_rewrite elem_of_flat_map. unfold rule_says, is_rule_with. split.
  - intros (m & (c & Hc & Hm) & [Hp Hd%bool_decide_eq_true]%andb_true_iff). exists c, m. rewrite matches_with_fallback in Hm.
    destruct (rule_matches_of p c); [|done]. apply list_elem_of_singleton in Hm as ->. done.
  - intros (c & m & Hc & Hm & Hd). exists m. split.
    + exists c. split; [done|]. rewrite matches_with_fallback. by destruct (rule_matches_of p c); [set_solver|].
    + apply andb_true_iff. split; [by eapply rule_matches_policy|by apply bool_decide_eq_true].
Qed.

(** Whether the settings allow a question, given whether a rule asks it. *)
Definition may_ask (policy : AskForApproval) (rule_asks : Prop) : Prop :=
  match policy with
  | Never => False
  | OnRequest | UnlessTrusted => True
  | Granular g => (rule_asks /\ rules g = true) \/ (~ rule_asks /\ sandbox_approval g = true)
  end.

Lemma not_rejected_may_ask policy b (rule_asks : Prop) :
  (b = true <-> rule_asks) -> prompt_is_rejected_by_policy policy b = None -> may_ask policy rule_asks.
Proof.
  intros Hb. destruct policy as [| |g|]; simpl; try done. destruct b.
  - destruct (rules g) eqn:E; [|done]. intros _. left. split; [by apply Hb|done].
  - destruct (sandbox_approval g) eqn:E; [|done]. intros _. right. split; [intros Hr; by apply Hb in Hr|done].
Qed.

(** C8. Every request gets a requirement.  A command a rule forbids is refused; the
    user is asked only when the settings allow that kind of question, and never
    under [Never]; a dangerous command no rule matches is never run unasked, and is
    refused under [Never]. *)
Theorem approval_refusals manager req platform :
  let parsed := parsed_commands (command req) platform in
  let p := effective req manager in
  exists r, approve manager req platform = Some r
  /\ (rule_says p (commands parsed) Forbidden -> exists reason, r = ForbiddenReq reason)
  /\ (forall reason a, r = NeedsApproval reason a ->
        may_ask (approval_policy req) (rule_says p (commands parsed) Prompt))
  /\ (forall c, c ∈ commands parsed -> rule_matches_of p c = [] -> danger c (command_origin parsed) platform <> None ->
        (forall bypass a, r <> Skip bypass a) /\ (approval_policy req = Never -> exists reason, r = ForbiddenReq reason)).
Proof.
  intros parsed p. unfold create_exec_approval_requirement_for_command_platform.
  change (commands_for_exec_policy_for_platform _ _ _ _) with parsed.
  unfold create_exec_approval_requirement_for_parsed_commands. cbv zeta.
  change (effective req manager) with p.
  destruct (check_multiple_total p (commands parsed) (fallback req (command_origin parsed) platform)
    (parsed_commands_nonempty _ _)) as [e He]. rewrite He. eexists. split; [reflexivity|].
  apply check_multiple_spec in He as (Hm & _ & Hall).
  pose proof (existsb_rule_with p (commands parsed) (fallback req (command_origin parsed) platform) Prompt) as Hasks.
  rewrite <- Hm in Hasks. split_and!.
  - intros (c & m & Hc & Hin & Hd). specialize (Hall c m Hc). rewrite matches_with_fallback in Hall.
    destruct (rule_matches_of p c) as [|m' ms]; [set_solver|]. specialize (Hall Hin). rewrite Hd in Hall.
    destruct (decision e); [unfold decision_le in Hall; simpl in Hall; lia..|]. by eexists.
  - intros reason a. destruct (decision e); [done| |done].
    destruct (prompt_is_rejected_by_policy _ _) eqn:Er; [by destruct (existsb (is_rule_with Prompt) _)|]. intros _.
    by eapply not_rejected_may_ask.
  - intros c Hc Hnil Hd. specialize (Hall c (HeuristicsRuleMatch c (fallback req (command_origin parsed) platform c)) Hc).
    rewrite matches_with_fallback, Hnil in Hall. specialize (Hall ltac:(set_solver)). simpl in Hall.
    assert (fallback req (command_origin parsed) platform c = match approval_policy req with Never => Forbidden | _ => Prompt end) as Hf.
    { unfold exec_policy_fallback, render_decision_for_unmatched_command_for_platform. simpl.
      destruct (danger c (command_origin parsed) platform); [|done]. by destruct (approval_policy req). }
    rewrite Hf in Hall. split.
    + intros bypass a. destruct (decision e); [|by destruct (prompt_is_rejected_by_policy _ _), (existsb (is_rule_with Prompt) (matched_rules e))|done].
      destruct (approval_policy req); unfold decision_le in Hall; simpl in Hall; lia.
    + intros Hn. rewrite Hn in Hall. destruct (decision e); [unfold decision_le in Hall; simpl in Hall; lia..|]. by eexists.
Qed.

(** ** Untrusted shells *)

Lemma check_multiple_allow (p : Policy) cmds fb :
  cmds <> [] -> (forall c, c ∈ cmds -> match rule_matches_of p c with
                                      | [] => fb c = Allow
                                      | ms => Forall (fun m => match_decision m = Allow) ms
                                      end) ->
  exists e, check_multiple_with_options windows p cmds fb match_options = Some e /\ decision e = Allow.
Proof.
  intros Hne Hc. destruct (check_multiple_total p cmds fb Hne) as [e He]. exists e. split; [done|].
  apply check_multiple_spec in He as (Hm & Hex & _). apply Exists_exists in Hex as (m & Hin & <-). rewrite Hm in Hin.
  apply elem_of_flat_map in Hin as (c & Hcin & Hin). specialize (Hc c Hcin). rewrite matches_with_fallback in Hin.
  destruct (rule_matches_of p c) as [|m0 ms]; [by apply list_elem_of_singleton in Hin as ->|].
  rewrite Forall_forall in Hc. by apply Hc.
Qed.

Lemma approve_parsed_allow manager req parsed platform e :
  check_multiple_with_options windows (effective req manager) (commands parsed)
    (fallback req (command_origin parsed) platform) match_options = Some e -> decision e = Allow ->
  exists a, approve_parsed manager req parsed platform =
    Some (Skip (forallb (fun c => existsb (is_rule_with Allow) (rule_matches_of (effective req manager) c)) (commands parsed)) a).
Proof. intros He Hd. unfold create_exec_approval_requirement_for_parsed_commands. rewrite He, Hd. by eexists. Qed.

Notation approve_shell :=
  (create_exec_approval_requirement_for_shell windows try_parse_shell parse_powershell shlex_split re_capture url_scheme
     shlex_try_join).

Definition only (executable : str) (origin : ExecPolicyCommandOrigin) : ExecPolicyCommands := mkCommands [[executable]] origin.

(** A shell that is neither the configured one nor in a system directory gains
    nothing from what it is told to run: when such an invocation runs without
    asking, the executable alone would run without asking, and outside the sandbox
    only if rules match the executable alone. *)
Theorem unfamiliar_shell_gains_no_trust manager req configured_shell mode platform executable bypass amendment :
  shell_approval_command (command req) configured_shell mode = [executable] -> length (command req) <> 1 ->
  approve_shell manager req configured_shell mode platform = Some (Skip bypass amendment) ->
  exists origin bypass' amendment',
    approve_parsed manager (with_command req [executable]) (only executable origin) platform = Some (Skip bypass' amendment')
    /\ (bypass = true -> bypass' = true /\ rule_matches_of (effective req manager) [executable] <> []).
Proof.
  intros Hexe Hlen. unfold create_exec_approval_requirement_for_shell. rewrite Hexe.
  destruct (Nat.eqb_spec (length [executable]) (length (command req))) as [Heq|_]; [simpl in Heq; lia|].
  set (pc := if bool_decide (platform = Windows) then _ else _). intros Hs.
  apply approve_parsed_skip in Hs as [Hall Hb]. simpl in Hall, Hb.
  change (effective (with_command req [executable]) manager) with (effective req manager) in *.
  apply Forall_cons in Hall as [[Hallow Hor] _].
  destruct (check_multiple_allow (effective req manager) [[executable]] (fallback (with_command req [executable]) (command_origin pc) platform))
    as (e & He & Hd); [done| |].
  { intros c ->%list_elem_of_singleton. destruct (rule_matches_of (effective req manager) [executable]) as [|m ms] eqn:Em.
    - apply fallback_allow. destruct Hor as [|Hor]; [done|]. exact Hor.
    - apply Forall_forall. exact Hallow. }
  destruct (approve_parsed_allow manager (with_command req [executable]) (only executable (command_origin pc)) platform e He Hd) as [a Ha].
  exists (command_origin pc). eexists _, _. split; [exact Ha|]. intros Hb'. apply Hb, Forall_cons in Hb' as [Hne _].
  split; [|done]. apply approve_parsed_skip in Ha as [_ Hb2]. apply Hb2. by constructor.
Qed.

(** ** Accepted amendments *)

Lemma rule_matches_app r cmd tail (m : RuleMatch P) :
  rule_matches r cmd = Some m -> exists m' : RuleMatch P, rule_matches r (cmd ++ tail) = Some m'.
Proof.
  unfold rule_matches. destruct (matches_prefix (pattern r) cmd) as [mp|] eqn:E; [|done]. intros _.
  apply matches_prefix_iff in E as (args & tl & Hmp & -> & HF).
  assert (matches_prefix (pattern r) ((mp ++ tl) ++ tail) = Some mp) as ->; [|by eexists].
  apply matches_prefix_iff. exists args, (tl ++ tail). by rewrite (assoc_L (++)).
Qed.

Definition path_listed (p : Policy) (key : str) (prog : P) : bool :=
  negb (is_some_and (host_executables_by_name p !! key) (fun paths => negb (existsb (fun q => bool_decide (q = prog)) paths))).

(** A rule matches the command as written, or by the file name of its absolute path. *)
Definition exact_match (p : Policy) (c : list str) : Prop :=
  exists c0 args r m, c = c0 :: args /\ r ∈ rules_of p c0 /\ rule_matches (P:=P) r c = Some m.
Definition host_match (p : Policy) (c : list str) : Prop :=
  exists c0 args prog key r m, c = c0 :: args /\ path_try_from c0 = Some prog
    /\ executable_path_lookup_key windows prog = Some key /\ r ∈ rules_of p key
    /\ rule_matches (P:=P) r (key :: args) = Some m /\ path_listed p key prog = true.

Lemma match_exact_rules_spec (p : Policy) c :
  non_empty (match_exact_rules p c) <> None <-> exact_match p c.
Proof using Type*.
  clear try_parse_shell parse_powershell shlex_split re_capture url_scheme shlex_try_join.
  unfold exact_match. destruct c as [|c0 args]; [split; [done|naive_solver]|].
  rewrite match_exact_rules_of. simpl. split.
  - destruct (matches_of (rules_of p c0) (c0 :: args)) as [|m ms] eqn:E; [done|]. intros _.
    assert (m ∈ matches_of (P:=P) (rules_of p c0) (c0 :: args)) as Hm by (rewrite E; set_solver).
    apply list_elem_of_omap in Hm as (r & Hr & Hm). by exists c0, args, r, m.
  - intros (c1 & args1 & r & m & [= <- <-] & Hr & Hm).
    assert (m ∈ matches_of (P:=P) (rules_of p c0) (c0 :: args)) as Hin by (apply list_elem_of_omap; by exists r).
    destruct (matches_of (rules_of p c0) (c0 :: args)); [set_solver|done].
Qed.

Lemma match_host_rules_spec (p : Policy) c : match_host_executable_rules windows p c <> [] <-> host_match p c.
Proof using Type*.
  clear try_parse_shell parse_powershell shlex_split re_capture url_scheme shlex_try_join.
  unfold host_match, path_listed, match_host_executable_rules. destruct c as [|c0 args]; [split; [done|naive_solver]|].
  destruct (path_try_from c0) as [prog|] eqn:Et; [|split; [done|naive_solver]].
  destruct (executable_path_lookup_key windows prog) as [key|] eqn:Ek; [|split; [done|naive_solver]].
  assert (rules_of p key = default [] (mm_get_vec (rules_by_program p) key)) as Hro by done.
  destruct (mm_get_vec (rules_by_program p) key) as [rs|]; simpl in Hro.
  2:{ split; [done|]. intros (? & ? & ? & ? & r & m & [= <- <-] & Ht & Hk & Hr & _). rewrite Et in Ht. injection Ht as <-. rewrite Ek in Hk. injection Hk as <-. rewrite Hro in Hr. set_solver. }
  destruct (is_some_and _ _) eqn:Es; simpl.
  { split; [done|]. intros (? & ? & ? & ? & r & m & [= <- <-] & Ht & Hk & Hr & _ & Hl). rewrite Et in Ht. injection Ht as <-. rewrite Ek in Hk. injection Hk as <-. by rewrite Es in Hl. }
  split.
  - intros Hne. destruct (matches_of rs (key :: args)) as [|m ms] eqn:E; [done|].
    assert (m ∈ matches_of (P:=P) rs (key :: args)) as Hm by (rewrite E; set_solver).
    apply list_elem_of_omap in Hm as (r & Hr & Hm). exists c0, args, prog, key, r, m. rewrite Hro, Es. done.
  - intros (? & ? & ? & ? & r & m & [= <- <-] & Ht & Hk & Hr & Hm & _). rewrite Et in Ht. injection Ht as <-. rewrite Ek in Hk. injection Hk as <-. rewrite Hro in Hr.
    assert (m ∈ matches_of (P:=P) rs (key :: args)) as Hin by (apply list_elem_of_omap; by exists r).
    destruct (matches_of rs (key :: args)); [set_solver|done].
Qed.

Lemma rule_matches_nonempty (p : Policy) c : rule_matches_of p c <> [] <-> exact_match p c \/ host_match p c.
Proof using Type*.
  clear try_parse_shell parse_powershell shlex_split re_capture url_scheme shlex_try_join.
  rewrite <- match_exact_rules_spec, <- match_host_rules_spec. unfold matches_for_command_with_options. cbv zeta. simpl.
  destruct (match_exact_rules p c) as [[|m ms]|]; simpl; [| naive_solver|];
    (destruct (match_host_executable_rules windows p c); simpl; naive_solver).
Qed.
Lemma single_rule_matches f rs c (m : RuleMatch P) :
  rule_matches (mkRule (mkPattern f (map Single rs)) Allow None) c = Some m -> exists tail, c = (f :: rs) ++ tail.
Proof.
  unfold rule_matches. simpl. destruct (matches_prefix _ c) as [mp|] eqn:E; [|done]. intros _.
  apply matches_prefix_iff in E as (args & tail & -> & -> & HF). simpl in HF. apply singles_match_inv in HF as ->. by exists tail.
Qed.

Section Accepted.
(** A file name is not an absolute path. *)
Hypothesis key_not_absolute : forall prog key, executable_path_lookup_key windows prog = Some key -> path_try_from key = None.

(** A command only the new rule matches does not start with something a rule
    already matched. *)
Lemma new_rule_was_needed (p p' : Policy) prefix c :
  add_prefix_rule p prefix Allow = Ok p' -> rule_matches_of p' c <> [] -> rule_matches_of p prefix <> [] ->
  rule_matches_of p c <> [].
Proof.
  destruct prefix as [|f rs]; [done|]. intros Hadd. rewrite !rule_matches_nonempty.
  assert (forall k r, r ∈ rules_of p' k -> r ∈ rules_of p k \/ (k = f /\ r = mkRule (mkPattern f (map Single rs)) Allow None)) as Hro.
  { intros k r. rewrite (add_prefix_rules_of _ _ _ _ _ _ Hadd). destruct (decide (f = k)); set_solver. }
  assert (forall k prog, path_listed p' k prog = path_listed p k prog) as Hl by (injection Hadd as <-; done).
  intros [(c0 & args & r & m & -> & Hr & Hm)|(c0 & args & prog & key & r & m & -> & Hp & Hk & Hr & Hm & Hlist)] Hold.
  - apply Hro in Hr as [Hr|[-> ->]]; [left; by exists c0, args, r, m|].
    apply single_rule_matches in Hm as [tail [= ->]].
    destruct Hold as [(d0 & dargs & r' & m' & [= <- <-] & Hr' & Hm')|(d0 & dargs & prog & key & r' & m' & [= <- <-] & Hp & Hk & Hr' & Hm' & Hlist)];
      apply (rule_matches_app _ _ tail) in Hm' as [m'' Hm''].
    + left. by exists f, (rs ++ tail), r', m''.
    + right. by exists f, (rs ++ tail), prog, key, r', m''.
  - rewrite Hl in Hlist. apply Hro in Hr as [Hr|[-> ->]]; [right; by exists c0, args, prog, key, r, m|].
    apply single_rule_matches in Hm as [tail [= ->]].
    destruct Hold as [(d0 & dargs & r' & m' & [= <- <-] & Hr' & Hm')|(d0 & dargs & prog' & key & r' & m' & [= <- <-] & Hp' & _)].
    + apply (rule_matches_app _ _ tail) in Hm' as [m'' Hm'']. right. by exists c0, (rs ++ tail), prog, f, r', m''.
    + apply key_not_absolute in Hk. congruence.
Qed.

Lemma would_approve_all (p p' : Policy) prefix cmds fb c :
  prefix_rule_would_approve_all_commands windows p prefix cmds fb match_options = true ->
  add_prefix_rule p prefix Allow = Ok p' -> c ∈ cmds ->
  match rule_matches_of p' c with [] => fb c = Allow | ms => Forall (fun m => match_decision m = Allow) ms end.
Proof.
  unfold prefix_rule_would_approve_all_commands. intros Hall Hadd Hc. rewrite Hadd, forallb_forall in Hall.
  apply list_elem_of_In in Hc. specialize (Hall c Hc). unfold check_with_options in Hall.
  destruct (from_matches _) as [e|] eqn:E; [|done]. apply bool_decide_eq_true in Hall.
  apply from_matches_strictest in E as (_ & _ & Hle). rewrite matches_with_fallback, Hall in Hle.
  assert (Forall (fun m => match_decision m = Allow)
    (match rule_matches_of p' c with [] => [HeuristicsRuleMatch c (fb c)] | ms => ms end)) as Hd
    by (eapply Forall_impl; [exact Hle|intros m; apply decision_le_allow]).
  destruct (rule_matches_of p' c); [by apply Forall_cons in Hd as [? _]|done].
Qed.

(** C36. When the prefix the model asked for is proposed, accepted and written, the
    same request needs no approval any more, provided that it honours prefix rules
    and its environment brings no policy of its own.  With such a policy the
    proposal is made under the combined rules and the update looks at the shared ones
    only ([overlaid_amendment_is_lost]). *)
Theorem accepted_amendment_takes_effect {J : Type} (to_json : str -> result str J) (parent : str -> option str)
    (faults : UpdateFaults) (codex_home : str) (s s' : ManagerState M P) req platform e amendment :
  let parsed := parsed_commands (command req) platform in
  let fb := fallback req (command_origin parsed) platform in
  environment_policy req = None -> allow_prefix_rules req = Honor ->
  check_multiple_with_options windows (policy s) (commands parsed) fb match_options = Some e ->
  derive_requested_execpolicy_amendment_from_prefix_rule windows (prefix_rule req) (matched_rules e) (policy s)
    (commands parsed) fb match_options = Some amendment ->
  append_amendment_and_update windows to_json parent faults codex_home amendment s = (s', Ok tt) ->
  exists bypass a, approve (policy s') req platform = Some (Skip bypass a).
Proof.
  intros parsed fb Henv Hhonor He Hder Hupd.
  assert (effective req (policy s') = policy s') as Heff by (unfold current_for_environment; by rewrite Henv, Hhonor).
  cut (forall c, c ∈ commands parsed -> match rule_matches_of (policy s') c with
         [] => fb c = Allow | ms => Forall (fun m => match_decision m = Allow) ms end).
  { intros Hc. destruct (check_multiple_allow (policy s') (commands parsed) fb (parsed_commands_nonempty _ _) Hc) as (e' & He' & Hd).
    rewrite <- Heff in He'. destruct (approve_parsed_allow (policy s') req parsed platform e' He' Hd) as [a Ha]. by eexists _, a. }
  unfold derive_requested_execpolicy_amendment_from_prefix_rule in Hder. destruct (prefix_rule req) as [prefix|]; [|done].
  destruct (is_nil prefix) eqn:Hnil; [done|]. destruct (existsb _ BANNED_PREFIX_SUGGESTIONS); [done|].
  destruct (existsb is_policy_match (matched_rules e)) eqn:Hno; [done|].
  destruct (prefix_rule_would_approve_all_commands _ _ _ _ _ _) eqn:Hall; [|done]. injection Hder as <-.
  destruct prefix as [|f rs]; [done|]. set (prefix := f :: rs) in *.
  destruct (add_prefix_rule (policy s) prefix Allow) as [p'|] eqn:Hadd; [|done].
  assert (policy s' = p' \/ (policy s' = policy s /\ rule_matches_of (policy s) prefix <> [])) as Hcases.
  { unfold append_amendment_and_update in Hupd. destruct (run_append _ _ _ _) as [file [[]|]]; [|done].
    unfold amended_policy, already_allowed in Hupd. rewrite Hadd in Hupd.
    destruct (check_multiple_with_options windows (policy s) [prefix] _ _) as [ea|] eqn:Ea; [|injection Hupd as <-; by left].
    destruct (_ && _) eqn:Hb; injection Hupd as <-; [right|by left]. split; [done|].
    apply andb_true_iff in Hb as [_ Hb]. apply check_multiple_spec in Ea as (Hm & _ & _). rewrite Hm in Hb.
    apply existsb_rule_with in Hb as (c & m & ->%list_elem_of_singleton & Hin & _). intros Hnone. rewrite Hnone in Hin. set_solver. }
  intros c Hc. destruct Hcases as [->|[-> Hold]]; [by eapply would_approve_all|].
  assert (rule_matches_of (policy s) c = []) as Hcn.
  { destruct (rule_matches_of (policy s) c) as [|m ms] eqn:Em; [done|]. exfalso. apply not_true_iff_false in Hno. apply Hno.
    apply check_multiple_spec in He as (Hm & _ & _). rewrite Hm. apply existsb_exists. exists m. split.
    - apply list_elem_of_In, elem_of_flat_map. exists c. rewrite matches_with_fallback, Em. set_solver.
    - apply (rule_matches_policy (policy s) c). rewrite Em. set_solver. }
  rewrite Hcn. pose proof (would_approve_all _ _ _ _ _ c Hall Hadd Hc) as Hw.
  destruct (rule_matches_of p' c) as [|m ms] eqn:Em; [done|]. exfalso.
  apply (new_rule_was_needed (policy s) p' prefix c Hadd); [by rewrite Em|done|done].
Qed.
End Accepted.
End Theorems.

(** ** Evaluation *)

Definition no_join (_ : list str) : option str := None.

Definition demo_request (cmd : list str) (ask : AskForApproval) (profile : PermissionProfile) (permissions : SandboxPermissions)
    (prefix : option (list str)) : ExecApprovalRequest (M:=gmap str (list PrefixRule)) (P:=str) :=
  mkRequest cmd ask profile None LevelDisabled permissions prefix Honor.

Definition restricted_profile : PermissionProfile :=
  Managed (ManagedRestricted (entries read_only) None) NetworkRestricted.

Lemma approval_skip_sound_witness :
  Forall (fun c => matches_for_command_with_options false base_policy c None match_options <> [])
    [[lit "git"; lit "status"; lit "-s"]].
Proof.
  apply (approval_skip_sound false no_script no_script no_words no_text no_text no_join base_policy
    (demo_request [lit "git"; lit "status"; lit "-s"] UnlessTrusted restricted_profile UseDefault None) Posix true None);
    vm_compute; reflexivity.
Defined.

Definition forced_removal : ExecApprovalRequest (M:=gmap str (list PrefixRule)) (P:=str) :=
  demo_request [lit "rm"; lit "-rf"; lit "x"] Never restricted_profile UseDefault None.

Lemma approval_refusals_witness :
  exists reason,
    create_exec_approval_requirement_for_command_platform false no_script no_script no_words no_text no_text no_join
      base_policy forced_removal Posix = Some (ForbiddenReq reason).
Proof.
  destruct (approval_refusals false no_script no_script no_words no_text no_text no_join base_policy forced_removal Posix)
    as (r & -> & _ & _ & H).
  destruct (H [lit "rm"; lit "-rf"; lit "x"]) as [_ Hr].
  - vm_compute. constructor.
  - vm_compute. reflexivity.
  - vm_compute. discriminate.
  - destruct Hr as [reason ->]; [reflexivity|]. exists reason. reflexivity.
Defined.

Definition tmp_shell : ExecApprovalRequest (M:=gmap str (list PrefixRule)) (P:=str) :=
  demo_request [lit "/tmp/bash"; lit "-c"; lit "ls"] Never restricted_profile UseDefault None.

Lemma unfamiliar_shell_gains_no_trust_witness :
  exists origin bypass amendment,
    create_exec_approval_requirement_for_parsed_commands false no_script no_words no_text no_text no_join base_policy
      (with_command tmp_shell [lit "/tmp/bash"]) (only (lit "/tmp/bash") origin) Posix = Some (Skip bypass amendment)
    /\ (false = true -> bypass = true /\
         matches_for_command_with_options false base_policy [lit "/tmp/bash"] None match_options <> []).
Proof.
  apply (unfamiliar_shell_gains_no_trust false no_script no_script no_words no_text no_text no_join base_policy tmp_shell
    (lit "/bin/zsh") Direct Posix (lit "/tmp/bash") false (Some [lit "/tmp/bash"])).
  - vm_compute; reflexivity.
  - vm_compute; discriminate.
  - vm_compute; reflexivity.
Defined.

Lemma slash_key_not_absolute (prog : str) (key : str) :
  executable_path_lookup_key false prog = Some key -> path_try_from key = None.
Proof.
  unfold executable_path_lookup_key. simpl. destruct (rsplit_once 47%N prog) as [[a b]|] eqn:E; [|done]. intros [= <-].
  apply rsplit_once_Some in E as [_ Hb]. destruct (starts_with (lit "/") b) eqn:Es; [|done].
  apply starts_with_spec in Es as [r ->]. exfalso. apply Hb. by left.
Qed.

Definition cargo_request : ExecApprovalRequest (M:=gmap str (list PrefixRule)) (P:=str) :=
  demo_request [lit "cargo"; lit "test"] OnRequest restricted_profile RequireEscalated (Some [lit "cargo"]).
Definition before_amendment : ManagerState (gmap str (list PrefixRule)) str := mkManager base_policy None.
Definition after_amendment : ManagerState (gmap str (list PrefixRule)) str :=
  fst (append_amendment_and_update false plain_to_json demo_parent (mkUpdateFaults no_faults None) (lit "/home") [lit "cargo"]
         before_amendment).

Lemma accepted_amendment_takes_effect_witness :
  create_exec_approval_requirement_for_command_platform false no_script no_script no_words no_text no_text no_join
    base_policy cargo_request Posix = Some (NeedsApproval None (Some [lit "cargo"]))
  /\ exists bypass a,
    create_exec_approval_requirement_for_command_platform false no_script no_script no_words no_text no_text no_join
      (policy after_amendment) cargo_request Posix = Some (Skip bypass a).
Proof.
  split; [vm_compute; reflexivity|].
  eapply (accepted_amendment_takes_effect false no_script no_script no_words no_text no_text no_join slash_key_not_absolute
    plain_to_json demo_parent (mkUpdateFaults no_faults None) (lit "/home") before_amendment after_amendment cargo_request Posix
    _ [lit "cargo"]).
  - reflexivity.
  - reflexivity.
  - vm_compute; reflexivity.
  - vm_compute; reflexivity.
  - vm_compute; reflexivity.
Defined.

(** An environment says where its [git] is.  Another [git] then matches no rule of
    the combined policy and its prefix is proposed; the shared rules, which do not
    say where it is, allow it already, so accepting the prefix adds no rule, and the
    request needs approval again. *)
Definition placed_git : Policy (gmap str (list PrefixRule)) str := from_parts ∅ [] {[ lit "git" := [lit "/opt/git"] ]}.
Definition other_git : list str := [lit "/usr/bin/git"; lit "status"].
Definition overlaid_request : ExecApprovalRequest (M:=gmap str (list PrefixRule)) (P:=str) :=
  mkRequest other_git OnRequest restricted_profile (Some placed_git) LevelDisabled RequireEscalated (Some other_git) Honor.

Example overlaid_amendment_is_lost :
  let ask p := create_exec_approval_requirement_for_command_platform false no_script no_script no_words no_text no_text no_join
                 p overlaid_request Posix in
  let '(after, r) := append_amendment_and_update false plain_to_json demo_parent (mkUpdateFaults no_faults None) (lit "/home")
                       other_git before_amendment in
  ask (policy before_amendment) = Some (NeedsApproval None (Some other_git)) /\ r = Ok tt
  /\ ask (policy after) = Some (NeedsApproval None (Some other_git)).
Proof. vm_compute. split_and!; reflexivity. Qed.
