(* ===== verification/PolicyTransforms.v ===== *)
(** * Additional permissions ([sandboxing/src/policy_transforms.rs])

    A command may ask for permissions on top of its sandbox; a user grants some of
    them.  This file models the normalisation of such a request, its merging with
    earlier grants, the intersection of what was requested with what was granted,
    the policy that results, and the decision whether a platform sandbox is needed.
    The text of an error is reduced to its case. *)

From stdpp Require Import base list numbers option strings sets.
From Stdlib Require Import Lia.
From S2P Require Import Prelude RustStr Utf8Stream UriPath Permissions.

(** ** Requests ([protocol/src/models.rs]) *)

Record NetworkPermissions := mkNetworkPermissions { enabled : option bool }.

Record FileSystemPermissions := mkFsPermissions {
  perm_entries : list FileSystemSandboxEntry;
  perm_glob_scan_max_depth : option nat }.

Record AdditionalPermissionProfile := mkAdditional {
  add_network : option NetworkPermissions;
  add_file_system : option FileSystemPermissions }.

Definition network_is_empty (n : NetworkPermissions) : bool := is_none (enabled n).
Definition fs_is_empty (f : FileSystemPermissions) : bool := is_nil (perm_entries f).
Definition additional_is_empty (a : AdditionalPermissionProfile) : bool :=
  is_none (add_network a) && is_none (add_file_system a).

Definition opt_filter {A} (p : A -> bool) (o : option A) : option A :=
  match o with Some a => if p a then Some a else None | None => None end.

Inductive PermissionError :=
| GlobNotDeny
| WrongExecutor (path : PathUri)
| UnresolvedPath.

(** ** Normalising *)

Definition is_glob (path : FileSystemPath) : bool := match path with GlobPattern _ => true | _ => false end.

Fixpoint normalize_entries (seen es : list FileSystemSandboxEntry) : result (list FileSystemSandboxEntry) PermissionError :=
  match es with
  | [] => Ok seen
  | e :: rest =>
      if is_glob (entry_path e) && negb (is_deny (entry_access e)) then Err GlobNotDeny
      else normalize_entries (if contains_entry seen e then seen else seen ++ [e]) rest
  end.

Definition normalize_additional_permissions (a : AdditionalPermissionProfile) : result AdditionalPermissionProfile PermissionError :=
  let network := opt_filter (fun n => negb (network_is_empty n)) (add_network a) in
  match add_file_system a with
  | None => Ok (mkAdditional network None)
  | Some f =>
      let? es := normalize_entries [] (perm_entries f) in
      Ok (mkAdditional network (opt_filter (fun f => negb (fs_is_empty f)) (Some (mkFsPermissions es (perm_glob_scan_max_depth f)))))
  end.

Section Transforms.
  Context {UO : UrlOps} {GS : GlobSet}.

Definition path_fits (ctx : PolicyContext) (path : PathUri) : bool :=
  is_some (infer_path_convention path)
  && bool_decide (infer_path_convention path = infer_path_convention (cwd ctx))
  && is_ok (uri_join path (lit ".")).

Fixpoint first_misfit (ctx : PolicyContext) (es : list FileSystemSandboxEntry) : option PathUri :=
  match es with
  | [] => None
  | e :: rest =>
      match entry_path e with
      | PathEntry path => if path_fits ctx path then first_misfit ctx rest else Some path
      | _ => first_misfit ctx rest
      end
  end.

Definition normalize_additional_permissions_with_context (a : AdditionalPermissionProfile) (ctx : PolicyContext)
    : result AdditionalPermissionProfile PermissionError :=
  let? normalized := normalize_additional_permissions a in
  match add_file_system normalized with
  | Some f => match first_misfit ctx (perm_entries f) with
              | Some path => Err (WrongExecutor path)
              | None => Ok normalized
              end
  | None => Ok normalized
  end.

(** ** Resolving entries in a context *)

Definition resolve_permission_path (path : FileSystemPath) (ctx : PolicyContext) : option PathUri :=
  match path with
  | PathEntry p => Some p
  | GlobPattern _ => None
  | Special RootPath => file_system_root ctx
  | Special (ProjectRoots subpath) =>
      match workspace_roots ctx with
      | [] => None
      | root :: _ => match subpath with
                     | Some s => ok_option (uri_join root s)
                     | None => Some root
                     end
      end
  | Special Tmpdir => match temporary_directories ctx with Some ds => head ds | None => None end
  | Special SlashTmp =>
      if bool_decide (infer_path_convention (cwd ctx) = Some PosixPaths)
      then ok_option (uri_join (cwd ctx) (lit "/tmp")) else None
  | Special (Minimal | UnknownPath _ _) => None
  end.

Definition is_windows_context (ctx : PolicyContext) : bool :=
  bool_decide (infer_path_convention (cwd ctx) = Some WindowsPaths).

(** The part of a glob after [~], when it is relative to the home directory. *)
Definition home_relative (windows : bool) (pattern : str) : option str :=
  match strip_prefix (lit "~/") pattern with
  | Some s => Some s
  | None =>
      if str_eqb pattern (lit "~") then Some []
      else if windows then strip_prefix [126%N; BACKSEP] pattern else None
  end.

Definition materialize_cwd_dependent_entry (e : FileSystemSandboxEntry) (ctx : PolicyContext) : option FileSystemSandboxEntry :=
  match entry_path e with
  | GlobPattern pattern =>
      let windows := is_windows_context ctx in
      match home_relative windows pattern with
      | Some suffix =>
          match user_home_dir ctx with
          | None => None
          | Some home =>
              let rest := drop_while (fun c => (c =? SEP)%N || (windows && (c =? BACKSEP)%N)) suffix in
              option_map (fun path => mkFsEntry (GlobPattern (inferred_native_path_string path)) (entry_access e) (skips_missing_path e))
                (ok_option (uri_join home rest))
          end
      | None =>
          option_map (fun path => mkFsEntry (GlobPattern (inferred_native_path_string path)) (entry_access e) (skips_missing_path e))
            (ok_option (uri_join (cwd ctx) pattern))
      end
  | _ => Some e
  end.

Definition materialized_path_entry (e : FileSystemSandboxEntry) (path : PathUri) : FileSystemSandboxEntry :=
  mkFsEntry (PathEntry path) (entry_access e) (skips_missing_path e).

Definition with_roots (ctx : PolicyContext) (roots : list PathUri) : PolicyContext :=
  mkPolicyContext (cwd ctx) roots (user_home_dir ctx) (temporary_directories ctx).

(** The loop over the workspace roots; [None]: a denial that cannot be resolved. *)
Fixpoint resolve_at_roots (e : FileSystemSandboxEntry) (ctx : PolicyContext) (roots : list PathUri)
    : option (list FileSystemSandboxEntry) :=
  match roots with
  | [] => Some []
  | root :: rest =>
      match resolve_permission_path (entry_path e) (with_roots ctx [root]) with
      | Some path => option_map (cons (materialized_path_entry e path)) (resolve_at_roots e ctx rest)
      | None => if is_deny (entry_access e) then None else resolve_at_roots e ctx rest
      end
  end.

(** What one entry becomes; [None] gives the whole request up. *)
Definition materialize_entry (e : FileSystemSandboxEntry) (ctx : PolicyContext) : option (list FileSystemSandboxEntry) :=
  match entry_path e with
  | Special (ProjectRoots _) =>
      match resolve_at_roots e ctx (workspace_roots ctx) with
      | Some resolved => if is_deny (entry_access e) && is_nil resolved then None else Some resolved
      | None => None
      end
  | Special Tmpdir =>
      match temporary_directories ctx with
      | None => if is_deny (entry_access e) then None else Some [e]
      | Some ds => Some (List.map (materialized_path_entry e) ds)
      end
  | Special RootPath =>
      match resolve_permission_path (entry_path e) ctx with Some _ => Some [e] | None => None end
  | _ =>
      match materialize_cwd_dependent_entry e ctx with
      | Some e' => Some [e']
      | None => if is_deny (entry_access e) then None else Some []
      end
  end.

Fixpoint materialize_context_dependent_entries (es : list FileSystemSandboxEntry) (ctx : PolicyContext)
    : option (list FileSystemSandboxEntry) :=
  match es with
  | [] => Some []
  | e :: rest =>
      match materialize_entry e ctx with
      | Some l => option_map (app l) (materialize_context_dependent_entries rest ctx)
      | None => None
      end
  end.

Definition materialize_additional_permissions_with_context (a : AdditionalPermissionProfile) (ctx : PolicyContext)
    : result AdditionalPermissionProfile PermissionError :=
  match add_file_system a with
  | None => normalize_additional_permissions_with_context a ctx
  | Some f =>
      match materialize_context_dependent_entries (perm_entries f) ctx with
      | None => Err UnresolvedPath
      | Some es => normalize_additional_permissions_with_context
                     (mkAdditional (add_network a) (Some (mkFsPermissions es (perm_glob_scan_max_depth f)))) ctx
      end
  end.

(** ** Merging grants *)

Inductive GlobScanDepth := Bounded (depth : nat) | Unbounded.

Definition effective_glob_scan_depth (es : list FileSystemSandboxEntry) (depth : option nat) : option GlobScanDepth :=
  if existsb (fun e => is_deny (entry_access e) && is_glob (entry_path e)) es
  then Some (match depth with Some d => Bounded d | None => Unbounded end) else None.

Definition merge_glob_scan_max_depth (left_entries : list FileSystemSandboxEntry) (left_depth : option nat)
    (right_entries : list FileSystemSandboxEntry) (right_depth : option nat) : option nat :=
  match effective_glob_scan_depth left_entries left_depth, effective_glob_scan_depth right_entries right_depth with
  | Some Unbounded, _ | _, Some Unbounded => None
  | Some (Bounded l), Some (Bounded r) => Some (Nat.max l r)
  | Some (Bounded d), None | None, Some (Bounded d) => Some d
  | None, None => None
  end.

Definition merge_permission_entries (base permissions : list FileSystemSandboxEntry) : list FileSystemSandboxEntry :=
  append_missing [] (base ++ permissions).

Definition enables_network (n : option NetworkPermissions) : bool :=
  match n with Some (mkNetworkPermissions (Some true)) => true | _ => false end.

Definition merge_permission_profiles (base permissions : option AdditionalPermissionProfile) : option AdditionalPermissionProfile :=
  match permissions with
  | None => base
  | Some permissions =>
      match base with
      | None => opt_filter (fun p => negb (additional_is_empty p)) (Some permissions)
      | Some base =>
          let network := if enables_network (add_network base) || enables_network (add_network permissions)
                         then Some (mkNetworkPermissions (Some true)) else None in
          let file_system :=
            match add_file_system base, add_file_system permissions with
            | Some b, Some p =>
                opt_filter (fun f => negb (fs_is_empty f))
                  (Some (mkFsPermissions (merge_permission_entries (perm_entries b) (perm_entries p))
                           (non_zero (merge_glob_scan_max_depth (perm_entries b) (perm_glob_scan_max_depth b)
                                        (perm_entries p) (perm_glob_scan_max_depth p)))))
            | Some b, None => Some b
            | None, Some p => Some p
            | None, None => None
            end in
          opt_filter (fun p => negb (additional_is_empty p)) (Some (mkAdditional network file_system))
      end
  end.

(** ** Intersecting a request with a grant *)

Definition access_covers (requested granted : FileSystemAccessMode) : bool :=
  match granted with
  | ReadAccess => can_read requested
  | WriteAccess => can_write requested
  | DenyAccess => false
  end.

Definition paths_overlap (left right : PathUri) : bool := unwrap_or (overlaps left right) true.

Definition granted_file_system_entry_within_request (requested : FileSystemPermissions) (requested_policy : FileSystemSandboxPolicy)
    (matcher : option PreparedReadDenyMatcher) (granted_entry : FileSystemSandboxEntry) (ctx : PolicyContext) : bool :=
  if negb (can_read (entry_access granted_entry))
     || (is_slash_tmp (entry_path granted_entry) && negb (bool_decide (infer_path_convention (cwd ctx) = Some PosixPaths)))
  then false
  else if is_windows_context ctx && is_root_entry granted_entry
          && negb (existsb (fun e => is_root_entry e && access_covers (entry_access e) (entry_access granted_entry)) (perm_entries requested))
  then false
  else
    match resolve_permission_path (entry_path granted_entry) ctx with
    | Some path =>
        if negb (bool_decide (infer_path_convention path = infer_path_convention (cwd ctx)))
           || is_some_and matcher (matches_prepared_read_deny path ctx)
        then false
        else access_covers (resolve_access requested_policy path ctx) (entry_access granted_entry)
    | None =>
        existsb (fun e => access_covers (entry_access e) (entry_access granted_entry)
                          && fs_path_eqb (entry_path e) (entry_path granted_entry)) (perm_entries requested)
    end.

(** [pattern.find(['*', '?', '[', ']'])]: the text before the first of them. *)
Fixpoint before_wildcard (pattern : str) : option str :=
  match pattern with
  | [] => None
  | c :: rest => if one_of (lit "*?[]") c then Some [] else option_map (cons c) (before_wildcard rest)
  end.

Definition glob_static_prefix_path (pattern : str) (ctx : PolicyContext) : option PathUri :=
  match before_wildcard pattern with
  | Some [] => None
  | Some prefix =>
      let wildcard_in_segment := negb (ends_with [SEP] prefix || (is_windows_context ctx && ends_with [BACKSEP] prefix)) in
      match uri_join (cwd ctx) prefix with
      | Ok path => if wildcard_in_segment then uri_parent path else Some path
      | Err _ => None
      end
  | None => ok_option (uri_join (cwd ctx) pattern)
  end.

Definition none_or {A} (o : option A) (p : A -> bool) : bool := match o with None => true | Some a => p a end.

Definition deny_entry_constrains_accepted_grant (deny_entry : FileSystemSandboxEntry) (accepted : list FileSystemSandboxEntry)
    (ctx : PolicyContext) : bool :=
  existsb (fun e =>
    can_read (entry_access e)
    && (is_root_entry e
        || none_or (resolve_permission_path (entry_path e) ctx) (fun grant_path =>
             match entry_path deny_entry with
             | GlobPattern pattern =>
                 none_or (glob_static_prefix_path pattern ctx) (fun prefix => paths_overlap prefix grant_path)
             | _ =>
                 none_or (resolve_permission_path (entry_path deny_entry) ctx) (fun deny_path => paths_overlap deny_path grant_path)
             end))) accepted.

(** The retained denials, and the output entries with them. *)
Definition retain_constraining_deny_entries (source accepted : list FileSystemSandboxEntry) (ctx : PolicyContext)
    (output : list FileSystemSandboxEntry) : list FileSystemSandboxEntry * list FileSystemSandboxEntry :=
  let retained := List.filter (fun e => is_deny (entry_access e) && deny_entry_constrains_accepted_grant e accepted ctx) source in
  (retained, append_missing output retained).

Definition intersect_file_systems (requested granted : FileSystemPermissions) (ctx : PolicyContext) : option FileSystemPermissions :=
  match materialize_context_dependent_entries (perm_entries requested) ctx,
        materialize_context_dependent_entries (perm_entries granted) ctx with
  | Some requested_entries, Some granted_entries =>
      let requested_policy := restricted requested_entries in
      let matcher := matcher_from_context requested_policy ctx in
      let accepted :=
        append_missing []
          (List.filter (fun e => granted_file_system_entry_within_request requested requested_policy matcher e ctx) granted_entries) in
      let '(requested_retained, es) := retain_constraining_deny_entries requested_entries accepted ctx accepted in
      let '(granted_retained, es) := retain_constraining_deny_entries granted_entries accepted ctx es in
      Some (mkFsPermissions es
              (non_zero (merge_glob_scan_max_depth requested_retained (perm_glob_scan_max_depth requested)
                           granted_retained (perm_glob_scan_max_depth granted))))
  | _, _ => None
  end.

Definition intersect_permission_profiles_with_context (requested granted : AdditionalPermissionProfile) (ctx : PolicyContext)
    : AdditionalPermissionProfile :=
  let file_system :=
    match add_file_system requested with
    | None => None
    | Some r => opt_filter (fun f => negb (fs_is_empty f))
                  (intersect_file_systems r (unwrap_or (add_file_system granted) (mkFsPermissions [] None)) ctx)
    end in
  let network := if enables_network (add_network requested) && enables_network (add_network granted)
                 then Some (mkNetworkPermissions (Some true)) else None in
  mkAdditional network file_system.

(** ** The policy in effect *)

Definition merge_file_system_policy_with_additional_permissions (p : FileSystemSandboxPolicy) (f : FileSystemPermissions)
    : FileSystemSandboxPolicy :=
  match fs_kind p with
  | Restricted =>
      mkFsPolicy Restricted
        (merge_glob_scan_max_depth (entries p) (glob_scan_max_depth p) (perm_entries f) (perm_glob_scan_max_depth f))
        (append_missing (entries p) (perm_entries f))
  | Unrestricted | ExternalSandbox => p
  end.

Definition effective_file_system_sandbox_policy (p : FileSystemSandboxPolicy) (a : option AdditionalPermissionProfile)
    : FileSystemSandboxPolicy :=
  match a with
  | None => p
  | Some a =>
      match add_file_system a with
      | None => p
      | Some f => if fs_is_empty f then p else merge_file_system_policy_with_additional_permissions p f
      end
  end.

Definition network_is_enabled (n : NetworkSandboxPolicy) : bool := match n with NetworkEnabled => true | NetworkRestricted => false end.

Definition merge_network_access (base : bool) (a : AdditionalPermissionProfile) : bool :=
  base || is_some_and (add_network a) (fun n => unwrap_or (enabled n) false).

Definition effective_network_sandbox_policy (n : NetworkSandboxPolicy) (a : option AdditionalPermissionProfile) : NetworkSandboxPolicy :=
  if is_some_and a (merge_network_access (network_is_enabled n)) then NetworkEnabled
  else if is_some a then NetworkRestricted
  else n.

Definition profile_network (p : PermissionProfile) : NetworkSandboxPolicy :=
  match p with Managed _ n | External n => n | Disabled => NetworkEnabled end.

Definition enforcement_disabled (p : PermissionProfile) : bool := match p with Disabled => true | _ => false end.

(** [None]: the [unreachable!] of [from_sandbox_policy]. *)
Definition effective_permission_profile (p : PermissionProfile) (a : option AdditionalPermissionProfile) : option PermissionProfile :=
  from_runtime_permissions_with_enforcement (enforcement_disabled p)
    (effective_file_system_sandbox_policy (file_system_sandbox_policy p) a)
    (effective_network_sandbox_policy (profile_network p) a).

(** [native] is the convention of the host. *)
Definition should_require_platform_sandbox (native : PathConvention) (p : FileSystemSandboxPolicy) (n : NetworkSandboxPolicy)
    (has_managed_network_requirements : bool) : bool :=
  if has_managed_network_requirements then true
  else if negb (network_is_enabled n) then match fs_kind p with ExternalSandbox => false | _ => true end
  else match fs_kind p with
       | Restricted => negb (has_full_disk_write_access_for_convention p (Some native))
       | Unrestricted | ExternalSandbox => false
       end.
End Transforms.

(** ** The intersection stays within the request *)

Section Within.
  Context {UO : UrlOps} {GS : GlobSet}.

(** Once materialised, an entry stands for one root at most. *)
Definition single_root (ctx : PolicyContext) (path : FileSystemPath) : Prop :=
  entry_roots ctx path = option_list (resolve_permission_path path ctx).

Lemma resolve_at_roots_paths e ctx roots es x :
  resolve_at_roots e ctx roots = Some es -> x ∈ es -> exists path, x = materialized_path_entry e path.
Proof.
  revert es. induction roots as [|root roots IH]; simpl; intros es; [intros [= <-]; set_solver|].
  destruct (resolve_permission_path _ _) as [path|].
  - destruct (resolve_at_roots e ctx roots) as [l|]; [|done]. intros [= <-] [->|Hx]%elem_of_cons; [eauto|by eapply IH].
  - by destruct (is_deny _); [|apply IH].
Qed.

Lemma materialize_entry_single e ctx es x :
  materialize_entry e ctx = Some es -> x ∈ es -> single_root ctx (entry_path x).
Proof.
  unfold materialize_entry, single_root. intros Hm Hx. destruct (entry_path e) as [p|g|s] eqn:Ep.
  - unfold materialize_cwd_dependent_entry in Hm. rewrite Ep in Hm. injection Hm as <-.
    apply list_elem_of_singleton in Hx as ->. by rewrite Ep.
  - assert (exists g', entry_path x = GlobPattern g') as [g' ->]; [|done].
    unfold materialize_cwd_dependent_entry in Hm. rewrite Ep in Hm.
    destruct (home_relative _ _) as [suffix|]; [destruct (user_home_dir ctx) as [home|]|];
      repeat (case_match; simplify_eq; try set_solver);
      destruct (ok_option _); simpl in *; simplify_eq; apply list_elem_of_singleton in Hx as ->; simpl; eauto.
  - destruct s as [| |sub| | |].
    + destruct (resolve_permission_path _ ctx) as [r|] eqn:E; [|done]. injection Hm as <-.
      apply list_elem_of_singleton in Hx as ->. by rewrite Ep.
    + unfold materialize_cwd_dependent_entry in Hm. rewrite Ep in Hm. injection Hm as <-.
      apply list_elem_of_singleton in Hx as ->. by rewrite Ep.
    + destruct (resolve_at_roots e ctx _) as [l|] eqn:E; [|done]. case_match; simplify_eq.
      destruct (resolve_at_roots_paths _ _ _ _ _ E Hx) as [path ->]. done.
    + destruct (temporary_directories ctx) as [ds|] eqn:Et.
      * injection Hm as <-. apply list_elem_of_In, in_map_iff in Hx as (d & <- & _). done.
      * case_match; [done|]. injection Hm as <-. apply list_elem_of_singleton in Hx as ->. rewrite Ep. simpl. by rewrite Et.
    + unfold materialize_cwd_dependent_entry in Hm. rewrite Ep in Hm. injection Hm as <-.
      apply list_elem_of_singleton in Hx as ->. rewrite Ep. simpl. by case_bool_decide.
    + unfold materialize_cwd_dependent_entry in Hm. rewrite Ep in Hm. injection Hm as <-.
      apply list_elem_of_singleton in Hx as ->. by rewrite Ep.
Qed.

Lemma materialized_single es ctx l x :
  materialize_context_dependent_entries es ctx = Some l -> x ∈ l -> single_root ctx (entry_path x).
Proof.
  revert l. induction es as [|e es IH]; simpl; intros l; [intros [= <-]; set_solver|].
  destruct (materialize_entry e ctx) as [a|] eqn:E; [|done].
  destruct (materialize_context_dependent_entries es ctx) as [b|]; [|done]. intros [= <-] [Hx|Hx]%elem_of_app.
  - by eapply materialize_entry_single.
  - by eapply IH.
Qed.

Lemma with_depths_comparable roots es :
  with_depths roots = Some es ->
  forall root access, (root, access) ∈ roots -> lexical_depth root <> None \/ is_opaque root = true.
Proof.
  revert es. induction roots as [|[r a] roots IH]; simpl; intros es; [set_solver|].
  destruct (lexical_depth r) as [d|] eqn:D.
  - destruct (with_depths roots) as [l|]; [|done]. intros _ root access [[= -> ->]|Hin]%elem_of_cons; [left; congruence|by eapply IH].
  - destruct (is_opaque r) eqn:O; [|done]. intros H root access [[= -> ->]|Hin]%elem_of_cons; [by right|by eapply IH].
Qed.

(** An access that is not denied comes from a deciding entry. *)
Lemma accessible_decides p path ctx :
  fs_kind p = Restricted -> resolve_access p path ctx <> DenyAccess ->
  in_context ctx path = true /\ comparable p ctx /\ decides p ctx path (resolve_access p path ctx).
Proof.
  intros Hk Hne. assert (in_context ctx path = true) as Hin.
  { apply not_false_iff_true. intros E. apply Hne. unfold resolve_access. by rewrite Hk, E. }
  assert (comparable p ctx) as Hcmp.
  { destruct (with_depths (resolved_entries p ctx)) as [es|] eqn:E; [exact (with_depths_comparable _ _ E)|].
    destruct Hne. unfold resolve_access. by rewrite Hk, Hin, E. }
  split_and!; [done..|]. destruct (resolve_access_spec p path ctx Hk Hin Hcmp) as [?|[? _]]; done.
Qed.

(** The parts of a file-system intersection. *)
Record intersection (requested granted : FileSystemPermissions) (ctx : PolicyContext) (f : FileSystemPermissions)
    (res ges accepted : list FileSystemSandboxEntry) : Prop := {
  in_requested : materialize_context_dependent_entries (perm_entries requested) ctx = Some res;
  in_granted : materialize_context_dependent_entries (perm_entries granted) ctx = Some ges;
  in_accepted : forall e, e ∈ accepted -> e ∈ ges /\
    granted_file_system_entry_within_request requested (restricted res) (matcher_from_context (restricted res) ctx) e ctx = true;
  in_origin : forall e, e ∈ perm_entries f -> e ∈ accepted \/ (entry_access e = DenyAccess /\ e ∈ res ++ ges);
  in_retained : forall e, e ∈ res ++ ges -> entry_access e = DenyAccess -> deny_entry_constrains_accepted_grant e accepted ctx = true ->
    exists e', e' ∈ perm_entries f /\ entry_eqb e' e = true }.

Lemma retain_spec source accepted ctx output :
  let r := retain_constraining_deny_entries source accepted ctx output in
  (forall e, e ∈ output -> e ∈ snd r) /\
  (forall e, e ∈ snd r -> e ∈ output \/ (entry_access e = DenyAccess /\ e ∈ source)) /\
  (forall e, e ∈ source -> entry_access e = DenyAccess -> deny_entry_constrains_accepted_grant e accepted ctx = true ->
     exists e', e' ∈ snd r /\ entry_eqb e' e = true).
Proof.
  unfold retain_constraining_deny_entries. cbn [snd]. split_and!.
  - intros e He. by apply append_missing_old.
  - intros e [?|He]%append_missing_inv; [by left|right]. apply list_elem_of_In, filter_In in He as [Hin Hc].
    apply andb_true_iff in Hc as [Hd _]. destruct (entry_access e); try done. by rewrite list_elem_of_In.
  - intros e Hin Hd Hc. apply append_missing_new, list_elem_of_In, filter_In. rewrite Hd, Hc. by rewrite <- list_elem_of_In.
Qed.

Lemma intersect_file_systems_parts requested granted ctx f :
  intersect_file_systems requested granted ctx = Some f ->
  exists res ges accepted, intersection requested granted ctx f res ges accepted.
Proof.
  unfold intersect_file_systems. destruct (materialize_context_dependent_entries (perm_entries requested) ctx) as [res|] eqn:Er; [|done].
  destruct (materialize_context_dependent_entries (perm_entries granted) ctx) as [ges|] eqn:Eg; [|done]. cbv zeta.
  set (accepted := append_missing [] _).
  pose proof (retain_spec res accepted ctx accepted) as (A1 & A2 & A3).
  destruct (retain_constraining_deny_entries res accepted ctx accepted) as [rr es]. cbn [snd] in *.
  pose proof (retain_spec ges accepted ctx es) as (B1 & B2 & B3).
  destruct (retain_constraining_deny_entries ges accepted ctx es) as [gr es']. cbn [snd] in *.
  intros [= <-]. exists res, ges, accepted. split; simpl; [done..| | |].
  - intros e [He|He]%append_missing_inv; [set_solver|]. apply list_elem_of_In, filter_In in He. by rewrite list_elem_of_In.
  - intros e [[?|[? ?]]%A2|[? ?]]%B2; [by left|right; set_solver..].
  - intros e [He|He]%elem_of_app Hd Hc; [|by apply B3]. destruct (A3 e He Hd Hc) as (e' & He' & Heq). exists e'. split; [by apply B1|done].
Qed.

(** An entry that grants access: its root is accessible in the request. *)
Lemma accepted_root requested granted ctx f res ges accepted e root :
  intersection requested granted ctx f res ges accepted -> e ∈ accepted -> root ∈ entry_roots ctx (entry_path e) ->
  resolve_permission_path (entry_path e) ctx = Some root /\
  access_covers (resolve_access (restricted res) root ctx) (entry_access e) = true.
Proof.
  intros HI He Hr. destruct (in_accepted _ _ _ _ _ _ _ HI e He) as [Hg Hw].
  rewrite (materialized_single _ _ _ _ (in_granted _ _ _ _ _ _ _ HI) Hg) in Hr.
  destruct (resolve_permission_path (entry_path e) ctx) as [r|] eqn:E; simpl in Hr; [|set_solver].
  apply list_elem_of_singleton in Hr as ->. split; [done|]. unfold granted_file_system_entry_within_request in Hw. rewrite E in Hw.
  by repeat (case_match; try done).
Qed.

(** A denial of the request inside the root of an accepted grant is kept. *)
Lemma inner_denial_kept requested granted ctx f res ges accepted e root drg d rd drd :
  intersection requested granted ctx f res ges accepted ->
  e ∈ accepted -> can_read (entry_access e) = true -> resolve_permission_path (entry_path e) ctx = Some root ->
  d ∈ res -> entry_access d = DenyAccess -> rd ∈ entry_roots ctx (entry_path d) ->
  lexical_depth root = Some drg -> lexical_depth rd = Some drd -> uri_starts_with rd root = true ->
  exists d' rd', d' ∈ perm_entries f /\ entry_access d' = DenyAccess /\ rd' ∈ entry_roots ctx (entry_path d') /\ same_key rd' rd.
Proof.
  intros HI He Hread Hroot Hd Hdeny Hrd Dr Drd Hsw.
  pose proof Hrd as Hrd'. rewrite (materialized_single _ _ _ _ (in_requested _ _ _ _ _ _ _ HI) Hd) in Hrd'.
  destruct (in_retained _ _ _ _ _ _ _ HI d) as (d' & Hd' & Heq); [set_solver|done| |].
  - apply existsb_exists. exists e. split; [by apply list_elem_of_In|]. rewrite Hread, Hroot. simpl.
    destruct (resolve_permission_path (entry_path d) ctx) as [r|] eqn:E; simpl in Hrd'; [|set_solver].
    apply list_elem_of_singleton in Hrd' as ->.
    assert (paths_overlap r root = true) as Hov.
    { unfold paths_overlap, overlaps. destruct (uri_eqb r root); [done|]. by rewrite Dr, Drd, Hsw. }
    destruct (entry_path d); simpl in Hrd |- *; rewrite ?Hov; [by rewrite orb_true_r|set_solver|by rewrite orb_true_r].
  - apply entry_eqb_spec in Heq as (Ha & _ & Hp). destruct (same_path_roots ctx _ _ _ Hp Hrd) as (rd' & Hrd2 & Hs).
    exists d', rd'. split_and!; try done. congruence.
Qed.

(** A read-only entry inside a writable one: what the intersection does not keep. *)
Definition narrows_inside (p : FileSystemSandboxPolicy) (ctx : PolicyContext) : Prop :=
  exists r w, (r, ReadAccess) ∈ resolved_entries p ctx /\ (w, WriteAccess) ∈ resolved_entries p ctx /\
    uri_starts_with r w = true /\ uri_starts_with w r = false.

(** The deciding entry of the request at a path below an accepted root is the one
    at that root, or lies strictly inside it. *)
Lemma request_at_root_or_inside p ctx path rg drg :
  fs_kind p = Restricted -> in_context ctx path = true ->
  resolve_access p rg ctx <> DenyAccess -> lexical_depth rg = Some drg -> uri_starts_with path rg = true ->
  resolve_access p path ctx = resolve_access p rg ctx \/
  exists rd dd rb, covers p ctx path rd (resolve_access p path ctx) dd /\ drg < dd /\ uri_starts_with rd rg = true /\
    (rb, resolve_access p rg ctx) ∈ resolved_entries p ctx /\ uri_starts_with rg rb = true /\ (exists db, lexical_depth rb = Some db /\ db <= drg).
Proof.
  intros Hk Hin Hne Drg Hs. destruct (accessible_decides _ _ _ Hk Hne) as (_ & Hcmp & (rb & db & Hb & Hmaxb)).
  pose proof Hb as (Hbin & Dbd & Hbs). assert (covers p ctx path rb (resolve_access p rg ctx) db) as Hbp.
  { split_and!; [done..|]. by eapply sw_trans. }
  destruct (resolve_access_spec p path ctx Hk Hin Hcmp) as [(rd & dd & Hd & Hmaxd)|[_ H]]; [|by destruct (H _ _ _ Hbp)].
  pose proof Hd as (Hdin & Ddd & Hds). destruct (Nat.le_gt_cases dd drg) as [Hle|Hgt].
  - left. pose proof (sw_linear _ _ _ _ _ Hds Hs Ddd Drg Hle) as Hsw.
    assert (covers p ctx rg rd (resolve_access p path ctx) dd) as Hdr by done.
    pose proof (Hmaxb _ _ _ Hdr). pose proof (Hmaxd _ _ _ Hbp).
    assert (access_rank (resolve_access p path ctx) = access_rank (resolve_access p rg ctx)) as E by lia.
    by destruct (resolve_access p path ctx), (resolve_access p rg ctx).
  - right. exists rd, dd, rb. split_and!; try done; [eapply (sw_linear path rg rd); [done..|lia]|].
    destruct (sw_depth _ _ _ Hbs Drg) as (x & Hx & ?). exists db. split; [done|]. rewrite Dbd in Hx. simplify_eq. lia.
Qed.

(** A deny glob matches [path], or cannot be used and denies everything. *)
Definition glob_denies (ctx : PolicyContext) (path : PathUri) (pattern : str) : Prop :=
  match deny_read_glob ctx pattern, infer_path_convention (cwd ctx) with
  | Ok text, Some c => match build_glob_matcher text c with
                       | Some m => glob_is_match m (glob_candidate c path) = true
                       | None => True
                       end
  | _, _ => True
  end.

(** Denials by entry and by glob together. *)
Definition readable (p : FileSystemSandboxPolicy) (ctx : PolicyContext) (path : PathUri) : bool :=
  can_read (resolve_access p path ctx) && negb (is_read_denied p ctx path).

(** The globs of the request match [path] only below the text before their first
    wildcard, as a glob without alternatives and escapes does. *)
Definition globs_match_below (ctx : PolicyContext) (res : list FileSystemSandboxEntry) (path : PathUri) : Prop :=
  forall pattern prefix, pattern ∈ deny_patterns (restricted res) -> glob_denies ctx path pattern ->
    glob_static_prefix_path pattern ctx = Some prefix -> uri_starts_with path prefix = true.

Lemma overlap_above path a b da : uri_starts_with path a = true -> uri_starts_with path b = true -> lexical_depth path = Some da ->
  paths_overlap a b = true.
Proof.
  intros Ha Hb Dp. destruct (sw_depth _ _ _ Ha Dp) as (x & Dx & _), (sw_depth _ _ _ Hb Dp) as (y & Dy & _).
  unfold paths_overlap, overlaps. destruct (uri_eqb a b); [done|]. rewrite Dx, Dy. simpl. apply orb_true_iff.
  destruct (Nat.le_gt_cases x y); [right; by eapply (sw_linear path a b)|left; eapply (sw_linear path b a); [done..|lia]].
Qed.

(** The matcher of the request does not deny the root of an accepted entry. *)
Lemma accepted_root_readable requested granted ctx f res ges accepted e root :
  intersection requested granted ctx f res ges accepted -> e ∈ accepted -> resolve_permission_path (entry_path e) ctx = Some root ->
  can_read (entry_access e) = true /\ is_read_denied (restricted res) ctx root = false.
Proof.
  intros HI He Hr. destruct (in_accepted _ _ _ _ _ _ _ HI e He) as [_ Hw].
  unfold granted_file_system_entry_within_request in Hw. rewrite Hr in Hw. fold (is_read_denied (restricted res) ctx root) in Hw.
  destruct (can_read (entry_access e)); [|done]. split; [done|]. destruct (is_read_denied (restricted res) ctx root); [|done].
  rewrite orb_true_r in Hw. by repeat (case_match; try done).
Qed.

(** A denial of the request, by entry or by glob, that reaches a path below an
    accepted root is one of the result. *)
Lemma denial_reaches_result requested granted ctx f res ges accepted e root path :
  intersection requested granted ctx f res ges accepted -> e ∈ accepted -> resolve_permission_path (entry_path e) ctx = Some root ->
  in_context ctx path = true -> uri_starts_with path root = true -> globs_match_below ctx res path ->
  is_read_denied (restricted res) ctx path = true -> is_read_denied (restricted (perm_entries f)) ctx path = true.
Proof.
  intros HI He Hroot Hin Hs Hg Hd. destruct (accepted_root_readable _ _ _ _ _ _ _ _ _ HI He Hroot) as [Hread Hopen].
  apply not_true_iff_false in Hopen. rewrite is_read_denied_spec in Hopen. apply is_read_denied_spec in Hd as [Hne Hd].
  assert (exists dp, lexical_depth path = Some dp) as [dp Dp].
  { unfold in_context in Hin. destruct (infer_path_convention (cwd ctx)); [|done]. bool_to_prop. destruct (lexical_depth path); [eauto|done]. }
  destruct (sw_depth _ _ _ Hs Dp) as (drg & Dr & _). apply is_read_denied_spec.
  destruct Hd as [?|[(r & Hr & Hsr)|(pat & Hp & Hm)]]; [congruence|..].
  - destruct (sw_depth _ _ _ Hsr Dp) as (dr & Drr & _).
    destruct (Nat.le_gt_cases dr drg) as [Hle|Hgt].
    { destruct Hopen. split; [done|]. right; left. exists r. split; [done|]. by eapply (sw_linear path r root). }
    apply prepared_roots_in in Hr as [Hr Hplace]. apply resolved_entries_in in Hr as (d & Hdin & Hda & Hdr & Hconv).
    destruct (inner_denial_kept _ _ _ _ _ _ _ e root drg d r dr HI He Hread Hroot Hdin Hda Hdr Dr Drr) as (d' & r' & Hd' & Hda' & Hr' & Hsame).
    { eapply (sw_linear path root r); [done..|lia]. }
    assert (d' ∈ deny_entries (restricted (perm_entries f))) as Hin' by (by apply deny_entries_in).
    split; [intros E; rewrite E in Hin'; by apply not_elem_of_nil in Hin'|]. right; left. exists r'. split.
    + apply prepared_roots_in. split; [|by rewrite (same_key_place _ _ _ Hsame)]. apply resolved_entries_in. exists d'.
      split_and!; try done. by rewrite (same_key_convention _ _ Hsame).
    + eapply same_key_sw; [by apply same_key_sym|done].
  - assert (exists d, d ∈ deny_entries (restricted res) /\ entry_path d = GlobPattern pat) as (d & [Hdin Hda]%deny_entries_in & Hdp).
    { unfold deny_patterns in Hp. apply list_elem_of_omap in Hp as (d & Hd & Hdp). exists d. split; [done|].
      destruct (entry_path d); by simplify_eq. }
    destruct (in_retained _ _ _ _ _ _ _ HI d) as (d' & Hd' & Heq); [set_solver|done| |].
    + apply existsb_exists. exists e. split; [by apply list_elem_of_In|]. rewrite Hread, Hroot, Hdp. simpl. apply orb_true_iff. right.
      destruct (glob_static_prefix_path pat ctx) as [prefix|] eqn:Eg; [|done]. simpl. eapply overlap_above; [|done..]. by eapply Hg.
    + apply entry_eqb_spec in Heq as (Ha & _ & Hpath). rewrite Hdp in Hpath.
      assert (d' ∈ deny_entries (restricted (perm_entries f))) as Hin' by (apply deny_entries_in; split; [done|congruence]).
      split; [intros E; rewrite E in Hin'; by apply not_elem_of_nil in Hin'|]. right; right. exists pat. split; [|done].
      unfold deny_patterns. apply list_elem_of_omap. exists d'. split; [done|]. destruct (entry_path d'); by simplify_eq/=.
Qed.

(** C39. What is granted is limited to what was requested: a path that the entries
    of the intersection let a command read is one the entries of the request let it
    read, and likewise for writing unless the request has a read-only entry inside a
    writable one; a path that the intersection lets it read when deny globs count too
    is one the request lets it read when they do, provided the globs of the request
    match only below the text before their first wildcard ([brace_denial_is_lost]
    shows a glob with alternatives); and network access is given exactly when both
    sides ask for it. *)
Theorem intersection_within_request requested granted ctx rf res path :
  add_file_system requested = Some rf ->
  materialize_context_dependent_entries (perm_entries rf) ctx = Some res ->
  let result := intersect_permission_profiles_with_context requested granted ctx in
  let given f := resolve_access (restricted (perm_entries f)) path ctx in
  (forall f, add_file_system result = Some f ->
     (can_read (given f) = true -> can_read (resolve_access (restricted res) path ctx) = true) /\
     (can_write (given f) = true -> ~ narrows_inside (restricted res) ctx ->
        can_write (resolve_access (restricted res) path ctx) = true) /\
     (globs_match_below ctx res path -> readable (restricted (perm_entries f)) ctx path = true ->
        readable (restricted res) ctx path = true)) /\
  (enables_network (add_network result) = enables_network (add_network requested) && enables_network (add_network granted)).
Proof.
  intros Hrf Hres result given. split; [|unfold result, intersect_permission_profiles_with_context; simpl; by destruct (_ && _)].
  intros f Hf. unfold result, intersect_permission_profiles_with_context in Hf. simpl in Hf. rewrite Hrf in Hf.
  destruct (intersect_file_systems _ _ ctx) as [f'|] eqn:Ei; [|done]. simpl in Hf. case_match; [|done]. injection Hf as ->.
  apply intersect_file_systems_parts in Ei as (res' & ges & accepted & HI).
  pose proof (in_requested _ _ _ _ _ _ _ HI) as Hres'. rewrite Hres in Hres'. injection Hres' as <-.
  assert (given f <> DenyAccess -> access_covers (resolve_access (restricted res) path ctx) ReadAccess = true /\
    (given f = WriteAccess -> ~ narrows_inside (restricted res) ctx -> resolve_access (restricted res) path ctx = WriteAccess)) as Hmain.
  2: { assert (can_read (given f) = true -> can_read (resolve_access (restricted res) path ctx) = true) as Hrd
         by (intros Hc; destruct (given f); try done; by destruct Hmain as [H1 H2]).
       split_and!; [done|intros Hc Hn; destruct (given f); try done; destruct Hmain as [H1 H2]; [done|by rewrite H2]|].
       unfold readable. fold (given f). intros Hg [Hc Hopen%negb_true_iff]%andb_true_iff. rewrite Hrd by done. simpl.
       apply negb_true_iff, not_true_iff_false. intros Hd.
       destruct (accessible_decides (restricted (perm_entries f)) path ctx eq_refl) as (Hin & _ & (rg & dg & (Hgin & Dg & Hgs) & Hmax));
         [fold (given f); by destruct (given f)|].
       apply resolved_entries_in in Hgin as (e & He & Ha & Hr & _). simpl in He. fold (given f) in Ha.
       destruct (in_origin _ _ _ _ _ _ _ HI e He) as [Hacc|[Hd' _]]; [|rewrite <- Ha, Hd' in Hc; done].
       destruct (accepted_root _ _ _ _ _ _ _ _ _ HI Hacc Hr) as [Hpath _].
       by rewrite (denial_reaches_result _ _ _ _ _ _ _ e rg path HI Hacc Hpath Hin Hgs Hg Hd) in Hopen. }
  intros Hne. destruct (accessible_decides (restricted (perm_entries f)) path ctx eq_refl Hne) as (Hin & _ & (rg & dg & Hg & Hmax)).
  fold (given f) in Hg, Hmax. pose proof Hg as (Hgin & Dg & Hgs).
  apply resolved_entries_in in Hgin as (e & He & Ha & Hr & _). simpl in He.
  destruct (in_origin _ _ _ _ _ _ _ HI e He) as [Hacc|[Hd _]]; [|congruence].
  destruct (accepted_root _ _ _ _ _ _ _ _ _ HI Hacc Hr) as [Hpath Hcov].
  assert (resolve_access (restricted res) rg ctx <> DenyAccess) as Hne2.
  { intros E. rewrite E in Hcov. by destruct (entry_access e). }
  destruct (request_at_root_or_inside (restricted res) ctx path rg dg eq_refl Hin Hne2 Dg Hgs)
    as [->|(rd & dd & rb & (Hdin & Ddd & Hds) & Hlt & Hinside & Hb & Hbs & db & Ddb & Hdb)].
  - rewrite Ha in Hcov. split; [by destruct (resolve_access (restricted res) rg ctx)|].
    intros Hw _. rewrite Hw in Hcov. by destruct (resolve_access (restricted res) rg ctx).
  - assert (resolve_access (restricted res) path ctx <> DenyAccess) as Hnd.
    { intros E. rewrite E in Hdin. apply resolved_entries_in in Hdin as (d & Hd & Hda & Hdr & Hconv).
      destruct (inner_denial_kept _ _ _ _ _ _ _ e rg dg d rd dd HI Hacc) as (d' & rd' & Hd' & Hda' & Hrd' & Hsame); try done.
      { rewrite Ha. by destruct (given f). }
      destruct (Hmax rd' DenyAccess dd) as [?|[? _]]; [|lia..]. split_and!.
      - apply resolved_entries_in. exists d'. split_and!; try done. by rewrite (same_key_convention _ _ Hsame).
      - by rewrite (same_key_depth _ _ Hsame).
      - eapply same_key_sw; [by apply same_key_sym|done]. }
    split; [by destruct (resolve_access (restricted res) path ctx)|]. intros Hw Hn.
    destruct (resolve_access (restricted res) path ctx) eqn:E; try done. destruct Hn. exists rd, rb. rewrite Ha, Hw in Hcov.
    destruct (resolve_access (restricted res) rg ctx); try done. split_and!; [done|done|by eapply sw_trans|].
    apply not_true_iff_false. intros Hback. destruct (sw_depth _ _ _ Hback Ddb) as (x & Hx & ?). rewrite Ddd in Hx. simplify_eq. lia.
Qed.
End Within.

(** ** Additional permissions on top of a policy *)

Section Effective.
  Context {UO : UrlOps} {GS : GlobSet}.

Notation merged := merge_file_system_policy_with_additional_permissions.

Lemma merged_covers p f ctx path access depth :
  fs_kind p = Restricted ->
  (exists root, covers (merged p f) ctx path root access depth) <->
  (exists root, covers p ctx path root access depth) \/ (exists root, covers (restricted (perm_entries f)) ctx path root access depth).
Proof.
  intros Hk. assert (entries (merged p f) = append_missing (entries p) (perm_entries f)) as He
    by (unfold merge_file_system_policy_with_additional_permissions; by rewrite Hk).
  unfold covers. setoid_rewrite resolved_entries_in. rewrite He. split.
  - intros (root & (e & [Hin|Hin]%append_missing_inv & Ha & Hr & Hc) & Hd & Hs); [left|right]; exists root; (split_and!; [|done..]); by exists e.
  - intros [(root & (e & Hin & Ha & Hr & Hc) & Hd & Hs)|(root & (e & Hin & Ha & Hr & Hc) & Hd & Hs)].
    + exists root. split_and!; [|done..]. exists e. split_and!; [by apply append_missing_old|done..].
    + destruct (append_missing_new (entries p) (perm_entries f) e Hin) as (e' & Hin' & Heq).
      apply entry_eqb_spec in Heq as (Ha' & _ & Hp). destruct (same_path_roots ctx _ _ _ Hp Hr) as (root' & Hr' & Hsame).
      exists root'. split_and!; [|by rewrite (same_key_depth _ _ Hsame)|eapply same_key_sw; [by apply same_key_sym|done]].
      exists e'. split_and!; [done|congruence|done|by rewrite (same_key_convention _ _ Hsame)].
Qed.

Lemma merged_comparable p f ctx :
  fs_kind p = Restricted -> comparable p ctx -> comparable (restricted (perm_entries f)) ctx -> comparable (merged p f) ctx.
Proof.
  intros Hk Hp Hf root access Hin. unfold merge_file_system_policy_with_additional_permissions in Hin. rewrite Hk in Hin.
  apply resolved_entries_in in Hin as (e & [He|He]%append_missing_inv & Ha & Hr & Hc); [apply (Hp root access)|apply (Hf root access)];
    apply resolved_entries_in; by exists e.
Qed.

(** Additional permissions change only what they name: every path keeps its
    access or gets the one the additional entries give it, the latter only if one
    of them is above it; and nothing that was denied to readers becomes readable to
    them through the merged list of denials. *)
Theorem additional_permissions_effect p f ctx path :
  fs_kind p = Restricted -> in_context ctx path = true -> comparable p ctx -> comparable (restricted (perm_entries f)) ctx ->
  (resolve_access (merged p f) path ctx = resolve_access p path ctx \/
   resolve_access (merged p f) path ctx = resolve_access (restricted (perm_entries f)) path ctx /\
   exists root access depth, covers (restricted (perm_entries f)) ctx path root access depth) /\
  (is_read_denied p ctx path = true -> is_read_denied (merged p f) ctx path = true).
Proof.
  intros Hk Hin Hp Hf. assert (fs_kind (merged p f) = Restricted) as Hkm
    by (unfold merge_file_system_policy_with_additional_permissions; by rewrite Hk).
  split.
  - destruct (resolve_access_spec (merged p f) path ctx Hkm Hin (merged_comparable _ _ _ Hk Hp Hf)) as [(root & depth & Hc & Hmax)|[-> Hnone]].
    + assert (exists r, covers (merged p f) ctx path r (resolve_access (merged p f) path ctx) depth) as Hex by eauto.
      apply (merged_covers p f ctx path _ _ Hk) in Hex as [[r Hr]|[r Hr]]; [left|right].
      * symmetry. apply decides_resolves; try done. exists r, depth. split; [done|]. intros r' a d Hd.
        destruct (proj2 (merged_covers p f ctx path a d Hk)) as [x Hx]; [eauto|]. by eapply Hmax.
      * split; [|eauto]. symmetry. apply decides_resolves; try done. exists r, depth. split; [done|]. intros r' a d Hd.
        destruct (proj2 (merged_covers p f ctx path a d Hk)) as [x Hx]; [eauto|]. by eapply Hmax.
    + left. destruct (resolve_access_spec p path ctx Hk Hin Hp) as [(r & d & Hr & _)|[-> _]]; [|done].
      destruct (proj2 (merged_covers p f ctx path (resolve_access p path ctx) d Hk)) as [x Hx]; [eauto|]. by destruct (Hnone _ _ _ Hx).
  - apply more_denials_deny_more. intros e [He Hd]%deny_entries_in. exists e. split; [|apply entry_eqb_refl].
    apply deny_entries_in. split; [|done]. unfold merge_file_system_policy_with_additional_permissions. rewrite Hk. by apply append_missing_old.
Qed.
End Effective.

(** ** Examples *)

Definition ask (es : list FileSystemSandboxEntry) : AdditionalPermissionProfile :=
  mkAdditional None (Some (mkFsPermissions es None)).

Definition write_here : FileSystemSandboxEntry := new_entry (Special (ProjectRoots None)) WriteAccess.
Definition deny_secret : FileSystemSandboxEntry := new_entry (PathEntry (under [lit "secret"])) DenyAccess.
Definition read_docs : FileSystemSandboxEntry := new_entry (PathEntry (under [lit "docs"])) ReadAccess.

Definition deny_keys : FileSystemSandboxEntry := new_entry (GlobPattern (lit "*.key")) DenyAccess.

(** The request in its context: the glob is made absolute. *)
Definition placed_request : list FileSystemSandboxEntry :=
  [new_entry (PathEntry here) WriteAccess; deny_secret; new_entry (GlobPattern (lit "/w/*.key")) DenyAccess].

Lemma intersection_within_request_witness :
  exists f, add_file_system (intersect_permission_profiles_with_context (ask [write_here; deny_secret; deny_keys]) (ask [write_here]) demo_context) = Some f
    /\ perm_entries f = placed_request
    /\ can_write (resolve_access (restricted placed_request) (under [lit "src"]) demo_context) = true
    /\ readable (restricted placed_request) demo_context (under [lit "src"]) = true.
Proof.
  eexists. split; [vm_compute; reflexivity|]. split; [reflexivity|].
  edestruct (intersection_within_request (ask [write_here; deny_secret; deny_keys]) (ask [write_here]) demo_context
    (mkFsPermissions [write_here; deny_secret; deny_keys] None) placed_request (under [lit "src"])) as [H _]; [reflexivity|vm_compute; reflexivity|].
  edestruct H as (_ & Hw & Hr); [vm_compute; reflexivity|]. split.
  - apply Hw; [vm_compute; reflexivity|]. intros (r & w & Hin & _). apply list_elem_of_In in Hin. vm_compute in Hin. destruct Hin as [[=]|[[=]|[]]].
  - apply Hr; [|vm_compute; reflexivity]. intros pattern prefix Hp Hg _. apply list_elem_of_In in Hp. vm_compute in Hp.
    destruct Hp as [<-|[]]. exfalso. vm_compute in Hg. discriminate Hg.
Defined.

(** A glob with alternatives, as the matcher understands them: [/w/{a,b}/secret]
    stands for two files. *)
Definition braces : str := lit "/w/{a,b}/secret".
Definition brace_globs : GlobSet :=
  {| GlobMatcher := str;
     build_glob pattern _ := Some pattern;
     glob_is_match m bytes :=
       if str_eqb m braces then bool_decide (bytes ∈ List.map encode [lit "/w/a/secret"; lit "/w/b/secret"]) else bool_decide (encode m = bytes) |}.

(** The alternatives count as part of the text before the first wildcard, so the
    denial seems to be apart from a grant of [/w/a] and is dropped: the command may
    read the file the request denies. *)
Example brace_denial_is_lost :
  let requested := ask [write_here; new_entry (GlobPattern braces) DenyAccess] in
  let granted := ask [new_entry (PathEntry (under [lit "a"])) WriteAccess] in
  let path := under [lit "a"; lit "secret"] in
  readable (GS := brace_globs) (restricted [new_entry (PathEntry here) WriteAccess; new_entry (GlobPattern braces) DenyAccess]) demo_context path = false
  /\ option_map (fun f => readable (GS := brace_globs) (restricted (perm_entries f)) demo_context path)
       (add_file_system (intersect_permission_profiles_with_context (GS := brace_globs) requested granted demo_context)) = Some true.
Proof. vm_compute. split; reflexivity. Qed.

(** A read-only entry of the request inside a writable one is lost: the result
    lets the command write what it asked only to read. *)
Theorem intersection_loses_read_only_part :
  let requested := [write_here; read_docs] in
  let path := under [lit "docs"; lit "x"] in
  option_map (fun f => resolve_access (restricted (perm_entries f)) path demo_context)
    (add_file_system (intersect_permission_profiles_with_context (ask requested) (ask requested) demo_context)) = Some ReadAccess /\
  option_map (fun f => resolve_access (restricted (perm_entries f)) path demo_context)
    (add_file_system (intersect_permission_profiles_with_context (ask requested) (ask [write_here]) demo_context)) = Some WriteAccess.
Proof. by vm_compute. Qed.

Lemma additional_permissions_effect_witness :
  let f := mkFsPermissions [new_entry (PathEntry (posix_uri [lit "opt"])) WriteAccess] None in
  is_read_denied (merge_file_system_policy_with_additional_permissions demo_policy f) demo_context (under [lit "secret"; lit "x"]) = true.
Proof.
  intros f. apply (additional_permissions_effect demo_policy f demo_context); try reflexivity; apply comparable_dec; reflexivity.
Defined.
