(* ===== verification/Orchestrator.v ===== *)
(** * Running a tool: approval, sandbox, attempt, retry

    Models [core/src/tools/orchestrator.rs], the helpers of
    [core/src/tools/sandboxing.rs] it calls, and the choice of a sandbox in
    [sandboxing/src/manager.rs].  The reviewer of approvals, the tool itself and the
    managed network are a world that changes with every call and answers as it
    likes, the class [ToolWorld]; what the orchestrator does is the list of events:
    the questions it asked and the attempts it made, with their answers.

    Telemetry is left out, and so are the fields of contexts and attempts that are
    only passed through (ids, handles, cancellation). *)

From stdpp Require Import base list numbers option strings sets.
From Stdlib Require Import Lia.
From S2P Require Import Prelude RustStr UriPath Permissions PermissionTarget ExecApproval PolicyTransforms.

(** ** Sandboxes ([protocol/src/sandbox.rs], [sandboxing/src/manager.rs]) *)

Inductive SandboxType := NoSandbox | MacosSeatbelt | LinuxSeccomp | WindowsRestrictedToken | WindowsMxc.
#[export] Instance SandboxType_eq_dec : EqDecision SandboxType.
Proof. solve_decision. Defined.

Inductive SandboxablePreference := PreferAuto | PreferRequire | PreferForbid.

(** The platform the program is built for. *)
Inductive TargetOs := Macos | Linux | WindowsOs | OtherOs.

Definition is_windows_os (os : TargetOs) : bool := match os with WindowsOs => true | _ => false end.
Definition native (os : TargetOs) : PathConvention := native_convention (is_windows_os os).

Definition effective_windows_sandbox_type (sandbox_type : SandboxType) (level : WindowsSandboxLevel) : SandboxType :=
  match sandbox_type, level with
  | WindowsMxc, _ => WindowsMxc
  | _, LevelDisabled => NoSandbox
  | _, (RestrictedToken | Elevated) => WindowsRestrictedToken
  end.

Definition get_platform_sandbox (os : TargetOs) (windows_sandbox_enabled : bool) : option SandboxType :=
  match os with
  | Macos => Some MacosSeatbelt
  | Linux => Some LinuxSeccomp
  | WindowsOs => if windows_sandbox_enabled then Some WindowsRestrictedToken else None
  | OtherOs => None
  end.

Definition should_sandbox (os : TargetOs) (profile : PermissionProfile) (pref : SandboxablePreference)
    (has_managed_network_requirements : bool) : bool :=
  match pref with
  | PreferForbid => false
  | PreferRequire => true
  | PreferAuto =>
      should_require_platform_sandbox (native os) (file_system_sandbox_policy profile) (profile_network profile)
        has_managed_network_requirements
  end.

Definition select_initial (os : TargetOs) (profile : PermissionProfile) (pref : SandboxablePreference)
    (windows_sandbox_type : SandboxType) (has_managed_network_requirements : bool) : SandboxType :=
  if negb (should_sandbox os profile pref has_managed_network_requirements) then NoSandbox
  else if is_windows_os os && bool_decide (windows_sandbox_type = WindowsMxc) then WindowsMxc
  else unwrap_or (get_platform_sandbox os (negb (bool_decide (windows_sandbox_type = NoSandbox)))) NoSandbox.

(** ** Helpers of [sandboxing.rs] *)

Definition default_exec_approval_requirement (policy : AskForApproval) (fs : FileSystemSandboxPolicy) : ExecApprovalRequirement :=
  let needs_approval :=
    match policy with
    | Never => false
    | OnRequest | Granular _ => is_restricted (fs_kind fs)
    | UnlessTrusted => true
    end in
  if needs_approval && match policy with Granular config => negb (sandbox_approval config) | _ => false end
  then ForbiddenReq (lit "approval policy disallowed sandbox approval prompt")
  else if needs_approval then NeedsApproval None None
  else Skip false None.

Inductive SandboxOverride := NoOverride | EscalatedSandboxWithRestrictions | BypassSandboxFirstAttempt.
#[export] Instance SandboxOverride_eq_dec : EqDecision SandboxOverride.
Proof. solve_decision. Defined.

Definition requires_escalated_permissions (s : SandboxPermissions) : bool :=
  match s with RequireEscalated => true | _ => false end.

Definition unsandboxed_execution_allowed (os : TargetOs) (fs : FileSystemSandboxPolicy) : bool :=
  negb (has_denied_read_restrictions_for_convention fs (Some (native os))).

Definition sandbox_override_for_first_attempt (os : TargetOs) (permissions : SandboxPermissions)
    (requirement : ExecApprovalRequirement) (fs : FileSystemSandboxPolicy) (already_approved : bool) : SandboxOverride :=
  if negb (unsandboxed_execution_allowed os fs) then
    if requires_escalated_permissions permissions && already_approved then EscalatedSandboxWithRestrictions else NoOverride
  else
    match requirement with
    | Skip true _ => BypassSandboxFirstAttempt
    | _ => if requires_escalated_permissions permissions then BypassSandboxFirstAttempt else NoOverride
    end.

(** The defaults of the trait [Approvable]. *)
Definition default_should_bypass_approval (policy : AskForApproval) (already_approved : bool) : bool :=
  if already_approved then true else match policy with Never => true | _ => false end.

Definition default_wants_no_sandbox_approval (policy : AskForApproval) : bool :=
  match policy with
  | UnlessTrusted => true
  | Never | OnRequest => false
  | Granular config => sandbox_approval config
  end.

(** ** Denials of the managed network *)

Inductive NetworkPolicyDecision := DecisionDeny | DecisionAsk.
Inductive NetworkDecisionSource := BaselinePolicy | ModeGuard | ProxyState | Decider.
Inductive NetworkApprovalProtocol := Http | Https | Socks5Tcp | Socks5Udp.

Record NetworkPolicyDecisionPayload := mkPayload {
  pay_decision : NetworkPolicyDecision;
  pay_source : NetworkDecisionSource;
  pay_protocol : option NetworkApprovalProtocol;
  pay_host : option str;
  pay_reason : option str;
  pay_port : option N }.

Record NetworkApprovalContext := mkNetContext { net_host : str; net_protocol : NetworkApprovalProtocol }.

Definition is_ask_from_decider (p : NetworkPolicyDecisionPayload) : bool :=
  match pay_decision p, pay_source p with DecisionAsk, Decider => true | _, _ => false end.

Definition network_approval_context_from_payload (p : NetworkPolicyDecisionPayload) : option NetworkApprovalContext :=
  if negb (is_ask_from_decider p) then None
  else
    match pay_protocol p, pay_host p with
    | Some protocol, Some host =>
        let host := trim host in
        if is_nil host then None else Some (mkNetContext host protocol)
    | _, _ => None
    end.

(** ** Errors *)

Inductive CodexErr :=
| SandboxDenied (network_policy_decision : option NetworkPolicyDecisionPayload)
| SandboxTimeout
| SandboxSignal
| TurnAborted
| OtherError (message : str).

Inductive ToolError := Rejected (message : str) | Codex (err : CodexErr).

Definition ensure_native_sandbox (o : SandboxOverride) (sandbox : SandboxType) : result unit ToolError :=
  if bool_decide (o = EscalatedSandboxWithRestrictions) && bool_decide (sandbox = NoSandbox)
  then Err (Rejected (lit "command escalation with denied reads requires an available filesystem sandbox"))
  else Ok tt.

(** ** The parties *)

Inductive ReviewDecision :=
| Approved
| ApprovedExecpolicyAmendment (amendment : list str)
| ApprovedForSession
| ApprovedMcpPolicyAmendment
| NetworkPolicyAmendment (allow : bool)
| DeniedDecision (rejection : str)
| TimedOut
| Abort.

(** Why a question is asked. *)
Record ApprovalContext := mkApprovalContext {
  strict_auto_review : bool;
  approval_reason : option str;
  retry_reason : option str;
  network_approval_context : option NetworkApprovalContext }.

Record SandboxAttempt (Net : Type) := mkAttempt {
  att_sandbox : SandboxType;
  sandbox_requested : bool;
  att_permissions : PermissionProfile;
  exec_server_permissions : PermissionProfile;
  enforce_managed_network : bool;
  att_sandbox_cwd : PathUri;
  att_workspace_roots : list PathUri;
  att_sandbox_exe : option str;
  att_use_legacy_landlock : bool;
  att_windows_sandbox_type : SandboxType;
  att_windows_sandbox_level : WindowsSandboxLevel;
  att_network : option Net }.
Arguments mkAttempt {Net} _ _ _ _ _ _ _ _ _ _ _ _.
Arguments att_sandbox {Net} _.
Arguments sandbox_requested {Net} _.
Arguments att_permissions {Net} _.
Arguments exec_server_permissions {Net} _.
Arguments enforce_managed_network {Net} _.
Arguments att_sandbox_cwd {Net} _.
Arguments att_workspace_roots {Net} _.
Arguments att_sandbox_exe {Net} _.
Arguments att_use_legacy_landlock {Net} _.
Arguments att_windows_sandbox_type {Net} _.
Arguments att_windows_sandbox_level {Net} _.
Arguments att_network {Net} _.

Definition with_network {Net} (a : SandboxAttempt Net) (n : option Net) : SandboxAttempt Net :=
  mkAttempt (att_sandbox a) (sandbox_requested a) (att_permissions a) (exec_server_permissions a) (enforce_managed_network a)
    (att_sandbox_cwd a) (att_workspace_roots a) (att_sandbox_exe a) (att_use_legacy_landlock a)
    (att_windows_sandbox_type a) (att_windows_sandbox_level a) n.

(** What the executor says about itself. *)
Record ExecutorInfo := mkInfo {
  platform_os : option str;
  linux_approved_root_write_preserves_restrictions : bool }.

(** The reviewer, the tool, the managed network and the executor. *)
Class ToolWorld (W Action Out Net Deferred Spec : Type) := {
  request_approval : Action -> ApprovalContext -> W -> W * result ReviewDecision ToolError;
  tool_run : SandboxAttempt Net -> W -> W * result Out ToolError;
  network_approval_spec : W -> option Spec;
  spec_additional_permissions : Spec -> option AdditionalPermissionProfile;
  begin_network_approval : bool -> option Spec -> W -> W * result (option Net) ToolError;
  into_deferred : Net -> option Deferred;
  finish_deferred_network_approval : option Deferred -> W -> W * result unit ToolError;
  environment_info : W -> W * result ExecutorInfo str }.

(** The traits [Approvable], [Sandboxable] and [ToolRuntime] at one request. *)
Record ToolRuntime (Action : Type) := mkTool {
  exec_approval_requirement : option ExecApprovalRequirement;
  tool_sandbox_permissions : SandboxPermissions;
  should_bypass_approval : AskForApproval -> bool -> bool;
  wants_no_sandbox_approval : AskForApproval -> bool;
  escalate_on_failure : bool;
  sandbox_preference : SandboxablePreference;
  uses_executor_managed_process_sandbox : bool;
  tool_sandbox_cwd : option PathUri;
  approval_action : result Action str }.
Arguments mkTool {Action} _ _ _ _ _ _ _ _ _.
Arguments exec_approval_requirement {Action} _.
Arguments tool_sandbox_permissions {Action} _.
Arguments should_bypass_approval {Action} _ _ _.
Arguments wants_no_sandbox_approval {Action} _ _.
Arguments escalate_on_failure {Action} _.
Arguments sandbox_preference {Action} _.
Arguments uses_executor_managed_process_sandbox {Action} _.
Arguments tool_sandbox_cwd {Action} _.
Arguments approval_action {Action} _.

Record TurnEnvironment := mkEnvironment {
  env_permission_profile : PermissionProfile;
  env_workspace_roots : list PathUri;
  env_cwd : PathUri;
  env_user_home_dir : option PathUri;
  env_temporary_directories : option (list PathUri);
  env_network_policy_requires_proxy : option bool;
  env_windows_sandbox_type : SandboxType;
  env_windows_sandbox_level : WindowsSandboxLevel;
  env_use_legacy_landlock : bool;
  env_is_remote : bool }.

Record TurnSettings := mkTurnSettings {
  turn_approval_policy : AskForApproval;
  turn_strict_auto_review : bool;
  turn_network : bool;
  turn_network_spec_enabled : option bool;
  codex_self_exe : option str;
  codex_linux_sandbox_exe : option str }.

(** Equality of policies as [PartialEq] derives it from that of entries. *)
Fixpoint entries_eqb (a b : list FileSystemSandboxEntry) : bool :=
  match a, b with
  | [], [] => true
  | x :: a, y :: b => entry_eqb x y && entries_eqb a b
  | _, _ => false
  end.
Definition policy_eqb (p q : FileSystemSandboxPolicy) : bool :=
  bool_decide (fs_kind p = fs_kind q) && bool_decide (glob_scan_max_depth p = glob_scan_max_depth q)
  && entries_eqb (entries p) (entries q).

(** ** The orchestrator *)

Inductive Event (Out Net : Type) :=
| Asked (context : ApprovalContext) (answer : result ReviewDecision ToolError)
| Attempted (attempt : SandboxAttempt Net) (outcome : result Out ToolError).
Arguments Asked {Out Net} _ _.
Arguments Attempted {Out Net} _ _.

Inductive Stop := Fail (e : ToolError) | Panicked.

Section Orchestrator.
Context {UO : UrlOps} {GS : GlobSet}.
Context {W Action Out Net Deferred Spec : Type} `{ToolWorld W Action Out Net Deferred Spec}.
Notation Event := (Event Out Net).
Notation SandboxAttempt := (SandboxAttempt Net).

(** Actions on the world that record events and may stop the run. *)
Definition act (A : Type) : Type := W -> W * list Event * result A Stop.
Definition ret {A} (a : A) : act A := fun w => (w, [], Ok a).
Definition stop {A} (s : Stop) : act A := fun w => (w, [], Err s).
Definition fail {A} (e : ToolError) : act A := stop (Fail e).
Definition bind {A B} (m : act A) (k : A -> act B) : act B :=
  fun w => match m w with
           | (w, evs, Ok a) => let '(w, evs', r) := k a w in (w, evs ++ evs', r)
           | (w, evs, Err s) => (w, evs, Err s)
           end.
Definition lift {A} (r : result A ToolError) : act A := match r with Ok a => ret a | Err e => fail e end.
Definition or_panic {A} (o : option A) : act A := match o with Some a => ret a | None => stop Panicked end.
Notation "'do' x <- m ; k" := (bind m (fun x => k)) (at level 200, x name, m at level 100, k at level 200).

Variable os : TargetOs.
Variable tool : ToolRuntime Action.
Variable env : TurnEnvironment.
Variable turn : TurnSettings.

(** The repeated [approval_action] and [request_approval]. *)
Definition ask_approval (reason retry : option str) (network : option NetworkApprovalContext) : act unit :=
  match approval_action tool with
  | Err message => fail (Rejected (lit "could not prepare approval action: " ++ message))
  | Ok action =>
      let context := mkApprovalContext (turn_strict_auto_review turn) reason retry network in
      fun w => let '(w, answer) := request_approval action context w in
               (w, [Asked context answer], match answer with Ok _ => Ok tt | Err e => Err (Fail e) end)
  end.

Definition policy_context : PolicyContext :=
  mkPolicyContext (env_cwd env) (env_workspace_roots env) (env_user_home_dir env) (env_temporary_directories env).

(** [PermissionProfile::materialize_project_roots_with_path_uris]; [None] is the
    [unreachable!] of [from_sandbox_policy]. *)
Definition materialize_profile (p : PermissionProfile) : option PermissionProfile :=
  match p with
  | Managed file_system network =>
      option_map (fun m => Managed m network)
        (from_sandbox_policy (materialize_project_roots_with_path_uris (to_sandbox_policy file_system) (env_workspace_roots env)))
  | Disabled => Some Disabled
  | External network => Some (External network)
  end.

Definition requirement_of (fs : FileSystemSandboxPolicy) : ExecApprovalRequirement :=
  unwrap_or (exec_approval_requirement tool) (default_exec_approval_requirement (turn_approval_policy turn) fs).

(** Step 1: whether the call was approved. *)
Definition approval_stage (requirement : ExecApprovalRequirement) : act bool :=
  match requirement with
  | Skip _ _ =>
      if turn_strict_auto_review turn then do _ <- ask_approval None None None; ret true else ret false
  | ForbiddenReq reason => fail (Rejected reason)
  | NeedsApproval reason _ => do _ <- ask_approval reason None None; ret true
  end.

(** The profile of an approved escalation, when it differs, and whether metadata
    below the root becomes writable. *)
Definition escalation : option (option PermissionProfile) * bool :=
  let baseline := file_system_sandbox_policy (env_permission_profile env) in
  let file_system := for_approved_command baseline policy_context in
  let writable_root_metadata :=
    is_some_and (file_system_root policy_context) (fun root =>
      can_write_path file_system root policy_context
      && existsb (fun name => match uri_join_descendant root name with
                              | Ok path => can_write_path file_system path policy_context
                              | Err _ => false
                              end) PROTECTED_METADATA_PATH_NAMES) in
  let changed := negb (policy_eqb file_system baseline)
                 && negb (policy_eqb file_system (materialize_project_roots_with_path_uris baseline (env_workspace_roots env))) in
  (if changed
   then Some (from_runtime_permissions_with_enforcement (enforcement_disabled (env_permission_profile env)) file_system
                (profile_network (env_permission_profile env)))
   else None,
   writable_root_metadata).

(** A remote executor must keep the restrictions of an escalated command. *)
Definition verify_executor (escalated : bool) (writable_root_metadata : bool) : act unit :=
  if (escalated || writable_root_metadata) && env_is_remote env then
    fun w =>
      let '(w, info) := environment_info w in
      match info with
      | Err err =>
          (w, [], Err (Fail (Rejected (lit "could not verify exec-server support for escalation with denied reads: " ++ err))))
      | Ok info =>
          if negb (is_some_and (platform_os info) (fun s => str_eqb s (lit "windows") || str_eqb s (lit "macos")))
             && negb (linux_approved_root_write_preserves_restrictions info)
          then (w, [], Err (Fail (Rejected
                 (lit "this exec-server cannot safely escalate with denied reads; upgrade the exec-server and retry"))))
          else (w, [], Ok tt)
      end
  else ret tt.

Definition managed_network_active (spec : option Spec) : bool :=
  match env_network_policy_requires_proxy env with
  | Some requires_proxy =>
      unwrap_or (turn_network_spec_enabled turn) false
      || requires_proxy
      || ((is_some spec || requires_escalated_permissions (tool_sandbox_permissions tool))
          && network_is_enabled (effective_network_sandbox_policy (profile_network (env_permission_profile env))
               match spec with Some s => spec_additional_permissions s | None => None end))
  | None => turn_network turn
  end.

Definition run_attempt (attempt : SandboxAttempt) (spec : option Spec) : act (result Out ToolError * option Deferred) :=
  fun w =>
    let '(w, network_approval) := begin_network_approval (enforce_managed_network attempt) spec w in
    match network_approval with
    | Err err => (w, [], Ok (Err err, None))
    | Ok network_approval =>
        let attempt := with_network attempt network_approval in
        let '(w, run_result) := tool_run attempt w in
        match network_approval with
        | None => (w, [Attempted attempt run_result], Ok (run_result, None))
        | Some n =>
            let deferred := into_deferred n in
            match run_result with
            | Err _ =>
                let '(w, finalize_result) := finish_deferred_network_approval deferred w in
                (w, [Attempted attempt run_result],
                 Ok (match finalize_result with Err err => Err err | Ok _ => run_result end, None))
            | Ok _ => (w, [Attempted attempt run_result], Ok (run_result, deferred))
            end
        end
    end.

Definition choose_sandbox (requested : bool) (permissions : PermissionProfile) (managed : bool) : SandboxType :=
  if requested && negb (uses_executor_managed_process_sandbox tool)
  then select_initial os permissions (sandbox_preference tool)
         (effective_windows_sandbox_type (env_windows_sandbox_type env) (env_windows_sandbox_level env)) managed
  else NoSandbox.

Definition sandbox_exe : option str := if is_windows_os os then codex_self_exe turn else codex_linux_sandbox_exe turn.

Definition make_attempt (requested : bool) (sandbox : SandboxType) (permissions exec_server : PermissionProfile) (managed : bool)
    (exe : option str) : SandboxAttempt :=
  mkAttempt sandbox requested permissions exec_server managed
    (unwrap_or (tool_sandbox_cwd tool) (env_cwd env)) (env_workspace_roots env) exe (env_use_legacy_landlock env)
    (effective_windows_sandbox_type (env_windows_sandbox_type env) (env_windows_sandbox_level env))
    (env_windows_sandbox_level env) None.

Definition is_needs_approval (r : ExecApprovalRequirement) : bool := match r with NeedsApproval _ _ => true | _ => false end.
Definition is_on_request (p : AskForApproval) : bool := match p with OnRequest => true | _ => false end.

(** Whether a denied first attempt may be tried again. *)
Definition may_retry (fs : FileSystemSandboxPolicy) (unsandboxed_allowed : bool) (decision : option NetworkPolicyDecisionPayload)
    (network : option NetworkApprovalContext) : bool :=
  negb (is_some decision && is_none network)
  && escalate_on_failure tool
  && (wants_no_sandbox_approval tool (turn_approval_policy turn)
      || (is_on_request (turn_approval_policy turn) && is_some network
          && is_needs_approval (default_exec_approval_requirement (turn_approval_policy turn) fs)))
  && (unsandboxed_allowed || is_some network).

Definition requirement_reason (r : ExecApprovalRequirement) : option str :=
  match r with NeedsApproval reason _ => reason | _ => None end.

(** After a denial: ask again if need be, and make the second attempt. *)
Definition retry (fs : FileSystemSandboxPolicy) (requirement : ExecApprovalRequirement) (already_approved : bool)
    (permissions exec_server : PermissionProfile) (managed : bool) (decision : option NetworkPolicyDecisionPayload)
    : act (Out * option Deferred) :=
  let unsandboxed_allowed := unsandboxed_execution_allowed os fs in
  let network := if managed then match decision with Some d => network_approval_context_from_payload d | None => None end else None in
  if negb (may_retry fs unsandboxed_allowed decision network) then fail (Codex (SandboxDenied decision))
  else
    let reason := match network with
                  | Some n => lit "Network access to " ++ [34%N] ++ net_host n ++ [34%N] ++ lit " is blocked by policy."
                  | None => lit "command failed; retry without sandbox?"
                  end in
    let bypass_retry_approval :=
      negb (turn_strict_auto_review turn)
      && should_bypass_approval tool (turn_approval_policy turn) already_approved
      && is_none network in
    do _ <- (if bypass_retry_approval then ret tt else ask_approval (requirement_reason requirement) (Some reason) network);
    let requested := negb unsandboxed_allowed && should_sandbox os permissions (sandbox_preference tool) managed in
    let attempt := make_attempt requested (choose_sandbox requested permissions managed) permissions exec_server managed
                     (if unsandboxed_allowed then None else sandbox_exe) in
    fun w =>
      (do r <- run_attempt attempt (network_approval_spec w);
       match r with
       | (Ok out, deferred) => ret (out, deferred)
       | (Err err, _) => fail err
       end) w.

Definition or_else {A} (o : option A) (d : A) : A := match o with Some a => a | None => d end.

(** Step 2 and after: the attempts with the selected permissions. *)
Definition attempts (fs : FileSystemSandboxPolicy) (requirement : ExecApprovalRequirement) (already_approved : bool)
    (override : SandboxOverride) (permissions exec_server : PermissionProfile) (spec : option Spec) : act (Out * option Deferred) :=
  let managed := managed_network_active spec in
  let requested :=
    match override with
    | BypassSandboxFirstAttempt => false
    | NoOverride | EscalatedSandboxWithRestrictions => should_sandbox os permissions (sandbox_preference tool) managed
    end in
  let initial_sandbox := choose_sandbox requested permissions managed in
  do _ <- (if uses_executor_managed_process_sandbox tool then ret tt else lift (ensure_native_sandbox override initial_sandbox));
  do first <- run_attempt (make_attempt requested initial_sandbox permissions exec_server managed sandbox_exe) spec;
  match first with
  | (Ok out, deferred) => ret (out, deferred)
  | (Err (Codex (SandboxDenied decision)), _) =>
      retry fs requirement already_approved permissions exec_server managed decision
  | (Err err, _) => fail err
  end.

(** The permissions of the attempts, local and for the executor. *)
Definition select_permissions (override : SandboxOverride) (permissions : PermissionProfile) : act (PermissionProfile * PermissionProfile) :=
  let '(escalated, writable_root_metadata) :=
    if bool_decide (override = EscalatedSandboxWithRestrictions) then escalation else (None, false) in
  do escalated_profile <- match escalated with
                          | Some p => do p <- or_panic p; ret (Some p)
                          | None => ret None
                          end;
  do _ <- verify_executor (is_some escalated_profile) writable_root_metadata;
  do escalated_local_profile <- match escalated_profile with
                                | Some p => if uses_executor_managed_process_sandbox tool then ret None
                                            else do p <- or_panic (materialize_profile p); ret (Some p)
                                | None => ret None
                                end;
  ret (or_else escalated_local_profile (or_else escalated_profile permissions), or_else escalated_profile (env_permission_profile env)).

Definition run : act (Out * option Deferred) :=
  let profile := env_permission_profile env in
  do permissions <- (if uses_executor_managed_process_sandbox tool then ret profile else or_panic (materialize_profile profile));
  let fs := file_system_sandbox_policy permissions in
  let requirement := requirement_of fs in
  do already_approved <- approval_stage requirement;
  let override := sandbox_override_for_first_attempt os (tool_sandbox_permissions tool) requirement fs already_approved in
  do selected <- select_permissions override permissions;
  fun w => attempts fs requirement already_approved override (fst selected) (snd selected) (network_approval_spec w) w.
End Orchestrator.

(** ** Reasoning about runs *)

Section Rules.
Context {W Out Net : Type}.
Notation act := (act (W:=W) (Out:=Out) (Net:=Net)).
Notation Event := (Event Out Net).

(** From every world the action's events and result satisfy [P]. *)
Definition emits {A} (m : act A) (P : list Event -> result A Stop -> Prop) : Prop :=
  forall w, P (snd (fst (m w))) (snd (m w)).

Lemma emits_ret {A} (a : A) (P : list Event -> result A Stop -> Prop) : P [] (Ok a) -> emits (ret a) P.
Proof. by intros ? w. Qed.

Lemma emits_stop {A} s (P : list Event -> result A Stop -> Prop) : P [] (Err s) -> emits (stop s) P.
Proof. by intros ? w. Qed.

Lemma emits_bind {A B} (m : act A) (k : A -> act B) (P : list Event -> result A Stop -> Prop) Q :
  emits m P ->
  (forall evs s, P evs (Err s) -> Q evs (Err s)) ->
  (forall a evs, P evs (Ok a) -> emits (k a) (fun evs' r => Q (evs ++ evs') r)) ->
  emits (bind m k) Q.
Proof.
  intros Hm Herr Hk w. specialize (Hm w). unfold bind. destruct (m w) as [[w1 evs] [a|s]]; simpl in *; [|auto].
  specialize (Hk a evs Hm w1). destruct (k a w1) as [[w2 evs2] r]. exact Hk.
Qed.

Lemma emits_weaken {A} (m : act A) (P Q : list Event -> result A Stop -> Prop) :
  emits m P -> (forall evs r, P evs r -> Q evs r) -> emits m Q.
Proof. intros Hm HPQ w. apply HPQ, Hm. Qed.

(** An action that reads the world first. *)
Lemma emits_reading {A X} (g : W -> X) (f : X -> act A) (P : list Event -> result A Stop -> Prop) :
  (forall x, emits (f x) P) -> emits (fun w => f (g w) w) P.
Proof. intros Hf w. apply Hf. Qed.

Lemma bind_ret_emits {A B} (a : A) (k : A -> act B) P : emits (k a) P -> emits (bind (ret a) k) P.
Proof. intros Hk w. specialize (Hk w). unfold bind, ret. destruct (k a w) as [[w' evs] r]. exact Hk. Qed.
End Rules.

Section Protocol.
Context {UO : UrlOps} {GS : GlobSet}.
Context {W Action Out Net Deferred Spec : Type} `{TW : ToolWorld W Action Out Net Deferred Spec}.
Notation Event := (Event Out Net).
Variables (os : TargetOs) (tool : ToolRuntime Action) (env : TurnEnvironment) (turn : TurnSettings).

(** A question that was answered with an approval. *)
Definition granted (retried : bool) (evs : list Event) : Prop :=
  exists ctx d, evs = [Asked ctx (Ok d)] /\ is_some (retry_reason ctx) = retried.
Definition refused (evs : list Event) : Prop := evs = [] \/ exists ctx e, evs = [Asked ctx (Err e)].

Lemma ask_approval_emits reason rr network :
  emits (ask_approval tool turn reason rr network)
    (fun evs r => match r with
                  | Ok tt => granted (is_some rr) evs
                  | Err s => refused evs /\ s <> Panicked
                  end).
Proof.
  unfold ask_approval. destruct (approval_action tool) as [action|m].
  - intros w. destruct (request_approval action _ w) as [w' [d|e]]; simpl.
    + by eexists _, d.
    + split; [|done]. right. by eexists _, e.
  - apply emits_stop. split; [by left|done].
Qed.

(** Nobody has to be asked before the first attempt. *)
Definition unasked (requirement : ExecApprovalRequirement) : Prop :=
  turn_strict_auto_review turn = false /\ exists bypass amendment, requirement = Skip bypass amendment.

Lemma approval_stage_emits requirement :
  emits (approval_stage tool turn requirement)
    (fun evs r => match r with
                  | Ok true => granted false evs
                  | Ok false => evs = [] /\ unasked requirement
                  | Err s => refused evs /\ s <> Panicked
                  end).
Proof.
  unfold approval_stage. destruct requirement as [bypass am|reason am|reason].
  - destruct (turn_strict_auto_review turn) eqn:Es.
    + eapply emits_bind; [apply ask_approval_emits|done|]. intros [] evs Hg. apply emits_ret. by rewrite app_nil_r.
    + apply emits_ret. split; [done|]. split; eauto.
  - eapply emits_bind; [apply ask_approval_emits|done|]. intros [] evs Hg. apply emits_ret. by rewrite app_nil_r.
  - apply emits_stop. split; [by left|done].
Qed.

(** At most one attempt, and its outcome as reported. *)
Definition tried (P : SandboxAttempt Net -> Prop) (evs : list Event) (reported : result Out ToolError) : Prop :=
  (evs = [] /\ exists e, reported = Err e)
  \/ exists a o, evs = [Attempted a o] /\ P a /\ (reported = o \/ exists e e', reported = Err e /\ o = Err e').

Lemma run_attempt_emits attempt spec (P : SandboxAttempt Net -> Prop) :
  (forall n, P (with_network attempt n)) ->
  emits (run_attempt attempt spec) (fun evs r => exists reported d, r = Ok (reported, d) /\ tried P evs reported).
Proof.
  intros HP w. unfold run_attempt. destruct (begin_network_approval _ spec w) as [w1 [n|e]]; simpl.
  2: { eexists _, _. split; [done|]. left. eauto. }
  destruct (tool_run (with_network attempt n) w1) as [w2 o] eqn:Er.
  assert (forall d : option Deferred, exists reported d', Ok (E:=Stop) (o, d) = Ok (reported, d')
            /\ tried P [Attempted (with_network attempt n) o] reported) as Hplain.
  { intros d. exists o, d. split; [done|]. right. eexists _, _. split_and!; [done|apply HP|by left]. }
  destruct n as [n|]; simpl; [|apply Hplain]. destruct o as [out|e]; simpl; [apply Hplain|].
  destruct (finish_deferred_network_approval (into_deferred n) w2) as [w3 [[]|e']]; simpl; [apply Hplain|].
  eexists _, _. split; [done|]. right. eexists _, _. split_and!; [done|apply HP|]. right. eauto.
Qed.

(** What comes after a denied attempt. *)
Definition retried (already_approved : bool) (P : SandboxAttempt Net -> Prop) (evs : list Event) : Prop :=
  refused evs
  \/ exists again second, evs = again ++ second
     /\ (second = [] \/ exists a o, second = [Attempted a o] /\ P a)
     /\ (granted true again
         \/ (again = [] /\ turn_strict_auto_review turn = false
             /\ should_bypass_approval tool (turn_approval_policy turn) already_approved = true)).

(** The last attempt, whose outcome is the outcome of the run. *)
Lemma last_attempt_emits attempt (P : SandboxAttempt Net -> Prop) :
  (forall n, P (with_network attempt n)) ->
  emits (fun w => bind (run_attempt attempt (network_approval_spec w))
           (fun r => match r with (Ok out, deferred) => ret (out, deferred) | (Err err, _) => fail err end) w)
    (fun evs (r : result (Out * option Deferred) Stop) => (evs = [] \/ exists a o, evs = [Attempted a o] /\ P a) /\ r <> Err Panicked).
Proof.
  intros HP. apply (emits_reading network_approval_spec (fun spec => bind (run_attempt attempt spec) _)). intros spec.
  eapply emits_bind; [apply run_attempt_emits, HP|by intros evs s (? & ? & ? & _)|].
  intros [reported d] evs (? & ? & [= <- <-] & Ht).
  assert (evs = [] \/ exists a o, evs = [Attempted a o] /\ P a) as Hr.
  { destruct Ht as [[-> _]|(a & o & -> & Ha & _)]; [by left|right; eauto]. }
  destruct reported; [apply emits_ret|apply emits_stop]; rewrite app_nil_r; done.
Qed.

Lemma retry_emits fs requirement already permissions exec_server managed decision (P : SandboxAttempt Net -> Prop) :
  (forall n, let requested := negb (unsandboxed_execution_allowed os fs) && should_sandbox os permissions (sandbox_preference tool) managed in
     P (with_network (make_attempt tool env requested (choose_sandbox os tool env requested permissions managed) permissions exec_server managed
          (if unsandboxed_execution_allowed os fs then None else sandbox_exe os turn)) n)) ->
  emits (retry os tool env turn fs requirement already permissions exec_server managed decision)
    (fun evs r => retried already P evs /\ r <> Err Panicked).
Proof.
  intros HP. unfold retry. cbv zeta. destruct (negb (may_retry _ _ _ _ _ _)); [apply emits_stop; split; [by left; left|done]|].
  set (network := if managed then _ else _). set (reason := match network with Some n => _ | None => _ end).
  destruct (negb (turn_strict_auto_review turn) && _ && _) eqn:Eb.
  - apply bind_ret_emits. eapply emits_weaken; [apply last_attempt_emits, HP|]. intros evs r [Hev Hr]. split; [|done].
    right. exists [], evs. split_and!; [done..|]. right. bool_to_prop. split_and!; [done| |done].
    by destruct (turn_strict_auto_review turn).
  - eapply emits_bind; [apply ask_approval_emits| |].
    + intros evs s [Hr Hs]. split; [by left|congruence].
    + intros [] evs Hg. eapply emits_weaken; [apply last_attempt_emits, HP|]. intros evs' r [Hev Hr]. split; [|done].
      right. exists evs, evs'. split_and!; [done..|by left].
Qed.

(** ** The shape of a run *)

Lemma from_sandbox_policy_total p : fs_kind p <> ExternalSandbox ->
  exists m, from_sandbox_policy p = Some m /\ fs_kind (to_sandbox_policy m) = fs_kind p
    /\ (fs_kind p = Restricted -> entries (to_sandbox_policy m) = entries p).
Proof. unfold from_sandbox_policy. intros Hk. destruct (fs_kind p) eqn:E; try done; eexists; (split; [reflexivity|]); simpl; done. Qed.

Lemma materialize_kind p roots : fs_kind (materialize_project_roots_with_path_uris p roots) <> fs_kind p ->
  fs_kind (materialize_project_roots_with_path_uris p roots) = Restricted.
Proof.
  unfold materialize_project_roots_with_path_uris, try_materialize_project_roots_with_path_uris.
  destruct (materialize_entries roots (entries p)); simpl; [done|done].
Qed.

Lemma materialize_profile_total p : exists q, materialize_profile env p = Some q.
Proof.
  destruct p as [m n| |n]; simpl; [|eauto..].
  destruct (from_sandbox_policy_total (materialize_project_roots_with_path_uris (to_sandbox_policy m) (env_workspace_roots env)))
    as (m' & -> & _); [|eauto].
  intros E. destruct (decide (fs_kind (materialize_project_roots_with_path_uris (to_sandbox_policy m) (env_workspace_roots env))
    = fs_kind (to_sandbox_policy m))) as [Ek|Ek]; [|apply materialize_kind in Ek; congruence].
  rewrite Ek in E. by destruct m.
Qed.

(** The permissions the call starts with, and how it continues once it is known
    whether it was approved. *)
Definition base_permissions : option PermissionProfile :=
  if uses_executor_managed_process_sandbox tool then Some (env_permission_profile env)
  else materialize_profile env (env_permission_profile env).

Definition first_override (perms : PermissionProfile) (already_approved : bool) : SandboxOverride :=
  let fs := file_system_sandbox_policy perms in
  sandbox_override_for_first_attempt os (tool_sandbox_permissions tool) (requirement_of tool turn fs) fs already_approved.

Inductive selected (perms : PermissionProfile) (already_approved : bool) : PermissionProfile -> PermissionProfile -> Prop :=
| selected_plain : selected perms already_approved perms (env_permission_profile env)
| selected_escalated p : first_override perms already_approved = EscalatedSandboxWithRestrictions ->
    fst (escalation env) = Some (Some p) -> uses_executor_managed_process_sandbox tool = true ->
    selected perms already_approved p p
| selected_local p q : first_override perms already_approved = EscalatedSandboxWithRestrictions ->
    fst (escalation env) = Some (Some p) -> uses_executor_managed_process_sandbox tool = false ->
    materialize_profile env p = Some q -> selected perms already_approved q p.

(** Whether an attempt asks for a sandbox: the first one, and the retry. *)
Definition requests_sandbox (perms : PermissionProfile) (already_approved : bool) (ip : PermissionProfile) (managed requested : bool) : Prop :=
  requested = match first_override perms already_approved with
              | BypassSandboxFirstAttempt => false
              | _ => should_sandbox os ip (sandbox_preference tool) managed
              end
  \/ requested = negb (unsandboxed_execution_allowed os (file_system_sandbox_policy perms))
                 && should_sandbox os ip (sandbox_preference tool) managed.

(** Events after the approval stage. *)
Definition attempts_shape (already_approved : bool) (P : SandboxAttempt Net -> Prop) (evs : list Event) : Prop :=
  exists first again, evs = first ++ again
    /\ (first = [] \/ exists a o, first = [Attempted a o] /\ P a /\ (again <> [] -> exists e, o = Err e))
    /\ (again = [] \/ retried already_approved P again).

Definition run_shape (perms : PermissionProfile) (P : SandboxAttempt Net -> Prop) (evs : list Event) : Prop :=
  refused evs
  \/ exists question rest already_approved, evs = question ++ rest
     /\ (if (already_approved : bool) then granted false question
         else question = [] /\ unasked (requirement_of tool turn (file_system_sandbox_policy perms)))
     /\ attempts_shape already_approved P rest.

Section Shape.
Variables (perms : PermissionProfile) (P : SandboxAttempt Net -> Prop).
Hypothesis Hperms : base_permissions = Some perms.
Hypothesis HP : forall already ip es managed requested sandbox exe n,
  selected perms already ip es -> requests_sandbox perms already ip managed requested ->
  (requested = true -> uses_executor_managed_process_sandbox tool = true \/
     sandbox = select_initial os ip (sandbox_preference tool)
       (effective_windows_sandbox_type (env_windows_sandbox_type env) (env_windows_sandbox_level env)) managed) ->
  P (with_network (make_attempt tool env requested sandbox ip es managed exe) n).

Let fs := file_system_sandbox_policy perms.
Let requirement := requirement_of tool turn fs.

Lemma choose_sandbox_spec requested ip managed :
  requested = true -> uses_executor_managed_process_sandbox tool = true \/
  choose_sandbox os tool env requested ip managed = select_initial os ip (sandbox_preference tool)
    (effective_windows_sandbox_type (env_windows_sandbox_type env) (env_windows_sandbox_level env)) managed.
Proof. intros ->. unfold choose_sandbox. destruct (uses_executor_managed_process_sandbox tool); [by left|by right]. Qed.

(** The attempts, once the permissions are selected. *)
Lemma attempts_emits already ip es spec :
  selected perms already ip es ->
  emits (attempts os tool env turn fs requirement already (first_override perms already) ip es spec)
    (fun evs (r : result (Out * option Deferred) Stop) => attempts_shape already P evs /\ r <> Err Panicked).
Proof.
  intros Hsel.
  assert (forall reported d managed, emits (match (reported, d) with
      | (Ok out, deferred) => ret (out, deferred)
      | (Err (Codex (SandboxDenied decision)), _) => retry os tool env turn fs requirement already ip es managed decision
      | (Err err, _) => fail err
      end) (fun evs (r : result (Out * option Deferred) Stop) =>
              (evs <> [] -> retried already P evs /\ exists e, reported = Err e) /\ r <> Err Panicked)) as Hrest.
  { intros reported d managed. destruct reported as [out|[m|[decision| | | |m]]]; try (by apply emits_ret); try (by apply emits_stop).
    eapply emits_weaken; [apply (retry_emits _ _ _ _ _ _ _ P)|].
    - intros n requested. apply (HP already); [done|by right|apply choose_sandbox_spec].
    - simpl. intros evs r [? ?]. split; [|done]. intros _. eauto. }
  unfold attempts. cbv zeta.
  set (managed := managed_network_active tool env turn spec).
  set (requested := match first_override perms already with BypassSandboxFirstAttempt => _ | _ => _ end).
  set (sandbox := choose_sandbox os tool env requested ip managed).
  assert (forall m : Stop, m <> Panicked -> attempts_shape already P [] /\ Err (A:=Out * option Deferred) m <> Err Panicked) as Hnone.
  { intros m Hm. split; [|congruence]. exists [], []. split_and!; [done|by left|by left]. }
  eapply (emits_bind _ _ (fun evs r => evs = [] /\ match r with Err s => s <> Panicked | Ok _ => True end)).
  { destruct (uses_executor_managed_process_sandbox tool); [by apply emits_ret|].
    destruct (ensure_native_sandbox _ _); [by apply emits_ret|by apply emits_stop]. }
  { intros evs s [-> Hs]. by apply Hnone. }
  intros [] evs0 [-> _]. simpl. eapply emits_bind; [apply (run_attempt_emits _ _ P)|by intros evs s (? & ? & ? & _)|].
  { intros n. apply (HP already); [done|by left|apply choose_sandbox_spec]. }
  intros [reported d] evs (? & ? & [= <- <-] & Ht). eapply emits_weaken; [apply Hrest|]. intros again r [Hagain Hr]. split; [|done].
  exists evs, again. split; [done|]. split.
  - destruct Ht as [[-> _]|(a & o & -> & Ha & Ho)]; [by left|right]. exists a, o. split_and!; [done..|]. intros Hne.
    destruct (Hagain Hne) as (_ & e & ->). destruct Ho as [<-|(e1 & e2 & _ & ->)]; eauto.
  - destruct again as [|x l]; [by left|right]. by apply Hagain.
Qed.

Lemma verify_executor_emits escalated metadata :
  emits (verify_executor env escalated metadata) (fun evs r => evs = [] /\ r <> Err Panicked).
Proof.
  intros w. unfold verify_executor. destruct (_ && _); [|done].
  destruct (environment_info w) as [w' [info|err]]; [|done]. by destruct (_ && _).
Qed.

Lemma select_permissions_emits already :
  emits (select_permissions tool env (first_override perms already) perms)
    (fun evs r => evs = [] /\ match r with
                              | Ok (ip, es) => selected perms already ip es
                              | Err s => s <> Panicked
                              end).
Proof.
  unfold select_permissions. destruct (bool_decide (first_override perms already = EscalatedSandboxWithRestrictions)) eqn:Ho.
  2: { apply bind_ret_emits. eapply emits_bind; [apply verify_executor_emits|intros evs s [-> ?]; split; [done|simpl; congruence]|].
       intros _ evs [-> _]. apply bind_ret_emits, emits_ret. split; [done|constructor]. }
  apply bool_decide_eq_true in Ho.
  destruct (escalation env) as [[p|] metadata] eqn:Ee.
  2: { apply bind_ret_emits. eapply emits_bind; [apply verify_executor_emits|intros evs s [-> ?]; split; [done|simpl; congruence]|].
       intros _ evs [-> _]. apply bind_ret_emits, emits_ret. split; [done|constructor]. }
  assert (exists q, p = Some q) as [q ->].
  { unfold escalation in Ee. destruct (_ && _); [|done]. injection Ee as <- _.
    edestruct runtime_permissions_round_trip as (q & -> & _). by exists q. }
  assert (fst (escalation env) = Some (Some q)) as Hq by (by rewrite Ee). simpl.
  eapply (emits_bind _ _ (fun evs r => evs = [] /\ r = Ok (Some q))); [by intros w|by intros evs s [-> ?]|].
  intros ? evs [-> [= ->]]. eapply emits_bind; [apply verify_executor_emits|intros ev s [-> ?]; split; [done|simpl; congruence]|].
  intros _ evs [-> _]. destruct (uses_executor_managed_process_sandbox tool) eqn:Eu.
  - apply bind_ret_emits, emits_ret. split; [done|]. by apply selected_escalated.
  - destruct (materialize_profile_total q) as [l El].
    eapply (emits_bind _ _ (fun evs r => evs = [] /\ r = Ok (Some l))); [intros w; by rewrite El|by intros evs s [-> ?]|].
    intros ? evs [-> [= ->]]. apply emits_ret. split; [done|]. by eapply selected_local.
Qed.

Lemma run_emits : emits (run os tool env turn) (fun evs r => run_shape perms P evs /\ r <> Err Panicked).
Proof.
  unfold run. cbv zeta.
  assert ((if uses_executor_managed_process_sandbox tool then ret (env_permission_profile env)
           else or_panic (materialize_profile env (env_permission_profile env))) = ret (W:=W) (Out:=Out) (Net:=Net) perms) as ->.
  { unfold base_permissions in Hperms. destruct (uses_executor_managed_process_sandbox tool); [by simplify_eq|by rewrite Hperms]. }
  apply bind_ret_emits. eapply emits_bind; [apply approval_stage_emits| |].
  { intros evs s [? ?]. split; [by left|congruence]. }
  intros already question Hq.
  eapply emits_bind; [apply (select_permissions_emits already)| |].
  { intros evs s [-> Hs]. split; [|congruence]. right. exists question, [], already. split_and!; [done|by destruct already|].
    exists [], []. split_and!; [done|by left|by left]. }
  intros [ip es] evs [-> Hsel]. apply (emits_reading network_approval_spec (attempts os tool env turn _ _ already _ ip es)). intros spec.
  eapply emits_weaken; [by apply (attempts_emits already ip es spec)|]. simpl. intros rest r [Hr Hp]. split; [|done].
  right. exists question, rest, already. split_and!; [done|by destruct already|done].
Qed.
End Shape.

(** ** The protocol of a run *)

Definition asks (e : Event) : bool := match e with Asked _ _ => true | Attempted _ _ => false end.
Definition tries (e : Event) : bool := negb (asks e).
Definition grants (e : Event) : bool := match e with Asked _ (Ok _) => true | _ => false end.
Definition grants_retry (e : Event) : bool :=
  match e with Asked ctx (Ok _) => is_some (retry_reason ctx) | _ => false end.
Definition failed (e : Event) : bool := match e with Attempted _ (Err _) => true | _ => false end.

(** What must have happened before an attempt. *)
Definition authorised (requirement : ExecApprovalRequirement) (before : list Event) : Prop :=
  (existsb grants before = true \/ unasked requirement)
  /\ (existsb tries before = true ->
       existsb failed before = true
       /\ (existsb grants_retry before = true
           \/ (turn_strict_auto_review turn = false
               /\ should_bypass_approval tool (turn_approval_policy turn) (existsb grants before) = true))).

Definition protocol_ok (requirement : ExecApprovalRequirement) (evs : list Event) : Prop :=
  length (List.filter tries evs) <= 2
  /\ (forall before a o after, evs = before ++ Attempted a o :: after -> authorised requirement before)
  /\ (forall before ctx e after, evs = before ++ Asked ctx (Err e) :: after -> after = []).

(** Every way to cut a short list at an element, and what came before it. *)
Ltac cut_list :=
  repeat match goal with
         | E : _ = ?before ++ _ :: _ |- _ => destruct before; simpl in E; simplify_eq
         | E : [] = _ :: _ |- _ => discriminate E
         end.
Ltac check_protocol :=
  split_and!; [simpl; lia|intros before a' o' after Hcut; cut_list|intros before ctx' e' after Hcut; cut_list; done];
  unfold authorised; simpl; repeat match goal with Hr : is_some (retry_reason _) = _ |- _ => rewrite Hr end;
  (split; [by eauto|]); try done; intros _; (split; [done|]); by eauto.

Lemma run_shape_protocol perms P evs :
  run_shape perms P evs -> protocol_ok (requirement_of tool turn (file_system_sandbox_policy perms)) evs.
Proof.
  intros [[->|(ctx & e & ->)]|(question & rest & already & -> & Hq & first & again & -> & Hf & Ha)]; [check_protocol..|].
  assert (again = [] \/ (exists ctx e, again = [Asked ctx (Err e)])
          \/ exists second, (second = [] \/ exists a o, second = [Attempted a o])
               /\ ((exists ctx d, again = Asked ctx (Ok d) :: second /\ is_some (retry_reason ctx) = true)
                   \/ (again = second /\ turn_strict_auto_review turn = false
                       /\ should_bypass_approval tool (turn_approval_policy turn) already = true))) as Hagain.
  { destruct Ha as [->|[[->|(ctx & e & ->)]|(q & second & -> & Hs & Hq')]]; [by left|by left|right; left; by eauto|right; right].
    exists second. split; [naive_solver|]. destruct Hq' as [(ctx & d & -> & ?)|(-> & ? & ?)]; [left; by eauto|by right]. }
  clear Ha. destruct already.
  - destruct Hq as (ctx & d & -> & Hr).
    destruct Hf as [->|(a & o & -> & _ & Ho)]; destruct Hagain as [->|[(ctx2 & e & ->)|(second & Hs & [(ctx2 & d2 & -> & Hr2)|(-> & Hst & Hby)])]];
      try (destruct Hs as [->|(a2 & o2 & ->)]); try (destruct Ho as [eo ->]; [done|]); simpl; check_protocol.
  - destruct Hq as [-> Hun].
    destruct Hf as [->|(a & o & -> & _ & Ho)]; destruct Hagain as [->|[(ctx2 & e & ->)|(second & Hs & [(ctx2 & d2 & -> & Hr2)|(-> & Hst & Hby)])]];
      try (destruct Hs as [->|(a2 & o2 & ->)]); try (destruct Ho as [eo ->]; [done|]); simpl; check_protocol.
Qed.

Lemma run_shape_attempts perms (P : SandboxAttempt Net -> Prop) evs a o : run_shape perms P evs -> Attempted a o ∈ evs -> P a.
Proof.
  intros [[->|(ctx & e & ->)]|(question & rest & already & -> & Hq & first & again & -> & Hf & Ha)] Hin; [set_solver..|].
  rewrite !elem_of_app in Hin. destruct Hin as [Hin|[Hin|Hin]].
  - destruct already; [destruct Hq as (? & ? & -> & _)|destruct Hq as [-> _]]; set_solver.
  - destruct Hf as [->|(? & ? & -> & ? & _)]; set_solver.
  - destruct Ha as [->|[[->|(? & ? & ->)]|(q & second & -> & Hs & Hq')]]; [set_solver..|].
    apply elem_of_app in Hin as [Hin|Hin].
    + destruct Hq' as [(? & ? & -> & _)|[-> _]]; set_solver.
    + destruct Hs as [->|(? & ? & -> & ?)]; set_solver.
Qed.

(** The profile a run starts with exists. *)
Lemma base_permissions_total : exists perms, base_permissions = Some perms.
Proof. unfold base_permissions. destruct (uses_executor_managed_process_sandbox tool); [eauto|apply materialize_profile_total]. Qed.

Lemma run_starts perms : base_permissions = Some perms ->
  (if uses_executor_managed_process_sandbox tool then ret (env_permission_profile env)
   else or_panic (materialize_profile env (env_permission_profile env))) = ret (W:=W) (Out:=Out) (Net:=Net) perms.
Proof. unfold base_permissions. destruct (uses_executor_managed_process_sandbox tool); [by intros [= ->]|by intros ->]. Qed.

(** A forbidden call ends at once. *)
Lemma forbidden_run perms reason w : base_permissions = Some perms ->
  requirement_of tool turn (file_system_sandbox_policy perms) = ForbiddenReq reason ->
  run os tool env turn w = (w, [], Err (Fail (Rejected reason))).
Proof. intros Hp Hf. unfold run. cbv zeta. rewrite (run_starts _ Hp). unfold bind, ret at 1. by rewrite Hf. Qed.

(** C12. A run asks and attempts by the protocol, whatever the reviewer, the tool and
    the network answer: at most two attempts; each only after an approval of this
    call, or when its requirement is to skip the question and reviews are not
    strict; the second only after a failed first and a new approval given for the
    retry, or when the tool may bypass one; nothing after a refusal; nothing at all
    for a forbidden call.  The run never reaches the code the program marks as
    unreachable. *)
Theorem attempts_are_authorised w :
  exists perms, base_permissions = Some perms
    /\ protocol_ok (requirement_of tool turn (file_system_sandbox_policy perms)) (snd (fst (run os tool env turn w)))
    /\ snd (run os tool env turn w) <> Err Panicked
    /\ forall reason, requirement_of tool turn (file_system_sandbox_policy perms) = ForbiddenReq reason ->
         run os tool env turn w = (w, [], Err (Fail (Rejected reason))).
Proof.
  destruct base_permissions_total as [perms Hp]. exists perms. split; [done|].
  destruct (run_emits perms (fun _ => True) Hp (fun _ _ _ _ _ _ _ _ _ _ _ => I) w) as [Hs Hr].
  split_and!; [by eapply run_shape_protocol|done|]. intros reason. by apply forbidden_run.
Qed.

(** ** Denied reads *)

Lemma read_denied_entries p q ctx path : entries p = entries q -> is_read_denied p ctx path = true -> is_read_denied q ctx path = true.
Proof.
  intros He. apply more_denials_deny_more. intros e Hin. exists e. split; [|apply entry_eqb_refl].
  unfold deny_entries in *. by rewrite <- He.
Qed.

(** A policy that denies reading a path is restricted by an entry that also
    narrows writing. *)
Lemma read_denied_narrows p ctx path c :
  infer_path_convention (cwd ctx) = Some c -> in_context ctx path = true -> is_read_denied p ctx path = true ->
  exists e, e ∈ entries p /\ entry_access e = DenyAccess /\ narrows_write p c e = true
    /\ (is_slash_tmp (entry_path e) = true -> c = PosixPaths).
Proof.
  intros Hc Hin Hd. apply is_read_denied_spec in Hd as [_ [Hd|[(root & Hr & _)|(pat & Hp & _)]]]; [congruence|..].
  - apply prepared_roots_in in Hr as [Hr _]. apply resolved_entries_in in Hr as (e & He & Ha & Hr & _).
    exists e. split_and!; [done..| |].
    + assert (has_same_target_write_override p e c = false) as Hno.
      { unfold has_same_target_write_override. apply not_true_iff_false. rewrite existsb_exists. intros (x & _ & Hx).
        rewrite Ha in Hx. by destruct (entry_access x). }
      unfold narrows_write. rewrite Ha, Hno. simpl. destruct (entry_path e) as [| |[]]; simpl in Hr; try done; try set_solver.
      destruct c; [done|]. rewrite Hc in Hr. simpl in Hr. set_solver.
    + destruct (entry_path e) as [| |[]]; try done. simpl in Hr. rewrite Hc in Hr. intros _. destruct c; [done|]. simpl in Hr. set_solver.
  - unfold deny_patterns in Hp. apply list_elem_of_omap in Hp as (e & He & Hpat). apply deny_entries_in in He as [He Ha].
    exists e. unfold narrows_write. rewrite Ha. destruct (entry_path e); try done.
Qed.

Lemma profile_denial_restricted p ctx path :
  is_read_denied (file_system_sandbox_policy p) ctx path = true -> fs_kind (file_system_sandbox_policy p) = Restricted.
Proof. destruct p as [[|] ?| |?]; [done|..]; by intros [? _]%is_read_denied_spec. Qed.

(** Such a policy keeps the sandbox. *)
Lemma denial_keeps_sandbox p ctx path managed :
  infer_path_convention (cwd ctx) = Some (native os) -> in_context ctx path = true ->
  is_read_denied (file_system_sandbox_policy p) ctx path = true ->
  unsandboxed_execution_allowed os (file_system_sandbox_policy p) = false
  /\ (sandbox_preference tool <> PreferForbid -> should_sandbox os p (sandbox_preference tool) managed = true).
Proof.
  intros Hc Hin Hd. pose proof (profile_denial_restricted _ _ _ Hd) as Hk.
  destruct (read_denied_narrows _ _ _ _ Hc Hin Hd) as (e & He & Ha & Hn & Ht). split.
  - unfold unsandboxed_execution_allowed, has_denied_read_restrictions_for_convention. rewrite Hk. simpl. apply negb_false_iff.
    apply existsb_exists. exists e. split; [by apply list_elem_of_In|]. rewrite Ha. simpl.
    destruct (is_slash_tmp (entry_path e)); [|done]. by rewrite Ht.
  - intros Hf. unfold should_sandbox. destruct (sandbox_preference tool); [|done..]. unfold should_require_platform_sandbox.
    rewrite Hk. destruct managed, (network_is_enabled (profile_network p)); simpl; try done.
    unfold has_full_disk_write_access_for_convention. rewrite Hk. simpl. unfold has_write_narrowing_entries. rewrite Hk. simpl.
    assert (existsb (narrows_write (file_system_sandbox_policy p) (native os)) (entries (file_system_sandbox_policy p)) = true) as ->.
    { apply existsb_exists. exists e. split; [by apply list_elem_of_In|done]. }
    by rewrite andb_false_r.
Qed.

(** Nothing relative to the workspace is left in an approved policy. *)
Lemma approved_placed p ctx approved result root m :
  approval p ctx approved result root m -> scoped_denials p ctx -> existsb is_workspace_relative (entries result) = false.
Proof.
  intros Hap Hsc. apply not_true_iff_false. rewrite existsb_exists. intros (x & Hx%list_elem_of_In & Hrel). unfold is_workspace_relative in Hrel.
  destruct (ap_result _ _ _ _ _ _ Hap) as (grants & Hg & ->). simpl in Hx. apply elem_of_app in Hx as [Hx|Hx].
  - pose proof (ap_materialized _ _ _ _ _ _ Hap) as Hm. unfold try_materialize_project_roots_with_path_uris in Hm.
    destruct (materialize_entries _ _) as [es|] eqn:He; [|done]. cbn [option_map] in Hm. injection Hm as <-. simpl in Hx.
    destruct (materialize_entries_in _ _ _ _ He Hx) as (e & Hin & Hfrom).
    destruct (workspace_relative (entry_path e)) as [[sub g]|] eqn:Ew; [|subst; by rewrite Ew in Hrel].
    destruct (approved_base_entries p) as (_ & rest & Hbe & Hsub & _). rewrite Hbe in Hin.
    apply elem_of_cons in Hin as [->|Hin]; [done|]. specialize (Hsc e (Hsub e Hin)). rewrite Ew in Hsc.
    destruct Hfrom as (r & Hr & Hat). pose proof (workspace_relative_inv _ _ _ Ew) as Hinv.
    destruct g; [by destruct sub|]. unfold materialize_at in Hat. simpl in Hat. by repeat case_match; simplify_eq/=.
  - destruct (metadata_grants_in _ _ _ _ _ _ Hg Hx) as (? & ? & _ & _ & ->). done.
Qed.

Lemma materialize_placed roots es : existsb is_workspace_relative es = false -> materialize_entries roots es = Some es.
Proof.
  induction es as [|e es IH]; simpl; [done|]. intros [He Hes]%orb_false_iff. unfold is_workspace_relative in He.
  destruct (workspace_relative (entry_path e)); [done|]. by rewrite IH.
Qed.

Lemma policy_eqb_refl p : policy_eqb p p = true.
Proof.
  unfold policy_eqb. rewrite !bool_decide_true by done. simpl. induction (entries p) as [|e es IH]; simpl; [done|].
  by rewrite entry_eqb_refl, IH.
Qed.

Section Denied.
Let ctx := policy_context env.
Let baseline := file_system_sandbox_policy (env_permission_profile env).

Lemma materialized_profile_denies p q m path :
  materialize_profile env p = Some q ->
  try_materialize_project_roots_with_path_uris (file_system_sandbox_policy p) (env_workspace_roots env) = Some m ->
  scoped_denials (file_system_sandbox_policy p) ctx ->
  env_workspace_roots env <> [] \/ existsb is_workspace_relative (entries (file_system_sandbox_policy p)) = false ->
  is_read_denied (file_system_sandbox_policy p) ctx path = true -> is_read_denied (file_system_sandbox_policy q) ctx path = true.
Proof.
  intros Hq Hm Hsc Hroots Hd. pose proof (profile_denial_restricted _ _ _ Hd) as Hk.
  destruct p as [fs n| |n]; simpl in *; [|by apply is_read_denied_spec in Hd as [? _]..].
  assert (fs_kind m = Restricted) as Hkm.
  { unfold try_materialize_project_roots_with_path_uris in Hm. destruct (materialize_entries _ _); simpl in Hm; [by simplify_eq|done]. }
  unfold materialize_project_roots_with_path_uris in Hq. rewrite Hm in Hq. simpl in Hq.
  destruct (from_sandbox_policy_total m ltac:(congruence)) as (fs' & Hfs & _ & He). rewrite Hfs in Hq. simpl in Hq. simplify_eq/=.
  eapply read_denied_entries; [symmetry; by apply He|]. by eapply (materialized_keeps_denials (to_sandbox_policy fs) ctx m).
Qed.

(** The profile of an approved escalation denies what the profile it replaces
    denied, and so does its materialization. *)
Lemma escalation_denies p path :
  fst (escalation env) = Some (Some p) -> scoped_denials baseline ctx -> is_read_denied baseline ctx path = true ->
  is_read_denied (file_system_sandbox_policy p) ctx path = true
  /\ forall q, materialize_profile env p = Some q -> is_read_denied (file_system_sandbox_policy q) ctx path = true.
Proof.
  unfold escalation. fold ctx baseline. intros He Hsc Hd. destruct (_ && _) eqn:Hch; [|done]. apply andb_true_iff in Hch as [Hch _].
  destruct (for_approved_command_cases baseline ctx) as [E|(approved & root & m & Hap)].
  { rewrite E, policy_eqb_refl in Hch. done. }
  pose proof (approved_placed _ _ _ _ _ _ Hap Hsc) as Hpl. simpl in He. injection He as He.
  assert (fs_kind (for_approved_command baseline ctx) = Restricted) as Hk.
  { destruct (ap_result _ _ _ _ _ _ Hap) as (gs & _ & ->). exact (ap_kind _ _ _ _ _ _ Hap). }
  edestruct runtime_permissions_round_trip as (p' & Hp' & _ & Hent). rewrite Hp' in He. simplify_eq. specialize (Hent Hk).
  assert (is_read_denied (file_system_sandbox_policy p) ctx path = true) as Hden.
  { eapply read_denied_entries; [symmetry; exact Hent|]. by apply approved_command_keeps_denials. }
  split; [done|]. intros q Hq. rewrite <- Hent in Hpl.
  eapply (materialized_profile_denies p q (with_entries (file_system_sandbox_policy p) (entries (file_system_sandbox_policy p)))); try done; [| |by right].
  - unfold try_materialize_project_roots_with_path_uris. by rewrite (materialize_placed _ _ Hpl).
  - intros e [Hin _]%deny_entries_in. destruct (workspace_relative (entry_path e)) eqn:Ew; [|done].
    rewrite <- not_true_iff_false in Hpl. destruct Hpl. apply existsb_exists. exists e.
    split; [by apply list_elem_of_In|]. unfold is_workspace_relative. by rewrite Ew.
Qed.

(** The denials of the profile are placed: those relative to the workspace are
    paths, not globs, and stay inside it; there is a workspace when there are such
    entries; and for a sandbox of this process they can be materialised. *)
Record denials_placed : Prop := {
  dp_scoped : scoped_denials baseline ctx;
  dp_roots : env_workspace_roots env <> [] \/ existsb is_workspace_relative (entries baseline) = false;
  dp_local : uses_executor_managed_process_sandbox tool = true
             \/ is_some (try_materialize_project_roots_with_path_uris baseline (env_workspace_roots env)) = true }.

Lemma base_denies perms path :
  denials_placed -> base_permissions = Some perms -> is_read_denied baseline ctx path = true ->
  is_read_denied (file_system_sandbox_policy perms) ctx path = true.
Proof.
  intros Hpl. unfold base_permissions. destruct (uses_executor_managed_process_sandbox tool) eqn:Eu; [by intros [= <-]|]. intros Hp Hd.
  destruct (dp_local Hpl) as [|Hm]; [congruence|].
  destruct (try_materialize_project_roots_with_path_uris _ _) as [m|] eqn:Em; [|done].
  eapply materialized_profile_denies; [exact Hp|exact Em|apply (dp_scoped Hpl)|apply (dp_roots Hpl)|done].
Qed.

(** An attempt that keeps a denial: it asks for a sandbox, and the profiles it
    runs with deny the path; where the platform always has a sandbox, it gets it. *)
Definition attempt_denies (path : PathUri) (a : SandboxAttempt Net) : Prop :=
  sandbox_requested a = true
  /\ is_read_denied (file_system_sandbox_policy (att_permissions a)) ctx path = true
  /\ is_read_denied (file_system_sandbox_policy (exec_server_permissions a)) ctx path = true
  /\ (uses_executor_managed_process_sandbox tool = false -> os = Macos \/ os = Linux -> att_sandbox a <> NoSandbox).

Lemma selected_denies perms already ip es path :
  denials_placed -> base_permissions = Some perms -> is_read_denied baseline ctx path = true -> selected perms already ip es ->
  is_read_denied (file_system_sandbox_policy ip) ctx path = true /\ is_read_denied (file_system_sandbox_policy es) ctx path = true.
Proof.
  intros Hpl Hp Hd [|p _ He _|p q _ He _ Hq]; [split; [by apply base_denies|done]|..];
    destruct (escalation_denies _ _ He (dp_scoped Hpl) Hd) as [H1 H2]; split; auto.
Qed.

(** C11. A path the turn's profile denies reading stays denied in every attempt,
    approved, escalated, allowed by a rule or retried: no attempt leaves the
    sandbox.  This is so when the denials are placed ([denials_placed]: none is a
    glob relative to the workspace, those that are paths relative to it stay inside
    it, the workspace is known, and a sandbox applied by this process can be given
    them), the working directory is a path of the platform's own convention, and
    the tool does not forbid sandboxing.  [unplaced_denial_leaves_sandbox] below is
    a run with a denial that is not placed. *)
Theorem denied_reads_survive w path a o :
  denials_placed -> infer_path_convention (env_cwd env) = Some (native os) -> sandbox_preference tool <> PreferForbid ->
  in_context ctx path = true -> is_read_denied baseline ctx path = true ->
  Attempted a o ∈ snd (fst (run os tool env turn w)) -> attempt_denies path a.
Proof.
  intros Hpl Hc Hpref Hin Hd. destruct base_permissions_total as [perms Hp].
  destruct (run_emits perms (attempt_denies path) Hp) with (w := w) as [Hs _]; [|intros Ha; by eapply run_shape_attempts].
  intros already ip es managed requested sandbox exe n Hsel Hreq Hsb.
  destruct (selected_denies _ _ _ _ _ Hpl Hp Hd Hsel) as [Hip Hes].
  destruct (denial_keeps_sandbox perms ctx path managed Hc Hin (base_denies _ _ Hpl Hp Hd)) as [Hun _].
  destruct (denial_keeps_sandbox ip ctx path managed Hc Hin Hip) as [_ Hshould]. specialize (Hshould Hpref).
  assert (requested = true) as ->.
  { destruct Hreq as [-> | ->]; rewrite Hshould; [|by rewrite Hun]. unfold first_override, sandbox_override_for_first_attempt.
    rewrite Hun. simpl. by destruct (_ && _). }
  split_and!; [done..|]. intros Eu Hos. simpl. destruct (Hsb eq_refl) as [? | ->]; [congruence|].
  unfold select_initial. rewrite Hshould. simpl. by destruct Hos as [-> | ->].
Qed.
End Denied.
End Protocol.

(** ** Examples *)

(** A world whose tool is refused by the sandbox and succeeds without it, and whose
    reviewer approves while approvals are left. *)
#[local] Instance demo_world : ToolWorld nat unit unit unit unit unit := {
  request_approval _ _ w := match w with 0 => (0, Err (Rejected (lit "no"))) | S w => (w, Ok Approved) end;
  tool_run a w := (w, if sandbox_requested a then Err (Codex (SandboxDenied None)) else Ok tt);
  network_approval_spec _ := None;
  spec_additional_permissions _ := None;
  begin_network_approval _ _ w := (w, Ok None);
  into_deferred _ := None;
  finish_deferred_network_approval _ w := (w, Ok tt);
  environment_info w := (w, Err []) }.

Definition demo_tool (requirement : ExecApprovalRequirement) (permissions : SandboxPermissions) : ToolRuntime unit :=
  mkTool (Some requirement) permissions default_should_bypass_approval default_wants_no_sandbox_approval true PreferAuto false None (Ok tt).
Definition demo_environment (p : FileSystemSandboxPolicy) : TurnEnvironment :=
  mkEnvironment (Managed (ManagedRestricted (entries p) None) NetworkEnabled) [here] here None (Some []) None NoSandbox LevelDisabled false false.
Definition demo_turn (policy : AskForApproval) : TurnSettings := mkTurnSettings policy false false None None None.

Definition demo_run (p : FileSystemSandboxPolicy) (requirement : ExecApprovalRequirement) (permissions : SandboxPermissions) :=
  run Linux (demo_tool requirement permissions) (demo_environment p) (demo_turn UnlessTrusted).

(** What the events show of a run: questions, and the sandbox of each attempt. *)
Definition event_summary {Out Net} (e : Event Out Net) : option SandboxType :=
  match e with Asked _ _ => None | Attempted a _ => Some (att_sandbox a) end.

(** Asked, tried in the sandbox, refused by it, and retried outside it without a
    second question, since the call was approved. *)
Example denied_then_retried :
  List.map event_summary (snd (fst (demo_run read_only (NeedsApproval None None) UseDefault 1)))
  = [None; Some LinuxSeccomp; Some NoSandbox].
Proof. vm_compute. reflexivity. Qed.

Lemma denied_reads_survive_witness :
  exists a o, Attempted a o ∈ snd (fst (demo_run workspace_policy (NeedsApproval None None) RequireEscalated 1))
    /\ attempt_denies Linux (demo_tool (NeedsApproval None None) RequireEscalated) (demo_environment workspace_policy) (under [lit "secret"; lit "x"]) a.
Proof.
  destruct (demo_run workspace_policy (NeedsApproval None None) RequireEscalated 1) as [[w [|q [|[|a o] [|? ?]]]] r] eqn:E;
    try (vm_compute in E; discriminate E).
  assert (Attempted a o ∈ [q; Attempted a o]) as Hin by (apply list_elem_of_In; simpl; auto).
  exists a, o. split; [exact Hin|].
  refine (denied_reads_survive Linux (demo_tool (NeedsApproval None None) RequireEscalated) (demo_environment workspace_policy)
           (demo_turn UnlessTrusted) 1 (under [lit "secret"; lit "x"]) a o _ _ _ _ _ _).
  - split.
    + intros e He. apply list_elem_of_In in He. destruct He as [<-|[]]. intros root Hr. apply list_elem_of_In in Hr.
      destruct Hr as [<-|[]]. vm_compute. discriminate.
    + left. discriminate.
    + right. vm_compute. reflexivity.
  - vm_compute. reflexivity.
  - discriminate.
  - vm_compute. reflexivity.
  - vm_compute. reflexivity.
  - exact (eq_ind_r (fun r => Attempted a o ∈ snd (fst r)) Hin E).
Defined.

(** A denial that cannot be placed empties the policy, and an empty policy counts
    as one without denied reads: the escalated command runs outside the sandbox. *)
Definition unplaced_policy : FileSystemSandboxPolicy :=
  restricted [new_entry (Special RootPath) ReadAccess; new_entry (Special (ProjectRoots (Some (lit "~/secret")))) DenyAccess].

Theorem unplaced_denial_leaves_sandbox :
  unsandboxed_execution_allowed Linux unplaced_policy = false
  /\ List.map event_summary (snd (fst (demo_run unplaced_policy (NeedsApproval None None) RequireEscalated 1))) = [None; Some NoSandbox].
Proof. split; vm_compute; reflexivity. Qed.
