(* ===== verification/ExecLoad.v ===== *)
(** * Loading the exec-policy rules

    Models [load_exec_policy], [load_exec_policy_with_warning] and
    [collect_policy_files] of [codex-rs/core/src/exec_policy.rs]: the rules files of
    the configuration layers are read in order of precedence and parsed into one
    policy, and the requirements set by an administrator are merged over it.  The
    file system is a record of functions, any of which may fail. *)

From stdpp Require Import base list numbers option strings gmap sorting.
From Stdlib Require Import Lia.
From S2P Require Import Prelude RustStr ShellDetect ExecRule ExecPolicy ExecPolicyParser ExecAmend ExecApproval.

(** ** Files *)

Record DirEntry := mkEntry { entry_name : str; entry_is_file : result bool IoError }.

(** [read_dir] lists entries, each of which may fail to be read. *)
Record RulesFs := mkRulesFs {
  read_dir : str -> result (list (result DirEntry IoError)) IoError;
  read_to_string : str -> result str IoError }.

Inductive ExecPolicyError :=
| ReadDir (dir : str) (source : IoError)
| ReadFile (path : str) (source : IoError)
| ParsePolicy (path : str) (source : Error).

Definition is_rules_file (name : str) : bool := is_some_and (name_extension name) (str_eqb (lit "rules")).

(** The loop over the entries: the names of the rules files. *)
Fixpoint collect_entries (dir : str) (entries : list (result DirEntry IoError)) (names : list str)
  : result (list str) ExecPolicyError :=
  match entries with
  | [] => Ok names
  | entry :: rest =>
      let? entry := map_err (ReadDir dir) entry in
      let? is_file := map_err (ReadDir dir) (entry_is_file entry) in
      collect_entries dir rest (if is_rules_file (entry_name entry) && is_file then names ++ [entry_name entry] else names)
  end.

(** The files of one directory, by name. *)
Definition collect_policy_files (fs : RulesFs) (dir : str) : result (list str) ExecPolicyError :=
  match read_dir fs dir with
  | Err err => if match io_kind err with NotFound => true | _ => false end then Ok [] else Err (ReadDir dir err)
  | Ok entries =>
      let? names := collect_entries dir entries [] in
      Ok (List.map (path_join dir) (merge_sort str_le names))
  end.

(** ** Layers *)

Inductive ConfigLayerSource := SystemLayer | UserLayer | ProjectLayer | OtherLayer.

Record ConfigLayerEntry := mkLayer { layer_name : ConfigLayerSource; config_folder : option str }.

Record ConfigLayerStack (M P : Type) := mkStack {
  layers_low_to_high : list ConfigLayerEntry;
  ignore_user_and_project_exec_policy_rules : bool;
  requirements_exec_policy : option (Policy M P) }.
Arguments mkStack {M P} _ _ _.
Arguments layers_low_to_high {M P} _.
Arguments ignore_user_and_project_exec_policy_rules {M P} _.
Arguments requirements_exec_policy {M P} _.

Definition is_user_or_project (layer : ConfigLayerEntry) : bool :=
  match layer_name layer with UserLayer | ProjectLayer => true | _ => false end.

Fixpoint layer_policy_paths (fs : RulesFs) (ignore : bool) (layers : list ConfigLayerEntry) : result (list str) ExecPolicyError :=
  match layers with
  | [] => Ok []
  | layer :: rest =>
      if ignore && is_user_or_project layer then layer_policy_paths fs ignore rest
      else
        match config_folder layer with
        | None => layer_policy_paths fs ignore rest
        | Some folder =>
            let? paths := collect_policy_files fs (path_join folder (lit "rules")) in
            let? later := layer_policy_paths fs ignore rest in
            Ok (paths ++ later)
        end
  end.

Section Load.
Context {M P : Type} `{MultiMap M, AbsolutePathOps P, StdPath}.
Context (windows : bool).
Context (shlex_split : str -> option (list str)) (try_join : list str -> option str).
Context (show_rule : PrefixRule -> str) (show_match : RuleMatch P -> str).
Context (path_error : str -> str) (show_error : Error -> str).
Context (starlark : str -> str -> result (list BuiltinCall * option str) str).

Notation parse := (parse windows shlex_split try_join show_rule show_match path_error show_error starlark).

(** The loop over the files, with the parser's builder. *)
Fixpoint parse_policy_files (fs : RulesFs) (paths : list str) (b : PolicyBuilder M P) : result (PolicyBuilder M P) ExecPolicyError :=
  match paths with
  | [] => Ok b
  | path :: rest =>
      let? contents := map_err (ReadFile path) (read_to_string fs path) in
      let '(b', r) := parse path contents b in
      try? map_err (ParsePolicy path) r in
      parse_policy_files fs rest b'
  end.

Definition load_exec_policy (fs : RulesFs) (stack : ConfigLayerStack M P) : result (Policy M P) ExecPolicyError :=
  let? paths := layer_policy_paths fs (ignore_user_and_project_exec_policy_rules stack) (layers_low_to_high stack) in
  let? b := parse_policy_files fs paths builder_new in
  let policy := build b in
  match requirements_exec_policy stack with
  | None => Ok policy
  | Some requirements_policy => Ok (merge_overlay policy requirements_policy)
  end.

Definition load_exec_policy_with_warning (fs : RulesFs) (stack : ConfigLayerStack M P)
  : result (Policy M P * option ExecPolicyError) ExecPolicyError :=
  match load_exec_policy fs stack with
  | Ok policy => Ok (policy, None)
  | Err (ParsePolicy path source) =>
      Ok (match requirements_exec_policy stack with Some policy => policy | None => policy_empty end,
          Some (ParsePolicy path source))
  | Err err => Err err
  end.
End Load.

(** ** Requirements stay in force *)

Section Load_theorems.
Context {M P : Type} `{LawfulMultiMap M, AbsolutePathOps P, StdPath}.
Context (windows : bool).
Context (shlex_split : str -> option (list str)) (try_join : list str -> option str).
Context (show_rule : PrefixRule -> str) (show_match : RuleMatch P -> str).
Context (path_error : str -> str) (show_error : Error -> str).
Context (starlark : str -> str -> result (list BuiltinCall * option str) str).

Notation load := (load_exec_policy windows shlex_split try_join show_rule show_match path_error show_error starlark).
Notation load_with_warning :=
  (load_exec_policy_with_warning windows shlex_split try_join show_rule show_match path_error show_error starlark).

(** The loaded rules: those of the files below the requirements, or, after a
    parse error, the requirements alone. *)
Lemma load_with_warning_cases fs (stack : ConfigLayerStack M P) p w r :
  load_with_warning fs stack = Ok (p, w) -> requirements_exec_policy stack = Some r ->
  (w = None /\ exists own, p = merge_overlay own r) \/ (p = r /\ exists path source, w = Some (ParsePolicy path source)).
Proof.
  unfold load_exec_policy_with_warning. destruct (load fs stack) as [q|err] eqn:E; intros Hl Hr.
  - injection Hl as <- <-. left. split; [done|]. unfold load_exec_policy in E. inv_bind. rewrite Hr in E.
    injection E as <-. by eexists.
  - destruct err as [| |path source]; [done..|]. rewrite Hr in Hl. injection Hl as <- <-. right. split; [done|]. by eexists _, _.
Qed.

(** Whatever the rules files of users and projects contain, and also when one of
    them does not parse, the rules an administrator requires stay in force: a
    command they match is judged at least as strictly as they judge it, their
    network rules come last, and after a parse error they alone apply. *)
Theorem requirements_stay_in_force fs (stack : ConfigLayerStack M P) p w r :
  load_with_warning fs stack = Ok (p, w) -> requirements_exec_policy stack = Some r ->
  (forall c args fb opts e e', match_exact_rules r (c :: args) <> Some [] ->
     check_with_options windows r (c :: args) fb opts = Some e ->
     check_with_options windows p (c :: args) fb opts = Some e' -> decision_le (decision e) (decision e'))
  /\ (exists own, network_rules p = own ++ network_rules r)
  /\ (w <> None -> p = r).
Proof.
  intros Hl Hr. destruct (load_with_warning_cases fs stack p w r Hl Hr) as [(-> & own & ->)|[-> _]].
  - split_and!; [|by eexists|done]. intros c args fb opts e e' Hne He He'.
    eapply more_rules_stricter; [|exact Hne|exact He|exact He']. intros x Hx. rewrite merge_overlay_rules_of. set_solver.
  - split_and!; [|by exists []|done]. intros c args fb opts e e' _ He He'. rewrite He in He'. injection He' as <-.
    unfold decision_le. lia.
Qed.

(** Ignoring the user and project rules is loading without those layers. *)
Theorem ignored_layers_have_no_effect fs layers (req : option (Policy M P)) :
  load fs (mkStack layers true req) = load fs (mkStack (List.filter (fun l => negb (is_user_or_project l)) layers) false req).
Proof.
  unfold load_exec_policy. simpl.
  assert (layer_policy_paths fs true layers
          = layer_policy_paths fs false (List.filter (fun l => negb (is_user_or_project l)) layers)) as ->; [|done].
  induction layers as [|l layers IH]; [done|]. simpl. destruct (is_user_or_project l) eqn:E; simpl; [done|].
  destruct (config_folder l); [|done]. destruct (collect_policy_files _ _); [|done]. simpl. by rewrite IH.
Qed.
End Load_theorems.

(** ** Evaluation *)

Definition demo_fs : RulesFs :=
  mkRulesFs
    (fun dir => if str_eqb dir (lit "/etc/rules") then Ok [Ok (mkEntry (lit "b.rules") (Ok true)); Ok (mkEntry (lit "notes.txt") (Ok true))]
                else Err (mkIo NotFound []))
    (fun path => if str_eqb path (lit "/etc/rules/b.rules") then Ok (lit "broken") else Err (mkIo OtherKind [])).

Definition demo_stack : ConfigLayerStack (gmap str (list PrefixRule)) str :=
  mkStack [mkLayer SystemLayer (Some (lit "/etc")); mkLayer UserLayer (Some (lit "/home"))] false (Some overlay_policy).

Notation demo_load :=
  (load_exec_policy_with_warning false no_shlex (fun _ => None) no_text no_text no_text no_text demo_starlark demo_fs demo_stack).

Definition loaded : Policy (gmap str (list PrefixRule)) str :=
  match demo_load with Ok (p, _) => p | Err _ => policy_empty end.

(** The files allow [git status], the requirements ask about [git]. *)
Definition git_status_now : list str := [lit "git"; lit "status"].

Lemma requirements_stay_in_force_witness :
  demo_load = Ok (loaded, None)
  /\ forall e', check_with_options false loaded git_status_now (fun _ => Allow) match_options = Some e' ->
       decision_le Prompt (decision e').
Proof.
  assert (demo_load = Ok (loaded, None)) as Hl by (vm_compute; reflexivity). split; [exact Hl|]. intros e' He'.
  apply (proj1 (requirements_stay_in_force false no_shlex (fun _ => None) no_text no_text no_text no_text demo_starlark
    demo_fs demo_stack loaded None overlay_policy Hl eq_refl) (lit "git") [lit "status"] (fun _ => Allow) match_options
    (mkEvaluation Prompt [PrefixRuleMatch [lit "git"] Prompt None None]) e').
  - vm_compute; discriminate.
  - vm_compute; reflexivity.
  - exact He'.
Defined.
