(* ===== verification/ExecUpdate.v ===== *)
(** * Concurrent updates of the exec-policy rules

    [append_amendment_and_update] and [append_network_rule_and_update] of
    [codex-rs/core/src/exec_policy.rs] run as tasks that interleave at every [await]
    and between every read and write of the shared rules.  A semaphore with one
    permit, [update_lock], is held from before the rules file is touched until the
    new rules are stored.  This file gives the interleavings as a step relation and
    shows that every run is the run of the updates one after the other. *)

From stdpp Require Import base list numbers option strings gmap relations.
From Stdlib Require Import Lia.
From S2P Require Import Prelude RustStr ExecRule ExecPolicy ExecAmend ShellDetect BashScript DangerousCommand ExecApproval.

(** One update: what it writes and what fails. *)
Inductive UpdateOp :=
| Amend (faults : UpdateFaults) (codex_home : str) (amendment : list str)
| AddNetwork (faults : UpdateFaults) (codex_home h : str) (proto : NetworkRuleProtocol) (d : Decision) (justification : option str).

Section Concurrent.
Context {M P : Type} `{LawfulMultiMap M, AbsolutePathOps P}.
Context (windows : bool).
Context {J : Type} (to_json : str -> result str J) (show_error : Error -> str) (parent : str -> option str).

Notation State := (ManagerState M P).
Notation Outcome := (result unit (ExecPolicyUpdateError J)).

(** The update as one function. *)
Definition run_op (op : UpdateOp) (s : State) : State * Outcome :=
  match op with
  | Amend faults home amendment => append_amendment_and_update windows to_json parent faults home amendment s
  | AddNetwork faults home h proto d j => append_network_rule_and_update to_json show_error parent faults home h proto d j s
  end.

(** Its two halves: the file, then the rules in memory. *)
Definition append_part (op : UpdateOp) (file : option str) : option str * Outcome :=
  match op with
  | Amend faults home amendment =>
      let path := default_policy_path home in
      run_append faults path (blocking_append_allow_prefix_rule to_json parent (u_io faults) path amendment) file
  | AddNetwork faults home h proto d j =>
      let path := default_policy_path home in
      run_append faults path (blocking_append_network_rule to_json show_error parent (u_io faults) path h proto d j) file
  end.

(** Whether the update ends without storing new rules. *)
Definition nothing_to_store (op : UpdateOp) (p : Policy M P) : bool :=
  match op with Amend _ _ amendment => already_allowed windows p amendment | AddNetwork _ _ _ _ _ _ => false end.

Definition updated_rules (op : UpdateOp) (p : Policy M P) : result (Policy M P) Error :=
  match op with
  | Amend _ _ amendment => add_prefix_rule p amendment Allow
  | AddNetwork _ _ h proto d j => add_network_rule p h proto d j
  end.

(** ** Interleavings *)

(** Where a task is; [Loaded] has its own copy of the rules. *)
Inductive Phase :=
| Waiting (op : UpdateOp)
| Holding (op : UpdateOp)
| Appended (op : UpdateOp)
| Loaded (op : UpdateOp) (current : Policy M P)
| Stored (op : UpdateOp)
| Done (op : UpdateOp) (r : Outcome).

(** The shared state, the holder of the permit, the tasks, and the order in which
    updates ended. *)
Record System := mkSystem {
  shared : State;
  lock : option nat;
  tasks : gmap nat Phase;
  finished : list (nat * UpdateOp) }.

Definition finish (sys : System) (t : nat) (op : UpdateOp) (s : State) (r : Outcome) : System :=
  mkSystem s None (<[t := Done op r]> (tasks sys)) (finished sys ++ [(t, op)]).

Inductive step (sys : System) : System -> Prop :=
| step_acquire t op :
    tasks sys !! t = Some (Waiting op) -> lock sys = None ->
    step sys (mkSystem (shared sys) (Some t) (<[t := Holding op]> (tasks sys)) (finished sys))
| step_append t op file :
    tasks sys !! t = Some (Holding op) -> append_part op (rules_file (shared sys)) = (file, Ok tt) ->
    step sys (mkSystem (mkManager (policy (shared sys)) file) (lock sys) (<[t := Appended op]> (tasks sys)) (finished sys))
| step_append_failed t op file e :
    tasks sys !! t = Some (Holding op) -> append_part op (rules_file (shared sys)) = (file, Err e) ->
    step sys (finish sys t op (mkManager (policy (shared sys)) file) (Err e))
| step_load t op :
    tasks sys !! t = Some (Appended op) ->
    step sys (mkSystem (shared sys) (lock sys) (<[t := Loaded op (policy (shared sys))]> (tasks sys)) (finished sys))
| step_nothing t op current :
    tasks sys !! t = Some (Loaded op current) -> nothing_to_store op current = true ->
    step sys (finish sys t op (shared sys) (Ok tt))
| step_store t op current p :
    tasks sys !! t = Some (Loaded op current) -> nothing_to_store op current = false -> updated_rules op current = Ok p ->
    step sys (mkSystem (mkManager p (rules_file (shared sys))) (lock sys) (<[t := Stored op]> (tasks sys)) (finished sys))
| step_store_failed t op current e :
    tasks sys !! t = Some (Loaded op current) -> nothing_to_store op current = false -> updated_rules op current = Err e ->
    step sys (finish sys t op (shared sys) (Err (AddRule e)))
| step_release t op :
    tasks sys !! t = Some (Stored op) -> step sys (finish sys t op (shared sys) (Ok tt)).

(** All tasks wait. *)
Definition initial (s : State) (ops : gmap nat UpdateOp) : System := mkSystem s None (Waiting <$> ops) [].

(** The updates one after the other. *)
Definition replay (s : State) (l : list (nat * UpdateOp)) : State := fold_left (fun s e => fst (run_op (snd e) s)) l s.

(** ** Every run is a sequence of updates *)

Lemma run_op_parts op s :
  run_op op s =
    match append_part op (rules_file s) with
    | (file, Err e) => (mkManager (policy s) file, Err e)
    | (file, Ok _) =>
        if nothing_to_store op (policy s) then (mkManager (policy s) file, Ok tt)
        else match updated_rules op (policy s) with
             | Err e => (mkManager (policy s) file, Err (AddRule e))
             | Ok p => (mkManager p file, Ok tt)
             end
    end.
Proof.
  destruct op as [faults home amendment|faults home h proto d j]; simpl.
  - unfold append_amendment_and_update, amended_policy. destruct (run_append _ _ _ _) as [file [[]|e]]; [|done].
    by destruct (already_allowed windows (policy s) amendment).
  - unfold append_network_rule_and_update. by destruct (run_append _ _ _ _) as [file [[]|e]].
Qed.

Lemma replay_snoc s l t op : replay s (l ++ [(t, op)]) = fst (run_op op (replay s l)).
Proof. unfold replay. by rewrite fold_left_app. Qed.

Lemma replay_middle s pre t op post :
  replay s (pre ++ (t, op) :: post) = replay (fst (run_op op (replay s pre))) post.
Proof. unfold replay. by rewrite fold_left_app. Qed.

Definition holding (ph : Phase) : bool :=
  match ph with Waiting _ | Done _ _ => false | _ => true end.

(** What the holder of the permit has done to the state left by the updates before. *)
Definition progress (before now : State) (ph : Phase) : Prop :=
  match ph with
  | Waiting _ | Done _ _ => False
  | Holding op => now = before
  | Appended op => exists file, append_part op (rules_file before) = (file, Ok tt) /\ now = mkManager (policy before) file
  | Loaded op current =>
      current = policy before
      /\ exists file, append_part op (rules_file before) = (file, Ok tt) /\ now = mkManager (policy before) file
  | Stored op => run_op op before = (now, Ok tt)
  end.

Record serial (s0 : State) (sys : System) : Prop := {
  serial_state : match lock sys with
                 | None => shared sys = replay s0 (finished sys)
                 | Some t => exists ph, tasks sys !! t = Some ph /\ progress (replay s0 (finished sys)) (shared sys) ph
                 end;
  serial_holder : forall t ph, tasks sys !! t = Some ph -> holding ph = true -> lock sys = Some t;
  serial_done : forall t op r, tasks sys !! t = Some (Done op r) ->
    exists pre post, finished sys = pre ++ (t, op) :: post /\ r = snd (run_op op (replay s0 pre));
  serial_once : NoDup (finished sys).*1 /\ forall t, t ∈ (finished sys).*1 -> exists op r, tasks sys !! t = Some (Done op r) }.

Lemma serial_initial s0 ops : serial s0 (initial s0 ops).
Proof.
  split; simpl; [done| | |].
  - intros t ph (op & <- & _)%lookup_fmap_Some. done.
  - intros t op r (? & [=] & _)%lookup_fmap_Some.
  - split; [constructor|set_solver].
Qed.

Lemma serial_holds s0 sys t ph :
  serial s0 sys -> tasks sys !! t = Some ph -> holding ph = true ->
  lock sys = Some t /\ progress (replay s0 (finished sys)) (shared sys) ph.
Proof.
  intros [Hs Hh _ _] Ht Hp. pose proof (Hh t ph Ht Hp) as Hl. split; [done|]. rewrite Hl in Hs.
  destruct Hs as (ph' & Ht' & Hpr). congruence.
Qed.

(** The holder moves on without finishing. *)
Lemma serial_move s0 sys t ph ph' s' :
  serial s0 sys -> tasks sys !! t = Some ph -> holding ph = true -> holding ph' = true ->
  progress (replay s0 (finished sys)) s' ph' ->
  serial s0 (mkSystem s' (lock sys) (<[t := ph']> (tasks sys)) (finished sys)).
Proof.
  intros Hser Ht Hp Hp' Hpr. destruct (serial_holds _ _ _ _ Hser Ht Hp) as [Hl _]. destruct Hser as [Hs Hh Hd [Hn Ho]].
  split; simpl.
  - rewrite Hl. exists ph'. by rewrite lookup_insert_eq.
  - intros t' ph0. rewrite lookup_insert_Some. intros [[<- <-]|[Hne Ht']] Hph; [done|]. by eapply Hh.
  - intros t' op r. rewrite lookup_insert_Some. intros [[<- ->]|[Hne Ht']]; [done|]. by apply Hd.
  - split; [done|]. intros t' Hin. destruct (Ho t' Hin) as (op & r & Ht').
    destruct (decide (t = t')) as [<-|]; [rewrite Ht in Ht'; injection Ht' as ->; done|].
    exists op, r. by rewrite lookup_insert_ne.
Qed.

(** The holder finishes: its update is the next in the sequence. *)
Lemma serial_finish s0 sys t ph op s' r :
  serial s0 sys -> tasks sys !! t = Some ph -> holding ph = true ->
  run_op op (replay s0 (finished sys)) = (s', r) -> serial s0 (finish sys t op s' r).
Proof.
  intros Hser Ht Hp Hrun. destruct (serial_holds _ _ _ _ Hser Ht Hp) as [Hl _]. destruct Hser as [Hs Hh Hd [Hn Ho]].
  assert (t ∉ (finished sys).*1) as Hfresh.
  { intros Hin. destruct (Ho t Hin) as (op' & r' & Ht'). rewrite Ht in Ht'. by injection Ht' as ->. }
  split; simpl.
  - by rewrite replay_snoc, Hrun.
  - intros t' ph0. rewrite lookup_insert_Some. intros [[<- <-]|[Hne Ht']] Hph; [done|]. specialize (Hh t' ph0 Ht' Hph). congruence.
  - intros t' op' r'. rewrite lookup_insert_Some. intros [[<- [= <- <-]]|[Hne Ht']].
    + exists (finished sys), []. by rewrite Hrun.
    + destruct (Hd t' op' r' Ht') as (pre & post & -> & Hr). exists pre, (post ++ [(t, op)]). by rewrite <- (assoc_L (++)).
  - rewrite fmap_app. simpl. split.
    + apply NoDup_app. split_and!; [done|set_solver|apply NoDup_singleton].
    + intros t' [Hin| ->%list_elem_of_singleton]%elem_of_app; [|exists op, r; by rewrite lookup_insert_eq].
      destruct (Ho t' Hin) as (op' & r' & Ht'). exists op', r'. rewrite lookup_insert_ne; [done|]. intros ->. done.
Qed.

Lemma serial_step s0 sys sys' : serial s0 sys -> step sys sys' -> serial s0 sys'.
Proof.
  intros Hser Hstep. pose proof (run_op_parts) as Hparts.
  destruct Hstep as [t op Ht Hl|t op file Ht Ha|t op file e Ht Ha|t op Ht|t op current Ht Hn|t op current p Ht Hn Hu
    |t op current e Ht Hn Hu|t op Ht];
    try (destruct (serial_holds _ _ _ _ Hser Ht eq_refl) as [Hl Hp]; simpl in Hp).
  - destruct Hser as [Hs Hh Hd [Hnd Ho]]. rewrite Hl in Hs. split; simpl.
    + exists (Holding op). by rewrite lookup_insert_eq.
    + intros t' ph. rewrite lookup_insert_Some. intros [[<- _]|[_ Ht']] Hph; [done|]. specialize (Hh t' ph Ht' Hph). congruence.
    + intros t' op' r. rewrite lookup_insert_Some. intros [[<- ?]|[_ Ht']]; [done|]. by apply Hd.
    + split; [done|]. intros t' Hin. destruct (Ho t' Hin) as (op' & r & Ht').
      exists op', r. rewrite lookup_insert_ne; [done|]. intros ->. congruence.
  - eapply serial_move; [done..|]. rewrite Hp in Ha |- *. by exists file.
  - eapply serial_finish; [done..|]. rewrite Hparts, <- Hp, Ha. done.
  - eapply serial_move; [done..|]. destruct Hp as (file & Ha & ->). split; [done|]. by exists file.
  - eapply serial_finish; [done..|]. destruct Hp as (-> & file & Ha & ->). by rewrite Hparts, Ha, Hn.
  - eapply serial_move; [done..|]. destruct Hp as (-> & file & Ha & ->). simpl. by rewrite Hparts, Ha, Hn, Hu.
  - eapply serial_finish; [done..|]. destruct Hp as (-> & file & Ha & ->). by rewrite Hparts, Ha, Hn, Hu.
  - by eapply serial_finish.
Qed.

Lemma serial_reachable s0 ops sys : rtc step (initial s0 ops) sys -> serial s0 sys.
Proof.
  assert (forall a b, rtc step a b -> serial s0 a -> serial s0 b) as H'.
  { induction 1 as [|a b c Hab _ IH]; [done|]. intros Ha. by eapply IH, serial_step. }
  intros Hr. eapply H'; [done|]. apply serial_initial.
Qed.

(** ** Nothing accepted is lost *)

Notation rules_match p c := (exact_match p c \/ host_match windows p c).

(** Updates only add rules. *)
Definition grows (p p' : Policy M P) : Prop :=
  host_executables_by_name p' = host_executables_by_name p /\ forall k r, r ∈ rules_of p k -> r ∈ rules_of p' k.

#[local] Instance grows_preorder : PreOrder grows.
Proof. split; [by split|]. intros a b c [Ha Hb] [Hc Hd]. split; [congruence|auto]. Qed.

Lemma grows_match p p' c : grows p p' -> rules_match p c -> rules_match p' c.
Proof.
  intros [Hh Hr] [(c0 & args & r & m & -> & Hin & Hm)|(c0 & args & prog & key & r & m & -> & Ht & Hk & Hin & Hm & Hl)].
  - left. exists c0, args, r, m. auto.
  - right. exists c0, args, prog, key, r, m. split_and!; auto. unfold path_listed in *. by rewrite Hh.
Qed.

Lemma updated_rules_grows op p p' : updated_rules op p = Ok p' -> grows p p'.
Proof.
  destruct op as [faults home [|f rs]|faults home h proto d j]; simpl; [done| |].
  - intros Hadd. split; [by injection Hadd as <-|]. intros k r Hr.
    rewrite (add_prefix_rules_of p p' f rs Allow k Hadd). set_solver.
  - unfold add_network_rule. intros Hadd. inv_bind. destruct (blank j); [done|]. injection Hadd as <-. by split.
Qed.

Lemma run_op_grows op s : grows (policy s) (policy (fst (run_op op s))).
Proof.
  rewrite run_op_parts. destruct (append_part op (rules_file s)) as [file [[]|e]]; [|by split].
  destruct (nothing_to_store op (policy s)); [by split|]. destruct (updated_rules op (policy s)) as [p|] eqn:E; [|by split].
  by eapply updated_rules_grows.
Qed.

Lemma replay_grows l s : grows (policy s) (policy (replay s l)).
Proof.
  revert s. induction l as [|e l IH]; intros s; [by split|]. simpl. etransitivity; [apply run_op_grows|apply IH].
Qed.

(** A successful amendment leaves its prefix matched. *)
Lemma amend_matches faults home amendment s s' :
  run_op (Amend faults home amendment) s = (s', Ok tt) -> rules_match (policy s') amendment.
Proof.
  rewrite run_op_parts. destruct (append_part _ (rules_file s)) as [file [[]|e]] eqn:Ea; [|done]. simpl nothing_to_store.
  destruct (already_allowed windows (policy s) amendment) eqn:Hal.
  - intros [= <-]. simpl. unfold already_allowed in Hal.
    destruct (check_multiple_with_options windows (policy s) [amendment] _ _) as [ev|] eqn:Ev; [|done].
    apply andb_true_iff in Hal as [_ Hal]. apply (check_multiple_spec windows) in Ev as (Hm & _ & _). rewrite Hm in Hal.
    apply existsb_rule_with in Hal as (c & m & ->%list_elem_of_singleton & Hin & _).
    apply rule_matches_nonempty. intros Hnil. rewrite Hnil in Hin. set_solver.
  - simpl. destruct amendment as [|f rs]; [done|]. destruct (add_prefix_rule (policy s) (f :: rs) Allow) as [p|] eqn:Hadd; [|done].
    intros [= <-]. simpl. left.
    exists f, rs, (mkRule (mkPattern f (map Single rs)) Allow None), (PrefixRuleMatch (f :: rs) Allow None None). split_and!; [done| |].
    + rewrite (add_prefix_rules_of _ _ _ _ _ _ Hadd), decide_True by done. set_solver.
    + unfold rule_matches. cbn [pattern].
      assert (matches_prefix (mkPattern f (map Single rs)) (f :: rs) = Some (f :: rs)) as ->; [|done].
      apply matches_prefix_iff. exists rs, []. rewrite (right_id_L [] (++)). split_and!; [done|done|apply singles_match].
Qed.

(** C9. However updates interleave, whenever no update holds the permit the shared
    rules and file are those of running the finished updates one after the other,
    each with the outcome it has in that sequence; so no amendment that succeeded is
    lost to a concurrent one. *)
Theorem updates_are_serial (s0 : State) (ops : gmap nat UpdateOp) (sys : System) :
  rtc step (initial s0 ops) sys -> lock sys = None ->
  shared sys = replay s0 (finished sys)
  /\ NoDup (finished sys).*1
  /\ forall t op r, tasks sys !! t = Some (Done op r) ->
       (exists pre post, finished sys = pre ++ (t, op) :: post /\ r = snd (run_op op (replay s0 pre)))
       /\ (forall faults home amendment, op = Amend faults home amendment -> r = Ok tt ->
             rules_match (policy (shared sys)) amendment).
Proof.
  intros Hr Hl. apply serial_reachable in Hr as [Hs _ Hd [Hn _]]. rewrite Hl in Hs. split_and!; [done|done|].
  intros t op r Ht. destruct (Hd t op r Ht) as (pre & post & Hf & Hrr). split; [by exists pre, post|].
  intros faults home amendment -> ->. rewrite Hs, Hf, replay_middle.
  destruct (run_op (Amend faults home amendment) (replay s0 pre)) as [s' r'] eqn:E. simpl in Hrr |- *. subst r'.
  eapply grows_match; [apply replay_grows|]. by eapply amend_matches.
Qed.
End Concurrent.

(** ** Evaluation *)

Definition amend_task (word : str) : UpdateOp := Amend (mkUpdateFaults no_faults None) (lit "/home") [word].
Definition two_amendments : gmap nat UpdateOp := <[0 := amend_task (lit "cargo")]> {[1 := amend_task (lit "make")]}.

Notation demo_step := (step false plain_to_json (fun _ => []) demo_parent).

(** The first update runs to its end while the second waits for the permit. *)
Lemma demo_run :
  exists sys : System (M:=gmap str (list PrefixRule)) (P:=str) (J:=unit),
    rtc demo_step (initial before_amendment two_amendments) sys
    /\ lock sys = None /\ tasks sys !! 0 = Some (Done (amend_task (lit "cargo")) (Ok tt)).
Proof.
  eexists. split.
  - eapply rtc_l; [apply (step_acquire _ _ _ _ _ 0 (amend_task (lit "cargo"))); [vm_compute; reflexivity|reflexivity]|].
    eapply rtc_l; [eapply (step_append _ _ _ _ _ 0 (amend_task (lit "cargo"))); [vm_compute; reflexivity|vm_compute; reflexivity]|].
    eapply rtc_l; [apply (step_load _ _ _ _ _ 0 (amend_task (lit "cargo"))); vm_compute; reflexivity|].
    eapply rtc_l; [eapply (step_store _ _ _ _ _ 0 (amend_task (lit "cargo"))); [vm_compute; reflexivity..]|].
    eapply rtc_l; [apply (step_release _ _ _ _ _ 0 (amend_task (lit "cargo"))); vm_compute; reflexivity|].
    apply rtc_refl.
  - split; vm_compute; reflexivity.
Qed.

Lemma updates_are_serial_witness :
  exists sys : System (M:=gmap str (list PrefixRule)) (P:=str) (J:=unit),
    rtc demo_step (initial before_amendment two_amendments) sys
    /\ (exact_match (policy (shared sys)) [lit "cargo"] \/ host_match false (policy (shared sys)) [lit "cargo"]).
Proof.
  destruct demo_run as (sys & Hr & Hl & Ht). exists sys. split; [exact Hr|].
  apply (proj2 (proj2 (updates_are_serial false plain_to_json (fun _ => []) demo_parent before_amendment two_amendments sys Hr Hl))
           0 (amend_task (lit "cargo")) (Ok tt) Ht) with (1 := eq_refl). reflexivity.
Defined.
