(* ===== verification/RustInt.v ===== *)
(** * Rust's fixed-width integers

    Integers are kept as [Z] within the range of their Rust type; the methods the
    sources call are written out with their clamping or wrap-around. *)

From stdpp Require Import base numbers option.
From Stdlib Require Import Lia.

#[local] Open Scope Z_scope.

Definition i64_min : Z := - 2 ^ 63.
Definition i64_max : Z := 2 ^ 63 - 1.
Definition u8_max : Z := 2 ^ 8 - 1.
Definition u64_max : Z := 2 ^ 64 - 1.

Definition in_i64 (z : Z) : Prop := i64_min <= z <= i64_max.

Definition clamp (lo hi z : Z) : Z := Z.max lo (Z.min hi z).

(** [i64::saturating_add], [saturating_sub], [saturating_mul]. *)
Definition i64_saturating_add (a b : Z) : Z := clamp i64_min i64_max (a + b).
Definition i64_saturating_sub (a b : Z) : Z := clamp i64_min i64_max (a - b).
Definition i64_saturating_mul (a b : Z) : Z := clamp i64_min i64_max (a * b).

(** [AtomicI64::fetch_add] wraps around. *)
Definition i64_wrapping_add (a b : Z) : Z := (a + b + 2 ^ 63) mod 2 ^ 64 - 2 ^ 63.

(** [u8::saturating_add]. *)
Definition u8_saturating_add (a b : Z) : Z := Z.min u8_max (a + b).

(** [i64::try_from] of a [u64], [None] when it does not fit. *)
Definition i64_try_from (z : Z) : option Z :=
  if (i64_min <=? z) && (z <=? i64_max) then Some z else None.

(** [u64::try_from] of an [i64]. *)
Definition u64_try_from (z : Z) : option Z :=
  if (0 <=? z) && (z <=? u64_max) then Some z else None.

Ltac unfold_int := unfold in_i64, i64_saturating_add, i64_saturating_sub, i64_saturating_mul,
  u8_saturating_add, clamp, i64_min, i64_max, u8_max, u64_max in *.

Lemma i64_saturating_add_exact a b : in_i64 (a + b) -> i64_saturating_add a b = a + b.
Proof. unfold_int. lia. Qed.

Lemma i64_saturating_sub_exact a b : in_i64 (a - b) -> i64_saturating_sub a b = a - b.
Proof. unfold_int. lia. Qed.

Lemma i64_wrapping_add_exact a b : in_i64 (a + b) -> i64_wrapping_add a b = a + b.
Proof.
  unfold_int. unfold i64_wrapping_add. intros H.
  rewrite Z.mod_small; lia.
Qed.

Lemma u8_saturating_add_bound a b : 0 <= a -> 0 <= b -> 0 <= u8_saturating_add a b <= u8_max.
Proof. unfold_int. lia. Qed.

Lemma i64_try_from_exact z : in_i64 z -> i64_try_from z = Some z.
Proof.
  unfold in_i64, i64_try_from. intros [??].
  by rewrite (proj2 (Z.leb_le _ _)), (proj2 (Z.leb_le _ _)).
Qed.

Lemma u64_try_from_exact z : 0 <= z -> in_i64 z -> u64_try_from z = Some z.
Proof.
  unfold_int. unfold u64_try_from, u64_max. intros ? [??].
  rewrite (proj2 (Z.leb_le 0 _)), (proj2 (Z.leb_le z _)) by lia. done.
Qed.
