(* ===== verification/GoalStore.v ===== *)
(** * The store of thread goals

    Models [codex-rs/state/src/runtime/goals.rs] and
    [codex-rs/state/src/model/thread_goal.rs]: the table [thread_goals] (one row
    per thread), the table of continuation deferrals, and every statement
    [GoalStore] runs on them.  A statement is atomic; it may fail, in which case
    it has no effect, and a method that runs two statements may fail between
    them.  The failures to come are part of the connection.  SQL text is
    translated clause by clause, statuses are the strings the rows hold.
    SQLite's integers are [Z]: the counters are assumed to stay within 64 bits. *)

From stdpp Require Import base list numbers option strings gmap.
From Stdlib Require Import Lia.
From S2P Require Import Prelude RustStr RustInt.

#[local] Open Scope Z_scope.

(** ** model/thread_goal.rs *)

Inductive ThreadGoalStatus :=
| Active | Paused | Blocked | UsageLimited | BudgetLimited | Complete.

#[export] Instance ThreadGoalStatus_eq_dec : EqDecision ThreadGoalStatus.
Proof. solve_decision. Defined.

Definition as_str (s : ThreadGoalStatus) : str :=
  match s with
  | Active => lit "active"
  | Paused => lit "paused"
  | Blocked => lit "blocked"
  | UsageLimited => lit "usage_limited"
  | BudgetLimited => lit "budget_limited"
  | Complete => lit "complete"
  end.

#[global] Arguments as_str : simpl never.

Definition is_active (s : ThreadGoalStatus) : bool := bool_decide (s = Active).
Definition is_terminal (s : ThreadGoalStatus) : bool :=
  match s with BudgetLimited | Complete => true | _ => false end.

(** What can go wrong: the database, or a row that does not decode. *)
Inductive StoreError :=
| Sqlx
| UnknownStatus (other : str)
| InvalidTimestamp (value : Z).

Definition status_try_from (value : str) : result ThreadGoalStatus StoreError :=
  if str_eqb value (lit "active") then Ok Active
  else if str_eqb value (lit "paused") then Ok Paused
  else if str_eqb value (lit "blocked") then Ok Blocked
  else if str_eqb value (lit "usage_limited") then Ok UsageLimited
  else if str_eqb value (lit "budget_limited") then Ok BudgetLimited
  else if str_eqb value (lit "complete") then Ok Complete
  else Err (UnknownStatus value).

(** A [ThreadId] is the text it prints as; a [DateTime<Utc>] its milliseconds. *)
Record ThreadGoal := mkGoal {
  thread_id : str;
  goal_id : str;
  objective : str;
  status : ThreadGoalStatus;
  token_budget : option Z;
  tokens_used : Z;
  time_used_seconds : Z;
  created_at : Z;
  updated_at : Z }.

Record ThreadGoalRow := mkRow {
  row_thread_id : str;
  row_goal_id : str;
  row_objective : str;
  row_status : str;
  row_token_budget : option Z;
  row_tokens_used : Z;
  row_time_used_seconds : Z;
  row_created_at_ms : Z;
  row_updated_at_ms : Z }.

(** [chrono]: which timestamps [DateTime::from_timestamp_millis] accepts. *)
Class Chrono := from_timestamp_millis_ok : Z -> bool.

Section Rows.
Context `{Chrono}.

(** Values before 2020 are legacy rows in seconds. *)
Definition epoch_millis_to_datetime (value : Z) : result Z StoreError :=
  let millis := if value <? 1577836800000 then i64_saturating_mul value 1000 else value in
  if from_timestamp_millis_ok millis then Ok millis else Err (InvalidTimestamp value).

Definition thread_goal_from_row (row : ThreadGoalRow) : result ThreadGoal StoreError :=
  let? st := status_try_from (row_status row) in
  let? created := epoch_millis_to_datetime (row_created_at_ms row) in
  let? updated := epoch_millis_to_datetime (row_updated_at_ms row) in
  Ok (mkGoal (row_thread_id row) (row_goal_id row) (row_objective row) st (row_token_budget row)
        (row_tokens_used row) (row_time_used_seconds row) created updated).

End Rows.

(** ** The database *)

Record Db := mkDb {
  goals : gmap (list N) ThreadGoalRow;
  deferrals : gset (list N);
  faults : list bool }.

Definition set_goals (f : gmap (list N) ThreadGoalRow -> gmap (list N) ThreadGoalRow) (db : Db) : Db :=
  mkDb (f (goals db)) (deferrals db) (faults db).

(** Database calls: state passing with errors. *)
Definition DbM (A : Type) : Type := Db -> result A StoreError * Db.

Definition db_ret {A} (a : A) : DbM A := fun db => (Ok a, db).
Definition db_lift {A} (r : result A StoreError) : DbM A := fun db => (r, db).
Definition db_bind {A B} (m : DbM A) (k : A -> DbM B) : DbM B := fun db =>
  match m db with
  | (Ok a, db') => k a db'
  | (Err e, db') => (Err e, db')
  end.

Notation "'let!' x := e 'in' k" := (db_bind e (fun x => k))
  (at level 200, x name, e at level 100, k at level 200) : rust_scope.

(** One statement: it fails when the connection says so, and has then no effect. *)
Definition statement {A} (f : Db -> A * Db) : DbM A := fun db =>
  match faults db with
  | true :: fs => (Err Sqlx, mkDb (goals db) (deferrals db) fs)
  | false :: fs => let (a, db') := f (mkDb (goals db) (deferrals db) fs) in (Ok a, db')
  | [] => let (a, db') := f db in (Ok a, db')
  end.

(** [UPDATE ... SET set WHERE thread_id = ? AND cond]: the new row, if one matched. *)
Definition update_where (tid : str) (cond : ThreadGoalRow -> bool)
    (set : ThreadGoalRow -> ThreadGoalRow) (db : Db) : option ThreadGoalRow * Db :=
  match goals db !! tid with
  | Some row =>
      if cond row then (Some (set row), set_goals (<[tid := set row]>) db) else (None, db)
  | None => (None, db)
  end.

Record GoalUpdate := mkUpdate {
  upd_objective : option str;
  upd_status : option ThreadGoalStatus;
  upd_token_budget : option (option Z);
  upd_expected_goal_id : option str }.

Inductive GoalAccountingOutcome :=
| Unchanged (goal : option ThreadGoal)
| Updated (goal : ThreadGoal).

Inductive GoalAccountingMode := ActiveStatusOnly | ActiveOnly | ActiveOrComplete | ActiveOrStopped.

(** [token_budget IS NOT NULL AND tokens_used >= token_budget]. *)
Definition budget_reached (used : Z) (budget : option Z) : bool :=
  match budget with Some b => b <=? used | None => false end.

Definition status_after_budget_limit (st : ThreadGoalStatus) (used : Z) (budget : option Z) : ThreadGoalStatus :=
  if bool_decide (st = Active) && is_some_and budget (fun b => b <=? used) then BudgetLimited else st.

(** [? IS NULL OR goal_id = ?]. *)
Definition expected_matches (expected : option str) (row : ThreadGoalRow) : bool :=
  match expected with None => true | Some g => str_eqb (row_goal_id row) g end.

(** [status IN (...)]. *)
Definition status_in (row : ThreadGoalRow) (sts : list ThreadGoalStatus) : bool :=
  existsb (fun s => str_eqb (row_status row) (as_str s)) sts.

Definition active_or_stopped : list ThreadGoalStatus := [Active; Paused; Blocked; UsageLimited; BudgetLimited].

Definition status_filter (mode : GoalAccountingMode) : list ThreadGoalStatus :=
  match mode with
  | ActiveStatusOnly => [Active]
  | ActiveOnly => [Active; BudgetLimited]
  | ActiveOrComplete => [Active; BudgetLimited; Complete]
  | ActiveOrStopped => active_or_stopped
  end.

Definition budget_limit_status_filter (mode : GoalAccountingMode) : list ThreadGoalStatus :=
  match mode with
  | ActiveStatusOnly | ActiveOnly | ActiveOrComplete => [Active]
  | ActiveOrStopped => active_or_stopped
  end.

(** The [CASE] of the two updates that set a status; [budget] is the new budget
    or the row's. *)
Definition updated_status (row : ThreadGoalRow) (new : ThreadGoalStatus) (budget : option Z) : str :=
  if str_eqb (row_status row) (as_str BudgetLimited)
     && (str_eqb (as_str new) (as_str Paused) || str_eqb (as_str new) (as_str Blocked))
  then row_status row
  else if str_eqb (as_str new) (lit "active") && budget_reached (row_tokens_used row) budget
  then as_str BudgetLimited
  else as_str new.

(** ** runtime/goals.rs *)

Section Store.
Context `{Chrono}.

(** [row.map(thread_goal_from_row).transpose()]. *)
Definition decode_optional (row : option ThreadGoalRow) : result (option ThreadGoal) StoreError :=
  match row with
  | Some r => let? g := thread_goal_from_row r in Ok (Some g)
  | None => Ok None
  end.

Definition get_thread_goal (tid : str) : DbM (option ThreadGoal) :=
  let! row := statement (fun db => (goals db !! tid, db)) in
  db_lift (decode_optional row).

(** One transaction of two inserts: nothing is kept unless the commit succeeds. *)
Definition replace_thread_goal_snapshot (goal : ThreadGoal) : DbM unit :=
  statement (fun db =>
    (tt, mkDb (<[thread_id goal := mkRow (thread_id goal) (goal_id goal) (objective goal)
                   (as_str (status goal)) (token_budget goal) (tokens_used goal)
                   (time_used_seconds goal) (created_at goal) (updated_at goal)]> (goals db))
              ({[thread_id goal]} ∪ deferrals db) (faults db))).

Definition has_thread_goal_continuation_deferral (tid : str) : DbM bool :=
  statement (fun db => (bool_decide (tid ∈ deferrals db), db)).

Definition clear_thread_goal_continuation_deferral (tid : str) : DbM unit :=
  statement (fun db => (tt, mkDb (goals db) (deferrals db ∖ {[tid]}) (faults db))).

Definition fresh_row (tid new_id obj : str) (st : ThreadGoalStatus) (budget : option Z) (now_ms : Z) : ThreadGoalRow :=
  mkRow tid new_id obj (as_str (status_after_budget_limit st 0 budget)) budget 0 0 now_ms now_ms.

Definition replace_thread_goal (new_id : str) (now_ms : Z) (tid obj : str)
    (st : ThreadGoalStatus) (budget : option Z) : DbM ThreadGoal :=
  let! row := statement (fun db =>
    let row := fresh_row tid new_id obj st budget now_ms in
    (row, set_goals (<[tid := row]>) db)) in
  db_lift (thread_goal_from_row row).

(** The conflict clause updates only a complete goal. *)
Definition insert_thread_goal (new_id : str) (now_ms : Z) (tid obj : str)
    (st : ThreadGoalStatus) (budget : option Z) : DbM (option ThreadGoal) :=
  let! row := statement (fun db =>
    let row := fresh_row tid new_id obj st budget now_ms in
    match goals db !! tid with
    | Some old =>
        if str_eqb (row_status old) (lit "complete")
        then (Some row, set_goals (<[tid := row]>) db)
        else (None, db)
    | None => (Some row, set_goals (<[tid := row]>) db)
    end) in
  db_lift (decode_optional row).

(** What the four forms of the update statement set. *)
Definition apply_update (now_ms : Z) (u : GoalUpdate) (row : ThreadGoalRow) : ThreadGoalRow :=
  let budget := unwrap_or (upd_token_budget u) (row_token_budget row) in
  mkRow (row_thread_id row) (row_goal_id row)
    (unwrap_or (upd_objective u) (row_objective row))
    (match upd_status u, upd_token_budget u with
     | Some st, _ => updated_status row st budget
     | None, Some _ =>
         if str_eqb (row_status row) (lit "active") && budget_reached (row_tokens_used row) budget
         then as_str BudgetLimited else row_status row
     | None, None => row_status row
     end)
    budget (row_tokens_used row) (row_time_used_seconds row) (row_created_at_ms row) now_ms.

Definition update_thread_goal (now_ms : Z) (tid : str) (u : GoalUpdate) : DbM (option ThreadGoal) :=
  match upd_objective u, upd_status u, upd_token_budget u with
  | None, None, None =>
      let! goal := get_thread_goal tid in
      db_ret match goal, upd_expected_goal_id u with
             | Some g, Some expected => if str_eqb (goal_id g) expected then Some g else None
             | g, _ => g
             end
  | _, _, _ =>
      let! updated := statement (update_where tid (expected_matches (upd_expected_goal_id u)) (apply_update now_ms u)) in
      match updated with
      | None => db_ret None
      | Some _ => get_thread_goal tid
      end
  end.

Definition set_status (now_ms : Z) (st : str) (row : ThreadGoalRow) : ThreadGoalRow :=
  mkRow (row_thread_id row) (row_goal_id row) (row_objective row) st (row_token_budget row)
    (row_tokens_used row) (row_time_used_seconds row) (row_created_at_ms row) now_ms.

Definition update_active_thread_goal_status (now_ms : Z) (tid : str) (st : ThreadGoalStatus) : DbM (option ThreadGoal) :=
  let! updated := statement (update_where tid
    (fun row => str_eqb (row_status row) (lit "active")
                || (str_eqb (as_str st) (lit "usage_limited") && str_eqb (row_status row) (lit "budget_limited")))
    (set_status now_ms (as_str st))) in
  match updated with
  | None => db_ret None
  | Some _ => get_thread_goal tid
  end.

Definition pause_active_thread_goal (now_ms : Z) (tid : str) : DbM (option ThreadGoal) :=
  update_active_thread_goal_status now_ms tid Paused.

Definition usage_limit_active_thread_goal (now_ms : Z) (tid : str) : DbM (option ThreadGoal) :=
  update_active_thread_goal_status now_ms tid UsageLimited.

(** Deleting a goal deletes its deferral ([ON DELETE CASCADE]). *)
Definition delete_thread_goal (tid : str) : DbM (option ThreadGoal) :=
  let! row := statement (fun db =>
    match goals db !! tid with
    | Some row => (Some row, mkDb (delete tid (goals db)) (deferrals db ∖ {[tid]}) (faults db))
    | None => (None, db)
    end) in
  db_lift (decode_optional row).

(** The [SET] clause of the accounting statement. *)
Definition charge (now_ms dt dtok : Z) (mode : GoalAccountingMode) (row : ThreadGoalRow) : ThreadGoalRow :=
  mkRow (row_thread_id row) (row_goal_id row) (row_objective row)
    (if status_in row (budget_limit_status_filter mode)
        && budget_reached (row_tokens_used row + dtok) (row_token_budget row)
     then as_str BudgetLimited else row_status row)
    (row_token_budget row) (row_tokens_used row + dtok) (row_time_used_seconds row + dt)
    (row_created_at_ms row) now_ms.

Definition account_thread_goal_usage (now_ms : Z) (tid : str) (time_delta_seconds token_delta : Z)
    (mode : GoalAccountingMode) (expected : option str) : DbM GoalAccountingOutcome :=
  let time_delta_seconds := Z.max time_delta_seconds 0 in
  let token_delta := Z.max token_delta 0 in
  if (time_delta_seconds =? 0) && (token_delta =? 0) then
    let! goal := get_thread_goal tid in db_ret (Unchanged goal)
  else
    let! row := statement (update_where tid
      (fun row => status_in row (status_filter mode) && expected_matches expected row)
      (charge now_ms time_delta_seconds token_delta mode)) in
    match row with
    | None => let! goal := get_thread_goal tid in db_ret (Unchanged goal)
    | Some row => let! goal := db_lift (thread_goal_from_row row) in db_ret (Updated goal)
    end.

End Store.

(** ** Runs of the store *)

Inductive StoreOp :=
| OpReplace (new_id : str) (now_ms : Z) (tid obj : str) (st : ThreadGoalStatus) (budget : option Z)
| OpInsert (new_id : str) (now_ms : Z) (tid obj : str) (st : ThreadGoalStatus) (budget : option Z)
| OpUpdate (now_ms : Z) (tid : str) (u : GoalUpdate)
| OpPause (now_ms : Z) (tid : str)
| OpUsageLimit (now_ms : Z) (tid : str)
| OpDelete (tid : str)
| OpAccount (now_ms : Z) (tid : str) (dt dtok : Z) (mode : GoalAccountingMode) (expected : option str)
| OpSnapshot (goal : ThreadGoal)
| OpClearDeferral (tid : str).

Section Runs.
Context `{Chrono}.

Definition run_op (op : StoreOp) (db : Db) : Db :=
  match op with
  | OpReplace i n t o s b => (replace_thread_goal i n t o s b db).2
  | OpInsert i n t o s b => (insert_thread_goal i n t o s b db).2
  | OpUpdate n t u => (update_thread_goal n t u db).2
  | OpPause n t => (pause_active_thread_goal n t db).2
  | OpUsageLimit n t => (usage_limit_active_thread_goal n t db).2
  | OpDelete t => (delete_thread_goal t db).2
  | OpAccount n t dt dk m e => (account_thread_goal_usage n t dt dk m e db).2
  | OpSnapshot g => (replace_thread_goal_snapshot g db).2
  | OpClearDeferral t => (clear_thread_goal_continuation_deferral t db).2
  end.

(** What an operation may write into a row, given the row before. *)
Inductive row_effect : StoreOp -> option ThreadGoalRow -> ThreadGoalRow -> Prop :=
| eff_replace i n t o s b old : row_effect (OpReplace i n t o s b) old (fresh_row t i o s b n)
| eff_insert i n t o s b old : row_effect (OpInsert i n t o s b) old (fresh_row t i o s b n)
| eff_update n t u row : row_effect (OpUpdate n t u) (Some row) (apply_update n u row)
| eff_pause n t row : row_effect (OpPause n t) (Some row) (set_status n (as_str Paused) row)
| eff_usage_limit n t row : row_effect (OpUsageLimit n t) (Some row) (set_status n (as_str UsageLimited) row)
| eff_account n t dt dk m e row :
    row_effect (OpAccount n t dt dk m e) (Some row) (charge n (Z.max dt 0) (Z.max dk 0) m row)
| eff_snapshot g old :
    row_effect (OpSnapshot g) old (mkRow (thread_id g) (goal_id g) (objective g) (as_str (status g))
      (token_budget g) (tokens_used g) (time_used_seconds g) (created_at g) (updated_at g)).

(** A call only changes the database through its statements. *)
Lemma statement_goals {A} (f : Db -> A * Db) (P : gmap (list N) ThreadGoalRow -> Prop) db :
  P (goals db) -> (forall db', goals db' = goals db -> P (goals (f db').2)) -> P (goals (statement f db).2).
Proof.
  intros H0 Hf. unfold statement. destruct (faults db) as [|[] fs]; [|done|].
  - specialize (Hf db eq_refl). by destruct (f db).
  - specialize (Hf (mkDb (goals db) (deferrals db) fs) eq_refl). by destruct (f _).
Qed.

Lemma db_bind_goals {A B} (m : DbM A) (k : A -> DbM B) (P : gmap (list N) ThreadGoalRow -> Prop) db :
  P (goals (m db).2) -> (forall a db', P (goals db') -> P (goals (k a db').2)) -> P (goals (db_bind m k db).2).
Proof. intros Hm Hk. unfold db_bind. destruct (m db) as [[a|e] db']; simpl in *; auto. Qed.

Lemma get_thread_goal_goals (t : str) (P : gmap (list N) ThreadGoalRow -> Prop) db :
  P (goals db) -> P (goals (get_thread_goal t db).2).
Proof.
  intros HP. apply (db_bind_goals _ _ P); [apply statement_goals; [done|intros ? E; simpl; by rewrite E]|done].
Qed.

Lemma update_where_goals (t : str) (cond : ThreadGoalRow -> bool) (set : ThreadGoalRow -> ThreadGoalRow) (P : gmap (list N) ThreadGoalRow -> Prop) db :
  P (goals db) -> (forall row, goals db !! t = Some row -> P (<[t := set row]> (goals db))) ->
  P (goals (update_where t cond set db).2).
Proof.
  intros H0 H1. unfold update_where. destruct (goals db !! t) as [row|] eqn:E; [|done].
  destruct (cond row); simpl; [by apply H1|done].
Qed.

Definition op_thread (op : StoreOp) : str :=
  match op with
  | OpReplace _ _ t _ _ _ | OpInsert _ _ t _ _ _ | OpUpdate _ t _ | OpPause _ t | OpUsageLimit _ t
  | OpDelete t | OpAccount _ t _ _ _ _ | OpClearDeferral t => t
  | OpSnapshot g => thread_id g
  end.

(** [stable op db m]: every row of [m] is an old one, or that of [op]'s thread
    and an effect of [op]. *)
Definition stable (op : StoreOp) (db : Db) (m : gmap (list N) ThreadGoalRow) : Prop :=
  forall t r, m !! t = Some r -> goals db !! t = Some r \/ (t = op_thread op /\ row_effect op (goals db !! t) r).

Lemma stable_refl op db : stable op db (goals db).
Proof. intros t r ?. by left. Qed.

Lemma stable_insert op db t r :
  t = op_thread op -> row_effect op (goals db !! t) r -> stable op db (<[t := r]> (goals db)).
Proof.
  intros Ht He t' r' [[<- ->]|[? Hl]]%lookup_insert_Some; [by right|by left].
Qed.

Lemma update_where_stable op db (t : str) cond set :
  t = op_thread op -> (forall row, row_effect op (Some row) (set row)) ->
  stable op db (goals (statement (update_where t cond set) db).2).
Proof.
  intros Ht He. apply (statement_goals _ (stable _ db)); [apply stable_refl|]. intros db' Hdb.
  apply (update_where_goals _ _ _ (stable op db)); rewrite Hdb; [apply stable_refl|].
  intros row Hr. apply stable_insert; [done|]. rewrite Hr. apply He.
Qed.

Lemma run_op_stable op db : stable op db (goals (run_op op db)).
Proof.
  destruct op; simpl.
  - apply (db_bind_goals _ _ (stable _ db)); [|done]. apply (statement_goals _ (stable _ db)); [apply stable_refl|]. intros db' E. simpl. rewrite E.
    apply stable_insert; [done|constructor].
  - apply (db_bind_goals _ _ (stable _ db)); [|done]. apply (statement_goals _ (stable _ db)); [apply stable_refl|]. intros db' E. rewrite E.
    destruct (goals db !! tid) as [old|] eqn:Eo; [destruct (str_eqb _ _)|]; simpl; rewrite E;
      try apply stable_refl; apply stable_insert; done || constructor.
  - assert (Hget : forall db', stable (OpUpdate now_ms tid u) db (goals db') ->
      stable (OpUpdate now_ms tid u) db (goals (get_thread_goal tid db').2)) by (intros; by apply (get_thread_goal_goals _ (stable _ db))).
    assert (Hupd := update_where_stable (OpUpdate now_ms tid u) db tid
      (expected_matches (upd_expected_goal_id u)) (apply_update now_ms u) eq_refl (eff_update now_ms tid u)).
    unfold update_thread_goal. repeat case_goal; (apply (db_bind_goals _ _ (stable _ db)); [|intros a db'; try done; destruct a; auto]);
      try exact Hupd; apply Hget, stable_refl.
  - apply (db_bind_goals _ _ (stable _ db)); [apply update_where_stable; [done|intros; constructor]|].
    intros [a|] db' ?; [by apply (get_thread_goal_goals _ (stable _ db))|done].
  - apply (db_bind_goals _ _ (stable _ db)); [apply update_where_stable; [done|intros; constructor]|].
    intros [a|] db' ?; [by apply (get_thread_goal_goals _ (stable _ db))|done].
  - apply (db_bind_goals _ _ (stable _ db)); [|done]. apply (statement_goals _ (stable _ db)); [apply stable_refl|]. intros db' E. rewrite E.
    destruct (goals db !! tid) eqn:Et; simpl; rewrite ?E; [|apply stable_refl].
    intros t' r' [_ Hl]%lookup_delete_Some. by left.
  - unfold account_thread_goal_usage. case_goal.
    + apply (db_bind_goals _ _ (stable _ db)); [apply (get_thread_goal_goals _ (stable _ db)), stable_refl|done].
    + apply (db_bind_goals _ _ (stable _ db)); [apply update_where_stable; [done|intros; constructor]|].
      intros [r|] db' ?; (apply (db_bind_goals _ _ (stable _ db)); [|done]); [done|by apply (get_thread_goal_goals _ (stable _ db))].
  - apply (statement_goals _ (stable _ db)); [apply stable_refl|]. intros db' E. simpl. rewrite E. apply stable_insert; [done|constructor].
  - apply (statement_goals _ (stable _ db)); [apply stable_refl|]. intros db' E. simpl. rewrite E. apply stable_refl.
Qed.

(** A row that decodes to a status, and is not active once its budget is spent. *)
Definition row_ok (r : ThreadGoalRow) : Prop :=
  exists st, row_status r = as_str st
  /\ (st = Active -> budget_reached (row_tokens_used r) (row_token_budget r) = false).

Definition store_ok (db : Db) : Prop := forall t r, goals db !! t = Some r -> row_ok r.

(** A snapshot copied from another thread is well formed itself. *)
Definition op_ok (op : StoreOp) : Prop :=
  match op with
  | OpSnapshot g => status g = Active -> budget_reached (tokens_used g) (token_budget g) = false
  | _ => True
  end.

Definition run_ops (ops : list StoreOp) (db : Db) : Db := fold_left (fun d op => run_op op d) ops db.

Lemma as_str_inj s1 s2 : as_str s1 = as_str s2 -> s1 = s2.
Proof. destruct s1, s2; vm_compute; congruence. Qed.

Lemma as_str_eqb s1 s2 : str_eqb (as_str s1) (as_str s2) = bool_decide (s1 = s2).
Proof. destruct s1, s2; reflexivity. Qed.

Lemma status_try_from_as_str s : status_try_from (as_str s) = Ok s.
Proof. destruct s; reflexivity. Qed.

(** Setting a status through the [CASE] of an update keeps the row well formed. *)
Lemma updated_status_ok row new budget :
  row_ok row ->
  exists st, updated_status row new budget = as_str st
  /\ (st = Active -> budget_reached (row_tokens_used row) budget = false).
Proof.
  intros (st & E & _). unfold updated_status. rewrite E. change (lit "active") with (as_str Active).
  rewrite !as_str_eqb. repeat case_bool_decide; subst; cbn [andb orb]; try congruence;
    destruct (budget_reached _ _) eqn:Eb; eexists; (split; [reflexivity|]); congruence.
Qed.

Lemma budget_case_ok (b : bool) row st used budget :
  row_status row = as_str st ->
  (st = Active -> b = false -> budget_reached used budget = false) ->
  exists st', (if b then as_str BudgetLimited else row_status row) = as_str st'
  /\ (st' = Active -> budget_reached used budget = false).
Proof.
  intros E Hb. destruct b; [exists BudgetLimited; split; [done|congruence]|].
  exists st. auto.
Qed.

Lemma apply_update_ok n u row : row_ok row -> row_ok (apply_update n u row).
Proof.
  intros Hr. pose proof Hr as (st & E & Ha). unfold row_ok, apply_update; simpl.
  destruct (upd_status u) as [new|]; [by apply updated_status_ok|].
  destruct (upd_token_budget u) as [b|]; simpl; [|by exists st].
  eapply budget_case_ok; [exact E|]. intros -> Hb.
  rewrite E in Hb. by destruct (budget_reached _ _).
Qed.

Lemma charge_ok n dt dk m row : row_ok row -> row_ok (charge n dt dk m row).
Proof.
  intros (st & E & Ha). unfold row_ok, charge; simpl. eapply budget_case_ok; [exact E|].
  intros -> Hb. unfold status_in in Hb. rewrite E in Hb. by destruct m, (budget_reached _ _).
Qed.

Lemma fresh_row_ok t i o st b n : row_ok (fresh_row t i o st b n).
Proof.
  eexists. split; [reflexivity|]. simpl. unfold status_after_budget_limit, is_some_and, budget_reached.
  destruct b as [b|]; case_bool_decide; simpl; try done. by destruct (b <=? 0).
Qed.

Lemma row_effect_ok op old r :
  op_ok op -> (forall o, old = Some o -> row_ok o) -> row_effect op old r -> row_ok r.
Proof.
  intros Hop Hold He. destruct He; try apply fresh_row_ok.
  - by apply apply_update_ok, Hold.
  - by exists Paused.
  - by exists UsageLimited.
  - by apply charge_ok, Hold.
  - exists (status g). split; [done|]. apply Hop.
Qed.

Lemma run_op_ok op db : op_ok op -> store_ok db -> store_ok (run_op op db).
Proof.
  intros Hop Hdb t r [Hl|[_ He]]%run_op_stable; [by apply (Hdb t)|].
  eapply row_effect_ok; [done| |exact He]. intros o Ho. by apply (Hdb t).
Qed.

(** Usage only grows while a goal keeps its identity. *)
Lemma row_effect_usage op old r' :
  row_effect op (Some old) r' ->
  match op with
  | OpReplace i _ _ _ _ _ | OpInsert i _ _ _ _ _ => i <> row_goal_id old
  | OpSnapshot _ => False
  | _ => True
  end ->
  row_goal_id r' = row_goal_id old ->
  row_tokens_used old <= row_tokens_used r' /\ row_time_used_seconds old <= row_time_used_seconds r'.
Proof. intros He Hop Hg. inversion He; subst; simpl in *; try congruence; try done; lia. Qed.

(** Reading a goal leaves the rows alone, whatever happens. *)
Lemma get_thread_goal_pure t db r db' : get_thread_goal t db = (r, db') -> goals db' = goals db.
Proof.
  intros E. change db' with (r, db').2. rewrite <- E.
  by apply (get_thread_goal_goals t (fun m => m = goals db)).
Qed.

Lemma get_thread_goal_Ok t db r db' :
  get_thread_goal t db = (Ok r, db') -> goals db' = goals db /\ decode_optional (goals db !! t) = Ok r.
Proof.
  intros E. split; [by eapply get_thread_goal_pure|]. revert E. unfold get_thread_goal, db_bind, statement, db_lift.
  destruct (faults db) as [|[] fs]; simpl; intros; by simplify_eq.
Qed.

Lemma status_try_from_Ok v st : status_try_from v = Ok st -> v = as_str st.
Proof.
  unfold status_try_from. intros E. repeat (case_goal || case_hyp E); simplify_eq; by apply str_eqb_spec.
Qed.

Lemma thread_goal_from_row_Ok row g :
  thread_goal_from_row row = Ok g ->
  row_status row = as_str (status g) /\ goal_id g = row_goal_id row
  /\ tokens_used g = row_tokens_used row /\ time_used_seconds g = row_time_used_seconds row.
Proof.
  unfold thread_goal_from_row. intros E. inv_bind. simplify_eq/=. split_and!; try done. by apply status_try_from_Ok.
Qed.

Lemma decode_optional_Ok o g :
  decode_optional o = Ok g ->
  match g with
  | Some g => exists row, o = Some row /\ row_status row = as_str (status g) /\ row_goal_id row = goal_id g
  | None => o = None
  end.
Proof.
  unfold decode_optional. destruct o as [row|]; intros E; inv_bind; simplify_eq; [|done].
  exists row. by apply thread_goal_from_row_Ok in H0 as (? & ? & _).
Qed.

(** A status update that finds the goal it was aimed at. *)
Lemma update_status_Ok n t st g db r db' row :
  goals db !! t = Some row -> row_goal_id row = g ->
  update_thread_goal n t (mkUpdate None (Some st) None (Some g)) db = (Ok r, db') ->
  is_some r = true /\ goals db' !! t = Some (apply_update n (mkUpdate None (Some st) None (Some g)) row).
Proof.
  intros Hr Hg. unfold update_thread_goal. simpl. unfold db_bind at 1, statement, update_where. simpl.
  destruct (faults db) as [|[] fs]; simpl; [|by intros [=]|]; rewrite Hr, Hg, str_eqb_refl; simpl;
    intros [E Hd]%get_thread_goal_Ok; simpl in E, Hd; rewrite E; rewrite lookup_insert_eq in *;
    (split; [|done]); (destruct r; [done|]); by apply decode_optional_Ok in Hd.
Qed.

(** Accounting either charges the row that passes the filters or does nothing,
    whichever statements fail. *)
Lemma account_cases n t dt dk m e db r db' :
  account_thread_goal_usage n t dt dk m e db = (r, db') ->
  (goals db' = goals db /\ forall g, r <> Ok (Updated g))
  \/ exists row, goals db !! t = Some row /\ expected_matches e row = true
     /\ goals db' = <[t := charge n (Z.max dt 0) (Z.max dk 0) m row]> (goals db)
     /\ r = match thread_goal_from_row (charge n (Z.max dt 0) (Z.max dk 0) m row) with
            | Ok g => Ok (Updated g) | Err x => Err x end.
Proof.
  assert (Hget : forall d r d', db_bind (get_thread_goal t) (fun goal => db_ret (Unchanged goal)) d = (r, d') ->
    goals d' = goals d /\ forall g, r <> Ok (Updated g)).
  { intros d r0 d' E. unfold db_bind in E. destruct (get_thread_goal t d) as [[g|x] d1] eqn:Eg;
      apply get_thread_goal_pure in Eg; unfold db_ret in E; simplify_eq; done. }
  unfold account_thread_goal_usage. case_goal; [intros H1; left; by apply Hget|].
  unfold db_bind at 1, statement, update_where. destruct (faults db) as [|[] fs]; simpl.
  2: by intros [= <- <-]; left.
  all: destruct (goals db !! t) as [row|] eqn:Er; [|intros Hx; left; by apply Hget in Hx].
  all: destruct (status_in row (status_filter m) && expected_matches e row) eqn:Ec;
    [|intros Hx; left; by apply Hget in Hx].
  all: apply andb_true_iff in Ec as [_ Ec]; intros Hx; right; exists row; unfold db_bind, db_lift, db_ret in Hx;
    (destruct (thread_goal_from_row _) eqn:Eg); simplify_eq/=; split_and!; done.
Qed.

(** ** Properties *)

(** C33. Whatever sequence of operations is run on the store, and whichever
    statements fail, no row is active with its token budget spent, and every
    row's status decodes.  A snapshot that is inserted is a row the store could hold,
    as its only caller copies one from it. *)
Theorem active_goal_within_budget ops db :
  Forall op_ok ops -> store_ok db -> store_ok (run_ops ops db).
Proof.
  unfold run_ops. intros Hops. revert db. induction Hops as [|op ops Hop Hops IH]; intros db Hdb; [done|].
  simpl. by apply IH, run_op_ok.
Qed.

(** Accounting on a working connection.  A goal whose status and identity
    pass the filters is charged exactly the non-negative parts of the deltas, and
    becomes budget-limited exactly when the filter for that lets it and the new
    total reaches the budget; in every other case nothing changes.  Other
    threads' goals are untouched either way. *)
Theorem account_thread_goal_usage_spec n t dt dk m e db r :
  faults db = [] -> goals db !! t = Some r ->
  let hit := (0 <? Z.max dt 0 + Z.max dk 0) && status_in r (status_filter m) && expected_matches e r in
  let r' := charge n (Z.max dt 0) (Z.max dk 0) m r in
  account_thread_goal_usage n t dt dk m e db =
    if hit
    then (match thread_goal_from_row r' with Ok g => Ok (Updated g) | Err x => Err x end,
          set_goals (<[t := r']>) db)
    else (match thread_goal_from_row r with Ok g => Ok (Unchanged (Some g)) | Err x => Err x end, db).
Proof.
  intros Hf Hr hit r'. unfold hit, account_thread_goal_usage, db_bind, get_thread_goal, statement, db_bind, db_lift, db_ret.
  destruct ((Z.max dt 0 =? 0) && (Z.max dk 0 =? 0)) eqn:Ez.
  - rewrite Hf, Hr. simpl. replace (0 <? _) with false by (symmetry; apply Z.ltb_ge; lia).
    simpl. by destruct (thread_goal_from_row r).
  - replace (0 <? _) with true by (symmetry; apply Z.ltb_lt; lia). rewrite Hf. unfold update_where. rewrite Hr. simpl.
    destruct (status_in r (status_filter m) && expected_matches e r) eqn:Ec; simpl.
    + by destruct (thread_goal_from_row _).
    + rewrite Hf. simpl. rewrite Hr. simpl. by destruct (thread_goal_from_row r).
Qed.

End Runs.

(** ** Witnesses *)

(** Timestamps within two hundred thousand years of the epoch. *)
Definition near_epoch : Chrono := fun ms => Z.abs ms <=? 6311390400000000.

Definition sample_ops : list StoreOp :=
  [OpReplace (lit "g1") 1700000000000 (lit "t") (lit "ship it") Active (Some 100);
   OpAccount 1700000001000 (lit "t") 1 60 ActiveOnly (Some (lit "g1"));
   OpAccount 1700000002000 (lit "t") 1 60 ActiveOnly (Some (lit "g1"));
   OpUpdate 1700000003000 (lit "t") (mkUpdate None (Some Active) None None)].

(** The second charge spends the budget; setting the goal active again does not help. *)
Lemma active_goal_within_budget_witness :
  store_ok (@run_ops near_epoch sample_ops (mkDb ∅ ∅ []))
  /\ option_map row_status (goals (@run_ops near_epoch sample_ops (mkDb ∅ ∅ [])) !! lit "t") = Some (as_str BudgetLimited).
Proof.
  split; [|vm_compute; reflexivity].
  apply (@active_goal_within_budget near_epoch); [|intros t r Hl; vm_compute in Hl; discriminate].
  repeat constructor.
Defined.
