(* ===== verification/GoalAccounting.v ===== *)
(** * Accounting of goal progress

    Models [codex-rs/ext/goal/src/accounting.rs]: what one thread remembers to
    charge its goal for tokens and time, and to notice runs of failing or empty
    turns.  The mutex makes every method one step on the state; the
    progress-accounting permit, held across several of them, is part of the runs
    of [GoalRun.v].  An [Instant] is a number of nanoseconds of the monotonic
    clock; the methods that read the clock take its value. *)

From stdpp Require Import base list numbers option strings gmap.
From Stdlib Require Import Lia.
From S2P Require Import Prelude RustStr RustInt GoalStore.

#[local] Open Scope Z_scope.

(** ** Protocol types *)

Record TokenUsage := mkUsage {
  input_tokens : Z;
  cached_input_tokens : Z;
  cache_write_input_tokens : Z;
  output_tokens : Z;
  reasoning_output_tokens : Z;
  total_tokens : Z;
  codex_rollout_budget_units : option str }.

Inductive ModeKind := PlanMode | DefaultMode.

Record ToolName := mkTool { tool_name : str; namespace : option str }.

Definition DEFAULT_FUNCTION_NAMESPACE : str := lit "functions".

Definition is_default_namespace (t : ToolName) : bool :=
  match namespace t with
  | None => true
  | Some n => is_nil n || str_eqb n DEFAULT_FUNCTION_NAMESPACE
  end.

Inductive ToolCallOutcome :=
| Completed (success : bool)
| OutcomeBlocked
| Failed (handler_executed : bool)
| Aborted.

Inductive MessagePhase := Commentary | FinalAnswer.

(** Of the items of a turn, what [record_item] looks at. *)
Inductive TurnItem :=
| UserMessage | FunctionCallOutput | HookPrompt
| AgentMessage (content : list str) (phase : option MessagePhase) (has_questions : bool)
| Plan
| Reasoning (summary_text : list str)
| CommandExecution | DynamicToolCall | CollabAgentToolCall | SubAgentActivity | WebSearch | ImageView
| Extension | ImageGeneration | EnteredReviewMode | ExitedReviewMode | FileChange | McpToolCall
| ContextCompaction.

(** ** State *)

Record GoalTurnAccounting := mkTurn {
  current_token_usage : TokenUsage;
  last_accounted_token_usage : TokenUsage;
  active_goal_id : option str;
  account_tokens : bool;
  failed_execution : bool;
  successful_tool : bool;
  empty_final : bool;
  has_activity : bool }.

Record GoalWallClockAccounting := mkWall {
  last_accounted_at : Z;
  wall_goal_id : option str }.

Record GoalAccountingInner := mkInner {
  current_turn_id : option str;
  turns : gmap (list N) GoalTurnAccounting;
  wall_clock : GoalWallClockAccounting;
  budget_limit_reported_goal_id : option str;
  execution_failure_goal_id : option str;
  consecutive_execution_failure_turns : Z;
  automatic_goal_turn_id : option str;
  consecutive_empty_turns : Z;
  last_accounted_descendant_token_usage : Z }.

Record GoalAccountingState := mkAcc {
  inner : GoalAccountingInner;
  descendant_token_usage : Z }.

Record GoalProgressSnapshot := mkSnap {
  snap_token_usage : TokenUsage;
  snap_descendant : Z;
  snap_goal_id : str;
  snap_time_delta : Z;
  snap_token_delta : Z }.

Record IdleGoalProgressSnapshot := mkIdle {
  idle_descendant : Z;
  idle_goal_id : str;
  idle_time_delta : Z;
  idle_token_delta : Z }.

Inductive BudgetLimitedGoalDisposition := KeepActive | ClearActive.

Record RecordedTokenDelta := mkDelta { turn_delta : Z; thread_unflushed_delta : Z }.

(** Assignments to single fields. *)
Definition with_current_turn v i := mkInner v (turns i) (wall_clock i) (budget_limit_reported_goal_id i)
  (execution_failure_goal_id i) (consecutive_execution_failure_turns i) (automatic_goal_turn_id i)
  (consecutive_empty_turns i) (last_accounted_descendant_token_usage i).
Definition with_turns f i := mkInner (current_turn_id i) (f (turns i)) (wall_clock i) (budget_limit_reported_goal_id i)
  (execution_failure_goal_id i) (consecutive_execution_failure_turns i) (automatic_goal_turn_id i)
  (consecutive_empty_turns i) (last_accounted_descendant_token_usage i).
Definition with_wall f i := mkInner (current_turn_id i) (turns i) (f (wall_clock i)) (budget_limit_reported_goal_id i)
  (execution_failure_goal_id i) (consecutive_execution_failure_turns i) (automatic_goal_turn_id i)
  (consecutive_empty_turns i) (last_accounted_descendant_token_usage i).
Definition with_reported v i := mkInner (current_turn_id i) (turns i) (wall_clock i) v
  (execution_failure_goal_id i) (consecutive_execution_failure_turns i) (automatic_goal_turn_id i)
  (consecutive_empty_turns i) (last_accounted_descendant_token_usage i).
Definition with_failures g n i := mkInner (current_turn_id i) (turns i) (wall_clock i) (budget_limit_reported_goal_id i)
  g n (automatic_goal_turn_id i)
  (consecutive_empty_turns i) (last_accounted_descendant_token_usage i).
Definition with_automatic v i := mkInner (current_turn_id i) (turns i) (wall_clock i) (budget_limit_reported_goal_id i)
  (execution_failure_goal_id i) (consecutive_execution_failure_turns i) v
  (consecutive_empty_turns i) (last_accounted_descendant_token_usage i).
Definition with_empty_turns n i := mkInner (current_turn_id i) (turns i) (wall_clock i) (budget_limit_reported_goal_id i)
  (execution_failure_goal_id i) (consecutive_execution_failure_turns i) (automatic_goal_turn_id i)
  n (last_accounted_descendant_token_usage i).
Definition with_descendant n i := mkInner (current_turn_id i) (turns i) (wall_clock i) (budget_limit_reported_goal_id i)
  (execution_failure_goal_id i) (consecutive_execution_failure_turns i) (automatic_goal_turn_id i)
  (consecutive_empty_turns i) n.

Definition on_inner (f : GoalAccountingInner -> GoalAccountingInner) (s : GoalAccountingState) : GoalAccountingState :=
  mkAcc (f (inner s)) (descendant_token_usage s).

Definition set_turn_goal g t := mkTurn (current_token_usage t) (last_accounted_token_usage t) g (account_tokens t)
  (failed_execution t) (successful_tool t) (empty_final t) (has_activity t).
Definition set_turn_current u t := mkTurn u (last_accounted_token_usage t) (active_goal_id t) (account_tokens t)
  (failed_execution t) (successful_tool t) (empty_final t) (has_activity t).
Definition set_turn_last u t := mkTurn (current_token_usage t) u (active_goal_id t) (account_tokens t)
  (failed_execution t) (successful_tool t) (empty_final t) (has_activity t).
Definition set_turn_tools failed success t := mkTurn (current_token_usage t) (last_accounted_token_usage t) (active_goal_id t)
  (account_tokens t) failed success (empty_final t) (has_activity t).
Definition set_turn_output empty active t := mkTurn (current_token_usage t) (last_accounted_token_usage t) (active_goal_id t)
  (account_tokens t) (failed_execution t) (successful_tool t) empty active.

(** ** Tokens *)

Definition goal_token_delta_for_usage (u : TokenUsage) : Z :=
  i64_saturating_add (i64_saturating_sub (input_tokens u) (cached_input_tokens u)) (Z.max (output_tokens u) 0).

Definition token_delta_since_last_accounting (last current : TokenUsage) : Z :=
  goal_token_delta_for_usage
    (mkUsage (i64_saturating_sub (input_tokens current) (input_tokens last))
       (i64_saturating_sub (cached_input_tokens current) (cached_input_tokens last))
       (i64_saturating_sub (cache_write_input_tokens current) (cache_write_input_tokens last))
       (i64_saturating_sub (output_tokens current) (output_tokens last))
       (i64_saturating_sub (reasoning_output_tokens current) (reasoning_output_tokens last))
       (i64_saturating_sub (total_tokens current) (total_tokens last))
       None).

Definition new_turn (usage : TokenUsage) (account : bool) : GoalTurnAccounting :=
  mkTurn usage usage None account false false false false.

Definition reset_baseline_to_current (t : GoalTurnAccounting) : GoalTurnAccounting :=
  set_turn_last (current_token_usage t) t.

Definition turn_token_delta (t : GoalTurnAccounting) : Z :=
  token_delta_since_last_accounting (last_accounted_token_usage t) (current_token_usage t).

(** The fold over the values of the map. *)
Definition thread_unflushed_token_delta (i : GoalAccountingInner) : Z :=
  fold_left (fun total t => i64_saturating_add total (Z.max (turn_token_delta t) 0))
    (List.filter account_tokens (List.map snd (map_to_list (turns i)))) 0.

(** ** Time *)

Definition NANOS : Z := 1000000000.

(** [self.last_accounted_at.elapsed().as_secs()]: an instant in the future has
    elapsed by nothing. *)
Definition time_delta_since_last_accounting (now : Z) (w : GoalWallClockAccounting) : Z :=
  unwrap_or (i64_try_from (Z.max 0 (now - last_accounted_at w) / NANOS)) i64_max.

(** [Instant::checked_add]: the seconds of an instant are an [i64]. *)
Definition instant_checked_add (t secs : Z) : option Z :=
  let t' := t + secs * NANOS in
  if t' / NANOS <=? i64_max then Some t' else None.

Definition wall_mark_accounted (now accounted_seconds : Z) (w : GoalWallClockAccounting) : GoalWallClockAccounting :=
  if accounted_seconds <=? 0 then w
  else
    let advance := unwrap_or (u64_try_from accounted_seconds) u64_max in
    mkWall (unwrap_or (instant_checked_add (last_accounted_at w) advance) now) (wall_goal_id w).

Definition wall_reset_baseline (now : Z) (w : GoalWallClockAccounting) : GoalWallClockAccounting :=
  mkWall now (wall_goal_id w).

Definition wall_mark_active_goal (now : Z) (g : str) (w : GoalWallClockAccounting) : GoalWallClockAccounting :=
  if bool_decide (wall_goal_id w = Some g) then w else mkWall now (Some g).

Definition wall_clear_active_goal (now : Z) (w : GoalWallClockAccounting) : GoalWallClockAccounting :=
  mkWall now None.

Definition should_clear_active_goal (st : ThreadGoalStatus) (d : BudgetLimitedGoalDisposition) : bool :=
  match st with
  | Active => false
  | BudgetLimited => match d with ClearActive => true | KeepActive => false end
  | Paused | Blocked | UsageLimited | Complete => true
  end.

Definition default_state (now : Z) : GoalAccountingState :=
  mkAcc (mkInner None ∅ (mkWall now None) None None 0 None 0 0) 0.

(** ** Operations *)

Definition start_turn (turn_id : str) (mode : ModeKind) (usage : TokenUsage) : GoalAccountingState -> GoalAccountingState :=
  on_inner (fun i =>
    with_turns (<[turn_id := new_turn usage (match mode with PlanMode => false | DefaultMode => true end)]>)
      (with_current_turn (Some turn_id) i)).

Definition record_tool_outcome (turn_id : str) (tool : ToolName) (outcome : ToolCallOutcome)
  : GoalAccountingState -> GoalAccountingState :=
  on_inner (fun i =>
    let i := with_empty_turns 0 i in
    match turns i !! turn_id with
    | None => i
    | Some turn =>
        let turn := set_turn_output (empty_final turn) true turn in
        let put t := with_turns (<[turn_id := t]>) i in
        if is_none (active_goal_id turn) then put turn
        else
          match outcome with
          | Completed true => with_failures None 0 (put (set_turn_tools (failed_execution turn) true turn))
          | Failed true =>
              if is_default_namespace tool && str_eqb (tool_name tool) (lit "exec")
              then put (set_turn_tools true (successful_tool turn) turn)
              else put turn
          | Completed false | Failed false | OutcomeBlocked | Aborted => put turn
          end
    end).

(** The goal to stop because the turn is the third in a row whose executions failed. *)
Definition execution_failure_goal (turn_id : str) (s : GoalAccountingState) : option str * GoalAccountingState :=
  let i := inner s in
  match turns i !! turn_id with
  | None => (None, s)
  | Some turn =>
      match active_goal_id turn with
      | None => (None, s)
      | Some g =>
          if successful_tool turn then (None, s)
          else if negb (failed_execution turn) then (None, s)
          else
            let n := if bool_decide (execution_failure_goal_id i = Some g)
                     then consecutive_execution_failure_turns i else 0 in
            let n := u8_saturating_add n 1 in
            (if 3 <=? n then Some g else None, on_inner (with_failures (Some g) n) s)
      end
  end.

Definition blank (text : str) : bool := is_nil (trim text).

Definition record_item (turn_id : str) (item : TurnItem) : GoalAccountingState -> GoalAccountingState :=
  on_inner (fun i =>
    match turns i !! turn_id with
    | None => i
    | Some turn =>
        let turn :=
          match item with
          | AgentMessage content phase has_questions =>
              let has_text := existsb (fun text => negb (blank text)) content in
              set_turn_output
                (empty_final turn || (negb has_text && match phase with Some Commentary => false | _ => true end))
                (has_activity turn || (has_text || has_questions)) turn
          | Reasoning summary =>
              set_turn_output (empty_final turn)
                (has_activity turn || existsb (fun text => negb (blank text)) summary) turn
          | _ => set_turn_output (empty_final turn) true turn
          end in
        let i := with_turns (<[turn_id := turn]>) i in
        if has_activity turn then with_empty_turns 0 i else i
    end).

Definition mark_goal_continuation (turn_id : str) : GoalAccountingState -> GoalAccountingState :=
  on_inner (with_automatic (Some turn_id)).

Definition reset_empty_responses : GoalAccountingState -> GoalAccountingState :=
  on_inner (fun i => with_empty_turns 0 (with_automatic None i)).

(** The goal to stop because the turn is the third automatic one in a row with
    nothing but an empty answer. *)
Definition empty_response_goal (turn_id : str) (s : GoalAccountingState) : option str * GoalAccountingState :=
  let i := inner s in
  let automatic := bool_decide (automatic_goal_turn_id i = Some turn_id) in
  match turns i !! turn_id with
  | None => (None, s)
  | Some turn =>
      match active_goal_id turn with
      | None => (None, s)
      | Some g =>
          let empty := automatic && empty_final turn && negb (has_activity turn) in
          let i := with_turns (<[turn_id := set_turn_output false (has_activity turn) turn]>) i in
          if negb empty then (None, on_inner (fun _ => with_empty_turns 0 i) s)
          else
            let n := u8_saturating_add (consecutive_empty_turns i) 1 in
            (if 3 <=? n then Some g else None, on_inner (fun _ => with_empty_turns n i) s)
      end
  end.

Definition current_active_goal_id_for_turn (turn_id : str) (s : GoalAccountingState) : option str :=
  let i := inner s in
  if negb (bool_decide (current_turn_id i = Some turn_id)) then None
  else
    match turns i !! turn_id with
    | None => None
    | Some turn => if negb (account_tokens turn) then None else active_goal_id turn
    end.

Definition record_token_usage (turn_id : str) (total : TokenUsage) (s : GoalAccountingState)
  : option RecordedTokenDelta * GoalAccountingState :=
  match turns (inner s) !! turn_id with
  | None => (None, s)
  | Some turn =>
      let turn := set_turn_current total turn in
      let s := on_inner (with_turns (<[turn_id := turn]>)) s in
      if negb (account_tokens turn) then (None, s)
      else
        let delta := turn_token_delta turn in
        if delta <=? 0 then (None, s)
        else (Some (mkDelta delta (thread_unflushed_token_delta (inner s))), s)
  end.

Definition record_descendant_token_usage (usage : TokenUsage) (s : GoalAccountingState) : GoalAccountingState :=
  let delta := goal_token_delta_for_usage usage in
  if 0 <? delta then mkAcc (inner s) (i64_wrapping_add (descendant_token_usage s) delta) else s.

(** Forget the reported budget limit of another goal. *)
Definition forget_other_report (g : str) (i : GoalAccountingInner) : GoalAccountingInner :=
  if bool_decide (budget_limit_reported_goal_id i = Some g) then i else with_reported None i.

Definition mark_turn_goal_active (now : Z) (turn_id g : str) (s : GoalAccountingState) : GoalAccountingState :=
  on_inner (fun i =>
    let i := forget_other_report g i in
    match turns i !! turn_id with
    | None => i
    | Some turn =>
        let i := with_turns (<[turn_id := set_turn_goal (Some g) turn]>) i in
        if bool_decide (current_turn_id i = Some turn_id) then
          let i := if bool_decide (wall_goal_id (wall_clock i) = Some g) then i
                   else with_descendant (descendant_token_usage s) (with_empty_turns 0 i) in
          with_wall (wall_mark_active_goal now g) i
        else i
    end) s.

Definition mark_current_turn_goal_active (now : Z) (g : str) (s : GoalAccountingState)
  : option str * GoalAccountingState :=
  let i := inner s in
  match current_turn_id i with
  | None => (None, s)
  | Some turn_id =>
      let i := forget_other_report g i in
      let goal_changed := negb (bool_decide (wall_goal_id (wall_clock i) = Some g)) in
      match turns i !! turn_id with
      | None => (None, on_inner (fun _ => i) s)
      | Some turn =>
          let turn := if bool_decide (active_goal_id turn = Some g) then turn else set_turn_tools false false turn in
          let turn := set_turn_goal (Some g) turn in
          let turn := if goal_changed then reset_baseline_to_current turn else turn in
          let i := with_turns (<[turn_id := turn]>) i in
          let i := if goal_changed
                   then with_descendant (descendant_token_usage s) (with_empty_turns 0 (with_automatic None i))
                   else i in
          (Some turn_id, on_inner (fun _ => with_wall (wall_mark_active_goal now g) i) s)
      end
  end.

Definition mark_idle_goal_active (now : Z) (g : str) (s : GoalAccountingState) : GoalAccountingState :=
  on_inner (fun i =>
    let i := forget_other_report g i in
    let i := if bool_decide (wall_goal_id (wall_clock i) = Some g) then i
             else with_descendant (descendant_token_usage s) (with_empty_turns 0 i) in
    with_wall (wall_mark_active_goal now g) i) s.

(** The assignments the two clearing methods share. *)
Definition clear_goal_fields (now : Z) (i : GoalAccountingInner) : GoalAccountingInner :=
  with_empty_turns 0 (with_automatic None (with_failures None 0 (with_reported None
    (with_wall (wall_clear_active_goal now) i)))).

Definition clear_current_turn_goal (now : Z) (s : GoalAccountingState) : option str * GoalAccountingState :=
  match current_turn_id (inner s) with
  | None => (None, s)
  | Some turn_id =>
      (Some turn_id, on_inner (fun i => clear_goal_fields now (with_turns (alter (set_turn_goal None) turn_id) i)) s)
  end.

Definition clear_active_goal (now : Z) : GoalAccountingState -> GoalAccountingState :=
  on_inner (fun i =>
    clear_goal_fields now
      (match current_turn_id i with
       | Some turn_id => with_turns (alter (set_turn_goal None) turn_id) i
       | None => i
       end)).

Definition progress_snapshot (now : Z) (turn_id : str) (s : GoalAccountingState) : option GoalProgressSnapshot :=
  let i := inner s in
  match turns i !! turn_id with
  | None => None
  | Some turn =>
      if negb (account_tokens turn) then None
      else
        match active_goal_id turn with
        | None => None
        | Some g =>
            let descendant_delta :=
              i64_saturating_sub (descendant_token_usage s) (last_accounted_descendant_token_usage i) in
            let token_delta := i64_saturating_add (turn_token_delta turn) descendant_delta in
            let time_delta := if bool_decide (wall_goal_id (wall_clock i) = Some g)
                              then time_delta_since_last_accounting now (wall_clock i) else 0 in
            if (time_delta =? 0) && (token_delta <=? 0) then None
            else Some (mkSnap (current_token_usage turn) (descendant_token_usage s) g time_delta token_delta)
        end
  end.

Definition idle_progress_snapshot (now : Z) (s : GoalAccountingState) : option IdleGoalProgressSnapshot :=
  let i := inner s in
  match wall_goal_id (wall_clock i) with
  | None => None
  | Some g =>
      let time_delta := time_delta_since_last_accounting now (wall_clock i) in
      let token_delta := i64_saturating_sub (descendant_token_usage s) (last_accounted_descendant_token_usage i) in
      if (time_delta =? 0) && (token_delta <=? 0) then None
      else Some (mkIdle (descendant_token_usage s) g time_delta token_delta)
  end.

(** The tail the two marking methods share. *)
Definition mark_accounted_fields (now descendant time_delta : Z) (clear : bool) (st : ThreadGoalStatus)
    (i : GoalAccountingInner) : GoalAccountingInner :=
  let i := with_descendant descendant i in
  let i := with_wall (wall_mark_accounted now time_delta) i in
  let i := if clear then with_wall (wall_clear_active_goal now) i else i in
  if bool_decide (st = BudgetLimited) then i else with_reported None i.

Definition mark_progress_accounted_for_status (now : Z) (turn_id : str) (snapshot : GoalProgressSnapshot)
    (st : ThreadGoalStatus) (d : BudgetLimitedGoalDisposition) : GoalAccountingState -> GoalAccountingState :=
  on_inner (fun i =>
    let clear := should_clear_active_goal st d in
    let i := with_turns (alter (fun turn =>
               let turn := set_turn_last (snap_token_usage snapshot) turn in
               if clear then set_turn_goal None turn else turn) turn_id) i in
    mark_accounted_fields now (snap_descendant snapshot) (snap_time_delta snapshot) clear st i).

Definition finish_turn (turn_id : str) : GoalAccountingState -> GoalAccountingState :=
  on_inner (fun i =>
    let i := with_turns (delete turn_id) i in
    if bool_decide (current_turn_id i = Some turn_id) then with_current_turn None i else i).

Definition mark_idle_progress_accounted_for_status (now : Z) (snapshot : IdleGoalProgressSnapshot)
    (st : ThreadGoalStatus) (d : BudgetLimitedGoalDisposition) : GoalAccountingState -> GoalAccountingState :=
  on_inner (mark_accounted_fields now (idle_descendant snapshot) (idle_time_delta snapshot)
              (should_clear_active_goal st d) st).

Definition reset_idle_progress_baseline_and_clear_active_goal (now : Z) : GoalAccountingState -> GoalAccountingState :=
  on_inner (fun i =>
    with_reported None (with_wall (wall_clear_active_goal now) (with_wall (wall_reset_baseline now) i))).

Definition mark_budget_limit_reported_if_new (g : str) (s : GoalAccountingState) : bool * GoalAccountingState :=
  if bool_decide (budget_limit_reported_goal_id (inner s) = Some g) then (false, s)
  else (true, on_inner (with_reported (Some g)) s).
