(* ===== verification/GoalRuntime.v ===== *)
(** * The goal runtime of a thread

    Models [codex-rs/ext/goal/src/runtime.rs]: the handlers that combine the
    accounting state ([GoalAccounting.v]) with the store ([GoalStore.v]).
    Metrics, analytics, emitted events and injected steering items do not feed
    back and are left out.  Handlers hold permits and run here as one function
    each; their interleaving is the subject of [GoalRun.v].  The host that starts
    turns ([ThreadManager] and the thread) is a record of its answers. *)

From stdpp Require Import base list numbers option strings gmap.
From Stdlib Require Import Lia.
From S2P Require Import Prelude RustStr RustInt GoalStore GoalAccounting.

#[local] Open Scope Z_scope.

Record Runtime := mkRt { rt_acc : GoalAccountingState; rt_db : Db }.

(** State passing with errors over both parts of the state. *)
Definition RtM (A : Type) : Type := Runtime -> result A StoreError * Runtime.

Definition rt_ret {A} (a : A) : RtM A := fun s => (Ok a, s).
Definition rt_bind {A B} (m : RtM A) (k : A -> RtM B) : RtM B := fun s =>
  match m s with
  | (Ok a, s') => k a s'
  | (Err e, s') => (Err e, s')
  end.
Definition rt_db_call {A} (m : DbM A) : RtM A := fun s =>
  let (r, d) := m (rt_db s) in (r, mkRt (rt_acc s) d).
Definition rt_read {A} (f : GoalAccountingState -> A) : RtM A := fun s => (Ok (f (rt_acc s)), s).
Definition rt_modify (f : GoalAccountingState -> GoalAccountingState) : RtM unit := fun s =>
  (Ok tt, mkRt (f (rt_acc s)) (rt_db s)).
Definition rt_update {A} (f : GoalAccountingState -> A * GoalAccountingState) : RtM A := fun s =>
  let (a, acc) := f (rt_acc s) in (Ok a, mkRt acc (rt_db s)).

Notation "'do!' x := e 'in' k" := (rt_bind e (fun x => k))
  (at level 200, x name, e at level 100, k at level 200) : rust_scope.
Notation "'run!' e 'in' k" := (rt_bind e (fun _ => k))
  (at level 200, e at level 100, k at level 200) : rust_scope.

(** The host's side of a continuation. *)
Record Host := mkHost {
  thread_available : bool;
  started_turn : option str }.

Inductive ActiveGoalStopReason :=
| TurnError
| UsageLimit
| ExecutionUnavailable (expected_goal_id : str)
| EmptyResponse.

(** The fields of the handle that do not change during a handler, with the clocks. *)
Record Config := mkConfig {
  cfg_thread_id : str;
  enabled : bool;
  tools_available_for_thread : bool;
  now : Z;
  now_ms : Z }.

Section Handlers.
Context `{Chrono}.
Variable cfg : Config.

Definition tools_available : bool := enabled cfg && tools_available_for_thread cfg.

Definition current_goal_status_for_metrics (expected : option str) : DbM (option ThreadGoalStatus) :=
  let! goal := get_thread_goal (cfg_thread_id cfg) in
  db_ret match goal with
         | Some g => if match expected with None => true | Some e => str_eqb (goal_id g) e end
                     then Some (status g) else None
         | None => None
         end.

(** The two database calls made between a snapshot and its marking. *)
Definition charge_progress (mode : GoalAccountingMode) (time_delta token_delta : Z) (g : str)
  : DbM GoalAccountingOutcome :=
  let! _previous := current_goal_status_for_metrics (Some g) in
  account_thread_goal_usage (now_ms cfg) (cfg_thread_id cfg) time_delta token_delta mode (Some g).

Definition account_active_goal_progress (turn_id : str) (mode : GoalAccountingMode)
    (d : BudgetLimitedGoalDisposition) : RtM (option ThreadGoal) :=
  do! snapshot := rt_read (progress_snapshot (now cfg) turn_id) in
  match snapshot with
  | None => rt_ret None
  | Some snap =>
      do! outcome := rt_db_call (charge_progress mode (snap_time_delta snap) (snap_token_delta snap) (snap_goal_id snap)) in
      match outcome with
      | Updated goal =>
          run! rt_modify (mark_progress_accounted_for_status (now cfg) turn_id snap (status goal) d) in
          rt_ret (Some goal)
      | Unchanged _ => rt_ret None
      end
  end.

Definition account_idle_goal_progress (mode : GoalAccountingMode) (d : BudgetLimitedGoalDisposition)
  : RtM (option ThreadGoal) :=
  do! snapshot := rt_read (idle_progress_snapshot (now cfg)) in
  match snapshot with
  | None => rt_ret None
  | Some snap =>
      do! outcome := rt_db_call (charge_progress mode (idle_time_delta snap) (idle_token_delta snap) (idle_goal_id snap)) in
      match outcome with
      | Updated goal =>
          run! rt_modify (mark_idle_progress_accounted_for_status (now cfg) snap (status goal) d) in
          rt_ret (Some goal)
      | Unchanged _ =>
          run! rt_modify (reset_idle_progress_baseline_and_clear_active_goal (now cfg)) in
          rt_ret None
      end
  end.

Definition prepare_external_goal_mutation : RtM unit :=
  if negb (enabled cfg) then rt_ret tt
  else
    run! rt_modify reset_empty_responses in
    do! turn := rt_read (fun s => current_turn_id (inner s)) in
    match turn with
    | Some turn_id =>
        run! account_active_goal_progress turn_id ActiveOnly ClearActive in rt_ret tt
    | None =>
        run! account_idle_goal_progress ActiveOnly ClearActive in rt_ret tt
    end.

(** The end of [continue_if_idle]: read the goal and try to start a turn for it. *)
Definition continue_stored_goal (host : Host) : RtM unit :=
  do! goal := rt_db_call (get_thread_goal (cfg_thread_id cfg)) in
  match goal with
  | None => rt_modify (clear_active_goal (now cfg))
  | Some goal =>
      if negb (bool_decide (status goal = Active)) then rt_modify (clear_active_goal (now cfg))
      else
        run! (match started_turn host with
              | Some turn_id => rt_modify (mark_goal_continuation turn_id)
              | None => rt_ret tt
              end) in
        do! active := rt_read (fun s =>
          is_some_and (current_turn_id (inner s)) (fun t => is_some (current_active_goal_id_for_turn t s))) in
        if negb active then rt_modify (reset_idle_progress_baseline_and_clear_active_goal (now cfg))
        else rt_ret tt
  end.

Definition continue_if_idle (host : Host) : RtM unit :=
  if negb tools_available then rt_modify (clear_active_goal (now cfg))
  else
    do! deferred := rt_db_call (has_thread_goal_continuation_deferral (cfg_thread_id cfg)) in
    if deferred : bool then rt_ret tt
    else if negb (thread_available host) then rt_ret tt
    else continue_stored_goal host.

Definition apply_external_goal_set (host : Host) (goal : ThreadGoal) : RtM unit :=
  if negb (enabled cfg) then rt_ret tt
  else
    run! rt_modify reset_empty_responses in
    do! turn := rt_read (fun s => current_turn_id (inner s)) in
    match status goal with
    | Active =>
        run! (match turn with
              | Some _ => rt_modify (fun s => (mark_current_turn_goal_active (now cfg) (goal_id goal) s).2)
              | None => rt_modify (mark_idle_goal_active (now cfg) (goal_id goal))
              end) in
        continue_if_idle host
    | BudgetLimited =>
        match turn with
        | None => rt_modify (clear_active_goal (now cfg))
        | Some _ => rt_ret tt
        end
    | Paused | Blocked | UsageLimited | Complete => rt_modify (clear_active_goal (now cfg))
    end.

Definition apply_external_goal_clear : RtM unit :=
  if negb (enabled cfg) then rt_ret tt else rt_modify (clear_active_goal (now cfg)).

(** The second half of [stop_active_goal_for_turn]: account, then set the status. *)
Definition stop_accounted_goal (turn_id : str) (new_status : ThreadGoalStatus) (expected : option str) : RtM unit :=
  run! account_active_goal_progress turn_id ActiveOnly ClearActive in
  do! goal := rt_db_call (get_thread_goal (cfg_thread_id cfg)) in
  match goal with
  | None => rt_modify (clear_active_goal (now cfg))
  | Some active_goal =>
      if is_some_and expected (fun e => negb (str_eqb (goal_id active_goal) e)) then rt_ret tt
      else
        let can_stop := bool_decide (status active_goal = Active)
          || (bool_decide (status active_goal = BudgetLimited) && bool_decide (new_status = UsageLimited)) in
        if negb can_stop then rt_modify (clear_active_goal (now cfg))
        else
          do! updated := rt_db_call (update_thread_goal (now_ms cfg) (cfg_thread_id cfg)
            (mkUpdate None (Some new_status) None (Some (goal_id active_goal)))) in
          match updated with
          | None => rt_ret tt
          | Some _ => rt_modify (clear_active_goal (now cfg))
          end
  end.

Definition stop_active_goal_for_turn (turn_id : str) (reason : ActiveGoalStopReason) : RtM unit :=
  if negb (enabled cfg) then rt_ret tt
  else
    do! accounting := rt_read (current_active_goal_id_for_turn turn_id) in
    match accounting with
    | None => rt_ret tt
    | Some accounting_goal_id =>
        match reason with
        | TurnError => stop_accounted_goal turn_id Blocked None
        | UsageLimit => stop_accounted_goal turn_id UsageLimited None
        | EmptyResponse =>
            do! expected := rt_update (empty_response_goal turn_id) in
            match expected with
            | None => rt_ret tt
            | Some e =>
                if negb (str_eqb accounting_goal_id e) then rt_ret tt
                else stop_accounted_goal turn_id Blocked (Some e)
            end
        | ExecutionUnavailable e =>
            if negb (str_eqb accounting_goal_id e) then rt_ret tt
            else stop_accounted_goal turn_id Blocked (Some e)
        end
    end.

Definition usage_limit_active_goal_for_turn (turn_id : str) : RtM unit :=
  stop_active_goal_for_turn turn_id UsageLimit.

Definition restore_after_resume : RtM unit :=
  if negb (enabled cfg) then rt_ret tt
  else
    do! goal := rt_db_call (get_thread_goal (cfg_thread_id cfg)) in
    match goal with
    | Some g =>
        if bool_decide (status g = Active) then rt_modify (mark_idle_goal_active (now cfg) (goal_id g))
        else rt_modify (clear_active_goal (now cfg))
    | None => rt_modify (clear_active_goal (now cfg))
    end.

End Handlers.

(** ** Lemmas *)

Lemma i64_saturating_sub_self z : i64_saturating_sub z z = 0.
Proof. unfold_int. lia. Qed.

Lemma token_delta_self u : token_delta_since_last_accounting u u = 0.
Proof.
  unfold token_delta_since_last_accounting, goal_token_delta_for_usage. simpl.
  rewrite !i64_saturating_sub_self. done.
Qed.

(** An instant whose seconds, and the present's, an [Instant] can hold. *)
Definition instants_ok (now : Z) (w : GoalWallClockAccounting) : Prop :=
  0 <= last_accounted_at w /\ now / NANOS <= i64_max.

Lemma elapsed_secs_range now w :
  instants_ok now w -> in_i64 (Z.max 0 (now - last_accounted_at w) / NANOS).
Proof.
  intros [Hlast Hnow]. set (e := Z.max 0 (now - last_accounted_at w)).
  assert (0 <= e / NANOS) by (apply Z.div_pos; unfold NANOS; lia).
  assert (e / NANOS <= i64_max); [|unfold in_i64, i64_min; lia].
  destruct (Z.le_gt_cases 0 (now - last_accounted_at w)).
  - etransitivity; [|exact Hnow]. apply Z.div_le_mono; unfold NANOS; lia.
  - unfold e. rewrite Z.max_l by lia. done.
Qed.

(** After the seconds of a reading are marked, less than one is left. *)
Lemma wall_mark_accounted_rest now w :
  instants_ok now w ->
  time_delta_since_last_accounting now (wall_mark_accounted now (time_delta_since_last_accounting now w) w) = 0.
Proof.
  intros Hi. pose proof (elapsed_secs_range now w Hi) as Hr.
  unfold time_delta_since_last_accounting at 2. rewrite i64_try_from_exact by done. simpl.
  set (e := Z.max 0 (now - last_accounted_at w)). set (q := e / NANOS).
  pose proof (Z.div_mod e NANOS ltac:(done)) as Hdm. pose proof (Z.mod_pos_bound e NANOS ltac:(done)) as Hmb. fold e q in Hdm, Hr.
  assert (Hgoal : forall w', now - NANOS < last_accounted_at w' -> time_delta_since_last_accounting now w' = 0).
  { intros w' Hw'. unfold time_delta_since_last_accounting. rewrite Z.div_small by (unfold NANOS in *; lia). done. }
  apply Hgoal. unfold wall_mark_accounted. destruct (q <=? 0) eqn:Eq; simpl; [unfold NANOS in *; lia|].
  assert (Hu : q <= unwrap_or (u64_try_from q) u64_max) by (unfold u64_try_from; unfold_int; destruct (_ && _) eqn:E; simpl; lia).
  set (a := unwrap_or _ _) in *. unfold instant_checked_add. case_goal; simpl; unfold NANOS in *; nia.
Qed.

Lemma wall_mark_accounted_goal now dt w : wall_goal_id (wall_mark_accounted now dt w) = wall_goal_id w.
Proof. unfold wall_mark_accounted. by case_goal. Qed.

Section Theorems.
Context `{Chrono}.
Variable cfg : Config.

(** The database calls between a snapshot and its marking either charge the row
    of the expected goal or change nothing. *)
Lemma charge_progress_cases mode dt dk g db r d :
  charge_progress cfg mode dt dk g db = (r, d) ->
  (goals d = goals db /\ forall goal, r <> Ok (Updated goal))
  \/ exists row, goals db !! cfg_thread_id cfg = Some row /\ row_goal_id row = g
     /\ goals d = <[cfg_thread_id cfg := charge (now_ms cfg) (Z.max dt 0) (Z.max dk 0) mode row]> (goals db)
     /\ r = match thread_goal_from_row (charge (now_ms cfg) (Z.max dt 0) (Z.max dk 0) mode row) with
            | Ok goal => Ok (Updated goal) | Err x => Err x end.
Proof.
  unfold charge_progress, current_goal_status_for_metrics, db_bind; simpl.
  destruct (get_thread_goal _ db) as [[g'|x] d1] eqn:Eg; apply get_thread_goal_pure in Eg; simpl.
  - intros [[-> ?]|(row & Hr & He & -> & ->)]%account_cases; [by left|]. right. exists row.
    rewrite Eg in *. split_and!; try done. simpl in He. by apply str_eqb_spec in He.
  - intros [= <- <-]. by left.
Qed.

(** Once a snapshot is marked, a new one at the same moment has nothing to charge. *)
Lemma mark_leaves_nothing turn_id snap st d s :
  instants_ok (now cfg) (wall_clock (inner s)) -> progress_snapshot (now cfg) turn_id s = Some snap ->
  progress_snapshot (now cfg) turn_id (mark_progress_accounted_for_status (now cfg) turn_id snap st d s) = None.
Proof.
  intros Hi Hs. unfold progress_snapshot in Hs.
  destruct (turns (inner s) !! turn_id) as [turn|] eqn:Et; [|done].
  destruct (account_tokens turn) eqn:Ea; [|done]. destruct (active_goal_id turn) as [g|] eqn:Eg; [|done].
  simpl in Hs. match type of Hs with (if ?b then _ else _) = _ => destruct b end; [done|]. injection Hs as <-.
  unfold progress_snapshot, mark_progress_accounted_for_status, mark_accounted_fields. simpl.
  destruct (should_clear_active_goal st d), (bool_decide (st = BudgetLimited)); simpl;
    rewrite lookup_alter_eq, Et; simpl; rewrite Ea, ?Eg; simpl; try done.
  all: unfold turn_token_delta; simpl; rewrite token_delta_self, i64_saturating_sub_self; simpl.
  all: rewrite wall_mark_accounted_goal.
  all: case_bool_decide; [by rewrite wall_mark_accounted_rest|done].
Qed.

(** Accounting that succeeds is exact and complete: the stored goal grows by
    what the snapshot measured, and a further snapshot at the same moment has
    nothing left to charge. *)
Theorem account_active_complete turn_id mode d s goal s' :
  instants_ok (now cfg) (wall_clock (inner (rt_acc s))) ->
  account_active_goal_progress cfg turn_id mode d s = (Ok (Some goal), s') ->
  (exists snap row, progress_snapshot (now cfg) turn_id (rt_acc s) = Some snap
     /\ goals (rt_db s) !! cfg_thread_id cfg = Some row
     /\ row_goal_id row = snap_goal_id snap /\ goal_id goal = snap_goal_id snap
     /\ tokens_used goal = row_tokens_used row + Z.max (snap_token_delta snap) 0
     /\ time_used_seconds goal = row_time_used_seconds row + Z.max (snap_time_delta snap) 0)
  /\ progress_snapshot (now cfg) turn_id (rt_acc s') = None.
Proof.
  intros Hi. unfold account_active_goal_progress, rt_bind, rt_read, rt_ret, rt_db_call, rt_modify.
  destruct (progress_snapshot (now cfg) turn_id (rt_acc s)) as [snap|] eqn:Es; [|by intros [=]].
  destruct (charge_progress cfg mode _ _ _ (rt_db s)) as [r db'] eqn:Ec.
  apply charge_progress_cases in Ec as [[_ Hn]|(row & Hr & Hg & _ & ->)].
  - destruct r as [[|g]|]; intros [=]. by destruct (Hn g).
  - destruct (thread_goal_from_row _) as [g|] eqn:Eg; [|by intros [=]]. intros [= <- <-]. simpl.
    apply thread_goal_from_row_Ok in Eg as (_ & E1 & E2 & E3). simpl in E1, E2, E3.
    split; [|by apply mark_leaves_nothing]. exists snap, row. split_and!; congruence.
Qed.

(** No goal is being worked on: what clearing leaves behind. *)
Definition goal_cleared (s : GoalAccountingState) : Prop :=
  wall_goal_id (wall_clock (inner s)) = None /\ automatic_goal_turn_id (inner s) = None
  /\ forall t, current_active_goal_id_for_turn t s = None.

Lemma clear_active_goal_cleared n s : goal_cleared (clear_active_goal n s).
Proof.
  split_and!; [done|done|]. intros t. unfold current_active_goal_id_for_turn, clear_active_goal. simpl.
  destruct (current_turn_id (inner s)) as [c|] eqn:Ec; simpl; rewrite ?Ec; simpl; [|done].
  case_bool_decide; simpl; [|done]. simplify_eq. rewrite lookup_alter_eq.
  destruct (turns (inner s) !! t); simpl; by case_goal || done.
Qed.

(** The thread's stored goal, if any, is not to be continued. *)
Definition not_continuable (s : Runtime) : Prop :=
  forall row, goals (rt_db s) !! cfg_thread_id cfg = Some row -> row_status row <> as_str Active.

Lemma stop_accounted_goal_stops turn_id st s s' :
  st <> Active -> stop_accounted_goal cfg turn_id st None s = (Ok tt, s') ->
  goal_cleared (rt_acc s') /\ not_continuable s'.
Proof.
  intros Hst. unfold stop_accounted_goal, rt_bind, rt_db_call, rt_modify, not_continuable.
  destruct (account_active_goal_progress _ _ _ _ s) as [[?|?] s1]; [|by intros [=]].
  destruct (get_thread_goal _ (rt_db s1)) as [[goal|?] d1] eqn:Eg; [|by intros [=]].
  apply get_thread_goal_Ok in Eg as [Ed Hdec]. apply decode_optional_Ok in Hdec.
  destruct goal as [goal|].
  2:{ intros [= <-]. simpl. split; [apply clear_active_goal_cleared|]. rewrite Ed. congruence. }
  destruct Hdec as (row & Hrow & Hs & Hg). cbn [is_some_and]. case_goal.
  - intros [= <-]. simpl. split; [apply clear_active_goal_cleared|]. rewrite Ed, Hrow. intros ? [= <-].
    rewrite Hs. intros Ea%as_str_inj. by rewrite Ea in E.
  - destruct (update_thread_goal _ _ _ _) as [[u|?] d2] eqn:Eu; [|by intros [=]].
    apply (update_status_Ok _ _ _ _ _ _ _ row) in Eu as [Hu Hrow']; [|by simpl; rewrite Ed|done].
    destruct u; [|done]. intros [= <-]. simpl. split; [apply clear_active_goal_cleared|].
    rewrite Hrow'. intros ? [= <-]. simpl. unfold updated_status. rewrite Hs, !as_str_eqb.
    repeat case_goal; intros ?%as_str_inj; bool_to_prop; congruence.
Qed.

Lemma continue_stored_goal_stopped host s r s' :
  goal_cleared (rt_acc s) -> not_continuable s -> continue_stored_goal cfg host s = (r, s') ->
  goal_cleared (rt_acc s') /\ goals (rt_db s') = goals (rt_db s).
Proof.
  intros Hc Hn. unfold continue_stored_goal, rt_bind at 1, rt_db_call.
  destruct (get_thread_goal _ _) as [[goal|?] d1] eqn:Eg; pose proof (get_thread_goal_pure _ _ _ _ Eg) as Ed1;
    [|by intros [= <- <-]].
  apply get_thread_goal_Ok in Eg as [_ Hdec]. apply decode_optional_Ok in Hdec.
  destruct goal as [goal|]; [|intros [= <- <-]; split; [apply clear_active_goal_cleared|done]].
  destruct Hdec as (row & Hrow & Hs & _). apply Hn in Hrow.
  rewrite bool_decide_false by (intros E; apply Hrow; by rewrite Hs, E).
  intros [= <- <-]. split; [apply clear_active_goal_cleared|done].
Qed.

Lemma continue_if_idle_stopped host s r s' :
  goal_cleared (rt_acc s) -> not_continuable s -> continue_if_idle cfg host s = (r, s') ->
  goal_cleared (rt_acc s') /\ goals (rt_db s') = goals (rt_db s).
Proof.
  intros Hc Hn. unfold continue_if_idle. case_goal; [intros [= <- <-]; split; [apply clear_active_goal_cleared|done]|].
  unfold rt_bind at 1, rt_db_call, has_thread_goal_continuation_deferral, statement.
  destruct (faults (rt_db s)) as [|[] fs]; simpl; [|by intros [= <- <-]|];
    (case_goal; [by intros [= <- <-]|]); (case_goal; [by intros [= <- <-]|]); intros Hs;
    by apply (continue_stored_goal_stopped host _ r s') in Hs.
Qed.

(** When a turn ends in an error or hits the usage limit and its goal is
    stopped without a database error, the goal is neither being worked on nor
    stored as active, and thread idleness, whatever the host answers and whichever
    database call fails, starts no automatic turn for it. *)
Theorem stop_prevents_continuation turn_id reason g s s' :
  (reason = TurnError \/ reason = UsageLimit) -> enabled cfg = true ->
  current_active_goal_id_for_turn turn_id (rt_acc s) = Some g ->
  stop_active_goal_for_turn cfg turn_id reason s = (Ok tt, s') ->
  goal_cleared (rt_acc s') /\ not_continuable s'
  /\ forall host r s'', continue_if_idle cfg host s' = (r, s'') -> goal_cleared (rt_acc s'') /\ not_continuable s''.
Proof.
  intros Hreason He Hg. unfold stop_active_goal_for_turn, rt_bind at 1, rt_read. rewrite He. simpl. rewrite Hg. intros Hstop.
  assert (Hs : goal_cleared (rt_acc s') /\ not_continuable s').
  { destruct Hreason as [->| ->]; (eapply stop_accounted_goal_stops; [|exact Hstop]); done. }
  destruct Hs as [Hc Hn]. split_and!; [done..|]. intros host r s'' E.
  destruct (continue_if_idle_stopped host s' r s'' Hc Hn E) as [? Hgs]. split; [done|].
  unfold not_continuable. by rewrite Hgs.
Qed.

End Theorems.

(** ** Witnesses *)

Definition sample_usage (input cached output : Z) : TokenUsage := mkUsage input cached 0 output 0 (input + output) None.

(** A thread with an active goal of budget 100, 2.5 seconds into a turn that has
    used 70 tokens. *)
Definition sample_cfg : Config := mkConfig (lit "t") true true 3500000000 1700000005000.

Definition sample_runtime : Runtime :=
  mkRt
    ((record_token_usage (lit "turn") (sample_usage 60 10 20)
        (mark_turn_goal_active 1000000000 (lit "turn") (lit "g1")
           (start_turn (lit "turn") DefaultMode (sample_usage 0 0 0) (default_state 1000000000)))).2)
    (@run_op near_epoch (OpReplace (lit "g1") 1700000000000 (lit "t") (lit "ship it") Active (Some 100)) (mkDb ∅ ∅ [])).

Definition sample_accounted :=
  @account_active_goal_progress near_epoch sample_cfg (lit "turn") ActiveOnly ClearActive sample_runtime.

Definition sample_goal : ThreadGoal :=
  mkGoal (lit "t") (lit "g1") (lit "ship it") Active (Some 100) 70 2 1700000000000 1700000005000.

Lemma account_active_complete_witness :
  progress_snapshot (now sample_cfg) (lit "turn") (rt_acc sample_accounted.2) = None.
Proof.
  apply (@account_active_complete near_epoch sample_cfg (lit "turn") ActiveOnly ClearActive
           sample_runtime sample_goal sample_accounted.2).
  - split; vm_compute; discriminate.
  - vm_compute; reflexivity.
Defined.

Definition sample_stopped := @stop_active_goal_for_turn near_epoch sample_cfg (lit "turn") TurnError sample_runtime.

Lemma stop_prevents_continuation_witness :
  goal_cleared (rt_acc (@continue_if_idle near_epoch sample_cfg (mkHost true (Some (lit "next"))) sample_stopped.2).2).
Proof.
  destruct (@stop_prevents_continuation near_epoch sample_cfg (lit "turn") TurnError (lit "g1")
              sample_runtime sample_stopped.2) as (_ & _ & Hc).
  - left. reflexivity.
  - reflexivity.
  - vm_compute; reflexivity.
  - vm_compute; reflexivity.
  - eapply Hc. apply surjective_pairing.
Defined.
