(* ===== verification/GoalRun.v ===== *)
(** * Concurrent runs of goal accounting

    A thread's hooks run concurrently.  Every method of the accounting state and
    every statement of the store is one step; charging progress takes three, a
    snapshot, the database calls and the marking, between which anything else may
    happen except another charge, which the progress-accounting permit excludes.
    The runs carry a ledger of what has been charged, and the theorems relate it
    to what was really used.  A future that is dropped between the database calls
    and the marking ([account_active_goal_progress], after the charge is committed)
    is not modelled: its progress would be charged again. *)

From stdpp Require Import base list numbers option strings gmap.
From Stdlib Require Import Lia.
From S2P Require Import Prelude RustStr RustInt GoalStore GoalAccounting GoalRuntime.

#[local] Open Scope Z_scope.

(** The methods that need no permit. *)
Inductive AccOp :=
| DoStartTurn (t : str) (mode : ModeKind) (u : TokenUsage)
| DoToolOutcome (t : str) (tool : ToolName) (o : ToolCallOutcome)
| DoExecutionFailure (t : str)
| DoItem (t : str) (item : TurnItem)
| DoContinuation (t : str)
| DoResetEmpty
| DoEmptyResponse (t : str)
| DoTokenUsage (t : str) (u : TokenUsage)
| DoDescendant (u : TokenUsage)
| DoMarkTurn (t g : str)
| DoMarkCurrent (g : str)
| DoMarkIdle (g : str)
| DoClearCurrent
| DoClearActive
| DoFinishTurn (t : str)
| DoResetIdle
| DoReportBudget (g : str).

Definition run_acc (now : Z) (op : AccOp) (s : GoalAccountingState) : GoalAccountingState :=
  match op with
  | DoStartTurn t m u => start_turn t m u s
  | DoToolOutcome t tool o => record_tool_outcome t tool o s
  | DoExecutionFailure t => (execution_failure_goal t s).2
  | DoItem t item => record_item t item s
  | DoContinuation t => mark_goal_continuation t s
  | DoResetEmpty => reset_empty_responses s
  | DoEmptyResponse t => (empty_response_goal t s).2
  | DoTokenUsage t u => (record_token_usage t u s).2
  | DoDescendant u => record_descendant_token_usage u s
  | DoMarkTurn t g => mark_turn_goal_active now t g s
  | DoMarkCurrent g => (mark_current_turn_goal_active now g s).2
  | DoMarkIdle g => mark_idle_goal_active now g s
  | DoClearCurrent => (clear_current_turn_goal now s).2
  | DoClearActive => clear_active_goal now s
  | DoFinishTurn t => finish_turn t s
  | DoResetIdle => reset_idle_progress_baseline_and_clear_active_goal now s
  | DoReportBudget g => (mark_budget_limit_reported_if_new g s).2
  end.

(** ** What tokens and seconds are worth *)

(** The tokens a usage counts towards a goal: uncached input and output. *)
Definition goal_tokens (u : TokenUsage) : Z := input_tokens u - cached_input_tokens u + output_tokens u.

(** Counters a provider can report: not negative, far from the end of [i64]. *)
Definition usage_ok (u : TokenUsage) : Prop :=
  0 <= cached_input_tokens u <= input_tokens u /\ input_tokens u <= 2 ^ 60 /\ 0 <= output_tokens u <= 2 ^ 60.

Definition usage_le (u v : TokenUsage) : Prop :=
  input_tokens u - cached_input_tokens u <= input_tokens v - cached_input_tokens v
  /\ output_tokens u <= output_tokens v.

(** One charge: the turn it was made for ([None] when idle), the goal, the parts
    of the turn and of its descendants, and what the store was charged. *)
Record Entry := mkEntry {
  e_turn : option str;
  e_goal : str;
  e_own : Z;
  e_desc : Z;
  e_tokens : Z;
  e_secs : Z }.

Definition total (p : Entry -> bool) (f : Entry -> Z) (l : list Entry) : Z :=
  foldr (fun e acc => (if p e then f e else 0) + acc) 0 l.

Definition own_charged (t : str) (l : list Entry) : Z := total (fun e => bool_decide (e_turn e = Some t)) e_own l.
Definition desc_charged (l : list Entry) : Z := total (fun _ => true) e_desc l.
Definition secs_charged (l : list Entry) : Z := total (fun _ => true) e_secs l.
Definition goal_charged (g : str) (l : list Entry) : Z := total (fun e => bool_decide (e_goal e = g)) e_tokens l.
Definition goal_secs (g : str) (l : list Entry) : Z := total (fun e => bool_decide (e_goal e = g)) e_secs l.

(** ** The world *)

Inductive Pending :=
| PTurn (t : str) (snap : GoalProgressSnapshot)
| PIdle (snap : IdleGoalProgressSnapshot).

Definition pend_goal (p : Pending) : str :=
  match p with PTurn _ s => snap_goal_id s | PIdle s => idle_goal_id s end.
Definition pend_secs (p : Pending) : Z :=
  match p with PTurn _ s => snap_time_delta s | PIdle s => idle_time_delta s end.
Definition pend_tokens (p : Pending) : Z :=
  match p with PTurn _ s => snap_token_delta s | PIdle s => idle_token_delta s end.
Definition pend_desc (p : Pending) : Z :=
  match p with PTurn _ s => snap_descendant s | PIdle s => idle_descendant s end.

(** A holder of the permit: its snapshot, the entry it will make, and the status
    the store answered with once the charge is made. *)
Record Holder := mkHolder {
  h_pending : Pending;
  h_entry : Entry;
  h_charged : option ThreadGoalStatus }.

Record World := mkWorld {
  acc : GoalAccountingState;
  db : Db;
  clock : Z;
  holder : option Holder;
  ledger : list Entry;
  started : gmap (list N) Z;
  goal_ids : gset (list N) }.

(** The entry a snapshot leads to. *)
Definition turn_entry (s : GoalAccountingState) (t : str) (snap : GoalProgressSnapshot) : Entry :=
  mkEntry (Some t) (snap_goal_id snap)
    (match turns (inner s) !! t with Some turn => turn_token_delta turn | None => 0 end)
    (i64_saturating_sub (descendant_token_usage s) (last_accounted_descendant_token_usage (inner s)))
    (Z.max (snap_token_delta snap) 0) (Z.max (snap_time_delta snap) 0).

Definition idle_entry (snap : IdleGoalProgressSnapshot) : Entry :=
  mkEntry None (idle_goal_id snap) 0 (idle_token_delta snap)
    (Z.max (idle_token_delta snap) 0) (Z.max (idle_time_delta snap) 0).

Definition mark_pending (now : Z) (p : Pending) (st : ThreadGoalStatus) (d : BudgetLimitedGoalDisposition)
  : GoalAccountingState -> GoalAccountingState :=
  match p with
  | PTurn t snap => mark_progress_accounted_for_status now t snap st d
  | PIdle snap => mark_idle_progress_accounted_for_status now snap st d
  end.

(** What happens to the accounting state when the store did not charge. *)
Definition drop_pending (now : Z) (p : Pending) (r : result GoalAccountingOutcome StoreError)
  : GoalAccountingState -> GoalAccountingState :=
  match p, r with
  | PIdle _, Ok _ => reset_idle_progress_baseline_and_clear_active_goal now
  | _, _ => fun s => s
  end.

(** What the environment guarantees of the methods: turn ids are not reused,
    usage counters of a turn do not shrink, the descendants' total fits. *)
Definition acc_op_ok (w : World) (op : AccOp) : Prop :=
  match op with
  | DoStartTurn t _ u => started w !! t = None /\ usage_ok u
  | DoTokenUsage t u =>
      usage_ok u
      /\ forall turn, turns (inner (acc w)) !! t = Some turn -> usage_le (current_token_usage turn) u
  | DoDescendant u => usage_ok u /\ descendant_token_usage (acc w) + goal_tokens u <= i64_max
  | _ => True
  end.

Definition note_started (op : AccOp) (m : gmap (list N) Z) : gmap (list N) Z :=
  match op with DoStartTurn t _ u => <[t := goal_tokens u]> m | _ => m end.

Section Run.
Context `{Chrono}.
Variable thread : str.

(** The store's clock reads times that [chrono] can represent. *)
Definition time_ok (ms : Z) : Prop := is_ok (epoch_millis_to_datetime ms) = true.

(** The store operations other code may run: new goals have new ids, and this
    thread's goal is neither overwritten by a snapshot nor charged by others. *)
Definition store_op_ok (w : World) (op : StoreOp) : Prop :=
  match op with
  | OpReplace i n _ _ _ _ | OpInsert i n _ _ _ _ => i ∉ goal_ids w /\ time_ok n
  | OpUpdate n _ _ | OpPause n _ | OpUsageLimit n _ => time_ok n
  | OpAccount n t _ _ _ _ => t <> thread /\ time_ok n
  | OpSnapshot g => thread_id g <> thread
  | OpDelete _ | OpClearDeferral _ => True
  end.

Definition note_goal_id (op : StoreOp) (s : gset (list N)) : gset (list N) :=
  match op with
  | OpReplace i _ _ _ _ _ | OpInsert i _ _ _ _ _ => {[i]} ∪ s
  | _ => s
  end.

(** The database calls of a holder of the permit. *)
Definition charge_pending (w : World) (ms : Z) (mode : GoalAccountingMode) (p : Pending)
  : result GoalAccountingOutcome StoreError * Db :=
  charge_progress (mkConfig thread true true (clock w) ms) mode (pend_secs p) (pend_tokens p) (pend_goal p) (db w).

Inductive step : World -> World -> Prop :=
| step_clock w d :
    0 <= d ->
    step w (mkWorld (acc w) (db w) (clock w + d) (holder w) (ledger w) (started w) (goal_ids w))
| step_faults w fs :
    step w (mkWorld (acc w) (mkDb (goals (db w)) (deferrals (db w)) fs) (clock w) (holder w) (ledger w)
              (started w) (goal_ids w))
| step_acc w op :
    acc_op_ok w op ->
    step w (mkWorld (run_acc (clock w) op (acc w)) (db w) (clock w) (holder w) (ledger w)
              (note_started op (started w)) (goal_ids w))
| step_store w op :
    store_op_ok w op ->
    step w (mkWorld (acc w) (run_op op (db w)) (clock w) (holder w) (ledger w) (started w)
              (note_goal_id op (goal_ids w)))
| step_snapshot_turn w t snap :
    holder w = None -> progress_snapshot (clock w) t (acc w) = Some snap ->
    step w (mkWorld (acc w) (db w) (clock w) (Some (mkHolder (PTurn t snap) (turn_entry (acc w) t snap) None))
              (ledger w) (started w) (goal_ids w))
| step_snapshot_idle w snap :
    holder w = None -> idle_progress_snapshot (clock w) (acc w) = Some snap ->
    step w (mkWorld (acc w) (db w) (clock w) (Some (mkHolder (PIdle snap) (idle_entry snap) None))
              (ledger w) (started w) (goal_ids w))
| step_charge w ms mode p e goal db' :
    holder w = Some (mkHolder p e None) -> time_ok ms ->
    charge_pending w ms mode p = (Ok (Updated goal), db') ->
    step w (mkWorld (acc w) db' (clock w) (Some (mkHolder p e (Some (status goal)))) (e :: ledger w)
              (started w) (goal_ids w))
| step_no_charge w ms mode p e r db' :
    holder w = Some (mkHolder p e None) -> time_ok ms ->
    charge_pending w ms mode p = (r, db') -> (forall goal, r <> Ok (Updated goal)) ->
    step w (mkWorld (drop_pending (clock w) p r (acc w)) db' (clock w) None (ledger w) (started w) (goal_ids w))
| step_mark w p e st d :
    holder w = Some (mkHolder p e (Some st)) ->
    step w (mkWorld (mark_pending (clock w) p st d (acc w)) (db w) (clock w) None (ledger w) (started w) (goal_ids w)).

(** A thread whose runtime starts on a store, which may hold a goal of it already
    (the thread is resumed, or the goal was copied when it was forked). *)
Definition initial (t0 : Z) (d : Db) (ids : gset (list N)) : World :=
  mkWorld (default_state t0) d t0 None [] ∅ ids.

Definition reachable (t0 : Z) (d : Db) (ids : gset (list N)) : World -> Prop := rtc step (initial t0 d ids).

End Run.

(** ** How the methods move the counters *)

Inductive turn_change (op : AccOp) (t : str) : option GoalTurnAccounting -> GoalTurnAccounting -> Prop :=
| tc_start m u old b : op = DoStartTurn t m u -> turn_change op t old (new_turn u b)
| tc_usage u turn turn' :
    op = DoTokenUsage t u -> current_token_usage turn' = u ->
    last_accounted_token_usage turn' = last_accounted_token_usage turn -> turn_change op t (Some turn) turn'
| tc_same turn turn' :
    current_token_usage turn' = current_token_usage turn ->
    last_accounted_token_usage turn' = last_accounted_token_usage turn -> turn_change op t (Some turn) turn'
| tc_reset turn turn' :
    current_token_usage turn' = current_token_usage turn ->
    last_accounted_token_usage turn' = current_token_usage turn -> turn_change op t (Some turn) turn'.

Definition turns_change (op : AccOp) (m m' : gmap (list N) GoalTurnAccounting) : Prop :=
  forall t turn', m' !! t = Some turn' -> turn_change op t (m !! t) turn'.

Lemma turns_change_refl op m : turns_change op m m.
Proof. intros t turn' E. rewrite E. by apply tc_same. Qed.

Lemma turns_change_insert op m (t : str) turn' :
  turn_change op t (m !! t) turn' -> turns_change op m (<[t := turn']> m).
Proof.
  intros Ht k turn'' [[<- <-]|[_ E]]%lookup_insert_Some; [done|]. rewrite E. by apply tc_same.
Qed.

Lemma turns_change_alter op m (t : str) f :
  (forall turn, m !! t = Some turn -> turn_change op t (Some turn) (f turn)) -> turns_change op m (alter f t m).
Proof.
  intros Hf k turn'' E. destruct (decide (k = t)) as [->|Hk].
  - rewrite lookup_alter_eq in E. destruct (m !! t) as [turn|] eqn:Et; simplify_eq/=. by apply Hf.
  - rewrite lookup_alter_ne in E by done. rewrite E. by apply tc_same.
Qed.

Lemma turns_change_delete op m (t : str) : turns_change op m (delete t m).
Proof. intros k turn'' [_ E]%lookup_delete_Some. rewrite E. by apply tc_same. Qed.

Lemma run_acc_turns now op s : turns_change op (turns (inner s)) (turns (inner (run_acc now op s))).
Proof.
  destruct op; simpl; try apply turns_change_refl.
  - apply turns_change_insert. by eapply tc_start.
  - destruct (turns (inner s) !! t) as [turn|] eqn:E; [|apply turns_change_refl].
    repeat case_goal; simpl; apply turns_change_insert; rewrite E; by apply tc_same.
  - unfold execution_failure_goal. repeat case_goal; simpl; apply turns_change_refl.
  - destruct (turns (inner s) !! t) as [turn|] eqn:E; [|apply turns_change_refl].
    destruct item; simpl; try match goal with |- context [turns (if ?b then _ else _)] => destruct b end;
      simpl; apply turns_change_insert; rewrite E; by apply tc_same.
  - unfold empty_response_goal. destruct (turns (inner s) !! t) as [turn|] eqn:E; [|apply turns_change_refl].
    case_goal; [|apply turns_change_refl].
    case_goal; simpl; apply turns_change_insert; rewrite E; by apply tc_same.
  - unfold record_token_usage. destruct (turns (inner s) !! t) as [turn|] eqn:E; [|apply turns_change_refl].
    repeat case_goal; simpl; apply turns_change_insert; rewrite E; by eapply tc_usage.
  - unfold record_descendant_token_usage. case_goal; apply turns_change_refl.
  - unfold forget_other_report. repeat case_goal; simpl; try apply turns_change_refl;
      apply turns_change_insert; simpl in *; (rewrite E0 || rewrite E); by apply tc_same.
  - unfold mark_current_turn_goal_active, forget_other_report. repeat case_goal; simpl in *; try apply turns_change_refl;
      apply turns_change_insert; simpl in *; rewrite E1; (by apply tc_same) || (by apply tc_reset).
  - unfold forget_other_report. repeat case_goal; simpl; apply turns_change_refl.
  - unfold clear_current_turn_goal. case_goal; [|apply turns_change_refl]. simpl. apply turns_change_alter.
    intros turn _. by apply tc_same.
  - case_goal; [|apply turns_change_refl]. simpl. apply turns_change_alter. intros turn _. by apply tc_same.
  - case_goal; simpl; apply turns_change_delete.
  - unfold mark_budget_limit_reported_if_new. case_goal; apply turns_change_refl.
Qed.

(** The descendants' total only grows by what is recorded, and its baseline only
    jumps to the total. *)
Lemma run_acc_desc now op s :
  (descendant_token_usage (run_acc now op s) = descendant_token_usage s
   \/ exists u, op = DoDescendant u /\ 0 < goal_token_delta_for_usage u
      /\ descendant_token_usage (run_acc now op s)
         = i64_wrapping_add (descendant_token_usage s) (goal_token_delta_for_usage u))
  /\ (last_accounted_descendant_token_usage (inner (run_acc now op s))
        = last_accounted_descendant_token_usage (inner s)
      \/ last_accounted_descendant_token_usage (inner (run_acc now op s)) = descendant_token_usage s).
Proof.
  destruct op; simpl;
    unfold execution_failure_goal, empty_response_goal, record_token_usage, forget_other_report,
      mark_current_turn_goal_active, forget_other_report, clear_current_turn_goal, mark_budget_limit_reported_if_new,
      record_descendant_token_usage;
    try match goal with |- context [if 0 <? ?d then _ else _] => destruct (0 <? d) eqn:?; simpl end;
    split; try (by left); try (right; eexists; split_and!; [reflexivity|lia|reflexivity]);
    try (by repeat case_goal; auto).
Qed.

(** The wall clock's baseline only jumps to the present. *)
Lemma run_acc_wall now op s :
  last_accounted_at (wall_clock (inner (run_acc now op s))) = last_accounted_at (wall_clock (inner s))
  \/ last_accounted_at (wall_clock (inner (run_acc now op s))) = now.
Proof.
  destruct op; simpl;
    unfold execution_failure_goal, empty_response_goal, record_token_usage, forget_other_report,
      mark_current_turn_goal_active, forget_other_report, clear_current_turn_goal, mark_budget_limit_reported_if_new,
      record_descendant_token_usage, wall_mark_active_goal;
    try (by left); try (by right); try (by repeat (case_goal; simpl); auto).
Qed.

Lemma turn_token_delta_exact turn :
  usage_ok (last_accounted_token_usage turn) -> usage_ok (current_token_usage turn) ->
  usage_le (last_accounted_token_usage turn) (current_token_usage turn) ->
  turn_token_delta turn = goal_tokens (current_token_usage turn) - goal_tokens (last_accounted_token_usage turn).
Proof.
  unfold usage_ok, usage_le, turn_token_delta, token_delta_since_last_accounting, goal_token_delta_for_usage, goal_tokens.
  simpl. unfold_int. lia.
Qed.

Lemma goal_token_delta_exact u : usage_ok u -> goal_token_delta_for_usage u = goal_tokens u.
Proof. unfold usage_ok, goal_token_delta_for_usage, goal_tokens. unfold_int. lia. Qed.

Lemma usage_le_tokens u v : usage_le u v -> goal_tokens u <= goal_tokens v.
Proof. unfold usage_le, goal_tokens. lia. Qed.

Lemma usage_le_refl u : usage_le u u.
Proof. unfold usage_le. lia. Qed.

Lemma usage_le_trans u v w : usage_le u v -> usage_le v w -> usage_le u w.
Proof. unfold usage_le. lia. Qed.

(** ** Meters

    A counter [cur] that grows, a baseline [last] up to which it has been
    charged, the total [c] charged so far, and a charge that may be under way:
    its amount, the reading it was taken at, and whether it has been made. *)

Definition meter (ph : option (Z * Z * bool)) (c last cur : Z) : Prop :=
  last <= cur
  /\ match ph with
     | None => c <= last
     | Some (_, reading, true) => reading <= cur /\ c <= reading
     | Some (amount, reading, false) => reading <= cur /\ c <= last /\ c + amount <= reading
     end.

Lemma meter_bound ph c last cur : meter ph c last cur -> c <= cur.
Proof. unfold meter. destruct ph as [[[a r] []]|]; lia. Qed.

Lemma meter_move ph c last cur last' cur' :
  meter ph c last cur -> cur <= cur' -> last <= last' <= cur' -> meter ph c last' cur'.
Proof. unfold meter. destruct ph as [[[a r] []]|]; lia. Qed.

Lemma meter_take c last cur amount :
  meter None c last cur -> amount <= cur - last -> meter (Some (amount, cur, false)) c last cur.
Proof. unfold meter. lia. Qed.

Lemma meter_charge a r c last cur :
  meter (Some (a, r, false)) c last cur -> meter (Some (a, r, true)) (a + c) last cur.
Proof. unfold meter. lia. Qed.

Lemma meter_drop a r c last cur : meter (Some (a, r, false)) c last cur -> meter None c last cur.
Proof. unfold meter. lia. Qed.

Lemma meter_mark a r c last cur : meter (Some (a, r, true)) c last cur -> meter None c r cur.
Proof. unfold meter. lia. Qed.

(** ** The invariant of the accounting state *)

Definition pend_turn (p : Pending) : option str := match p with PTurn t _ => Some t | PIdle _ => None end.

Definition turn_phase (t : str) (h : option Holder) : option (Z * Z * bool) :=
  match h with
  | Some (mkHolder (PTurn t' snap) e c) =>
      if decide (t' = t) then Some (e_own e, goal_tokens (snap_token_usage snap), is_some c) else None
  | _ => None
  end.

Definition held_usage (t : str) (h : option Holder) : option TokenUsage :=
  match h with
  | Some (mkHolder (PTurn t' snap) _ _) => if decide (t' = t) then Some (snap_token_usage snap) else None
  | _ => None
  end.

Definition desc_phase (h : option Holder) : option (Z * Z * bool) :=
  match h with
  | Some (mkHolder p e c) => Some (e_desc e, pend_desc p, is_some c)
  | None => None
  end.

Definition turn_ok (w : World) (t : str) (turn : GoalTurnAccounting) : Prop :=
  usage_ok (current_token_usage turn) /\ usage_ok (last_accounted_token_usage turn)
  /\ usage_le (last_accounted_token_usage turn) (current_token_usage turn)
  /\ (forall u, held_usage t (holder w) = Some u -> usage_ok u /\ usage_le u (current_token_usage turn))
  /\ exists b, started w !! t = Some b
     /\ meter (turn_phase t (holder w)) (b + own_charged t (ledger w))
          (goal_tokens (last_accounted_token_usage turn)) (goal_tokens (current_token_usage turn)).

Definition wall_ok (t0 : Z) (w : World) : Prop :=
  let c := t0 + NANOS * secs_charged (ledger w) in
  let last := last_accounted_at (wall_clock (inner (acc w))) in
  c <= clock w
  /\ match holder w with
     | None => c <= last
     | Some (mkHolder _ e None) => c <= last /\ c + NANOS * e_secs e <= clock w
     | Some (mkHolder _ e (Some _)) => c - NANOS * e_secs e <= last
     end.

Definition entry_ok (st : gmap (list N) Z) (e : Entry) : Prop :=
  (forall t, e_turn e = Some t -> is_Some (st !! t))
  /\ 0 <= e_own e /\ 0 <= e_desc e /\ 0 <= e_tokens e <= e_own e + e_desc e /\ 0 <= e_secs e.

Definition holder_ok (w : World) : Prop :=
  match holder w with
  | None => True
  | Some (mkHolder p e _) =>
      entry_ok (started w) e /\ e_turn e = pend_turn p /\ e_goal e = pend_goal p
      /\ e_tokens e = Z.max (pend_tokens p) 0 /\ e_secs e = Z.max (pend_secs p) 0 /\ in_i64 (pend_secs p)
  end.

Record acc_inv (t0 : Z) (w : World) : Prop := {
  inv_turns : forall t turn, turns (inner (acc w)) !! t = Some turn -> turn_ok w t turn;
  inv_desc_range : 0 <= last_accounted_descendant_token_usage (inner (acc w)) /\ descendant_token_usage (acc w) <= i64_max;
  inv_desc : meter (desc_phase (holder w)) (desc_charged (ledger w))
    (last_accounted_descendant_token_usage (inner (acc w))) (descendant_token_usage (acc w));
  inv_wall : wall_ok t0 w;
  inv_holder : holder_ok w;
  inv_ledger : Forall (entry_ok (started w)) (ledger w) }.

Lemma own_charged_absent (st : gmap (list N) Z) t l :
  Forall (entry_ok st) l -> st !! t = None -> own_charged t l = 0.
Proof.
  intros Hl Ht. induction Hl as [|e l (He & _) Hl IH]; [done|]. unfold own_charged in *. simpl.
  case_bool_decide as Ee; [|lia]. apply He in Ee as [??]. congruence.
Qed.

Lemma turn_phase_absent w t : holder_ok w -> started w !! t = None -> turn_phase t (holder w) = None /\ held_usage t (holder w) = None.
Proof.
  unfold holder_ok, turn_phase, held_usage. destruct (holder w) as [[[t' snap|] e c]|]; try done.
  intros ((He & _) & Et & _) Hn. case_decide; [|done]. subst. destruct (He t Et). congruence.
Qed.

Lemma entry_ok_mono st st' e :
  (forall t, is_Some (st !! t) -> is_Some (st' !! t)) -> entry_ok st e -> entry_ok st' e.
Proof. unfold entry_ok. intros Hs (He & ?). split; [|done]. intros t Ht. by apply Hs, He. Qed.

Lemma note_started_mono w op (t : str) b :
  acc_op_ok w op -> started w !! t = Some b -> note_started op (started w) !! t = Some b.
Proof.
  intros Hop Hs. destruct op; simpl; try done. destruct (decide (t0 = t)) as [->|]; [|by rewrite lookup_insert_ne].
  simpl in Hop. destruct Hop. congruence.
Qed.

(** Nothing but the counters matters to a turn's meter. *)
Lemma turn_ok_move w w' t turn turn' :
  turn_ok w t turn -> holder w' = holder w -> ledger w' = ledger w ->
  (forall b, started w !! t = Some b -> started w' !! t = Some b) ->
  usage_ok (current_token_usage turn') -> usage_ok (last_accounted_token_usage turn') ->
  usage_le (current_token_usage turn) (current_token_usage turn') ->
  usage_le (last_accounted_token_usage turn) (last_accounted_token_usage turn') ->
  usage_le (last_accounted_token_usage turn') (current_token_usage turn') ->
  turn_ok w' t turn'.
Proof.
  intros (H1 & H2 & H3 & H4 & b & Hb & Hm) Eh El Hs Hc Hl Hcc Hll Hlc.
  unfold turn_ok. rewrite Eh, El. split_and!; try done.
  - intros u Hu. apply H4 in Hu as [? ?]. split; [done|]. by eapply usage_le_trans.
  - exists b. split; [by apply Hs|]. eapply meter_move; [exact Hm| |split]; by apply usage_le_tokens.
Qed.

Lemma turn_change_ok w op w' t turn' :
  acc_op_ok w op -> (forall turn, turns (inner (acc w)) !! t = Some turn -> turn_ok w t turn) ->
  holder_ok w -> Forall (entry_ok (started w)) (ledger w) ->
  holder w' = holder w -> ledger w' = ledger w -> started w' = note_started op (started w) ->
  turn_change op t (turns (inner (acc w)) !! t) turn' -> turn_ok w' t turn'.
Proof.
  intros Hop Ht Hh Hl Eh El Es Hc. pose proof (note_started_mono w op t) as Hns. rewrite <- Es in Hns.
  pose proof usage_le_refl. inversion Hc as [m u old b Eop Eo Et|u turn ? Eop Eu El' Eo|turn ? Ec El' Eo|turn ? Ec El' Eo]; subst turn'.
  - subst op. simpl in *. destruct Hop as [Hn Hu]. destruct (turn_phase_absent w t Hh Hn) as [Hp Hus].
    unfold turn_ok. rewrite Eh, El, Es, Hp, Hus. simpl. split_and!; try done.
    exists (goal_tokens u). split; [by rewrite lookup_insert_eq|]. rewrite (own_charged_absent _ _ _ Hl Hn).
    unfold meter. lia.
  - subst op. simpl in Hop. destruct Hop as [Hu Hle]. symmetry in Eo. specialize (Ht turn Eo).
    pose proof Ht as (?&?&?&_). pose proof (Hle turn Eo).
    eapply turn_ok_move; try done; rewrite ?Eu, ?El'; try done; [by intros ? ?; apply Hns|by eapply usage_le_trans].
  - symmetry in Eo. specialize (Ht turn Eo). pose proof Ht as (?&?&?&_).
    eapply turn_ok_move; try done; rewrite ?Ec, ?El'; try done. by intros ? ?; apply Hns.
  - symmetry in Eo. specialize (Ht turn Eo). pose proof Ht as (?&?&?&_).
    eapply turn_ok_move; try done; rewrite ?Ec, ?El'; try done. by intros ? ?; apply Hns.
Qed.

Lemma inv_acc_step t0 w op :
  acc_inv t0 w -> acc_op_ok w op ->
  acc_inv t0 (mkWorld (run_acc (clock w) op (acc w)) (db w) (clock w) (holder w) (ledger w)
                (note_started op (started w)) (goal_ids w)).
Proof.
  intros [Ht [Hd1 Hd2] Hd Hw Hh Hl] Hop.
  assert (Hmono : forall t, is_Some (started w !! t) -> is_Some (note_started op (started w) !! t)).
  { intros t [b Hb]. exists b. by apply note_started_mono. }
  destruct (run_acc_desc (clock w) op (acc w)) as [HD HL].
  assert (Hgrow : descendant_token_usage (acc w) <= descendant_token_usage (run_acc (clock w) op (acc w)) <= i64_max).
  { destruct HD as [->|(u & -> & Hpos & ->)]; [lia|]. destruct Hop as [Hu Hfit].
    rewrite goal_token_delta_exact in * by done. rewrite i64_wrapping_add_exact; [lia|].
    unfold meter in Hd. unfold in_i64, i64_min. lia. }
  pose proof Hd as [Hld _]. constructor; simpl.
  - intros t turn' E. eapply turn_change_ok; [exact Hop|intros; by apply Ht|done|done|done|done|done|].
    by apply (run_acc_turns (clock w)).
  - destruct HL as [->| ->]; lia.
  - eapply meter_move; [exact Hd|lia|]. destruct HL as [->| ->]; lia.
  - destruct Hw as [Hw1 Hw2]. split; simpl; [done|].
    destruct (run_acc_wall (clock w) op (acc w)) as [->| ->]; [done|].
    unfold holder_ok in Hh. destruct (holder w) as [[p e [st|]]|]; [|lia|lia]. destruct Hh as ((_ & _ & _ & _ & Hs) & _). unfold NANOS in *. lia.
  - unfold holder_ok in *. simpl. destruct (holder w) as [[p e c]|]; [|done].
    destruct Hh as (He & ?). split; [by eapply entry_ok_mono|done].
  - eapply Forall_impl; [exact Hl|]. intros e. by apply entry_ok_mono.
Qed.

(** A reading of the wall clock never exceeds the time that has passed. *)
Lemma time_delta_bound now w :
  let dt := time_delta_since_last_accounting now w in
  0 <= dt /\ in_i64 dt /\ NANOS * dt <= Z.max 0 (now - last_accounted_at w).
Proof.
  simpl. unfold time_delta_since_last_accounting. set (e := Z.max 0 (now - last_accounted_at w)).
  assert (0 <= e) by lia. assert (NANOS * (e / NANOS) <= e) by (apply Z.mul_div_le; done).
  assert (0 <= e / NANOS) by (apply Z.div_pos; done).
  unfold i64_try_from. unfold_int. destruct (_ && _) eqn:E; simpl; unfold NANOS in *; lia.
Qed.

(** What a snapshot of a turn says. *)
Lemma progress_snapshot_Some now t s snap :
  progress_snapshot now t s = Some snap ->
  exists turn g, turns (inner s) !! t = Some turn /\ active_goal_id turn = Some g
  /\ snap_token_usage snap = current_token_usage turn /\ snap_descendant snap = descendant_token_usage s
  /\ snap_goal_id snap = g
  /\ (snap_time_delta snap = 0 \/ snap_time_delta snap = time_delta_since_last_accounting now (wall_clock (inner s)))
  /\ snap_token_delta snap = i64_saturating_add (turn_token_delta turn)
       (i64_saturating_sub (descendant_token_usage s) (last_accounted_descendant_token_usage (inner s))).
Proof.
  unfold progress_snapshot. intros H. repeat case_hyp H; simplify_eq/=; eauto 12.
Qed.

Lemma idle_progress_snapshot_Some now s snap :
  idle_progress_snapshot now s = Some snap ->
  idle_descendant snap = descendant_token_usage s
  /\ idle_time_delta snap = time_delta_since_last_accounting now (wall_clock (inner s))
  /\ idle_token_delta snap = i64_saturating_sub (descendant_token_usage s) (last_accounted_descendant_token_usage (inner s)).
Proof. unfold idle_progress_snapshot. intros H. repeat case_hyp H; simplify_eq/=; auto. Qed.

Lemma wall_take t0 w dt :
  wall_ok t0 w -> holder w = None ->
  (dt = 0 \/ dt = time_delta_since_last_accounting (clock w) (wall_clock (inner (acc w)))) ->
  in_i64 dt /\ 0 <= dt
  /\ t0 + NANOS * secs_charged (ledger w) + NANOS * Z.max dt 0 <= clock w.
Proof.
  unfold wall_ok. intros [H1 H2] Hh Hdt. rewrite Hh in H2.
  pose proof (time_delta_bound (clock w) (wall_clock (inner (acc w)))) as (Hb1 & Hb2 & Hb3).
  destruct Hdt as [->| ->]; unfold NANOS in *; unfold_int; lia.
Qed.

Lemma desc_delta_exact t0 w :
  acc_inv t0 w ->
  let d := descendant_token_usage (acc w) - last_accounted_descendant_token_usage (inner (acc w)) in
  i64_saturating_sub (descendant_token_usage (acc w)) (last_accounted_descendant_token_usage (inner (acc w))) = d /\ 0 <= d.
Proof.
  intros [_ [H1 H2] [H3 _] _ _ _] d. split; [|lia]. unfold d. apply i64_saturating_sub_exact.
  unfold in_i64, i64_min. lia.
Qed.

(** The parts of the invariant a snapshot does not touch. *)
Lemma turn_ok_take w t turn h :
  turn_ok w t turn -> holder w = None -> turn_phase t (Some h) = None -> held_usage t (Some h) = None ->
  forall a d c l st ids, l = ledger w -> st = started w ->
  turn_ok (mkWorld a d c (Some h) l st ids) t turn.
Proof.
  intros (H1 & H2 & H3 & H4 & b & Hb & Hm) Eh Hp Hu a d c l st ids -> ->.
  unfold turn_ok. simpl holder. rewrite Hp, Hu. rewrite Eh in Hm. split_and!; try done. by exists b.
Qed.

Lemma inv_snapshot_turn t0 w t snap :
  acc_inv t0 w -> holder w = None -> progress_snapshot (clock w) t (acc w) = Some snap ->
  acc_inv t0 (mkWorld (acc w) (db w) (clock w) (Some (mkHolder (PTurn t snap) (turn_entry (acc w) t snap) None))
                (ledger w) (started w) (goal_ids w)).
Proof.
  intros Hi Hn Hs. pose proof Hi as [Ht Hdr Hd Hw _ Hl].
  apply progress_snapshot_Some in Hs as (turn & g & Et & _ & Eu & Ed & Eg & Etime & Etok).
  pose proof (Ht t turn Et) as (Hu1 & Hu2 & Hu3 & _ & b & Hb & Hm). rewrite Hn in Hm, Hd. simpl in Hm, Hd.
  pose proof (turn_token_delta_exact turn Hu2 Hu1 Hu3) as Eown. pose proof (usage_le_tokens _ _ Hu3).
  pose proof (desc_delta_exact t0 w Hi) as [Edesc Hdesc]. simpl in Edesc, Hdesc.
  pose proof (wall_take t0 w _ Hw Hn Etime) as (Hdt1 & Hdt2 & Hdt3).
  constructor; simpl; try done.
  - intros t' turn' Et'. destruct (decide (t = t')) as [<-|Hne].
    + replace turn' with turn by congruence.
      unfold turn_ok; simpl. rewrite !decide_True by done. rewrite Eu, Et. simpl. split_and!; try done.
      * intros u [= <-]. split; [done|apply usage_le_refl].
      * exists b. split; [done|]. apply meter_take; [done|lia].
    + eapply turn_ok_take; try done; [by apply Ht| |]; simpl; by rewrite decide_False.
  - rewrite Ed. apply meter_take; [done|]. lia.
  - destruct Hw as [Hw1 Hw2]. rewrite Hn in Hw2. unfold wall_ok. simpl. split_and!; [done|done|lia].
  - unfold holder_ok; simpl. split_and!; try done. unfold entry_ok; simpl. rewrite Et, Etok.
    split_and!; try lia; [intros ? [= <-]; by eexists|]. unfold_int. lia.
Qed.

Lemma inv_snapshot_idle t0 w snap :
  acc_inv t0 w -> holder w = None -> idle_progress_snapshot (clock w) (acc w) = Some snap ->
  acc_inv t0 (mkWorld (acc w) (db w) (clock w) (Some (mkHolder (PIdle snap) (idle_entry snap) None))
                (ledger w) (started w) (goal_ids w)).
Proof.
  intros Hi Hn Hs. pose proof Hi as [Ht Hdr Hd Hw _ Hl].
  apply idle_progress_snapshot_Some in Hs as (Ed & Etime & Etok). rewrite Hn in Hd. simpl in Hd.
  pose proof (desc_delta_exact t0 w Hi) as [Edesc Hdesc]. simpl in Edesc, Hdesc.
  pose proof (wall_take t0 w _ Hw Hn (or_intror Etime)) as (Hdt1 & Hdt2 & Hdt3).
  constructor; simpl; try done.
  - intros t' turn' Et'. eapply turn_ok_take; try done. by apply Ht.
  - rewrite Ed. apply meter_take; [done|]. lia.
  - destruct Hw as [Hw1 Hw2]. rewrite Hn in Hw2. unfold wall_ok. simpl. split_and!; [done|done|lia].
  - unfold holder_ok; simpl. split_and!; try done. unfold entry_ok; simpl. split_and!; try done; try lia.
Qed.

Lemma own_charged_cons t e l :
  own_charged t (e :: l) = (if bool_decide (e_turn e = Some t) then e_own e else 0) + own_charged t l.
Proof. done. Qed.

Lemma inv_charge t0 w p e st db' :
  acc_inv t0 w -> holder w = Some (mkHolder p e None) ->
  acc_inv t0 (mkWorld (acc w) db' (clock w) (Some (mkHolder p e (Some st))) (e :: ledger w) (started w) (goal_ids w)).
Proof.
  intros [Ht Hdr Hd Hw Hh Hl] Eh. unfold wall_ok, holder_ok in *. rewrite Eh in *.
  destruct Hh as (He & Eturn & Hrest). constructor; simpl; try done.
  - intros t turn Et. destruct (Ht t turn Et) as (H1 & H2 & H3 & H4 & b & Hb & Hm). rewrite Eh in H4, Hm.
    unfold turn_ok; cbn [holder ledger started]. split_and!; try done.
    exists b. split; [done|]. rewrite own_charged_cons, Eturn. clear H4. destruct p as [t' snap|snap]; simpl in *; [|done].
    destruct (decide (t' = t)) as [->|Hne].
    + rewrite bool_decide_true by done. apply meter_charge in Hm.
      replace (b + _) with (e_own e + (b + own_charged t (ledger w))) by lia. done.
    + by rewrite bool_decide_false by congruence.
  - by apply meter_charge in Hd.
  - unfold wall_ok; simpl. unfold secs_charged in *. simpl. destruct He as (_ & _ & _ & _ & ?). unfold NANOS in *. lia.
  - constructor; done.
Qed.

(** Releasing the permit without a charge. *)
Lemma inv_release t0 w p e db' :
  acc_inv t0 w -> holder w = Some (mkHolder p e None) ->
  acc_inv t0 (mkWorld (acc w) db' (clock w) None (ledger w) (started w) (goal_ids w)).
Proof.
  intros [Ht Hdr Hd Hw Hh Hl] Eh. unfold wall_ok in *. rewrite Eh in *. constructor; simpl; try done.
  - intros t turn Et. destruct (Ht t turn Et) as (H1 & H2 & H3 & _ & b & Hb & Hm). rewrite Eh in Hm.
    unfold turn_ok; simpl. split_and!; try done. exists b. split; [done|]. destruct p as [t' snap|snap]; simpl in Hm; [|done].
    case_decide; [by apply meter_drop in Hm|done].
  - by apply meter_drop in Hd.
  - unfold wall_ok; simpl. tauto.
Qed.

(** The marking of a made charge, field by field. *)
Lemma mark_fields now desc dt c st i :
  let i' := mark_accounted_fields now desc dt c st i in
  turns i' = turns i /\ last_accounted_descendant_token_usage i' = desc
  /\ (last_accounted_at (wall_clock i') = now
      \/ last_accounted_at (wall_clock i') = last_accounted_at (wall_clock i) /\ dt <= 0
      \/ last_accounted_at (wall_clock i') = last_accounted_at (wall_clock i) + unwrap_or (u64_try_from dt) u64_max * NANOS).
Proof.
  simpl. unfold mark_accounted_fields, wall_mark_accounted, instant_checked_add, wall_clear_active_goal.
  destruct c, (bool_decide _), (dt <=? 0) eqn:E; simpl; split_and!; try done; try (by left); try (right; left; lia).
  all: case_goal; simpl; auto.
Qed.

Lemma wall_mark t0 w p e st i' :
  wall_ok t0 w -> holder w = Some (mkHolder p e (Some st)) -> 0 <= e_secs e ->
  e_secs e = Z.max (pend_secs p) 0 -> in_i64 (pend_secs p) ->
  (last_accounted_at (wall_clock i') = clock w
      \/ last_accounted_at (wall_clock i') = last_accounted_at (wall_clock (inner (acc w))) /\ pend_secs p <= 0
      \/ last_accounted_at (wall_clock i') = last_accounted_at (wall_clock (inner (acc w)))
           + unwrap_or (u64_try_from (pend_secs p)) u64_max * NANOS) ->
  t0 + NANOS * secs_charged (ledger w) <= last_accounted_at (wall_clock i').
Proof.
  unfold wall_ok. intros Hw Eh Hs Es Hr Hc. rewrite Eh in Hw. destruct Hw as [Hw1 Hw2].
  destruct Hc as [->|[[-> Hle]| ->]]; [done|unfold NANOS in *; lia|].
  unfold u64_try_from. unfold_int. destruct (_ && _) eqn:E; simpl; unfold NANOS in *; [|unfold u64_max]; lia.
Qed.

(** A turn other than the one whose charge is marked. *)
Lemma turn_ok_other w t turn a d c ids :
  turn_ok w t turn -> turn_phase t (holder w) = None ->
  turn_ok (mkWorld a d c None (ledger w) (started w) ids) t turn.
Proof.
  intros (H1 & H2 & H3 & _ & b & Hb & Hm) Hp. rewrite Hp in Hm. unfold turn_ok. split_and!; try done. by exists b.
Qed.

Lemma turn_ok_mark w t snap e st turn turn' a d c ids :
  turn_ok w t turn -> holder w = Some (mkHolder (PTurn t snap) e (Some st)) ->
  current_token_usage turn' = current_token_usage turn ->
  last_accounted_token_usage turn' = snap_token_usage snap ->
  turn_ok (mkWorld a d c None (ledger w) (started w) ids) t turn'.
Proof.
  intros (H1 & H2 & H3 & H4 & b & Hb & Hm) Eh Ec El. rewrite Eh in H4, Hm. simpl in H4, Hm.
  rewrite !decide_True in * by done. destruct (H4 _ eq_refl) as [Hu Hle].
  unfold turn_ok. rewrite Ec, El. split_and!; try done. exists b. split; [done|].
  by apply meter_mark in Hm.
Qed.

Lemma inv_mark t0 w p e st d :
  acc_inv t0 w -> holder w = Some (mkHolder p e (Some st)) ->
  acc_inv t0 (mkWorld (mark_pending (clock w) p st d (acc w)) (db w) (clock w) None (ledger w) (started w) (goal_ids w)).
Proof.
  intros [Ht Hdr Hd Hw Hh Hl] Eh. unfold holder_ok in Hh. rewrite Eh in Hh, Hd.
  destruct Hh as ((_ & _ & _ & _ & Hs) & Eturn & _ & _ & Es & Hr).
  assert (Hturns : forall t turn, turns (inner (mark_pending (clock w) p st d (acc w))) !! t = Some turn ->
    turn_ok (mkWorld (mark_pending (clock w) p st d (acc w)) (db w) (clock w) None (ledger w) (started w) (goal_ids w)) t turn).
  { intros t turn' Et. destruct p as [tp snap|snap]; simpl in Et;
      rewrite (proj1 (mark_fields _ _ _ _ _ _)) in Et; simpl in Et.
    - destruct (decide (tp = t)) as [->|Hne].
      + rewrite lookup_alter_eq in Et. destruct (turns (inner (acc w)) !! t) as [turn|] eqn:E; simplify_eq/=.
        eapply turn_ok_mark; [by apply Ht|done| |]; by case_goal.
      + rewrite lookup_alter_ne in Et by done. eapply turn_ok_other; [by apply Ht|].
        rewrite Eh. simpl. by rewrite decide_False.
    - eapply turn_ok_other; [by apply Ht|]. by rewrite Eh. }
  assert (Hfields : last_accounted_descendant_token_usage (inner (mark_pending (clock w) p st d (acc w))) = pend_desc p
    /\ descendant_token_usage (mark_pending (clock w) p st d (acc w)) = descendant_token_usage (acc w)
    /\ t0 + NANOS * secs_charged (ledger w) <= last_accounted_at (wall_clock (inner (mark_pending (clock w) p st d (acc w))))).
  { destruct p as [tp snap|snap]; simpl; match goal with |- context [mark_accounted_fields ?n ?ds ?dt ?c ?s ?i] =>
      destruct (mark_fields n ds dt c s i) as (_ & -> & Hlast) end; (split_and!; [done|done|]);
      (eapply wall_mark; [exact Hw|exact Eh|done|done|done|exact Hlast]). }
  destruct Hfields as (Ed & ED & Hwall). constructor; simpl.
  - exact Hturns.
  - rewrite Ed, ED. pose proof Hd as Hd'. unfold meter in Hd'. simpl in Hd'.
    assert (0 <= desc_charged (ledger w)) by (clear -Hl; induction Hl as [|x l (?&?&?&?) ? IH]; unfold desc_charged in *; simpl; lia).
    lia.
  - rewrite Ed, ED. by apply meter_mark in Hd.
  - destruct Hw as [Hw _]. split; done.
  - done.
  - done.
Qed.

Lemma inv_clock_step t0 w dt :
  acc_inv t0 w -> 0 <= dt ->
  acc_inv t0 (mkWorld (acc w) (db w) (clock w + dt) (holder w) (ledger w) (started w) (goal_ids w)).
Proof.
  intros [Ht Hdr Hd [Hw1 Hw2] Hh Hl] Hdt. constructor; try done.
  split; simpl; [lia|]. destruct (holder w) as [[p e [st|]]|]; lia || done.
Qed.

Lemma inv_no_charge t0 w p e r db' :
  acc_inv t0 w -> holder w = Some (mkHolder p e None) ->
  acc_inv t0 (mkWorld (drop_pending (clock w) p r (acc w)) db' (clock w) None (ledger w) (started w) (goal_ids w)).
Proof.
  intros Hi Eh. pose proof (inv_release t0 w p e db' Hi Eh) as Hr. destruct p as [t snap|snap]; [done|].
  destruct r; [|done]. exact (inv_acc_step t0 _ DoResetIdle Hr I).
Qed.

Lemma acc_inv_step `{Chrono} thread t0 w w' : acc_inv t0 w -> step thread w w' -> acc_inv t0 w'.
Proof.
  intros Hi Hs. destruct Hs.
  - by apply inv_clock_step.
  - by destruct Hi.
  - by apply inv_acc_step.
  - by destruct Hi.
  - by apply inv_snapshot_turn.
  - by apply inv_snapshot_idle.
  - by apply inv_charge.
  - by eapply inv_no_charge.
  - by eapply inv_mark.
Qed.

Lemma acc_inv_initial t0 d ids : acc_inv t0 (initial t0 d ids).
Proof.
  constructor; simpl; try done.
  unfold wall_ok, secs_charged; simpl. lia.
Qed.

Lemma acc_inv_reachable `{Chrono} thread t0 d ids w : reachable thread t0 d ids w -> acc_inv t0 w.
Proof.
  unfold reachable. intros Hr. pose proof (acc_inv_initial t0 d ids) as Hi.
  induction Hr as [|x y z Hxy _ IH]; [done|]. apply IH. by eapply acc_inv_step.
Qed.

(** ** The invariant of the store *)

Section StoreInv.
Context `{Chrono}.
Variable thread : str.

Definition decodable (r : ThreadGoalRow) : Prop :=
  (exists st, row_status r = as_str st) /\ time_ok (row_created_at_ms r) /\ time_ok (row_updated_at_ms r).

Lemma decodable_ok r : decodable r -> exists g, thread_goal_from_row r = Ok g /\ goal_id g = row_goal_id r.
Proof.
  intros ((st & Es) & Hc & Hu). unfold thread_goal_from_row, time_ok in *. rewrite Es, status_try_from_as_str. simpl.
  destruct (epoch_millis_to_datetime (row_created_at_ms r)), (epoch_millis_to_datetime (row_updated_at_ms r)); try done.
  by eexists.
Qed.

(** What a goal had used when the run began. *)
Definition tokens_before (d : Db) (g : str) : Z :=
  match goals d !! thread with Some r => if bool_decide (row_goal_id r = g) then row_tokens_used r else 0 | None => 0 end.
Definition seconds_before (d : Db) (g : str) : Z :=
  match goals d !! thread with Some r => if bool_decide (row_goal_id r = g) then row_time_used_seconds r else 0 | None => 0 end.

(** The goal the thread starts with, if any, is readable and its identifier taken. *)
Definition starts_with_goal (d : Db) (ids : gset (list N)) : Prop :=
  forall r, goals d !! thread = Some r -> decodable r /\ row_goal_id r ∈ ids.

Section Start.
Variable d0 : Db.

Definition row_tracks (ids : gset (list N)) (l : list Entry) (r : ThreadGoalRow) : Prop :=
  decodable r /\ row_goal_id r ∈ ids
  /\ row_tokens_used r = tokens_before d0 (row_goal_id r) + goal_charged (row_goal_id r) l
  /\ row_time_used_seconds r = seconds_before d0 (row_goal_id r) + goal_secs (row_goal_id r) l.

Definition store_inv (w : World) : Prop :=
  (forall r, goals (db w) !! thread = Some r -> row_tracks (goal_ids w) (ledger w) r)
  /\ Forall (fun e => e_goal e ∈ goal_ids w) (ledger w)
  /\ (forall r, goals d0 !! thread = Some r -> row_goal_id r ∈ goal_ids w).

Lemma nothing_before (ids : gset (list N)) g : (forall r, goals d0 !! thread = Some r -> row_goal_id r ∈ ids) -> g ∉ ids ->
  tokens_before d0 g = 0 /\ seconds_before d0 g = 0.
Proof.
  unfold tokens_before, seconds_before. intros Hi Hg. destruct (goals d0 !! thread) as [r|]; [|done].
  specialize (Hi r eq_refl). by rewrite bool_decide_false by (intros <-; done).
Qed.

Lemma total_absent (ids : gset (list N)) g f l :
  Forall (fun e => e_goal e ∈ ids) l -> g ∉ ids -> total (fun e => bool_decide (e_goal e = g)) f l = 0.
Proof.
  intros Hl Hg. induction Hl as [|e l He Hl IH]; [done|]. simpl. case_bool_decide; [by subst|lia].
Qed.

(** What other code does to the goal does not move its counters. *)
Lemma effect_tracks w op old r :
  store_op_ok thread w op -> thread = op_thread op -> Forall (fun e => e_goal e ∈ goal_ids w) (ledger w) ->
  (forall r, goals d0 !! thread = Some r -> row_goal_id r ∈ goal_ids w) ->
  (forall o, old = Some o -> row_tracks (goal_ids w) (ledger w) o) -> row_effect op old r ->
  row_tracks (note_goal_id op (goal_ids w)) (ledger w) r.
Proof.
  intros Hop Ht Hl H0 Hold He. destruct He; simpl in Hop, Ht; try done.
  - destruct Hop as [Hi Hn]. destruct (nothing_before _ _ H0 Hi) as [B1 B2].
    split_and!; simpl; [split_and!; [by eexists|done..]|set_solver| |]; unfold goal_charged, goal_secs;
      rewrite ?B1, ?B2; symmetry; by eapply total_absent.
  - destruct Hop as [Hi Hn]. destruct (nothing_before _ _ H0 Hi) as [B1 B2].
    split_and!; simpl; [split_and!; [by eexists|done..]|set_solver| |]; unfold goal_charged, goal_secs;
      rewrite ?B1, ?B2; symmetry; by eapply total_absent.
  - destruct (Hold row eq_refl) as (((st & Es) & ? & ?) & ? & ? & ?). split_and!; simpl; try done. split_and!; try done.
    simpl. repeat case_goal; rewrite ?Es; try (by exists BudgetLimited); try (by eexists).
    unfold updated_status. repeat case_goal; eauto.
  - destruct (Hold row eq_refl) as (((st & Es) & ? & ?) & ? & ? & ?). split_and!; simpl; try done.
    split_and!; try done. by exists Paused.
  - destruct (Hold row eq_refl) as (((st & Es) & ? & ?) & ? & ? & ?). split_and!; simpl; try done.
    split_and!; try done. by exists UsageLimited.
  - by destruct Hop.
Qed.

Lemma charge_tracks ids l e n dt dk m r :
  row_tracks ids l r -> time_ok n -> row_goal_id r = e_goal e ->
  e_tokens e = dk -> e_secs e = dt -> row_tracks ids (e :: l) (charge n dt dk m r).
Proof.
  intros (((st & Es) & ? & ?) & ? & Ht & Hs) Hn Hg <- <-. unfold row_tracks, goal_charged, goal_secs in *. simpl.
  rewrite bool_decide_true by done. split_and!; try lia; try done. split_and!; try done. simpl. case_goal; [by exists BudgetLimited|eauto].
Qed.

(** The database calls of a holder of the permit. *)
Lemma charge_pending_cases w ms mode p r d :
  charge_pending thread w ms mode p = (r, d) ->
  (goals d = goals (db w) /\ forall g, r <> Ok (Updated g))
  \/ exists row, goals (db w) !! thread = Some row /\ row_goal_id row = pend_goal p
     /\ goals d = <[thread := charge ms (Z.max (pend_secs p) 0) (Z.max (pend_tokens p) 0) mode row]> (goals (db w))
     /\ r = match thread_goal_from_row (charge ms (Z.max (pend_secs p) 0) (Z.max (pend_tokens p) 0) mode row) with
            | Ok g => Ok (Updated g) | Err x => Err x end.
Proof.
  apply (charge_progress_cases (mkConfig thread true true (clock w) ms)).
Qed.

Lemma store_inv_step t0 w w' : acc_inv t0 w -> store_inv w -> step thread w w' -> store_inv w'.
Proof.
  intros Hi (Hr & Hl & H0) Hs. destruct Hs as [w dt Hdt|w fs|w op Hop|w op Hop|w t snap Hh Hsn|w snap Hh Hsn
    |w ms mode p e goal db' Hh Hms Hc|w ms mode p e r db' Hh Hms Hc Hn|w p e st d Hh]; try done.
  - split_and!; simpl.
    + intros r [Ho|[Ht He]]%run_op_stable.
      * destruct (Hr r Ho) as (? & Hin & ? & ?). unfold row_tracks. split_and!; try done. destruct op; simpl; set_solver.
      * by eapply effect_tracks.
    + eapply Forall_impl; [exact Hl|]. intros e He. destruct op; simpl in *; set_solver.
    + intros r Hr0. specialize (H0 r Hr0). destruct op; simpl; set_solver.
  - pose proof (inv_holder _ _ Hi) as Ho. unfold holder_ok in Ho. rewrite Hh in Ho. destruct Ho as (_ & _ & Eg & Et & Es & _).
    apply charge_pending_cases in Hc as [[_ Hc]|(row & Hrow & Hg & Hd & _)]; [by destruct (Hc goal)|].
    destruct (Hr row Hrow) as (? & Hin & ?). split_and!; simpl; [| |done].
    + intros r. rewrite Hd, lookup_insert_eq. intros [= <-]. apply charge_tracks; try done; congruence.
    + constructor; [|done]. by rewrite Eg, <- Hg.
  - apply charge_pending_cases in Hc as [[Hd _]|(row & Hrow & Hg & Hd & ->)]; [split_and!; simpl; [rewrite Hd|..]; done|].
    exfalso. destruct (Hr row Hrow) as (((st & Es) & ? & ?) & _).
    destruct (decodable_ok (charge ms (Z.max (pend_secs p) 0) (Z.max (pend_tokens p) 0) mode row)) as (g & E & _).
    { split_and!; try done. simpl. case_goal; [by exists BudgetLimited|eauto]. }
    rewrite E in Hn. by destruct (Hn g).
Qed.

End Start.

Lemma store_inv_reachable t0 d ids w :
  starts_with_goal d ids -> reachable thread t0 d ids w -> acc_inv t0 w /\ store_inv d w.
Proof.
  intros Hd Hr. assert (Hi : acc_inv t0 (initial t0 d ids) /\ store_inv d (initial t0 d ids)).
  { split; [apply acc_inv_initial|]. split_and!; simpl; [|done|intros r Er; by apply Hd].
    intros r Er. destruct (Hd r Er) as [? ?]. unfold row_tracks, tokens_before, seconds_before. rewrite Er, !bool_decide_true by done.
    split_and!; try done; unfold goal_charged, goal_secs; simpl; lia. }
  revert Hi. induction Hr as [|x y z Hxy _ IH]; [done|]. intros [Ha Hst]. apply IH.
  split; [by eapply acc_inv_step|by eapply store_inv_step].
Qed.

(** ** Properties *)

(** C31. However the hooks of a thread interleave and whichever database calls
    fail, nothing is charged twice: the charges made for a turn add up to at most
    the tokens it has used since it started, those for descendants to at most what
    they reported, the seconds to at most the time that has passed, and a charge is
    never negative nor more than its parts.  Turns have fresh identifiers, the usage
    reported for a turn does not shrink, and a charge that was begun is finished. *)
Theorem charges_bounded_by_usage t0 d ids w :
  reachable thread t0 d ids w ->
  (forall t turn b, turns (inner (acc w)) !! t = Some turn -> started w !! t = Some b ->
     own_charged t (ledger w) <= goal_tokens (current_token_usage turn) - b)
  /\ desc_charged (ledger w) <= descendant_token_usage (acc w)
  /\ NANOS * secs_charged (ledger w) <= clock w - t0
  /\ Forall (fun e => 0 <= e_tokens e <= e_own e + e_desc e /\ 0 <= e_secs e) (ledger w).
Proof.
  intros [Ht _ Hd [Hw _] _ Hl]%acc_inv_reachable. split_and!.
  - intros t turn b Et Eb. destruct (Ht t turn Et) as (_ & _ & _ & _ & b' & Eb' & Hm).
    apply meter_bound in Hm. replace b' with b in Hm by congruence. lia.
  - by apply meter_bound in Hd.
  - lia.
  - eapply Forall_impl; [exact Hl|]. intros e (? & ? & ? & ? & ?). done.
Qed.

(** C32. The persisted goal of a thread has used exactly what it had used when the
    run began and the tokens and seconds charged to it in the run, through every
    interleaving with other writers, replaced goals and failing statements.  What a
    goal had used before is not zero for a resumed thread, nor for a forked one,
    into which the goal is copied before its runtime starts; nothing is copied into
    the thread later, new goals have new identifiers, and a charge that was begun is
    finished (it is not cancelled between the database and the marking). *)
Theorem store_agrees_with_ledger t0 d ids w r :
  starts_with_goal d ids -> reachable thread t0 d ids w -> goals (db w) !! thread = Some r ->
  row_tokens_used r = tokens_before d (row_goal_id r) + goal_charged (row_goal_id r) (ledger w)
  /\ row_time_used_seconds r = seconds_before d (row_goal_id r) + goal_secs (row_goal_id r) (ledger w).
Proof. intros Hd Hreach Hr. apply (store_inv_reachable t0 d ids w Hd) in Hreach as [_ [Hinv _]]. by apply Hinv in Hr as (_ & _ & ?). Qed.

End StoreInv.

(** ** Witnesses *)

(** A run: a goal is created, a turn starts and works on it, uses tokens, time
    passes, and the progress is charged while another usage report arrives. *)
Definition sample_thread : str := lit "t".
Definition sample_turn : str := lit "turn".
#[local] Existing Instance near_epoch.

Definition sample0 : World := initial 0 (mkDb ∅ ∅ []) ∅.

Definition do_acc (op : AccOp) (w : World) : World :=
  mkWorld (run_acc (clock w) op (acc w)) (db w) (clock w) (holder w) (ledger w) (note_started op (started w)) (goal_ids w).
Definition do_store (op : StoreOp) (w : World) : World :=
  mkWorld (acc w) (run_op op (db w)) (clock w) (holder w) (ledger w) (started w) (note_goal_id op (goal_ids w)).
Definition do_clock (d : Z) (w : World) : World :=
  mkWorld (acc w) (db w) (clock w + d) (holder w) (ledger w) (started w) (goal_ids w).

Definition create_op : StoreOp := OpReplace (lit "g1") 1700000000000 sample_thread (lit "ship it") Active (Some 100).
Definition sample1 : World := do_store create_op sample0.
Definition sample2 : World := do_acc (DoStartTurn sample_turn DefaultMode (sample_usage 0 0 0)) sample1.
Definition sample3 : World := do_acc (DoMarkTurn sample_turn (lit "g1")) sample2.
Definition sample3b : World := do_acc (DoTokenUsage sample_turn (sample_usage 60 10 20)) sample3.
Definition sample4 : World := do_clock 2500000000 sample3b.

Definition sample_snap : GoalProgressSnapshot := mkSnap (sample_usage 60 10 20) 0 (lit "g1") 2 70.

Definition sample4b : World :=
  mkWorld (acc sample4) (db sample4) (clock sample4)
    (Some (mkHolder (PTurn sample_turn sample_snap) (turn_entry (acc sample4) sample_turn sample_snap) None))
    (ledger sample4) (started sample4) (goal_ids sample4).
Definition sample5 : World := do_acc (DoTokenUsage sample_turn (sample_usage 90 10 25)) sample4b.

Definition sample_charge := charge_pending sample_thread sample5 1700000005000 ActiveOnly (PTurn sample_turn sample_snap).

Definition sample6 : World :=
  mkWorld (acc sample5) sample_charge.2 (clock sample5)
    (Some (mkHolder (PTurn sample_turn sample_snap) (turn_entry (acc sample4) sample_turn sample_snap) (Some Active)))
    (turn_entry (acc sample4) sample_turn sample_snap :: ledger sample5) (started sample5) (goal_ids sample5).

Lemma sample_reports w u : acc_op_ok w (DoTokenUsage sample_turn u) ->
  step sample_thread w (do_acc (DoTokenUsage sample_turn u) w).
Proof. exact (step_acc sample_thread w (DoTokenUsage sample_turn u)). Qed.

Lemma sample4_reachable : rtc (step sample_thread) sample0 sample4.
Proof.
  apply (rtc_l _ sample0 sample1); [apply (step_store sample_thread sample0 create_op); split; [set_solver|done]|].
  apply (rtc_l _ sample1 sample2).
  { apply (step_acc sample_thread sample1 (DoStartTurn sample_turn DefaultMode (sample_usage 0 0 0))). split; [done|vm_compute; naive_solver]. }
  apply (rtc_l _ sample2 sample3); [by apply (step_acc sample_thread sample2 (DoMarkTurn sample_turn (lit "g1")))|].
  apply (rtc_l _ sample3 sample3b).
  { apply sample_reports. split; [vm_compute; naive_solver|]. intros x Hx. vm_compute in Hx. injection Hx as <-. vm_compute. naive_solver. }
  apply rtc_once. by apply (step_clock sample_thread sample3b 2500000000).
Qed.

Lemma sample5_reachable : rtc (step sample_thread) sample4 sample5.
Proof.
  apply (rtc_l _ sample4 sample4b); [apply (step_snapshot_turn sample_thread sample4 sample_turn sample_snap); vm_compute; reflexivity|].
  apply rtc_once, sample_reports. split; [vm_compute; naive_solver|].
  intros x Hx. vm_compute in Hx. injection Hx as <-. vm_compute. naive_solver.
Qed.

Lemma sample6_reachable : reachable sample_thread 0 (mkDb ∅ ∅ []) ∅ sample6.
Proof.
  apply (transitivity (R:=rtc (step sample_thread)) (y:=sample4)); [exact sample4_reachable|]. apply (transitivity (R:=rtc (step sample_thread)) (y:=sample5)); [exact sample5_reachable|].
  apply rtc_once.
  apply (step_charge sample_thread sample5 1700000005000 ActiveOnly (PTurn sample_turn sample_snap) _ sample_goal sample_charge.2);
    [reflexivity|reflexivity|vm_compute; reflexivity].
Qed.

Lemma charges_bounded_by_usage_witness : NANOS * secs_charged (ledger sample6) <= clock sample6 - 0 /\ secs_charged (ledger sample6) = 2.
Proof.
  split; [|vm_compute; reflexivity].
  exact (proj1 (proj2 (proj2 (charges_bounded_by_usage sample_thread 0 (mkDb ∅ ∅ []) ∅ sample6 sample6_reachable)))).
Defined.

Lemma store_agrees_with_ledger_witness :
  exists r, goals (db sample6) !! sample_thread = Some r /\ row_tokens_used r = 70
  /\ row_tokens_used r = tokens_before sample_thread (mkDb ∅ ∅ []) (row_goal_id r) + goal_charged (row_goal_id r) (ledger sample6).
Proof.
  destruct (goals (db sample6) !! sample_thread) as [r|] eqn:E; [|vm_compute in E; discriminate].
  exists r. split; [reflexivity|]. split; [vm_compute in E; injection E as <-; reflexivity|].
  refine (proj1 (store_agrees_with_ledger sample_thread 0 (mkDb ∅ ∅ []) ∅ sample6 r _ sample6_reachable E)).
  intros r0 Hr0. vm_compute in Hr0. discriminate Hr0.
Defined.
