(* ===== verification/Truncate.v ===== *)
(** * Truncation of tool output

    Models [codex-rs/utils/string/src/truncate.rs],
    [codex-rs/utils/output-truncation/src/lib.rs] and the budgets of
    [TruncationPolicy] in [codex-rs/protocol/src/protocol.rs].  Byte counts are
    [Z] within [usize]; a slice that is not at a character boundary is a panic
    ([None]). *)

From stdpp Require Import base list numbers option strings.
From Stdlib Require Import Lia.
From S2P Require Import Prelude RustStr RustInt Utf8Stream ByteStr.

#[local] Open Scope Z_scope.

(** ** truncate.rs *)

Definition APPROX_BYTES_PER_TOKEN : Z := 4.

Definition approx_token_count (text : str) : Z :=
  usize_saturating_add (byte_len text) (usize_saturating_sub APPROX_BYTES_PER_TOKEN 1) / APPROX_BYTES_PER_TOKEN.

Definition approx_bytes_for_tokens (tokens : Z) : Z := usize_saturating_mul tokens APPROX_BYTES_PER_TOKEN.

(** In [u64], which is as wide as [usize]. *)
Definition approx_tokens_from_byte_count (bytes : Z) : Z :=
  usize_saturating_add bytes (usize_saturating_sub APPROX_BYTES_PER_TOKEN 1) / APPROX_BYTES_PER_TOKEN.

(** The variables of the loop of [split_string]; [scan_idx] is the byte offset. *)
Record SplitScan := mkSplit {
  prefix_end : Z;
  suffix_start : Z;
  removed_chars : Z;
  suffix_started : bool;
  scan_idx : Z }.

Definition split_step (beginning_bytes tail_start_target : Z) (s : SplitScan) (ch : char) : SplitScan :=
  let idx := scan_idx s in
  let char_end := idx + len_utf8 ch in
  if char_end <=? beginning_bytes then
    mkSplit char_end (suffix_start s) (removed_chars s) (suffix_started s) char_end
  else if tail_start_target <=? idx then
    if negb (suffix_started s) then mkSplit (prefix_end s) idx (removed_chars s) true char_end
    else mkSplit (prefix_end s) (suffix_start s) (removed_chars s) true char_end
  else
    mkSplit (prefix_end s) (suffix_start s) (usize_saturating_add (removed_chars s) 1) (suffix_started s) char_end.

Definition split_string (s : str) (beginning_bytes end_bytes : Z) : option (Z * str * str) :=
  if is_nil s then Some (0, [], [])
  else
    let len := byte_len s in
    let tail_start_target := usize_saturating_sub len end_bytes in
    let r := fold_left (split_step beginning_bytes tail_start_target) s (mkSplit 0 len 0 false 0) in
    let suffix_start := if suffix_start r <? prefix_end r then prefix_end r else suffix_start r in
    match slice_to s (prefix_end r), slice_from s suffix_start with
    | Some before, Some after => Some (removed_chars r, before, after)
    | _, _ => None
    end.

Definition split_budget (budget : Z) : Z * Z := let left_part := budget / 2 in (left_part, budget - left_part).

Definition ELLIPSIS : char := 8230%N.

Definition format_truncation_marker (use_tokens : bool) (removed_count : Z) : str :=
  if use_tokens
  then [ELLIPSIS] ++ show_Z removed_count ++ lit " tokens truncated" ++ [ELLIPSIS]
  else [ELLIPSIS] ++ show_Z removed_count ++ lit " chars truncated" ++ [ELLIPSIS].

Definition removed_units (use_tokens : bool) (removed_bytes removed_chars : Z) : Z :=
  if use_tokens then approx_tokens_from_byte_count removed_bytes else removed_chars.

Definition assemble_truncated_output (prefix suffix marker : str) : str := prefix ++ marker ++ suffix.

Definition truncate_with_byte_estimate (s : str) (max_bytes : Z) (use_tokens : bool) : option str :=
  if is_nil s then Some []
  else if max_bytes =? 0 then
    let total_chars := if use_tokens then 0 else Z.of_nat (length s) in
    Some (format_truncation_marker use_tokens (removed_units use_tokens (byte_len s) total_chars))
  else if byte_len s <=? max_bytes then Some s
  else
    let total_bytes := byte_len s in
    let (left_budget, right_budget) := split_budget max_bytes in
    let parts :=
      if use_tokens then
        match slice_to s (floor_char_boundary s left_budget),
              slice_from s (ceil_char_boundary s (total_bytes - right_budget)) with
        | Some before, Some after => Some (0, before, after)
        | _, _ => None
        end
      else split_string s left_budget right_budget in
    match parts with
    | Some (removed, before, after) =>
        let marker := format_truncation_marker use_tokens
          (removed_units use_tokens (usize_saturating_sub total_bytes max_bytes) removed) in
        Some (assemble_truncated_output before after marker)
    | None => None
    end.

Definition truncate_middle_chars (s : str) (max_bytes : Z) : option str :=
  truncate_with_byte_estimate s max_bytes false.

Definition truncate_middle_with_token_budget (s : str) (max_tokens : Z) : option (str * option Z) :=
  if is_nil s then Some ([], None)
  else if (0 <? max_tokens) && (byte_len s <=? approx_bytes_for_tokens max_tokens) then Some (s, None)
  else
    match truncate_with_byte_estimate s (approx_bytes_for_tokens max_tokens) true with
    | Some truncated =>
        Some (if str_eqb truncated s then (truncated, None) else (truncated, Some (approx_token_count s)))
    | None => None
    end.

(** ** protocol.rs *)

Inductive TruncationPolicy := Bytes (bytes : Z) | Tokens (tokens : Z).

Definition token_budget (p : TruncationPolicy) : Z :=
  match p with Bytes b => approx_tokens_from_byte_count b | Tokens t => t end.

Definition byte_budget (p : TruncationPolicy) : Z :=
  match p with Bytes b => b | Tokens t => approx_bytes_for_tokens t end.

(** ** output-truncation *)

Definition truncate_text (content : str) (policy : TruncationPolicy) : option str :=
  match policy with
  | Bytes bytes => truncate_middle_chars content bytes
  | Tokens tokens => option_map fst (truncate_middle_with_token_budget content tokens)
  end.

Definition formatted_truncate_text (content : str) (policy : TruncationPolicy) : option str :=
  if byte_len content <=? byte_budget policy then Some content
  else
    match truncate_text content policy with
    | Some result =>
        Some (lit "Warning: truncated output (original token count: " ++ show_Z (approx_token_count content) ++ lit ")"
              ++ [LF] ++ lit "Total output lines: " ++ show_nat (length (lines content)) ++ [LF; LF] ++ result)
    | None => None
    end.

(** Images carry a reference and a detail level the code only copies. *)
Inductive ContentItem (Image : Type) :=
| InputText (text : str)
| InputImage (image : Image)
| InputAudio (audio_url : str)
| EncryptedContent (encrypted_content : str).
Arguments InputText {_} _.
Arguments InputImage {_} _.
Arguments InputAudio {_} _.
Arguments EncryptedContent {_} _.

Section Items.
Context {Image : Type}.
Notation Item := (ContentItem Image).

Definition item_text (i : Item) : option str := match i with InputText t => Some t | _ => None end.

(** The texts joined by line feeds, as the loop pushes them. *)
Definition combine_texts (texts : list str) : str :=
  fold_left (fun combined text => (if is_nil combined then combined else combined ++ [LF]) ++ text) texts [].

Definition formatted_truncate_text_content_items_with_policy (items : list Item) (policy : TruncationPolicy)
  : option (list Item * option Z) :=
  let texts := omap item_text items in
  if is_nil texts then Some (items, None)
  else
    let combined := combine_texts texts in
    if byte_len combined <=? byte_budget policy then Some (items, None)
    else
      match formatted_truncate_text combined policy with
      | Some text =>
          Some (InputText text :: List.filter (fun i => is_none (item_text i)) items,
                Some (approx_token_count combined))
      | None => None
      end.

(** The variables of the loop over the items; [None] once a slice panicked. *)
Record Budgeted := mkBudgeted {
  out : list Item;
  remaining_budget : Z;
  omitted_text_items : Z;
  omitted_audio_items : Z }.

Variable estimate_audio_token_count : str -> Z.

Definition text_cost (policy : TruncationPolicy) (text : str) : Z :=
  match policy with Bytes _ => byte_len text | Tokens _ => approx_token_count text end.

Definition audio_cost (policy : TruncationPolicy) (url : str) : Z :=
  match policy with
  | Bytes _ => approx_bytes_for_tokens (estimate_audio_token_count url)
  | Tokens _ => estimate_audio_token_count url
  end.

Definition with_remaining (policy : TruncationPolicy) (n : Z) : TruncationPolicy :=
  match policy with Bytes _ => Bytes n | Tokens _ => Tokens n end.

Definition push_item (b : Budgeted) (i : Item) (budget : Z) : Budgeted :=
  mkBudgeted (out b ++ [i]) budget (omitted_text_items b) (omitted_audio_items b).

Definition budget_step (policy : TruncationPolicy) (b : Budgeted) (item : Item) : option Budgeted :=
  match item with
  | InputText text =>
      if is_nil text then Some b
      else if remaining_budget b =? 0 then
        Some (mkBudgeted (out b) (remaining_budget b) (omitted_text_items b + 1) (omitted_audio_items b))
      else
        let cost := text_cost policy text in
        if cost <=? remaining_budget b then
          Some (push_item b item (usize_saturating_sub (remaining_budget b) cost))
        else
          match truncate_text text (with_remaining policy (remaining_budget b)) with
          | None => None
          | Some snippet =>
              Some (if is_nil snippet
                    then mkBudgeted (out b) 0 (omitted_text_items b + 1) (omitted_audio_items b)
                    else push_item b (InputText snippet) 0)
          end
  | InputImage _ | EncryptedContent _ => Some (push_item b item (remaining_budget b))
  | InputAudio url =>
      let cost := audio_cost policy url in
      if cost <=? remaining_budget b then
        Some (push_item b item (usize_saturating_sub (remaining_budget b) cost))
      else Some (mkBudgeted (out b) (remaining_budget b) (omitted_text_items b) (omitted_audio_items b + 1))
  end.

Fixpoint budget_loop (policy : TruncationPolicy) (items : list Item) (b : Budgeted) : option Budgeted :=
  match items with
  | [] => Some b
  | i :: rest => match budget_step policy b i with Some b' => budget_loop policy rest b' | None => None end
  end.

Definition initial_budget (policy : TruncationPolicy) : Z :=
  match policy with Bytes _ => byte_budget policy | Tokens _ => token_budget policy end.

Definition omitted_notice (n : Z) (what : str) : list Item :=
  if 0 <? n then [InputText (lit "[omitted " ++ show_Z n ++ what)] else [].

Definition truncate_function_output_items_with_policy (items : list Item) (policy : TruncationPolicy)
  : option (list Item) :=
  match budget_loop policy items (mkBudgeted [] (initial_budget policy) 0 0) with
  | Some b =>
      Some (out b ++ omitted_notice (omitted_text_items b) (lit " text items ...]")
              ++ omitted_notice (omitted_audio_items b) (lit " audio items ...]"))
  | None => None
  end.

Inductive OutputBody := BodyText (text : str) | BodyItems (items : list Item).

Definition truncate_function_output_payload (body : OutputBody) (policy : TruncationPolicy) : option OutputBody :=
  match body with
  | BodyText text => option_map BodyText (truncate_text text policy)
  | BodyItems items => option_map BodyItems (truncate_function_output_items_with_policy items policy)
  end.

End Items.

(** [i64] in, [i64] out. *)
Definition approx_tokens_from_byte_count_i64 (bytes : Z) : Z :=
  if bytes <=? 0 then 0
  else unwrap_or (i64_try_from (approx_tokens_from_byte_count (Z.min bytes usize_max))) i64_max.

(** ** utils/string/src/lib.rs *)

(** The loop of [take_bytes_at_char_boundary]: the last offset within the budget. *)
Fixpoint last_ok_boundary (s : str) (i maxb last_ok : Z) : Z :=
  match s with
  | [] => last_ok
  | ch :: r =>
      let nb := i + len_utf8 ch in
      if maxb <? nb then last_ok else last_ok_boundary r nb maxb nb
  end.

Definition take_bytes_at_char_boundary (s : str) (maxb : Z) : option str :=
  if byte_len s <=? maxb then Some s else slice_to s (last_ok_boundary s 0 maxb 0).

(** ** Lemmas *)

(** The longest prefix of [s] within [n] bytes. *)
Definition longest_prefix (s : str) (n : Z) (p r : str) : Prop :=
  s = p ++ r /\ byte_len p <= n /\ forall c r', r = c :: r' -> n < byte_len p + len_utf8 c.

(** The longest suffix of [s] within [n] bytes. *)
Definition longest_suffix (s : str) (n : Z) (r q : str) : Prop :=
  s = r ++ q /\ byte_len q <= n /\ forall r' c, r = r' ++ [c] -> n < len_utf8 c + byte_len q.

Lemma floor_char_boundary_spec s n :
  0 <= n -> exists p r, longest_prefix s n p r /\ floor_char_boundary s n = byte_len p.
Proof.
  revert n. induction s as [|c s IH]; intros n Hn; simpl.
  - exists [], []. by repeat split.
  - destruct (len_utf8 c <=? n) eqn:E.
    + destruct (IH (n - len_utf8 c)) as (p & r & (-> & Hp & Hr) & ->); [lia|].
      exists (c :: p), r. split; [|done]. split_and!; [done|simpl; lia|]. intros c' r' ->. specialize (Hr c' r' eq_refl). simpl. lia.
    + exists [], (c :: s). split; [|done]. split_and!; [done|simpl; lia|]. intros ? ? [= <- <-]. simpl. lia.
Qed.

Lemma ceil_char_boundary_spec s n :
  n <= byte_len s -> exists r q, longest_suffix s (byte_len s - n) r q /\ ceil_char_boundary s n = byte_len r.
Proof.
  revert n. induction s as [|c s IH]; intros n Hn; simpl in *.
  - exists [], []. split; [|done]. split_and!; [done|simpl; lia|]. intros [|] ? ?; done.
  - destruct (n <=? 0) eqn:E.
    + exists [], (c :: s). split; [|done]. split_and!; [done|simpl; lia|]. intros [|] ? ?; done.
    + destruct (IH (n - len_utf8 c)) as (r & q & (-> & Hq & Hr) & ->); [lia|].
      exists (c :: r), q. split; [|done]. split_and!; [done|lia|]. intros r' c' Hr'.
      destruct r' as [|x r']; simplify_eq/=; [rewrite ?byte_len_app in *; simpl in *; lia|].
      specialize (Hr r' c' eq_refl). lia.
Qed.

(** ** The scan of [split_string] *)

(** What the variables say after the characters [x]. *)
Definition scan_ok (beg target len : Z) (x : str) (r : SplitScan) : Prop :=
  exists p m q, x = p ++ m ++ q /\ scan_idx r = byte_len x
  /\ prefix_end r = byte_len p /\ byte_len p <= beg
  /\ removed_chars r = Z.of_nat (length m)
  /\ suffix_started r = negb (is_nil q) /\ suffix_start r = (if is_nil q then len else byte_len (p ++ m))
  /\ (forall c t, m ++ q = c :: t -> beg < byte_len p + len_utf8 c)
  /\ (forall t c, m = t ++ [c] -> byte_len (p ++ t) < target)
  /\ (q <> [] -> target <= byte_len (p ++ m)).

Lemma scan_ok_step beg target len x r c :
  beg < target -> byte_len x < usize_max -> scan_ok beg target len x r ->
  scan_ok beg target len (x ++ [c]) (split_step beg target r c).
Proof.
  intros Hbt Hmax (p & m & q & Hx & Hi & Hp & Hpb & Hrm & Hst & Hss & Hfirst & Hmid & Hq).
  pose proof (len_utf8_bounds c) as Hc. pose proof (byte_len_length x) as Hlx.
  unfold split_step. rewrite Hi. unfold scan_ok. simpl. rewrite byte_len_app. simpl byte_len.
  destruct (byte_len x + len_utf8 c <=? beg) eqn:E1.
  - assert (Hmq : m ++ q = []).
    { destruct (m ++ q) as [|d t] eqn:E; [done|]. specialize (Hfirst d t eq_refl). rewrite Hx, byte_len_app in E1.
      simpl in E1. pose proof (byte_len_nonneg t). lia. }
    apply app_eq_nil in Hmq as [-> ->]. exists (p ++ [c]), [], []. simpl in *. rewrite !app_nil_r in *. subst x.
    split_and!; try done; rewrite ?byte_len_app; simpl; try lia. intros [|] ? ?; done.
  - destruct (target <=? byte_len x) eqn:E2.
    + exists p, m, (q ++ [c]). rewrite !app_assoc in *. rewrite <- Hx.
      assert (Hnn : is_nil (q ++ [c]) = false) by (by destruct q).
      destruct (suffix_started r) eqn:Es; simpl; rewrite Hnn; (destruct q as [|d q]; [|]); try done; simpl in *.
      * split_and!; try done; try lia; auto. intros c0 t Hm.
        destruct (m ++ d :: q) as [|e u] eqn:Em; [by destruct m|]. simplify_eq/=. by eapply Hfirst.
      * rewrite app_nil_r in *. subst x. split_and!; try done; try lia.
        intros c0 t Hm. destruct m as [|d m]; simplify_eq/=; [rewrite app_nil_r in *; lia|]. by eapply Hfirst.
    + assert (q = []) as ->.
      { destruct q as [|d q]; [done|]. exfalso. specialize (Hq ltac:(done)). rewrite app_assoc in Hx. rewrite Hx, byte_len_app in E2.
        simpl in E2. pose proof (byte_len_nonneg q). pose proof (len_utf8_bounds d). lia. }
      exists p, (m ++ [c]), []. simpl in *. rewrite app_nil_r in *. subst x.
      split_and!; try done; try lia.
      * by rewrite app_assoc.
      * rewrite byte_len_app in *. rewrite Hrm, length_app. simpl. unfold usize_saturating_add. rewrite length_app in Hlx. lia.
      * intros c0 t Hm. destruct m as [|d m]; simplify_eq/=; [rewrite app_nil_r in *; lia|].
        by eapply Hfirst.
      * intros t c0 [-> ->]%app_inj_tail. lia.
Qed.

Lemma scan_ok_fold beg target len x :
  0 <= beg -> beg < target -> byte_len x <= usize_max ->
  scan_ok beg target len x (fold_left (split_step beg target) x (mkSplit 0 len 0 false 0)).
Proof.
  intros H0 Hbt. induction x as [|c x IH] using rev_ind; intros Hmax.
  - exists [], [], []. split_and!; try done. intros [|] ? ?; done.
  - rewrite fold_left_app. simpl. rewrite byte_len_app in Hmax. simpl in Hmax. pose proof (len_utf8_bounds c).
    apply scan_ok_step; [done|lia|]. apply IH. lia.
Qed.

Lemma split_string_spec s l r :
  s <> [] -> 0 <= l -> 0 <= r -> l + r < byte_len s <= usize_max ->
  exists p m q, s = p ++ m ++ q /\ m <> [] /\ longest_prefix s l p (m ++ q) /\ longest_suffix s r (p ++ m) q
  /\ split_string s l r = Some (Z.of_nat (length m), p, q).
Proof.
  intros Hs Hl Hr Hlen. unfold split_string. rewrite (proj2 (is_nil_false s)) by done.
  unfold usize_saturating_sub. rewrite Z.max_r by lia.
  destruct (scan_ok_fold l (byte_len s - r) (byte_len s) s) as
    (p & m & q & Hx & _ & Hp & Hpb & Hrm & _ & Hss & Hfirst & Hmid & Hq); [lia|lia|lia|].
  set (f := fold_left _ _ _) in *.
  assert (Hlen_s : byte_len s = byte_len p + byte_len m + byte_len q) by (rewrite Hx, !byte_len_app; lia).
  pose proof (byte_len_nonneg m). pose proof (byte_len_nonneg q).
  assert (Hqr : byte_len q <= r).
  { destruct q; [simpl; lia|]. specialize (Hq ltac:(done)). rewrite byte_len_app in Hq. lia. }
  assert (Hss' : suffix_start f = byte_len (p ++ m)).
  { rewrite Hss. destruct q; [|done]. simpl. rewrite Hx, app_nil_r. done. }
  exists p, m, q. split_and!; [done| | | |].
  - intros ->. simpl in *. lia.
  - split_and!; try done.
  - split_and!; [by rewrite <- app_assoc|done|]. intros t c Ht. destruct m as [|d m' _] using rev_ind.
    + rewrite app_nil_r in Ht. simpl in *. lia.
    + rewrite app_assoc in Ht. apply app_inj_tail in Ht as [<- <-]. specialize (Hmid m' d eq_refl).
      rewrite byte_len_app in *. simpl in *. lia.
  - rewrite Hss', Hp. replace (_ <? _) with false by (rewrite byte_len_app; lia).
    rewrite Hx at 1. rewrite slice_to_app. rewrite Hx at 1. rewrite app_assoc, slice_from_app. by rewrite Hrm.
Qed.

(** ** What a truncated text looks like *)

(** [o] is [s] with its middle [m] replaced by a marker for [k] units: the ends
    kept are the longest that fit their halves of the budget. *)
Definition middle_cut (s o : str) (budget : Z) (use_tokens : bool) : Prop :=
  exists p m q, s = p ++ m ++ q /\ m <> []
  /\ longest_prefix s (budget / 2) p (m ++ q)
  /\ longest_suffix s (budget - budget / 2) (p ++ m) q
  /\ o = p ++ format_truncation_marker use_tokens
               (if use_tokens then (byte_len s - budget + 3) / 4 else Z.of_nat (length m)) ++ q.

Lemma token_ends s l r :
  0 <= l -> 0 <= r -> l + r < byte_len s ->
  exists p m q, s = p ++ m ++ q /\ m <> [] /\ longest_prefix s l p (m ++ q) /\ longest_suffix s r (p ++ m) q
  /\ slice_to s (floor_char_boundary s l) = Some p
  /\ slice_from s (ceil_char_boundary s (byte_len s - r)) = Some q.
Proof.
  intros Hl Hr Hlen. destruct (floor_char_boundary_spec s l Hl) as (p & b & Hp & ->).
  destruct (ceil_char_boundary_spec s (byte_len s - r)) as (a & q & Hq & ->); [lia|].
  replace (byte_len s - (byte_len s - r)) with r in Hq by lia.
  pose proof Hp as (Ep & Hpl & _). pose proof Hq as (Eq & Hqr & _).
  assert (Hlt : byte_len p < byte_len a) by (rewrite Eq, byte_len_app in Hlen; lia).
  assert (exists m, a = p ++ m) as [m ->].
  { rewrite Ep in Eq. apply app_eq_inv in Eq as [(k & -> & ->)|(k & -> & ->)].
    - rewrite byte_len_app in Hlt. pose proof (byte_len_nonneg k). lia.
    - by exists k. }
  exists p, m, q. rewrite <- app_assoc in Eq. split_and!; [done| | |done| |].
  - intros ->. rewrite app_nil_r in Hlt. lia.
  - assert (b = m ++ q) as <-; [|done]. rewrite Ep in Eq. by apply app_inv_head in Eq.
  - rewrite Ep. apply slice_to_app.
  - rewrite Eq, app_assoc. apply slice_from_app.
Qed.

Lemma approx_tokens_exact bytes : 0 <= bytes <= i64_max -> approx_tokens_from_byte_count bytes = (bytes + 3) / 4.
Proof.
  intros Hb. unfold approx_tokens_from_byte_count, usize_saturating_add, usize_saturating_sub, APPROX_BYTES_PER_TOKEN,
    usize_max, i64_max in *. rewrite Z.min_r by lia. done.
Qed.

Lemma truncate_estimate_spec s budget use_tokens :
  0 <= budget <= usize_max -> byte_len s <= i64_max ->
  exists o, truncate_with_byte_estimate s budget use_tokens = Some o
  /\ (byte_len s <= budget /\ o = s \/ budget < byte_len s /\ middle_cut s o budget use_tokens).
Proof.
  intros Hb Hs. unfold truncate_with_byte_estimate. destruct (is_nil s) eqn:En.
  { apply is_nil_true in En as ->. exists []. split; [done|]. left. simpl. split; [lia|done]. }
  apply is_nil_false in En. pose proof (byte_len_pos s En) as Hpos.
  destruct (budget =? 0) eqn:E0.
  { assert (budget = 0) as -> by lia. eexists. split; [done|]. right. split; [lia|]. exists [], s, [].
    rewrite app_nil_r. simpl. split_and!; try done; simpl; try lia.
    - split_and!; [done|done|]. intros c r' ->. pose proof (len_utf8_bounds c). simpl. lia.
    - split_and!; [by rewrite ?app_nil_r|done|]. intros r' c ->. pose proof (len_utf8_bounds c). simpl. lia.
    - destruct use_tokens; simpl; rewrite ?app_nil_r; [|done]. rewrite approx_tokens_exact by lia.
      by rewrite Z.sub_0_r. }
  destruct (byte_len s <=? budget) eqn:E1; [exists s; split; [done|left; split; [lia|done]]|].
  assert (Hhalf : 0 <= budget / 2 <= budget) by (split; [apply Z.div_pos; lia|apply Z.div_le_upper_bound; lia]).
  simpl. destruct use_tokens.
  - destruct (token_ends s (budget / 2) (budget - budget / 2)) as (p & m & q & Es & Hm & Hp & Hq & -> & ->); [lia..|].
    eexists. split; [done|]. right. split; [lia|]. exists p, m, q. split_and!; try done. unfold assemble_truncated_output.
    simpl removed_units. unfold usize_saturating_sub. rewrite Z.max_r, approx_tokens_exact by lia. done.
  - destruct (split_string_spec s (budget / 2) (budget - budget / 2)) as (p & m & q & Es & Hm & Hp & Hq & ->);
      [done|lia|lia|unfold usize_max, i64_max in *; lia|].
    eexists. split; [done|]. right. split; [lia|]. by exists p, m, q.
Qed.

Definition uses_tokens (p : TruncationPolicy) : bool := match p with Tokens _ => true | Bytes _ => false end.
Definition limit (p : TruncationPolicy) : Z := match p with Tokens n | Bytes n => n end.

Lemma byte_budget_range p : 0 <= limit p <= usize_max -> 0 <= byte_budget p <= usize_max.
Proof. destruct p; simpl; unfold approx_bytes_for_tokens, usize_saturating_mul, APPROX_BYTES_PER_TOKEN, usize_max; lia. Qed.

Lemma truncate_text_estimate content p :
  0 <= limit p -> truncate_text content p = truncate_with_byte_estimate content (byte_budget p) (uses_tokens p).
Proof.
  intros Hl. destruct p as [b|t]; simpl; [done|]. unfold truncate_middle_with_token_budget.
  destruct (is_nil content) eqn:En; [by unfold truncate_with_byte_estimate; rewrite En|].
  destruct ((0 <? t) && (byte_len content <=? approx_bytes_for_tokens t)) eqn:E; simpl.
  - unfold truncate_with_byte_estimate. rewrite En. apply is_nil_false in En. pose proof (byte_len_pos content En).
    replace (_ =? 0) with false by lia. by replace (_ <=? _) with true by lia.
  - destruct (truncate_with_byte_estimate _ _ _) as [o|]; simpl; [|done]. by destruct (str_eqb o content).
Qed.

(** C37. Truncating a text never panics.  A text within the budget is returned as
    it is; a longer one becomes its longest beginning and its longest end that fit
    the two halves of the budget, cut between characters, around a marker that
    counts exactly the characters removed, or the tokens by which the text
    exceeded the budget. *)
Theorem truncate_text_spec content policy :
  0 <= limit policy <= usize_max -> byte_len content <= i64_max ->
  exists o, truncate_text content policy = Some o
  /\ (byte_len content <= byte_budget policy /\ o = content
      \/ byte_budget policy < byte_len content /\ middle_cut content o (byte_budget policy) (uses_tokens policy)).
Proof.
  intros Hl Hc. rewrite truncate_text_estimate by lia. apply truncate_estimate_spec; [by apply byte_budget_range|done].
Qed.

(** ** Budgeted items *)

Section ItemTheorems.
Context {Image : Type} (estimate : str -> Z).
Hypothesis estimate_nonneg : forall url, 0 <= estimate url.
Notation Item := (ContentItem Image).

Definition is_media (i : Item) : bool := match i with InputImage _ | EncryptedContent _ => true | _ => false end.
Definition item_audio (i : Item) : option str := match i with InputAudio u => Some u | _ => None end.
Definition media (l : list Item) : list Item := List.filter is_media l.
Definition audios (l : list Item) : list str := omap item_audio l.
Definition texts (l : list Item) : list str := List.filter (fun t => negb (is_nil t)) (omap item_text l).

Definition item_cost (policy : TruncationPolicy) (i : Item) : Z :=
  match i with
  | InputText t => text_cost policy t
  | InputAudio u => audio_cost estimate policy u
  | InputImage _ | EncryptedContent _ => 0
  end.
Definition total_cost (policy : TruncationPolicy) (l : list Item) : Z := foldr (fun i z => item_cost policy i + z) 0 l.

Definition item_fits (i : Item) : Prop := match i with InputText t => byte_len t <= i64_max | _ => True end.

Lemma media_app a b : media (a ++ b) = media a ++ media b.
Proof. apply List.filter_app. Qed.
Lemma audios_app a b : audios (a ++ b) = audios a ++ audios b.
Proof. apply omap_app. Qed.
Lemma texts_app a b : texts (a ++ b) = texts a ++ texts b.
Proof. unfold texts. by rewrite omap_app, List.filter_app. Qed.
Lemma total_cost_app p a b : total_cost p (a ++ b) = total_cost p a + total_cost p b.
Proof. induction a as [|i a IH]; simpl; [done|]. fold (total_cost p (a ++ b)). fold (total_cost p a). lia. Qed.

(** What holds after the items [seen]. *)
Record loop_ok (policy : TruncationPolicy) (seen : list Item) (b : Budgeted) : Prop := {
  ok_media : media (out b) = media seen;
  ok_texts : Z.of_nat (length (texts (out b))) + omitted_text_items b = Z.of_nat (length (texts seen));
  ok_audios : Z.of_nat (length (audios (out b))) + omitted_audio_items b = Z.of_nat (length (audios seen));
  ok_audio_order : audios (out b) `sublist_of` audios seen;
  ok_remaining : 0 <= remaining_budget b <= usize_max;
  ok_cost : exists a c z, out b = a ++ c ++ z
    /\ total_cost policy a + total_cost policy z + remaining_budget b <= initial_budget policy
    /\ (c = [] \/ remaining_budget b = 0 /\ exists o, c = [InputText o]) }.

(** An item kept whole and paid for. *)
Lemma loop_ok_push policy seen b i n :
  loop_ok policy seen b -> is_nil (unwrap_or (item_text i) [ELLIPSIS]) = false ->
  0 <= item_cost policy i -> n = remaining_budget b - item_cost policy i -> 0 <= n ->
  loop_ok policy (seen ++ [i]) (push_item b i n).
Proof.
  intros [Hm Ht Ha Ho Hr (a & c & z & Hout & Hcost & Hcut)] Hne Hc -> Hn.
  constructor; unfold push_item; cbn [out remaining_budget omitted_text_items omitted_audio_items]; rewrite ?media_app, ?texts_app, ?audios_app, ?length_app, ?Hm; try done.
  - lia.
  - lia.
  - by apply sublist_app.
  - lia.
  - exists a, c, (z ++ [i]). rewrite Hout, <- !app_assoc. split; [done|]. rewrite total_cost_app. simpl. split; [lia|].
    destruct Hcut as [->|[Hz ?]]; [by left|]. right. split; [lia|done].
Qed.

(** An item left out and counted. *)
Lemma loop_ok_omit policy seen b i n dt da :
  loop_ok policy seen b -> media [i] = [] -> 0 <= n <= remaining_budget b ->
  dt = Z.of_nat (length (texts [i])) -> da = Z.of_nat (length (audios [i])) ->
  loop_ok policy (seen ++ [i]) (mkBudgeted (out b) n (omitted_text_items b + dt) (omitted_audio_items b + da)).
Proof.
  intros [Hm Ht Ha Ho Hr (a & c & z & Hout & Hcost & Hcut)] Hi Hn -> ->.
  constructor; cbn [out remaining_budget omitted_text_items omitted_audio_items]; rewrite ?media_app, ?texts_app, ?audios_app, ?length_app, ?Hm, ?Hi, ?app_nil_r; try done; try lia.
  - by apply sublist_inserts_r.
  - exists a, c, z. split_and!; [done|lia|]. destruct Hcut as [->|[Hz ?]]; [by left|]. right. split; [lia|done].
Qed.

(** The text that exhausts the budget, cut. *)
Lemma loop_ok_cut policy seen b t o :
  loop_ok policy seen b -> remaining_budget b <> 0 -> is_nil t = false -> is_nil o = false ->
  loop_ok policy (seen ++ [InputText t]) (push_item b (InputText o) 0).
Proof.
  intros [Hm Ht Ha Ho Hr (a & c & z & Hout & Hcost & Hcut)] Hz Hnt Hno.
  constructor; unfold push_item; cbn [out remaining_budget omitted_text_items omitted_audio_items]; rewrite ?media_app, ?texts_app, ?audios_app, ?length_app, ?Hm; try done; try lia.
  - unfold texts at 2 4. simpl. rewrite Hnt, Hno. simpl. lia.
  - simpl. lia.
  - by apply sublist_app.
  - destruct Hcut as [->|[? _]]; [|lia]. exists (a ++ z), [InputText o], []. rewrite Hout, !app_nil_r, total_cost_app. simpl.
    split_and!; [done|lia|]. right. split; [done|by eexists].
Qed.

Lemma text_cost_nonneg policy t : 0 <= text_cost policy t.
Proof.
  pose proof (byte_len_nonneg t). destruct policy; simpl; [done|]. unfold approx_token_count, usize_saturating_add, usize_max.
  apply Z.div_pos; unfold APPROX_BYTES_PER_TOKEN, usize_saturating_sub; lia.
Qed.

Lemma audio_cost_nonneg policy u : 0 <= audio_cost estimate policy u.
Proof.
  pose proof (estimate_nonneg u). destruct policy; simpl; [|done].
  unfold approx_bytes_for_tokens, usize_saturating_mul, usize_max, APPROX_BYTES_PER_TOKEN. lia.
Qed.

Lemma budget_step_ok policy seen b i :
  loop_ok policy seen b -> item_fits i -> exists b', budget_step estimate policy b i = Some b' /\ loop_ok policy (seen ++ [i]) b'.
Proof.
  intros Hok Hfit. pose proof (ok_remaining _ _ _ Hok) as Hr. destruct i as [t|im|u|e]; simpl.
  - destruct (is_nil t) eqn:Et.
    { exists b. split; [done|]. apply is_nil_true in Et as ->.
      pose proof (loop_ok_omit policy seen b (InputText []) (remaining_budget b) 0 0 Hok eq_refl ltac:(lia) eq_refl eq_refl) as Ho.
      rewrite !Z.add_0_r in Ho. by destruct b. }
    destruct (remaining_budget b =? 0) eqn:E0.
    { eexists. split; [done|]. rewrite <- (Z.add_0_r (omitted_audio_items b)). apply loop_ok_omit; try done; [lia|].
      unfold texts. simpl. by rewrite Et. }
    pose proof (text_cost_nonneg policy t). destruct (text_cost policy t <=? remaining_budget b) eqn:Ec.
    { eexists. split; [done|]. apply loop_ok_push; simpl; try done; unfold usize_saturating_sub; lia. }
    destruct (truncate_text_spec t (with_remaining policy (remaining_budget b))) as (o & -> & Ho);
      [by destruct policy|done|]. eexists. split; [done|].
    assert (is_nil o = false) as Hno.
    { apply is_nil_false. intros ->. destruct Ho as [[_ <-]|[_ (p & m & q & _ & _ & _ & _ & E)]]; [done|].
      destruct p; simplify_eq/=. by destruct (uses_tokens _). }
    rewrite Hno. apply loop_ok_cut; try done. lia.
  - eexists. split; [done|]. apply loop_ok_push; simpl; try done; lia.
  - pose proof (audio_cost_nonneg policy u). destruct (audio_cost estimate policy u <=? remaining_budget b) eqn:Ec.
    + eexists. split; [done|]. apply loop_ok_push; simpl; try done; unfold usize_saturating_sub; lia.
    + eexists. split; [done|]. rewrite <- (Z.add_0_r (omitted_text_items b)). apply loop_ok_omit; try done. lia.
  - eexists. split; [done|]. apply loop_ok_push; simpl; try done; lia.
Qed.

Lemma budget_loop_ok policy items seen b :
  loop_ok policy seen b -> Forall item_fits items ->
  exists b', budget_loop estimate policy items b = Some b' /\ loop_ok policy (seen ++ items) b'.
Proof.
  revert seen b. induction items as [|i items IH]; intros seen b Hok Hf; simpl.
  - rewrite app_nil_r. by eexists.
  - apply Forall_cons in Hf as [Hi Hf]. destruct (budget_step_ok policy seen b i Hok Hi) as (b1 & -> & Hok1).
    destruct (IH _ _ Hok1 Hf) as (b2 & -> & Hok2). rewrite <- app_assoc in Hok2. by eexists.
Qed.

(** Truncating the items of a tool output never panics and loses nothing
    silently: images and encrypted items stay, in order; audio stays in order;
    the texts and audios left out are counted in closing notices; and apart from
    at most one cut text, what is kept costs at most the budget. *)
Theorem truncate_items_spec items policy :
  0 <= limit policy <= usize_max -> Forall item_fits items ->
  exists kept nt na,
    truncate_function_output_items_with_policy estimate items policy
      = Some (kept ++ omitted_notice nt (lit " text items ...]") ++ omitted_notice na (lit " audio items ...]"))
    /\ media kept = media items
    /\ audios kept `sublist_of` audios items
    /\ Z.of_nat (length (texts kept)) + nt = Z.of_nat (length (texts items))
    /\ Z.of_nat (length (audios kept)) + na = Z.of_nat (length (audios items))
    /\ exists a c z, kept = a ++ c ++ z /\ (length c <= 1)%nat /\ total_cost policy (a ++ z) <= limit policy.
Proof.
  intros Hl Hf. unfold truncate_function_output_items_with_policy.
  assert (Hinit : initial_budget policy = limit policy) by (by destruct policy).
  destruct (budget_loop_ok policy items [] (mkBudgeted [] (initial_budget policy) 0 0)) as (b & -> & [Hm Ht Ha Ho Hr (a & c & z & Hout & Hcost & Hcut)]).
  { constructor; simpl; try done; [lia|]. exists [], [], []. simpl. split_and!; [done|lia|by left]. }
  { done. }
  exists (out b), (omitted_text_items b), (omitted_audio_items b). split_and!; try done.
  exists a, c, z. rewrite total_cost_app. split_and!; [done| |lia]. destruct Hcut as [->|[_ (o & ->)]]; simpl; lia.
Qed.

End ItemTheorems.

(** ** Witnesses *)

Lemma truncate_text_spec_witness :
  truncate_text (lit "abcdefghij") (Bytes 4) = Some (lit "ab" ++ [ELLIPSIS] ++ lit "6 chars truncated" ++ [ELLIPSIS] ++ lit "ij")
  /\ exists o, truncate_text (lit "abcdefghij") (Bytes 4) = Some o
     /\ (byte_len (lit "abcdefghij") <= byte_budget (Bytes 4) /\ o = lit "abcdefghij"
         \/ byte_budget (Bytes 4) < byte_len (lit "abcdefghij")
            /\ middle_cut (lit "abcdefghij") o (byte_budget (Bytes 4)) (uses_tokens (Bytes 4))).
Proof.
  split; [vm_compute; reflexivity|].
  apply (truncate_text_spec (lit "abcdefghij") (Bytes 4)); vm_compute; [split|]; discriminate.
Defined.

Definition sample_items : list (ContentItem str) :=
  [InputText (lit "first"); InputImage (lit "img"); InputText (lit "a longer text"); InputAudio (lit "url"); InputText (lit "late")].

Lemma truncate_items_spec_witness :
  (exists kept nt na,
    truncate_function_output_items_with_policy (fun _ => 100) sample_items (Bytes 9)
      = Some (kept ++ omitted_notice nt (lit " text items ...]") ++ omitted_notice na (lit " audio items ...]"))
    /\ media kept = media sample_items)
  /\ option_map length (truncate_function_output_items_with_policy (fun _ => 100) sample_items (Bytes 9)) = Some 5%nat.
Proof.
  split; [|vm_compute; reflexivity].
  destruct (truncate_items_spec (fun _ => 100) (fun _ => ltac:(discriminate)) sample_items (Bytes 9)) as
    (kept & nt & na & E & Hm & _).
  - vm_compute. split; discriminate.
  - unfold sample_items. repeat constructor; vm_compute; discriminate.
  - exists kept, nt, na. split; [exact E|exact Hm].
Defined.
