(* ===== verification/ResponseItem.v ===== *)
(** * Items of a conversation ([protocol/src/models.rs], [history/src/lib.rs], [context-fragments])

    The items a conversation with a model consists of, as the history keeps them
    and the prompt sends them, with the metadata of the harness around each one, and
    the pairing of message content with its classification.  Payloads the history
    only measures or copies (JSON values, shell and search actions, attributions)
    are of one type [Json], a parameter.

    A call and its output belong together by a kind and an identifier: [call_of] and
    [output_of] say which. *)

From stdpp Require Import base list option strings.
From S2P Require Import Prelude RustStr Truncate.

(** ** Data *)

Inductive ImageReference := InlineImage (image_url : str) | FileImage (file_id : str).
Inductive ImageDetail := DetailAuto | DetailLow | DetailHigh | DetailOriginal.

#[export] Instance ImageDetail_eq_dec : EqDecision ImageDetail.
Proof. solve_decision. Defined.

Inductive MessageContent :=
| MsgInputText (text : str)
| MsgInputImage (image : ImageReference) (detail : option ImageDetail)
| MsgInputAudio (audio_url : str)
| MsgOutputText (text : str).

Inductive AgentMessageInputContent := AgentText (text : str) | AgentEncrypted (encrypted_content : str).
Inductive MessagePhase := Commentary | FinalAnswer.
Inductive ReasoningItemReasoningSummary := SummaryText (text : str).
Inductive ReasoningItemContent := ReasoningText (text : str) | PlainReasoning (text : str).

(** Content of tool outputs: the items of [Truncate], images with their detail. *)
Notation FunctionCallOutputContentItem := (ContentItem (ImageReference * option ImageDetail)).
Notation FunctionCallOutputBody := (OutputBody (Image := ImageReference * option ImageDetail)).

Record FunctionCallOutputPayload := mkPayloadOut {
  body : FunctionCallOutputBody;
  success : option bool }.

Definition from_text (content : str) : FunctionCallOutputPayload := mkPayloadOut (BodyText content) None.
Definition content_items (p : FunctionCallOutputPayload) : option (list FunctionCallOutputContentItem) :=
  match body p with BodyText _ => None | BodyItems items => Some items end.

Inductive CallKind := FunctionKind | ToolSearchKind | CustomToolKind.
#[export] Instance CallKind_eq_dec : EqDecision CallKind.
Proof. solve_decision. Defined.

Section Items.
Context {Json : Type}.

Record InternalChatMessageMetadataPassthrough := mkPassthrough {
  turn_id : option str;
  create_time : option Json;
  content_item_kinds : option (list str);
  cell_id : option str;
  executed_tool_calls : option (list Json);
  tool_calls_complete : option bool }.
Definition no_passthrough : InternalChatMessageMetadataPassthrough := mkPassthrough None None None None None None.

Notation Meta := (option InternalChatMessageMetadataPassthrough).
Notation Id := (option str).

Inductive ResponseItem :=
| AdditionalTools (id : Id) (role : str) (tools : list Json)
| Message (id : Id) (role : str) (content : list MessageContent) (phase : option MessagePhase) (meta : Meta)
| AgentMessage (id : Id) (author recipient : str) (content : list AgentMessageInputContent) (meta : Meta)
| Reasoning (id : Id) (summary : list ReasoningItemReasoningSummary) (content : option (list ReasoningItemContent))
    (encrypted_content : option str) (meta : Meta)
| LocalShellCall (id : Id) (call_id : option str) (status : Json) (action : Json) (meta : Meta)
| FunctionCall (id : Id) (name : str) (namespace : option str) (arguments : str)
    (encrypted_function_args : option (list str)) (call_id : str) (meta : Meta)
| ToolSearchCall (id : Id) (call_id : option str) (status : option str) (execution : str) (arguments : Json) (meta : Meta)
| FunctionCallOutput (id : Id) (call_id name namespace : option str) (output : FunctionCallOutputPayload) (meta : Meta)
| CustomToolCall (id : Id) (status : option str) (call_id name : str) (namespace : option str) (input : str) (meta : Meta)
| CustomToolCallOutput (id : Id) (call_id : str) (name : option str) (output : FunctionCallOutputPayload) (meta : Meta)
| ToolSearchOutput (id : Id) (call_id : option str) (status execution : str) (tools : list Json) (meta : Meta)
| WebSearchCall (id : Id) (status : option str) (action : option Json) (meta : Meta)
| ImageGenerationCall (id : Id) (status : str) (revised_prompt : option str) (result : str) (meta : Meta)
| Compaction (id : Id) (encrypted_content : str) (meta : Meta)
| ConfigurationUpdate (reasoning : Json)
| CompactionTrigger
| ContextCompaction (id : Id) (encrypted_content : option str) (meta : Meta)
| OtherItem.

(** A message of the user or the assistant that an item stands for, and whether
    the item has all of it. *)
Inductive RetainedSourceRole := SourceUser | SourceAssistant.
Record RetainedSourceId := mkSourceId { source_message_id : str; source_turn_id : str; source_role : RetainedSourceRole }.
Record RetainedSource := mkRetainedSource { source_id : RetainedSourceId; revision : str; complete : bool }.

(** What the harness keeps with an item. *)
Record CodexHarnessMetadata := mkHarness {
  guardian_sources : list RetainedSource;
  guardian_review_ids : list str;
  guardian_source_order_guidance : bool;
  guardian_retained_omissions : option Json;
  retained_source : option RetainedSource;
  client_authored : bool;
  history_truncation_token_limit : option Z;
  delivered_assistant_message : option str;
  harness_authored_configuration : bool;
  compaction_model_hash : option str;
  user_input_order : option Z;
  compaction_output : bool;
  inherited_user_message : bool;
  mcp_attribution : option Json;
  sender_user_messages : option Json }.

Definition default_harness : CodexHarnessMetadata :=
  mkHarness [] [] false None None false None None false None None false false None None.

Definition incomplete (s : RetainedSource) : RetainedSource := mkRetainedSource (source_id s) (revision s) false.

(** A shortened message no longer proves that all of it was delivered. *)
Definition mark_retained_sources_incomplete (m : CodexHarnessMetadata) : CodexHarnessMetadata :=
  mkHarness (List.map incomplete (guardian_sources m)) [] false None (option_map incomplete (retained_source m))
    (client_authored m) (history_truncation_token_limit m) (delivered_assistant_message m) (harness_authored_configuration m)
    (compaction_model_hash m) (user_input_order m) (compaction_output m) (inherited_user_message m) (mcp_attribution m)
    (sender_user_messages m).

Definition set_mcp_attribution (m : CodexHarnessMetadata) (attribution : Json) : CodexHarnessMetadata :=
  mkHarness (guardian_sources m) (guardian_review_ids m) (guardian_source_order_guidance m) (guardian_retained_omissions m)
    (retained_source m) (client_authored m) (history_truncation_token_limit m) (delivered_assistant_message m)
    (harness_authored_configuration m) (compaction_model_hash m) (user_input_order m) (compaction_output m)
    (inherited_user_message m) (Some attribution) (sender_user_messages m).

Definition set_compaction_model_hash (m : CodexHarnessMetadata) (hash : option str) : CodexHarnessMetadata :=
  mkHarness (guardian_sources m) (guardian_review_ids m) (guardian_source_order_guidance m) (guardian_retained_omissions m)
    (retained_source m) (client_authored m) (history_truncation_token_limit m) (delivered_assistant_message m)
    (harness_authored_configuration m) hash (user_input_order m) (compaction_output m)
    (inherited_user_message m) (mcp_attribution m) (sender_user_messages m).

Record ResponseItemEnvelope := mkEnvelope {
  item : ResponseItem;
  metadata : option CodexHarnessMetadata }.
Definition new_envelope (i : ResponseItem) : ResponseItemEnvelope := mkEnvelope i None.
Definition set_item (e : ResponseItemEnvelope) (i : ResponseItem) : ResponseItemEnvelope := mkEnvelope i (metadata e).

Definition item_metadata (i : ResponseItem) : Meta :=
  match i with
  | Message _ _ _ _ meta | AgentMessage _ _ _ _ meta | Reasoning _ _ _ _ meta | LocalShellCall _ _ _ _ meta
  | FunctionCall _ _ _ _ _ _ meta | ToolSearchCall _ _ _ _ _ meta | FunctionCallOutput _ _ _ _ _ meta
  | CustomToolCall _ _ _ _ _ _ meta | CustomToolCallOutput _ _ _ _ meta | ToolSearchOutput _ _ _ _ _ meta
  | WebSearchCall _ _ _ meta | ImageGenerationCall _ _ _ _ meta | Compaction _ _ meta | ContextCompaction _ _ meta => meta
  | AdditionalTools _ _ _ | ConfigurationUpdate _ | CompactionTrigger | OtherItem => None
  end.

(** The turn an item is stamped with, unless empty. *)
Definition item_turn_id (i : ResponseItem) : option str :=
  match item_metadata i with
  | Some m => match turn_id m with Some t => if is_nil t then None else Some t | None => None end
  | None => None
  end.

Definition set_metadata (i : ResponseItem) (meta : Meta) : ResponseItem :=
  match i with
  | Message id role content phase _ => Message id role content phase meta
  | AgentMessage id author recipient content _ => AgentMessage id author recipient content meta
  | Reasoning id summary content encrypted _ => Reasoning id summary content encrypted meta
  | LocalShellCall id call_id status action _ => LocalShellCall id call_id status action meta
  | FunctionCall id name namespace arguments encrypted call_id _ => FunctionCall id name namespace arguments encrypted call_id meta
  | ToolSearchCall id call_id status execution arguments _ => ToolSearchCall id call_id status execution arguments meta
  | FunctionCallOutput id call_id name namespace output _ => FunctionCallOutput id call_id name namespace output meta
  | CustomToolCall id status call_id name namespace input _ => CustomToolCall id status call_id name namespace input meta
  | CustomToolCallOutput id call_id name output _ => CustomToolCallOutput id call_id name output meta
  | ToolSearchOutput id call_id status execution tools _ => ToolSearchOutput id call_id status execution tools meta
  | WebSearchCall id status action _ => WebSearchCall id status action meta
  | ImageGenerationCall id status revised_prompt result _ => ImageGenerationCall id status revised_prompt result meta
  | Compaction id encrypted _ => Compaction id encrypted meta
  | ContextCompaction id encrypted _ => ContextCompaction id encrypted meta
  | AdditionalTools _ _ _ | ConfigurationUpdate _ | CompactionTrigger | OtherItem => i
  end.

(** Stamps the item unless it has a turn already. *)
Definition set_turn_id_if_missing (i : ResponseItem) (turn : str) : ResponseItem :=
  if is_nil turn || is_some (item_turn_id i) then i
  else
    let m := unwrap_or (item_metadata i) no_passthrough in
    set_metadata i (Some (mkPassthrough (Some turn) (create_time m) (content_item_kinds m) (cell_id m) (executed_tool_calls m)
      (tool_calls_complete m))).

Definition item_id (i : ResponseItem) : Id :=
  match i with
  | AdditionalTools id _ _ | Message id _ _ _ _ | AgentMessage id _ _ _ _ | Reasoning id _ _ _ _ | LocalShellCall id _ _ _ _
  | FunctionCall id _ _ _ _ _ _ | ToolSearchCall id _ _ _ _ _ | FunctionCallOutput id _ _ _ _ _ | CustomToolCall id _ _ _ _ _ _
  | CustomToolCallOutput id _ _ _ _ | ToolSearchOutput id _ _ _ _ _ | WebSearchCall id _ _ _ | ImageGenerationCall id _ _ _ _
  | Compaction id _ _ | ContextCompaction id _ _ => id
  | ConfigurationUpdate _ | CompactionTrigger | OtherItem => None
  end.

Definition set_id (i : ResponseItem) (id : Id) : ResponseItem :=
  match i with
  | AdditionalTools _ role tools => AdditionalTools id role tools
  | Message _ role content phase meta => Message id role content phase meta
  | AgentMessage _ author recipient content meta => AgentMessage id author recipient content meta
  | Reasoning _ summary content encrypted meta => Reasoning id summary content encrypted meta
  | LocalShellCall _ call_id status action meta => LocalShellCall id call_id status action meta
  | FunctionCall _ name namespace arguments encrypted call_id meta => FunctionCall id name namespace arguments encrypted call_id meta
  | ToolSearchCall _ call_id status execution arguments meta => ToolSearchCall id call_id status execution arguments meta
  | FunctionCallOutput _ call_id name namespace output meta => FunctionCallOutput id call_id name namespace output meta
  | CustomToolCall _ status call_id name namespace input meta => CustomToolCall id status call_id name namespace input meta
  | CustomToolCallOutput _ call_id name output meta => CustomToolCallOutput id call_id name output meta
  | ToolSearchOutput _ call_id status execution tools meta => ToolSearchOutput id call_id status execution tools meta
  | WebSearchCall _ status action meta => WebSearchCall id status action meta
  | ImageGenerationCall _ status revised_prompt result meta => ImageGenerationCall id status revised_prompt result meta
  | Compaction _ encrypted meta => Compaction id encrypted meta
  | ContextCompaction _ encrypted meta => ContextCompaction id encrypted meta
  | ConfigurationUpdate _ | CompactionTrigger | OtherItem => i
  end.

Definition id_prefix (i : ResponseItem) : option str :=
  match i with
  | AdditionalTools _ _ _ => Some (lit "at")
  | Message _ _ _ _ _ => Some (lit "msg")
  | AgentMessage _ _ _ _ _ => Some (lit "amsg")
  | Reasoning _ _ _ _ _ => Some (lit "rs")
  | LocalShellCall _ _ _ _ _ => Some (lit "lsh")
  | FunctionCall _ _ _ _ _ _ _ => Some (lit "fc")
  | ToolSearchCall _ _ _ _ _ _ => Some (lit "tsc")
  | FunctionCallOutput _ _ _ _ _ _ => Some (lit "fco")
  | CustomToolCall _ _ _ _ _ _ _ => Some (lit "ctc")
  | CustomToolCallOutput _ _ _ _ _ => Some (lit "ctco")
  | ToolSearchOutput _ _ _ _ _ _ => Some (lit "tso")
  | WebSearchCall _ _ _ _ => Some (lit "ws")
  | ImageGenerationCall _ _ _ _ _ => Some (lit "ig")
  | Compaction _ _ _ | ContextCompaction _ _ _ => Some (lit "cmp")
  | ConfigurationUpdate _ | CompactionTrigger | OtherItem => None
  end.

(** When the user's input was accepted; copied instructions of a parent have no
    place in this thread's order. *)
Inductive RetainedInputSource := Local (order : option Z) | Inherited.
Definition retained_input_source (m : option CodexHarnessMetadata) : RetainedInputSource :=
  if is_some_and m inherited_user_message then Inherited
  else Local (match m with Some m => user_input_order m | None => None end).
Definition acceptance_order (s : RetainedInputSource) : option Z :=
  match s with Local order => order | Inherited => None end.

(** ** Calls and outputs *)

Definition call_of (i : ResponseItem) : option (CallKind * str) :=
  match i with
  | FunctionCall _ _ _ _ _ call_id _ | LocalShellCall _ (Some call_id) _ _ _ => Some (FunctionKind, call_id)
  | ToolSearchCall _ (Some call_id) _ _ _ _ => Some (ToolSearchKind, call_id)
  | CustomToolCall _ _ call_id _ _ _ _ => Some (CustomToolKind, call_id)
  | _ => None
  end.

Definition output_of (i : ResponseItem) : option (CallKind * str) :=
  match i with
  | FunctionCallOutput _ (Some call_id) _ _ _ _ => Some (FunctionKind, call_id)
  | ToolSearchOutput _ (Some call_id) _ _ _ _ => Some (ToolSearchKind, call_id)
  | CustomToolCallOutput _ call_id _ _ _ => Some (CustomToolKind, call_id)
  | _ => None
  end.

(** Searches the server ran have no call of the client. *)
Definition server_search (i : ResponseItem) : bool :=
  match i with ToolSearchOutput _ _ _ execution _ _ => str_eqb execution (lit "server") | _ => false end.

(** ** Annotated content ([context-fragments/src/annotated_content.rs]) *)

Record AnnotatedContent := mkAnnotated { ann_content : MessageContent; ann_kind : str }.

(** Content zipped with the kinds, as many as there are, then ["unknown"]. *)
Fixpoint annotate (content : list MessageContent) (kinds : list str) : list AnnotatedContent :=
  match content, kinds with
  | [], _ => []
  | c :: content, [] => mkAnnotated c (lit "unknown") :: annotate content []
  | c :: content, k :: kinds => mkAnnotated c k :: annotate content kinds
  end.

Definition to_annotated_content (i : ResponseItem) : option (list AnnotatedContent) :=
  match i with
  | Message _ _ content _ meta =>
      Some (annotate content (unwrap_or (match meta with Some m => content_item_kinds m | None => None end) []))
  | _ => None
  end.

Definition set_kinds (m : InternalChatMessageMetadataPassthrough) (kinds : list str) : InternalChatMessageMetadataPassthrough :=
  mkPassthrough (turn_id m) (create_time m) (Some kinds) (cell_id m) (executed_tool_calls m) (tool_calls_complete m).

Definition set_annotated_content (i : ResponseItem) (annotated : list AnnotatedContent) : ResponseItem :=
  match i with
  | Message id role _ phase meta =>
      Message id role (List.map ann_content annotated) phase (Some (set_kinds (unwrap_or meta no_passthrough) (List.map ann_kind annotated)))
  | _ => i
  end.

Lemma annotate_fixed annotated : annotate (List.map ann_content annotated) (List.map ann_kind annotated) = annotated.
Proof. induction annotated as [|[c k] l IH]; simpl; [done|]. by rewrite IH. Qed.

Lemma annotate_content content kinds : List.map ann_content (annotate content kinds) = content.
Proof. revert kinds. induction content as [|c l IH]; intros [|k ks]; simpl; [done..| |]; by rewrite IH. Qed.

(** Content that was annotated once reads back as it was set. *)
Lemma annotated_round_trip i annotated :
  is_some (to_annotated_content i) = true -> to_annotated_content (set_annotated_content i annotated) = Some annotated.
Proof. destruct i; simpl; try done. intros _. by rewrite annotate_fixed. Qed.
End Items.

Arguments ResponseItem : clear implicits.
Arguments ResponseItemEnvelope : clear implicits.
Arguments CodexHarnessMetadata : clear implicits.
Arguments InternalChatMessageMetadataPassthrough : clear implicits.
