(* ===== verification/Normalize.v ===== *)
(** * Keeping calls and outputs together ([core/src/context_manager/normalize.rs])

    Before a history is sent to the model, every call gets an output and every
    output must have its call; images and audio the model cannot read are replaced.
    When the oldest item is dropped, its counterpart goes with it.

    [debug] says whether debug assertions are on: then what the code reports as an
    error panics, which is [None]; otherwise it is only logged.

    The theorems: normalization is total without debug assertions, and gives the
    history with an output right after each call that had none, without orphan
    outputs, without unsupported media; it is idempotent; dropping the oldest item
    keeps calls and outputs paired as long as identifiers are not reused. *)

From stdpp Require Import base list numbers option strings gmap sets.
From Stdlib Require Import Lia.
From S2P Require Import Prelude RustStr Truncate ResponseItem.

(** The version-5 UUID of a name in the fixed namespace, printed. *)
Class Uuids := { uuid_v5 : str -> str }.

Inductive InputModality := TextModality | ImageModality | AudioModality.
#[export] Instance InputModality_eq_dec : EqDecision InputModality.
Proof. solve_decision. Defined.

Section Normalize.
Context {Json : Type} `{Uuids}.
Notation ResponseItem := (ResponseItem Json).
Notation Envelope := (ResponseItemEnvelope Json).

(** ** Missing outputs *)

Record IdSets := mkIds {
  function_ids : gset str;
  tool_search_ids : gset str;
  custom_tool_ids : gset str }.
Definition no_ids : IdSets := mkIds ∅ ∅ ∅.

Definition add_output_id (ids : IdSets) (e : Envelope) : IdSets :=
  match item e with
  | FunctionCallOutput _ (Some call_id) _ _ _ _ => mkIds ({[call_id]} ∪ function_ids ids) (tool_search_ids ids) (custom_tool_ids ids)
  | ToolSearchOutput _ (Some call_id) _ _ _ _ => mkIds (function_ids ids) ({[call_id]} ∪ tool_search_ids ids) (custom_tool_ids ids)
  | CustomToolCallOutput _ call_id _ _ _ => mkIds (function_ids ids) (tool_search_ids ids) ({[call_id]} ∪ custom_tool_ids ids)
  | _ => ids
  end.
Definition output_ids (items : list Envelope) : IdSets := fold_left add_output_id items no_ids.

Definition synthetic_output_id (prefix : str) (item_id : option str) : option str :=
  match item_id with
  | Some source_id =>
      if is_nil source_id then None
      else Some (prefix ++ lit "_" ++ uuid_v5 (prefix ++ lit ":" ++ source_id))
  | None => None
  end.

Definition aborted_function_output (id : option str) (call_id : str) : Envelope :=
  new_envelope (FunctionCallOutput (synthetic_output_id (lit "fco") id) (Some call_id) None None (from_text (lit "aborted")) None).

(** The output to insert after a call, and whether its absence is an error. *)
Definition missing_output (ids : IdSets) (e : Envelope) : option (bool * Envelope) :=
  match item e with
  | FunctionCall id _ _ _ _ call_id _ =>
      if bool_decide (call_id ∈ function_ids ids) then None else Some (false, aborted_function_output id call_id)
  | ToolSearchCall id (Some call_id) _ _ _ _ =>
      if bool_decide (call_id ∈ tool_search_ids ids) then None
      else Some (false, new_envelope (ToolSearchOutput (synthetic_output_id (lit "tso") id) (Some call_id)
                                        (lit "completed") (lit "client") [] None))
  | CustomToolCall id _ call_id _ _ _ _ =>
      if bool_decide (call_id ∈ custom_tool_ids ids) then None
      else Some (true, new_envelope (CustomToolCallOutput (synthetic_output_id (lit "ctco") id) call_id None
                                       (from_text (lit "aborted")) None))
  | LocalShellCall id (Some call_id) _ _ _ =>
      if bool_decide (call_id ∈ function_ids ids) then None else Some (true, aborted_function_output id call_id)
  | _ => None
  end.

(** [Vec::insert] and [error_or_panic]. *)
Definition vec_insert {A} (i : nat) (x : A) (l : list A) : option (list A) :=
  if Nat.leb i (length l) then Some (take i l ++ x :: drop i l) else None.

Variable debug : bool.

Fixpoint missing_outputs (ids : IdSets) (idx : nat) (items : list Envelope) : option (list (nat * Envelope)) :=
  match items with
  | [] => Some []
  | e :: rest =>
      match missing_output ids e with
      | None => missing_outputs ids (S idx) rest
      | Some (error, output) =>
          if debug && error then None else option_map (cons (idx, output)) (missing_outputs ids (S idx) rest)
      end
  end.

Fixpoint insert_outputs (missing : list (nat * Envelope)) (items : list Envelope) : option (list Envelope) :=
  match missing with
  | [] => Some items
  | (idx, output) :: rest =>
      match vec_insert (idx + 1) output items with
      | Some items => insert_outputs rest items
      | None => None
      end
  end.

Definition ensure_call_outputs_present (items : list Envelope) : option (list Envelope) :=
  match missing_outputs (output_ids items) 0 items with
  | Some missing => insert_outputs (rev missing) items
  | None => None
  end.

(** ** Orphan outputs *)

Definition add_call_id (ids : IdSets) (e : Envelope) : IdSets :=
  match item e with
  | FunctionCall _ _ _ _ _ call_id _ | LocalShellCall _ (Some call_id) _ _ _ =>
      mkIds ({[call_id]} ∪ function_ids ids) (tool_search_ids ids) (custom_tool_ids ids)
  | ToolSearchCall _ (Some call_id) _ _ _ _ => mkIds (function_ids ids) ({[call_id]} ∪ tool_search_ids ids) (custom_tool_ids ids)
  | CustomToolCall _ _ call_id _ _ _ _ => mkIds (function_ids ids) (tool_search_ids ids) ({[call_id]} ∪ custom_tool_ids ids)
  | _ => ids
  end.
Definition call_ids (items : list Envelope) : IdSets := fold_left add_call_id items no_ids.

Definition is_orphan (ids : IdSets) (e : Envelope) : bool :=
  match item e with
  | FunctionCallOutput _ (Some call_id) _ _ _ _ => negb (bool_decide (call_id ∈ function_ids ids))
  | CustomToolCallOutput _ call_id _ _ _ => negb (bool_decide (call_id ∈ custom_tool_ids ids))
  | ToolSearchOutput _ (Some call_id) _ execution _ _ =>
      negb (str_eqb execution (lit "server")) && negb (bool_decide (call_id ∈ tool_search_ids ids))
  | _ => false
  end.

Fixpoint orphan_positions (ids : IdSets) (position : nat) (items : list Envelope) : option (list nat) :=
  match items with
  | [] => Some []
  | e :: rest =>
      if is_orphan ids e then
        if debug then None else option_map (cons position) (orphan_positions ids (S position) rest)
      else orphan_positions ids (S position) rest
  end.

(** [retain] with the iterator over the positions it skips. *)
Fixpoint retain_others (orphans : list nat) (position : nat) (items : list Envelope) : list Envelope :=
  match items with
  | [] => []
  | e :: rest =>
      match orphans with
      | o :: others =>
          if Nat.eqb o position then retain_others others (S position) rest
          else e :: retain_others orphans (S position) rest
      | [] => e :: retain_others [] (S position) rest
      end
  end.

Definition remove_orphan_outputs (items : list Envelope) : option (list Envelope) :=
  match orphan_positions (call_ids items) 0 items with
  | Some orphans => Some (if is_nil orphans then items else retain_others orphans 0 items)
  | None => None
  end.

(** ** Media *)

Definition unsupported_image : str := lit "image content omitted because you do not support image input".
Definition unsupported_audio : str := lit "audio content omitted because you do not support audio input".

Definition map_output (f : FunctionCallOutputContentItem -> FunctionCallOutputContentItem) (p : FunctionCallOutputPayload)
    : FunctionCallOutputPayload :=
  match body p with
  | BodyText _ => p
  | BodyItems items => mkPayloadOut (BodyItems (List.map f items)) (success p)
  end.

Definition strip_content_image (a : AnnotatedContent) : AnnotatedContent :=
  match ann_content a with
  | MsgInputImage _ _ => mkAnnotated (MsgInputText unsupported_image) (lit "images.unsupported")
  | _ => a
  end.
Definition strip_output_image (i : FunctionCallOutputContentItem) : FunctionCallOutputContentItem :=
  match i with InputImage _ => InputText unsupported_image | _ => i end.

Definition strip_images (e : Envelope) : Envelope :=
  match item e with
  | Message _ _ _ _ _ =>
      match to_annotated_content (item e) with
      | Some content => set_item e (set_annotated_content (item e) (List.map strip_content_image content))
      | None => e
      end
  | FunctionCallOutput id call_id name namespace output meta =>
      set_item e (FunctionCallOutput id call_id name namespace (map_output strip_output_image output) meta)
  | CustomToolCallOutput id call_id name output meta =>
      set_item e (CustomToolCallOutput id call_id name (map_output strip_output_image output) meta)
  | ImageGenerationCall id status revised_prompt _ meta => set_item e (ImageGenerationCall id status revised_prompt [] meta)
  | _ => e
  end.

Definition strip_images_when_unsupported (modalities : list InputModality) (items : list Envelope) : list Envelope :=
  if bool_decide (ImageModality ∈ modalities) then items else List.map strip_images items.

Definition strip_content_audio (a : AnnotatedContent) : AnnotatedContent :=
  match ann_content a with
  | MsgInputAudio _ => mkAnnotated (MsgInputText unsupported_audio) (lit "audio.unsupported")
  | _ => a
  end.
Definition strip_output_audio (i : FunctionCallOutputContentItem) : FunctionCallOutputContentItem :=
  match i with InputAudio _ => InputText unsupported_audio | _ => i end.

Definition strip_audio (e : Envelope) : Envelope :=
  match item e with
  | Message _ _ _ _ _ =>
      match to_annotated_content (item e) with
      | Some content => set_item e (set_annotated_content (item e) (List.map strip_content_audio content))
      | None => e
      end
  | FunctionCallOutput id call_id name namespace output meta =>
      set_item e (FunctionCallOutput id call_id name namespace (map_output strip_output_audio output) meta)
  | CustomToolCallOutput id call_id name output meta =>
      set_item e (CustomToolCallOutput id call_id name (map_output strip_output_audio output) meta)
  | _ => e
  end.

Definition strip_audio_when_unsupported (modalities : list InputModality) (items : list Envelope) : list Envelope :=
  if bool_decide (AudioModality ∈ modalities) then items else List.map strip_audio items.

(** [ContextManager::normalize_history]. *)
Definition normalize_history (modalities : list InputModality) (items : list Envelope) : option (list Envelope) :=
  match ensure_call_outputs_present items with
  | None => None
  | Some items =>
      match remove_orphan_outputs items with
      | None => None
      | Some items => Some (strip_audio_when_unsupported modalities (strip_images_when_unsupported modalities items))
      end
  end.
End Normalize.

(** ** Dropping an item with its counterpart *)

Section Corresponding.
Context {Json : Type}.
Notation ResponseItem := (ResponseItem Json).
Notation Envelope := (ResponseItemEnvelope Json).

(** [position] and [remove]: the first match, if any. *)
Fixpoint remove_first_matching (p : ResponseItem -> bool) (items : list Envelope) : list Envelope :=
  match items with
  | [] => []
  | e :: rest => if p (item e) then rest else e :: remove_first_matching p rest
  end.

Definition is_function_output (call_id : str) (i : ResponseItem) : bool :=
  match i with FunctionCallOutput _ (Some existing) _ _ _ _ => str_eqb existing call_id | _ => false end.
Definition is_function_call (call_id : str) (i : ResponseItem) : bool :=
  match i with FunctionCall _ _ _ _ _ existing _ => str_eqb existing call_id | _ => false end.
Definition is_local_shell_call (call_id : str) (i : ResponseItem) : bool :=
  match i with LocalShellCall _ (Some existing) _ _ _ => str_eqb existing call_id | _ => false end.
Definition is_tool_search_output (call_id : str) (i : ResponseItem) : bool :=
  match i with ToolSearchOutput _ (Some existing) _ _ _ _ => str_eqb existing call_id | _ => false end.
Definition is_tool_search_call (call_id : str) (i : ResponseItem) : bool :=
  match i with ToolSearchCall _ (Some existing) _ _ _ _ => str_eqb existing call_id | _ => false end.
Definition is_custom_tool_output (call_id : str) (i : ResponseItem) : bool :=
  match i with CustomToolCallOutput _ existing _ _ _ => str_eqb existing call_id | _ => false end.
Definition is_custom_tool_call (call_id : str) (i : ResponseItem) : bool :=
  match i with CustomToolCall _ _ existing _ _ _ _ => str_eqb existing call_id | _ => false end.

Definition remove_corresponding_for (items : list Envelope) (i : ResponseItem) : list Envelope :=
  match i with
  | FunctionCall _ _ _ _ _ call_id _ => remove_first_matching (is_function_output call_id) items
  | FunctionCallOutput _ (Some call_id) _ _ _ _ =>
      if existsb (fun e => is_function_call call_id (item e)) items
      then remove_first_matching (is_function_call call_id) items
      else remove_first_matching (is_local_shell_call call_id) items
  | ToolSearchCall _ (Some call_id) _ _ _ _ => remove_first_matching (is_tool_search_output call_id) items
  | ToolSearchOutput _ (Some call_id) _ _ _ _ => remove_first_matching (is_tool_search_call call_id) items
  | CustomToolCall _ _ call_id _ _ _ _ => remove_first_matching (is_custom_tool_output call_id) items
  | CustomToolCallOutput _ call_id _ _ _ => remove_first_matching (is_custom_tool_call call_id) items
  | LocalShellCall _ (Some call_id) _ _ _ => remove_first_matching (is_function_output call_id) items
  | _ => items
  end.

(** The items part of [ContextManager::remove_first_item]. *)
Definition remove_first_item (items : list Envelope) : list Envelope :=
  match items with
  | [] => []
  | removed :: rest => remove_corresponding_for rest (item removed)
  end.
End Corresponding.

(** ** What each pass computes *)

Section Passes.
Context {Json : Type} `{Uuids}.
Notation ResponseItem := (ResponseItem Json).
Notation Envelope := (ResponseItemEnvelope Json).
Implicit Types (e : Envelope) (items : list Envelope) (ids : IdSets) (k : CallKind) (id : str).

Definition kind_ids (ids : IdSets) (k : CallKind) : gset str :=
  match k with FunctionKind => function_ids ids | ToolSearchKind => tool_search_ids ids | CustomToolKind => custom_tool_ids ids end.

Lemma collect_ids (add : IdSets -> Envelope -> IdSets) (f : ResponseItem -> option (CallKind * str)) :
  (forall ids e k id, id ∈ kind_ids (add ids e) k <-> id ∈ kind_ids ids k \/ f (item e) = Some (k, id)) ->
  forall items k id, id ∈ kind_ids (fold_left add items no_ids) k <-> exists e, e ∈ items /\ f (item e) = Some (k, id).
Proof.
  intros Hadd items k id.
  enough (forall ids, id ∈ kind_ids (fold_left add items ids) k <-> id ∈ kind_ids ids k \/ exists e, e ∈ items /\ f (item e) = Some (k, id)) as Hf.
  { rewrite Hf. destruct k; simpl; set_solver. }
  induction items as [|e items IH]; intros ids; simpl; [set_solver|]. rewrite IH, Hadd. set_solver.
Qed.

Lemma output_ids_spec items k id :
  id ∈ kind_ids (output_ids items) k <-> exists e, e ∈ items /\ output_of (item e) = Some (k, id).
Proof.
  apply collect_ids. intros ids e k' id'. unfold add_output_id, output_of.
  destruct (item e); simpl; repeat case_match; destruct k'; simpl; set_solver.
Qed.

Lemma call_ids_spec items k id :
  id ∈ kind_ids (call_ids items) k <-> exists e, e ∈ items /\ call_of (item e) = Some (k, id).
Proof.
  apply collect_ids. intros ids e k' id'. unfold add_call_id, call_of.
  destruct (item e); simpl; repeat case_match; destruct k'; simpl; set_solver.
Qed.

(** A made-up output answers its call and is nothing else. *)
Definition answers (o : Envelope) (k : CallKind) (id : str) : Prop :=
  output_of (item o) = Some (k, id) /\ call_of (item o) = None /\ server_search (item o) = false.

Lemma missing_output_spec ids e :
  match missing_output ids e with
  | None => forall k id, call_of (item e) = Some (k, id) -> id ∈ kind_ids ids k
  | Some (_, o) => exists k id, call_of (item e) = Some (k, id) /\ id ∉ kind_ids ids k /\ answers o k id
  end.
Proof.
  unfold missing_output, answers. destruct (item e); simpl; try done; repeat case_match; simplify_eq/=;
    repeat case_bool_decide; simplify_eq/=; try done; try naive_solver;
    (eexists _, _; split_and!; [reflexivity|done|done..]).
Qed.

(** The history with the missing outputs in place. *)
Definition with_outputs (ids : IdSets) (items : list Envelope) : list Envelope :=
  flat_map (fun e => e :: match missing_output ids e with Some (_, o) => [o] | None => [] end) items.

Definition reported_missing (ids : IdSets) (e : Envelope) : bool :=
  match missing_output ids e with Some (error, _) => error | None => false end.

Lemma missing_outputs_total debug ids idx items :
  is_some (missing_outputs debug ids idx items) = negb (debug && existsb (reported_missing ids) items).
Proof.
  revert idx. induction items as [|e items IH]; intros idx; simpl; [by rewrite andb_false_r|]. unfold reported_missing at 1.
  destruct (missing_output ids e) as [[error o]|]; [|apply IH].
  specialize (IH (S idx)). destruct debug, error; simpl in *; try done; by destruct (missing_outputs _ _ _ _).
Qed.

Lemma insert_outputs_app ms ms' items :
  insert_outputs (ms ++ ms') items
  = match insert_outputs ms items with Some items => insert_outputs ms' items | None => None end.
Proof.
  revert items. induction ms as [|[idx o] ms IH]; intros items; simpl; [done|].
  destruct (vec_insert _ _ _); [apply IH|done].
Qed.

Lemma vec_insert_after {A} (pre : list A) (x o : A) (rest : list A) :
  vec_insert (length pre + 1) o (pre ++ x :: rest) = Some (pre ++ x :: o :: rest).
Proof.
  unfold vec_insert. rewrite length_app. simpl. destruct (Nat.leb_spec (length pre + 1) (length pre + S (length rest))); [|lia].
  replace (pre ++ x :: rest) with ((pre ++ [x]) ++ rest) by (by rewrite <- app_assoc).
  rewrite take_app_length', drop_app_length' by (rewrite length_app; simpl; lia). by rewrite <- app_assoc.
Qed.

Lemma insert_outputs_spec debug ids items pre ms :
  missing_outputs debug ids (length pre) items = Some ms ->
  insert_outputs (rev ms) (pre ++ items) = Some (pre ++ with_outputs ids items).
Proof.
  revert pre ms. induction items as [|e items IH]; intros pre ms; simpl; [by intros [= <-]|].
  assert (S (length pre) = length (pre ++ [e])) as Hlen by (rewrite length_app; simpl; lia). rewrite Hlen.
  specialize (IH (pre ++ [e])). rewrite <- !app_assoc in IH. simpl in IH.
  destruct (missing_output ids e) as [[error o]|]; [|intros Hms; by rewrite (IH _ Hms)].
  destruct (debug && error); [done|]. destruct (missing_outputs _ _ _ _) as [ms'|]; [|done]. intros [= <-]. simpl.
  rewrite insert_outputs_app, (IH ms' eq_refl). simpl. by rewrite vec_insert_after.
Qed.

Lemma ensure_call_outputs_present_spec debug items :
  ensure_call_outputs_present debug items
  = if debug && existsb (reported_missing (output_ids items)) items then None else Some (with_outputs (output_ids items) items).
Proof.
  unfold ensure_call_outputs_present. pose proof (missing_outputs_total debug (output_ids items) 0 items) as Ht.
  destruct (missing_outputs _ _ _ _) as [ms|] eqn:E.
  - destruct (debug && _); [done|]. exact (insert_outputs_spec debug _ items [] ms E).
  - by destruct (debug && _).
Qed.

Lemma orphan_positions_spec debug ids pos items :
  if debug && existsb (is_orphan ids) items then orphan_positions debug ids pos items = None
  else exists os, orphan_positions debug ids pos items = Some os /\ Forall (fun o => pos <= o) os
         /\ retain_others os pos items = List.filter (fun e => negb (is_orphan ids e)) items.
Proof.
  revert pos. induction items as [|e items IH]; intros pos; simpl.
  { rewrite andb_false_r. by exists []. }
  specialize (IH (S pos)). destruct (is_orphan ids e); simpl.
  - destruct debug; simpl in *; [done|]. destruct IH as (os & -> & Hos & Hr). exists (pos :: os). split_and!; [done| |].
    + constructor; [lia|]. eapply Forall_impl; [exact Hos|]. simpl. lia.
    + by rewrite Nat.eqb_refl.
  - destruct (debug && _); [done|]. destruct IH as (os & -> & Hos & Hr). exists os. split_and!; [done| |].
    + eapply Forall_impl; [exact Hos|]. simpl. lia.
    + destruct os as [|o os]; [by rewrite Hr|]. inversion Hos; subst.
      destruct (Nat.eqb_spec o pos); [lia|]. by rewrite Hr.
Qed.

Lemma remove_orphan_outputs_spec debug items :
  remove_orphan_outputs debug items
  = if debug && existsb (is_orphan (call_ids items)) items then None
    else Some (List.filter (fun e => negb (is_orphan (call_ids items) e)) items).
Proof.
  unfold remove_orphan_outputs. pose proof (orphan_positions_spec debug (call_ids items) 0 items) as Ho.
  destruct (debug && _); [by rewrite Ho|]. destruct Ho as (os & -> & _ & <-). destruct os; simpl; [|done].
  f_equal. clear. generalize 0. induction items as [|e items IH]; intros n; simpl; [done|]. by rewrite <- IH.
Qed.
End Passes.

(** ** The result of normalization *)

Section Result.
Context {Json : Type} `{Uuids}.
Notation ResponseItem := (ResponseItem Json).
Notation Envelope := (ResponseItemEnvelope Json).
Implicit Types (e o : Envelope) (items : list Envelope) (ids : IdSets) (k : CallKind) (id : str).

(** Every call has an output and every output, unless of a search the server ran,
    has a call. *)
Definition paired (items : list Envelope) : Prop :=
  (forall e k id, e ∈ items -> call_of (item e) = Some (k, id) -> exists o, o ∈ items /\ output_of (item o) = Some (k, id))
  /\ (forall o k id, o ∈ items -> output_of (item o) = Some (k, id) -> server_search (item o) = false ->
        exists e, e ∈ items /\ call_of (item e) = Some (k, id)).

Definition strip (modalities : list InputModality) (e : Envelope) : Envelope :=
  let e := if bool_decide (ImageModality ∈ modalities) then e else strip_images e in
  if bool_decide (AudioModality ∈ modalities) then e else strip_audio e.

Lemma strip_items modalities items :
  strip_audio_when_unsupported modalities (strip_images_when_unsupported modalities items) = List.map (strip modalities) items.
Proof.
  unfold strip_audio_when_unsupported, strip_images_when_unsupported, strip.
  destruct (bool_decide (ImageModality ∈ modalities)), (bool_decide (AudioModality ∈ modalities)); rewrite ?List.map_map; try done.
  by rewrite List.map_id.
Qed.

(** Stripping leaves the role of an item in a call alone. *)
Definition same_role e e' : Prop :=
  call_of (item e') = call_of (item e) /\ output_of (item e') = output_of (item e) /\ server_search (item e') = server_search (item e).

Lemma strip_role modalities e : same_role e (strip modalities e).
Proof.
  assert (same_role e (strip_images e)) as Hi by (unfold strip_images; destruct e as [[] ?]; done).
  assert (forall e, same_role e (strip_audio e)) as Ha by (intros e'; unfold strip_audio; destruct e' as [[] ?]; done).
  unfold strip. repeat case_bool_decide; try done. destruct (Ha (strip_images e)) as (? & ? & ?). destruct Hi as (? & ? & ?).
  split_and!; congruence.
Qed.

Lemma paired_map (f : Envelope -> Envelope) items : (forall e, same_role e (f e)) -> paired items -> paired (List.map f items).
Proof.
  intros Hf [Hc Ho]. split.
  - intros e k id He Hcall. apply list_elem_of_In, in_map_iff in He as (e0 & <- & He). destruct (Hf e0) as (Ec & _ & _). rewrite Ec in Hcall.
    apply list_elem_of_In in He. destruct (Hc _ _ _ He Hcall) as (o & Hin & Hout). exists (f o). destruct (Hf o) as (_ & -> & _).
    split; [|done]. apply list_elem_of_In, in_map, list_elem_of_In, Hin.
  - intros o k id Hin Hout Hs. apply list_elem_of_In, in_map_iff in Hin as (o0 & <- & Hin). destruct (Hf o0) as (_ & Eo & Es).
    rewrite Eo in Hout. rewrite Es in Hs. apply list_elem_of_In in Hin. destruct (Ho _ _ _ Hin Hout Hs) as (e & He & Hcall).
    exists (f e). destruct (Hf e) as (-> & _ & _). split; [|done]. apply list_elem_of_In, in_map, list_elem_of_In, He.
Qed.

Lemma is_orphan_spec ids e :
  is_orphan ids e = true <-> exists k id, output_of (item e) = Some (k, id) /\ id ∉ kind_ids ids k /\ server_search (item e) = false.
Proof.
  unfold is_orphan. split.
  - destruct (item e); simpl; try done; repeat case_match; try done; rewrite ?andb_true_iff, ?negb_true_iff, ?bool_decide_eq_false;
      intros; eexists _, _; split_and!; naive_solver.
  - intros (k & id & Ho & Hid & Hs). destruct (item e); simpl in *; try done; repeat case_match; simplify_eq/=;
      rewrite ?Hs; simpl; by rewrite bool_decide_false.
Qed.

Lemma is_orphan_ext ids ids' e : (forall k, kind_ids ids k ≡ kind_ids ids' k) -> is_orphan ids e = is_orphan ids' e.
Proof. intros Hk. apply eq_bool_prop_intro. rewrite !Is_true_true, !is_orphan_spec. by setoid_rewrite Hk. Qed.

Lemma with_outputs_in ids items e :
  e ∈ with_outputs ids items <-> e ∈ items \/ exists c b, c ∈ items /\ missing_output ids c = Some (b, e).
Proof.
  unfold with_outputs. rewrite list_elem_of_In, in_flat_map. setoid_rewrite <- list_elem_of_In. split.
  - intros (c & Hc & [<-|Hin]%elem_of_cons); [by left|]. destruct (missing_output ids c) as [[b o]|] eqn:E; [|set_solver].
    apply list_elem_of_singleton in Hin as ->. right. eauto.
  - intros [He|(c & b & Hc & E)].
    + exists e. split; [done|set_solver].
    + exists c. rewrite E. split; [done|set_solver].
Qed.

(** The made-up outputs are no calls. *)
Lemma with_outputs_calls items k :
  kind_ids (call_ids (with_outputs (output_ids items) items)) k ≡ kind_ids (call_ids items) k.
Proof.
  intros id. rewrite !call_ids_spec. setoid_rewrite with_outputs_in. split; [|naive_solver].
  intros (e & [He|(c & b & Hc & E)] & Hcall); [eauto|].
  pose proof (missing_output_spec (output_ids items) c) as Hm. rewrite E in Hm. destruct Hm as (? & ? & _ & _ & _ & Hno & _). congruence.
Qed.

(** Calls answered, orphans dropped. *)
Definition repaired (items : list Envelope) : list Envelope :=
  List.filter (fun e => negb (is_orphan (call_ids items) e)) (with_outputs (output_ids items) items).

Lemma normalize_release modalities items :
  normalize_history false modalities items = Some (List.map (strip modalities) (repaired items)).
Proof.
  unfold normalize_history. rewrite ensure_call_outputs_present_spec. simpl. rewrite remove_orphan_outputs_spec. simpl.
  rewrite strip_items. do 2 f_equal. apply filter_ext. intros e. f_equal. apply is_orphan_ext, with_outputs_calls.
Qed.

Lemma repaired_in items e :
  e ∈ repaired items <-> e ∈ with_outputs (output_ids items) items /\ is_orphan (call_ids items) e = false.
Proof. unfold repaired. by rewrite list_elem_of_In, filter_In, <- list_elem_of_In, negb_true_iff. Qed.

Lemma not_orphan items o k id c :
  output_of (item o) = Some (k, id) -> c ∈ items -> call_of (item c) = Some (k, id) -> is_orphan (call_ids items) o = false.
Proof.
  intros Ho Hc Hcall. apply not_true_iff_false. rewrite is_orphan_spec. intros (k' & id' & Ho' & Hn & _).
  rewrite Ho in Ho'. simplify_eq. apply Hn, call_ids_spec. eauto.
Qed.

Lemma call_kept items e k id : e ∈ items -> call_of (item e) = Some (k, id) -> e ∈ repaired items.
Proof.
  intros He Hcall. apply repaired_in. split; [apply with_outputs_in; by left|]. apply not_true_iff_false. rewrite is_orphan_spec.
  intros (k' & id' & Ho & _). unfold call_of, output_of in *. by destruct (item e).
Qed.

Lemma repaired_paired items : paired (repaired items).
Proof.
  split.
  - intros e k id He Hcall. apply repaired_in in He as [He _]. apply with_outputs_in in He as [He|(c & b & Hc & E)].
    + pose proof (missing_output_spec (output_ids items) e) as Hm. destruct (missing_output _ e) as [[b o]|] eqn:E.
      * destruct Hm as (k' & id' & Hcall' & _ & Ho & _). rewrite Hcall in Hcall'. simplify_eq. exists o. split; [|done].
        apply repaired_in. split; [apply with_outputs_in; eauto|]. exact (not_orphan items o _ _ e Ho He Hcall).
      * specialize (Hm _ _ Hcall). apply output_ids_spec in Hm as (o & Hin & Ho). exists o. split; [|done].
        apply repaired_in. split; [apply with_outputs_in; by left|]. exact (not_orphan items o k id e Ho He Hcall).
    + pose proof (missing_output_spec (output_ids items) c) as Hm. rewrite E in Hm. destruct Hm as (? & ? & _ & _ & _ & Hno & _). congruence.
  - intros o k id Ho Hout Hs. apply repaired_in in Ho as [_ Hor]. destruct (decide (id ∈ kind_ids (call_ids items) k)) as [Hid|Hid].
    + apply call_ids_spec in Hid as (e & He & Hcall). exists e. split; [by eapply call_kept|done].
    + rewrite <- not_true_iff_false in Hor. destruct Hor. apply is_orphan_spec. eauto.
Qed.

(** A paired history needs no repair, and nothing is reported. *)
Lemma paired_normalize debug modalities items :
  paired items -> normalize_history debug modalities items = Some (List.map (strip modalities) items).
Proof.
  intros [Hc Ho].
  assert (forall e, e ∈ items -> missing_output (output_ids items) e = None) as Hm.
  { intros e He. pose proof (missing_output_spec (output_ids items) e) as Hm. destruct (missing_output _ e) as [[b o]|]; [|done].
    destruct Hm as (k & id & Hcall & Hn & _). destruct Hn. apply output_ids_spec. eauto. }
  assert (forall e, e ∈ items -> is_orphan (call_ids items) e = false) as Hor.
  { intros e He. apply not_true_iff_false. rewrite is_orphan_spec. intros (k & id & Hout & Hn & Hs). apply Hn, call_ids_spec. eauto. }
  assert (with_outputs (output_ids items) items = items) as Hw.
  { unfold with_outputs. clear Hor Hc Ho. generalize dependent (output_ids items). intros ids. induction items as [|e items IH]; intros Hm; simpl; [done|].
    rewrite (Hm e) by set_solver. f_equal. apply IH. set_solver. }
  unfold normalize_history. rewrite ensure_call_outputs_present_spec, Hw.
  assert (existsb (reported_missing (output_ids items)) items = false) as ->.
  { apply not_true_iff_false. rewrite existsb_exists. intros (e & He%list_elem_of_In & Hr). unfold reported_missing in Hr. by rewrite Hm in Hr. }
  rewrite andb_false_r, remove_orphan_outputs_spec.
  assert (existsb (is_orphan (call_ids items)) items = false) as ->.
  { apply not_true_iff_false. rewrite existsb_exists. intros (e & He%list_elem_of_In & Hr). by rewrite Hor in Hr. }
  rewrite andb_false_r, strip_items. do 2 f_equal. clear Hm Hw. generalize dependent (call_ids items). intros ids.
  clear Hc Ho. induction items as [|e items IH]; intros Hor; simpl; [done|]. rewrite (Hor e) by set_solver. simpl. f_equal. apply IH. set_solver.
Qed.
End Result.

Section Claims.
Context {Json : Type} `{Uuids}.
Notation ResponseItem := (ResponseItem Json).
Notation Envelope := (ResponseItemEnvelope Json).
Implicit Types (e o : Envelope) (items : list Envelope) (k : CallKind) (id : str).

Definition strip_content (modalities : list InputModality) (a : AnnotatedContent) : AnnotatedContent :=
  let a := if bool_decide (ImageModality ∈ modalities) then a else strip_content_image a in
  if bool_decide (AudioModality ∈ modalities) then a else strip_content_audio a.

Definition strip_output (modalities : list InputModality) (i : FunctionCallOutputContentItem) : FunctionCallOutputContentItem :=
  let i := if bool_decide (ImageModality ∈ modalities) then i else strip_output_image i in
  if bool_decide (AudioModality ∈ modalities) then i else strip_output_audio i.

(** Both passes over one item, at once. *)
Definition stripped (modalities : list InputModality) (i : ResponseItem) : ResponseItem :=
  match i with
  | Message _ _ _ _ _ =>
      if bool_decide (ImageModality ∈ modalities) && bool_decide (AudioModality ∈ modalities) then i
      else match to_annotated_content i with
           | Some annotated => set_annotated_content i (List.map (strip_content modalities) annotated)
           | None => i
           end
  | FunctionCallOutput mid call_id name namespace output meta =>
      FunctionCallOutput mid call_id name namespace (map_output (strip_output modalities) output) meta
  | CustomToolCallOutput mid call_id name output meta =>
      CustomToolCallOutput mid call_id name (map_output (strip_output modalities) output) meta
  | ImageGenerationCall mid status revised result meta =>
      ImageGenerationCall mid status revised (if bool_decide (ImageModality ∈ modalities) then result else []) meta
  | _ => i
  end.

Lemma map_output_id (p : FunctionCallOutputPayload) : map_output (fun i => i) p = p.
Proof. destruct p as [[t|items] s]; [done|]. unfold map_output. simpl. by rewrite List.map_id. Qed.
Lemma map_output_map f g (p : FunctionCallOutputPayload) : map_output g (map_output f p) = map_output (fun i => g (f i)) p.
Proof. destruct p as [[t|items] s]; [done|]. unfold map_output. simpl. by rewrite List.map_map. Qed.
Lemma map_output_ext f g (p : FunctionCallOutputPayload) : (forall i, f i = g i) -> map_output f p = map_output g p.
Proof. intros Hfg. destruct p as [[t|items] s]; [done|]. unfold map_output. simpl. by rewrite (map_ext _ _ Hfg). Qed.

Lemma strip_stripped modalities e : strip modalities e = set_item e (stripped modalities (item e)).
Proof.
  unfold strip, strip_images, strip_audio, stripped, strip_output, strip_content.
  destruct (bool_decide (ImageModality ∈ modalities)), (bool_decide (AudioModality ∈ modalities)); destruct e as [[] hm]; simpl;
    unfold set_item; simpl; rewrite ?map_output_id, ?map_output_map, ?annotate_fixed, ?List.map_map; done.
Qed.

Lemma strip_content_fixed modalities a : strip_content modalities (strip_content modalities a) = strip_content modalities a.
Proof.
  unfold strip_content, strip_content_image, strip_content_audio.
  destruct (bool_decide (ImageModality ∈ modalities)), (bool_decide (AudioModality ∈ modalities)); by destruct a as [[] ?].
Qed.

Lemma strip_output_fixed modalities i : strip_output modalities (strip_output modalities i) = strip_output modalities i.
Proof.
  unfold strip_output. destruct (bool_decide (ImageModality ∈ modalities)), (bool_decide (AudioModality ∈ modalities)); by destruct i.
Qed.

Lemma stripped_fixed modalities i : stripped modalities (stripped modalities i) = stripped modalities i.
Proof.
  unfold stripped. destruct i; try done.
  - destruct (_ && _); [done|]. simpl. rewrite annotate_fixed, (List.map_map (strip_content modalities) (strip_content modalities)).
    by rewrite (map_ext _ _ (strip_content_fixed modalities)).
  - f_equal. rewrite map_output_map. apply map_output_ext, strip_output_fixed.
  - f_equal. rewrite map_output_map. apply map_output_ext, strip_output_fixed.
  - f_equal. by destruct (bool_decide _).
Qed.

Lemma strip_fixed modalities e : strip modalities (strip modalities e) = strip modalities e.
Proof. rewrite !strip_stripped. unfold set_item. simpl. by rewrite stripped_fixed. Qed.

(** Images and audio an item carries. *)
Definition has_image (i : ResponseItem) : bool :=
  match i with
  | Message _ _ content _ _ => existsb (fun c => match c with MsgInputImage _ _ => true | _ => false end) content
  | FunctionCallOutput _ _ _ _ output _ | CustomToolCallOutput _ _ _ output _ =>
      existsb (fun c => match c with InputImage _ => true | _ => false end) (unwrap_or (content_items output) [])
  | ImageGenerationCall _ _ _ result _ => negb (is_nil result)
  | _ => false
  end.
Definition has_audio (i : ResponseItem) : bool :=
  match i with
  | Message _ _ content _ _ => existsb (fun c => match c with MsgInputAudio _ => true | _ => false end) content
  | FunctionCallOutput _ _ _ _ output _ | CustomToolCallOutput _ _ _ output _ =>
      existsb (fun c => match c with InputAudio _ => true | _ => false end) (unwrap_or (content_items output) [])
  | _ => false
  end.

Lemma existsb_map_false {A B} (f : A -> B) (p : B -> bool) l : (forall a, p (f a) = false) -> existsb p (List.map f l) = false.
Proof. intros Hp. induction l as [|a l IH]; simpl; [done|]. by rewrite Hp, IH. Qed.

Lemma stripped_media modalities i :
  (ImageModality ∉ modalities -> has_image (stripped modalities i) = false) /\
  (AudioModality ∉ modalities -> has_audio (stripped modalities i) = false).
Proof.
  assert (forall f (output : FunctionCallOutputPayload) p, (forall c, p (f c) = false) ->
    existsb p (unwrap_or (content_items (map_output f output)) []) = false) as Hout.
  { intros f [[t|items] s] p Hp; [done|]. by apply existsb_map_false. }
  split; intros Hm; eapply bool_decide_eq_false_2 in Hm; destruct i; try done; simpl; rewrite ?Hm, ?andb_false_r; simpl; try done;
    rewrite ?List.map_map; (apply existsb_map_false || apply Hout);
    first [intros [c ?]; unfold strip_content|intros c; unfold strip_output];
    rewrite Hm; destruct (bool_decide (ImageModality ∈ modalities)), (bool_decide (AudioModality ∈ modalities)); by destruct c.
Qed.

(** C22. Normalizing a history never fails in a release build.  The result is the
    history with an output right after every call that had none and without the
    outputs of no call, the media the model cannot read replaced; it is paired, and
    no unsupported media is left.  Outputs of tool searches the server ran, and
    outputs without a call id, need no call and stay. *)
Theorem normalized_history modalities items :
  exists prompt, normalize_history false modalities items = Some prompt
    /\ prompt = List.map (fun e => set_item e (stripped modalities (item e))) (repaired items)
    /\ paired prompt
    /\ forall e, e ∈ prompt -> (ImageModality ∉ modalities -> has_image (item e) = false)
                              /\ (AudioModality ∉ modalities -> has_audio (item e) = false).
Proof.
  exists (List.map (strip modalities) (repaired items)). split_and!.
  - apply normalize_release.
  - apply map_ext, strip_stripped.
  - apply paired_map; [apply strip_role|apply repaired_paired].
  - intros e He. apply list_elem_of_In, in_map_iff in He as (x & <- & _). rewrite strip_stripped. apply stripped_media.
Qed.

(** Normalizing again changes nothing, and with debug assertions reports nothing;
    with them, a normalization that does not panic gives the release result. *)
Theorem normalization_idempotent debug modalities items prompt :
  normalize_history debug modalities items = Some prompt ->
  normalize_history false modalities items = Some prompt /\ forall debug', normalize_history debug' modalities prompt = Some prompt.
Proof.
  intros Hn.
  assert (normalize_history false modalities items = Some prompt) as Hr.
  { destruct debug; [|done]. unfold normalize_history in *. rewrite !ensure_call_outputs_present_spec in *. simpl in *.
    destruct (existsb _ items); [done|]. rewrite !remove_orphan_outputs_spec in *. simpl in *. by destruct (existsb _ _). }
  split; [done|]. intros debug'. rewrite normalize_release in Hr. injection Hr as <-.
  rewrite paired_normalize by (apply paired_map; [apply strip_role|apply repaired_paired]).
  rewrite List.map_map. f_equal. apply map_ext, strip_fixed.
Qed.
End Claims.

(** ** Dropping the oldest item *)

Section Oldest.
Context {Json : Type}.
Notation ResponseItem := (ResponseItem Json).
Notation Envelope := (ResponseItemEnvelope Json).
Implicit Types (e o : Envelope) (items : list Envelope) (key : CallKind * str).

(** No identifier is used by two calls or by two outputs of a kind. *)
Definition unique_ids (items : list Envelope) : Prop :=
  NoDup (omap (fun e => call_of (item e)) items) /\ NoDup (omap (fun e => output_of (item e)) items).

Definition involves key e : bool :=
  bool_decide (call_of (item e) = Some key) || bool_decide (output_of (item e) = Some key).
Definition without key items : list Envelope := List.filter (fun e => negb (involves key e)) items.

Lemma remove_first_unique (f : ResponseItem -> option (CallKind * str)) (p : ResponseItem -> bool) key items :
  (forall i, p i = true -> f i = Some key) -> (forall e, e ∈ items -> f (item e) = Some key -> p (item e) = true) ->
  NoDup (omap (fun e => f (item e)) items) ->
  remove_first_matching p items = List.filter (fun e => negb (bool_decide (f (item e) = Some key))) items.
Proof.
  intros Hp. induction items as [|e items IH]; simpl; intros Hq Hnd; [done|].
  destruct (p (item e)) eqn:Ep.
  - rewrite (Hp _ Ep) in Hnd. rewrite bool_decide_true by (by apply Hp). simpl. inversion Hnd as [|? ? Hn _]; subst.
    symmetry. apply List.forallb_filter_id, forallb_forall. intros x Hx%list_elem_of_In. apply negb_true_iff, bool_decide_eq_false. intros Hf.
    apply Hn, list_elem_of_omap. eauto.
  - rewrite bool_decide_false.
    + simpl. f_equal. apply IH; [set_solver|]. destruct (f (item e)); [by inversion Hnd|done].
    + intros Hf. rewrite Hq in Ep by set_solver. done.
Qed.

Lemma without_role key e items :
  call_of (item e) = Some key \/ output_of (item e) = Some key -> without key (e :: items) = without key items.
Proof.
  intros Hr. unfold without. simpl. unfold involves at 1.
  destruct Hr as [-> | ->]; rewrite (bool_decide_true (Some key = Some key)) by done; by rewrite ?orb_true_r.
Qed.

Lemma call_output_disjoint (i : ResponseItem) key : call_of i = Some key -> output_of i = None.
Proof. by destruct i. Qed.

Lemma without_output key items : (forall e, e ∈ items -> call_of (item e) <> Some key) ->
  List.filter (fun e => negb (bool_decide (output_of (item e) = Some key))) items = without key items.
Proof.
  intros Hno. apply filter_ext_in. intros e He%list_elem_of_In. unfold involves. rewrite (bool_decide_false (call_of _ = _)); [done|].
  by apply Hno.
Qed.

Lemma without_call key items : (forall e, e ∈ items -> output_of (item e) <> Some key) ->
  List.filter (fun e => negb (bool_decide (call_of (item e) = Some key))) items = without key items.
Proof.
  intros Hno. apply filter_ext_in. intros e He%list_elem_of_In. unfold involves. rewrite (bool_decide_false (output_of _ = _)); [by rewrite orb_false_r|].
  by apply Hno.
Qed.

Ltac matches_id :=
  let i := fresh in intros i; destruct i; simpl; try done; repeat case_match; try done; intros ?%str_eqb_spec; congruence.

(** Dropping the oldest item drops exactly the items of its call. *)
Lemma remove_first_item_without e items :
  unique_ids (e :: items) ->
  remove_first_item (e :: items)
  = match call_of (item e), output_of (item e) with
    | Some key, _ | None, Some key => without key (e :: items)
    | None, None => items
    end.
Proof.
  intros [Hc Ho]. simpl in Hc, Ho. unfold remove_first_item.
  destruct (call_of (item e)) as [key|] eqn:Ec.
  - rewrite (call_output_disjoint _ _ Ec) in Ho. inversion Hc as [|? ? Hn _]; subst.
    rewrite without_role by (by left). rewrite <- without_output by (intros x Hx Hk; apply Hn, list_elem_of_omap; eauto).
    destruct (item e); simpl in Ec; try done; repeat case_match; simplify_eq/=;
      (apply remove_first_unique; [matches_id| |done]);
      intros x _; destruct (item x); simpl; try done; repeat case_match; try done; intros [= ->]; apply str_eqb_refl.
  - destruct (output_of (item e)) as [key|] eqn:Eo.
    + inversion Ho as [|? ? Hn _]; subst.
      rewrite without_role by (by right). rewrite <- without_call by (intros x Hx Hk; apply Hn, list_elem_of_omap; eauto).
      destruct (item e); simpl in Eo; try done; repeat case_match; simplify_eq/=.
      * destruct (existsb _ items) eqn:Ex.
        -- apply existsb_exists in Ex as (c & Hin%list_elem_of_In & Hfc).
           apply remove_first_unique; [matches_id| |done]. intros x Hx Hk. rewrite (nodup_omap_inj _ _ x c _ Hc Hx Hin Hk); [done|].
           destruct (item c); simpl in *; try done. apply str_eqb_spec in Hfc. by subst.
        -- apply remove_first_unique; [matches_id| |done]. intros x Hx Hk. rewrite <- not_true_iff_false, existsb_exists in Ex.
           destruct (item x) eqn:Ei; simpl in *; try done; repeat case_match; simplify_eq/=; [apply str_eqb_refl|].
           destruct Ex. exists x. rewrite Ei. split; [by apply list_elem_of_In|apply str_eqb_refl].
      * apply remove_first_unique; [matches_id| |done].
        intros x _; destruct (item x); simpl; try done; repeat case_match; try done; intros [= ->]; apply str_eqb_refl.
      * apply remove_first_unique; [matches_id| |done].
        intros x _; destruct (item x); simpl; try done; repeat case_match; try done; intros [= ->]; apply str_eqb_refl.
    + destruct (item e); simpl in *; try done; repeat case_match; done.
Qed.

Lemma without_in key items e : e ∈ without key items <-> e ∈ items /\ call_of (item e) <> Some key /\ output_of (item e) <> Some key.
Proof.
  unfold without. rewrite list_elem_of_In, filter_In, <- list_elem_of_In, negb_true_iff. unfold involves.
  by rewrite orb_false_iff, !bool_decide_eq_false.
Qed.

Lemma without_paired key items : paired items -> paired (without key items).
Proof.
  intros [Hc Ho]. split.
  - intros e k id (He & Hn & _)%without_in Hcall. destruct (Hc _ _ _ He Hcall) as (o & Hin & Hout). exists o. split; [|done].
    apply without_in. split_and!; [done| |congruence]. intros Hk. apply call_output_disjoint in Hk. congruence.
  - intros o k id (Hin & _ & Hn)%without_in Hout Hs. destruct (Ho _ _ _ Hin Hout Hs) as (e & He & Hcall). exists e. split; [|done].
    apply without_in. split_and!; [done|congruence|]. rewrite (call_output_disjoint _ _ Hcall). done.
Qed.

Lemma no_role_paired e items :
  call_of (item e) = None -> output_of (item e) = None -> paired (e :: items) -> paired items.
Proof.
  intros Ec Eo [Hc Ho]. split.
  - intros x k id Hx Hcall. destruct (Hc x k id) as (o & [->|Hin]%elem_of_cons & Hout); [set_solver|done|congruence|eauto].
  - intros o k id Hin Hout Hs. destruct (Ho o k id) as (x & [->|Hx]%elem_of_cons & Hcall); [set_solver|done..|congruence|eauto].
Qed.

Lemma remove_first_matching_sublist (p : ResponseItem -> bool) items : remove_first_matching p items `sublist_of` items.
Proof.
  induction items as [|e items IH]; simpl; [done|]. destruct (p (item e)); [by apply sublist_cons|by apply sublist_skip].
Qed.

Lemma remove_corresponding_sublist items (i : ResponseItem) : remove_corresponding_for items i `sublist_of` items.
Proof. destruct i; simpl; repeat case_match; try done; apply remove_first_matching_sublist. Qed.

Lemma omap_sublist {A B} (f : A -> option B) (l k : list A) : l `sublist_of` k -> omap f l `sublist_of` omap f k.
Proof. induction 1 as [|x l k _ IH|x l k _ IH]; simpl; [done| |]; destruct (f x); [by apply sublist_skip|done|by apply sublist_cons|done]. Qed.

(** Dropping the oldest item keeps calls and outputs paired: of a history in which
    no identifier is reused it drops, besides the item, exactly its counterpart,
    keeping the order of the rest; and it can be repeated until nothing is left. *)
Theorem remove_first_item_keeps_pairs e items :
  paired (e :: items) -> unique_ids (e :: items) ->
  paired (remove_first_item (e :: items)) /\ unique_ids (remove_first_item (e :: items))
  /\ remove_first_item (e :: items) `sublist_of` items
  /\ (forall key, call_of (item e) = Some key \/ output_of (item e) = Some key ->
        forall x, x ∈ remove_first_item (e :: items) <-> x ∈ items /\ call_of (item x) <> Some key /\ output_of (item x) <> Some key).
Proof.
  intros Hp Hu. assert (remove_first_item (e :: items) `sublist_of` items) as Hsub by apply remove_corresponding_sublist.
  rewrite (remove_first_item_without _ _ Hu) in *. split_and!; [| |done|].
  - destruct (call_of (item e)) as [key|] eqn:Ec; [by apply without_paired|].
    destruct (output_of (item e)) as [key|] eqn:Eo; [by apply without_paired|by eapply no_role_paired].
  - destruct Hu as [Hc Ho]. assert (items `sublist_of` e :: items) as Hs by (by apply sublist_cons).
    split; eapply sublist_NoDup; try (apply omap_sublist; etrans; [exact Hsub|exact Hs]); done.
  - intros key Hk x. destruct Hk as [Hk|Hk].
    + rewrite Hk, without_role by (by left). apply without_in.
    + assert (call_of (item e) = None) as -> by (destruct (call_of (item e)) eqn:Ec; [apply call_output_disjoint in Ec; congruence|done]).
      rewrite Hk, without_role by (by right). apply without_in.
Qed.
End Oldest.

(** ** Examples *)

#[export] Instance demo_uuids : Uuids := { uuid_v5 name := name }.

Definition demo_call (n : string) : ResponseItemEnvelope unit :=
  new_envelope (FunctionCall (Some (lit n)) (lit "shell") None (lit "{}") None (lit n) None).
Definition demo_output (n : string) : ResponseItemEnvelope unit :=
  new_envelope (FunctionCallOutput None (Some (lit n)) None None (from_text (lit "done")) None).
Definition demo_picture : ResponseItemEnvelope unit :=
  new_envelope (Message None (lit "user") [MsgInputImage (FileImage (lit "f")) None] None None).

(** A call without an output, an output without a call, and a picture the model
    cannot see. *)
Example normalize_sample :
  option_map (List.map (fun e => (call_of (item e), output_of (item e), has_image (item e))))
    (normalize_history false [TextModality] [demo_picture; demo_call "a"; demo_output "b"; demo_call "c"; demo_output "c"])
  = Some [(None, None, false); (Some (FunctionKind, lit "a"), None, false); (None, Some (FunctionKind, lit "a"), false);
          (Some (FunctionKind, lit "c"), None, false); (None, Some (FunctionKind, lit "c"), false)].
Proof. vm_compute. reflexivity. Qed.

Lemma normalization_idempotent_witness :
  exists prompt, normalize_history true [TextModality] [demo_picture; demo_call "a"] = Some prompt
    /\ normalize_history false [TextModality] [demo_picture; demo_call "a"] = Some prompt
    /\ normalize_history true [TextModality] prompt = Some prompt.
Proof.
  eexists. split; [vm_compute; reflexivity|].
  refine (let r := normalization_idempotent true [TextModality] [demo_picture; demo_call "a"] _ _ in conj (proj1 r) (proj2 r true)).
  vm_compute. reflexivity.
Defined.

Lemma remove_first_item_keeps_pairs_witness :
  remove_first_item [demo_call "a"; demo_call "b"; demo_output "a"; demo_output "b"] = [demo_call "b"; demo_output "b"]
  /\ paired (remove_first_item [demo_call "a"; demo_call "b"; demo_output "a"; demo_output "b"]).
Proof.
  split; [vm_compute; reflexivity|].
  refine (proj1 (remove_first_item_keeps_pairs (demo_call "a") [demo_call "b"; demo_output "a"; demo_output "b"] _ _)).
  - split; intros x k id Hx%list_elem_of_In; simpl in Hx.
    + destruct Hx as [<-|[<-|[<-|[<-|[]]]]]; simpl; intros E; simplify_eq; [exists (demo_output "a")|exists (demo_output "b")]; (split; [apply list_elem_of_In; simpl; auto|reflexivity]).
    + destruct Hx as [<-|[<-|[<-|[<-|[]]]]]; simpl; intros E _; simplify_eq; [exists (demo_call "a")|exists (demo_call "b")]; (split; [apply list_elem_of_In; simpl; auto|reflexivity]).
  - split; apply (bool_decide_unpack _); vm_compute; exact I.
Defined.
