(* ===== verification/ContextFragments.v ===== *)
(** * Texts the harness injects into a conversation
    ([context-fragments/src/], [core/src/context/], [core/src/event_mapping.rs])

    Context that the harness adds to a conversation (project instructions, the
    environment, notifications, warnings) is stored as ordinary messages; whether
    a message was written by the user is decided by recognizing these texts.  A
    fragment type has markers around its body and a test [matches_text]; the types
    that override the default test do so here too.

    Theorem: what a fragment type renders, its own test recognizes. *)

From stdpp Require Import base list numbers option strings.
From Stdlib Require Import Lia ZArith.
From S2P Require Import Prelude RustStr ByteStr Truncate ResponseItem.

(** XML reading of hook prompts ([quick-xml]): the text and the id of the hook
    run; JSON reading of messages between agents ([serde_json]). *)
Class Fragments := {
  from_xml_str : str -> option (str * str);
  is_inter_agent_json : str -> bool }.

(** The types whose tests are used, in the order of the sources. *)
Inductive FragmentType :=
| UserInstructions | EnvironmentsState | AdditionalContextUserFragment | AgentMessageBoardNotification | SkillInstructions
| UserShellCommand | TurnAborted | SubagentNotification | InternalModelContextFragment | RecommendedPluginsInstructions
| LegacyUnifiedExecProcessLimitWarning | LegacyApplyPatchExecCommandWarning | LegacyModelMismatchWarning
| ModelSwitchInstructions | PersistentModeState.

Definition QUOTE : char := 34%N.
Definition CONTEXT_START_MARKER : str := lit "<codex_internal_context".
Definition CONTEXT_END_MARKER : str := lit "</codex_internal_context>".
Definition SOURCE_ATTR_START : str := lit " source=" ++ [QUOTE].
Definition SOURCE_ATTR_END : str := [QUOTE] ++ lit ">".
Definition ADDITIONAL_CONTEXT_START_MARKER_PREFIX : str := lit "<external_".
Definition GT : char := 62%N.

Definition type_markers (t : FragmentType) : str * str :=
  match t with
  | UserInstructions => (lit "# AGENTS.md instructions", lit "</INSTRUCTIONS>")
  | EnvironmentsState => (lit "<environment_context>", lit "</environment_context>")
  | AdditionalContextUserFragment => (ADDITIONAL_CONTEXT_START_MARKER_PREFIX, [GT])
  | AgentMessageBoardNotification => (lit "<agent_message_board_notification>", lit "</agent_message_board_notification>")
  | SkillInstructions => (lit "<skill>", lit "</skill>")
  | UserShellCommand => (lit "<user_shell_command>", lit "</user_shell_command>")
  | TurnAborted => (lit "<turn_aborted>", lit "</turn_aborted>")
  | SubagentNotification => (lit "<subagent_notification>", lit "</subagent_notification>")
  | InternalModelContextFragment => (CONTEXT_START_MARKER, CONTEXT_END_MARKER)
  | RecommendedPluginsInstructions => (lit "<recommended_plugins>", lit "</recommended_plugins>")
  | LegacyUnifiedExecProcessLimitWarning | LegacyApplyPatchExecCommandWarning | LegacyModelMismatchWarning => ([], [])
  | ModelSwitchInstructions => (lit "<model_switch>", lit "</model_switch>")
  | PersistentModeState => (lit "<persistent_mode>", lit "</persistent_mode>")
  end.

(** [text.get(..marker.len())] compared with an ASCII marker. *)
Definition prefix_ignore_case (marker text : str) : bool := eq_ignore_ascii_case (take (length marker) text) marker.

(** [matches_marked_text], for ASCII markers. *)
Definition matches_marked_text (start_marker end_marker text : str) : bool :=
  if is_nil start_marker || is_nil end_marker then false
  else
    let trimmed := trim_start text in
    let starts_with_marker := prefix_ignore_case start_marker trimmed in
    let trimmed := trim_end trimmed in
    let ends_with_marker := eq_ignore_ascii_case (drop (length trimmed - length end_marker) trimmed) end_marker in
    starts_with_marker && ends_with_marker.

Definition is_ascii_lowercase (c : char) : bool := ((97 <=? c) && (c <=? 122))%N.

Definition is_valid_source (source : str) : bool :=
  match source with
  | [] => false
  | first :: chars => is_ascii_lowercase first && forallb (fun ch => is_ascii_lowercase ch || is_ascii_digit ch || N.eqb ch 95) chars
  end.

Definition matches_legacy_goal_context (text : str) : bool :=
  starts_with (lit "<goal_context>") text && ends_with (lit "</goal_context>") text.

(** [str::split_once] with a string. *)
Fixpoint split_once_str (p s : str) : option (str * str) :=
  match strip_prefix p s with
  | Some rest => Some ([], rest)
  | None => match s with [] => None | c :: s => option_map (fun '(a, b) => (c :: a, b)) (split_once_str p s) end
  end.

Definition matches_internal_context (text : str) : bool :=
  let trimmed := trim text in
  if matches_legacy_goal_context trimmed then true
  else
    match strip_prefix CONTEXT_START_MARKER trimmed with
    | None => false
    | Some rest =>
        match strip_prefix SOURCE_ATTR_START rest with
        | None => false
        | Some rest =>
            match split_once_str SOURCE_ATTR_END rest with
            | None => false
            | Some (source, body_and_close) => is_valid_source source && ends_with CONTEXT_END_MARKER body_and_close
            end
        end
    end.

Definition matches_additional_context (text : str) : bool :=
  match strip_prefix ADDITIONAL_CONTEXT_START_MARKER_PREFIX (trim text) with
  | None => false
  | Some rest =>
      match split_once GT rest with
      | None => false
      | Some (key, value_and_close) => ends_with (lit "</external_" ++ key ++ [GT]) value_and_close
      end
  end.

Definition matches_text (t : FragmentType) (text : str) : bool :=
  match t with
  | AdditionalContextUserFragment => matches_additional_context text
  | InternalModelContextFragment => matches_internal_context text
  | LegacyUnifiedExecProcessLimitWarning =>
      starts_with (lit "Warning: The maximum number of unified exec processes you can keep open is") (trim text)
  | LegacyApplyPatchExecCommandWarning =>
      starts_with (lit "Warning: apply_patch was requested via ") (trim text)
      && ends_with (lit "Use the apply_patch tool instead of exec_command.") (trim text)
  | LegacyModelMismatchWarning =>
      starts_with (lit "Warning: Your account was flagged for potentially high-risk cyber activity") (trim text)
  | _ => let '(start_marker, end_marker) := type_markers t in matches_marked_text start_marker end_marker text
  end.

(** [ContextualUserFragment::render]. *)
Definition render (t : FragmentType) (body : str) : str :=
  let '(start_marker, end_marker) := type_markers t in
  if is_nil start_marker && is_nil end_marker then body else start_marker ++ body ++ end_marker.

Definition MAX_ADDITIONAL_CONTEXT_VALUE_TOKENS : Z := 1000.

(** [None]: truncation panicked. *)
Definition additional_context_body (key value : str) : option str :=
  option_map (fun '(value, _) => key ++ [GT] ++ value ++ lit "</external_" ++ key)
    (truncate_middle_with_token_budget value MAX_ADDITIONAL_CONTEXT_VALUE_TOKENS).

Definition internal_context_body (source body : str) : str :=
  SOURCE_ATTR_START ++ source ++ SOURCE_ATTR_END ++ [LF] ++ body ++ [LF].

Definition CONTEXTUAL_USER_FRAGMENT_MATCHERS : list FragmentType :=
  [UserInstructions; EnvironmentsState; AdditionalContextUserFragment; AgentMessageBoardNotification; SkillInstructions;
   UserShellCommand; TurnAborted; SubagentNotification; InternalModelContextFragment; RecommendedPluginsInstructions;
   LegacyUnifiedExecProcessLimitWarning; LegacyApplyPatchExecCommandWarning; LegacyModelMismatchWarning].

Definition is_standard_contextual_user_text (text : str) : bool :=
  existsb (fun t => matches_text t text) CONTEXTUAL_USER_FRAGMENT_MATCHERS.

Definition content_text (c : MessageContent) : option str := match c with MsgInputText t => Some t | _ => None end.

Definition CONTEXTUAL_DEVELOPER_PREFIXES : list str :=
  List.map lit
    ["<permissions instructions>"; "Approved command prefix saved:"; "<model_switch>"; "<managed_developer_instructions>";
     "<persistent_mode>"; "<apps_instructions>"; "<collaboration_mode>"; "<multi_agent_role>"; "<multi_agent_mode>";
     "<environments_instructions>"; "<git_attribution>"; "<plugins_instructions>"; "<realtime_conversation>";
     "<skills_instructions>"; "<tools>"; "<personality_spec>"; "<token_budget>"; "<context_window>";
     "<context_window_guidance>"; "<rollout_budget>"].

Definition is_contextual_dev_fragment (c : MessageContent) : bool :=
  is_some_and (content_text c) (fun text => existsb (fun prefix => prefix_ignore_case prefix (trim_start text)) CONTEXTUAL_DEVELOPER_PREFIXES).
Definition is_contextual_dev_message_content (content : list MessageContent) : bool := existsb is_contextual_dev_fragment content.
Definition has_non_contextual_dev_message_content (content : list MessageContent) : bool :=
  existsb (fun c => negb (is_contextual_dev_fragment c)) content.

(** The beginning of a summary that compaction writes. *)
Definition SUMMARY_PREFIX : str := lit
  "Another language model started to solve this problem and produced a summary of its thinking process. You also have access to the state of the tools that were used by that language model. Use this to build on the work that has already been done and avoid duplicating work. Here is the summary produced by the other language model, use the information in this summary to assist with your own analysis:".

Definition is_summary_message (message : str) : bool := starts_with (SUMMARY_PREFIX ++ [LF]) message.

Section Recognition.
Context `{Fragments}.

(** The text and the hook run of a hook prompt. *)
Definition parse_hook_prompt_fragment (text : str) : option (str * str) :=
  match from_xml_str (trim text) with
  | Some (text, hook_run_id) => if is_nil (trim hook_run_id) then None else Some (text, hook_run_id)
  | None => None
  end.

Definition is_contextual_user_fragment (c : MessageContent) : bool :=
  is_some_and (content_text c) (fun text => is_some (parse_hook_prompt_fragment text) || is_standard_contextual_user_text text).

Definition is_contextual_user_message_content (content : list MessageContent) : bool := existsb is_contextual_user_fragment content.

(** [InterAgentCommunication::is_message_content]. *)
Definition is_inter_agent_instruction_content (content : list MessageContent) : bool :=
  match content with
  | [MsgInputText text] | [MsgOutputText text] => is_inter_agent_json text
  | _ => false
  end.
End Recognition.

(** Whether annotations say that a user message changes what the user allows. *)
Definition conservative_kind (kind : str) : bool :=
  starts_with (lit "user.") kind || is_nil kind
  || mem_str (List.map lit ["unknown"; "images.preparation_error"; "images.unsupported"; "audio.unsupported"]) kind.

Definition is_user_authorization_message {Json} (i : ResponseItem Json) : bool :=
  match i with
  | Message _ role content _ meta =>
      str_eqb role (lit "user")
      && match mbind content_item_kinds meta with
         | None => true
         | Some kinds => is_nil kinds || negb (Nat.eqb (length kinds) (length content)) || existsb conservative_kind kinds
         end
  | _ => false
  end.

(** ** What is rendered is recognized *)

Lemma eq_ignore_refl s : eq_ignore_ascii_case s s = true.
Proof. apply str_eqb_refl. Qed.

Lemma trim_marked start_marker end_marker body :
  start_marker <> [] -> end_marker <> [] -> no_leading_ws start_marker -> no_trailing_ws end_marker ->
  trim_start (start_marker ++ body ++ end_marker) = start_marker ++ body ++ end_marker
  /\ trim_end (start_marker ++ body ++ end_marker) = start_marker ++ body ++ end_marker.
Proof.
  intros Hs He Hl Ht. split.
  - apply trim_start_id. by destruct start_marker.
  - apply trim_end_id. rewrite app_assoc. by apply no_trailing_ws_app.
Qed.

Lemma marked_text_matches start_marker end_marker body :
  start_marker <> [] -> end_marker <> [] -> no_leading_ws start_marker -> no_trailing_ws end_marker ->
  matches_marked_text start_marker end_marker (start_marker ++ body ++ end_marker) = true.
Proof.
  intros Hs He Hl Ht. destruct (trim_marked _ _ body Hs He Hl Ht) as [H1 H2].
  unfold matches_marked_text, prefix_ignore_case. rewrite H1, H2, (proj2 (is_nil_false _) Hs), (proj2 (is_nil_false _) He).
  simpl. rewrite take_app_length, eq_ignore_refl, app_assoc, drop_app_length'; [apply eq_ignore_refl|].
  rewrite !length_app. lia.
Qed.

Lemma split_once_app c a b : c ∉ a -> split_once c (a ++ c :: b) = Some (a, b).
Proof.
  induction a as [|x a IH]; intros Ha; simpl; [by rewrite N.eqb_refl|].
  apply not_elem_of_cons in Ha as [Hx Ha]. rewrite (proj2 (N.eqb_neq _ _)) by congruence. by rewrite (IH Ha).
Qed.

Lemma additional_context_matches key value body :
  GT ∉ key -> additional_context_body key value = Some body ->
  matches_additional_context (render AdditionalContextUserFragment body) = true.
Proof.
  unfold additional_context_body. intros Hk Hb.
  destruct truncate_middle_with_token_budget as [[v n]|]; [|done]. injection Hb as <-.
  change (render AdditionalContextUserFragment ?b) with (ADDITIONAL_CONTEXT_START_MARKER_PREFIX ++ b ++ [GT]).
  edestruct (trim_marked ADDITIONAL_CONTEXT_START_MARKER_PREFIX [GT]) as [H1 H2]; [done..|by intros ? [= <-]|].
  unfold matches_additional_context, trim. rewrite H1, H2, strip_prefix_app, <- !app_assoc. simpl.
  rewrite split_once_app by done. apply ends_with_spec. exists v. by rewrite <- !app_assoc.
Qed.

Lemma split_once_str_app q x source rest : q <> [] -> q !! 0%nat = Some x -> x ∉ source ->
  split_once_str q (source ++ q ++ rest) = Some (source, rest).
Proof.
  intros Hq Hx. induction source as [|c source IH]; intros Hn; simpl.
  - destruct q as [|y q]; [done|]. simpl. rewrite N.eqb_refl, strip_prefix_app. done.
  - apply not_elem_of_cons in Hn as [Hc Hn]. destruct q as [|y q]; [done|]. injection Hx as ->. simpl in IH |- *.
    rewrite (proj2 (N.eqb_neq x c)) by congruence. by rewrite (IH Hn).
Qed.

Lemma valid_source_no_quote source : is_valid_source source = true -> QUOTE ∉ source.
Proof.
  destruct source as [|c s]; [done|]. simpl. intros [Hc Hs]%andb_true_iff Hq. apply elem_of_cons in Hq as [<-|Hq]; [done|].
  rewrite forallb_forall in Hs. apply list_elem_of_In, Hs in Hq. done.
Qed.

Lemma internal_context_matches source body :
  is_valid_source source = true -> matches_internal_context (render InternalModelContextFragment (internal_context_body source body)) = true.
Proof.
  intros Hs. change (render InternalModelContextFragment ?b) with (CONTEXT_START_MARKER ++ b ++ CONTEXT_END_MARKER).
  edestruct (trim_marked CONTEXT_START_MARKER CONTEXT_END_MARKER) as [H1 H2]; [done..|by intros ? [= <-]|].
  unfold matches_internal_context, trim. rewrite H1, H2, strip_prefix_app. case_match; [done|].
  unfold internal_context_body. rewrite <- !app_assoc, strip_prefix_app.
  rewrite (split_once_str_app SOURCE_ATTR_END QUOTE); [|done|done|by apply valid_source_no_quote].
  rewrite Hs. apply ends_with_spec. eexists. by rewrite !app_assoc.
Qed.

(** The bodies the harness gives to a type; the legacy warnings are not rendered
    any more. *)
Definition body_ok (t : FragmentType) (body : str) : Prop :=
  match t with
  | AdditionalContextUserFragment => exists key value, GT ∉ key /\ additional_context_body key value = Some body
  | InternalModelContextFragment => exists source text, is_valid_source source = true /\ body = internal_context_body source text
  | LegacyUnifiedExecProcessLimitWarning | LegacyApplyPatchExecCommandWarning | LegacyModelMismatchWarning => False
  | _ => True
  end.

Lemma rendered_text_matches t body : body_ok t body -> matches_text t (render t body) = true.
Proof.
  destruct t; simpl body_ok; intros Hok; try done;
    try (change (matches_text ?t (render ?t body))
           with (matches_marked_text (type_markers t).1 (type_markers t).2 ((type_markers t).1 ++ body ++ (type_markers t).2));
         apply marked_text_matches; [done..|by intros ? [= <-]]).
  - destruct Hok as (key & value & Hk & Hb). by apply (additional_context_matches key value).
  - destruct Hok as (source & text & Hs & ->). by apply internal_context_matches.
Qed.
