(* ===== verification/UserMessage.v ===== *)
(** * What the user sent, as an item and back ([protocol/src/models.rs], [core/src/event_mapping.rs])

    The input of a user (texts, images, audio, files, mentions) becomes the content
    of one message, in which local files are framed by labels; when the history is
    replayed or compacted, the input is read back from the message, and messages
    the harness wrote are told apart from it.

    Theorem: reading back returns what was sent, with the references it was
    prepared into. *)

From stdpp Require Import base list numbers option strings gmap.
From Stdlib Require Import Lia ZArith.
From S2P Require Import Prelude RustStr ByteStr ShellDetect Truncate ResponseItem ContextFragments.

(** ** Data *)

Record TextElement := mkTextElement { element_range : Z * Z; element_placeholder : option str }.

Inductive UserInput :=
| UserText (text : str) (text_elements : list TextElement)
| UserImage (image : ImageReference) (detail : option ImageDetail)
| UserLocalImage (path : str) (detail : option ImageDetail)
| UserAudio (audio_url : str)
| UserLocalAudio (path : str)
| UserSkill (name path : str)
| UserMention (name path : str).

Inductive PromptImageMode := ResizeToFit | OriginalMode.
Inductive LocalImagePreparation := Process | Defer.
Inductive LocalMediaKind := AudioMedia | ImageMedia.

(** The errors of the image decoder, by how they are reported: the others with
    their text, an image that cannot be decoded, a format that is not known. *)
Inductive ImageProcessingError :=
| OtherImageError (display : str)
| DecodeError (display : str)
| UnsupportedImageFormat (mime : str).

(** Files and the image decoder: reading a file, preparing an image as a data
    URL, and wrapping bytes in one. *)
Class LocalMedia (Bytes : Type) := {
  fs_read : str -> result Bytes str;
  load_for_prompt_bytes : str -> Bytes -> PromptImageMode -> result str ImageProcessingError;
  data_url_from_bytes : str -> Bytes -> str }.

(** ** Labels *)

Definition IMAGE_OPEN_TAG : str := lit "<image>".
Definition IMAGE_CLOSE_TAG : str := lit "</image>".
Definition LOCAL_IMAGE_OPEN_TAG_PREFIX : str := lit "<image name=".
Definition AUDIO_OPEN_TAG : str := lit "<audio>".
Definition AUDIO_CLOSE_TAG : str := lit "</audio>".
Definition LOCAL_AUDIO_OPEN_TAG_PREFIX : str := lit "<audio name=".
Definition LOCAL_OPEN_TAG_SUFFIX : str := lit ">".

Definition local_image_label_text (label_number : nat) : str := lit "[Image #" ++ show_nat label_number ++ lit "]".
Definition local_audio_label_text (label_number : nat) : str := lit "[Audio #" ++ show_nat label_number ++ lit "]".
Definition path_attribute (path : str) : str := lit " path=" ++ [QUOTE] ++ path ++ [QUOTE].

Definition local_image_open_tag_text_with_path (label_number : nat) (path : str) : str :=
  LOCAL_IMAGE_OPEN_TAG_PREFIX ++ local_image_label_text label_number ++ path_attribute path ++ LOCAL_OPEN_TAG_SUFFIX.
Definition local_audio_open_tag_text_with_path (label_number : nat) (path : str) : str :=
  LOCAL_AUDIO_OPEN_TAG_PREFIX ++ local_audio_label_text label_number ++ path_attribute path ++ LOCAL_OPEN_TAG_SUFFIX.

Definition is_local_image_open_tag_text (text : str) : bool :=
  is_some_and (strip_prefix LOCAL_IMAGE_OPEN_TAG_PREFIX text) (ends_with LOCAL_OPEN_TAG_SUFFIX).
Definition is_image_open_tag_text (text : str) : bool := str_eqb text IMAGE_OPEN_TAG.
Definition is_image_close_tag_text (text : str) : bool := str_eqb text IMAGE_CLOSE_TAG.
Definition is_local_image_close_tag_text (text : str) : bool := is_image_close_tag_text text.
Definition is_local_audio_open_tag_text (text : str) : bool :=
  is_some_and (strip_prefix LOCAL_AUDIO_OPEN_TAG_PREFIX text) (ends_with LOCAL_OPEN_TAG_SUFFIX).
Definition is_audio_open_tag_text (text : str) : bool := str_eqb text AUDIO_OPEN_TAG.
Definition is_audio_close_tag_text (text : str) : bool := str_eqb text AUDIO_CLOSE_TAG.
Definition is_local_audio_close_tag_text (text : str) : bool := is_audio_close_tag_text text.

(** ** From input to content *)

Definition BACKTICK : str := [96%N].
Definition DEFAULT_IMAGE_DETAIL : ImageDetail := DetailHigh.
Definition media_name (k : LocalMediaKind) : str := match k with AudioMedia => lit "audio" | ImageMedia => lit "image" end.

Definition local_media_error_placeholder (path error : str) (k : LocalMediaKind) : MessageContent :=
  MsgInputText (lit "Ore could not read the local " ++ media_name k ++ lit " at " ++ BACKTICK ++ path ++ BACKTICK ++ lit ": " ++ error).
Definition invalid_image_error_placeholder (path error : str) : MessageContent :=
  MsgInputText (lit "Image located at " ++ BACKTICK ++ path ++ BACKTICK ++ lit " is invalid: " ++ error).
Definition unsupported_image_error_placeholder (path mime : str) : MessageContent :=
  MsgInputText (lit "Ore cannot attach image at " ++ BACKTICK ++ path ++ BACKTICK ++ lit ": unsupported image " ++ BACKTICK ++ mime
                ++ BACKTICK ++ lit ".").
Definition unsupported_audio_error_placeholder (path : str) : MessageContent :=
  MsgInputText (lit "Ore cannot attach audio at " ++ BACKTICK ++ path ++ BACKTICK
                ++ lit ": unsupported audio format; use wav, mp3, m4a, webm, or ogg.").

Definition path_extension (path : str) : option str := mbind name_extension (file_name path).
Definition audio_mime_for_path (path : str) : option str :=
  match path_extension path with
  | None => None
  | Some extension =>
      if eq_ignore_ascii_case extension (lit "wav") then Some (lit "audio/wav")
      else if eq_ignore_ascii_case extension (lit "mp3") then Some (lit "audio/mpeg")
      else if eq_ignore_ascii_case extension (lit "m4a") then Some (lit "audio/mp4")
      else if eq_ignore_ascii_case extension (lit "webm") then Some (lit "audio/webm")
      else if eq_ignore_ascii_case extension (lit "ogg") then Some (lit "audio/ogg")
      else None
  end.

Definition local_image_content_items (path image_url : str) (label_number : option nat) (detail : ImageDetail) : list MessageContent :=
  match label_number with
  | Some n => [MsgInputText (local_image_open_tag_text_with_path n path)]
  | None => []
  end
  ++ [MsgInputImage (InlineImage image_url) (Some detail)]
  ++ match label_number with Some _ => [MsgInputText IMAGE_CLOSE_TAG] | None => [] end.

Section Sending.
Context {Bytes : Type} `{LocalMedia Bytes}.

Definition local_audio_content_items (path : str) (file_bytes : Bytes) (label_number : nat) : list MessageContent :=
  match audio_mime_for_path path with
  | None => [unsupported_audio_error_placeholder path]
  | Some mime =>
      [MsgInputText (local_audio_open_tag_text_with_path label_number path);
       MsgInputAudio (data_url_from_bytes mime file_bytes);
       MsgInputText AUDIO_CLOSE_TAG]
  end.

Definition local_image_content_items_with_label_number (path : str) (file_bytes : Bytes) (label_number : option nat)
    (detail : ImageDetail) : list MessageContent :=
  let mode := match detail with DetailOriginal => OriginalMode | DetailAuto | DetailLow | DetailHigh => ResizeToFit end in
  match load_for_prompt_bytes path file_bytes mode with
  | Ok image_url => local_image_content_items path image_url label_number detail
  | Err (OtherImageError e) => [local_media_error_placeholder path e ImageMedia]
  | Err (DecodeError e) => [invalid_image_error_placeholder path e]
  | Err (UnsupportedImageFormat mime) => [unsupported_image_error_placeholder path mime]
  end.

(** The content of one input; the numbers count the images and the audio. *)
Definition generated (preparation : LocalImagePreparation) (image_index audio_index : nat) (input : UserInput) : list MessageContent :=
  match input with
  | UserText text _ => [MsgInputText text]
  | UserImage image detail => [MsgInputImage image (Some (unwrap_or detail DEFAULT_IMAGE_DETAIL))]
  | UserLocalImage path detail =>
      let detail := unwrap_or detail DEFAULT_IMAGE_DETAIL in
      match fs_read path with
      | Ok file_bytes =>
          match preparation with
          | Process => local_image_content_items_with_label_number path file_bytes (Some image_index) detail
          | Defer =>
              local_image_content_items path (data_url_from_bytes (lit "application/octet-stream") file_bytes) (Some image_index) detail
          end
      | Err e => [local_media_error_placeholder path e ImageMedia]
      end
  | UserAudio audio_url => [MsgInputAudio audio_url]
  | UserLocalAudio path =>
      match fs_read path with
      | Ok file_bytes => local_audio_content_items path file_bytes audio_index
      | Err e => [local_media_error_placeholder path e AudioMedia]
      end
  | UserSkill _ _ | UserMention _ _ => []
  end.

Definition counts_image (input : UserInput) : bool := match input with UserImage _ _ | UserLocalImage _ _ => true | _ => false end.
Definition counts_audio (input : UserInput) : bool := match input with UserAudio _ | UserLocalAudio _ => true | _ => false end.
Definition is_image_content (c : MessageContent) : bool := match c with MsgInputImage _ _ => true | _ => false end.
Definition is_audio_content (c : MessageContent) : bool := match c with MsgInputAudio _ => true | _ => false end.

(** Where the images of an input went, counted from the start of the message. *)
Fixpoint record_slots (input_index position : nat) (items : list MessageContent) (slots : gmap nat nat) : gmap nat nat :=
  match items with
  | [] => slots
  | c :: items => record_slots input_index (S position) items (if is_image_content c then <[input_index := position]> slots else slots)
  end.

Fixpoint user_input_loop (preparation : LocalImagePreparation) (input_index image_index audio_index : nat) (items : list UserInput)
    (content : list MessageContent) (slots : gmap nat nat) : list MessageContent * gmap nat nat :=
  match items with
  | [] => (content, slots)
  | input :: items =>
      let image_index := if counts_image input then S image_index else image_index in
      let audio_index := if counts_audio input then S audio_index else audio_index in
      let new := generated preparation image_index audio_index input in
      user_input_loop preparation (S input_index) image_index audio_index items (content ++ new)
        (record_slots input_index (length content) new slots)
  end.

Definition from_user_input (items : list UserInput) (preparation : LocalImagePreparation) : list MessageContent * gmap nat nat :=
  user_input_loop preparation 0 0 0 items [] ∅.

Definition user_kind (c : MessageContent) : str :=
  match c with
  | MsgInputText _ | MsgOutputText _ => lit "user.text"
  | MsgInputImage _ _ => lit "user.image"
  | MsgInputAudio _ => lit "user.audio"
  end.

Definition response_item_from_user_input {Json} (input : list UserInput) : ResponseItem Json :=
  let content := fst (from_user_input input Defer) in
  Message None (lit "user") content None (Some (set_kinds no_passthrough (List.map user_kind content))).
End Sending.

(** ** From content to input *)

Section Reading.
Context `{Fragments}.

(** A label stands directly before or after the medium it is about. *)
Definition is_label (previous : option MessageContent) (text : str) (next : option MessageContent) : bool :=
  ((is_local_image_open_tag_text text || is_image_open_tag_text text) && is_some_and next is_image_content)
  || ((is_local_image_close_tag_text text || is_image_close_tag_text text) && is_some_and previous is_image_content)
  || ((is_local_audio_open_tag_text text || is_audio_open_tag_text text) && is_some_and next is_audio_content)
  || ((is_local_audio_close_tag_text text || is_audio_close_tag_text text) && is_some_and previous is_audio_content).

Fixpoint read_content (previous : option MessageContent) (message : list MessageContent) : list UserInput :=
  match message with
  | [] => []
  | c :: rest =>
      match c with
      | MsgInputText text => if is_label previous text (head rest) then [] else [UserText text []]
      | MsgInputImage image detail => [UserImage image detail]
      | MsgInputAudio audio_url => [UserAudio audio_url]
      | MsgOutputText _ => []
      end ++ read_content (Some c) rest
  end.

Definition parse_user_message (message : list MessageContent) : option (list UserInput) :=
  if is_contextual_user_message_content message then None else Some (read_content None message).

Fixpoint hook_fragments (content : list MessageContent) : option (list (str * str)) :=
  match content with
  | [] => Some []
  | MsgInputText text :: content =>
      match parse_hook_prompt_fragment text with
      | Some fragment => option_map (cons fragment) (hook_fragments content)
      | None => if is_standard_contextual_user_text text then hook_fragments content else None
      end
  | _ :: _ => None
  end.

Definition parse_visible_hook_prompt_message (content : list MessageContent) : option (list (str * str)) :=
  match hook_fragments content with Some [] | None => None | Some fragments => Some fragments end.

(** The [UserMessage] case of [parse_turn_item]. *)
Definition parse_user_turn_item {Json} (i : ResponseItem Json) : option (list UserInput) :=
  match i with
  | Message _ role content _ _ =>
      if str_eqb role (lit "user") then
        match parse_visible_hook_prompt_message content with
        | Some _ => None
        | None => parse_user_message content
        end
      else None
  | _ => None
  end.

(** [UserMessageItem::message]. *)
Definition input_text (i : UserInput) : str := match i with UserText text _ => text | _ => [] end.
Definition user_message_text (content : list UserInput) : str := concat (List.map input_text content).
End Reading.

(** ** Reading back what was sent *)

(** A text that cannot be taken for a label. *)
Definition plain_text (text : str) : bool :=
  negb (is_local_image_open_tag_text text || is_image_open_tag_text text || is_image_close_tag_text text
        || is_local_audio_open_tag_text text || is_audio_open_tag_text text || is_audio_close_tag_text text).

Lemma plain_text_no_label previous text next : plain_text text = true -> is_label previous text next = false.
Proof.
  unfold plain_text, is_label, is_local_image_close_tag_text, is_local_audio_close_tag_text. intros Hp. bool_to_prop.
  repeat match goal with E : ?b = false |- context [?b] => rewrite E end. done.
Qed.

(** Labels start with an angle bracket. *)
Lemma plain_text_head c text : c <> 60%N -> plain_text (c :: text) = true.
Proof.
  intros Hc. assert (forall p, strip_prefix (60%N :: p) (c :: text) = None) as Hp.
  { intros p. cbn [strip_prefix]. by rewrite (proj2 (N.eqb_neq 60 c)). }
  assert (forall p, str_eqb (c :: text) (60%N :: p) = false) as He by (intros p; apply str_eqb_false; congruence).
  apply negb_true_iff. rewrite !orb_false_iff. split_and!; try apply He.
  - unfold is_local_image_open_tag_text. by erewrite (Hp _ : strip_prefix LOCAL_IMAGE_OPEN_TAG_PREFIX _ = _).
  - unfold is_local_audio_open_tag_text. by erewrite (Hp _ : strip_prefix LOCAL_AUDIO_OPEN_TAG_PREFIX _ = _).
Qed.

Section RoundTrip.
Context {Bytes : Type} `{LocalMedia Bytes} `{Fragments}.

Definition notice (c : MessageContent) : list UserInput := match content_text c with Some text => [UserText text []] | None => [] end.

(** An input as it is sent: files are replaced by their content, or by a notice. *)
Definition prepared (preparation : LocalImagePreparation) (input : UserInput) : list UserInput :=
  match input with
  | UserText text _ => [UserText text []]
  | UserImage image detail => [UserImage image (Some (unwrap_or detail DEFAULT_IMAGE_DETAIL))]
  | UserLocalImage path detail =>
      let detail := unwrap_or detail DEFAULT_IMAGE_DETAIL in
      let image url := [UserImage (InlineImage url) (Some detail)] in
      match fs_read path, preparation with
      | Err e, _ => notice (local_media_error_placeholder path e ImageMedia)
      | Ok file_bytes, Defer => image (data_url_from_bytes (lit "application/octet-stream") file_bytes)
      | Ok file_bytes, Process =>
          match load_for_prompt_bytes path file_bytes (match detail with DetailOriginal => OriginalMode | _ => ResizeToFit end) with
          | Ok url => image url
          | Err (OtherImageError e) => notice (local_media_error_placeholder path e ImageMedia)
          | Err (DecodeError e) => notice (invalid_image_error_placeholder path e)
          | Err (UnsupportedImageFormat mime) => notice (unsupported_image_error_placeholder path mime)
          end
      end
  | UserAudio audio_url => [UserAudio audio_url]
  | UserLocalAudio path =>
      match fs_read path, audio_mime_for_path path with
      | Err e, _ => notice (local_media_error_placeholder path e AudioMedia)
      | Ok _, None => notice (unsupported_audio_error_placeholder path)
      | Ok file_bytes, Some mime => [UserAudio (data_url_from_bytes mime file_bytes)]
      end
  | UserSkill _ _ | UserMention _ _ => []
  end.

Lemma image_open_label n path : is_local_image_open_tag_text (local_image_open_tag_text_with_path n path) = true.
Proof.
  unfold is_local_image_open_tag_text, local_image_open_tag_text_with_path. rewrite strip_prefix_app. cbn [is_some_and].
  apply ends_with_spec. exists (local_image_label_text n ++ path_attribute path). by rewrite <- !app_assoc.
Qed.

Lemma audio_open_label n path : is_local_audio_open_tag_text (local_audio_open_tag_text_with_path n path) = true.
Proof.
  unfold is_local_audio_open_tag_text, local_audio_open_tag_text_with_path. rewrite strip_prefix_app. cbn [is_some_and].
  apply ends_with_spec. exists (local_audio_label_text n ++ path_attribute path). by rewrite <- !app_assoc.
Qed.

(** A framed image, and framed audio, read as the medium alone. *)
Lemma read_framed_image previous path url n detail rest :
  read_content previous (local_image_content_items path url (Some n) detail ++ rest)
  = UserImage (InlineImage url) (Some detail) :: read_content (Some (MsgInputText IMAGE_CLOSE_TAG)) rest.
Proof.
  unfold local_image_content_items. cbn -[is_label local_image_open_tag_text_with_path IMAGE_CLOSE_TAG].
  replace (is_label _ _ (Some _)) with true; [done|].
  unfold is_label. by rewrite image_open_label.
Qed.

Lemma read_framed_audio previous n path url rest :
  read_content previous ([MsgInputText (local_audio_open_tag_text_with_path n path); MsgInputAudio url; MsgInputText AUDIO_CLOSE_TAG] ++ rest)
  = UserAudio url :: read_content (Some (MsgInputText AUDIO_CLOSE_TAG)) rest.
Proof.
  cbn -[is_label local_audio_open_tag_text_with_path AUDIO_CLOSE_TAG].
  replace (is_label previous _ (Some _)) with true; [done|].
  unfold is_label. rewrite audio_open_label. cbn [orb andb is_some_and is_audio_content]. by rewrite orb_true_r.
Qed.

Lemma read_text previous text rest : plain_text text = true ->
  read_content previous (MsgInputText text :: rest) = UserText text [] :: read_content (Some (MsgInputText text)) rest.
Proof. intros Hp. simpl. by rewrite plain_text_no_label. Qed.

Definition input_plain (input : UserInput) : Prop := match input with UserText text _ => plain_text text = true | _ => True end.

Lemma read_generated preparation n m input previous rest : input_plain input ->
  exists previous', read_content previous (generated preparation n m input ++ rest)
                    = prepared preparation input ++ read_content previous' rest.
Proof.
  intros Hp. destruct input as [text els|image d|path d|url|path|? ?|? ?]; simpl; try by eexists.
  - eexists. by rewrite (plain_text_no_label _ _ _ Hp).
  - destruct (fs_read path) as [bytes|e]; [|eexists; by apply read_text, plain_text_head].
    destruct preparation; [|eexists; apply read_framed_image].
    unfold local_image_content_items_with_label_number.
    destruct load_for_prompt_bytes as [url|[e|e|mime]]; [eexists; apply read_framed_image|..];
      eexists; by apply read_text, plain_text_head.
  - destruct (fs_read path) as [bytes|e]; [|eexists; by apply read_text, plain_text_head].
    unfold local_audio_content_items. destruct audio_mime_for_path; [eexists; apply read_framed_audio|].
    eexists; by apply read_text, plain_text_head.
Qed.

Lemma user_input_loop_content preparation items : forall i n m content slots,
  exists new, fst (user_input_loop preparation i n m items content slots) = content ++ new
  /\ (Forall input_plain items -> forall previous, read_content previous new = concat (List.map (prepared preparation) items)).
Proof.
  induction items as [|input items IH]; intros i n m content slots; simpl.
  - exists []. by rewrite app_nil_r.
  - edestruct IH as (new & -> & Hnew). eexists. rewrite <- app_assoc. split; [done|].
    intros [Hi Hr]%Forall_cons previous.
    edestruct read_generated as [previous' ->]; [done|]. by rewrite Hnew.
Qed.

(** C27. What a user sends is what is read back from the history: every text, image
    and sound in order, local files as what they were prepared into, labels gone,
    provided that no text looks like a label and the message is not one of those
    the harness writes. *)
Theorem user_input_round_trip items preparation content slots :
  from_user_input items preparation = (content, slots) ->
  is_contextual_user_message_content content = false -> Forall input_plain items ->
  parse_user_message content = Some (concat (List.map (prepared preparation) items)).
Proof.
  unfold from_user_input, parse_user_message. intros E -> Hp.
  destruct (user_input_loop_content preparation items 0 0 0 [] ∅) as (new & Hc & Hr).
  rewrite E in Hc. simpl in Hc. subst. by rewrite (Hr Hp).
Qed.

(** *** Where the images are *)

Definition slots_ok (content : list MessageContent) (bound : nat) (slots : gmap nat nat) : Prop :=
  forall i p, slots !! i = Some p -> (i < bound)%nat /\ is_some_and (content !! p) is_image_content = true.

Lemma record_slots_ok i new : forall content slots,
  slots_ok content (S i) slots -> slots_ok (content ++ new) (S i) (record_slots i (length content) new slots).
Proof.
  induction new as [|c new IH]; intros content slots Hs; simpl.
  - intros j p Hj. rewrite app_nil_r. by apply Hs.
  - replace (content ++ c :: new) with ((content ++ [c]) ++ new) by by rewrite <- app_assoc.
    replace (S (length content)) with (length (content ++ [c])) by (rewrite length_app; simpl; lia).
    apply IH. intros j p Hj.
    assert (slots !! j = Some p \/ j = i /\ p = length content /\ is_image_content c = true) as [Ho|(-> & -> & Hc)].
    { destruct (is_image_content c); [|by left]. apply lookup_insert_Some in Hj as [[<- <-]|[_ Hj]]; auto. }
    + destruct (Hs _ _ Ho) as [Hb Hp]. split; [done|]. destruct (content !! p) eqn:E; [|done].
      by rewrite (lookup_app_l_Some _ _ _ _ E).
    + split; [lia|]. by rewrite list_lookup_middle.
Qed.

Lemma user_input_loop_slots preparation items : forall i n m content slots, slots_ok content i slots ->
  slots_ok (fst (user_input_loop preparation i n m items content slots)) (i + length items)
    (snd (user_input_loop preparation i n m items content slots)).
Proof.
  induction items as [|input items IH]; intros i n m content slots Hs; simpl; [by rewrite Nat.add_0_r|].
  rewrite Nat.add_succ_r. apply IH, record_slots_ok. intros j p Hj. destruct (Hs _ _ Hj). split; [lia|done].
Qed.

(** The slots recorded for images are slots of images. *)
Lemma image_slots_hold_images items preparation content slots i p :
  from_user_input items preparation = (content, slots) -> slots !! i = Some p ->
  (i < length items)%nat /\ exists image detail, content !! p = Some (MsgInputImage image detail).
Proof.
  unfold from_user_input. intros E Hi.
  pose proof (user_input_loop_slots preparation items 0 0 0 [] ∅ ltac:(by intros ??)) as Hs.
  rewrite E in Hs. destruct (Hs _ _ Hi) as [Hb Hp]. simpl in Hp. split; [done|].
  destruct (content !! p) as [[]|]; simpl in Hp; try done. eauto.
Qed.
End RoundTrip.

(** ** On a message with a picture *)

#[local] Instance demo_media : LocalMedia unit := {
  fs_read path := if str_eqb path (lit "/tmp/a.png") then Ok tt else Err (lit "not found");
  load_for_prompt_bytes _ _ _ := Err (DecodeError (lit "bad header"));
  data_url_from_bytes mime _ := lit "data:" ++ mime }.
#[local] Instance no_fragments : Fragments := { from_xml_str _ := None; is_inter_agent_json _ := false }.

Definition demo_input : list UserInput :=
  [UserText (lit "look at ") []; UserLocalImage (lit "/tmp/a.png") None; UserSkill (lit "s") (lit "/s");
   UserText (lit "</image>") []; UserLocalAudio (lit "/tmp/b.wav")].

Example demo_message_text :
  option_map user_message_text (parse_user_message (fst (from_user_input demo_input Defer)))
  = Some (lit "look at </image>Ore could not read the local audio at " ++ BACKTICK ++ lit "/tmp/b.wav" ++ BACKTICK ++ lit ": not found").
Proof. vm_compute. reflexivity. Qed.

(** Why texts that look like labels are excluded: next to an image that is not
    framed, such a text is taken for the frame. *)
Example label_text_is_lost :
  option_map user_message_text
    (parse_user_message (fst (from_user_input [UserImage (FileImage (lit "f")) None; UserText (lit "</image>") []] Defer)))
  = Some [].
Proof. vm_compute. reflexivity. Qed.

Lemma user_input_round_trip_witness :
  parse_user_message (fst (from_user_input (take 3 demo_input) Process)) = Some (concat (List.map (prepared Process) (take 3 demo_input))).
Proof.
  apply (user_input_round_trip (take 3 demo_input) Process _ (snd (from_user_input (take 3 demo_input) Process)));
    [vm_compute; reflexivity|vm_compute; reflexivity|].
  repeat constructor.
Defined.
