(* ===== verification/ContextManager.v ===== *)
(** * The history of a conversation ([core/src/context_manager/history.rs])

    Recording items, estimating what they cost, the usage the server reports,
    rolling back turns, and the loop of [core/src/compact.rs] that shortens a history
    until its compaction prompt fits.

    The evidence kept for reviews (retained context, review transcripts) and the
    snapshots of world state are left out.  Sizes of decoded images, audio and
    serialized JSON come from [Measures].

    The theorems: estimates are exact sums capped at the largest [i64]; only items
    for the model are recorded, at the end; a rollback keeps what came before the
    first dropped turn; the compaction loop stops, and every prompt it sends is
    paired and ends with the request to compact. *)

From stdpp Require Import base list numbers option strings gmap sets.
From Stdlib Require Import Lia ZArith.
From S2P Require Import Prelude RustStr RustInt ByteStr Truncate GoalAccounting ResponseItem Normalize ContextFragments.
Local Open Scope Z_scope.

(** Media decoding (base64, image and audio libraries) and JSON writing. *)
Class Measures (Json : Type) := {
  decoded_image_size : str -> option (Z * Z);
  estimate_audio_token_count : str -> Z;
  serialized_json_bytes : Json -> option Z;
  serialized_list_bytes : list Json -> option Z }.

(** The sizes are those of [u32] and [usize]. *)
Class MeasuresLaws (Json : Type) `{Measures Json} := {
  image_size_range payload w h : decoded_image_size payload = Some (w, h) -> 0 <= w < 2 ^ 32 /\ 0 <= h < 2 ^ 32;
  audio_range url : 0 <= estimate_audio_token_count url <= usize_max;
  json_range j n : serialized_json_bytes j = Some n -> 0 <= n <= usize_max;
  json_list_range l n : serialized_list_bytes l = Some n -> 0 <= n <= usize_max }.

Section Estimates.
Context {Json : Type} `{Measures Json}.
Notation ResponseItem := (ResponseItem Json).
Notation Envelope := (ResponseItemEnvelope Json).

Definition to_i64 (n : Z) : Z := unwrap_or (i64_try_from n) i64_max.
Definition text_bytes (text : str) : Z := to_i64 (byte_len text).
Definition json_content_bytes (n : option Z) : Z := match n with Some len => to_i64 len | None => 0 end.

Definition estimate_reasoning_length (encoded_len : Z) : Z :=
  usize_saturating_sub (usize_saturating_mul encoded_len 3 / 4) 650.
Definition estimate_encrypted_function_output_length (encoded_len : Z) : Z := (usize_saturating_mul encoded_len 9 + 15) / 16.

Definition RESIZED_IMAGE_BYTES_ESTIMATE : Z := 7373.
Definition ORIGINAL_IMAGE_PATCH_SIZE : Z := 32.
Definition ORIGINAL_IMAGE_MAX_PATCHES : Z := 10000.

Definition parse_base64_image_data_url (url : str) : option str :=
  if negb (prefix_ignore_case (lit "data:") url) then None
  else
    match split_once 44%N url with
    | None => None
    | Some (metadata, payload) =>
        match split 59%N (drop 5 metadata) with
        | [] => None
        | mime_type :: parts =>
            if negb (prefix_ignore_case (lit "image/") mime_type) then None
            else if negb (existsb (fun part => eq_ignore_ascii_case part (lit "base64")) parts) then None
            else Some payload
        end
    end.

(** The estimate for an image whose dimensions are read; results are cached by
    the digest of the URL. *)
Definition estimate_original_image_bytes (image_url : str) : option Z :=
  match parse_base64_image_data_url image_url with
  | None => None
  | Some payload =>
      match decoded_image_size payload with
      | None => None
      | Some (width, height) =>
          let patches_wide := i64_saturating_add width (i64_saturating_sub ORIGINAL_IMAGE_PATCH_SIZE 1) / ORIGINAL_IMAGE_PATCH_SIZE in
          let patches_high := i64_saturating_add height (i64_saturating_sub ORIGINAL_IMAGE_PATCH_SIZE 1) / ORIGINAL_IMAGE_PATCH_SIZE in
          let patch_count := Z.min (i64_saturating_mul patches_wide patches_high) ORIGINAL_IMAGE_MAX_PATCHES in
          Some (to_i64 (approx_bytes_for_tokens patch_count))
      end
  end.

Definition estimate_image_bytes (image_url : str) (detail : option ImageDetail) : Z :=
  match detail with
  | Some DetailOriginal => unwrap_or (estimate_original_image_bytes image_url) RESIZED_IMAGE_BYTES_ESTIMATE
  | _ => RESIZED_IMAGE_BYTES_ESTIMATE
  end.

Definition estimate_image_reference_bytes (image : ImageReference) (detail : option ImageDetail) : Z :=
  match image with
  | InlineImage image_url => estimate_image_bytes image_url detail
  | FileImage _ =>
      if bool_decide (detail = Some DetailOriginal) then to_i64 (approx_bytes_for_tokens ORIGINAL_IMAGE_MAX_PATCHES)
      else RESIZED_IMAGE_BYTES_ESTIMATE
  end.

Definition estimate_audio_bytes (audio_url : str) : Z := to_i64 (approx_bytes_for_tokens (estimate_audio_token_count audio_url)).

Definition sum_saturating (start : Z) (costs : list Z) : Z := fold_left i64_saturating_add costs start.

Definition output_part_bytes (part : FunctionCallOutputContentItem) : Z :=
  match part with
  | InputText text => text_bytes text
  | InputImage (image, detail) => estimate_image_reference_bytes image detail
  | InputAudio audio_url => estimate_audio_bytes audio_url
  | EncryptedContent c => to_i64 (estimate_encrypted_function_output_length (byte_len c))
  end.
Definition estimate_function_output_bytes (output : FunctionCallOutputBody) : Z :=
  match output with
  | BodyText text => text_bytes text
  | BodyItems items => sum_saturating 0 (List.map output_part_bytes items)
  end.

Definition message_part_bytes (part : MessageContent) : Z :=
  match part with
  | MsgInputText text | MsgOutputText text => text_bytes text
  | MsgInputImage image detail => estimate_image_reference_bytes image detail
  | MsgInputAudio audio_url => estimate_audio_bytes audio_url
  end.
Definition agent_part_bytes (part : AgentMessageInputContent) : Z :=
  match part with
  | AgentText text => text_bytes text
  | AgentEncrypted c => to_i64 (estimate_encrypted_function_output_length (byte_len c))
  end.

Definition DEFAULT_FUNCTION_NAMESPACE : str := lit "functions".

Definition estimate_response_item_model_visible_bytes (i : ResponseItem) : Z :=
  match i with
  | Message _ _ content _ _ => sum_saturating 0 (List.map message_part_bytes content)
  | AgentMessage _ author recipient content _ =>
      sum_saturating (i64_saturating_add (text_bytes author) (text_bytes recipient)) (List.map agent_part_bytes content)
  | Reasoning _ _ _ (Some content) _ | Compaction _ content _ | ContextCompaction _ (Some content) _ =>
      to_i64 (estimate_reasoning_length (byte_len content))
  | FunctionCall _ name namespace input _ _ _ | CustomToolCall _ _ _ name namespace input _ =>
      i64_saturating_add (i64_saturating_add (text_bytes name) (text_bytes (unwrap_or namespace DEFAULT_FUNCTION_NAMESPACE))) (text_bytes input)
  | FunctionCallOutput _ call_id name namespace output _ =>
      i64_saturating_add
        (i64_saturating_add
           (i64_saturating_add (estimate_function_output_bytes (body output)) (text_bytes (unwrap_or call_id [])))
           (text_bytes (unwrap_or name [])))
        (text_bytes (unwrap_or namespace []))
  | CustomToolCallOutput _ call_id name output _ =>
      i64_saturating_add (i64_saturating_add (estimate_function_output_bytes (body output)) (text_bytes call_id))
        (text_bytes (unwrap_or name []))
  | AdditionalTools _ _ tools => json_content_bytes (serialized_list_bytes tools)
  | ToolSearchCall _ _ _ _ arguments _ => json_content_bytes (serialized_json_bytes arguments)
  | ToolSearchOutput _ _ _ _ tools _ => json_content_bytes (serialized_list_bytes tools)
  | LocalShellCall _ _ _ action _ => json_content_bytes (serialized_json_bytes action)
  | WebSearchCall _ _ action _ => match action with Some a => json_content_bytes (serialized_json_bytes a) | None => 0 end
  | ImageGenerationCall _ _ revised_prompt result _ =>
      i64_saturating_add (text_bytes (unwrap_or revised_prompt [])) (if is_nil result then 0 else RESIZED_IMAGE_BYTES_ESTIMATE)
  | ContextCompaction _ None _ => 0
  | Reasoning _ _ _ None _ => 0
  | ConfigurationUpdate _ | CompactionTrigger | OtherItem => 0
  end.

Definition estimate_item_token_count (i : ResponseItem) : Z :=
  approx_tokens_from_byte_count_i64 (estimate_response_item_model_visible_bytes i).

Definition estimate_token_count_with_base_instructions (items : list Envelope) (base_instructions : str) : Z :=
  i64_saturating_add (to_i64 (approx_token_count base_instructions))
    (sum_saturating 0 (List.map (fun e => estimate_item_token_count (item e)) items)).
End Estimates.

(** ** Reported usage ([TokenUsage], [TokenUsageInfo]) *)

Record TokenUsageInfo := mkUsageInfo {
  total_token_usage : TokenUsage;
  last_token_usage : TokenUsage;
  model_context_window : option Z }.

Definition default_usage : TokenUsage := mkUsage 0 0 0 0 0 0 None.
Definition with_total (n : Z) : TokenUsage := mkUsage 0 0 0 0 0 n None.

(** [+=] and [-] wrap in a release build. *)
Definition add_assign (a b : TokenUsage) : TokenUsage :=
  mkUsage (i64_wrapping_add (input_tokens a) (input_tokens b))
    (i64_wrapping_add (cached_input_tokens a) (cached_input_tokens b))
    (i64_wrapping_add (cache_write_input_tokens a) (cache_write_input_tokens b))
    (i64_wrapping_add (output_tokens a) (output_tokens b))
    (i64_wrapping_add (reasoning_output_tokens a) (reasoning_output_tokens b))
    (i64_wrapping_add (total_tokens a) (total_tokens b))
    (codex_rollout_budget_units a).

Definition append_last_usage (info : TokenUsageInfo) (last : TokenUsage) : TokenUsageInfo :=
  mkUsageInfo (add_assign (total_token_usage info) last) last (model_context_window info).

Definition new_or_append (info : option TokenUsageInfo) (last : option TokenUsage) (window : option Z) : option TokenUsageInfo :=
  match info, last with
  | None, None => None
  | _, _ =>
      let i := unwrap_or info (mkUsageInfo default_usage default_usage window) in
      let i := match last with Some last => append_last_usage i last | None => i end in
      Some (match window with Some w => mkUsageInfo (total_token_usage i) (last_token_usage i) (Some w) | None => i end)
  end.

Definition fill_to_context_window (info : TokenUsageInfo) (context_window : Z) : TokenUsageInfo :=
  let previous_total := total_tokens (total_token_usage info) in
  let delta := Z.max (i64_wrapping_add context_window (- previous_total)) 0 in
  mkUsageInfo (with_total context_window) (with_total delta) (Some context_window).

Definition full_context_window (context_window : Z) : TokenUsageInfo :=
  fill_to_context_window (mkUsageInfo default_usage default_usage (Some context_window)) context_window.

(** ** The manager *)

Section Manager.
Context {Json : Type} `{Measures Json} `{Fragments}.
Notation ResponseItem := (ResponseItem Json).
Notation Envelope := (ResponseItemEnvelope Json).

(** The fields of the history that do not serve reviews. *)
Record ContextManager := mkManager {
  items : list Envelope;
  history_version : Z;
  reset_version : Z;
  user_message_revision : Z;
  token_info : option TokenUsageInfo;
  reference_context_item : option Json;
  world_state_baseline : option Json }.

Definition new_manager : ContextManager := mkManager [] 0 0 0 (new_or_append None None None) None None.

Definition set_items (m : ContextManager) (l : list Envelope) : ContextManager :=
  mkManager l (history_version m) (reset_version m) (user_message_revision m) (token_info m)
    (reference_context_item m) (world_state_baseline m).
Definition set_token_info (m : ContextManager) (i : option TokenUsageInfo) : ContextManager :=
  mkManager (items m) (history_version m) (reset_version m) (user_message_revision m) i
    (reference_context_item m) (world_state_baseline m).
Definition clear_baseline (m : ContextManager) : ContextManager :=
  mkManager (items m) (history_version m) (reset_version m) (user_message_revision m) (token_info m)
    (reference_context_item m) None.

Definition is_role (role : string) (i : ResponseItem) : bool :=
  match i with Message _ r _ _ _ => str_eqb r (lit role) | _ => false end.

Definition is_api_message (message : ResponseItem) (metadata : option (CodexHarnessMetadata Json)) : bool :=
  match message with
  | Message _ role _ _ _ => negb (str_eqb role (lit "system"))
  | ConfigurationUpdate _ => is_some_and metadata harness_authored_configuration
  | CompactionTrigger | OtherItem => false
  | _ => true
  end.

(** [with_serialization_allowance] scales a budget by a float. *)
Variable serialization_allowance : TruncationPolicy -> TruncationPolicy.

Definition truncate_output (metadata : option (CodexHarnessMetadata Json)) (policy : TruncationPolicy)
    (output : FunctionCallOutputPayload) : option FunctionCallOutputPayload :=
  let policy := match metadata with
                | Some m => match history_truncation_token_limit m with Some n => Tokens n | None => serialization_allowance policy end
                | None => serialization_allowance policy
                end in
  option_map (fun b => mkPayloadOut b (success output))
    (truncate_function_output_payload estimate_audio_token_count (body output) policy).

(** The items part of [record_item_with_metadata]; [None]: a slice panicked. *)
Definition record_item_with_metadata (m : ContextManager) (i : ResponseItem) (metadata : option (CodexHarnessMetadata Json))
    (policy : TruncationPolicy) : option ContextManager :=
  if negb (is_api_message i metadata) then Some m
  else
    let processed :=
      match i with
      | FunctionCallOutput id call_id name namespace output meta =>
          option_map (fun o => FunctionCallOutput id call_id name namespace o meta) (truncate_output metadata policy output)
      | CustomToolCallOutput id call_id name output meta =>
          option_map (fun o => CustomToolCallOutput id call_id name o meta) (truncate_output metadata policy output)
      | _ => Some i
      end in
    option_map (fun i => set_items m (items m ++ [mkEnvelope i metadata])) processed.

Fixpoint record_items (m : ContextManager) (l : list ResponseItem) (policy : TruncationPolicy) : option ContextManager :=
  match l with
  | [] => Some m
  | i :: l => match record_item_with_metadata m i None policy with Some m => record_items m l policy | None => None end
  end.

Definition manager_remove_first_item (m : ContextManager) : ContextManager :=
  match items m with
  | [] => m
  | _ => clear_baseline (set_items m (remove_first_item (items m)))
  end.

Definition u64_saturating_succ (n : Z) : Z := Z.min u64_max (n + 1).

Definition replace_annotated (m : ContextManager) (l : list Envelope) : ContextManager :=
  let version := u64_saturating_succ (history_version m) in
  mkManager l version version (u64_saturating_succ (user_message_revision m)) (token_info m) (reference_context_item m) None.

(** *** Usage *)

Definition update_token_info (m : ContextManager) (usage : TokenUsage) (window : option Z) : ContextManager :=
  set_token_info m (new_or_append (token_info m) (Some usage) window).

Definition set_token_usage_full (m : ContextManager) (context_window : Z) : ContextManager :=
  set_token_info m (Some match token_info m with
                         | Some info => fill_to_context_window info context_window
                         | None => full_context_window context_window
                         end).

Definition is_model_generated_item (i : ResponseItem) : bool :=
  match i with
  | Message _ role _ _ _ => str_eqb role (lit "assistant")
  | Reasoning _ _ _ _ _ | FunctionCall _ _ _ _ _ _ _ | ToolSearchCall _ _ _ _ _ _ | WebSearchCall _ _ _ _
  | ImageGenerationCall _ _ _ _ _ | CustomToolCall _ _ _ _ _ _ _ | LocalShellCall _ _ _ _ _
  | Compaction _ _ _ | ContextCompaction _ _ _ => true
  | _ => false
  end.

Definition is_user_turn_boundary (i : ResponseItem) : bool :=
  match i with
  | AgentMessage _ _ _ _ _ => true
  | Message _ role content _ _ =>
      (str_eqb role (lit "user") && negb (is_contextual_user_message_content content)
       && negb (existsb (fun c => is_some_and (content_text c) is_summary_message) content))
      || (str_eqb role (lit "assistant") && is_inter_agent_instruction_content content)
  | _ => false
  end.

(** [rposition]. *)
Fixpoint rposition_from (p : ResponseItem -> bool) (idx : nat) (l : list Envelope) : option nat :=
  match l with
  | [] => None
  | e :: l => match rposition_from p (S idx) l with
              | Some i => Some i
              | None => if p (item e) then Some idx else None
              end
  end.
Definition rposition (p : ResponseItem -> bool) (l : list Envelope) : option nat := rposition_from p 0 l.

Definition is_encrypted_reasoning (i : ResponseItem) : bool :=
  match i with Reasoning _ _ _ (Some _) _ => true | _ => false end.

Definition get_non_last_reasoning_items_tokens (l : list Envelope) : Z :=
  match rposition is_user_turn_boundary l with
  | None => 0
  | Some last_user_index =>
      sum_saturating 0 (List.map (fun e => estimate_item_token_count (item e))
                          (List.filter (fun e => is_encrypted_reasoning (item e)) (take last_user_index l)))
  end.

Definition items_after_last_model_generated_item (l : list Envelope) : list Envelope :=
  drop (match rposition is_model_generated_item l with None => length l | Some index => S index end) l.

Definition estimated_tokens_after_last_model_generated_item (l : list Envelope) : Z :=
  sum_saturating 0 (List.map (fun e => estimate_item_token_count (item e)) (items_after_last_model_generated_item l)).

Definition get_total_token_usage (m : ContextManager) (server_reasoning_included : bool) : Z :=
  let last_tokens := match token_info m with Some info => total_tokens (last_token_usage info) | None => 0 end in
  let after := estimated_tokens_after_last_model_generated_item (items m) in
  if server_reasoning_included then i64_saturating_add last_tokens after
  else i64_saturating_add (i64_saturating_add last_tokens (get_non_last_reasoning_items_tokens (items m))) after.
End Manager.
Arguments ContextManager : clear implicits.

(** ** Rolling back turns *)

Section Rollback.
Context {Json : Type} `{Fragments}.
Notation ResponseItem := (ResponseItem Json).
Notation Envelope := (ResponseItemEnvelope Json).
Notation ContextManager := (ContextManager Json).

(** Developer text that is rebuilt after a rollback. *)
Definition is_rebuilt_text (text : str) : bool :=
  matches_text ModelSwitchInstructions text || matches_text PersistentModeState text.

Fixpoint user_message_positions_from (idx : nat) (l : list Envelope) : list nat :=
  match l with
  | [] => []
  | e :: l => (if is_user_turn_boundary (item e) then [idx] else []) ++ user_message_positions_from (S idx) l
  end.
Definition user_message_positions (l : list Envelope) : list nat := user_message_positions_from 0 l.

Inductive PreTurn := KeepItem | TrimItem (clears_reference : bool).

Definition pre_turn_item (i : ResponseItem) : PreTurn :=
  match i with
  | Message _ role content _ _ =>
      if str_eqb role (lit "developer") && is_contextual_dev_message_content content
      then TrimItem (has_non_contextual_dev_message_content content)
      else if str_eqb role (lit "user") && is_contextual_user_message_content content then TrimItem false
      else KeepItem
  | _ => KeepItem
  end.

(** [trim_pre_turn_context_updates]: the new cut, and whether the reference
    context is lost; the fuel is the cut. *)
Fixpoint trim_pre_turn (snapshot : list Envelope) (first_turn cut : nat) : nat * bool :=
  match cut with
  | O => (O, false)
  | S before =>
      if Nat.leb cut first_turn then (cut, false)
      else
        match snapshot !! before with
        | Some e =>
            match pre_turn_item (item e) with
            | KeepItem => (cut, false)
            | TrimItem clears => let '(cut, cleared) := trim_pre_turn snapshot first_turn before in (cut, clears || cleared)
            end
        | None => (cut, false)
        end
  end.

Definition accepted_after (boundary : option Z) (e : Envelope) : bool :=
  is_some_and boundary (fun boundary =>
    (is_role "assistant" (item e) || match item e with FunctionCall _ _ _ _ _ _ _ => true | _ => false end)
    && is_some_and (acceptance_order (retained_input_source (metadata e))) (fun order => (boundary <=? order)%Z)).

(** The developer message of the first turn loses the texts that are rebuilt;
    [None] when nothing is left of it. *)
Definition without_rebuilt_texts (first_turn_id : str) (e : Envelope) : option Envelope :=
  if bool_decide (item_turn_id (item e) = Some first_turn_id) && is_role "developer" (item e) then
    match to_annotated_content (item e) with
    | None => None
    | Some content =>
        let content := List.filter (fun c => negb (is_some_and (content_text (ann_content c)) is_rebuilt_text)) content in
        if is_nil content then None else Some (set_item e (set_annotated_content (item e) content))
    end
  else Some e.

Definition retained_after_rollback (snapshot : list Envelope) (first_turn cut turn : nat) : list Envelope :=
  let boundary := match snapshot !! turn with Some e => acceptance_order (retained_input_source (metadata e)) | None => None end in
  let retained := List.filter (fun e => negb (accepted_after boundary e)) (take cut snapshot) in
  if Nat.eqb cut first_turn then
    match snapshot !! first_turn with
    | Some e => match item_turn_id (item e) with Some t => omap (without_rebuilt_texts t) retained | None => retained end
    | None => retained
    end
  else retained.

Definition clear_reference (m : ContextManager) : ContextManager :=
  mkManager (items m) (history_version m) (reset_version m) (user_message_revision m) (token_info m) None (world_state_baseline m).

(** The items, the reference context and the versions after a rollback; the
    evidence kept for reviews is cut back by the code after them. *)
Definition drop_last_n_user_turns (m : ContextManager) (num_turns : Z) : ContextManager :=
  if Z.eqb num_turns 0 then m
  else
    let snapshot := items m in
    match user_message_positions snapshot with
    | [] => replace_annotated m snapshot
    | (first_turn :: _) as positions =>
        let n_from_end := Z.to_nat num_turns in
        let turn := if Nat.leb (length positions) n_from_end then first_turn
                    else nth (length positions - n_from_end) positions 0%nat in
        let '(cut, cleared) := trim_pre_turn snapshot first_turn turn in
        let m := if (cleared : bool) then clear_reference m else m in
        replace_annotated m (retained_after_rollback snapshot first_turn cut turn)
    end.
End Rollback.

(** ** Shortening a history until its compaction prompt fits ([core/src/compact.rs]) *)

Inductive Attempt (R E : Type) :=
| Completed (response : R)
| Interrupted (e : E)
| BudgetExceeded (e : E)
| WindowExceeded (e : E)
| OtherFailure (e : E).
Arguments Completed {R E} _.
Arguments Interrupted {R E} _.
Arguments BudgetExceeded {R E} _.
Arguments WindowExceeded {R E} _.
Arguments OtherFailure {R E} _.

(** The model client: it gets a prompt and streams a response, or fails.  The
    records of executed tools attached to the items of the prompt before it is sent
    are metadata only and belong to the client. *)
Class ModelClient (Json W R E : Type) := {
  drain_to_completed : list (ResponseItem Json) -> W -> W * Attempt R E }.

Inductive CompactOutcome (R E : Type) :=
| Compacted (response : R)
| CompactFailed (e : E) (marked_full : bool)
| CompactPanicked.
Arguments Compacted {R E} _.
Arguments CompactFailed {R E} _ _.
Arguments CompactPanicked {R E}.

Section Compact.
Context {Json W R E : Type} `{Uuids} `{ModelClient Json W R E}.
Variable debug : bool.
Variable modalities : list InputModality.
Variable max_retries : nat.

Definition for_prompt_annotated (m : ContextManager Json) : option (list (ResponseItemEnvelope Json)) :=
  normalize_history debug modalities (items m).
Definition for_prompt (m : ContextManager Json) : option (list (ResponseItem Json)) := option_map (List.map item) (for_prompt_annotated m).

(** The loop with the prompts sent so far, oldest first; [None]: out of fuel. *)
Fixpoint compact_loop (fuel : nat) (history : ContextManager Json) (retries : nat) (sent : list (list (ResponseItem Json))) (w : W)
    : option (W * list (list (ResponseItem Json)) * CompactOutcome R E) :=
  match fuel with
  | O => None
  | S fuel =>
      match for_prompt history with
      | None => Some (w, sent, CompactPanicked)
      | Some turn_input =>
          let turn_input_len := length turn_input in
          let '(w, attempt_result) := drain_to_completed turn_input w in
          let sent := sent ++ [turn_input] in
          match attempt_result with
          | Completed response => Some (w, sent, Compacted response)
          | Interrupted e | BudgetExceeded e => Some (w, sent, CompactFailed e false)
          | WindowExceeded e =>
              if Nat.ltb 1 turn_input_len then compact_loop fuel (manager_remove_first_item history) 0 sent w
              else Some (w, sent, CompactFailed e true)
          | OtherFailure e =>
              if Nat.ltb retries max_retries then compact_loop fuel history (S retries) sent w
              else Some (w, sent, CompactFailed e false)
          end
      end
  end.
End Compact.

(** ** The compaction loop ends, and sends good prompts *)

Section CompactTheory.
Context {Json W R E : Type} `{Uuids} `{ModelClient Json W R E}.
Notation Envelope := (ResponseItemEnvelope Json).
Implicit Types (e request : Envelope) (l front : list Envelope).

(** An item that belongs to no call. *)
Definition plain e : Prop := call_of (item e) = None /\ output_of (item e) = None.

Lemma remove_first_matching_last (p : ResponseItem Json -> bool) front request :
  p (item request) = false -> remove_first_matching p (front ++ [request]) = remove_first_matching p front ++ [request].
Proof. intros Hp. induction front as [|e l IH]; simpl; [by rewrite Hp|]. destruct (p (item e)); [done|]. by rewrite IH. Qed.

Lemma remove_corresponding_last front request (i : ResponseItem Json) :
  plain request -> remove_corresponding_for (front ++ [request]) i = remove_corresponding_for front i ++ [request].
Proof.
  intros [Hc Ho]. unfold call_of, output_of in *.
  destruct i; simpl; try done; repeat case_match; try done;
    try (apply remove_first_matching_last; destruct (item request); simpl in *; try done; repeat case_match; done).
  all: rewrite existsb_app in *; simpl in *; destruct (existsb _ front) eqn:Ex; simpl in *; try done;
    try (rewrite orb_false_r in *; simplify_eq);
    try (apply remove_first_matching_last; destruct (item request); simpl in *; try done; repeat case_match; done).
  all: destruct (item request); simpl in *; try done; repeat case_match; done.
Qed.

Lemma plain_missing ids e : plain e -> missing_output ids e = None.
Proof.
  intros [Hc _]. pose proof (missing_output_spec ids e) as Hm. destruct (missing_output ids e) as [[b o]|]; [|done].
  destruct Hm as (k & id & Hcall & _). congruence.
Qed.

Lemma plain_not_orphan ids e : plain e -> is_orphan ids e = false.
Proof. intros [_ Ho]. apply not_true_iff_false. rewrite is_orphan_spec. intros (k & id & Hout & _). congruence. Qed.

Lemma prompt_ends modalities front request :
  plain request ->
  exists envs, normalize_history false modalities (front ++ [request]) = Some (envs ++ [strip modalities request])
    /\ paired (envs ++ [strip modalities request]) /\ (front = [] -> envs = []).
Proof.
  intros Hp. destruct (normalized_history modalities (front ++ [request])) as (prompt & Hn & Hprompt & Hpaired & _).
  assert (repaired (front ++ [request]) = List.filter (fun e => negb (is_orphan (call_ids (front ++ [request])) e))
    (with_outputs (output_ids (front ++ [request])) front) ++ [request]) as Hr.
  { unfold repaired, with_outputs. rewrite flat_map_app. simpl. rewrite (plain_missing _ _ Hp). simpl. rewrite List.filter_app. simpl.
    by rewrite (plain_not_orphan _ _ Hp). }
  rewrite Hr, map_app in Hprompt. simpl in Hprompt. rewrite <- strip_stripped in Hprompt.
  eexists. rewrite Hn. rewrite Hprompt in *. split_and!; [reflexivity|done|]. by intros ->.
Qed.

Definition potential (max_retries : nat) (front : list Envelope) (retries : nat) : nat :=
  (length front * S max_retries + (max_retries - retries) + 1)%nat.

(** A prompt of the loop: paired, and the request is its last item. *)
Definition good_prompt (modalities : list InputModality) (request : Envelope) (prompt : list (ResponseItem Json)) : Prop :=
  exists envs, prompt = List.map item (envs ++ [strip modalities request]) /\ paired (envs ++ [strip modalities request]).

Lemma compact_loop_spec modalities max_retries request : plain request ->
  forall fuel front m retries sent w, items m = front ++ [request] -> (retries <= max_retries)%nat ->
  (potential max_retries front retries <= fuel)%nat ->
  exists w' more outcome, compact_loop false modalities max_retries fuel m retries sent w = Some (w', sent ++ more, outcome)
    /\ outcome <> CompactPanicked /\ Forall (good_prompt modalities request) more /\ (length more <= potential max_retries front retries)%nat.
Proof.
  intros Hp. induction fuel as [|fuel IH]; intros front m retries sent w Hm Hret Hfuel; [unfold potential in Hfuel; lia|]. simpl.
  destruct (prompt_ends modalities front request Hp) as (envs & Hn & Hpaired & Hnil).
  unfold for_prompt, for_prompt_annotated. rewrite Hm, Hn. simpl.
  destruct (drain_to_completed _ w) as [w1 attempt] eqn:Ed.
  assert (good_prompt modalities request (List.map item (envs ++ [strip modalities request]))) as Hgood by (exists envs; done).
  set (p := List.map item (envs ++ [strip modalities request])) in *.
  assert (forall o : CompactOutcome R E, o <> CompactPanicked -> exists w' more outcome, Some (w1, sent ++ [p], o) = Some (w', sent ++ more, outcome)
            /\ outcome <> CompactPanicked /\ Forall (good_prompt modalities request) more
            /\ (length more <= potential max_retries front retries)%nat) as Hstop.
  { intros o Ho. exists w1, [p], o. split_and!; [done..|by constructor|]. unfold potential. simpl. lia. }
  assert (forall front' m' retries', items m' = front' ++ [request] -> (retries' <= max_retries)%nat ->
            (S (potential max_retries front' retries') <= potential max_retries front retries)%nat ->
            exists w' more outcome, compact_loop false modalities max_retries fuel m' retries' (sent ++ [p]) w1 = Some (w', sent ++ more, outcome)
              /\ outcome <> CompactPanicked /\ Forall (good_prompt modalities request) more
              /\ (length more <= potential max_retries front retries)%nat) as Hgo.
  { intros front' m' retries' Hm' Hr' Hpot. destruct (IH front' m' retries' (sent ++ [p]) w1 Hm' Hr' ltac:(lia)) as (w' & more & o & Hl & Ho & Hf & Hlen).
    exists w', (p :: more), o. rewrite Hl, <- app_assoc. split_and!; [done..|by constructor|]. simpl. lia. }
  destruct attempt; try (apply Hstop; done).
  - destruct (Nat.ltb_spec 1 (length p)); [|by apply Hstop].
    destruct front as [|f front]; [specialize (Hnil eq_refl); subst p envs; simpl in *; lia|].
    apply (Hgo (remove_corresponding_for front (item f))); [|lia|].
    + unfold manager_remove_first_item. rewrite Hm. simpl. by apply remove_corresponding_last.
    + pose proof (sublist_length _ _ (remove_corresponding_sublist front (item f))). unfold potential. simpl length.
      nia.
  - destruct (Nat.ltb_spec retries max_retries); [|by apply Hstop]. apply (Hgo front); [done|lia|]. unfold potential. lia.
Qed.

(** C23. Compaction stops: whatever the model answers, the loop ends after at most one
    round of retries for each item of the history, without a panic, and every
    prompt it sends has its calls and outputs paired and ends with the request to
    compact.  The build is a release build; the request is a plain item, the last of
    the history. *)
Theorem compaction_terminates modalities max_retries front request m w :
  plain request -> items m = front ++ [request] ->
  exists w' sent outcome,
    compact_loop false modalities max_retries (S (length front) * S max_retries) m 0 [] w = Some (w', sent, outcome)
    /\ outcome <> CompactPanicked /\ Forall (good_prompt modalities request) sent
    /\ (length sent <= S (length front) * S max_retries)%nat.
Proof.
  intros Hp Hm.
  destruct (compact_loop_spec modalities max_retries request Hp (S (length front) * S max_retries) front m 0 [] w Hm) as (w' & more & o & Hl & Ho & Hf & Hlen);
    [lia|unfold potential; lia|].
  exists w', more, o. split_and!; [done..|]. unfold potential in Hlen. lia.
Qed.
End CompactTheory.

(** ** Estimates *)

Section EstimateTheory.
Context {Json : Type} `{MeasuresLaws Json}.
Notation ResponseItem := (ResponseItem Json).
Notation Envelope := (ResponseItemEnvelope Json).

(** A cost: not negative, and an [i64]. *)
Definition cost (n : Z) : Prop := 0 <= n <= i64_max.

Lemma to_i64_min n : 0 <= n -> to_i64 n = Z.min i64_max n.
Proof.
  intros Hn. unfold to_i64, i64_try_from. unfold i64_min, i64_max.
  destruct (Z.leb_spec (- 2 ^ 63) n), (Z.leb_spec n (2 ^ 63 - 1)); simpl; lia.
Qed.

Lemma to_i64_cost n : 0 <= n -> cost (to_i64 n).
Proof. intros Hn. rewrite to_i64_min by done. unfold cost, i64_max. lia. Qed.

Lemma add_cost a b : cost a -> cost b -> cost (i64_saturating_add a b) /\ i64_saturating_add a b = Z.min i64_max (a + b).
Proof. unfold cost. unfold_int. lia. Qed.

Definition total (costs : list Z) : Z := foldr Z.add 0 costs.

Lemma total_nonneg costs : Forall cost costs -> 0 <= total costs.
Proof. induction 1 as [|c l [Hc _] _ IH]; simpl; lia. Qed.

Lemma sum_saturating_min start costs :
  cost start -> Forall cost costs -> sum_saturating start costs = Z.min i64_max (start + total costs).
Proof.
  intros Hs Hc. revert start Hs. unfold sum_saturating. induction Hc as [|c l Hc Hl IH]; intros start Hs; simpl.
  { unfold cost in Hs. lia. }
  destruct (add_cost _ _ Hs Hc) as [Hcost Hmin]. rewrite (IH _ Hcost), Hmin.
  pose proof (total_nonneg _ Hl). unfold cost in *. lia.
Qed.

Lemma sum_saturating_cost start costs : cost start -> Forall cost costs -> cost (sum_saturating start costs).
Proof.
  intros Hs Hc. rewrite sum_saturating_min by done. pose proof (total_nonneg _ Hc). unfold cost, i64_max in *. lia.
Qed.

Lemma text_cost_range text : cost (text_bytes text).
Proof. apply to_i64_cost, byte_len_nonneg. Qed.
Lemma json_cost (n : option Z) : (forall len, n = Some len -> 0 <= len) -> cost (json_content_bytes n).
Proof. intros Hn. destruct n as [len|]; [by apply to_i64_cost, Hn|]. unfold cost, i64_max; simpl; lia. Qed.

Lemma approx_bytes_nonneg n : 0 <= n -> 0 <= approx_bytes_for_tokens n.
Proof. unfold approx_bytes_for_tokens, usize_saturating_mul, APPROX_BYTES_PER_TOKEN, usize_max. lia. Qed.

Lemma image_cost image detail : cost (estimate_image_reference_bytes image detail).
Proof.
  assert (cost RESIZED_IMAGE_BYTES_ESTIMATE) as Hr by (unfold cost, RESIZED_IMAGE_BYTES_ESTIMATE, i64_max; lia).
  destruct image as [url|f]; simpl; [|case_bool_decide; [apply to_i64_cost, approx_bytes_nonneg; unfold ORIGINAL_IMAGE_MAX_PATCHES; lia|done]].
  unfold estimate_image_bytes. destruct detail as [[]|]; try done. unfold estimate_original_image_bytes.
  destruct (parse_base64_image_data_url url) as [payload|]; simpl; [|done].
  destruct (decoded_image_size payload) as [[width height]|] eqn:Es; simpl; [|done].
  apply image_size_range in Es as [Hw Hh]. apply to_i64_cost, approx_bytes_nonneg. apply Z.min_glb; [|unfold ORIGINAL_IMAGE_MAX_PATCHES; lia].
  unfold ORIGINAL_IMAGE_PATCH_SIZE. unfold_int.
  assert (forall x, 0 <= x -> 0 <= Z.max (- 2 ^ 63) (Z.min (2 ^ 63 - 1) (x + Z.max (- 2 ^ 63) (Z.min (2 ^ 63 - 1) (32 - 1)))) / 32) as Hq
    by (intros x Hx; apply Z.div_pos; lia).
  pose proof (Hq _ (proj1 Hw)). pose proof (Hq _ (proj1 Hh)). nia.
Qed.

Lemma audio_bytes_cost url : cost (estimate_audio_bytes url).
Proof. apply to_i64_cost, approx_bytes_nonneg, audio_range. Qed.

Lemma encrypted_cost n : 0 <= n -> cost (to_i64 (estimate_encrypted_function_output_length n)).
Proof.
  intros Hn. apply to_i64_cost. unfold estimate_encrypted_function_output_length, usize_saturating_mul, usize_max. apply Z.div_pos; lia.
Qed.

Lemma costs_of {A} (f : A -> Z) l : (forall a, cost (f a)) -> Forall cost (List.map f l).
Proof. intros Hf. induction l; simpl; constructor; auto. Qed.

Lemma zero_cost : cost 0.
Proof. unfold cost, i64_max. lia. Qed.

Lemma output_cost o : cost (estimate_function_output_bytes o).
Proof.
  destruct o as [t|l]; simpl; [apply text_cost_range|]. apply sum_saturating_cost, costs_of; [apply zero_cost|].
  intros [t|[img d]|u|c]; simpl; [apply text_cost_range|apply image_cost|apply audio_bytes_cost|apply encrypted_cost, byte_len_nonneg].
Qed.

Create HintDb costs.
Hint Resolve text_cost_range image_cost audio_bytes_cost output_cost zero_cost : costs.
Hint Extern 2 (cost (i64_saturating_add _ _)) => apply add_cost : costs.

Lemma item_bytes_cost (i : ResponseItem) : cost (estimate_response_item_model_visible_bytes i).
Proof.
  assert (forall n, 0 <= n -> cost (to_i64 (estimate_reasoning_length n))) as Hreason.
  { intros n Hn. apply to_i64_cost. unfold estimate_reasoning_length, usize_saturating_sub. lia. }
  destruct i; simpl; repeat case_match; auto 6 with costs;
    try (by apply Hreason, byte_len_nonneg); try (apply json_cost; intros len Hl; first [apply json_range in Hl|apply json_list_range in Hl]; lia).
  - apply sum_saturating_cost; [auto with costs|]. apply costs_of. intros []; simpl; auto with costs.
  - apply sum_saturating_cost; [auto with costs|]. apply costs_of. intros []; simpl; auto using encrypted_cost, byte_len_nonneg with costs.
  - apply add_cost; [auto with costs|]. unfold cost, RESIZED_IMAGE_BYTES_ESTIMATE, i64_max. lia.
Qed.

Lemma item_tokens_cost (i : ResponseItem) : cost (estimate_item_token_count i).
Proof.
  unfold estimate_item_token_count, approx_tokens_from_byte_count_i64. destruct (Z.leb_spec (estimate_response_item_model_visible_bytes i) 0); [auto with costs|].
  apply to_i64_cost. unfold approx_tokens_from_byte_count, usize_saturating_add, usize_saturating_sub, APPROX_BYTES_PER_TOKEN, usize_max.
  apply Z.div_pos; lia.
Qed.

(** The exact sum of the estimates of the items. *)
Definition items_tokens (l : list Envelope) : Z := total (List.map (fun e => estimate_item_token_count (item e)) l).

Lemma items_tokens_costs (l : list Envelope) : Forall cost (List.map (fun e => estimate_item_token_count (item e)) l).
Proof. apply costs_of. intros e. apply item_tokens_cost. Qed.

Lemma items_tokens_sublist (l k : list Envelope) : l `sublist_of` k -> items_tokens l <= items_tokens k.
Proof.
  unfold items_tokens. induction 1 as [|x l k _ IH|x l k _ IH]; simpl; [done|lia|]. pose proof (item_tokens_cost (item x)) as [? _]. lia.
Qed.

(** The estimate of a history is the exact sum of the estimates of its items and
    its instructions, capped at the largest [i64]; so it is never negative, and
    leaving items out never raises it. *)
Theorem estimates_are_capped_sums (l : list Envelope) (base : str) :
  estimate_token_count_with_base_instructions l base = Z.min i64_max (approx_token_count base + items_tokens l)
  /\ 0 <= estimate_token_count_with_base_instructions l base <= i64_max
  /\ estimate_token_count_with_base_instructions (remove_first_item l) base <= estimate_token_count_with_base_instructions l base.
Proof.
  assert (0 <= approx_token_count base) as Hb.
  { unfold approx_token_count, usize_saturating_add, usize_saturating_sub, APPROX_BYTES_PER_TOKEN, usize_max.
    pose proof (byte_len_nonneg base). apply Z.div_pos; lia. }
  assert (forall l, estimate_token_count_with_base_instructions l base = Z.min i64_max (approx_token_count base + items_tokens l)) as He.
  { intros l'. unfold estimate_token_count_with_base_instructions. pose proof (items_tokens_costs l') as Hc.
    destruct (add_cost (to_i64 (approx_token_count base)) (sum_saturating 0 (List.map (fun e => estimate_item_token_count (item e)) l'))) as [_ ->];
      [by apply to_i64_cost|by apply sum_saturating_cost; [apply zero_cost|]|].
    rewrite sum_saturating_min, to_i64_min by (done || apply zero_cost). fold (items_tokens l').
    pose proof (total_nonneg _ Hc). fold (items_tokens l') in *. assert (0 < i64_max) by done. lia. }
  rewrite !He. pose proof (total_nonneg _ (items_tokens_costs l)). fold (items_tokens l) in *. assert (0 < i64_max) by done. split_and!; [done|lia|lia|].
  assert (remove_first_item l `sublist_of` l) as Hs.
  { destruct l as [|e l]; [done|]. simpl. apply sublist_cons, remove_corresponding_sublist. }
  pose proof (items_tokens_sublist _ _ Hs). lia.
Qed.
End EstimateTheory.

(** ** What a rollback keeps *)

Section RollbackTheory.
Context {Json : Type} `{Fragments}.
Notation ResponseItem := (ResponseItem Json).
Notation Envelope := (ResponseItemEnvelope Json).
Notation ContextManager := (ContextManager Json).
Implicit Types (e : Envelope) (l snapshot : list Envelope).

Definition boundary e : bool := is_user_turn_boundary (item e).
Definition turns l : nat := length (List.filter boundary l).

Lemma turns_app l k : turns (l ++ k) = (turns l + turns k)%nat.
Proof. unfold turns. by rewrite List.filter_app, length_app. Qed.

Lemma positions_spec l idx k p :
  user_message_positions_from idx l !! k = Some p ->
  (idx <= p)%nat /\ turns (take (p - idx) l) = k /\ exists e, l !! (p - idx)%nat = Some e /\ boundary e = true.
Proof.
  revert idx k. induction l as [|e l IH]; intros idx k; simpl; [done|]. destruct (is_user_turn_boundary (item e)) eqn:Eb; simpl.
  - destruct k as [|k]; simpl.
    + intros [= <-]. rewrite Nat.sub_diag. split_and!; [lia|done|by exists e].
    + intros Hk. apply IH in Hk as (Hle & Ht & x & Hx & Hb). replace (p - idx)%nat with (S (p - S idx)) by lia. simpl.
      split_and!; [lia| |by exists x]. unfold turns in *. simpl. unfold boundary at 1. rewrite Eb. simpl. lia.
  - intros Hk. apply IH in Hk as (Hle & Ht & x & Hx & Hb). replace (p - idx)%nat with (S (p - S idx)) by lia. simpl.
    split_and!; [lia| |by exists x]. unfold turns in *. simpl. unfold boundary at 1. by rewrite Eb.
Qed.

Lemma positions_length l idx : length (user_message_positions_from idx l) = turns l.
Proof.
  revert idx. induction l as [|e l IH]; intros idx; simpl; [done|]. rewrite length_app, IH. unfold turns. simpl. unfold boundary at 2.
  by destruct (is_user_turn_boundary (item e)).
Qed.

Lemma trimmed_no_boundary e clears : pre_turn_item (item e) = TrimItem clears -> boundary e = false.
Proof.
  unfold pre_turn_item, boundary, is_user_turn_boundary. destruct (item e) as [|mid role content phase meta| | | | | | | | | | | | | | | |]; try done.
  destruct (str_eqb role (lit "developer")) eqn:Ed; simpl.
  - apply str_eqb_spec in Ed as ->. simpl. by destruct (is_contextual_dev_message_content content).
  - destruct (str_eqb role (lit "user")) eqn:Eu; simpl; [|done]. apply str_eqb_spec in Eu as ->.
    destruct (is_contextual_user_message_content content); simpl; [|done]. done.
Qed.

(** Context the harness injects before a turn: a developer message with such
    context in it, or a message in the role of the user that is context; and
    developer messages in which it is mixed with other text. *)
Definition injected e : Prop :=
  exists id role content phase meta, item e = Message id role content phase meta
    /\ (role = lit "developer" /\ is_contextual_dev_message_content content = true
        \/ role = lit "user" /\ is_contextual_user_message_content content = true).
Definition mixed e : Prop :=
  exists id content phase meta, item e = Message id (lit "developer") content phase meta
    /\ is_contextual_dev_message_content content = true /\ has_non_contextual_dev_message_content content = true.

Lemma pre_turn_injected e :
  match pre_turn_item (item e) with
  | KeepItem => ~ injected e
  | TrimItem clears => injected e /\ (clears = true <-> mixed e)
  end.
Proof.
  unfold pre_turn_item, injected, mixed.
  destruct (item e) as [|mid role content phase meta| | | | | | | | | | | | | | | |]; try (intros (?&?&?&?&?&?&_); congruence).
  assert (forall r, str_eqb role r = false -> role <> r) as Hne by (intros r Hr ->; by rewrite str_eqb_refl in Hr).
  destruct (str_eqb role (lit "developer")) eqn:Ed; cbn [andb].
  - apply str_eqb_spec in Ed as ->. destruct (is_contextual_dev_message_content content) eqn:Ec.
    + split; [repeat eexists; by left|]. split; [intros; by repeat eexists|]. intros (?&?&?&?&[= <- <- <- <-]&_&?). done.
    + change (str_eqb (lit "developer") (lit "user")) with false. cbn [andb].
      intros (?&?&?&?&?&[= <- <- <- <- <-]&[[_ ?]|[? _]]); first [congruence|done].
  - apply Hne in Ed. destruct (str_eqb role (lit "user")) eqn:Eu; cbn [andb].
    + apply str_eqb_spec in Eu as ->. destruct (is_contextual_user_message_content content) eqn:Ec.
      * split; [repeat eexists; by right|]. split; [done|]. intros (?&?&?&?&E&_). congruence.
      * intros (?&?&?&?&?&[= <- <- <- <- <-]&[[? _]|[_ ?]]); congruence.
    + apply Hne in Eu. intros (?&?&?&?&?&[= <- <- <- <- <-]&[[? _]|[? _]]); congruence.
Qed.

(** Exactly the run of injected items before the turn is cut off, down to the
    first turn of the history. *)
Lemma trim_pre_turn_maximal snapshot first_turn turn cut cleared :
  (turn <= length snapshot)%nat -> trim_pre_turn snapshot first_turn turn = (cut, cleared) ->
  exists trimmed, take turn snapshot = take cut snapshot ++ trimmed /\ Forall injected trimmed
    /\ (cleared = true <-> Exists mixed trimmed)
    /\ ((cut <= first_turn)%nat \/ exists e, last (take cut snapshot) = Some e /\ ~ injected e).
Proof.
  revert cut cleared. induction turn as [|before IH]; intros cut cleared Hlen; cbn [trim_pre_turn].
  { intros [= <- <-]. exists []. rewrite app_nil_r. split_and!; [done|constructor|split; [done|by intros ?%Exists_nil]|left; lia]. }
  destruct (Nat.leb_spec (S before) first_turn).
  { intros [= <- <-]. exists []. rewrite app_nil_r. split_and!; [done|constructor|split; [done|by intros ?%Exists_nil]|by left]. }
  destruct (lookup_lt_is_Some_2 snapshot before ltac:(lia)) as [e Ee]. rewrite Ee. pose proof (pre_turn_injected e) as Hi.
  destruct (pre_turn_item (item e)) as [|clears] eqn:Ep.
  { intros [= <- <-]. exists []. rewrite app_nil_r. split_and!; [done|constructor|split; [done|by intros ?%Exists_nil]|right].
    exists e. split; [|done]. by rewrite (take_S_r _ _ _ Ee), last_snoc. }
  destruct (trim_pre_turn snapshot first_turn before) as [cut' cleared'] eqn:Et. intros [= <- <-].
  destruct (IH cut' cleared' ltac:(lia) eq_refl) as (trimmed & Htake & Hall & Hcl & Hmax).
  exists (trimmed ++ [e]). split_and!; [|apply Forall_app; split; [done|constructor; [apply Hi|constructor]]| |done].
  - rewrite (take_S_r _ _ _ Ee), Htake. by rewrite <- app_assoc.
  - rewrite orb_true_iff, Exists_app, Exists_cons, Exists_nil. destruct Hi as [_ Hi]. rewrite Hi, Hcl. tauto.
Qed.

Lemma trim_pre_turn_spec snapshot first_turn turn cut cleared :
  (turn <= length snapshot)%nat -> trim_pre_turn snapshot first_turn turn = (cut, cleared) ->
  exists trimmed, take turn snapshot = take cut snapshot ++ trimmed /\ (cut <= turn)%nat /\ ((first_turn <= turn)%nat -> (first_turn <= cut)%nat)
    /\ Forall (fun e => exists clears, pre_turn_item (item e) = TrimItem clears) trimmed.
Proof.
  revert cut cleared. induction turn as [|before IH]; intros cut cleared Hlen; cbn [trim_pre_turn].
  { intros [= <- <-]. exists []. rewrite app_nil_r. split_and!; [done..|constructor]. }
  assert (exists trimmed, take (S before) snapshot = take (S before) snapshot ++ trimmed /\ (S before <= S before)%nat
            /\ ((first_turn <= S before)%nat -> (first_turn <= S before)%nat)
            /\ Forall (fun e => exists clears, pre_turn_item (item e) = TrimItem clears) trimmed) as Hstop.
  { exists []. rewrite app_nil_r. split_and!; [done..|constructor]. }
  destruct (Nat.leb_spec (S before) first_turn); [by intros [= <- <-]|].
  destruct (snapshot !! before) as [e|] eqn:Ee; [|by intros [= <- <-]].
  destruct (pre_turn_item (item e)) as [|clears] eqn:Ep; [by intros [= <- <-]|].
  destruct (trim_pre_turn snapshot first_turn before) as [cut' cleared'] eqn:Et. intros [= <- <-].
  destruct (IH cut' cleared' ltac:(lia) eq_refl) as (trimmed & Htake & Hle & Hfirst & Hall).
  exists (trimmed ++ [e]). split_and!; [|lia|lia|].
  - rewrite (take_S_r _ _ _ Ee), Htake. by rewrite <- app_assoc.
  - apply Forall_app. split; [done|]. constructor; [eauto|constructor].
Qed.

(** Turns the filter of accepted inputs cannot drop. *)
Definition firm e : bool := boundary e && negb (is_role "assistant" (item e)).

Lemma filter_filter_firm (p : Envelope -> bool) l :
  (forall e, firm e = true -> p e = true) -> List.filter firm (List.filter p l) = List.filter firm l.
Proof.
  intros Hp. induction l as [|e l IH]; simpl; [done|]. destruct (p e) eqn:Ep; simpl; destruct (firm e) eqn:Ef; rewrite ?IH; try done.
  rewrite (Hp _ Ef) in Ep. done.
Qed.

Lemma firm_not_accepted boundary_order e : firm e = true -> negb (accepted_after boundary_order e) = true.
Proof.
  unfold firm, accepted_after, boundary. intros [Hb Hr]%andb_true_iff. destruct boundary_order as [b|]; simpl; [|done].
  apply negb_true_iff in Hr. rewrite Hr. simpl. by destruct (item e).
Qed.

Lemma developer_not_firm e : is_role "developer" (item e) = true -> firm e = false.
Proof.
  unfold firm, boundary, is_user_turn_boundary. destruct (item e) as [|mid role content phase meta| | | | | | | | | | | | | | | |]; try done. simpl.
  by intros ->%str_eqb_spec.
Qed.

Lemma rebuilt_firm t l : List.filter firm (omap (without_rebuilt_texts t) l) = List.filter firm l.
Proof.
  induction l as [|e l IH]; csimpl; [done|]. unfold without_rebuilt_texts at 1.
  destruct (bool_decide _ && is_role "developer" (item e)) eqn:Ec; csimpl; [|by rewrite IH].
  apply andb_true_iff in Ec as [_ Hdev]. rewrite (developer_not_firm _ Hdev). destruct (to_annotated_content (item e)) as [content|]; [|done].
  destruct (is_nil _); [done|]. csimpl. rewrite developer_not_firm; [done|]. csimpl. by destruct (item e).
Qed.

Lemma no_turns l : Forall (fun e => boundary e = false) l -> turns l = 0%nat.
Proof. unfold turns. induction 1 as [|e l He _ IH]; simpl; [done|]. by rewrite He. Qed.

(** Where the dropped turns begin. *)
Lemma injected_no_boundary e : injected e -> boundary e = false.
Proof.
  intros Hi. pose proof (pre_turn_injected e) as Hp. destruct (pre_turn_item (item e)) eqn:Ep; [done|]. by eapply trimmed_no_boundary.
Qed.

Lemma no_turn_before l i k e : turns (take k l) = 0%nat -> l !! i = Some e -> boundary e = true -> (k <= i)%nat.
Proof.
  intros Ht He Hb. destruct (Nat.le_gt_cases k i) as [|Hlt]; [done|]. exfalso.
  assert (e ∈ List.filter boundary (take k l)) as Hin.
  { apply list_elem_of_In, filter_In. split; [|done]. apply list_elem_of_In, list_elem_of_lookup. exists i. by rewrite lookup_take_lt. }
  unfold turns in Ht. apply length_zero_iff_nil in Ht. rewrite Ht in Hin. by apply not_elem_of_nil in Hin.
Qed.

(** What was trimmed is empty when no turn is left, and else ends at an item that
    is not injected. *)
Lemma trimmed_run l first_turn turn cut trimmed e0 e :
  l !! first_turn = Some e0 -> boundary e0 = true -> turns (take first_turn l) = 0%nat -> l !! turn = Some e -> boundary e = true ->
  (first_turn <= cut <= turn)%nat -> take turn l = take cut l ++ trimmed -> Forall injected trimmed ->
  ((cut <= first_turn)%nat \/ exists e, last (take cut l) = Some e /\ ~ injected e) ->
  if Nat.eqb (turns (take cut l)) 0 then trimmed = [] else exists e, last (take cut l) = Some e /\ ~ injected e.
Proof.
  intros He0 Hb0 Hf He Hb Hle Htake Hall Hmax. destruct (Nat.eqb_spec (turns (take cut l)) 0) as [Hz|Hz].
  - destruct trimmed as [|x rest] eqn:Etr; [done|]. exfalso.
    pose proof (no_turn_before _ _ _ _ Hz He0 Hb0). pose proof (no_turn_before _ _ _ _ Hf He Hb).
    assert (turn < length l)%nat by (by eapply lookup_lt_Some).
    assert (cut = first_turn) as -> by lia.
    assert (x = e0) as ->.
    { assert (take turn l !! first_turn = Some x) as Hl.
      { rewrite Htake, lookup_app_r; rewrite length_take, Nat.min_l by lia; [by rewrite Nat.sub_diag|lia]. }
      apply lookup_take_Some in Hl as [Hl _]. congruence. }
    apply Forall_cons in Hall as [Hx _]. apply injected_no_boundary in Hx. congruence.
  - destruct Hmax as [Hc|]; [|done]. exfalso. apply Hz. assert (take cut l `prefix_of` take first_turn l) as [k Hk].
    { exists (drop cut (take first_turn l)). rewrite <- (take_drop cut (take first_turn l)) at 1. by rewrite take_take, Nat.min_l. }
    rewrite Hk, turns_app in Hf. lia.
Qed.

Lemma rollback_turn l n first_turn rest :
  0 < n -> user_message_positions l = first_turn :: rest ->
  let positions := first_turn :: rest in
  let turn := if Nat.leb (length positions) (Z.to_nat n) then first_turn else nth (length positions - Z.to_nat n) positions 0%nat in
  turns (take first_turn l) = 0%nat /\ turns (take turn l) = (turns l - Z.to_nat n)%nat /\ exists e, l !! turn = Some e /\ boundary e = true.
Proof.
  intros Hn Hpos positions turn.
  assert (length positions = turns l) as Hlen by (unfold positions; rewrite <- Hpos; apply positions_length).
  assert (positions !! (length positions - Z.to_nat n)%nat = Some turn) as Hturn.
  { unfold turn. destruct (Nat.leb_spec (length positions) (Z.to_nat n)) as [Hle|Hlt].
    - replace (length positions - Z.to_nat n)%nat with 0%nat by lia. done.
    - destruct (lookup_lt_is_Some_2 positions (length positions - Z.to_nat n)%nat) as [p Hp]; [lia|]. rewrite Hp. f_equal. symmetry. rewrite nth_lookup. by rewrite Hp. }
  assert (forall k p, positions !! k = Some p -> turns (take p l) = k /\ exists e, l !! p = Some e /\ boundary e = true) as Hspec.
  { intros k p Hk. unfold positions in Hk. rewrite <- Hpos in Hk. apply positions_spec in Hk as (_ & Ht & Hb).
    rewrite Nat.sub_0_r in *. done. }
  destruct (Hspec 0%nat first_turn eq_refl) as [Hf _]. destruct (Hspec _ _ Hturn) as [Ht He]. split_and!; [done| |done].
  by rewrite Ht, Hlen.
Qed.

Lemma retained_length snapshot first_turn cut turn : (length (retained_after_rollback snapshot first_turn cut turn) <= length (take cut snapshot))%nat.
Proof.
  assert (forall f l, length (omap (without_rebuilt_texts f) l) <= length l)%nat as Ho.
  { intros f. induction l as [|e l IH]; csimpl; [done|]. destruct (without_rebuilt_texts f e); simpl; lia. }
  pose proof (filter_length_le (fun e => negb (accepted_after match snapshot !! turn with
    | Some e => acceptance_order (retained_input_source (metadata e)) | None => None end e)) (take cut snapshot)) as Hf.
  unfold retained_after_rollback. repeat case_match; first [exact Hf|etrans; [apply Ho|exact Hf]].
Qed.

Lemma retained_firm snapshot first_turn cut turn :
  List.filter firm (retained_after_rollback snapshot first_turn cut turn) = List.filter firm (take cut snapshot).
Proof.
  assert (forall b l, List.filter firm (List.filter (fun e => negb (accepted_after b e)) l) = List.filter firm l) as Hf
    by (intros b l; apply filter_filter_firm; intros e; apply firm_not_accepted).
  unfold retained_after_rollback. repeat case_match; rewrite ?rebuilt_firm; apply Hf.
Qed.

Lemma retained_plain snapshot first_turn cut turn e :
  snapshot !! turn = Some e -> acceptance_order (retained_input_source (metadata e)) = None -> cut <> first_turn ->
  retained_after_rollback snapshot first_turn cut turn = take cut snapshot.
Proof.
  intros He Hno Hcut. unfold retained_after_rollback. rewrite He, Hno. destruct (Nat.eqb_spec cut first_turn); [done|].
  apply List.forallb_filter_id, forallb_forall. done.
Qed.

(** Injected context is no turn: a user message that carries a fragment the harness
    renders is never counted as the user's, and a rollback takes it away with the
    turn after it. *)
Theorem injected_context_is_no_turn id t body content phase meta :
  t ∈ CONTEXTUAL_USER_FRAGMENT_MATCHERS -> body_ok t body -> MsgInputText (render t body) ∈ content ->
  is_user_turn_boundary (Message id (lit "user") content phase meta : ResponseItem) = false
  /\ pre_turn_item (Message id (lit "user") content phase meta : ResponseItem) = TrimItem false.
Proof.
  intros Ht Hok Hin. assert (is_contextual_user_message_content content = true) as Hc.
  { apply existsb_exists. exists (MsgInputText (render t body)). split; [by apply list_elem_of_In|]. simpl.
    apply orb_true_iff. right. apply existsb_exists. exists t. split; [by apply list_elem_of_In|]. by apply rendered_text_matches. }
  split; simpl; by rewrite Hc.
Qed.

End RollbackTheory.

(** ** Recording *)

Section RecordTheory.
Context {Json : Type} `{Measures Json}.
Variable allowance : TruncationPolicy -> TruncationPolicy.

(** Recording adds at most one item, at the end; of an output only the content may
    change, everything else is stored as it came. *)
Lemma record_item_appends (m : ContextManager Json) i metadata policy m' :
  record_item_with_metadata allowance m i metadata policy = Some m' ->
  if is_api_message i metadata
  then exists i', items m' = items m ++ [mkEnvelope i' metadata] /\ call_of i' = call_of i /\ output_of i' = output_of i
         /\ (output_of i = None -> (forall id name ns o meta, i <> FunctionCallOutput id None name ns o meta) -> i' = i)
  else m' = m.
Proof.
  unfold record_item_with_metadata. destruct (is_api_message i metadata); simpl; [|by intros [= <-]].
  destruct i; simpl; try (intros [= <-]; eexists; split_and!; [reflexivity|done..]);
    (destruct (truncate_output _ _ _ _) as [o'|]; simpl; [|done]); intros [= <-]; eexists; split_and!; try reflexivity; try done.
  destruct call_id; [done|]. intros _ Hno. by destruct (Hno id name namespace output meta).
Qed.

(** A history that holds only items for the model. *)
Definition api_history (m : ContextManager Json) : Prop := forall e, e ∈ items m -> is_api_message (item e) (metadata e) = true.

Lemma record_item_api (m : ContextManager Json) i metadata policy m' :
  api_history m -> record_item_with_metadata allowance m i metadata policy = Some m' -> api_history m'.
Proof.
  intros Hm. unfold record_item_with_metadata. destruct (is_api_message i metadata) eqn:Ea; simpl; [|by intros [= <-]].
  intros Hr. assert (exists i', items m' = items m ++ [mkEnvelope i' metadata] /\ is_api_message i' metadata = true) as (i' & Hi & Ha').
  { destruct i; simpl in Hr; try (injection Hr as <-; eexists; by split);
      (destruct (truncate_output _ _ _ _); simpl in Hr; [|done]); injection Hr as <-; eexists; by split. }
  intros e He. rewrite Hi in He. apply elem_of_app in He as [He | ->%list_elem_of_singleton]; [by apply Hm|done].
Qed.
End RecordTheory.

(** ** Examples *)

#[export] Instance demo_measures : Measures unit := {
  decoded_image_size _ := Some (64, 32);
  estimate_audio_token_count _ := 10;
  serialized_json_bytes _ := Some 2;
  serialized_list_bytes _ := Some 2 }.
#[export] Instance demo_measures_laws : MeasuresLaws unit.
Proof. split; simpl; intros; simplify_eq; unfold usize_max; lia. Qed.
#[export] Instance demo_fragments : Fragments := { from_xml_str _ := None; is_inter_agent_json _ := false }.

Definition demo_message (role text : string) : ResponseItemEnvelope unit :=
  new_envelope (Message None (lit role) [MsgInputText (lit text)] None None).

Definition demo_history : ContextManager unit :=
  set_items new_manager
    [demo_message "developer" "<tools> setup"; demo_message "user" "first"; demo_call "a"; demo_output "a";
     demo_message "user" "<environment_context>cwd</environment_context>"; demo_message "user" "second"; demo_message "assistant" "done"].

Definition message_texts (l : list (ResponseItemEnvelope unit)) : list (option str) :=
  List.map (fun e => match item e with Message _ _ (MsgInputText t :: _) _ _ => Some t | _ => None end) l.

(** The second turn goes, with the context injected before it. *)
Example rollback_one :
  message_texts (items (drop_last_n_user_turns demo_history 1)) = [Some (lit "<tools> setup"); Some (lit "first"); None; None].
Proof. vm_compute. reflexivity. Qed.


Lemma estimates_are_capped_sums_witness :
  0 <= estimate_token_count_with_base_instructions (items demo_history) (lit "be brief") <= i64_max.
Proof. exact (proj1 (proj2 (estimates_are_capped_sums (items demo_history) (lit "be brief")))). Defined.

(** A model for which every prompt is too long. *)
#[local] Instance tiny_window : ModelClient unit nat unit unit := { drain_to_completed _ w := (S w, WindowExceeded tt) }.

Lemma compaction_terminates_witness :
  exists w' sent (outcome : CompactOutcome unit unit),
    compact_loop false [TextModality] 2 (S (length (items demo_history)) * 3)
      (set_items demo_history (items demo_history ++ [demo_message "user" "compact"])) 0 [] 0%nat = Some (w', sent, outcome)
    /\ length sent = 7%nat.
Proof.
  destruct (compaction_terminates [TextModality] 2 (items demo_history) (demo_message "user" "compact")
    (set_items demo_history (items demo_history ++ [demo_message "user" "compact"])) 0%nat) as (w' & sent & outcome & Hl & _ & _ & _);
    [split; reflexivity|reflexivity|].
  exists w', sent, outcome. split; [exact Hl|]. vm_compute in Hl. injection Hl as <- <- <-. reflexivity.
Defined.

Lemma injected_context_is_no_turn_witness :
  is_user_turn_boundary (item (demo_message "user" "<turn_aborted>stop</turn_aborted>")) = false.
Proof.
  exact (proj1 (injected_context_is_no_turn None TurnAborted (lit "stop") [MsgInputText (lit "<turn_aborted>stop</turn_aborted>")] None None
    ltac:(unfold CONTEXTUAL_USER_FRAGMENT_MATCHERS; set_solver) I ltac:(apply list_elem_of_singleton; reflexivity))).
Defined.
