(* ===== verification/Compaction.v ===== *)
(** * Building a compacted history ([core/src/compact.rs])

    Compaction replaces the history by the newest messages of the user that fit a
    budget and a summary written by the model.  In the middle of a turn the initial
    context is put back into the replacement, before the last message somebody
    sent, so that the summary stays last; changes of the goal that the user made
    while the summary was written are appended.

    Theorems: which messages are kept, and how; where the context goes; compacting
    again keeps the same messages and no old summary; goal changes are not lost. *)

From stdpp Require Import base list numbers option strings gmap.
From Stdlib Require Import Lia ZArith.
From S2P Require Import Prelude RustStr RustInt ByteStr InlineTag TaggedLine Truncate ResponseItem ContextFragments UserMessage ContextManager.
Local Open Scope Z_scope.

Section Build.
Context {Json : Type} `{Fragments}.
Notation ResponseItem := (ResponseItem Json).
Notation Envelope := (ResponseItemEnvelope Json).
Notation Harness := (CodexHarnessMetadata Json).

Definition COMPACT_USER_MESSAGE_MAX_TOKENS : Z := 20000.

(** ** The messages of the user *)

Record CompactedUserMessage := mkCompacted {
  message : str;
  original : ResponseItem;
  harness_metadata : option Harness }.

Definition compacted_user_message (i : ResponseItem) (metadata : option Harness) : option CompactedUserMessage :=
  match parse_user_turn_item i with
  | None => None
  | Some user =>
      let message := user_message_text user in
      if is_summary_message message then None else Some (mkCompacted message i metadata)
  end.

Definition collect_annotated_user_messages (items : list Envelope) : list CompactedUserMessage :=
  omap (fun e => compacted_user_message (item e) (metadata e)) items.

(** ** The replacement *)

Definition is_input_text (c : MessageContent) : bool := match c with MsgInputText _ => true | _ => false end.

(** Kinds are replaced where the message had some. *)
Definition rebuilt_kinds (p : InternalChatMessageMetadataPassthrough Json) : InternalChatMessageMetadataPassthrough Json :=
  match content_item_kinds p with Some _ => set_kinds p [lit "user.text"] | None => p end.

(** The loop, newest message first; [None]: truncation failed. *)
Fixpoint select_messages (remaining : Z) (newest_first : list CompactedUserMessage) : option (list Envelope) :=
  match newest_first with
  | [] => Some []
  | m :: rest =>
      if remaining =? 0 then Some []
      else
        let tokens := approx_token_count (message m) in
        match original m with
        | Message id _ content _ passthrough =>
            match (if (tokens <=? remaining) && forallb is_input_text content then Some (content, passthrough)
                   else option_map (fun text => ([MsgInputText text], option_map rebuilt_kinds passthrough))
                          (truncate_text (message m) (Tokens remaining))) with
            | None => None
            | Some (content, passthrough) =>
                let metadata := if remaining <? tokens then option_map mark_retained_sources_incomplete (harness_metadata m)
                                else harness_metadata m in
                let e := mkEnvelope (Message id (lit "user") content None passthrough) metadata in
                if remaining <? tokens then Some [e]
                else option_map (cons e) (select_messages (usize_saturating_sub remaining tokens) rest)
            end
        | _ => select_messages remaining rest
        end
  end.

(** [CompactionSummary], rendered without markers. *)
Definition summary_envelope (summary : str) : Envelope :=
  new_envelope (Message None (lit "user") [MsgInputText summary] None (Some (set_kinds no_passthrough [lit "compaction.summary"]))).

Definition build_compacted_history_with_limit (history : list Envelope) (user_messages : list CompactedUserMessage) (summary_text : str)
    (max_tokens : Z) : option (list Envelope) :=
  match (if 0 <? max_tokens then select_messages max_tokens (rev user_messages) else Some []) with
  | None => None
  | Some selected_messages =>
      let summary_text := if is_nil summary_text then lit "(no summary available)" else summary_text in
      Some (history ++ rev selected_messages ++ [summary_envelope summary_text])
  end.

Definition build_compacted_history (history : list Envelope) (user_messages : list CompactedUserMessage) (summary_text : str)
    : option (list Envelope) :=
  build_compacted_history_with_limit history user_messages summary_text COMPACT_USER_MESSAGE_MAX_TOKENS.

(** ** Putting the context back *)

Definition is_agent_request (i : ResponseItem) : bool :=
  match i with
  | AgentMessage _ _ _ content _ =>
      match content with
      | AgentText text :: _ => negb (starts_with (lit "Message Type: FINAL_ANSWER" ++ [LF]) text)
      | _ => true
      end
  | _ => false
  end.

(** The scan from the end: the last real message, and the last message that is in
    the user's name, which may be a summary. *)
Fixpoint scan_back (items : list (nat * Envelope)) (last_user_or_summary : option nat) : option nat * option nat :=
  match items with
  | [] => (None, last_user_or_summary)
  | (i, e) :: items =>
      if is_agent_request (item e) then (Some i, last_user_or_summary)
      else
        match parse_user_turn_item (item e) with
        | None => scan_back items last_user_or_summary
        | Some user =>
            let last_user_or_summary := match last_user_or_summary with None => Some i | Some _ => last_user_or_summary end in
            if is_summary_message (user_message_text user) then scan_back items last_user_or_summary else (Some i, last_user_or_summary)
        end
  end.

Definition is_compaction_item (i : ResponseItem) : bool :=
  match i with Compaction _ _ _ | ContextCompaction _ _ _ => true | _ => false end.

Definition option_or {A} (a b : option A) : option A := match a with Some _ => a | None => b end.

Definition insertion_index (compacted_history : list Envelope) : option nat :=
  let '(last_real_user_index, last_user_or_summary_index) :=
    scan_back (rev (imap pair compacted_history)) None in
  option_or (option_or last_real_user_index last_user_or_summary_index) (rposition is_compaction_item compacted_history).

Definition insert_initial_context_before_last_real_user_or_summary (compacted_history initial_context : list Envelope) : list Envelope :=
  match insertion_index compacted_history with
  | Some i => take i compacted_history ++ initial_context ++ drop i compacted_history
  | None => compacted_history ++ initial_context
  end.

(** ** The whole replacement *)

Definition output_text (c : MessageContent) : option str := match c with MsgOutputText text => Some text | _ => None end.

Definition raw_assistant_output_text_from_item (i : ResponseItem) : option str :=
  match i with
  | Message _ role content _ _ => if str_eqb role (lit "assistant") then Some (concat (omap output_text content)) else None
  | _ => None
  end.

(** [None] here and below: the constructor of the citation parser fails. *)
Definition strip_hidden_assistant_markup (text : str) (plan_mode : bool) : option str :=
  match strip_citations text with
  | Some (without_citations, _) => Some (if plan_mode then strip_proposed_plan_blocks without_citations else without_citations)
  | None => None
  end.

Definition last_assistant_message_from_item (i : ResponseItem) (plan_mode : bool) : option (option str) :=
  match raw_assistant_output_text_from_item i with
  | Some combined =>
      if is_nil combined then Some None
      else option_map (fun stripped => if is_nil (trim stripped) then None else Some stripped) (strip_hidden_assistant_markup combined plan_mode)
  | None => Some None
  end.

Fixpoint last_assistant_message (newest_first : list ResponseItem) : option (option str) :=
  match newest_first with
  | [] => Some None
  | i :: rest =>
      match last_assistant_message_from_item i false with
      | None => None
      | Some (Some message) => Some (Some message)
      | Some None => last_assistant_message rest
      end
  end.
Definition get_last_assistant_message_from_turn (responses : list ResponseItem) : option (option str) := last_assistant_message (rev responses).

Definition stamp_last (turn : str) (history : list Envelope) : list Envelope :=
  match last history with
  | Some e => removelast history ++ [set_item e (set_turn_id_if_missing (item e) turn)]
  | None => history
  end.

Definition NO_SUMMARY : str := lit "Post-turn compaction completed without an assistant summary".

(** From the response of the model to the new history and the summary; the
    context is empty unless the compaction happens within a turn. *)
Definition compacted_replacement (post_turn : bool) (output : list ResponseItem) (history_items : list Envelope) (sub_id : str)
    (initial_context : list Envelope) : option (result (list Envelope * str) str) :=
  match (if post_turn then
           option_map (fun found => match found with
                                    | Some summary => if is_nil (trim summary) then Err NO_SUMMARY else Ok summary
                                    | None => Err NO_SUMMARY
                                    end) (get_last_assistant_message_from_turn output)
         else option_map (fun found => Ok (unwrap_or found [])) (get_last_assistant_message_from_turn (List.map item history_items))) with
  | None => None
  | Some (Err e) => Some (Err e)
  | Some (Ok summary_suffix) =>
      let summary_text := SUMMARY_PREFIX ++ [LF] ++ summary_suffix in
      match build_compacted_history [] (collect_annotated_user_messages history_items) summary_text with
      | None => None
      | Some new_history =>
          let new_history := stamp_last sub_id new_history in
          Some (Ok (if is_nil initial_context then new_history
                    else insert_initial_context_before_last_real_user_or_summary new_history initial_context, summary_suffix))
      end
  end.

(** ** Goal changes made meanwhile ([core/src/context/user_goal.rs], [core/src/session/mod.rs]) *)

Definition goal_message_text (i : ResponseItem) : option str :=
  match i with
  | Message _ role [MsgInputText text] _ (Some m) =>
      match content_item_kinds m with
      | Some [kind] =>
          if str_eqb role (lit "user") && (str_eqb kind (lit "user.goal") || str_eqb kind (lit "user.goal.omitted")) then Some text else None
      | _ => None
      end
  | _ => None
  end.

Definition goal_message_ids (items : list ResponseItem) : gset str :=
  list_to_set (omap item_id (List.filter (fun i => is_some (goal_message_text i)) items)).

Definition assign_missing_response_item_id (uuid : str) (i : ResponseItem) : ResponseItem :=
  if is_some_and (item_id i) (fun id => negb (is_nil id)) then i
  else match id_prefix i with
       | Some prefix => set_id i (Some (prefix ++ lit "_" ++ uuid))
       | None => i
       end.

Definition with_harness (f : Harness -> Harness) (e : Envelope) : Envelope :=
  mkEnvelope (item e) (Some (f (unwrap_or (metadata e) default_harness))).

Definition is_later_goal (input_goal_ids replacement_goal_ids : gset str) (e : Envelope) : bool :=
  is_some (goal_message_text (item e))
  && is_some_and (item_id (item e)) (fun id => bool_decide (id ∉ input_goal_ids) && bool_decide (id ∉ replacement_goal_ids)).

(** The items [replace_compacted_history] installs.  [uuids] are the identifiers
    that are made; [attribution] is a new checkpoint of tool calls. *)
Definition replacement_items (uuids : nat -> str) (attribution : option Json) (model_hash : option str) (input_goal_ids : gset str)
    (current items : list Envelope) : list Envelope :=
  let items := imap (fun n e => set_item e (assign_missing_response_item_id (uuids n) (item e))) items in
  let items := match attribution with
               | Some a => alter (with_harness (fun m => set_mcp_attribution m a)) (length items - 1)%nat items
               | None => items
               end in
  let items := match rposition is_compaction_item items with
               | Some i => alter (with_harness (fun m => set_compaction_model_hash m model_hash)) i items
               | None => items
               end in
  let replacement_goal_ids := goal_message_ids (List.map item items) in
  items ++ List.filter (is_later_goal input_goal_ids replacement_goal_ids) current.
End Build.
Arguments CompactedUserMessage : clear implicits.

(** ** What is kept *)

#[local] Arguments truncate_text : simpl never.
#[local] Arguments byte_budget : simpl never.

Section Kept.
Context {Json : Type} `{Fragments}.
Notation ResponseItem := (ResponseItem Json).
Notation Envelope := (ResponseItemEnvelope Json).
Notation Harness := (CodexHarnessMetadata Json).
Implicit Types (m : CompactedUserMessage Json) (ms : list (CompactedUserMessage Json)).

Definition tokens_of m : Z := approx_token_count (message m).
Definition total_tokens ms : Z := foldr Z.add 0 (List.map tokens_of ms).

(** A message that fits: its content if that is text only, else its text. *)
Definition kept m : Envelope :=
  match original m with
  | Message id _ content _ passthrough =>
      if forallb is_input_text content then mkEnvelope (Message id (lit "user") content None passthrough) (harness_metadata m)
      else mkEnvelope (Message id (lit "user") [MsgInputText (message m)] None (option_map rebuilt_kinds passthrough)) (harness_metadata m)
  | _ => new_envelope (original m)
  end.

(** A message of which only [text] is left. *)
Definition shortened m (text : str) : Envelope :=
  match original m with
  | Message id _ _ _ passthrough =>
      mkEnvelope (Message id (lit "user") [MsgInputText text] None (option_map rebuilt_kinds passthrough))
        (option_map mark_retained_sources_incomplete (harness_metadata m))
  | _ => new_envelope (original m)
  end.

Definition is_message_item (i : ResponseItem) : bool := match i with Message _ _ _ _ _ => true | _ => false end.
Definition collected m : Prop := is_message_item (original m) = true /\ byte_len (message m) <= i64_max.

Lemma tokens_of_nonneg m : 0 <= tokens_of m.
Proof.
  pose proof (byte_len_nonneg (message m)). unfold tokens_of, approx_token_count, usize_saturating_add, usize_max. apply Z.div_pos; [|done].
  unfold usize_saturating_sub, APPROX_BYTES_PER_TOKEN. lia.
Qed.

Lemma total_tokens_nonneg ms : 0 <= total_tokens ms.
Proof. induction ms as [|m ms IH]; simpl; [done|]. pose proof (tokens_of_nonneg m). unfold total_tokens in *. simpl. lia. Qed.

Lemma total_tokens_cons m ms : total_tokens (m :: ms) = tokens_of m + total_tokens ms.
Proof. done. Qed.

Lemma total_tokens_app ms ms' : total_tokens (ms ++ ms') = total_tokens ms + total_tokens ms'.
Proof. induction ms as [|m ms IH]; [done|]. simpl. rewrite !total_tokens_cons. lia. Qed.

(** A message fits a budget of tokens exactly when its bytes fit. *)
Lemma fits_bytes m remaining : collected m -> 0 <= remaining <= usize_max ->
  (tokens_of m <= remaining <-> byte_len (message m) <= byte_budget (Tokens remaining)).
Proof.
  intros [_ Hb] Hr. pose proof (byte_len_nonneg (message m)).
  unfold tokens_of, approx_token_count. fold (approx_tokens_from_byte_count (byte_len (message m))).
  rewrite approx_tokens_exact by lia. unfold byte_budget, approx_bytes_for_tokens, usize_saturating_mul, APPROX_BYTES_PER_TOKEN, usize_max, i64_max in *.
  pose proof (Z.mod_pos_bound (byte_len (message m) + 3) 4). pose proof (Z.div_mod (byte_len (message m) + 3) 4). lia.
Qed.

Lemma truncate_message m remaining : collected m -> 0 <= remaining <= usize_max ->
  exists text, truncate_text (message m) (Tokens remaining) = Some text
  /\ (tokens_of m <= remaining /\ text = message m
      \/ remaining < tokens_of m /\ middle_cut (message m) text (byte_budget (Tokens remaining)) true).
Proof.
  intros Hm Hr. destruct (truncate_estimate_spec (message m) (byte_budget (Tokens remaining)) true) as (text & Ht & Hcase).
  { by apply byte_budget_range. } { apply Hm. }
  exists text. rewrite truncate_text_estimate by (simpl; lia). split; [done|].
  pose proof (fits_bytes m remaining Hm Hr). destruct Hcase as [[Hle ->]|[Hlt Hc]]; [left|right]; split; try done; lia.
Qed.

(** The messages not chosen: all older ones, unless there is room left. *)
Definition cut_ok (limit : Z) (older : list (CompactedUserMessage Json)) (cut : list (CompactedUserMessage Json * str)) newer : Prop :=
  match cut with
  | [] => older = [] \/ total_tokens newer = limit
  | [(m, text)] =>
      let room := limit - total_tokens newer in
      0 < room < tokens_of m /\ middle_cut (message m) text (byte_budget (Tokens room)) true
  | _ => False
  end.

Lemma select_messages_spec newest_first : forall remaining, 0 <= remaining <= usize_max -> Forall collected newest_first ->
  exists newer cut older, newest_first = newer ++ List.map fst cut ++ older
  /\ select_messages remaining newest_first = Some (List.map kept newer ++ List.map (uncurry shortened) cut)
  /\ total_tokens newer <= remaining /\ cut_ok remaining older cut newer.
Proof.
  induction newest_first as [|m rest IH]; intros remaining Hr Hall; simpl.
  { exists [], [], []. unfold total_tokens. split_and!; try done; [simpl; lia|by left]. }
  apply Forall_cons in Hall as [Hm Hall]. destruct (remaining =? 0) eqn:E0.
  { exists [], [], (m :: rest). unfold cut_ok, total_tokens. split_and!; try done; [simpl; lia|right; simpl; lia]. }
  pose proof (tokens_of_nonneg m). destruct (truncate_message m remaining Hm Hr) as (text & Ht & Hcase).
  destruct (original m) as [| id role content phase meta | | | | | | | | | | | | | | | |] eqn:Eo; try (destruct Hm as [Hm _]; by rewrite Eo in Hm).
  fold (tokens_of m). destruct Hcase as [[Hle ->]|[Hlt Hc]].
  - replace (remaining <? tokens_of m) with false by lia. replace (tokens_of m <=? remaining) with true by lia. rewrite Ht.
    unfold usize_saturating_sub. rewrite Z.max_r by lia.
    destruct (IH (remaining - tokens_of m) ltac:(lia) Hall) as (newer & cut & older & -> & Hs & Htot & Hcut).
    exists (m :: newer), cut, older. rewrite total_tokens_cons. split_and!; [done| |lia|].
    + rewrite Hs. change (List.map kept (m :: newer)) with (kept m :: List.map kept newer). unfold kept at 2. rewrite Eo.
      by destruct (forallb is_input_text content).
    + destruct cut as [|[m' text'] [|? ?]]; simpl in *; [destruct Hcut; [by left|right; rewrite total_tokens_cons; lia]| |done].
      rewrite total_tokens_cons. replace (remaining - (tokens_of m + total_tokens newer)) with (remaining - tokens_of m - total_tokens newer) by lia.
      done.
  - replace (remaining <? tokens_of m) with true by lia. replace (tokens_of m <=? remaining) with false by lia. simpl. rewrite Ht. simpl.
    exists [], [(m, text)], rest. unfold shortened, cut_ok, total_tokens. simpl. rewrite Eo, Z.sub_0_r. split_and!; try done; lia.
Qed.

(** *** The text of what is kept *)

Definition envelope_text (e : Envelope) : str :=
  match item e with Message _ _ content _ _ => concat (omap content_text content) | _ => [] end.

(** Without media there are no labels. *)
Lemma text_only_no_labels content : forall previous, forallb is_input_text content = true ->
  is_some_and previous is_image_content = false -> is_some_and previous is_audio_content = false ->
  user_message_text (read_content previous content) = concat (omap content_text content).
Proof.
  unfold user_message_text. induction content as [|c content IH]; intros previous Ht Hi Ha; [done|].
  destruct c as [text| | |]; try done. simpl in Ht.
  assert (is_some_and (head content) is_image_content = false /\ is_some_and (head content) is_audio_content = false) as [Hni Hna].
  { destruct content as [|[]]; done. }
  simpl. replace (is_label previous text (head content)) with false; [simpl; by rewrite IH|].
  unfold is_label. by rewrite Hi, Ha, Hni, Hna, !andb_false_r.
Qed.

Lemma collect_spec items m : m ∈ collect_annotated_user_messages items ->
  exists e user, e ∈ items /\ parse_user_turn_item (item e) = Some user /\ is_summary_message (user_message_text user) = false
  /\ m = mkCompacted (user_message_text user) (item e) (metadata e).
Proof.
  unfold collect_annotated_user_messages, compacted_user_message. intros (e & He & Hm)%list_elem_of_omap.
  destruct (parse_user_turn_item (item e)) as [user|] eqn:E; [|done].
  destruct (is_summary_message (user_message_text user)) eqn:Es; [done|]. injection Hm as <-. eauto 10.
Qed.

Lemma parse_user_turn_item_Some (i : ResponseItem) user : parse_user_turn_item i = Some user ->
  exists id content phase meta, i = Message id (lit "user") content phase meta
  /\ is_contextual_user_message_content content = false /\ user = read_content None content
  /\ parse_visible_hook_prompt_message content = None.
Proof.
  destruct i as [|id role content phase meta| | | | | | | | | | | | | | | |]; try done. cbn [parse_user_turn_item].
  destruct (str_eqb role (lit "user")) eqn:Er; [|done]. apply str_eqb_spec in Er as ->.
  destruct parse_visible_hook_prompt_message eqn:Eh; [done|]. unfold parse_user_message.
  destruct is_contextual_user_message_content eqn:Ec; [done|]. intros [= <-]. eauto 10.
Qed.

Lemma kept_text items m : m ∈ collect_annotated_user_messages items -> envelope_text (kept m) = message m.
Proof.
  intros (e & user & _ & Hp & _ & ->)%collect_spec. apply parse_user_turn_item_Some in Hp as (id & content & phase & meta & -> & _ & -> & _).
  unfold kept, envelope_text. simpl. destruct (forallb is_input_text content) eqn:Et; simpl; [|by rewrite app_nil_r].
  by rewrite text_only_no_labels.
Qed.

Definition summary_or_note (summary : str) : str := if is_nil summary then lit "(no summary available)" else summary.

Lemma build_spec history ms summary limit : 0 <= limit <= usize_max -> Forall collected ms ->
  exists older cut newer, ms = older ++ List.map fst cut ++ newer
  /\ build_compacted_history_with_limit history ms summary limit
     = Some (history ++ List.map (uncurry shortened) cut ++ List.map kept newer ++ [summary_envelope (summary_or_note summary)])
  /\ total_tokens newer <= limit /\ cut_ok limit older cut newer.
Proof.
  intros Hl Hc. unfold build_compacted_history_with_limit. destruct (0 <? limit) eqn:E0.
  - destruct (select_messages_spec (rev ms) limit Hl) as (newer & cut & older & Hms & -> & Ht & Hcut); [by apply Forall_rev|].
    exists (rev older), cut, (rev newer).
    assert (List.length cut <= 1)%nat as Hlen by (destruct cut as [|[] [|? ?]]; simpl in *; [lia|lia|done]).
    assert (forall A (f : CompactedUserMessage Json * str -> A), rev (List.map f cut) = List.map f cut) as Hrev.
    { intros A f. destruct cut as [|x [|? ?]]; simpl in *; [done|done|lia]. }
    assert (total_tokens (rev newer) = total_tokens newer) as Htr.
    { clear. induction newer as [|m newer IH]; simpl; [done|]. rewrite total_tokens_app, IH, !total_tokens_cons. unfold total_tokens. simpl. lia. }
    split_and!.
    + rewrite <- (rev_involutive ms), Hms, !rev_app_distr, Hrev. by rewrite app_assoc.
    + rewrite rev_app_distr, Hrev, map_rev. by rewrite <- app_assoc.
    + lia.
    + unfold cut_ok in *. rewrite Htr. destruct cut as [|[? ?] [|? ?]]; [|done|done].
      destruct Hcut as [->|]; [by left|by right].
  - exists ms, [], []. rewrite app_nil_r. unfold cut_ok, total_tokens. simpl. split_and!; try done; [lia|right; lia].
Qed.

Lemma collected_of_history items :
  (forall m, m ∈ collect_annotated_user_messages items -> byte_len (message m) <= i64_max) ->
  Forall collected (collect_annotated_user_messages items).
Proof.
  intros Hb. apply Forall_forall. intros m Hm. split; [|by apply Hb].
  apply collect_spec in Hm as (e & user & _ & Hp & _ & ->). by apply parse_user_turn_item_Some in Hp as (? & ? & ? & ? & -> & _).
Qed.

End Kept.

(** ** Compacting again *)

Section Again.
Context {Json : Type} `{Fragments}.
Notation ResponseItem := (ResponseItem Json).
Notation Envelope := (ResponseItemEnvelope Json).
Implicit Types (m : CompactedUserMessage Json) (ms : list (CompactedUserMessage Json)).

Definition summary_text (suffix : str) : str := SUMMARY_PREFIX ++ [LF] ++ suffix.

Lemma summary_text_is_summary suffix : is_summary_message (summary_text suffix) = true.
Proof. apply starts_with_spec. exists suffix. unfold summary_text. by rewrite app_assoc. Qed.

(** A summary is never taken for a message of the user. *)
Lemma summary_not_collected suffix e id phase meta : item e = Message id (lit "user") [MsgInputText (summary_text suffix)] phase meta ->
  compacted_user_message (item e) (metadata (Json := Json) e) = None.
Proof.
  intros ->. unfold compacted_user_message. destruct parse_user_turn_item as [user|] eqn:E; [|done].
  apply parse_user_turn_item_Some in E as (? & ? & ? & ? & [= <- <- <- <-] & _ & -> & _).
  rewrite text_only_no_labels by done. cbn [omap list_omap content_text concat]. by rewrite app_nil_r, summary_text_is_summary.
Qed.

Lemma collect_app l l' :
  collect_annotated_user_messages (Json := Json) (l ++ l') = collect_annotated_user_messages l ++ collect_annotated_user_messages l'.
Proof. apply omap_app. Qed.

Lemma collect_cons (e : Envelope) l : collect_annotated_user_messages (e :: l)
  = match compacted_user_message (item e) (metadata e) with
    | Some m => m :: collect_annotated_user_messages l
    | None => collect_annotated_user_messages l
    end.
Proof. done. Qed.

Lemma collect_summary suffix : collect_annotated_user_messages [summary_envelope (Json := Json) (summary_text suffix)] = [].
Proof. by rewrite collect_cons, (summary_not_collected suffix (summary_envelope _) _ _ _ eq_refl). Qed.

Definition text_only m : bool := match original m with Message _ _ content _ _ => forallb is_input_text content | _ => false end.

Definition recollected m : CompactedUserMessage Json := mkCompacted (message m) (item (kept m)) (harness_metadata m).

Lemma collect_kept items m : m ∈ collect_annotated_user_messages items -> text_only m = true ->
  compacted_user_message (item (kept m)) (metadata (kept m)) = Some (recollected m) /\ kept (recollected m) = kept m.
Proof.
  intros (e & user & _ & Hp & Hs & ->)%collect_spec. unfold recollected, kept, text_only, compacted_user_message. simpl.
  pose proof Hp as (id & content & phase & meta & He & Hc & Hu & Hh)%parse_user_turn_item_Some. rewrite He. intros Ht. rewrite Ht. simpl.
  rewrite Hh. unfold parse_user_message. rewrite Hc, Ht, <- Hu, Hs. done.
Qed.

Lemma build_all_fit ms summary limit : 0 <= limit <= usize_max -> Forall collected ms -> total_tokens ms < limit ->
  build_compacted_history_with_limit [] ms summary limit = Some (List.map kept ms ++ [summary_envelope (summary_or_note summary)]).
Proof.
  intros Hl Hc Ht. destruct (build_spec [] ms summary limit Hl Hc) as (older & cut & newer & -> & -> & _ & Hcut).
  rewrite !total_tokens_app in Ht. pose proof (total_tokens_nonneg older). pose proof (total_tokens_nonneg (List.map fst cut)).
  destruct cut as [|[m text] [|? ?]]; simpl in *; [|rewrite total_tokens_cons in Ht; pose proof (total_tokens_nonneg (@nil (CompactedUserMessage Json))); lia|done].
  destruct Hcut as [->|]; [done|lia].
Qed.

Lemma summary_or_note_text suffix : summary_or_note (summary_text suffix) = summary_text suffix.
Proof. done. Qed.

(** Compacting a compacted history keeps the same messages and replaces the
    summary: neither do messages get lost nor do summaries pile up, as long as
    the messages of the user are text and fit the budget. *)
Theorem compaction_is_stable (items : list Envelope) first second :
  (forall m, m ∈ collect_annotated_user_messages items -> text_only m = true /\ byte_len (message m) <= i64_max) ->
  total_tokens (collect_annotated_user_messages items) < COMPACT_USER_MESSAGE_MAX_TOKENS ->
  exists retained,
    build_compacted_history [] (collect_annotated_user_messages items) (summary_text first)
      = Some (retained ++ [summary_envelope (summary_text first)])
    /\ List.map envelope_text retained = List.map message (collect_annotated_user_messages items)
    /\ build_compacted_history [] (collect_annotated_user_messages (retained ++ [summary_envelope (summary_text first)])) (summary_text second)
       = Some (retained ++ [summary_envelope (summary_text second)]).
Proof.
  set (ms := collect_annotated_user_messages items). intros Hm Ht. unfold build_compacted_history.
  assert (0 <= COMPACT_USER_MESSAGE_MAX_TOKENS <= usize_max) as Hl by (unfold COMPACT_USER_MESSAGE_MAX_TOKENS, usize_max; lia).
  assert (Forall collected ms) as Hc by (apply collected_of_history; intros m; apply Hm).
  exists (List.map kept ms). rewrite build_all_fit, summary_or_note_text by done. split; [done|]. split.
  { rewrite map_map. apply map_ext_in. intros m ?%list_elem_of_In. by apply (kept_text items). }
  assert (forall l, (forall m, m ∈ l -> m ∈ ms) -> collect_annotated_user_messages (List.map kept l) = List.map recollected l) as Hcol.
  { intros l Hl'. induction l as [|m l IH]; [done|]. cbn [List.map]. rewrite collect_cons.
    destruct (collect_kept items m) as [-> _]; [apply Hl'; set_solver|apply Hm, Hl'; set_solver|]. rewrite IH by set_solver. done. }
  rewrite collect_app, collect_summary, app_nil_r, Hcol by done.
  assert (forall l, total_tokens (List.map recollected l) = total_tokens l) as Htot
    by (intros l; unfold total_tokens; by rewrite map_map).
  rewrite build_all_fit, summary_or_note_text; [|done| |by rewrite Htot].
  - f_equal. f_equal. rewrite map_map. apply map_ext_in. intros m ?%list_elem_of_In. apply (collect_kept items m); [done|by apply Hm].
  - apply Forall_map. apply Forall_forall. intros m Hmem. destruct (Hm m Hmem) as [Hto Hb]. split; [|done].
    unfold recollected, kept. simpl. unfold text_only in Hto. by destruct (original m); try done; destruct forallb.
Qed.
End Again.

(** ** Where the context goes *)

Section Insertion.
Context {Json : Type} `{Fragments}.
Notation ResponseItem := (ResponseItem Json).
Notation Envelope := (ResponseItemEnvelope Json).
Implicit Types (e : Envelope) (l h : list Envelope).

(** Messages in the user's name, and those that somebody sent: messages of the
    user other than summaries, and messages between agents other than answers. *)
Definition is_user_like e : bool := is_some (parse_user_turn_item (item e)).
Definition is_real e : bool :=
  is_agent_request (item e) || is_some_and (parse_user_turn_item (item e)) (fun user => negb (is_summary_message (user_message_text user))).
Definition is_compaction e : bool := is_compaction_item (item e).

(** [i] is the position of the last item with [p]. *)
Definition last_at (p : Envelope -> bool) h (i : option nat) : Prop :=
  match i with
  | Some i => exists before e after, h = before ++ e :: after /\ length before = i /\ p e = true /\ Forall (fun e => p e = false) after
  | None => Forall (fun e => p e = false) h
  end.

Lemma last_at_snoc p h e i : last_at p (h ++ [e]) (if p e then Some (length h) else i) <-> (p e = true \/ last_at p h i).
Proof.
  destruct (p e) eqn:E; simpl.
  - split; [by left|]. intros _. exists h, e, []. done.
  - destruct i as [i|]; simpl.
    + split.
      * intros (b & x & a & Hh & Hi & Hp & Ha). right. destruct a as [|y a _] using rev_ind.
        { apply app_inj_tail in Hh as [-> ->]. congruence. }
        rewrite app_comm_cons, app_assoc in Hh. apply app_inj_tail in Hh as [-> ->]. apply Forall_app in Ha as [Ha _]. eauto 10.
      * intros [?|(b & x & a & -> & Hi & Hp & Ha)]; [done|]. exists b, x, (a ++ [e]). rewrite <- app_assoc. split_and!; try done.
        apply Forall_app. split; [done|]. by constructor.
    + rewrite Forall_app, Forall_singleton. naive_solver.
Qed.

Lemma rev_imap_snoc h e : rev (imap pair (h ++ [e])) = (length h, e) :: rev (imap pair h).
Proof. rewrite imap_app, rev_app_distr. simpl. by rewrite Nat.add_0_r. Qed.

Lemma scan_back_spec h : forall acc,
  last_at is_real h (fst (scan_back (rev (imap pair h)) acc))
  /\ (fst (scan_back (rev (imap pair h)) acc) = None ->
      exists i, last_at is_user_like h i /\ snd (scan_back (rev (imap pair h)) acc) = option_or acc i).
Proof.
  induction h as [|e h IH] using rev_ind; intros acc.
  { simpl. split; [constructor|]. intros _. exists None. split; [constructor|by destruct acc]. }
  rewrite rev_imap_snoc. cbn [scan_back].
  pose proof (last_at_snoc is_real h e) as Hreal. pose proof (last_at_snoc is_user_like h e) as Huser.
  unfold is_real at 2 in Hreal. unfold is_real at 2 in Hreal. unfold is_user_like at 2 in Huser. unfold is_user_like at 2 in Huser.
  destruct (is_agent_request (item e)).
  { split; [|done]. apply (Hreal None). by left. }
  destruct (parse_user_turn_item (item e)) as [user|]; cbn [is_some is_some_and is_none negb orb] in Hreal, Huser;
    [destruct (is_summary_message (user_message_text user)); cbn [negb] in Hreal|].
  - destruct (IH (match acc with None => Some (length h) | Some _ => acc end)) as [H1 H2]. split; [apply Hreal; by right|].
    intros Hn. destruct (H2 Hn) as (i & Hi & ->). exists (Some (length h)). split; [apply (Huser None); by left|by destruct acc].
  - split; [|done]. apply (Hreal None). by left.
  - destruct (IH acc) as [H1 H2]. split; [apply Hreal; by right|]. intros Hn. destruct (H2 Hn) as (i & Hi & ->).
    exists i. split; [apply Huser; by right|done].
Qed.

Lemma rposition_from_spec p h : forall n, rposition_from p n h = option_map (Nat.add n) (rposition_from p 0 h).
Proof.
  induction h as [|e h IH]; intros n; [done|]. simpl. rewrite (IH (S n)), (IH 1%nat).
  destruct (rposition_from p 0 h); simpl; [f_equal; lia|]. destruct (p (item e)); simpl; [f_equal; lia|done].
Qed.

Lemma rposition_spec p h : last_at (fun e => p (item e)) h (rposition p h).
Proof.
  unfold rposition. induction h as [|e h IH]; [constructor|]. simpl. rewrite rposition_from_spec.
  destruct (rposition_from p 0 h) as [i|]; simpl in *.
  - destruct IH as (b & x & a & -> & <- & Hp & Ha). exists (e :: b), x, a. done.
  - destruct (p (item e)) eqn:E; [exists [], e, h; done|by constructor].
Qed.

Lemma last_at_split p h i : last_at p h (Some i) -> exists e r, drop i h = e :: r /\ p e = true /\ Forall (fun e => p e = false) r.
Proof. intros (b & e & a & -> & <- & Hp & Ha). exists e, a. by rewrite drop_app_length. Qed.

(** The context is put before the last message somebody sent; if there is none,
    before the last one in the user's name, which is a summary; if there is none
    either, before the last compaction item; and else at the end.  Nothing else
    moves. *)
Theorem context_goes_before_last_message h context :
  exists before after, h = before ++ after
  /\ insert_initial_context_before_last_real_user_or_summary h context = before ++ context ++ after
  /\ ((exists e r, after = e :: r /\ is_real e = true /\ Forall (fun e => is_real e = false) r)
      \/ Forall (fun e => is_real e = false) h /\
         ((exists e r, after = e :: r /\ is_user_like e = true /\ Forall (fun e => is_user_like e = false) r)
          \/ Forall (fun e => is_user_like e = false) h /\
             ((exists e r, after = e :: r /\ is_compaction e = true /\ Forall (fun e => is_compaction e = false) r)
              \/ Forall (fun e => is_compaction e = false) h /\ after = []))).
Proof.
  unfold insert_initial_context_before_last_real_user_or_summary, insertion_index.
  destruct (scan_back_spec h None) as [Hreal Huser]. pose proof (rposition_spec is_compaction_item h) as Hcomp.
  destruct (scan_back (rev (imap pair h)) None) as [[i|] user]; simpl in *.
  { exists (take i h), (drop i h). rewrite take_drop. split_and!; try done. left. by apply last_at_split. }
  destruct (Huser eq_refl) as ([i|] & Hi & ->); simpl in *.
  { exists (take i h), (drop i h). rewrite take_drop. split_and!; try done. right. split; [done|]. left. by apply last_at_split. }
  destruct (rposition is_compaction_item h) as [i|].
  { exists (take i h), (drop i h). rewrite take_drop. split_and!; try done. right. split; [done|]. right. split; [done|]. left.
    by apply last_at_split in Hcomp. }
  exists h, []. rewrite !app_nil_r. split_and!; try done. right. split; [done|]. right. split; [done|]. by right.
Qed.
End Insertion.

(** ** The summary stays last *)

Section Last.
Context {Json : Type} `{Fragments}.
Notation ResponseItem := (ResponseItem Json).
Notation Envelope := (ResponseItemEnvelope Json).
Implicit Types (e : Envelope) (l h : list Envelope).

(** Text that starts with a capital letter A is none of the injected ones. *)
Lemma trim_capital r : exists r', trim (65%N :: r) = 65%N :: r'.
Proof.
  unfold trim. change (trim_start (65%N :: r)) with (65%N :: r). unfold trim_end.
  destruct (drop_while_end_prefix is_whitespace (65%N :: r)) as (suf & Heq & Hsuf).
  destruct (drop_while_end is_whitespace (65%N :: r)) as [|c r']; simpl in Heq.
  - subst suf. by inversion Hsuf.
  - injection Heq as <- _. by exists r'.
Qed.

Lemma capital_not_contextual r : is_standard_contextual_user_text (65%N :: r) = false.
Proof.
  destruct (trim_capital r) as [r' Ht]. unfold is_standard_contextual_user_text, CONTEXTUAL_USER_FRAGMENT_MATCHERS. cbn [existsb].
  rewrite !orb_false_iff. unfold matches_text, matches_additional_context, matches_internal_context. rewrite !Ht.
  split_and!; reflexivity.
Qed.

(** What is assumed of the XML reader: the text of a summary, which starts with a
    letter, is not an element. *)
Hypothesis summary_is_not_xml : forall suffix, from_xml_str (trim (summary_text suffix)) = None.

Lemma summary_is_user_like suffix e id phase meta : item e = Message id (lit "user") [MsgInputText (summary_text suffix)] phase meta ->
  is_user_like e = true.
Proof.
  intros He. unfold is_user_like. rewrite He.
  assert (parse_hook_prompt_fragment (summary_text suffix) = None) as Hx by (unfold parse_hook_prompt_fragment; by rewrite summary_is_not_xml).
  assert (is_standard_contextual_user_text (summary_text suffix) = false) as Hs by apply (capital_not_contextual (drop 1 (summary_text suffix))).
  cbn [parse_user_turn_item]. rewrite str_eqb_refl. unfold parse_visible_hook_prompt_message. cbn [hook_fragments]. rewrite Hx, Hs.
  unfold parse_user_message, is_contextual_user_message_content, is_contextual_user_fragment. cbn [existsb content_text is_some_and].
  rewrite Hx, Hs. done.
Qed.

Definition is_summary_of (suffix : str) e : Prop := exists phase meta, e = new_envelope (Message None (lit "user") [MsgInputText (summary_text suffix)] phase meta).

Lemma summary_is_not_real suffix e : is_summary_of suffix e -> is_real e = false.
Proof.
  intros (phase & meta & ->). unfold is_real. destruct (parse_user_turn_item _) as [user|] eqn:E; [|done].
  apply parse_user_turn_item_Some in E as (? & ? & ? & ? & [= <- <- <- <-] & _ & -> & _).
  cbn [is_some_and]. rewrite text_only_no_labels by done. cbn [omap list_omap content_text concat].
  rewrite app_nil_r, summary_text_is_summary. done.
Qed.

(** Before the last message somebody sent, or directly before the summary. *)
Definition placed h after : Prop :=
  (exists e r, after = e :: r /\ is_real e = true /\ Forall (fun e => is_real e = false) r)
  \/ Forall (fun e => is_real e = false) h /\ after = [].

Lemma insertion_keeps_last h s context suffix : is_summary_of suffix s ->
  exists before after, h = before ++ after /\ placed h after
  /\ insert_initial_context_before_last_real_user_or_summary (h ++ [s]) context = before ++ context ++ after ++ [s].
Proof.
  intros Hs. assert (is_user_like s = true) as Hu by (destruct Hs as (? & ? & ->); by eapply summary_is_user_like).
  pose proof (summary_is_not_real _ _ Hs) as Hr.
  destruct (context_goes_before_last_message (h ++ [s]) context) as (before & after & Heq & -> & Hcase).
  destruct after as [|x after _] using rev_ind.
  { exfalso. destruct Hcase as [(? & ? & ? & _)|[_ [(? & ? & ? & _)|[Hall _]]]]; try done.
    rewrite Forall_app, Forall_singleton in Hall. destruct Hall. congruence. }
  rewrite app_assoc in Heq. apply app_inj_tail in Heq as [-> <-]. exists before, after. split_and!; [done| |done].
  destruct Hcase as [(e & r & He & Hre & Hnr)|[Hall [(e & r & He & _ & Hnu)|[Hall' _]]]].
  - left. destruct r as [|y r _] using rev_ind.
    { destruct after; [|by destruct after]. injection He as ->. congruence. }
    rewrite app_comm_cons in He. apply app_inj_tail in He as [-> <-]. exists e, r. apply Forall_app in Hnr as [? _]. done.
  - right. apply Forall_app in Hall as [Hall _]. split; [done|]. destruct after as [|y after]; [done|]. injection He as <- <-.
    rewrite Forall_app, Forall_singleton in Hnu. destruct Hnu. congruence.
  - rewrite Forall_app, Forall_singleton in Hall'. destruct Hall'. congruence.
Qed.

Lemma last_assistant_message_visible (l : list ResponseItem) m : last_assistant_message l = Some (Some m) -> is_nil (trim m) = false.
Proof.
  induction l as [|i l IH]; [done|]. simpl. destruct (last_assistant_message_from_item i false) as [[m'|]|] eqn:E; [|done|done].
  intros [= <-]. revert E. unfold last_assistant_message_from_item. destruct raw_assistant_output_text_from_item as [c|]; [|done].
  destruct (is_nil c); [done|]. destruct strip_hidden_assistant_markup as [t|]; [|done]. simpl. by destruct (is_nil (trim t)) eqn:En; intros [= <-].
Qed.

Lemma stamp_last_snoc turn h e : stamp_last turn (h ++ [e]) = h ++ [set_item e (set_turn_id_if_missing (item e) turn)].
Proof. unfold stamp_last. by rewrite last_snoc, removelast_last. Qed.

Lemma stamped_summary turn suffix :
  is_summary_of suffix (set_item (summary_envelope (summary_text suffix)) (set_turn_id_if_missing (item (summary_envelope (Json := Json) (summary_text suffix))) turn)).
Proof.
  unfold set_turn_id_if_missing. destruct (is_nil turn || _); [by eexists _, _|]. by eexists _, _.
Qed.

(** The newest messages of the user that fit, one of them shortened if there is
    room for a part of it only, the context among them, and the summary. *)
Definition compacted_shape items context suffix history : Prop :=
  exists older cut newer before after summary,
    collect_annotated_user_messages items = older ++ List.map fst cut ++ newer
    /\ cut_ok COMPACT_USER_MESSAGE_MAX_TOKENS older cut newer
    /\ total_tokens newer <= COMPACT_USER_MESSAGE_MAX_TOKENS
    /\ List.map (fun m => envelope_text (kept m)) newer = List.map message newer
    /\ before ++ after = List.map (uncurry shortened) cut ++ List.map kept newer
    /\ (context = [] \/ placed (before ++ after) after)
    /\ is_summary_of suffix summary
    /\ history = before ++ context ++ after ++ [summary].

Lemma build_shape items context suffix sub_id :
  (forall m, m ∈ collect_annotated_user_messages items -> byte_len (message m) <= i64_max) ->
  exists new_history, build_compacted_history [] (collect_annotated_user_messages items) (summary_text suffix) = Some new_history
  /\ compacted_shape items context suffix
       (if is_nil context then stamp_last sub_id new_history
        else insert_initial_context_before_last_real_user_or_summary (stamp_last sub_id new_history) context).
Proof.
  intros Hb. unfold build_compacted_history.
  destruct (build_spec [] (collect_annotated_user_messages items) (summary_text suffix) COMPACT_USER_MESSAGE_MAX_TOKENS)
    as (older & cut & newer & He & -> & Ht & Hc); [done|by apply collected_of_history|].
  assert (List.map (fun m => envelope_text (kept m)) newer = List.map message newer) as Htexts.
  { apply map_ext_in. intros m Hm%list_elem_of_In. apply (kept_text items). rewrite He. set_solver. }
  eexists. split; [done|]. rewrite summary_or_note_text, app_nil_l, app_assoc, stamp_last_snoc.
  pose proof (stamped_summary sub_id suffix) as Hs. set (summary := set_item _ _) in *.
  destruct (insertion_keeps_last (List.map (uncurry shortened) cut ++ List.map kept newer) summary context suffix Hs)
    as (before & after & Hba & Hp & ->).
  destruct (is_nil context) eqn:En.
  - apply is_nil_true in En as ->. exists older, cut, newer, (before ++ after), [], summary.
    rewrite app_nil_r, Hba. split_and!; try done. by left.
  - exists older, cut, newer, before, after, summary. rewrite <- Hba. split_and!; try done. by right.
Qed.

Lemma last_assistant_message_total (l : list ResponseItem) : exists found, last_assistant_message l = Some found.
Proof.
  induction l as [|i l [found IH]]; [by eexists|]. simpl. unfold last_assistant_message_from_item, strip_hidden_assistant_markup.
  destruct raw_assistant_output_text_from_item as [c|]; [|eauto]. destruct (is_nil c); [eauto|].
  rewrite strip_citations_run. simpl. destruct (is_nil (trim _)); eauto.
Qed.

(** C24. A compaction leaves the newest messages of the user that fit the budget, at
    most one of them shortened; the context of the running turn directly before
    the last message that is left, or before the summary if none is; and last the
    summary, the last visible message of the model.  It fails only between turns,
    when the model wrote no summary.  Messages are at most [i64::MAX] bytes long, and
    the XML reader takes no text with the prefix of summaries for a fragment. *)
Theorem compacted_history_shape (post_turn : bool) output items sub_id context :
  (forall m, m ∈ collect_annotated_user_messages items -> byte_len (message m) <= i64_max) ->
  exists found r, get_last_assistant_message_from_turn (if post_turn then output else List.map item items) = Some found
  /\ compacted_replacement post_turn output items sub_id context = Some r
  /\ match r with
     | Err e => post_turn = true /\ found = None /\ e = NO_SUMMARY
     | Ok (history, suffix) => suffix = unwrap_or found [] /\ (post_turn = true -> found <> None) /\ compacted_shape items context suffix history
     end.
Proof.
  intros Hb. unfold compacted_replacement, get_last_assistant_message_from_turn.
  destruct (last_assistant_message_total (rev (if post_turn then output else List.map item items))) as [found El].
  exists found. destruct (build_shape items context (unwrap_or found []) sub_id Hb) as (h & Hh & Hs). unfold summary_text in Hh.
  destruct post_turn; rewrite El; cbn [option_map].
  - destruct found as [suffix|]; [|by eexists]. rewrite (last_assistant_message_visible _ _ El). cbn [unwrap_or] in Hh, Hs. rewrite Hh. by eexists.
  - rewrite Hh. by eexists.
Qed.
End Last.

(** ** Goal changes are kept *)

Section Goals.
Context {Json : Type} `{Fragments}.
Notation ResponseItem := (ResponseItem Json).
Notation Envelope := (ResponseItemEnvelope Json).
Implicit Types (e : Envelope) (l h : list Envelope).

(** The same item, up to an identifier that was missing. *)
Definition same_item (i i' : ResponseItem) : Prop :=
  i' = i \/ is_some_and (item_id i) (fun id => negb (is_nil id)) = false /\ exists id, i' = set_id i (Some id).
Definition identified (i : ResponseItem) : Prop := is_some (id_prefix i) = true -> is_some_and (item_id i) (fun id => negb (is_nil id)) = true.

Lemma set_id_same i id : is_some (id_prefix i) = true -> item_id (set_id (Json := Json) i (Some id)) = Some id.
Proof. by destruct i. Qed.

Lemma id_prefix_set_id i id : id_prefix (set_id (Json := Json) i id) = id_prefix i.
Proof. by destruct i. Qed.

Lemma assign_same uuid i : same_item i (assign_missing_response_item_id uuid i) /\ identified (assign_missing_response_item_id uuid i).
Proof.
  unfold assign_missing_response_item_id, same_item, identified. destruct (is_some_and (item_id i) _) eqn:E; [by auto|].
  destruct (id_prefix i) as [p|] eqn:Ep; [|rewrite Ep; split; [by left|done]]. split; [by eauto|]. intros _.
  rewrite set_id_same by (by rewrite Ep). by destruct p.
Qed.

Lemma alter_metadata f n l : List.map item (alter (with_harness f) n l) = List.map item l.
Proof. revert n. induction l as [|e l IH]; intros [|n]; simpl; [done..|]. f_equal. apply IH. Qed.

Lemma assigned_items uuids l :
  Forall2 (fun e i => same_item (item e) i /\ identified i) l
    (List.map item (imap (fun n e => set_item e (assign_missing_response_item_id (uuids n) (item e))) l)).
Proof.
  revert uuids. induction l as [|e l IH]; intros uuids; simpl; constructor; [apply assign_same|].
  rewrite (imap_ext _ (fun n (e : Envelope) => set_item e (assign_missing_response_item_id ((uuids ∘ S) n) (item e)))) by done. apply IH.
Qed.

Lemma goal_message_ids_elem id (l : list ResponseItem) :
  id ∈ goal_message_ids l <-> exists i, i ∈ l /\ item_id i = Some id /\ is_some (goal_message_text i) = true.
Proof.
  unfold goal_message_ids. rewrite elem_of_list_to_set, list_elem_of_omap. setoid_rewrite list_elem_of_In. setoid_rewrite filter_In. naive_solver.
Qed.

Lemma list_filter_sublist {A} (p : A -> bool) (l : list A) : List.filter p l `sublist_of` l.
Proof. induction l as [|x l IH]; simpl; [constructor|]. destruct (p x); by constructor. Qed.

(** C25. The history that is installed is the one computed, every item of it with an
    identifier, and behind it, in their order, exactly those items of the current
    history that are goal changes with an identifier, were not part of the input of
    the compaction and are not in the computed history: nothing else comes back, no
    goal change is lost, and none that was summarized or replaced is repeated. *)
Theorem goal_changes_survive uuids attribution model_hash (input current items : list Envelope) :
  let input_ids := goal_message_ids (List.map item input) in
  exists fixed later, replacement_items uuids attribution model_hash input_ids current items = fixed ++ later
  /\ Forall2 (fun e e' => same_item (item e) (item e') /\ identified (item e')) items fixed
  /\ later `sublist_of` current
  /\ (forall e, e ∈ later <-> e ∈ current /\ is_some (goal_message_text (item e)) = true
        /\ exists id, item_id (item e) = Some id /\ id ∉ input_ids /\ id ∉ goal_message_ids (List.map item fixed))
  /\ (forall e id, e ∈ current -> is_some (goal_message_text (item e)) = true -> item_id (item e) = Some id -> id ∉ input_ids ->
        id ∈ goal_message_ids (List.map item (fixed ++ later))).
Proof.
  intros input_ids. unfold replacement_items.
  set (assigned := imap _ items). set (attributed := match attribution with Some _ => _ | None => _ end).
  set (fixed := match rposition is_compaction_item attributed with Some _ => _ | None => _ end).
  assert (List.map item fixed = List.map item assigned) as Hf.
  { unfold fixed, attributed. destruct rposition; destruct attribution; by rewrite ?alter_metadata. }
  eexists fixed, _. split; [done|]. split_and!.
  - pose proof (assigned_items uuids items) as Ha. fold assigned in Ha. rewrite <- Hf in Ha. by apply Forall2_fmap_r in Ha.
  - apply list_filter_sublist.
  - intros e. rewrite list_elem_of_In, filter_In, <- list_elem_of_In. f_equiv. unfold is_later_goal.
    destruct (item_id (item e)) as [id|]; simpl; rewrite ?andb_false_r, ?andb_true_iff, ?bool_decide_eq_true; naive_solver.
  - intros e id He Hg Hid Hn. rewrite map_app. apply goal_message_ids_elem.
    destruct (decide (id ∈ goal_message_ids (List.map item fixed))) as [Hin|Hout].
    { apply goal_message_ids_elem in Hin as (i & ? & ? & ?). exists i. set_solver. }
    exists (item e). split; [|done]. apply elem_of_app. right. apply list_elem_of_In, in_map, filter_In. split; [by apply list_elem_of_In|].
    unfold is_later_goal. rewrite Hg, Hid. simpl. by rewrite !bool_decide_true.
Qed.
End Goals.

(** ** On a short conversation *)

#[local] Instance plain_fragments : Fragments := { from_xml_str _ := None; is_inter_agent_json _ := false }.

Definition said (role text : string) : ResponseItemEnvelope unit :=
  new_envelope (Message (Some (lit text)) (lit role)
    [if str_eqb (lit role) (lit "assistant") then MsgOutputText (lit text) else MsgInputText (lit text)] None None).
Definition goal_change (id : string) : ResponseItemEnvelope unit :=
  new_envelope (Message (Some (lit id)) (lit "user") [MsgInputText (lit "new goal")] None (Some (set_kinds no_passthrough [lit "user.goal"]))).

Definition conversation : list (ResponseItemEnvelope unit) :=
  [said "user" "fix the parser"; said "assistant" "looking"; said "user" "<turn_aborted>stop</turn_aborted>"; said "user" "and the tests";
   said "assistant" "parser fixed, tests pending"].

Definition texts_of (l : list (ResponseItemEnvelope unit)) : list str := List.map envelope_text l.

(** Within a turn: the context before the last message, the summary last. *)
Example conversation_compacted :
  option_map (fun r => match r with Ok (history, _) => texts_of history | Err _ => [] end)
    (compacted_replacement false [] conversation (lit "turn-1") [said "developer" "context"])
  = Some [lit "fix the parser"; lit "context"; lit "and the tests"; summary_text (lit "parser fixed, tests pending")].
Proof. vm_compute. reflexivity. Qed.

(** With room for two tokens, the newest message is shortened to its ends. *)
Example conversation_shortened :
  option_map texts_of (build_compacted_history_with_limit [] (collect_annotated_user_messages conversation) (lit "done") 2)
  = Some [lit "and " ++ format_truncation_marker true 2 ++ lit "ests"; lit "done"].
Proof. vm_compute. reflexivity. Qed.

(** An image without a text leaves an empty message. *)
Example image_leaves_empty_message :
  option_map texts_of (build_compacted_history [] (collect_annotated_user_messages
    [new_envelope (Message (Json := unit) None (lit "user") [MsgInputImage (FileImage (lit "f")) None] None None)]) (lit "done"))
  = Some [[]; lit "done"].
Proof. vm_compute. reflexivity. Qed.

Example goal_change_survives :
  let input := conversation ++ [goal_change "g1"] in
  let current := input ++ [goal_change "g2"] in
  List.map (fun e => item_id (item e))
    (replacement_items (fun n => show_nat n) None None (goal_message_ids (List.map item input)) current [summary_envelope (lit "done")])
  = [Some (lit "msg_0"); Some (lit "g2")].
Proof. vm_compute. reflexivity. Qed.

Lemma compacted_history_shape_witness :
  exists r, compacted_replacement false [] conversation (lit "turn-1") [said "developer" "context"] = Some r
  /\ match r with Ok (history, suffix) => compacted_shape conversation [said "developer" "context"] suffix history | Err _ => False end.
Proof.
  destruct (compacted_history_shape (H := plain_fragments) (fun _ => eq_refl) false [] conversation (lit "turn-1") [said "developer" "context"])
    as (found & r & _ & Hr & Hm).
  - intros m Hm%list_elem_of_In. apply Z.leb_le. revert m Hm. apply forallb_forall. vm_compute. reflexivity.
  - exists r. split; [exact Hr|]. destruct r as [[history suffix]|e]; [apply Hm|]. destruct Hm as [Hf _]. discriminate Hf.
Defined.
