(* ===== verification/ContextWindow.v ===== *)
(** * When a history must be compacted ([core/src/session/context_window.rs], [core/src/state/auto_compact_window.rs])

    The state of the current compaction window (its number and ids, the prefill its
    budget is measured from, the reminders it has delivered) and the decision that
    the token limit is reached, from the usage of the context manager.

    The theorems: between two windows each reminder is delivered at most once and
    the first prefill the server reported stays; when the limit is reached nothing
    is left of the budget that is shown; usage the server reports at the limit forces
    a compaction. *)

From stdpp Require Import base list numbers option strings.
From Stdlib Require Import Lia ZArith.
From S2P Require Import Prelude RustStr RustInt Truncate GoalAccounting ResponseItem Normalize ContextManager.
Local Open Scope Z_scope.

(** ** The compaction window *)

Record AutoCompactWindowIds := mkWindowIds {
  first_window_id : str;
  previous_window_id : option str;
  window_id : str }.
Definition new_initial (fresh : str) : AutoCompactWindowIds := mkWindowIds fresh None fresh.

Inductive AutoCompactWindowPrefill := ServerObserved (tokens : Z) | Estimated (tokens : Z).

Record AutoCompactWindow := mkWindow {
  window_number : Z;
  window_ids : AutoCompactWindowIds;
  new_context_window_requested : bool;
  prefill_input_tokens : option AutoCompactWindowPrefill;
  token_budget_reminder_delivered : bool;
  auto_compact_fallback_delivered : bool }.

Definition new_with_ids (ids : AutoCompactWindowIds) : AutoCompactWindow := mkWindow 0 ids false None false false.

Definition set_prefill (w : AutoCompactWindow) (p : option AutoCompactWindowPrefill) : AutoCompactWindow :=
  mkWindow (window_number w) (window_ids w) (new_context_window_requested w) p
    (token_budget_reminder_delivered w) (auto_compact_fallback_delivered w).
Definition set_requested (w : AutoCompactWindow) (b : bool) : AutoCompactWindow :=
  mkWindow (window_number w) (window_ids w) b (prefill_input_tokens w)
    (token_budget_reminder_delivered w) (auto_compact_fallback_delivered w).

Definition clear_prefill (w : AutoCompactWindow) : AutoCompactWindow := set_prefill w None.
Definition restore (w : AutoCompactWindow) (number : Z) (ids : AutoCompactWindowIds) : AutoCompactWindow :=
  mkWindow number ids (new_context_window_requested w) (prefill_input_tokens w)
    (token_budget_reminder_delivered w) (auto_compact_fallback_delivered w).
Definition advance (w : AutoCompactWindow) (fresh : str) : AutoCompactWindow :=
  mkWindow (u64_saturating_succ (window_number w))
    (mkWindowIds (first_window_id (window_ids w)) (Some (window_id (window_ids w))) fresh)
    false (prefill_input_tokens w) false false.
Definition claim_token_budget_reminder (w : AutoCompactWindow) : AutoCompactWindow * bool :=
  (mkWindow (window_number w) (window_ids w) (new_context_window_requested w) (prefill_input_tokens w) true
     (auto_compact_fallback_delivered w),
   negb (token_budget_reminder_delivered w)).
Definition claim_auto_compact_fallback (w : AutoCompactWindow) : AutoCompactWindow * bool :=
  (mkWindow (window_number w) (window_ids w) (new_context_window_requested w) (prefill_input_tokens w)
     (token_budget_reminder_delivered w) true,
   negb (auto_compact_fallback_delivered w)).
Definition request_new_context_window (w : AutoCompactWindow) : AutoCompactWindow := set_requested w true.
Definition take_new_context_window_request (w : AutoCompactWindow) : AutoCompactWindow * bool :=
  (set_requested w false, new_context_window_requested w).

Definition is_server_observed (p : option AutoCompactWindowPrefill) : bool :=
  match p with Some (ServerObserved _) => true | _ => false end.
Definition ensure_server_observed_prefill_from_usage (w : AutoCompactWindow) (usage : TokenUsage) : AutoCompactWindow :=
  if is_server_observed (prefill_input_tokens w) then w
  else set_prefill w (Some (ServerObserved (Z.max (input_tokens usage) 0))).
Definition set_estimated_prefill (w : AutoCompactWindow) (tokens : Z) : AutoCompactWindow :=
  if is_server_observed (prefill_input_tokens w) then w else set_prefill w (Some (Estimated (Z.max tokens 0))).
Definition snapshot (w : AutoCompactWindow) : option Z :=
  match prefill_input_tokens w with
  | Some (ServerObserved tokens) | Some (Estimated tokens) => Some tokens
  | None => None
  end.

(** ** The status of the window *)

Inductive AutoCompactTokenLimitScope := TotalScope | BodyAfterPrefix.

Record ModelWindow := mkModelWindow {
  context_window : option Z;
  max_context_window : option Z;
  effective_context_window_percent : Z;
  configured_auto_compact_token_limit : option Z }.

Definition resolved_context_window (m : ModelWindow) : option Z :=
  match context_window m with Some w => Some w | None => max_context_window m end.

(** [context_window * 9] wraps in a release build. *)
Definition auto_compact_token_limit (m : ModelWindow) : option Z :=
  let config_limit := configured_auto_compact_token_limit m in
  match resolved_context_window m with
  | Some w =>
      let context_limit := Z.quot (i64_wrapping_add (w * 9) 0) 10 in
      Some (match config_limit with None => context_limit | Some limit => Z.min limit context_limit end)
  | None => config_limit
  end.

Record WindowConfig := mkWindowConfig {
  model_auto_compact_token_limit_scope : AutoCompactTokenLimitScope;
  model_auto_compact_token_limit : option Z;
  token_budget_fallback_buffer : option Z;
  model_post_turn_compact_threshold_percent : Z }.

Record ContextWindowTokenStatus := mkStatus {
  active_context_tokens : Z;
  auto_compact_scope_tokens : Z;
  auto_compact_scope_limit : option Z;
  full_context_window_limit : option Z;
  base_window_tokens_remaining : option Z;
  auto_compact_window_prefill_tokens : option Z;
  full_context_window_limit_reached : bool;
  token_limit_reached : bool;
  turn_end_compaction_threshold_reached : bool }.

Definition tokens_remaining (limit : option Z) (used : Z) : option Z :=
  option_map (fun limit => Z.max (i64_saturating_sub limit used) 0) limit.

Definition flatten_min (a b : option Z) : option Z :=
  match a, b with Some x, Some y => Some (Z.min x y) | Some x, None => Some x | None, y => y end.

Definition context_window_token_status (active : Z) (window : AutoCompactWindow) (config : WindowConfig) (model : ModelWindow)
    : ContextWindowTokenStatus :=
  let '(scope_tokens, scope_limit, prefill) :=
    match model_auto_compact_token_limit_scope config with
    | TotalScope => (active, auto_compact_token_limit model, None)
    | BodyAfterPrefix =>
        let baseline := unwrap_or (snapshot window) active in
        (i64_saturating_sub active baseline,
         match model_auto_compact_token_limit config with Some l => Some l | None => auto_compact_token_limit model end,
         snapshot window)
    end in
  let full_limit := option_map (fun w => Z.quot (i64_saturating_mul w (effective_context_window_percent model)) 100) (resolved_context_window model) in
  let remaining := flatten_min (tokens_remaining scope_limit scope_tokens) (tokens_remaining full_limit active) in
  let buffered := option_map (fun limit => i64_saturating_add limit (unwrap_or (token_budget_fallback_buffer config) 0)) scope_limit in
  let full_reached := is_some_and full_limit (fun limit => limit <=? active) in
  let reached := is_some_and buffered (fun limit => limit <=? scope_tokens) || full_reached in
  let percent := model_post_turn_compact_threshold_percent config in
  mkStatus active scope_tokens scope_limit full_limit remaining prefill full_reached reached
    ((0 <? percent) && (reached || is_some_and full_limit (fun limit => limit * percent <=? active * 100))).

(** ** Operations on a window *)

Inductive WindowOp :=
| ClearPrefill
| ClaimReminder
| ClaimFallback
| RequestWindow
| TakeRequest
| ObserveUsage (usage : TokenUsage)
| EstimatePrefill (tokens : Z).

(** The operations between two windows; the reminders they delivered. *)
Definition window_step (w : AutoCompactWindow) (op : WindowOp) : AutoCompactWindow * bool :=
  match op with
  | ClearPrefill => (clear_prefill w, false)
  | ClaimReminder => claim_token_budget_reminder w
  | ClaimFallback => claim_auto_compact_fallback w
  | RequestWindow => (request_new_context_window w, false)
  | TakeRequest => (fst (take_new_context_window_request w), false)
  | ObserveUsage usage => (ensure_server_observed_prefill_from_usage w usage, false)
  | EstimatePrefill tokens => (set_estimated_prefill w tokens, false)
  end.

Definition is_reminder (op : WindowOp) : bool := match op with ClaimReminder => true | _ => false end.

Fixpoint window_run (w : AutoCompactWindow) (ops : list WindowOp) : AutoCompactWindow * nat :=
  match ops with
  | [] => (w, 0%nat)
  | op :: ops =>
      let '(w, delivered) := window_step w op in
      let '(w, n) := window_run w ops in
      (w, ((if is_reminder op && delivered then 1 else 0) + n)%nat)
  end.

Lemma window_run_cons w op ops :
  window_run w (op :: ops)
  = (fst (window_run (fst (window_step w op)) ops),
     ((if is_reminder op && snd (window_step w op) then 1 else 0) + snd (window_run (fst (window_step w op)) ops))%nat).
Proof. simpl. destruct (window_step w op) as [w1 d]. simpl. by destruct (window_run w1 ops). Qed.

Lemma reminders_bound w ops :
  snd (window_run w ops) = (if token_budget_reminder_delivered w then 0 else if existsb is_reminder ops then 1 else 0)%nat.
Proof.
  revert w. induction ops as [|op ops IH]; intros w; [by destruct (token_budget_reminder_delivered w)|].
  rewrite window_run_cons. simpl. rewrite IH.
  destruct op; simpl; unfold ensure_server_observed_prefill_from_usage, set_estimated_prefill;
    repeat (destruct (is_server_observed _)); simpl; try done; by destruct (token_budget_reminder_delivered w).
Qed.

Lemma prefill_sticky w ops tokens :
  prefill_input_tokens w = Some (ServerObserved tokens) -> existsb (fun op => match op with ClearPrefill => true | _ => false end) ops = false ->
  prefill_input_tokens (fst (window_run w ops)) = Some (ServerObserved tokens).
Proof.
  revert w. induction ops as [|op ops IH]; intros w Hp Hc; [done|]. rewrite window_run_cons. simpl in *.
  apply orb_false_iff in Hc as [Hop Hc]. apply IH; [|done].
  destruct op; simpl; unfold ensure_server_observed_prefill_from_usage, set_estimated_prefill; rewrite ?Hp; done.
Qed.

(** In one compaction window the reminder of the token budget is delivered exactly
    once if it is ever claimed, and again in the next window; and the first input
    count the server reported stays the baseline until the prefill is cleared. *)
Theorem window_reminds_once w fresh ops :
  snd (window_run (advance w fresh) ops) = (if existsb is_reminder ops then 1 else 0)%nat
  /\ (forall tokens, prefill_input_tokens w = Some (ServerObserved tokens) ->
        existsb (fun op => match op with ClearPrefill => true | _ => false end) ops = false ->
        snapshot (fst (window_run (advance w fresh) ops)) = Some tokens)
  /\ previous_window_id (window_ids (advance w fresh)) = Some (window_id (window_ids w)).
Proof.
  split_and!; [exact (reminders_bound (advance w fresh) ops)| |done]. intros tokens Hp Hc. unfold snapshot. by rewrite (prefill_sticky _ _ tokens).
Qed.

(** The limits of the model and the configuration are [i64]. *)
Definition limits_in_range (config : WindowConfig) (model : ModelWindow) : Prop :=
  (forall l, model_auto_compact_token_limit config = Some l -> in_i64 l)
  /\ (forall l, configured_auto_compact_token_limit model = Some l -> in_i64 l).

Lemma wrapped_in_range a b : in_i64 (i64_wrapping_add a b).
Proof. unfold i64_wrapping_add. pose proof (Z.mod_pos_bound (a + b + 2 ^ 63) (2 ^ 64) ltac:(lia)). unfold_int. lia. Qed.

Lemma quot_in_range n d : in_i64 n -> 0 < d -> in_i64 (Z.quot n d).
Proof.
  intros Hn Hd. unfold_int. destruct (Z.le_gt_cases 0 n).
  - pose proof (Z.quot_le_upper_bound n d (2 ^ 63 - 1) ltac:(lia) ltac:(nia)). pose proof (Z.quot_pos n d ltac:(lia) ltac:(lia)). lia.
  - pose proof (Z.quot_pos (- n) d ltac:(lia) ltac:(lia)) as Hp. rewrite Z.quot_opp_l in Hp by lia.
    pose proof (Z.quot_le_upper_bound (- n) d (2 ^ 63) ltac:(lia) ltac:(nia)) as Hu. rewrite Z.quot_opp_l in Hu by lia. lia.
Qed.

Lemma auto_compact_limit_in_range config model l :
  limits_in_range config model -> auto_compact_token_limit model = Some l -> in_i64 l.
Proof.
  intros [_ Hm]. unfold auto_compact_token_limit. destruct (resolved_context_window model) as [w|]; [|apply Hm].
  intros [= <-]. pose proof (quot_in_range (i64_wrapping_add (w * 9) 0) 10 (wrapped_in_range _ _) ltac:(lia)) as Hq.
  destruct (configured_auto_compact_token_limit model) as [l|]; [|done]. specialize (Hm l eq_refl). unfold in_i64 in *. lia.
Qed.

Lemma remaining_none_left limit used : limit <= used -> tokens_remaining (Some limit) used = Some 0.
Proof. intros Hl. simpl. f_equal. unfold_int. lia. Qed.

Lemma remaining_nonneg limit used n : tokens_remaining limit used = Some n -> 0 <= n.
Proof. destruct limit; simpl; [|done]. intros [= <-]. lia. Qed.

Lemma flatten_min_zero a b :
  (forall n, a = Some n -> 0 <= n) -> (forall n, b = Some n -> 0 <= n) -> a = Some 0 \/ b = Some 0 -> flatten_min a b = Some 0.
Proof.
  intros Ha Hb [-> | ->]; simpl.
  - destruct b as [y|]; simpl; [|done]. specialize (Hb y eq_refl). f_equal. lia.
  - destruct a as [x|]; simpl; [|done]. specialize (Ha x eq_refl). f_equal. lia.
Qed.

(** When compaction is forced, no tokens remain of what is shown as left: a
    fallback buffer only delays it. *)
Theorem limit_reached_leaves_nothing active window config model :
  in_i64 active -> limits_in_range config model -> 0 <= unwrap_or (token_budget_fallback_buffer config) 0 ->
  token_limit_reached (context_window_token_status active window config model) = true ->
  base_window_tokens_remaining (context_window_token_status active window config model) = Some 0.
Proof.
  intros Ha Hr Hbuf. unfold context_window_token_status.
  set (scope := match model_auto_compact_token_limit_scope config with TotalScope => _ | BodyAfterPrefix => _ end).
  assert (in_i64 (fst (fst scope)) /\ forall l, snd (fst scope) = Some l -> in_i64 l) as [Ht Hl].
  { unfold scope. destruct (model_auto_compact_token_limit_scope config); simpl.
    - split; [done|]. intros l Hl. exact (auto_compact_limit_in_range config model l Hr Hl).
    - split; [unfold_int; lia|]. intros l. destruct (model_auto_compact_token_limit config) as [c|] eqn:Ec.
      + intros [= <-]. exact (proj1 Hr c Ec).
      + intros Hl. exact (auto_compact_limit_in_range config model l Hr Hl). }
  clearbody scope. destruct scope as [[scope_tokens scope_limit] prefill]. simpl in *. intros Hreached.
  apply flatten_min_zero; [intros n; apply remaining_nonneg..|].
  apply orb_true_iff in Hreached as [Hs|Hf].
  - left. destruct scope_limit as [l|]; simpl in Hs; [|done]. apply Z.leb_le in Hs. apply remaining_none_left.
    specialize (Hl l eq_refl). unfold_int. lia.
  - right. destruct (resolved_context_window model) as [w|]; simpl in *; [|done]. apply Z.leb_le in Hf.
    exact (remaining_none_left _ _ Hf).
Qed.

(** ** The usage the decision reads *)

Section Usage.
Context {Json : Type} `{MeasuresLaws Json} `{Fragments}.

Lemma total_usage_at_least (m : ContextManager Json) included info :
  token_info m = Some info -> in_i64 (total_tokens (last_token_usage info)) ->
  total_tokens (last_token_usage info) <= get_total_token_usage m included.
Proof.
  intros Hi Hin. unfold get_total_token_usage. rewrite Hi.
  assert (forall l, cost (sum_saturating 0 (List.map (fun e : ResponseItemEnvelope Json => estimate_item_token_count (item e)) l))) as Hc.
  { intros l. apply sum_saturating_cost; [apply zero_cost|apply items_tokens_costs]. }
  assert (cost (get_non_last_reasoning_items_tokens (items m))) as Hr.
  { unfold get_non_last_reasoning_items_tokens. destruct (rposition _ _); [apply Hc|apply zero_cost]. }
  pose proof (Hc (items_after_last_model_generated_item (items m))) as Ha. unfold estimated_tokens_after_last_model_generated_item.
  unfold cost in *. destruct included; unfold_int; lia.
Qed.

(** Usage the server reports at the limit of the window forces a compaction,
    whatever the estimates of later items are. *)
Theorem reported_usage_forces_compaction (m : ContextManager Json) included usage window config model limit m' :
  m' = update_token_info m usage (resolved_context_window model) ->
  in_i64 (total_tokens usage) -> resolved_context_window model = Some limit ->
  Z.quot (i64_saturating_mul limit (effective_context_window_percent model)) 100 <= total_tokens usage ->
  let s := context_window_token_status (get_total_token_usage m' included) window config model in
  full_context_window_limit_reached s = true /\ token_limit_reached s = true.
Proof.
  intros -> Hin Hw Hle.
  assert (exists info, token_info (update_token_info m usage (resolved_context_window model)) = Some info
            /\ last_token_usage info = usage) as (info & Hi & Hu).
  { unfold update_token_info, new_or_append. simpl. destruct (token_info m); rewrite Hw; eexists; split; reflexivity. }
  pose proof (total_usage_at_least _ included info Hi) as Hge. rewrite Hu in Hge. specialize (Hge Hin).
  set (active := get_total_token_usage _ _) in *. clearbody active.
  unfold context_window_token_status. destruct (match model_auto_compact_token_limit_scope config with TotalScope => _ | BodyAfterPrefix => _ end) as [[t l] p].
  simpl. rewrite Hw. simpl. rewrite (proj2 (Z.leb_le _ _)) by lia. by rewrite orb_true_r.
Qed.
End Usage.

(** ** Examples *)

Definition demo_model : ModelWindow := mkModelWindow (Some 200000) None 95 None.
Definition demo_config : WindowConfig := mkWindowConfig TotalScope None None 0.
Definition demo_window : AutoCompactWindow := new_with_ids (new_initial (lit "w0")).

Lemma limit_reached_leaves_nothing_witness :
  base_window_tokens_remaining (context_window_token_status 190000 demo_window demo_config demo_model) = Some 0.
Proof.
  apply (limit_reached_leaves_nothing 190000 demo_window demo_config demo_model).
  - unfold in_i64, i64_min, i64_max. lia.
  - split; intros l; discriminate.
  - vm_compute. discriminate.
  - vm_compute. reflexivity.
Defined.

Lemma reported_usage_forces_compaction_witness :
  token_limit_reached (context_window_token_status
    (get_total_token_usage (update_token_info demo_history (with_total 195000) (Some 200000)) true) demo_window demo_config demo_model) = true.
Proof.
  refine (proj2 (reported_usage_forces_compaction demo_history true (with_total 195000) demo_window demo_config demo_model 200000 _ _ _ _ _)).
  - reflexivity.
  - unfold in_i64, i64_min, i64_max. simpl. lia.
  - reflexivity.
  - vm_compute. discriminate.
Defined.

(** A window marked as full is not taken for full.  Once the whole session has used
    more tokens than the window holds, marking leaves no last usage at all, and the
    decision sees an almost empty history. *)
Definition long_session : ContextManager unit :=
  update_token_info (update_token_info demo_history (with_total 150000) (Some 200000)) (with_total 180000) (Some 200000).

Theorem full_window_not_reached :
  let full := set_token_usage_full long_session 200000 in
  option_map (fun i => total_tokens (total_token_usage i)) (token_info full) = Some 200000
  /\ get_total_token_usage long_session true = 180000
  /\ get_total_token_usage full true = 0
  /\ token_limit_reached (context_window_token_status (get_total_token_usage full true) demo_window demo_config demo_model) = false.
Proof. vm_compute. done. Qed.
