(* ===== verification/Invocation.v ===== *)
(** * Recognizing and verifying calls of [apply_patch] ([apply-patch/src/invocation.rs])

    A command line is recognized as a patch, directly or as a here-document in a
    shell script; the patch is checked against the files, which gives the action
    that is shown for approval; later the text of the action is parsed again and
    applied ([ApplyPatch.v]).

    The query over the tree of the bash grammar is a parameter: for each match it
    reports the captured nodes.  Rendering a unified diff (the [similar] crate) is
    a parameter.

    The theorems: the text of an action parses to the hunks that were verified;
    when the patch is applied to the files it was verified against, every file ends
    up as the action showed, and no other file changes.  [moved_onto_target] shows
    why the targets have to be distinct, [carriage_returns_lost] why the text must
    not contain carriage returns. *)

From stdpp Require Import base list numbers option strings gmap.
From Stdlib Require Import Lia.
From S2P Require Import Prelude RustStr ByteStr SyntaxTree UriPath PatchParser PatchGrammar SeekSequence FileUpdate ApplyPatch MemFs.

Definition APPLY_PATCH_COMMANDS : list str := [lit "apply_patch"; lit "applypatch"].

Inductive ApplyPatchShell := UnixShell | PowerShellShell | CmdShell.

Inductive ExtractHeredocError :=
| CommandDidNotStartWithApplyPatch
| FailedToLoadBashGrammar (message : str)
| HeredocNotUtf8
| FailedToParsePatchIntoAst
| FailedToFindHeredocBody.

Inductive MaybeApplyPatch :=
| Body (args : ApplyPatchArgs)
| ShellParseError (e : ExtractHeredocError)
| PatchParseError (e : ParseError)
| NotApplyPatch.

(** What is shown for one file. *)
Inductive ApplyPatchFileChange (PathUri : Type) :=
| AddChange (content : str)
| DeleteChange (content : str)
| UpdateChange (unified_diff : str) (move_path : option PathUri) (new_content : str).
Arguments AddChange {PathUri} _.
Arguments DeleteChange {PathUri} _.
Arguments UpdateChange {PathUri} _ _ _.

(** ** Shells *)

Definition classify_shell_name (shell : str) (c : PathConvention) : option str :=
  match last (convention_segments c shell) with
  | None => None
  | Some basename =>
      let stem := match rsplit_once 46%N basename with
                  | Some (stem, _) => if is_nil stem then basename else stem
                  | None => basename
                  end in
      Some (to_ascii_lowercase stem)
  end.

Definition classify_shell (shell flag : str) (c : PathConvention) : option ApplyPatchShell :=
  match classify_shell_name shell c with
  | None => None
  | Some name =>
      if mem_str [lit "bash"; lit "zsh"; lit "sh"] name && mem_str [lit "-lc"; lit "-c"] flag then Some UnixShell
      else if mem_str [lit "pwsh"; lit "powershell"] name && eq_ignore_ascii_case flag (lit "-command") then Some PowerShellShell
      else if str_eqb name (lit "cmd") && eq_ignore_ascii_case flag (lit "/c") then Some CmdShell
      else None
  end.

Definition can_skip_flag (shell flag : str) (c : PathConvention) : bool :=
  is_some_and (classify_shell_name shell c) (fun name =>
    mem_str [lit "pwsh"; lit "powershell"] name && eq_ignore_ascii_case flag (lit "-noprofile")).

Definition parse_shell_script (argv : list str) (convention : option PathConvention) : option (ApplyPatchShell * str) :=
  match convention with
  | None => None
  | Some c =>
      match argv with
      | [shell; flag; script] => option_map (fun shell_type => (shell_type, script)) (classify_shell shell flag c)
      | [shell; skip_flag; flag; script] =>
          if negb (can_skip_flag shell skip_flag c) then None
          else option_map (fun shell_type => (shell_type, script)) (classify_shell shell flag c)
      | _ => None
      end
  end.

(** The names the query gives to nodes. *)
Inductive CaptureName := HeredocCapture | CdPathCapture | CdRawStringCapture | OtherCapture.

Class BashQuery := {
  bash_language : result unit str;
  parse_bash : str -> option Tree;
  apply_patch_matches : Tree -> str -> list (list (CaptureName * Node)) }.

Section Heredoc.
Context `{BashQuery}.

Definition trim_end_newlines (s : str) : str := drop_while_end (N.eqb LF) s.

(** One capture of a match: the here-document and the directory found so far. *)
Definition read_capture (src : str) (found : option str * option str) (c : CaptureName * Node)
    : result (option str * option str) ExtractHeredocError :=
  match fst c, utf8_text (snd c) src with
  | OtherCapture, _ => Ok found
  | _, None => Err HeredocNotUtf8
  | HeredocCapture, Some text => Ok (Some (trim_end_newlines text), snd found)
  | CdPathCapture, Some text => Ok (fst found, Some text)
  | CdRawStringCapture, Some raw =>
      let trimmed := match strip_prefix [39%N] raw with
                     | Some s => unwrap_or (strip_suffix [39%N] s) raw
                     | None => raw
                     end in
      Ok (fst found, Some trimmed)
  end.

Fixpoint read_captures (src : str) (found : option str * option str) (cs : list (CaptureName * Node))
    : result (option str * option str) ExtractHeredocError :=
  match cs with
  | [] => Ok found
  | c :: cs => let? found := read_capture src found c in read_captures src found cs
  end.

Fixpoint first_heredoc (src : str) (matches : list (list (CaptureName * Node))) : result (str * option str) ExtractHeredocError :=
  match matches with
  | [] => Err CommandDidNotStartWithApplyPatch
  | m :: matches =>
      let? found := read_captures src (None, None) m in
      match fst found with
      | Some heredoc => Ok (heredoc, snd found)
      | None => first_heredoc src matches
      end
  end.

Definition extract_apply_patch_from_bash (src : str) : result (str * option str) ExtractHeredocError :=
  match bash_language with
  | Err message => Err (FailedToLoadBashGrammar message)
  | Ok _ =>
      match parse_bash src with
      | None => Err FailedToParsePatchIntoAst
      | Some tree => first_heredoc src (apply_patch_matches tree src)
      end
  end.

Definition extract_apply_patch_from_shell (shell : ApplyPatchShell) (script : str) : result (str * option str) ExtractHeredocError :=
  match shell with UnixShell | PowerShellShell | CmdShell => extract_apply_patch_from_bash script end.

Definition set_workdir (args : ApplyPatchArgs) (dir : option str) : ApplyPatchArgs :=
  mkArgs (patch args) (args_hunks args) dir (args_environment_id args).

(** [maybe_parse_apply_patch]; of the working directory only its convention is used. *)
Definition maybe_parse_apply_patch (argv : list str) (convention : option PathConvention) : MaybeApplyPatch :=
  let from_script :=
    match parse_shell_script argv convention with
    | Some (shell, script) =>
        match extract_apply_patch_from_shell shell script with
        | Ok (body, workdir) =>
            match parse_patch body with
            | Ok source => Body (set_workdir source workdir)
            | Err e => PatchParseError e
            end
        | Err CommandDidNotStartWithApplyPatch => NotApplyPatch
        | Err e => ShellParseError e
        end
    | None => NotApplyPatch
    end in
  match argv with
  | [cmd; body] =>
      if mem_str APPLY_PATCH_COMMANDS cmd
      then match parse_patch body with Ok source => Body source | Err e => PatchParseError e end
      else from_script
  | _ => from_script
  end.
End Heredoc.

(** ** Verification against the files *)

Section Verify.
  Context {FS PathUri : Type} `{!EqDecision PathUri, !Countable PathUri, !PathUriOps PathUri, !ExecutorFileSystem FS PathUri}.
  Variable unified_diff : nat -> str -> str -> str.

Record ApplyPatchAction := mkAction {
  action_changes : gmap PathUri (ApplyPatchFileChange PathUri);
  action_mode : ApplyPatchFileUpdateMode;
  action_patch : str;
  action_cwd : PathUri }.

Inductive MaybeApplyPatchVerified :=
| VerifiedBody (action : ApplyPatchAction)
| VerifiedShellParseError (e : ExtractHeredocError)
| CorrectnessError (e : ApplyPatchError)
| VerifiedNotApplyPatch
| VerifyPanicked.

(** The diff has one line of context. *)
Definition unified_diff_from_chunks_with_mode (fs : FS) (path : PathUri) (chunks : list UpdateFileChunk) (m : ApplyPatchFileUpdateMode)
    : outcome (str * str) ApplyPatchError :=
  match derive_new_contents_from_chunks fs path chunks m true with
  | Returned (original, new) => Returned (unified_diff 1 original new, new)
  | Raised e => Raised e
  | Panicked => Panicked
  end.

(** The change a hunk stands for. *)
Definition verify_hunk (fs : FS) (cwd path : PathUri) (m : ApplyPatchFileUpdateMode) (h : Hunk)
    : outcome (ApplyPatchFileChange PathUri) ApplyPatchError :=
  match h with
  | AddFile _ contents => Returned (AddChange contents)
  | DeleteFile _ =>
      match read_file_text fs path true with
      | Ok content => Returned (DeleteChange content)
      | Err source => Raised (IoErr (lit "Failed to read " ++ native_path_string path) source)
      end
  | UpdateFile _ move_path chunks =>
      match unified_diff_from_chunks_with_mode fs path chunks m with
      | Returned (diff, contents) =>
          match move_path with
          | None => Returned (UpdateChange diff None contents)
          | Some dest =>
              match join_path cwd dest with
              | Ok dest => Returned (UpdateChange diff (Some dest) contents)
              | Err e => Raised (PathUriErr e)
              end
          end
      | Raised e => Raised e
      | Panicked => Panicked
      end
  end.

Fixpoint verify_hunks (fs : FS) (cwd : PathUri) (m : ApplyPatchFileUpdateMode) (hs : list Hunk)
    (changes : gmap PathUri (ApplyPatchFileChange PathUri)) : outcome (gmap PathUri (ApplyPatchFileChange PathUri)) ApplyPatchError :=
  match hs with
  | [] => Returned changes
  | h :: hs =>
      match resolve_path h cwd with
      | Err e => Raised (PathUriErr e)
      | Ok path =>
          match changes !! path with
          | Some _ => Raised (ParseErr (InvalidPatchError (lit "multiple operations target " ++ native_path_string path)))
          | None =>
              match verify_hunk fs cwd path m h with
              | Returned change => verify_hunks fs cwd m hs (<[path := change]> changes)
              | Raised e => Raised e
              | Panicked => Panicked
              end
          end
      end
  end.

Definition try_verify_apply_patch_args (fs : FS) (args : ApplyPatchArgs) (cwd : PathUri) (m : ApplyPatchFileUpdateMode)
    : outcome ApplyPatchAction ApplyPatchError :=
  match (match workdir args with Some dir => join_path cwd dir | None => Ok cwd end) with
  | Err e => Raised (PathUriErr e)
  | Ok effective_cwd =>
      match verify_hunks fs effective_cwd m (args_hunks args) ∅ with
      | Returned changes => Returned (mkAction changes m (patch args) effective_cwd)
      | Raised e => Raised e
      | Panicked => Panicked
      end
  end.

Definition verify_apply_patch_args_with_mode (fs : FS) (args : ApplyPatchArgs) (cwd : PathUri) (m : ApplyPatchFileUpdateMode)
    : MaybeApplyPatchVerified :=
  match try_verify_apply_patch_args fs args cwd m with
  | Returned action => VerifiedBody action
  | Raised err => CorrectnessError err
  | Panicked => VerifyPanicked
  end.

(** [infer_path_convention] of the working directory. *)
Definition maybe_parse_apply_patch_verified_with_mode `{BashQuery} (fs : FS) (argv : list str) (cwd : PathUri)
    (convention : option PathConvention) (m : ApplyPatchFileUpdateMode) : MaybeApplyPatchVerified :=
  if (match argv with [body] => is_ok (parse_patch body) | _ => false end)
     || is_some_and (parse_shell_script argv convention) (fun '(_, script) => is_ok (parse_patch script))
  then CorrectnessError ImplicitInvocation
  else
    match maybe_parse_apply_patch argv convention with
    | Body args => verify_apply_patch_args_with_mode fs args cwd m
    | ShellParseError e => VerifiedShellParseError e
    | PatchParseError e => CorrectnessError (ParseErr e)
    | NotApplyPatch => VerifiedNotApplyPatch
    end.
End Verify.
Arguments ApplyPatchAction PathUri {_ _}.
Arguments MaybeApplyPatchVerified PathUri {_ _}.

(** ** The text of an action parses to the same hunks *)

Lemma drop_while_app {A} (p : A -> bool) l k : drop_while p l <> [] -> drop_while p (l ++ k) = drop_while p l ++ k.
Proof. induction l as [|x l IH]; [done|]. simpl. destruct (p x); [apply IH|done]. Qed.

Lemma drop_while_end_app {A} (p : A -> bool) l k : drop_while_end p k <> [] -> drop_while_end p (l ++ k) = l ++ drop_while_end p k.
Proof.
  unfold drop_while_end. intros Hk. rewrite rev_app_distr, drop_while_app, rev_app_distr, rev_involutive; [done|].
  intros E. by rewrite E in Hk.
Qed.

Lemma trim_start_nonempty s : trim s <> [] -> trim_start s <> [].
Proof. intros H E. apply H. unfold trim. by rewrite E. Qed.

Lemma trim_trim_start s : trim (trim_start s) = trim s.
Proof. unfold trim, trim_start. by rewrite drop_while_idem. Qed.

Lemma trim_end_split s : trim s <> [] -> exists pre, Forall (fun c => is_whitespace c = true) pre /\ s = pre ++ trim_start s
  /\ trim_end s = pre ++ trim s.
Proof.
  intros H. destruct (drop_while_suffix is_whitespace s) as (pre & E & Hp). exists pre. split_and!; [done|done|].
  unfold trim, trim_end. rewrite E at 1. by apply drop_while_end_app.
Qed.

Lemma trim_trim_end s : trim s <> [] -> trim (trim_end s) = trim s.
Proof.
  intros H. destruct (trim_end_split s H) as (pre & Hp & _ & ->). unfold trim at 1.
  assert (trim_start (pre ++ trim s) = trim s) as ->; [|apply trim_end_id, trim_end_no_trailing].
  clear H. induction Hp as [|c pre Hc Hp IH]; [apply trim_start_id, trim_no_leading|]. simpl. by rewrite Hc.
Qed.

Lemma trim_end_nonempty s : trim s <> [] -> trim_end s <> [].
Proof. intros H. destruct (trim_end_split s H) as (pre & _ & _ & ->). intros [_ ?]%app_nil. done. Qed.

Lemma join_snoc (ls : list str) : exists s, forall y, join [LF] (ls ++ [y]) = s ++ y.
Proof.
  induction ls as [|l ls [s IH]]; [by exists []|]. exists (l ++ LF :: s). intros y. cbn [app].
  rewrite join_LF_cons by (by destruct ls). rewrite IH. by rewrite <- app_assoc.
Qed.

Lemma trim_join_ends f mid l : trim f <> [] -> trim l <> [] ->
  trim (join [LF] (f :: mid ++ [l])) = join [LF] (trim_start f :: mid ++ [trim_end l]).
Proof.
  intros Hf Hl. destruct (join_snoc mid) as [s Hs]. rewrite !join_LF_cons by (by destruct mid). rewrite !Hs.
  unfold trim, trim_start. rewrite drop_while_app by (by apply trim_start_nonempty).
  fold (trim_start f). unfold trim_end. rewrite app_comm_cons, app_assoc, drop_while_end_app; [by rewrite <- app_assoc|].
  by apply trim_end_nonempty.
Qed.

Lemma push_delta_lines_inv p ls x q r :
  line_buffer p = [] -> Forall clean_line ls -> push_delta p (join [LF] (ls ++ [x])) = (q, Ok r) ->
  exists p', run_lines p ls = Ok p' /\ line_buffer p' = [].
Proof.
  intros Hb HF. revert p Hb. induction HF as [|l ls [Hl Hcr] HF IH]; intros p Hb Hq; simpl; [by exists p|].
  cbn [app] in Hq. rewrite join_LF_cons in Hq by (by destruct ls). rewrite push_delta_chars in Hq by done.
  simpl in Hq. unfold push_char in Hq. rewrite N.eqb_refl in Hq. simpl in Hq. rewrite Hb in Hq. simpl in Hq.
  rewrite Hcr, set_line_buffer_twice in Hq. unfold step_line. destruct (process_line _ l) as [p1|e] eqn:E; [|done].
  apply IH; [exact (process_line_buffer _ _ _ E)|done].
Qed.

(** The parser does not see white space before the first and after the last line. *)
Lemma push_trimmed f mid l q r :
  trim f = BEGIN_PATCH_MARKER -> trim l = END_PATCH_MARKER -> Forall clean_line (f :: mid) -> clean_line (trim_start f) -> LF ∉ l ->
  push_delta default_parser (join [LF] ((f :: mid) ++ [l])) = (q, Ok r) ->
  exists q' r', push_delta default_parser (join [LF] ((trim_start f :: mid) ++ [trim_end l])) = (q', Ok r') /\ finish q' = finish q.
Proof.
  intros Hf Hl Hc Hcf Hlf Hp.
  destruct (push_delta_lines_inv default_parser _ _ _ _ eq_refl Hc Hp) as (p' & Hr & Hb).
  assert (run_lines default_parser (trim_start f :: mid) = Ok p') as Hr'.
  { rewrite <- Hr. simpl. unfold step_line, process_line. simpl. by rewrite trim_trim_start. }
  rewrite (push_delta_lines _ _ _ p') in Hp by done.
  rewrite (push_delta_lines _ _ _ p'); [|done|by apply Forall_cons in Hc as [_ ?]; constructor|done].
  assert (LF ∉ trim_end l) as Hle.
  { destruct (drop_while_end_prefix is_whitespace l) as (suf & E & _). intros Hin. apply Hlf. rewrite E. set_solver. }
  rewrite <- (app_nil_r l), push_delta_chars in Hp by done. rewrite <- (app_nil_r (trim_end l)), push_delta_chars by done.
  simpl in *. rewrite Hb in *. injection Hp as <- <-. eexists _, _. split; [done|]. unfold finish. simpl.
  assert (trim l <> []) as Hne by (by rewrite Hl).
  rewrite (proj2 (is_nil_false _) (trim_end_nonempty l Hne)), (trim_trim_end l Hne).
  assert (is_nil l = false) as -> by (apply is_nil_false; by intros ->). by rewrite Hl, str_eqb_refl.
Qed.

Lemma check_strict_shape ls out : check_patch_boundaries_strict ls = Ok out ->
  out = ls /\ exists f mid l, ls = (f :: mid) ++ [l] /\ trim f = BEGIN_PATCH_MARKER /\ trim l = END_PATCH_MARKER.
Proof.
  unfold check_patch_boundaries_strict, check_start_and_end_lines_strict. intros H.
  destruct ls as [|f rest]; [done|]. destruct (rest) as [|x rest'] eqn:Er using rev_ind; [|clear IHrest'].
  - simpl in H. destruct (str_eqb (trim f) BEGIN_PATCH_MARKER && str_eqb (trim f) END_PATCH_MARKER) eqn:E; [|by destruct (negb _)].
    apply andb_true_iff in E as [E1%str_eqb_spec E2%str_eqb_spec]. by rewrite E1 in E2.
  - rewrite app_comm_cons, last_snoc in H. simpl in H.
    destruct (str_eqb (trim f) BEGIN_PATCH_MARKER && str_eqb (trim x) END_PATCH_MARKER) eqn:E; [|by destruct (negb _)].
    injection H as <-. split; [done|]. apply andb_true_iff in E as [E1%str_eqb_spec E2%str_eqb_spec]. by exists f, rest', x.
Qed.

Lemma split_inclusive_pieces c s : Forall (fun l => exists a, c ∉ a /\ (l = a ++ [c] \/ l = a)) (split_inclusive c s).
Proof.
  induction s as [|x s IH]; simpl; [done|]. destruct (N.eqb_spec x c) as [-> | Hx].
  - constructor; [|done]. exists []. split; [apply not_elem_of_nil|by left].
  - destruct IH as [|l rest (a & Ha & Hl) IH]; constructor; try done.
    + exists [x]. split; [|by right]. by intros ->%list_elem_of_singleton.
    + exists (x :: a). split; [by apply not_elem_of_cons|]. destruct Hl as [-> | ->]; auto.
Qed.

Lemma lines_no_LF s : Forall (fun l => LF ∉ l) (lines s).
Proof.
  unfold lines. apply Forall_map. eapply Forall_impl; [apply split_inclusive_pieces|]. intros l (a & Ha & [-> | ->]); simpl.
  - rewrite strip_line_ending_lf. unfold strip_cr. destruct (strip_suffix [CR] a) as [r|] eqn:E; [|done].
    apply strip_suffix_Some in E as ->. set_solver.
  - by rewrite strip_line_ending_none.
Qed.

Lemma parse_patch_lines text args : parse_patch text = Ok args ->
  exists f mid l, patch args = join [LF] ((f :: mid) ++ [l]) /\ Forall (fun x => LF ∉ x) ((f :: mid) ++ [l])
    /\ trim f = BEGIN_PATCH_MARKER /\ trim l = END_PATCH_MARKER
    /\ exists q r q', push_delta default_parser (patch args) = (q, Ok r) /\ finish q = (q', Ok (args_hunks args))
       /\ args_environment_id args = environment_id (state q') /\ workdir args = None.
Proof.
  unfold parse_patch, parse_patch_text. simpl. intros H. apply result_bind_ok in H as (pl & Hpl & H). cbv zeta in H.
  assert (exists f mid l, pl = (f :: mid) ++ [l] /\ Forall (fun x => LF ∉ x) pl
          /\ trim f = BEGIN_PATCH_MARKER /\ trim l = END_PATCH_MARKER) as (f & mid & l & -> & HF & Hf & Hl).
  { pose proof (lines_no_LF (trim text)) as HF. unfold check_patch_boundaries_lenient in Hpl.
    destruct (check_patch_boundaries_strict (lines (trim text))) as [ls|e] eqn:E.
    - injection Hpl as <-. apply check_strict_shape in E as (-> & f & mid & l & E & Hf & Hl). exists f, mid, l. by rewrite E in *.
    - destruct (lines (trim text)) as [|a [|b rest]] eqn:El; [done|done|]. destruct (last _); [|done]. destruct (_ && _); [|done].
      apply check_strict_shape in Hpl as (-> & f & mid & l' & E' & Hf & Hl). exists f, mid, l'. split_and!; [done| |done..].
      by apply Forall_take, Forall_drop. }
  destruct (push_delta default_parser (join [LF] ((f :: mid) ++ [l]))) as [p1 r1] eqn:E1.
  apply result_bind_ok in H as (u & -> & H). destruct (finish p1) as [p2 r2] eqn:E2. apply result_bind_ok in H as (hs & -> & H).
  injection H as <-. exists f, mid, l. simpl patch. split_and!; [done..|]. exists p1, u, p2. done.
Qed.

Lemma no_CR_clean s : LF ∉ s -> CR ∉ s -> clean_line s.
Proof.
  intros Hlf Hcr. split; [done|]. unfold strip_cr. destruct (strip_suffix [CR] s) as [r|] eqn:E; [|done].
  apply strip_suffix_Some in E as ->. set_solver.
Qed.

Lemma join_elem c ls l : l ∈ ls -> c ∈ l -> c ∈ join [LF] ls.
Proof.
  induction ls as [|x ls IH]; [by intros ?%not_elem_of_nil|]. intros [-> | Hl]%elem_of_cons Hc; (destruct ls as [|y ls]; [set_solver|]);
    rewrite join_LF_cons by done; [set_solver|]. apply elem_of_app. right. apply elem_of_cons. right. by apply IH.
Qed.

(** Parsing the text of the arguments again gives the same hunks. *)
Lemma parse_patch_again text args : parse_patch text = Ok args -> CR ∉ patch args ->
  exists patch', parse_patch (patch args) = Ok (mkArgs patch' (args_hunks args) None (args_environment_id args)).
Proof.
  intros H Hcr. destruct (parse_patch_lines _ _ H) as (f & mid & l & Hp & HF & Hf & Hl & q & r & q' & Hq & Hfin & Henv & _).
  assert (Forall clean_line ((f :: mid) ++ [l])) as Hc.
  { apply Forall_forall. intros x Hx. apply no_CR_clean; [by eapply Forall_forall in HF|]. intros Hin. apply Hcr. rewrite Hp.
    by eapply join_elem. }
  apply Forall_app in Hc as [Hc Hcl]. apply Forall_app in HF as [HFm [HFl _]%Forall_cons].
  assert (clean_line (trim_start f)) as Hcf.
  { apply Forall_cons in Hc as [[Hlf Hstrip] _]. destruct (drop_while_suffix is_whitespace f) as (pre & E & _).
    fold (trim_start f) in E. apply no_CR_clean; [intros Hin; apply Hlf; rewrite E; set_solver|].
    intros Hin. apply Hcr. rewrite Hp. apply (join_elem _ _ f); [set_solver|]. rewrite E. set_solver. }
  rewrite Hp in Hq. destruct (push_trimmed f mid l q r Hf Hl Hc Hcf HFl Hq) as (q2 & r2 & Hq2 & Hfin2).
  exists (join [LF] ((trim_start f :: mid) ++ [trim_end l])). unfold parse_patch, parse_patch_text. simpl PARSE_IN_STRICT_MODE.
  assert (trim f <> []) as Hfn by (by rewrite Hf). assert (trim l <> []) as Hln by (by rewrite Hl).
  rewrite Hp. cbn [app]. rewrite trim_join_ends by done. rewrite app_comm_cons, lines_join.
  2: { apply Forall_cons in Hc as [_ ?]. by constructor. }
  2: { destruct (drop_while_end_prefix is_whitespace l) as (suf & E & _). intros Hin. apply HFl. rewrite E. set_solver. }
  2: { by apply trim_end_nonempty. }
  unfold check_patch_boundaries_lenient, check_patch_boundaries_strict, check_start_and_end_lines_strict.
  rewrite last_snoc. cbn [app head option_map]. rewrite trim_trim_start, trim_trim_end, Hf, Hl by done. cbn [app] in Hq2.
  change (str_eqb BEGIN_PATCH_MARKER BEGIN_PATCH_MARKER && str_eqb END_PATCH_MARKER END_PATCH_MARKER) with true.
  cbn [result_bind PARSE_IN_STRICT_MODE].
  rewrite Hq2. simpl. rewrite Hfin2, Hfin. simpl. by rewrite Henv.
Qed.

(** ** What was shown is what happens *)

Section Shown.
  Context {FS PathUri : Type} `{!EqDecision PathUri, !Countable PathUri,
    !PathUriOps PathUri, !ExecutorFileSystem FS PathUri, !LawfulFileSystem FS PathUri}.
  Variable unified_diff : nat -> str -> str -> str.
  Implicit Types (changes acc : gmap PathUri (ApplyPatchFileChange PathUri)) (c : ApplyPatchFileChange PathUri)
    (at_place : PathUri -> PathUri).

Definition move_target c : option PathUri := match c with UpdateChange _ dest _ => dest | _ => None end.

(** The change takes the entry of its path away. *)
Definition removes c : bool :=
  match c with DeleteChange _ | UpdateChange _ (Some _) _ => true | _ => false end.

(** The entries after the change of [p], the paths being resolved by [at_place]. *)
Definition change_effect at_place (p : PathUri) c (m : gmap PathUri (Entry PathUri)) : gmap PathUri (Entry PathUri) :=
  match c with
  | AddChange content => <[at_place p := TextFile content]> m
  | DeleteChange _ => delete (at_place p) m
  | UpdateChange _ None new => <[at_place p := TextFile new]> m
  | UpdateChange _ (Some dest) new => delete (at_place p) (<[at_place dest := TextFile new]> m)
  end.

(** The change of [p] says that [q] will hold [v]. *)
Definition promised (p : PathUri) c (q : PathUri) (v : option str) : Prop :=
  match c with
  | AddChange content => q = p /\ v = Some content
  | DeleteChange _ => q = p /\ v = None
  | UpdateChange _ None new => q = p /\ v = Some new
  | UpdateChange _ (Some dest) new => (q = dest /\ v = Some new) \/ (q = p /\ v = None)
  end.

Definition names changes (q : PathUri) : Prop :=
  is_Some (changes !! q) \/ exists p c, changes !! p = Some c /\ move_target c = Some q.

(** Files are moved to paths that nothing else writes. *)
Definition moves_apart changes : Prop :=
  forall p c dest, changes !! p = Some c -> move_target c = Some dest ->
    changes !! dest = None /\ forall p' c', changes !! p' = Some c' -> move_target c' = Some dest -> p' = p.

(** What the links of the file system must not do: no two paths of the action
    lead to the same place, and no path that is deleted or moved away is a link. *)
Definition links_apart (fs : FS) changes : Prop :=
  (forall q q', names changes q -> names changes q' -> target fs q = target fs q' -> q = q')
  /\ (forall p c, changes !! p = Some c -> removes c = true -> plain fs p).

Lemma hunk_effect (fs0 fs : FS) d o cwd h p c fs1 d1 u :
  resolve_path h cwd = Ok p -> verify_hunk unified_diff fs0 cwd p (update_file_mode o) h = Returned c ->
  links fs = links fs0 -> (removes c = true -> plain fs0 p) -> view fs !! target fs0 p = view fs0 !! target fs0 p ->
  apply_hunk fs d o cwd h = (fs1, d1, Returned u) ->
  links fs1 = links fs0 /\ view fs1 = change_effect (target fs0) p c (view fs).
Proof.
  unfold apply_hunk. intros -> Hv Hl Hplain Hp Ha. destruct (same_links fs0 fs p Hl) as (Hpl & Htp & Hpp).
  assert (forall q, target fs q = target fs0 q) as Ht by (intros q; unfold target; by rewrite Hl).
  destruct h as [path content|path|path mv cs]; simpl in Hv.
  - injection Hv as <-. unfold apply_add in Ha. destruct (read_optional_file_text_for_delta _ _ _ _).
    destruct (write_file_with_missing_parent_retry _ _ _ _) as [fs2 [[]|e]] eqn:Ew; [|done]. injection Ha as <- _ _.
    split; [rewrite <- Hl; by eapply write_retry_links|]. apply write_retry_ok in Ew. simpl. by rewrite <- Htp.
  - destruct (read_file_text fs0 p true); [|done]. injection Hv as <-. unfold apply_delete in Ha. cbv zeta in Ha.
    destruct (with_context _ _); [|done]. destruct (remove fs p _) as [fs2 [[]|e]] eqn:Er; [|done]. injection Ha as <- _ _.
    specialize (Hplain eq_refl). split; [rewrite <- Hl; by eapply remove_keeps_links, Hpp|].
    apply remove_ok in Er. simpl. by rewrite plain_target, <- Hpl.
  - unfold unified_diff_from_chunks_with_mode in Hv. unfold apply_update in Ha. cbv zeta in Ha.
    destruct (derive_new_contents_from_chunks fs0 p cs _ true) as [[orig0 new0]|e|] eqn:E0; [|done..].
    destruct (derive_new_contents_from_chunks fs p cs _ _) as [[orig new]|e|] eqn:E1; [|done..].
    assert (new = new0) as ->.
    { unfold derive_new_contents_from_chunks in E0, E1. destruct (read_file_text fs0 p true) as [t0|] eqn:R0; [|done].
      destruct (read_file_text fs p _) as [t1|] eqn:R1; [|done]. apply read_ok in R0, R1.
      fold (links fs) (target fs p) in R1. fold (links fs0) (target fs0 p) in R0.
      assert (t1 = t0) as -> by congruence.
      destruct (derive_new_contents t0 _ cs _) as [[]|]; congruence. }
    destruct mv as [dest|].
    + destruct (join_path cwd dest) as [du|e]; [|done]. injection Hv as <-. unfold apply_move in Ha.
      destruct (read_optional_file_text_for_delta _ _ _ _).
      destruct (write_file_with_missing_parent_retry _ _ _ _) as [fs2 [[]|e]] eqn:Ew; cbv zeta in Ha; [|done].
      destruct (with_context _ _); [|done]. destruct (remove fs2 p _) as [fs3 [[]|e]] eqn:Er; [|done]. injection Ha as <- _ _.
      pose proof (write_retry_links _ _ _ _ _ _ Ew) as Hl2. rewrite Hl in Hl2.
      destruct (same_links fs0 fs2 p Hl2) as (Hpl2 & _ & Hpp2). specialize (Hplain eq_refl).
      split; [rewrite <- Hl2; by eapply remove_keeps_links, Hpp2|].
      apply write_retry_ok in Ew. apply remove_ok in Er. simpl. fold (links fs2) (place fs2 p) in Er.
      by rewrite Er, Ew, Ht, Hpl2, (plain_target fs0 p).
    + injection Hv as <-. destruct (write_file fs p new0 _) as [fs2 [[]|e]] eqn:Ew; [|done]. injection Ha as <- _ _.
      split; [rewrite <- Hl; by eapply write_keeps_links|]. apply write_ok in Ew. simpl. by rewrite <- Htp.
Qed.

Lemma verify_hunks_grow fs0 cwd m hs acc changes :
  verify_hunks unified_diff fs0 cwd m hs acc = Returned changes -> acc ⊆ changes.
Proof.
  revert acc. induction hs as [|h hs IH]; intros acc; simpl; [by intros [= ->]|].
  destruct (resolve_path h cwd) as [p|e]; [|done]. destruct (acc !! p) eqn:Ep; [done|].
  destruct (verify_hunk _ _ _ _ _ _) as [c|e|]; [|done..]. intros H. etransitivity; [|by apply IH in H]. by apply insert_subseteq.
Qed.

(** [fs] is where [fs0] gets by the changes recorded so far: where a path of the
    changes leads is what was shown for it, and nothing else has changed. *)
Definition as_shown (fs0 fs : FS) acc : Prop :=
  links fs = links fs0
  /\ (forall p c q v, acc !! p = Some c -> promised p c q v -> view fs !! target fs0 q = TextFile <$> v)
  /\ (forall x, (forall q, names acc q -> x <> target fs0 q) -> view fs !! x = view fs0 !! x).

Lemma promised_named p c q v : promised p c q v -> q = p \/ move_target c = Some q.
Proof. destruct c as [| |diff [dest|] new]; simpl; naive_solver. Qed.

Lemma names_mono acc changes q : acc ⊆ changes -> names acc q -> names changes q.
Proof.
  intros Hs [[c Hc] | (p & c & Hc & Hm)]; [left; exists c|right; exists p, c; split; [|done]]; by eapply lookup_weaken.
Qed.

Lemma names_promised acc p c q v : acc !! p = Some c -> promised p c q v -> names acc q.
Proof. intros Hp [-> | Hm]%promised_named; [left; eauto|right; eauto]. Qed.

Lemma change_effect_other at_place p c m x :
  x <> at_place p -> (forall dest, move_target c = Some dest -> x <> at_place dest) -> change_effect at_place p c m !! x = m !! x.
Proof. intros Hx Hm. destruct c as [| |diff [dest|] new]; simpl in *;
  rewrite ?lookup_delete_ne, ?lookup_insert_ne by (symmetry; auto); done. Qed.

Lemma change_effect_promised at_place p c m q v :
  (forall dest, move_target c = Some dest -> at_place dest <> at_place p) -> promised p c q v ->
  change_effect at_place p c m !! at_place q = TextFile <$> v.
Proof.
  intros Hm Hv. destruct c as [| |diff [dest|] new]; simpl in *; destruct_and?; subst; simplify_map_eq; try done.
  destruct Hv as [[-> ->] | [-> ->]]; [|by rewrite lookup_delete_eq].
  rewrite lookup_delete_ne by (symmetry; by apply Hm). by rewrite lookup_insert_eq.
Qed.

(** Different entries of an action that keeps its moves and its links apart
    concern different places. *)
Lemma entries_apart (fs0 : FS) changes p c p' c' q v :
  moves_apart changes -> links_apart fs0 changes -> changes !! p = Some c -> changes !! p' = Some c' -> p' <> p -> promised p' c' q v ->
  target fs0 q <> target fs0 p /\ forall dest, move_target c = Some dest -> target fs0 q <> target fs0 dest.
Proof.
  intros Hap [Hinj _] Hp Hp' Hne Hq.
  assert (names changes q) as Hnq by (by eapply names_promised).
  apply promised_named in Hq. split.
  - intros He%Hinj; [|done|left; eauto]. subst q. destruct Hq as [-> | Hm]; [done|]. destruct (Hap _ _ _ Hp' Hm). congruence.
  - intros dest Hm He%Hinj; [|done|right; eauto]. subst q. destruct (Hap _ _ _ Hp Hm) as [Hnone Huniq].
    destruct Hq as [-> | Hm']; [congruence|]. by specialize (Huniq _ _ Hp' Hm').
Qed.

Lemma as_shown_step (fs0 fs fs1 : FS) acc changes p c :
  as_shown fs0 fs acc -> acc !! p = None -> <[p := c]> acc ⊆ changes -> moves_apart changes -> links_apart fs0 changes ->
  links fs1 = links fs0 -> view fs1 = change_effect (target fs0) p c (view fs) -> as_shown fs0 fs1 (<[p := c]> acc).
Proof.
  intros (_ & Hs & Hu) Hp Hsub Hap Hla Hl Hv.
  assert (changes !! p = Some c) as Hpc by (eapply lookup_weaken; [apply lookup_insert_eq|done]).
  assert (forall dest, move_target c = Some dest -> target fs0 dest <> target fs0 p) as Hown.
  { intros dest Hm He. apply Hla in He; [|right; eauto|left; eauto]. subst dest. destruct (Hap _ _ _ Hpc Hm). congruence. }
  split_and!; [done|..].
  - intros p' c' q v Hp' Hq. rewrite Hv. destruct (decide (p' = p)) as [-> | Hne].
    { rewrite lookup_insert_eq in Hp'. injection Hp' as <-. by apply change_effect_promised. }
    rewrite lookup_insert_ne in Hp' by done.
    assert (changes !! p' = Some c') as Hc' by (eapply lookup_weaken; [|exact Hsub]; by rewrite lookup_insert_ne).
    destruct (entries_apart fs0 changes p c p' c' q v) as [H1 H2]; [done..|].
    rewrite change_effect_other by done. by eapply Hs.
  - intros x Hx. rewrite Hv, change_effect_other; [apply Hu|..].
    + intros q Hq. apply Hx. eapply names_mono; [|exact Hq]. by apply insert_subseteq.
    + apply Hx. left. by rewrite lookup_insert_eq.
    + intros dest Hm. apply Hx. right. exists p, c. by rewrite lookup_insert_eq.
Qed.

Lemma apply_loop_as_shown fs0 o cwd changes hs acc (fs : FS) d a fs' d' r :
  verify_hunks unified_diff fs0 cwd (update_file_mode o) hs acc = Returned changes -> moves_apart changes -> links_apart fs0 changes ->
  as_shown fs0 fs acc -> apply_loop fs d o cwd hs a = (fs', d', Returned r) -> as_shown fs0 fs' changes.
Proof.
  intros Hv Hap Hla. revert acc fs d a Hv. induction hs as [|h hs IH]; intros acc fs d a Hv Hs Ha; simpl in Hv, Ha.
  { injection Hv as <-. by injection Ha as <- _ _. }
  destruct (resolve_path h cwd) as [p|e] eqn:Ep; [|done]. destruct (acc !! p) eqn:Hacc; [done|].
  destruct (verify_hunk _ _ _ _ _ _) as [c|e|] eqn:Ec; [|done..].
  destruct (apply_hunk fs d o cwd h) as [[fs1 d1] [u|e|]] eqn:Eh; [|done..].
  pose proof (verify_hunks_grow _ _ _ _ _ _ Hv) as Hsub.
  assert (changes !! p = Some c) as Hpc by (eapply lookup_weaken; [apply lookup_insert_eq|done]).
  assert (links fs1 = links fs0 /\ view fs1 = change_effect (target fs0) p c (view fs)) as [Hl1 Hv1].
  { eapply hunk_effect; [done|exact Ec|apply Hs|by apply Hla| |exact Eh]. apply Hs. intros q Hq He.
    assert (acc ⊆ changes) as Hsub' by (etransitivity; [|exact Hsub]; by apply insert_subseteq).
    apply Hla in He; [|left; eauto|by eapply names_mono]. subst q.
    destruct Hq as [[c' Hc'] | (p' & c' & Hc' & Hm)]; [congruence|].
    destruct (Hap p' c' p); [by eapply lookup_weaken|done|congruence]. }
  eapply (IH _ _ _ _ Hv); [|exact Ha]. by eapply as_shown_step.
Qed.

(** All paths an action names, from its entries. *)
Definition named_paths changes : list PathUri :=
  List.map fst (map_to_list changes) ++ omap (fun '(_, c) => move_target c) (map_to_list changes).

Lemma names_list changes q : names changes q <-> q ∈ named_paths changes.
Proof.
  unfold names, named_paths. rewrite elem_of_app. f_equiv.
  - rewrite list_elem_of_In, in_map_iff. split.
    + intros [c Hc]. exists (q, c). split; [done|]. by apply list_elem_of_In, elem_of_map_to_list.
    + intros ([p c] & <- & Hc). apply list_elem_of_In, elem_of_map_to_list in Hc. by exists c.
  - rewrite list_elem_of_omap. split.
    + intros (p & c & Hc & Hm). exists (p, c). by split; [apply elem_of_map_to_list|].
    + intros ([p c] & Hc & Hm). exists p, c. by split; [apply elem_of_map_to_list|].
Qed.

#[export] Instance names_dec changes q : Decision (names changes q).
Proof. refine (cast_if (decide (q ∈ named_paths changes))); by rewrite names_list. Defined.

Lemma moves_apart_list changes : NoDup (named_paths changes) -> moves_apart changes.
Proof.
  intros (Hk & Hd & Hm)%NoDup_app p c dest Hp Hc. apply elem_of_map_to_list in Hp.
  assert (dest ∈ omap (fun '(_, c) => move_target c) (map_to_list changes)) as Hin by (apply list_elem_of_omap; by exists (p, c)).
  split.
  - destruct (changes !! dest) as [x|] eqn:E; [|done]. exfalso. apply (Hd dest); [|done].
    apply list_elem_of_In, in_map_iff. exists (dest, x). split; [done|]. by apply list_elem_of_In, elem_of_map_to_list.
  - intros p' c' Hp' Hc'. apply elem_of_map_to_list in Hp'.
    assert ((p', c') = (p, c)) as [= -> _]; [|done].
    eapply (nodup_omap_inj (fun '(_, c) => move_target c)); eauto.
Qed.

Lemma nodup_map_inj {A B} (f : A -> B) (l : list A) x y : NoDup (List.map f l) -> x ∈ l -> y ∈ l -> f x = f y -> x = y.
Proof.
  rewrite !list_elem_of_In. induction l as [|z l IH]; simpl; [done|].
  intros [Hz Hnd]%NoDup_cons [-> | Hx] [-> | Hy] He; [done| | |by apply IH]; destruct Hz; apply list_elem_of_In, in_map_iff;
    [by exists y|by exists x].
Qed.

Lemma links_apart_list (fs : FS) changes :
  NoDup (List.map (target fs) (named_paths changes)) ->
  Forall (fun pc => removes pc.2 = true -> links fs !! place fs pc.1 = None) (map_to_list changes) -> links_apart fs changes.
Proof.
  intros Hnd HF. split.
  - intros q q' Hq Hq' He. apply names_list in Hq, Hq'. by eapply (nodup_map_inj (target fs)).
  - intros p c Hp Hr. apply elem_of_map_to_list in Hp. by apply (proj1 (Forall_forall _ _) HF _ Hp).
Qed.

Variables (show_io : io_error -> str) (show_uri : PathUriParseError -> str) (show_parse : ParseError -> str)
  (stdout_ok stderr_ok : bool) (write_error : io_error).

(** C5. What was shown for approval is what happens.  A patch is parsed and verified
    against the files; the text of the resulting action is applied to the same
    files with the mode of the action, with links followed or refused.  If that
    succeeds, what every path of the action leads to holds what was shown, deleted
    and moved files are gone, no link has changed, and no other entry has changed.
    This is so when the text has no carriage returns, files are moved to paths
    nothing else writes, no two paths of the action lead to the same file, and no
    path that is deleted or moved away is itself a link (files have no hard
    links).  [moved_onto_target], [carriage_returns_lost] and [links_meet] below
    show what happens otherwise. *)
Theorem approved_patch_is_applied (fs : FS) text args dir cwd m follow action d :
  parse_patch text = Ok args -> CR ∉ patch args ->
  try_verify_apply_patch_args unified_diff fs (set_workdir args dir) cwd m = Returned action ->
  moves_apart (action_changes action) -> links_apart fs (action_changes action) ->
  let out := apply_patch_with_options show_io show_uri show_parse write_error stdout_ok stderr_ok fs (action_patch action)
               (mkOptions (action_mode action) follow) (action_cwd action) in
  out_result out = Returned d -> as_shown fs (out_fs out) (action_changes action).
Proof.
  intros Hp Hcr Hv Hap Hla. destruct (parse_patch_again _ _ Hp Hcr) as [patch' Hp'].
  unfold try_verify_apply_patch_args in Hv. simpl in Hv.
  destruct (match dir with Some _ => _ | None => _ end) as [ecwd|e]; [|done].
  destruct (verify_hunks _ _ _ _ _ _) as [changes|e|] eqn:Ec; [|done..]. injection Hv as <-. simpl in Hap, Hla |- *.
  unfold apply_patch_with_options. rewrite Hp'. unfold apply_hunks_with_options, apply_hunks_to_files. simpl.
  destruct (args_hunks args) as [|h hs]; [simpl; by destruct stderr_ok|]. cbn [is_nil].
  destruct (apply_loop fs _ _ _ _ _) as [[fs' d'] [a|e|]] eqn:Ea; [|by destruct stderr_ok|done].
  destruct stdout_ok; [|done]. intros _. simpl out_fs. eapply (apply_loop_as_shown _ (mkOptions m follow)); [exact Ec|done..| |exact Ea].
  split_and!; [done|intros ????; by rewrite lookup_empty|done].
Qed.
End Shown.

(** ** Sample patches *)

Definition patch_text (body : list string) : str := join [LF] (List.map lit (["*** Begin Patch"] ++ body ++ ["*** End Patch"])).

Definition no_diff : nat -> str -> str -> str := fun _ _ _ => [].

Definition demo_patch_text : str := patch_text
  ["*** Add File: d/b.txt"; "+hi"; "*** Add File: gone.txt"; "+ho"; "*** Update File: a.txt"; "*** Move to: c.txt"; "@@"; " one"; "-two"; "+2"].

Definition verified (fs : MemFs) (text : str) : option (ApplyPatchAction (list N)) :=
  match parse_patch text with
  | Err _ => None
  | Ok args => match try_verify_apply_patch_args no_diff fs args MemFs.root NormalizeToLf with Returned action => Some action | _ => None end
  end.

Definition applied (fs : MemFs) (action : ApplyPatchAction (list N)) :=
  apply_patch_with_options io_message (fun _ => []) (fun _ => []) not_found true true fs (action_patch action)
    (mkOptions (action_mode action) true) (action_cwd action).

Definition demo_args : ApplyPatchArgs := mkArgs demo_patch_text
  [AddFile (lit "d/b.txt") (lit "hi" ++ [LF]); AddFile (lit "gone.txt") (lit "ho" ++ [LF]); UpdateFile (lit "a.txt") (Some (lit "c.txt")) [demo_chunk]] None None.
Definition demo_new : str := join [LF] [lit "one"; lit "2"; lit "three"; []].
Definition demo_action : ApplyPatchAction (list N) :=
  mkAction {[ lit "/w/d/b.txt" := AddChange (lit "hi" ++ [LF]); lit "/w/gone.txt" := AddChange (lit "ho" ++ [LF]); lit "/w/a.txt" := UpdateChange [] (Some (lit "/w/c.txt")) demo_new ]}
    NormalizeToLf demo_patch_text MemFs.root.

Lemma approved_patch_is_applied_witness :
  let after := view (out_fs (applied demo_fs demo_action)) in
  after !! lit "/w/c.txt" = Some (TextFile demo_new) /\ after !! lit "/w/new.txt" = Some (TextFile (lit "ho" ++ [LF]))
  /\ after !! lit "/w/l.txt" = view demo_fs !! lit "/w/l.txt".
Proof.
  cbv zeta. destruct (out_result (applied demo_fs demo_action)) as [d|e|] eqn:Er; [|vm_compute in Er; discriminate Er..].
  destruct (approved_patch_is_applied no_diff io_message (fun _ => []) (fun _ => []) true true not_found demo_fs demo_patch_text demo_args
              None MemFs.root NormalizeToLf true demo_action d) as (_ & Hs & Hu).
  - vm_compute. reflexivity.
  - apply (bool_decide_unpack _). vm_compute. exact I.
  - vm_compute. reflexivity.
  - apply moves_apart_list, (bool_decide_unpack _). vm_compute. exact I.
  - apply links_apart_list; apply (bool_decide_unpack _); vm_compute; exact I.
  - exact Er.
  - split_and!.
    + apply (Hs (lit "/w/a.txt") (UpdateChange [] (Some (lit "/w/c.txt")) demo_new) (lit "/w/c.txt") (Some demo_new)); [vm_compute; reflexivity|].
      left. split; reflexivity.
    + apply (Hs (lit "/w/gone.txt") (AddChange (lit "ho" ++ [LF])) (lit "/w/gone.txt") (Some (lit "ho" ++ [LF]))); [vm_compute; reflexivity|].
      split; reflexivity.
    + apply Hu. intros q Hq. rewrite names_list in Hq. revert q Hq.
      apply (proj1 (Forall_forall _ (named_paths (action_changes demo_action)))), (bool_decide_unpack _). vm_compute. exact I.
Defined.

(** A file moved onto the target of a later hunk: the action shows the old file
    edited, but its contents are lost and the moved file is edited instead. *)
Definition crossing_fs : MemFs :=
  mkMemFs {[ lit "/w/a" := TextFile (join [LF] [lit "x"; lit "z"; []]); lit "/w/b" := TextFile (join [LF] [lit "q"; lit "z"; []]) ]} {[ MemFs.root ]}.
Definition crossing_patch : str := patch_text
  ["*** Update File: a"; "*** Move to: b"; "@@"; "-x"; "+y"; "*** Update File: b"; "@@"; "-z"; "+w"].

Example moved_onto_target :
  option_map (fun action => (action_changes action !! lit "/w/b", view (out_fs (applied crossing_fs action)) !! lit "/w/b"))
    (verified crossing_fs crossing_patch)
  = Some (Some (UpdateChange [] None (join [LF] [lit "q"; lit "w"; []])), Some (TextFile (join [LF] [lit "y"; lit "w"; []]))).
Proof. vm_compute. reflexivity. Qed.

(** A carriage return that the action shows and the applied patch has lost. *)
Definition returns_patch : str :=
  join [LF] [lit "*** Begin Patch"; lit "*** Add File: n"; lit "+a" ++ [CR; CR; CR]; lit "*** End Patch"].

Example carriage_returns_lost :
  option_map (fun action => (action_changes action !! lit "/w/n", view (out_fs (applied demo_fs action)) !! lit "/w/n"))
    (verified demo_fs returns_patch)
  = Some (Some (AddChange (lit "a" ++ [CR; LF])), Some (TextFile (lit "a" ++ [LF]))).
Proof. vm_compute. reflexivity. Qed.

(** Two paths that lead to one file: each is shown with its own edit, and the
    file gets both. *)
Definition meeting_patch : str := patch_text
  ["*** Update File: a.txt"; "@@"; "-one"; "+1"; "*** Update File: l.txt"; "@@"; "-three"; "+3"].

Example links_meet :
  option_map (fun action => (action_changes action !! lit "/w/a.txt", view (out_fs (applied demo_fs action)) !! lit "/w/a.txt"))
    (verified demo_fs meeting_patch)
  = Some (Some (UpdateChange [] None (join [LF] [lit "1"; lit "two"; lit "three"; []])),
          Some (TextFile (join [LF] [lit "1"; lit "two"; lit "3"; []]))).
Proof. vm_compute. reflexivity. Qed.
