(* ===== verification/PatchTool.v ===== *)
(** * The apply-patch tool, from a verified action to the files

    [core/src/safety.rs] decides whether the changes of an action
    ([Invocation.v]) may be made without asking; [core/src/apply_patch.rs] turns
    that into an approval requirement; the handler
    ([core/src/tools/handlers/apply_patch.rs]) hands the request to the
    orchestrator ([Orchestrator.v]); the runtime
    ([core/src/tools/runtimes/apply_patch.rs]) applies the patch in each attempt
    and keeps what was committed.

    Paths are an abstract type with the equality of the program's [PathUri];
    [uri_of] gives the URI of [UriPath.v].  Matching against the local file system
    is a parameter, and so is the effect of a sandbox on the file system, except
    that entering one changes no file.  Events and telemetry are left out.

    The theorem: whatever the reviewer, the network and the file system do, a call
    changes only files its action names; without an approval only files the policy
    lets it write; and what it reports as committed is what happened, over all
    attempts. *)

From stdpp Require Import base list numbers option strings gmap.
From Stdlib Require Import Lia.
From S2P Require Import Prelude RustStr UriPath Permissions PolicyTransforms ExecApproval Orchestrator PatchParser SeekSequence FileUpdate ApplyPatch MemFs Invocation.

(** ** Signs of a denial ([sandboxing/src/denial.rs]) *)

Record ExecToolCallOutput := mkExecOutput { exit_code : Z; stdout : str; stderr : str; aggregated_output : str }.

Section Denial.
Variable to_lowercase : str -> str.

Definition SANDBOX_DENIED_KEYWORDS : list str :=
  List.map lit ["operation not permitted"; "permission denied"; "read-only file system"; "seccomp"; "sandbox"; "landlock"; "failed to write file"].

Definition is_likely_executor_managed_sandbox_denied (o : ExecToolCallOutput) : bool :=
  if Z.eqb (exit_code o) 0 then false
  else existsb (fun section => existsb (fun needle => contains needle (to_lowercase section)) SANDBOX_DENIED_KEYWORDS)
         [stderr o; stdout o; aggregated_output o].

(** [libc::SIGSYS] of Linux is 31; [unix]: the platform has signals. *)
Definition is_likely_sandbox_denied (unix : bool) (sandbox : SandboxType) (o : ExecToolCallOutput) : bool :=
  if bool_decide (sandbox = NoSandbox) || Z.eqb (exit_code o) 0 then false
  else if is_likely_executor_managed_sandbox_denied o then true
  else if existsb (Z.eqb (exit_code o)) [2; 126; 127]%Z then false
  else unix && bool_decide (sandbox = LinuxSeccomp) && Z.eqb (exit_code o) (128 + 31).
End Denial.

(** ** Granted permissions ([core/src/tools/handlers/mod.rs]) *)

Section Granted.
Context {UO : UrlOps}.

Record EffectiveAdditionalPermissions := mkEffective {
  eff_sandbox_permissions : SandboxPermissions;
  eff_additional_permissions : option AdditionalPermissionProfile;
  permissions_preapproved : bool }.

(** Entries that mean nothing in the context. *)
Definition unplaced_entry (ctx : PolicyContext) (e : FileSystemSandboxEntry) : bool :=
  match entry_path e with
  | Special Tmpdir => match temporary_directories ctx with None => true | Some l => is_nil l end
  | Special (ProjectRoots _) => is_nil (workspace_roots ctx)
  | _ => false
  end.

Definition network_permissions_eqb (a b : option NetworkPermissions) : bool :=
  match a, b with
  | None, None => true
  | Some a, Some b => bool_decide (enabled a = enabled b)
  | _, _ => false
  end.

Definition preapproved_permission_profile (effective_permissions granted_permissions : AdditionalPermissionProfile) (ctx : PolicyContext)
    : option AdditionalPermissionProfile :=
  if is_some_and (add_file_system effective_permissions) (fun f => existsb (unplaced_entry ctx) (perm_entries f)) then None
  else
    match materialize_additional_permissions_with_context effective_permissions ctx,
          materialize_additional_permissions_with_context granted_permissions ctx with
    | Ok effective, Ok granted =>
        if negb (network_permissions_eqb (add_network effective) (add_network granted)) then None
        else
          let unchanged :=
            match add_file_system effective, add_file_system granted with
            | Some e, Some g =>
                bool_decide (perm_glob_scan_max_depth e = perm_glob_scan_max_depth g)
                && Nat.eqb (length (perm_entries e)) (length (perm_entries g))
                && forallb (contains_entry (perm_entries g)) (perm_entries e)
            | None, None => true
            | _, _ => false
            end in
          if unchanged then Some granted_permissions else None
    | _, _ => None
    end.

(** [granted]: the permissions granted for the turn. *)
Definition apply_granted_turn_permissions (granted : option AdditionalPermissionProfile) (ctx : PolicyContext)
    (permissions : SandboxPermissions) (additional : option AdditionalPermissionProfile) : EffectiveAdditionalPermissions :=
  match permissions with
  | RequireEscalated => mkEffective permissions additional false
  | _ =>
      let effective := merge_permission_profiles additional granted in
      let preapproved :=
        match granted with
        | None => None
        | Some g =>
            if is_none additional then Some g
            else match effective with Some e => preapproved_permission_profile e g ctx | None => None end
        end in
      let effective := match preapproved with Some p => Some p | None => effective end in
      mkEffective
        (if is_some effective && negb (match permissions with WithAdditionalPermissions => true | _ => false end)
         then WithAdditionalPermissions else permissions)
        effective (is_some preapproved)
  end.

(** A preapproved call has exactly the permissions that were granted. *)
Lemma preapproved_is_granted granted ctx permissions additional :
  permissions_preapproved (apply_granted_turn_permissions granted ctx permissions additional) = true ->
  is_some granted = true /\ eff_additional_permissions (apply_granted_turn_permissions granted ctx permissions additional) = granted.
Proof.
  destruct permissions, granted as [g|]; simpl; try done; destruct additional as [a|]; simpl; try done;
    unfold preapproved_permission_profile; repeat case_match; simplify_eq/=; done.
Qed.
End Granted.

(** ** Whether to ask ([core/src/safety.rs]) *)

Inductive SafetyCheck := AutoApprove | AskUser | Reject (reason : str).

Inductive PatchSandboxRoute := ExecutorManaged | Platform (level : WindowsSandboxLevel).

Definition has_configured_writable_roots {UO : UrlOps} (p : FileSystemSandboxPolicy) (ctx : PolicyContext) : bool :=
  negb (has_full_disk_write_access_with_context p ctx)
  && existsb (fun '(path, access) => can_write access && can_write_path p path ctx) (resolved_entries p ctx).

Section PatchTool.
  Context {FS PathUri : Type} `{!EqDecision PathUri, !Countable PathUri, !PathUriOps PathUri, !ExecutorFileSystem FS PathUri}.
  Context {UO : UrlOps}.
  Variable uri_of : PathUri -> UriPath.PathUri.
  Notation Action := (ApplyPatchAction PathUri).

Record PatchPolicyMatcher := mkMatcher {
  configured_policy : FileSystemSandboxPolicy;
  match_context : PolicyContext;
  sandbox_route : PatchSandboxRoute;
  local_matching : option (PathUri -> result bool io_error) }.

(** [prepare_local_matching] of the policy, for the local machine. *)
Variable prepare_local_matching : FileSystemSandboxPolicy -> PolicyContext -> result (PathUri -> result bool io_error) io_error.

Definition prepare_matching (route : PatchSandboxRoute) (policy : FileSystemSandboxPolicy) (ctx : PolicyContext)
    : result PatchPolicyMatcher io_error :=
  match route with
  | Platform _ => let? matching := prepare_local_matching policy ctx in Ok (mkMatcher policy ctx route (Some matching))
  | ExecutorManaged => Ok (mkMatcher policy ctx route None)
  end.

Definition matcher_can_write_path (m : PatchPolicyMatcher) (path : PathUri) : result bool io_error :=
  match local_matching m with
  | Some matching => matching path
  | None => Ok (can_write_path (configured_policy m) (uri_of path) (match_context m))
  end.

(** The loop over the changes; [Ok false] is an early return.  The program
    iterates in the order of a hash map. *)
Fixpoint changes_writable (m : PatchPolicyMatcher) (l : list (PathUri * ApplyPatchFileChange PathUri)) : result bool io_error :=
  match l with
  | [] => Ok true
  | (path, change) :: l =>
      let? writable := matcher_can_write_path m path in
      if negb writable then Ok false
      else
        match move_target change with
        | Some dest =>
            let? writable := matcher_can_write_path m dest in
            if negb writable then Ok false else changes_writable m l
        | None => changes_writable m l
        end
  end.

Definition is_write_patch_constrained_to_writable_paths (action : Action) (m : PatchPolicyMatcher) : result bool io_error :=
  if has_full_disk_write_access_with_context (configured_policy m) (match_context m) then Ok true
  else changes_writable m (map_to_list (action_changes action)).

Definition patch_rejection_reason (profile : PermissionProfile) (policy : FileSystemSandboxPolicy) (ctx : PolicyContext) : str :=
  match profile with
  | Managed _ _ =>
      if negb (has_full_disk_write_access_with_context policy ctx) && negb (has_configured_writable_roots policy ctx)
      then lit "writing is blocked by read-only sandbox; rejected by user approval settings"
      else lit "writing outside of the project; rejected by user approval settings"
  | Disabled | External _ => lit "writing outside of the project; rejected by user approval settings"
  end.

Definition action_is_empty (action : Action) : bool := is_nil (map_to_list (action_changes action)).

Definition assess_patch_safety (os : TargetOs) (action : Action) (policy : AskForApproval) (profile : PermissionProfile)
    (m : PatchPolicyMatcher) : result SafetyCheck io_error :=
  if action_is_empty action then Ok (Reject (lit "empty patch"))
  else
    match policy with
    | UnlessTrusted => Ok AskUser
    | Never | OnRequest | Granular _ =>
        let rejects_sandbox_approval :=
          match policy with Never => true | Granular config => negb (sandbox_approval config) | _ => false end in
        let sandbox_available :=
          match sandbox_route m with
          | ExecutorManaged => true
          | Platform level =>
              is_some (get_platform_sandbox os (match level with LevelDisabled => false | _ => true end))
          end in
        let? constrained := is_write_patch_constrained_to_writable_paths action m in
        if constrained && (match profile with Disabled | External _ => true | Managed _ _ => sandbox_available end) then Ok AutoApprove
        else if rejects_sandbox_approval
        then Ok (Reject (patch_rejection_reason profile (configured_policy m) (match_context m)))
        else Ok AskUser
    end.

(** ** From the check to the request ([core/src/apply_patch.rs]) *)

Record ApplyPatchRuntimeInvocation := mkInvocation {
  inv_action : Action;
  auto_approved : bool;
  inv_requirement : ExecApprovalRequirement }.

(** Errors are the texts sent back to the model. *)
Definition prepare_apply_patch (os : TargetOs) (policy : AskForApproval) (profile : PermissionProfile) (m : PatchPolicyMatcher)
    (action : Action) : result ApplyPatchRuntimeInvocation str :=
  match assess_patch_safety os action policy profile m with
  | Err error => Err (lit "failed to check patch permissions: " ++ io_message error)
  | Ok AutoApprove => Ok (mkInvocation action true (Skip false None))
  | Ok AskUser => Ok (mkInvocation action false (NeedsApproval None None))
  | Ok (Reject reason) => Err (lit "patch rejected: " ++ reason)
  end.
(** ** The runtime ([core/src/tools/runtimes/apply_patch.rs]) *)

Record ApplyPatchRequest := mkRequest {
  req_action : Action;
  req_requirement : ExecApprovalRequirement;
  req_additional_permissions : option AdditionalPermissionProfile;
  req_permissions_preapproved : bool }.

(** What a sandbox tells the file system; the choice of a Windows sandbox is left out. *)
Record FileSystemSandboxContext := mkSandboxContext {
  sc_permissions : option PermissionProfile;
  sc_cwd : UriPath.PathUri;
  sc_workspace_roots : list UriPath.PathUri;
  sc_user_home_dir : option UriPath.PathUri;
  sc_use_legacy_landlock : bool }.

Definition file_system_sandbox_context_for_attempt {Net} (req : ApplyPatchRequest) (env : TurnEnvironment) (attempt : SandboxAttempt Net)
    : option FileSystemSandboxContext :=
  if negb (sandbox_requested attempt) then None
  else Some (mkSandboxContext (effective_permission_profile (exec_server_permissions attempt) (req_additional_permissions req))
               (att_sandbox_cwd attempt) (att_workspace_roots attempt) (env_user_home_dir env) (att_use_legacy_landlock attempt)).

Definition patch_wants_no_sandbox_approval (policy : AskForApproval) : bool :=
  match policy with Never => false | Granular config => sandbox_approval config | OnRequest | UnlessTrusted => true end.

(** The runtime as the orchestrator sees it; the action for approvals is the
    request itself. *)
Definition apply_patch_runtime (env : TurnEnvironment) (req : ApplyPatchRequest) : ToolRuntime ApplyPatchRequest :=
  mkTool (Some (req_requirement req)) UseDefault default_should_bypass_approval patch_wants_no_sandbox_approval true PreferAuto
    (env_is_remote env) (Some (uri_of (action_cwd (req_action req)))) (Ok req).

(** The files, what was committed, and everything else a run touches. *)
Record PatchWorld (R : Type) := mkPatchWorld { pw_fs : FS; committed_delta : AppliedPatchDelta PathUri; pw_rest : R }.
End PatchTool.
Arguments mkPatchWorld {FS PathUri R} _ _ _.
Arguments pw_fs {FS PathUri R} _.
Arguments committed_delta {FS PathUri R} _.
Arguments pw_rest {FS PathUri R} _.
Arguments ApplyPatchRequest PathUri {_ _}.

(** Reviewer, managed network and executor, on the rest of the world. *)
Class PatchParties (R Req Net Deferred Spec : Type) := {
  pp_request_approval : Req -> ApprovalContext -> R -> R * result ReviewDecision ToolError;
  pp_spec_additional_permissions : Spec -> option AdditionalPermissionProfile;
  pp_begin_network_approval : bool -> option Spec -> R -> R * result (option Net) ToolError;
  pp_into_deferred : Net -> option Deferred;
  pp_finish_deferred : option Deferred -> R -> R * result unit ToolError;
  pp_environment_info : R -> R * result ExecutorInfo str }.

Section Run.
  Context {FS PathUri : Type} `{!EqDecision PathUri, !Countable PathUri, !PathUriOps PathUri, !ExecutorFileSystem FS PathUri}.
  Context {UO : UrlOps} {GS : GlobSet}.
  Context {R Net Deferred Spec : Type} `{!PatchParties R (ApplyPatchRequest PathUri) Net Deferred Spec}.
  Variable uri_of : PathUri -> UriPath.PathUri.
  (** The file system as an attempt sees it. *)
  Variable enter_sandbox : option FileSystemSandboxContext -> FS -> FS.
  Variable to_lowercase : str -> str.
  Variables (show_io : io_error -> str) (show_uri : PathUriParseError -> str) (show_parse : ParseError -> str) (write_error : io_error).
  Variable prepare_local_matching : FileSystemSandboxPolicy -> PolicyContext -> result (PathUri -> result bool io_error) io_error.
  (** Parents by the rules of the local machine, and the texts URIs are sorted by. *)
  Variables (local_parent : PathUri -> option PathUri) (uri_text : PathUri -> str).
  Variables (os : TargetOs) (env : TurnEnvironment) (turn : TurnSettings).
  Notation World := (PatchWorld (FS:=FS) (PathUri:=PathUri) R).

Definition is_unix (os : TargetOs) : bool := match os with WindowsOs => false | _ => true end.

(** What one application committed.  A panic does not happen on parsed patches. *)
Definition run_delta (r : outcome (AppliedPatchDelta PathUri) (ApplyPatchError * AppliedPatchDelta PathUri)) : AppliedPatchDelta PathUri :=
  match r with Returned d | Raised (_, d) => d | ApplyPatch.Panicked => inexact empty_delta end.

Definition text_of (ls : list str) : str := List.concat (List.map (fun l => l ++ [LF]) ls).

(** Output goes to memory, so writing it does not fail. *)
Definition patch_run (req : ApplyPatchRequest PathUri) (attempt : SandboxAttempt Net) (w : World)
    : World * result (ExecToolCallOutput * AppliedPatchDelta PathUri) ToolError :=
  let options := mkOptions (action_mode (req_action req))
                   (sandbox_requested attempt
                    || negb (should_sandbox os (att_permissions attempt) PreferAuto (enforce_managed_network attempt))) in
  let out := apply_patch_with_options show_io show_uri show_parse write_error true true
               (enter_sandbox (file_system_sandbox_context_for_attempt req env attempt) (pw_fs w))
               (action_patch (req_action req)) options (action_cwd (req_action req)) in
  let committed := append (committed_delta w) (run_delta (out_result out)) in
  let failed := match out_result out with Returned _ => false | _ => true end in
  let stdout := text_of (out_stdout out) in
  let stderr := text_of (out_stderr out) in
  let output := mkExecOutput (if failed then 1 else 0) stdout stderr (stdout ++ stderr) in
  let sandbox_denied :=
    failed && (if bool_decide (att_sandbox attempt = NoSandbox)
               then sandbox_requested attempt && is_likely_executor_managed_sandbox_denied to_lowercase output
               else is_likely_sandbox_denied to_lowercase (is_unix os) (att_sandbox attempt) output) in
  (mkPatchWorld (out_fs out) committed (pw_rest w),
   if sandbox_denied then Err (Codex (SandboxDenied None)) else Ok (output, committed)).

Definition on_rest {A} (w : World) (r : R * A) : World * A := (mkPatchWorld (pw_fs w) (committed_delta w) (fst r), snd r).

#[local] Instance patch_world (req : ApplyPatchRequest PathUri) : ToolWorld World (ApplyPatchRequest PathUri) (ExecToolCallOutput * AppliedPatchDelta PathUri) Net Deferred Spec := {
  request_approval action ctx w := on_rest w (pp_request_approval action ctx (pw_rest w));
  tool_run := patch_run req;
  network_approval_spec _ := None;
  spec_additional_permissions := pp_spec_additional_permissions (Req:=ApplyPatchRequest PathUri) (Net:=Net) (Deferred:=Deferred) (R:=R);
  begin_network_approval enforce spec w := on_rest w (pp_begin_network_approval enforce spec (pw_rest w));
  into_deferred := pp_into_deferred (Req:=ApplyPatchRequest PathUri) (R:=R) (Spec:=Spec);
  finish_deferred_network_approval d w := on_rest w (pp_finish_deferred d (pw_rest w));
  environment_info w := on_rest w (pp_environment_info (Req:=ApplyPatchRequest PathUri) (Net:=Net) (Deferred:=Deferred) (Spec:=Spec) (pw_rest w)) }.

(** The run of the handler: the world after it, what was asked and attempted. *)
Definition orchestrate (req : ApplyPatchRequest PathUri) (w : World) :=
  run (H := patch_world req) os (apply_patch_runtime uri_of env req) env turn w.

(** ** The handler ([core/src/tools/handlers/apply_patch.rs]) *)

Definition file_paths_for_action (action : ApplyPatchAction PathUri) : list PathUri :=
  flat_map (fun '(path, change) => path :: match move_target change with Some dest => [dest] | None => [] end)
    (map_to_list (action_changes action)).

Fixpoint str_leb (a b : str) : bool :=
  match a, b with
  | [], _ => true
  | _, [] => false
  | x :: a, y :: b => N.ltb x y || (N.eqb x y && str_leb a b)
  end.

Fixpoint insert_sorted (p : PathUri) (l : list PathUri) : list PathUri :=
  match l with
  | [] => [p]
  | q :: l' => if str_leb (uri_text p) (uri_text q) then p :: l else q :: insert_sorted p l'
  end.

(** [Vec::dedup]. *)
Fixpoint dedup (l : list PathUri) : list PathUri :=
  match l with
  | p :: ((q :: _) as l') => if decide (p = q) then dedup l' else p :: dedup l'
  | _ => l
  end.

Fixpoint write_parents (m : PatchPolicyMatcher) (paths : list PathUri) : result (list PathUri) io_error :=
  match paths with
  | [] => Ok []
  | path :: paths =>
      let? writable := matcher_can_write_path uri_of m path in
      if writable then write_parents m paths
      else
        let parent := match parent path with
                      | Some p => p
                      | None => match sandbox_route m with
                                | Platform _ => unwrap_or (local_parent path) path
                                | ExecutorManaged => path
                                end
                      end in
        let? writable := matcher_can_write_path uri_of m parent in
        let? rest := write_parents m paths in
        Ok (if writable then rest else parent :: rest)
  end.

Definition write_permissions_for_paths (paths : list PathUri) (m : PatchPolicyMatcher) : result (option AdditionalPermissionProfile) io_error :=
  let? write_paths := write_parents m paths in
  let write_paths := dedup (fold_right insert_sorted [] write_paths) in
  if is_nil write_paths then Ok None
  else
    let permissions :=
      mkAdditional None (Some (mkFsPermissions (List.map (fun p => new_entry (PathEntry (uri_of p)) WriteAccess) write_paths) None)) in
    Ok (ok_option (match sandbox_route m with
                   | Platform _ => normalize_additional_permissions permissions
                   | ExecutorManaged => normalize_additional_permissions_with_context permissions (match_context m)
                   end)).

(** The part before the orchestrator: the request, or a text for the model.
    [granted]: the permissions granted for the turn. *)
Definition prepare_verified_patch (granted : option AdditionalPermissionProfile) (level : WindowsSandboxLevel)
    (action : ApplyPatchAction PathUri) : result (ApplyPatchRequest PathUri * PatchPolicyMatcher) str :=
  let ctx := mkPolicyContext (uri_of (action_cwd action)) (env_workspace_roots env) (env_user_home_dir env) (env_temporary_directories env) in
  let route := if env_is_remote env then ExecutorManaged else Platform level in
  let policy := effective_file_system_sandbox_policy (file_system_sandbox_policy (env_permission_profile env)) granted in
  match prepare_matching prepare_local_matching route policy ctx with
  | Err error => Err (lit "failed to prepare patch permissions: " ++ io_message error)
  | Ok matching =>
      match write_permissions_for_paths (file_paths_for_action action) matching with
      | Err error => Err (lit "failed to check patch permissions: " ++ io_message error)
      | Ok additional =>
          let effective := apply_granted_turn_permissions granted ctx UseDefault additional in
          let? invocation := prepare_apply_patch uri_of os (turn_approval_policy turn) (env_permission_profile env) matching action in
          Ok (mkRequest (inv_action invocation) (inv_requirement invocation) (eff_additional_permissions effective)
                (permissions_preapproved effective), matching)
      end
  end.

Definition execute_verified_patch (granted : option AdditionalPermissionProfile) (level : WindowsSandboxLevel)
    (action : ApplyPatchAction PathUri) (w : World) :=
  match prepare_verified_patch granted level action with
  | Err message => (w, [], Err (inl message))
  | Ok (req, _) => let '(w, evs, r) := orchestrate req w in (w, evs, map_err inr r)
  end.
End Run.

(** ** Invariants of the world along a run *)

Section Traced.
  Context {W Out Net : Type}.
  Notation act := (act (W:=W) (Out:=Out) (Net:=Net)).
  Variable J : list (Event Out Net) -> W -> Prop.

Definition traced {A} (m : act A) : Prop := forall evs w, J evs w -> J (evs ++ snd (fst (m w))) (fst (fst (m w))).

Lemma traced_ret {A} (a : A) : traced (ret a).
Proof. intros evs w H. simpl. by rewrite app_nil_r. Qed.

Lemma traced_stop {A} s : traced (stop s : act A).
Proof. intros evs w H. simpl. by rewrite app_nil_r. Qed.

Lemma traced_bind {A B} (m : act A) (k : A -> act B) : traced m -> (forall a, traced (k a)) -> traced (bind m k).
Proof.
  intros Hm Hk evs w H. specialize (Hm evs w H). unfold bind. destruct (m w) as [[w1 evs1] [a|s]]; [|done]. simpl in Hm.
  specialize (Hk a _ _ Hm). destruct (k a w1) as [[w2 evs2] r]. simpl in *. by rewrite app_assoc.
Qed.

Lemma traced_or_panic {A} (o : option A) : traced (or_panic o).
Proof. destruct o; [apply traced_ret|apply traced_stop]. Qed.
End Traced.

Section TracedRun.
  Context {UO : UrlOps} {GS : GlobSet}.
  Context {W Action Out Net Deferred Spec : Type} `{TW : ToolWorld W Action Out Net Deferred Spec}.
  Variable J : list (Event Out Net) -> W -> Prop.
  Hypothesis Hask : forall evs w action ctx, J evs w ->
    J (evs ++ [Asked ctx (snd (request_approval action ctx w))]) (fst (request_approval action ctx w)).
  Hypothesis Hrun : forall evs w a, J evs w -> J (evs ++ [Attempted a (snd (tool_run a w))]) (fst (tool_run a w)).
  Hypothesis Hbegin : forall evs w enforce spec, J evs w -> J evs (fst (begin_network_approval enforce spec w)).
  Hypothesis Hfinish : forall evs w d, J evs w -> J evs (fst (finish_deferred_network_approval d w)).
  Hypothesis Hinfo : forall evs w, J evs w -> J evs (fst (environment_info w)).
  Variables (os : TargetOs) (tool : ToolRuntime Action) (env : TurnEnvironment) (turn : TurnSettings).
  Notation traced := (traced J).

Lemma ask_traced reason rr network : traced (ask_approval tool turn reason rr network).
Proof.
  unfold ask_approval. destruct (approval_action tool) as [action|m]; [|apply traced_stop]. intros evs w H.
  specialize (Hask evs w action (mkApprovalContext (turn_strict_auto_review turn) reason rr network) H).
  destruct (request_approval action _ w) as [w' ans]. exact Hask.
Qed.

Lemma attempt_traced attempt spec : traced (run_attempt attempt spec).
Proof.
  intros evs w H. unfold run_attempt. specialize (Hbegin evs w (enforce_managed_network attempt) spec H).
  destruct (begin_network_approval _ spec w) as [w1 [n|e]]; simpl in *; [|by rewrite app_nil_r].
  specialize (Hrun evs w1 (with_network attempt n) Hbegin). destruct (tool_run _ w1) as [w2 o]. simpl in *.
  destruct n as [n|]; [|done]. destruct o as [out|e]; [done|]. specialize (Hfinish _ w2 (into_deferred n) Hrun).
  destruct (finish_deferred_network_approval (into_deferred n) w2) as [w3 r]. done.
Qed.

Lemma executor_traced escalated metadata : traced (verify_executor env escalated metadata).
Proof.
  unfold verify_executor. destruct (_ && _); [|apply traced_ret]. intros evs w H. specialize (Hinfo evs w H).
  destruct (environment_info w) as [w' [info|e]]; [|simpl; by rewrite app_nil_r]. simpl in *.
  destruct (_ && _); simpl; by rewrite app_nil_r.
Qed.

Ltac trace :=
  repeat match goal with
  | |- traced (bind _ _) => apply traced_bind; [|intros]
  | |- traced (ret _) => apply traced_ret
  | |- traced (fail _) => apply traced_stop
  | |- traced (stop _) => apply traced_stop
  | |- traced (or_panic _) => apply traced_or_panic
  | |- traced (ask_approval _ _ _ _ _) => apply ask_traced
  | |- traced (run_attempt _ _) => apply attempt_traced
  | |- traced (verify_executor _ _ _) => apply executor_traced
  | |- traced (match ?x with _ => _ end) => destruct x
  end.

Lemma retry_traced fs requirement already permissions exec_server managed decision :
  traced (retry os tool env turn fs requirement already permissions exec_server managed decision).
Proof.
  unfold retry. cbv zeta. destruct (negb (may_retry _ _ _ _ _ _)); [apply traced_stop|]. apply traced_bind; [trace|]. intros _ evs w H.
  refine ((_ : traced (bind (run_attempt _ (network_approval_spec w)) _)) evs w H). trace.
Qed.

Lemma attempts_traced fs requirement already override permissions exec_server spec :
  traced (attempts os tool env turn fs requirement already override permissions exec_server spec).
Proof.
  unfold attempts, lift. cbv zeta. apply traced_bind; [trace|]. intros _. apply traced_bind; [apply attempt_traced|].
  intros [[out|err] d]; [apply traced_ret|]. destruct err as [m|e]; [apply traced_stop|]. destruct e; try apply traced_stop.
  apply retry_traced.
Qed.

Lemma run_traced : traced (run os tool env turn).
Proof.
  unfold run, approval_stage, select_permissions. cbv zeta. apply traced_bind; [trace|]. intros perms. apply traced_bind; [trace|].
  intros already. apply traced_bind; [destruct (if bool_decide _ then _ else _) as [[o|] b]; trace|]. intros [ip es] evs w H.
  by apply attempts_traced.
Qed.
End TracedRun.

(** ** What a call changes *)

Section Respect.
  Context {FS PathUri : Type} `{!EqDecision PathUri, !Countable PathUri, !PathUriOps PathUri, !ExecutorFileSystem FS PathUri,
    !LawfulFileSystem FS PathUri}.
  Context {UO : UrlOps} {GS : GlobSet}.
  Context {R Net Deferred Spec : Type} `{!PatchParties R (ApplyPatchRequest PathUri) Net Deferred Spec}.
  Variable uri_of : PathUri -> UriPath.PathUri.
  Variable enter_sandbox : option FileSystemSandboxContext -> FS -> FS.
  Variable to_lowercase : str -> str.
  Variables (show_io : io_error -> str) (show_uri : PathUriParseError -> str) (show_parse : ParseError -> str) (write_error : io_error).
  Variable unified_diff : nat -> str -> str -> str.
  Variable prepare_local_matching : FileSystemSandboxPolicy -> PolicyContext -> result (PathUri -> result bool io_error) io_error.
  Variables (local_parent : PathUri -> option PathUri) (uri_text : PathUri -> str).
  Variables (os : TargetOs) (env : TurnEnvironment) (turn : TurnSettings).
  (** Entering a sandbox changes no file. *)
  Hypothesis enter_view : forall s fs, view (enter_sandbox s fs) = view fs.
  Notation World := (PatchWorld (FS:=FS) (PathUri:=PathUri) R).
  Notation apply_text := (apply_patch_with_options show_io show_uri show_parse write_error true true).

Lemma append_tracks (fs0 fs fs1 fs' : FS) d d' :
  delta_tracks fs0 fs d -> view fs1 = view fs -> delta_tracks fs1 fs' d' -> delta_tracks fs0 fs' (append d d').
Proof.
  intros H Hv H' He. apply andb_true_iff in He as [He He']. destruct (H He) as (Hl & Hr & Hu), (H' He') as (Hl' & Hr' & Hu'). simpl.
  rewrite (links_eq _ _ Hv), Hl in Hl'. assert (target fs1 = target fs0) as Ht by (unfold target; by rewrite (links_eq _ _ Hv), Hl).
  rewrite Ht in Hr', Hu'. unfold redo, undo in *. rewrite fold_left_app, fold_right_app, Hr, Hu', Hv, Hu, <- Hv. done.
Qed.

Lemma apply_text_tracks fs text o cwd : delta_tracks fs (out_fs (apply_text fs text o cwd)) (run_delta (out_result (apply_text fs text o cwd))).
Proof.
  unfold apply_patch_with_options. destruct (parse_patch text) as [args|e]; [|done].
  unfold apply_hunks_with_options, apply_hunks_to_files. destruct (is_nil (args_hunks args)); [done|].
  destruct (apply_loop fs empty_delta o cwd (args_hunks args) _) as [[fs' d] r] eqn:E.
  assert (delta_tracks fs fs' d) as Hd by (by eapply apply_loop_tracks; [|exact E]). by destruct r.
Qed.

Lemma apply_text_frame fs text args o cwd : parse_patch text = Ok args ->
  links (out_fs (apply_text fs text o cwd)) ⊆ links fs
  /\ forall x, framed fs (out_fs (apply_text fs text o cwd)) (hunks_target cwd (args_hunks args)) x.
Proof.
  intros Hp. unfold apply_patch_with_options. rewrite Hp. unfold apply_hunks_with_options, apply_hunks_to_files.
  destruct (is_nil (args_hunks args)); [split; [done|by left]|]. destruct (apply_loop fs empty_delta o cwd (args_hunks args) _) as [[fs' d] r] eqn:E.
  apply apply_loop_frame in E. by destruct r.
Qed.

Lemma verified_targets (fsv : FS) cwd m hs acc changes h q :
  verify_hunks unified_diff fsv cwd m hs acc = Returned changes -> h ∈ hs -> hunk_targets cwd h q -> names changes q.
Proof.
  revert acc. induction hs as [|h' hs IH]; intros acc Hv Hin Ht; [by apply not_elem_of_nil in Hin|]. simpl in Hv.
  destruct (resolve_path h' cwd) as [p|e] eqn:Ep; [|done]. destruct (acc !! p); [done|].
  destruct (verify_hunk unified_diff fsv cwd p m h') as [c|e|] eqn:Ec; [|done..].
  apply elem_of_cons in Hin as [-> | Hin]; [|by eapply IH].
  assert (changes !! p = Some c) as Hp by (eapply lookup_weaken; [apply lookup_insert_eq|by eapply verify_hunks_grow]).
  destruct Ht as [Ht|Ht]; [rewrite Ep in Ht; injection Ht as <-; left; eauto|].
  right. exists p, c. split; [done|]. destruct h' as [| |path [dest|] cs]; [done..| |done]. simpl in Ec.
  destruct (unified_diff_from_chunks_with_mode _ _ _ _ _) as [[diff new]|e|]; [|done..]. rewrite Ht in Ec. by injection Ec as <-.
Qed.

Lemma constrained_writable m action q :
  is_write_patch_constrained_to_writable_paths uri_of action m = Ok true -> names (action_changes action) q ->
  has_full_disk_write_access_with_context (configured_policy m) (match_context m) = true \/ matcher_can_write_path uri_of m q = Ok true.
Proof.
  unfold is_write_patch_constrained_to_writable_paths. destruct (has_full_disk_write_access_with_context _ _); [by left|].
  intros Hc Hn. right.
  assert (exists p c, (p, c) ∈ map_to_list (action_changes action) /\ (q = p \/ move_target c = Some q)) as (p & c & Hin & Hq).
  { destruct Hn as [[c Hc'] | (p & c & Hc' & Hm)]; [exists q, c|exists p, c]; (split; [by apply elem_of_map_to_list|auto]). }
  induction (map_to_list (action_changes action)) as [|[p' c'] l IH]; [by apply not_elem_of_nil in Hin|]. simpl in Hc.
  destruct (matcher_can_write_path uri_of m p') as [[|]|e] eqn:Ep; simpl in Hc; [|done..].
  apply elem_of_cons in Hin as [[= <- <-] | Hin].
  - destruct Hq as [-> | Hm]; [done|]. rewrite Hm in Hc. by destruct (matcher_can_write_path uri_of m q) as [[|]|e].
  - apply IH; [|done]. destruct (move_target c') as [dest|]; [|done]. by destruct (matcher_can_write_path uri_of m dest) as [[|]|e].
Qed.
Definition execute := execute_verified_patch uri_of enter_sandbox to_lowercase show_io show_uri show_parse write_error
  prepare_local_matching local_parent uri_text os env turn.
Definition prepared := prepare_verified_patch uri_of prepare_local_matching local_parent uri_text os env turn.

Section Call.
  Variables (req : ApplyPatchRequest PathUri) (args : ApplyPatchArgs) (fs0 : FS).
  Hypothesis Hparse : parse_patch (action_patch (req_action req)) = Ok args.
  Hypothesis Htargets : forall h q, h ∈ args_hunks args -> hunk_targets (action_cwd (req_action req)) h q ->
    names (action_changes (req_action req)) q.

(** What is true of the world at every point of a run. *)
Definition call_inv (evs : list (Event (ExecToolCallOutput * AppliedPatchDelta PathUri) Net)) (w : World) : Prop :=
  delta_tracks fs0 (pw_fs w) (committed_delta w)
  /\ links (pw_fs w) ⊆ links fs0
  /\ (forall x, framed fs0 (pw_fs w) (names (action_changes (req_action req))) x)
  /\ (existsb tries evs = false -> view (pw_fs w) = view fs0).

Lemma call_inv_silent evs evs' (w w' : World) : pw_fs w' = pw_fs w -> committed_delta w' = committed_delta w ->
  (existsb tries evs' = false -> existsb tries evs = false) -> call_inv evs w -> call_inv evs' w'.
Proof. intros Hf Hd He (H1 & Hl & H2 & H3). unfold call_inv. rewrite Hf, Hd. split_and!; auto. Qed.

Lemma call_inv_run evs (w : World) a :
  call_inv evs w -> call_inv (evs ++ [Attempted a (snd (patch_run enter_sandbox to_lowercase show_io show_uri show_parse write_error os env req a w))])
    (fst (patch_run enter_sandbox to_lowercase show_io show_uri show_parse write_error os env req a w)).
Proof.
  intros (H1 & Hl & H2 & H3). unfold patch_run. cbv zeta. unfold call_inv. cbn [fst snd pw_fs committed_delta].
  set (o := mkOptions _ _). set (fs1 := enter_sandbox _ _).
  assert (view fs1 = view (pw_fs w)) as Hv by apply enter_view. pose proof (links_eq _ _ Hv) as Hl1.
  destruct (apply_text_frame fs1 (action_patch (req_action req)) args o (action_cwd (req_action req)) Hparse) as [Hlinks Hframe].
  split_and!.
  - eapply append_tracks; [exact H1|exact Hv|apply apply_text_tracks].
  - etransitivity; [exact Hlinks|]. by rewrite Hl1.
  - intros x. eapply (framed_trans fs0 fs1); [by rewrite Hl1|destruct (H2 x); [left; by rewrite Hv|by right]|].
    eapply framed_mono; [|apply Hframe]. intros q (h & Hh & Hq). by eapply Htargets.
  - intros He. rewrite existsb_app in He. apply orb_false_iff in He as [_ ?]. done.
Qed.

Lemma orchestrate_inv (w : World) :
  let '(w', evs, _) := orchestrate uri_of enter_sandbox to_lowercase show_io show_uri show_parse write_error os env turn req w in
  call_inv [] w -> call_inv evs w'.
Proof.
  unfold orchestrate.
  pose proof (run_traced (TW := patch_world enter_sandbox to_lowercase show_io show_uri show_parse write_error os env req) call_inv) as Ht.
  match type of Ht with ?A -> _ => assert A as Hask end.
  { intros evs w0 action ctx. apply call_inv_silent; [done..|]. rewrite existsb_app. by intros [? _]%orb_false_iff. }
  specialize (Ht Hask). specialize (Ht (fun evs w a => call_inv_run evs w a)).
  specialize (Ht (fun evs w e s => call_inv_silent evs evs w _ eq_refl eq_refl (fun H => H))).
  specialize (Ht (fun evs w d => call_inv_silent evs evs w _ eq_refl eq_refl (fun H => H))).
  specialize (Ht (fun evs w => call_inv_silent evs evs w _ eq_refl eq_refl (fun H => H))).
  specialize (Ht os (apply_patch_runtime uri_of env req) env turn [] w).
  destruct (run os _ env turn w) as [[w' evs] r]. exact Ht.
Qed.
End Call.

(** Every attempt comes after an approval, or needs none. *)
Lemma patch_run_protocol req (w : World) :
  let '(_, evs, _) := orchestrate uri_of enter_sandbox to_lowercase show_io show_uri show_parse write_error os env turn req w in
  forall before a o after, evs = before ++ Attempted a o :: after ->
    existsb grants before = true \/ unasked turn (req_requirement req).
Proof.
  unfold orchestrate. pose (tool := apply_patch_runtime uri_of env req). fold tool.
  destruct (base_permissions_total tool env) as [perms Hperms].
  destruct (run_emits (TW := patch_world enter_sandbox to_lowercase show_io show_uri show_parse write_error os env req)
              os tool env turn perms (fun _ => True) Hperms (fun _ _ _ _ _ _ _ _ _ _ _ => I) w) as [Hs _].
  destruct (run os tool env turn w) as [[w' evs] r]. apply run_shape_protocol in Hs as (_ & Hauth & _).
  intros before a o after E. by destruct (Hauth before a o after E).
Qed.

(** Which files a matcher lets a patch change. *)
Definition patch_writable (m : PatchPolicyMatcher) (q : PathUri) : Prop :=
  has_full_disk_write_access_with_context (configured_policy m) (match_context m) = true \/ matcher_can_write_path uri_of m q = Ok true.

Lemma prepared_request granted level action req m : prepared granted level action = Ok (req, m) ->
  req_action req = action
  /\ ((req_requirement req = Skip false None /\ is_write_patch_constrained_to_writable_paths uri_of action m = Ok true)
      \/ req_requirement req = NeedsApproval None None).
Proof.
  unfold prepared, prepare_verified_patch. destruct (prepare_matching _ _ _ _) as [m'|e]; [|done].
  destruct (write_permissions_for_paths _ _ _ _ _) as [additional|e]; [|done]. intros H. apply result_bind_ok in H as (inv & Hinv & H).
  injection H as <- <-. unfold prepare_apply_patch in Hinv.
  destruct (assess_patch_safety uri_of os action _ _ m') as [[| |reason]|e] eqn:Ha; simplify_eq; simpl; (split; [done|]); [left|by right].
  split; [done|]. unfold assess_patch_safety in Ha. destruct (action_is_empty action); [done|].
  destruct (is_write_patch_constrained_to_writable_paths uri_of action m') as [[|]|e]; [done|..];
    by destruct (turn_approval_policy turn) as [| |g|]; simpl in Ha; try destruct (negb (sandbox_approval g)).
Qed.

(** C6. A patch call respects the policy, on a file system with symbolic links and
    no hard links.  Whatever the reviewer, the network and the sandbox do and
    whichever operations of the file system fail, in up to two attempts: every
    entry that differs afterwards is one that a path named by the verified action
    leads to, through the links there were; unless an approval was given in the
    run, the policy lets the patch write that path (the policy judges paths, not
    where their links lead; the sandbox of the attempt is what confines those); no
    link is made; and if the committed delta is exact, it is all of the difference,
    in both directions.  The text of the patch has no carriage returns: it is
    parsed again when it is applied, and carriage returns are lost on the way
    ([carriage_returns_lost]). *)
Theorem patch_call_respects_policy (fsv : FS) text args dir cwd mode action granted level (fs : FS) (rest : R) w' evs r :
  parse_patch text = Ok args -> CR ∉ patch args ->
  try_verify_apply_patch_args unified_diff fsv (set_workdir args dir) cwd mode = Returned action ->
  execute granted level action (mkPatchWorld fs empty_delta rest) = (w', evs, r) ->
  (forall x, view (pw_fs w') !! x <> view fs !! x ->
     exists q, names (action_changes action) q /\ reaches (links fs) q x
     /\ (existsb grants evs = true \/ exists req m, prepared granted level action = Ok (req, m) /\ patch_writable m q))
  /\ links (pw_fs w') ⊆ links fs
  /\ (exact (committed_delta w') = true ->
      links (pw_fs w') = links fs
      /\ redo (target fs) (changes (committed_delta w')) (view fs) = view (pw_fs w')
      /\ undo (target fs) (changes (committed_delta w')) (view (pw_fs w')) = view fs).
Proof.
  intros Hp Hcr Hv He. unfold execute, execute_verified_patch in He. fold prepared in He.
  destruct (prepared granted level action) as [[req m]|message] eqn:Hprep; [|injection He as <- <- <-; by split].
  destruct (prepared_request _ _ _ _ _ Hprep) as [Hact Hreq]. destruct (parse_patch_again _ _ Hp Hcr) as [patch' Hp'].
  unfold try_verify_apply_patch_args in Hv. simpl in Hv. destruct (match dir with Some _ => _ | None => _ end) as [ecwd|e]; [|done].
  destruct (verify_hunks _ _ _ _ _ _) as [chs|e|] eqn:Ec; [|done..]. injection Hv as Hv.
  pose proof (orchestrate_inv req (mkArgs patch' (args_hunks args) None (args_environment_id args)) fs) as Hinv.
  rewrite Hact, <- Hv in Hinv. specialize (Hinv Hp' (fun h q => verified_targets fsv ecwd mode _ ∅ chs h q Ec)
    (mkPatchWorld fs empty_delta rest)).
  destruct (orchestrate _ _ _ _ _ _ _ _ _ _ req _) as [[w1 evs1] r1] eqn:Eo. injection He as -> -> _.
  destruct Hinv as (Htr & Hlinks & Hframe & Hquiet); [split_and!; [done..|by left|done]|].
  split_and!; [|exact Hlinks|exact Htr]. rewrite Hact, <- Hv in Hframe. rewrite <- Hv. simpl in Hframe |- *. intros x Hx.
  destruct (Hframe x) as [?|(q & Hn & Hr)]; [done|]. exists q. split_and!; [done..|].
  destruct Hreq as [[_ Hc] | Hreq].
  { right. exists req, m. split; [done|]. apply (constrained_writable m action q); [done|]. by rewrite <- Hv. }
  left. destruct (existsb tries evs) eqn:Etries; [|by destruct Hx; rewrite Hquiet].
  apply existsb_exists in Etries as (ev & Hin & Htry). destruct ev as [|a o]; [done|]. apply in_split in Hin as (before & after & Hsplit).
  pose proof (patch_run_protocol req (mkPatchWorld fs empty_delta rest)) as Hprot. rewrite Eo in Hprot.
  destruct (Hprot _ _ _ _ Hsplit) as [Hg|[_ (b & am & Hsk)]]; [|congruence].
  rewrite Hsplit, existsb_app, Hg. done.
Qed.
End Respect.

(** ** A sample call *)

#[local] Existing Instance demo_globs.

#[local] Instance demo_parties : PatchParties unit (ApplyPatchRequest (list N)) unit unit unit := {
  pp_request_approval _ _ r := (r, Ok Approved);
  pp_spec_additional_permissions _ := None;
  pp_begin_network_approval _ _ r := (r, Ok None);
  pp_into_deferred _ := None;
  pp_finish_deferred _ r := (r, Ok tt);
  pp_environment_info r := (r, Err []) }.

(** Slash paths as URIs. *)
Definition slash_uri (p : list N) : UriPath.PathUri := posix_uri (non_empty (split SEP p)).

(** A remote environment whose policy lets a command write below [/w]. *)
Definition patch_environment (granted : FileSystemAccessMode) : TurnEnvironment :=
  mkEnvironment (Managed (ManagedRestricted [new_entry (Special RootPath) ReadAccess; new_entry (PathEntry here) granted] None) NetworkEnabled)
    [here] here None (Some []) None NoSandbox LevelDisabled false true.

Definition sample_call (granted : FileSystemAccessMode) (policy : AskForApproval) (action : ApplyPatchAction (list N)) :=
  execute slash_uri (fun _ fs => fs) (fun s => s) io_message (fun _ => []) (fun _ => []) not_found (fun _ _ => Err not_found)
    (fun _ => None) (fun p => p) Linux (patch_environment granted) (demo_turn policy) None LevelDisabled action
    (mkPatchWorld demo_fs empty_delta tt).

(** Inside the workspace nobody is asked; in a read-only workspace the call is
    refused when nobody may be asked. *)
Example sample_calls :
  let inside := sample_call WriteAccess Never demo_action in
  let outside := sample_call ReadAccess Never demo_action in
  List.map event_summary (snd (fst inside)) = [Some NoSandbox]
  /\ files (pw_fs (fst (fst inside))) !! lit "/w/c.txt" = Some (TextFile demo_new)
  /\ snd outside = Err (inl (lit "patch rejected: writing is blocked by read-only sandbox; rejected by user approval settings")).
Proof. vm_compute. split_and!; reflexivity. Qed.

Lemma patch_call_respects_policy_witness :
  exists w' evs r, sample_call WriteAccess Never demo_action = (w', evs, r) /\ existsb grants evs = false
    /\ redo (target demo_fs) (changes (committed_delta w')) (view demo_fs) = view (pw_fs w').
Proof.
  destruct (sample_call WriteAccess Never demo_action) as [[w' evs] r] eqn:E. exists w', evs, r.
  split; [reflexivity|]. split; [vm_compute in E; injection E as <- <- <-; vm_compute; reflexivity|].
  refine (proj1 (proj2 (proj2 (proj2 (patch_call_respects_policy slash_uri (fun _ fs => fs) (fun s => s) io_message (fun _ => []) (fun _ => []) not_found
    no_diff (fun _ _ => Err not_found) (fun _ => None) (fun p => p) Linux (patch_environment WriteAccess) (demo_turn Never)
    (fun _ _ => eq_refl) demo_fs demo_patch_text demo_args None MemFs.root NormalizeToLf demo_action None LevelDisabled demo_fs tt
    w' evs r _ _ _ E)) _))).
  - vm_compute. reflexivity.
  - apply (bool_decide_unpack _). vm_compute. exact I.
  - vm_compute. reflexivity.
  - vm_compute in E. injection E as <- <- <-. vm_compute. reflexivity.
Defined.
