(* ===== verification/RustNet.v ===== *)
(** * IP addresses of the standard library ([std::net])

    Addresses as octets and segments, the parser of [IpAddr] and the predicates
    the network proxy calls.  Addresses that parse have octets and segments in
    range ([parse_ip_addr_ok]). *)

From stdpp Require Import base list numbers option strings.
From Stdlib Require Import ZArith Lia.
From S2P Require Import Prelude RustStr.
Local Open Scope Z_scope.

Record Ipv4Addr := mkV4 { octet1 : Z; octet2 : Z; octet3 : Z; octet4 : Z }.

(** The eight segments. *)
Definition Ipv6Addr : Type := list Z.

Inductive IpAddr := V4 (a : Ipv4Addr) | V6 (a : Ipv6Addr).

#[export] Instance ipv4_eq_dec : EqDecision Ipv4Addr.
Proof. solve_decision. Defined.
#[export] Instance ip_eq_dec : EqDecision IpAddr.
Proof. solve_decision. Defined.

Definition u32_of_v4 (a : Ipv4Addr) : Z := ((octet1 a * 256 + octet2 a) * 256 + octet3 a) * 256 + octet4 a.

(** ** The parser *)

(** [char::to_digit]. *)
Definition to_digit (radix : Z) (c : char) : option Z :=
  let d :=
    if is_ascii_digit c then Z.of_N c - 48
    else let l := ascii_lower c in if (97 <=? l)%N && (l <=? 122)%N then Z.of_N l - 87 else radix in
  if d <? radix then Some d else None.

Fixpoint read_digits (radix : Z) (s : str) : list Z * str :=
  match s with
  | [] => ([], [])
  | c :: rest =>
      match to_digit radix c with
      | Some d => let '(ds, rest) := read_digits radix rest in (d :: ds, rest)
      | None => ([], s)
      end
  end.

Definition number_of (radix : Z) (ds : list Z) : Z := fold_left (fun n d => n * radix + d) ds 0.

(** [Parser::read_number] with a limit on the digits, for a type with the given maximum. *)
Definition read_number (radix : Z) (max_digits : nat) (allow_zero_prefix : bool) (max : Z) (s : str) : option (Z * str) :=
  let '(ds, rest) := read_digits radix s in
  if Nat.ltb max_digits (length ds) || is_nil ds then None
  else if negb allow_zero_prefix && match ds with 0 :: _ :: _ => true | _ => false end then None
  else let n := number_of radix ds in if n <=? max then Some (n, rest) else None.

Definition read_given_char (c : char) (s : str) : option str := strip_prefix [c] s.

(** [Parser::read_separator]: the separator comes before all but the first. *)
Definition read_separator {A} (sep : char) (first : bool) (inner : str -> option (A * str)) (s : str) : option (A * str) :=
  if first then inner s else match read_given_char sep s with Some s => inner s | None => None end.

Definition read_octet (first : bool) (s : str) : option (Z * str) := read_separator 46%N first (read_number 10 3 false 255) s.

Definition read_ipv4_addr (s : str) : option (Ipv4Addr * str) :=
  match read_octet true s with
  | None => None
  | Some (a, s) =>
      match read_octet false s with
      | None => None
      | Some (b, s) =>
          match read_octet false s with
          | None => None
          | Some (c, s) =>
              match read_octet false s with
              | None => None
              | Some (d, s) => Some (mkV4 a b c d, s)
              end
          end
      end
  end.

(** [read_groups]: up to [slots] segments, the last two of which may be written
    as an IPv4 address; whether they were. *)
Fixpoint read_groups (first : bool) (slots : nat) (s : str) : list Z * bool * str :=
  match slots with
  | O => ([], false, s)
  | S slots =>
      match (match slots with O => None | S _ => read_separator 58%N first read_ipv4_addr s end) with
      | Some (a, s) => ([octet1 a * 256 + octet2 a; octet3 a * 256 + octet4 a], true, s)
      | None =>
          match read_separator 58%N first (read_number 16 4 true 65535) s with
          | None => ([], false, s)
          | Some (g, s) => let '(gs, ipv4, s) := read_groups false slots s in (g :: gs, ipv4, s)
          end
      end
  end.

Definition read_ipv6_addr (s : str) : option (Ipv6Addr * str) :=
  let '(head, head_ipv4, s) := read_groups true 8 s in
  if Nat.eqb (length head) 8 then Some (head, s)
  else if head_ipv4 then None
  else
    match strip_prefix [58%N; 58%N] s with
    | None => None
    | Some s =>
        let '(tail, _, s) := read_groups true (8 - (length head + 1)) s in
        Some (head ++ replicate (8 - length head - length tail) 0 ++ tail, s)
    end.

(** [str::parse::<IpAddr>]: all of the text is read. *)
Definition parse_ip_addr (s : str) : option IpAddr :=
  match read_ipv4_addr s with
  | Some (a, rest) => if is_nil rest then Some (V4 a) else None
  | None =>
      match read_ipv6_addr s with
      | Some (a, rest) => if is_nil rest then Some (V6 a) else None
      | None => None
      end
  end.

(** ** Predicates *)

Definition v4_is_loopback (a : Ipv4Addr) : bool := octet1 a =? 127.
Definition v4_is_private (a : Ipv4Addr) : bool :=
  (octet1 a =? 10) || ((octet1 a =? 172) && (16 <=? octet2 a) && (octet2 a <=? 31)) || ((octet1 a =? 192) && (octet2 a =? 168)).
Definition v4_is_link_local (a : Ipv4Addr) : bool := (octet1 a =? 169) && (octet2 a =? 254).
Definition v4_is_unspecified (a : Ipv4Addr) : bool := u32_of_v4 a =? 0.
Definition v4_is_multicast (a : Ipv4Addr) : bool := (224 <=? octet1 a) && (octet1 a <=? 239).
Definition v4_is_broadcast (a : Ipv4Addr) : bool := bool_decide (a = mkV4 255 255 255 255).

Definition v6_is_loopback (a : Ipv6Addr) : bool := bool_decide (a = [0; 0; 0; 0; 0; 0; 0; 1]).
Definition v6_is_unspecified (a : Ipv6Addr) : bool := bool_decide (a = [0; 0; 0; 0; 0; 0; 0; 0]).
Definition first_segment (a : Ipv6Addr) : Z := unwrap_or (head a) 0.
Definition v6_is_multicast (a : Ipv6Addr) : bool := Z.land (first_segment a) 0xff00 =? 0xff00.
Definition v6_is_unique_local (a : Ipv6Addr) : bool := Z.land (first_segment a) 0xfe00 =? 0xfc00.
Definition v6_is_unicast_link_local (a : Ipv6Addr) : bool := Z.land (first_segment a) 0xffc0 =? 0xfe80.

(** [Ipv6Addr::to_ipv4]: compatible and mapped addresses. *)
Definition to_ipv4 (a : Ipv6Addr) : option Ipv4Addr :=
  match a with
  | [0; 0; 0; 0; 0; m; ab; cd] =>
      if (m =? 0) || (m =? 0xffff) then Some (mkV4 (ab / 256) (ab mod 256) (cd / 256) (cd mod 256)) else None
  | _ => None
  end.

Definition ip_is_loopback (a : IpAddr) : bool :=
  match a with V4 a => v4_is_loopback a | V6 a => v6_is_loopback a end.

(** ** Addresses in range *)

Definition octet_ok (o : Z) : Prop := 0 <= o <= 255.
Definition segment_ok (g : Z) : Prop := 0 <= g <= 65535.
Definition v4_ok (a : Ipv4Addr) : Prop := octet_ok (octet1 a) /\ octet_ok (octet2 a) /\ octet_ok (octet3 a) /\ octet_ok (octet4 a).
Definition v6_ok (a : Ipv6Addr) : Prop := length a = 8%nat /\ Forall segment_ok a.
Definition ip_ok (a : IpAddr) : Prop := match a with V4 a => v4_ok a | V6 a => v6_ok a end.

Lemma read_digits_nonneg radix s : Forall (fun d => 0 <= d) (fst (read_digits radix s)) \/ radix < 0.
Proof.
  destruct (Z.lt_ge_cases radix 0) as [?|Hr]; [by right|left].
  induction s as [|c s IH]; [by constructor|]. simpl. destruct (to_digit radix c) as [d|] eqn:E; [|by constructor].
  destruct (read_digits radix s) as [ds rest]. simpl in *. constructor; [|done]. unfold to_digit in E.
  destruct (is_ascii_digit c) eqn:Ed; simpl in E.
  - unfold is_ascii_digit in Ed. apply andb_true_iff in Ed as [? ?]. rewrite ?N.leb_le in *. case_match; simplify_eq. lia.
  - destruct ((97 <=? ascii_lower c)%N && _) eqn:El; case_match; simplify_eq; [|lia].
    apply andb_true_iff in El as [? ?]. rewrite ?N.leb_le in *. lia.
Qed.

Lemma number_of_nonneg radix ds : 0 <= radix -> Forall (fun d => 0 <= d) ds -> 0 <= number_of radix ds.
Proof.
  intros Hr H. unfold number_of. cut (forall n, 0 <= n -> 0 <= fold_left (fun n d => n * radix + d) ds n); [auto with lia|].
  induction H as [|d ds Hd H IH]; intros n Hn; simpl; [done|]. apply IH. nia.
Qed.

Lemma read_number_range radix k z max s n rest : 0 <= radix -> read_number radix k z max s = Some (n, rest) -> 0 <= n <= max.
Proof.
  intros Hr. unfold read_number. pose proof (read_digits_nonneg radix s) as [Hd|?]; [|lia].
  destruct (read_digits radix s) as [ds r]. simpl in Hd. cbv zeta. destruct (_ || _); [done|]. destruct (_ && _); [done|].
  destruct (Z.leb_spec (number_of radix ds) max); [|done]. intros [= <- <-]. split; [by apply number_of_nonneg|done].
Qed.

Lemma read_octet_range f s n rest : read_octet f s = Some (n, rest) -> octet_ok n.
Proof.
  unfold read_octet, read_separator, octet_ok. destruct f; [|destruct (read_given_char _ _); [|done]]; intros H;
    by apply read_number_range in H.
Qed.

Lemma read_ipv4_addr_ok s a rest : read_ipv4_addr s = Some (a, rest) -> v4_ok a.
Proof.
  unfold read_ipv4_addr. intros H. repeat case_match; simplify_eq. split_and!; simpl; by eapply read_octet_range.
Qed.

Lemma read_groups_ok f slots s gs v4 rest : read_groups f slots s = (gs, v4, rest) -> (length gs <= slots)%nat /\ Forall segment_ok gs.
Proof.
  revert f s gs v4 rest. induction slots as [|slots IH]; intros f s gs v4 rest H; simpl in H; [by simplify_eq/=|].
  destruct (match slots with O => None | S _ => _ end) as [[a s']|] eqn:E4.
  - simplify_eq. destruct slots as [|slots]; [done|]. assert (v4_ok a) as (H1 & H2 & H3 & H4).
    { unfold read_separator in E4. destruct f; [|destruct (read_given_char _ _); [|done]]; by eapply read_ipv4_addr_ok. }
    unfold octet_ok, segment_ok in *. split; [simpl; lia|]. repeat constructor; unfold segment_ok; lia.
  - destruct (read_separator 58%N f (read_number 16 4 true 65535) s) as [[g s']|] eqn:Eg; [|simplify_eq; simpl; split; [lia|done]].
    destruct (read_groups false slots s') as [[gs' v4'] s''] eqn:Er. simplify_eq. apply IH in Er as [? ?]. split; [simpl; lia|].
    constructor; [|done]. unfold read_separator, segment_ok in *. destruct f; [|destruct (read_given_char _ _); [|done]];
      by apply read_number_range in Eg.
Qed.

Lemma parse_ip_addr_ok s a : parse_ip_addr s = Some a -> ip_ok a.
Proof.
  unfold parse_ip_addr. destruct (read_ipv4_addr s) as [[x rest]|] eqn:E4.
  { case_match; [|done]. intros [= <-]. by eapply read_ipv4_addr_ok. }
  destruct (read_ipv6_addr s) as [[x rest]|] eqn:E6; [|done]. case_match; [|done]. intros [= <-]. unfold read_ipv6_addr in E6.
  destruct (read_groups true 8 s) as [[hd v4] s'] eqn:Eh. apply read_groups_ok in Eh as [Hl Hf].
  destruct (Nat.eqb_spec (length hd) 8) as [?|?]; [by simplify_eq|]. destruct v4; [done|].
  destruct (strip_prefix _ s') as [s''|]; [|done]. destruct (read_groups true _ s'') as [[tl v4] s3] eqn:Et.
  apply read_groups_ok in Et as [Hlt Hft]. simplify_eq. split.
  - rewrite !length_app, length_replicate. lia.
  - rewrite !Forall_app. split_and!; [done| |done]. apply Forall_replicate. unfold segment_ok. lia.
Qed.

(** ** The characters of an address *)

Definition ip_char (c : char) : bool := is_some (to_digit 16 c) || N.eqb c 46%N || N.eqb c 58%N.

(** A reader consumes such characters only. *)
Definition reads_ip_chars {A} (r : str -> option (A * str)) : Prop :=
  forall s x rest, r s = Some (x, rest) -> exists pre, s = pre ++ rest /\ Forall (fun c => ip_char c = true) pre.

Lemma read_digits_chars radix s : radix <= 16 ->
  exists pre, s = pre ++ snd (read_digits radix s) /\ Forall (fun c => ip_char c = true) pre.
Proof.
  intros Hr. induction s as [|c s IH]; [by exists []|]. simpl. destruct (to_digit radix c) as [d|] eqn:E; [|by exists []].
  destruct (read_digits radix s) as [ds rest]. destruct IH as (pre & Es & Hp). simpl in *. exists (c :: pre). rewrite Es. split; [done|].
  constructor; [|done]. unfold ip_char. assert (is_some (to_digit 16 c) = true) as ->; [|done]. unfold to_digit in *.
  destruct (is_ascii_digit c); [|destruct (_ && _)]; repeat case_match; simplify_eq; try done; rewrite ?Z.ltb_lt, ?Z.ltb_ge in *; lia.
Qed.

Lemma read_number_chars radix k z max : radix <= 16 -> reads_ip_chars (read_number radix k z max).
Proof.
  intros Hr s n rest. unfold read_number. destruct (read_digits_chars radix s Hr) as (pre & Es & Hp). destruct (read_digits radix s) as [ds r].
  cbv zeta. destruct (_ || _); [done|]. destruct (_ && _); [done|]. destruct (_ <=? _); [|done]. intros [= <- <-]. by exists pre.
Qed.

Lemma read_separator_chars {A} sep f (r : str -> option (A * str)) : ip_char sep = true -> reads_ip_chars r -> reads_ip_chars (read_separator sep f r).
Proof.
  intros Hs Hr s x rest. unfold read_separator, read_given_char. destruct f; [apply Hr|].
  destruct (strip_prefix [sep] s) as [s'|] eqn:E; [|done]. apply strip_prefix_Some in E as ->. intros (pre & -> & Hp)%Hr.
  exists (sep :: pre). split; [done|by constructor].
Qed.

Lemma read_ipv4_chars : reads_ip_chars read_ipv4_addr.
Proof.
  assert (forall f, reads_ip_chars (read_octet f)) as Ho by (intros f; apply read_separator_chars; [done|]; by apply read_number_chars).
  intros s x rest. unfold read_ipv4_addr.
  destruct (read_octet true s) as [[a s1]|] eqn:E1; [|done]. destruct (read_octet false s1) as [[b s2]|] eqn:E2; [|done].
  destruct (read_octet false s2) as [[c s3]|] eqn:E3; [|done]. destruct (read_octet false s3) as [[d s4]|] eqn:E4; [|done]. intros [= _ <-].
  apply Ho in E1 as (p1 & -> & H1), E2 as (p2 & -> & H2), E3 as (p3 & -> & H3), E4 as (p4 & -> & H4).
  exists (p1 ++ p2 ++ p3 ++ p4). rewrite <- !app_assoc, !Forall_app. done.
Qed.

Lemma read_groups_chars f slots s : exists pre, s = pre ++ snd (read_groups f slots s) /\ Forall (fun c => ip_char c = true) pre.
Proof.
  revert f s. induction slots as [|slots IH]; intros f s; simpl; [by exists []|].
  destruct (match slots with O => None | S _ => _ end) as [[a s']|] eqn:E4.
  { destruct slots; [done|]. apply (read_separator_chars _ f) in E4; [done|done|apply read_ipv4_chars]. }
  destruct (read_separator 58%N f (read_number 16 4 true 65535) s) as [[g s']|] eqn:Eg; [|by exists []].
  apply (read_separator_chars _ f) in Eg as (pre & -> & Hp); [|done|by apply read_number_chars].
  destruct (IH false s') as (pre' & Es & Hp'). destruct (read_groups false slots s') as [[gs v4] s'']. simpl in *. exists (pre ++ pre').
  rewrite Es, <- app_assoc, Forall_app. done.
Qed.

Lemma parse_ip_addr_chars s a : parse_ip_addr s = Some a -> Forall (fun c => ip_char c = true) s.
Proof.
  unfold parse_ip_addr. destruct (read_ipv4_addr s) as [[x rest]|] eqn:E4.
  { destruct rest; [|done]. intros _. apply read_ipv4_chars in E4 as (pre & -> & Hp). by rewrite app_nil_r. }
  unfold read_ipv6_addr. destruct (read_groups_chars true 8 s) as (pre & Es & Hp). destruct (read_groups true 8 s) as [[hd v4] s1]. simpl in Es.
  destruct (Nat.eqb (length hd) 8). { destruct s1; [|done]. intros _. subst s. by rewrite app_nil_r. }
  destruct v4; [done|]. destruct (strip_prefix [58%N; 58%N] s1) as [s2|] eqn:E2; [|done]. apply strip_prefix_Some in E2 as ->.
  destruct (read_groups_chars true (8 - (length hd + 1)) s2) as (pre2 & Es2 & Hp2). destruct (read_groups true _ s2) as [[tl v4] s3].
  destruct s3; [|done]. intros _. simpl in Es2. subst s. rewrite app_nil_r in Es2. subst s2. apply Forall_app. split; [done|]. by repeat constructor.
Qed.

Example parse_addresses :
  List.map (fun s => parse_ip_addr (lit s)) ["127.0.0.1"; "::ffff:10.0.0.1"; "fe80::1"; "::"; "1:2:3:4:5:6:7::"; "010.1.1.1"; "256.1.1.1"; "1::2::3"; "localhost"]
  = [Some (V4 (mkV4 127 0 0 1)); Some (V6 [0; 0; 0; 0; 0; 0xffff; 0xa00; 1]); Some (V6 [0xfe80; 0; 0; 0; 0; 0; 0; 1]);
     Some (V6 [0; 0; 0; 0; 0; 0; 0; 0]); Some (V6 [1; 2; 3; 4; 5; 6; 7; 0]); None; None; None; None].
Proof. vm_compute. reflexivity. Qed.
