(* ===== verification/NetPolicy.v ===== *)
(** * Hosts, addresses and domain patterns of the network proxy ([network-proxy/src/policy.rs])

    The proxy decides about normalized hosts.  Address literals are classified as
    public or not; domain patterns of an allow or deny list are expanded to globs;
    an administrator's patterns bound those of a user.

    The globs (the [globset] crate) and the host parser of the [url] crate are
    parameters; [DomainGlobLaws] states what is used of the globs.

    The theorems: the addresses that count as not public are exactly the listed
    blocks ([non_public_ipv4_blocks], [non_public_ipv6_blocks]); a list of patterns
    matches a host as its patterns say ([patterns_mean]); a pattern that an
    administrator's pattern allows matches no other hosts
    ([allowed_pattern_is_covered]). *)

From stdpp Require Import base list numbers option strings sets.
From Stdlib Require Import ZArith Lia.
From S2P Require Import Prelude RustStr RustNet.

Definition DOT : char := 46%N.
Definition STAR : char := 42%N.
Definition PERCENT : char := 37%N.

Definition trim_dots (s : str) : str := drop_while_end (N.eqb DOT) s.

(** [str::split_once] with a string. *)
Fixpoint split_once_str (p s : str) : option (str * str) :=
  match strip_prefix p s with
  | Some rest => Some ([], rest)
  | None =>
      match s with
      | [] => None
      | c :: s => option_map (fun '(a, b) => (c :: a, b)) (split_once_str p s)
      end
  end.

Definition is_ip_literal (s : str) : bool := is_some (parse_ip_addr s).

(** ** Addresses *)

Section Addresses.
Local Open Scope Z_scope.

Definition u32_max : Z := 2 ^ 32 - 1.

(** A left shift of [u32] drops the bits above. *)
Definition ipv4_in_cidr (ip : Ipv4Addr) (base : Ipv4Addr) (prefix : Z) : bool :=
  let mask := if prefix =? 0 then 0 else Z.land (Z.shiftl u32_max (32 - prefix)) u32_max in
  Z.land (u32_of_v4 ip) mask =? Z.land (u32_of_v4 base) mask.

Definition is_non_public_ipv4 (ip : Ipv4Addr) : bool :=
  v4_is_loopback ip
  || v4_is_private ip
  || v4_is_link_local ip
  || v4_is_unspecified ip
  || v4_is_multicast ip
  || v4_is_broadcast ip
  || ipv4_in_cidr ip (mkV4 0 0 0 0) 8
  || ipv4_in_cidr ip (mkV4 100 64 0 0) 10
  || ipv4_in_cidr ip (mkV4 192 0 0 0) 24
  || ipv4_in_cidr ip (mkV4 192 0 2 0) 24
  || ipv4_in_cidr ip (mkV4 198 18 0 0) 15
  || ipv4_in_cidr ip (mkV4 198 51 100 0) 24
  || ipv4_in_cidr ip (mkV4 203 0 113 0) 24
  || ipv4_in_cidr ip (mkV4 240 0 0 0) 4.

Definition is_non_public_ipv6 (ip : Ipv6Addr) : bool :=
  match to_ipv4 ip with
  | Some v4 => is_non_public_ipv4 v4 || v6_is_loopback ip
  | None =>
      v6_is_loopback ip || v6_is_unspecified ip || v6_is_multicast ip || v6_is_unique_local ip || v6_is_unicast_link_local ip
  end.

Definition is_non_public_ip (ip : IpAddr) : bool :=
  match ip with V4 ip => is_non_public_ipv4 ip | V6 ip => is_non_public_ipv6 ip end.

Definition is_private_network_ipv4 (ip : Ipv4Addr) : bool := v4_is_private ip || ipv4_in_cidr ip (mkV4 100 64 0 0) 10.

Definition is_private_network_ip (ip : IpAddr) : bool :=
  match ip with
  | V4 ip => is_private_network_ipv4 ip
  | V6 ip => match to_ipv4 ip with Some ip => is_private_network_ipv4 ip | None => v6_is_unique_local ip end
  end.
End Addresses.

(** ** Hosts *)

Definition normalize_ip_literal (host : str) : option str :=
  if is_ip_literal host then Some host
  else
    let scoped delimiter :=
      match split_once_str delimiter host with
      | Some (ip, scope) => if is_ip_literal ip then Some (ip ++ PERCENT :: scope) else None
      | None => None
      end in
    match scoped (lit "%25") with Some h => Some h | None => scoped (lit "%") end.

Definition normalize_dns_host_or_ip_literal (host : str) : str :=
  let host := trim_dots (to_ascii_lowercase host) in
  unwrap_or (normalize_ip_literal host) host.

Definition COLON : char := 58%N.
Definition count_char (c : char) (s : str) : nat := length (List.filter (N.eqb c) s).

Definition normalize_host (host : str) : str :=
  let host := trim host in
  match host with
  | 91%N :: rest =>
      match split_once 93%N rest with
      | Some (inner, _) => normalize_dns_host_or_ip_literal inner
      | None =>
          if Nat.eqb (count_char COLON host) 1
          then normalize_dns_host_or_ip_literal (unwrap_or (head (split COLON host)) [])
          else normalize_dns_host_or_ip_literal host
      end
  | _ =>
      if Nat.eqb (count_char COLON host) 1
      then normalize_dns_host_or_ip_literal (unwrap_or (head (split COLON host)) [])
      else normalize_dns_host_or_ip_literal host
  end.

(** [Host::parse]; [None] when nothing is left. *)
Definition host_parse (input : str) : option str :=
  let normalized := normalize_host input in
  if is_nil normalized then None else Some normalized.

Definition unscoped_ip_literal (host : str) : option str :=
  match split_once PERCENT host with
  | Some (ip, _) => if is_ip_literal ip then Some ip else None
  | None => None
  end.

Definition is_loopback_host (host : str) : bool :=
  let host := unwrap_or (unscoped_ip_literal host) host in
  if str_eqb host (lit "localhost") then true
  else match parse_ip_addr host with Some ip => ip_is_loopback ip | None => false end.

Definition is_default_proxy_bypass_host (host : str) : bool :=
  let host := normalize_host host in
  match parse_ip_addr host with
  | Some (V4 ip) => bool_decide (ip = mkV4 127 0 0 1) || v4_is_private ip
  | Some (V6 ip) => v6_is_loopback ip
  | None => str_eqb host (lit "localhost") || ends_with (lit ".localhost") host
  end.

(** ** Domain patterns *)

Inductive DomainPattern :=
| ApexAndSubdomains (domain : str)
| SubdomainsOnly (domain : str)
| Exact (domain : str).

Definition parse_domain (domain : str) (build : str -> DomainPattern) : DomainPattern :=
  let domain := trim domain in
  if is_nil domain then Exact [] else build domain.

Definition pattern_parse (input : str) : DomainPattern :=
  let input := trim input in
  if is_nil input then Exact []
  else
    match strip_prefix (lit "**.") input with
    | Some domain => parse_domain domain ApexAndSubdomains
    | None =>
        match strip_prefix (lit "*.") input with
        | Some domain => parse_domain domain SubdomainsOnly
        | None => Exact input
        end
    end.

Definition normalize_pattern (pattern : str) : str :=
  let pattern := trim pattern in
  if str_eqb pattern (lit "*") then lit "*"
  else
    match strip_prefix (lit "**.") pattern with
    | Some domain => lit "**." ++ normalize_host domain
    | None =>
        match strip_prefix (lit "*.") pattern with
        | Some domain => lit "*." ++ normalize_host domain
        | None => normalize_host pattern
        end
    end.

Definition expand_domain_pattern (pattern : str) : list str :=
  match pattern_parse pattern with
  | Exact domain => [domain]
  | SubdomainsOnly domain => [lit "?*." ++ domain]
  | ApexAndSubdomains domain => [domain; lit "?*." ++ domain]
  end.

Definition is_global_wildcard_domain_pattern (pattern : str) : bool :=
  mem_str (expand_domain_pattern (normalize_pattern pattern)) (lit "*").

Inductive GlobalWildcard := AllowWildcard | RejectWildcard.

(** A glob that ignores ASCII case: whether it compiles, whether a set of globs
    does, and what it matches. *)
Class DomainGlobs := {
  domain_glob_ok : str -> bool;
  domain_globset_ok : list str -> bool;
  domain_glob_match : str -> str -> bool }.

(** The parser of the [url] crate for hosts, followed by printing. *)
Class UrlHosts := { url_host_parse : str -> option str }.

Section Patterns.
Context {DG : DomainGlobs} {UH : UrlHosts}.

(** A compiled set, as the list of its globs. *)
Definition is_match (set : list str) (host : str) : bool := existsb (fun glob => domain_glob_match glob host) set.

Inductive GlobError := UnsupportedGlobalWildcard | InvalidGlob (candidate : str) | SetTooLarge.

(** The globs of one pattern that were not seen before. *)
Fixpoint add_candidates (seen : list str) (candidates : list str) : result (list str) GlobError :=
  match candidates with
  | [] => Ok seen
  | c :: candidates =>
      if mem_str seen c then add_candidates seen candidates
      else if domain_glob_ok c then add_candidates (seen ++ [c]) candidates
      else Err (InvalidGlob c)
  end.

Fixpoint compile_patterns (global_wildcard : GlobalWildcard) (seen : list str) (patterns : list str) : result (list str) GlobError :=
  match patterns with
  | [] => Ok seen
  | pattern :: patterns =>
      match global_wildcard, is_global_wildcard_domain_pattern pattern with
      | RejectWildcard, true => Err UnsupportedGlobalWildcard
      | _, _ =>
          let? seen := add_candidates seen (expand_domain_pattern (normalize_pattern pattern)) in
          compile_patterns global_wildcard seen patterns
      end
  end.

Definition compile_globset_with_policy (patterns : list str) (global_wildcard : GlobalWildcard) : result (list str) GlobError :=
  let? set := compile_patterns global_wildcard [] patterns in
  if domain_globset_ok set then Ok set else Err SetTooLarge.

Definition compile_allowlist_globset (patterns : list str) := compile_globset_with_policy patterns AllowWildcard.
Definition compile_denylist_globset (patterns : list str) := compile_globset_with_policy patterns RejectWildcard.

(** ** Constraints on patterns *)

Definition QUESTION : char := 63%N.

Definition parse_domain_for_constraints (domain : str) : str :=
  let domain := trim_dots (trim domain) in
  if is_nil domain then []
  else
    let host := if starts_with [91%N] domain && ends_with [93%N] domain then removelast (tail domain) else domain in
    if contains_char STAR host || contains_char QUESTION host || contains_char PERCENT host then domain
    else unwrap_or (url_host_parse host) [].

Definition parse_for_constraints (input : str) : DomainPattern :=
  let input := trim input in
  if is_nil input then Exact []
  else
    match strip_prefix (lit "**.") input with
    | Some domain => ApexAndSubdomains (parse_domain_for_constraints domain)
    | None =>
        match strip_prefix (lit "*.") input with
        | Some domain => SubdomainsOnly (parse_domain_for_constraints domain)
        | None => Exact (parse_domain_for_constraints input)
        end
    end.

Definition normalize_domain (domain : str) : str := to_ascii_lowercase (trim_dots domain).
Definition domain_eq (a b : str) : bool := str_eqb (normalize_domain a) (normalize_domain b).
Definition is_subdomain_or_equal (child parent : str) : bool :=
  let child := normalize_domain child in
  let parent := normalize_domain parent in
  str_eqb child parent || ends_with (DOT :: parent) child.
Definition is_strict_subdomain (child parent : str) : bool :=
  let child := normalize_domain child in
  let parent := normalize_domain parent in
  negb (str_eqb child parent) && ends_with (DOT :: parent) child.

Definition allows (p candidate : DomainPattern) : bool :=
  match p, candidate with
  | Exact domain, Exact c => domain_eq c domain
  | Exact _, _ => false
  | SubdomainsOnly domain, Exact c => is_strict_subdomain c domain
  | SubdomainsOnly domain, SubdomainsOnly c => is_subdomain_or_equal c domain
  | SubdomainsOnly domain, ApexAndSubdomains c => is_strict_subdomain c domain
  | ApexAndSubdomains domain, (Exact c | SubdomainsOnly c | ApexAndSubdomains c) => is_subdomain_or_equal c domain
  end.
End Patterns.

(** ** Which addresses are not public *)

Section Blocks.
Local Open Scope Z_scope.

Lemma u32_mask_bits n i : 0 <= n <= 32 -> 0 <= i ->
  Z.testbit (Z.land (Z.shiftl u32_max n) u32_max) i = (n <=? i) && (i <? 32).
Proof.
  intros Hn Hi. unfold u32_max. rewrite Z.land_spec, Z.shiftl_spec by lia. change (2 ^ 32 - 1) with (Z.pred (2 ^ 32)).
  rewrite <- Z.ones_equiv. destruct (Z.leb_spec n i); simpl.
  - rewrite (Z.testbit_ones_nonneg 32 (i - n)), (Z.testbit_ones_nonneg 32 i) by lia.
    destruct (Z.ltb_spec i 32), (Z.ltb_spec (i - n) 32); done || lia.
  - rewrite Z.testbit_neg_r by lia. done.
Qed.

Lemma land_u32_mask x n : 0 <= x < 2 ^ 32 -> 0 <= n <= 32 ->
  Z.land x (Z.land (Z.shiftl u32_max n) u32_max) = Z.shiftl (Z.shiftr x n) n.
Proof.
  intros Hx Hn. apply Z.bits_inj'. intros i Hi. rewrite Z.land_spec, u32_mask_bits, Z.shiftl_spec by lia.
  destruct (Z.leb_spec n i); simpl.
  - rewrite Z.shiftr_spec by lia. replace (i - n + n) with i by lia. destruct (Z.ltb_spec i 32); [by rewrite andb_true_r|].
    rewrite andb_false_r. symmetry. rewrite <- (Z.mod_small x (2 ^ 32)) by done. apply Z.mod_pow2_bits_high. lia.
  - rewrite andb_false_r, Z.testbit_neg_r; [done|lia].
Qed.

Lemma u32_of_v4_range a : v4_ok a -> 0 <= u32_of_v4 a < 2 ^ 32.
Proof. intros (H1 & H2 & H3 & H4). unfold octet_ok, u32_of_v4 in *. lia. Qed.

(** Blocks as the first octets they fix, by their registries. *)
Definition block (a b c d prefix : Z) : Z * Z := (u32_of_v4 (mkV4 a b c d), prefix).
Definition NON_PUBLIC_BLOCKS : list (Z * Z) :=
  [block 0 0 0 0 8; block 10 0 0 0 8; block 100 64 0 0 10; block 127 0 0 0 8; block 169 254 0 0 16; block 172 16 0 0 12;
   block 192 0 0 0 24; block 192 0 2 0 24; block 192 168 0 0 16; block 198 18 0 0 15; block 198 51 100 0 24; block 203 0 113 0 24;
   block 224 0 0 0 4; block 240 0 0 0 4].
Definition in_block (x : Z) (b : Z * Z) : bool := (fst b <=? x) && (x <? fst b + 2 ^ (32 - snd b)).

Lemma ipv4_in_cidr_block ip base prefix : v4_ok ip -> v4_ok base -> 0 < prefix <= 32 -> u32_of_v4 base mod 2 ^ (32 - prefix) = 0 ->
  ipv4_in_cidr ip base prefix = in_block (u32_of_v4 ip) (u32_of_v4 base, prefix).
Proof.
  intros Hi Hb Hp Ha. unfold ipv4_in_cidr, in_block. cbn [fst snd]. destruct (Z.eqb_spec prefix 0); [lia|].
  rewrite !land_u32_mask by (auto using u32_of_v4_range || lia). rewrite !Z.shiftl_mul_pow2, !Z.shiftr_div_pow2 by lia.
  assert (0 < 2 ^ (32 - prefix)) as Hpos by (apply Z.pow_pos_nonneg; lia). revert Ha Hpos. generalize (2 ^ (32 - prefix)) as m. intros m Ha Hm.
  apply Bool.eq_iff_eq_true. rewrite andb_true_iff, Z.eqb_eq, Z.leb_le, Z.ltb_lt.
  pose proof (Z.div_mod (u32_of_v4 ip) m) as E1. pose proof (Z.div_mod (u32_of_v4 base) m) as E2.
  pose proof (Z.mod_pos_bound (u32_of_v4 ip) m Hm). rewrite Ha in E2. split; [nia|]. intros [? ?].
  assert (u32_of_v4 ip / m = u32_of_v4 base / m) by nia. nia.
Qed.

Ltac in_blocks :=
  unfold v4_is_loopback, v4_is_private, v4_is_link_local, v4_is_multicast, in_block, block, u32_of_v4, octet_ok in *; simpl in *;
  apply Bool.eq_iff_eq_true; rewrite ?orb_true_iff, ?andb_true_iff, ?Z.eqb_eq, ?Z.leb_le, ?Z.ltb_lt; lia.

Section Std.
Context (ip : Ipv4Addr) (Hok : v4_ok ip).

Lemma loopback_block : v4_is_loopback ip = in_block (u32_of_v4 ip) (block 127 0 0 0 8).
Proof. destruct ip, Hok as (? & ? & ? & ?). in_blocks. Qed.
Lemma private_blocks :
  v4_is_private ip = in_block (u32_of_v4 ip) (block 10 0 0 0 8) || in_block (u32_of_v4 ip) (block 172 16 0 0 12)
                     || in_block (u32_of_v4 ip) (block 192 168 0 0 16).
Proof. destruct ip, Hok as (? & ? & ? & ?). in_blocks. Qed.
Lemma link_local_block : v4_is_link_local ip = in_block (u32_of_v4 ip) (block 169 254 0 0 16).
Proof. destruct ip, Hok as (? & ? & ? & ?). in_blocks. Qed.
Lemma multicast_block : v4_is_multicast ip = in_block (u32_of_v4 ip) (block 224 0 0 0 4).
Proof. destruct ip, Hok as (? & ? & ? & ?). in_blocks. Qed.
Lemma unspecified_block : v4_is_unspecified ip = true -> in_block (u32_of_v4 ip) (block 0 0 0 0 8) = true.
Proof. unfold v4_is_unspecified. by intros ->%Z.eqb_eq. Qed.
Lemma broadcast_block : v4_is_broadcast ip = true -> in_block (u32_of_v4 ip) (block 240 0 0 0 4) = true.
Proof. unfold v4_is_broadcast. by intros ->%bool_decide_eq_true. Qed.
End Std.

(** An IPv4 address is not public exactly when it lies in one of the blocks. *)
Theorem non_public_ipv4_blocks (ip : Ipv4Addr) : v4_ok ip ->
  is_non_public_ipv4 ip = existsb (in_block (u32_of_v4 ip)) NON_PUBLIC_BLOCKS.
Proof.
  intros Hok. unfold is_non_public_ipv4. rewrite !ipv4_in_cidr_block by (done || unfold v4_ok, octet_ok; simpl; lia).
  rewrite loopback_block, private_blocks, link_local_block, multicast_block by done. fold block.
  pose proof (unspecified_block ip) as Hu. pose proof (broadcast_block ip) as Hb. unfold NON_PUBLIC_BLOCKS, block in *. cbn [existsb].
  revert Hu Hb. generalize (v4_is_unspecified ip) (v4_is_broadcast ip) (in_block (u32_of_v4 ip)). intros u b f Hu Hb.
  rewrite orb_false_r. apply Bool.eq_iff_eq_true. rewrite !orb_true_iff. tauto.
Qed.

(** Which of the remaining IPv6 addresses are: by their first segment. *)
Definition NON_PUBLIC_SEGMENTS : list (Z * Z) := [(0xfc00, 0xfdff); (0xfe80, 0xfebf); (0xff00, 0xffff)].

Lemma segment_mask g n v : segment_ok g -> 0 <= n <= 16 ->
  Z.land g (2 ^ 16 - 2 ^ n) = v * 2 ^ n <-> v * 2 ^ n <= g < v * 2 ^ n + 2 ^ n.
Proof.
  intros Hg Hn. assert (Z.land g (2 ^ 16 - 2 ^ n) = g / 2 ^ n * 2 ^ n) as ->.
  { rewrite <- Z.shiftr_div_pow2, <- Z.shiftl_mul_pow2 by lia. apply Z.bits_inj'. intros i Hi.
    rewrite Z.land_spec, Z.shiftl_spec by lia. replace (2 ^ 16 - 2 ^ n) with (Z.shiftl (Z.ones (16 - n)) n).
    2:{ rewrite Z.shiftl_mul_pow2, Z.ones_equiv by lia. rewrite <- Z.sub_1_r, Z.mul_sub_distr_r, <- Z.pow_add_r by lia.
        replace (16 - n + n) with 16 by lia. lia. }
    rewrite Z.shiftl_spec by lia. destruct (Z.leb_spec n i) as [?|?].
    - rewrite Z.shiftr_spec, Z.testbit_ones_nonneg by lia. replace (i - n + n) with i by lia.
      destruct (Z.ltb_spec (i - n) (16 - n)); [by rewrite andb_true_r|]. rewrite andb_false_r. symmetry.
      rewrite <- (Z.mod_small g (2 ^ 16)) by (unfold segment_ok in Hg; lia). apply Z.mod_pow2_bits_high. lia.
    - rewrite !(Z.testbit_neg_r _ (i - n)) by lia. by rewrite andb_false_r. }
  assert (0 < 2 ^ n) as Hpos by (apply Z.pow_pos_nonneg; lia). pose proof (Z.div_mod g (2 ^ n)). pose proof (Z.mod_pos_bound g _ Hpos).
  split; [nia|]. intros [? ?]. assert (g / 2 ^ n = v) by nia. by subst v.
Qed.

(** An IPv6 address is not public when it stands for an IPv4 address that is not,
    and otherwise by its first segment. *)
Theorem non_public_ipv6_blocks (ip : Ipv6Addr) : v6_ok ip ->
  is_non_public_ipv6 ip = match to_ipv4 ip with
                          | Some v4 => existsb (in_block (u32_of_v4 v4)) NON_PUBLIC_BLOCKS
                          | None => existsb (fun '(lo, hi) => (lo <=? first_segment ip) && (first_segment ip <=? hi)) NON_PUBLIC_SEGMENTS
                          end.
Proof.
  intros [Hlen Hseg]. unfold is_non_public_ipv6. destruct (to_ipv4 ip) as [v4|] eqn:E.
  - assert (v4_ok v4) as Hok.
    { unfold to_ipv4 in E. repeat case_match; simplify_eq. rewrite !Forall_cons in Hseg. unfold segment_ok, v4_ok, octet_ok in *.
      simpl. destruct Hseg as (_ & _ & _ & _ & _ & _ & ? & ? & _). split_and!; Z.to_euclidean_division_equations; lia. }
    rewrite non_public_ipv4_blocks by done. destruct (v6_is_loopback ip) eqn:El; [|by rewrite orb_false_r].
    apply bool_decide_eq_true in El. subst ip. injection E as <-. reflexivity.
  - assert (v6_is_loopback ip = false) as ->.
    { destruct (v6_is_loopback ip) eqn:El; [|done]. apply bool_decide_eq_true in El. by subst ip. }
    assert (v6_is_unspecified ip = false) as ->.
    { destruct (v6_is_unspecified ip) eqn:El; [|done]. apply bool_decide_eq_true in El. by subst ip. }
    assert (segment_ok (first_segment ip)) as Hg by (unfold first_segment; destruct Hseg; [unfold segment_ok; simpl; lia|done]).
    unfold v6_is_multicast, v6_is_unique_local, v6_is_unicast_link_local. generalize dependent (first_segment ip). intros g Hg.
    pose proof (segment_mask g 8 0xff Hg) as Hm. pose proof (segment_mask g 9 0x7e Hg) as Hu. pose proof (segment_mask g 6 0x3fa Hg) as Hl.
    simpl in Hm, Hu, Hl. apply Bool.eq_iff_eq_true. cbn [existsb NON_PUBLIC_SEGMENTS].
    rewrite ?orb_true_iff, ?andb_true_iff, ?Z.eqb_eq, ?Z.leb_le, Hm, Hu, Hl by lia. unfold segment_ok in Hg. lia.
Qed.
End Blocks.

(** ** What patterns mean *)

(** Characters with a meaning in globs, and texts without them. *)
Definition glob_meta (c : char) : bool := one_of (lit "*?[]{}\/") c.
Definition no_meta (s : str) : Prop := Forall (fun c => glob_meta c = false) s.

(** [h] ends in a dot and [d], ignoring ASCII case. *)
Definition below (h d : str) : Prop := exists x y, h = x ++ y /\ to_ascii_lowercase y = DOT :: to_ascii_lowercase d.
Definition strictly_below (h d : str) : Prop :=
  exists x y, x <> [] /\ h = x ++ y /\ to_ascii_lowercase y = DOT :: to_ascii_lowercase d.

(** What is used of the globs: a text without special characters stands for
    itself, [?*] for at least one character, and a glob that compiles and ends in
    a dot and such a text matches only hosts that do. *)
Class DomainGlobLaws (DG : DomainGlobs) : Prop := {
  glob_literal p h : no_meta p -> domain_glob_match p h = eq_ignore_ascii_case p h;
  glob_subdomains d h : no_meta d -> domain_glob_match (lit "?*." ++ d) h = true <-> strictly_below h d;
  glob_suffix p d h : no_meta d -> domain_glob_ok (p ++ DOT :: d) = true -> domain_glob_match (p ++ DOT :: d) h = true -> below h d }.

(** The documented meaning of a pattern. *)
Definition pattern_means (p : DomainPattern) (h : str) : Prop :=
  match p with
  | Exact d => to_ascii_lowercase h = normalize_domain d
  | SubdomainsOnly d => strictly_below h (normalize_domain d)
  | ApexAndSubdomains d => to_ascii_lowercase h = normalize_domain d \/ strictly_below h (normalize_domain d)
  end.

(** The same, with an empty label allowed. *)
Definition pattern_covers (p : DomainPattern) (h : str) : Prop :=
  match p with
  | Exact d => to_ascii_lowercase h = normalize_domain d
  | SubdomainsOnly d => below h (normalize_domain d)
  | ApexAndSubdomains d => to_ascii_lowercase h = normalize_domain d \/ below h (normalize_domain d)
  end.

(** Entries without white space, ports, brackets and scopes, which normalization
    only lowers and strips of trailing dots. *)
Definition plain_char (c : char) : bool := negb (is_whitespace c) && negb (one_of (lit ":[]%") c).
Definition plain (s : str) : Prop := Forall (fun c => plain_char c = true) s.

Inductive Wild := WApex | WSub | WExact.
Definition wild_of (e : str) : Wild * str :=
  match strip_prefix (lit "**.") e with
  | Some d => (WApex, d)
  | None => match strip_prefix (lit "*.") e with Some d => (WSub, d) | None => (WExact, e) end
  end.
Definition pattern_of (w : Wild) (d : str) : DomainPattern :=
  match w with WApex => ApexAndSubdomains d | WSub => SubdomainsOnly d | WExact => Exact d end.
Definition globs_of (w : Wild) (d : str) : list str :=
  match w with WApex => [d; lit "?*." ++ d] | WSub => [lit "?*." ++ d] | WExact => [d] end.

(** A plain entry that names a domain. *)
Definition plain_entry (e : str) : Prop := plain e /\ trim_dots (snd (wild_of e)) <> [].

Lemma plain_trim s : plain s -> trim s = s.
Proof.
  intros H. apply trim_id.
  - destruct H as [|c s Hc H]; [done|]. simpl. apply andb_true_iff in Hc as [Hc _]. by apply negb_true_iff in Hc.
  - intros c Hc. rewrite last_lookup in Hc. eapply Forall_lookup in Hc; [|exact H]. simpl in Hc. apply andb_true_iff in Hc as [Hc _].
    by apply negb_true_iff in Hc.
Qed.

Lemma plain_not_in c s : one_of (lit ":[]%") c = true -> plain s -> c ∉ s.
Proof. intros Hc H Hin. eapply Forall_forall in Hin; [|exact H]. simpl in Hin. apply andb_true_iff in Hin as [_ Hin]. by rewrite Hc in Hin. Qed.

Lemma lower_low_char c x : (c < 65)%N -> N.eqb c (ascii_lower x) = N.eqb c x.
Proof.
  intros Hc. destruct (N.eqb_spec c x) as [<-|Hne].
  - unfold ascii_lower. destruct (_ && _) eqn:E; [|apply N.eqb_refl]. apply andb_true_iff in E as [E%N.leb_le _]. lia.
  - apply N.eqb_neq. intros E. symmetry in E. by apply ascii_lower_keeps in E.
Qed.

Lemma trim_dots_lower s : trim_dots (to_ascii_lowercase s) = to_ascii_lowercase (trim_dots s).
Proof. apply drop_while_end_map. intros x. by apply lower_low_char. Qed.

Lemma trim_dots_idem s : trim_dots (trim_dots s) = trim_dots s.
Proof. apply drop_while_end_id, drop_while_end_last. Qed.

Lemma normalize_domain_idem d : normalize_domain (normalize_domain d) = normalize_domain d.
Proof. unfold normalize_domain. by rewrite trim_dots_lower, trim_dots_idem, to_ascii_lowercase_idem. Qed.

Lemma split_once_str_none c p s : c ∉ s -> split_once_str (c :: p) s = None.
Proof.
  induction s as [|x s IH]; intros H; simpl; [done|]. apply not_elem_of_cons in H as [Hx Hs].
  destruct (N.eqb_spec c x); [by subst|]. by rewrite IH.
Qed.

Lemma lower_low_notin c s : (c < 65)%N -> c ∉ s -> c ∉ to_ascii_lowercase s.
Proof.
  intros Hc H Hin. apply list_elem_of_In, in_map_iff in Hin as (x & Hx & Hin). apply ascii_lower_keeps in Hx as ->; [|done].
  by apply H, list_elem_of_In.
Qed.

Lemma count_char_notin c s : c ∉ s -> count_char c s = 0.
Proof.
  unfold count_char. induction s as [|x s IH]; intros H; [done|]. apply not_elem_of_cons in H as [Hx Hs]. simpl.
  destruct (N.eqb_spec c x); [by subst|]. by apply IH.
Qed.

Lemma normalize_dns_plain d : PERCENT ∉ d -> normalize_dns_host_or_ip_literal d = normalize_domain d.
Proof.
  intros H. unfold normalize_dns_host_or_ip_literal, normalize_domain. rewrite trim_dots_lower.
  assert (PERCENT ∉ to_ascii_lowercase (trim_dots d)) as Hp by (apply lower_low_notin; [done|]; intros ?%drop_while_end_sub; done).
  unfold normalize_ip_literal. destruct (is_ip_literal _); [done|]. change (lit "%25") with (PERCENT :: lit "25").
  change (lit "%") with [PERCENT]. by rewrite !split_once_str_none.
Qed.

Lemma normalize_host_plain d : plain d -> normalize_host d = normalize_domain d.
Proof.
  intros H. unfold normalize_host. rewrite plain_trim by done.
  assert (COLON ∉ d) as Hc by (by apply plain_not_in). assert (PERCENT ∉ d) as Hp by (by apply plain_not_in).
  assert (91%N ∉ d) as Hb by (by apply plain_not_in). rewrite count_char_notin by done. simpl Nat.eqb. cbv iota.
  destruct d as [|c d]; [by apply normalize_dns_plain|]. apply not_elem_of_cons in Hb as [Hb _].
  destruct (decide (c = 91%N)) as [->|]; [done|]. rewrite normalize_dns_plain by done.
  repeat match goal with |- context [match ?x with _ => _ end] => is_var x; destruct x; try done end.
Qed.

Lemma ascii_lower_cases x : ascii_lower x = x \/ (65 <= x <= 90 /\ ascii_lower x = x + 32)%N.
Proof.
  unfold ascii_lower. destruct (_ && _) eqn:E; [right|by left]. apply andb_true_iff in E as [E1%N.leb_le E2%N.leb_le]. lia.
Qed.

Lemma upper_char_cases (P : N -> Prop) x : (65 <= x <= 90)%N -> Forall P (List.map N.of_nat (seq 65 26)) -> P x.
Proof.
  intros Hx H. eapply Forall_forall in H; [exact H|]. apply list_elem_of_In, in_map_iff. exists (N.to_nat x). split; [lia|].
  apply in_seq. lia.
Qed.

(** A test of characters that treats letters alike is not affected by case. *)
Lemma lower_char_test (t : N -> bool) x :
  forallb (fun c => Bool.eqb (t c) (t (c + 32)%N)) (List.map N.of_nat (seq 65 26)) = true -> t (ascii_lower x) = t x.
Proof.
  intros H. destruct (ascii_lower_cases x) as [->|[Hx ->]]; [done|]. apply (upper_char_cases (fun x => t (x + 32)%N = t x)); [done|].
  apply Forall_forall. intros c Hc. rewrite forallb_forall in H. symmetry. by apply eqb_prop, H, list_elem_of_In.
Qed.

Lemma forall_lower (t : N -> bool) b s :
  forallb (fun c => Bool.eqb (t c) (t (c + 32)%N)) (List.map N.of_nat (seq 65 26)) = true ->
  Forall (fun c => t c = b) s -> Forall (fun c => t c = b) (to_ascii_lowercase s).
Proof. intros Ht H. apply Forall_map. eapply Forall_impl; [exact H|]. intros c Hc. simpl. by rewrite lower_char_test. Qed.

Lemma forall_trim_dots (P : N -> Prop) s : Forall P s -> Forall P (trim_dots s).
Proof. rewrite !Forall_forall. intros H x Hx%drop_while_end_sub. auto. Qed.

Lemma plain_normalize_domain d : plain d -> plain (normalize_domain d).
Proof. intros H. apply forall_lower; [reflexivity|]. by apply forall_trim_dots. Qed.

Lemma no_meta_normalize_domain d : no_meta d -> no_meta (normalize_domain d).
Proof. intros H. apply forall_lower; [reflexivity|]. by apply forall_trim_dots. Qed.

Lemma wild_of_cases e : e = match fst (wild_of e) with WApex => lit "**." | WSub => lit "*." | WExact => [] end ++ snd (wild_of e).
Proof.
  unfold wild_of. destruct (strip_prefix (lit "**.") e) eqn:E1; [by apply strip_prefix_Some in E1|].
  destruct (strip_prefix (lit "*.") e) eqn:E2; [by apply strip_prefix_Some in E2|done].
Qed.

Lemma plain_domain e : plain e -> plain (snd (wild_of e)).
Proof. unfold plain. rewrite (wild_of_cases e) at 1. rewrite Forall_app. tauto. Qed.

Lemma strip_prefix_lower p s : Forall (fun c => (c < 65)%N) p -> strip_prefix p s = None -> strip_prefix p (to_ascii_lowercase s) = None.
Proof.
  intros Hp. revert s. induction Hp as [|c p Hc Hp IH]; intros [|x s] H; simpl in *; try done.
  rewrite lower_low_char by done. destruct (N.eqb c x); [by apply IH|done].
Qed.

Lemma strip_prefix_trim_dots p s : strip_prefix p s = None -> strip_prefix p (trim_dots s) = None.
Proof.
  intros H. destruct (strip_prefix p (trim_dots s)) as [r|] eqn:E; [|done]. apply strip_prefix_Some in E.
  destruct (drop_while_end_prefix (N.eqb DOT) s) as (suf & Es & _). fold (trim_dots s) in Es. rewrite E, <- app_assoc in Es.
  by rewrite Es, strip_prefix_app in H.
Qed.

Lemma normalize_domain_nonempty d : trim_dots d <> [] -> normalize_domain d <> [].
Proof. unfold normalize_domain. by destruct (trim_dots d). Qed.

Lemma parse_domain_plain d build : plain d -> d <> [] -> parse_domain d build = build d.
Proof. intros H Hne. unfold parse_domain. rewrite plain_trim by done. by destruct d. Qed.

Lemma trim_dots_nonempty d : trim_dots d <> [] -> d <> [].
Proof. by intros H ->. Qed.

Lemma pattern_parse_prefix n : plain n -> n <> [] ->
  pattern_parse (lit "**." ++ n) = ApexAndSubdomains n /\ pattern_parse (lit "*." ++ n) = SubdomainsOnly n.
Proof.
  intros Hp Hn. unfold pattern_parse. rewrite !plain_trim by (repeat constructor; done).
  split; [change (parse_domain n ApexAndSubdomains = ApexAndSubdomains n) | change (parse_domain n SubdomainsOnly = SubdomainsOnly n)];
    by apply parse_domain_plain.
Qed.

Section Entries.
Context (e : str) (He : plain_entry e).
Let w := fst (wild_of e).
Let d := snd (wild_of e).

Lemma pattern_parse_plain : pattern_parse e = pattern_of w d.
Proof.
  destruct He as [Hp Hd]. unfold pattern_parse. rewrite plain_trim by done.
  pose proof (plain_domain e Hp) as Hpd. apply trim_dots_nonempty in Hd. subst w d. pose proof (wild_of_cases e) as Hc.
  destruct (is_nil e) eqn:En; [apply is_nil_true in En; by subst e|]. unfold wild_of in *.
  destruct (strip_prefix (lit "**.") e); [by apply parse_domain_plain|].
  destruct (strip_prefix (lit "*.") e); [by apply parse_domain_plain|done].
Qed.

Lemma expand_plain : expand_domain_pattern (normalize_pattern e) = globs_of w (normalize_domain d).
Proof.
  destruct He as [Hp Hd]. pose proof (plain_domain e Hp) as Hpd. pose proof (normalize_domain_nonempty _ Hd) as Hn.
  pose proof (plain_normalize_domain _ Hpd) as Hpn. unfold normalize_pattern. rewrite plain_trim by done. subst w d.
  destruct (str_eqb e (lit "*")) eqn:Es; [apply str_eqb_spec in Es; by subst e|]. unfold wild_of in *.
  unfold expand_domain_pattern. destruct (strip_prefix (lit "**.") e) as [d|] eqn:E1.
  { simpl in Hd, Hpd, Hn, Hpn. rewrite normalize_host_plain by done. by rewrite (proj1 (pattern_parse_prefix _ Hpn Hn)). }
  destruct (strip_prefix (lit "*.") e) as [d|] eqn:E2.
  { simpl in Hd, Hpd, Hn, Hpn. rewrite normalize_host_plain by done. by rewrite (proj2 (pattern_parse_prefix _ Hpn Hn)). }
  simpl in Hd, Hpd, Hn, Hpn. rewrite normalize_host_plain by done. unfold pattern_parse. rewrite plain_trim by done.
  destruct (is_nil (normalize_domain e)) eqn:En; [by apply is_nil_true in En|]. unfold normalize_domain.
  rewrite !strip_prefix_lower; [done|repeat constructor|by apply strip_prefix_trim_dots|repeat constructor|by apply strip_prefix_trim_dots].
Qed.
End Entries.

(** ** Compiled sets *)

Section Compiled.
Context {DG : DomainGlobs} {UH : UrlHosts}.

Definition globs_ok (set : list str) : Prop := Forall (fun c => domain_glob_ok c = true) set.
Definition entry_globs (e : str) : list str := expand_domain_pattern (normalize_pattern e).

Lemma add_candidates_spec seen cs set : add_candidates seen cs = Ok set ->
  (forall c, c ∈ set <-> c ∈ seen \/ c ∈ cs) /\ (globs_ok seen -> globs_ok set).
Proof.
  revert seen. induction cs as [|c cs IH]; intros seen H; simpl in H; [simplify_eq; set_solver|].
  destruct (mem_str seen c) eqn:Em.
  - apply mem_str_spec in Em. apply IH in H as [H1 H2]. split; [|done]. intros x. rewrite H1. set_solver.
  - destruct (domain_glob_ok c) eqn:Ec; [|done]. apply IH in H as [H1 H2]. split; [set_solver|]. intros Hs. apply H2.
    apply Forall_app. split; [done|by repeat constructor].
Qed.

Lemma compile_patterns_spec gw seen ps set : compile_patterns gw seen ps = Ok set ->
  (forall c, c ∈ set <-> c ∈ seen \/ exists e, e ∈ ps /\ c ∈ entry_globs e) /\ (globs_ok seen -> globs_ok set).
Proof.
  revert seen. induction ps as [|p ps IH]; intros seen H; simpl in H; [simplify_eq; set_solver|].
  assert (exists seen', add_candidates seen (entry_globs p) = Ok seen' /\ compile_patterns gw seen' ps = Ok set) as (seen' & Ha & Hc).
  { by destruct gw, (is_global_wildcard_domain_pattern p); try done; apply result_bind_ok in H. }
  apply add_candidates_spec in Ha as [H1 H2]. apply IH in Hc as [H3 H4]. split; [|auto]. intros c. rewrite H3, H1. set_solver.
Qed.

Lemma compile_globset_spec ps gw set : compile_globset_with_policy ps gw = Ok set ->
  (forall c, c ∈ set <-> exists e, e ∈ ps /\ c ∈ entry_globs e) /\ globs_ok set.
Proof.
  unfold compile_globset_with_policy. intros H. apply result_bind_ok in H as (set' & Hc & H).
  destruct (domain_globset_ok set'); [|done]. injection H as ->. apply compile_patterns_spec in Hc as [H1 H2].
  split; [|apply H2; constructor]. intros c. rewrite H1. set_solver.
Qed.

Lemma is_match_spec set h : is_match set h = true <-> exists c, c ∈ set /\ domain_glob_match c h = true.
Proof. unfold is_match. rewrite existsb_exists. setoid_rewrite <- list_elem_of_In. done. Qed.

Lemma compiled_match ps gw set h : compile_globset_with_policy ps gw = Ok set ->
  is_match set h = true <-> exists e c, e ∈ ps /\ c ∈ entry_globs e /\ domain_glob_match c h = true.
Proof. intros [H _]%compile_globset_spec. rewrite is_match_spec. setoid_rewrite H. naive_solver. Qed.

Context {DGL : DomainGlobLaws DG}.

Lemma lower_eq_normalized h d : eq_ignore_ascii_case (normalize_domain d) h = true <-> to_ascii_lowercase h = normalize_domain d.
Proof.
  unfold eq_ignore_ascii_case. rewrite str_eqb_spec. unfold normalize_domain. rewrite to_ascii_lowercase_idem. split; by intros ->.
Qed.

Lemma entry_means e h : plain_entry e -> no_meta (snd (wild_of e)) ->
  (exists c, c ∈ entry_globs e /\ domain_glob_match c h = true) <-> pattern_means (pattern_parse e) h.
Proof.
  intros He Hm%no_meta_normalize_domain. unfold entry_globs. rewrite expand_plain, pattern_parse_plain by done.
  pose proof (glob_literal _ h Hm) as Hl. pose proof (glob_subdomains _ h Hm) as Hs.
  pose proof (lower_eq_normalized h (snd (wild_of e))) as Hn. rewrite <- Hl in Hn.
  destruct (fst (wild_of e)); simpl; rewrite <- ?Hn, <- ?Hs; set_solver.
Qed.

(** A list of plain entries matches a host as their patterns say: an exact host
    itself, [*.] its subdomains, [**.] both. *)
Theorem patterns_mean (ps : list str) (gw : GlobalWildcard) (set : list str) (h : str) :
  compile_globset_with_policy ps gw = Ok set -> Forall (fun e => plain_entry e /\ no_meta (snd (wild_of e))) ps ->
  is_match set h = true <-> exists e, e ∈ ps /\ pattern_means (pattern_parse e) h.
Proof.
  intros Hc Hp. rewrite (compiled_match _ _ _ _ Hc). rewrite Forall_forall in Hp. split.
  - intros (e & c & He & Hin & Hm). exists e. split; [done|]. destruct (Hp e He). apply entry_means; eauto.
  - intros (e & He & Hm). destruct (Hp e He). apply entry_means in Hm as (c & ? & ?); eauto.
Qed.

(** ** An administrator's patterns bound a user's *)

(** Entries the [url] crate leaves as they are, up to case: with wildcards the
    program does not ask it. *)
Definition faithful_entry (e : str) : Prop :=
  let d := trim_dots (snd (wild_of e)) in
  contains_char STAR d || contains_char QUESTION d = true \/ exists u, url_host_parse d = Some u /\ to_ascii_lowercase u = to_ascii_lowercase d.

Lemma constraint_domain e : plain_entry e -> faithful_entry e ->
  normalize_domain (parse_domain_for_constraints (snd (wild_of e))) = normalize_domain (snd (wild_of e)).
Proof.
  intros [Hp Hd] Hf. pose proof (plain_domain e Hp) as Hpd. unfold parse_domain_for_constraints. rewrite plain_trim by done.
  unfold faithful_entry in Hf. cbv zeta in Hf. set (d := snd (wild_of e)) in *.
  destruct (is_nil (trim_dots d)) eqn:En; [by apply is_nil_true in En|].
  assert (starts_with [91%N] (trim_dots d) = false) as ->.
  { destruct (starts_with _ _) eqn:Es; [|done]. apply starts_with_spec in Es as [r Er].
    destruct (plain_not_in 91%N d eq_refl Hpd). apply (drop_while_end_sub (N.eqb DOT)). fold (trim_dots d). rewrite Er. set_solver. }
  simpl. assert (normalize_domain (trim_dots d) = normalize_domain d) as Hn by (unfold normalize_domain; by rewrite trim_dots_idem).
  destruct (contains_char STAR (trim_dots d) || contains_char QUESTION (trim_dots d)) eqn:Ew; simpl; [done|].
  destruct (contains_char PERCENT (trim_dots d)); [done|]. destruct Hf as [?|(u & -> & Hu)]; [done|]. simpl.
  unfold normalize_domain. by rewrite <- (trim_dots_lower u), Hu, trim_dots_lower, trim_dots_idem.
Qed.

Lemma parse_for_constraints_plain e : plain_entry e ->
  parse_for_constraints e = pattern_of (fst (wild_of e)) (parse_domain_for_constraints (snd (wild_of e))).
Proof.
  intros [Hp Hd%trim_dots_nonempty]. unfold parse_for_constraints. rewrite plain_trim by done. pose proof (wild_of_cases e) as Hc.
  destruct (is_nil e) eqn:En; [apply is_nil_true in En; by subst e|]. unfold wild_of.
  destruct (strip_prefix (lit "**.") e); [done|]. by destruct (strip_prefix (lit "*.") e).
Qed.

(** Every glob of an entry that a managed entry allows ends in the managed
    domain, or is it. *)
Lemma allowed_globs w d w' d' c :
  allows (pattern_of w d) (pattern_of w' d') = true -> c ∈ globs_of w' (normalize_domain d') ->
  (w <> WSub /\ c = normalize_domain d) \/ (w <> WExact /\ exists p, c = p ++ DOT :: normalize_domain d).
Proof.
  assert (forall p, ends_with (DOT :: normalize_domain d) (normalize_domain d') = true ->
    exists r, p ++ normalize_domain d' = r ++ DOT :: normalize_domain d) as Hend.
  { intros p [r ->]%ends_with_spec. exists (p ++ r). by rewrite <- app_assoc. }
  destruct w, w'; simpl; intros Ha Hc; try done;
    unfold is_subdomain_or_equal, is_strict_subdomain, domain_eq in Ha; rewrite ?orb_true_iff, ?andb_true_iff, ?str_eqb_spec in Ha;
    set_unfold in Hc; destruct_or? Ha; destruct_and? Ha; destruct_or? Hc; subst c;
    solve [ left; split; [done|by rewrite ?Ha]
          | right; split; [done|]; exists (lit "?*"); by rewrite ?Ha
          | right; split; [done|]; by apply (Hend [])
          | right; split; [done|]; by apply (Hend (lit "?*.")) ].
Qed.

(** A user's entry that an administrator's entry allows lets through only hosts
    the administrator's entry covers. *)
Theorem allowed_pattern_is_covered (m e c h : str) :
  plain_entry m -> faithful_entry m -> no_meta (snd (wild_of m)) -> plain_entry e -> faithful_entry e ->
  allows (parse_for_constraints m) (parse_for_constraints e) = true ->
  c ∈ entry_globs e -> domain_glob_ok c = true -> domain_glob_match c h = true -> pattern_covers (pattern_parse m) h.
Proof.
  intros Hm Hmf Hmm He Hef Ha Hc Hok Hmatch. unfold entry_globs in Hc. rewrite expand_plain in Hc by done.
  rewrite !parse_for_constraints_plain in Ha by done. rewrite pattern_parse_plain by done.
  assert (allows (pattern_of (fst (wild_of m)) (snd (wild_of m))) (pattern_of (fst (wild_of e)) (snd (wild_of e))) = true) as Ha'.
  { pose proof (constraint_domain m Hm Hmf) as H1. pose proof (constraint_domain e He Hef) as H2.
    destruct (fst (wild_of m)), (fst (wild_of e)); simpl in *; try done;
      unfold is_subdomain_or_equal, is_strict_subdomain, domain_eq in *; by rewrite H1, H2 in Ha. }
  pose proof (no_meta_normalize_domain _ Hmm) as Hn.
  destruct (allowed_globs _ _ _ _ _ Ha' Hc) as [[Hw ->]|[Hw [p ->]]].
  - rewrite glob_literal in Hmatch by done. apply lower_eq_normalized in Hmatch. destruct (fst (wild_of m)); simpl; [by left|done|done].
  - apply glob_suffix in Hmatch; [|done|done]. destruct (fst (wild_of m)); simpl; [by right|done|done].
Qed.
End Compiled.

(** ** An instance: globs with [*] and [?] only *)

Section StarMatch.
Variable rest : str -> bool.
Fixpoint star_match (h : str) : bool := rest h || match h with [] => false | _ :: h => star_match h end.

Lemma star_match_spec h : star_match h = true <-> exists x y, h = x ++ y /\ rest y = true.
Proof.
  induction h as [|c h IH]; simpl; rewrite ?orb_true_iff, ?IH.
  - split; [intros [?|?]; [by exists [], []|done]|]. intros (x & y & E & H). destruct x, y; try done. by left.
  - split.
    + intros [?|(x & y & -> & ?)]; [by exists [], (c :: h)|by exists (c :: x), y].
    + intros ([|a x] & y & E & H); [left; simpl in E; by subst y|]. right. injection E as -> ->. eauto.
Qed.
End StarMatch.

Fixpoint wild_match (p h : str) : bool :=
  match p with
  | [] => is_nil h
  | c :: p =>
      if N.eqb c STAR then star_match (wild_match p) h
      else match h with [] => false | x :: h => (N.eqb c QUESTION || N.eqb (ascii_lower c) (ascii_lower x)) && wild_match p h end
  end.

#[export] Instance star_globs : DomainGlobs := {
  domain_glob_ok p := negb (existsb (one_of (lit "[]{}\")) p);
  domain_globset_ok _ := true;
  domain_glob_match := wild_match }.

Lemma no_meta_cons c p : no_meta (c :: p) <-> glob_meta c = false /\ no_meta p.
Proof. unfold no_meta. by rewrite Forall_cons. Qed.

Lemma wild_match_literal p h : no_meta p -> wild_match p h = eq_ignore_ascii_case p h.
Proof.
  unfold eq_ignore_ascii_case. revert h. induction p as [|c p IH]; intros h H; [by destruct h|]. apply no_meta_cons in H as [Hc Hp].
  simpl. destruct (N.eqb_spec c STAR) as [->|]; [done|]. destruct h as [|x h]; [done|]. simpl.
  destruct (N.eqb_spec c QUESTION) as [->|]; [done|]. simpl. rewrite IH by done. by destruct (N.eqb _ _).
Qed.

Lemma wild_match_suffix p q h : wild_match (p ++ q) h = true -> exists x y, h = x ++ y /\ wild_match q y = true.
Proof.
  revert h. induction p as [|c p IH]; intros h H; [by exists [], h|]. simpl in H. destruct (N.eqb c STAR).
  - apply star_match_spec in H as (x & y & -> & H). apply IH in H as (x' & y' & -> & H). exists (x ++ x'), y'. by rewrite app_assoc.
  - destruct h as [|a h]; [done|]. apply andb_true_iff in H as [_ H]. apply IH in H as (x & y & -> & H). by exists (a :: x), y.
Qed.

#[export] Instance star_glob_laws : DomainGlobLaws star_globs.
Proof.
  assert (forall d y, no_meta d -> wild_match (DOT :: d) y = true <-> to_ascii_lowercase y = DOT :: to_ascii_lowercase d) as Hdot.
  { intros d y H. rewrite wild_match_literal by (by apply no_meta_cons). unfold eq_ignore_ascii_case. rewrite str_eqb_spec. done. }
  split.
  - intros p h. apply wild_match_literal.
  - intros d h H. destruct h as [|c h].
    + split; [done|]. intros (x & y & Hx & E & _). by destruct x.
    + change (star_match (wild_match (DOT :: d)) h = true <-> strictly_below (c :: h) d).
      rewrite star_match_spec. setoid_rewrite Hdot; [|done]. split.
      * intros (x & y & -> & Hy). by exists (c :: x), y.
      * intros (x & y & Hx & E & Hy). destruct x as [|a x]; [done|]. injection E as -> ->. by exists x, y.
  - intros p d h H _ Hm. apply wild_match_suffix in Hm as (x & y & -> & Hy). exists x, y. by rewrite <- Hdot.
Qed.

(** Entries written as the [url] crate prints them. *)
#[export] Instance plain_hosts : UrlHosts := { url_host_parse h := Some (to_ascii_lowercase h) }.

Definition entry_ok (e : str) : bool :=
  forallb plain_char e && negb (is_nil (trim_dots (snd (wild_of e)))).
Lemma entry_ok_plain e : entry_ok e = true -> plain_entry e.
Proof.
  unfold entry_ok, plain_entry, plain. rewrite andb_true_iff, negb_true_iff, is_nil_false, forallb_forall. intros [H1 H2]. split; [|done].
  apply Forall_forall. intros x Hx. by apply H1, list_elem_of_In.
Qed.

Lemma patterns_mean_witness :
  is_match [lit "api.example.com"; lit "?*.example.org"] (lit "www.Example.org") = true
  /\ exists e, e ∈ [lit "API.example.com."; lit "*.example.org"] /\ pattern_means (pattern_parse e) (lit "www.Example.org").
Proof.
  split; [vm_compute; reflexivity|].
  apply (patterns_mean [lit "API.example.com."; lit "*.example.org"] AllowWildcard [lit "api.example.com"; lit "?*.example.org"]).
  - vm_compute. reflexivity.
  - repeat constructor; try (apply entry_ok_plain; vm_compute; reflexivity); repeat constructor.
  - vm_compute. reflexivity.
Defined.

(** [::ffff:10.0.0.1] stands for an address of a private network. *)
Lemma non_public_ipv6_blocks_witness :
  is_non_public_ipv6 [0; 0; 0; 0; 0; 0xffff; 0xa00; 1]%Z = true.
Proof. rewrite (non_public_ipv6_blocks [0; 0; 0; 0; 0; 0xffff; 0xa00; 1]%Z); [vm_compute; reflexivity|]. split; [reflexivity|]. repeat constructor; unfold segment_ok; lia. Defined.
