(* ===== verification/NetConfig.v ===== *)
(** * Configuration of the network proxy ([network-proxy/src/config.rs], [state.rs], [socket_path.rs])

    A configuration lists domains with permissions; a managed configuration
    constrains what it may contain; from a configuration the state of the proxy is
    built, with its compiled allow and deny sets.

    Fields nothing here looks at are a parameter ([Rest]), and so are the hooks of
    the intercepting proxy: whether one is valid, what they compile to, and the
    state of interception, which read files and the environment ([BuildWorld]).
    Errors keep the field they are about, not their texts.

    The theorems: a domain denied in any entry is denied and not allowed
    ([deny_wins]); changing the permission of a host leaves the others
    ([upsert_permission]); an accepted configuration satisfies each constraint
    ([validate_fits]); listeners stay on the loopback interface
    ([listeners_stay_local]). *)

From stdpp Require Import base list numbers option strings sets.
From Stdlib Require Import ZArith Lia.
From S2P Require Import Prelude RustStr RustNet NetPolicy UriPath.

Inductive NetworkDomainPermission := NoPermission | AllowDomain | DenyDomain.
#[export] Instance domain_permission_eq_dec : EqDecision NetworkDomainPermission.
Proof. solve_decision. Defined.

(** [None < Allow < Deny]. *)
Definition permission_rank (p : NetworkDomainPermission) : nat :=
  match p with NoPermission => 0 | AllowDomain => 1 | DenyDomain => 2 end.

Record DomainEntry := mkDomainEntry { entry_pattern : str; entry_permission : NetworkDomainPermission }.
#[export] Instance domain_entry_eq_dec : EqDecision DomainEntry.
Proof. solve_decision. Defined.

(** One step of the loop of [effective_entries]: the order of the first
    occurrences and the strongest permission so far, in one list. *)
Fixpoint add_effective (acc : list DomainEntry) (e : DomainEntry) : list DomainEntry :=
  match acc with
  | [] => [e]
  | a :: acc =>
      if str_eqb (entry_pattern a) (entry_pattern e)
      then (if Nat.ltb (permission_rank (entry_permission a)) (permission_rank (entry_permission e))
            then mkDomainEntry (entry_pattern a) (entry_permission e) else a) :: acc
      else a :: add_effective acc e
  end.

Definition effective_entries (entries : list DomainEntry) : list DomainEntry := fold_left add_effective entries [].

Inductive NetworkUnixSocketPermission := AllowSocket | DenySocket.
#[export] Instance socket_permission_eq_dec : EqDecision NetworkUnixSocketPermission.
Proof. solve_decision. Defined.

Inductive NetworkMode := Limited | Full.
#[export] Instance network_mode_eq_dec : EqDecision NetworkMode.
Proof. solve_decision. Defined.

Definition allows_method (m : NetworkMode) (method : str) : bool :=
  match m with Full => true | Limited => mem_str [lit "GET"; lit "HEAD"; lit "OPTIONS"] method end.

Definition network_mode_rank (m : NetworkMode) : nat := match m with Limited => 0 | Full => 1 end.

(** ** Socket paths ([socket_path.rs]) *)

Inductive Platform := PlatformLinux | PlatformMacos | PlatformWindows | PlatformUnknown.
#[export] Instance platform_eq_dec : EqDecision Platform.
Proof. solve_decision. Defined.

Definition path_convention (p : Platform) : option PathConvention :=
  match p with
  | PlatformLinux | PlatformMacos => Some PosixPaths
  | PlatformWindows => Some WindowsPaths
  | PlatformUnknown => None
  end.

Definition is_slash (c : char) : bool := N.eqb c 92%N || N.eqb c 47%N.

Definition windows_path_is_absolute (path : str) : bool :=
  if match path with d :: 58%N :: s :: _ => is_ascii_alphabetic d && is_slash s | _ => false end then true
  else
    match path with
    | a :: b :: rest =>
        if negb (is_slash a && is_slash b) then false
        else if starts_with (lit "\\?\") path || match rest with 46%N :: s :: _ => is_slash s | _ => false end then true
        else
          match split_by is_slash rest with
          | server :: share :: _ => negb (is_nil server) && negb (is_nil share)
          | _ => false
          end
    | _ => false
    end.

Definition socket_path_is_absolute (platform : Platform) (path : str) : bool :=
  starts_with (lit "/") path
  || match path_convention platform with Some PosixPaths => false | Some WindowsPaths | None => windows_path_is_absolute path end.

(** ** The configuration *)

Section Config.
Context {Hook Rest : Type} `{!EqDecision Hook, !EqDecision Rest}.

Record NetworkProxyConfig := mkProxyConfig {
  enabled : bool;
  allow_upstream_proxy : bool;
  dangerously_allow_non_loopback_proxy : bool;
  dangerously_allow_all_unix_sockets : option bool;
  mode : NetworkMode;
  domains : option (list DomainEntry);
  unix_sockets : option (list (str * NetworkUnixSocketPermission));
  cfg_allow_local_binding : option bool;
  mitm : bool;
  mitm_ca : option (str * str);
  credential_broker : bool;
  credential_broker_enabled_mitm : bool;
  mitm_hooks : list Hook;
  cfg_rest : Rest }.

#[export] Instance proxy_config_eq_dec : EqDecision NetworkProxyConfig.
Proof. solve_decision. Defined.

Definition set_enabled (b : bool) (c : NetworkProxyConfig) : NetworkProxyConfig :=
  mkProxyConfig b (allow_upstream_proxy c) (dangerously_allow_non_loopback_proxy c) (dangerously_allow_all_unix_sockets c) (mode c)
    (domains c) (unix_sockets c) (cfg_allow_local_binding c) (mitm c) (mitm_ca c) (credential_broker c) (credential_broker_enabled_mitm c)
    (mitm_hooks c) (cfg_rest c).
Definition set_mode (m : NetworkMode) (c : NetworkProxyConfig) : NetworkProxyConfig :=
  mkProxyConfig (enabled c) (allow_upstream_proxy c) (dangerously_allow_non_loopback_proxy c) (dangerously_allow_all_unix_sockets c) m
    (domains c) (unix_sockets c) (cfg_allow_local_binding c) (mitm c) (mitm_ca c) (credential_broker c) (credential_broker_enabled_mitm c)
    (mitm_hooks c) (cfg_rest c).
Definition set_domains (d : option (list DomainEntry)) (c : NetworkProxyConfig) : NetworkProxyConfig :=
  mkProxyConfig (enabled c) (allow_upstream_proxy c) (dangerously_allow_non_loopback_proxy c) (dangerously_allow_all_unix_sockets c) (mode c)
    d (unix_sockets c) (cfg_allow_local_binding c) (mitm c) (mitm_ca c) (credential_broker c) (credential_broker_enabled_mitm c)
    (mitm_hooks c) (cfg_rest c).
Definition set_local_binding (b : option bool) (c : NetworkProxyConfig) : NetworkProxyConfig :=
  mkProxyConfig (enabled c) (allow_upstream_proxy c) (dangerously_allow_non_loopback_proxy c) (dangerously_allow_all_unix_sockets c) (mode c)
    (domains c) (unix_sockets c) b (mitm c) (mitm_ca c) (credential_broker c) (credential_broker_enabled_mitm c)
    (mitm_hooks c) (cfg_rest c).
Definition set_broker (b m e : bool) (c : NetworkProxyConfig) : NetworkProxyConfig :=
  mkProxyConfig (enabled c) (allow_upstream_proxy c) (dangerously_allow_non_loopback_proxy c) (dangerously_allow_all_unix_sockets c) (mode c)
    (domains c) (unix_sockets c) (cfg_allow_local_binding c) m (mitm_ca c) b e (mitm_hooks c) (cfg_rest c).
Definition set_unix_sockets (s : option (list (str * NetworkUnixSocketPermission))) (c : NetworkProxyConfig) : NetworkProxyConfig :=
  mkProxyConfig (enabled c) (allow_upstream_proxy c) (dangerously_allow_non_loopback_proxy c) (dangerously_allow_all_unix_sockets c) (mode c)
    (domains c) s (cfg_allow_local_binding c) (mitm c) (mitm_ca c) (credential_broker c) (credential_broker_enabled_mitm c)
    (mitm_hooks c) (cfg_rest c).

Definition allow_local_binding (c : NetworkProxyConfig) : bool := unwrap_or (cfg_allow_local_binding c) false.

Definition set_credential_broker_enabled (c : NetworkProxyConfig) (on : bool) : NetworkProxyConfig :=
  if on then set_broker true true (credential_broker_enabled_mitm c || negb (mitm c)) c
  else if credential_broker_enabled_mitm c then set_broker false (negb (is_nil (mitm_hooks c)) || is_some (mitm_ca c)) false c
  else set_broker false (mitm c) (credential_broker_enabled_mitm c) c.

Definition domain_entries (c : NetworkProxyConfig) (p : NetworkDomainPermission) : option (list str) :=
  match domains c with
  | None => None
  | Some entries =>
      let l := List.map entry_pattern (List.filter (fun e => bool_decide (entry_permission e = p)) (effective_entries entries)) in
      if is_nil l then None else Some l
  end.
Definition allowed_domains (c : NetworkProxyConfig) : option (list str) := domain_entries c AllowDomain.
Definition denied_domains (c : NetworkProxyConfig) : option (list str) := domain_entries c DenyDomain.

Definition allow_unix_sockets (c : NetworkProxyConfig) : list str :=
  match unix_sockets c with
  | None => []
  | Some entries => List.map fst (List.filter (fun '(_, p) => bool_decide (p = AllowSocket)) entries)
  end.

Definition upsert_domain_permission (c : NetworkProxyConfig) (host : str) (permission : NetworkDomainPermission) (normalize : str -> str)
    : NetworkProxyConfig :=
  let entries := unwrap_or (domains c) [] in
  let entries := List.filter (fun e => negb (str_eqb (normalize (entry_pattern e)) (normalize host))) entries ++ [mkDomainEntry host permission] in
  set_domains (if is_nil entries then None else Some entries) c.

(** The loop of [set_domain_entries]. *)
Definition push_domain (permission : NetworkDomainPermission) (acc : list DomainEntry) (pattern : str) : list DomainEntry :=
  if existsb (fun e => str_eqb (entry_pattern e) pattern && bool_decide (entry_permission e = permission)) acc then acc
  else acc ++ [mkDomainEntry pattern permission].

Definition set_domain_entries (c : NetworkProxyConfig) (patterns : list str) (permission : NetworkDomainPermission) : NetworkProxyConfig :=
  let entries := List.filter (fun e => negb (bool_decide (entry_permission e = permission))) (unwrap_or (domains c) []) in
  let entries := fold_left (push_domain permission) patterns entries in
  set_domains (if is_nil entries then None else Some entries) c.
Definition set_allowed_domains (c : NetworkProxyConfig) (l : list str) := set_domain_entries c l AllowDomain.
Definition set_denied_domains (c : NetworkProxyConfig) (l : list str) := set_domain_entries c l DenyDomain.

(** The map of sockets is sorted by path in the program; only membership is used. *)
Definition insert_socket (acc : list (str * NetworkUnixSocketPermission)) (p : NetworkUnixSocketPermission) (path : str) :=
  List.filter (fun '(q, _) => negb (str_eqb q path)) acc ++ [(path, p)].
Definition set_unix_socket_entries (c : NetworkProxyConfig) (paths : list str) (permission : NetworkUnixSocketPermission) : NetworkProxyConfig :=
  let entries := List.filter (fun '(_, p) => negb (bool_decide (p = permission))) (unwrap_or (unix_sockets c) []) in
  set_unix_sockets (Some (fold_left (fun acc path => insert_socket acc permission path) paths entries)) c.

(** ** Listeners *)

Record SocketAddr := mkSocketAddr { addr_ip : IpAddr; addr_port : Z }.
Definition localhost_addr (port : Z) : SocketAddr := mkSocketAddr (V4 (mkV4 127 0 0 1)) port.

Definition clamp_non_loopback (addr : SocketAddr) (allow_non_loopback : bool) : SocketAddr :=
  if ip_is_loopback (addr_ip addr) then addr
  else if allow_non_loopback then addr
  else localhost_addr (addr_port addr).

Definition clamp_bind_addrs (http_addr socks_addr : SocketAddr) (c : NetworkProxyConfig) : SocketAddr * SocketAddr :=
  let http_addr := clamp_non_loopback http_addr (dangerously_allow_non_loopback_proxy c) in
  let socks_addr := clamp_non_loopback socks_addr (dangerously_allow_non_loopback_proxy c) in
  if is_nil (allow_unix_sockets c) && negb (unwrap_or (dangerously_allow_all_unix_sockets c) false) then (http_addr, socks_addr)
  else (localhost_addr (addr_port http_addr), localhost_addr (addr_port socks_addr)).

(** ** Constraints ([state.rs]) *)

Record NetworkProxyConstraints := mkConstraints {
  con_enabled : option bool;
  con_mode : option NetworkMode;
  con_allow_upstream_proxy : option bool;
  con_non_loopback_proxy : option bool;
  con_all_unix_sockets : option bool;
  con_allowed_domains : option (list str);
  allowlist_expansion_enabled : option bool;
  con_denied_domains : option (list str);
  denylist_expansion_enabled : option bool;
  con_allow_unix_sockets : option (list str);
  con_allow_local_binding : option bool }.

#[export] Instance constraints_eq_dec : EqDecision NetworkProxyConstraints.
Proof. solve_decision. Defined.

Inductive NetworkProxyConstraintError := InvalidValue (field_name : str).

Definition ensure {E} (b : bool) (e : E) : result unit E := if b then Ok tt else Err e.

Context {DG : DomainGlobs} {UH : UrlHosts}.
Variable hook_valid : Hook -> bool.

Definition validate_mitm_hook_config (c : NetworkProxyConfig) : bool :=
  is_nil (mitm_hooks c) || (mitm c && forallb hook_valid (mitm_hooks c)).

Definition validate_non_global_wildcard_domain_patterns (field_name : str) (patterns : list str) : result unit NetworkProxyConstraintError :=
  ensure (negb (existsb is_global_wildcard_domain_pattern patterns)) (InvalidValue field_name).

(** Sets of lower-case entries. *)
Definition lower_all (l : list str) : list str := List.map to_ascii_lowercase l.
Definition subset (a b : list str) : bool := forallb (mem_str b) a.

Definition allowed_domains_fit (cs : NetworkProxyConstraints) (managed candidate denied : list str) : bool :=
  let denied_domain_overrides := lower_all denied in
  match allowlist_expansion_enabled cs with
  | Some true => forallb (fun e => mem_str (lower_all candidate) e || mem_str denied_domain_overrides e) (lower_all managed)
  | Some false =>
      let expected := List.filter (fun e => negb (mem_str denied_domain_overrides e)) (lower_all managed) in
      subset (lower_all candidate) expected && subset expected (lower_all candidate)
  | None =>
      forallb (fun e => existsb (fun m => allows (parse_for_constraints m) (parse_for_constraints e)) managed) candidate
  end.

Definition denied_domains_fit (cs : NetworkProxyConstraints) (managed candidate : list str) : bool :=
  match denylist_expansion_enabled cs with
  | Some false => subset (lower_all candidate) (lower_all managed) && subset (lower_all managed) (lower_all candidate)
  | Some true | None => subset (lower_all managed) (lower_all candidate)
  end.

Definition validate_policy_against_constraints (c : NetworkProxyConfig) (cs : NetworkProxyConstraints)
    : result unit NetworkProxyConstraintError :=
  let config_allowed_domains := unwrap_or (allowed_domains c) [] in
  let config_denied_domains := unwrap_or (denied_domains c) [] in
  try? ensure (validate_mitm_hook_config c) (InvalidValue (lit "network.mitm_hooks")) in
  try? validate_non_global_wildcard_domain_patterns (lit "network.denied_domains") config_denied_domains in
  try? ensure (match con_enabled cs with Some max_enabled => negb (enabled c && negb max_enabled) | None => true end)
    (InvalidValue (lit "network.enabled")) in
  try? ensure (match con_mode cs with Some max_mode => Nat.leb (network_mode_rank (mode c)) (network_mode_rank max_mode) | None => true end)
    (InvalidValue (lit "network.mode")) in
  try? ensure (match con_allow_upstream_proxy cs with Some false => negb (allow_upstream_proxy c) | _ => true end)
    (InvalidValue (lit "network.allow_upstream_proxy")) in
  try? ensure (match con_non_loopback_proxy cs with Some false => negb (dangerously_allow_non_loopback_proxy c) | _ => true end)
    (InvalidValue (lit "network.dangerously_allow_non_loopback_proxy")) in
  try? ensure (negb (unwrap_or (dangerously_allow_all_unix_sockets c) false
                     && negb (unwrap_or (con_all_unix_sockets cs) (is_none (con_allow_unix_sockets cs)))))
    (InvalidValue (lit "network.dangerously_allow_all_unix_sockets")) in
  try? ensure (match con_allow_local_binding cs with Some b => negb (allow_local_binding c && negb b) | None => true end)
    (InvalidValue (lit "network.allow_local_binding")) in
  try? (match con_allowed_domains cs with
        | None => Ok tt
        | Some managed =>
            try? validate_non_global_wildcard_domain_patterns (lit "network.allowed_domains") managed in
            ensure (allowed_domains_fit cs managed config_allowed_domains config_denied_domains) (InvalidValue (lit "network.allowed_domains"))
        end) in
  try? (match con_denied_domains cs with
        | None => Ok tt
        | Some managed =>
            try? validate_non_global_wildcard_domain_patterns (lit "network.denied_domains") managed in
            ensure (denied_domains_fit cs managed config_denied_domains) (InvalidValue (lit "network.denied_domains"))
        end) in
  match con_allow_unix_sockets cs with
  | None => Ok tt
  | Some managed =>
      ensure (forallb (fun e => mem_str (lower_all managed) (to_ascii_lowercase e)) (allow_unix_sockets c))
        (InvalidValue (lit "network.allow_unix_sockets"))
  end.
End Config.
Arguments NetworkProxyConfig : clear implicits.

(** ** Effective entries *)

Lemma permission_rank_inj p q : permission_rank p = permission_rank q -> p = q.
Proof. by destruct p, q. Qed.

Lemma same_entry a e : entry_pattern a = entry_pattern e -> permission_rank (entry_permission a) = permission_rank (entry_permission e) -> a = e.
Proof. destruct a, e. simpl. by intros -> ->%permission_rank_inj. Qed.

Definition stronger_than_all (e : DomainEntry) (l : list DomainEntry) : Prop :=
  forall e', e' ∈ l -> entry_pattern e' = entry_pattern e -> permission_rank (entry_permission e') <= permission_rank (entry_permission e).

(** What has been collected from a prefix of the entries. *)
Definition collected (acc l : list DomainEntry) : Prop :=
  NoDup (List.map entry_pattern acc) /\ forall e, e ∈ acc <-> e ∈ l /\ stronger_than_all e l.

Lemma add_effective_keys acc e p : p ∈ List.map entry_pattern (add_effective acc e) -> p = entry_pattern e \/ p ∈ List.map entry_pattern acc.
Proof.
  induction acc as [|a acc IH]; simpl; [set_solver|]. destruct (str_eqb (entry_pattern a) (entry_pattern e)) eqn:E; simpl.
  - apply str_eqb_spec in E. destruct (Nat.ltb _ _); simpl; set_solver.
  - set_solver.
Qed.

Lemma add_effective_nodup acc e : NoDup (List.map entry_pattern acc) -> NoDup (List.map entry_pattern (add_effective acc e)).
Proof.
  induction acc as [|a acc IH]; simpl; intros H; [by repeat constructor; set_solver|]. apply NoDup_cons in H as [Ha H].
  destruct (str_eqb (entry_pattern a) (entry_pattern e)) eqn:E; simpl.
  - destruct (Nat.ltb _ _); simpl; by constructor.
  - apply str_eqb_false in E. constructor; [|by apply IH]. intros [?|?]%add_effective_keys; done.
Qed.

Lemma add_effective_elem acc e x : NoDup (List.map entry_pattern acc) ->
  x ∈ add_effective acc e <->
    (x ∈ acc /\ (entry_pattern x = entry_pattern e -> permission_rank (entry_permission e) <= permission_rank (entry_permission x)))
    \/ (x = e /\ forall a, a ∈ acc -> entry_pattern a = entry_pattern e -> permission_rank (entry_permission a) < permission_rank (entry_permission e)).
Proof.
  induction acc as [|a acc IH]; simpl; intros H; [set_solver|]. apply NoDup_cons in H as [Ha H].
  assert (forall y, y ∈ acc -> entry_pattern y <> entry_pattern a) as Hne.
  { intros y Hy E. apply Ha. rewrite <- E. by apply list_elem_of_In, in_map, list_elem_of_In. }
  destruct (str_eqb (entry_pattern a) (entry_pattern e)) eqn:E.
  - apply str_eqb_spec in E. destruct (Nat.ltb_spec (permission_rank (entry_permission a)) (permission_rank (entry_permission e))) as [Hlt|Hge].
    + replace (mkDomainEntry (entry_pattern a) (entry_permission e)) with e by (destruct e; simpl in *; by rewrite E). rewrite !elem_of_cons. split.
      * intros [->|Hx]; [right|left; split; [by right|]]. { split; [done|]. intros b [->|Hb]%elem_of_cons Eb; [done|]. by destruct (Hne b Hb); rewrite Eb. }
        intros Ex. by destruct (Hne x Hx); rewrite Ex.
      * intros [[[->|Hx] Hr]|[-> _]]; [specialize (Hr E); lia|by right|by left].
    + rewrite !elem_of_cons. split.
      * intros [->|Hx]; left; (split; [by auto|]); [by intros|]. intros Ex. by destruct (Hne x Hx); rewrite Ex.
      * intros [[[->|Hx] Hr]|[-> Hall]]; [by left|by right|]. specialize (Hall a ltac:(by left) E). lia.
  - apply str_eqb_false in E. rewrite !elem_of_cons, IH by done. split.
    + intros [->|[[Hx Hr]|[-> Hall]]]; [left; by split; [left|]|left; by split; [right|]|]. right. split; [done|].
      intros b [->|Hb]%elem_of_cons Eb; [done|by apply Hall].
    + intros [[[->|Hx] Hr]|[-> Hall]]; [by left|right; by left|]. right. right. split; [done|]. intros b Hb. apply Hall. by right.
Qed.

Lemma collected_step acc l e : collected acc l -> collected (add_effective acc e) (l ++ [e]).
Proof.
  intros [Hn Hc]. split; [by apply add_effective_nodup|]. intros x. rewrite add_effective_elem by done. unfold stronger_than_all.
  setoid_rewrite elem_of_app. setoid_rewrite list_elem_of_singleton. rewrite Hc. split.
  - intros [[[Hx Hs] Hr]|[-> Hall]].
    + split; [by left|]. intros y [Hy| ->] Ey; [by apply Hs|by apply Hr].
    + split; [by right|]. intros y [Hy| ->] Ey; [|done].
      destruct (Nat.le_gt_cases (permission_rank (entry_permission y)) (permission_rank (entry_permission e))) as [?|Hgt]; [done|].
      exfalso. clear Hn. assert (exists m, m ∈ l /\ entry_pattern m = entry_pattern e /\ stronger_than_all m l
        /\ permission_rank (entry_permission e) < permission_rank (entry_permission m)) as (m & Hm & Em & Hs & Hlt).
      { destruct (permission_rank (entry_permission y)) as [|[|[|k]]] eqn:Er; [lia| |exists y|destruct (entry_permission y); simpl in Er; lia].
        - destruct (decide (mkDomainEntry (entry_pattern e) DenyDomain ∈ l)) as [Hd|Hd].
          + exists (mkDomainEntry (entry_pattern e) DenyDomain). split_and!; [done|done| |simpl; lia].
            intros z _ _. destruct (entry_permission z); simpl; lia.
          + exists y. split_and!; [done|done| |lia]. intros z Hz Ez. destruct (entry_permission z) eqn:Epz; simpl; [lia|lia|].
            destruct Hd. destruct z as [pz rz]. simpl in *. by rewrite <- Ey, <- Ez, <- Epz.
        - split_and!; [done|done| |lia]. intros z _ _. destruct (entry_permission z); simpl; lia. }
      specialize (Hall m). rewrite Hc in Hall. specialize (Hall (conj Hm Hs) Em). lia.
  - intros [[Hx| ->] Hs]; [|].
    + left. split; [split; [done|]; intros y Hy; apply Hs; by left|]. intros Ex. apply Hs; [by right|done].
    + destruct (decide (e ∈ l)) as [Hel|Hel].
      * left. split; [split; [done|]; intros y Hy; apply Hs; by left|done].
      * right. split; [done|]. intros a [Ha _]%Hc Ea. specialize (Hs a (or_introl Ha) Ea).
        destruct (decide (permission_rank (entry_permission a) = permission_rank (entry_permission e))) as [Eq|]; [|lia].
        apply same_entry in Eq; [by subst|done].
Qed.

Lemma effective_entries_collected l : collected (effective_entries l) l.
Proof.
  unfold effective_entries. cut (forall acc done, collected acc done -> collected (fold_left add_effective l acc) (done ++ l)).
  { intros H. apply (H [] []). split; [constructor|set_solver]. }
  induction l as [|e l IH]; intros acc seen H; simpl; [by rewrite app_nil_r|]. replace (seen ++ e :: l) with ((seen ++ [e]) ++ l) by (by rewrite <- app_assoc).
  apply IH. by apply collected_step.
Qed.

Section Facts.
Context {Hook Rest : Type} `{!EqDecision Hook, !EqDecision Rest} {DG : DomainGlobs} {UH : UrlHosts}.
Implicit Types c : NetworkProxyConfig Hook Rest.

(** The entries with their permissions, nothing when none are set. *)
Definition entries_of c : list DomainEntry := unwrap_or (domains c) [].

Lemma domain_entries_elem c p pattern :
  pattern ∈ unwrap_or (domain_entries c p) [] <->
    mkDomainEntry pattern p ∈ entries_of c /\ stronger_than_all (mkDomainEntry pattern p) (entries_of c).
Proof.
  unfold domain_entries, entries_of. destruct (domains c) as [l|]; simpl; [|set_solver].
  rewrite <- (proj2 (effective_entries_collected l)). set (f := fun e => _).
  assert (forall k : list str, unwrap_or (if is_nil k then None else Some k) [] = k) as -> by (by intros []).
  rewrite list_elem_of_In, in_map_iff. setoid_rewrite filter_In. subst f. simpl. setoid_rewrite bool_decide_eq_true. split.
  - intros ([q r] & E & Hin & Hr). simpl in *. subst. apply list_elem_of_In. exact Hin.
  - intros H%list_elem_of_In. exists (mkDomainEntry pattern p). by split_and!.
Qed.

(** Of several entries for one pattern a denial wins, whatever their order. *)
Theorem deny_wins c (pattern : str) :
  (pattern ∈ unwrap_or (denied_domains c) [] <-> mkDomainEntry pattern DenyDomain ∈ entries_of c)
  /\ (pattern ∈ unwrap_or (allowed_domains c) [] <->
        mkDomainEntry pattern AllowDomain ∈ entries_of c /\ mkDomainEntry pattern DenyDomain ∉ entries_of c).
Proof.
  unfold denied_domains, allowed_domains. rewrite !domain_entries_elem. unfold stronger_than_all. simpl. split.
  - split; [tauto|]. intros H. split; [done|]. intros e _ _. destruct (entry_permission e); simpl; lia.
  - f_equiv. split.
    + intros H Hd. specialize (H _ Hd eq_refl). simpl in H. lia.
    + intros Hd e He Ee. destruct e as [q [| |]]; simpl in *; try lia. by subst.
Qed.

Lemma entries_upsert c host p norm :
  entries_of (upsert_domain_permission c host p norm)
  = List.filter (fun e => negb (str_eqb (norm (entry_pattern e)) (norm host))) (entries_of c) ++ [mkDomainEntry host p].
Proof. unfold entries_of, upsert_domain_permission. simpl. by destruct (List.filter _ _ ++ _) eqn:E; [by destruct (List.filter _ _)|]. Qed.

Lemma entries_upsert_elem c host p norm e :
  e ∈ entries_of (upsert_domain_permission c host p norm) <->
    (e ∈ entries_of c /\ norm (entry_pattern e) <> norm host) \/ e = mkDomainEntry host p.
Proof.
  rewrite entries_upsert, elem_of_app, list_elem_of_singleton, list_elem_of_In, filter_In, <- list_elem_of_In, negb_true_iff, str_eqb_false. done.
Qed.

(** Setting the permission of a host replaces what was said of it, also under
    other spellings, and leaves every other pattern. *)
Theorem upsert_permission c (host : str) (deny : bool) (norm : str -> str) (pattern : str) :
  let c' := upsert_domain_permission c host (if deny then DenyDomain else AllowDomain) norm in
  (pattern ∈ unwrap_or (denied_domains c') [] <->
     (if decide (norm pattern = norm host) then deny = true /\ pattern = host else pattern ∈ unwrap_or (denied_domains c) []))
  /\ (pattern ∈ unwrap_or (allowed_domains c') [] <->
     (if decide (norm pattern = norm host) then deny = false /\ pattern = host else pattern ∈ unwrap_or (allowed_domains c) [])).
Proof.
  simpl. assert (forall a b x y, mkDomainEntry a x = mkDomainEntry b y <-> a = b /\ x = y) as Heq by (intros; split; [by intros [=]|by intros [-> ->]]).
  rewrite !(proj1 (deny_wins _ _)), !(proj2 (deny_wins _ _)), !entries_upsert_elem, !Heq. simpl.
  destruct (decide (norm pattern = norm host)) as [E|E]; destruct deny; [naive_solver..| |];
    rewrite ?(proj1 (deny_wins c _)), ?(proj2 (deny_wins c _)); (assert (pattern <> host) by (by intros ->)); naive_solver.
Qed.

(** ** What an accepted configuration satisfies *)

Lemma ensure_ok {E} b (e : E) u : ensure b e = Ok u <-> b = true.
Proof. destruct b, u; naive_solver. Qed.

Lemma try_ok {A E} (r : result unit E) (k : result A E) x : (try? r in k) = Ok x <-> r = Ok tt /\ k = Ok x.
Proof. rewrite result_bind_ok. split; [intros ([] & ? & ?); done|intros [? ?]; by exists tt]. Qed.

Variable hook_valid : Hook -> bool.

Definition no_global_wildcard (l : list str) : Prop := existsb is_global_wildcard_domain_pattern l = false.

(** One conjunct per check, in the order of the program. *)
Record fits c (cs : NetworkProxyConstraints) : Prop := {
  fits_hooks : validate_mitm_hook_config hook_valid c = true;
  fits_denied_wildcard : no_global_wildcard (unwrap_or (denied_domains c) []);
  fits_enabled : con_enabled cs = Some false -> enabled c = false;
  fits_mode : forall m, con_mode cs = Some m -> network_mode_rank (mode c) <= network_mode_rank m;
  fits_upstream : con_allow_upstream_proxy cs = Some false -> allow_upstream_proxy c = false;
  fits_non_loopback : con_non_loopback_proxy cs = Some false -> dangerously_allow_non_loopback_proxy c = false;
  fits_all_sockets : unwrap_or (con_all_unix_sockets cs) (is_none (con_allow_unix_sockets cs)) = false ->
    unwrap_or (dangerously_allow_all_unix_sockets c) false = false;
  fits_local : con_allow_local_binding cs = Some false -> allow_local_binding c = false;
  fits_allowed : forall managed, con_allowed_domains cs = Some managed -> no_global_wildcard managed
    /\ allowed_domains_fit cs managed (unwrap_or (allowed_domains c) []) (unwrap_or (denied_domains c) []) = true;
  fits_denied : forall managed, con_denied_domains cs = Some managed -> no_global_wildcard managed
    /\ denied_domains_fit cs managed (unwrap_or (denied_domains c) []) = true;
  fits_sockets : forall managed, con_allow_unix_sockets cs = Some managed ->
    forallb (fun e => mem_str (lower_all managed) (to_ascii_lowercase e)) (allow_unix_sockets c) = true }.

(** Validation accepts exactly the configurations that satisfy every constraint. *)
Lemma validate_fits c cs : validate_policy_against_constraints hook_valid c cs = Ok tt <-> fits c cs.
Proof.
  unfold validate_policy_against_constraints, validate_non_global_wildcard_domain_patterns. rewrite !try_ok, !ensure_ok, negb_true_iff.
  assert (forall (o : option bool) b, match o with Some m => negb (b && negb m) | None => true end = true <-> (o = Some false -> b = false)) as Hmax
    by (intros [[]|] []; simpl; naive_solver).
  assert (forall (o : option bool) b, match o with Some false => negb b | _ => true end = true <-> (o = Some false -> b = false)) as Hoff
    by (intros [[]|] []; simpl; naive_solver).
  assert (forall b m, negb (b && negb m) = true <-> (m = false -> b = false)) as Hneg by (intros [] []; simpl; naive_solver).
  rewrite !Hmax, !Hoff, Hneg. split.
  - intros (H1 & H2 & H3 & H4 & H5 & H6 & H7 & H8 & H9 & H10 & H11). split; try done.
    + intros m Hm. rewrite Hm in H4. by apply Nat.leb_le.
    + intros m Hm. rewrite Hm, try_ok, !ensure_ok, negb_true_iff in H9. done.
    + intros m Hm. rewrite Hm, try_ok, !ensure_ok, negb_true_iff in H10. done.
    + intros m Hm. rewrite Hm in H11. by apply ensure_ok in H11.
  - intros []. split_and!; try done.
    + destruct (con_mode cs); [|done]. apply Nat.leb_le. auto.
    + destruct (con_allowed_domains cs) as [m|]; [|done]. rewrite try_ok, !ensure_ok, negb_true_iff. by apply fits_allowed0.
    + destruct (con_denied_domains cs) as [m|]; [|done]. rewrite try_ok, !ensure_ok, negb_true_iff. by apply fits_denied0.
    + destruct (con_allow_unix_sockets cs) as [m|]; [|done]. apply ensure_ok. auto.
Qed.

(** The listeners stay on the loopback interface unless the configuration says
    otherwise, and in any case while local sockets are reachable through them. *)
Lemma listeners_stay_local c http socks :
  let '(h, s) := clamp_bind_addrs http socks c in
  addr_port h = addr_port http /\ addr_port s = addr_port socks
  /\ ((ip_is_loopback (addr_ip h) = true /\ ip_is_loopback (addr_ip s) = true)
      \/ (dangerously_allow_non_loopback_proxy c = true /\ allow_unix_sockets c = []
          /\ unwrap_or (dangerously_allow_all_unix_sockets c) false = false)).
Proof.
  unfold clamp_bind_addrs. assert (forall a b, addr_port (clamp_non_loopback a b) = addr_port a
    /\ (ip_is_loopback (addr_ip (clamp_non_loopback a b)) = true \/ b = true)) as H.
  { intros a b. unfold clamp_non_loopback. destruct (ip_is_loopback (addr_ip a)) eqn:E, b; simpl; auto. }
  destruct (H http (dangerously_allow_non_loopback_proxy c)) as [P1 L1]. destruct (H socks (dangerously_allow_non_loopback_proxy c)) as [P2 L2].
  destruct (is_nil (allow_unix_sockets c)) eqn:En; simpl; [apply is_nil_true in En|by split_and!; [done|done|left]].
  destruct (unwrap_or (dangerously_allow_all_unix_sockets c) false); simpl; split_and!; auto. destruct L1, L2; auto.
Qed.
End Facts.
