(* ===== verification/NetProxy.v ===== *)
(** * Decisions of the network proxy ([network-proxy/src/runtime.rs], [network_policy.rs], [connect_policy.rs])

    The state of the proxy is built from a configuration ([NetConfig.v]) and says
    of every host whether it is blocked; a decider may be asked about hosts that
    are merely not listed; and before a connection the address is checked again.

    Reloading the configuration and looking up a name are done outside: their
    answers are arguments.  Telemetry is left out, except the audit event.

    The theorems: a host that is let through is listed, not denied, and does not
    lead to an address that is not public unless that is listed or allowed
    ([allowed_host_is_safe]); an administrator's allow list bounds the hosts
    ([managed_allowlist_bounds_hosts]); a decider can only let through hosts that
    are not listed ([decider_only_widens]); and no connection reaches such an
    address that is not allowed or listed ([connections_stay_public]).
    [port_hides_entry] is a defect: the constraint check and the matcher read an
    entry with a port differently. *)

From stdpp Require Import base list numbers option strings sets.
From Stdlib Require Import ZArith Lia.
From S2P Require Import Prelude RustStr RustInt RustNet NetPolicy NetConfig.

Inductive HostBlockReason := Denied | NotAllowed | NotAllowedLocal.
Inductive HostBlockDecision := Allowed | Blocked (reason : HostBlockReason).
#[export] Instance block_reason_eq_dec : EqDecision HostBlockReason.
Proof. solve_decision. Defined.
#[export] Instance block_decision_eq_dec : EqDecision HostBlockDecision.
Proof. solve_decision. Defined.

Definition block_reason_str (r : HostBlockReason) : str :=
  match r with Denied => lit "denied" | NotAllowed => lit "not_allowed" | NotAllowedLocal => lit "not_allowed_local" end.

Record BlockedRequest := mkBlocked {
  bl_host : str;
  bl_reason : str;
  bl_client : option str;
  bl_method : option str;
  bl_mode : option NetworkMode;
  bl_protocol : str;
  bl_execution_id : option str;
  bl_decision : option str;
  bl_source : option str;
  bl_port : option Z;
  bl_timestamp : Z }.

Inductive LocalBindingPolicy := DefaultFalse | RequireTrue.

(** Hooks and interception, which read files and the environment. *)
Class BuildWorld (Hook Hooks Mitm : Type) := {
  compile_hooks : list Hook -> option Hooks;
  mitm_new : bool -> option (str * str) -> option Mitm }.

Section Proxy.
Context {Hook Rest Hooks Mitm : Type} `{!EqDecision Hook, !EqDecision Rest} {DG : DomainGlobs} {UH : UrlHosts}.
Notation Config := (NetworkProxyConfig Hook Rest).
Variable hook_valid : Hook -> bool.

Definition resolve (p : LocalBindingPolicy) (c : Config) : bool :=
  unwrap_or (cfg_allow_local_binding c) (enabled c && match p with RequireTrue => true | DefaultFalse => false end).

Definition resolved_config (p : LocalBindingPolicy) (c : Config) : Config := set_local_binding (Some (resolve p c)) c.

Record ConfigState := mkState {
  executor_os : Platform;
  config : Config;
  brokerage_created_default_allowlist : bool;
  allow_set : list str;
  deny_set : list str;
  st_mitm : option Mitm;
  st_mitm_hooks : Hooks;
  constraints : NetworkProxyConstraints;
  blocked : list BlockedRequest;
  blocked_total : Z }.

(** ** Building a state ([state.rs]) *)

Inductive BuildError :=
| SocketPath (index : nat)
| BrokerNeedsMitm
| MitmCaNeedsMitm
| ConstraintViolated (e : NetworkProxyConstraintError)
| GlobFailed (e : GlobError)
| HooksFailed
| MitmFailed.

Fixpoint validate_socket_paths (os : Platform) (index : nat) (paths : list str) : result unit BuildError :=
  match paths with
  | [] => Ok tt
  | path :: paths =>
      try? ensure (socket_path_is_absolute os path && negb (contains_char 0%N path)) (SocketPath index) in
      validate_socket_paths os (S index) paths
  end.

Definition validate_unix_socket_allowlist_paths (c : Config) (os : Platform) : result unit BuildError :=
  validate_socket_paths os 0 (allow_unix_sockets c).

(** What building changes in the configuration. *)
Definition settle (c : Config) (cs : NetworkProxyConstraints) : Config * bool :=
  let c := if bool_decide (con_enabled cs = Some false) then set_broker false (mitm c) (credential_broker_enabled_mitm c) c else c in
  let brokerage_created_proxy := credential_broker c && negb (enabled c) in
  let brokerage_created_default_allowlist :=
    brokerage_created_proxy && is_none (allowed_domains c) && is_none (con_allowed_domains cs) in
  let c := if brokerage_created_proxy then set_enabled true c else c in
  let c := if brokerage_created_default_allowlist then set_allowed_domains c [lit "*"] else c in
  (c, brokerage_created_default_allowlist).

Definition build_config_state `{!BuildWorld Hook Hooks Mitm} (c : Config) (cs : NetworkProxyConstraints) (os : Platform)
    : result ConfigState BuildError :=
  let '(c, created) := settle c cs in
  try? validate_unix_socket_allowlist_paths c os in
  try? ensure (negb (credential_broker c) || mitm c) BrokerNeedsMitm in
  try? ensure (is_none (mitm_ca c) || mitm c) MitmCaNeedsMitm in
  let allowed := unwrap_or (allowed_domains c) [] in
  let denied := unwrap_or (denied_domains c) [] in
  try? map_err ConstraintViolated (validate_non_global_wildcard_domain_patterns (lit "network.denied_domains") denied) in
  let? deny := map_err GlobFailed (compile_denylist_globset denied) in
  let? allow := map_err GlobFailed (compile_allowlist_globset allowed) in
  let? hooks := match (if validate_mitm_hook_config hook_valid c then compile_hooks (Mitm:=Mitm) (mitm_hooks c) else None) with
                | Some h => Ok h
                | None => Err HooksFailed
                end in
  let? interception := (if mitm c
                        then match mitm_new (Hook:=Hook) (Hooks:=Hooks) (allow_upstream_proxy c) (mitm_ca c) with
                             | Some m => Ok (Some m)
                             | None => Err MitmFailed
                             end
                        else Ok None) in
  Ok (mkState os c created allow deny interception hooks cs [] 0).

(** ** Whether a host is blocked *)

Definition globset_matches_host_or_unscoped (set : list str) (host : str) : bool :=
  is_match set host || is_some_and (unscoped_ip_literal host) (is_match set).

Definition is_explicit_local_allowlisted (allowed : list str) (host : str) : bool :=
  existsb (fun pattern =>
    let pattern := trim pattern in
    if str_eqb pattern (lit "*") || starts_with (lit "*.") pattern || starts_with (lit "**.") pattern then false
    else if contains_char STAR pattern || contains_char QUESTION pattern then false
    else
      let normalized := normalize_host pattern in
      str_eqb normalized host || is_some_and (unscoped_ip_literal host) (str_eqb normalized)) allowed.

(** [dns]: the addresses the name was resolved to; [None] when the lookup failed
    or timed out. *)
Definition host_resolves_to_non_public_ip (host : str) (dns : option (list IpAddr)) : bool :=
  match parse_ip_addr host with
  | Some ip => is_non_public_ip ip
  | None => match dns with None => true | Some addrs => existsb is_non_public_ip addrs end
  end.

Definition is_local_literal (host : str) : bool :=
  is_loopback_host host
  || match parse_ip_addr (unwrap_or (unscoped_ip_literal host) host) with Some ip => is_non_public_ip ip | None => false end.

(** On the state after reloading. *)
Definition host_blocked_with_local_binding (policy : LocalBindingPolicy) (st : ConfigState) (host : str) (dns : option (list IpAddr))
    (allow_local : option bool) : HostBlockDecision :=
  match host_parse host with
  | None => Blocked NotAllowed
  | Some host =>
      let allow_local := unwrap_or allow_local (resolve policy (config st)) && negb (bool_decide (cfg_allow_local_binding (config st) = Some false)) in
      let allowed := unwrap_or (allowed_domains (config st)) [] in
      if globset_matches_host_or_unscoped (deny_set st) host then Blocked Denied
      else
        let is_allowlisted := globset_matches_host_or_unscoped (allow_set st) host in
        if negb allow_local && (if is_local_literal host then negb (is_explicit_local_allowlisted allowed host)
                                else host_resolves_to_non_public_ip host dns)
        then Blocked NotAllowedLocal
        else if is_none (allowed_domains (config st)) || negb is_allowlisted then Blocked NotAllowed
        else Allowed
  end.

Definition host_blocked (policy : LocalBindingPolicy) (st : ConfigState) (host : str) (dns : option (list IpAddr)) : HostBlockDecision :=
  host_blocked_with_local_binding policy st host dns None.
End Proxy.
Arguments ConfigState : clear implicits.

(** ** Asking a decider ([network_policy.rs]) *)

Inductive NetworkProtocol := Http | HttpsConnect | Socks5Tcp | Socks5Udp.
Inductive NetworkPolicyDecision := PolicyDeny | PolicyAsk.
Inductive NetworkDecisionSource := BaselinePolicy | ModeGuard | ProxyState | Decider.

Definition policy_decision_str (d : NetworkPolicyDecision) : str := match d with PolicyDeny => lit "deny" | PolicyAsk => lit "ask" end.
Definition decision_source_str (s : NetworkDecisionSource) : str :=
  match s with
  | BaselinePolicy => lit "baseline_policy"
  | ModeGuard => lit "mode_guard"
  | ProxyState => lit "proxy_state"
  | Decider => lit "decider"
  end.

Inductive NetworkDecision := NetAllow | NetDeny (reason : str) (source : NetworkDecisionSource) (decision : NetworkPolicyDecision).

Definition deny_with_source (reason : str) (source : NetworkDecisionSource) : NetworkDecision :=
  NetDeny (if is_nil reason then lit "policy_denied" else reason) source PolicyDeny.
Definition ask_with_source (reason : str) (source : NetworkDecisionSource) : NetworkDecision :=
  NetDeny (if is_nil reason then lit "policy_denied" else reason) source PolicyAsk.

(** Connection-level fields of a request (disconnection, cancellation) are left out. *)
Record NetworkPolicyRequest := mkNetRequest {
  nr_protocol : NetworkProtocol;
  nr_host : str;
  nr_port : Z;
  nr_environment_id : option str;
  nr_client_addr : option str;
  nr_method : option str;
  nr_command : option str;
  nr_exec_policy_hint : option str;
  nr_execution_id : option str }.

(** Without its time. *)
Record NetworkPolicyAuditEvent := mkAudit {
  audit_scope : str;
  audit_decision : str;
  audit_source : str;
  audit_reason : str;
  audit_protocol : NetworkProtocol;
  audit_host : str;
  audit_port : Z;
  audit_method : option str;
  audit_client : option str;
  audit_override : bool }.

Definition map_decider_decision (d : NetworkDecision) : NetworkDecision :=
  match d with NetAllow => NetAllow | NetDeny reason _ decision => NetDeny reason Decider decision end.

(** The request as the decider sees it. *)
Definition request_for_decider (environment_id execution_id : option str) (r : NetworkPolicyRequest) : NetworkPolicyRequest :=
  mkNetRequest (nr_protocol r) (nr_host r) (nr_port r)
    (match nr_environment_id r with None => environment_id | some => some end)
    (nr_client_addr r) (nr_method r) (nr_command r) (nr_exec_policy_hint r) execution_id.

(** [host_decision]: the answer of [host_blocked] for the host of the request. *)
Definition evaluate_host_policy (environment_id execution_id : option str) (host_decision : HostBlockDecision)
    (decider : option (NetworkPolicyRequest -> NetworkDecision)) (request : NetworkPolicyRequest) : NetworkDecision * NetworkPolicyAuditEvent :=
  let '(decision, policy_override) :=
    match host_decision with
    | Allowed => (NetAllow, false)
    | Blocked NotAllowed =>
        match decider with
        | Some decide =>
            let d := map_decider_decision (decide (request_for_decider environment_id execution_id request)) in
            (d, match d with NetAllow => true | NetDeny _ _ _ => false end)
        | None => (deny_with_source (block_reason_str NotAllowed) BaselinePolicy, false)
        end
    | Blocked reason => (deny_with_source (block_reason_str reason) BaselinePolicy, false)
    end in
  let '(policy_decision, source, reason) :=
    match decision with
    | NetAllow => (lit "allow", if policy_override then Decider else BaselinePolicy,
                   if policy_override then block_reason_str NotAllowed else lit "allow")
    | NetDeny reason source decision => (policy_decision_str decision, source, reason)
    end in
  (decision,
   mkAudit (lit "domain") policy_decision (decision_source_str source) reason (nr_protocol request) (nr_host request) (nr_port request)
     (nr_method request) (nr_client_addr request) policy_override).

(** ** Before a connection ([connect_policy.rs]) *)

Inductive TargetHost := AddressHost (ip : IpAddr) | NameHost (name : str).

Definition is_localhost_name (name : str) : bool := eq_ignore_ascii_case (trim_dots name) (lit "localhost").

Definition target_matches_non_public_addr (host : TargetHost) (addr : IpAddr) : bool :=
  match host with
  | AddressHost ip => bool_decide (ip = addr)
  | NameHost name => is_localhost_name name && ip_is_loopback addr
  end.

Section Connect.
Context {Hook Rest Hooks Mitm : Type} `{!EqDecision Hook, !EqDecision Rest} {DG : DomainGlobs} {UH : UrlHosts}.
Notation State := (ConfigState Hook Rest Hooks Mitm).
(** Printing of addresses. *)
Variable show_ip : IpAddr -> str.

Definition target_text (host : TargetHost) : str := match host with AddressHost ip => show_ip ip | NameHost name => name end.

(** Each question is asked of the state at that time; [st1] and [st2] may differ. *)
Definition allows_non_public_target (policy : LocalBindingPolicy) (st1 st2 : State) (dns : option (list IpAddr)) (target : TargetHost) (addr : IpAddr) : bool :=
  if resolve policy (config st1) then true
  else if negb (target_matches_non_public_addr target addr) then false
  else bool_decide (host_blocked policy st2 (target_text target) dns = Allowed).

(** Whether a connection to an address is attempted. *)
Definition may_connect (policy : LocalBindingPolicy) (st1 st2 : State) (dns : option (list IpAddr)) (target : TargetHost) (addr : IpAddr) : bool :=
  negb (is_non_public_ip addr && negb (allows_non_public_target policy st1 st2 dns target addr)).
End Connect.

(** ** What is let through *)

Section Through.
Context {Hook Rest Hooks Mitm : Type} `{!EqDecision Hook, !EqDecision Rest} {DG : DomainGlobs} {UH : UrlHosts}.
Notation State := (ConfigState Hook Rest Hooks Mitm).
Implicit Types st : State.

Definition st_allowed st : list str := unwrap_or (allowed_domains (config st)) [].
Definition st_denied st : list str := unwrap_or (denied_domains (config st)) [].

(** The sets of a state are compiled from its lists. *)
Definition compiled st : Prop :=
  compile_denylist_globset (st_denied st) = Ok (deny_set st) /\ compile_allowlist_globset (st_allowed st) = Ok (allow_set st).

(** An entry matches a host, or the host without the scope of its address. *)
Definition entry_matches (e h : str) : Prop :=
  exists c, c ∈ entry_globs e /\ (domain_glob_match c h = true \/ exists ip, unscoped_ip_literal h = Some ip /\ domain_glob_match c ip = true).
Definition listed (l : list str) (h : str) : Prop := exists e, e ∈ l /\ entry_matches e h.

(** An entry without wildcards that names the host itself. *)
Definition names_host (e h : str) : Prop :=
  contains_char STAR (trim e) = false /\ contains_char QUESTION (trim e) = false
  /\ (normalize_host (trim e) = h \/ unscoped_ip_literal h = Some (normalize_host (trim e))).

(** Every address the host leads to is public; a name must have been resolved. *)
Definition leads_to_public (h : str) (dns : option (list IpAddr)) : Prop :=
  match parse_ip_addr h with
  | Some ip => is_non_public_ip ip = false
  | None => exists addrs, dns = Some addrs /\ Forall (fun ip => is_non_public_ip ip = false) addrs
  end.

Lemma globset_listed ps gw set h : compile_globset_with_policy ps gw = Ok set -> globset_matches_host_or_unscoped set h = true <-> listed ps h.
Proof.
  intros Hc. unfold globset_matches_host_or_unscoped, listed, entry_matches. rewrite orb_true_iff, (compiled_match _ _ _ h Hc). split.
  - intros [(e & c & He & Hin & Hm)|Hu]; [naive_solver|]. destruct (unscoped_ip_literal h) as [ip|]; [|done]. simpl in Hu.
    apply (compiled_match _ _ _ ip Hc) in Hu as (e & c & He & Hin & Hm). naive_solver.
  - intros (e & He & c & Hin & [Hm|(ip & Hu & Hm)]); [left; eauto|]. right. rewrite Hu. simpl. apply (compiled_match _ _ _ ip Hc). eauto.
Qed.

Lemma starts_star p s : starts_with (STAR :: p) s = true -> contains_char STAR s = true.
Proof. intros [r ->]%starts_with_spec. done. Qed.

Lemma explicit_named l h : is_explicit_local_allowlisted l h = true <-> exists e, e ∈ l /\ names_host e h.
Proof.
  unfold is_explicit_local_allowlisted, names_host. rewrite existsb_exists. setoid_rewrite <- list_elem_of_In. f_equiv. intros e. f_equiv.
  destruct (contains_char STAR (trim e)) eqn:Es.
  { split; [|naive_solver]. by destruct (_ || _). }
  assert (str_eqb (trim e) (lit "*") || starts_with (lit "*.") (trim e) || starts_with (lit "**.") (trim e) = false) as ->.
  { apply not_true_iff_false. rewrite !orb_true_iff. intros [[H|H]|H].
    - apply str_eqb_spec in H. by rewrite H in Es.
    - by rewrite (starts_star (lit ".")) in Es.
    - by rewrite (starts_star (lit "*.")) in Es. }
  simpl. destruct (contains_char QUESTION (trim e)); [naive_solver|]. rewrite orb_true_iff, str_eqb_spec.
  destruct (unscoped_ip_literal h) as [ip|]; simpl; [|naive_solver]. rewrite str_eqb_spec. naive_solver.
Qed.

Lemma resolves_public h dns : host_resolves_to_non_public_ip h dns = false <-> leads_to_public h dns.
Proof.
  unfold host_resolves_to_non_public_ip, leads_to_public. destruct (parse_ip_addr h); [done|]. destruct dns as [addrs|]; [|naive_solver].
  rewrite <- not_true_iff_false, existsb_exists. setoid_rewrite Forall_forall. setoid_rewrite list_elem_of_In. split.
  - intros H. exists addrs. split; [done|]. intros ip Hip. apply not_true_iff_false. eauto.
  - intros (l & [= <-] & H) (ip & Hin & Hp). by rewrite H in Hp.
Qed.

Lemma effective_local policy st :
  resolve policy (config st) && negb (bool_decide (cfg_allow_local_binding (config st) = Some false)) = resolve policy (config st).
Proof. unfold resolve. destruct (cfg_allow_local_binding (config st)) as [[]|]; simpl; rewrite ?andb_true_r; done. Qed.

Lemma has_allowed st h : listed (st_allowed st) h -> is_none (allowed_domains (config st)) = false.
Proof. unfold listed, st_allowed. destruct (allowed_domains (config st)); [done|]. intros (e & He & _). by apply elem_of_nil in He. Qed.

(** A host is let through exactly when some allowed entry and no denied entry
    matches it, and, where local addresses are not allowed, either it is a local
    address or name that an entry without wildcards names, or every address it
    leads to is public; a name that cannot be resolved is not. *)
Lemma host_allowed_iff policy st host dns : compiled st ->
  host_blocked policy st host dns = Allowed <->
  exists h, host_parse host = Some h /\ ~ listed (st_denied st) h /\ listed (st_allowed st) h
    /\ (resolve policy (config st) = false ->
        if is_local_literal h then exists e, e ∈ st_allowed st /\ names_host e h else leads_to_public h dns).
Proof.
  intros [Hd Ha]. unfold host_blocked, host_blocked_with_local_binding. simpl unwrap_or at 1. rewrite effective_local.
  destruct (host_parse host) as [h|]; [|naive_solver]. fold (st_allowed st).
  pose proof (globset_listed _ _ _ h Hd) as Hld. pose proof (globset_listed _ _ _ h Ha) as Hla.
  pose proof (has_allowed st h) as Hn. rewrite <- Hla in Hn. pose proof (explicit_named (st_allowed st) h) as He. pose proof (resolves_public h dns) as Hr.
  assert (forall P : str -> Prop, (exists h', Some h = Some h' /\ P h') <-> P h) as -> by (intros P; split; [by intros (? & [= <-] & ?)|eauto]).
  destruct (is_local_literal h); rewrite <- Hld, <- Hla, <- ?He, <- ?Hr; clear Hld Hla He Hr;
    destruct (globset_matches_host_or_unscoped (deny_set st) h); try naive_solver;
    (destruct (globset_matches_host_or_unscoped (allow_set st) h);
     [rewrite Hn by done; simpl|rewrite orb_true_r; split; [by destruct (negb _ && _)|naive_solver]]);
    destruct (resolve policy (config st)); simpl; try naive_solver.
  - destruct (is_explicit_local_allowlisted _ _); naive_solver.
  - destruct (host_resolves_to_non_public_ip h dns); naive_solver.
Qed.
End Through.

Section Bounds.
Context {Hook Rest Hooks Mitm : Type} `{!EqDecision Hook, !EqDecision Rest, !BuildWorld Hook Hooks Mitm} {DG : DomainGlobs} {UH : UrlHosts}.
Notation State := (ConfigState Hook Rest Hooks Mitm).
Notation Config := (NetworkProxyConfig Hook Rest).
Variable hook_valid : Hook -> bool.
Implicit Types (st : State) (c : Config).

Lemma map_err_ok {A E F} (f : E -> F) (r : result A E) x : map_err f r = Ok x <-> r = Ok x.
Proof. destruct r; naive_solver. Qed.

(** What a built state is. *)
Lemma built_state c cs os st : build_config_state hook_valid c cs os = Ok st ->
  compiled st /\ config st = fst (settle c cs) /\ constraints st = cs /\ executor_os st = os /\ no_global_wildcard (st_denied st)
  /\ validate_mitm_hook_config hook_valid (config st) = true.
Proof.
  unfold build_config_state, validate_non_global_wildcard_domain_patterns. destruct (settle c cs) as [c' created].
  rewrite !try_ok, map_err_ok, !ensure_ok, negb_true_iff. intros (_ & _ & _ & Hw & H).
  apply result_bind_ok in H as (deny & Hd & H). apply result_bind_ok in H as (allow & Ha & H). apply result_bind_ok in H as (hooks & Hh & H).
  apply result_bind_ok in H as (m & Hm & [= <-]). apply map_err_ok in Hd, Ha. split_and!; try done. simpl.
  by destruct (validate_mitm_hook_config hook_valid c').
Qed.

(** C13. Which hosts the built proxy lets through: those that an allowed entry and no
    denied entry matches, and that do not lead to an address that is not public,
    unless local addresses are allowed or an entry without wildcards names the
    local address or name itself.  A name that cannot be resolved is blocked. *)
Theorem allowed_host_is_safe (c : Config) (cs : NetworkProxyConstraints) (os : Platform) (st : State) (policy : LocalBindingPolicy)
    (host : str) (dns : option (list IpAddr)) :
  build_config_state hook_valid c cs os = Ok st ->
  host_blocked policy st host dns = Allowed <->
  exists h, host_parse host = Some h /\ ~ listed (st_denied st) h /\ listed (st_allowed st) h
    /\ (resolve policy (config st) = false ->
        if is_local_literal h then exists e, e ∈ st_allowed st /\ names_host e h else leads_to_public h dns).
Proof. intros (Hc & _)%built_state. by apply host_allowed_iff. Qed.

(** *** Under an administrator's allow list *)

Context {DGL : DomainGlobLaws DG}.

Lemma strip_prefix_lowercase p s : Forall (fun x => (x < 65)%N) p ->
  strip_prefix p (to_ascii_lowercase s) = option_map to_ascii_lowercase (strip_prefix p s).
Proof.
  intros Hp. revert s. induction Hp as [|x p Hx Hp IH]; intros [|y s]; simpl; try done. rewrite lower_low_char by done.
  destruct (N.eqb x y); [apply IH|done].
Qed.

Lemma wild_of_lower e : wild_of (to_ascii_lowercase e) = (fst (wild_of e), to_ascii_lowercase (snd (wild_of e))).
Proof.
  unfold wild_of. rewrite !strip_prefix_lowercase by repeat constructor.
  destruct (strip_prefix (lit "**.") e); [done|]. by destruct (strip_prefix (lit "*.") e).
Qed.

Lemma same_lower_same_globs e m : plain_entry e -> plain_entry m -> to_ascii_lowercase e = to_ascii_lowercase m ->
  fst (wild_of e) = fst (wild_of m) /\ normalize_domain (snd (wild_of e)) = normalize_domain (snd (wild_of m)).
Proof.
  intros He Hm H. pose proof (wild_of_lower e) as H1. pose proof (wild_of_lower m) as H2. rewrite H, H2 in H1. injection H1 as -> Hd.
  split; [done|]. unfold normalize_domain. by rewrite <- !trim_dots_lower, Hd.
Qed.

Lemma lower_all_elem l x : mem_str (lower_all l) x = true <-> exists y, y ∈ l /\ to_ascii_lowercase y = x.
Proof. rewrite mem_str_spec, list_elem_of_In. unfold lower_all. rewrite in_map_iff. setoid_rewrite list_elem_of_In. naive_solver. Qed.

(** An entry that is a managed one up to case matches what it covers. *)
Lemma same_entry_is_covered m e x h : plain_entry m -> no_meta (snd (wild_of m)) -> plain_entry e ->
  to_ascii_lowercase e = to_ascii_lowercase m -> x ∈ entry_globs e -> domain_glob_ok x = true -> domain_glob_match x h = true ->
  pattern_covers (pattern_parse m) h.
Proof.
  intros Hm Hmm He E Hx Hok Hmatch. destruct (same_lower_same_globs e m He Hm E) as [Ew Ed]. unfold entry_globs in Hx.
  rewrite expand_plain, Ew, Ed in Hx by done. rewrite pattern_parse_plain by done. pose proof (no_meta_normalize_domain _ Hmm) as Hn.
  assert (forall y, y = normalize_domain (snd (wild_of m)) -> domain_glob_match y h = true -> to_ascii_lowercase h = normalize_domain (snd (wild_of m))) as Hlit.
  { intros y -> Hy. rewrite glob_literal in Hy by done. by apply lower_eq_normalized. }
  assert (forall y, y = lit "?*." ++ normalize_domain (snd (wild_of m)) -> domain_glob_ok y = true -> domain_glob_match y h = true ->
    below h (normalize_domain (snd (wild_of m)))) as Hsub.
  { intros y -> Hy1 Hy2. by apply (glob_suffix (lit "?*") _ h Hn). }
  destruct (fst (wild_of m)); simpl in *; set_unfold in Hx; naive_solver.
Qed.

(** Entries whose reading is unambiguous, in a user's list and in a managed list. *)
Definition clear_entry (e : str) : Prop := plain_entry e /\ faithful_entry e.
Definition clear_managed (m : str) : Prop := clear_entry m /\ no_meta (snd (wild_of m)).

(** C14. Under a managed allow list that may not be extended, whatever the user's
    lists say: a host without a scope that is let through is covered by a managed
    entry.  The entries of both lists are read alike by the validation and by the
    matching ([clear_entry]; [port_hides_entry] is one that is not), and a managed one
    has no glob characters besides its leading wildcard ([clear_managed]). *)
Theorem managed_allowlist_bounds_hosts (c : Config) (cs : NetworkProxyConstraints) (os : Platform) (st : State) (policy : LocalBindingPolicy)
    (managed : list str) (host h : str) (dns : option (list IpAddr)) :
  build_config_state hook_valid c cs os = Ok st -> fits hook_valid (config st) cs ->
  con_allowed_domains cs = Some managed -> allowlist_expansion_enabled cs <> Some true ->
  Forall clear_managed managed -> Forall clear_entry (st_allowed st) ->
  host_blocked policy st host dns = Allowed -> host_parse host = Some h -> unscoped_ip_literal h = None ->
  exists m, m ∈ managed /\ pattern_covers (pattern_parse m) h.
Proof.
  intros (Hc & _ & _)%built_state Hf Hm Hexp Hman Hent Hall Hh Hu. apply host_allowed_iff in Hall as (h' & Hh' & _ & Hl & _); [|done].
  simplify_eq. destruct Hl as (e & He & x & Hx & [Hmatch|(ip & Hip & _)]); [|congruence].
  destruct Hc as [_ Ha]. pose proof (compile_globset_spec _ _ _ Ha) as [Hset Hok].
  assert (domain_glob_ok x = true) as Hxok by (unfold globs_ok in Hok; rewrite Forall_forall in Hok; apply Hok, Hset; eauto).
  destruct (fits_allowed _ _ _ Hf _ Hm) as [_ Hfit]. fold (st_allowed st) in Hfit. unfold allowed_domains_fit in Hfit.
  rewrite Forall_forall in Hman, Hent. destruct (Hent _ He) as [Hep Hef].
  destruct (allowlist_expansion_enabled cs) as [[]|]; [done| |].
  - apply andb_true_iff in Hfit as [Hsub _]. unfold subset in Hsub. rewrite forallb_forall in Hsub.
    assert (to_ascii_lowercase e ∈ lower_all managed) as Hin.
    { specialize (Hsub (to_ascii_lowercase e)). rewrite mem_str_spec in Hsub.
      apply list_elem_of_In. assert (In (to_ascii_lowercase e) (lower_all (st_allowed st))) as H by (by apply in_map, list_elem_of_In).
      apply Hsub, list_elem_of_In, filter_In in H. tauto. }
    apply mem_str_spec, lower_all_elem in Hin as (m & Hmin & Em). destruct (Hman _ Hmin) as [[Hmp Hmf] Hmm]. exists m. split; [done|].
    by apply (same_entry_is_covered m e x h').
  - rewrite forallb_forall in Hfit. apply list_elem_of_In, Hfit, existsb_exists in He as (m & Hmin%list_elem_of_In & Hal).
    destruct (Hman _ Hmin) as [[Hmp Hmf] Hmm]. exists m. split; [done|]. by apply (allowed_pattern_is_covered m e x h').
Qed.
End Bounds.

Section Asking.
Context {Hook Rest Hooks Mitm : Type} `{!EqDecision Hook, !EqDecision Rest, !BuildWorld Hook Hooks Mitm} {DG : DomainGlobs} {UH : UrlHosts}.
Notation State := (ConfigState Hook Rest Hooks Mitm).
Notation Config := (NetworkProxyConfig Hook Rest).
Variable hook_valid : Hook -> bool.
Implicit Types (st : State) (c : Config).

(** The guard against local addresses, passed. *)
Definition guarded policy st (h : str) (dns : option (list IpAddr)) : Prop :=
  resolve policy (config st) = false ->
  if is_local_literal h then exists e, e ∈ st_allowed st /\ names_host e h else leads_to_public h dns.

Lemma passes_guards policy st host h dns : compiled st -> host_parse host = Some h ->
  host_blocked policy st host dns <> Blocked Denied -> host_blocked policy st host dns <> Blocked NotAllowedLocal ->
  ~ listed (st_denied st) h /\ guarded policy st h dns.
Proof.
  intros [Hd _] Hh. unfold host_blocked, host_blocked_with_local_binding, guarded. simpl unwrap_or at 1 2. rewrite Hh, effective_local.
  fold (st_allowed st). rewrite <- (globset_listed _ _ _ h Hd). destruct (globset_matches_host_or_unscoped (deny_set st) h); [done|].
  intros _ Hl. split; [done|]. intros Hr. rewrite Hr in Hl. simpl in Hl. destruct (is_local_literal h).
  - apply explicit_named. by destruct (is_explicit_local_allowlisted (st_allowed st) h).
  - apply resolves_public. by destruct (host_resolves_to_non_public_ip h dns).
Qed.

(** C17. Asking a decider can let through hosts that no list mentions, and nothing
    else: whatever it answers, a request that is allowed is for a host that is not
    denied and that passed the guard against local addresses; either an entry
    allows the host or the decider did; and the audit event says which. *)
Theorem decider_only_widens (c : Config) (cs : NetworkProxyConstraints) (os : Platform) (st : State) (policy : LocalBindingPolicy)
    (environment_id execution_id : option str) (decider : option (NetworkPolicyRequest -> NetworkDecision)) (request : NetworkPolicyRequest)
    (dns : option (list IpAddr)) (h : str) :
  build_config_state hook_valid c cs os = Ok st -> host_parse (nr_host request) = Some h ->
  let '(decision, event) :=
    evaluate_host_policy environment_id execution_id (host_blocked policy st (nr_host request) dns) decider request in
  (decision = NetAllow ->
     ~ listed (st_denied st) h /\ guarded policy st h dns
     /\ (if audit_override event
         then exists decide, decider = Some decide /\ decide (request_for_decider environment_id execution_id request) = NetAllow
         else listed (st_allowed st) h))
  /\ (audit_decision event = lit "allow" <-> decision = NetAllow).
Proof.
  intros (Hc & _)%built_state Hh. pose proof (passes_guards policy st _ h dns Hc Hh) as Hg. pose proof (host_allowed_iff policy st (nr_host request) dns Hc) as Ha.
  unfold evaluate_host_policy. destruct (host_blocked policy st (nr_host request) dns) as [|[| |]] eqn:Eb; simpl.
  - split; [|done]. intros _. destruct Hg as [? ?]; [done..|]. destruct Ha as [Ha _]. destruct (Ha eq_refl) as (h' & Hh' & _ & Hl & _). by simplify_eq.
  - split; [done|]. by split; [vm_compute|].
  - destruct decider as [decide|]; simpl; [|by split; [|split; [vm_compute|]]].
    destruct (decide (request_for_decider environment_id execution_id request)) as [|reason src [|]] eqn:Ed; simpl.
    + split; [|done]. intros _. destruct Hg as [? ?]; [done..|]. split_and!; [done|done|]. by exists decide.
    + split; [done|]. by split; [vm_compute|].
    + split; [done|]. by split; [vm_compute|].
  - split; [done|]. by split; [vm_compute|].
Qed.

Variable show_ip : IpAddr -> str.

Lemma unscoped_none s : is_some (parse_ip_addr s) = true -> unscoped_ip_literal s = None.
Proof.
  unfold is_some. destruct (parse_ip_addr s) as [ip|] eqn:E; [intros _|done]. apply parse_ip_addr_chars in E. unfold unscoped_ip_literal.
  destruct (split_once PERCENT s) as [[a b]|] eqn:Es; [|done]. apply split_once_Some in Es as [-> _].
  apply Forall_app in E as [_ E]. by apply Forall_cons in E as [E _].
Qed.

(** The host a connection is for. *)
Lemma localhost_parse name : is_localhost_name name = true -> host_parse name = Some (lit "localhost").
Proof.
  unfold is_localhost_name, eq_ignore_ascii_case. intros E%str_eqb_spec. change (to_ascii_lowercase (lit "localhost")) with (lit "localhost") in E.
  assert (plain name) as Hp.
  { assert (Forall (fun x => plain_char x = true) (trim_dots name)) as H1.
    { apply Forall_forall. intros x Hx. assert (ascii_lower x ∈ lit "localhost") as Hl
        by (rewrite <- E; apply list_elem_of_In, in_map; by apply list_elem_of_In).
      rewrite <- (lower_char_test plain_char x) by reflexivity. revert Hl. generalize (ascii_lower x). intros y Hy.
      assert (Forall (fun y => plain_char y = true) (lit "localhost")) as H by (repeat constructor). rewrite Forall_forall in H. auto. }
    destruct (drop_while_end_prefix (N.eqb DOT) name) as (suf & Es & Hs). fold (trim_dots name) in Es. unfold plain. rewrite Es. apply Forall_app. split; [done|].
    eapply Forall_impl; [exact Hs|]. intros x Hx. apply N.eqb_eq in Hx as <-. reflexivity. }
  unfold host_parse. rewrite normalize_host_plain by done. unfold normalize_domain. by rewrite E.
Qed.

(** No connection is attempted to an address that is not public, unless local
    addresses are allowed, or it is the address (or, for a loopback address, the
    name [localhost]) the request asked for and an entry without wildcards names
    that. *)
Theorem connections_stay_public (policy : LocalBindingPolicy) (st1 st2 : State) (dns : option (list IpAddr)) (target : TargetHost) (addr : IpAddr) :
  compiled st2 ->
  (forall ip, target = AddressHost ip -> host_parse (show_ip ip) = Some (show_ip ip) /\ parse_ip_addr (show_ip ip) = Some ip) ->
  may_connect show_ip policy st1 st2 dns target addr = true -> is_non_public_ip addr = true ->
  resolve policy (config st1) = true \/ resolve policy (config st2) = true
  \/ exists h e, e ∈ st_allowed st2 /\ names_host e h
     /\ ((target = AddressHost addr /\ h = show_ip addr) \/ (ip_is_loopback addr = true /\ h = lit "localhost")).
Proof.
  intros Hc Hshow Hmay Hnp. unfold may_connect in Hmay. rewrite Hnp in Hmay. simpl in Hmay. rewrite negb_involutive in Hmay.
  unfold allows_non_public_target in Hmay. destruct (resolve policy (config st1)); [by left|]. right.
  destruct (resolve policy (config st2)) eqn:Er; [by left|]. right.
  destruct (target_matches_non_public_addr target addr) eqn:Et; [|done]. simpl in Hmay. apply bool_decide_eq_true in Hmay.
  apply host_allowed_iff in Hmay as (h & Hh & _ & _ & Hg); [|done]. specialize (Hg Er).
  assert (is_local_literal h = true /\ ((target = AddressHost addr /\ h = show_ip addr) \/ (ip_is_loopback addr = true /\ h = lit "localhost"))) as [Hloc Hcase].
  { destruct target as [ip|name]; simpl in *.
    - apply bool_decide_eq_true in Et as ->. destruct (Hshow addr eq_refl) as [Hp Hi]. rewrite Hp in Hh. injection Hh as <-. split; [|by left].
      unfold is_local_literal. rewrite (unscoped_none (show_ip addr)) by (by rewrite Hi). simpl. rewrite Hi, Hnp. by rewrite orb_true_r.
    - apply andb_true_iff in Et as [En El]. rewrite (localhost_parse name En) in Hh. injection Hh as <-. by split; [|right]. }
  rewrite Hloc in Hg. destruct Hg as (e & He & Hn). by exists h, e.
Qed.
End Asking.

(** ** Samples *)

#[export] Instance no_hooks : BuildWorld unit unit unit := { compile_hooks _ := Some tt; mitm_new _ _ := Some tt }.

Definition sample_config (allowed denied : list string) : NetworkProxyConfig unit unit :=
  mkProxyConfig true false false None Full
    (Some (List.map (fun p => mkDomainEntry (lit p) AllowDomain) allowed ++ List.map (fun p => mkDomainEntry (lit p) DenyDomain) denied))
    None None false None false false [] tt.

Definition no_constraints : NetworkProxyConstraints := mkConstraints None None None None None None None None None None None.
Definition managed_allowlist (l : list string) : NetworkProxyConstraints :=
  mkConstraints None None None None None (Some (List.map lit l)) None None None None None.

Definition sample_state (c : NetworkProxyConfig unit unit) (cs : NetworkProxyConstraints) (allow deny : list string) : ConfigState unit unit unit unit :=
  mkState PlatformLinux c false (List.map lit allow) (List.map lit deny) None tt cs [] 0.

Definition web_config := sample_config ["*.example.com"; "10.0.0.7"] ["bad.example.com"].
Definition web_state := sample_state web_config (managed_allowlist ["**.example.com"; "10.0.0.7"]) ["?*.example.com"; "10.0.0.7"] ["bad.example.com"].
Definition public_dns : option (list IpAddr) := Some [V4 (mkV4 93 184 216 34)].

Example sample_decisions :
  List.map (fun '(h, dns) => host_blocked DefaultFalse web_state (lit h) dns)
    [("www.example.com", public_dns); ("BAD.example.com.", public_dns); ("www.example.com", Some [V4 (mkV4 10 0 0 1)]); ("www.example.com", None);
     ("10.0.0.7:80", None); ("10.0.0.8", None); ("example.org", public_dns)]
  = [Allowed; Blocked Denied; Blocked NotAllowedLocal; Blocked NotAllowedLocal; Allowed; Blocked NotAllowedLocal; Blocked NotAllowed].
Proof. vm_compute. reflexivity. Qed.

Definition web_managed := managed_allowlist ["**.example.com"; "10.0.0.7"].

Lemma web_built : build_config_state (fun _ => true) web_config web_managed PlatformLinux = Ok web_state.
Proof. vm_compute. reflexivity. Qed.

Lemma allowed_host_is_safe_witness :
  host_blocked DefaultFalse web_state (lit "10.0.0.7:80") None = Allowed
  /\ exists h, host_parse (lit "10.0.0.7:80") = Some h /\ listed (st_allowed web_state) h.
Proof.
  split; [vm_compute; reflexivity|].
  destruct (proj1 (allowed_host_is_safe (fun _ => true) web_config web_managed PlatformLinux web_state
    DefaultFalse (lit "10.0.0.7:80") None web_built)) as (h & Hh & _ & Hl & _).
  - vm_compute. reflexivity.
  - exists h. split; [exact Hh|exact Hl].
Defined.

Ltac clear_entries :=
  repeat (apply Forall_cons_2 || apply Forall_nil_2);
  repeat split; try (apply entry_ok_plain; vm_compute; reflexivity);
  try (right; eexists; split; vm_compute; reflexivity); try (repeat constructor; fail).

Lemma managed_allowlist_bounds_hosts_witness :
  exists m, m ∈ [lit "**.example.com"; lit "10.0.0.7"] /\ pattern_covers (pattern_parse m) (lit "www.example.com").
Proof.
  apply (managed_allowlist_bounds_hosts (fun _ => true) web_config web_managed PlatformLinux web_state
    DefaultFalse [lit "**.example.com"; lit "10.0.0.7"] (lit "www.example.com") (lit "www.example.com") public_dns).
  - vm_compute. reflexivity.
  - apply validate_fits. vm_compute. reflexivity.
  - reflexivity.
  - discriminate.
  - clear_entries.
  - assert (st_allowed web_state = [lit "*.example.com"; lit "10.0.0.7"]) as -> by (vm_compute; reflexivity). clear_entries.
  - vm_compute. reflexivity.
  - vm_compute. reflexivity.
  - vm_compute. reflexivity.
Defined.

Definition sample_request : NetworkPolicyRequest := mkNetRequest Http (lit "example.org") 80 None None None None None None.

Lemma decider_only_widens_witness :
  let '(decision, event) :=
    evaluate_host_policy None None (host_blocked DefaultFalse web_state (lit "example.org") public_dns) (Some (fun _ => NetAllow)) sample_request in
  decision = NetAllow /\ audit_override event = true /\ guarded DefaultFalse web_state (lit "example.org") public_dns.
Proof.
  pose proof (decider_only_widens (fun _ => true) web_config web_managed PlatformLinux web_state
    DefaultFalse None None (Some (fun _ => NetAllow)) sample_request public_dns (lit "example.org") web_built eq_refl) as H.
  change (nr_host sample_request) with (lit "example.org") in H.
  destruct (evaluate_host_policy _ _ _ _ _) as [d ev] eqn:E. vm_compute in E. injection E as <- <-.
  split; [reflexivity|]. split; [reflexivity|]. apply H. reflexivity.
Defined.

Lemma connections_stay_public_witness :
  exists h e, e ∈ st_allowed web_state /\ names_host e h /\ h = lit "10.0.0.7".
Proof.
  destruct (connections_stay_public (fun _ => lit "10.0.0.7") DefaultFalse web_state web_state None
    (AddressHost (V4 (mkV4 10 0 0 7))) (V4 (mkV4 10 0 0 7))) as [H|[H|(h & e & He & Hn & [[_ ->]|[Hl _]])]].
  - split; vm_compute; reflexivity.
  - intros ip [= <-]. split; vm_compute; reflexivity.
  - vm_compute. reflexivity.
  - vm_compute. reflexivity.
  - vm_compute in H. discriminate H.
  - vm_compute in H. discriminate H.
  - exists (lit "10.0.0.7"), e. split; [exact He|]. split; [exact Hn|reflexivity].
  - vm_compute in Hl. discriminate Hl.
Defined.

(** An entry with a port and a wildcard after it.  The constraint check sees a
    name below the managed domain; the matcher drops everything from the colon on,
    and the proxy lets a host through that the administrator did not allow. *)
Example port_hides_entry :
  let c := sample_config ["evil.org:?.example.com"] [] in
  let cs := managed_allowlist ["*.example.com"] in
  validate_policy_against_constraints (fun _ => true) c cs = Ok tt
  /\ exists st, build_config_state (fun _ => true) c cs PlatformLinux = Ok st
     /\ host_blocked DefaultFalse st (lit "evil.org") public_dns = Allowed.
Proof.
  split; [vm_compute; reflexivity|]. eexists. split; [vm_compute; reflexivity|]. vm_compute. reflexivity.
Qed.
