(* ===== verification/NetUpdate.v ===== *)
(** * Concurrent updates of the network proxy ([network-proxy/src/runtime.rs])

    Tasks add domains to the lists or change the mode.  Each works on a copy of
    the configuration, validates and compiles it without holding the lock, and
    writes it back only if the state is still the one it read; otherwise it starts
    over.  Meanwhile the configuration is reloaded or replaced, and blocked
    requests are recorded and drained.

    [NetworkProxyState] is the shared [ConfigState]; a task is an operation with
    the phase it is in; [step] is one access to the shared state.  Reloads, which
    every operation starts with, may happen at any time.

    The theorems: the configuration in force always satisfies the constraints in
    force ([constraints_always_hold]); the configuration is what the committed
    updates and reloads give one after the other, in the order of their writes
    ([updates_are_linear]); a host whose denial was committed is blocked
    ([added_denial_blocks]).  Two defects: requests recorded while an update is
    under way are forgotten ([recorded_request_lost]), and a forced reload sets the
    total back ([forced_reload_resets_total]). *)

From stdpp Require Import base list numbers option strings sets relations.
From Stdlib Require Import ZArith Lia.
From S2P Require Import Prelude RustStr RustInt RustNet NetPolicy NetConfig NetProxy.

Definition MAX_BLOCKED_EVENTS : nat := 200.

Inductive DomainListKind := AllowKind | DenyKind.

Definition kind_permission (k : DomainListKind) : NetworkDomainPermission :=
  match k with AllowKind => AllowDomain | DenyKind => DenyDomain end.

Inductive UpdateError := InvalidHost | ReloadFailed | ConstrainedByManagedConfig (e : NetworkProxyConstraintError) | CompileFailed (e : BuildError).

Inductive Op := AddDomain (kind : DomainListKind) (host : str) | SetMode (m : NetworkMode).

Section Update.
Context {Hook Rest Hooks Mitm : Type} `{!EqDecision Hook, !EqDecision Rest} {DG : DomainGlobs} {UH : UrlHosts}.
Notation State := (ConfigState Hook Rest Hooks Mitm).
Notation Config := (NetworkProxyConfig Hook Rest).
Variable hook_valid : Hook -> bool.
Variable policy : LocalBindingPolicy.

Definition set_blocked (l : list BlockedRequest) (total : Z) (st : State) : State :=
  mkState (executor_os st) (config st) (brokerage_created_default_allowlist st) (allow_set st) (deny_set st) (st_mitm st) (st_mitm_hooks st)
    (constraints st) l total.

Definition set_config (c : Config) (st : State) : State :=
  mkState (executor_os st) c (brokerage_created_default_allowlist st) (allow_set st) (deny_set st) (st_mitm st) (st_mitm_hooks st)
    (constraints st) (blocked st) (blocked_total st).

(** [reload_if_needed] and [replace_config_state], with the new state. *)
Definition reload (new st : State) : State := set_blocked (blocked st) (blocked_total st) new.

(** [force_reload] when loading succeeds. *)
Definition force_reload (new st : State) : State := set_blocked (blocked st) (blocked_total new) new.

Definition set_execution_id (id : option str) (e : BlockedRequest) : BlockedRequest :=
  mkBlocked (bl_host e) (bl_reason e) (bl_client e) (bl_method e) (bl_mode e) (bl_protocol e) id (bl_decision e) (bl_source e) (bl_port e) (bl_timestamp e).

Definition record_blocked (execution_id : option str) (entry : BlockedRequest) (st : State) : State :=
  let l := blocked st ++ [set_execution_id execution_id entry] in
  set_blocked (drop (length l - MAX_BLOCKED_EVENTS) l) (Z.min u64_max (blocked_total st + 1)) st.

Definition drain_blocked (st : State) : State * list BlockedRequest := (set_blocked [] (blocked_total st) st, blocked st).

Definition kind_entries (k : DomainListKind) (c : Config) : list str :=
  unwrap_or (match k with AllowKind => allowed_domains c | DenyKind => denied_domains c end) [].
Definition opposite_entries (k : DomainListKind) (c : Config) : list str :=
  kind_entries (match k with AllowKind => DenyKind | DenyKind => AllowKind end) c.

(** From the copy to the state to write; [None] when nothing is to be done. *)
Definition prepare_update `{!BuildWorld Hook Hooks Mitm} (kind : DomainListKind) (normalized_host : str) (st : State) : result (option State) UpdateError :=
  let candidate := config st in
  let target_contains := existsb (fun e => str_eqb (normalize_host e) normalized_host) (kind_entries kind candidate) in
  let opposite_contains := existsb (fun e => str_eqb (normalize_host e) normalized_host) (opposite_entries kind candidate) in
  if target_contains && negb opposite_contains then Ok None
  else
    let candidate := upsert_domain_permission candidate normalized_host (kind_permission kind) normalize_host in
    try? map_err ConstrainedByManagedConfig (validate_policy_against_constraints hook_valid (resolved_config policy candidate) (constraints st)) in
    let? new := map_err CompileFailed (build_config_state hook_valid candidate (constraints st) (executor_os st)) in
    Ok (Some (set_blocked (blocked st) (blocked_total st) new)).

(** Whether the state read is still in force. *)
Definition unchanged (read st : State) : bool :=
  bool_decide (constraints st = constraints read) && bool_decide (config st = config read) && bool_decide (executor_os st = executor_os read).

Inductive Phase :=
| Start
| UpdatePending (read new : State)
| ModePending (cs : NetworkProxyConstraints)
| Finished (r : result unit UpdateError).

(** What a step does to the configuration. *)
Inductive Label := Tau | Committed (op : Op) | Reloaded (new : State).

(** One access of a task that adds a domain. *)
Definition update_domain_list `{!BuildWorld Hook Hooks Mitm} (kind : DomainListKind) (host : str) (ph : Phase) (st : State) : State * Phase * Label :=
  match ph with
  | Start =>
      match host_parse host with
      | None => (st, Finished (Err InvalidHost), Tau)
      | Some h =>
          match prepare_update kind h st with
          | Err e => (st, Finished (Err e), Tau)
          | Ok None => (st, Finished (Ok tt), Tau)
          | Ok (Some new) => (st, UpdatePending st new, Tau)
          end
      end
  | UpdatePending read new =>
      if unchanged read st then (new, Finished (Ok tt), Committed (AddDomain kind host)) else (st, Start, Tau)
  | _ => (st, ph, Tau)
  end.

(** One access of a task that sets the mode. *)
Definition set_network_mode (m : NetworkMode) (ph : Phase) (st : State) : State * Phase * Label :=
  match ph with
  | Start =>
      match validate_policy_against_constraints hook_valid (resolved_config policy (set_mode m (config st))) (constraints st) with
      | Err e => (st, Finished (Err (ConstrainedByManagedConfig e)), Tau)
      | Ok _ => (st, ModePending (constraints st), Tau)
      end
  | ModePending cs =>
      if bool_decide (constraints st = cs) then (set_config (set_mode m (config st)) st, Finished (Ok tt), Committed (SetMode m)) else (st, Start, Tau)
  | _ => (st, ph, Tau)
  end.

Definition task_step `{!BuildWorld Hook Hooks Mitm} (op : Op) : Phase -> State -> State * Phase * Label :=
  match op with AddDomain kind host => update_domain_list kind host | SetMode m => set_network_mode m end.

(** Building preserves these configurations. *)
Definition settled (c : Config) (cs : NetworkProxyConstraints) : Prop :=
  (con_enabled cs = Some false -> credential_broker c = false) /\ (credential_broker c = true -> enabled c = true).

(** The state is compiled from its configuration, which satisfies its constraints. *)
Record healthy (st : State) : Prop := {
  healthy_compiled : compiled st;
  healthy_settled : settled (config st) (constraints st);
  healthy_fits : fits hook_valid (resolved_config policy (config st)) (constraints st) }.

Definition System : Type := State * list (Op * Phase).

(** States that are loaded are built and validated. *)
Inductive step : System -> Label -> System -> Prop :=
| step_reload st ts new : healthy new -> step (st, ts) (Reloaded new) (reload new st, ts)
| step_force_reload st ts new : healthy new -> step (st, ts) (Reloaded new) (force_reload new st, ts)
| step_record st ts id entry : step (st, ts) Tau (record_blocked id entry st, ts)
| step_drain st ts : step (st, ts) Tau (fst (drain_blocked st), ts)
| step_reload_error st before op after : step (st, before ++ (op, Start) :: after) Tau (st, before ++ (op, Finished (Err ReloadFailed)) :: after)
| step_task (bw : BuildWorld Hook Hooks Mitm) st before op ph after st' ph' label :
    task_step op ph st = (st', ph', label) -> step (st, before ++ (op, ph) :: after) label (st', before ++ (op, ph') :: after).

Inductive steps : System -> list Label -> System -> Prop :=
| steps_refl s : steps s [] s
| steps_snoc s ls s' l s'' : steps s ls s' -> step s' l s'' -> steps s (ls ++ [l]) s''.

(** The same on configurations alone, one operation after the other. *)
Definition apply_op (op : Op) (c : Config) : Config :=
  match op with
  | AddDomain kind host =>
      match host_parse host with
      | Some h => upsert_domain_permission c h (kind_permission kind) normalize_host
      | None => c
      end
  | SetMode m => set_mode m c
  end.
Definition apply_label (c : Config) (l : Label) : Config :=
  match l with Tau => c | Committed op => apply_op op c | Reloaded new => config new end.
End Update.

(** ** The invariant *)

Section Invariant.
Context {Hook Rest Hooks Mitm : Type} `{!EqDecision Hook, !EqDecision Rest} {DG : DomainGlobs} {UH : UrlHosts}.
Notation State := (ConfigState Hook Rest Hooks Mitm).
Notation Config := (NetworkProxyConfig Hook Rest).
Variable hook_valid : Hook -> bool.
Variable policy : LocalBindingPolicy.
Implicit Types (st : State) (c : Config).
Notation healthy := (healthy hook_valid policy).
Notation step := (step hook_valid policy).
Notation steps := (steps hook_valid policy).

Lemma settle_settled c cs : settled c cs -> settle c cs = (c, false).
Proof.
  intros [H1 H2]. unfold settle. destruct (bool_decide_reflect (con_enabled cs = Some false)) as [E|E].
  - specialize (H1 E). destruct c; simpl in *. subst. reflexivity.
  - destruct (credential_broker c); [|done]. by rewrite H2.
Qed.

Lemma settled_apply_op op c cs : settled c cs -> settled (apply_op op c) cs.
Proof. destruct op as [k host|m]; simpl; [destruct (host_parse host)|]; done. Qed.

Lemma compiled_set_blocked l t st : compiled (set_blocked l t st) <-> compiled st.
Proof. done. Qed.

Lemma compiled_set_mode m st : compiled (set_config (set_mode m (config st)) st) <-> compiled st.
Proof. done. Qed.

(** Only the check of the mode looks at the mode. *)
Lemma fits_set_mode m c cs : fits hook_valid (resolved_config policy c) cs ->
  (forall max, con_mode cs = Some max -> network_mode_rank m <= network_mode_rank max) ->
  fits hook_valid (resolved_config policy (set_mode m c)) cs.
Proof. intros [] Hm. by split. Qed.

(** What a task has made sure of before it writes. *)
Definition phase_ok (op : Op) (ph : Phase (Hook:=Hook) (Rest:=Rest) (Hooks:=Hooks) (Mitm:=Mitm)) : Prop :=
  match op, ph with
  | AddDomain _ _, UpdatePending read new =>
      compiled new /\ constraints new = constraints read
      /\ (settled (config read) (constraints read) -> config new = apply_op op (config read))
      /\ fits hook_valid (resolved_config policy (apply_op op (config read))) (constraints read)
  | SetMode m, ModePending cs => forall max, con_mode cs = Some max -> network_mode_rank m <= network_mode_rank max
  | _, _ => True
  end.

Lemma prepare_update_ok `{!BuildWorld Hook Hooks Mitm} kind host h st new : host_parse host = Some h ->
  prepare_update hook_valid policy kind h st = Ok (Some new) -> phase_ok (AddDomain kind host) (UpdatePending st new).
Proof.
  intros Hh. unfold prepare_update. destruct (_ && _); [done|]. rewrite try_ok, map_err_ok, validate_fits. intros [Hf H].
  apply result_bind_ok in H as (built & Hb & [= <-]). apply map_err_ok, built_state in Hb as (Hc & Hcfg & Hcs & _). simpl. rewrite Hh.
  split_and!; [done|done| |done]. intros Hs. rewrite Hcfg. rewrite settle_settled; [done|].
  pose proof (settled_apply_op (AddDomain kind host) _ _ Hs) as Hs'. simpl in Hs'. by rewrite Hh in Hs'.
Qed.

Lemma unchanged_spec (read st : State) : unchanged read st = true -> constraints st = constraints read /\ config st = config read.
Proof. unfold unchanged. rewrite !andb_true_iff, !bool_decide_eq_true. tauto. Qed.

(** One access of a task keeps the state healthy, and changes the configuration
    only as its label says. *)
Lemma task_step_ok `{!BuildWorld Hook Hooks Mitm} op ph st st' ph' label :
  healthy st -> phase_ok op ph -> task_step hook_valid policy op ph st = (st', ph', label) ->
  healthy st' /\ phase_ok op ph' /\ config st' = apply_label (config st) label.
Proof.
  intros Hst Hph. unfold task_step, update_domain_list, set_network_mode. destruct op as [kind host|m], ph as [|read new|cs|r]; try (by intros [= <- <- <-]).
  - destruct (host_parse host) as [h|] eqn:Eh; [|by intros [= <- <- <-]].
    destruct (prepare_update hook_valid policy kind h st) as [[new|]|e] eqn:Ep; [|by intros [= <- <- <-]..].
    intros [= <- <- <-]. split_and!; [done| |done]. by eapply prepare_update_ok.
  - destruct (unchanged read st) eqn:Eu; [|by intros [= <- <- <-]]. intros [= <- <- <-]. apply unchanged_spec in Eu as [Ecs Ecfg].
    destruct Hph as (Hc & Hcs & Hcfg & Hf). destruct Hst as [_ Hs Hold]. rewrite Ecs, Ecfg in Hs. specialize (Hcfg Hs).
    split_and!; [|done|by rewrite Hcfg, Ecfg]. split; [done|..]; rewrite Hcs, Hcfg; [by apply settled_apply_op|done].
  - destruct (validate_policy_against_constraints _ _ _) as [[]|e] eqn:Ev; [|by intros [= <- <- <-]]. intros [= <- <- <-].
    split_and!; [done| |done]. apply validate_fits in Ev. exact (fits_mode _ _ _ Ev).
  - destruct (bool_decide_reflect (constraints st = cs)) as [E|E]; [|by intros [= <- <- <-]]. intros [= <- <- <-]. simpl in Hph.
    destruct Hst as [Hc Hs Hf]. split_and!; [|done|done]. split; simpl; [by apply compiled_set_mode|done|]. apply fits_set_mode; [done|by rewrite E].
Qed.

Definition system_ok (s : System (Hook:=Hook) (Rest:=Rest) (Hooks:=Hooks) (Mitm:=Mitm)) : Prop :=
  healthy (fst s) /\ Forall (fun t => phase_ok (fst t) (snd t)) (snd s).

Lemma healthy_set_blocked l t st : healthy st -> healthy (set_blocked l t st).
Proof. intros []. by split. Qed.

Lemma step_ok s l s' : system_ok s -> step s l s' -> system_ok s' /\ config (fst s') = apply_label (config (fst s)) l.
Proof.
  intros [Hst Hts] H. destruct H as [st ts new Hn|st ts new Hn|st ts id entry|st ts|st before op after|bw st before op ph after st' ph' label Ht];
    simpl in *; try (split; [|done]; (split; [by apply healthy_set_blocked|done])).
  - split; [|done]. split; [done|]. simpl. rewrite Forall_app, Forall_cons in *. simpl. destruct op; naive_solver.
  - rewrite Forall_app, Forall_cons in Hts. destruct Hts as (Hb & Hp & Ha). destruct (task_step_ok _ _ _ _ _ _ Hst Hp Ht) as (H1 & H2 & H3).
    split; [|done]. split; [done|]. simpl. by rewrite Forall_app, Forall_cons.
Qed.

Lemma steps_ok s ls s' : system_ok s -> steps s ls s' -> system_ok s' /\ config (fst s') = fold_left apply_label ls (config (fst s)).
Proof.
  intros Hs. induction 1 as [s|s ls s' l s'' H IH Hstep]; [done|]. destruct (IH Hs) as [Hs' Hcfg].
  destruct (step_ok _ _ _ Hs' Hstep) as [Hs'' Hcfg']. split; [done|]. by rewrite fold_left_app, Hcfg', Hcfg.
Qed.

Lemma initial_ok st ops : healthy st -> system_ok (st, List.map (fun op => (op, Start)) ops).
Proof. intros H. split; [done|]. simpl. apply Forall_map, Forall_forall. intros [] _; done. Qed.

(** C15. Whatever tasks run, and however their accesses, reloads and recorded requests
    interleave, the configuration in force is one its constraints accept, with
    sets compiled from it.  The first state, and every state a reload puts in its
    place, is a built one that its constraints accept, as the loaders make them. *)
Theorem constraints_always_hold (st : State) (ops : list Op) (ls : list Label) (st' : State) (ts : list (Op * Phase)) :
  healthy st -> steps (st, List.map (fun op => (op, Start)) ops) ls (st', ts) ->
  validate_policy_against_constraints hook_valid (resolved_config policy (config st')) (constraints st') = Ok tt /\ compiled st'.
Proof. intros H%(initial_ok _ ops) [[[Hc _ Hf] _] _]%steps_ok; [|done]. by rewrite validate_fits. Qed.

(** C16. The configuration in force is what the committed updates and the reloads give
    when they are applied one after the other, in the order of their writes: no
    update is lost or applied to an old copy. *)
Theorem updates_are_linear (st : State) (ops : list Op) (ls : list Label) (st' : State) (ts : list (Op * Phase)) :
  healthy st -> steps (st, List.map (fun op => (op, Start)) ops) ls (st', ts) -> config st' = fold_left apply_label ls (config st).
Proof. intros H%(initial_ok _ ops) [_ Hcfg]%steps_ok; [|done]. done. Qed.

(** A task that is not disturbed between reading and writing succeeds. *)
Lemma undisturbed_update_commits `{!BuildWorld Hook Hooks Mitm} op st st' ph l :
  task_step hook_valid policy op Start st = (st', ph, l) ->
  st' = st /\ ((exists r, ph = Finished r) \/ exists new, task_step hook_valid policy op ph st = (new, Finished (Ok tt), Committed op)).
Proof.
  unfold task_step, update_domain_list, set_network_mode. destruct op as [kind host|m].
  - destruct (host_parse host); [|naive_solver]. destruct (prepare_update _ _ _ _ _) as [[new|]|e]; [|naive_solver..]. intros [= <- <- <-].
    split; [done|]. right. exists new. unfold unchanged. by rewrite !bool_decide_eq_true_2.
  - destruct (validate_policy_against_constraints _ _ _); [|naive_solver]. intros [= <- <- <-]. split; [done|]. right. rewrite bool_decide_eq_true_2 by done. eauto.
Qed.
End Invariant.

(** ** A committed denial is in force *)

Lemma normalize_dns_fixed y : plain (normalize_dns_host_or_ip_literal y) ->
  normalize_domain (normalize_dns_host_or_ip_literal y) = normalize_dns_host_or_ip_literal y.
Proof.
  intros Hp. assert (normalize_dns_host_or_ip_literal y = trim_dots (to_ascii_lowercase y)) as ->.
  { revert Hp. unfold normalize_dns_host_or_ip_literal, normalize_ip_literal. destruct (is_ip_literal _); [done|].
    assert (forall ip scope : str, plain (ip ++ PERCENT :: scope) -> False) as Hno
      by (intros ip scope [_ [? _]%Forall_cons]%Forall_app; done).
    repeat (case_match; simpl); try done; intros Hp; exfalso; eapply Hno; by simplify_eq. }
  rewrite trim_dots_lower. apply normalize_domain_idem.
Qed.

Lemma normalize_host_fixed s : plain (normalize_host s) -> normalize_domain (normalize_host s) = normalize_host s.
Proof. unfold normalize_host. repeat case_match; apply normalize_dns_fixed. Qed.

Lemma no_meta_exact h : no_meta h -> wild_of h = (WExact, h).
Proof.
  intros H. assert (forall p, strip_prefix (STAR :: p) h = None) as Hn.
  { intros p. destruct (strip_prefix (STAR :: p) h) as [r|] eqn:E; [|done]. apply strip_prefix_Some in E as ->. by apply Forall_cons in H as [H _]. }
  unfold wild_of. change (lit "**.") with (STAR :: lit "*."). change (lit "*.") with (STAR :: lit ".") at 2. by rewrite !Hn.
Qed.

Section Denial.
Context {Hook Rest Hooks Mitm : Type} `{!EqDecision Hook, !EqDecision Rest} {DG : DomainGlobs} {UH : UrlHosts} {DGL : DomainGlobLaws DG}.
Notation State := (ConfigState Hook Rest Hooks Mitm).
Variable hook_valid : Hook -> bool.
Variable policy : LocalBindingPolicy.
Implicit Types st : State.

Lemma denied_is_blocked st host h dns : compiled st -> host_parse host = Some h -> plain_entry h -> no_meta h -> h ∈ st_denied st ->
  host_blocked policy st host dns = Blocked Denied.
Proof.
  intros [Hd _] Hh Hp Hm Hin. unfold host_blocked, host_blocked_with_local_binding. rewrite Hh.
  assert (globset_matches_host_or_unscoped (deny_set st) h = true) as ->; [|done].
  apply (globset_listed _ _ _ h Hd). exists h. split; [done|]. exists h.
  assert (normalize_domain h = h) as Hn.
  { unfold host_parse in Hh. destruct (is_nil (normalize_host host)); [done|]. injection Hh as <-. by apply normalize_host_fixed, Hp. }
  unfold entry_globs. rewrite expand_plain, (no_meta_exact h) by done. simpl. rewrite Hn. split; [by left|]. left.
  rewrite glob_literal by done. unfold eq_ignore_ascii_case. apply str_eqb_refl.
Qed.

(** Once the denial of a host is committed, every spelling of the host is blocked
    as denied, whatever its name resolves to and whatever the lists said before. *)
Theorem added_denial_blocks (st : State) (ops : list Op) (ls : list Label) (s : System) (st' : State) (ts : list (Op * Phase))
    (host h other : str) (dns : option (list IpAddr)) :
  healthy hook_valid policy st -> steps hook_valid policy (st, List.map (fun op => (op, Start)) ops) ls s ->
  step hook_valid policy s (Committed (AddDomain DenyKind host)) (st', ts) ->
  host_parse host = Some h -> host_parse other = Some h -> plain_entry h -> no_meta h ->
  host_blocked policy st' other dns = Blocked Denied.
Proof.
  intros Hst Hsteps Hstep Hh Ho Hp Hm. apply (initial_ok hook_valid policy st ops) in Hst.
  destruct (steps_ok _ _ _ _ _ Hst Hsteps) as [Hs _]. destruct (step_ok _ _ _ _ _ Hs Hstep) as [[[Hc _ _] _] Hcfg]. simpl in Hc, Hcfg.
  rewrite Hh in Hcfg. apply (denied_is_blocked st' other h dns Hc Ho Hp Hm). unfold st_denied. rewrite Hcfg.
  apply deny_wins, entries_upsert_elem. by right.
Qed.
End Denial.

(** ** Samples *)

Lemma web_healthy : healthy (fun _ => true) DefaultFalse web_state.
Proof. split; [split; vm_compute; reflexivity|done|]. apply validate_fits. vm_compute. reflexivity. Qed.

Definition block_www : Op := AddDomain DenyKind (lit "WWW.example.com:443").

Definition web_task := task_step (Rest:=unit) (Hooks:=unit) (Mitm:=unit) (fun _ : unit => true) DefaultFalse.

(** The state the task wants to write, and the first denial committed. *)
Definition web_new : ConfigState unit unit unit unit :=
  match web_task block_www Start web_state with (_, UpdatePending _ new, _) => new | _ => web_state end.

Lemma web_run :
  steps (fun _ => true) DefaultFalse (web_state, [(block_www, Start)]) ([] ++ [Tau]) (web_state, [(block_www, UpdatePending web_state web_new)])
  /\ step (fun _ => true) DefaultFalse (web_state, [(block_www, UpdatePending web_state web_new)]) (Committed block_www)
       (web_new, [(block_www, Finished (Ok tt))]).
Proof.
  split.
  - eapply steps_snoc; [apply steps_refl|]. apply (step_task _ _ no_hooks _ [] block_www Start []). vm_compute. reflexivity.
  - apply (step_task _ _ no_hooks _ [] block_www (UpdatePending web_state web_new) []). vm_compute. reflexivity.
Qed.

Lemma web_run_all :
  steps (fun _ => true) DefaultFalse (web_state, [(block_www, Start)]) [Tau; Committed block_www] (web_new, [(block_www, Finished (Ok tt))]).
Proof. destruct web_run as [H1 H2]. exact (steps_snoc _ _ _ _ _ _ _ H1 H2). Qed.

Lemma constraints_always_hold_witness : compiled web_new.
Proof. apply (constraints_always_hold (fun _ => true) DefaultFalse web_state [block_www] _ _ _ web_healthy web_run_all). Defined.

Lemma updates_are_linear_witness : config web_new = apply_op block_www web_config.
Proof. apply (updates_are_linear (fun _ => true) DefaultFalse web_state [block_www] _ _ _ web_healthy web_run_all). Defined.

Lemma added_denial_blocks_witness :
  host_blocked DefaultFalse web_state (lit "www.example.com.") public_dns = Allowed
  /\ host_blocked DefaultFalse web_new (lit "www.example.com.") public_dns = Blocked Denied.
Proof.
  split; [vm_compute; reflexivity|]. destruct web_run as [H1 H2].
  apply (added_denial_blocks (fun _ => true) DefaultFalse web_state [block_www] _ _ web_new _
           (lit "WWW.example.com:443") (lit "www.example.com") (lit "www.example.com.") public_dns web_healthy H1 H2).
  - vm_compute. reflexivity.
  - vm_compute. reflexivity.
  - apply entry_ok_plain. vm_compute. reflexivity.
  - repeat constructor.
Defined.

Definition sample_blocked : BlockedRequest :=
  mkBlocked (lit "evil.org") (lit "not_allowed") None None None (lit "http") None None None (Some 80%Z) 0.

(** A request recorded between the read and the write of an update: the write
    does not notice it, and the record and its count are gone. *)
Example recorded_request_lost :
  let recorded := record_blocked None sample_blocked web_state in
  blocked_total recorded = 1%Z
  /\ match web_task block_www (UpdatePending web_state web_new) recorded with
     | (st, Finished (Ok tt), Committed _) => blocked st = [] /\ blocked_total st = 0%Z
     | _ => False
     end.
Proof. vm_compute. split_and!; reflexivity. Qed.

(** A forced reload keeps the records and loses the count; a reload on demand
    keeps both. *)
Example forced_reload_resets_total :
  let recorded := record_blocked None sample_blocked web_state in
  (length (blocked (force_reload web_state recorded)), blocked_total (force_reload web_state recorded)) = (1, 0%Z)
  /\ (length (blocked (reload web_state recorded)), blocked_total (reload web_state recorded)) = (1, 1%Z).
Proof. vm_compute. split_and!; reflexivity. Qed.
