(* ===== verification/Json.v ===== *)
(** * JSON values ([serde_json::Value])

    The values of the crate, with the accessors the sources call.  Numbers are
    abstract: what is used of one is its reading as an [i64] or a [u64], which is
    absent when it is not an integer of that type.  An object is the list of its
    members; [get] finds the first of a name (the crate keeps one).  Reading and
    printing are functions of [SerdeText].

    [Value::pointer] is used with paths of names that are not array indices; there it
    is [get] repeated. *)

From stdpp Require Import base list numbers option strings.
From Stdlib Require Import ZArith Lia.
From S2P Require Import Prelude RustStr RustInt.

Class Numbers (Number : Type) := {
  number_as_i64 : Number -> option Z;
  number_as_u64 : Number -> option Z }.

Class NumberLaws Number `{Numbers Number} : Prop := {
  number_i64_range n z : number_as_i64 n = Some z -> in_i64 z;
  number_u64_range n z : number_as_u64 n = Some z -> (0 <= z <= u64_max)%Z }.

Section Values.
Context {Number : Type}.

Inductive Value :=
| JNull
| JBool (b : bool)
| JNumber (n : Number)
| JString (s : str)
| JArray (l : list Value)
| JObject (m : list (str * Value)).

Definition get (key : str) (v : Value) : option Value :=
  match v with
  | JObject m => option_map snd (List.find (fun kv => str_eqb key (fst kv)) m)
  | _ => None
  end.

(** [Value::pointer], along names. *)
Definition pointer (path : list str) (v : Value) : option Value :=
  fold_left (fun v key => v ≫= get key) path (Some v).

Definition as_str (v : Value) : option str := match v with JString s => Some s | _ => None end.
Definition as_array (v : Value) : option (list Value) := match v with JArray l => Some l | _ => None end.
Definition as_i64 `{Numbers Number} (v : Value) : option Z := match v with JNumber n => number_as_i64 n | _ => None end.
Definition as_u64 `{Numbers Number} (v : Value) : option Z := match v with JNumber n => number_as_u64 n | _ => None end.
Definition is_null (v : Value) : bool := match v with JNull => true | _ => false end.
Definition is_object (v : Value) : bool := match v with JObject _ => true | _ => false end.

(** A string member. *)
Definition get_str (key : str) (v : Value) : option str := get key v ≫= as_str.

(** A count; negative ones count as zero. *)
Definition count_field `{Numbers Number} (usage : Value) (key : str) : option Z := Z.max 0 <$> (get key usage ≫= as_i64).

Lemma count_field_range `{NumberLaws Number} usage key z : count_field usage key = Some z -> (0 <= z <= i64_max)%Z.
Proof.
  unfold count_field, as_i64. destruct (get key usage) as [[]|]; try done. simpl. destruct (number_as_i64 n) as [x|] eqn:E; [|done].
  intros [= <-]. apply number_i64_range in E. unfold_int. lia.
Qed.

(** *** Running counts *)

Definition or_zero (o : option Z) : Z := unwrap_or o 0%Z.
Definition newer (new old : option Z) : option Z := match new with Some z => Some z | None => old end.

(** The last count that frames report. *)
Definition latest (report : Value -> option Z) (fs : list Value) : option Z := fold_left (fun acc f => newer (report f) acc) fs None.

Lemma latest_snoc report fs f : latest report (fs ++ [f]) = newer (report f) (latest report fs).
Proof. unfold latest. by rewrite fold_left_app. Qed.

Lemma latest_range report B fs : (0 < B)%Z -> Forall (fun f => forall z, report f = Some z -> (0 <= z < B)%Z) fs -> (0 <= or_zero (latest report fs) < B)%Z.
Proof.
  intros HB. induction fs as [|f fs IH] using rev_ind; [simpl; lia|]. rewrite Forall_app, Forall_singleton, latest_snoc. intros [H1 H2].
  destruct (report f) eqn:E; [by apply H2|by apply IH].
Qed.
End Values.
Arguments Value : clear implicits.

Class SerdeText (Number : Type) := {
  from_str : str -> option (Value Number);
  to_string : Value Number -> str }.

(** ** Integers as the only numbers *)

#[export] Instance integers : Numbers Z := {
  number_as_i64 z := i64_try_from z;
  number_as_u64 z := u64_try_from z }.

#[export] Instance integer_laws : NumberLaws Z.
Proof.
  split; intros n z; simpl; unfold i64_try_from, u64_try_from, in_i64; case_match; [|done| |done]; intros [= <-];
    rewrite andb_true_iff, !Z.leb_le in *; done.
Qed.

(** ** For samples *)

Definition jstr (s : string) : Value Z := JString (lit s).
Definition jobj (m : list (string * Value Z)) : Value Z := JObject (List.map (fun kv => (lit (fst kv), snd kv)) m).

(** Reading the texts of a table. *)
Definition table_text (table : list (string * Value Z)) : SerdeText Z := {|
  from_str s := option_map snd (List.find (fun kv => str_eqb s (lit (fst kv))) table);
  to_string _ := lit "{}" |}.
