(* ===== verification/ModelStream.v ===== *)
(** * Events of a model's answer ([codex-api/src/common.rs], [core/src/session/turn.rs])

    Every provider streams its answer over its own wire; a parser per wire turns it
    into [ResponseEvent]s, which a turn consumes: an item is announced, its deltas
    follow, and the finished item closes it.

    A parser waits for the next server-sent event: [Poll] is what it gets.  It is a
    state machine whose actions emit events into a channel ([Act]).  The sending of
    events never fails in the model: what is sent after the receiver is gone is seen
    by no one, and the next round ends the parser ([ReceiverClosed]).

    [bracket_step] is the protocol between parser and turn: at most one item is open
    at a time, deltas belong to the open item, and the finished item holds exactly
    what was streamed.  [consume] is the turn's side ([try_run_sampling_request]):
    what it does with the active item, and where it panics in debug builds.
    [bracketed_is_consumed] relates the two.  [keeps] is the proof method for the
    parsers: an invariant between the state of the parser and the open item. *)

From stdpp Require Import base list numbers option strings sets.
From S2P Require Import Prelude RustStr RustInt GoalStore GoalAccounting ResponseItem Json.

(** ** Events *)

Section Events.
Context {Number : Type}.
Notation Value := (Value Number).
Notation Item := (ResponseItem Value).

(** Payloads nothing here looks at are JSON values. *)
Inductive ApiError :=
| Transport (error : Value)
| Api (status : Z) (message : str)
| StreamError (message : str)
| ContentFilter
| ContextWindowExceeded
| QuotaExceeded
| UsageNotIncluded
| Retryable (message : str) (retry_after : option Value)
| RateLimitExceeded (message : str) (retry_after : option Value)
| RateLimit (message : str)
| InvalidRequest (message : str)
| InvalidPrompt (message : str)
| CyberPolicy (message : str)
| BioPolicy (message : str)
| MisalignmentPolicyViolation (message : str) (misalignment : option Value)
| FlexUnavailable
| ServerOverloaded (retry_after : option Value).

Inductive ResponseEvent :=
| Created (response_id : option str)
| SafetyBuffering (buffering : Value)
| OutputItemDone (item : Item)
| OutputItemAdded (item : Item)
| ServerModel (model : str)
| ModelVerifications (verifications : Value)
| TurnModerationMetadata (metadata : Value)
| ServerReasoningIncluded (included : bool)
| Completed (response_id : str) (token_usage : option TokenUsage) (usage_metadata : option Value) (end_turn : option bool)
| OutputTextDelta (delta : str)
| ToolCallInputDelta (item_id : str) (call_id : option str) (delta : str)
| ReasoningSummaryDelta (delta : str) (summary_index : Z)
| ReasoningSummaryDone (item_id text : str) (summary_index : Z)
| ReasoningContentDelta (delta : str) (content_index : Z)
| ReasoningSummaryPartAdded (summary_index : Z)
| RateLimits (snapshot : Value)
| ModelsEtag (etag : str).

Notation Emission := (result ResponseEvent ApiError).

(** ** Parsers *)

(** What waiting for the next event of the wire gives. *)
Inductive Poll :=
| PollEvent (data : str)
| PollError (message : str)
| PollEnd
| PollTimeout
| ReceiverClosed.
#[export] Instance poll_eq_dec : EqDecision Poll.
Proof. solve_decision. Defined.

(** Actions on a state that emit events. *)
Definition Act (S : Type) : Type := S -> S * list Emission.

Section Actions.
Context {S : Type}.
Notation Act := (Act S).

Definition skip : Act := fun s => (s, []).
Definition emit (e : ResponseEvent) : Act := fun s => (s, [Ok e]).
Definition fail (e : ApiError) : Act := fun s => (s, [Err e]).
Definition modify (f : S -> S) : Act := fun s => (f s, []).
Definition look (k : S -> Act) : Act := fun s => k s s.
Definition seq (a b : Act) : Act := fun s => let '(s1, es1) := a s in let '(s2, es2) := b s1 in (s2, es1 ++ es2).
Fixpoint for_each {A} (f : A -> Act) (l : list A) : Act :=
  match l with [] => skip | x :: l => seq (f x) (for_each f l) end.

(** The loop of a parser; [true] when it returns. *)
Fixpoint run (on_poll : Poll -> S -> S * list Emission * bool) (polls : list Poll) (s : S) : S * list Emission * bool :=
  match polls with
  | [] => (s, [], false)
  | p :: polls =>
      let '(s1, es1, stop) := on_poll p s in
      if stop : bool then (s1, es1, true)
      else let '(s2, es2, stop) := run on_poll polls s1 in (s2, es1 ++ es2, stop)
  end.

Lemma stream_run_app on_poll polls1 polls2 s : run on_poll (polls1 ++ polls2) s =
  let '(s1, es1, stop) := run on_poll polls1 s in
  if stop : bool then (s1, es1, true) else let '(s2, es2, stop) := run on_poll polls2 s1 in (s2, es1 ++ es2, stop).
Proof.
  revert s. induction polls1 as [|p polls1 IH]; intros s; simpl; [by destruct (run on_poll polls2 s) as [[? ?] ?]|].
  destruct (on_poll p s) as [[s1 es1] []]; [done|]. rewrite IH. destruct (run on_poll polls1 s1) as [[s2 es2] []]; [done|].
  destruct (run on_poll polls2 s2) as [[s3 es3] stop]. by rewrite app_assoc.
Qed.
End Actions.

Definition continuing {S} (r : S * list Emission) : S * list Emission * bool := (fst r, snd r, false).
Definition returning {S} (r : S * list Emission) : S * list Emission * bool := (fst r, snd r, true).

(** The empty items parsers announce. *)
Definition empty_message : Item := Message None (lit "assistant") [] None None.
Definition empty_reasoning (content : option (list ReasoningItemContent)) : Item := Reasoning None [] content None None.

(** ** The protocol *)

Definition content_text (content : list MessageContent) : str :=
  concat (List.map (fun c => match c with MsgOutputText t | MsgInputText t => t | _ => [] end) content).
Definition reasoning_content_text (content : list ReasoningItemContent) : str :=
  concat (List.map (fun c => match c with ReasoningText t | PlainReasoning t => t end) content).

(** The open item, with the text streamed into it. *)
Inductive Bracket := Idle | InMessage (text : str) | InReasoning (text : str).
#[export] Instance bracket_eq_dec : EqDecision Bracket.
Proof. solve_decision. Defined.

Definition bracket_step (b : Bracket) (e : ResponseEvent) : option Bracket :=
  match b, e with
  | Idle, OutputItemAdded (Message None role [] None None) => if str_eqb role (lit "assistant") then Some (InMessage []) else None
  | Idle, OutputItemAdded (Reasoning None [] (None | Some []) None None) => Some (InReasoning [])
  | InMessage t, OutputTextDelta d => Some (InMessage (t ++ d))
  | InReasoning t, ReasoningContentDelta d _ => Some (InReasoning (t ++ d))
  | InMessage t, OutputItemDone (Message None role content None None) =>
      if str_eqb role (lit "assistant") && str_eqb (content_text content) t then Some Idle else None
  | InReasoning t, OutputItemDone (Reasoning None [] (Some content) _ None) =>
      if str_eqb (reasoning_content_text content) t then Some Idle else None
  | Idle, OutputItemDone (FunctionCall _ _ _ _ _ _ _) | Idle, ToolCallInputDelta _ _ _ | Idle, Completed _ _ _ _ => Some Idle
  | _, _ => None
  end.

Fixpoint brackets (b : Bracket) (es : list ResponseEvent) : option Bracket :=
  match es with
  | [] => Some b
  | e :: es => bracket_step b e ≫= fun b => brackets b es
  end.

Definition is_completed (e : ResponseEvent) : bool := match e with Completed _ _ _ _ => true | _ => false end.

(** A run keeps the protocol, and ends with one completion or one error, after
    which there is nothing: its events in order, and how it ended. *)
Inductive Ending := Running | Completes (e : ResponseEvent) | Fails (e : ApiError).
Definition emissions (es : list ResponseEvent) (ending : Ending) : list Emission :=
  List.map Ok es ++ match ending with Running => [] | Completes e => [Ok e] | Fails e => [Err e] end.

Record bracketed (b : Bracket) (es : list ResponseEvent) (ending : Ending) : Prop := {
  bracketed_accepted : exists b', brackets b es = Some b' /\ (forall e, ending = Completes e -> b' = Idle);
  bracketed_none_completed : Forall (fun e => is_completed e = false) es;
  bracketed_completion : forall e, ending = Completes e -> is_completed e = true }.

(** ** The turn *)

Section Turn.
(** Whether a user's message counts as an item of a turn. *)
Variable user_turn_item : list MessageContent -> bool.

(** [handle_non_tool_response_item] with [parse_turn_item], as far as whether there
    is a turn item. *)
Definition has_turn_item (i : Item) : bool :=
  match i with
  | Message _ role content _ _ =>
      if str_eqb role (lit "user") then user_turn_item content else str_eqb role (lit "assistant")
  | Reasoning _ _ _ _ _ | WebSearchCall _ _ _ _ => true
  | _ => false
  end.

(** What an event does to [active_item]; [None] is [error_or_panic]. *)
Definition consume (sequential_cutoff : bool) (active : option Item) (e : ResponseEvent) : option (option Item) :=
  match e with
  | OutputItemDone _ => Some None
  | OutputItemAdded i => Some (if has_turn_item i then Some i else active)
  | OutputTextDelta _ | ReasoningContentDelta _ _ => match active with Some _ => Some active | None => None end
  | ReasoningSummaryDelta _ _ | ReasoningSummaryPartAdded _ =>
      if sequential_cutoff then Some active else match active with Some _ => Some active | None => None end
  | _ => Some active
  end.

Fixpoint consume_all (sequential_cutoff : bool) (active : option Item) (es : list ResponseEvent) : option (option Item) :=
  match es with
  | [] => Some active
  | e :: es => consume sequential_cutoff active e ≫= fun active => consume_all sequential_cutoff active es
  end.

Definition active_matches (b : Bracket) (active : option Item) : Prop :=
  match b with Idle => active = None | InMessage _ | InReasoning _ => exists i, active = Some i /\ has_turn_item i = true end.

Lemma bracket_consumed cut b e b' active : bracket_step b e = Some b' -> active_matches b active ->
  exists active', consume cut active e = Some active' /\ active_matches b' active'.
Proof.
  intros Hb Ha. destruct b; simpl in Ha; [subst active|destruct Ha as (i & -> & Hi)..]; destruct e; simpl in Hb; try done;
    repeat (case_match; try done); simplify_eq/=; eauto.
  match goal with E : str_eqb _ _ = true |- _ => apply str_eqb_spec in E as -> end. simpl. eauto.
Qed.

(** Events that keep the protocol never make the turn panic. *)
Lemma bracketed_is_consumed cut b es b' active : brackets b es = Some b' -> active_matches b active ->
  exists active', consume_all cut active es = Some active' /\ active_matches b' active'.
Proof.
  revert b active. induction es as [|e es IH]; intros b active; simpl; [naive_solver|].
  intros (b1 & H1 & H2)%bind_Some Ha. destruct (bracket_consumed cut b e b1 active H1 Ha) as (a1 & -> & Ha1). simpl. eauto.
Qed.
End Turn.

(** ** What a run hands over *)

Definition text_delta (e : Emission) : option str := match e with Ok (OutputTextDelta d) => Some d | _ => None end.
Definition reasoning_delta (e : Emission) : option str := match e with Ok (ReasoningContentDelta d _) => Some d | _ => None end.
Definition text_deltas (es : list Emission) : str := concat (omap text_delta es).
Definition reasoning_deltas (es : list Emission) : str := concat (omap reasoning_delta es).

Definition done_item (e : Emission) : option Item := match e with Ok (OutputItemDone i) => Some i | _ => None end.
Definition done_items (es : list Emission) : list Item := omap done_item es.

Definition item_text (i : Item) : str := match i with Message _ _ content _ _ => content_text content | _ => [] end.
Definition item_reasoning (i : Item) : str := match i with Reasoning _ _ (Some content) _ _ => reasoning_content_text content | _ => [] end.
Definition is_call (i : Item) : bool := match i with FunctionCall _ _ _ _ _ _ _ => true | _ => false end.
Definition call_items (es : list Emission) : list Item := List.filter is_call (done_items es).

Lemma done_items_app es1 es2 : done_items (es1 ++ es2) = done_items es1 ++ done_items es2.
Proof. apply omap_app. Qed.
Lemma call_items_app es1 es2 : call_items (es1 ++ es2) = call_items es1 ++ call_items es2.
Proof. unfold call_items. by rewrite done_items_app, List.filter_app. Qed.
Lemma text_deltas_app es1 es2 : text_deltas (es1 ++ es2) = text_deltas es1 ++ text_deltas es2.
Proof. unfold text_deltas. by rewrite omap_app, concat_app. Qed.
Lemma reasoning_deltas_app es1 es2 : reasoning_deltas (es1 ++ es2) = reasoning_deltas es1 ++ reasoning_deltas es2.
Proof. unfold reasoning_deltas. by rewrite omap_app, concat_app. Qed.

Definition open_text (b : Bracket) : str := match b with InMessage t => t | _ => [] end.
Definition open_reasoning (b : Bracket) : str := match b with InReasoning t => t | _ => [] end.

(** Under the protocol the finished items hold what was streamed. *)
Lemma brackets_text b es b' : brackets b es = Some b' ->
  open_text b ++ text_deltas (List.map Ok es) = concat (List.map item_text (done_items (List.map Ok es))) ++ open_text b'
  /\ open_reasoning b ++ reasoning_deltas (List.map Ok es) = concat (List.map item_reasoning (done_items (List.map Ok es))) ++ open_reasoning b'.
Proof.
  revert b. induction es as [|e es IH]; intros b; simpl; [intros [= ->]; simpl; by rewrite !app_nil_r|].
  intros (b1 & H1 & H2)%bind_Some. destruct (IH b1 H2) as [E1 E2]. clear IH H2.
  unfold text_deltas, reasoning_deltas, done_items in *.
  destruct b, e; simpl in H1; try done; repeat (case_match; try done); simplify_eq/=;
    repeat match goal with
           | E : _ && _ = true |- _ => apply andb_true_iff in E as [? ?]
           | E : str_eqb _ _ = true |- _ => apply str_eqb_spec in E; subst
           end; rewrite ?app_assoc in *; rewrite ?app_nil_r in *; rewrite ?E1, ?E2, <- ?app_assoc; done.
Qed.

(** ** The proof method *)

Lemma brackets_app b es1 es2 : brackets b (es1 ++ es2) = brackets b es1 ≫= fun b => brackets b es2.
Proof. revert b. induction es1 as [|e es1 IH]; intros b; simpl; [done|]. destruct (bracket_step b e); simpl; auto. Qed.

Lemma bracketed_app b es1 b1 es2 ending : brackets b es1 = Some b1 -> Forall (fun e => is_completed e = false) es1 ->
  bracketed b1 es2 ending -> bracketed b (es1 ++ es2) ending.
Proof. intros B1 C1 [(b2 & E2 & L2) C2 D2]. split; [|by rewrite Forall_app|done]. exists b2. by rewrite brackets_app, B1. Qed.

Lemma emissions_app es1 es2 ending : List.map Ok es1 ++ emissions es2 ending = emissions (es1 ++ es2) ending.
Proof. unfold emissions. by rewrite map_app, app_assoc. Qed.

Section Keeps.
Context {S : Type}.
Implicit Types R : S -> Bracket -> Prop.

(** An action leads from one relation to another when it only emits events the
    protocol accepts where the state is, none of them final. *)
Definition leads R R' (a : Act S) : Prop := forall s b, R s b ->
  exists es b', snd (a s) = List.map Ok es /\ brackets b es = Some b' /\ Forall (fun e => is_completed e = false) es /\ R' (fst (a s)) b'.
Definition keeps R : Act S -> Prop := leads R R.

(** The same for the action that ends a run. *)
Definition ends R (a : Act S) : Prop := forall s b, R s b ->
  exists es ending, snd (a s) = emissions es ending /\ ending <> Running /\ bracketed b es ending.

Lemma keeps_skip R : keeps R skip.
Proof. intros s b H0. by exists [], b. Qed.

Lemma keeps_modify R f : (forall s b, R s b -> R (f s) b) -> keeps R (modify f).
Proof. intros Hf s b HR. exists [], b. simpl. auto. Qed.

Lemma leads_seq R R' R'' a1 a2 : leads R R' a1 -> leads R' R'' a2 -> leads R R'' (seq a1 a2).
Proof.
  intros H1 H2 s b HR. destruct (H1 s b HR) as (es1 & b1 & E1 & B1 & C1 & R1). unfold seq.
  destruct (a1 s) as [s1 o1]. simpl in *. subst o1. destruct (H2 s1 b1 R1) as (es2 & b2 & E2 & B2 & C2 & R2).
  destruct (a2 s1) as [s2 o2]. simpl in *. subst o2. exists (es1 ++ es2), b2.
  rewrite map_app, brackets_app, B1, Forall_app. done.
Qed.

Lemma leads_weaken R R1 R2 a : (forall s b, R1 s b -> R2 s b) -> leads R R1 a -> leads R R2 a.
Proof. intros Hw Ha s b HR. destruct (Ha s b HR) as (es & b' & ?). exists es, b'. naive_solver. Qed.

Lemma keeps_seq R a1 a2 : keeps R a1 -> keeps R a2 -> keeps R (seq a1 a2).
Proof. apply leads_seq. Qed.

Lemma keeps_for_each {A} R (f : A -> Act S) l : (forall x, keeps R (f x)) -> keeps R (for_each f l).
Proof. intros Hf. induction l; simpl; [apply keeps_skip|by apply keeps_seq]. Qed.

Lemma ends_fail R e : ends R (fail e).
Proof. intros s b _. exists [], (Fails e). split_and!; [done|done|]. split; [by exists b|done|done]. Qed.

Lemma ends_complete R e : is_completed e = true -> (forall s b, R s b -> b = Idle) -> ends R (emit e).
Proof. intros He HR s b ->%HR. exists [], (Completes e). split_and!; [done|done|]. split; [by exists Idle|done|naive_solver]. Qed.

Lemma ends_look R k : (forall s, ends R (k s)) -> ends R (look k).
Proof. intros Hk s. apply Hk. Qed.

Lemma ends_seq R R' a1 a2 : leads R R' a1 -> ends R' a2 -> ends R (seq a1 a2).
Proof.
  intros H1 H2 s b HR. destruct (H1 s b HR) as (es1 & b1 & E1 & B1 & C1 & R1). unfold seq.
  destruct (a1 s) as [s1 o1]. simpl in *. subst o1. destruct (H2 s1 b1 R1) as (es2 & ending & E2 & He & B2).
  destruct (a2 s1) as [s2 o2]. simpl in *. subst o2. exists (es1 ++ es2), ending. rewrite emissions_app. eauto using bracketed_app.
Qed.

(** A round of the loop keeps the protocol: it goes on, or ends the run. *)
Definition round_ok R (p : Poll) (b : Bracket) (r : S * list Emission * bool) : Prop :=
  let '(s', out, stop) := r in
  exists es ending, out = emissions es ending /\ bracketed b es ending
    /\ (stop = false -> ending = Running /\ exists b', brackets b es = Some b' /\ R s' b')
    /\ (stop = true -> p <> ReceiverClosed -> ending <> Running).

Lemma round_continuing R p a s b : keeps R a -> R s b -> round_ok R p b (continuing (a s)).
Proof.
  intros Ha HR. destruct (Ha s b HR) as (es & b' & E & B & C & HR'). unfold round_ok, continuing. rewrite E. exists es, Running.
  unfold emissions. rewrite app_nil_r. split_and!; [done| |naive_solver|done]. split; [exists b'; by split|done|done].
Qed.

Lemma round_returning R p a s b : ends R a -> R s b -> round_ok R p b (returning (a s)).
Proof. intros Ha HR. destruct (Ha s b HR) as (es & ending & E & He & B). unfold round_ok, returning. rewrite E. exists es, ending. by split_and!. Qed.

Lemma round_closed R s b : round_ok R ReceiverClosed b (s, [], true).
Proof. exists [], Running. split_and!; [done| |done|done]. split; [by exists b|done|done]. Qed.

Definition keeps_poll R (on_poll : Poll -> S -> S * list Emission * bool) : Prop := forall p s b, R s b -> round_ok R p b (on_poll p s).

(** The whole run does; unless the receiver has gone, a run that is over has ended
    with a completion or an error. *)
Lemma run_keeps R on_poll polls s b : keeps_poll R on_poll -> R s b ->
  let '(_, out, stop) := run on_poll polls s in
  exists es ending, out = emissions es ending /\ bracketed b es ending
    /\ (stop = false -> ending = Running) /\ (stop = true -> ReceiverClosed ∉ polls -> ending <> Running).
Proof.
  intros Hk. revert s b. induction polls as [|p polls IH]; intros s b HR; simpl.
  { exists [], Running. split_and!; [done| |done|done]. split; [by exists b|done|done]. }
  specialize (Hk p s b HR). unfold round_ok in Hk. destruct (on_poll p s) as [[s1 o1] stop]. destruct Hk as (es1 & end1 & -> & B1 & Hgo & Hstop).
  destruct stop.
  { exists es1, end1. split_and!; [done|done|done|]. set_solver. }
  destruct (Hgo eq_refl) as (-> & b1 & Eb & R1). specialize (IH s1 b1 R1). destruct (run on_poll polls s1) as [[s2 o2] stop2].
  destruct IH as (es2 & end2 & -> & B2 & H2 & H3). exists (es1 ++ es2), end2. unfold emissions at 1. rewrite app_nil_r, emissions_app.
  split_and!; [done| |done|set_solver]. destruct B1 as [_ C1 _]. by eapply bracketed_app.
Qed.

(** The same, with the turn at the other end. *)
Lemma run_is_consumed R on_poll polls s user_turn_item cut : keeps_poll R on_poll -> R s Idle ->
  let '(_, out, stop) := run on_poll polls s in
  exists es ending, out = emissions es ending /\ bracketed Idle es ending
    /\ (stop = false -> ending = Running) /\ (stop = true -> ReceiverClosed ∉ polls -> ending <> Running)
    /\ is_some (consume_all user_turn_item cut None es) = true.
Proof.
  intros Hk HR. pose proof (run_keeps R on_poll polls s Idle Hk HR) as Hr.
  destruct (run on_poll polls s) as [[s' out] stop]. destruct Hr as (es & ending & E & B & H1 & H2). exists es, ending. split_and!; try done.
  destruct B as [(b' & Eb & _) _ _]. destruct (bracketed_is_consumed user_turn_item cut Idle es b' None Eb eq_refl) as (a & -> & _). done.
Qed.
End Keeps.
End Events.
Arguments ApiError : clear implicits.
Arguments ResponseEvent : clear implicits.
Arguments Act : clear implicits.

(** The frames among the events of the wire. *)
Definition frames {Number} {ST : SerdeText Number} (datas : list str) : list (Value Number) :=
  omap (fun data => if is_nil (trim data) then None else from_str (trim data)) datas.

Lemma frames_cons {Number} {ST : SerdeText Number} data datas :
  frames (data :: datas) = match (if is_nil (trim data) then None else from_str (trim data)) with Some v => v :: frames datas | None => frames datas end.
Proof. done. Qed.

Declare Scope act_scope.
Delimit Scope act_scope with act.
Notation "a ;; b" := (seq a b) (at level 100, b at level 200, right associativity, format "a  ;; '//' b") : act_scope.
Create HintDb keeps.
#[export] Hint Resolve keeps_skip keeps_seq keeps_for_each ends_fail : keeps.
