(* ===== verification/ChatStream.v ===== *)
(** * The Chat Completions wire ([codex-api/src/sse/chat.rs], [chat_usage.rs])

    Frames carry deltas of the assistant's text, of its reasoning and of tool calls.
    Text and reasoning are announced and streamed as they arrive; a tool call arrives
    in fragments, by index or by identifier, and is handed over whole when the choice
    finishes or the stream ends.

    [ChatState] holds the local variables of [process_chat_sse], those of the tool
    calls apart ([ToolCalls]); the loop is that of [ModelStream.v] over [on_poll].
    A [usize] index is an [N]; the counter of indices never wraps, as it is at most the
    number of fragments.  [next_free] has one round more than there are calls, which
    is enough to find an index that is not taken ([next_free_fresh]).

    The theorems: whatever arrives, the events keep the protocol of the turn and end
    with one completion or one error ([chat_events_are_bracketed]); no text on the wire
    is lost, invented or moved between answer and reasoning ([chat_text_is_complete]);
    and each call is assembled from its fragments ([chat_calls_are_assembled]). *)

From stdpp Require Import base list numbers option strings sets gmap.
From Stdlib Require Import ZArith Lia.
From S2P Require Import Prelude RustStr RustInt GoalStore GoalAccounting ResponseItem Json ModelStream.

#[local] Open Scope act_scope.

Module Chat.

Record ToolCallState := mkCall {
  tc_id : option str;
  tc_name : option str;
  tc_arguments : str }.
Definition new_call : ToolCallState := mkCall None None [].

Record ToolCalls := mkTools {
  tool_calls : gmap N ToolCallState;
  tool_call_order : list N;
  tool_call_order_seen : gset N;
  tool_call_index_by_id : gmap str N;
  next_tool_call_index : N;
  last_tool_call_index : option N }.
Definition no_tools : ToolCalls := mkTools ∅ [] ∅ ∅ 0 None.

Section Chat.
Context {Number : Type} `{Numbers Number} {ST : SerdeText Number}.
Notation Value := (Value Number).
Notation Item := (ResponseItem Value).
Notation Act := (Act Number).
Notation Emission := (result (ResponseEvent Number) (ApiError Number)).

(** ** Usage *)

Definition nested_field (usage : Value) (parent key : str) : option Z :=
  Z.max 0 <$> (get parent usage ≫= fun details => get key details ≫= as_i64).

Definition or_else (a b : option Z) : option Z := match a with Some z => Some z | None => b end.

Definition token_usage_from_chat_usage (usage : Value) : option TokenUsage :=
  let input := count_field usage (lit "prompt_tokens") in
  let output := count_field usage (lit "completion_tokens") in
  if is_none input && is_none output then None
  else
    let input := unwrap_or input 0%Z in
    let output := unwrap_or output 0%Z in
    Some (mkUsage input
      (unwrap_or (or_else (nested_field usage (lit "prompt_tokens_details") (lit "cached_tokens"))
                 (or_else (count_field usage (lit "cache_read_input_tokens")) (count_field usage (lit "prompt_cache_hit_tokens")))) 0%Z)
      (unwrap_or (or_else (count_field usage (lit "cache_creation_input_tokens")) (count_field usage (lit "prompt_cache_miss_tokens"))) 0%Z)
      output
      (unwrap_or (nested_field usage (lit "completion_tokens_details") (lit "reasoning_tokens")) 0%Z)
      (unwrap_or (count_field usage (lit "total_tokens")) (i64_saturating_add input output))
      None).

(** ** Fragments of tool calls *)

(** The first index from [n] on that is not taken. *)
Fixpoint next_free (fuel : nat) (calls : gmap N ToolCallState) (n : N) : N :=
  match fuel with
  | O => n
  | S fuel => match calls !! n with Some _ => next_free fuel calls (n + 1)%N | None => n end
  end.

Definition wire_index (tool_call : Value) : option N := Z.to_N <$> (get (lit "index") tool_call ≫= as_u64).
Definition wire_id (tool_call : Value) : option str := get_str (lit "id") tool_call.
Definition wire_name (tool_call : Value) : option str :=
  match get (lit "function") tool_call ≫= get_str (lit "name") with
  | Some name => if is_nil name then None else Some name
  | None => None
  end.
Definition wire_arguments (tool_call : Value) : option str := get (lit "function") tool_call ≫= get_str (lit "arguments").

(** Which call a fragment belongs to, and the counter after that. *)
Definition fragment_index (tool_call : Value) (t : ToolCalls) : N * N :=
  let id := wire_id tool_call in
  let index := match id ≫= fun id => tool_call_index_by_id t !! id with
               | Some existing => Some existing
               | None => wire_index tool_call
               end in
  let index := if is_none index && is_none id then last_tool_call_index t else index in
  match index with
  | Some index => (index, next_tool_call_index t)
  | None => let index := next_free (S (size (tool_calls t))) (tool_calls t) (next_tool_call_index t) in (index, index + 1)%N
  end.

Definition get_or_insert (o new : option str) : option str := match o with Some _ => o | None => new end.

Definition add_fragment (tool_call : Value) (st : ToolCallState) : ToolCallState :=
  mkCall (get_or_insert (tc_id st) (wire_id tool_call)) (get_or_insert (tc_name st) (wire_name tool_call))
    (tc_arguments st ++ unwrap_or (wire_arguments tool_call) []).

Definition read_tool_call (t : ToolCalls) (tool_call : Value) : ToolCalls :=
  let '(index, next) := fragment_index tool_call t in
  let seen := bool_decide (index ∈ tool_call_order_seen t) in
  mkTools
    (<[index := add_fragment tool_call (unwrap_or (tool_calls t !! index) new_call)]> (tool_calls t))
    (if seen then tool_call_order t else tool_call_order t ++ [index])
    ({[index]} ∪ tool_call_order_seen t)
    (match wire_id tool_call with
     | Some id => match tool_call_index_by_id t !! id with Some _ => tool_call_index_by_id t | None => <[id := index]> (tool_call_index_by_id t) end
     | None => tool_call_index_by_id t
     end)
    next (Some index).

(** ** The state *)

Record ChatState := mkChat {
  tools : ToolCalls;
  assistant_item : option Item;
  reasoning_item : option Item;
  latest_usage : option TokenUsage;
  finished : bool;
  end_turn : option bool;
  refusal : str }.

Definition start : ChatState := mkChat no_tools None None None false None [].

Definition set_tools (t : ToolCalls) (s : ChatState) : ChatState :=
  mkChat t (assistant_item s) (reasoning_item s) (latest_usage s) (finished s) (end_turn s) (refusal s).
Definition set_assistant (i : option Item) (s : ChatState) : ChatState :=
  mkChat (tools s) i (reasoning_item s) (latest_usage s) (finished s) (end_turn s) (refusal s).
Definition set_reasoning (i : option Item) (s : ChatState) : ChatState :=
  mkChat (tools s) (assistant_item s) i (latest_usage s) (finished s) (end_turn s) (refusal s).
Definition set_usage (u : option TokenUsage) (s : ChatState) : ChatState :=
  mkChat (tools s) (assistant_item s) (reasoning_item s) u (finished s) (end_turn s) (refusal s).
Definition set_finished (e : option bool) (r : str) (s : ChatState) : ChatState :=
  mkChat (tools s) (assistant_item s) (reasoning_item s) (latest_usage s) true e r.
Definition push_refusal (text : str) (s : ChatState) : ChatState :=
  mkChat (tools s) (assistant_item s) (reasoning_item s) (latest_usage s) (finished s) (end_turn s) (refusal s ++ text).

(** ** Handing items over *)

Definition done_if (i : option Item) : Act ChatState := match i with Some i => emit (OutputItemDone i) | None => skip end.

(** [close_open_item] and the [take] of each item. *)
Definition close_reasoning : Act ChatState := look (fun s => modify (set_reasoning None) ;; done_if (reasoning_item s)).
Definition close_assistant : Act ChatState := look (fun s => modify (set_assistant None) ;; done_if (assistant_item s)).

Definition assembled_call (index : N) (st : ToolCallState) : option Item :=
  match tc_name st with
  | None => None
  | Some name =>
      Some (FunctionCall None name None (if is_nil (tc_arguments st) then lit "{}" else tc_arguments st) None
              (unwrap_or (tc_id st) (lit "tool-call-" ++ show_nat (N.to_nat index))) None)
  end.

Definition remove_call (index : N) (t : ToolCalls) : ToolCalls :=
  mkTools (delete index (tool_calls t)) (tool_call_order t) (tool_call_order_seen t ∖ {[index]}) (tool_call_index_by_id t)
    (next_tool_call_index t) (last_tool_call_index t).
Definition clear_order (t : ToolCalls) : ToolCalls :=
  mkTools (tool_calls t) [] (tool_call_order_seen t) (tool_call_index_by_id t) (next_tool_call_index t) (last_tool_call_index t).

Definition flush_tool_call (index : N) : Act ChatState :=
  look (fun s => match tool_calls (tools s) !! index with
                 | None => skip
                 | Some st => modify (set_tools (remove_call index (tools s))) ;; done_if (assembled_call index st)
                 end).

Definition flush_tool_calls : Act ChatState :=
  look (fun s => modify (set_tools (clear_order (tools s))) ;; for_each flush_tool_call (tool_call_order (tools s))).

Definition flush : Act ChatState := close_reasoning ;; close_assistant ;; flush_tool_calls.

Definition complete : Act ChatState :=
  look (fun s => if is_nil (refusal s) then emit (Completed [] (latest_usage s) None (end_turn s)) else fail (InvalidRequest (refusal s))).

Definition flush_and_complete : Act ChatState := flush ;; complete.

(** ** Text *)

Definition append_assistant_text (text : str) : Act ChatState :=
  look (fun s => match assistant_item s with
                 | Some _ => skip
                 | None => close_reasoning ;; modify (set_assistant (Some empty_message)) ;; emit (OutputItemAdded empty_message)
                 end) ;;
  look (fun s => match assistant_item s with
                 | Some (Message id role content phase meta) =>
                     modify (set_assistant (Some (Message id role (content ++ [MsgOutputText text]) phase meta))) ;;
                     emit (OutputTextDelta text)
                 | _ => skip
                 end).

(** Deltas are fragments of one block. *)
Definition extend_reasoning (content : list ReasoningItemContent) (text : str) : list ReasoningItemContent :=
  match last content with
  | Some (ReasoningText existing) => removelast content ++ [ReasoningText (existing ++ text)]
  | _ => content ++ [ReasoningText text]
  end.

Definition append_reasoning_text (text : str) : Act ChatState :=
  look (fun s => match reasoning_item s with
                 | Some _ => skip
                 | None =>
                     close_assistant ;; modify (set_reasoning (Some (empty_reasoning (Some [])))) ;;
                     emit (OutputItemAdded (empty_reasoning (Some [])))
                 end) ;;
  look (fun s => match reasoning_item s with
                 | Some (Reasoning id summary (Some content) encrypted meta) =>
                     modify (set_reasoning (Some (Reasoning id summary (Some (extend_reasoning content text)) encrypted meta))) ;;
                     emit (ReasoningContentDelta text (Z.of_nat (length content - 1)))
                 | _ => skip
                 end).

Definition non_empty (o : option str) : option str := match o with Some t => if is_nil t then None else Some t | None => None end.

Definition reasoning_text (container : Value) : option str :=
  let structured :=
    (fun blocks => concat (omap (get_str (lit "thinking")) blocks)) <$> (get (lit "thinking_blocks") container ≫= as_array) in
  non_empty
    (get_or_insert (non_empty structured)
      (get_or_insert (get_str (lit "reasoning_content") container)
        (get (lit "reasoning") container ≫= fun r =>
           get_or_insert (as_str r) (get_or_insert (get_str (lit "text") r) (get_str (lit "content") r))))).

(** The texts of a delta's [content]. *)
Definition content_texts (delta : Value) : list str :=
  match get (lit "content") delta with
  | Some (JArray items) => omap (fun item => non_empty (get_str (lit "text") item)) items
  | Some content => match non_empty (as_str content) with Some t => [t] | None => [] end
  | None => []
  end.

Definition delta_tool_calls (delta : Value) : list Value := unwrap_or (get (lit "tool_calls") delta ≫= as_array) [].

(** ** Frames *)

Definition read_reasoning (container : Value) : Act ChatState :=
  match reasoning_text container with Some text => append_reasoning_text text | None => skip end.
Definition read_refusal (container : Value) : Act ChatState :=
  match get_str (lit "refusal") container with Some text => modify (push_refusal text) | None => skip end.

Definition read_delta (delta : Value) : Act ChatState :=
  read_reasoning delta ;; read_refusal delta ;;
  for_each append_assistant_text (content_texts delta) ;;
  for_each (fun tool_call => modify (fun s => set_tools (read_tool_call (tools s) tool_call) s)) (delta_tool_calls delta).

Definition read_message (message : Value) : Act ChatState := read_reasoning message ;; read_refusal message.

Definition read_finish (finish_reason : str) : Act ChatState :=
  modify (fun s => set_finished
    (if str_eqb finish_reason (lit "length") then Some false else end_turn s)
    (if (str_eqb finish_reason (lit "content_filter") || str_eqb finish_reason (lit "refusal")) && is_nil (refusal s)
     then lit "the model declined to answer" else refusal s) s) ;;
  flush.

Definition read_choice (choice : Value) : Act ChatState :=
  match get (lit "delta") choice with Some delta => read_delta delta | None => skip end ;;
  match get (lit "message") choice with Some message => read_message message | None => skip end ;;
  match get_str (lit "finish_reason") choice with Some reason => read_finish reason | None => skip end.

Definition frame_choices (value : Value) : list Value := unwrap_or (get (lit "choices") value ≫= as_array) [].

Definition read_frame (value : Value) : Act ChatState :=
  match get (lit "usage") value ≫= token_usage_from_chat_usage with Some usage => modify (set_usage (Some usage)) | None => skip end ;;
  for_each read_choice (frame_choices value).

Definition provider_error_message (value : Value) : option str :=
  match get (lit "error") value with
  | None => None
  | Some error => if is_null error then None else Some (unwrap_or (get_str (lit "message") error) (to_string error))
  end.

Definition is_sentinel (data : str) : bool := str_eqb data (lit "[DONE]") || str_eqb data (lit "DONE").

Definition on_poll (p : Poll) (s : ChatState) : ChatState * list Emission * bool :=
  match p with
  | ReceiverClosed => (s, [], true)
  | PollError message => returning (fail (StreamError message) s)
  | PollEnd => returning (flush_and_complete s)
  | PollTimeout => returning ((if finished s then flush_and_complete else fail (StreamError (lit "idle timeout waiting for SSE"))) s)
  | PollEvent data =>
      let data := trim data in
      if is_nil data then continuing (skip s)
      else if is_sentinel data then returning (flush_and_complete s)
      else match from_str data with
           | None => continuing (skip s)
           | Some value =>
               match provider_error_message value with
               | Some message => returning (fail (StreamError message) s)
               | None => continuing (read_frame value s)
               end
           end
  end.

Definition process_chat_sse (polls : list Poll) : ChatState * list Emission * bool := run on_poll polls start.

(** ** Free indices *)

Lemma next_free_run fuel calls n :
  calls !! next_free fuel calls n = None \/ forall k, (k < fuel)%nat -> is_Some (calls !! (n + N.of_nat k)%N).
Proof.
  revert n. induction fuel as [|fuel IH]; intros n; simpl; [right; lia|]. destruct (calls !! n) eqn:E; [|by left].
  destruct (IH (n + 1)%N) as [?|Hall]; [by left|]. right. intros [|k] Hk.
  - replace (n + N.of_nat 0)%N with n by lia. eauto.
  - replace (n + N.of_nat (S k))%N with (n + 1 + N.of_nat k)%N by lia. apply Hall. lia.
Qed.

(** One round more than there are calls finds an index that is not taken. *)
Lemma next_free_fresh calls n : calls !! next_free (S (size calls)) calls n = None.
Proof.
  destruct (next_free_run (S (size calls)) calls n) as [?|Hall]; [done|]. exfalso.
  set (ks := (fun k => (n + N.of_nat k)%N) <$> List.seq 0 (S (size calls))).
  assert (NoDup ks) as Hnd by (apply NoDup_fmap_2; [intros a b; lia|apply NoDup_ListNoDup, seq_NoDup]).
  assert (list_to_set ks ⊆ dom calls) as Hsub.
  { intros i. rewrite elem_of_list_to_set. unfold ks. intros (k & -> & Hk)%list_elem_of_fmap. apply elem_of_dom, Hall.
    apply list_elem_of_In, in_seq in Hk. lia. }
  apply subseteq_size in Hsub. rewrite size_list_to_set in Hsub by done. unfold ks in Hsub. rewrite length_fmap, length_seq, size_dom in Hsub. lia.
Qed.

(** A fragment with a new identifier and no index starts a new call. *)
Lemma new_id_new_call tc t id : wire_id tc = Some id -> tool_call_index_by_id t !! id = None -> wire_index tc = None ->
  tool_calls t !! fst (fragment_index tc t) = None.
Proof. intros Hid Hn Hi. unfold fragment_index. rewrite Hid, Hi. simpl. rewrite Hn. simpl. apply next_free_fresh. Qed.

(** Counts are never negative and fit their type, whatever is reported. *)
Lemma chat_usage_bounds `{!NumberLaws Number} usage u : token_usage_from_chat_usage usage = Some u ->
  Forall (fun z => (0 <= z <= i64_max)%Z)
    [input_tokens u; cached_input_tokens u; cache_write_input_tokens u; output_tokens u; reasoning_output_tokens u; total_tokens u].
Proof.
  assert (forall key z, count_field usage key = Some z -> (0 <= z <= i64_max)%Z) as Hc by (intros key z; apply count_field_range).
  assert (forall parent key z, nested_field usage parent key = Some z -> (0 <= z <= i64_max)%Z) as Hn.
  { intros parent key z. unfold nested_field. destruct (get parent usage) as [details|]; [|done]. apply (count_field_range details key z). }
  unfold token_usage_from_chat_usage. destruct (_ && _); [done|]. intros [= <-]. simpl.
  assert (forall o, (forall z, o = Some z -> (0 <= z <= i64_max)%Z) -> (0 <= unwrap_or o 0 <= i64_max)%Z) as Hd
    by (intros [z|] Hz; simpl; [auto|unfold i64_max; lia]).
  assert (forall o o', (forall z, o = Some z -> (0 <= z <= i64_max)%Z) -> (forall z, o' = Some z -> (0 <= z <= i64_max)%Z) ->
    forall z, or_else o o' = Some z -> (0 <= z <= i64_max)%Z) as He by (intros [z|] o' Hz Hz' z'; simpl; [intros [= <-]; auto|auto]).
  pose proof (Hd _ (Hc (lit "prompt_tokens"))) as Hi. pose proof (Hd _ (Hc (lit "completion_tokens"))) as Ho.
  repeat constructor; try (by apply Hd; eauto); try (by apply Hd; eauto 8);
    destruct (count_field usage (lit "total_tokens")) eqn:Et; simpl; try (by apply (Hc _ _ Et)); unfold_int; lia.
Qed.

(** ** The protocol is kept *)

Definition chat_bracket (s : ChatState) (b : Bracket) : Prop :=
  match assistant_item s, reasoning_item s with
  | None, None => b = Idle
  | Some (Message None role content None None), None => role = lit "assistant" /\ b = InMessage (content_text content)
  | None, Some (Reasoning None [] (Some content) None None) => b = InReasoning (reasoning_content_text content)
  | _, _ => False
  end.
Definition idle (s : ChatState) (b : Bracket) : Prop := assistant_item s = None /\ reasoning_item s = None /\ b = Idle.

Lemma idle_bracket s b : idle s b -> chat_bracket s b.
Proof. unfold idle, chat_bracket. by intros (-> & -> & ->). Qed.

(** The states the relation allows. *)
Lemma chat_bracket_cases s b : chat_bracket s b ->
  idle s b
  \/ (exists content, assistant_item s = Some (Message None (lit "assistant") content None None) /\ reasoning_item s = None /\ b = InMessage (content_text content))
  \/ (exists content, assistant_item s = None /\ reasoning_item s = Some (Reasoning None [] (Some content) None None)
        /\ b = InReasoning (reasoning_content_text content)).
Proof.
  unfold chat_bracket, idle. repeat case_match; try done; [intros [-> ->]; right; left; by eexists|intros ->; right; right; by eexists|intros ->; by left].
Qed.

Lemma content_text_snoc content text : content_text (content ++ [MsgOutputText text]) = content_text content ++ text.
Proof. unfold content_text. rewrite map_app, concat_app. simpl. by rewrite app_nil_r. Qed.

Lemma extend_reasoning_text content text :
  reasoning_content_text (extend_reasoning content text) = reasoning_content_text content ++ text.
Proof.
  unfold extend_reasoning, reasoning_content_text. induction content as [|c content _] using rev_ind; simpl; [by rewrite app_nil_r|].
  rewrite last_snoc, removelast_last. destruct c; rewrite ?map_app, ?concat_app; simpl; rewrite ?map_app, ?concat_app; simpl; rewrite ?app_nil_r, ?app_assoc; done.
Qed.

Ltac chat_accepted :=
  split; [reflexivity|]; cbn -[str_eqb lit]; rewrite ?str_eqb_refl; simpl; split_and!; try done; repeat constructor.

Lemma close_reasoning_leads : leads chat_bracket (fun s b => chat_bracket s b /\ reasoning_item s = None) close_reasoning.
Proof.
  intros s b [(Ea & Er & ->)|[(content & Ea & Er & ->)|(content & Ea & Er & ->)]]%chat_bracket_cases;
    unfold close_reasoning, look, seq, modify; simpl; rewrite Er; simpl.
  - exists [], Idle. unfold chat_bracket. simpl. by rewrite Ea.
  - exists [], (InMessage (content_text content)). unfold chat_bracket. simpl. by rewrite Ea.
  - eexists [_], Idle. unfold chat_bracket. simpl. rewrite Ea. chat_accepted.
Qed.

Lemma close_assistant_leads : leads chat_bracket (fun s b => chat_bracket s b /\ assistant_item s = None) close_assistant.
Proof.
  intros s b [(Ea & Er & ->)|[(content & Ea & Er & ->)|(content & Ea & Er & ->)]]%chat_bracket_cases;
    unfold close_assistant, look, seq, modify; simpl; rewrite Ea; simpl.
  - exists [], Idle. unfold chat_bracket. simpl. by rewrite Er.
  - eexists [_], Idle. unfold chat_bracket. simpl. rewrite Er. chat_accepted.
  - exists [], (InReasoning (reasoning_content_text content)). unfold chat_bracket. simpl. by rewrite Er.
Qed.

(** Closing both leaves nothing open. *)
Lemma close_both_leads : leads chat_bracket idle (close_reasoning ;; close_assistant).
Proof.
  eapply leads_seq; [exact close_reasoning_leads|].
  intros s b [[(Ea & Er & ->)|[(content & Ea & Er & ->)|(content & Ea & Er & ->)]]%chat_bracket_cases Hr];
    unfold close_assistant, look, seq, modify; simpl; rewrite Ea; simpl; [by exists [], Idle| |congruence].
  eexists [_], Idle. unfold idle. simpl. rewrite Er. chat_accepted.
Qed.

Lemma keeps_flush_tool_calls : keeps idle flush_tool_calls.
Proof.
  assert (forall i, keeps idle (flush_tool_call i)) as Hone.
  { intros i s b Hi. unfold flush_tool_call, look. destruct (tool_calls (tools s) !! i) as [st|]; [|by exists [], b].
    unfold assembled_call. destruct Hi as (Ea & Er & ->). destruct (tc_name st); [|by exists [], Idle].
    eexists [_], Idle. split; [reflexivity|]. cbn. split_and!; try done; repeat constructor. }
  intros s b Hi. apply (keeps_seq idle); [by apply keeps_modify|by apply keeps_for_each|done].
Qed.

Lemma flush_leads : leads chat_bracket idle flush.
Proof.
  intros s b HR. unfold flush.
  assert (forall (a1 a2 a3 : Act ChatState) s, (a1 ;; a2 ;; a3) s = ((a1 ;; a2) ;; a3) s) as ->.
  { intros a1 a2 a3 s0. unfold seq. destruct (a1 s0) as [s1 e1]. destruct (a2 s1) as [s2 e2]. destruct (a3 s2) as [s3 e3]. by rewrite app_assoc. }
  revert s b HR. eapply leads_seq; [exact close_both_leads|exact keeps_flush_tool_calls].
Qed.

Lemma keeps_append_assistant_text text : keeps chat_bracket (append_assistant_text text).
Proof.
  intros s b [(Ea & Er & ->)|[(content & Ea & Er & ->)|(content & Ea & Er & ->)]]%chat_bracket_cases;
    unfold append_assistant_text, close_reasoning, look, seq, modify; simpl; rewrite Ea; simpl; rewrite ?Er; simpl; rewrite ?Ea; simpl.
  - eexists [_; _], (InMessage text). unfold chat_bracket, content_text. simpl. rewrite ?app_nil_r. chat_accepted.
  - eexists [_], (InMessage (content_text content ++ text)). unfold chat_bracket. simpl. rewrite Er, content_text_snoc. chat_accepted.
  - eexists [_; _; _], (InMessage text). unfold chat_bracket, content_text. simpl. rewrite ?app_nil_r. chat_accepted.
Qed.

Lemma keeps_append_reasoning_text text : keeps chat_bracket (append_reasoning_text text).
Proof.
  intros s b [(Ea & Er & ->)|[(content & Ea & Er & ->)|(content & Ea & Er & ->)]]%chat_bracket_cases;
    unfold append_reasoning_text, close_assistant, look, seq, modify; simpl; rewrite Er; simpl; rewrite ?Ea; simpl; rewrite ?Er; simpl.
  - eexists [_; _], (InReasoning text). unfold chat_bracket, reasoning_content_text. simpl. rewrite ?app_nil_r. chat_accepted.
  - eexists [_; _; _], (InReasoning text). unfold chat_bracket, reasoning_content_text. simpl. rewrite ?app_nil_r. chat_accepted.
  - eexists [_], (InReasoning (reasoning_content_text content ++ text)). unfold chat_bracket. simpl. rewrite Ea, extend_reasoning_text. chat_accepted.
Qed.

#[local] Hint Resolve keeps_append_assistant_text keeps_append_reasoning_text : keeps.

Lemma keeps_unrelated f : (forall s, assistant_item (f s) = assistant_item s /\ reasoning_item (f s) = reasoning_item s) ->
  keeps chat_bracket (modify f : Act ChatState).
Proof. intros Hf. apply keeps_modify. intros s b. unfold chat_bracket. by destruct (Hf s) as [-> ->]. Qed.

Lemma keeps_flush : keeps chat_bracket flush.
Proof. eapply leads_weaken; [exact idle_bracket|exact flush_leads]. Qed.

Lemma keeps_read_choice choice : keeps chat_bracket (read_choice choice).
Proof.
  assert (forall c, keeps chat_bracket (read_reasoning c)) as Hr by (intros c; unfold read_reasoning; case_match; auto with keeps).
  assert (forall c, keeps chat_bracket (read_refusal c)) as Hf
    by (intros c; unfold read_refusal; case_match; auto with keeps; by apply keeps_unrelated).
  unfold read_choice. apply keeps_seq; [|apply keeps_seq]; case_match; auto with keeps.
  - unfold read_delta. repeat apply keeps_seq; auto with keeps. apply keeps_for_each. intros x. by apply keeps_unrelated.
  - by apply keeps_seq.
  - apply keeps_seq; [by apply keeps_unrelated|exact keeps_flush].
Qed.

Lemma chat_keeps_frame value : keeps chat_bracket (read_frame value).
Proof. apply keeps_seq; [case_match; auto with keeps; by apply keeps_unrelated|]. apply keeps_for_each, keeps_read_choice. Qed.

Lemma ends_flush_and_complete : ends chat_bracket flush_and_complete.
Proof.
  eapply ends_seq; [exact flush_leads|]. apply ends_look. intros s. case_match; [|apply ends_fail].
  apply ends_complete; [done|]. unfold idle. naive_solver.
Qed.

Lemma chat_keeps_poll : keeps_poll chat_bracket on_poll.
Proof.
  intros [data|message| | |] s b HR; cbn [on_poll].
  - destruct (is_nil (trim data)); [by apply round_continuing; [apply keeps_skip|]|].
    destruct (is_sentinel (trim data)); [by apply round_returning; [apply ends_flush_and_complete|]|].
    destruct (from_str (trim data)) as [value|]; [|by apply round_continuing; [apply keeps_skip|]].
    destruct (provider_error_message value); [by apply round_returning; [apply ends_fail|]|]. by apply round_continuing; [apply chat_keeps_frame|].
  - by apply round_returning; [apply ends_fail|].
  - by apply round_returning; [apply ends_flush_and_complete|].
  - apply round_returning; [|done]. destruct (finished s); [apply ends_flush_and_complete|apply ends_fail].
  - apply round_closed.
Qed.

(** C19. Whatever frames, errors and timeouts arrive: at most one item is open at a time,
    it is announced before its deltas, the finished item holds exactly the text that
    was streamed, the turn accepts every event, and a run that is over has ended with
    one completion, after which nothing is open, or one error, unless the receiver
    went away. *)
Theorem chat_events_are_bracketed (polls : list Poll) (user_turn_item : list MessageContent -> bool) (cut : bool) :
  let '(_, out, stop) := process_chat_sse polls in
  exists es ending, out = emissions es ending /\ bracketed Idle es ending
    /\ (stop = false -> ending = Running) /\ (stop = true -> ReceiverClosed ∉ polls -> ending <> Running)
    /\ is_some (consume_all user_turn_item cut None es) = true.
Proof. apply (run_is_consumed chat_bracket); [exact chat_keeps_poll|done]. Qed.

(** ** Nothing is lost *)

(** The text and the reasoning a choice and a frame carry. *)
Definition choice_text (choice : Value) : str :=
  match get (lit "delta") choice with Some delta => concat (content_texts delta) | None => [] end.
Definition choice_reasoning (choice : Value) : str :=
  match get (lit "delta") choice with Some delta => unwrap_or (reasoning_text delta) [] | None => [] end
  ++ match get (lit "message") choice with Some message => unwrap_or (reasoning_text message) [] | None => [] end.
Definition frame_text (value : Value) : str := concat (List.map choice_text (frame_choices value)).
Definition frame_reasoning (value : Value) : str := concat (List.map choice_reasoning (frame_choices value)).

(** An action that streams these texts. *)
Definition streams (a : Act ChatState) (text reasoning : str) : Prop := keeps chat_bracket a /\
  forall s b, chat_bracket s b -> text_deltas (snd (a s)) = text /\ reasoning_deltas (snd (a s)) = reasoning.

Lemma keeps_bracket (a : Act ChatState) s b : keeps chat_bracket a -> chat_bracket s b -> exists b', chat_bracket (fst (a s)) b'.
Proof. intros Ha HR. destruct (Ha s b HR) as (es & b' & _ & _ & _ & HR'). eauto. Qed.

Lemma streams_seq a1 a2 t1 t2 r1 r2 : streams a1 t1 r1 -> streams a2 t2 r2 -> streams (a1 ;; a2) (t1 ++ t2) (r1 ++ r2).
Proof.
  intros [K1 H1] [K2 H2]. split; [by apply keeps_seq|]. intros s b HR. destruct (H1 s b HR) as [Ht1 Hr1].
  destruct (keeps_bracket a1 s b K1 HR) as [b1 HR1]. unfold seq. destruct (a1 s) as [s1 e1]. simpl in *.
  destruct (H2 s1 b1 HR1) as [Ht2 Hr2]. destruct (a2 s1) as [s2 e2]. simpl in *. rewrite text_deltas_app, reasoning_deltas_app. by subst.
Qed.

Lemma streams_for_each {A} (f : A -> Act ChatState) (t r : A -> str) l :
  (forall x, streams (f x) (t x) (r x)) -> streams (for_each f l) (concat (List.map t l)) (concat (List.map r l)).
Proof. intros Hf. induction l; simpl; [by split; [apply keeps_skip|]|by apply streams_seq]. Qed.

Lemma streams_skip : streams skip [] [].
Proof. by split; [apply keeps_skip|]. Qed.

Lemma streams_quiet (a : Act ChatState) : keeps chat_bracket a -> (forall s, text_deltas (snd (a s)) = [] /\ reasoning_deltas (snd (a s)) = []) -> streams a [] [].
Proof. intros K Hq. split; [done|]. intros s _ _. apply Hq. Qed.

Lemma done_if_deltas i (s : ChatState) : text_deltas (snd (done_if i s)) = [] /\ reasoning_deltas (snd (done_if i s)) = [].
Proof. by destruct i. Qed.

Lemma seq_deltas (a1 a2 : Act ChatState) s :
  (forall s, text_deltas (snd (a1 s)) = [] /\ reasoning_deltas (snd (a1 s)) = []) ->
  (forall s, text_deltas (snd (a2 s)) = [] /\ reasoning_deltas (snd (a2 s)) = []) ->
  text_deltas (snd ((a1 ;; a2) s)) = [] /\ reasoning_deltas (snd ((a1 ;; a2) s)) = [].
Proof.
  intros H1 H2. unfold seq. specialize (H1 s). destruct (a1 s) as [s1 e1]. specialize (H2 s1). destruct (a2 s1) as [s2 e2]. simpl in *.
  rewrite text_deltas_app, reasoning_deltas_app. destruct H1 as [-> ->]. by destruct H2 as [-> ->].
Qed.

Lemma flush_deltas s : text_deltas (snd (flush s)) = [] /\ reasoning_deltas (snd (flush s)) = [].
Proof.
  assert (forall i s, text_deltas (snd (flush_tool_call i s)) = [] /\ reasoning_deltas (snd (flush_tool_call i s)) = []) as Hone.
  { intros i s0. unfold flush_tool_call, look. destruct (tool_calls (tools s0) !! i) as [st|]; [|done]. by destruct (assembled_call i st). }
  assert (forall l s, text_deltas (snd (for_each flush_tool_call l s)) = [] /\ reasoning_deltas (snd (for_each flush_tool_call l s)) = []) as Hall.
  { induction l as [|i l IH]; intros s0; [done|]. by apply seq_deltas. }
  unfold flush. apply seq_deltas; [|intros s1; apply seq_deltas; [|intros s2]].
  - intros s0. unfold close_reasoning, look. apply seq_deltas; [done|apply done_if_deltas].
  - intros s0. unfold close_assistant, look. apply seq_deltas; [done|apply done_if_deltas].
  - unfold flush_tool_calls, look. apply seq_deltas; [done|apply Hall].
Qed.

Lemma streams_append_assistant text : streams (append_assistant_text text) text [].
Proof.
  split; [apply keeps_append_assistant_text|].
  intros s b [(Ea & Er & ->)|[(content & Ea & Er & ->)|(content & Ea & Er & ->)]]%chat_bracket_cases;
    unfold append_assistant_text, close_reasoning, look, seq, modify; simpl; rewrite Ea; simpl; rewrite ?Er; simpl; rewrite ?Ea; simpl;
    unfold text_deltas, reasoning_deltas; simpl; by rewrite app_nil_r.
Qed.

Lemma streams_append_reasoning text : streams (append_reasoning_text text) [] text.
Proof.
  split; [apply keeps_append_reasoning_text|].
  intros s b [(Ea & Er & ->)|[(content & Ea & Er & ->)|(content & Ea & Er & ->)]]%chat_bracket_cases;
    unfold append_reasoning_text, close_assistant, look, seq, modify; simpl; rewrite Er; simpl; rewrite ?Ea; simpl; rewrite ?Er; simpl;
    unfold text_deltas, reasoning_deltas; simpl; by rewrite app_nil_r.
Qed.

Lemma streams_modify f : (forall s, assistant_item (f s) = assistant_item s /\ reasoning_item (f s) = reasoning_item s) -> streams (modify f) [] [].
Proof. intros Hf. apply streams_quiet; [by apply keeps_unrelated|done]. Qed.

Lemma streams_read_reasoning c : streams (read_reasoning c) [] (unwrap_or (reasoning_text c) []).
Proof. unfold read_reasoning. destruct (reasoning_text c); [apply streams_append_reasoning|apply streams_skip]. Qed.
Lemma streams_read_refusal c : streams (read_refusal c) [] [].
Proof. unfold read_refusal. case_match; [by apply streams_modify|apply streams_skip]. Qed.

Lemma concat_nils {A B} (l : list A) : concat (List.map (fun _ => @nil B) l) = [].
Proof. by induction l. Qed.

Lemma streams_read_delta delta : streams (read_delta delta) (concat (content_texts delta)) (unwrap_or (reasoning_text delta) []).
Proof.
  assert (concat (content_texts delta) = [] ++ [] ++ concat (List.map (fun t : str => t) (content_texts delta)) ++ concat (List.map (fun _ => []) (delta_tool_calls delta))) as ->
    by (by rewrite map_id, concat_nils, app_nil_r).
  assert (unwrap_or (reasoning_text delta) [] = unwrap_or (reasoning_text delta) [] ++ [] ++ concat (List.map (fun _ => []) (content_texts delta)) ++ concat (List.map (fun _ => []) (delta_tool_calls delta))) as Hr
    by (by rewrite !concat_nils, !app_nil_r).
  rewrite Hr. unfold read_delta. apply streams_seq; [apply streams_read_reasoning|]. apply streams_seq; [apply streams_read_refusal|].
  apply streams_seq; apply streams_for_each; [apply streams_append_assistant|]. intros x. by apply streams_modify.
Qed.

Lemma streams_read_choice choice : streams (read_choice choice) (choice_text choice) (choice_reasoning choice).
Proof.
  unfold read_choice, choice_text, choice_reasoning.
  rewrite <- (app_nil_r (match get (lit "delta") choice with Some delta => concat _ | None => [] end)).
  apply streams_seq; [case_match; [apply streams_read_delta|apply streams_skip]|].
  rewrite <- (app_nil_r (match get (lit "message") choice with Some message => _ | None => [] end)). change (@nil char) with (@nil char ++ []).
  apply (streams_seq _ _ [] [] _ []).
  - case_match; [|apply streams_skip]. unfold read_message. rewrite <- (app_nil_r (unwrap_or _ _)).
    apply (streams_seq _ _ [] [] _ []); [apply streams_read_reasoning|apply streams_read_refusal].
  - case_match; [|apply streams_skip]. apply (streams_seq _ _ [] [] [] []); [by apply streams_modify|].
    apply streams_quiet; [exact keeps_flush|exact flush_deltas].
Qed.

Lemma streams_read_frame value : streams (read_frame value) (frame_text value) (frame_reasoning value).
Proof.
  apply (streams_seq _ _ [] _ [] _); [case_match; [by apply streams_modify|apply streams_skip]|].
  apply streams_for_each, streams_read_choice.
Qed.

(** Events before the sentinel, and frames without an error. *)
Definition before_done (data : str) : Prop := is_sentinel (trim data) = false.
Definition no_error (value : Value) : Prop := provider_error_message value = None.

Lemma chat_run_frames datas s : Forall before_done datas -> Forall no_error (frames datas) ->
  run on_poll (List.map PollEvent datas) s = continuing (for_each read_frame (frames datas) s).
Proof.
  revert s. induction datas as [|data datas IH]; intros s Hd Hc; [done|]. apply Forall_cons in Hd as [Hb Hd]. unfold frames in *. simpl in *.
  unfold before_done in Hb. rewrite Hb. destruct (is_nil (trim data)); [simpl; rewrite IH by done; done|].
  destruct (from_str (trim data)) as [value|]; [|simpl; rewrite IH by done; done].
  apply Forall_cons in Hc as [He Hc]. unfold no_error in He. rewrite He. simpl. unfold seq. destruct (read_frame value s) as [s1 es1].
  simpl. rewrite IH by done. unfold continuing. by destruct (for_each _ _ s1) as [s2 es2].
Qed.

(** The two ways a stream ends by itself. *)
Definition ending_poll (p : Poll) : Prop := p = PollEnd \/ exists data, p = PollEvent data /\ is_nil (trim data) = false /\ is_sentinel (trim data) = true.

Lemma chat_ending_poll p s : ending_poll p -> on_poll p s = returning (flush_and_complete s).
Proof. intros [->|(data & -> & Hn & Hs)]; simpl; [done|]. by rewrite Hn, Hs. Qed.

Lemma run_to_end datas p : Forall before_done datas -> Forall no_error (frames datas) -> ending_poll p ->
  process_chat_sse (List.map PollEvent datas ++ [p]) = returning ((for_each read_frame (frames datas) ;; flush_and_complete) start).
Proof.
  intros Hd Hc Hp. unfold process_chat_sse. rewrite stream_run_app, chat_run_frames by done. unfold continuing, returning, seq.
  destruct (for_each read_frame (frames datas) start) as [s1 es1]. simpl. rewrite chat_ending_poll by done. unfold returning.
  by destruct (flush_and_complete s1).
Qed.

(** Reading frames and handing everything over. *)
Definition read_all (fs : list Value) : Act ChatState := for_each read_frame fs ;; flush.

Lemma read_all_leads fs : leads chat_bracket idle (read_all fs).
Proof. eapply leads_seq; [apply keeps_for_each, chat_keeps_frame|exact flush_leads]. Qed.

Lemma run_events datas p : Forall before_done datas -> Forall no_error (frames datas) -> ending_poll p ->
  exists e, snd (fst (process_chat_sse (List.map PollEvent datas ++ [p]))) = snd (read_all (frames datas) start) ++ [e] /\ done_item e = None.
Proof.
  intros Hd Hc Hp. rewrite run_to_end by done. unfold returning, read_all, flush_and_complete, seq. simpl.
  destruct (for_each read_frame (frames datas) start) as [s1 es1]. destruct (flush s1) as [s2 es2]. simpl. unfold complete, look.
  destruct (is_nil (refusal s2)); simpl; eexists; by rewrite app_assoc.
Qed.

(** No text is lost, made up or mistaken: when the stream has ended, the messages
    handed over hold exactly the text of all frames, in order, and the reasoning items
    exactly their reasoning, however the texts alternate, whether or not the choices
    finish, and also when the model declined. *)
Theorem chat_text_is_complete (datas : list str) (p : Poll) :
  Forall before_done datas -> Forall no_error (frames datas) -> ending_poll p ->
  let out := snd (fst (process_chat_sse (List.map PollEvent datas ++ [p]))) in
  concat (List.map item_text (done_items out)) = concat (List.map frame_text (frames datas))
  /\ concat (List.map item_reasoning (done_items out)) = concat (List.map frame_reasoning (frames datas)).
Proof.
  intros Hd Hc Hp. destruct (run_events datas p Hd Hc Hp) as (e & -> & He). simpl. rewrite done_items_app.
  assert (done_items [e] = []) as -> by (unfold done_items; simpl; by rewrite He). rewrite app_nil_r.
  destruct (streams_for_each read_frame frame_text frame_reasoning (frames datas) streams_read_frame) as [K Hs].
  destruct (streams_seq _ _ _ _ _ _ (conj K Hs) (streams_quiet flush keeps_flush flush_deltas)) as [_ Hall].
  destruct (Hall start Idle eq_refl) as [E1 E2]. rewrite app_nil_r in E1, E2. rewrite <- E1, <- E2. fold (read_all (frames datas)).
  destruct (read_all_leads (frames datas) start Idle eq_refl) as (es & b & -> & Hb & _ & (_ & _ & ->)).
  destruct (brackets_text _ _ _ Hb) as [T1 T2]. simpl in T1, T2. by rewrite T1, T2, !app_nil_r.
Qed.

(** ** Calls from fragments *)

(** The first of each, in order. *)
Definition firsts (l : list N) : list N := fold_left (fun acc i => if bool_decide (i ∈ acc) then acc else acc ++ [i]) l [].

Lemma firsts_snoc l i : firsts (l ++ [i]) = if bool_decide (i ∈ firsts l) then firsts l else firsts l ++ [i].
Proof. unfold firsts. by rewrite fold_left_app. Qed.

Lemma elem_of_firsts l i : i ∈ firsts l <-> i ∈ l.
Proof.
  induction l as [|j l IH] using rev_ind; [done|]. rewrite firsts_snoc. case_bool_decide; set_solver.
Qed.

Lemma firsts_nodup l : NoDup (firsts l).
Proof.
  induction l as [|j l IH] using rev_ind; [apply NoDup_nil_2|]. rewrite firsts_snoc. case_bool_decide; [done|].
  apply NoDup_app. split_and!; [done|set_solver|apply NoDup_singleton].
Qed.

(** Fragments with the calls they are of: a call is known by its index or, when it was
    begun without one, by the number it takes. *)
Definition Routed : Type := list (N * Value).
Definition routes (l : Routed) : list N := List.map fst l.
Definition fragments_of (i : N) (l : Routed) : list Value := List.map snd (List.filter (fun f => bool_decide (fst f = i)) l).

(** The call the fragments of one call make: its first identifier and name and all
    its arguments. *)
Definition assemble (tcs : list Value) : ToolCallState :=
  mkCall (head (omap wire_id tcs)) (head (omap wire_name tcs)) (concat (omap wire_arguments tcs)).

Lemma head_snoc {A B} (f : A -> option B) l x : head (omap f (l ++ [x])) = match head (omap f l) with Some y => Some y | None => f x end.
Proof. rewrite omap_app. simpl. destruct (omap f l); simpl; [|done]. by destruct (f x). Qed.

Lemma assemble_snoc tcs tc : assemble (tcs ++ [tc]) = add_fragment tc (assemble tcs).
Proof.
  unfold assemble, add_fragment. rewrite !head_snoc, omap_app, concat_app. f_equal; simpl; [..|by destruct (wire_arguments tc); simpl; rewrite ?app_nil_r].
  - by destruct (head (omap wire_id tcs)).
  - by destruct (head (omap wire_name tcs)).
Qed.

(** How a fragment tells which call it is of: by its index; without one, by the
    identifier of an earlier fragment of that call; with a new identifier it begins the
    call after those with the numbers up to then; with neither it continues the
    fragment before it.  No identifier is shared by two calls. *)
Definition tells (l : Routed) (i : N) (tc : Value) : Prop :=
  (forall id j tc', wire_id tc = Some id -> (j, tc') ∈ l -> wire_id tc' = Some id -> j = i) /\
  match wire_index tc, wire_id tc with
  | Some index, _ => i = index
  | None, Some id => (exists tc', (i, tc') ∈ l /\ wire_id tc' = Some id) \/ (forall j, j ∈ routes l <-> (j < i)%N)
  | None, None => i = from_option fst 0%N (last l)
  end.

Inductive addressed : Routed -> Prop :=
| addressed_nil : addressed []
| addressed_snoc l i tc : addressed l -> tells l i tc -> addressed (l ++ [(i, tc)]).

(** What has been collected from fragments. *)
Record collected (l : Routed) (t : ToolCalls) : Prop := {
  collected_calls i : tool_calls t !! i = if bool_decide (i ∈ routes l) then Some (assemble (fragments_of i l)) else None;
  collected_order : tool_call_order t = firsts (routes l);
  collected_seen i : i ∈ tool_call_order_seen t <-> i ∈ routes l;
  collected_ids id i : tool_call_index_by_id t !! id = Some i -> exists tc, (i, tc) ∈ l /\ wire_id tc = Some id;
  collected_known id i tc : (i, tc) ∈ l -> wire_id tc = Some id -> is_Some (tool_call_index_by_id t !! id);
  collected_next j : (j < next_tool_call_index t)%N -> j ∈ routes l;
  collected_last : last_tool_call_index t = fst <$> last l }.

Lemma routes_snoc l i tc : routes (l ++ [(i, tc)]) = routes l ++ [i].
Proof. apply List.map_app. Qed.

Lemma fragments_of_snoc i l j tc : fragments_of i (l ++ [(j, tc)]) = fragments_of i l ++ if bool_decide (j = i) then [tc] else [].
Proof. unfold fragments_of. rewrite List.filter_app, List.map_app. simpl. by case_bool_decide. Qed.

Lemma fragments_none i l : i ∉ routes l -> fragments_of i l = [].
Proof.
  induction l as [|[j tc] l IH] using rev_ind; [done|]. rewrite routes_snoc, fragments_of_snoc. intros Hn.
  rewrite IH by set_solver. case_bool_decide; set_solver.
Qed.

(** The search for a number stops at a free one. *)
Lemma next_free_stops fuel calls n i : calls !! i = None -> (n <= i)%N -> (next_free fuel calls n <= i)%N.
Proof.
  intros Hi. revert n. induction fuel as [|fuel IH]; intros n Hn; simpl; [done|]. destruct (calls !! n) eqn:E; [|done].
  apply IH. destruct (decide (n = i)) as [->|]; [congruence|lia].
Qed.

#[local] Arguments next_free : simpl never.

(** A call begun without an index takes the number after those taken. *)
Lemma next_free_after l t i : collected l t -> (forall j, j ∈ routes l <-> (j < i)%N) ->
  next_free (S (size (tool_calls t))) (tool_calls t) (next_tool_call_index t) = i.
Proof.
  intros C Hi. pose proof (next_free_fresh (tool_calls t) (next_tool_call_index t)) as Hf.
  assert (forall j, tool_calls t !! j = None -> (i <= j)%N) as Hge.
  { intros j. rewrite (collected_calls _ _ C). case_bool_decide as Hj; [done|]. rewrite Hi in Hj. lia. }
  apply Hge in Hf. apply N.le_antisymm; [|done]. apply next_free_stops.
  - rewrite (collected_calls _ _ C), bool_decide_eq_false_2; [done|]. rewrite Hi. lia.
  - apply N.le_ngt. intros Hlt. apply (collected_next _ _ C), Hi in Hlt. lia.
Qed.

(** The program finds the call a fragment tells. *)
Lemma fragment_is_routed l t i tc : collected l t -> tells l i tc ->
  exists next, fragment_index tc t = (i, next) /\ forall j, (j < next)%N -> j ∈ routes l ++ [i].
Proof.
  intros C [Hid Hix]. assert (forall j, (j < next_tool_call_index t)%N -> j ∈ routes l ++ [i]) as Hold
    by (intros j Hj%(collected_next _ _ C); set_solver).
  assert (forall k, (forall j, j ∈ routes l <-> (j < k)%N) -> forall j, (j < k + 1)%N -> j ∈ routes l ++ [k]) as Hnew.
  { intros k Hk j Hj. rewrite elem_of_app, Hk, list_elem_of_singleton. lia. }
  unfold fragment_index. destruct (wire_id tc) as [id|] eqn:Eid; simpl.
  - destruct (tool_call_index_by_id t !! id) as [j|] eqn:Ej; simpl.
    { destruct (collected_ids _ _ C _ _ Ej) as (tc' & Hin & He). exists (next_tool_call_index t). split; [|done]. f_equal. eauto. }
    destruct (wire_index tc) as [index|]; simpl; [subst; eauto|]. destruct Hix as [(tc' & Hin & He)|Hfree].
    { destruct (collected_known _ _ C _ _ _ Hin He) as [j Hj]. congruence. }
    rewrite (next_free_after l t i) by done. eauto.
  - destruct (wire_index tc) as [index|]; simpl; [subst; eauto|]. rewrite (collected_last _ _ C).
    destruct (last l) as [[j tc']|] eqn:El; simpl in *; [subst; eauto|]. apply last_None in El as ->. subst i.
    assert (forall j, j ∈ routes [] <-> (j < 0)%N) as H0 by (intros j; simpl; split; [set_solver|lia]).
    rewrite (next_free_after [] t 0) by done. eauto.
Qed.

Lemma collected_snoc l i tc t : tells l i tc -> collected l t -> collected (l ++ [(i, tc)]) (read_tool_call t tc).
Proof.
  intros Ht C. destruct (fragment_is_routed l t i tc C Ht) as (next & Ef & Hnext). destruct C as [Hc Ho Hs Hi Hk _ _].
  unfold read_tool_call. rewrite Ef. split; simpl.
  - intros j. rewrite fragments_of_snoc, routes_snoc. destruct (decide (j = i)) as [->|Hne].
    + rewrite lookup_insert_eq, !bool_decide_eq_true_2 by (done || set_solver). rewrite assemble_snoc, Hc. f_equal. f_equal.
      case_bool_decide as Hn; [done|]. simpl. by rewrite fragments_none.
    + rewrite lookup_insert_ne by done. rewrite (bool_decide_eq_false_2 (i = j)) by congruence. rewrite app_nil_r, Hc.
      destruct (decide (j ∈ routes l)); [rewrite !bool_decide_eq_true_2 by set_solver|rewrite !bool_decide_eq_false_2 by set_solver]; done.
  - rewrite routes_snoc, firsts_snoc, Ho. erewrite (bool_decide_ext (i ∈ tool_call_order_seen t)); [done|]. by rewrite Hs, elem_of_firsts.
  - intros j. rewrite routes_snoc, elem_of_union, elem_of_singleton, Hs, elem_of_app, list_elem_of_singleton. tauto.
  - intros id j. assert (tool_call_index_by_id t !! id = Some j -> exists tc', (j, tc') ∈ l ++ [(i, tc)] /\ wire_id tc' = Some id) as Hold
      by (intros Hj; destruct (Hi id j Hj) as (tc' & ? & ?); exists tc'; set_solver).
    destruct (wire_id tc) as [id'|] eqn:Eid; [|done]. destruct (tool_call_index_by_id t !! id'); [done|].
    destruct (decide (id = id')) as [->|Hne]; [|by rewrite lookup_insert_ne].
    rewrite lookup_insert_eq. intros [= ->]. exists tc. split; [set_solver|done].
  - intros id j tc' [Hin|[= -> ->]%list_elem_of_singleton]%elem_of_app Hid.
    + pose proof (Hk _ _ _ Hin Hid) as Hold. destruct (wire_id tc) as [id'|]; [|done]. destruct (tool_call_index_by_id t !! id') eqn:E; [done|].
      rewrite lookup_insert_is_Some'. by right.
    + rewrite Hid. destruct (tool_call_index_by_id t !! id) eqn:E; [by rewrite E|]. by rewrite lookup_insert_eq.
  - intros j Hj. rewrite routes_snoc. auto.
  - by rewrite last_snoc.
Qed.

Lemma collected_all l : addressed l -> collected l (fold_left read_tool_call (List.map snd l) no_tools).
Proof.
  induction 1 as [|l i tc _ IH Ht].
  { split; try done; simpl; [intros i; set_solver|set_solver|lia]. }
  rewrite List.map_app, fold_left_app. simpl. by apply collected_snoc.
Qed.

(** The calls waiting to be handed over. *)
Definition waiting (t : ToolCalls) : list Item := omap (fun i => tool_calls t !! i ≫= assembled_call i) (tool_call_order t).

Lemma assembled_is_call i st item : assembled_call i st = Some item -> is_call item = true.
Proof. unfold assembled_call. destruct (tc_name st); naive_solver. Qed.

Lemma done_if_calls i st s : call_items (snd (done_if (assembled_call i st) s)) = match assembled_call i st with Some item => [item] | None => [] end.
Proof. destruct (assembled_call i st) as [item|] eqn:E; [|done]. apply assembled_is_call in E. unfold call_items. simpl. by rewrite E. Qed.

Lemma flush_each l s : NoDup l ->
  call_items (snd (for_each flush_tool_call l s)) = omap (fun i => tool_calls (tools s) !! i ≫= assembled_call i) l.
Proof.
  revert s. induction l as [|i l IH]; intros s Hl; [done|]. apply NoDup_cons in Hl as [Hi Hl]. simpl. unfold seq.
  assert (call_items (snd (flush_tool_call i s)) = match tool_calls (tools s) !! i ≫= assembled_call i with Some item => [item] | None => [] end
    /\ forall j, j <> i -> tool_calls (tools (fst (flush_tool_call i s))) !! j = tool_calls (tools s) !! j) as [H1 H2].
  { unfold flush_tool_call, look. destruct (tool_calls (tools s) !! i) as [st|] eqn:E; simpl; [|done]. unfold seq, modify.
    pose proof (done_if_calls i st (set_tools (remove_call i (tools s)) s)) as Hd.
    assert (fst (done_if (assembled_call i st) (set_tools (remove_call i (tools s)) s)) = set_tools (remove_call i (tools s)) s) as Hf
      by (by destruct (assembled_call i st)).
    destruct (done_if _ _) as [s1 e1]. simpl in *. subst s1. split; [done|]. intros j Hj. simpl. by rewrite lookup_delete_ne. }
  destruct (flush_tool_call i s) as [s1 e1]. simpl in *. specialize (IH s1 Hl). destruct (for_each flush_tool_call l s1) as [s2 e2]. simpl in *.
  rewrite call_items_app, H1, IH. rewrite (list_omap_ext _ (fun j => tool_calls (tools s) !! j ≫= assembled_call j) l l).
  - by destruct (tool_calls (tools s) !! i ≫= assembled_call i).
  - apply Forall_Forall2_diag, Forall_forall. intros j Hj. by rewrite H2 by (intros ->; done).
Qed.

(** Actions that only collect fragments, and those that hand the calls over. *)
Definition collects (a : Act ChatState) (tcs : list Value) : Prop := keeps chat_bracket a /\ forall s b, chat_bracket s b ->
  tools (fst (a s)) = fold_left read_tool_call tcs (tools s) /\ call_items (snd (a s)) = [].
Definition hands_over (a : Act ChatState) (tcs : list Value) : Prop := forall s b, chat_bracket s b ->
  NoDup (tool_call_order (fold_left read_tool_call tcs (tools s))) ->
  call_items (snd (a s)) = waiting (fold_left read_tool_call tcs (tools s)).

Lemma collects_seq a1 a2 tcs1 tcs2 : collects a1 tcs1 -> collects a2 tcs2 -> collects (a1 ;; a2) (tcs1 ++ tcs2).
Proof.
  intros [K1 H1] [K2 H2]. split; [by apply keeps_seq|]. intros s b HR. destruct (H1 s b HR) as [T1 C1].
  destruct (keeps_bracket a1 s b K1 HR) as [b1 HR1]. unfold seq. destruct (a1 s) as [s1 e1]. simpl in *.
  destruct (H2 s1 b1 HR1) as [T2 C2]. destruct (a2 s1) as [s2 e2]. simpl in *. by rewrite call_items_app, fold_left_app, T2, T1, C1, C2.
Qed.

Lemma hands_over_seq a1 a2 tcs1 tcs2 : collects a1 tcs1 -> hands_over a2 tcs2 -> hands_over (a1 ;; a2) (tcs1 ++ tcs2).
Proof.
  intros [K1 H1] H2 s b HR Hn. destruct (H1 s b HR) as [T1 C1]. destruct (keeps_bracket a1 s b K1 HR) as [b1 HR1].
  unfold seq. destruct (a1 s) as [s1 e1]. simpl in *. rewrite fold_left_app in Hn |- *. rewrite <- T1 in Hn |- *.
  specialize (H2 s1 b1 HR1 Hn). destruct (a2 s1) as [s2 e2]. simpl in *. by rewrite call_items_app, C1.
Qed.

Lemma collects_skip : collects skip [].
Proof. by split; [apply keeps_skip|]. Qed.

Lemma collects_for_each {A} (f : A -> Act ChatState) (tk : A -> list Value) l : (forall x, x ∈ l -> collects (f x) (tk x)) ->
  collects (for_each f l) (concat (List.map tk l)).
Proof.
  induction l as [|x l IH]; simpl; intros Hf; [apply collects_skip|]. apply collects_seq; [apply Hf; set_solver|]. apply IH. set_solver.
Qed.

Lemma collects_modify f : (forall s, assistant_item (f s) = assistant_item s /\ reasoning_item (f s) = reasoning_item s /\ tools (f s) = tools s) ->
  collects (modify f) [].
Proof. intros Hf. split; [apply keeps_unrelated; naive_solver|]. intros s b _. by destruct (Hf s) as (_ & _ & E). Qed.

Lemma collects_text text : collects (append_assistant_text text) [] /\ collects (append_reasoning_text text) [].
Proof.
  split; (split; [auto with keeps|]);
    intros s b [(Ea & Er & ->)|[(content & Ea & Er & ->)|(content & Ea & Er & ->)]]%chat_bracket_cases;
    unfold append_assistant_text, append_reasoning_text, close_reasoning, close_assistant, look, seq, modify; simpl; rewrite ?Ea, ?Er; simpl;
    rewrite ?Ea, ?Er; simpl; rewrite ?Ea, ?Er; done.
Qed.

Lemma flush_hands_over : hands_over flush [].
Proof.
  intros s b HR Hn. simpl in *. unfold flush, close_reasoning, close_assistant, flush_tool_calls, look, seq, modify.
  destruct (chat_bracket_cases s b HR) as [(Ea & Er & ->)|[(content & Ea & Er & ->)|(content & Ea & Er & ->)]]; simpl; rewrite Er; simpl; rewrite Ea; simpl;
    (match goal with |- context [for_each flush_tool_call ?l ?s0] => pose proof (flush_each l s0 Hn) as Hf; destruct (for_each flush_tool_call l s0) as [s1 e1] end);
    simpl in *; unfold waiting; rewrite <- Hf; done.
Qed.

Lemma keeps_hands_over a1 a2 tcs : hands_over a1 tcs -> (forall s, call_items (snd (a2 s)) = []) -> hands_over (a1 ;; a2) tcs.
Proof.
  intros H1 H2 s b HR Hn. specialize (H1 s b HR Hn). unfold seq. destruct (a1 s) as [s1 e1]. specialize (H2 s1). destruct (a2 s1) as [s2 e2].
  simpl in *. by rewrite call_items_app, H1, H2, app_nil_r.
Qed.

(** The fragments of a choice and of a frame. *)
Definition choice_tool_calls (choice : Value) : list Value := match get (lit "delta") choice with Some delta => delta_tool_calls delta | None => [] end.
Definition frame_tool_calls (value : Value) : list Value := concat (List.map choice_tool_calls (frame_choices value)).

Lemma collects_read_delta delta : collects (read_delta delta) (delta_tool_calls delta).
Proof.
  change (delta_tool_calls delta) with ([] ++ [] ++ delta_tool_calls delta).
  apply collects_seq; [unfold read_reasoning; case_match; [apply collects_text|apply collects_skip]|].
  apply collects_seq; [unfold read_refusal; case_match; [by apply collects_modify|apply collects_skip]|].
  rewrite <- (app_nil_l (delta_tool_calls delta)). apply collects_seq.
  - rewrite <- (concat_nils (content_texts delta)). apply collects_for_each. intros t _. apply collects_text.
  - assert (delta_tool_calls delta = concat (List.map (fun tc => [tc]) (delta_tool_calls delta))) as E
      by (by induction (delta_tool_calls delta) as [|tc l IH]; simpl; [|rewrite <- IH]).
    rewrite E at 2. apply collects_for_each. intros tc _. split; [by apply keeps_unrelated|done].
Qed.

Lemma collects_read_message message : collects (read_message message) [].
Proof.
  apply (collects_seq _ _ [] []); [unfold read_reasoning; case_match; [apply collects_text|apply collects_skip]|].
  unfold read_refusal. case_match; [by apply collects_modify|apply collects_skip].
Qed.

(** The parts of a choice before its end. *)
Definition choice_body (choice : Value) : Act ChatState :=
  match get (lit "delta") choice with Some delta => read_delta delta | None => skip end ;;
  match get (lit "message") choice with Some message => read_message message | None => skip end.

Lemma collects_choice_body choice : collects (choice_body choice) (choice_tool_calls choice).
Proof.
  unfold choice_body, choice_tool_calls. rewrite <- (app_nil_r (match get (lit "delta") choice with Some d => _ | None => [] end)).
  apply collects_seq; case_match; auto using collects_read_delta, collects_read_message, collects_skip.
Qed.

Lemma read_choice_body choice s : read_choice choice s
  = (choice_body choice ;; match get_str (lit "finish_reason") choice with Some reason => read_finish reason | None => skip end) s.
Proof.
  unfold read_choice, choice_body. generalize (match get (lit "delta") choice with Some d => read_delta d | None => skip end)
    (match get (lit "message") choice with Some m => read_message m | None => skip end)
    (match get_str (lit "finish_reason") choice with Some r => read_finish r | None => skip end).
  intros a1 a2 a3. unfold seq. destruct (a1 s) as [s1 e1]. destruct (a2 s1) as [s2 e2]. destruct (a3 s2) as [s3 e3]. by rewrite app_assoc.
Qed.

Definition unfinished (value : Value) : Prop := forall choice, choice ∈ frame_choices value -> get_str (lit "finish_reason") choice = None.

Lemma collects_ext a1 a2 tcs : (forall s, a1 s = a2 s) -> collects a2 tcs -> collects a1 tcs.
Proof. intros E [K Hc]. split; [intros s b HR; rewrite E; by apply K|intros s b HR; rewrite E; by eapply Hc]. Qed.

Lemma collects_read_frame value : unfinished value -> collects (read_frame value) (frame_tool_calls value).
Proof.
  intros Hu. apply (collects_seq _ _ [] _); [case_match; [by apply collects_modify|apply collects_skip]|].
  apply collects_for_each. intros choice Hc. eapply collects_ext; [apply read_choice_body|]. rewrite (Hu choice Hc).
  rewrite <- (app_nil_r (choice_tool_calls choice)). apply collects_seq; [apply collects_choice_body|apply collects_skip].
Qed.

(** The ways a turn ends: the end of the stream, the sentinel, or a frame whose choice
    finishes; with the fragments that come along. *)
Inductive closing : Poll -> list Value -> Prop :=
| closing_end p : ending_poll p -> closing p []
| closing_finish data value choice reason :
    is_nil (trim data) = false -> before_done data -> from_str (trim data) = Some value -> no_error value ->
    frame_choices value = [choice] -> get_str (lit "finish_reason") choice = Some reason ->
    closing (PollEvent data) (choice_tool_calls choice).

Lemma closing_hands_over p tcs s b : closing p tcs -> chat_bracket s b ->
  NoDup (tool_call_order (fold_left read_tool_call tcs (tools s))) ->
  call_items (snd (fst (on_poll p s))) = waiting (fold_left read_tool_call tcs (tools s)).
Proof.
  intros [q Hq|data value choice reason Hn Hd Hv He Hc Hr] HR Hnd.
  - rewrite chat_ending_poll by done. simpl. apply (keeps_hands_over flush complete [] flush_hands_over) with b; [|done|done].
    intros s1. unfold complete, look. by destruct (is_nil _).
  - unfold before_done, no_error in *. simpl. rewrite Hn, Hd, Hv, He. simpl. unfold read_frame. rewrite Hc. simpl.
    apply (hands_over_seq _ (read_choice choice ;; skip) [] (choice_tool_calls choice)) with b; [| |done|done].
    { case_match; [by apply collects_modify|apply collects_skip]. }
    apply keeps_hands_over; [|done]. intros s1 b1 HR1 Hnd1. rewrite read_choice_body, Hr.
    rewrite <- (app_nil_r (choice_tool_calls choice)) in Hnd1 |- *. revert s1 b1 HR1 Hnd1. apply hands_over_seq; [apply collects_choice_body|].
    apply (hands_over_seq _ flush [] []); [by apply collects_modify|apply flush_hands_over].
Qed.

(** C18. Each tool call is handed over once, when the turn ends, in the order in which the
    calls began, put together from its own fragments: however many frames they arrive
    in, however the fragments of several calls alternate, and whatever text arrives in
    between.  A fragment may tell its call by its index, by an identifier the call has
    had, by a new identifier, which begins a call, or by coming after another fragment
    of it ([tells]); two calls never share an identifier, the empty one included
    ([empty_id_misroutes] shows what happens otherwise).  The frames hold no error and
    do not finish the choice before the last one. *)
Theorem chat_calls_are_assembled (datas : list str) (p : Poll) (last_fragments : list Value) (l : Routed) :
  Forall before_done datas -> Forall no_error (frames datas) -> Forall unfinished (frames datas) -> closing p last_fragments ->
  List.map snd l = concat (List.map frame_tool_calls (frames datas)) ++ last_fragments -> addressed l ->
  call_items (snd (fst (process_chat_sse (List.map PollEvent datas ++ [p]))))
  = omap (fun i => assembled_call i (assemble (fragments_of i l))) (firsts (routes l)).
Proof.
  intros Hd He Hu Hp Hl Hb. unfold process_chat_sse. rewrite stream_run_app, chat_run_frames by done. unfold continuing.
  assert (collects (for_each read_frame (frames datas)) (concat (List.map frame_tool_calls (frames datas)))) as [K Hcol].
  { apply collects_for_each. intros v Hv. apply collects_read_frame. rewrite Forall_forall in Hu. auto. }
  destruct (Hcol start Idle eq_refl) as [T1 C1]. destruct (keeps_bracket _ start Idle K eq_refl) as [b HR].
  destruct (for_each read_frame (frames datas) start) as [s1 e1]. simpl in *.
  destruct (collected_all l Hb) as [Hcalls Hord _ _ _ _ _]. rewrite Hl, fold_left_app in Hcalls, Hord.
  change (tools start) with no_tools in T1. rewrite <- T1 in Hcalls, Hord.
  pose proof (closing_hands_over p last_fragments s1 b Hp HR) as Hc. rewrite Hord in Hc. specialize (Hc (firsts_nodup _)).
  destruct (on_poll p s1) as [[s2 e2] []]; simpl in *; rewrite ?app_nil_r, call_items_app, C1, Hc; unfold waiting; rewrite Hord; simpl;
    apply list_omap_ext, Forall_Forall2_diag, Forall_forall; intros i Hi; rewrite Hcalls, bool_decide_eq_true_2 by (by apply elem_of_firsts); done.
Qed.
End Chat.
End Chat.

(** ** Samples *)

Definition chat_frame (delta : list (string * Value Z)) (rest : list (string * Value Z)) : Value Z :=
  jobj [("choices"%string, JArray [jobj (("delta"%string, jobj delta) :: rest)])].
Definition fragment (index : Z) (id : list (string * Value Z)) (function : list (string * Value Z)) : Value Z :=
  jobj (("index"%string, JNumber index) :: id ++ [("function"%string, jobj function)]).
Definition named (id name : string) (index : Z) : Value Z :=
  fragment index [("id"%string, jstr id)] [("name"%string, jstr name); ("arguments"%string, jstr "")].
Definition begun (id name : string) : Value Z := jobj [("id"%string, jstr id); ("function"%string, jobj [("name"%string, jstr name)])].
Definition argument_by (id : list (string * Value Z)) (text : string) : Value Z :=
  jobj (id ++ [("function"%string, jobj [("arguments"%string, jstr text)])]).
Definition argument (text : string) (index : Z) : Value Z := fragment index [] [("arguments"%string, jstr text)].

Definition chat_table : list (string * Value Z) := [
  ("think"%string, chat_frame [("reasoning_content"%string, jstr "Two "); ("content"%string, jstr "")] []);
  ("more"%string, chat_frame [("reasoning"%string, jobj [("text"%string, jstr "calls.")]) ; ("content"%string, jstr "I ")] []);
  ("call"%string, chat_frame [("content"%string, JArray [jobj [("text"%string, jstr "look.")]]); ("tool_calls"%string, JArray [named "a" "ls" 0; begun "b" "cat"])] []);
  ("args"%string, chat_frame [("tool_calls"%string, JArray [argument_by [("id"%string, jstr "b")] "{x"; argument "{}" 0; argument "," 1; argument_by [] "y}"])] []);
  ("stop"%string, chat_frame [] [("finish_reason"%string, jstr "tool_calls")])].
#[local] Instance chat_text : SerdeText Z := table_text chat_table.

Definition chat_datas : list str := List.map lit ["think"; "more"; "call"; "args"]%string.
Definition chat_call (id name arguments : string) : ResponseItem (Value Z) := FunctionCall None (lit name) None (lit arguments) None (lit id) None.

Example chat_sample :
  match Chat.process_chat_sse (List.map PollEvent (chat_datas ++ [lit "stop"; lit "[DONE]"])) with
  | (_, out, stop) => stop = true
      /\ done_items out = [Reasoning None [] (Some [ReasoningText (lit "Two calls.")]) None None;
                           Message None (lit "assistant") [MsgOutputText (lit "I "); MsgOutputText (lit "look.")] None None;
                           chat_call "a" "ls" "{}"; chat_call "b" "cat" "{x,y}"]
      /\ last out = Some (Ok (Completed [] None None None))
  end.
Proof. vm_compute. split_and!; reflexivity. Qed.

Lemma chat_text_is_complete_witness :
  concat (List.map item_text (done_items (snd (fst (Chat.process_chat_sse (List.map PollEvent chat_datas ++ [PollEnd])))))) = lit "I look.".
Proof.
  rewrite (proj1 (Chat.chat_text_is_complete chat_datas PollEnd ltac:(repeat constructor) ltac:(unfold frames; vm_compute omap; repeat constructor) (or_introl eq_refl))).
  vm_compute. reflexivity.
Defined.

(** The same calls with the second begun by its identifier alone and then continued by
    it, by its number and by coming next. *)
Definition chat_routed : list (N * Value Z) := [(0%N, named "a" "ls" 0); (1%N, begun "b" "cat"); (1%N, argument_by [("id"%string, jstr "b")] "{x");
  (0%N, argument "{}" 0); (1%N, argument "," 1); (1%N, argument_by [] "y}")].
Definition stop_choice : Value Z := jobj [("delta"%string, jobj []); ("finish_reason"%string, jstr "tool_calls")].

Lemma chat_routed_addressed : Chat.addressed chat_routed.
Proof.
  change chat_routed with (((((([] ++ [(0%N, named "a" "ls" 0)]) ++ [(1%N, begun "b" "cat")]) ++ [(1%N, argument_by [("id"%string, jstr "b")] "{x")])
    ++ [(0%N, argument "{}" 0)]) ++ [(1%N, argument "," 1)]) ++ [(1%N, argument_by [] "y}")]).
  repeat match goal with |- Chat.addressed (_ ++ _) => apply Chat.addressed_snoc end; [apply Chat.addressed_nil|..]; split;
    try (intros id j tc' Hid Hin Hid'; apply list_elem_of_In in Hin; repeat destruct Hin as [[= <- <-]|Hin]; try done;
      vm_compute in Hid, Hid'; congruence); vm_compute; try done.
  - right. intros j. split; [intros ->%list_elem_of_singleton; done|]. intros Hj. apply list_elem_of_singleton. by destruct j as [|[]].
  - left. eexists. split; [by right; left|]. reflexivity.
Qed.

Lemma chat_calls_are_assembled_witness :
  call_items (snd (fst (Chat.process_chat_sse (List.map PollEvent chat_datas ++ [PollEvent (lit "stop")]))))
  = [chat_call "a" "ls" "{}"; chat_call "b" "cat" "{x,y}"].
Proof.
  rewrite (Chat.chat_calls_are_assembled chat_datas (PollEvent (lit "stop")) (Chat.choice_tool_calls stop_choice) chat_routed).
  - vm_compute. reflexivity.
  - repeat constructor.
  - unfold frames. vm_compute omap. repeat constructor.
  - unfold frames. vm_compute omap. repeat constructor; intros choice Hc; vm_compute in Hc; set_unfold in Hc; naive_solver.
  - eapply (Chat.closing_finish _ _ stop_choice (lit "tool_calls")); vm_compute; reflexivity.
  - vm_compute. reflexivity.
  - exact chat_routed_addressed.
Defined.

(** A server that pads the fragments after the first of a call with an empty
    identifier: the empty identifier is remembered for the first call, and from then on
    decides over the index the fragments carry. *)
Example empty_id_misroutes :
  let pad := [("id"%string, jstr "")] in
  let fragments := [named "a" "ls" 0; fragment 0 pad [("arguments"%string, jstr "{}")]; named "b" "cat" 1; fragment 1 pad [("arguments"%string, jstr "{x}")]] in
  Chat.waiting (fold_left Chat.read_tool_call fragments Chat.no_tools) = [chat_call "a" "ls" "{}{x}"; chat_call "b" "cat" "{}"].
Proof. vm_compute. reflexivity. Qed.
