(* ===== verification/GeminiStream.v ===== *)
(** * The Gemini wire ([codex-api/src/sse/gemini.rs], [gemini_usage.rs])

    Every frame is a whole response whose parts are what is new; an item ends when a
    part of another kind arrives or the stream does.

    [Turn] and its methods keep their names; [process_gemini_sse] is the loop of
    [ModelStream.v] over [on_poll].  Reading JSON and printing it are functions
    ([SerdeText]).  Indices that only count are unbounded.

    The theorems: whatever arrives, the events keep the protocol of the turn and end
    with one completion or one error ([gemini_events_are_bracketed]); the finished
    items are those of reading all parts at once and grouping neighbours of a kind
    ([gemini_stream_is_batch]); counts are the last ones reported
    ([gemini_usage_is_latest]). *)

From stdpp Require Import base list numbers option strings sets.
From Stdlib Require Import ZArith Lia.
From S2P Require Import Prelude RustStr RustInt GoalStore GoalAccounting ResponseItem Json ModelStream.

#[local] Open Scope act_scope.

Module Gemini.
Section Gemini.
Context {Number : Type} `{Numbers Number} {ST : SerdeText Number}.
Notation Value := (Value Number).
Notation Item := (ResponseItem Value).
Notation Act := (Act Number).
Notation Emission := (result (ResponseEvent Number) (ApiError Number)).

Definition DEFAULT_REFUSAL : str := lit "the model declined to answer this request".

(** ** Usage *)

Definition zero_usage : TokenUsage := mkUsage 0 0 0 0 0 0 None.

Definition merge_gemini_usage (prev : option TokenUsage) (frame : Value) : option TokenUsage :=
  match get (lit "usageMetadata") frame with
  | None => prev
  | Some usage =>
      let prompt := count_field usage (lit "promptTokenCount") in
      let candidates := count_field usage (lit "candidatesTokenCount") in
      let cached := count_field usage (lit "cachedContentTokenCount") in
      let thoughts := count_field usage (lit "thoughtsTokenCount") in
      let total := count_field usage (lit "totalTokenCount") in
      if is_none prompt && is_none candidates && is_none cached && is_none thoughts && is_none total then prev
      else
        let prev := unwrap_or prev zero_usage in
        let cached_input := unwrap_or cached (cached_input_tokens prev) in
        let input := unwrap_or prompt (input_tokens prev) in
        let reasoning := unwrap_or thoughts (reasoning_output_tokens prev) in
        let prev_visible := Z.max (output_tokens prev - reasoning_output_tokens prev) 0 in
        let output := i64_saturating_add (unwrap_or candidates prev_visible) reasoning in
        Some (mkUsage input cached_input 0 output reasoning (unwrap_or total (i64_saturating_add input output)) None)
  end.

(** ** A turn *)

Inductive Open :=
| OpenText (text : str)
| OpenThought (text : str) (signature : option str) (content_index : Z).

Record Turn := mkTurn {
  open : option Open;
  next_content_index : Z;
  next_call_index : nat }.

Definition set_open (o : option Open) (t : Turn) : Turn := mkTurn o (next_content_index t) (next_call_index t).

Definition closed_item (o : option Open) : option Item :=
  match o with
  | Some (OpenText text) => if is_nil text then None else Some (Message None (lit "assistant") [MsgOutputText text] None None)
  | Some (OpenThought text signature _) => Some (Reasoning None [] (Some [ReasoningText text]) signature None)
  | None => None
  end.

Definition close : Act Turn :=
  look (fun t => modify (set_open None) ;; match closed_item (open t) with Some item => emit (OutputItemDone item) | None => skip end).

Definition push_text (text : str) : Act Turn :=
  if is_nil text then skip
  else
    look (fun t => match open t with
                   | Some (OpenText _) => skip
                   | _ => close ;; modify (set_open (Some (OpenText []))) ;; emit (OutputItemAdded empty_message)
                   end) ;;
    modify (fun t => match open t with Some (OpenText buffer) => set_open (Some (OpenText (buffer ++ text))) t | _ => t end) ;;
    emit (OutputTextDelta text).

Definition push_thought (text : str) : Act Turn :=
  if is_nil text then skip
  else
    look (fun t => match open t with
                   | Some (OpenThought _ _ _) => skip
                   | _ =>
                       close ;;
                       modify (fun t => mkTurn (Some (OpenThought [] None (next_content_index t))) (next_content_index t + 1) (next_call_index t)) ;;
                       emit (OutputItemAdded (empty_reasoning None))
                   end) ;;
    modify (fun t => match open t with
                     | Some (OpenThought buffer signature i) => set_open (Some (OpenThought (buffer ++ text) signature i)) t
                     | _ => t
                     end) ;;
    look (fun t => emit (ReasoningContentDelta text (match open t with Some (OpenThought _ _ i) => i | _ => 0%Z end))).

Definition set_signature (signature : str) : Act Turn :=
  modify (fun t => match open t with
                   | Some (OpenThought text _ i) => set_open (Some (OpenThought text (Some signature) i)) t
                   | _ => t
                   end).

Definition call_name (call : Value) : option str :=
  match get_str (lit "name") call with Some name => if is_nil name then None else Some name | None => None end.

Definition call_arguments (call : Value) : str :=
  match get (lit "args") call with
  | Some args => if is_object args then to_string args else lit "{}"
  | None => lit "{}"
  end.

Definition call_id_of (n : nat) : str := lit "gemini-call-" ++ show_nat n.

Definition push_function_call (call : Value) (signature : option str) : Act Turn :=
  match call_name call with
  | None => skip
  | Some name =>
      close ;;
      look (fun t =>
        let call_id := call_id_of (next_call_index t) in
        let arguments := call_arguments call in
        modify (fun t => mkTurn (open t) (next_content_index t) (S (next_call_index t))) ;;
        emit (ToolCallInputDelta call_id (Some call_id) arguments) ;;
        emit (OutputItemDone (FunctionCall None name None arguments (option_map (fun sig => [sig]) signature) call_id None)))
  end.

Definition is_thought (part : Value) : bool :=
  match get (lit "thought") part with
  | Some (JBool flag) => flag
  | Some (JString flag) => eq_ignore_ascii_case flag (lit "true")
  | _ => false
  end.

Definition apply_part (part : Value) : Act Turn :=
  let signature := get_str (lit "thoughtSignature") part in
  match get (lit "functionCall") part with
  | Some call => push_function_call call signature
  | None =>
      match get_str (lit "text") part with
      | Some text =>
          (if is_thought part then push_thought text else push_text text) ;;
          match signature with Some sig => set_signature sig | None => skip end
      | None => match signature with Some sig => set_signature sig | None => skip end
      end
  end.

(** ** The stream *)

Record GeminiState := mkGemini {
  turn : Turn;
  response_id : str;
  usage : option TokenUsage;
  finish_reason : option str }.

Definition new_turn : Turn := mkTurn None 0 0.
Definition start : GeminiState := mkGemini new_turn [] None None.

Definition on_turn (a : Act Turn) : Act GeminiState := fun s =>
  let '(t, es) := a (turn s) in (mkGemini t (response_id s) (usage s) (finish_reason s), es).

Definition is_refusal (reason : str) : bool :=
  existsb (str_eqb reason)
    (List.map lit ["SAFETY"; "RECITATION"; "BLOCKLIST"; "PROHIBITED_CONTENT"; "SPII"; "IMAGE_SAFETY"; "UNEXPECTED_TOOL_CALL"]).

Definition end_turn_of (reason : str) : option bool :=
  if str_eqb reason (lit "STOP") then Some true else if str_eqb reason (lit "MAX_TOKENS") then Some false else None.

Definition conclude : Act GeminiState :=
  look (fun s =>
    let reason := unwrap_or (finish_reason s) [] in
    if is_refusal reason then fail (InvalidRequest (DEFAULT_REFUSAL ++ lit " (finish reason: " ++ reason ++ lit ")"))
    else if str_eqb reason (lit "MALFORMED_FUNCTION_CALL") then fail (Retryable (lit "gemini returned a malformed function call") None)
    else emit (Completed (response_id s) (usage s) None (end_turn_of reason))).

Definition finish : Act GeminiState := on_turn close ;; conclude.

Definition stream_error (value : Value) : ApiError Number :=
  let error := get (lit "error") value in
  let status := unwrap_or (error ≫= get_str (lit "status")) [] in
  let code := unwrap_or ((error ≫= get (lit "code")) ≫= as_i64) 0%Z in
  let message := match error ≫= get_str (lit "message") with
                 | Some m => m
                 | None => match error with Some e => to_string e | None => to_string value end
                 end in
  if str_eqb status (lit "RESOURCE_EXHAUSTED") || str_eqb status (lit "UNAVAILABLE") || Z.eqb code 429 || Z.eqb code 503
  then Retryable message None
  else StreamError message.

Definition first_candidate (value : Value) : option Value :=
  match get (lit "candidates") value ≫= as_array with
  | Some l => List.find (fun c => Z.eqb (unwrap_or (get (lit "index") c ≫= as_i64) 0%Z) 0) l
  | None => None
  end.

Definition candidate_parts (candidate : Value) : list Value :=
  unwrap_or (pointer [lit "content"; lit "parts"] candidate ≫= as_array) [].

(** A frame without an error. *)
Definition read_frame (value : Value) : Act GeminiState :=
  modify (fun s => mkGemini (turn s) (unwrap_or (get_str (lit "responseId") value) (response_id s))
                     (merge_gemini_usage (usage s) value) (finish_reason s)) ;;
  match first_candidate value with
  | None => skip
  | Some candidate =>
      on_turn (for_each apply_part (candidate_parts candidate)) ;;
      match get_str (lit "finishReason") candidate with
      | Some reason => modify (fun s => mkGemini (turn s) (response_id s) (usage s) (Some reason))
      | None => skip
      end
  end.

Definition has_error (value : Value) : bool := is_some_and (get (lit "error") value) (fun e => negb (is_null e)).
Definition block_reason (value : Value) : option str := pointer [lit "promptFeedback"; lit "blockReason"] value ≫= as_str.

Definition on_frame (value : Value) (s : GeminiState) : GeminiState * list Emission * bool :=
  if has_error value then returning ((on_turn close ;; fail (stream_error value)) s)
  else match block_reason value with
       | Some reason => returning (fail (InvalidRequest (DEFAULT_REFUSAL ++ lit " (blocked: " ++ reason ++ lit ")")) s)
       | None => continuing (read_frame value s)
       end.

Definition idle_timeout : ApiError Number := StreamError (lit "idle timeout waiting for SSE").

Definition on_poll (p : Poll) (s : GeminiState) : GeminiState * list Emission * bool :=
  match p with
  | ReceiverClosed => (s, [], true)
  | PollError message => returning (fail (StreamError message) s)
  | PollEnd => returning (finish s)
  | PollTimeout => returning ((if is_some (finish_reason s) then finish else fail idle_timeout) s)
  | PollEvent data =>
      let data := trim data in
      if is_nil data then continuing (skip s)
      else match from_str data with
           | None => continuing (skip s)
           | Some value => on_frame value s
           end
  end.

Definition process_gemini_sse (polls : list Poll) : GeminiState * list Emission * bool := run on_poll polls start.

(** ** The protocol is kept *)

Definition turn_bracket (t : Turn) (b : Bracket) : Prop :=
  match open t with
  | None => b = Idle
  | Some (OpenText text) => text <> [] /\ b = InMessage text
  | Some (OpenThought text _ _) => b = InReasoning text
  end.
Definition state_bracket (s : GeminiState) (b : Bracket) : Prop := turn_bracket (turn s) b.

Ltac accepted :=
  split; [reflexivity|]; cbn -[str_eqb lit]; rewrite ?app_nil_r, ?str_eqb_refl; simpl;
  split_and!; try done; repeat constructor.

Lemma keeps_close : keeps turn_bracket close.
Proof.
  intros [[[[|c u]|u sg i]|] nc nn] b; unfold turn_bracket; simpl; [by intros []|intros [_ ->]|intros ->..].
  - eexists [_], Idle. accepted.
  - eexists [_], Idle. accepted.
  - by exists [], Idle.
Qed.

Lemma keeps_push_text text : keeps turn_bracket (push_text text).
Proof.
  unfold push_text. destruct text as [|c text]; simpl; [apply keeps_skip|].
  intros [[[u|u sg i]|] nc nn] b; unfold turn_bracket; simpl; [intros [Hu ->]|intros ->..].
  - eexists [_], (InMessage (u ++ c :: text)). accepted. by destruct u.
  - eexists [_; _; _], (InMessage (c :: text)). accepted.
  - eexists [_; _], (InMessage (c :: text)). accepted.
Qed.

Lemma keeps_push_thought text : keeps turn_bracket (push_thought text).
Proof.
  unfold push_thought. destruct text as [|c text]; simpl; [apply keeps_skip|].
  intros [[[[|c' u]|u sg i]|] nc nn] b; unfold turn_bracket; simpl; [by intros []|intros [_ ->]|intros ->..].
  - eexists [_; _; _], (InReasoning (c :: text)). accepted.
  - eexists [_], (InReasoning (u ++ c :: text)). accepted.
  - eexists [_; _], (InReasoning (c :: text)). accepted.
Qed.

Lemma keeps_set_signature sig : keeps turn_bracket (set_signature sig).
Proof. apply keeps_modify. intros t b. unfold turn_bracket. by destruct (open t) as [[]|] eqn:E; simpl; rewrite ?E. Qed.

Lemma keeps_push_function_call call sig : keeps turn_bracket (push_function_call call sig).
Proof.
  unfold push_function_call. destruct (call_name call) as [name|]; [|apply keeps_skip].
  intros [[[[|c' u]|u sg i]|] nc nn] b; unfold turn_bracket; simpl; [by intros []|intros [_ ->]|intros ->..].
  - eexists [_; _; _], Idle. accepted.
  - eexists [_; _; _], Idle. accepted.
  - eexists [_; _], Idle. accepted.
Qed.

#[local] Hint Resolve keeps_close keeps_push_text keeps_push_thought keeps_set_signature keeps_push_function_call : keeps.

Lemma keeps_apply_part part : keeps turn_bracket (apply_part part).
Proof. unfold apply_part. repeat case_match; auto with keeps. Qed.

#[local] Hint Resolve keeps_apply_part : keeps.

(** After closing nothing is open. *)
Lemma close_leads : leads turn_bracket (fun _ b => b = Idle) close.
Proof.
  intros t b HR. destruct (keeps_close t b HR) as (es & b' & E & B & C & HR'). exists es, b'. split_and!; try done.
  revert HR'. unfold turn_bracket, close, look, seq, modify. by destruct (closed_item (open t)).
Qed.

Lemma leads_on_turn R R' a : leads R R' a -> leads (fun s => R (turn s)) (fun s => R' (turn s)) (on_turn a).
Proof.
  intros Ha s b HR. destruct (Ha (turn s) b HR) as (es & b' & E & B & C & R''). unfold on_turn.
  destruct (a (turn s)) as [t o]. simpl in *. exists es, b'. by split_and!.
Qed.

Lemma gemini_keeps_frame value : keeps state_bracket (read_frame value).
Proof.
  assert (forall a, keeps turn_bracket a -> keeps state_bracket (on_turn a)) as Hon by (intros a; apply leads_on_turn).
  unfold read_frame. apply keeps_seq; [by apply keeps_modify|]. repeat case_match; auto with keeps.
  apply keeps_seq; [auto with keeps|]. by apply keeps_modify.
Qed.

Lemma ends_finish : ends state_bracket finish.
Proof.
  eapply ends_seq; [exact (leads_on_turn _ _ _ close_leads)|]. apply ends_look. intros s. cbv zeta.
  repeat case_match; auto with keeps. apply ends_complete; naive_solver.
Qed.

Lemma gemini_keeps_poll : keeps_poll state_bracket on_poll.
Proof.
  intros [data|message| | |] s b HR; cbn [on_poll].
  - destruct (is_nil (trim data)); [by apply round_continuing; [apply keeps_skip|]|].
    destruct (from_str (trim data)) as [value|]; [|by apply round_continuing; [apply keeps_skip|]].
    unfold on_frame. destruct (has_error value).
    { apply round_returning; [|done]. eapply ends_seq; [exact (leads_on_turn _ _ _ close_leads)|apply ends_fail]. }
    destruct (block_reason value); [by apply round_returning; [apply ends_fail|]|]. by apply round_continuing; [apply gemini_keeps_frame|].
  - by apply round_returning; [apply ends_fail|].
  - by apply round_returning; [apply ends_finish|].
  - apply round_returning; [|done]. destruct (is_some _); [apply ends_finish|apply ends_fail].
  - apply round_closed.
Qed.

(** Whatever frames, errors and timeouts arrive: at most one item is open at a time,
    it is announced before its deltas, the finished item holds exactly the text that
    was streamed, the turn accepts every event, and a run that is over has ended with
    one completion, after which nothing is open, or one error, unless the receiver
    went away. *)
Theorem gemini_events_are_bracketed (polls : list Poll) (user_turn_item : list MessageContent -> bool) (cut : bool) :
  let '(_, out, stop) := process_gemini_sse polls in
  exists es ending, out = emissions es ending /\ bracketed Idle es ending
    /\ (stop = false -> ending = Running) /\ (stop = true -> ReceiverClosed ∉ polls -> ending <> Running)
    /\ is_some (consume_all user_turn_item cut None es) = true.
Proof.
  apply (run_is_consumed state_bracket); [exact gemini_keeps_poll|done].
Qed.

(** ** Reading all parts at once *)

(** What the parts of a stream say. *)
Inductive Token :=
| TText (text : str)
| TThought (text : str)
| TSignature (signature : str)
| TCall (name arguments : str) (signature : option str).

Definition part_tokens (part : Value) : list Token :=
  let signature := match get_str (lit "thoughtSignature") part with Some sig => [TSignature sig] | None => [] end in
  match get (lit "functionCall") part with
  | Some call =>
      match call_name call with
      | Some name => [TCall name (call_arguments call) (get_str (lit "thoughtSignature") part)]
      | None => []
      end
  | None =>
      match get_str (lit "text") part with
      | Some text => (if is_nil text then [] else [if is_thought part then TThought text else TText text]) ++ signature
      | None => signature
      end
  end.

Definition frame_tokens (value : Value) : list Token :=
  match first_candidate value with Some c => concat (List.map part_tokens (candidate_parts c)) | None => [] end.

(** Neighbours of a kind make one item.  A signature belongs to the thought it comes
    after, the last one counts, and elsewhere it is of no use: from the right, the
    first component is the signature that waits for its thought. *)
Inductive Group := GText (text : str) | GThought (text : str) (signature : option str) | GCall (name arguments : str) (signature : option str).

Definition cons_token (tok : Token) (g : option str * list Group) : option str * list Group :=
  let '(pending, gs) := g in
  match tok, gs with
  | TText t, GText u :: gs => (None, GText (t ++ u) :: gs)
  | TText t, _ => (None, GText t :: gs)
  | TThought t, GThought u sig :: gs => (None, GThought (t ++ u) (match sig with Some _ => sig | None => pending end) :: gs)
  | TThought t, _ => (None, GThought t pending :: gs)
  | TSignature s, _ => (Some (unwrap_or pending s), gs)
  | TCall name arguments sig, _ => (None, GCall name arguments sig :: gs)
  end.

Definition group (ts : list Token) : list Group := snd (foldr cons_token (None, []) ts).

Fixpoint items_of (n : nat) (gs : list Group) : list Item :=
  match gs with
  | [] => []
  | GText t :: gs => Message None (lit "assistant") [MsgOutputText t] None None :: items_of n gs
  | GThought t sig :: gs => Reasoning None [] (Some [ReasoningText t]) sig None :: items_of n gs
  | GCall name arguments sig :: gs =>
      FunctionCall None name None arguments (option_map (fun s => [s]) sig) (call_id_of n) None :: items_of (S n) gs
  end.

(** The open item as the parts it was read from. *)
Definition open_tokens (o : option Open) : list Token :=
  match o with
  | None => []
  | Some (OpenText t) => [TText t]
  | Some (OpenThought t sig _) => TThought t :: match sig with Some s => [TSignature s] | None => [] end
  end.
Definition open_ok (t : Turn) : Prop := match open t with Some (OpenText text) => text <> [] | _ => True end.

(** The items of the open one and what comes after it. *)
Definition remaining (t : Turn) (g : option str * list Group) : list Item :=
  items_of (next_call_index t) (snd (foldr cons_token g (open_tokens (open t)))).

Definition reads (a : Act Turn) (ts : list Token) : Prop := forall t g, open_ok t ->
  open_ok (fst (a t)) /\ done_items (snd (a t)) ++ remaining (fst (a t)) g = remaining t (foldr cons_token g ts).

Lemma reads_skip : reads skip [].
Proof. by intros t g. Qed.

Lemma reads_seq a1 a2 ts1 ts2 : reads a1 ts1 -> reads a2 ts2 -> reads (a1 ;; a2) (ts1 ++ ts2).
Proof.
  intros H1 H2 t g Ht. destruct (H1 t (foldr cons_token g ts2) Ht) as [O1 E1]. unfold seq. destruct (a1 t) as [t1 es1]. simpl in *.
  destruct (H2 t1 g O1) as [O2 E2]. destruct (a2 t1) as [t2 es2]. simpl in *. split; [done|].
  by rewrite done_items_app, <- app_assoc, E2, E1, foldr_app.
Qed.

Lemma reads_for_each {A} (f : A -> Act Turn) (tk : A -> list Token) l : (forall x, reads (f x) (tk x)) -> reads (for_each f l) (concat (List.map tk l)).
Proof. intros Hf. induction l; simpl; [apply reads_skip|by apply reads_seq]. Qed.

Lemma reads_push_text text : reads (push_text text) (if is_nil text then [] else [TText text]).
Proof.
  unfold push_text. destruct text as [|c text]; simpl; [apply reads_skip|].
  intros [[[[|c' u]|u [sg|] i]|] nc nn] [p gs] Ht; unfold open_ok in *; simpl in *; [done|..];
    unfold remaining; simpl; (split; [done|]); destruct gs as [|[] gs]; simpl; try done; by rewrite <- app_assoc.
Qed.

Lemma reads_push_thought text : reads (push_thought text) (if is_nil text then [] else [TThought text]).
Proof.
  unfold push_thought. destruct text as [|c text]; simpl; [apply reads_skip|].
  intros [[[[|c' u]|u [sg|] i]|] nc nn] [p gs] Ht; unfold open_ok in *; simpl in *; [done|..];
    unfold remaining; simpl; (split; [done|]); destruct gs as [|[|? []|] gs], p; simpl; try done; by rewrite <- app_assoc.
Qed.

Lemma reads_set_signature sig : reads (set_signature sig) [TSignature sig].
Proof.
  intros [[[u|u [sg|] i]|] nc nn] [p gs] Ht; unfold remaining; simpl; (split; [done|]); destruct gs as [|[] gs], p; simpl; done.
Qed.

Lemma reads_push_function_call call sig name : call_name call = Some name ->
  reads (push_function_call call sig) [TCall name (call_arguments call) sig].
Proof.
  intros Hn. unfold push_function_call. rewrite Hn.
  intros [[[[|c' u]|u [sg|] i]|] nc nn] [p gs] Ht; unfold open_ok in *; simpl in *; [done|..]; done.
Qed.

Lemma reads_apply_part part : reads (apply_part part) (part_tokens part).
Proof.
  assert (forall o, reads (match o with Some sig => set_signature sig | None => skip end) (match o with Some sig => [TSignature sig] | None => [] end)) as Hs
    by (intros []; [apply reads_set_signature|apply reads_skip]).
  unfold apply_part, part_tokens. destruct (get (lit "functionCall") part) as [call|].
  - destruct (call_name call) as [name|] eqn:En; [by apply reads_push_function_call|]. unfold push_function_call. rewrite En. apply reads_skip.
  - destruct (get_str (lit "text") part) as [text|]; [|apply Hs]. apply reads_seq; [|apply Hs].
    destruct (is_thought part); [apply reads_push_thought|apply reads_push_text].
Qed.

(** Frames that go on. *)
Definition clean (value : Value) : Prop := has_error value = false /\ block_reason value = None.

Lemma gemini_run_frames datas s : Forall clean (frames datas) ->
  run on_poll (List.map PollEvent datas) s = continuing (for_each read_frame (frames datas) s).
Proof.
  revert s. induction datas as [|data datas IH]; intros s Hc; [done|]. unfold frames in *. simpl in *.
  destruct (is_nil (trim data)); [simpl; rewrite IH by done; done|].
  destruct (from_str (trim data)) as [value|]; [|simpl; rewrite IH by done; done].
  apply Forall_cons in Hc as [[He Hb] Hc]. unfold on_frame. rewrite He, Hb. simpl. unfold seq. destruct (read_frame value s) as [s1 es1].
  simpl. rewrite IH by done. unfold continuing. by destruct (for_each _ _ s1) as [s2 es2].
Qed.

Lemma frame_read value s g : open_ok (turn s) ->
  open_ok (turn (fst (read_frame value s)))
  /\ done_items (snd (read_frame value s)) ++ remaining (turn (fst (read_frame value s))) g = remaining (turn s) (foldr cons_token g (frame_tokens value)).
Proof.
  intros Ho. unfold read_frame, frame_tokens, seq, modify. destruct (first_candidate value) as [c|]; [|by split].
  destruct (reads_for_each apply_part part_tokens (candidate_parts c) reads_apply_part (turn s) g Ho) as [O1 E1].
  unfold on_turn. simpl. destruct (for_each apply_part (candidate_parts c) (turn s)) as [t es]. simpl in *.
  destruct (get_str (lit "finishReason") c); simpl; by rewrite app_nil_r.
Qed.

Lemma frames_read fs s g : open_ok (turn s) ->
  open_ok (turn (fst (for_each read_frame fs s)))
  /\ done_items (snd (for_each read_frame fs s)) ++ remaining (turn (fst (for_each read_frame fs s))) g
     = remaining (turn s) (foldr cons_token g (concat (List.map frame_tokens fs))).
Proof.
  revert s. induction fs as [|value fs IH]; intros s Ho; [done|]. simpl. unfold seq.
  destruct (frame_read value s (foldr cons_token g (concat (List.map frame_tokens fs))) Ho) as [O1 E1].
  destruct (read_frame value s) as [s1 es1]. simpl in *. specialize (IH s1 O1). destruct (for_each read_frame fs s1) as [s2 es2].
  simpl in *. destruct IH as [O2 E2]. split; [done|]. by rewrite done_items_app, <- app_assoc, E2, E1, foldr_app.
Qed.

Lemma close_done t : open_ok t -> done_items (snd (close t)) = remaining t (None, []).
Proof. destruct t as [[[[|c u]|u [sg|] i]|] nc nn]; unfold open_ok; simpl; done. Qed.

Lemma conclude_done s : done_items (snd (conclude s)) = [].
Proof. unfold conclude, look. cbv zeta. by repeat case_match. Qed.

(** C21. Streaming is reading at once: however the parts are cut into frames, and whatever
    else is on the wire, the items a turn ends with are the groups of all the parts,
    neighbours of a kind joined and each thought with the last signature that follows
    it, in order, the calls numbered. *)
Theorem gemini_stream_is_batch (datas : list str) :
  Forall clean (frames datas) ->
  done_items (snd (fst (process_gemini_sse (List.map PollEvent datas ++ [PollEnd]))))
  = items_of 0 (group (concat (List.map frame_tokens (frames datas)))).
Proof.
  intros Hc. unfold process_gemini_sse. rewrite stream_run_app, gemini_run_frames by done. destruct (frames_read (frames datas) start (None, []) I) as [Ho E].
  unfold continuing. destruct (for_each read_frame (frames datas) start) as [s out]. simpl in *.
  unfold finish, seq, on_turn. pose proof (close_done (turn s) Ho) as Hcl. destruct (close (turn s)) as [t es]. simpl in Hcl.
  set (s' := mkGemini _ _ _ _). pose proof (conclude_done s') as Hco. destruct (conclude s') as [s'' es']. simpl in *.
  rewrite !done_items_app, Hco, app_nil_r, Hcl. exact E.
Qed.

(** ** Counts *)

(** A count of a frame. *)
Definition reported (key : str) (frame : Value) : option Z := get (lit "usageMetadata") frame ≫= fun u => count_field u key.
Definition merged (fs : list Value) : option TokenUsage := fold_left merge_gemini_usage fs None.

(** A running total for the last counts of the prompt, the candidates, the cache and
    the thoughts. *)
Definition tracks (o : option TokenUsage) (prompt candidates cached thoughts : option Z) : Prop :=
  match o with
  | None => prompt = None /\ candidates = None /\ cached = None /\ thoughts = None
  | Some u =>
      input_tokens u = or_zero prompt /\ cached_input_tokens u = or_zero cached
      /\ reasoning_output_tokens u = or_zero thoughts /\ output_tokens u = (or_zero candidates + or_zero thoughts)%Z
  end.

Definition small (o : option Z) : Prop := (0 <= or_zero o < 2 ^ 62)%Z.

Lemma gemini_merge_tracks prev f prompt candidates cached thoughts :
  tracks prev prompt candidates cached thoughts -> small candidates -> small thoughts ->
  small (newer (reported (lit "candidatesTokenCount") f) candidates) -> small (newer (reported (lit "thoughtsTokenCount") f) thoughts) ->
  tracks (merge_gemini_usage prev f)
    (newer (reported (lit "promptTokenCount") f) prompt) (newer (reported (lit "candidatesTokenCount") f) candidates)
    (newer (reported (lit "cachedContentTokenCount") f) cached) (newer (reported (lit "thoughtsTokenCount") f) thoughts).
Proof.
  unfold merge_gemini_usage, reported. destruct (get (lit "usageMetadata") f) as [u|]; [|done]. cbn [mbind option_bind].
  generalize (count_field u (lit "promptTokenCount")) (count_field u (lit "candidatesTokenCount"))
    (count_field u (lit "cachedContentTokenCount")) (count_field u (lit "thoughtsTokenCount")) (count_field u (lit "totalTokenCount")).
  intros p c ca th to. destruct (is_none p && is_none c && is_none ca && is_none th && is_none to) eqn:E.
  { destruct p, c, ca, th; try done. }
  clear E. unfold tracks, small, or_zero. destruct prev as [pu|]; simpl.
  - intros (E1 & E2 & E3 & E4). rewrite E1, E2, E3, E4. clear. intros Hc Ht Hc' Ht'. destruct p, c, ca, th; simpl in *; unfold_int; lia.
  - intros (-> & -> & -> & ->). intros Hc Ht Hc' Ht'. destruct p, c, ca, th; simpl in *; unfold_int; lia.
Qed.

Lemma gemini_latest_small `{!NumberLaws Number} key fs :
  Forall (fun f => forall key z, reported key f = Some z -> (z < 2 ^ 62)%Z) fs -> small (latest (reported key) fs).
Proof.
  intros Hs. apply latest_range; [lia|]. eapply Forall_impl; [exact Hs|]. intros f Hf z Hz. split; [|by eapply Hf].
  unfold reported in Hz. apply bind_Some in Hz as (u & _ & Hz). apply count_field_range in Hz. lia.
Qed.

(** The running total after any frames is made of the last count of each kind that
    was reported, the output with the thoughts, as long as counts stay below [2^62];
    counts a frame leaves out are not lost and none is added up twice. *)
Theorem gemini_usage_is_latest `{!NumberLaws Number} (fs : list Value) :
  Forall (fun f => forall key z, reported key f = Some z -> (z < 2 ^ 62)%Z) fs ->
  tracks (merged fs) (latest (reported (lit "promptTokenCount")) fs) (latest (reported (lit "candidatesTokenCount")) fs)
    (latest (reported (lit "cachedContentTokenCount")) fs) (latest (reported (lit "thoughtsTokenCount")) fs).
Proof.
  induction fs as [|f fs IH] using rev_ind; [done|]. intros Hall. pose proof Hall as Hall'. rewrite Forall_app in Hall'. destruct Hall' as [Hfs _].
  unfold merged in *. rewrite fold_left_app, !latest_snoc. simpl. apply gemini_merge_tracks; rewrite <- ?latest_snoc; auto using gemini_latest_small.
Qed.
End Gemini.
End Gemini.

(** ** Samples *)

Definition gemini_frame (parts : list (Value Z)) (rest : list (string * Value Z)) : Value Z :=
  jobj [("candidates"%string, JArray [jobj (("content"%string, jobj [("parts"%string, JArray parts)]) :: rest)])].

Definition gemini_table : list (string * Value Z) := [
  ("f1"%string, gemini_frame [jobj [("text"%string, jstr "Let me"); ("thought"%string, JBool true)];
                       jobj [("text"%string, jstr " think"); ("thought"%string, jstr "true"); ("thoughtSignature"%string, jstr "S")]] []);
  ("f2"%string, gemini_frame [jobj [("text"%string, jstr "Hel")]] []);
  ("f3"%string, gemini_frame [jobj [("text"%string, jstr "lo")]; jobj [("functionCall"%string, jobj [("name"%string, jstr "ls")])]]
           [("finishReason"%string, jstr "STOP")]);
  ("counts"%string, jobj [("usageMetadata"%string, jobj [("promptTokenCount"%string, JNumber 7%Z); ("thoughtsTokenCount"%string, JNumber 3%Z)])])].
#[local] Instance gemini_text : SerdeText Z := table_text gemini_table.

Definition gemini_datas : list str := List.map lit ["f1"; "f2"; "junk"; "f3"; "counts"]%string.
Definition gemini_items : list (ResponseItem (Value Z)) := [
  Reasoning None [] (Some [ReasoningText (lit "Let me think")]) (Some (lit "S")) None;
  Message None (lit "assistant") [MsgOutputText (lit "Hello")] None None;
  FunctionCall None (lit "ls") None (lit "{}") None (lit "gemini-call-0") None].

Example gemini_sample :
  match Gemini.process_gemini_sse (List.map PollEvent gemini_datas ++ [PollEnd]) with
  | (_, out, stop) => stop = true /\ done_items out = gemini_items
      /\ last out = Some (Ok (Completed [] (Some (mkUsage 7 0 0 3 3 10 None)) None (Some true)))
  end.
Proof. vm_compute. split_and!; reflexivity. Qed.

Lemma gemini_stream_is_batch_witness :
  Gemini.items_of 0 (Gemini.group (concat (List.map Gemini.frame_tokens (frames gemini_datas)))) = gemini_items.
Proof.
  rewrite <- (Gemini.gemini_stream_is_batch gemini_datas); [vm_compute; reflexivity|].
  unfold frames. vm_compute omap. repeat constructor.
Defined.

Definition usage_frames : list (Value Z) :=
  [jobj [("usageMetadata"%string, jobj [("promptTokenCount"%string, JNumber 7%Z); ("thoughtsTokenCount"%string, JNumber 3%Z)])];
   jobj [("usageMetadata"%string, jobj [("candidatesTokenCount"%string, JNumber 5%Z)])]].

Lemma gemini_usage_is_latest_witness :
  Gemini.merged usage_frames = Some (mkUsage 7 0 0 8 3 15 None)
  /\ Gemini.tracks (Gemini.merged usage_frames) (latest (Gemini.reported (lit "promptTokenCount")) usage_frames) (latest (Gemini.reported (lit "candidatesTokenCount")) usage_frames)
       (latest (Gemini.reported (lit "cachedContentTokenCount")) usage_frames) (latest (Gemini.reported (lit "thoughtsTokenCount")) usage_frames).
Proof.
  split; [vm_compute; reflexivity|]. apply (Gemini.gemini_usage_is_latest usage_frames). unfold usage_frames.
  repeat apply Forall_cons_2; [..|apply Forall_nil_2];
    intros key z; unfold Gemini.reported; cbn -[Z.pow str_eqb lit];
    unfold count_field, get; cbn -[Z.pow str_eqb lit]; repeat (case_match; cbn -[Z.pow]; try done); intros [= <-]; lia.
Defined.
