(* ===== verification/AnthropicStream.v ===== *)
(** * The Anthropic Messages wire ([codex-api/src/sse/anthropic.rs], [anthropic_usage.rs])

    Content arrives in blocks with an index: each is opened, extended by deltas and
    closed; the frames at the end say why the turn ended.

    [AnthropicState] holds the local variables of [process_anthropic_sse]; the loop is
    that of [ModelStream.v] over [on_poll].  Limits announced in the headers of the
    response are left out.

    The theorems: whatever arrives, a run that is over ended with one completion or
    one error, and no block is forgotten ([anthropic_run_ends_once],
    [anthropic_blocks_are_flushed]); a message of non-empty blocks, one after the
    other, is delivered block by block under the protocol of the turn
    ([anthropic_message_is_delivered]); counts are the last ones reported
    ([anthropic_usage_is_latest]).  Two defects: an empty text block is announced and
    never finished ([empty_block_stays_open]), and text for a block that was never
    opened is streamed without an item, which the turn rejects
    ([unopened_delta_is_rejected]). *)

From stdpp Require Import base list numbers option strings sets gmap.
From Stdlib Require Import ZArith Lia.
From S2P Require Import Prelude RustStr RustInt GoalStore GoalAccounting ResponseItem Json ModelStream.

#[local] Open Scope act_scope.

Module Anthropic.

(** One in-flight content block. *)
Inductive BlockState :=
| BText (text : str)
| BThinking (text : str) (signature : option str)
| BToolUse (id name partial_json : str).

Section Anthropic.
Context {Number : Type} `{Numbers Number} {ST : SerdeText Number}.
Notation Value := (Value Number).
Notation Item := (ResponseItem Value).
Notation Act := (Act Number).
Notation Emission := (result (ResponseEvent Number) (ApiError Number)).

Definition DEFAULT_REFUSAL : str := lit "the model declined to answer this request".

(** ** Usage *)

Definition zero_usage : TokenUsage := mkUsage 0 0 0 0 0 0 None.

Definition frame_usage (frame : Value) : option Value :=
  match pointer [lit "message"; lit "usage"] frame with Some u => Some u | None => get (lit "usage") frame end.

Definition merge_anthropic_usage (prev : option TokenUsage) (frame : Value) : option TokenUsage :=
  match frame_usage frame with
  | None => prev
  | Some usage =>
      let uncached := count_field usage (lit "input_tokens") in
      let read := count_field usage (lit "cache_read_input_tokens") in
      let write := count_field usage (lit "cache_creation_input_tokens") in
      let output := count_field usage (lit "output_tokens") in
      if is_none uncached && is_none read && is_none write && is_none output then prev
      else
        let prev := unwrap_or prev zero_usage in
        let prev_uncached := Z.max (input_tokens prev - cached_input_tokens prev - cache_write_input_tokens prev) 0 in
        let uncached_input := unwrap_or uncached prev_uncached in
        let cache_read := unwrap_or read (cached_input_tokens prev) in
        let cache_write := unwrap_or write (cache_write_input_tokens prev) in
        let output := unwrap_or output (output_tokens prev) in
        let input := i64_saturating_add (i64_saturating_add uncached_input cache_read) cache_write in
        Some (mkUsage input cache_read cache_write output 0 (i64_saturating_add input output) None)
  end.

(** ** Blocks *)

Definition str_field (key : str) (v : Value) : str := unwrap_or (get_str key v) [].

Definition announce_block (st : BlockState) : option Item :=
  match st with
  | BText _ => Some empty_message
  | BThinking _ _ => Some (empty_reasoning None)
  | BToolUse _ _ _ => None
  end.

Definition open_block (block : Value) : option BlockState :=
  let type := str_field (lit "type") block in
  if str_eqb type (lit "text") then Some (BText (str_field (lit "text") block))
  else if str_eqb type (lit "thinking") then Some (BThinking (str_field (lit "thinking") block) (get_str (lit "signature") block))
  else if str_eqb type (lit "tool_use") then Some (BToolUse (str_field (lit "id") block) (str_field (lit "name") block) [])
  else None.

Definition close_block (st : BlockState) : option Item :=
  match st with
  | BText text => if is_nil text then None else Some (Message None (lit "assistant") [MsgOutputText text] None None)
  | BThinking text signature => Some (Reasoning None [] (Some [ReasoningText text]) signature None)
  | BToolUse id name partial_json =>
      Some (FunctionCall None name None (if is_nil (trim partial_json) then lit "{}" else partial_json) None id None)
  end.

Definition index_of (value : Value) : option N := Z.to_N <$> (get (lit "index") value ≫= as_u64).

(** ** The state *)

Record Stop := mkStop { stop_reason : str; stop_details : option Value }.

Record AnthropicState := mkAnthropic {
  blocks : gmap N BlockState;
  open : list N;
  response_id : str;
  usage : option TokenUsage;
  stop : option Stop }.

Definition start : AnthropicState := mkAnthropic ∅ [] [] None None.

Definition set_blocks (b : gmap N BlockState) (o : list N) (s : AnthropicState) : AnthropicState :=
  mkAnthropic b o (response_id s) (usage s) (stop s).
Definition set_usage (u : option TokenUsage) (s : AnthropicState) : AnthropicState :=
  mkAnthropic (blocks s) (open s) (response_id s) u (stop s).

(** [blocks.insert] with the index remembered when it is new. *)
Definition put_block (index : N) (st : BlockState) (s : AnthropicState) : AnthropicState :=
  set_blocks (<[index := st]> (blocks s)) (match blocks s !! index with None => open s ++ [index] | Some _ => open s end) s.

Definition emit_some (e : option (ResponseEvent Number)) : Act AnthropicState := match e with Some e => emit e | None => skip end.
Definition done_block (st : BlockState) : Act AnthropicState := emit_some (OutputItemDone <$> close_block st).

Definition close_index (index : N) : Act AnthropicState :=
  look (fun s => match blocks s !! index with
                 | Some st => modify (set_blocks (delete index (blocks s)) (open s)) ;; done_block st
                 | None => skip
                 end).

Definition text_event (text : str) : option (ResponseEvent Number) := if is_nil text then None else Some (OutputTextDelta text).
Definition thinking_event (index : N) (text : str) : option (ResponseEvent Number) :=
  if is_nil text then None else Some (ReasoningContentDelta text (i64_wrapping_add (Z.of_N index) 0)).

Definition apply_delta (index : N) (delta : Value) : Act AnthropicState :=
  let type := str_field (lit "type") delta in
  if str_eqb type (lit "text_delta") then
    let text := str_field (lit "text") delta in
    modify (fun s => match blocks s !! index with
                     | Some (BText buffer) => put_block index (BText (buffer ++ text)) s
                     | None => put_block index (BText text) s
                     | Some _ => s
                     end) ;;
    emit_some (text_event text)
  else if str_eqb type (lit "thinking_delta") then
    let text := str_field (lit "thinking") delta in
    modify (fun s => match blocks s !! index with
                     | Some (BThinking buffer signature) => put_block index (BThinking (buffer ++ text) signature) s
                     | _ => s
                     end) ;;
    emit_some (thinking_event index text)
  else if str_eqb type (lit "signature_delta") then
    modify (fun s => match blocks s !! index with
                     | Some (BThinking text signature) =>
                         put_block index (BThinking text (Some (unwrap_or signature [] ++ str_field (lit "signature") delta))) s
                     | _ => s
                     end)
  else if str_eqb type (lit "input_json_delta") then
    let partial := str_field (lit "partial_json") delta in
    look (fun s => match blocks s !! index with
                   | Some (BToolUse id name partial_json) =>
                       modify (put_block index (BToolUse id name (partial_json ++ partial))) ;;
                       emit (ToolCallInputDelta id (Some id) partial)
                   | _ => skip
                   end)
  else skip.

(** ** The end of a turn *)

Definition refusal_message (details : option Value) : str :=
  let field := fun key => match details ≫= get_str key with Some v => if is_nil v then None else Some v | None => None end in
  let explanation := unwrap_or (head (omap field (List.map lit ["explanation"; "message"; "refusal"; "reason"]))) DEFAULT_REFUSAL in
  match field (lit "category") with
  | Some category => explanation ++ lit " (category: " ++ category ++ lit ")"
  | None => explanation
  end.

Definition end_turn_of (reason : str) : option bool :=
  if existsb (str_eqb reason) (List.map lit ["end_turn"; "stop_sequence"; "tool_use"]) then Some true
  else if existsb (str_eqb reason) (List.map lit ["max_tokens"; "pause_turn"]) then Some false
  else None.

Definition flush : Act AnthropicState :=
  look (fun s => modify (fun s => set_blocks (blocks s) [] s) ;; for_each close_index (open s)).

Definition stop_is (reason : string) (s : AnthropicState) : bool := is_some_and (stop s) (fun st => str_eqb (stop_reason st) (lit reason)).

Definition conclude : Act AnthropicState :=
  look (fun s =>
    if stop_is "model_context_window_exceeded" s then fail ContextWindowExceeded
    else if stop_is "refusal" s then fail (InvalidRequest (refusal_message (stop s ≫= stop_details)))
    else emit (Completed (response_id s) (usage s) None (stop s ≫= fun st => end_turn_of (stop_reason st)))).

Definition finish : Act AnthropicState := flush ;; conclude.

Definition is_context_window_message (message : str) : bool :=
  let message := to_ascii_lowercase message in
  existsb (fun needle => contains (lit needle) message)
    ["prompt is too long"; "maximum context length"; "context_length_exceeded"; "contextwindowexceedederror"; "exceeds the context window"]%string.

Definition stream_error (value : Value) : ApiError Number :=
  let error := get (lit "error") value in
  let kind := unwrap_or (error ≫= get_str (lit "type")) [] in
  let message := match error ≫= get_str (lit "message") with
                 | Some m => m
                 | None => match error with Some e => to_string e | None => to_string value end
                 end in
  if str_eqb kind (lit "overloaded_error") then Retryable message None
  else if str_eqb kind (lit "invalid_request_error")
  then if is_context_window_message message then ContextWindowExceeded else InvalidRequest message
  else StreamError message.

(** ** Frames *)

Definition read_message_start (value : Value) : Act AnthropicState :=
  modify (fun s => mkAnthropic (blocks s) (open s)
    (unwrap_or (pointer [lit "message"; lit "id"] value ≫= as_str) (response_id s)) (merge_anthropic_usage (usage s) value) (stop s)).

Definition read_block_start (value : Value) : Act AnthropicState :=
  match index_of value, get (lit "content_block") value with
  | Some index, Some block =>
      match open_block block with
      | Some st => emit_some (OutputItemAdded <$> announce_block st) ;; modify (put_block index st)
      | None => skip
      end
  | _, _ => skip
  end.

Definition read_block_delta (value : Value) : Act AnthropicState :=
  match index_of value, get (lit "delta") value with
  | Some index, Some delta => apply_delta index delta
  | _, _ => skip
  end.

Definition read_block_stop (value : Value) : Act AnthropicState :=
  match index_of value with
  | Some index =>
      modify (fun s => set_blocks (blocks s) (List.filter (fun pending => negb (N.eqb pending index)) (open s)) s) ;;
      close_index index
  | None => skip
  end.

Definition read_message_delta (value : Value) : Act AnthropicState :=
  modify (fun s => mkAnthropic (blocks s) (open s) (response_id s) (merge_anthropic_usage (usage s) value)
    (match pointer [lit "delta"; lit "stop_reason"] value ≫= as_str with
     | Some reason => Some (mkStop reason (pointer [lit "delta"; lit "stop_details"] value))
     | None => stop s
     end)).

Definition on_frame (value : Value) (s : AnthropicState) : AnthropicState * list Emission * bool :=
  let type := str_field (lit "type") value in
  if str_eqb type (lit "message_start") then continuing (read_message_start value s)
  else if str_eqb type (lit "content_block_start") then continuing (read_block_start value s)
  else if str_eqb type (lit "content_block_delta") then continuing (read_block_delta value s)
  else if str_eqb type (lit "content_block_stop") then continuing (read_block_stop value s)
  else if str_eqb type (lit "message_delta") then continuing (read_message_delta value s)
  else if str_eqb type (lit "message_stop") then returning (finish s)
  else if str_eqb type (lit "error") then returning (fail (stream_error value) s)
  else continuing (skip s).

Definition on_poll (p : Poll) (s : AnthropicState) : AnthropicState * list Emission * bool :=
  match p with
  | ReceiverClosed => (s, [], true)
  | PollError message => returning (fail (StreamError message) s)
  | PollEnd => returning (finish s)
  | PollTimeout => returning ((if is_some (stop s) then finish else fail (StreamError (lit "idle timeout waiting for SSE"))) s)
  | PollEvent data =>
      let data := trim data in
      if is_nil data then continuing (skip s)
      else match from_str data with
           | None => continuing (skip s)
           | Some value => on_frame value s
           end
  end.

Definition process_anthropic_sse (polls : list Poll) : AnthropicState * list Emission * bool := run on_poll polls start.

(** ** What a frame says about blocks *)

Inductive Wire :=
| WStart (index : N) (st : BlockState)
| WText (index : N) (text : str)
| WThinking (index : N) (text : str)
| WSignature (index : N) (text : str)
| WJson (index : N) (text : str)
| WStop (index : N)
| WOther.

Definition wire_delta (index : N) (delta : Value) : Wire :=
  let type := str_field (lit "type") delta in
  if str_eqb type (lit "text_delta") then WText index (str_field (lit "text") delta)
  else if str_eqb type (lit "thinking_delta") then WThinking index (str_field (lit "thinking") delta)
  else if str_eqb type (lit "signature_delta") then WSignature index (str_field (lit "signature") delta)
  else if str_eqb type (lit "input_json_delta") then WJson index (str_field (lit "partial_json") delta)
  else WOther.

Definition wire (value : Value) : Wire :=
  let type := str_field (lit "type") value in
  if str_eqb type (lit "content_block_start") then
    match index_of value, get (lit "content_block") value ≫= open_block with Some index, Some st => WStart index st | _, _ => WOther end
  else if str_eqb type (lit "content_block_delta") then
    match index_of value, get (lit "delta") value with Some index, Some delta => wire_delta index delta | _, _ => WOther end
  else if str_eqb type (lit "content_block_stop") then match index_of value with Some index => WStop index | None => WOther end
  else WOther.

(** The blocks and the order they were opened in. *)
Definition Core : Type := gmap N BlockState * list N.
Definition put (index : N) (st : BlockState) (c : Core) : Core :=
  (<[index := st]> (fst c), match fst c !! index with None => snd c ++ [index] | Some _ => snd c end).
Definition opt_event (e : option (ResponseEvent Number)) : list Emission := match e with Some e => [Ok e] | None => [] end.

Definition effect (w : Wire) (c : Core) : Core * list Emission :=
  match w with
  | WStart index st => (put index st c, opt_event (OutputItemAdded <$> announce_block st))
  | WText index text =>
      (match fst c !! index with
       | Some (BText buffer) => put index (BText (buffer ++ text)) c
       | None => put index (BText text) c
       | Some _ => c
       end, opt_event (text_event text))
  | WThinking index text =>
      (match fst c !! index with
       | Some (BThinking buffer signature) => put index (BThinking (buffer ++ text) signature) c
       | _ => c
       end, opt_event (thinking_event index text))
  | WSignature index text =>
      (match fst c !! index with
       | Some (BThinking buffer signature) => put index (BThinking buffer (Some (unwrap_or signature [] ++ text))) c
       | _ => c
       end, [])
  | WJson index text =>
      match fst c !! index with
      | Some (BToolUse id name partial) => (put index (BToolUse id name (partial ++ text)) c, [Ok (ToolCallInputDelta id (Some id) text)])
      | _ => (c, [])
      end
  | WStop index =>
      ((delete index (fst c), List.filter (fun pending => negb (N.eqb pending index)) (snd c)),
       match fst c !! index with Some st => opt_event (OutputItemDone <$> close_block st) | None => [] end)
  | WOther => (c, [])
  end.

Definition core (s : AnthropicState) : Core := (blocks s, open s).

(** Frames that go on. *)
Definition goes_on (value : Value) : bool :=
  negb (str_eqb (str_field (lit "type") value) (lit "message_stop") || str_eqb (str_field (lit "type") value) (lit "error")).

Lemma emit_some_eq e (s : AnthropicState) : emit_some e s = (s, opt_event e).
Proof. by destruct e. Qed.

Lemma on_frame_effect value s : goes_on value = true ->
  let '(s', out, stopped) := on_frame value s in stopped = false /\ (core s', out) = effect (wire value) (core s).
Proof.
  unfold goes_on, on_frame, wire. cbv zeta. generalize (str_field (lit "type") value). intros type.
  destruct (str_eqb type (lit "message_start")) eqn:E1.
  { apply str_eqb_spec in E1 as ->. done. }
  destruct (str_eqb type (lit "content_block_start")) eqn:E2.
  { intros _. unfold read_block_start. destruct (index_of value) as [i|]; [|done].
    destruct (get (lit "content_block") value) as [block|]; [|done]. simpl. destruct (open_block block) as [st|]; [|done].
    unfold seq, modify. rewrite emit_some_eq. simpl. by rewrite app_nil_r. }
  destruct (str_eqb type (lit "content_block_delta")) eqn:E3.
  { intros _. unfold read_block_delta. destruct (index_of value) as [i|]; [|done].
    destruct (get (lit "delta") value) as [delta|]; [|done]. unfold apply_delta, wire_delta. cbv zeta. generalize (str_field (lit "type") delta). intros dtype.
    destruct (str_eqb dtype (lit "text_delta")); [|destruct (str_eqb dtype (lit "thinking_delta")); [|destruct (str_eqb dtype (lit "signature_delta"));
      [|destruct (str_eqb dtype (lit "input_json_delta")); [|done]]]]; unfold look, seq, modify; rewrite ?emit_some_eq; simpl;
      destruct (blocks s !! i) as [[]|] eqn:E; simpl; unfold put_block, put, core; simpl; rewrite ?E; done. }
  destruct (str_eqb type (lit "content_block_stop")) eqn:E4.
  { intros _. unfold read_block_stop. destruct (index_of value) as [i|]; [|done]. unfold seq, modify, close_index, look. simpl.
    destruct (blocks s !! i) as [st|] eqn:E; simpl; unfold core; simpl.
    - unfold seq, modify, done_block. rewrite emit_some_eq. simpl. rewrite ?E. done.
    - rewrite delete_id by done. done. }
  destruct (str_eqb type (lit "message_delta")) eqn:E5; [done|].
  destruct (str_eqb type (lit "message_stop")) eqn:E6; [done|]. destruct (str_eqb type (lit "error")) eqn:E7; [done|]. done.
Qed.

(** ** Blocks are never forgotten *)

Definition core_ok (c : Core) : Prop := NoDup (snd c) /\ forall i, i ∈ snd c <-> is_Some (fst c !! i).

Lemma put_ok i st c : core_ok c -> core_ok (put i st c).
Proof.
  intros [Hn Hd]. unfold core_ok, put. simpl. destruct (fst c !! i) as [old|] eqn:E.
  - split; [done|]. intros j. rewrite Hd. destruct (decide (j = i)) as [->|]; [rewrite lookup_insert_eq, E; naive_solver|by rewrite lookup_insert_ne].
  - assert (i ∉ snd c) as Hi by (rewrite Hd, E; by intros [? ?]). split; [apply NoDup_app; split_and!; [done|set_solver|apply NoDup_singleton]|].
    intros j. rewrite elem_of_app, list_elem_of_singleton, Hd. destruct (decide (j = i)) as [->|]; [rewrite lookup_insert_eq; naive_solver|].
    rewrite lookup_insert_ne by done. naive_solver.
Qed.

Lemma effect_ok w c : core_ok c -> core_ok (fst (effect w c)).
Proof.
  intros Hc. destruct w; simpl; repeat case_match; simpl; auto using put_ok. destruct Hc as [Hn Hd]. split; simpl.
  - by apply NoDup_ListNoDup, List.NoDup_filter, NoDup_ListNoDup.
  - intros j. rewrite list_elem_of_In, filter_In, negb_true_iff, N.eqb_neq, <- list_elem_of_In, Hd.
    destruct (decide (j = index)) as [->|]; [rewrite lookup_delete_eq; split; [naive_solver|by intros []]|]. rewrite lookup_delete_ne by done. naive_solver.
Qed.

(** Emissions that do not end a run. *)
Definition plain (out : list Emission) : Prop := exists es, out = List.map Ok es /\ Forall (fun e => is_completed e = false) es.

Lemma plain_nil : plain [].
Proof. by exists []. Qed.
Lemma plain_app out1 out2 : plain out1 -> plain out2 -> plain (out1 ++ out2).
Proof. intros (es1 & -> & H1) (es2 & -> & H2). exists (es1 ++ es2). by rewrite map_app, Forall_app. Qed.
Lemma plain_event e : is_completed e = false -> plain [Ok e].
Proof. intros He. exists [e]. by repeat constructor. Qed.

Lemma plain_done i : plain (opt_event (OutputItemDone <$> i)).
Proof. destruct i; [by apply plain_event|apply plain_nil]. Qed.

Lemma effect_plain w c : plain (snd (effect w c)).
Proof.
  destruct w; simpl; unfold text_event, thinking_event; repeat case_match; simpl; auto using plain_nil, plain_done; try (by apply plain_event).
  destruct st; [by apply plain_event..|apply plain_nil].
Qed.

(** Everything that is open is handed over, in the order it was opened. *)
Lemma close_all l s : NoDup l ->
  blocks (fst (for_each close_index l s)) = foldr delete (blocks s) (rev l)
  /\ snd (for_each close_index l s) = concat (List.map (fun i => match blocks s !! i with Some st => opt_event (OutputItemDone <$> close_block st) | None => [] end) l).
Proof.
  revert s. induction l as [|i l IH]; intros s Hl; [done|]. apply NoDup_cons in Hl as [Hi Hl]. simpl. unfold seq.
  assert (close_index i s = (set_blocks (delete i (blocks s)) (open s) s,
    match blocks s !! i with Some st => opt_event (OutputItemDone <$> close_block st) | None => [] end)) as ->.
  { unfold close_index, look. destruct (blocks s !! i) as [st|] eqn:E; [unfold seq, modify, done_block; by rewrite emit_some_eq|].
    rewrite delete_id by done. by destruct s. }
  specialize (IH (set_blocks (delete i (blocks s)) (open s) s) Hl). destruct (for_each close_index l _) as [s2 e2]. simpl in *. destruct IH as [B E].
  rewrite foldr_app. simpl. split; [done|]. rewrite E. f_equal. f_equal. apply map_ext_in. intros j Hj%list_elem_of_In.
  by rewrite lookup_delete_ne by (intros ->; done).
Qed.

Definition pending_item (c : Core) (i : N) : option Item := fst c !! i ≫= close_block.

Lemma flush_eq s : NoDup (open s) ->
  snd (flush s) = concat (List.map (fun i => opt_event (OutputItemDone <$> pending_item (core s) i)) (open s)).
Proof.
  intros Hn. unfold flush, look, seq, modify. destruct (close_all (open s) (set_blocks (blocks s) [] s) Hn) as [_ E].
  destruct (for_each close_index (open s) _) as [s2 e2]. simpl in *. rewrite E. f_equal. apply map_ext. intros i. unfold pending_item. simpl.
  by destruct (blocks s !! i).
Qed.

Lemma flush_done s : NoDup (open s) -> done_items (snd (flush s)) = omap (pending_item (core s)) (open s).
Proof.
  intros Hn. rewrite flush_eq by done. induction (open s) as [|i l IH]; [done|]. simpl. rewrite done_items_app.
  apply NoDup_cons in Hn as [_ Hn]. rewrite IH by done. by destruct (pending_item (core s) i).
Qed.

Lemma flush_plain s : plain (snd (flush s)).
Proof.
  assert (forall l s, plain (snd (for_each close_index l s))) as Hall.
  { induction l as [|i l IH]; intros s0; simpl; [apply plain_nil|]. unfold seq. pose proof (IH (fst (close_index i s0))) as IHs.
    assert (plain (snd (close_index i s0))) as Hi.
    { unfold close_index, look. destruct (blocks s0 !! i); [|apply plain_nil]. unfold seq, modify, done_block. rewrite emit_some_eq. apply plain_done. }
    destruct (close_index i s0) as [s1 e1]. simpl in *. destruct (for_each close_index l s1) as [s2 e2]. by apply plain_app. }
  unfold flush, look, seq, modify. pose proof (Hall (open s) (set_blocks (blocks s) [] s)) as Hp.
  by destruct (for_each close_index (open s) (set_blocks (blocks s) [] s)) as [s2 e2].
Qed.

(** How a run stands: it goes on with its blocks in order, or it ended with exactly one
    completion or error. *)
Definition ends_once (r : AnthropicState * list Emission * bool) (closed : bool) : Prop :=
  let '(s, out, stopped) := r in
  exists es ending, out = emissions es ending /\ Forall (fun e => is_completed e = false) es
    /\ (forall e, ending = Completes e -> is_completed e = true)
    /\ (stopped = false -> ending = Running /\ core_ok (core s)) /\ (stopped = true -> closed = false -> ending <> Running).

Lemma conclude_ends s : exists ending, snd (conclude s) = emissions [] ending /\ ending <> Running /\ forall e, ending = Completes e -> is_completed e = true.
Proof. unfold conclude, look. repeat case_match; [by eexists (Fails _)|by eexists (Fails _)|eexists (Completes _); split_and!; [done|done|naive_solver]]. Qed.

Lemma ends_once_finish s closed : ends_once (returning (finish s)) closed.
Proof.
  unfold finish, seq. destruct (flush_plain s) as (es & E & Hes). destruct (flush s) as [s1 e1]. simpl in E. subst e1.
  destruct (conclude_ends s1) as (ending & Hc & Hr & Hd).
  destruct (conclude s1) as [s2 e2]. simpl in *. subst e2. exists es, ending. rewrite emissions_app, app_nil_r. by split_and!.
Qed.

Lemma ends_once_fail e s closed : ends_once (returning (fail e s)) closed.
Proof. exists [], (Fails e). by split_and!. Qed.

Lemma ends_once_round p s : core_ok (core s) -> ends_once (on_poll p s) (bool_decide (p = ReceiverClosed)).
Proof.
  intros Hs. destruct p as [data|message| | |]; simpl.
  - assert (forall b, ends_once (continuing (skip s)) b) as Hskip by (intros b; exists [], Running; by split_and!).
    destruct (is_nil (trim data)); [apply Hskip|]. destruct (from_str (trim data)) as [value|]; [|apply Hskip].
    destruct (goes_on value) eqn:Eg.
    + pose proof (on_frame_effect value s Eg) as He. destruct (on_frame value s) as [[s' out] stopped]. destruct He as [-> He].
      destruct (effect_plain (wire value) (core s)) as (es & Ees & Hes). pose proof (effect_ok (wire value) (core s) Hs) as Hok.
      rewrite <- He in Ees, Hok. simpl in *. subst out. exists es, Running. unfold emissions. rewrite app_nil_r. by split_and!.
    + unfold goes_on in Eg. unfold on_frame. cbv zeta. apply negb_false_iff, orb_true_iff in Eg. destruct Eg as [E|E]; apply str_eqb_spec in E; rewrite E.
      * apply ends_once_finish.
      * apply ends_once_fail.
  - apply ends_once_fail.
  - apply ends_once_finish.
  - destruct (is_some (stop s)); [apply ends_once_finish|apply ends_once_fail].
  - exists [], Running. by split_and!.
Qed.

(** Whatever arrives on the wire: a run is over exactly once, with one completion or
    one error as its last event (none when the receiver went away), and until then
    every block that was opened is kept, once, to be handed over at the end. *)
Theorem anthropic_run_ends_once (polls : list Poll) :
  let '(s, out, stopped) := process_anthropic_sse polls in
  exists es ending, out = emissions es ending /\ Forall (fun e => is_completed e = false) es
    /\ (forall e, ending = Completes e -> is_completed e = true)
    /\ (stopped = false -> ending = Running /\ done_items (snd (flush s)) = omap (pending_item (core s)) (open s) /\ core_ok (core s))
    /\ (stopped = true -> ReceiverClosed ∉ polls -> ending <> Running).
Proof.
  unfold process_anthropic_sse. assert (core_ok (core start)) as Hs by (split; [apply NoDup_nil_2|intros i; simpl; set_unfold; split; [done|by intros []]]).
  generalize dependent start. induction polls as [|p polls IH]; intros s Hs; simpl.
  { exists [], Running. split_and!; try done. intros _. split_and!; [done|apply flush_done, Hs|done]. }
  pose proof (ends_once_round p s Hs) as Hr. destruct (on_poll p s) as [[s1 o1] stopped]. destruct Hr as (es1 & end1 & -> & C1 & D1 & Hgo & Hend).
  destruct stopped.
  { exists es1, end1. split_and!; try done. intros _ Hn. apply Hend; [done|]. apply bool_decide_eq_false_2. set_solver. }
  destruct (Hgo eq_refl) as [-> Hs1]. specialize (IH s1 Hs1). destruct (run on_poll polls s1) as [[s2 o2] stopped2].
  destruct IH as (es2 & end2 & -> & C2 & D2 & G2 & H2). exists (es1 ++ es2), end2. unfold emissions at 1. rewrite app_nil_r, emissions_app, Forall_app.
  split_and!; try done. set_solver.
Qed.

(** ** A message, block by block *)

(** The blocks of a message: the texts of their deltas. *)
Inductive Block :=
| TextBlock (deltas : list str)
| ThinkingBlock (signature : option str) (deltas : list (str + str))
| ToolBlock (id name : str) (deltas : list str).

Definition thinking_wire (i : N) (d : str + str) : Wire := match d with inl t => WThinking i t | inr sig => WSignature i sig end.

Definition block_wire (ib : N * Block) : list Wire :=
  let i := fst ib in
  match snd ib with
  | TextBlock ds => WStart i (BText []) :: List.map (WText i) ds ++ [WStop i]
  | ThinkingBlock sig ds => WStart i (BThinking [] sig) :: List.map (thinking_wire i) ds ++ [WStop i]
  | ToolBlock id name ds => WStart i (BToolUse id name []) :: List.map (WJson i) ds ++ [WStop i]
  end.

Definition thoughts (ds : list (str + str)) : str := concat (omap (fun d => match d with inl t => Some t | inr _ => None end) ds).
Definition signed (sig : option str) (ds : list (str + str)) : option str :=
  fold_left (fun acc d => match d with inl _ => acc | inr t => Some (unwrap_or acc [] ++ t) end) ds sig.

Definition block_item (b : Block) : Item :=
  match b with
  | TextBlock ds => Message None (lit "assistant") [MsgOutputText (concat ds)] None None
  | ThinkingBlock sig ds => Reasoning None [] (Some [ReasoningText (thoughts ds)]) (signed sig ds) None
  | ToolBlock id name ds => FunctionCall None name None (if is_nil (trim (concat ds)) then lit "{}" else concat ds) None id None
  end.

(** An empty text block makes no item. *)
Definition block_ok (b : Block) : Prop := match b with TextBlock ds => concat ds <> [] | _ => True end.

Fixpoint effects (ws : list Wire) (c : Core) : Core * list Emission :=
  match ws with
  | [] => (c, [])
  | w :: ws => let '(c1, e1) := effect w c in let '(c2, e2) := effects ws c1 in (c2, e1 ++ e2)
  end.

Lemma effects_app ws1 ws2 c : effects (ws1 ++ ws2) c = let '(c1, e1) := effects ws1 c in let '(c2, e2) := effects ws2 c1 in (c2, e1 ++ e2).
Proof.
  revert c. induction ws1 as [|w ws1 IH]; intros c; simpl; [by destruct (effects ws2 c)|]. destruct (effect w c) as [c1 e1]. rewrite IH.
  destruct (effects ws1 c1) as [c2 e2]. destruct (effects ws2 c2) as [c3 e3]. by rewrite app_assoc.
Qed.

(** One block is open. *)
Definition only (i : N) (st : BlockState) : Core := ({[i := st]}, [i]).
Definition nothing : Core := (∅, []).

Lemma put_only i st st' : put i st' (only i st) = only i st'.
Proof. unfold put, only. simpl. by rewrite lookup_singleton_eq, insert_singleton_eq. Qed.
Lemma put_nothing i st : put i st nothing = only i st.
Proof. done. Qed.
Lemma lookup_only i st : fst (only i st) !! i = Some st.
Proof. apply lookup_singleton_eq. Qed.

Lemma stop_only i st : effect (WStop i) (only i st) = (nothing, opt_event (OutputItemDone <$> close_block st)).
Proof.
  simpl. rewrite lookup_singleton_eq, N.eqb_refl, delete_singleton_eq. done.
Qed.

(** The deltas of a block, with the text streamed into it. *)
Lemma text_deltas_effect i ds t : exists es,
  effects (List.map (WText i) ds) (only i (BText t)) = (only i (BText (t ++ concat ds)), List.map Ok es)
  /\ brackets (InMessage t) es = Some (InMessage (t ++ concat ds)) /\ done_items (List.map Ok es) = [] /\ Forall (fun e => is_completed e = false) es.
Proof.
  revert t. induction ds as [|d ds IH]; intros t; simpl; [exists []; by rewrite app_nil_r|]. rewrite lookup_singleton_eq, put_only.
  destruct (IH (t ++ d)) as (es & -> & B & D & C). rewrite <- app_assoc in *. unfold text_event. destruct d as [|x d]; simpl.
  - exists es. by rewrite app_nil_r in *.
  - exists (OutputTextDelta (x :: d) :: es). by split_and!; [..|constructor].
Qed.

Lemma thinking_deltas_effect i ds t sig : exists es,
  effects (List.map (thinking_wire i) ds) (only i (BThinking t sig)) = (only i (BThinking (t ++ thoughts ds) (signed sig ds)), List.map Ok es)
  /\ brackets (InReasoning t) es = Some (InReasoning (t ++ thoughts ds)) /\ done_items (List.map Ok es) = [] /\ Forall (fun e => is_completed e = false) es.
Proof.
  revert t sig. induction ds as [|[d|d] ds IH]; intros t sig; simpl; [exists []; by rewrite app_nil_r|..]; rewrite lookup_singleton_eq, put_only.
  - destruct (IH (t ++ d) sig) as (es & -> & B & D & C). unfold thoughts in *. simpl. rewrite <- app_assoc in *. unfold thinking_event.
    destruct d as [|x d]; simpl; [exists es; by rewrite app_nil_r in *|].
    eexists (ReasoningContentDelta (x :: d) _ :: es). split_and!; [reflexivity|done|done|by constructor].
  - destruct (IH t (Some (unwrap_or sig [] ++ d))) as (es & -> & B & D & C). exists es. by split_and!.
Qed.

Lemma json_deltas_effect i ds id name t : exists es,
  effects (List.map (WJson i) ds) (only i (BToolUse id name t)) = (only i (BToolUse id name (t ++ concat ds)), List.map Ok es)
  /\ brackets Idle es = Some Idle /\ done_items (List.map Ok es) = [] /\ Forall (fun e => is_completed e = false) es.
Proof.
  revert t. induction ds as [|d ds IH]; intros t; simpl; [exists []; by rewrite app_nil_r|]. rewrite lookup_singleton_eq, put_only.
  destruct (IH (t ++ d)) as (es & -> & B & D & C). rewrite <- app_assoc. exists (ToolCallInputDelta id (Some id) d :: es). by split_and!; [..|constructor].
Qed.

Lemma effects_cons w ws c : effects (w :: ws) c = let '(c1, e1) := effect w c in let '(c2, e2) := effects ws c1 in (c2, e1 ++ e2).
Proof. done. Qed.

(** A block begins, streams and ends. *)
Lemma block_run i st ws st' out : effects ws (only i st) = (only i st', out) ->
  effects (WStart i st :: ws ++ [WStop i]) nothing
  = (nothing, opt_event (OutputItemAdded <$> announce_block st) ++ out ++ opt_event (OutputItemDone <$> close_block st')).
Proof.
  intros E. rewrite effects_cons. change (effect (WStart i st) nothing) with (only i st, opt_event (OutputItemAdded <$> announce_block st)).
  cbv beta iota. rewrite effects_app, E, effects_cons, stop_only. simpl. by rewrite app_nil_r.
Qed.

Lemma block_effect i b : block_ok b -> exists es,
  effects (block_wire (i, b)) nothing = (nothing, List.map Ok es) /\ brackets Idle es = Some Idle
  /\ done_items (List.map Ok es) = [block_item b] /\ Forall (fun e => is_completed e = false) es.
Proof.
  intros Hb. destruct b as [ds|sig ds|id name ds]; simpl in Hb.
  - destruct (text_deltas_effect i ds []) as (es & E & B & D & C). apply block_run in E. simpl in B.
    exists ([OutputItemAdded empty_message] ++ es ++ [OutputItemDone (block_item (TextBlock ds))]). rewrite !map_app, !done_items_app, D, !Forall_app. split_and!; try done.
    + etrans; [exact E|]. simpl. by destruct (concat ds) as [|c t].
    + rewrite brackets_app. simpl. rewrite brackets_app, B. cbn -[str_eqb lit]. by rewrite app_nil_r, !str_eqb_refl.
    + by repeat constructor.
    + by repeat constructor.
  - destruct (thinking_deltas_effect i ds [] sig) as (es & E & B & D & C). apply block_run in E. simpl in B.
    exists ([OutputItemAdded (empty_reasoning None)] ++ es ++ [OutputItemDone (block_item (ThinkingBlock sig ds))]). rewrite !map_app, !done_items_app, D, !Forall_app.
    split_and!; try done; [|by repeat constructor..]. rewrite brackets_app. simpl. rewrite brackets_app, B. cbn -[str_eqb lit]. by rewrite app_nil_r, str_eqb_refl.
  - destruct (json_deltas_effect i ds id name []) as (es & E & B & D & C). apply block_run in E.
    exists (es ++ [OutputItemDone (block_item (ToolBlock id name ds))]). rewrite map_app, done_items_app, D, Forall_app, brackets_app, B.
    split_and!; try done. by repeat constructor.
Qed.

Lemma blocks_effect ibs : Forall (fun ib => block_ok (snd ib)) ibs -> exists es,
  effects (concat (List.map block_wire ibs)) nothing = (nothing, List.map Ok es) /\ brackets Idle es = Some Idle
  /\ done_items (List.map Ok es) = List.map (fun ib => block_item (snd ib)) ibs /\ Forall (fun e => is_completed e = false) es.
Proof.
  induction ibs as [|[i b] ibs IH]; intros Hall; [by exists []|]. apply Forall_cons in Hall as [Hb Hall].
  destruct (IH Hall) as (es2 & E2 & B2 & D2 & C2). destruct (block_effect i b Hb) as (es1 & E1 & B1 & D1 & C1). exists (es1 ++ es2).
  simpl concat. rewrite effects_app, E1, E2, map_app, brackets_app, B1, done_items_app, D1, D2, Forall_app. done.
Qed.

(** Frames that say nothing about blocks may be anywhere. *)
Definition about_blocks (w : Wire) : bool := match w with WOther => false | _ => true end.

Lemma effects_about ws c : effects (List.filter about_blocks ws) c = effects ws c.
Proof.
  revert c. induction ws as [|w ws IH]; intros c; [done|]. rewrite effects_cons. destruct (about_blocks w) eqn:E; simpl List.filter; rewrite E.
  - rewrite effects_cons. destruct (effect w c) as [c1 e1]. by rewrite IH.
  - destruct w; try done. simpl. rewrite IH. by destruct (effects ws c).
Qed.

Lemma anthropic_run_frames datas s : Forall (fun v => goes_on v = true) (frames datas) ->
  let '(s', out, stopped) := run on_poll (List.map PollEvent datas) s in
  stopped = false /\ (core s', out) = effects (List.map wire (frames datas)) (core s).
Proof.
  revert s. induction datas as [|data datas IH]; intros s Hc; [done|]. rewrite frames_cons in *. cbn [List.map run on_poll].
  destruct (is_nil (trim data)); [specialize (IH s Hc); simpl; by destruct (run _ _ _) as [[? ?] ?]|].
  destruct (from_str (trim data)) as [value|]; [|specialize (IH s Hc); simpl; by destruct (run _ _ _) as [[? ?] ?]].
  apply Forall_cons in Hc as [Hg Hc]. pose proof (on_frame_effect value s Hg) as He. destruct (on_frame value s) as [[s1 o1] stopped].
  destruct He as [-> He]. cbn [List.map]. rewrite effects_cons, <- He. specialize (IH s1 Hc). destruct (run on_poll _ s1) as [[s2 o2] stopped2].
  destruct IH as [-> IH]. split; [done|]. cbv beta iota. by rewrite <- IH.
Qed.

(** The end of the stream, or the frame that says so. *)
Definition ending_poll (p : Poll) : Prop :=
  p = PollEnd \/ exists data value, p = PollEvent data /\ is_nil (trim data) = false /\ from_str (trim data) = Some value
    /\ get_str (lit "type") value = Some (lit "message_stop").

Lemma anthropic_ending_poll p s : ending_poll p -> on_poll p s = returning (finish s).
Proof.
  intros [->|(data & value & -> & Hn & Hv & Ht)]; cbn [on_poll]; [done|]. rewrite Hn, Hv. unfold on_frame, str_field. rewrite Ht. done.
Qed.

(** C20. A message whose blocks come one after the other, however their texts are cut into
    deltas and whatever other frames are in between, is delivered block by block: each
    is announced, streamed and finished under the protocol of the turn, which accepts
    every event; the finished items are the blocks, in order; and the run ends. *)
Theorem anthropic_message_is_delivered (datas : list str) (p : Poll) (ibs : list (N * Block))
    (user_turn_item : list MessageContent -> bool) (cut : bool) :
  Forall (fun v => goes_on v = true) (frames datas) ->
  List.filter about_blocks (List.map wire (frames datas)) = concat (List.map block_wire ibs) ->
  Forall (fun ib => block_ok (snd ib)) ibs -> ending_poll p ->
  exists es ending, snd (fst (process_anthropic_sse (List.map PollEvent datas ++ [p]))) = emissions es ending
    /\ ending <> Running /\ bracketed Idle es ending
    /\ done_items (List.map Ok es) = List.map (fun ib => block_item (snd ib)) ibs
    /\ is_some (consume_all user_turn_item cut None es) = true.
Proof.
  intros Hg Hw Hb Hp. destruct (blocks_effect ibs Hb) as (es & E & B & D & C). rewrite <- Hw, effects_about in E.
  unfold process_anthropic_sse. rewrite stream_run_app. pose proof (anthropic_run_frames datas start Hg) as Hr. destruct (run on_poll _ start) as [[s out] stopped].
  destruct Hr as [-> Hr]. change (core start) with nothing in Hr. rewrite E in Hr. injection Hr as Hbl Hop ->.
  cbn [run]. rewrite anthropic_ending_poll by done. unfold returning.
  destruct (conclude_ends (set_blocks (blocks s) [] s)) as (ending & Hf & Hr & Hd).
  assert (snd (finish s) = emissions [] ending) as Hf'.
  { unfold finish, flush, look, seq, modify. rewrite Hop. simpl. by destruct (conclude (set_blocks (blocks s) [] s)). }
  exists es, ending. simpl. rewrite Hf'. unfold emissions. simpl. split_and!; try done.
  - split; [by exists Idle|done|done].
  - destruct (bracketed_is_consumed user_turn_item cut Idle es Idle None B eq_refl) as (act & -> & _). done.
Qed.

(** ** Counts *)

Definition reported (key : str) (frame : Value) : option Z := frame_usage frame ≫= fun u => count_field u key.
Definition merged (fs : list Value) : option TokenUsage := fold_left merge_anthropic_usage fs None.

(** A running total for the last counts of fresh, cached and cache-filling input, and
    of output. *)
Definition tracks (o : option TokenUsage) (uncached read write output : option Z) : Prop :=
  match o with
  | None => uncached = None /\ read = None /\ write = None /\ output = None
  | Some u =>
      input_tokens u = (or_zero uncached + or_zero read + or_zero write)%Z /\ cached_input_tokens u = or_zero read
      /\ cache_write_input_tokens u = or_zero write /\ output_tokens u = or_zero output
      /\ total_tokens u = (input_tokens u + output_tokens u)%Z
  end.

Definition small (o : option Z) : Prop := (0 <= or_zero o < 2 ^ 61)%Z.

Lemma anthropic_merge_tracks prev f uncached read write output :
  tracks prev uncached read write output -> small uncached -> small read -> small write -> small output ->
  small (newer (reported (lit "input_tokens") f) uncached) -> small (newer (reported (lit "cache_read_input_tokens") f) read) ->
  small (newer (reported (lit "cache_creation_input_tokens") f) write) -> small (newer (reported (lit "output_tokens") f) output) ->
  tracks (merge_anthropic_usage prev f)
    (newer (reported (lit "input_tokens") f) uncached) (newer (reported (lit "cache_read_input_tokens") f) read)
    (newer (reported (lit "cache_creation_input_tokens") f) write) (newer (reported (lit "output_tokens") f) output).
Proof.
  unfold merge_anthropic_usage, reported. destruct (frame_usage f) as [u|]; [|done]. cbn [mbind option_bind].
  generalize (count_field u (lit "input_tokens")) (count_field u (lit "cache_read_input_tokens"))
    (count_field u (lit "cache_creation_input_tokens")) (count_field u (lit "output_tokens")).
  intros un re wr ou. destruct (is_none un && is_none re && is_none wr && is_none ou) eqn:E.
  { destruct un, re, wr, ou; done. }
  clear E. unfold tracks, small, or_zero. destruct prev as [pu|]; simpl.
  - intros (E1 & E2 & E3 & E4 & _). rewrite E1, E2, E3, E4. clear. intros. destruct un, re, wr, ou; simpl in *; unfold_int; lia.
  - intros (-> & -> & -> & ->). intros. destruct un, re, wr, ou; simpl in *; unfold_int; lia.
Qed.

Lemma anthropic_latest_small `{!NumberLaws Number} key fs :
  Forall (fun f => forall key z, reported key f = Some z -> (z < 2 ^ 61)%Z) fs -> small (latest (reported key) fs).
Proof.
  intros Hs. apply latest_range; [lia|]. eapply Forall_impl; [exact Hs|]. intros f Hf z Hz. split; [|by eapply Hf].
  unfold reported in Hz. apply bind_Some in Hz as (u & _ & Hz). apply count_field_range in Hz. lia.
Qed.

(** The running total after any frames is made of the last count of each kind that
    was reported, the cached input counted once in the input, as long as counts stay
    below [2^61]; what a frame leaves out is kept. *)
Lemma anthropic_usage_is_latest `{!NumberLaws Number} (fs : list Value) :
  Forall (fun f => forall key z, reported key f = Some z -> (z < 2 ^ 61)%Z) fs ->
  tracks (merged fs) (latest (reported (lit "input_tokens")) fs) (latest (reported (lit "cache_read_input_tokens")) fs)
    (latest (reported (lit "cache_creation_input_tokens")) fs) (latest (reported (lit "output_tokens")) fs).
Proof.
  induction fs as [|f fs IH] using rev_ind; [done|]. intros Hall. pose proof Hall as Hall'. rewrite Forall_app in Hall'. destruct Hall' as [Hfs _].
  unfold merged in *. rewrite fold_left_app, !latest_snoc. simpl. apply anthropic_merge_tracks; rewrite <- ?latest_snoc; auto using anthropic_latest_small.
Qed.
End Anthropic.
End Anthropic.

(** ** Samples *)

Definition typed (type : string) (rest : list (string * Value Z)) : Value Z := jobj (("type"%string, jstr type) :: rest).
Definition block_start (i : Z) (block : Value Z) : Value Z := typed "content_block_start" [("index"%string, JNumber i); ("content_block"%string, block)].
Definition block_delta (i : Z) (delta : Value Z) : Value Z := typed "content_block_delta" [("index"%string, JNumber i); ("delta"%string, delta)].
Definition block_stop (i : Z) : Value Z := typed "content_block_stop" [("index"%string, JNumber i)].
Definition text_delta_frame (i : Z) (text : string) : Value Z := block_delta i (typed "text_delta" [("text"%string, jstr text)]).

Definition anthropic_table : list (string * Value Z) := [
  ("start"%string, typed "message_start" [("message"%string, jobj [("id"%string, jstr "m"); ("usage"%string, jobj [("input_tokens"%string, JNumber 10%Z); ("output_tokens"%string, JNumber 1%Z)])])]);
  ("t0"%string, block_start 0 (typed "text" [("text"%string, JString [])]));
  ("t1"%string, text_delta_frame 0 "Hel"); ("t2"%string, text_delta_frame 0 "lo"); ("t3"%string, block_stop 0);
  ("ping"%string, typed "ping" []);
  ("c0"%string, block_start 1 (typed "tool_use" [("id"%string, jstr "a"); ("name"%string, jstr "ls")])); ("c3"%string, block_stop 1);
  ("delta"%string, typed "message_delta" [("delta"%string, jobj [("stop_reason"%string, jstr "tool_use")]); ("usage"%string, jobj [("output_tokens"%string, JNumber 7%Z)])]);
  ("stop"%string, typed "message_stop" [])].
#[local] Instance anthropic_text : SerdeText Z := table_text anthropic_table.

Definition anthropic_datas : list str := List.map lit ["start"; "t0"; "t1"; "ping"; "t2"; "t3"; "c0"; "c3"; "delta"]%string.
Definition anthropic_blocks : list (N * Anthropic.Block) :=
  [(0%N, Anthropic.TextBlock [lit "Hel"; lit "lo"]); (1%N, Anthropic.ToolBlock (lit "a") (lit "ls") [])].

Example anthropic_sample :
  match Anthropic.process_anthropic_sse (List.map PollEvent (anthropic_datas ++ [lit "stop"])) with
  | (_, out, stopped) => stopped = true
      /\ done_items out = [Message None (lit "assistant") [MsgOutputText (lit "Hello")] None None; FunctionCall None (lit "ls") None (lit "{}") None (lit "a") None]
      /\ last out = Some (Ok (Completed (lit "m") (Some (mkUsage 10 0 0 7 0 17 None)) None (Some true)))
  end.
Proof. vm_compute. split_and!; reflexivity. Qed.

Lemma anthropic_message_is_delivered_witness :
  exists es ending, snd (fst (Anthropic.process_anthropic_sse (List.map PollEvent anthropic_datas ++ [PollEvent (lit "stop")]))) = emissions es ending
    /\ ending <> Running /\ bracketed Idle es ending
    /\ done_items (List.map Ok es) = [Message None (lit "assistant") [MsgOutputText (lit "Hello")] None None; FunctionCall None (lit "ls") None (lit "{}") None (lit "a") None].
Proof.
  destruct (Anthropic.anthropic_message_is_delivered anthropic_datas (PollEvent (lit "stop")) anthropic_blocks (fun _ => true) false)
    as (es & ending & E & R & B & D & _).
  - unfold frames. vm_compute omap. repeat constructor.
  - vm_compute. reflexivity.
  - repeat constructor. discriminate.
  - right. eexists _, _. split; [reflexivity|]. split; [reflexivity|]. split; [vm_compute; reflexivity|]. vm_compute. reflexivity.
  - exists es, ending. split; [exact E|]. split; [exact R|]. split; [exact B|]. etrans; [exact D|]. vm_compute. reflexivity.
Defined.

(** A text block without text is announced to the turn and never finished: the next
    item is announced while it is still the active one. *)
Example empty_block_stays_open :
  let ws := [Anthropic.WStart 0 (Anthropic.BText []); Anthropic.WStop 0] in
  snd (Anthropic.effects (Number:=Z) ws Anthropic.nothing) = [Ok (OutputItemAdded empty_message)]
  /\ bracket_step (Number:=Z) (InMessage []) (OutputItemAdded empty_message) = None.
Proof. vm_compute. split; reflexivity. Qed.

(** A delta for a block that was never opened is streamed without an announcement:
    the turn has no active item and rejects it. *)
Example unopened_delta_is_rejected :
  snd (Anthropic.effects (Number:=Z) [Anthropic.WText 0 (lit "hi")] Anthropic.nothing) = [Ok (OutputTextDelta (lit "hi"))]
  /\ consume (Number:=Z) (fun _ => true) false None (OutputTextDelta (lit "hi")) = None.
Proof. vm_compute. split; reflexivity. Qed.
